(* ===== verification/_CoqProject ===== *)
-Q . S2P
Prelude.v
Mlvalues.v
Bng.v
NatStubs.v
Freelist.v
PageTable.v
Context.v
Alloc.v
Str.v
Ints.v
Stacks.v
Array.v
Hash.v
Md5.v
Globroots.v
MinorGc.v
MajorAlloc.v
Collect.v
MajorGc.v
Marking.v
Snapshot.v
Sweep.v
Compare.v
Extern.v
Intern.v
Marshal.v
MarshalOut.v
Roundtrip.v
Io.v
IoOut.v
IoIn.v
Lexing.v
Parsing.v
ParseRun.v
Strstubs.v
StrMatch.v
Warshall.v
YaccClosure.v
Digraph.v
Machine.v
InterpData.v
InterpArith.v
InterpCall.v
InterpObj.v
Interp.v
