(* ===== verification/Prelude.v ===== *)
(** * The OCaml bytecode runtime and the arbitrary-precision library

    The repository is an OCaml system whose runtime is reentrant: all of the
    state of a program is in a context, [struct caml_global_context], passed to
    every function.  This development models C code of the runtime
    (byterun/), of the libraries num and str (otherlibs/) and of the parser
    generator (yacc/) as functions on explicit states, and proves what they
    compute.  The platform is a 64-bit little
    endian one, the interpreter loop is the portable one (no threaded code),
    no assembly replaces a C function, and [DEBUG] is not defined.

    ** Conventions

    Integers are [Z], reduced to their width where the C code wraps ([u64],
    [s64], [u32], [s32]).  Memory is a finite map from addresses to 64-bit words;
    an access to an address that holds none is a fault.  Stateful code is
    written in the monad [M] below: a function from a state to an error or to
    a state and a result.  Errors tell exceptions (a [longjmp] with the context
    of that moment), fatal errors and faults apart.  Code that is not in the
    repository (the C library, system calls), or that a
    component reaches through an interface, is an operation of a class:
    [Runtime] (Context.v), [Barrier] (Array.v), [CustomCompare] (Compare.v),
    [Kernel] with the laws [FileLaws] (Io.v), [MajorHeap] with the laws
    [HeapLaws] (MinorGc.v), or a parameter such as [malloc].  Theorems that
    assume laws of them come with an instance; MajorAlloc.v proves that
    allocation from the free list has the laws that the minor collector asks
    for.

    ** Files

    - Prelude.v (this file): machine integers, the monad and its weakest
      preconditions, segments of memory, bounded loops.
    - Mlvalues.v: values, headers, tags, colours (mlvalues.h, gc.h).
    - Bng.v: digits and digit arrays (otherlibs/num/bng_digit.c, bng.c).
      NatStubs.v: the primitives of module Nat (nat_stubs.c) over them.
    - Freelist.v: the free list of the major heap (freelist.c): both allocation
      policies, merging by the sweeper, heap extension.
    - PageTable.v: the page table, a hash table of pages (memory.c).
    - Context.v: the fields of the context the other files use, minor-heap
      allocation, the write barrier, exceptions (context.h, memory.c, alloc.c,
      fail.c).  Alloc.v: bytes of memory, allocation of blocks and strings,
      exceptions with an argument (alloc.c, fail.c).
    - Str.v: strings (str.c).  Ints.v: parsed and boxed integers (ints.c,
      custom.c, int64_native.h).  Array.v: arrays (array.c).
    - Hash.v: generic hashing (hash.c).  Md5.v: digests (md5.c), with RFC 1321 as
      the reference.  Compare.v: structural comparison (compare.c).
    - Extern.v, Intern.v: marshalling and unmarshalling (extern.c, intern.c);
      Marshal.v: the format and the reader, MarshalOut.v: the writer,
      Roundtrip.v: one after the other.
    - Globroots.v: the skip lists of global roots (globroots.c).
    - MinorGc.v: the minor collector (minor_gc.c, the scans of roots.c and
      finalise.c); MajorAlloc.v: allocation in the major heap (memory.c);
      Collect.v: a minor collection as a whole.
    - MajorGc.v: the major collector (major_gc.c, roots.c, finalise.c,
      memory.h); Marking.v: the invariant of marking and its steps; Snapshot.v:
      marking interleaved with the program; Sweep.v: sweeping, and a whole
      major collection.
    - Io.v, IoOut.v, IoIn.v: buffered channels (io.c): the operations and their
      locks, output as writing of a file, input as reading of one.
    - Lexing.v: the engines of ocamllex (lexing.c).
    - Parsing.v: the engine of parsers (parsing.c) and the loop of
      stdlib/parsing.ml that drives it; ParseRun.v: the automaton they run.
    - Strstubs.v: the matcher of regular expressions (otherlibs/str/strstubs.c);
      StrMatch.v: its theorems.
    - Warshall.v, YaccClosure.v, Digraph.v: the closures of relations, of sets
      of items and of sets of tokens in ocamlyacc (yacc/warshall.c, closure.c,
      lalr.c).
    - Stacks.v: the bytecode stack (stacks.c).
    - Machine.v: registers and macros of the bytecode machine; InterpData.v,
      InterpArith.v, InterpCall.v, InterpObj.v: its instructions; Interp.v: the
      loop (interp.c, [caml_interprete_r]).

    Definitions have the names of the C functions; the body of a loop, or a
    part of a long function, has a name of its own.

    ** Theorems

    - The machine: an activation of the interpreter keeps what it recorded at
      entry over any number of steps; calls, tail calls, partial applications,
      exception handlers, calls to C and the exceptions they raise behave as
      the calling conventions say; growing the stack relocates the handlers;
      division wraps and fails as it should; method lookup finds the method of a
      tag whatever its cache holds.
    - Memory: allocating from the free list and giving blocks back, under
      the next-fit policy, preserve the invariant of the list and implement
      operations on a set of free intervals;
      the page table implements a finite map; the lists of roots implement
      sets, and every generational root stays in a list that the collector
      scans, if no root is changed that holds a block outside both heaps:
      [static_root_missed] is that case.
    - Collectors: a minor collection copies the graph of the live young values
      to the major heap and leaves the minor heap empty, whatever the two heaps
      share; marking in slices, interleaved with writes through the barrier and
      with changes of the roots, ends, and blackens every block that was
      reachable when it started and every block reachable when it ends;
      sweeping in slices gives exactly the blocks that are not black back to
      the free list; a whole major collection ends and frees no block that the
      program reaches.
    - Values: comparison is a total order, the one of the data the values
      represent, needs a stack only as deep as the data, and always restores
      the small stack; hashing never leaves its queue, and mixes a string as
      MurmurHash 3 does; digests are those of RFC 1321 however the input is cut;
      equality of strings by words, bounds of accesses, overlapping copies of
      arrays, parsing of integers, 64-bit arithmetic.
    - Marshalling: a graph of blocks, strings and floats, with its sharing and
      its cycles, is written and then read back as an isomorphic copy, and
      memory is put back as it was when it has been written.
      [infix_fields_lost] is a flaw.
    - Channels: any sequence of output operations writes to a file what it
      would write without a buffer; any sequence of input operations reads what
      a reader of the file would; numbers are read back as written; the lock of
      channels is released when a primitive returns or raises an exception,
      unless a signal handler that runs meanwhile interferes with it.
      [closed_channel_readable], [signal_after_syscall],
      [lock_kept_by_exception] and [lock_released_twice] are flaws.
    - Lexers: the engine finds the longest match, however the input is cut by
      refills; the engine with memory of positions scans as the one without.
    - Parsers: on tables that encode an LR automaton the engine does what the
      automaton does, growth of the stacks and recovery from errors included, and
      leaves the stacks of an enclosing parser alone; a checker decides that
      tables encode one.  [parse_error_in_action] is a flaw.
    - Regular expressions: the matcher finds the first match in the order of
      its choices, the search finds the leftmost one, matching ends on
      code with a rank that falls at each step that reads no character, and
      replacement texts are those of their templates.
    - ocamlyacc: the closure of a relation is the least transitive one, the
      closure of a set of items is the least closed set of items, and the
      propagation of token sets, of at most 32765 gotos, computes the least
      solution of its equations.
    - num: multiplication, squaring and division of digit arrays are those of
      the numbers they hold.

    ** Fuel

    A loop whose number of iterations is not structural takes fuel, and running
    out of it is a fault that the theorems exclude: the length of the list for
    the free list (1024 for the splitting of a heap chunk), the number of
    slots for the page table, the number of nodes for a skip list, the length of
    the string for the parsers, the sizes of the two data for comparison, the
    256 entries of the queue and the chains of forwarding pointers for hashing,
    65 for the growth of the stack and its size for the relocation of handlers,
    2^33 and 2^64 for the correction steps of division, 2^32 for the search of
    a method, the number of characters in the buffer for a lexer, and for
    channels the number of times a system call may be interrupted plus the size
    of the buffer.  A minor collection takes three times the number of young
    blocks plus two, and the numbers of roots, table entries and fields it walks;
    marking a slice, the bound of the measure [steps] of Marking.v on the number
    of blocks, fields and weak arrays; sweeping, the number of
    blocks and chunks; a call of the parsing engine passes 16 labels, and a parser
    makes ten calls per step of the automaton; marshalling, the words of the
    blocks plus one, and reading, the bytes of the message; the matcher, a bound
    that the theorem shows to exist for every code and text; the closures of ocamlyacc, the
    numbers of their rows and gotos plus one.

    ** Not modelled

    Of the major collector, the computation of the size of a slice
    ([caml_major_collection_slice_r], floating point) and the creation of the
    heap; allocation while marking is under way; heap chunks and compaction;
    calling finalisers; the creation and splitting of contexts (threads and
    semaphores); marshalling to and from channels and parts of strings; the
    traces of the parsing engine; weak arrays as data (weak.c; the collectors' treatment of them is
    modelled); signals, floating-point primitives, program start, the list of
    opened channels; the native-code runtime; the libraries bigarray, threads,
    unix and graphics; reading of grammars, construction of automata and output
    of tables in ocamlyacc.  Most of them are system calls, or calls to code
    outside the repository or to code that the compiler generates. *)

From stdpp Require Export base tactics list gmap.
From Stdlib Require Export ZArith Lia Bool.

Open Scope Z_scope.

(** * Machine integers

    [intnat]/[uintnat] are 64 bits wide ([ARCH_SIXTYFOUR]).  A word is kept
    as its unsigned residue, an element of [0, W). *)

Definition W : Z := 18446744073709551616.
Definition HW : Z := 9223372036854775808.
Definition H32 : Z := 4294967296.

(** Truncation to an unsigned 64-bit word. *)
Definition u64 (x : Z) : Z := x mod W.

(** The value of a 64-bit residue read as a two's complement integer. *)
Definition s64 (x : Z) : Z := (x + HW) mod W - HW.

(** Truncation to an unsigned, and reading as a signed, 32-bit integer. *)
Definition u32 (x : Z) : Z := x mod H32.
Definition s32 (x : Z) : Z := (x + 2147483648) mod H32 - 2147483648.

Definition b2z (b : bool) : Z := if b then 1 else 0.

Definition word (x : Z) : Prop := 0 <= x < W.

Lemma W_pow : W = 2 ^ 64. Proof. reflexivity. Qed.
Lemma W_half : W = H32 * H32. Proof. reflexivity. Qed.
Lemma W_HW : W = 2 * HW. Proof. reflexivity. Qed.
Lemma H32_pow : H32 = 2 ^ 32. Proof. reflexivity. Qed.
Lemma W_pos : 0 < W. Proof. reflexivity. Qed.
Lemma H32_pos : 0 < H32. Proof. reflexivity. Qed.

(** Linear arithmetic with the width constants as numerals. *)
Ltac lia_w := unfold word, W, HW, H32 in *; lia.

Lemma u64_range x : word (u64 x).
Proof. unfold word, u64. apply Z.mod_pos_bound. exact W_pos. Qed.

Lemma u64_small x : word x → u64 x = x.
Proof. unfold word, u64. intros. by apply Z.mod_small. Qed.

Lemma u32_small x : 0 <= x < H32 → u32 x = x.
Proof. intros. by apply Z.mod_small. Qed.

Lemma s64_range x : - HW <= s64 x < HW.
Proof.
  unfold s64. pose proof (Z.mod_pos_bound (x + HW) W W_pos). rewrite W_HW in *. lia.
Qed.

Lemma s64_small x : - HW <= x < HW → s64 x = x.
Proof. unfold s64. intros. rewrite Z.mod_small; rewrite ?W_HW; lia. Qed.

Lemma s64_u64 x : s64 (u64 x) = s64 x.
Proof. unfold s64, u64. by rewrite Zplus_mod_idemp_l. Qed.

Lemma u64_s64 x : u64 (s64 x) = u64 x.
Proof.
  unfold s64, u64. rewrite Zminus_mod_idemp_l. f_equal; lia.
Qed.

Lemma s64_inj_u64 x y : s64 x = s64 y → u64 x = u64 y.
Proof. intros E. rewrite <- (u64_s64 x), <- (u64_s64 y). by rewrite E. Qed.

(** [u64] is a ring morphism; these let a wrap inside an expression be
    pushed out or dropped. *)
Lemma u64_add_l x y : u64 (u64 x + y) = u64 (x + y).
Proof. unfold u64. by rewrite Zplus_mod_idemp_l. Qed.
Lemma u64_add_r x y : u64 (x + u64 y) = u64 (x + y).
Proof. unfold u64. by rewrite Zplus_mod_idemp_r. Qed.
Lemma u64_sub_l x y : u64 (u64 x - y) = u64 (x - y).
Proof. unfold u64. by rewrite Zminus_mod_idemp_l. Qed.
Lemma u64_sub_r x y : u64 (x - u64 y) = u64 (x - y).
Proof. unfold u64. by rewrite Zminus_mod_idemp_r. Qed.
Lemma u64_mul_l x y : u64 (u64 x * y) = u64 (x * y).
Proof. unfold u64. by rewrite Zmult_mod_idemp_l. Qed.
Lemma u64_mul_r x y : u64 (x * u64 y) = u64 (x * y).
Proof. unfold u64. by rewrite Zmult_mod_idemp_r. Qed.
Lemma u64_u64 x : u64 (u64 x) = u64 x.
Proof. apply u64_small, u64_range. Qed.

(** Every residue differs from its argument by a multiple of [W]. *)
Lemma u64_eq x : ∃ k, u64 x = x + k * W.
Proof.
  exists (- (x / W)). unfold u64. rewrite Z.mod_eq by (unfold W; lia). lia.
Qed.

(** One addition or subtraction wraps at most once. *)
Lemma u64_add_cases x y :
  word x → word y →
  (x + y < W ∧ u64 (x + y) = x + y) ∨ (W <= x + y ∧ u64 (x + y) = x + y - W).
Proof.
  unfold word. intros Hx Hy. destruct (Z.lt_ge_cases (x + y) W) as [H|H]; [left|right].
  - split; [done|]. apply u64_small. unfold word. lia.
  - split; [done|]. unfold u64. rewrite <- (Z.mod_small (x + y - W) W) by lia.
    rewrite <- (Z_mod_plus_full (x + y - W) 1 W). f_equal; lia.
Qed.

Lemma u64_sub_cases x y :
  word x → word y →
  (y <= x ∧ u64 (x - y) = x - y) ∨ (x < y ∧ u64 (x - y) = x - y + W).
Proof.
  unfold word. intros Hx Hy. destruct (Z.lt_ge_cases x y) as [H|H]; [right|left].
  - split; [done|]. unfold u64. rewrite <- (Z.mod_small (x - y + W) W) by lia.
    rewrite <- (Z_mod_plus_full (x - y) 1 W). f_equal; lia.
  - split; [done|]. apply u64_small. unfold word. lia.
Qed.

Lemma b2z_range b : 0 <= b2z b <= 1.
Proof. destruct b; simpl; lia. Qed.

(** Words: the ranges that [auto] finds, and the wraps that vanish inside
    another one. *)
Create HintDb words.
#[export] Hint Resolve u64_range s64_range W_pos H32_pos b2z_range : words.
#[export] Hint Rewrite u64_add_l u64_add_r u64_sub_l u64_sub_r u64_mul_l u64_mul_r u64_u64 s64_u64 u64_s64 : words.

(** ** Bit fields *)

Lemma land_shifted_low x s n :
  0 <= n → 0 <= s < 2 ^ n → Z.land (x * 2 ^ n) s = 0.
Proof.
  intros Hn Hs. apply Z.bits_inj'. intros i Hi.
  rewrite Z.land_spec, Z.bits_0. destruct (Z.lt_ge_cases i n).
  - by rewrite Z.mul_pow2_bits_low.
  - rewrite <- (Z.mod_small s (2 ^ n)) by done.
    rewrite Z.mod_pow2_bits_high by lia. apply andb_false_r.
Qed.

Lemma lor_shifted_low x s n :
  0 <= n → 0 <= s < 2 ^ n → Z.lor (x * 2 ^ n) s = x * 2 ^ n + s.
Proof.
  intros Hn Hs. rewrite <- Z.add_lor_land, land_shifted_low by done. lia.
Qed.

Lemma u64_shiftl_div x n :
  0 <= n <= 64 → u64 (Z.shiftl x n) = (x mod 2 ^ (64 - n)) * 2 ^ n.
Proof.
  intros Hn. unfold u64. rewrite Z.shiftl_mul_pow2 by lia.
  rewrite W_pow. replace (2 ^ 64) with (2 ^ (64 - n) * 2 ^ n) by (rewrite <- Z.pow_add_r by lia; f_equal; lia).
  by rewrite Z.mul_mod_distr_r by lia.
Qed.

Lemma shiftr_word x n : 0 <= n → word x → word (Z.shiftr x n).
Proof.
  unfold word. intros Hn Hx. rewrite Z.shiftr_div_pow2 by done.
  pose proof (Z.pow_pos_nonneg 2 n ltac:(lia) Hn). split; [apply Z.div_pos; lia|].
  apply Z.div_lt_upper_bound; nia.
Qed.

(** A number below [2 ^ n] is one without bits from [n] on. *)
Lemma small_bits x n i : 0 <= x < 2 ^ n → n <= i → Z.testbit x i = false.
Proof.
  intros Hx Hi. destruct (Z.lt_ge_cases n 0); [rewrite Z.pow_neg_r in Hx by done; lia|].
  rewrite <- (Z.mod_small x (2 ^ n)) by done. by apply Z.mod_pow2_bits_high.
Qed.

Lemma bits_small x n : 0 <= n → (∀ i, n <= i → Z.testbit x i = false) → 0 <= x < 2 ^ n.
Proof.
  intros Hn Hx. assert (x = x mod 2 ^ n) as ->; [|by apply Z.mod_pos_bound, Z.pow_pos_nonneg].
  apply Z.bits_inj'. intros i Hi. destruct (Z.lt_ge_cases i n).
  - by rewrite Z.mod_pow2_bits_low.
  - by rewrite Z.mod_pow2_bits_high, Hx.
Qed.

Lemma word_bits x i : word x → 64 <= i → Z.testbit x i = false.
Proof. intros Hx. by apply small_bits. Qed.

(** Proves that a bitwise combination of numbers below [2 ^ n] is below [2 ^ n]. *)
Ltac bit_range :=
  apply bits_small; [lia|]; intros;
  rewrite ?Z.lor_spec, ?Z.land_spec, ?Z.lxor_spec;
  repeat match goal with
  | |- context [Z.testbit ?x ?i] => rewrite (small_bits x _ i) by (eassumption || lia)
  end; rewrite ?andb_false_r; done.

(** * State and error monad

    [M S E A]: a computation over the state [S] that either stops with an
    error of [E] or returns an [A]. *)

Definition M (S E A : Type) : Type := S → E + (S * A).

Definition mreturn {S E A} (x : A) : M S E A := λ s, inr (s, x).
Definition mbnd {S E A B} (c : M S E A) (k : A → M S E B) : M S E B :=
  λ s, match c s with inl e => inl e | inr (s', x) => k x s' end.
Definition mfail {S E A} (e : E) : M S E A := λ _, inl e.
Definition mget {S E} : M S E S := λ s, inr (s, s).
Definition mput {S E} (s : S) : M S E unit := λ _, inr (s, tt).
Definition mmodify {S E} (f : S → S) : M S E unit := λ s, inr (f s, tt).

Declare Scope monad_scope.
Delimit Scope monad_scope with monad.
Notation "'let*' x ':=' c 'in' k" := (mbnd c (λ x, k))
  (at level 200, x pattern, c at level 100, k at level 200, right associativity) : monad_scope.
Notation "c ';;;' k" := (mbnd c (λ _, k))
  (at level 110, right associativity) : monad_scope.
Open Scope monad_scope.

(** Total-correctness weakest precondition: [c] returns from [s], and its
    result and final state satisfy [Q]. *)
Definition wp {S E A} (c : M S E A) (Q : A → S → Prop) (s : S) : Prop :=
  match c s with inl _ => False | inr (s', x) => Q x s' end.

Lemma mbnd_assoc {S E A B C} (f : M S E A) (g : A → M S E B) (k : B → M S E C) s :
  mbnd (mbnd f g) k s = mbnd f (λ x, mbnd (g x) k) s.
Proof. unfold mbnd. by destruct (f s) as [|[]]. Qed.

Lemma mbnd_eq {S E A B} (f : M S E A) (k : A → M S E B) s s' x :
  f s = inr (s', x) → mbnd f k s = k x s'.
Proof. intros Ef. unfold mbnd. by rewrite Ef. Qed.

Lemma mbnd_stop {S E A B} (f : M S E A) (k : A → M S E B) s e :
  f s = inl e → mbnd f k s = inl e.
Proof. intros Ef. unfold mbnd. by rewrite Ef. Qed.

Section Wp.
Context {S E : Type}.

Lemma wp_ret {A} (x : A) (Q : A → S → Prop) s : Q x s → wp (E := E) (mreturn x) Q s.
Proof. done. Qed.

Lemma wp_bind {A B} (c : M S E A) (k : A → M S E B) Q s :
  wp c (λ x, wp (k x) Q) s → wp (mbnd c k) Q s.
Proof. unfold wp, mbnd. destruct (c s) as [|[s' x]]; done. Qed.

Lemma wp_conseq {A} (c : M S E A) (P Q : A → S → Prop) s :
  wp c P s → (∀ x s', P x s' → Q x s') → wp c Q s.
Proof. unfold wp. destruct (c s) as [|[s' x]]; eauto. Qed.

Lemma wp_elim {A} (c : M S E A) (Q : A → S → Prop) s :
  wp c Q s → ∃ s' x, c s = inr (s', x) ∧ Q x s'.
Proof. unfold wp. destruct (c s) as [|[s' x]]; [done|]. eauto. Qed.

Lemma wp_exact {A} (c : M S E A) s s' x :
  wp c (λ y t, y = x ∧ t = s') s → c s = inr (s', x).
Proof. unfold wp. destruct (c s) as [|[t y]]; [done|]. by intros [-> ->]. Qed.

Lemma wp_intro {A} (c : M S E A) (Q : A → S → Prop) s s' x :
  c s = inr (s', x) → Q x s' → wp c Q s.
Proof. unfold wp. by intros ->. Qed.
End Wp.

(** * Word memory

    The store maps a byte address to the 64-bit word that starts there; an
    access to an address that holds no word is a fault. *)

Definition mem : Type := gmap Z Z.

Inductive fault : Type :=
  | BadLoad (a : Z)
  | BadStore (a : Z)
  | Contract
  | OutOfFuel.

Definition load {E} (bad : Z → E) (a : Z) : M (gmap Z Z) E Z :=
  λ m, match m !! a with Some v => inr (m, v) | None => inl (bad a) end.

Definition store {E} (bad : Z → E) (a v : Z) : M (gmap Z Z) E unit :=
  λ m, match m !! a with Some _ => inr (<[a := v]> m, tt) | None => inl (bad a) end.

Lemma wp_load {E} (bad : Z → E) a v (Q : Z → gmap Z Z → Prop) (m : gmap Z Z) :
  m !! a = Some v → Q v m → wp (load bad a) Q m.
Proof. unfold wp, load. by intros ->. Qed.

Lemma wp_store {E} (bad : Z → E) a v w (Q : unit → gmap Z Z → Prop) (m : gmap Z Z) :
  m !! a = Some w → Q tt (<[a := v]> m) → wp (store bad a v) Q m.
Proof. unfold wp, store. by intros ->. Qed.

(** ** Consecutive words *)

(** Advance a word pointer by [n] words. *)
Definition padd (a : Z) (n : nat) : Z := a + 8 * Z.of_nat n.

(** The words [ds] are stored from address [p] on. *)
Fixpoint seg (m : gmap Z Z) (p : Z) (ds : list Z) : Prop :=
  match ds with [] => True | d :: ds => m !! p = Some d ∧ seg m (p + 8) ds end.

Lemma padd_0 p : padd p 0 = p. Proof. unfold padd. lia. Qed.
Lemma padd_S p n : padd p (S n) = padd (p + 8) n. Proof. unfold padd. lia. Qed.
Lemma padd_add p n k : padd p (n + k) = padd (padd p n) k. Proof. unfold padd. lia. Qed.

Lemma seg_app m p l k : seg m p (l ++ k) ↔ seg m p l ∧ seg m (padd p (length l)) k.
Proof.
  revert p. induction l as [|d l IH]; intros p; cbn [seg app length].
  - rewrite padd_0. tauto.
  - rewrite padd_S, IH. tauto.
Qed.

Lemma seg_lookup m p ds i d : seg m p ds → ds !! i = Some d → m !! padd p i = Some d.
Proof.
  revert p i. induction ds as [|x ds IH]; intros p i; [done|]. intros [Hx Hs] Hi.
  destruct i as [|i]; simpl in Hi; [rewrite padd_0; by simplify_eq|].
  rewrite padd_S. by apply IH.
Qed.

Lemma seg_ext m m' p ds :
  (∀ k, p <= k < padd p (length ds) → m' !! k = m !! k) → seg m p ds → seg m' p ds.
Proof.
  revert p. induction ds as [|d ds IH]; intros p Hk Hs; [done|].
  cbn [length] in Hk. rewrite padd_S in Hk. destruct Hs as [Hd Hs]. split.
  - rewrite Hk; [done|unfold padd; lia].
  - apply IH; [|done]. intros k ?. apply Hk. lia.
Qed.

(** A store outside a segment leaves it. *)
Lemma seg_insert m p ds a v :
  a < p ∨ padd p (length ds) <= a → seg m p ds → seg (<[a := v]> m) p ds.
Proof. intros Ha. apply seg_ext. intros k Hk. apply lookup_insert_ne. lia. Qed.

Lemma seg_det m p ds ds' : seg m p ds → seg m p ds' → length ds = length ds' → ds = ds'.
Proof.
  revert p ds'. induction ds as [|d ds IH]; intros p [|d' ds']; simpl; try done.
  intros [H1 H2] [H3 H4] Hl. f_equal; [congruence|]. eapply IH; eauto.
Qed.

(** Storing a list of words. *)
Fixpoint stores (m : gmap Z Z) (p : Z) (ds : list Z) : gmap Z Z :=
  match ds with [] => m | d :: ds => stores (<[p := d]> m) (p + 8) ds end.

Lemma lookup_stores_ne m p ds a :
  a < p ∨ padd p (length ds) <= a → stores m p ds !! a = m !! a.
Proof.
  revert m p. induction ds as [|d ds IH]; intros m p Ha; [done|].
  cbn [stores length] in *. rewrite padd_S in Ha.
  rewrite IH by (unfold padd in *; lia). apply lookup_insert_ne. unfold padd in *. lia.
Qed.

Lemma seg_stores m p ds : seg (stores m p ds) p ds.
Proof.
  revert m p. induction ds as [|d ds IH]; intros m p; [done|]. cbn [stores seg]. split; [|apply IH].
  rewrite lookup_stores_ne by lia. apply lookup_insert_eq.
Qed.

Lemma stores_is_Some m p ds a : is_Some (m !! a) → is_Some (stores m p ds !! a).
Proof.
  revert m p. induction ds as [|d ds IH]; intros m p Ha; [done|]. cbn [stores].
  apply IH. rewrite lookup_insert_is_Some'. by right.
Qed.

Lemma seg_stores_ne m p ds q es :
  padd q (length es) <= p ∨ padd p (length ds) <= q → seg m q es → seg (stores m p ds) q es.
Proof. intros Hd. apply seg_ext. intros k Hk. apply lookup_stores_ne. lia. Qed.

Lemma seg_intro m p ds : (∀ i d, ds !! i = Some d → m !! padd p i = Some d) → seg m p ds.
Proof.
  revert p. induction ds as [|d ds IH]; intros p Hd; [done|]. split.
  - specialize (Hd O d eq_refl). by rewrite padd_0 in Hd.
  - apply IH. intros i x Hi. specialize (Hd (S i) x Hi). by rewrite padd_S in Hd.
Qed.

(** The list [l] with the elements [bs] written from position [o] on. *)
Definition overwrite (l : list Z) (o : nat) (bs : list Z) : list Z := take o l ++ bs ++ drop (o + length bs) l.

Lemma overwrite_length l o bs : (o + length bs <= length l)%nat → length (overwrite l o bs) = length l.
Proof. intros Hl. unfold overwrite. rewrite !length_app, length_take, length_drop. lia. Qed.

Lemma overwrite_lookup l o bs i : (o + length bs <= length l)%nat →
  overwrite l o bs !! i = if decide (o <= i < o + length bs)%nat then bs !! (i - o)%nat else l !! i.
Proof.
  intros Hl. unfold overwrite. destruct (decide (i < o)%nat) as [Hi|Hi].
  - rewrite decide_False by lia. rewrite lookup_app_l by (rewrite length_take; lia). by apply lookup_take_lt.
  - rewrite lookup_app_r by (rewrite length_take; lia). rewrite length_take, Nat.min_l by lia. case_decide as Hd.
    + by rewrite lookup_app_l by lia.
    + rewrite lookup_app_r by lia. rewrite lookup_drop. f_equal. lia.
Qed.

(** The [n] words at [p] exist. *)
Definition mapped (m : gmap Z Z) (p : Z) (n : nat) : Prop :=
  ∀ i : nat, (i < n)%nat → is_Some (m !! padd p i).

Lemma mapped_is_Some w p n a :
  mapped w p n → p <= a < padd p n → (8 | a - p) → is_Some (w !! a).
Proof.
  intros Hm Ha [q Hq]. specialize (Hm (Z.to_nat q)).
  replace a with (padd p (Z.to_nat q)) by (unfold padd in *; lia). apply Hm. unfold padd in *. lia.
Qed.

Lemma mapped_insert w p n a v : mapped w p n → mapped (<[a := v]> w) p n.
Proof. intros Hm i Hi. rewrite lookup_insert_is_Some'. right. by apply Hm. Qed.

Lemma mapped_sub w p n q k :
  mapped w p n → p <= q → (8 | q - p) → padd q k <= padd p n → mapped w q k.
Proof.
  intros Hm Hq [z Hz] Hle i Hi. eapply mapped_is_Some; [done|unfold padd in *; lia|].
  exists (z + Z.of_nat i). unfold padd. lia.
Qed.

(** * Bounded loops

    A C [while] loop as an iteration with binary fuel: [while_do p cond body x]
    runs the body while [cond] holds, at most [p] times, and is [None] when
    the condition still holds then. *)

Section Loops.
Context {A : Type} (cond : A → bool) (body : A → A).

Fixpoint iterate (p : positive) (x : A) : A :=
  if cond x then
    match p with
    | xH => body x
    | xO q => iterate q (iterate q x)
    | xI q => iterate q (iterate q (body x))
    end
  else x.

Definition while_do (p : positive) (x : A) : option A :=
  let y := iterate p x in if cond y then None else Some y.

Fixpoint iterate_nat (n : nat) (x : A) : A :=
  match n with
  | O => x
  | S n => if cond x then iterate_nat n (body x) else x
  end.

Lemma iterate_nat_stop n x : cond x = false → iterate_nat n x = x.
Proof. intros H. destruct n; simpl; [done|]. by rewrite H. Qed.

Lemma iterate_nat_add n k x : iterate_nat (n + k) x = iterate_nat k (iterate_nat n x).
Proof.
  revert x. induction n as [|n IH]; intros x; [done|]. simpl.
  destruct (cond x) eqn:E; [apply IH|]. by rewrite iterate_nat_stop.
Qed.

Lemma iterate_iterate_nat p x : iterate p x = iterate_nat (Pos.to_nat p) x.
Proof.
  revert x. induction p as [q IH|q IH|]; intros x; cbn [iterate].
  - rewrite Pos2Nat.inj_xI. cbn [iterate_nat].
    destruct (cond x) eqn:E; [|done].
    replace (2 * Pos.to_nat q)%nat with (Pos.to_nat q + Pos.to_nat q)%nat by lia.
    by rewrite iterate_nat_add, !IH.
  - rewrite Pos2Nat.inj_xO.
    replace (2 * Pos.to_nat q)%nat with (Pos.to_nat q + Pos.to_nat q)%nat by lia.
    rewrite iterate_nat_add. destruct (cond x) eqn:E; [by rewrite !IH|].
    by rewrite !iterate_nat_stop by (rewrite ?iterate_nat_stop; done).
  - change (Pos.to_nat 1) with 1%nat. simpl. by destruct (cond x).
Qed.

(** A loop with an invariant and a measure that each iteration decreases
    ends within its fuel, in a state where the invariant holds and the
    condition does not. *)
Lemma while_do_total (I : A → Prop) (μ : A → Z) p x :
  I x → 0 <= μ x < Z.pos p →
  (∀ y, I y → cond y = true → 0 <= μ y → I (body y) ∧ 0 <= μ (body y) < μ y) →
  ∃ y, while_do p x = Some y ∧ I y ∧ cond y = false.
Proof.
  intros HI Hμ Hstep. unfold while_do. rewrite iterate_iterate_nat.
  assert (∀ n z, I z → 0 <= μ z < Z.of_nat n →
            I (iterate_nat n z) ∧ cond (iterate_nat n z) = false) as Hn.
  { induction n as [|n IH]; intros z Hz Hlt; [lia|]. simpl.
    destruct (cond z) eqn:E; [|done].
    destruct (Hstep z Hz E) as [? ?]; [lia|]. apply IH; [done|lia]. }
  destruct (Hn (Pos.to_nat p) x HI) as [H1 H2]; [lia|].
  rewrite H2. eauto.
Qed.
End Loops.

(** The same for a loop whose condition and body read or change the state:
    [x] holds the loop's local variables. *)
Section StateLoops.
Context {S E A : Type} (cond : A → M S E bool) (body : A → M S E A).

Definition loop_once (k : A → M S E A) (x : A) : M S E A :=
  let* b := cond x in
  if b then (let* y := body x in k y) else mreturn x.

Fixpoint loop_upto (p : positive) (k : A → M S E A) (x : A) : M S E A :=
  match p with
  | xH => loop_once k x
  | xO q => loop_upto q (λ y, loop_upto q k y) x
  | xI q => loop_once (λ z, loop_upto q (λ y, loop_upto q k y) z) x
  end.

Definition while_m (p : positive) (fuel_error : E) (x : A) : M S E A :=
  loop_upto p (λ _, mfail fuel_error) x.

Fixpoint loop_nat (n : nat) (k : A → M S E A) (x : A) : M S E A :=
  match n with O => k x | Datatypes.S n => loop_once (loop_nat n k) x end.

Lemma loop_once_ext k1 k2 x s :
  (∀ y s, k1 y s = k2 y s) → loop_once k1 x s = loop_once k2 x s.
Proof.
  intros H. unfold loop_once, mbnd. destruct (cond x s) as [|[s' []]]; [done| |done].
  destruct (body x s') as [|[s'' y]]; [done|apply H].
Qed.

Lemma loop_nat_ext n k1 k2 x s :
  (∀ y s, k1 y s = k2 y s) → loop_nat n k1 x s = loop_nat n k2 x s.
Proof.
  revert x s. induction n as [|n IH]; intros x s H; simpl; [apply H|].
  apply loop_once_ext. intros. by apply IH.
Qed.

Lemma loop_nat_add n m k x s :
  loop_nat (n + m) k x s = loop_nat n (loop_nat m k) x s.
Proof.
  revert x s. induction n as [|n IH]; intros x s; simpl; [done|].
  apply loop_once_ext. intros. apply IH.
Qed.

Lemma loop_upto_nat p k x s : loop_upto p k x s = loop_nat (Pos.to_nat p) k x s.
Proof.
  revert k x s. induction p as [q IH|q IH|]; intros k x s; cbn [loop_upto].
  - rewrite Pos2Nat.inj_xI. cbn [loop_nat]. apply loop_once_ext. intros y s'.
    replace (2 * Pos.to_nat q)%nat with (Pos.to_nat q + Pos.to_nat q)%nat by lia.
    rewrite loop_nat_add, IH. apply loop_nat_ext. intros. apply IH.
  - rewrite Pos2Nat.inj_xO.
    replace (2 * Pos.to_nat q)%nat with (Pos.to_nat q + Pos.to_nat q)%nat by lia.
    rewrite loop_nat_add, IH. apply loop_nat_ext. intros. apply IH.
  - done.
Qed.

Lemma while_m_total (I : A → S → Prop) (μ : A → S → Z) (Q : A → S → Prop) p e x s :
  I x s → 0 <= μ x s < Z.pos p →
  (∀ y s, I y s → 0 <= μ y s →
     wp (cond y) (λ b s', if b
       then wp (body y) (λ z s'', I z s'' ∧ 0 <= μ z s'' < μ y s) s'
       else Q y s') s) →
  wp (while_m p e x) Q s.
Proof.
  intros HI Hμ Hstep.
  assert (∀ n k x s, I x s → 0 <= μ x s < Z.of_nat n → wp (loop_nat n k x) Q s) as Hn.
  { induction n as [|n IH]; intros k y s' HI' Hlt; [lia|]. cbn [loop_nat]. unfold loop_once.
    apply wp_bind. eapply wp_conseq; [apply Hstep; [done|lia]|].
    intros [] s'' Hb; simpl in Hb; [|by apply wp_ret].
    apply wp_bind. eapply wp_conseq; [exact Hb|].
    intros z s3 [HIz Hz]; simpl in *. apply IH; [done|lia]. }
  unfold while_m, wp. rewrite loop_upto_nat. apply Hn; [done|lia].
Qed.
End StateLoops.

(** Counted loops: [for (i = i0; i < i0 + n; i++)] and
    [for (i = n - 1; i >= 0; i--)]. *)
Section Counted.
Context {S E : Type}.

Fixpoint for_up (n : nat) (i : Z) (body : Z → M S E unit) : M S E unit :=
  match n with
  | O => mreturn tt
  | Datatypes.S n => body i ;;; for_up n (i + 1) body
  end.

Fixpoint for_down (n : nat) (body : Z → M S E unit) : M S E unit :=
  match n with
  | O => mreturn tt
  | Datatypes.S n => body (Z.of_nat n) ;;; for_down n body
  end.

(** An upward loop establishes an invariant indexed by the counter. *)
Lemma wp_for_up (I : Z → S → Prop) n i body s :
  I i s →
  (∀ j t, i <= j < i + Z.of_nat n → I j t → wp (body j) (λ _, I (j + 1)) t) →
  wp (for_up n i body) (λ _, I (i + Z.of_nat n)) s.
Proof.
  revert i s. induction n as [|n IH]; intros i s HI Hb; cbn [for_up].
  - apply wp_ret. by rewrite Z.add_0_r.
  - apply wp_bind. eapply wp_conseq; [apply Hb; [lia|done]|]. intros [] t Ht.
    eapply wp_conseq; [apply IH; [exact Ht|]|].
    + intros j u Hj. apply Hb. lia.
    + intros [] u Hu. replace (i + Z.of_nat (Datatypes.S n)) with (i + 1 + Z.of_nat n) by lia. done.
Qed.

Lemma wp_for_down (I : Z → S → Prop) n body s :
  I (Z.of_nat n) s →
  (∀ j t, 0 <= j < Z.of_nat n → I (j + 1) t → wp (body j) (λ _, I j) t) →
  wp (for_down n body) (λ _, I 0) s.
Proof.
  revert s. induction n as [|n IH]; intros s HI Hb; cbn [for_down].
  - apply wp_ret. done.
  - apply wp_bind. eapply wp_conseq; [apply Hb; [lia|]|].
    { replace (Z.of_nat n + 1) with (Z.of_nat (Datatypes.S n)) by lia. done. }
    intros [] t Ht. apply IH; [done|]. intros j u Hj. apply Hb. lia.
Qed.
End Counted.
