(* ===== verification/Mlvalues.v ===== *)
(** The representation of OCaml values (byterun/mlvalues.h, byterun/gc.h).

    A [value] is a 64-bit word: a tagged integer when its low bit is set, the
    address of the first field of a block otherwise.  The word before the
    first field is the block's header: size in words, colour, tag. *)

From S2P Require Import Prelude.

Definition Is_long (x : Z) : bool := negb (Z.land x 1 =? 0).
Definition Is_block (x : Z) : bool := Z.land x 1 =? 0.

Definition Val_long (x : Z) : Z := u64 (Z.shiftl x 1 + 1).
Definition Long_val (x : Z) : Z := Z.shiftr (s64 x) 1.
Definition Max_long : Z := 2 ^ 62 - 1.
Definition Min_long : Z := - 2 ^ 62.
Definition Val_int (x : Z) : Z := Val_long x.
Definition Int_val (x : Z) : Z := s32 (Long_val x).
Definition Unsigned_long_val (x : Z) : Z := Z.shiftr (u64 x) 1.

Definition Val_bool (b : bool) : Z := Val_int (b2z b).
Definition Val_false : Z := Val_int 0.
Definition Val_true : Z := Val_int 1.
Definition Val_unit : Z := Val_int 0.
Definition Val_not (x : Z) : Z := u64 (Val_false + Val_true - x).

(** Headers. *)

Definition Tag_hd (hd : Z) : Z := Z.land hd 255.
Definition Wosize_hd (hd : Z) : Z := Z.shiftr hd 10.
Definition Whsize_wosize (sz : Z) : Z := sz + 1.
Definition Bsize_wsize (sz : Z) : Z := sz * 8.
Definition Bhsize_wosize (sz : Z) : Z := Bsize_wsize (Whsize_wosize sz).
Definition Whsize_hd (hd : Z) : Z := Whsize_wosize (Wosize_hd hd).
Definition Bosize_hd (hd : Z) : Z := Bsize_wsize (Wosize_hd hd).
Definition Bhsize_hd (hd : Z) : Z := Bsize_wsize (Whsize_hd hd).

Definition Max_wosize : Z := 2 ^ 54 - 1.
Definition Num_tags : Z := 256.

Definition Caml_white : Z := 0.
Definition Caml_gray : Z := 256.
Definition Caml_blue : Z := 512.
Definition Caml_black : Z := 768.

Definition Color_hd (hd : Z) : Z := Z.land hd Caml_black.
Definition Is_white_hd (hd : Z) : bool := Color_hd hd =? Caml_white.
Definition Is_gray_hd (hd : Z) : bool := Color_hd hd =? Caml_gray.
Definition Is_blue_hd (hd : Z) : bool := Color_hd hd =? Caml_blue.
Definition Is_black_hd (hd : Z) : bool := Color_hd hd =? Caml_black.

(** [hd & ~Caml_black]: the complement of a 64-bit constant. *)
Definition clear_color (hd : Z) : Z := Z.land hd (u64 (Z.lnot Caml_black)).
Definition Whitehd_hd (hd : Z) : Z := clear_color hd.
Definition Grayhd_hd (hd : Z) : Z := Z.lor (clear_color hd) Caml_gray.
Definition Blackhd_hd (hd : Z) : Z := Z.lor hd Caml_black.
Definition Bluehd_hd (hd : Z) : Z := Z.lor (clear_color hd) Caml_blue.

Definition Make_header (wosize tag color : Z) : Z :=
  u64 (Z.shiftl wosize 10 + color + u32 tag).

Definition No_scan_tag : Z := 251.
Definition Forward_tag : Z := 250.
Definition Infix_tag : Z := 249.
Definition Object_tag : Z := 248.
Definition Closure_tag : Z := 247.
Definition Lazy_tag : Z := 246.
Definition Abstract_tag : Z := 251.
Definition String_tag : Z := 252.
Definition Double_tag : Z := 253.
Definition Double_array_tag : Z := 254.
Definition Custom_tag : Z := 255.
Definition Double_wosize : Z := 1.

(** Addresses: [&Field(v, i)], [&Hd_val(v)], [Val_hp], [Hp_val]. *)
Definition Field (v i : Z) : Z := v + 8 * i.
Definition Hd_val (v : Z) : Z := v - 8.
Definition Hp_val (v : Z) : Z := v - 8.
Definition Val_hp (hp : Z) : Z := hp + 8.
Definition Data_custom_val (v : Z) : Z := Field v 1.

(** ** Tagged integers *)

Lemma Val_long_eq n : Val_long n = u64 (2 * n + 1).
Proof. unfold Val_long. rewrite Z.shiftl_mul_pow2 by lia. f_equal. lia. Qed.

Lemma Long_val_eq v : Long_val v = s64 v / 2.
Proof. unfold Long_val. by rewrite Z.shiftr_div_pow2 by lia. Qed.

(** The 63-bit integer a tagged word carries, for any [n]. *)
Definition s63 (n : Z) : Z := (n + 2 ^ 62) mod 2 ^ 63 - 2 ^ 62.

Lemma s63_small n : Min_long <= n <= Max_long → s63 n = n.
Proof. unfold s63, Min_long, Max_long. intros. rewrite Z.mod_small; lia. Qed.

Lemma s63_range n : Min_long <= s63 n <= Max_long.
Proof.
  unfold s63, Min_long, Max_long. pose proof (Z.mod_pos_bound (n + 2 ^ 62) (2 ^ 63)). lia.
Qed.

Lemma Long_val_Val_long n : Long_val (Val_long n) = s63 n.
Proof.
  rewrite Long_val_eq, Val_long_eq, s64_u64. unfold s64, s63.
  replace (2 * n + 1 + HW) with (2 * (n + 2 ^ 62) + 1) by (unfold HW; lia).
  set (k := n + 2 ^ 62).
  pose proof (Z.div_mod k (2 ^ 63) ltac:(lia)) as E.
  pose proof (Z.mod_pos_bound k (2 ^ 63) ltac:(lia)) as B.
  assert ((2 * k + 1) mod W = 2 * (k mod 2 ^ 63) + 1) as ->.
  { symmetry. apply (Z.mod_unique_pos _ _ (k / 2 ^ 63)); unfold W; lia. }
  replace (2 * (k mod 2 ^ 63) + 1 - HW) with (1 + (k mod 2 ^ 63 - 2 ^ 62) * 2) by (unfold HW; lia).
  rewrite Z.div_add by lia. reflexivity.
Qed.

Lemma Is_long_odd x : Is_long x = Z.odd x.
Proof.
  unfold Is_long. change 1 with (Z.ones 1). rewrite Z.land_ones by lia.
  change (2 ^ 1) with 2. rewrite Zmod_odd. by destruct (Z.odd x).
Qed.

Lemma Is_block_even x : Is_block x = Z.even x.
Proof.
  unfold Is_block. rewrite <- Z.negb_odd, <- Is_long_odd. unfold Is_long.
  by rewrite negb_involutive.
Qed.

Lemma odd_u64 x : Z.odd (u64 x) = Z.odd x.
Proof.
  destruct (u64_eq x) as [k ->]. rewrite Z.odd_add, Z.odd_mul.
  change (Z.odd W) with false. by rewrite andb_false_r, xorb_false_r.
Qed.

Lemma Is_long_Val_long n : Is_long (Val_long n) = true.
Proof.
  rewrite Is_long_odd, Val_long_eq, odd_u64, Z.odd_add, Z.odd_mul. reflexivity.
Qed.

(** A tagged word is determined by the integer it carries. *)
Lemma Val_long_Long_val v : word v → Is_long v = true → Val_long (Long_val v) = v.
Proof.
  intros Hv Ho. rewrite Is_long_odd in Ho. rewrite Val_long_eq, Long_val_eq.
  assert (Z.odd (s64 v) = true) as Ho'.
  { rewrite <- odd_u64, u64_s64, odd_u64. done. }
  assert (2 * (s64 v / 2) + 1 = s64 v) as ->.
  { pose proof (Z.div_mod (s64 v) 2 ltac:(lia)) as E. rewrite Zmod_odd, Ho' in E. lia. }
  rewrite u64_s64. by apply u64_small.
Qed.

Lemma Val_long_word n : word (Val_long n).
Proof. apply u64_range. Qed.

Lemma Val_long_congr n k : Val_long n = Val_long k ↔ s63 n = s63 k.
Proof.
  split; intros E.
  - by rewrite <- !Long_val_Val_long, E.
  - rewrite <- (Val_long_Long_val (Val_long n)), <- (Val_long_Long_val (Val_long k));
      rewrite ?Is_long_Val_long; try apply Val_long_word; [|done..].
    by rewrite !Long_val_Val_long, E.
Qed.

(** The signed reading of a tagged word. *)
Lemma s64_tagged v : Is_long v = true → s64 v = 2 * Long_val v + 1.
Proof.
  intros Ho. rewrite Is_long_odd in Ho. rewrite Long_val_eq.
  assert (Z.odd (s64 v) = true) as Ho' by (by rewrite <- odd_u64, u64_s64, odd_u64).
  pose proof (Z.div_mod (s64 v) 2 ltac:(lia)) as E. rewrite Zmod_odd, Ho' in E. lia.
Qed.

(** The unsigned reading. *)
Lemma tagged_word v : word v → Is_long v = true → v = 2 * (Long_val v mod 2 ^ 63) + 1.
Proof.
  intros Hv Ho. rewrite <- (Val_long_Long_val v Hv Ho) at 1. rewrite Val_long_eq.
  unfold u64. set (x := Long_val v). symmetry.
  pose proof (Z.div_mod x (2 ^ 63) ltac:(lia)). pose proof (Z.mod_pos_bound x (2 ^ 63) ltac:(lia)).
  apply (Z.mod_unique_pos _ _ (x / 2 ^ 63)); unfold W; lia.
Qed.

Lemma Long_val_range v : Min_long <= Long_val v <= Max_long.
Proof.
  rewrite Long_val_eq. unfold Min_long, Max_long. pose proof (s64_range v).
  unfold HW in *. split; [apply Z.div_le_lower_bound; lia|].
  apply Z.lt_succ_r, Z.div_lt_upper_bound; lia.
Qed.

(** Bit operations on tagged representations act on the integers. *)
Lemma tagged_bits x i : 0 <= i → Z.testbit (2 * x + 1) i = (i =? 0) || Z.testbit x (i - 1).
Proof.
  intros Hi. destruct (Z.eqb_spec i 0) as [->|Hn]; simpl.
  - apply Z.testbit_odd_0.
  - replace i with (Z.succ (i - 1)) at 1 by lia. apply Z.testbit_odd_succ. lia.
Qed.

Lemma tagged_ext x y :
  (∀ i, 0 <= i → Z.testbit y i = (i =? 0) || Z.testbit x (i - 1)) → y = 2 * x + 1.
Proof. intros Hb. apply Z.bits_inj'. intros i Hi. by rewrite tagged_bits, Hb. Qed.

(** ** Headers *)

Definition wf_color (c : Z) : Prop :=
  c = Caml_white ∨ c = Caml_gray ∨ c = Caml_blue ∨ c = Caml_black.

Lemma Make_header_eq w t c :
  0 <= w <= Max_wosize → 0 <= t < 256 → wf_color c →
  Make_header w t c = w * 1024 + c + t.
Proof.
  unfold Make_header, wf_color, Max_wosize, Caml_white, Caml_gray, Caml_blue, Caml_black.
  intros. rewrite Z.shiftl_mul_pow2 by lia. rewrite (u32_small t) by lia_w.
  change (2 ^ 10) with 1024. apply u64_small. lia_w.
Qed.

(** Evaluate quotients of numerals. *)
Ltac replace_div :=
  repeat match goal with
  | |- context [Z.pos ?p / Z.pos ?q] =>
      let r := eval vm_compute in (Z.pos p / Z.pos q) in change (Z.pos p / Z.pos q) with r
  | |- context [0 / Z.pos ?q] => change (0 / Z.pos q) with 0
  end.

Lemma land_low x n : 0 <= n → Z.land x (2 ^ n - 1) = x mod 2 ^ n.
Proof.
  intros. replace (2 ^ n - 1) with (Z.ones n) by (rewrite Z.ones_equiv; lia).
  by apply Z.land_ones.
Qed.

(** The colour field is bits 8 and 9. *)
Lemma Color_hd_eq hd : Color_hd hd = (hd / 256) mod 4 * 256.
Proof.
  unfold Color_hd, Caml_black. apply Z.bits_inj'. intros i Hi.
  change 768 with (Z.ones 2 * 2 ^ 8). change 256 with (2 ^ 8). change 4 with (2 ^ 2).
  rewrite Z.land_spec. destruct (Z.lt_ge_cases i 8).
  - by rewrite !Z.mul_pow2_bits_low, andb_false_r by done.
  - rewrite !Z.mul_pow2_bits by lia. destruct (Z.lt_ge_cases (i - 8) 2).
    + rewrite Z.ones_spec_low, andb_true_r, Z.mod_pow2_bits_low, Z.div_pow2_bits by lia.
      f_equal. lia.
    + rewrite Z.ones_spec_high, andb_false_r, Z.mod_pow2_bits_high by lia. done.
Qed.

Lemma header_fields w t c :
  0 <= w <= Max_wosize → 0 <= t < 256 → wf_color c →
  let hd := Make_header w t c in
  word hd ∧ Wosize_hd hd = w ∧ Tag_hd hd = t ∧ Color_hd hd = c.
Proof.
  intros Hw Ht Hc hd. subst hd. rewrite Make_header_eq by done. split_and!.
  - unfold wf_color, Max_wosize, Caml_white, Caml_gray, Caml_blue, Caml_black in *. lia_w.
  - unfold Wosize_hd. rewrite Z.shiftr_div_pow2 by lia. change (2 ^ 10) with 1024.
    symmetry. apply (Z.div_unique_pos _ _ _ (c + t)); [|lia].
    unfold wf_color, Caml_white, Caml_gray, Caml_blue, Caml_black in Hc. lia.
  - unfold Tag_hd. change 255 with (2 ^ 8 - 1). rewrite land_low by lia. change (2 ^ 8) with 256.
    symmetry. unfold wf_color, Caml_white, Caml_gray, Caml_blue, Caml_black in Hc.
    apply (Z.mod_unique_pos _ _ (w * 4 + c / 256)); [lia|].
    destruct Hc as [->|[->|[->| ->]]]; replace_div; lia.
  - rewrite Color_hd_eq. unfold wf_color, Caml_white, Caml_gray, Caml_blue, Caml_black in Hc.
    assert ((w * 1024 + c + t) / 256 = w * 4 + c / 256) as ->.
    { symmetry. apply (Z.div_unique_pos _ _ _ t); [lia|]. destruct Hc as [->|[->|[->| ->]]]; replace_div; lia. }
    rewrite Z.add_comm, Z.mod_add by lia. destruct Hc as [->|[->|[->| ->]]]; reflexivity.
Qed.

(** Recolouring a header keeps its size. *)
Lemma Bluehd_fields hd :
  word hd → word (Bluehd_hd hd) ∧ Wosize_hd (Bluehd_hd hd) = Wosize_hd hd ∧
            Is_blue_hd (Bluehd_hd hd) = true.
Proof.
  intros Hw.
  assert (∀ i, 0 <= i → Z.testbit (Bluehd_hd hd) i =
    (Z.testbit hd i && negb ((i =? 8) || (i =? 9))) || (i =? 9)) as Hbits.
  { intros i Hi. unfold Bluehd_hd, clear_color, Caml_black, Caml_blue.
    rewrite Z.lor_spec, Z.land_spec. change 512 with (2 ^ 9). rewrite Z.pow2_bits_eqb by lia.
    replace (9 =? i) with (i =? 9) by lia. f_equal.
    destruct (Z.lt_ge_cases i 64) as [Hlt|Hge].
    - f_equal. unfold u64. rewrite W_pow, Z.mod_pow2_bits_low, Z.lnot_spec by lia. f_equal.
      change 768 with (Z.lor (2 ^ 8) (2 ^ 9)). rewrite Z.lor_spec, !Z.pow2_bits_eqb by lia.
      by rewrite (Z.eqb_sym 8 i), (Z.eqb_sym 9 i).
    - replace (Z.testbit hd i) with false; [done|]. symmetry. rewrite <- (Z.mod_small hd (2 ^ 64)).
      + by apply Z.mod_pow2_bits_high.
      + unfold word in Hw. rewrite W_pow in Hw. done. }
  assert (∀ i, 64 <= i → Z.testbit (Bluehd_hd hd) i = false) as Hhigh.
  { intros i Hi. rewrite Hbits by lia. rewrite <- (Z.mod_small hd (2 ^ 64))
      by (unfold word in Hw; rewrite W_pow in Hw; done).
    rewrite Z.mod_pow2_bits_high by lia. simpl. lia. }
  split_and!.
  - assert (Bluehd_hd hd = Bluehd_hd hd mod 2 ^ 64) as ->.
    { apply Z.bits_inj'. intros i Hi. destruct (Z.lt_ge_cases i 64).
      - by rewrite Z.mod_pow2_bits_low.
      - by rewrite Hhigh, Z.mod_pow2_bits_high by lia. }
    unfold word. rewrite W_pow. by apply Z.mod_pos_bound.
  - unfold Wosize_hd. apply Z.bits_inj'. intros i Hi. rewrite !Z.shiftr_spec, Hbits by lia.
    replace (i + 10 =? 8) with false by lia. replace (i + 10 =? 9) with false by lia.
    by rewrite andb_true_r, orb_false_r.
  - unfold Is_blue_hd, Color_hd. apply Z.eqb_eq. apply Z.bits_inj'. intros i Hi.
    unfold Caml_black, Caml_blue. rewrite Z.land_spec, Hbits by done.
    change 768 with (Z.lor (2 ^ 8) (2 ^ 9)). change 512 with (2 ^ 9).
    rewrite Z.lor_spec, !Z.pow2_bits_eqb by lia. rewrite (Z.eqb_sym 8 i), (Z.eqb_sym 9 i).
    destruct (Z.eqb_spec i 8) as [->|]; simpl; [by rewrite andb_false_r|].
    destruct (i =? 9); simpl; by rewrite ?andb_false_r, ?orb_true_r.
Qed.

(** ** Colours *)

Lemma word_high hd i : word hd → 64 <= i → Z.testbit hd i = false.
Proof. intros Hw Hi. rewrite <- (Z.mod_small hd (2 ^ 64)) by (unfold word in Hw; rewrite W_pow in Hw; done). by apply Z.mod_pow2_bits_high. Qed.

Lemma clear_bits hd i : word hd → 0 <= i → Z.testbit (clear_color hd) i = Z.testbit hd i && negb ((i =? 8) || (i =? 9)).
Proof.
  intros Hw Hi. unfold clear_color, Caml_black. rewrite Z.land_spec. destruct (Z.lt_ge_cases i 64); [|by rewrite word_high].
  f_equal. unfold u64. rewrite W_pow, Z.mod_pow2_bits_low, Z.lnot_spec by lia. f_equal. change 768 with (Z.lor (2 ^ 8) (2 ^ 9)). rewrite Z.lor_spec, !Z.pow2_bits_eqb by lia. by rewrite (Z.eqb_sym 8 i), (Z.eqb_sym 9 i).
Qed.

(** [hd'] is [hd] with another colour. *)
Definition recoloured (c hd hd' : Z) : Prop := word hd' ∧ Wosize_hd hd' = Wosize_hd hd ∧ Tag_hd hd' = Tag_hd hd ∧ Color_hd hd' = c.

Lemma recolour_bits hd hd' b8 b9 : word hd → (∀ i, 0 <= i → Z.testbit hd' i = if i =? 8 then b8 else if i =? 9 then b9 else Z.testbit hd i) → recoloured (b2z b8 * 256 + b2z b9 * 512) hd hd'.
Proof.
  intros Hw Hb. assert (∀ i, 64 <= i → Z.testbit hd' i = false) as Hhigh by (intros i Hi; rewrite Hb by lia; replace (i =? 8) with false by lia; replace (i =? 9) with false by lia; by apply word_high). split_and!.
  - assert (hd' = hd' mod 2 ^ 64) as ->; [|unfold word; rewrite W_pow; by apply Z.mod_pos_bound].
    apply Z.bits_inj'. intros i Hi. destruct (Z.lt_ge_cases i 64); [by rewrite Z.mod_pow2_bits_low|by rewrite Hhigh, Z.mod_pow2_bits_high by lia].
  - unfold Wosize_hd. apply Z.bits_inj'. intros i Hi. rewrite !Z.shiftr_spec, Hb by lia. replace (i + 10 =? 8) with false by lia. by replace (i + 10 =? 9) with false by lia.
  - unfold Tag_hd. change 255 with (2 ^ 8 - 1). rewrite !land_low by lia. apply Z.bits_inj'. intros i Hi. destruct (Z.lt_ge_cases i 8); [|by rewrite !Z.mod_pow2_bits_high].
    rewrite !Z.mod_pow2_bits_low, Hb by lia. replace (i =? 8) with false by lia. by replace (i =? 9) with false by lia.
  - unfold Color_hd. apply Z.bits_inj'. intros i Hi. unfold Caml_black. rewrite Z.land_spec, Hb by done. change 768 with (Z.lor (2 ^ 8) (2 ^ 9)). rewrite Z.lor_spec, !Z.pow2_bits_eqb by lia.
    assert (b2z b8 * 256 + b2z b9 * 512 = Z.lor (b2z b8 * 2 ^ 8) (b2z b9 * 2 ^ 9)) as -> by (destruct b8, b9; reflexivity). rewrite Z.lor_spec, (Z.eqb_sym 8 i), (Z.eqb_sym 9 i).
    assert (∀ b k, 0 <= k → Z.testbit (b2z b * 2 ^ k) i = b && (i =? k)) as Hp.
    { intros b k Hk. destruct b; cbn [b2z andb]; [rewrite Z.mul_1_l, Z.pow2_bits_eqb by done; apply Z.eqb_sym|by rewrite Z.mul_0_l, Z.bits_0]. }
    rewrite !Hp by lia. destruct (Z.eqb_spec i 8) as [->|]; [by destruct b8, b9|]. destruct (Z.eqb_spec i 9); [by destruct b8, b9|]. by rewrite !andb_false_r.
Qed.

Lemma Grayhd_spec hd : word hd → recoloured Caml_gray hd (Grayhd_hd hd).
Proof.
  intros Hw. apply (recolour_bits hd _ true false Hw). intros i Hi. unfold Grayhd_hd, Caml_gray. rewrite Z.lor_spec, clear_bits by done. change 256 with (2 ^ 8). rewrite Z.pow2_bits_eqb, (Z.eqb_sym 8 i) by lia.
  destruct (Z.eqb_spec i 8); [by rewrite orb_true_r|]. rewrite orb_false_r. destruct (Z.eqb_spec i 9); [by rewrite andb_false_r|by rewrite andb_true_r].
Qed.

Lemma Whitehd_spec hd : word hd → recoloured Caml_white hd (Whitehd_hd hd).
Proof.
  intros Hw. apply (recolour_bits hd _ false false Hw). intros i Hi. unfold Whitehd_hd. rewrite clear_bits by done.
  destruct (Z.eqb_spec i 8); [by rewrite andb_false_r|]. destruct (Z.eqb_spec i 9); [by rewrite andb_false_r|by rewrite andb_true_r].
Qed.

Lemma Blackhd_spec hd : word hd → recoloured Caml_black hd (Blackhd_hd hd).
Proof.
  intros Hw. apply (recolour_bits hd _ true true Hw). intros i Hi. unfold Blackhd_hd, Caml_black. rewrite Z.lor_spec. change 768 with (Z.lor (2 ^ 8) (2 ^ 9)). rewrite Z.lor_spec, !Z.pow2_bits_eqb, (Z.eqb_sym 8 i), (Z.eqb_sym 9 i) by lia.
  destruct (Z.eqb_spec i 8); [by rewrite orb_true_r|]. destruct (Z.eqb_spec i 9); [by rewrite orb_true_r|by rewrite orb_false_r].
Qed.

Lemma color_cases hd : Color_hd hd = Caml_white ∨ Color_hd hd = Caml_gray ∨ Color_hd hd = Caml_blue ∨ Color_hd hd = Caml_black.
Proof. rewrite Color_hd_eq. pose proof (Z.mod_pos_bound (hd / 256) 4). unfold Caml_white, Caml_gray, Caml_blue, Caml_black. lia. Qed.

Lemma Bluehd_spec hd : word hd → recoloured Caml_blue hd (Bluehd_hd hd).
Proof.
  intros Hw. apply (recolour_bits hd _ false true Hw). intros i Hi. unfold Bluehd_hd, Caml_blue. rewrite Z.lor_spec, clear_bits by done. change 512 with (2 ^ 9). rewrite Z.pow2_bits_eqb, (Z.eqb_sym 9 i) by lia.
  destruct (Z.eqb_spec i 8) as [->|]; [by rewrite andb_false_r|]. destruct (Z.eqb_spec i 9); [by rewrite orb_true_r|by rewrite andb_true_r, orb_false_r].
Qed.
