(* ===== verification/Bng.v ===== *)
(** Multiprecision naturals: the generic C code of otherlibs/num.

    [Module Digit] models the digit macros and the double-digit division of
    bng_digit.c, [Module Bng] the operations of bng.c on little-endian digit
    arrays in memory (the plain C versions: no assembly override is selected,
    [BNG_ASM_LEVEL = 0]).  A [bng] is the byte address of its first digit, a
    length counts 64-bit digits.  The theorems give the arithmetic meaning of
    every operation, that it stays within its arrays, and that it terminates. *)

From S2P Require Import Prelude.

(** * Digits: bng_digit.c *)

Module Digit.

Definition BNG_BITS_PER_DIGIT : Z := 64.
Definition BNG_BITS_PER_HALF_DIGIT : Z := 32.

(** Each macro returns its assigned l-values in the order of its parameters. *)

Definition BngAdd2 (arg1 arg2 : Z) : Z * Z :=
  let tmp1 := arg1 in
  let tmp2 := u64 (tmp1 + arg2) in
  let carryout := b2z (tmp2 <? tmp1) in
  (tmp2, carryout).

Definition BngAdd2Carry (arg1 arg2 carryin : Z) : Z * Z :=
  let tmp1 := arg1 in
  let tmp2 := u64 (tmp1 + arg2) in
  let tmp3 := u64 (tmp2 + carryin) in
  let carryout := b2z (tmp2 <? tmp1) + b2z (tmp3 <? tmp2) in
  (tmp3, carryout).

Definition BngAdd3 (carryaccu arg1 arg2 arg3 : Z) : Z * Z :=
  let tmp1 := arg1 in
  let tmp2 := u64 (tmp1 + arg2) in
  let carryaccu := u64 (carryaccu + b2z (tmp2 <? tmp1)) in
  let tmp3 := u64 (tmp2 + arg3) in
  let carryaccu := u64 (carryaccu + b2z (tmp3 <? tmp2)) in
  (tmp3, carryaccu).

Definition BngSub2 (arg1 arg2 : Z) : Z * Z :=
  let tmp1 := arg1 in
  let tmp2 := arg2 in
  (u64 (tmp1 - tmp2), b2z (tmp1 <? tmp2)).

Definition BngSub2Carry (arg1 arg2 carryin : Z) : Z * Z :=
  let tmp1 := arg1 in
  let tmp2 := arg2 in
  let tmp3 := u64 (tmp1 - tmp2) in
  (u64 (tmp3 - carryin), b2z (tmp1 <? tmp2) + b2z (tmp3 <? carryin)).

Definition BngSub3 (carryaccu arg1 arg2 arg3 : Z) : Z * Z :=
  let tmp1 := arg1 in
  let tmp2 := arg2 in
  let tmp3 := arg3 in
  let tmp4 := u64 (tmp1 - tmp2) in
  (u64 (tmp4 - tmp3),
   u64 (carryaccu + (b2z (tmp1 <? tmp2) + b2z (tmp4 <? tmp3)))).

Definition BngLowHalf (d : Z) : Z :=
  Z.land d (u64 (Z.shiftl 1 BNG_BITS_PER_HALF_DIGIT - 1)).
Definition BngHighHalf (d : Z) : Z := Z.shiftr d BNG_BITS_PER_HALF_DIGIT.

(** Result: (resh, resl). *)
Definition BngMult (arg1 arg2 : Z) : Z * Z :=
  let p11 := u64 (BngLowHalf arg1 * BngLowHalf arg2) in
  let p12 := u64 (BngLowHalf arg1 * BngHighHalf arg2) in
  let p21 := u64 (BngHighHalf arg1 * BngLowHalf arg2) in
  let p22 := u64 (BngHighHalf arg1 * BngHighHalf arg2) in
  let resh := u64 (u64 (p22 + Z.shiftr p12 BNG_BITS_PER_HALF_DIGIT)
                   + Z.shiftr p21 BNG_BITS_PER_HALF_DIGIT) in
  let '(resl, resh) :=
    BngAdd3 resh p11 (u64 (Z.shiftl p12 BNG_BITS_PER_HALF_DIGIT))
                     (u64 (Z.shiftl p21 BNG_BITS_PER_HALF_DIGIT)) in
  (resh, resl).

(** The adjustment loop of [bng_div_aux], on (nh, nl, q). *)
Definition div_adjust_fuel : positive := 8589934592.

Definition div_adjust (d : Z) : Z * Z * Z → option (Z * Z * Z) :=
  while_do
    (λ '(nh, nl, q), negb (nh =? 0) || (d <=? nl))
    (λ '(nh, nl, q), (u64 (nh - b2z (nl <? d)), u64 (nl - d), u64 (q + 1)))
    div_adjust_fuel.

(** Result: (quo, rem); [None] only if an adjustment loop exceeds its fuel. *)
Definition bng_div_aux (nh nl d : Z) : option (Z * Z) :=
  let dl := BngLowHalf d in
  let dh := BngHighHalf d in
  let qh := nh / u64 (dh + 1) in
  let nsaved := BngLowHalf nl in
  let ph := u64 (qh * dh) in
  let pl := u64 (qh * dl) in
  let nh := u64 (nh - ph) in
  let nl := Z.lor (Z.shiftr nl BNG_BITS_PER_HALF_DIGIT)
                  (u64 (Z.shiftl nh BNG_BITS_PER_HALF_DIGIT)) in
  let nh := Z.shiftr nh BNG_BITS_PER_HALF_DIGIT in
  let nh := u64 (nh - b2z (nl <? pl)) in
  let nl := u64 (nl - pl) in
  match div_adjust d (nh, nl, qh) with
  | None => None
  | Some (nh, nl, qh) =>
    let ql := nl / u64 (dh + 1) in
    let ph := u64 (ql * dh) in
    let pl := u64 (ql * dl) in
    let nl := u64 (nl - ph) in
    let nh := Z.shiftr nl BNG_BITS_PER_HALF_DIGIT in
    let nl := Z.lor (u64 (Z.shiftl nl BNG_BITS_PER_HALF_DIGIT)) nsaved in
    let nh := u64 (nh - b2z (nl <? pl)) in
    let nl := u64 (nl - pl) in
    match div_adjust d (nh, nl, ql) with
    | None => None
    | Some (nh, nl, ql) =>
      Some (Z.lor (u64 (Z.shiftl qh BNG_BITS_PER_HALF_DIGIT)) ql, nl)
    end
  end.

Definition BngDiv := bng_div_aux.

(** ** Arithmetic meaning of the digit operations *)

Lemma b2z_ltb_add a b : word a → word b →
  u64 (a + b) + W * b2z (u64 (a + b) <? a) = a + b.
Proof.
  intros Ha Hb. destruct (u64_add_cases a b Ha Hb) as [[? ->]|[? ->]]; unfold word in *;
    destruct (Z.ltb_spec (a + b) a); destruct (Z.ltb_spec (a + b - W) a); simpl; lia.
Qed.

Lemma b2z_ltb_sub a b : word a → word b →
  u64 (a - b) - W * b2z (a <? b) = a - b.
Proof.
  intros Ha Hb. destruct (u64_sub_cases a b Ha Hb) as [[? ->]|[? ->]]; unfold word in *;
    destruct (Z.ltb_spec a b); simpl; lia.
Qed.

Lemma BngAdd2_spec a b r c :
  word a → word b → BngAdd2 a b = (r, c) →
  r + W * c = a + b ∧ word r ∧ 0 <= c <= 1.
Proof.
  unfold BngAdd2. intros Ha Hb [= <- <-].
  split_and!; [by apply b2z_ltb_add|auto with words..|apply b2z_range|apply b2z_range].
Qed.

Lemma word_bit c : 0 <= c <= 1 → word c.
Proof. unfold word, W. lia. Qed.

Lemma BngAdd2Carry_spec a b ci r c :
  word a → word b → 0 <= ci <= 1 → BngAdd2Carry a b ci = (r, c) →
  r + W * c = a + b + ci ∧ word r ∧ 0 <= c <= 1.
Proof.
  unfold BngAdd2Carry. intros Ha Hb Hci [= <- <-].
  pose proof (b2z_ltb_add a b Ha Hb).
  pose proof (b2z_ltb_add (u64 (a + b)) ci (u64_range _) (word_bit _ Hci)).
  pose proof (u64_range (u64 (a + b) + ci)). pose proof (b2z_range (u64 (a + b) <? a)).
  pose proof (b2z_range (u64 (u64 (a + b) + ci) <? u64 (a + b))).
  lia_w.
Qed.

Lemma BngAdd3_spec cc a b d r c :
  word a → word b → word d → 0 <= cc → W * cc + b + d <= W * W - W →
  BngAdd3 cc a b d = (r, c) →
  r + W * (c - cc) = a + b + d ∧ word r ∧ cc <= c ∧ word c.
Proof.
  unfold BngAdd3. intros Ha Hb Hd H0 Hcc [= <- <-].
  pose proof (b2z_ltb_add a b Ha Hb).
  pose proof (b2z_ltb_add (u64 (a + b)) d (u64_range _) Hd).
  pose proof (u64_range (u64 (a + b) + d)). pose proof (b2z_range (u64 (a + b) <? a)).
  pose proof (b2z_range (u64 (u64 (a + b) + d) <? u64 (a + b))).
  rewrite (u64_add_l (cc + _)), (u64_small (cc + _ + _)) by lia_w. lia_w.
Qed.

Lemma BngSub2_spec a b r c :
  word a → word b → BngSub2 a b = (r, c) →
  r - W * c = a - b ∧ word r ∧ 0 <= c <= 1.
Proof.
  unfold BngSub2. intros Ha Hb [= <- <-].
  split_and!; [by apply b2z_ltb_sub|auto with words..|apply b2z_range|apply b2z_range].
Qed.

Lemma BngSub2Carry_spec a b ci r c :
  word a → word b → 0 <= ci <= 1 → BngSub2Carry a b ci = (r, c) →
  r - W * c = a - b - ci ∧ word r ∧ 0 <= c <= 1.
Proof.
  unfold BngSub2Carry. intros Ha Hb Hci [= <- <-].
  pose proof (b2z_ltb_sub a b Ha Hb).
  pose proof (b2z_ltb_sub (u64 (a - b)) ci (u64_range _) (word_bit _ Hci)).
  pose proof (u64_range (u64 (a - b) - ci)). pose proof (b2z_range (a <? b)).
  pose proof (b2z_range (u64 (a - b) <? ci)).
  lia_w.
Qed.

Lemma BngSub3_spec cc a b d r c :
  word a → word b → word d → 0 <= cc → W * cc + b + d <= W * W - W →
  BngSub3 cc a b d = (r, c) →
  r - W * (c - cc) = a - b - d ∧ word r ∧ cc <= c ∧ word c.
Proof.
  unfold BngSub3. intros Ha Hb Hd H0 Hcc [= <- <-].
  pose proof (b2z_ltb_sub a b Ha Hb).
  pose proof (b2z_ltb_sub (u64 (a - b)) d (u64_range _) Hd).
  pose proof (u64_range (u64 (a - b) - d)). pose proof (b2z_range (a <? b)).
  pose proof (b2z_range (u64 (a - b) <? d)). pose proof (u64_range (a - b)).
  rewrite (u64_small (cc + _)) by lia_w. lia_w.
Qed.

Lemma BngLowHalf_mod d : BngLowHalf d = d mod H32.
Proof.
  unfold BngLowHalf. change (u64 (Z.shiftl 1 BNG_BITS_PER_HALF_DIGIT - 1)) with (Z.ones 32).
  rewrite Z.land_ones by lia. done.
Qed.

Lemma BngHighHalf_div d : BngHighHalf d = d / H32.
Proof. unfold BngHighHalf, BNG_BITS_PER_HALF_DIGIT. by rewrite Z.shiftr_div_pow2 by lia. Qed.

Lemma halves d : word d →
  d = H32 * BngHighHalf d + BngLowHalf d ∧ 0 <= BngLowHalf d < H32 ∧ 0 <= BngHighHalf d < H32.
Proof.
  intros Hd. rewrite BngLowHalf_mod, BngHighHalf_div. unfold word in Hd.
  pose proof (Z.mod_pos_bound d H32 H32_pos).
  pose proof (Z.div_mod d H32 ltac:(unfold H32; lia)).
  split_and!; try lia; [apply Z.div_pos; unfold H32 in *; lia|].
  apply Z.div_lt_upper_bound; [unfold H32; lia|]. rewrite <- W_half. lia.
Qed.

Lemma shr_half p : Z.shiftr p BNG_BITS_PER_HALF_DIGIT = p / H32.
Proof. by rewrite <- BngHighHalf_div. Qed.

Lemma shl_half p : u64 (Z.shiftl p BNG_BITS_PER_HALF_DIGIT) = (p mod H32) * H32.
Proof. unfold BNG_BITS_PER_HALF_DIGIT. by rewrite u64_shiftl_div by lia. Qed.

Lemma lor_half x s : 0 <= s < H32 → Z.lor (x * H32) s = x * H32 + s.
Proof. rewrite H32_pow. intros. by apply lor_shifted_low. Qed.

Lemma half_prod_bound x y : 0 <= x < H32 → 0 <= y < H32 → 0 <= x * y <= W - 2 * H32 + 1.
Proof. rewrite W_half. nia. Qed.

Lemma BngMult_spec a b ph pl :
  word a → word b → BngMult a b = (ph, pl) →
  pl + W * ph = a * b ∧ word ph ∧ word pl.
Proof.
  intros Ha Hb. unfold BngMult. rewrite !shr_half, !shl_half.
  destruct (halves a Ha) as (Ea & Hal & Hah), (halves b Hb) as (Eb & Hbl & Hbh).
  set (al := BngLowHalf a) in *. set (ah := BngHighHalf a) in *.
  set (bl := BngLowHalf b) in *. set (bh := BngHighHalf b) in *.
  pose proof (half_prod_bound al bl Hal Hbl). pose proof (half_prod_bound al bh Hal Hbh).
  pose proof (half_prod_bound ah bl Hah Hbl). pose proof (half_prod_bound ah bh Hah Hbh).
  rewrite !(u64_small (_ * _)) by lia_w.
  assert (∀ p, 0 <= p <= W - 2 * H32 + 1 →
            p = H32 * (p / H32) + p mod H32 ∧ 0 <= p mod H32 < H32 ∧ 0 <= p / H32 <= H32 - 2) as Hdm.
  { intros p Hp. pose proof (Z.mod_pos_bound p H32 H32_pos).
    pose proof (Z.div_mod p H32 ltac:(lia_w)). lia_w. }
  destruct (Hdm (al * bh)) as (E1 & ? & ?); [done|].
  destruct (Hdm (ah * bl)) as (E2 & ? & ?); [done|].
  rewrite (u64_small (ah * bh + _)), (u64_small (ah * bh + _ + _)) by lia_w.
  destruct (BngAdd3 _ _ _ _) as [rl rh] eqn:E. intros [= <- <-].
  assert (a * b = H32 * H32 * (ah * bh) + H32 * (al * bh) + H32 * (ah * bl) + al * bl) as Eab
    by (rewrite Ea, Eb; ring).
  apply BngAdd3_spec in E as (E & Hrl & Hrh & Hw); [|lia_w..].
  split_and!; [|done|done]. rewrite Eab.
  rewrite W_half in *. lia_w.
Qed.

(** ** The half-digit step of the double-digit division

    Both halves of [bng_div_aux] divide [r : s], a digit [r < d] followed by
    a half digit [s], by [d]. *)

Section DivHalf.
Context (d r s : Z) (Hd : word d) (Hr : 0 <= r < d) (Hs : 0 <= s < H32).

Let dh := BngHighHalf d.
Let dl := BngLowHalf d.
Let q0 := r / (dh + 1).
Let n := r * H32 + s.

Lemma div_half_q0 : 0 <= q0 < H32 ∧ q0 * (dh + 1) <= r ∧ q0 * d <= n.
Proof.
  destruct (halves d Hd) as (Ed & Hl & Hh). fold dh dl in Ed, Hl, Hh.
  pose proof (Z.mul_div_le r (dh + 1) ltac:(lia)). fold q0 in H.
  assert (0 <= q0) by (apply Z.div_pos; lia).
  split_and!; [done| |lia|].
  - apply Z.div_lt_upper_bound; lia.
  - subst n. nia.
Qed.

Lemma div_half_quot : 0 <= n / d < H32.
Proof.
  subst n. split; [apply Z.div_pos; lia_w|]. apply Z.div_lt_upper_bound; [lia|nia].
Qed.

Lemma div_adjust_spec nh nl :
  word nh → word nl → nh * W + nl = n - q0 * d →
  div_adjust d (nh, nl, q0) = Some (0, n mod d, n / d).
Proof.
  intros Hnh Hnl Hv. destruct div_half_q0 as (Hq0 & _ & Hle).
  pose proof div_half_quot as Hq.
  edestruct (while_do_total
    (λ '(nh, nl, q), negb (nh =? 0) || (d <=? nl))
    (λ '(nh, nl, q), (u64 (nh - b2z (nl <? d)), u64 (nl - d), u64 (q + 1)))
    (λ '(nh, nl, q), word nh ∧ word nl ∧ 0 <= q ∧ nh * W + nl = n - q * d)
    (λ '(nh, nl, q), n / d - q) div_adjust_fuel (nh, nl, q0))
    as ([[nh' nl'] q'] & E & (Hnh' & Hnl' & Hq' & Hv') & Hc).
  - split_and!; [done..|lia|lia].
  - assert (q0 <= n / d) by (apply Z.div_le_lower_bound; lia).
    unfold div_adjust_fuel. lia_w.
  - intros [[h l] q] (Hh & Hl & Hq1 & Hv1) Hc _.
    assert (d <= h * W + l) as Hge.
    { destruct (Z.eqb_spec h 0); simpl in Hc; [apply Z.leb_le in Hc|]; lia_w. }
    assert (q + 1 <= n / d) by (apply Z.div_le_lower_bound; lia).
    rewrite (u64_small (q + 1)) by lia_w.
    assert (0 <= h - b2z (l <? d)) as Hb.
    { destruct (Z.ltb_spec l d); simpl; [|lia_w]. lia_w. }
    pose proof (b2z_range (l <? d)).
    rewrite (u64_small (h - _)) by lia_w.
    pose proof (b2z_ltb_sub l d Hl Hd). pose proof (u64_range (l - d)).
    split_and!; lia_w.
  - unfold div_adjust. rewrite E.
    assert (nh' = 0) as ->.
    { destruct (Z.eqb_spec nh' 0); simpl in Hc; [done|discriminate]. }
    simpl in Hc. apply Z.leb_gt in Hc.
    assert (n = d * q' + nl') as En by lia. unfold word in Hnl'.
    rewrite (Z.div_unique n d q' nl'), (Z.mod_unique n d q' nl') at 1 by lia. done.
Qed.

(** Subtracting [q0 * dl] with borrow from the shifted difference. *)
Lemma div_half_sub x pl l :
  x = u64 (r - u64 (q0 * dh)) → pl = u64 (q0 * dl) →
  l = (x mod H32) * H32 + s →
  let nh := u64 (x / H32 - b2z (l <? pl)) in
  let nl := u64 (l - pl) in
  word nh ∧ word nl ∧ nh * W + nl = n - q0 * d.
Proof.
  intros -> -> ->. destruct div_half_q0 as (Hq0 & Hle & Hle').
  destruct (halves d Hd) as (Ed & Hl & Hh). fold dh dl in Ed, Hl, Hh.
  pose proof (half_prod_bound q0 dl Hq0 Hl). pose proof (half_prod_bound q0 dh Hq0 Hh).
  rewrite (u64_small (q0 * dh)), (u64_small (q0 * dl)) by lia_w.
  rewrite (u64_small (r - _)) by lia_w. set (x := r - q0 * dh) in *.
  pose proof (Z.div_mod x H32 ltac:(lia_w)) as Ex.
  pose proof (Z.mod_pos_bound x H32 H32_pos).
  set (l := x mod H32 * H32 + s) in *.
  assert (word l) by (subst l; lia_w).
  pose proof (b2z_ltb_sub l (q0 * dl) ltac:(done) ltac:(lia_w)) as Eb.
  pose proof (u64_range (l - q0 * dl)). pose proof (b2z_range (l <? q0 * dl)).
  assert (x / H32 * W + l = n - q0 * dh * H32) as Exl
    by (subst l n x; rewrite W_half; nia).
  assert (q0 * d = q0 * dh * H32 + q0 * dl) by (rewrite Ed; ring).
  assert (0 <= x / H32 - b2z (l <? q0 * dl) < W).
  { assert (0 <= x / H32 < H32) by lia_w. lia_w. }
  rewrite (u64_small (x / H32 - _)) by done.
  split_and!; [done..|]. lia_w.
Qed.
End DivHalf.

(** [bng_div_aux] divides a double digit by a digit, whatever the divisor's
    normalization. *)
Lemma bng_div_aux_spec nh nl d :
  word nl → word d → 0 <= nh < d →
  bng_div_aux nh nl d = Some ((nh * W + nl) / d, (nh * W + nl) mod d).
Proof.
  intros Hnl Hd Hnh. unfold bng_div_aux.
  destruct (halves d Hd) as (Ed & Hdl & Hdh). destruct (halves nl Hnl) as (En & Hll & Hlh).
  rewrite (u64_small (BngHighHalf d + 1)) by lia_w.
  rewrite !shr_half, !shl_half, <- !BngHighHalf_div.
  rewrite (Z.lor_comm (BngHighHalf nl)), lor_half by done.
  edestruct (div_half_sub d nh (BngHighHalf nl) Hd Hnh Hlh) as (H1 & H2 & H3);
    [reflexivity..|].
  rewrite <- !BngHighHalf_div in H1, H3.
  rewrite (div_adjust_spec d nh _ Hd Hnh Hlh _ _ H1 H2 H3).
  cbv beta iota zeta. rewrite !shr_half, !shl_half, <- !BngHighHalf_div.
  set (n1 := nh * H32 + BngHighHalf nl). set (r1 := n1 mod d).
  assert (0 <= r1 < d) as Hr1 by (apply Z.mod_pos_bound; lia).
  rewrite lor_half by done.
  edestruct (div_half_sub d r1 (BngLowHalf nl) Hd Hr1 Hll) as (H4 & H5 & H6);
    [reflexivity..|].
  rewrite <- !BngHighHalf_div in H4, H6.
  rewrite (div_adjust_spec d r1 _ Hd Hr1 Hll _ _ H4 H5 H6).
  set (n2 := r1 * H32 + BngLowHalf nl).
  pose proof (div_half_quot d nh _ Hnh Hlh) as Hq1. fold n1 in Hq1.
  pose proof (div_half_quot d r1 _ Hr1 Hll) as Hq2. fold n2 in Hq2.
  rewrite (Z.mod_small (n1 / d) H32) by done. rewrite lor_half by done.
  pose proof (Z.div_mod n1 d ltac:(lia)) as E1. pose proof (Z.div_mod n2 d ltac:(lia)) as E2.
  assert (nh * W + nl = d * (n1 / d * H32 + n2 / d) + n2 mod d) as E.
  { rewrite W_half. subst n2. fold r1 in E1. nia. }
  pose proof (Z.mod_pos_bound n2 d ltac:(lia)) as Hb.
  by rewrite <- (Z.div_unique_pos _ _ _ _ Hb E), <- (Z.mod_unique_pos _ _ _ _ Hb E).
Qed.

End Digit.

(** * Operations on digit arrays: bng.c *)

Module Bng.
Import Digit.

Abbreviation BM := (M (gmap Z Z) fault).
Abbreviation ld := (load BadLoad).
Abbreviation st := (store BadStore).

Definition bng_leading_zero_bits (d : Z) : Z :=
  let n := BNG_BITS_PER_DIGIT in
  let '(n, d) := if negb (Z.land d 18446744069414584320 =? 0)
                 then (n - 32, Z.shiftr d 32) else (n, d) in
  let '(n, d) := if negb (Z.land d 4294901760 =? 0)
                 then (n - 16, Z.shiftr d 16) else (n, d) in
  let '(n, d) := if negb (Z.land d 65280 =? 0)
                 then (n - 8, Z.shiftr d 8) else (n, d) in
  let '(n, d) := if negb (Z.land d 240 =? 0)
                 then (n - 4, Z.shiftr d 4) else (n, d) in
  let '(n, d) := if negb (Z.land d 12 =? 0)
                 then (n - 2, Z.shiftr d 2) else (n, d) in
  let '(n, d) := if negb (Z.land d 2 =? 0)
                 then (n - 1, Z.shiftr d 1) else (n, d) in
  n - d.

(** The macros [bng_zero] and [bng_assign] ([memset]/[memmove] on digits;
    [memmove] copies as if through a temporary). *)
Fixpoint bng_zero (a : Z) (alen : nat) : BM unit :=
  match alen with
  | O => mreturn tt
  | S n => st a 0 ;;; bng_zero (a + 8) n
  end.

Fixpoint load_digits (a : Z) (alen : nat) : BM (list Z) :=
  match alen with
  | O => mreturn []
  | S n => let* x := ld a in let* l := load_digits (a + 8) n in mreturn (x :: l)
  end.

Fixpoint store_digits (a : Z) (l : list Z) : BM unit :=
  match l with
  | [] => mreturn tt
  | x :: l => st a x ;;; store_digits (a + 8) l
  end.

Definition bng_assign (a b : Z) (len : nat) : BM unit :=
  let* l := load_digits b len in store_digits a l.

Fixpoint bng_complement (a : Z) (alen : nat) : BM unit :=
  match alen with
  | O => mreturn tt
  | S n => let* x := ld a in st a (u64 (Z.lnot x)) ;;; bng_complement (a + 8) n
  end.

Fixpoint bng_num_digits (a : Z) (alen : nat) : BM Z :=
  match alen with
  | O => mreturn 1
  | S n => let* x := ld (padd a n) in
           if negb (x =? 0) then mreturn (Z.of_nat (S n)) else bng_num_digits a n
  end.

(** The macro [bng_is_zero]. *)
Definition bng_is_zero (a : Z) (alen : nat) : BM bool :=
  let* n := bng_num_digits a alen in mreturn (n =? 0).

(** [while (alen > 0 && a[alen-1] == 0) alen--;] *)
Fixpoint strip_zeros (a : Z) (alen : nat) : BM nat :=
  match alen with
  | O => mreturn O
  | S n => let* x := ld (padd a n) in
           if x =? 0 then strip_zeros a n else mreturn (S n)
  end.

Fixpoint compare_loop (a b : Z) (alen : nat) : BM Z :=
  match alen with
  | O => mreturn 0
  | S n =>
    let* da := ld (padd a n) in
    let* db := ld (padd b n) in
    if db <? da then mreturn 1
    else if da <? db then mreturn (-1)
    else compare_loop a b n
  end.

Definition bng_compare (a : Z) (alen : nat) (b : Z) (blen : nat) : BM Z :=
  let* alen := strip_zeros a alen in
  let* blen := strip_zeros b blen in
  if (blen <? alen)%nat then mreturn 1
  else if (alen <? blen)%nat then mreturn (-1)
  else compare_loop a b alen.

(** [do { if (++( *a) != 0) return 0; a++; } while (--alen); return 1;] *)
Fixpoint incr_loop (a : Z) (alen : nat) : BM Z :=
  match alen with
  | O => mreturn 1
  | S n => let* x := ld a in
           let x := u64 (x + 1) in
           st a x ;;;
           if negb (x =? 0) then mreturn 0 else incr_loop (a + 8) n
  end.

(** [do { if (( *a)-- != 0) return 0; a++; } while (--alen); return 1;] *)
Fixpoint decr_loop (a : Z) (alen : nat) : BM Z :=
  match alen with
  | O => mreturn 1
  | S n => let* x := ld a in
           st a (u64 (x - 1)) ;;;
           if negb (x =? 0) then mreturn 0 else decr_loop (a + 8) n
  end.

Definition bng_generic_add_carry (a : Z) (alen : nat) (carry : Z) : BM Z :=
  if (carry =? 0) || (alen =? 0)%nat then mreturn carry else incr_loop a alen.

Definition bng_generic_sub_carry (a : Z) (alen : nat) (carry : Z) : BM Z :=
  if (carry =? 0) || (alen =? 0)%nat then mreturn carry else decr_loop a alen.

Fixpoint add_loop (a b : Z) (blen : nat) (carry : Z) : BM Z :=
  match blen with
  | O => mreturn carry
  | S n =>
    let* x := ld a in
    let* y := ld b in
    let '(r, carry) := BngAdd2Carry x y carry in
    st a r ;;; add_loop (a + 8) (b + 8) n carry
  end.

(** [alen -= blen]; the documented requirement [alen >= blen] is checked. *)
Definition minus_len (alen blen : nat) : BM nat :=
  if (blen <=? alen)%nat then mreturn (alen - blen)%nat else mfail Contract.

Definition bng_generic_add (a : Z) (alen : nat) (b : Z) (blen : nat) (carry : Z) : BM Z :=
  let* alen := minus_len alen blen in
  let* carry := add_loop a b blen carry in
  let a := padd a blen in
  if (carry =? 0) || (alen =? 0)%nat then mreturn carry else incr_loop a alen.

Fixpoint sub_loop (a b : Z) (blen : nat) (carry : Z) : BM Z :=
  match blen with
  | O => mreturn carry
  | S n =>
    let* x := ld a in
    let* y := ld b in
    let '(r, carry) := BngSub2Carry x y carry in
    st a r ;;; sub_loop (a + 8) (b + 8) n carry
  end.

Definition bng_generic_sub (a : Z) (alen : nat) (b : Z) (blen : nat) (carry : Z) : BM Z :=
  let* alen := minus_len alen blen in
  let* carry := sub_loop a b blen carry in
  let a := padd a blen in
  if (carry =? 0) || (alen =? 0)%nat then mreturn carry else decr_loop a alen.

Fixpoint shift_left_loop (a : Z) (alen : nat) (shift shift2 carry : Z) : BM Z :=
  match alen with
  | O => mreturn carry
  | S n =>
    let* d := ld a in
    st a (Z.lor (u64 (Z.shiftl d shift)) carry) ;;;
    shift_left_loop (a + 8) n shift shift2 (Z.shiftr d shift2)
  end.

Definition bng_generic_shift_left (a : Z) (alen : nat) (shift : Z) : BM Z :=
  let shift2 := BNG_BITS_PER_DIGIT - shift in
  if 0 <? shift then shift_left_loop a alen shift shift2 0 else mreturn 0.

(** The loop runs from the most significant digit down. *)
Fixpoint shift_right_loop (a : Z) (alen : nat) (shift shift2 carry : Z) : BM Z :=
  match alen with
  | O => mreturn carry
  | S n =>
    let* d := ld (padd a n) in
    st (padd a n) (Z.lor (Z.shiftr d shift) carry) ;;;
    shift_right_loop a n shift shift2 (u64 (Z.shiftl d shift2))
  end.

Definition bng_generic_shift_right (a : Z) (alen : nat) (shift : Z) : BM Z :=
  let shift2 := BNG_BITS_PER_DIGIT - shift in
  if 0 <? shift then shift_right_loop a alen shift shift2 0 else mreturn 0.

Fixpoint mult_add_loop (a b : Z) (blen : nat) (d out : Z) : BM Z :=
  match blen with
  | O => mreturn out
  | S n =>
    let* bd := ld b in
    let '(ph, pl) := BngMult bd d in
    let* x := ld a in
    let '(r, ph) := BngAdd3 ph x pl out in
    st a r ;;; mult_add_loop (a + 8) (b + 8) n d ph
  end.

Definition bng_generic_mult_add_digit
    (a : Z) (alen : nat) (b : Z) (blen : nat) (d : Z) : BM Z :=
  let* alen := minus_len alen blen in
  let* out := mult_add_loop a b blen d 0 in
  let a := padd a blen in
  if (alen =? 0)%nat then mreturn out else
  let* x := ld a in
  let '(r, carry) := BngAdd2 x out in
  st a r ;;;
  let a := a + 8 in
  let alen := (alen - 1)%nat in
  if (carry =? 0) || (alen =? 0)%nat then mreturn carry else incr_loop a alen.

Fixpoint mult_sub_loop (a b : Z) (blen : nat) (d out : Z) : BM Z :=
  match blen with
  | O => mreturn out
  | S n =>
    let* bd := ld b in
    let '(ph, pl) := BngMult bd d in
    let* x := ld a in
    let '(r, ph) := BngSub3 ph x pl out in
    st a r ;;; mult_sub_loop (a + 8) (b + 8) n d ph
  end.

Definition bng_generic_mult_sub_digit
    (a : Z) (alen : nat) (b : Z) (blen : nat) (d : Z) : BM Z :=
  let* alen := minus_len alen blen in
  let* out := mult_sub_loop a b blen d 0 in
  let a := padd a blen in
  if (alen =? 0)%nat then mreturn out else
  let* x := ld a in
  let '(r, carry) := BngSub2 x out in
  st a r ;;;
  let a := a + 8 in
  let alen := (alen - 1)%nat in
  if (carry =? 0) || (alen =? 0)%nat then mreturn carry else decr_loop a alen.

(** [carry] is a [bngcarry], an [unsigned int]. *)
Fixpoint mult_add_outer (a : Z) (alen : nat) (b : Z) (blen : nat)
    (c : Z) (clen : nat) (carry : Z) : BM Z :=
  match clen with
  | O => mreturn carry
  | S n =>
    let* d := ld c in
    let* r := bng_generic_mult_add_digit a alen b blen d in
    let* alen := minus_len alen 1 in
    mult_add_outer (a + 8) alen b blen (c + 8) n (u32 (carry + r))
  end.

Definition bng_generic_mult_add (a : Z) (alen : nat) (b : Z) (blen : nat)
    (c : Z) (clen : nat) : BM Z :=
  mult_add_outer a alen b blen c clen 0.

(** [for (i = 1; i < blen; i++)], with [n] the number of iterations left. *)
Fixpoint double_products (a : Z) (alen : nat) (b : Z) (blen i n : nat) (carry1 : Z) : BM Z :=
  match n with
  | O => mreturn carry1
  | S n =>
    let aofs := (2 * i - 1)%nat in
    let* d := ld (padd b (i - 1)) in
    let* alen' := minus_len alen aofs in
    let* r := bng_generic_mult_add_digit (padd a aofs) alen' (padd b i) (blen - i) d in
    double_products a alen b blen (S i) n (u32 (carry1 + r))
  end.

(** [for (i = 0; i < blen; i++)], [a] advancing by two digits. *)
Fixpoint add_squares (a b : Z) (blen : nat) (carry2 : Z) : BM Z :=
  match blen with
  | O => mreturn carry2
  | S n =>
    let* d := ld b in
    let '(ph, pl) := BngMult d d in
    let* x := ld a in
    let '(r, carry2) := BngAdd2Carry x pl carry2 in
    st a r ;;;
    let a := a + 8 in
    let* x := ld a in
    let '(r, carry2) := BngAdd2Carry x ph carry2 in
    st a r ;;;
    add_squares (a + 8) (b + 8) n carry2
  end.

Definition bng_generic_square_add (a : Z) (alen : nat) (b : Z) (blen : nat) : BM Z :=
  let* carry1 := double_products a alen b blen 1 (blen - 1) 0 in
  let* top := bng_generic_shift_left a alen 1 in
  let carry1 := Z.lor (u32 (Z.shiftl carry1 1)) (u32 top) in
  let* carry2 := add_squares a b blen 0 in
  let a := padd a (2 * blen) in
  let* alen := minus_len alen (2 * blen) in
  let* carry2 :=
    (if (0 <? alen)%nat && negb (carry2 =? 0) then incr_loop a alen else mreturn carry2) in
  mreturn (u32 (carry1 + carry2)).

Definition lift_option {A} (o : option A) : BM A :=
  match o with Some x => mreturn x | None => mfail OutOfFuel end.

(** [for (i = len - 2; i >= 0; i--)], with [n = i + 1]. *)
Fixpoint div_digit_loop (a b : Z) (n : nat) (topdigit d : Z) : BM Z :=
  match n with
  | O => mreturn topdigit
  | S i =>
    let* bi := ld (padd b i) in
    let* qr := lift_option (BngDiv topdigit bi d) in
    let '(quo, rem) := qr in
    st (padd a i) quo ;;;
    div_digit_loop a b i rem d
  end.

Definition bng_generic_div_rem_norm_digit (a b : Z) (len : nat) (d : Z) : BM Z :=
  let* l := minus_len len 1 in
  let* topdigit := ld (padd b l) in
  div_digit_loop a b l topdigit d.

Definition bng_generic_div_rem_digit (a b : Z) (len : nat) (d : Z) : BM Z :=
  let shift := bng_leading_zero_bits d in
  let d := u64 (Z.shiftl d shift) in
  bng_generic_shift_left b len shift ;;;
  let* rem := bng_generic_div_rem_norm_digit a b len d in
  bng_generic_shift_right b len shift ;;;
  mreturn (Z.shiftr rem shift).

(** [while (n[j] != 0 || bng_compare(n + i, dlen, d, dlen) >= 0)], on [quo]. *)
Definition div_correct_fuel : positive := 18446744073709551616.

Definition div_correct (nj ni : Z) (d : Z) (dlen : nat) (quo : Z) : BM Z :=
  while_m
    (λ _, let* top := ld nj in
          if negb (top =? 0) then mreturn true else
          let* c := bng_compare ni dlen d dlen in mreturn (0 <=? c))
    (λ quo, let* c := bng_generic_sub ni dlen d dlen 0 in
            let* top := ld nj in
            st nj (u64 (top - c)) ;;;
            mreturn (u64 (quo + 1)))
    div_correct_fuel OutOfFuel quo.

(** The body of the long division loop, with [i = j - dlen]: estimate the
    quotient digit, subtract, adjust, store it. *)
Definition sub_estimate (n d : Z) (dlen : nat) (topden : Z) (i : nat) : BM Z :=
  let j := (i + dlen)%nat in
  let* nj := ld (padd n j) in
  let* quo :=
    (if u64 (topden + 1) =? 0 then mreturn nj else
     let* nj1 := ld (padd n (j - 1)) in
     let* qr := lift_option (BngDiv nj nj1 (u64 (topden + 1))) in
     mreturn qr.1) in
  let* c := bng_generic_mult_sub_digit (padd n i) dlen d dlen quo in
  let* nj := ld (padd n j) in
  st (padd n j) (u64 (nj - c)) ;;;
  mreturn quo.

Definition long_division_step (n d : Z) (dlen : nat) (topden : Z) (i : nat) : BM unit :=
  let j := (i + dlen)%nat in
  let* quo := sub_estimate n d dlen topden i in
  let* quo := div_correct (padd n j) (padd n i) d dlen quo in
  st (padd n j) quo.

(** [for (j = nlen - 1; j >= dlen; j--)], with [k = j - dlen + 1]. *)
Fixpoint long_division (n d : Z) (dlen : nat) (topden : Z) (k : nat) : BM unit :=
  match k with
  | O => mreturn tt
  | S i => long_division_step n d dlen topden i ;;; long_division n d dlen topden i
  end.

(** The division proper, on normalized operands. *)
Definition div_rem_norm (n : Z) (nlen : nat) (d : Z) (dlen : nat) : BM unit :=
  if (dlen =? 1)%nat then
    let* d0 := ld d in
    let* r := bng_generic_div_rem_norm_digit (n + 8) n nlen d0 in
    st n r
  else
    let* l := minus_len dlen 1 in
    let* topden := ld (padd d l) in
    let* k := minus_len nlen dlen in
    long_division n d dlen topden k.

Definition bng_generic_div_rem (n : Z) (nlen : nat) (d : Z) (dlen : nat) : BM unit :=
  let* l := minus_len dlen 1 in
  let* dtop := ld (padd d l) in
  let shift := bng_leading_zero_bits dtop in
  bng_generic_shift_left n nlen shift ;;;
  bng_generic_shift_left d dlen shift ;;;
  div_rem_norm n nlen d dlen ;;;
  bng_generic_shift_right n dlen shift ;;;
  bng_generic_shift_right d dlen shift ;;;
  mreturn tt.

(** ** Digit sequences in memory *)

(** The number a little-endian digit sequence denotes. *)
Fixpoint nval (ds : list Z) : Z :=
  match ds with [] => 0 | d :: ds => d + W * nval ds end.

Definition Wn (n : nat) : Z := W ^ Z.of_nat n.

Definition arr (m : gmap Z Z) (p : Z) (ds : list Z) : Prop := seg m p ds ∧ Forall word ds.

(** [m'] agrees with [m] outside the [n] digits at [p]. *)
Definition frame (m m' : gmap Z Z) (p : Z) (n : nat) : Prop :=
  ∀ k, k < p ∨ padd p n <= k → m' !! k = m !! k.

(** The post-condition of an operation that rewrites the [n] digits at [p]. *)
Definition upd {A} (m : gmap Z Z) (p : Z) (n : nat) (P : A → list Z → Prop)
    (r : A) (m' : gmap Z Z) : Prop :=
  ∃ ds, arr m' p ds ∧ length ds = n ∧ frame m m' p n ∧ P r ds.

Lemma Wn_0 : Wn 0 = 1. Proof. done. Qed.
Lemma Wn_S n : Wn (S n) = W * Wn n.
Proof. unfold Wn. rewrite Nat2Z.inj_succ, Z.pow_succ_r by lia. done. Qed.
Lemma Wn_add n k : Wn (n + k) = Wn n * Wn k.
Proof. unfold Wn. rewrite Nat2Z.inj_add, Z.pow_add_r by lia. done. Qed.
Lemma Wn_pos n : 0 < Wn n.
Proof. apply Z.pow_pos_nonneg; [apply W_pos|lia]. Qed.
Lemma Wn_mono n k : (n <= k)%nat → Wn n <= Wn k.
Proof. intros. apply Z.pow_le_mono_r; [apply W_pos|lia]. Qed.

Lemma nval_app l k : nval (l ++ k) = nval l + Wn (length l) * nval k.
Proof.
  induction l as [|d l IH]; [cbn [nval length app]; rewrite Wn_0; lia|].
  cbn [nval app length]. rewrite IH, Wn_S. ring.
Qed.

Lemma nval_bound ds : Forall word ds → 0 <= nval ds < Wn (length ds).
Proof.
  induction 1 as [|d ds Hd _ IH]; [cbn [nval length app]; rewrite Wn_0; lia|].
  cbn [nval length]. rewrite Wn_S. unfold word in Hd. nia.
Qed.

Lemma arr_app m p l k : arr m p (l ++ k) ↔ arr m p l ∧ arr m (padd p (length l)) k.
Proof. unfold arr. rewrite seg_app, Forall_app. tauto. Qed.

Lemma arr_cons m p d ds : arr m p (d :: ds) ↔ m !! p = Some d ∧ word d ∧ arr m (p + 8) ds.
Proof. unfold arr. rewrite Forall_cons. cbn [seg]. tauto. Qed.

Lemma arr_nil m p : arr m p [].
Proof. split; done. Qed.

Lemma arr_lookup m p ds i d : arr m p ds → ds !! i = Some d → m !! padd p i = Some d ∧ word d.
Proof.
  revert p i. induction ds as [|x ds IH]; intros p i Ha Hi; [done|].
  apply arr_cons in Ha as (Hx & Hw & Ha). destruct i as [|i].
  - rewrite padd_0. simpl in Hi. simplify_eq. done.
  - rewrite padd_S. by apply IH.
Qed.

Lemma arr_ext m m' p ds :
  (∀ k, p <= k < padd p (length ds) → m' !! k = m !! k) → arr m p ds → arr m' p ds.
Proof.
  revert p. induction ds as [|d ds IH]; intros p Hk Ha; [apply arr_nil|].
  cbn [length] in Hk. rewrite padd_S in Hk.
  apply arr_cons in Ha as (Hd & Hw & Ha). apply arr_cons. split_and!; [|done|].
  - rewrite Hk; [done|unfold padd; lia].
  - apply IH; [|done]. intros k ?. apply Hk. lia.
Qed.

(** Two digit ranges that do not meet. *)
Definition apart (p : Z) (n : nat) (q : Z) (k : nat) : Prop :=
  padd p n <= q ∨ padd q k <= p.

Lemma arr_frame m m' p n q ds :
  frame m m' p n → apart p n q (length ds) → arr m q ds → arr m' q ds.
Proof. intros Hf Ha. apply arr_ext. intros k Hk. apply Hf. unfold apart in Ha. lia. Qed.

Lemma arr_insert m p q v ds :
  q < p ∨ padd p (length ds) <= q → arr m p ds → arr (<[q := v]> m) p ds.
Proof. intros Hq. apply arr_ext. intros k Hk. apply lookup_insert_ne. lia. Qed.

Lemma frame_refl m p n : frame m m p n.
Proof. done. Qed.

Lemma frame_trans m m1 m2 p n : frame m m1 p n → frame m1 m2 p n → frame m m2 p n.
Proof. intros H1 H2 k Hk. rewrite H2, H1; done. Qed.

Lemma frame_weaken m m' p n q k :
  frame m m' p n → q <= p → padd p n <= padd q k → frame m m' q k.
Proof. intros Hf ?? x Hx. apply Hf. lia. Qed.

Lemma frame_insert m p q n v : p <= q < padd p n → frame m (<[q := v]> m) p n.
Proof. intros Hq k Hk. apply lookup_insert_ne. lia. Qed.

(** Composition rules for [upd]. *)

Lemma upd_nil {A} m p (P : A → list Z → Prop) r : P r [] → upd m p 0 P r m.
Proof. intros. exists []. split_and!; [apply arr_nil|done|done|done]. Qed.

Lemma upd_same {A} m p ds (P : A → list Z → Prop) r :
  arr m p ds → P r ds → upd m p (length ds) P r m.
Proof. intros. exists ds. done. Qed.

Lemma upd_cons {A} m m' p n x (P Q : A → list Z → Prop) r :
  word x → upd (<[p := x]> m) (p + 8) n P r m' →
  (∀ ds, Forall word ds → length ds = n → P r ds → Q r (x :: ds)) → upd m p (S n) Q r m'.
Proof.
  intros Hx (ds & Ha & Hl & Hf & HP) HQ. exists (x :: ds). split_and!.
  - apply arr_cons. split_and!; [|done..]. rewrite Hf by lia. apply lookup_insert_eq.
  - simpl. by rewrite Hl.
  - intros k Hk. rewrite padd_S in Hk. rewrite Hf; [|unfold padd in *; lia].
    apply lookup_insert_ne. unfold padd in Hk. lia.
  - apply HQ; [apply Ha|done|done].
Qed.

Lemma upd_stop {A} m p x ds (Q : A → list Z → Prop) r :
  word x → arr m (p + 8) ds → Q r (x :: ds) → upd m p (S (length ds)) Q r (<[p := x]> m).
Proof.
  intros Hx Ha HQ. eapply (upd_cons _ _ _ _ _ (λ _ l, l = ds)); [done| |by intros ds' _ _ ->].
  apply upd_same; [|done]. apply arr_insert; [lia|done].
Qed.

Lemma upd_app {A B} m m1 m2 p n k (P : A → list Z → Prop) (R : B → list Z → Prop)
    (Q : B → list Z → Prop) x r :
  upd m p n P x m1 → upd m1 (padd p n) k R r m2 →
  (∀ l1 l2, Forall word l1 → Forall word l2 → length l1 = n → length l2 = k →
     P x l1 → R r l2 → Q r (l1 ++ l2)) →
  upd m p (n + k) Q r m2.
Proof.
  intros (l1 & Ha1 & Hl1 & Hf1 & HP) (l2 & Ha2 & Hl2 & Hf2 & HR) HQ.
  exists (l1 ++ l2). split_and!.
  - apply arr_app. rewrite Hl1. split; [|done]. eapply arr_frame; [done| |done].
    right. rewrite Hl1. lia.
  - rewrite length_app. lia.
  - intros a Ha. rewrite padd_add in Ha. rewrite Hf2, Hf1; [done|..]; unfold padd in *; lia.
  - apply HQ; [apply Ha1|apply Ha2|done..].
Qed.

Lemma upd_conseq {A} m m' p n (P Q : A → list Z → Prop) r :
  upd m p n P r m' → (∀ ds, Forall word ds → length ds = n → P r ds → Q r ds) → upd m p n Q r m'.
Proof.
  intros (ds & Ha & Hl & Hf & HP) HQ. exists ds. split_and!; [done..|].
  apply HQ; [apply Ha|done..].
Qed.

(** Split an array at a length. *)
Lemma arr_split m p ds n :
  arr m p ds → (n <= length ds)%nat →
  ∃ l k, ds = l ++ k ∧ length l = n ∧ arr m p l ∧ arr m (padd p n) k.
Proof.
  intros Ha Hn. exists (take n ds), (drop n ds).
  rewrite <- (take_drop n ds) in Ha. apply arr_app in Ha.
  rewrite length_take_le in * by done. rewrite take_drop. tauto.
Qed.

(** ** Symbolic execution of array code *)

Ltac wp_step :=
  match goal with
  | |- wp (mbnd _ _) _ _ => apply wp_bind
  | |- wp (mreturn _) _ _ => apply wp_ret
  | H : ?m !! ?a = Some _ |- wp (load _ ?a) _ ?m => eapply wp_load; [exact H|]
  | H : ?m !! ?a = Some _ |- wp (store _ ?a _) _ ?m => eapply wp_store; [exact H|]
  end.
Ltac wp_steps := repeat (wp_step; cbv beta iota zeta).

Lemma wp_minus_len a b (Q : nat → gmap Z Z → Prop) m :
  (b <= a)%nat → Q (a - b)%nat m → wp (minus_len a b) Q m.
Proof. intros H HQ. unfold minus_len. apply Nat.leb_le in H. by rewrite H. Qed.

Lemma u64_succ_zero x : word x → u64 (x + 1) = 0 → x = W - 1.
Proof.
  intros Hx E. destruct (u64_add_cases x 1 Hx) as [[? ?]|[? ?]]; lia_w.
Qed.

Lemma u64_succ_nonzero x : word x → u64 (x + 1) ≠ 0 → u64 (x + 1) = x + 1.
Proof.
  intros Hx E. destruct (u64_add_cases x 1 Hx) as [[? ?]|[? ?]]; lia_w.
Qed.

Lemma incr_loop_spec ds m a :
  arr m a ds →
  wp (incr_loop a (length ds))
     (upd m a (length ds)
        (λ c ds', 0 <= c <= 1 ∧ nval ds' + Wn (length ds) * c = nval ds + 1)) m.
Proof.
  revert m a. induction ds as [|x ds IH]; intros m a Ha; cbn [incr_loop length nval].
  - apply wp_ret, upd_nil. rewrite Wn_0. cbn. lia.
  - apply arr_cons in Ha as (Hx & Hw & Ha). wp_steps. rewrite Wn_S.
    destruct (Z.eqb_spec (u64 (x + 1)) 0) as [E|E]; cbn [negb].
    + eapply wp_conseq; [apply IH; apply arr_insert; [lia|done]|]. intros c m' H.
      eapply upd_cons; [auto with words|exact H|]. cbn [nval].
      intros ds' _ _ [? ?]. apply u64_succ_zero in E as E'; [|done]. rewrite E. nia.
    + apply wp_ret, upd_stop; [auto with words|done|].
      cbn [nval]. rewrite u64_succ_nonzero by done. lia.
Qed.

Lemma decr_loop_spec ds m a :
  arr m a ds →
  wp (decr_loop a (length ds))
     (upd m a (length ds)
        (λ c ds', 0 <= c <= 1 ∧ nval ds' - Wn (length ds) * c = nval ds - 1)) m.
Proof.
  revert m a. induction ds as [|x ds IH]; intros m a Ha; cbn [decr_loop length nval].
  - apply wp_ret, upd_nil. rewrite Wn_0. cbn. lia.
  - apply arr_cons in Ha as (Hx & Hw & Ha). wp_steps. rewrite Wn_S.
    destruct (Z.eqb_spec x 0) as [E|E]; cbn [negb].
    + eapply wp_conseq; [apply IH; apply arr_insert; [lia|done]|]. intros c m' H.
      eapply upd_cons; [auto with words|exact H|]. cbn [nval].
      intros ds' _ _ [? ?]. subst x. change (u64 (0 - 1)) with (W - 1). nia.
    + apply wp_ret, upd_stop; [auto with words|done|].
      cbn [nval]. rewrite u64_small by lia_w. lia.
Qed.

(** The digits at [b] are read before the writes at [a] reach them. *)
Definition read_ahead (a b : Z) (n : nat) : Prop := a <= b ∨ padd b n <= a.

Lemma read_ahead_S a b n : read_ahead a b (S n) → read_ahead (a + 8) (b + 8) n.
Proof. unfold read_ahead. rewrite padd_S. unfold padd. lia. Qed.

Lemma arr_read_ahead m a b v ds :
  read_ahead a b (S (length ds)) → arr m (b + 8) ds → arr (<[a := v]> m) (b + 8) ds.
Proof. unfold read_ahead. intros H. apply arr_insert. rewrite padd_S in H. lia. Qed.

Lemma apart_read_ahead a n b k : apart a n b k → read_ahead a b k.
Proof. unfold apart, read_ahead, padd. lia. Qed.

Lemma add_loop_spec db da m a b c :
  arr m a da → arr m b db → length da = length db → read_ahead a b (length db) → 0 <= c <= 1 →
  wp (add_loop a b (length db) c)
     (upd m a (length db)
        (λ c' ds', 0 <= c' <= 1 ∧ nval ds' + Wn (length db) * c' = nval da + nval db + c)) m.
Proof.
  revert da m a b c. induction db as [|y db IH]; intros [|x da] m a b c Ha Hb Hl Hr Hc;
    try discriminate Hl; cbn [add_loop length nval].
  - apply wp_ret, upd_nil. rewrite Wn_0. cbn. lia.
  - apply arr_cons in Ha as (Hx & Hwx & Ha). apply arr_cons in Hb as (Hy & Hwy & Hb).
    wp_steps. destruct (BngAdd2Carry x y c) as [r c1] eqn:E.
    apply BngAdd2Carry_spec in E as (E & Hwr & Hc1); [|done..]. wp_steps.
    eapply wp_conseq; [apply (IH da); [apply arr_insert; [lia|done]|by apply arr_read_ahead
      |simpl in Hl; lia|by apply read_ahead_S|done]|].
    intros c' m' H. eapply upd_cons; [exact Hwr|exact H|]. cbn [nval]. rewrite Wn_S.
    intros ds' _ _ [? ?]. nia.
Qed.

Lemma sub_loop_spec db da m a b c :
  arr m a da → arr m b db → length da = length db → read_ahead a b (length db) → 0 <= c <= 1 →
  wp (sub_loop a b (length db) c)
     (upd m a (length db)
        (λ c' ds', 0 <= c' <= 1 ∧ nval ds' - Wn (length db) * c' = nval da - nval db - c)) m.
Proof.
  revert da m a b c. induction db as [|y db IH]; intros [|x da] m a b c Ha Hb Hl Hr Hc;
    try discriminate Hl; cbn [sub_loop length nval].
  - apply wp_ret, upd_nil. rewrite Wn_0. cbn. lia.
  - apply arr_cons in Ha as (Hx & Hwx & Ha). apply arr_cons in Hb as (Hy & Hwy & Hb).
    wp_steps. destruct (BngSub2Carry x y c) as [r c1] eqn:E.
    apply BngSub2Carry_spec in E as (E & Hwr & Hc1); [|done..]. wp_steps.
    eapply wp_conseq; [apply (IH da); [apply arr_insert; [lia|done]|by apply arr_read_ahead
      |simpl in Hl; lia|by apply read_ahead_S|done]|].
    intros c' m' H. eapply upd_cons; [exact Hwr|exact H|]. cbn [nval]. rewrite Wn_S.
    intros ds' _ _ [? ?]. nia.
Qed.

(** The carry test that ends [add], [sub] and the digit products. *)
Lemma incr_tail_spec ds m a c :
  arr m a ds → 0 <= c <= 1 →
  wp (if (c =? 0) || (length ds =? 0)%nat then mreturn c else incr_loop a (length ds))
     (upd m a (length ds)
        (λ c' ds', 0 <= c' <= 1 ∧ nval ds' + Wn (length ds) * c' = nval ds + c)) m.
Proof.
  intros Ha Hc. destruct (Z.eqb_spec c 0) as [->|E]; cbn [orb].
  - apply wp_ret, upd_same; [done|lia].
  - destruct ds as [|x ds]; [cbn; apply upd_nil; rewrite Wn_0; cbn; lia|].
    eapply wp_conseq; [by apply incr_loop_spec|]. intros c' m' H.
    eapply upd_conseq; [done|]. intros ds' _ _ ?. assert (c = 1) as -> by lia. done.
Qed.

Lemma decr_tail_spec ds m a c :
  arr m a ds → 0 <= c <= 1 →
  wp (if (c =? 0) || (length ds =? 0)%nat then mreturn c else decr_loop a (length ds))
     (upd m a (length ds)
        (λ c' ds', 0 <= c' <= 1 ∧ nval ds' - Wn (length ds) * c' = nval ds - c)) m.
Proof.
  intros Ha Hc. destruct (Z.eqb_spec c 0) as [->|E]; cbn [orb].
  - apply wp_ret, upd_same; [done|lia].
  - destruct ds as [|x ds]; [cbn; apply upd_nil; rewrite Wn_0; cbn; lia|].
    eapply wp_conseq; [by apply decr_loop_spec|]. intros c' m' H.
    eapply upd_conseq; [done|]. intros ds' _ _ ?. assert (c = 1) as -> by lia. done.
Qed.

(** An update of a prefix leaves the suffix in place. *)
Lemma upd_suffix {A} m m1 p n (P : A → list Z → Prop) r ds :
  upd m p n P r m1 → arr m (padd p n) ds → arr m1 (padd p n) ds.
Proof.
  intros (l & _ & _ & Hf & _) Ha. eapply arr_frame; [exact Hf|left; lia|done].
Qed.

(** {a,alen} := {a,alen} + {b,blen} + carry, with the carry out returned. *)
Lemma bng_add_spec da db m a b c :
  arr m a da → arr m b db → (length db <= length da)%nat →
  read_ahead a b (length db) → 0 <= c <= 1 →
  wp (bng_generic_add a (length da) b (length db) c)
     (upd m a (length da)
        (λ c' ds', 0 <= c' <= 1 ∧ nval ds' + Wn (length da) * c' = nval da + nval db + c)) m.
Proof.
  intros Ha Hb Hle Hr Hc. unfold bng_generic_add. apply wp_bind, wp_minus_len; [done|].
  destruct (arr_split _ _ _ _ Ha Hle) as (l & k & -> & Hl & Hal & Hak).
  rewrite length_app, Hl. replace (length db + length k - length db)%nat with (length k) by lia.
  apply wp_bind. eapply wp_conseq; [by apply (add_loop_spec db l)|].
  intros c1 m1 H1. cbv zeta beta.
  assert (0 <= c1 <= 1) by (destruct H1 as (? & _ & _ & _ & ? & _); done).
  eapply wp_conseq; [apply incr_tail_spec; [by eapply upd_suffix|done]|].
  intros c2 m2 H2. eapply upd_app; [exact H1|exact H2|].
  intros l1 l2 _ _ E1 E2 [? ?] [? ?]. rewrite !nval_app, Wn_add, E1, Hl. nia.
Qed.

Lemma bng_sub_spec da db m a b c :
  arr m a da → arr m b db → (length db <= length da)%nat →
  read_ahead a b (length db) → 0 <= c <= 1 →
  wp (bng_generic_sub a (length da) b (length db) c)
     (upd m a (length da)
        (λ c' ds', 0 <= c' <= 1 ∧ nval ds' - Wn (length da) * c' = nval da - nval db - c)) m.
Proof.
  intros Ha Hb Hle Hr Hc. unfold bng_generic_sub. apply wp_bind, wp_minus_len; [done|].
  destruct (arr_split _ _ _ _ Ha Hle) as (l & k & -> & Hl & Hal & Hak).
  rewrite length_app, Hl. replace (length db + length k - length db)%nat with (length k) by lia.
  apply wp_bind. eapply wp_conseq; [by apply (sub_loop_spec db l)|].
  intros c1 m1 H1. cbv zeta beta.
  assert (0 <= c1 <= 1) by (destruct H1 as (? & _ & _ & _ & ? & _); done).
  eapply wp_conseq; [apply decr_tail_spec; [by eapply upd_suffix|done]|].
  intros c2 m2 H2. eapply upd_app; [exact H1|exact H2|].
  intros l1 l2 _ _ E1 E2 [? ?] [? ?]. rewrite !nval_app, Wn_add, E1, Hl. nia.
Qed.

(** ** Multiplication by a digit *)

Lemma mult_headroom y d ph pl out :
  word y → word d → word out → pl + W * ph = y * d → W * ph + pl + out <= W * W - W.
Proof. unfold word. intros. nia. Qed.

Lemma mult_add_loop_spec db da m a b d out :
  arr m a da → arr m b db → length da = length db → read_ahead a b (length db) →
  word d → word out →
  wp (mult_add_loop a b (length db) d out)
     (upd m a (length db)
        (λ out' ds', word out' ∧
           nval ds' + Wn (length db) * out' = nval da + d * nval db + out)) m.
Proof.
  revert da m a b out. induction db as [|y db IH]; intros [|x da] m a b out Ha Hb Hl Hr Hd Ho;
    try discriminate Hl; cbn [mult_add_loop length nval].
  - apply wp_ret, upd_nil. rewrite Wn_0. cbn. split; [done|lia].
  - apply arr_cons in Ha as (Hx & Hwx & Ha). apply arr_cons in Hb as (Hy & Hwy & Hb).
    wp_steps. destruct (BngMult y d) as [ph pl] eqn:E1.
    apply BngMult_spec in E1 as (E1 & Hph & Hpl); [|done..]. wp_steps.
    destruct (BngAdd3 ph x pl out) as [r c1] eqn:E2.
    apply BngAdd3_spec in E2 as (E2 & Hwr & Hc1 & Hwc); [|done..|apply Hph|by apply (mult_headroom y d)].
    wp_steps.
    eapply wp_conseq; [apply (IH da); [apply arr_insert; [lia|done]|by apply arr_read_ahead
      |simpl in Hl; lia|by apply read_ahead_S|done|done]|].
    intros c' m' H. eapply upd_cons; [exact Hwr|exact H|]. cbn [nval]. rewrite Wn_S.
    intros ds' _ _ [? ?]. split; [done|nia].
Qed.

Lemma mult_sub_loop_spec db da m a b d out :
  arr m a da → arr m b db → length da = length db → read_ahead a b (length db) →
  word d → word out →
  wp (mult_sub_loop a b (length db) d out)
     (upd m a (length db)
        (λ out' ds', word out' ∧
           nval ds' - Wn (length db) * out' = nval da - d * nval db - out)) m.
Proof.
  revert da m a b out. induction db as [|y db IH]; intros [|x da] m a b out Ha Hb Hl Hr Hd Ho;
    try discriminate Hl; cbn [mult_sub_loop length nval].
  - apply wp_ret, upd_nil. rewrite Wn_0. cbn. split; [done|lia].
  - apply arr_cons in Ha as (Hx & Hwx & Ha). apply arr_cons in Hb as (Hy & Hwy & Hb).
    wp_steps. destruct (BngMult y d) as [ph pl] eqn:E1.
    apply BngMult_spec in E1 as (E1 & Hph & Hpl); [|done..]. wp_steps.
    destruct (BngSub3 ph x pl out) as [r c1] eqn:E2.
    apply BngSub3_spec in E2 as (E2 & Hwr & Hc1 & Hwc); [|done..|apply Hph|by apply (mult_headroom y d)].
    wp_steps.
    eapply wp_conseq; [apply (IH da); [apply arr_insert; [lia|done]|by apply arr_read_ahead
      |simpl in Hl; lia|by apply read_ahead_S|done|done]|].
    intros c' m' H. eapply upd_cons; [exact Hwr|exact H|]. cbn [nval]. rewrite Wn_S.
    intros ds' _ _ [? ?]. split; [done|nia].
Qed.

Lemma arr_words m p ds : arr m p ds → Forall word ds.
Proof. by intros [_ ?]. Qed.

(** An update of the middle of an array. *)
Lemma arr_upd_sub {A} m m' p l1 l2 l3 (R : A → list Z → Prop) r :
  arr m p (l1 ++ l2 ++ l3) → upd m (padd p (length l1)) (length l2) R r m' →
  ∃ l2', arr m' p (l1 ++ l2' ++ l3) ∧ length l2' = length l2 ∧ R r l2' ∧
         frame m m' p (length (l1 ++ l2 ++ l3)).
Proof.
  intros Ha (l2' & Ha' & Hl & Hf & HR). exists l2'. rewrite !arr_app in *.
  destruct Ha as (H1 & H2 & H3). rewrite Hl. split_and!; [|done| |done|done|].
  - eapply arr_frame; [exact Hf|right; lia|done].
  - eapply arr_frame; [exact Hf|left; lia|done].
  - rewrite !length_app. eapply frame_weaken; [exact Hf|unfold padd; lia..].
Qed.

Lemma bng_mult_add_digit_spec da db m a b d :
  arr m a da → arr m b db → (length db <= length da)%nat →
  read_ahead a b (length db) → word d →
  wp (bng_generic_mult_add_digit a (length da) b (length db) d)
     (upd m a (length da)
        (λ c ds', word c ∧ ((length db < length da)%nat → c <= 1) ∧
           nval ds' + Wn (length da) * c = nval da + d * nval db)) m.
Proof.
  intros Ha Hb Hle Hr Hd. unfold bng_generic_mult_add_digit. apply wp_bind, wp_minus_len; [done|].
  destruct (arr_split _ _ _ _ Ha Hle) as (l & k & -> & Hl & Hal & Hak).
  rewrite length_app, Hl. replace (length db + length k - length db)%nat with (length k) by lia.
  apply wp_bind. eapply wp_conseq; [by apply (mult_add_loop_spec db l); [..|apply (word_bit 0)]|].
  intros out m1 H1. cbv zeta beta.
  assert (word out) as Ho by (destruct H1 as (? & _ & _ & _ & ? & _); done).
  apply (upd_suffix _ _ _ _ _ _ _ H1) in Hak.
  destruct k as [|x k]; cbn [length Nat.eqb].
  { apply wp_ret. rewrite Nat.add_0_r, app_nil_r. eapply upd_conseq; [exact H1|].
    intros ds' _ _ [? ?]. split_and!; [done|lia|lia]. }
  apply arr_cons in Hak as (Hx & Hwx & Hak). wp_steps.
  destruct (BngAdd2 x out) as [r c] eqn:E.
  apply BngAdd2_spec in E as (E & Hwr & Hc); [|done..]. wp_steps.
  replace (S (length k) - 1)%nat with (length k) by lia.
  eapply wp_conseq; [apply incr_tail_spec; [apply arr_insert; [lia|exact Hak]|done]|].
  intros c2 m2 H2.
  eapply upd_app; [exact H1|eapply (upd_cons _ _ _ _ _ _ (λ c l, 0 <= c <= 1 ∧
    nval l + Wn (S (length k)) * c = nval (x :: k) + out)); [exact Hwr|exact H2|]|].
  - intros ds' _ _ [? ?]. cbn [nval]. rewrite Wn_S. nia.
  - intros l1 l2 _ _ E1 E2 [? ?] [? ?]. rewrite !nval_app, Wn_add, E1, Hl.
    split_and!; [lia_w|lia|nia].
Qed.

Lemma bng_mult_sub_digit_spec da db m a b d :
  arr m a da → arr m b db → (length db <= length da)%nat →
  read_ahead a b (length db) → word d →
  wp (bng_generic_mult_sub_digit a (length da) b (length db) d)
     (upd m a (length da)
        (λ c ds', word c ∧ ((length db < length da)%nat → c <= 1) ∧
           nval ds' - Wn (length da) * c = nval da - d * nval db)) m.
Proof.
  intros Ha Hb Hle Hr Hd. unfold bng_generic_mult_sub_digit. apply wp_bind, wp_minus_len; [done|].
  destruct (arr_split _ _ _ _ Ha Hle) as (l & k & -> & Hl & Hal & Hak).
  rewrite length_app, Hl. replace (length db + length k - length db)%nat with (length k) by lia.
  apply wp_bind. eapply wp_conseq; [by apply (mult_sub_loop_spec db l); [..|apply (word_bit 0)]|].
  intros out m1 H1. cbv zeta beta.
  assert (word out) as Ho by (destruct H1 as (? & _ & _ & _ & ? & _); done).
  apply (upd_suffix _ _ _ _ _ _ _ H1) in Hak.
  destruct k as [|x k]; cbn [length Nat.eqb].
  { apply wp_ret. rewrite Nat.add_0_r, app_nil_r. eapply upd_conseq; [exact H1|].
    intros ds' _ _ [? ?]. split_and!; [done|lia|lia]. }
  apply arr_cons in Hak as (Hx & Hwx & Hak). wp_steps.
  destruct (BngSub2 x out) as [r c] eqn:E.
  apply BngSub2_spec in E as (E & Hwr & Hc); [|done..]. wp_steps.
  replace (S (length k) - 1)%nat with (length k) by lia.
  eapply wp_conseq; [apply decr_tail_spec; [apply arr_insert; [lia|exact Hak]|done]|].
  intros c2 m2 H2.
  eapply upd_app; [exact H1|eapply (upd_cons _ _ _ _ _ _ (λ c l, 0 <= c <= 1 ∧
    nval l - Wn (S (length k)) * c = nval (x :: k) - out)); [exact Hwr|exact H2|]|].
  - intros ds' _ _ [? ?]. cbn [nval]. rewrite Wn_S. nia.
  - intros l1 l2 _ _ E1 E2 [? ?] [? ?]. rewrite !nval_app, Wn_add, E1, Hl.
    split_and!; [lia_w|lia|nia].
Qed.

(** ** Multiplication *)

Lemma u32_u32_add x y : u32 (u32 x + y) = u32 (x + y).
Proof. unfold u32. by rewrite Zplus_mod_idemp_l. Qed.

Lemma u32_bit x : 0 <= x <= 1 → u32 x = x.
Proof. intros. apply u32_small. lia_w. Qed.

Lemma mult_add_outer_spec dc da db m a b c carry :
  arr m a da → arr m b db → arr m c dc → (length db + length dc <= length da)%nat →
  apart a (length da) b (length db) → apart a (length da) c (length dc) →
  wp (mult_add_outer a (length da) b (length db) c (length dc) (u32 carry))
     (upd m a (length da)
        (λ r ds', ∃ k, 0 <= k ∧ r = u32 (carry + k) ∧
           nval ds' + Wn (length da) * k = nval da + nval db * nval dc)) m.
Proof.
  revert da m a c carry. induction dc as [|y dc IH];
    intros da m a c carry Ha Hb Hc Hle Hab Hac; cbn [mult_add_outer length nval].
  { apply wp_ret, upd_same; [done|]. exists 0. split_and!; [lia|f_equal; lia|lia]. }
  apply arr_cons in Hc as (Hy & Hwy & Hc). cbn [length] in *. wp_steps.
  eapply wp_conseq; [apply (bng_mult_add_digit_spec da db);
    [done..|lia|by eapply apart_read_ahead|done]|].
  intros c1 m1 (ds1 & Ha1 & Hl1 & Hf1 & Hw1 & Hc1 & E1). apply wp_bind, wp_minus_len; [lia|].
  destruct ds1 as [|x ds1]; [simpl in Hl1; lia|]. cbn [length] in Hl1.
  replace (length da - 1)%nat with (length ds1) by lia. rewrite u32_u32_add.
  apply arr_cons in Ha1 as (Hx & Hwx & Ha1).
  assert (padd a (length da) = padd (a + 8) (length ds1)) as Epa by (rewrite <- Hl1; apply padd_S).
  eapply wp_conseq; [apply IH|].
  - done.
  - eapply arr_frame; [exact Hf1|exact Hab|done].
  - eapply arr_frame; [exact Hf1| |exact Hc].
    unfold apart in *. rewrite padd_S in Hac. unfold padd in *; lia.
  - lia.
  - unfold apart in *. unfold padd in *; lia.
  - unfold apart in *. unfold padd in *; lia.
  - intros r m2 (ds2 & Ha2 & Hl2 & Hf2 & k & Hk & -> & E2).
    exists (x :: ds2). split_and!.
    + apply arr_cons. split_and!; [|done..]. rewrite Hf2 by lia. done.
    + cbn [length]. lia.
    + eapply frame_trans; [exact Hf1|]. eapply frame_weaken; [exact Hf2|lia|lia].
    + exists (c1 + k). split_and!; [unfold word in Hw1; lia|f_equal; lia|].
      rewrite <- Hl1, Wn_S in *. cbn [nval] in *. nia.
Qed.

(** {a,alen} := {a,alen} + {b,blen} * {c,clen}; the carry out is 0 or 1. *)
Lemma bng_mult_add_spec da db dc m a b c :
  arr m a da → arr m b db → arr m c dc → (length db + length dc <= length da)%nat →
  apart a (length da) b (length db) → apart a (length da) c (length dc) →
  wp (bng_generic_mult_add a (length da) b (length db) c (length dc))
     (upd m a (length da)
        (λ r ds', 0 <= r <= 1 ∧
           nval ds' + Wn (length da) * r = nval da + nval db * nval dc)) m.
Proof.
  intros Ha Hb Hc Hle Hab Hac. unfold bng_generic_mult_add. change 0 with (u32 0) at 1.
  eapply wp_conseq; [by apply mult_add_outer_spec|]. intros r m' H.
  eapply upd_conseq; [exact H|]. intros ds' Hw Hl (k & Hk & -> & E).
  pose proof (nval_bound _ Hw) as B1. pose proof (nval_bound _ (arr_words _ _ _ Ha)) as B2.
  pose proof (nval_bound _ (arr_words _ _ _ Hb)) as B3.
  pose proof (nval_bound _ (arr_words _ _ _ Hc)) as B4.
  pose proof (Wn_mono _ _ Hle) as Hm. rewrite Wn_add in Hm. rewrite Hl in B1.
  assert (k <= 1) by nia.
  rewrite u32_bit by lia. replace (0 + k) with k by lia. split; [lia|done].
Qed.

(** ** Shifts *)

Lemma pow2_split s : 0 <= s <= 64 → 2 ^ (64 - s) * 2 ^ s = W.
Proof. intros. rewrite <- Z.pow_add_r by lia. by replace (64 - s + s) with 64 by lia. Qed.

Lemma shift_left_digit d c s :
  0 < s < 64 → word d → 0 <= c < 2 ^ s →
  let r := Z.lor (u64 (Z.shiftl d s)) c in
  let o := Z.shiftr d (64 - s) in
  r + W * o = d * 2 ^ s + c ∧ word r ∧ 0 <= o < 2 ^ s.
Proof.
  intros Hs Hd Hc. cbv zeta. rewrite u64_shiftl_div, lor_shifted_low by lia.
  rewrite Z.shiftr_div_pow2 by lia. pose proof (pow2_split s ltac:(lia)) as HW.
  pose proof (Z.pow_pos_nonneg 2 (64 - s) ltac:(lia) ltac:(lia)) as Hp.
  pose proof (Z.div_mod d (2 ^ (64 - s)) ltac:(lia)) as E.
  pose proof (Z.mod_pos_bound d (2 ^ (64 - s)) Hp). unfold word in *.
  assert (0 <= d / 2 ^ (64 - s) < 2 ^ s) by
    (split; [apply Z.div_pos; lia|apply Z.div_lt_upper_bound; lia]).
  split_and!; [|nia..]. rewrite <- HW. nia.
Qed.

Lemma shift_left_loop_spec ds m a s c :
  arr m a ds → 0 < s < 64 → 0 <= c < 2 ^ s →
  wp (shift_left_loop a (length ds) s (BNG_BITS_PER_DIGIT - s) c)
     (upd m a (length ds)
        (λ c' ds', 0 <= c' < 2 ^ s ∧ nval ds' + Wn (length ds) * c' = nval ds * 2 ^ s + c)) m.
Proof.
  revert m a c. induction ds as [|d ds IH]; intros m a c Ha Hs Hc;
    cbn [shift_left_loop length nval].
  - apply wp_ret, upd_nil. rewrite Wn_0. cbn. lia.
  - apply arr_cons in Ha as (Hd & Hwd & Ha). wp_steps.
    destruct (shift_left_digit d c s Hs Hwd Hc) as (E & Hwr & Ho).
    eapply wp_conseq; [apply IH; [apply arr_insert; [lia|done]|done|exact Ho]|].
    intros c' m' H. eapply upd_cons; [exact Hwr|exact H|]. cbn [nval]. rewrite Wn_S.
    intros ds' _ _ [? ?]. unfold BNG_BITS_PER_DIGIT in *. nia.
Qed.

Lemma bng_shift_left_spec ds m a s :
  arr m a ds → 0 <= s < 64 →
  wp (bng_generic_shift_left a (length ds) s)
     (upd m a (length ds)
        (λ c ds', 0 <= c < 2 ^ s ∧ nval ds' + Wn (length ds) * c = nval ds * 2 ^ s)) m.
Proof.
  intros Ha Hs. unfold bng_generic_shift_left. destruct (Z.ltb_spec 0 s).
  - eapply wp_conseq; [apply shift_left_loop_spec; [done|lia|lia]|].
    intros c m' H'. eapply upd_conseq; [exact H'|]. intros ds' _ _ [? ?]. lia.
  - assert (s = 0) as -> by lia. apply wp_ret, upd_same; [done|]. rewrite Z.pow_0_r. lia.
Qed.

Lemma upd_snoc {A} m m' p n x (P Q : A → list Z → Prop) r :
  word x → upd (<[padd p n := x]> m) p n P r m' →
  (∀ ds, Forall word ds → length ds = n → P r ds → Q r (ds ++ [x])) → upd m p (S n) Q r m'.
Proof.
  intros Hx (ds & Ha & Hl & Hf & HP) HQ. exists (ds ++ [x]). split_and!.
  - apply arr_app. split; [done|]. apply arr_cons. rewrite Hl.
    split_and!; [|done|apply arr_nil]. rewrite Hf by lia. apply lookup_insert_eq.
  - rewrite length_app, Hl. simpl. lia.
  - intros k Hk. rewrite Hf; [|unfold padd in *; lia].
    apply lookup_insert_ne. unfold padd in *. lia.
  - apply HQ; [apply Ha|done|done].
Qed.

Lemma shift_right_digit d cb s :
  0 < s < 64 → word d → 0 <= cb < 2 ^ s →
  Z.lor (Z.shiftr d s) (cb * 2 ^ (64 - s)) = d / 2 ^ s + cb * 2 ^ (64 - s) ∧
  word (d / 2 ^ s + cb * 2 ^ (64 - s)) ∧
  u64 (Z.shiftl d (64 - s)) = (d mod 2 ^ s) * 2 ^ (64 - s).
Proof.
  intros Hs Hd Hc. pose proof (pow2_split s ltac:(lia)) as HW. unfold word in *.
  pose proof (Z.pow_pos_nonneg 2 (64 - s) ltac:(lia) ltac:(lia)).
  assert (0 <= d / 2 ^ s < 2 ^ (64 - s)) by
    (split; [apply Z.div_pos; lia|apply Z.div_lt_upper_bound; lia]).
  rewrite Z.shiftr_div_pow2 by lia. split_and!; [|nia..|].
  - rewrite Z.lor_comm, lor_shifted_low by lia. lia.
  - rewrite u64_shiftl_div by lia. by replace (64 - (64 - s)) with s by lia.
Qed.

(** The carry of a right shift sits in the high bits: [cb] is its value. *)
Lemma shift_right_loop_spec n ds m a s cb :
  length ds = n → arr m a ds → 0 < s < 64 → 0 <= cb < 2 ^ s →
  wp (shift_right_loop a n s (BNG_BITS_PER_DIGIT - s) (cb * 2 ^ (64 - s)))
     (upd m a n
        (λ c ds', ∃ cb', 0 <= cb' < 2 ^ s ∧ c = cb' * 2 ^ (64 - s) ∧
           nval ds' * 2 ^ s + cb' = nval ds + Wn n * cb)) m.
Proof.
  revert ds m cb. induction n as [|n IH]; intros ds m cb Hl Ha Hs Hcb; cbn [shift_right_loop].
  { destruct ds; [|done]. apply wp_ret, upd_nil. exists cb. rewrite Wn_0. cbn. lia. }
  destruct (exists_last (l := ds)) as (l & d & ->); [by intros ->|].
  rewrite length_app in Hl. simpl in Hl. assert (length l = n) as Hl' by lia.
  apply arr_app in Ha as (Ha & Hd). rewrite Hl' in Hd. apply arr_cons in Hd as (Hd & Hwd & _).
  wp_steps. unfold BNG_BITS_PER_DIGIT in *.
  destruct (shift_right_digit d cb s Hs Hwd Hcb) as (-> & Hw & ->).
  pose proof (Z.pow_pos_nonneg 2 s ltac:(lia) ltac:(lia)) as Hp.
  eapply wp_conseq; [apply (IH l);
    [done|apply arr_insert; [right; rewrite Hl'; lia|done]|done|by apply Z.mod_pos_bound]|].
  intros c m' H. eapply upd_snoc; [exact Hw|exact H|].
  intros ds' _ Hds (cb' & ? & -> & E). exists cb'. split_and!; [lia..|].
  rewrite !nval_app, Hds, Hl', Wn_S. cbn [nval].
  pose proof (Z.div_mod d (2 ^ s) ltac:(lia)). pose proof (pow2_split s ltac:(lia)). nia.
Qed.

Lemma bng_shift_right_spec ds m a s :
  arr m a ds → 0 <= s < 64 →
  wp (bng_generic_shift_right a (length ds) s)
     (upd m a (length ds)
        (λ c ds', c = nval ds mod 2 ^ s * 2 ^ (64 - s) mod W ∧ nval ds' = nval ds / 2 ^ s)) m.
Proof.
  intros Ha Hs. unfold bng_generic_shift_right. destruct (Z.ltb_spec 0 s).
  - replace 0 with (0 * 2 ^ (64 - s)) at 1 by lia.
    pose proof (Z.pow_pos_nonneg 2 s ltac:(lia) ltac:(lia)) as Hp.
    eapply wp_conseq; [apply (shift_right_loop_spec _ ds _ _ s 0); [done..|lia|lia]|].
    intros c m' H'. eapply upd_conseq; [exact H'|]. intros ds' _ _ (cb & Hcb & -> & E).
    assert (nval ds = 2 ^ s * nval ds' + cb) as E' by lia.
    rewrite <- (Z.div_unique_pos _ _ _ _ Hcb E'), <- (Z.mod_unique_pos _ _ _ _ Hcb E').
    split; [|done]. pose proof (pow2_split s ltac:(lia)). rewrite Z.mod_small; [done|nia].
  - assert (s = 0) as -> by lia. apply wp_ret, upd_same; [done|].
    rewrite Z.pow_0_r, Z.mod_1_r, Z.div_1_r. done.
Qed.

(** ** Normalization *)

Lemma land_high_mask k d :
  0 <= k → 0 <= d < 2 ^ k * 2 ^ k → Z.land d (Z.ones k * 2 ^ k) = d / 2 ^ k * 2 ^ k.
Proof.
  intros Hk Hd. pose proof (Z.pow_pos_nonneg 2 k ltac:(lia) Hk) as Hp.
  assert (0 <= d / 2 ^ k < 2 ^ k) as Hq
    by (split; [apply Z.div_pos; lia|apply Z.div_lt_upper_bound; lia]).
  apply Z.bits_inj'. intros i Hi. rewrite Z.land_spec.
  destruct (Z.lt_ge_cases i k) as [Hik|Hik].
  - by rewrite !Z.mul_pow2_bits_low, andb_false_r by done.
  - rewrite !Z.mul_pow2_bits, Z.div_pow2_bits by lia. replace (i - k + k) with i by lia.
    destruct (Z.lt_ge_cases (i - k) k).
    + rewrite Z.ones_spec_low by lia. apply andb_true_r.
    + rewrite Z.ones_spec_high, andb_false_r by lia. symmetry.
      replace i with (i - k + k) by lia. rewrite <- Z.div_pow2_bits by lia.
      rewrite <- (Z.mod_small (d / 2 ^ k) (2 ^ k)) by done.
      by rewrite Z.mod_pow2_bits_high by lia.
Qed.

(** One test of the cascade: [d] and the shift count [n] after it describe
    the same most significant bit. *)
Definition top_bits (d0 n d : Z) : Prop :=
  0 < d ∧ n <= 64 ∧ d * 2 ^ (64 - n) <= d0 < (d + 1) * 2 ^ (64 - n).

Lemma lzb_step k mask d0 n d n' d' :
  0 <= k → mask = Z.ones k * 2 ^ k → top_bits d0 n d → d < 2 ^ k * 2 ^ k →
  (if negb (Z.land d mask =? 0) then (n - k, Z.shiftr d k) else (n, d)) = (n', d') →
  top_bits d0 n' d' ∧ d' < 2 ^ k.
Proof.
  intros Hk -> (Hd & Hn & Hb) Hlt. rewrite land_high_mask by lia.
  rewrite Z.shiftr_div_pow2 by done.
  pose proof (Z.pow_pos_nonneg 2 k ltac:(lia) Hk) as Hp.
  pose proof (Z.div_mod d (2 ^ k) ltac:(lia)) as E.
  pose proof (Z.mod_pos_bound d (2 ^ k) Hp).
  assert (0 <= d / 2 ^ k) by (apply Z.div_pos; lia).
  assert (d / 2 ^ k < 2 ^ k) by (apply Z.div_lt_upper_bound; lia).
  destruct (Z.eqb_spec (d / 2 ^ k * 2 ^ k) 0) as [E0|E0]; cbn [negb]; intros [= <- <-].
  - assert (d / 2 ^ k = 0) as E1 by nia. rewrite E1 in E. unfold top_bits. lia.
  - unfold top_bits. split; [|done]. split_and!; [nia|lia|..];
      replace (64 - (n - k)) with (k + (64 - n)) by lia; rewrite Z.pow_add_r by lia; nia.
Qed.

Lemma bng_leading_zero_bits_spec d :
  word d → 0 < d →
  0 <= bng_leading_zero_bits d < 64 ∧
  HW <= d * 2 ^ bng_leading_zero_bits d < W.
Proof.
  intros Hd H0. unfold bng_leading_zero_bits.
  repeat match goal with
  | |- context [let '(n, d) := ?c in _] =>
      let n := fresh "n" in let x := fresh "d" in let E := fresh "E" in
      destruct c as [n x] eqn:E
  end.
  unfold BNG_BITS_PER_DIGIT in *.
  assert (top_bits d 64 d) as T by (unfold top_bits; rewrite Z.sub_diag, Z.pow_0_r; lia).
  apply (lzb_step 32 _ d) in E as [T1 B1]; [|lia|reflexivity|done|unfold word in *; lia_w].
  apply (lzb_step 16 _ d) in E0 as [T2 B2]; [|lia|reflexivity|done|lia].
  apply (lzb_step 8 _ d) in E1 as [T3 B3]; [|lia|reflexivity|done|lia].
  apply (lzb_step 4 _ d) in E2 as [T4 B4]; [|lia|reflexivity|done|lia].
  apply (lzb_step 2 _ d) in E3 as [T5 B5]; [|lia|reflexivity|done|lia].
  apply (lzb_step 1 _ d) in E4 as [T6 B6]; [|lia|reflexivity|done|lia].
  destruct T6 as (? & ? & Hb). assert (d5 = 1) as -> by lia.
  assert (0 < n5) as Hn.
  { destruct (Z.lt_ge_cases 0 n5); [done|]. exfalso.
    assert (W <= 2 ^ (64 - n5)) by (rewrite W_pow; apply Z.pow_le_mono_r; lia). unfold word in Hd; lia. }
  pose proof (pow2_split (64 - n5) ltac:(lia)) as E2'.
  replace (64 - (64 - n5)) with n5 in E2' by lia.
  assert (2 ^ n5 = 2 * 2 ^ (n5 - 1)) as Es
    by (rewrite <- Z.pow_succ_r by lia; f_equal; lia).
  assert (0 < 2 ^ (n5 - 1)) by (apply Z.pow_pos_nonneg; lia).
  split; [lia|]. rewrite Es, W_HW in E2'. rewrite W_HW. nia.
Qed.

(** ** Comparison *)

Lemma arr_snoc m p l x :
  arr m p (l ++ [x]) → arr m p l ∧ m !! padd p (length l) = Some x ∧ word x.
Proof. rewrite arr_app, arr_cons. tauto. Qed.

Lemma nval_take_bound ds n : Forall word ds → 0 <= nval (take n ds) < Wn n.
Proof.
  intros H. pose proof (nval_bound (take n ds) (Forall_take _ _ _ H)) as B.
  pose proof (Wn_mono (length (take n ds)) n ltac:(rewrite length_take; lia)). lia.
Qed.

(** The number of significant digits. *)
Definition sig (ds : list Z) (n : nat) : Prop :=
  (n <= length ds)%nat ∧ nval (take n ds) = nval ds ∧ (n ≠ 0%nat → Wn (n - 1) <= nval ds).

Lemma strip_zeros_spec n ds m a :
  length ds = n → arr m a ds →
  wp (strip_zeros a n) (λ k m', m' = m ∧ sig ds k) m.
Proof.
  revert ds. induction n as [|n IH]; intros ds Hl Ha; cbn [strip_zeros].
  { destruct ds; [|done]. apply wp_ret. unfold sig. done. }
  destruct (exists_last (l := ds)) as (l & x & ->); [by intros ->|].
  rewrite length_app in Hl. simpl in Hl. assert (length l = n) as <- by lia.
  apply arr_snoc in Ha as (Ha & Hx & Hw). wp_steps.
  pose proof (nval_bound _ (arr_words _ _ _ Ha)) as Hb.
  destruct (Z.eqb_spec x 0) as [->|E].
  - eapply wp_conseq; [by apply IH|]. intros k m' (-> & Hk & Ht & Hs). split; [done|].
    unfold sig. rewrite take_app_le, nval_app, length_app by done. cbn [nval length].
    split_and!; [lia|lia|]. intros. specialize (Hs H). lia.
  - apply wp_ret. split; [done|]. unfold sig. rewrite take_ge by (rewrite length_app; simpl; lia).
    rewrite nval_app, length_app. cbn [nval length]. split_and!; [lia|done|].
    intros _. rewrite Nat.sub_succ, Nat.sub_0_r. pose proof (Wn_pos (length l)). unfold word in Hw. nia.
Qed.

Lemma compare_loop_spec n da db m a b :
  length da = n → length db = n → arr m a da → arr m b db →
  wp (compare_loop a b n) (λ c m', m' = m ∧ c = Z.sgn (nval da - nval db)) m.
Proof.
  revert da db. induction n as [|n IH]; intros da db Hla Hlb Ha Hb; cbn [compare_loop].
  { destruct da; [|done]. destruct db; [|done]. apply wp_ret. done. }
  destruct (exists_last (l := da)) as (la & x & ->); [by intros ->|].
  destruct (exists_last (l := db)) as (lb & y & ->); [by intros ->|].
  rewrite length_app in Hla, Hlb. simpl in Hla, Hlb. assert (length la = n) as E by lia.
  apply arr_snoc in Ha as (Ha & Hx & Hwx). apply arr_snoc in Hb as (Hb & Hy & Hwy).
  assert (length lb = n) as E' by lia. rewrite E in Hx. rewrite E' in Hy. wp_steps.
  pose proof (nval_bound _ (arr_words _ _ _ Ha)) as Ba.
  pose proof (nval_bound _ (arr_words _ _ _ Hb)) as Bb.
  rewrite !nval_app, E, E' in *. cbn [nval].
  destruct (Z.ltb_spec y x); [|destruct (Z.ltb_spec x y)].
  - apply wp_ret. split; [done|]. symmetry. apply Z.sgn_pos. nia.
  - apply wp_ret. split; [done|]. symmetry. apply Z.sgn_neg. nia.
  - eapply wp_conseq; [by apply (IH la lb)|]. intros c m' [-> ->]. split; [done|].
    assert (x = y) as -> by lia. f_equal. lia.
Qed.

(** The sign of the difference of the two numbers; memory is unchanged. *)
Lemma bng_compare_spec da db m a b :
  arr m a da → arr m b db →
  wp (bng_compare a (length da) b (length db))
     (λ c m', m' = m ∧ c = Z.sgn (nval da - nval db)) m.
Proof.
  intros Ha Hb. unfold bng_compare. apply wp_bind.
  eapply wp_conseq; [by apply strip_zeros_spec|]. intros n m' (-> & Hn & Hnt & Hns).
  apply wp_bind. eapply wp_conseq; [by apply strip_zeros_spec|].
  intros k m' (-> & Hk & Hkt & Hks).
  pose proof (nval_take_bound da n (arr_words _ _ _ Ha)) as Bn.
  pose proof (nval_take_bound db k (arr_words _ _ _ Hb)) as Bk.
  destruct (Nat.ltb_spec k n); [|destruct (Nat.ltb_spec n k)].
  - apply wp_ret. split; [done|]. symmetry. apply Z.sgn_pos.
    pose proof (Wn_mono k (n - 1) ltac:(lia)). specialize (Hns ltac:(lia)). lia.
  - apply wp_ret. split; [done|]. symmetry. apply Z.sgn_neg.
    pose proof (Wn_mono n (k - 1) ltac:(lia)). specialize (Hks ltac:(lia)). lia.
  - assert (k = n) as -> by lia.
    destruct (arr_split _ _ _ _ Ha Hn) as (l1 & k1 & -> & Hl1 & Ha1 & _).
    destruct (arr_split _ _ _ _ Hb Hk) as (l2 & k2 & -> & Hl2 & Hb2 & _).
    eapply wp_conseq; [by apply (compare_loop_spec n l1 l2)|]. intros c m' [-> ->].
    rewrite <- Hl1 in Hnt. rewrite <- Hl2 in Hkt. rewrite take_app_length in Hnt, Hkt.
    by rewrite <- Hnt, <- Hkt.
Qed.

Lemma bng_num_digits_spec n ds m a :
  length ds = n → arr m a ds →
  wp (bng_num_digits a n) (λ r m', m' = m ∧ ∃ k, sig ds k ∧ r = Z.max 1 (Z.of_nat k)) m.
Proof.
  revert ds. induction n as [|n IH]; intros ds Hl Ha; cbn [bng_num_digits].
  { destruct ds; [|done]. apply wp_ret. split; [done|]. by exists 0%nat. }
  destruct (exists_last (l := ds)) as (l & x & ->); [by intros ->|].
  rewrite length_app in Hl. simpl in Hl. assert (length l = n) as <- by lia.
  apply arr_snoc in Ha as (Ha & Hx & Hw). wp_steps.
  pose proof (nval_bound _ (arr_words _ _ _ Ha)) as Hb.
  destruct (Z.eqb_spec x 0) as [->|E]; cbn [negb].
  - eapply wp_conseq; [by apply IH|]. intros r m' (-> & k & (Hk & Ht & Hs) & ->).
    split; [done|]. exists k. split; [|done].
    unfold sig. rewrite take_app_le, nval_app, length_app by done. cbn [nval length].
    split_and!; [lia|lia|]. intros. specialize (Hs H). lia.
  - apply wp_ret. split; [done|]. exists (S (length l)). split; [|lia].
    unfold sig. rewrite take_ge by (rewrite length_app; simpl; lia).
    rewrite nval_app, length_app. cbn [nval length]. split_and!; [lia|done|].
    intros _. rewrite Nat.sub_succ, Nat.sub_0_r. pose proof (Wn_pos (length l)). unfold word in Hw. nia.
Qed.

(** ** Division by a digit *)

Lemma div_split q d r n : 0 <= r < d → n = q * d + r → n / d = q ∧ n mod d = r.
Proof.
  intros Hr E. assert (n = d * q + r) as E' by lia.
  by rewrite <- (Z.div_unique_pos _ _ _ _ Hr E'), <- (Z.mod_unique_pos _ _ _ _ Hr E').
Qed.

Lemma div_digit_loop_spec n da db m a b top d :
  length da = n → length db = n → arr m a da → arr m b db →
  b <= a ∨ padd a n <= b → word d → 0 <= top < d →
  wp (div_digit_loop a b n top d)
     (upd m a n (λ r ds', nval ds' = (top * Wn n + nval db) / d ∧
                          r = (top * Wn n + nval db) mod d)) m.
Proof.
  revert da db m top. induction n as [|n IH]; intros da db m top Hla Hlb Ha Hb Hal Hd Ht;
    cbn [div_digit_loop].
  { destruct db; [|done]. apply wp_ret, upd_nil. rewrite Wn_0. cbn [nval].
    rewrite Z.mul_1_r, Z.add_0_r, Z.div_small, Z.mod_small by done. done. }
  destruct (exists_last (l := da)) as (la & x & ->); [by intros ->|].
  destruct (exists_last (l := db)) as (lb & y & ->); [by intros ->|].
  rewrite length_app in Hla, Hlb. simpl in Hla, Hlb.
  assert (length la = n) as Ela by lia. assert (length lb = n) as Elb by lia.
  apply arr_snoc in Ha as (Ha & Hx & Hwx). apply arr_snoc in Hb as (Hb & Hy & Hwy).
  rewrite Ela in Hx. rewrite Elb in Hy. wp_steps.
  unfold BngDiv. rewrite bng_div_aux_spec by done. unfold lift_option. wp_steps.
  set (t := top * W + y). pose proof (Z.mod_pos_bound t d ltac:(lia)) as Hr.
  pose proof (Z.div_mod t d ltac:(lia)) as Et.
  assert (word (t / d)) as Hwq.
  { subst t. unfold word in *. split; [apply Z.div_pos; lia_w|].
    apply Z.div_lt_upper_bound; [lia|nia]. }
  eapply wp_conseq; [apply (IH la lb); [done..| | | |done|exact Hr]|].
  - apply arr_insert; [right; rewrite Ela; lia|done].
  - apply arr_insert; [|done]. rewrite Elb. unfold padd in *. lia.
  - unfold padd in *. lia.
  - intros r m' H. eapply upd_snoc; [exact Hwq|exact H|]. intros ds' _ Hds [E1 E2].
    set (u := t mod d * Wn n + nval lb) in *.
    pose proof (Z.mod_pos_bound u d ltac:(lia)) as Hu.
    pose proof (Z.div_mod u d ltac:(lia)) as Eu.
    rewrite !nval_app, Hds, Elb, Wn_S. cbn [nval].
    destruct (div_split (nval ds' + Wn n * (t / d)) d r
      (top * (W * Wn n) + (nval lb + Wn n * (y + W * 0)))) as [E3 E4].
    + rewrite E2. exact Hu.
    + rewrite E1, E2. subst u t. nia.
    + rewrite E3, E4. split; [lia|done].
Qed.

Lemma bng_div_rem_norm_digit_spec da db top m a b d :
  length da = length db → arr m a da → arr m b (db ++ [top]) →
  b <= a ∨ padd a (length db) <= b → word d → top < d →
  wp (bng_generic_div_rem_norm_digit a b (length (db ++ [top])) d)
     (upd m a (length db)
        (λ r ds', nval ds' = nval (db ++ [top]) / d ∧ r = nval (db ++ [top]) mod d)) m.
Proof.
  intros Hl Ha Hb Hal Hd Ht. unfold bng_generic_div_rem_norm_digit.
  rewrite length_app. cbn [length]. apply wp_bind, wp_minus_len; [lia|].
  rewrite Nat.add_sub. apply arr_snoc in Hb as (Hb & Htop & Hwt). wp_steps.
  unfold word in Hwt.
  eapply wp_conseq; [apply (div_digit_loop_spec _ da db); [done..|lia]|].
  intros r m' H. eapply upd_conseq; [exact H|]. intros ds' _ _.
  rewrite nval_app. cbn [nval].
  replace (nval db + Wn (length db) * (top + W * 0)) with (top * Wn (length db) + nval db) by ring.
  done.
Qed.

(** A digit sequence is determined by its length and its value. *)
Lemma nval_inj l k :
  Forall word l → Forall word k → length l = length k → nval l = nval k → l = k.
Proof.
  intros Hl. revert k. induction Hl as [|x l Hx Hl IH]; intros [|y k] Hk E V; try done.
  apply Forall_cons in Hk as [Hy Hk]. cbn [nval] in V. unfold word in *.
  assert (x = y) as -> by lia_w. f_equal. apply IH; [done|by injection E|lia_w].
Qed.

(** The normalized divisor and the shifted dividend. *)
Lemma norm_shift d s : word d → 0 < d → s = bng_leading_zero_bits d →
  0 <= s < 64 ∧ u64 (Z.shiftl d s) = d * 2 ^ s ∧ HW <= d * 2 ^ s < W.
Proof.
  intros Hd H0 ->. destruct (bng_leading_zero_bits_spec d Hd H0) as [Hs Hb].
  rewrite Z.shiftl_mul_pow2 by lia. rewrite u64_small by (unfold word; lia_w). done.
Qed.

(** Two memories that agree outside two digit ranges. *)
Definition frame2 (m m' : gmap Z Z) p n q k : Prop :=
  ∀ x, (x < p ∨ padd p n <= x) → (x < q ∨ padd q k <= x) → m' !! x = m !! x.

Lemma frame_frame2_l m m' p n q k : frame m m' p n → frame2 m m' p n q k.
Proof. intros H x ??. by apply H. Qed.
Lemma frame_frame2_r m m' p n q k : frame m m' q k → frame2 m m' p n q k.
Proof. intros H x ??. by apply H. Qed.
Lemma frame2_trans m m1 m2 p n q k :
  frame2 m m1 p n q k → frame2 m1 m2 p n q k → frame2 m m2 p n q k.
Proof. intros H1 H2 x ??. rewrite H2, H1; done. Qed.

(** A left shift that loses no bits, undone by the right shift. *)
Lemma shift_left_exact ds m a s :
  arr m a ds → 0 <= s < 64 → nval ds * 2 ^ s < Wn (length ds) →
  wp (bng_generic_shift_left a (length ds) s)
     (upd m a (length ds) (λ _ ds', nval ds' = nval ds * 2 ^ s)) m.
Proof.
  intros Ha Hs Hlt. eapply wp_conseq; [by apply bng_shift_left_spec|].
  intros c m' H. eapply upd_conseq; [exact H|]. intros ds' Hw Hl [Hc E].
  pose proof (nval_bound _ Hw) as B. rewrite Hl in B.
  pose proof (nval_bound _ (arr_words _ _ _ Ha)).
  pose proof (Z.pow_pos_nonneg 2 s ltac:(lia) ltac:(lia)).
  assert (c = 0) as -> by nia. lia.
Qed.

(** {a,len-1} := {b,len} / d, returning {b,len} mod d; {b,len} is restored. *)
Lemma bng_div_rem_digit_spec da db top m a b d :
  length da = length db → arr m a da → arr m b (db ++ [top]) →
  apart a (length db) b (length (db ++ [top])) → word d → top < d →
  wp (bng_generic_div_rem_digit a b (length (db ++ [top])) d)
     (λ r m', ∃ q, arr m' a q ∧ length q = length db ∧
        nval q = nval (db ++ [top]) / d ∧ r = nval (db ++ [top]) mod d ∧
        arr m' b (db ++ [top]) ∧
        frame2 m m' a (length db) b (length (db ++ [top]))) m.
Proof.
  intros Hl Ha Hb Hal Hd Ht. unfold bng_generic_div_rem_digit.
  set (len := length (db ++ [top])) in *. assert (len = S (length db)) as Hlen
    by (subst len; rewrite length_app; simpl; lia).
  pose proof (arr_snoc _ _ _ _ Hb) as (Hbl & _ & Hwt).
  assert (0 < d) as H0 by lia_w.
  destruct (norm_shift d _ Hd H0 eq_refl) as (Hs & -> & Hn).
  set (s := bng_leading_zero_bits d) in *.
  pose proof (Z.pow_pos_nonneg 2 s ltac:(lia) ltac:(lia)) as Hp.
  pose proof (nval_bound _ (arr_words _ _ _ Hbl)) as Bl. set (N := nval (db ++ [top])) in *.
  assert (N < d * Wn (length db)) as HN by (subst N; rewrite nval_app; cbn [nval]; nia).
  wp_step. eapply wp_conseq; [apply (shift_left_exact (db ++ [top])); [done..|]|].
  { fold len. rewrite Hlen, Wn_S. fold N. nia. }
  intros _ m1 (b1 & Hb1 & Hlb1 & Hf1 & E1). fold len in Hlb1.
  destruct (exists_last (l := b1)) as (lb1 & t1 & ->); [intros ->; simpl in Hlb1; lia|].
  assert (length lb1 = length db) as El1 by (rewrite length_app in Hlb1; simpl in Hlb1; lia).
  pose proof (arr_snoc _ _ _ _ Hb1) as (Hlb & _ & Hwt1).
  pose proof (nval_bound _ (arr_words _ _ _ Hlb)) as Bl1. rewrite El1 in Bl1.
  assert (t1 < d * 2 ^ s) as Ht1.
  { fold N in E1. rewrite nval_app, El1 in E1. cbn [nval] in E1. nia. }
  wp_step. rewrite <- Hlb1. eapply wp_conseq; [apply (bng_div_rem_norm_digit_spec da lb1);
    [lia|eapply arr_frame; [exact Hf1| |exact Ha]|done| |unfold word; lia|done]|].
  { unfold apart in *. rewrite Hl. fold len. lia. }
  { unfold apart in Hal. rewrite El1. fold len in Hal. unfold padd in *. lia. }
  intros r m2 (q & Haq & Hlq & Hf2 & Eq & Er). rewrite El1 in *.
  assert (arr m2 b (lb1 ++ [t1])) as Hb2.
  { eapply arr_frame; [exact Hf2|rewrite Hlb1; exact Hal|done]. }
  wp_step. eapply wp_conseq; [apply bng_shift_right_spec; [exact Hb2|done]|].
  intros _ m3 (b3 & Hb3 & Hlb3 & Hf3 & _ & E3). rewrite Hlb1 in *. wp_step.
  fold N in E1. rewrite E1 in *. rewrite Z.div_mul in E3 by lia.
  assert (b3 = db ++ [top]) as ->.
  { apply nval_inj; [apply Hb3|apply Hb|exact Hlb3|exact E3]. }
  exists q. split_and!; [|done| | |done|].
  - eapply arr_frame; [exact Hf3| |done]. unfold apart in *. rewrite Hlq. lia.
  - rewrite Eq. rewrite Z.div_mul_cancel_r by lia. done.
  - rewrite Er, Z.shiftr_div_pow2, Z.mul_mod_distr_r, Z.div_mul by lia. done.
  - eapply frame2_trans; [by apply frame_frame2_r|].
    eapply frame2_trans; [by apply frame_frame2_l|by apply frame_frame2_r].
Qed.

(** ** Long division *)

Lemma arr_mid m p l x k : arr m p (l ++ x :: k) → m !! padd p (length l) = Some x ∧ word x.
Proof. rewrite arr_app, arr_cons. tauto. Qed.

Lemma arr_store_mid m p l x k v :
  arr m p (l ++ x :: k) → word v → arr (<[padd p (length l) := v]> m) p (l ++ v :: k).
Proof.
  rewrite !arr_app, !arr_cons. intros (Hl & Hx & Hwx & Hk) Hv. split_and!.
  - apply arr_insert; [lia|done].
  - apply lookup_insert_eq.
  - done.
  - apply arr_insert; [lia|done].
Qed.

Section LongDivision.
Context (d : Z) (dd : list Z).
Notation dlen := (length dd).
Notation D := (nval dd).

(** One round of the correction loop subtracts the divisor once. *)
Lemma div_correct_spec mid t m ni X quo :
  arr m ni (mid ++ [t]) → arr m d dd → length mid = dlen → apart ni (S dlen) d dlen →
  0 < D → 0 <= quo → nval (mid ++ [t]) = X - quo * D → X < D * W →
  wp (div_correct (padd ni dlen) ni d dlen quo)
     (upd m ni (S dlen)
        (λ q l, q = X / D ∧ ∃ mid', l = mid' ++ [0] ∧ nval mid' = X mod D)) m.
Proof.
  intros Hn Hd Hlm Hap HD Hq HX HXW. unfold div_correct.
  pose proof (nval_bound _ (arr_words _ _ _ Hd)) as BD.
  pose proof (nval_bound _ (arr_words _ _ _ Hn)) as B0.
  assert (X / D < W) as HqW by (apply Z.div_lt_upper_bound; lia).
  apply (while_m_total _ _
    (λ q s, ∃ mid t, arr s ni (mid ++ [t]) ∧ length mid = dlen ∧ arr s d dd ∧
                     frame m s ni (S dlen) ∧ 0 <= q ∧ nval (mid ++ [t]) = X - q * D)
    (λ q _, X / D - q)).
  { exists mid, t. done. }
  { assert (quo <= X / D) by (apply Z.div_le_lower_bound; lia). unfold div_correct_fuel. lia_w. }
  clear mid t Hn Hlm HX B0 Hq quo. intros q s (mid & t & Hn & Hlm & Hds & Hf & Hq & HX) _.
  pose proof (arr_mid _ _ _ _ _ Hn) as [Ht Hwt]. rewrite Hlm in Ht.
  pose proof Hn as Hnm. apply arr_snoc in Hnm as (Hm & _ & _).
  pose proof (nval_bound _ (arr_words _ _ _ Hm)) as Bm. rewrite Hlm in Bm.
  assert (∀ s', s' = s → D <= X - q * D →
    wp (let* c := bng_generic_sub ni dlen d dlen 0 in
        let* top := ld (padd ni dlen) in
        st (padd ni dlen) (u64 (top - c)) ;;; mreturn (u64 (q + 1)))
       (λ z s'', (∃ mid t, arr s'' ni (mid ++ [t]) ∧ length mid = dlen ∧ arr s'' d dd ∧
                   frame m s'' ni (S dlen) ∧ 0 <= z ∧ nval (mid ++ [t]) = X - z * D) ∧
                 0 <= X / D - z < X / D - q) s') as Hbody.
  { intros _ -> Hge. wp_step. rewrite <- Hlm at 1.
    eapply wp_conseq; [apply (bng_sub_spec mid dd); [done|done|lia| |lia]|].
    { eapply apart_read_ahead with (n := S dlen). done. }
    intros c s1 H1. rewrite Hlm in H1.
    assert (frame s s1 ni (S dlen)) as Hf1.
    { destruct H1 as (_ & _ & _ & H1 & _). eapply frame_weaken; [exact H1|lia|unfold padd; lia]. }
    rewrite <- Hlm, <- (padd_0 ni) in H1.
    destruct (arr_upd_sub _ _ _ [] mid [t] _ _ Hn H1) as (mid1 & Hn1 & Hl1 & (Hc & E) & _).
    cbn [app] in Hn1. rewrite Hlm in *.
    pose proof (arr_mid _ _ _ _ _ Hn1) as [Ht1 _]. rewrite Hl1 in Ht1. wp_steps.
    pose proof (nval_bound _ (arr_words _ _ _ (proj1 (arr_snoc _ _ _ _ Hn1)))) as B1. rewrite Hl1 in B1.
    rewrite nval_app in HX. rewrite Hlm in HX. cbn [nval] in HX. pose proof (Wn_pos dlen).
    assert (0 <= t - c) as Htc by nia.
    rewrite (u64_small (t - c)) by lia_w.
    assert (q + 1 <= X / D) as Hq1 by (apply Z.div_le_lower_bound; lia).
    rewrite (u64_small (q + 1)) by lia_w. split; [|lia]. exists mid1, (t - c). split_and!.
    - rewrite <- Hl1. eapply arr_store_mid; [exact Hn1|lia_w].
    - done.
    - apply arr_insert; [unfold apart in Hap; rewrite padd_S in Hap; unfold padd in *; lia|].
      eapply arr_frame; [exact Hf1|exact Hap|done].
    - eapply frame_trans; [exact Hf|]. eapply frame_trans; [exact Hf1|].
      apply frame_insert. unfold padd. lia.
    - lia.
    - rewrite nval_app, Hl1. cbn [nval]. nia. }
  assert (X - q * D < D → t = 0 → upd m ni (S dlen)
    (λ q l, q = X / D ∧ ∃ mid', l = mid' ++ [0] ∧ nval mid' = X mod D) q s) as Hexit.
  { intros Hlt ->. rewrite nval_app in HX. cbn [nval] in HX.
    destruct (div_split q D (nval mid) X) as [E1 E2]; [lia|lia|].
    exists (mid ++ [0]). split_and!; [done|rewrite length_app; simpl; lia|done|done|].
    exists mid. done. }
  rewrite nval_app in HX. rewrite Hlm in HX. cbn [nval] in HX. unfold word in Hwt.
  wp_steps. destruct (Z.eqb_spec t 0) as [E|E]; cbn [negb].
  - wp_step. rewrite <- Hlm at 1. eapply wp_conseq; [by apply bng_compare_spec|].
    intros c s' [-> ->]. wp_step.
    destruct (Z.leb_spec 0 (Z.sgn (nval mid - D))) as [Hs|Hs].
    + apply Hbody; [done|]. apply Z.sgn_nonneg in Hs. nia.
    + apply Hexit; [|done]. apply Z.sgn_neg_iff in Hs. nia.
  - wp_step. apply Hbody; [done|]. nia.
Qed.

(** The under-estimated quotient digit, and what it leaves. *)
Lemma div_estimate t y topden m nj1 (Q : Z → gmap Z Z → Prop) :
  word t → word y → word topden → t <= topden → m !! nj1 = Some y →
  Q ((t * W + y) / (topden + 1)) m →
  wp (if u64 (topden + 1) =? 0 then mreturn t else
      let* nj1 := ld nj1 in
      let* qr := lift_option (BngDiv t nj1 (u64 (topden + 1))) in mreturn qr.1) Q m.
Proof.
  intros Ht Hy Htop Hle Hm HQ. destruct (Z.eqb_spec (u64 (topden + 1)) 0) as [E0|E0].
  - apply u64_succ_zero in E0; [|done]. wp_step.
    destruct (div_split t W y (t * W + y)) as [E1 _]; [done|done|].
    replace (topden + 1) with W in HQ by lia. by rewrite E1 in HQ.
  - wp_steps. pose proof (u64_range (topden + 1)) as Hr.
    rewrite u64_succ_nonzero in * by done. unfold BngDiv.
    rewrite bng_div_aux_spec; [|done|done|lia_w]. unfold lift_option. wp_steps. done.
Qed.

Lemma estimate_bounds mid0 y t dl topden X :
  dd = dl ++ [topden] → Forall word dd → Forall word mid0 → word y → word t →
  length mid0 = length dl → X = nval (mid0 ++ [y]) + Wn dlen * t → X < D * W →
  let q := (t * W + y) / (topden + 1) in
  t <= topden ∧ 0 <= q ∧ q * D <= X ∧ q < W.
Proof.
  intros Ed Hdd Hm Hy Ht Hl HX HW q.
  pose proof (nval_bound _ Hm) as Bm. rewrite Hl in Bm.
  assert (Forall word dl ∧ word topden) as [Hdl Htop].
  { rewrite Ed in Hdd. apply Forall_app in Hdd as [? Hdd]. apply Forall_cons in Hdd. tauto. }
  pose proof (nval_bound _ Hdl) as Bd.
  rewrite nval_app, Hl in HX. cbn [nval] in HX.
  assert (D = nval dl + Wn (length dl) * topden) as ED
    by (rewrite Ed, nval_app; cbn [nval]; ring).
  assert (Wn dlen = W * Wn (length dl)) as EW
    by (rewrite Ed, length_app, Nat.add_1_r; apply Wn_S).
  set (U := Wn (length dl)) in *. rewrite EW in HX. unfold word in *.
  assert (X = nval mid0 + U * (t * W + y)) as HX' by (rewrite HX; ring).
  assert (D < U * (topden + 1)) as HDU by lia.
  assert (t <= topden).
  { destruct (Z.le_gt_cases t topden); [done|exfalso].
    assert (U * (topden + 1) * W <= U * t * W) by
      (apply Z.mul_le_mono_nonneg_r; [lia_w|apply Z.mul_le_mono_nonneg_l; lia]).
    assert (D * W < U * (topden + 1) * W) by (apply Z.mul_lt_mono_pos_r; [lia_w|done]). nia. }
  assert (0 <= q) by (apply Z.div_pos; lia_w).
  pose proof (Z.mul_div_le (t * W + y) (topden + 1) ltac:(lia)) as Hq. fold q in Hq.
  assert (q * D <= X) as HqX.
  { assert (q * D <= q * (U * (topden + 1))) by (apply Z.mul_le_mono_nonneg_l; lia).
    assert (U * ((topden + 1) * q) <= U * (t * W + y)) by (apply Z.mul_le_mono_nonneg_l; lia).
    nia. }
  split_and!; [done|done|done|]. nia.
Qed.
Section Round.
Context (dl : list Z) (topden : Z) (lo mid : list Z) (t : Z) (n : Z).
Context (Ed : dd = dl ++ [topden]) (Hlm : length mid = dlen).
Context (Hap : apart n (S (length lo + dlen)) d dlen).
Context (HX : nval (mid ++ [t]) < D * W).
Notation X := (nval (mid ++ [t])).
Notation ni := (padd n (length lo)).

Lemma round_apart : apart ni (S dlen) d dlen.
Proof. unfold apart in *. unfold padd in *. lia. Qed.

Lemma round_value : X = nval mid + Wn dlen * t.
Proof. rewrite nval_app, Hlm. cbn [nval]. ring. Qed.

Lemma sub_estimate_spec m :
  arr m n (lo ++ mid ++ [t]) → arr m d dd →
  wp (sub_estimate n d dlen topden (length lo))
     (λ q m', ∃ mid' t', arr m' n (lo ++ mid' ++ [t']) ∧ length mid' = dlen ∧
        frame m m' n (S (length lo + dlen)) ∧ 0 <= q ∧
        nval (mid' ++ [t']) = X - q * D) m.
Proof.
  intros Hn Hd. unfold sub_estimate. rewrite padd_add.
  pose proof Hn as Hn'. apply arr_app in Hn' as [Hlo Hni].
  pose proof (arr_mid _ _ _ _ _ Hni) as [Ht Hwt]. rewrite Hlm in Ht.
  destruct (exists_last (l := mid)) as (mid0 & y & Emid).
  { intros Em. rewrite Em, Ed, length_app in Hlm. simpl in Hlm. lia. }
  assert (length mid0 = length dl) as Hl0.
  { rewrite Emid, Ed, !length_app in Hlm. simpl in Hlm. lia. }
  pose proof Hni as Hni0. rewrite Emid, <- app_assoc in Hni0. cbn [app] in Hni0.
  pose proof (arr_mid _ _ _ _ _ Hni0) as [Hy Hwy].
  assert (Forall word mid0) as Hwm by (apply arr_app in Hni0; apply Hni0).
  pose proof round_value as EX. rewrite Emid in EX at 2.
  destruct (estimate_bounds mid0 y t dl topden X Ed (arr_words _ _ _ Hd) Hwm Hwy Hwt Hl0 EX HX)
    as (Hle & Hq0 & HqX & HqW).
  assert (word topden) as Hwtop by (rewrite Ed in Hd; apply arr_snoc in Hd; apply Hd).
  wp_steps. eapply (div_estimate t y topden); [done..| |].
  { replace (length lo + dlen - 1)%nat with (length lo + length mid0)%nat
      by (rewrite Ed, length_app; simpl; lia). rewrite padd_add. exact Hy. }
  wp_step. rewrite <- Hlm at 1. apply arr_snoc in Hni as (Hmid & _ & _).
  eapply wp_conseq; [apply (bng_mult_sub_digit_spec mid dd); [done|done|lia| |unfold word; lia]|].
  { eapply apart_read_ahead, round_apart. }
  intros c m1 H1.
  destruct (arr_upd_sub _ _ _ lo mid [t] _ _ Hn H1) as (mid1 & Hn1 & Hl1 & (Hwc & _ & E1) & Hf1).
  rewrite !length_app in Hf1. cbn [length] in Hf1. rewrite Hlm in *.
  replace (length lo + (dlen + 1))%nat with (S (length lo + dlen)) in Hf1 by lia.
  rewrite app_assoc in Hn1. pose proof (arr_mid _ _ _ _ _ Hn1) as [Ht1 _].
  assert (padd n (length (lo ++ mid1)) = padd ni dlen) as Epad
    by (rewrite length_app, Hl1, padd_add; done).
  rewrite Epad in Ht1. wp_steps.
  pose proof Hn1 as Hw1. apply arr_words in Hw1. rewrite !Forall_app in Hw1.
  pose proof (nval_bound mid1 ltac:(tauto)) as B1. rewrite Hl1 in B1.
  pose proof round_value as EX'. rewrite EX' in HqX.
  assert (0 <= t - c) as Htc by (pose proof (Wn_pos dlen); nia).
  rewrite (u64_small (t - c)) by lia_w.
  apply (arr_store_mid _ _ _ _ _ (t - c)) in Hn1 as Hn2; [|lia_w]. rewrite Epad in Hn2.
  exists mid1, (t - c). rewrite <- app_assoc in Hn2. split_and!; [done|done| |done|].
  - eapply frame_trans; [exact Hf1|]. apply frame_insert. unfold padd. lia.
  - rewrite nval_app, Hl1, EX'. cbn [nval]. nia.
Qed.

(** One digit of the long division: the top digit is replaced by the
    quotient digit, the digits below by the partial remainder. *)
Lemma long_division_step_spec m :
  arr m n (lo ++ mid ++ [t]) → arr m d dd → 0 < D →
  wp (long_division_step n d dlen topden (length lo))
     (λ _ m', ∃ mid' q, arr m' n (lo ++ mid' ++ [q]) ∧ length mid' = dlen ∧
        frame m m' n (S (length lo + dlen)) ∧ X = q * D + nval mid' ∧ nval mid' < D) m.
Proof.
  intros Hn Hd HD. unfold long_division_step. wp_step.
  eapply wp_conseq; [by apply sub_estimate_spec|].
  intros q0 m1 (mid1 & t1 & Hn1 & Hl1 & Hf1 & Hq0 & E1). rewrite padd_add.
  assert (arr m1 d dd) as Hd1 by (eapply arr_frame; [exact Hf1|exact Hap|done]).
  pose proof Hn1 as Hni. apply arr_app in Hni as [_ Hni].
  wp_step. eapply wp_conseq; [by apply (div_correct_spec mid1 t1 m1 ni X q0 Hni Hd1 Hl1 round_apart)|].
  intros q m2 H2. replace (S dlen) with (length (mid1 ++ [t1])) in H2
    by (rewrite length_app, Hl1; simpl; lia).
  rewrite <- (app_nil_r (mid1 ++ [t1])) in Hn1.
  destruct (arr_upd_sub _ _ _ lo _ [] _ _ Hn1 H2) as (l & Hn2 & Hl2 & (-> & mid' & -> & Emid') & Hf2).
  rewrite app_nil_r in *. rewrite !length_app in Hl2, Hf2. simpl in Hl2, Hf2.
  assert (length mid' = dlen) as Hl' by lia.
  rewrite app_assoc in Hn2. pose proof (arr_mid _ _ _ _ _ Hn2) as [Ht2 _].
  assert (padd n (length (lo ++ mid')) = padd ni dlen) as Epad
    by (rewrite length_app, Hl', padd_add; done).
  rewrite Epad in Ht2. eapply wp_store; [exact Ht2|].
  assert (0 <= X) as HX0 by (apply nval_bound; apply arr_words in Hn; rewrite !Forall_app in *; tauto).
  assert (word (X / D)) as Hwq by (split; [by apply Z.div_pos|apply Z.div_lt_upper_bound; lia]).
  apply (arr_store_mid _ _ _ _ _ (X / D)) in Hn2; [|done]. rewrite Epad, <- app_assoc in Hn2.
  exists mid', (X / D). split_and!; [done|done| | |].
  - eapply frame_trans; [exact Hf1|]. eapply frame_trans.
    + eapply frame_weaken; [exact Hf2|lia|unfold padd; lia].
    + apply frame_insert. unfold padd. lia.
  - rewrite Emid'. pose proof (Z.div_mod X D). lia.
  - rewrite Emid'. apply Z.mod_pos_bound. lia.
Qed.
End Round.

Lemma long_division_spec dl topden k num m n :
  dd = dl ++ [topden] → arr m n num → length num = (k + dlen)%nat → arr m d dd →
  apart n (k + dlen) d dlen → nval num < D * Wn k →
  wp (long_division n d dlen topden k)
     (upd m n (k + dlen) (λ _ l, ∃ r q, l = r ++ q ∧ length r = dlen ∧
        nval num = nval q * D + nval r ∧ nval r < D)) m.
Proof.
  intros Ed. revert num m. induction k as [|i IH]; intros num m Hn Hl Hd Hap Hlt;
    cbn [long_division].
  { apply wp_ret. cbn [Nat.add] in *. rewrite <- Hl. apply upd_same; [done|].
    exists num, []. rewrite app_nil_r, Wn_0 in *. cbn [nval]. split_and!; [done|lia|lia|lia]. }
  destruct (exists_last (l := num)) as (num' & t & ->).
  { intros ->. simpl in Hl. lia. }
  rewrite length_app in Hl. cbn [length] in Hl.
  rewrite <- (take_drop i num') in Hn, Hlt |- *.
  set (lo := take i num') in *. set (mid := drop i num') in *.
  assert (length lo = i) as Elo by (subst lo; rewrite length_take; lia).
  assert (length mid = dlen) as Emid by (subst mid; rewrite length_drop; lia).
  clearbody lo mid. rewrite <- app_assoc in Hn, Hlt |- *.
  pose proof (arr_words _ _ _ Hn) as Hw. rewrite !Forall_app in Hw.
  pose proof (nval_bound lo ltac:(tauto)) as Blo.
  assert (0 <= nval (mid ++ [t])) as BX by (apply nval_bound; rewrite Forall_app; tauto).
  rewrite Elo in Blo. rewrite nval_app, Elo in Hlt |- *. rewrite Wn_S in Hlt. pose proof (Wn_pos i) as HWi.
  assert (0 <= Wn i * nval (mid ++ [t])) as HWX by (apply Z.mul_nonneg_nonneg; lia).
  assert (0 < D) as HD.
  { apply (Z.mul_pos_cancel_r D (W * Wn i)); [pose proof W_pos; nia|lia]. }
  assert (nval (mid ++ [t]) < D * W) as HXW
    by (apply (Z.mul_lt_mono_pos_l (Wn i)); [done|]; lia).
  wp_step. rewrite <- Elo at 1.
  eapply wp_conseq; [eapply (long_division_step_spec dl topden lo mid t); rewrite ?Elo; done|].
  intros _ m1 (mid' & q & Hn1 & Hl1 & Hf1 & E1 & Hlt1). rewrite Elo in Hf1.
  assert (arr m1 d dd) as Hd1 by (eapply arr_frame; [exact Hf1|exact Hap|done]).
  rewrite app_assoc in Hn1. pose proof (arr_snoc _ _ _ _ Hn1) as (Hlm1 & Hq & Hwq).
  assert (length (lo ++ mid') = (i + dlen)%nat) as Elm by (rewrite length_app; lia).
  rewrite Elm in Hq.
  eapply wp_conseq; [apply (IH (lo ++ mid') m1); [done..| |]|].
  { unfold apart in *. unfold padd in *. lia. }
  { rewrite nval_app, Elo. nia. }
  intros [] m2 (l & Hl2 & Hll & Hf2 & r & qs & -> & Hr & E2 & Hlt2).
  exists ((r ++ qs) ++ [q]). split_and!.
  - apply arr_app. split; [done|]. rewrite Hll. apply arr_cons. split_and!; [|done|apply arr_nil].
    rewrite Hf2 by lia. done.
  - rewrite length_app, Hll. simpl. lia.
  - eapply frame_trans; [exact Hf1|]. eapply frame_weaken; [exact Hf2|lia|unfold padd; lia].
  - exists r, (qs ++ [q]). rewrite <- app_assoc. split_and!; [done|done| |done].
    rewrite nval_app, Elo in E2. rewrite (nval_app qs). rewrite length_app in Hll.
    assert (length qs = i) as -> by lia. cbn [nval]. nia.
Qed.
End LongDivision.

(** The post-condition of a division in place: remainder, then quotient. *)
Definition quotient_remainder (N D : Z) (dlen : nat) (l : list Z) : Prop :=
  ∃ r q, l = r ++ q ∧ length r = dlen ∧ N = nval q * D + nval r ∧ nval r < D.

Lemma div_rem_norm_spec k num dd m n d :
  arr m n num → length num = (k + length dd)%nat → (0 < k)%nat → (0 < length dd)%nat →
  arr m d dd → apart n (k + length dd) d (length dd) → nval num < nval dd * Wn k →
  wp (div_rem_norm n (length num) d (length dd))
     (upd m n (length num) (λ _, quotient_remainder (nval num) (nval dd) (length dd))) m.
Proof.
  intros Hn Hl Hk Hdl Hd Hap Hlt. unfold div_rem_norm.
  destruct (exists_last (l := dd)) as (dl & topden & Ed); [intros ->; simpl in Hdl; lia|].
  destruct (Nat.eqb_spec (length dd) 1) as [E1|E1].
  - assert (dl = []) as -> by (rewrite Ed, length_app in E1; destruct dl; [done|simpl in E1; lia]).
    cbn [app] in Ed. subst dd. apply arr_cons in Hd as (Hd0 & Hwd & _). cbn [length nval] in *.
    destruct (exists_last (l := num)) as (lb & top & ->); [intros ->; simpl in Hl; lia|].
    assert (length lb = k) as Elb by (rewrite length_app in Hl; simpl in Hl; lia).
    pose proof (arr_snoc _ _ _ _ Hn) as (Hlb & _ & Hwt).
    pose proof (nval_bound _ (arr_words _ _ _ Hlb)) as Blb. rewrite Elb in Blb.
    assert (top < topden) as Ht.
    { apply (Z.mul_lt_mono_pos_l (Wn k)); [apply Wn_pos|].
      rewrite nval_app, Elb in Hlt. cbn [nval] in Hlt. lia. }
    pose proof Hn as Hn'. destruct (lb ++ [top]) as [|x0 rest] eqn:Erest; [by destruct lb|].
    apply arr_cons in Hn' as (Hx0 & Hwx0 & Hrest). cbn [length] in Hl. rewrite <- Erest in *.
    wp_steps. eapply wp_conseq; [apply (bng_div_rem_norm_digit_spec rest lb);
      [lia|exact Hrest|exact Hn|lia|exact Hwd|exact Ht]|].
    intros r m1 (q & Hq & Hlq & Hf & Eq & Er). rewrite Elb in *.
    assert (m1 !! n = Some x0) as Hx1 by (rewrite Hf by lia; done).
    eapply wp_store; [exact Hx1|].
    pose proof (Z.mod_pos_bound (nval (lb ++ [top])) topden ltac:(lia_w)) as Hr. rewrite <- Er in Hr.
    assert (length (lb ++ [top]) = S k) as Elen by (rewrite length_app, Elb; simpl; lia).
    rewrite Elen. exists (r :: q). split_and!; [|simpl; lia| |].
    + apply arr_cons. split_and!; [apply lookup_insert_eq|unfold word in *; lia|].
      apply arr_insert; [lia|done].
    + eapply frame_trans; [eapply frame_weaken; [exact Hf|lia|rewrite padd_S; lia]|].
      apply frame_insert. unfold padd. lia.
    + exists [r], q. cbn [nval length app]. split_and!; [done|done| |lia].
      pose proof (Z.div_mod (nval (lb ++ [top])) topden). lia.
  - wp_step. apply wp_minus_len; [lia|]. wp_step.
    assert (m !! padd d (length dd - 1) = Some topden) as Htop.
    { rewrite Ed in Hd |- *. apply arr_snoc in Hd as (_ & Hd & _).
      rewrite length_app. simpl. by rewrite Nat.add_sub. }
    wp_steps. apply wp_minus_len; [lia|]. rewrite Hl, Nat.add_sub.
    by apply (long_division_spec d dd dl).
Qed.

(** Normalizing the divisor and the dividend loses no bits. *)
Lemma normalize_bounds num ntop dl dtop k s :
  Forall word (num ++ [ntop]) → Forall word (dl ++ [dtop]) → ntop < dtop →
  length num = (k + length dl)%nat → s = bng_leading_zero_bits dtop →
  let N := nval (num ++ [ntop]) in let D := nval (dl ++ [dtop]) in
  0 <= s < 64 ∧ 0 < 2 ^ s ∧ 0 < D ∧ N * 2 ^ s < Wn (length (num ++ [ntop])) ∧
  D * 2 ^ s < Wn (length (dl ++ [dtop])) ∧ N < D * Wn k.
Proof.
  intros Hn Hd Ht Hl Es N D. apply Forall_app in Hn as [Hn Hnt]. apply Forall_app in Hd as [Hd Hdt].
  apply Forall_cons in Hnt as [Hnt _]. apply Forall_cons in Hdt as [Hdt _].
  destruct (norm_shift dtop s Hdt ltac:(lia_w) Es) as (Hs & _ & Hb).
  pose proof (Z.pow_pos_nonneg 2 s ltac:(lia) ltac:(lia)) as Hp.
  pose proof (nval_bound _ Hn) as Bn. pose proof (nval_bound _ Hd) as Bd.
  rewrite Hl, Wn_add in Bn. pose proof (Wn_pos k) as Hk. pose proof (Wn_pos (length dl)) as Hwd.
  assert (N = nval num + Wn k * Wn (length dl) * ntop) as EN
    by (subst N; rewrite nval_app, Hl, Wn_add; cbn [nval]; ring).
  assert (D = nval dl + Wn (length dl) * dtop) as ED by (subst D; rewrite nval_app; cbn [nval]; ring).
  assert ((dtop + 1) * 2 ^ s <= W) as Hd1.
  { pose proof (pow2_split s ltac:(lia)) as HW. rewrite <- HW in Hb |- *.
    apply Z.mul_le_mono_pos_r; [done|]. destruct Hb as [_ Hb]. apply Z.mul_lt_mono_pos_r in Hb; lia. }
  unfold word in *. rewrite !length_app, !Nat.add_1_r, !Wn_S, Hl, Wn_add.
  set (U := Wn (length dl)) in *. set (K := Wn k) in *.
  assert (N < K * U * (ntop + 1)) as HN by nia.
  assert (D < U * (dtop + 1)) as HD by nia.
  assert (K * U * (ntop + 1) <= K * U * dtop) as HND by (apply Z.mul_le_mono_nonneg_l; nia).
  split_and!; [lia|lia|done|nia| | |nia].
  - assert (N * 2 ^ s < K * U * dtop * 2 ^ s) by (apply Z.mul_lt_mono_pos_r; lia).
    assert (K * U * (dtop * 2 ^ s) <= K * U * W) by (apply Z.mul_le_mono_nonneg_l; nia). nia.
  - assert (D * 2 ^ s < U * (dtop + 1) * 2 ^ s) by (apply Z.mul_lt_mono_pos_r; lia).
    assert (U * ((dtop + 1) * 2 ^ s) <= U * W) by (apply Z.mul_le_mono_nonneg_l; lia). nia.
Qed.

(** {n+dlen, nlen-dlen} := {n,nlen} / {d,dlen} and
    {n, dlen} := {n,nlen} mod {d,dlen}; {d,dlen} is restored. *)
Lemma bng_div_rem_spec num ntop dl dtop k m n d :
  arr m n (num ++ [ntop]) → arr m d (dl ++ [dtop]) →
  length num = (k + length dl)%nat → (0 < k)%nat → ntop < dtop →
  apart n (length (num ++ [ntop])) d (length (dl ++ [dtop])) →
  let N := nval (num ++ [ntop]) in let D := nval (dl ++ [dtop]) in
  wp (bng_generic_div_rem n (length (num ++ [ntop])) d (length (dl ++ [dtop])))
     (λ _ m', ∃ r q, arr m' n (r ++ q) ∧ length r = length (dl ++ [dtop]) ∧ length q = k ∧
        nval q = N / D ∧ nval r = N mod D ∧ arr m' d (dl ++ [dtop]) ∧
        frame2 m m' n (length (num ++ [ntop])) d (length (dl ++ [dtop]))) m.
Proof.
  intros Hn Hd Hl Hk Ht Hap N D. unfold bng_generic_div_rem.
  set (nlen := length (num ++ [ntop])) in *. set (dlen := length (dl ++ [dtop])) in *.
  assert (dlen = S (length dl)) as Edl by (subst dlen; rewrite length_app; simpl; lia).
  assert (nlen = k + dlen)%nat as Enl by (subst nlen; rewrite length_app; simpl; lia).
  wp_step. apply wp_minus_len; [lia|].
  pose proof (arr_snoc _ _ _ _ Hd) as (_ & Hdt & _).
  replace (length dl) with (dlen - 1)%nat in Hdt by lia. wp_steps.
  destruct (normalize_bounds num ntop dl dtop k _ (arr_words _ _ _ Hn) (arr_words _ _ _ Hd) Ht Hl eq_refl)
    as (Hs & Hp & HD & HN2 & HD2 & HND). fold N D nlen dlen in HD, HN2, HD2, HND.
  set (s := bng_leading_zero_bits dtop) in *.
  eapply wp_conseq; [apply (shift_left_exact (num ++ [ntop])); [done|done|exact HN2]|].
  intros _ m1 (n1 & Hn1 & Hln1 & Hf1 & En1). fold nlen N in Hln1, Hf1, En1. wp_step.
  eapply wp_conseq; [apply (shift_left_exact (dl ++ [dtop]));
    [eapply arr_frame; [exact Hf1|exact Hap|done]|done|exact HD2]|].
  intros _ m2 (d2 & Hd2 & Hld2 & Hf2 & Ed2). fold dlen D in Hld2, Hf2, Ed2. wp_step.
  assert (arr m2 n n1) as Hn2 by (eapply arr_frame; [exact Hf2|unfold apart in *; rewrite Hln1; lia|done]).
  rewrite <- Hln1 at 1. rewrite <- Hld2 at 1.
  eapply wp_conseq; [apply (div_rem_norm_spec k n1 d2); [done|lia|done|lia|done| |]|].
  { by rewrite Hld2, <- Enl. }
  { rewrite En1, Ed2. replace (D * 2 ^ s * Wn k) with (D * Wn k * 2 ^ s) by ring.
    by apply Z.mul_lt_mono_pos_r. }
  intros [] m3 (l & Hn3 & Hl3 & Hf3 & r & q & -> & Hlr & Eqr & Hr). rewrite Hln1, Hld2, En1, Ed2 in *.
  assert (arr m3 d d2) as Hd3 by (eapply arr_frame; [exact Hf3|by rewrite Hld2|done]).
  apply arr_app in Hn3 as [Hr3 Hq3]. wp_step. rewrite <- Hlr at 1.
  eapply wp_conseq; [by apply (bng_shift_right_spec r)|].
  intros c4 m4 (r4 & Hr4 & Hlr4 & Hf4 & _ & Er4). wp_step. rewrite <- Hld2 at 1.
  assert (padd n (length r) <= padd n nlen) as Hpad by (unfold padd; lia).
  eapply wp_conseq; [apply (bng_shift_right_spec d2); [|done]|].
  { eapply arr_frame; [exact Hf4| |done]. unfold apart in *. rewrite Hld2. lia. }
  intros c5 m5 (d5 & Hd5 & Hld5 & Hf5 & _ & Ed5). wp_step. rewrite Hld2 in *.
  rewrite Ed2, Z.div_mul in Ed5 by lia.
  assert (d5 = dl ++ [dtop]) as -> by (apply nval_inj; [apply Hd5|apply Hd|exact Hld5|exact Ed5]).
  assert (nval r = (N - nval q * D) * 2 ^ s) as Er by lia.
  rewrite Er, Z.div_mul in Er4 by lia.
  pose proof (nval_bound _ (arr_words _ _ _ Hr4)) as Br4.
  assert (length q = k) as Hlq by (rewrite length_app in Hl3; lia).
  assert (N - nval q * D < D) as HltD by nia.
  destruct (div_split (nval q) D (nval r4) N) as [Eq Em]; [lia|lia|].
  exists r4, q. split_and!; [|lia|done|done|done|done|].
  - apply arr_app. rewrite Hlr4. split.
    + eapply arr_frame; [exact Hf5| |done]. unfold apart in *. rewrite Hlr4. lia.
    + eapply arr_frame; [exact Hf5| |eapply arr_frame; [exact Hf4|left; lia|done]].
      unfold apart in *. rewrite <- padd_add, Hlr, Hlq. rewrite Enl in Hap. 
      replace (dlen + k)%nat with (k + dlen)%nat by lia. unfold padd in *. lia.
  - eapply frame2_trans; [by apply frame_frame2_l|]. eapply frame2_trans; [by apply frame_frame2_r|].
    eapply frame2_trans; [by apply frame_frame2_l|]. eapply frame2_trans; [|by apply frame_frame2_r].
    apply frame_frame2_l. eapply frame_weaken; [exact Hf4|lia|lia].
Qed.

(** ** Squaring *)

(** The cross products and the squares of the digits of a number. *)
Fixpoint cross (bs : list Z) : Z :=
  match bs with [] => 0 | x :: r => x * nval r + W * W * cross r end.
Fixpoint squares (bs : list Z) : Z :=
  match bs with [] => 0 | x :: r => x * x + W * W * squares r end.

Lemma square_split bs : nval bs * nval bs = squares bs + 2 * W * cross bs.
Proof.
  induction bs as [|x r IH]; cbn [nval squares cross]; [lia|].
  replace ((x + W * nval r) * (x + W * nval r))
    with (x * x + 2 * W * (x * nval r) + W * W * (nval r * nval r)) by ring.
  rewrite IH. ring.
Qed.

Lemma cross_nonneg bs : Forall word bs → 0 <= cross bs.
Proof.
  induction 1 as [|x r Hx Hr IH]; cbn [cross]; [lia|].
  pose proof (nval_bound _ Hr). unfold word in Hx. pose proof W_pos. nia.
Qed.

Lemma squares_nonneg bs : 0 <= squares bs.
Proof. induction bs as [|x r IH]; cbn [squares]; [lia|]. pose proof W_pos. nia. Qed.

Lemma double_products_spec rest x pre da m a b carry :
  let bs := pre ++ x :: rest in
  arr m a da → arr m b bs → (2 * length bs <= length da)%nat →
  apart a (length da) b (length bs) →
  wp (double_products a (length da) b (length bs) (S (length pre)) (length rest) (u32 carry))
     (upd m a (length da)
        (λ r ds', ∃ k, 0 <= k ∧ r = u32 (carry + k) ∧
           nval ds' + Wn (length da) * k
           = nval da + Wn (2 * length pre + 1) * cross (x :: rest))) m.
Proof.
  revert x pre da m carry. induction rest as [|y rest IH]; intros x pre da m carry bs Ha Hb Hle Hap;
    cbn [double_products length].
  { apply wp_ret, upd_same; [done|]. exists 0. cbn [cross nval].
    split_and!; [lia|f_equal; lia|lia]. }
  pose proof (arr_mid _ _ _ _ _ Hb) as [Hx Hwx].
  replace (length pre) with (S (length pre) - 1)%nat in Hx by lia. wp_steps.
  replace (2 * S (length pre) - 1)%nat with (2 * length pre + 1)%nat by lia.
  set (ofs := (2 * length pre + 1)%nat).
  assert (length bs = length pre + S (S (length rest)))%nat as Elb
    by (subst bs; rewrite length_app; done).
  apply wp_minus_len; [lia|].
  destruct (arr_split m a da ofs Ha ltac:(lia)) as (lo & hi & Eda & Elo & Halo & Hahi).
  assert (arr m (padd b (S (length pre))) (y :: rest)) as Hr.
  { subst bs. change (x :: y :: rest) with ([x] ++ (y :: rest)) in Hb.
    rewrite app_assoc in Hb. apply arr_app in Hb as [_ Hb].
    rewrite length_app, Nat.add_1_r in Hb. done. }
  replace (length da - ofs)%nat with (length hi) by (rewrite Eda, length_app; lia).
  replace (length bs - S (length pre))%nat with (length (y :: rest)) by (cbn [length]; lia).
  wp_step. eapply wp_conseq; [apply (bng_mult_add_digit_spec hi (y :: rest));
    [done|done| | |done]|].
  { rewrite Eda, length_app in Hle. cbn [length]. lia. }
  { unfold apart in Hap. unfold read_ahead. cbn [length]. unfold padd in *. lia. }
  intros c1 m1 H1. rewrite <- Elo in H1. rewrite Eda in Ha.
  rewrite <- (app_nil_r hi) in Ha.
  destruct (arr_upd_sub _ _ _ lo hi [] _ _ Ha H1) as (hi1 & Ha1 & Hl1 & (Hw1 & _ & E1) & Hf1).
  rewrite app_nil_r in Ha1, Hf1. rewrite <- Eda in Hf1.
  assert (length (lo ++ hi1) = length da) as El by (rewrite Eda, !length_app; lia).
  rewrite u32_u32_add. rewrite <- El at 1.
  replace (length bs) with (length ((pre ++ [x]) ++ y :: rest)) by (rewrite <- app_assoc; done).
  replace (S (S (length pre))) with (S (length (pre ++ [x]))) by (rewrite length_app; simpl; lia).
  eapply wp_conseq; [apply (IH y (pre ++ [x]) (lo ++ hi1))|].
  - done.
  - rewrite <- app_assoc. cbn [app]. eapply arr_frame; [exact Hf1|exact Hap|done].
  - rewrite El, <- app_assoc. done.
  - rewrite El, <- app_assoc. done.
  - intros r m2 (ds2 & Ha2 & Hl2 & Hf2 & k & Hk & -> & E2). rewrite El in *.
    exists ds2. split_and!; [done|done|by eapply frame_trans|]. exists (c1 + k).
    split_and!; [unfold word in Hw1; lia|f_equal; lia|].
    rewrite length_app in E2. cbn [length] in E2.
    replace (2 * (length pre + 1) + 1)%nat with (ofs + 2)%nat in E2 by lia.
    rewrite Wn_add in E2. change (Wn 2) with (W * W) in E2.
    rewrite nval_app, Elo in E2. cbn [cross]. rewrite Eda, nval_app, Elo, length_app, Elo, Wn_add.
    rewrite Eda, length_app, Elo, Wn_add in E2. cbn [cross] in E2. nia.
Qed.

Lemma add_squares_spec bs da m a b c :
  arr m a da → arr m b bs → length da = (2 * length bs)%nat →
  apart a (length da) b (length bs) → 0 <= c <= 1 →
  wp (add_squares a b (length bs) c)
     (upd m a (2 * length bs)
        (λ c' ds', 0 <= c' <= 1 ∧
           nval ds' + Wn (2 * length bs) * c' = nval da + squares bs + c)) m.
Proof.
  revert da m a b c. induction bs as [|y bs IH]; intros da m a b c Ha Hb Hl Hap Hc;
    cbn [add_squares length].
  { destruct da; [|done]. apply wp_ret, upd_nil. change (Wn (2 * 0)) with 1. cbn. lia. }
  cbn [length] in Hl, Hap. destruct da as [|x0 [|x1 da]]; try (simpl in Hl; lia).
  apply arr_cons in Ha as (Hx0 & Hw0 & Ha). apply arr_cons in Ha as (Hx1 & Hw1 & Ha).
  apply arr_cons in Hb as (Hy & Hwy & Hb). wp_steps.
  destruct (BngMult y y) as [ph pl] eqn:Em.
  apply BngMult_spec in Em as (Em & Hph & Hpl); [|done..]. wp_steps.
  destruct (BngAdd2Carry x0 pl c) as [r0 c0] eqn:E0.
  apply BngAdd2Carry_spec in E0 as (E0 & Hr0 & Hc0); [|done..]. wp_steps.
  eapply wp_load; [rewrite lookup_insert_ne by lia; exact Hx1|]. wp_steps.
  destruct (BngAdd2Carry x1 ph c0) as [r1 c1] eqn:E1.
  apply BngAdd2Carry_spec in E1 as (E1 & Hr1 & Hc1); [|done..]. wp_steps.
  eapply wp_store; [rewrite lookup_insert_ne by lia; exact Hx1|].
  cbn [length] in Hl, Hap.
  assert (∀ p l, arr m p l → p = a + 8 + 8 ∨ p = b + 8 ∧ apart a 2 p (length l) →
    arr (<[a + 8:=r1]> (<[a:=r0]> m)) p l) as Hkeep.
  { intros p l Hp Hc'. unfold apart, padd in *.
    apply arr_insert; [unfold padd; lia|]. apply arr_insert; [unfold padd; lia|done]. }
  replace (2 * S (length bs))%nat with (S (S (2 * length bs))) by lia.
  eapply wp_conseq; [apply (IH da); [apply Hkeep; [done|by left]| | | |done]|].
  - apply Hkeep; [done|right]. split; [done|]. unfold apart, padd in *. lia.
  - lia.
  - unfold apart, padd in *. lia.
  - intros c' m' H. eapply upd_cons; [exact Hr0| |].
    + eapply (upd_cons _ _ _ _ _ _ (λ c l, ∃ t, l = r1 :: t ∧ 0 <= c <= 1 ∧
        nval t + Wn (2 * length bs) * c = nval da + squares bs + c1)); [exact Hr1|exact H|].
      intros ds _ _ HP. exists ds. done.
    + intros ds _ _ (t & -> & Hc' & E). cbn [nval squares]. rewrite !Wn_S. split; [done|]. nia.
Qed.

Lemma carry_combine k top : 0 <= k <= 1 → 0 <= top < 2 → 
  Z.lor (u32 (Z.shiftl k 1)) (u32 top) = 2 * k + top.
Proof.
  intros Hk Ht. assert (k = 0 ∨ k = 1) as [-> | ->] by lia;
    assert (top = 0 ∨ top = 1) as [-> | ->] by lia; reflexivity.
Qed.

(** {a,alen} := 2 * {a,alen} + {b,blen}^2; the carry out is at most 2. *)
Lemma bng_square_add_spec da db m a b :
  arr m a da → arr m b db → (2 * length db <= length da)%nat → (0 < length db)%nat →
  apart a (length da) b (length db) →
  wp (bng_generic_square_add a (length da) b (length db))
     (upd m a (length da)
        (λ r ds', 0 <= r <= 2 ∧
           nval ds' + Wn (length da) * r = 2 * nval da + nval db * nval db)) m.
Proof.
  intros Ha Hb Hle H0 Hap. unfold bng_generic_square_add.
  destruct db as [|x rest]; [simpl in H0; lia|]. set (db := x :: rest) in *.
  pose proof (nval_bound _ (arr_words _ _ _ Ha)) as Ba.
  pose proof (nval_bound _ (arr_words _ _ _ Hb)) as Bb.
  pose proof (cross_nonneg _ (arr_words _ _ _ Hb)) as Bc. pose proof (squares_nonneg db) as Bs.
  pose proof (square_split db) as Esq.
  assert (nval db * nval db < Wn (length da)) as Bsq.
  { pose proof (Wn_mono _ _ Hle) as Hm. replace (2 * length db)%nat with (length db + length db)%nat in Hm by lia.
    rewrite Wn_add in Hm. nia. }
  wp_step. replace (length db - 1)%nat with (length rest) by (subst db; simpl; lia).
  change 0 with (u32 0) at 1.
  eapply wp_conseq; [apply (double_products_spec rest x [] da); done|].
  intros c1 m1 (ds1 & Ha1 & Hl1 & Hf1 & k & Hk & -> & E1). fold db in E1. cbn [length] in E1.
  change (Wn (2 * 0 + 1)) with W in E1.
  pose proof (nval_bound _ (arr_words _ _ _ Ha1)) as B1. rewrite Hl1 in B1.
  assert (k <= 1) as Hk1 by nia.
  rewrite (u32_bit (0 + k)) by lia. replace (0 + k) with k by lia.
  wp_step. rewrite <- Hl1 at 1. eapply wp_conseq; [apply (bng_shift_left_spec ds1); [done|lia]|].
  intros top m2 (ds2 & Ha2 & Hl2 & Hf2 & Ht & E2). rewrite Hl1 in *. rewrite Z.pow_1_r in *.
  assert (arr m2 b db) as Hb2 by
    (do 2 (eapply arr_frame; [eassumption|exact Hap|]); done).
  rewrite carry_combine by lia.
  destruct (arr_split m2 a ds2 (2 * length db) Ha2 ltac:(lia)) as (l & h & Eds2 & El & Hal & Hah).
  wp_step. eapply wp_conseq; [apply (add_squares_spec db l); [done|done|done| |lia]|].
  { rewrite El. unfold apart, padd in *. lia. }
  intros c2 m3 H3. wp_step. apply wp_minus_len; [lia|].
  assert (0 <= c2 <= 1) as Hc2 by (destruct H3 as (? & _ & _ & _ & ? & _); done).
  replace (length da - 2 * length db)%nat with (length h)
    by (rewrite <- Hl2, Eds2, length_app; lia).
  pose proof (upd_suffix _ _ _ _ _ _ _ H3 Hah) as Hah3.
  assert (wp (if (0 <? length h)%nat && negb (c2 =? 0) then incr_loop (padd a (2 * length db)) (length h)
              else mreturn c2)
    (upd m3 (padd a (2 * length db)) (length h)
       (λ c l, 0 <= c <= 1 ∧ nval l + Wn (length h) * c = nval h + c2)) m3) as Htail.
  { pose proof (incr_tail_spec h m3 _ c2 Hah3 Hc2) as Hi.
    destruct (Z.eqb_spec c2 0), (length h); cbn [Nat.ltb Nat.leb andb negb orb Nat.eqb] in *; done. }
  wp_step. eapply wp_conseq; [exact Htail|]. intros c3 m4 H4. wp_step.
  assert (length da = 2 * length db + length h)%nat as Ela by (rewrite <- Hl2, Eds2, length_app; lia).
  assert (0 <= c3 <= 1) as Hc3 by (destruct H4 as (? & _ & _ & _ & ? & _); done).
  rewrite (u32_small (2 * k + top + c3)) by lia_w.
  destruct (upd_app m2 m3 m4 a _ _ _ _
    (λ c l, nval l + Wn (length da) * c = nval ds2 + squares db) c2 c3 H3 H4) as (ds4 & Ha4 & Hl4 & Hf4 & E4).
  { intros l1 l2 _ _ L1 L2 [? ?] [? ?]. rewrite Eds2, !nval_app, El, L1, Ela, Wn_add. nia. }
  rewrite <- Ela in Hl4, Hf4. pose proof (nval_bound _ (arr_words _ _ _ Ha4)) as B4. rewrite Hl4 in B4.
  exists ds4. split_and!; [done|done| |lia| |].
  - eapply frame_trans; [exact Hf1|]. eapply frame_trans; [exact Hf2|done].
  - assert (nval ds4 + Wn (length da) * (2 * k + top + c3) = 2 * nval da + nval db * nval db) by nia. nia.
  - nia.
Qed.

(** ** The remaining operations *)

Lemma bng_add_carry_spec ds m a c :
  arr m a ds → 0 <= c <= 1 →
  wp (bng_generic_add_carry a (length ds) c)
     (upd m a (length ds)
        (λ c' ds', 0 <= c' <= 1 ∧ nval ds' + Wn (length ds) * c' = nval ds + c)) m.
Proof. apply incr_tail_spec. Qed.

Lemma bng_sub_carry_spec ds m a c :
  arr m a ds → 0 <= c <= 1 →
  wp (bng_generic_sub_carry a (length ds) c)
     (upd m a (length ds)
        (λ c' ds', 0 <= c' <= 1 ∧ nval ds' - Wn (length ds) * c' = nval ds - c)) m.
Proof. apply decr_tail_spec. Qed.

Lemma bng_complement_spec ds m a :
  arr m a ds →
  wp (bng_complement a (length ds))
     (upd m a (length ds) (λ _ ds', nval ds' = Wn (length ds) - 1 - nval ds)) m.
Proof.
  revert m a. induction ds as [|x ds IH]; intros m a Ha; cbn [bng_complement length nval].
  - apply wp_ret, upd_nil. rewrite Wn_0. done.
  - apply arr_cons in Ha as (Hx & Hw & Ha). wp_steps. rewrite Wn_S.
    assert (u64 (Z.lnot x) = W - 1 - x) as E.
    { unfold u64, Z.lnot. rewrite <- (Z_mod_plus_full _ 1 W), Z.mod_small by lia_w. lia. }
    eapply wp_conseq; [apply IH; apply arr_insert; [lia|done]|]. intros r m' H.
    eapply upd_cons; [auto with words|exact H|]. cbn [nval]. rewrite E. nia.
Qed.

Lemma bng_zero_spec ds m a :
  arr m a ds →
  wp (bng_zero a (length ds)) (upd m a (length ds) (λ _ ds', nval ds' = 0)) m.
Proof.
  revert m a. induction ds as [|x ds IH]; intros m a Ha; cbn [bng_zero length].
  - apply wp_ret, upd_nil. done.
  - apply arr_cons in Ha as (Hx & Hw & Ha). wp_steps.
    eapply wp_conseq; [apply IH; apply arr_insert; [lia|done]|]. intros r m' H.
    eapply upd_cons; [by apply (word_bit 0)|exact H|]. cbn [nval]. lia.
Qed.

Lemma load_digits_spec ds m b :
  arr m b ds → wp (load_digits b (length ds)) (λ l m', l = ds ∧ m' = m) m.
Proof.
  revert b. induction ds as [|x ds IH]; intros b Hb; cbn [load_digits length]; [done|].
  apply arr_cons in Hb as (Hx & _ & Hb). wp_steps.
  eapply wp_conseq; [by apply IH|]. intros l m' [-> ->]. wp_steps. done.
Qed.

Lemma store_digits_spec l ds m a :
  arr m a ds → Forall word l → length ds = length l →
  wp (store_digits a l) (upd m a (length l) (λ _ ds', ds' = l)) m.
Proof.
  intros Ha Hl. revert ds m a Ha. induction Hl as [|x l Hx Hl IH]; intros [|y ds] m a Ha E;
    try discriminate E; cbn [store_digits length].
  - apply wp_ret, upd_nil. done.
  - apply arr_cons in Ha as (Hy & _ & Ha). wp_steps.
    eapply wp_conseq; [eapply (IH ds); [apply arr_insert; [lia|done]|by injection E]|].
    intros r m' H. eapply upd_cons; [exact Hx|exact H|]. by intros ds' _ _ ->.
Qed.

(** [memmove]: the source digits are copied whatever the overlap. *)
Lemma bng_assign_spec da db m a b :
  arr m a da → arr m b db → length da = length db →
  wp (bng_assign a b (length db)) (upd m a (length db) (λ _ ds', ds' = db)) m.
Proof.
  intros Ha Hb Hl. unfold bng_assign. wp_step.
  eapply wp_conseq; [by apply load_digits_spec|]. intros l m' [-> ->].
  eapply store_digits_spec; [done|apply Hb|done].
Qed.

(** [bng_is_zero] (bng.h) answers false for every number, zero included:
    [bng_num_digits] returns 1, not 0, when all digits are zero. *)
Theorem bng_is_zero_never ds m a :
  arr m a ds → bng_is_zero a (length ds) m = inr (m, false).
Proof.
  intros Ha. apply wp_exact. unfold bng_is_zero. apply wp_bind.
  eapply wp_conseq; [by apply bng_num_digits_spec|]. intros r m' (-> & k & _ & ->).
  apply wp_ret. destruct (Z.eqb_spec (Z.max 1 (Z.of_nat k)) 0); [lia|done].
Qed.

Lemma bng_is_zero_witness :
  bng_is_zero 0 2 (<[0 := 0]> (<[8 := 0]> ∅)) = inr (<[0 := 0]> (<[8 := 0]> ∅), false).
Proof.
  apply (bng_is_zero_never [0; 0]). split; [repeat split; vm_compute; reflexivity|].
  repeat constructor; vm_compute; discriminate.
Defined.

End Bng.
