(* ===== verification/NatStubs.v ===== *)
(** The primitives of module Nat: otherlibs/num/nat_stubs.c.

    A nat is a custom block whose data are digits ([Digit_val] in nat.h);
    every primitive takes tagged offsets and lengths and calls the operation
    of [Bng] on the addressed digits. *)

From S2P Require Import Prelude Mlvalues Bng.
Import Digit Bng.

Module NatStubs.

Abbreviation BM := (M (gmap Z Z) fault).

(** [&Digit_val(nat, Long_val(ofs))] *)
Definition Digit_val (nat pos : Z) : Z := Data_custom_val nat + 8 * pos.
Definition digit_addr (nat ofs : Z) : Z := Digit_val nat (Long_val ofs).

(** A length argument: a [bngsize].  A negative one, which C converts to a
    size of at least 2^63 digits, is out of contract. *)
Definition size_arg (len : Z) : BM nat :=
  if Long_val len <? 0 then mfail Contract else mreturn (Z.to_nat (Long_val len)).

Definition set_to_zero_nat (nat ofs len : Z) : BM Z :=
  let* n := size_arg len in
  bng_zero (digit_addr nat ofs) n ;;; mreturn Val_unit.

Definition blit_nat (nat1 ofs1 nat2 ofs2 len : Z) : BM Z :=
  let* n := size_arg len in
  bng_assign (digit_addr nat1 ofs1) (digit_addr nat2 ofs2) n ;;; mreturn Val_unit.

Definition set_digit_nat (nat ofs digit : Z) : BM Z :=
  st (digit_addr nat ofs) (u64 (Long_val digit)) ;;; mreturn Val_unit.

Definition nth_digit_nat (nat ofs : Z) : BM Z :=
  let* d := ld (digit_addr nat ofs) in mreturn (Val_long d).

(** [Nativeint_val(digit)] is the data word of the custom block [digit]. *)
Definition set_digit_nat_native (nat ofs digit : Z) : BM Z :=
  let* d := ld (Data_custom_val digit) in
  st (digit_addr nat ofs) d ;;; mreturn Val_unit.

Definition num_digits_nat (nat ofs len : Z) : BM Z :=
  let* n := size_arg len in
  let* r := bng_num_digits (digit_addr nat ofs) n in mreturn (Val_long r).

Definition num_leading_zero_bits_in_digit (nat ofs : Z) : BM Z :=
  let* d := ld (digit_addr nat ofs) in mreturn (Val_long (bng_leading_zero_bits d)).

Definition is_digit_int (nat ofs : Z) : BM Z :=
  let* d := ld (digit_addr nat ofs) in mreturn (Val_bool (d <=? Max_long)).

Definition is_digit_zero (nat ofs : Z) : BM Z :=
  let* d := ld (digit_addr nat ofs) in mreturn (Val_bool (d =? 0)).

(** [Val_bool(x)] is [Val_int((x) != 0)]. *)
Definition is_digit_normalized (nat ofs : Z) : BM Z :=
  let* d := ld (digit_addr nat ofs) in
  mreturn (Val_bool (negb (Z.land d (u64 (Z.shiftl 1 (BNG_BITS_PER_DIGIT - 1))) =? 0))).

Definition is_digit_odd (nat ofs : Z) : BM Z :=
  let* d := ld (digit_addr nat ofs) in mreturn (Val_bool (negb (Z.land d 1 =? 0))).

(** A carry argument is converted to [bngcarry], an [unsigned int]. *)
Definition carry_arg (carry_in : Z) : Z := u32 (Long_val carry_in).

Definition incr_nat (nat ofs len carry_in : Z) : BM Z :=
  let* n := size_arg len in
  let* c := bng_generic_add_carry (digit_addr nat ofs) n (carry_arg carry_in) in
  mreturn (Val_long c).

Definition add_nat_native (nat1 ofs1 len1 nat2 ofs2 len2 carry_in : Z) : BM Z :=
  let* n1 := size_arg len1 in
  let* n2 := size_arg len2 in
  let* c := bng_generic_add (digit_addr nat1 ofs1) n1 (digit_addr nat2 ofs2) n2
              (carry_arg carry_in) in
  mreturn (Val_long c).

Definition complement_nat (nat ofs len : Z) : BM Z :=
  let* n := size_arg len in
  bng_complement (digit_addr nat ofs) n ;;; mreturn Val_unit.

(** [1 ^ Long_val(carry_in)] is computed on longs, then converted. *)
Definition borrow_arg (carry_in : Z) : Z := u32 (Z.lxor 1 (Long_val carry_in)).

Definition decr_nat (nat ofs len carry_in : Z) : BM Z :=
  let* n := size_arg len in
  let* c := bng_generic_sub_carry (digit_addr nat ofs) n (borrow_arg carry_in) in
  mreturn (Val_long (Z.lxor 1 c)).

Definition sub_nat_native (nat1 ofs1 len1 nat2 ofs2 len2 carry_in : Z) : BM Z :=
  let* n1 := size_arg len1 in
  let* n2 := size_arg len2 in
  let* c := bng_generic_sub (digit_addr nat1 ofs1) n1 (digit_addr nat2 ofs2) n2
              (borrow_arg carry_in) in
  mreturn (Val_long (Z.lxor 1 c)).

Definition mult_digit_nat_native (nat1 ofs1 len1 nat2 ofs2 len2 nat3 ofs3 : Z) : BM Z :=
  let* n1 := size_arg len1 in
  let* n2 := size_arg len2 in
  let* d := ld (digit_addr nat3 ofs3) in
  let* c := bng_generic_mult_add_digit (digit_addr nat1 ofs1) n1 (digit_addr nat2 ofs2) n2 d in
  mreturn (Val_long c).

Definition mult_nat_native (nat1 ofs1 len1 nat2 ofs2 len2 nat3 ofs3 len3 : Z) : BM Z :=
  let* n1 := size_arg len1 in
  let* n2 := size_arg len2 in
  let* n3 := size_arg len3 in
  let* c := bng_generic_mult_add (digit_addr nat1 ofs1) n1 (digit_addr nat2 ofs2) n2
              (digit_addr nat3 ofs3) n3 in
  mreturn (Val_long c).

Definition square_nat_native (nat1 ofs1 len1 nat2 ofs2 len2 : Z) : BM Z :=
  let* n1 := size_arg len1 in
  let* n2 := size_arg len2 in
  let* c := bng_generic_square_add (digit_addr nat1 ofs1) n1 (digit_addr nat2 ofs2) n2 in
  mreturn (Val_long c).

(** The shift count is converted to [int]. *)
Definition shift_left_nat_native (nat1 ofs1 len1 nat2 ofs2 nbits : Z) : BM Z :=
  let* n1 := size_arg len1 in
  let* r := bng_generic_shift_left (digit_addr nat1 ofs1) n1 (s32 (Long_val nbits)) in
  st (digit_addr nat2 ofs2) r ;;; mreturn Val_unit.

Definition div_digit_nat_native
    (natq ofsq natr ofsr nat1 ofs1 len1 nat2 ofs2 : Z) : BM Z :=
  let* n1 := size_arg len1 in
  let* d := ld (digit_addr nat2 ofs2) in
  let* r := bng_generic_div_rem_digit (digit_addr natq ofsq) (digit_addr nat1 ofs1) n1 d in
  st (digit_addr natr ofsr) r ;;; mreturn Val_unit.

Definition div_nat_native (nat1 ofs1 len1 nat2 ofs2 len2 : Z) : BM Z :=
  let* n1 := size_arg len1 in
  let* n2 := size_arg len2 in
  bng_generic_div_rem (digit_addr nat1 ofs1) n1 (digit_addr nat2 ofs2) n2 ;;;
  mreturn Val_unit.

Definition shift_right_nat_native (nat1 ofs1 len1 nat2 ofs2 nbits : Z) : BM Z :=
  let* n1 := size_arg len1 in
  let* r := bng_generic_shift_right (digit_addr nat1 ofs1) n1 (s32 (Long_val nbits)) in
  st (digit_addr nat2 ofs2) r ;;; mreturn Val_unit.

Definition compare_digits_nat (nat1 ofs1 nat2 ofs2 : Z) : BM Z :=
  let* d1 := ld (digit_addr nat1 ofs1) in
  let* d2 := ld (digit_addr nat2 ofs2) in
  if d2 <? d1 then mreturn (Val_int 1)
  else if d1 <? d2 then mreturn (Val_int (-1))
  else mreturn (Val_int 0).

Definition compare_nat_native (nat1 ofs1 len1 nat2 ofs2 len2 : Z) : BM Z :=
  let* n1 := size_arg len1 in
  let* n2 := size_arg len2 in
  let* c := bng_compare (digit_addr nat1 ofs1) n1 (digit_addr nat2 ofs2) n2 in
  mreturn (Val_int c).

(** [Digit_val(nat1, ofs1) op= Digit_val(nat2, ofs2)] *)
Definition digit_op (op : Z → Z → Z) (nat1 ofs1 nat2 ofs2 : Z) : BM Z :=
  let* d1 := ld (digit_addr nat1 ofs1) in
  let* d2 := ld (digit_addr nat2 ofs2) in
  st (digit_addr nat1 ofs1) (op d1 d2) ;;; mreturn Val_unit.

Definition land_digit_nat := digit_op Z.land.
Definition lor_digit_nat := digit_op Z.lor.
Definition lxor_digit_nat := digit_op Z.lxor.

(** The bytecode entry points, which take their arguments in an array. *)
Definition add_nat (argv : list Z) : BM Z :=
  match argv with
  | [a0; a1; a2; a3; a4; a5; a6] => add_nat_native a0 a1 a2 a3 a4 a5 a6
  | _ => mfail Contract
  end.
Definition sub_nat (argv : list Z) : BM Z :=
  match argv with
  | [a0; a1; a2; a3; a4; a5; a6] => sub_nat_native a0 a1 a2 a3 a4 a5 a6
  | _ => mfail Contract
  end.
Definition mult_digit_nat (argv : list Z) : BM Z :=
  match argv with
  | [a0; a1; a2; a3; a4; a5; a6; a7] => mult_digit_nat_native a0 a1 a2 a3 a4 a5 a6 a7
  | _ => mfail Contract
  end.
Definition mult_nat (argv : list Z) : BM Z :=
  match argv with
  | [a0; a1; a2; a3; a4; a5; a6; a7; a8] => mult_nat_native a0 a1 a2 a3 a4 a5 a6 a7 a8
  | _ => mfail Contract
  end.
Definition square_nat (argv : list Z) : BM Z :=
  match argv with
  | [a0; a1; a2; a3; a4; a5] => square_nat_native a0 a1 a2 a3 a4 a5
  | _ => mfail Contract
  end.
Definition shift_left_nat (argv : list Z) : BM Z :=
  match argv with
  | [a0; a1; a2; a3; a4; a5] => shift_left_nat_native a0 a1 a2 a3 a4 a5
  | _ => mfail Contract
  end.
Definition div_digit_nat (argv : list Z) : BM Z :=
  match argv with
  | [a0; a1; a2; a3; a4; a5; a6; a7; a8] => div_digit_nat_native a0 a1 a2 a3 a4 a5 a6 a7 a8
  | _ => mfail Contract
  end.
Definition div_nat (argv : list Z) : BM Z :=
  match argv with
  | [a0; a1; a2; a3; a4; a5] => div_nat_native a0 a1 a2 a3 a4 a5
  | _ => mfail Contract
  end.
Definition shift_right_nat (argv : list Z) : BM Z :=
  match argv with
  | [a0; a1; a2; a3; a4; a5] => shift_right_nat_native a0 a1 a2 a3 a4 a5
  | _ => mfail Contract
  end.
Definition compare_nat (argv : list Z) : BM Z :=
  match argv with
  | [a0; a1; a2; a3; a4; a5] => compare_nat_native a0 a1 a2 a3 a4 a5
  | _ => mfail Contract
  end.

(** ** Decoding of arguments *)

Lemma wp_size_arg n (Q : nat → gmap Z Z → Prop) m :
  Z.of_nat n <= Max_long → Q n m → wp (size_arg (Val_long (Z.of_nat n))) Q m.
Proof.
  intros Hn HQ. unfold size_arg. rewrite Long_val_Val_long, s63_small by (unfold Min_long; lia).
  destruct (Z.ltb_spec (Z.of_nat n) 0); [lia|]. by rewrite Nat2Z.id.
Qed.

Lemma digit_addr_eq nat ofs :
  Min_long <= ofs <= Max_long → digit_addr nat (Val_long ofs) = Digit_val nat ofs.
Proof. intros. unfold digit_addr. by rewrite Long_val_Val_long, s63_small. Qed.

Lemma bit_fits c : 0 <= c <= 1 → Min_long <= c <= Max_long.
Proof. unfold Min_long, Max_long. lia. Qed.

Lemma carry_arg_eq c : 0 <= c <= 1 → carry_arg (Val_long c) = c.
Proof.
  intros. unfold carry_arg. rewrite Long_val_Val_long, s63_small by by apply bit_fits.
  apply u32_small. lia_w.
Qed.

Lemma borrow_arg_eq c : 0 <= c <= 1 → borrow_arg (Val_long c) = 1 - c.
Proof.
  intros. unfold borrow_arg. rewrite Long_val_Val_long, s63_small by by apply bit_fits.
  assert (c = 0 ∨ c = 1) as [-> | ->] by lia; reflexivity.
Qed.

Lemma lxor_1_bit c : 0 <= c <= 1 → Z.lxor 1 c = 1 - c.
Proof. intros. assert (c = 0 ∨ c = 1) as [-> | ->] by lia; reflexivity. Qed.

(** The offsets and lengths a well-formed call passes. *)
Definition args_fit (ofs : Z) (n : nat) : Prop :=
  Min_long <= ofs <= Max_long ∧ Z.of_nat n <= Max_long.

(** Run the argument decoding of a primitive. *)
Ltac stub_args :=
  repeat match goal with
  | H : args_fit _ _ |- _ => destruct H as [? ?]
  | |- wp (mbnd _ _) _ _ => apply wp_bind
  | |- wp (size_arg (Val_long (Z.of_nat _))) _ _ => apply wp_size_arg; [assumption|]
  end;
  rewrite ?digit_addr_eq, ?carry_arg_eq, ?borrow_arg_eq by assumption.

(** [add_nat]: the digits at [nat1] become the sum of both numbers and the
    carry in, up to the carry out returned; nothing else in memory changes. *)
Theorem add_nat_correct da db m nat1 ofs1 nat2 ofs2 c :
  let a := Digit_val nat1 ofs1 in let b := Digit_val nat2 ofs2 in
  arr m a da → arr m b db → (length db <= length da)%nat →
  args_fit ofs1 (length da) → args_fit ofs2 (length db) →
  read_ahead a b (length db) → 0 <= c <= 1 →
  wp (add_nat [nat1; Val_long ofs1; Val_long (Z.of_nat (length da));
               nat2; Val_long ofs2; Val_long (Z.of_nat (length db)); Val_long c])
     (λ r m', ∃ c', r = Val_long c' ∧ 0 <= c' <= 1 ∧
        upd m a (length da)
          (λ _ ds, nval ds + Wn (length da) * c' = nval da + nval db + c) tt m') m.
Proof.
  intros a b Ha Hb Hle H1 H2 Hr Hc. unfold add_nat, add_nat_native. stub_args.
  eapply wp_conseq; [by apply bng_add_spec|]. intros c' m' (ds & ? & ? & ? & ? & ?).
  apply wp_ret. exists c'. split_and!; [done|lia|lia|]. exists ds. done.
Qed.

(** [sub_nat], with OCaml's convention that carry 1 means no borrow: the
    digits at [nat1] become the difference. *)
Theorem sub_nat_correct da db m nat1 ofs1 nat2 ofs2 c :
  let a := Digit_val nat1 ofs1 in let b := Digit_val nat2 ofs2 in
  arr m a da → arr m b db → (length db <= length da)%nat →
  args_fit ofs1 (length da) → args_fit ofs2 (length db) →
  read_ahead a b (length db) → 0 <= c <= 1 →
  wp (sub_nat [nat1; Val_long ofs1; Val_long (Z.of_nat (length da));
               nat2; Val_long ofs2; Val_long (Z.of_nat (length db)); Val_long c])
     (λ r m', ∃ c', r = Val_long c' ∧ 0 <= c' <= 1 ∧
        upd m a (length da)
          (λ _ ds, nval ds - Wn (length da) * (1 - c') = nval da - nval db - (1 - c)) tt m') m.
Proof.
  intros a b Ha Hb Hle H1 H2 Hr Hc. unfold sub_nat, sub_nat_native. stub_args.
  eapply wp_conseq; [apply bng_sub_spec; [done..|lia]|]. intros c' m' (ds & ? & ? & ? & ? & ?).
  apply wp_ret. exists (1 - c'). split_and!; [by rewrite lxor_1_bit|lia|lia|].
  exists ds. split_and!; [done..|]. replace (1 - (1 - c')) with c' by lia. lia.
Qed.

(** [mult_nat] adds the product of two numbers to a third one at least as
    long as both together; the carry out is 0 or 1. *)
Theorem mult_nat_correct da db dc m nat1 ofs1 nat2 ofs2 nat3 ofs3 :
  let a := Digit_val nat1 ofs1 in let b := Digit_val nat2 ofs2 in
  let c := Digit_val nat3 ofs3 in
  arr m a da → arr m b db → arr m c dc → (length db + length dc <= length da)%nat →
  args_fit ofs1 (length da) → args_fit ofs2 (length db) → args_fit ofs3 (length dc) →
  apart a (length da) b (length db) → apart a (length da) c (length dc) →
  wp (mult_nat [nat1; Val_long ofs1; Val_long (Z.of_nat (length da));
                nat2; Val_long ofs2; Val_long (Z.of_nat (length db));
                nat3; Val_long ofs3; Val_long (Z.of_nat (length dc))])
     (λ r m', ∃ k, r = Val_long k ∧ 0 <= k <= 1 ∧
        upd m a (length da)
          (λ _ ds, nval ds + Wn (length da) * k = nval da + nval db * nval dc) tt m') m.
Proof.
  intros a b c Ha Hb Hc Hle H1 H2 H3 Hab Hac. unfold mult_nat, mult_nat_native. stub_args.
  eapply wp_conseq; [by apply bng_mult_add_spec|]. intros k m' (ds & ? & ? & ? & ? & ?).
  apply wp_ret. exists k. split_and!; [done|lia|lia|]. exists ds. done.
Qed.

(** [square_nat]: {a} := 2 * {a} + {b}^2. *)
Theorem square_nat_correct da db m nat1 ofs1 nat2 ofs2 :
  let a := Digit_val nat1 ofs1 in let b := Digit_val nat2 ofs2 in
  arr m a da → arr m b db → (2 * length db <= length da)%nat → (0 < length db)%nat →
  args_fit ofs1 (length da) → args_fit ofs2 (length db) →
  apart a (length da) b (length db) →
  wp (square_nat [nat1; Val_long ofs1; Val_long (Z.of_nat (length da));
                  nat2; Val_long ofs2; Val_long (Z.of_nat (length db))])
     (λ r m', ∃ k, r = Val_long k ∧ 0 <= k <= 2 ∧
        upd m a (length da)
          (λ _ ds, nval ds + Wn (length da) * k = 2 * nval da + nval db * nval db) tt m') m.
Proof.
  intros a b Ha Hb Hle H0 H1 H2 Hab. unfold square_nat, square_nat_native. stub_args.
  eapply wp_conseq; [by apply bng_square_add_spec|]. intros k m' (ds & ? & ? & ? & ? & ?).
  apply wp_ret. exists k. split_and!; [done|lia|lia|]. exists ds. done.
Qed.

(** C20.  [div_nat]: when the dividend is longer than the divisor and its top
    digit is smaller than the divisor's, the low digits of the dividend become
    the remainder, the others the quotient, and the divisor is left as it was. *)
Theorem div_nat_correct num ntop dl dtop m nat1 ofs1 nat2 ofs2 :
  let n := Digit_val nat1 ofs1 in let d := Digit_val nat2 ofs2 in
  let nlen := length (num ++ [ntop]) in let dlen := length (dl ++ [dtop]) in
  let N := nval (num ++ [ntop]) in let D := nval (dl ++ [dtop]) in
  arr m n (num ++ [ntop]) → arr m d (dl ++ [dtop]) → (dlen < nlen)%nat → ntop < dtop →
  args_fit ofs1 nlen → args_fit ofs2 dlen → apart n nlen d dlen →
  wp (div_nat [nat1; Val_long ofs1; Val_long (Z.of_nat nlen);
               nat2; Val_long ofs2; Val_long (Z.of_nat dlen)])
     (λ r m', r = Val_unit ∧ ∃ rem quo, arr m' n (rem ++ quo) ∧
        length rem = dlen ∧ length quo = (nlen - dlen)%nat ∧
        nval quo = N / D ∧ nval rem = N mod D ∧
        arr m' d (dl ++ [dtop]) ∧ frame2 m m' n nlen d dlen) m.
Proof.
  intros n d nlen dlen N D Hn Hd Hlt Ht H1 H2 Hap. unfold div_nat, div_nat_native.
  assert (nlen = S (length num) ∧ dlen = S (length dl)) as [E1 E2].
  { subst nlen dlen. rewrite !length_app. simpl. lia. }
  stub_args. eapply wp_conseq; [apply (bng_div_rem_spec num ntop dl dtop (nlen - dlen));
    [done|done|lia|lia|done|done]|].
  intros _ m' (r & q & ?). apply wp_ret. split; [done|]. exists r, q. tauto.
Qed.

(** [div_digit_nat]: quotient and remainder of a number by one digit. *)
Theorem div_digit_nat_correct dq db top d m natq ofsq natr ofsr nat1 ofs1 nat2 ofs2 x :
  let q := Digit_val natq ofsq in let b := Digit_val nat1 ofs1 in
  let r := Digit_val natr ofsr in let len := length (db ++ [top]) in
  let N := nval (db ++ [top]) in
  arr m q dq → length dq = length db → arr m b (db ++ [top]) →
  m !! Digit_val nat2 ofs2 = Some d → word d → top < d →
  m !! r = Some x → apart q (length db) b len →
  apart q (length db) r 1 → apart b len r 1 →
  args_fit ofsq len → args_fit ofsr 1 → args_fit ofs1 len → args_fit ofs2 1 →
  wp (div_digit_nat [natq; Val_long ofsq; natr; Val_long ofsr;
                     nat1; Val_long ofs1; Val_long (Z.of_nat len); nat2; Val_long ofs2])
     (λ v m', v = Val_unit ∧ ∃ quo, arr m' q quo ∧ length quo = length db ∧
        nval quo = N / d ∧ m' !! r = Some (N mod d) ∧ arr m' b (db ++ [top])) m.
Proof.
  intros q b r len N Hq Hlq Hb Hd Hw Ht Hx Hqb Hqr Hbr F1 F2 F3 F4.
  unfold div_digit_nat, div_digit_nat_native. stub_args.
  eapply wp_load; [exact Hd|]. apply wp_bind. rewrite ?digit_addr_eq by assumption.
  eapply wp_conseq; [by apply (bng_div_rem_digit_spec dq db top)|].
  intros v m' (quo & Haq & Hl & Eq & -> & Hab & Hf). apply wp_bind.
  assert (m' !! r = Some x) as Hx'.
  { rewrite Hf; [done|..]; unfold apart, padd in *; lia. }
  eapply wp_store; [exact Hx'|]. apply wp_ret. split; [done|]. exists quo.
  split_and!; [|done|done|apply lookup_insert_eq|].
  - apply arr_insert; [|done]. rewrite Hl. unfold apart, padd in *. lia.
  - apply arr_insert; [|done]. fold len. unfold apart, padd in *. lia.
Qed.

(** [compare_nat] returns the sign of the difference and changes nothing. *)
Theorem compare_nat_correct da db m nat1 ofs1 nat2 ofs2 :
  let a := Digit_val nat1 ofs1 in let b := Digit_val nat2 ofs2 in
  arr m a da → arr m b db → args_fit ofs1 (length da) → args_fit ofs2 (length db) →
  compare_nat [nat1; Val_long ofs1; Val_long (Z.of_nat (length da));
               nat2; Val_long ofs2; Val_long (Z.of_nat (length db))] m
  = inr (m, Val_int (Z.sgn (nval da - nval db))).
Proof.
  intros a b Ha Hb H1 H2. apply wp_exact. unfold compare_nat, compare_nat_native. stub_args.
  eapply wp_conseq; [by apply bng_compare_spec|]. intros c m' [-> ->]. by apply wp_ret.
Qed.

(** ** Concrete runs *)

(** Two numbers at 0 and 100, a result area at 200, one digit cells at 300. *)
Definition ex_mem : gmap Z Z :=
  list_to_map [(8, W - 1); (16, W - 1); (24, 5); (32, 0);
               (108, 7); (116, 9);
               (208, 1); (216, 0); (224, 0); (232, 0); (308, 10); (316, 0)].

Ltac ex_arr := split; [repeat split; vm_compute; reflexivity
                      |repeat constructor; vm_compute; discriminate].
Ltac ex_side := first [ ex_arr | vm_compute; reflexivity
  | unfold args_fit, Min_long, Max_long; simpl; lia
  | unfold apart, read_ahead, padd, Digit_val, Data_custom_val, Field; simpl; lia
  | unfold word, W; simpl; lia | simpl; lia ].

Lemma add_nat_witness :
  wp (add_nat [0; Val_long 0; Val_long 3; 100; Val_long 0; Val_long 2; Val_long 1])
     (λ r _, ∃ c, r = Val_long c ∧ 0 <= c <= 1) ex_mem.
Proof.
  eapply wp_conseq; [apply (add_nat_correct [W - 1; W - 1; 5] [7; 9] ex_mem 0 0 100 0 1); ex_side|].
  intros r m' (c & ? & ? & _). exists c. done.
Defined.

Lemma sub_nat_witness :
  wp (sub_nat [0; Val_long 0; Val_long 3; 100; Val_long 0; Val_long 2; Val_long 1])
     (λ r _, ∃ c, r = Val_long c ∧ 0 <= c <= 1) ex_mem.
Proof.
  eapply wp_conseq; [apply (sub_nat_correct [W - 1; W - 1; 5] [7; 9] ex_mem 0 0 100 0 1); ex_side|].
  intros r m' (c & ? & ? & _). exists c. done.
Defined.

Lemma mult_nat_witness :
  wp (mult_nat [200; Val_long 0; Val_long 4; 0; Val_long 0; Val_long 2;
                100; Val_long 0; Val_long 2])
     (λ r _, ∃ c, r = Val_long c ∧ 0 <= c <= 1) ex_mem.
Proof.
  eapply wp_conseq; [apply (mult_nat_correct [1; 0; 0; 0] [W - 1; W - 1] [7; 9] ex_mem
    200 0 0 0 100 0); ex_side|].
  intros r m' (c & ? & ? & _). exists c. done.
Defined.

Lemma square_nat_witness :
  wp (square_nat [200; Val_long 0; Val_long 4; 0; Val_long 0; Val_long 2])
     (λ r _, ∃ c, r = Val_long c ∧ 0 <= c <= 2) ex_mem.
Proof.
  eapply wp_conseq; [apply (square_nat_correct [1; 0; 0; 0] [W - 1; W - 1] ex_mem 200 0 0 0); ex_side|].
  intros r m' (c & ? & ? & _). exists c. done.
Defined.

(** (5 W^2 + W^2 - 1) / (9 W + 7), dividend and divisor both in memory. *)
Lemma div_nat_witness :
  wp (div_nat [0; Val_long 0; Val_long 3; 100; Val_long 0; Val_long 2])
     (λ r m', ∃ q, m' !! 24 = Some q ∧
        q + W * 0 = nval [W - 1; W - 1; 5] / nval [7; 9]) ex_mem.
Proof.
  eapply wp_conseq; [apply (div_nat_correct [W - 1; W - 1] 5 [7] 9 ex_mem 0 0 100 0); ex_side|].
  intros r m' (_ & rem & quo & Ha & Hr & Hq & Eq & _). destruct rem as [|r0 [|r1 [|]]]; try done.
  destruct quo as [|q [|]]; try done. exists q. split; [|exact Eq].
  apply (arr_lookup _ _ _ 2 q) in Ha as [Ha _]; [exact Ha|done].
Defined.

Lemma div_digit_nat_witness :
  wp (div_digit_nat [200; Val_long 0; 300; Val_long 1; 0; Val_long 0; Val_long 3; 300; Val_long 0])
     (λ v m', m' !! 316 = Some (nval [W - 1; W - 1; 5] mod 10)) ex_mem.
Proof.
  eapply wp_conseq; [apply (div_digit_nat_correct [1; 0] [W - 1; W - 1] 5 10 ex_mem
    200 0 300 1 0 0 300 0 0); ex_side|].
  intros v m' (_ & quo & _ & _ & _ & Hr & _). exact Hr.
Defined.

Lemma compare_nat_witness :
  compare_nat [0; Val_long 0; Val_long 4; 100; Val_long 0; Val_long 2] ex_mem
  = inr (ex_mem, Val_int 1).
Proof. apply (compare_nat_correct [W - 1; W - 1; 5; 0] [7; 9] ex_mem 0 0 100 0); ex_side. Defined.

End NatStubs.
