(* ===== verification/Freelist.v ===== *)
(** The free list of the major heap (byterun/freelist.c).

    Free blocks are linked through their first field by increasing address;
    the list starts at the sentinel [Fl_head].  [bp] is the address of a
    block's first field, the header is in the word before it.  [NULL] is 0.
    Both allocation policies are modelled; the theorems are about the next-fit
    policy (the default) and about the merging of freed blocks by the
    sweeper. *)

From S2P Require Import Prelude Mlvalues.

Module Freelist.

Definition Policy_next_fit : Z := 0.
Definition Policy_first_fit : Z := 1.
Definition FLP_MAX : Z := 1000.

Record fl : Type := Fl {
  mem : gmap Z Z;
  Fl_head : Z;
  fl_prev : Z;
  fl_last : Z;
  caml_fl_merge : Z;
  caml_fl_cur_size : Z;
  last_fragment : Z;
  flp : list Z;
  flp_size : Z;
  beyond : Z;
  policy : Z;
  caml_gc_sweep_hp : Z
}.

Definition set_mem (x : gmap Z Z) (s : fl) : fl :=
  Fl x (Fl_head s) (fl_prev s) (fl_last s) (caml_fl_merge s) (caml_fl_cur_size s)
    (last_fragment s) (flp s) (flp_size s) (beyond s) (policy s) (caml_gc_sweep_hp s).
Definition set_fl_prev (x : Z) (s : fl) : fl :=
  Fl (mem s) (Fl_head s) x (fl_last s) (caml_fl_merge s) (caml_fl_cur_size s) (last_fragment
    s) (flp s) (flp_size s) (beyond s) (policy s) (caml_gc_sweep_hp s).
Definition set_fl_last (x : Z) (s : fl) : fl :=
  Fl (mem s) (Fl_head s) (fl_prev s) x (caml_fl_merge s) (caml_fl_cur_size s) (last_fragment
    s) (flp s) (flp_size s) (beyond s) (policy s) (caml_gc_sweep_hp s).
Definition set_caml_fl_merge (x : Z) (s : fl) : fl :=
  Fl (mem s) (Fl_head s) (fl_prev s) (fl_last s) x (caml_fl_cur_size s) (last_fragment s)
    (flp s) (flp_size s) (beyond s) (policy s) (caml_gc_sweep_hp s).
Definition set_caml_fl_cur_size (x : Z) (s : fl) : fl :=
  Fl (mem s) (Fl_head s) (fl_prev s) (fl_last s) (caml_fl_merge s) x (last_fragment s) (flp
    s) (flp_size s) (beyond s) (policy s) (caml_gc_sweep_hp s).
Definition set_last_fragment (x : Z) (s : fl) : fl :=
  Fl (mem s) (Fl_head s) (fl_prev s) (fl_last s) (caml_fl_merge s) (caml_fl_cur_size s) x
    (flp s) (flp_size s) (beyond s) (policy s) (caml_gc_sweep_hp s).
Definition set_flp (x : list Z) (s : fl) : fl :=
  Fl (mem s) (Fl_head s) (fl_prev s) (fl_last s) (caml_fl_merge s) (caml_fl_cur_size s)
    (last_fragment s) x (flp_size s) (beyond s) (policy s) (caml_gc_sweep_hp s).
Definition set_flp_size (x : Z) (s : fl) : fl :=
  Fl (mem s) (Fl_head s) (fl_prev s) (fl_last s) (caml_fl_merge s) (caml_fl_cur_size s)
    (last_fragment s) (flp s) x (beyond s) (policy s) (caml_gc_sweep_hp s).
Definition set_beyond (x : Z) (s : fl) : fl :=
  Fl (mem s) (Fl_head s) (fl_prev s) (fl_last s) (caml_fl_merge s) (caml_fl_cur_size s)
    (last_fragment s) (flp s) (flp_size s) x (policy s) (caml_gc_sweep_hp s).
Definition set_policy (x : Z) (s : fl) : fl :=
  Fl (mem s) (Fl_head s) (fl_prev s) (fl_last s) (caml_fl_merge s) (caml_fl_cur_size s)
    (last_fragment s) (flp s) (flp_size s) (beyond s) x (caml_gc_sweep_hp s).

Abbreviation FM := (M fl fault).

Definition ld (a : Z) : FM Z :=
  λ s, match mem s !! a with Some v => inr (s, v) | None => inl (BadLoad a) end.
Definition st (a v : Z) : FM unit :=
  λ s, match mem s !! a with
       | Some _ => inr (set_mem (<[a := v]> (mem s)) s, tt)
       | None => inl (BadStore a) end.

Definition Hd_bp (bp : Z) : Z := bp - 8.
Definition Hp_bp (bp : Z) : Z := bp - 8.
Definition Bp_hp (hp : Z) : Z := hp + 8.
Definition Next (b : Z) : FM Z := ld b.
Definition set_Next (b v : Z) : FM unit := st b v.
Definition Wosize_bp (bp : Z) : FM Z := let* hd := ld (Hd_bp bp) in mreturn (Wosize_hd hd).
Definition Whsize_bp (bp : Z) : FM Z := let* hd := ld (Hd_bp bp) in mreturn (Whsize_hd hd).

(** [caml_fl_cur_size += n], an [asize_t] *)
Definition add_cur_size (n : Z) : FM unit :=
  mmodify (λ s, set_caml_fl_cur_size (u64 (caml_fl_cur_size s + n)) s).

(** [flp[i]], [flp[i] = v] *)
Definition flp_get (i : Z) : FM Z :=
  λ s, match (if i <? 0 then None else flp s !! Z.to_nat i) with
       | Some v => inr (s, v) | None => inl (BadLoad i) end.
Definition flp_set (i v : Z) : FM unit :=
  λ s, if (0 <=? i) && (i <? Z.of_nat (length (flp s)))
       then inr (set_flp (<[Z.to_nat i := v]> (flp s)) s, tt) else inl (BadStore i).

(** [memmove] of [n] entries of an array into [flp] *)
Definition flp_move (dst : Z) (src : list Z) (from n : Z) : FM unit :=
  λ s, if (0 <=? n) && (0 <=? dst) && (0 <=? from) && (dst + n <=? Z.of_nat (length (flp s)))
          && (from + n <=? Z.of_nat (length src))
       then inr (set_flp (take (Z.to_nat dst) (flp s) ++
                          take (Z.to_nat n) (drop (Z.to_nat from) src) ++
                          drop (Z.to_nat (dst + n)) (flp s)) s, tt)
       else inl Contract.

Definition allocate_block_r (wh_sz flpi prev cur : Z) : FM Z :=
  let* h := ld (Hd_bp cur) in
  (if Wosize_hd h <? wh_sz + 1 then
     add_cur_size (- Whsize_hd h) ;;;
     let* n := Next cur in
     set_Next prev n ;;;
     let* s := mget in
     (if caml_fl_merge s =? cur then mmodify (set_caml_fl_merge prev) else mreturn tt) ;;;
     st (Hd_bp cur) (Make_header 0 0 Caml_white) ;;;
     let* s := mget in
     if policy s =? Policy_first_fit then
       let* b := (if flpi + 1 <? flp_size s
                  then let* x := flp_get (flpi + 1) in mreturn (x =? cur) else mreturn false) in
       if b then flp_set (flpi + 1) prev
       else if flpi =? flp_size s - 1 then
         mmodify (set_beyond (if prev =? Fl_head s then 0 else prev)) ;;;
         mmodify (λ s, set_flp_size (flp_size s - 1) s)
       else mreturn tt
     else mreturn tt
   else
     add_cur_size (- wh_sz) ;;;
     st (Hd_bp cur) (Make_header (Wosize_hd h - wh_sz) 0 Caml_blue)) ;;;
  let* s := mget in
  (if policy s =? Policy_next_fit then mmodify (set_fl_prev prev) else mreturn tt) ;;;
  mreturn (cur + Bosize_hd h - Bsize_wsize wh_sz).

(** ** Next fit

    The list is finite: [fuel] bounds the number of blocks visited, and any
    value above its length gives the same result. *)

(** from [fl_prev] to the end of the list; [inl] is the last block *)
Fixpoint search_to_end (fuel : nat) (wo_sz prev cur : Z) : FM (Z + Z) :=
  match fuel with
  | O => mfail OutOfFuel
  | S fuel =>
      if cur =? 0 then mreturn (inl prev)
      else
        let* sz := Wosize_bp cur in
        if wo_sz <=? sz then
          let* r := allocate_block_r (Whsize_wosize wo_sz) 0 prev cur in mreturn (inr r)
        else
          let* next := Next cur in
          search_to_end fuel wo_sz cur next
  end.

(** from the start of the list to [fl_prev] *)
Fixpoint search_to_prev (fuel : nat) (wo_sz prev cur : Z) : FM Z :=
  match fuel with
  | O => mfail OutOfFuel
  | S fuel =>
      let* s := mget in
      if prev =? fl_prev s then mreturn 0
      else
        let* sz := Wosize_bp cur in
        if wo_sz <=? sz then allocate_block_r (Whsize_wosize wo_sz) 0 prev cur
        else
          let* next := Next cur in
          search_to_prev fuel wo_sz cur next
  end.

Definition next_fit (fuel : nat) (wo_sz : Z) : FM Z :=
  let* s := mget in
  let* cur := Next (fl_prev s) in
  let* r := search_to_end fuel wo_sz (fl_prev s) cur in
  match r with
  | inr r => mreturn r
  | inl last =>
      mmodify (set_fl_last last) ;;;
      let* cur := Next (Fl_head s) in
      search_to_prev fuel wo_sz (Fl_head s) cur
  end.

(** ** First fit *)

(** the search in the [flp] array: the index found *)
Fixpoint search_flp (n : nat) (i wo_sz : Z) : FM (option (Z * Z)) :=
  match n with
  | O => mreturn None
  | S n =>
      let* p := flp_get i in
      let* b := Next p in
      let* sz := Wosize_bp b in
      if wo_sz <=? sz then mreturn (Some (i, sz)) else search_flp n (i + 1) wo_sz
  end.

(** What the extension of the [flp] array ends with. *)
Inductive extended : Type :=
  | NotFound                    (* [return NULL] *)
  | Found (result i sz : Z)     (* [goto update_flp] *)
  | TableFull (cur : Z).

Fixpoint extend_flp (fuel : nat) (wo_sz prev prevsz cur : Z) : FM extended :=
  match fuel with
  | O => mfail OutOfFuel
  | S fuel =>
      let* s := mget in
      if flp_size s <? FLP_MAX then
        let* cur := Next prev in
        if cur =? 0 then
          mmodify (set_fl_last prev) ;;;
          mmodify (set_beyond (if prev =? Fl_head s then 0 else prev)) ;;;
          mreturn NotFound
        else
          let* sz := Wosize_bp cur in
          if prevsz <? sz then
            flp_set (flp_size s) prev ;;;
            mmodify (λ s, set_flp_size (flp_size s + 1) s) ;;;
            if wo_sz <=? sz then
              mmodify (set_beyond cur) ;;;
              let* s := mget in
              let i := flp_size s - 1 in
              let* r := allocate_block_r (Whsize_wosize wo_sz) (flp_size s - 1) prev cur in
              mreturn (Found r i sz)
            else extend_flp fuel wo_sz cur sz cur
          else extend_flp fuel wo_sz cur prevsz cur
      else mreturn (TableFull cur)
  end.

(** the table is full: slow first-fit search *)
Fixpoint slow_search (fuel : nat) (wo_sz prevsz prev cur : Z) : FM Z :=
  match fuel with
  | O => mfail OutOfFuel
  | S fuel =>
      if cur =? 0 then mmodify (set_fl_last prev) ;;; mreturn 0
      else
        let* sz := Wosize_bp cur in
        if negb (sz <? prevsz) && (wo_sz <=? sz) then
          let* s := mget in
          allocate_block_r (Whsize_wosize wo_sz) (flp_size s) prev cur
        else
          (if sz <? prevsz then mmodify (set_beyond cur) else mreturn tt) ;;;
          let* next := Next cur in
          slow_search fuel wo_sz prevsz cur next
  end.

(** the new entries between [flp[i]] and [flp[i+1]] *)
Fixpoint collect_flp (fuel : nat) (stop oldsz prevsz prev : Z) (buf : list Z) : FM (list Z) :=
  match fuel with
  | O => mfail OutOfFuel
  | S fuel =>
      if prev =? stop then mreturn buf
      else
        let* cur := Next prev in
        let* sz := Wosize_bp cur in
        if prevsz <? sz then
          (if Z.of_nat (length buf) <? FLP_MAX then mreturn tt else mfail Contract) ;;;
          let buf := buf ++ [prev] in
          if oldsz <=? sz then mreturn buf
          else collect_flp fuel stop oldsz sz cur buf
        else collect_flp fuel stop oldsz prevsz cur buf
  end.

(** label [update_flp]: the block at [i], of size [sz], was removed or reduced *)
Definition update_flp (fuel : nat) (i sz : Z) : FM unit :=
  let* s := mget in
  if i <? flp_size s then
    let* prevsz := (if 0 <? i
                    then let* p := flp_get (i - 1) in let* b := Next p in Wosize_bp b
                    else mreturn 0) in
    let* pi := flp_get i in
    if i =? flp_size s - 1 then
      let* b := Next pi in
      let* sz := Wosize_bp b in
      if sz <=? prevsz then
        mmodify (set_beyond b) ;;;
        mmodify (λ s, set_flp_size (flp_size s - 1) s)
      else mmodify (set_beyond 0)
    else
      let* stop := flp_get (i + 1) in
      let* buf := collect_flp fuel stop sz prevsz pi [] in
      let j := Z.of_nat (length buf) in
      let size := flp_size s in
      if size + j - 1 <=? FLP_MAX then
        (if negb (j =? 1) then flp_move (i + j) (flp s) (i + 1) (size - i - 1) else mreturn tt) ;;;
        (if 0 <? j then flp_move i buf 0 j else mreturn tt) ;;;
        mmodify (set_flp_size (size + (j - 1)))
      else
        (if i + j <? FLP_MAX then
           (if negb (j =? 1) then flp_move (i + j) (flp s) (i + 1) (FLP_MAX - i - j) else mreturn tt) ;;;
           (if 0 <? j then flp_move i buf 0 j else mreturn tt)
         else if negb (i =? FLP_MAX) then flp_move i buf 0 (FLP_MAX - i) else mreturn tt) ;;;
        mmodify (set_flp_size (FLP_MAX - 1)) ;;;
        let* p := flp_get (FLP_MAX - 1) in
        let* b := Next p in
        mmodify (set_beyond b)
  else mreturn tt.

Definition first_fit (fuel : nat) (wo_sz : Z) : FM Z :=
  let* s := mget in
  let* found := search_flp (Z.to_nat (flp_size s)) 0 wo_sz in
  match found with
  | Some (i, sz) =>
      let* p := flp_get i in
      let* b := Next p in
      let* r := allocate_block_r (Whsize_wosize wo_sz) i p b in
      update_flp fuel i sz ;;; mreturn r
  | None =>
      let* (prev, prevsz) :=
        (if flp_size s =? 0 then mreturn (Fl_head s, 0)
         else
           let* p := flp_get (flp_size s - 1) in
           let* prev := Next p in
           let* prevsz := Wosize_bp prev in
           mreturn (if negb (beyond s =? 0) then beyond s else prev, prevsz)) in
      let* e := extend_flp fuel wo_sz prev prevsz 0 in
      match e with
      | NotFound => mreturn 0
      | Found r i sz => update_flp fuel i sz ;;; mreturn r
      | TableFull cur =>
          mmodify (set_beyond cur) ;;;
          let* s := mget in
          let* prev := (if negb (beyond s =? 0) then mreturn (beyond s)
                        else flp_get (flp_size s - 1)) in
          let* p := flp_get (FLP_MAX - 1) in
          let* b := Next p in
          let* prevsz := Wosize_bp b in
          let* cur := Next prev in
          slow_search fuel wo_sz prevsz prev cur
      end
  end.

Definition caml_fl_allocate_r (fuel : nat) (wo_sz : Z) : FM Z :=
  let* s := mget in
  if policy s =? Policy_next_fit then next_fit fuel wo_sz
  else if policy s =? Policy_first_fit then first_fit fuel wo_sz
  else mreturn 0.

(** ** Merging *)

Definition caml_fl_init_merge_r : FM unit :=
  mmodify (set_last_fragment 0) ;;;
  mmodify (λ s, set_caml_fl_merge (Fl_head s) s).

(** [while (flp_size > 0 && Next (flp[flp_size - 1]) >= changed) -- flp_size;] *)
Fixpoint truncate_loop (n : nat) (changed : Z) : FM unit :=
  match n with
  | O => mreturn tt
  | S n =>
      let* s := mget in
      let* p := flp_get (flp_size s - 1) in
      let* b := Next p in
      if changed <=? b then
        mmodify (λ s, set_flp_size (flp_size s - 1) s) ;;; truncate_loop n changed
      else mreturn tt
  end.

Definition truncate_flp_r (changed : Z) : FM unit :=
  let* s := mget in
  if changed =? Fl_head s then
    mmodify (set_flp_size 0) ;;; mmodify (set_beyond 0)
  else
    truncate_loop (Z.to_nat (flp_size s)) changed ;;;
    let* s := mget in
    if changed <=? beyond s then mmodify (set_beyond 0) else mreturn tt.

Definition caml_fl_reset_r : FM unit :=
  let* s := mget in
  set_Next (Fl_head s) 0 ;;;
  (if policy s =? Policy_next_fit then mmodify (set_fl_prev (Fl_head s))
   else if policy s =? Policy_first_fit then truncate_flp_r (Fl_head s)
   else mreturn tt) ;;;
  mmodify (set_caml_fl_cur_size 0) ;;;
  caml_fl_init_merge_r.

(** If [last_fragment] and [bp] are adjacent, merge them. *)
Definition merge_fragment (bp hd : Z) : FM (Z * Z) :=
  let* s := mget in
  if last_fragment s =? Hp_bp bp then
    let* bp_whsz := Whsize_bp bp in
    if bp_whsz <=? Max_wosize then
      let hd := Make_header bp_whsz 0 Caml_white in
      let bp := last_fragment s in
      st (Hd_bp bp) hd ;;;
      add_cur_size (Whsize_wosize 0) ;;;
      mreturn (bp, hd)
    else mreturn (bp, hd)
  else mreturn (bp, hd).

(** If [bp] and [cur] are adjacent, remove [cur] from the free-list and merge
    them: the header, the end of the block and the next free block. *)
Definition merge_next (bp hd prev cur : Z) : FM (Z * Z * Z) :=
  let adj := bp + Bosize_hd hd in
  if adj =? Hp_bp cur then
    let* next_cur := Next cur in
    let* cur_whsz := Whsize_bp cur in
    if Wosize_hd hd + cur_whsz <=? Max_wosize then
      set_Next prev next_cur ;;;
      let* s := mget in
      (if (policy s =? Policy_next_fit) && (fl_prev s =? cur)
       then mmodify (set_fl_prev prev) else mreturn tt) ;;;
      let hd := Make_header (Wosize_hd hd + cur_whsz) 0 Caml_blue in
      st (Hd_bp bp) hd ;;;
      mreturn (hd, bp + Bosize_hd hd, next_cur)
    else mreturn (hd, adj, cur)
  else mreturn (hd, adj, cur).

(** If [prev] and [bp] are adjacent merge them, else insert [bp] into the
    free-list if it is big enough. *)
Definition insert_merged (bp hd prev cur : Z) : FM unit :=
  let* prev_wosz := Wosize_bp prev in
  if (prev + Bsize_wsize prev_wosz =? Hp_bp bp) && (prev_wosz + Whsize_hd hd <? Max_wosize) then
    st (Hd_bp prev) (Make_header (prev_wosz + Whsize_hd hd) 0 Caml_blue)
  else if negb (Wosize_hd hd =? 0) then
    st (Hd_bp bp) (Bluehd_hd hd) ;;;
    set_Next bp cur ;;;
    set_Next prev bp ;;;
    mmodify (set_caml_fl_merge bp)
  else
    mmodify (set_last_fragment bp) ;;;
    add_cur_size (- Whsize_wosize 0).

Definition caml_fl_merge_block_r (bp : Z) : FM Z :=
  let* hd := ld (Hd_bp bp) in
  add_cur_size (Whsize_hd hd) ;;;
  let* s := mget in
  let prev := caml_fl_merge s in
  let* cur := Next prev in
  (if policy s =? Policy_first_fit then truncate_flp_r prev else mreturn tt) ;;;
  let* (bp, hd) := merge_fragment bp hd in
  let* (hd, adj, cur) := merge_next bp hd prev cur in
  insert_merged bp hd prev cur ;;;
  mreturn adj.

(** ** Heap extension *)

Fixpoint find_place (fuel : nat) (bp prev cur : Z) : FM (Z * Z) :=
  match fuel with
  | O => mfail OutOfFuel
  | S fuel =>
      if negb (cur =? 0) && (cur <? bp) then
        let* next := Next cur in find_place fuel bp cur next
      else mreturn (prev, cur)
  end.

Definition caml_fl_add_blocks_r (fuel : nat) (bp : Z) : FM unit :=
  let* sz := Whsize_bp bp in
  add_cur_size sz ;;;
  let* s := mget in
  if fl_last s <? bp then
    set_Next (fl_last s) bp ;;;
    (if (fl_last s =? caml_fl_merge s) && (bp <? caml_gc_sweep_hp s)
     then let* l := ld (Field bp 1) in mmodify (set_caml_fl_merge l) else mreturn tt) ;;;
    (if (policy s =? Policy_first_fit) && (flp_size s <? FLP_MAX)
     then flp_set (flp_size s) (fl_last s) ;;; mmodify (λ s, set_flp_size (flp_size s + 1) s)
     else mreturn tt)
  else
    let* cur := Next (Fl_head s) in
    let* (prev, cur) := find_place fuel bp (Fl_head s) cur in
    let* l := ld (Field bp 1) in
    set_Next l cur ;;;
    set_Next prev bp ;;;
    (if (prev =? caml_fl_merge s) && (bp <? caml_gc_sweep_hp s)
     then let* l := ld (Field bp 1) in mmodify (set_caml_fl_merge l) else mreturn tt) ;;;
    (if policy s =? Policy_first_fit then truncate_flp_r bp else mreturn tt).

(** Each round but the last takes [Max_wosize + 1] of the fewer than 2^64
    words: at most 1024 rounds. *)
Fixpoint make_free_blocks_loop (fuel : nat) (p size : Z) (do_merge : bool) (color : Z) : FM unit :=
  if size <=? 0 then mreturn tt
  else match fuel with
  | O => mfail OutOfFuel
  | S fuel =>
      let sz := if Whsize_wosize Max_wosize <? size then Whsize_wosize Max_wosize else size in
      st p (Make_header (sz - 1) 0 color) ;;;
      (if do_merge then (let* _ := caml_fl_merge_block_r (Bp_hp p) in mreturn tt) else mreturn tt) ;;;
      make_free_blocks_loop fuel (p + 8 * sz) (size - sz) do_merge color
  end.

Definition caml_make_free_blocks_r (p size : Z) (do_merge : bool) (color : Z) : FM unit :=
  make_free_blocks_loop 1024 p size do_merge color.

Definition caml_set_allocation_policy_r (p : Z) : FM unit :=
  let* s := mget in
  if p =? Policy_next_fit then
    mmodify (set_fl_prev (Fl_head s)) ;;; mmodify (set_policy p)
  else if p =? Policy_first_fit then
    mmodify (set_flp_size 0) ;;; mmodify (set_beyond 0) ;;; mmodify (set_policy p)
  else mreturn tt.

(** ** The list as a sequence of blocks

    A block is the pair of its address and its size in words. *)

Definition blue (s : Z) : Z := Make_header s 0 Caml_blue.

(** The block at [b] is marked free, with [s] words; its tag is irrelevant. *)
Definition free_hd (m : gmap Z Z) (b s : Z) : Prop :=
  ∃ hd, m !! Hd_bp b = Some hd ∧ word hd ∧ Wosize_hd hd = s ∧ Is_blue_hd hd = true.

(** The blocks [l] are linked from the word at [p]; the link of the last one
    is not described. *)
Fixpoint lseg (m : gmap Z Z) (p : Z) (l : list (Z * Z)) : Prop :=
  match l with
  | [] => True
  | (b, s) :: l => m !! p = Some b ∧ free_hd m b s ∧ lseg m b l
  end.

(** The address whose link follows the blocks [l] from [p]. *)
Definition last_bp (p : Z) (l : list (Z * Z)) : Z :=
  match last l with Some (b, _) => b | None => p end.

Definition chain (m : gmap Z Z) (p : Z) (l : list (Z * Z)) : Prop :=
  lseg m p l ∧ m !! last_bp p l = Some 0.

(** The blocks are not empty, sorted by address from [lo] on, and disjoint. *)
Fixpoint sorted_from (lo : Z) (l : list (Z * Z)) : Prop :=
  match l with
  | [] => True
  | (b, s) :: l => lo <= Hd_bp b ∧ 1 <= s <= Max_wosize ∧ sorted_from (b + 8 * s) l
  end.

Fixpoint top (lo : Z) (l : list (Z * Z)) : Z :=
  match l with [] => lo | (b, s) :: l => top (b + 8 * s) l end.

Fixpoint total (l : list (Z * Z)) : Z :=
  match l with [] => 0 | (_, s) :: l => Whsize_wosize s + total l end.

(** The sentinel, with its fillers, is outside the blocks. *)
Definition sentinel_off (h : Z) (l : list (Z * Z)) : Prop :=
  ∀ b s, (b, s) ∈ l → h + 16 <= Hd_bp b ∨ b + 8 * s <= h - 16.

(** A pointer into the list: the sentinel or one of the blocks. *)
Definition points_into (h p : Z) (l : list (Z * Z)) : Prop :=
  p = h ∨ p ∈ l.*1.

(** The invariant of the next-fit free list holding the blocks [l]. *)
Record fl_inv (s : fl) (l : list (Z * Z)) : Prop := {
  inv_policy : policy s = Policy_next_fit;
  inv_head : 0 < Fl_head s;
  inv_chain : chain (mem s) (Fl_head s) l;
  inv_sorted : sorted_from 8 l;
  inv_sentinel : sentinel_off (Fl_head s) l;
  inv_sentinel_hd : mem s !! Hd_bp (Fl_head s) = Some (blue 0);
  inv_size : caml_fl_cur_size s = total l;
  inv_bound : total l < W;
  inv_prev : points_into (Fl_head s) (fl_prev s) l;
  inv_merge : points_into (Fl_head s) (caml_fl_merge s) l
}.

Lemma last_bp_app p l1 l2 : last_bp p (l1 ++ l2) = last_bp (last_bp p l1) l2.
Proof.
  unfold last_bp. rewrite last_app. destruct (last l2) as [[b s]|]; [done|].
  by destruct (last l1) as [[b s]|].
Qed.

Lemma last_bp_cons p b s l : last_bp p ((b, s) :: l) = last_bp b l.
Proof. unfold last_bp. rewrite last_cons. by destruct (last l) as [[]|]. Qed.

Lemma lseg_app m p l1 l2 : lseg m p (l1 ++ l2) ↔ lseg m p l1 ∧ lseg m (last_bp p l1) l2.
Proof.
  revert p. induction l1 as [|[b s] l1 IH]; intros p; cbn [app lseg]; [tauto|].
  rewrite last_bp_cons, IH. tauto.
Qed.

Lemma chain_app m p l1 l2 : chain m p (l1 ++ l2) ↔ lseg m p l1 ∧ chain m (last_bp p l1) l2.
Proof. unfold chain. rewrite lseg_app, last_bp_app. tauto. Qed.

Lemma chain_cons m p b s l :
  chain m p ((b, s) :: l) ↔ m !! p = Some b ∧ free_hd m b s ∧ chain m b l.
Proof. unfold chain. cbn [lseg]. rewrite last_bp_cons. tauto. Qed.

Lemma free_hd_ext m m' b s : m' !! Hd_bp b = m !! Hd_bp b → free_hd m b s → free_hd m' b s.
Proof. intros E (hd & H1 & H2). exists hd. by rewrite E. Qed.

Lemma free_hd_insert m b s a v : a ≠ Hd_bp b → free_hd m b s → free_hd (<[a := v]> m) b s.
Proof. intros Ha. apply free_hd_ext. by apply lookup_insert_ne. Qed.

(** The words that hold the links and headers. *)
Definition cell (p : Z) (l : list (Z * Z)) (a : Z) : Prop :=
  a = p ∨ ∃ b s, (b, s) ∈ l ∧ (a = b ∨ a = Hd_bp b).

Lemma lseg_ext m m' p l :
  (∀ a, cell p l a → m' !! a = m !! a) → lseg m p l → lseg m' p l.
Proof.
  revert p. induction l as [|[b s] l IH]; intros p Ha Hl; [done|]. destruct Hl as (H1 & H2 & H3).
  cbn [lseg]. split_and!.
  - rewrite Ha; [done|by left].
  - eapply free_hd_ext; [|exact H2]. apply Ha. right. exists b, s. split; [by left|by right].
  - apply IH; [|done]. intros a [->|(b' & s' & Hin & Hc)]; apply Ha; right.
    + exists b, s. split; [by left|by left].
    + exists b', s'. split; [by right|done].
Qed.

Lemma last_bp_cell p l : cell p l (last_bp p l).
Proof.
  unfold last_bp. destruct (last l) as [[b s]|] eqn:E; [|by left].
  right. exists b, s. split; [|by left]. apply last_Some in E as [l' ->].
  apply elem_of_app. right. by left.
Qed.

Lemma chain_ext m m' p l :
  (∀ a, cell p l a → m' !! a = m !! a) → chain m p l → chain m' p l.
Proof.
  intros Ha [Hl H0]. split; [by eapply lseg_ext|]. rewrite Ha; [done|apply last_bp_cell].
Qed.

Lemma sorted_app lo l1 l2 :
  sorted_from lo (l1 ++ l2) ↔ sorted_from lo l1 ∧ sorted_from (top lo l1) l2.
Proof.
  revert lo. induction l1 as [|[b s] l1 IH]; intros lo; cbn [app sorted_from top]; [tauto|].
  rewrite IH. tauto.
Qed.

Lemma top_app lo l1 l2 : top lo (l1 ++ l2) = top (top lo l1) l2.
Proof. revert lo. induction l1 as [|[b s] l1 IH]; intros lo; cbn; [done|apply IH]. Qed.

Lemma sorted_top lo l : sorted_from lo l → lo <= top lo l.
Proof.
  revert lo. induction l as [|[b s] l IH]; intros lo H; cbn in *; [lia|].
  destruct H as (H1 & H2 & H3). specialize (IH _ H3). unfold Hd_bp in *. lia.
Qed.

Lemma sorted_elem lo l b s :
  sorted_from lo l → (b, s) ∈ l → lo <= Hd_bp b ∧ 1 <= s <= Max_wosize ∧ b + 8 * s <= top lo l.
Proof.
  revert lo. induction l as [|[b' s'] l IH]; intros lo Hs Hin; [by apply not_elem_of_nil in Hin|].
  destruct Hs as (H1 & H2 & H3). cbn [top]. apply elem_of_cons in Hin as [Heq|Hin].
  - simplify_eq. pose proof (sorted_top _ _ H3). lia.
  - destruct (IH _ H3 Hin) as (H4 & H5 & H6). unfold Hd_bp in *. lia.
Qed.

Lemma sorted_weaken lo lo' l : lo' <= lo → sorted_from lo l → sorted_from lo' l.
Proof. destruct l as [|[b s] l]; [done|]. cbn. intros ? (? & ? & ?). split_and!; (done || lia). Qed.

Lemma total_app l1 l2 : total (l1 ++ l2) = total l1 + total l2.
Proof. induction l1 as [|[b s] l1 IH]; cbn; [done|]. rewrite IH. lia. Qed.

Lemma total_nonneg lo l : sorted_from lo l → 0 <= total l.
Proof.
  revert lo. induction l as [|[b s] l IH]; intros lo Hs; cbn; [done|].
  destruct Hs as (_ & H2 & H3). specialize (IH _ H3). unfold Whsize_wosize. lia.
Qed.

Lemma sentinel_app h l1 l2 : sentinel_off h (l1 ++ l2) ↔ sentinel_off h l1 ∧ sentinel_off h l2.
Proof.
  unfold sentinel_off. split.
  - intros H. split; intros b s Hin; apply H; apply elem_of_app; auto.
  - intros [H1 H2] b s [Hin|Hin]%elem_of_app; auto.
Qed.

Lemma sentinel_cons h b s l :
  sentinel_off h ((b, s) :: l) ↔ (h + 16 <= Hd_bp b ∨ b + 8 * s <= h - 16) ∧ sentinel_off h l.
Proof.
  unfold sentinel_off. split.
  - intros H. split; [apply H; by left|]. intros b' s' Hin. apply H. by right.
  - intros [H1 H2] b' s' [Heq|Hin]%elem_of_cons; [by simplify_eq|auto].
Qed.

(** ** Updating links *)

(** [p] is outside the blocks of [l]. *)
Definition off (p : Z) (l : list (Z * Z)) : Prop :=
  ∀ b s, (b, s) ∈ l → p + 8 <= Hd_bp b ∨ b + 8 * s <= p.

(** [a] is neither a link nor a header of [l]. *)
Definition no_cell (a : Z) (l : list (Z * Z)) : Prop :=
  ∀ b s, (b, s) ∈ l → a ≠ b ∧ a ≠ Hd_bp b.

Lemma off_cons p b s l : off p ((b, s) :: l) ↔ (p + 8 <= Hd_bp b ∨ b + 8 * s <= p) ∧ off p l.
Proof.
  unfold off. split.
  - intros H. split; [apply H; by left|]. intros b' s' Hin. apply H. by right.
  - intros [H1 H2] b' s' [Heq|Hin]%elem_of_cons; [by simplify_eq|auto].
Qed.

Lemma off_next lo b s l : sorted_from lo ((b, s) :: l) → off b l.
Proof.
  intros (_ & H2 & H3) b' s' Hin. destruct (sorted_elem _ _ _ _ H3 Hin) as (H4 & _). left. lia.
Qed.

Lemma off_no_cell lo p l : sorted_from lo l → off p l → no_cell p l.
Proof.
  intros Hs Ho b s Hin. destruct (sorted_elem _ _ _ _ Hs Hin) as (_ & H2 & _).
  specialize (Ho b s Hin). unfold Hd_bp in *. lia.
Qed.

Lemma last_bp_in p l : last_bp p l = p ∨ ∃ s, (last_bp p l, s) ∈ l.
Proof.
  unfold last_bp. destruct (last l) as [[b s]|] eqn:E; [|by left]. right. exists s.
  apply last_Some in E as [l' ->]. apply elem_of_app. right. by left.
Qed.

Lemma lseg_insert_last lo m p l v :
  sorted_from lo l → off p l → lseg m p l → lseg (<[last_bp p l := v]> m) p l.
Proof.
  revert lo p. induction l as [|[b s] l IH]; intros lo p Hs Ho Hl; [done|].
  destruct Hl as (H1 & H2 & H3). pose proof (off_next _ _ _ _ Hs) as Hob.
  apply off_cons in Ho as [Hb Ho]. destruct Hs as (Hlo & Hsz & Hs). rewrite last_bp_cons.
  assert (last_bp b l ≠ p ∧ last_bp b l ≠ Hd_bp b) as [N1 N2].
  { destruct (last_bp_in b l) as [->|[s' Hin]]; [unfold Hd_bp in *; lia|].
    destruct (sorted_elem _ _ _ _ Hs Hin) as (H4 & H5 & _). specialize (Ho _ _ Hin). unfold Hd_bp in *. lia. }
  cbn [lseg]. rewrite lookup_insert_ne by done. split_and!; [done|by apply free_hd_insert|]. by eapply IH.
Qed.

Lemma lseg_insert m p l a v : a ≠ p → no_cell a l → lseg m p l → lseg (<[a := v]> m) p l.
Proof.
  intros Hp Hn. apply lseg_ext. intros x [->|(b & s & Hin & Hx)]; apply lookup_insert_ne; [done|].
  destruct (Hn b s Hin). destruct Hx as [->| ->]; done.
Qed.

Lemma chain_insert m p l a v : a ≠ p → no_cell a l → chain m p l → chain (<[a := v]> m) p l.
Proof.
  intros Hp Hn. apply chain_ext. intros x [->|(b & s & Hin & Hx)]; apply lookup_insert_ne; [done|].
  destruct (Hn b s Hin). destruct Hx as [->| ->]; done.
Qed.

(** Make [p] link to what [q] links to. *)
Lemma chain_relink m p q l n :
  chain m q l → m !! q = Some n → no_cell p l → chain (<[p := n]> m) p l.
Proof.
  intros Hc Hq Hn. destruct l as [|[b s] l].
  - destruct Hc as [_ H0]. cbn in H0. rewrite Hq in H0. simplify_eq. split; [done|].
    apply lookup_insert_eq.
  - apply chain_cons in Hc as (H1 & H2 & H3). rewrite Hq in H1. simplify_eq.
    destruct (Hn b s ltac:(by left)). apply chain_cons.
    rewrite lookup_insert_eq. split_and!; [done|by apply free_hd_insert|].
    apply chain_insert; [done| |done]. intros b' s' Hin. apply (Hn b' s'). by right.
Qed.

(** ** The surroundings of a block of the list *)

Section Around.
Context (s : fl) (p1 : list (Z * Z)) (b sz : Z) (p2 : list (Z * Z)).
Hypothesis Hinv : fl_inv s (p1 ++ (b, sz) :: p2).

Lemma around_sizes : top 8 p1 <= Hd_bp b ∧ 1 <= sz <= Max_wosize ∧ sorted_from 8 p1 ∧
  sorted_from (b + 8 * sz) p2.
Proof.
  pose proof (inv_sorted _ _ Hinv) as Hs. apply sorted_app in Hs as [H1 (H2 & H3 & H4)]. done.
Qed.

Lemma around_before b' s' : (b', s') ∈ p1 → b' + 8 * s' <= Hd_bp b ∧ 1 <= s'.
Proof.
  intros Hin. destruct around_sizes as (H1 & _ & H2 & _).
  destruct (sorted_elem _ _ _ _ H2 Hin) as (_ & H4 & H5). lia.
Qed.

Lemma around_after b' s' : (b', s') ∈ p2 → b + 8 * sz <= Hd_bp b' ∧ 1 <= s'.
Proof.
  intros Hin. destruct around_sizes as (_ & _ & _ & H2).
  destruct (sorted_elem _ _ _ _ H2 Hin) as (H4 & H5 & _). lia.
Qed.

Lemma around_sentinel : Fl_head s + 16 <= Hd_bp b ∨ b + 8 * sz <= Fl_head s - 16.
Proof. apply (inv_sentinel _ _ Hinv). apply elem_of_app. right. by left. Qed.

Lemma around_prev :
  let p := last_bp (Fl_head s) p1 in
  p ≠ b ∧ p ≠ Hd_bp b ∧ no_cell p p2 ∧ no_cell (Hd_bp b) p1 ∧ no_cell (Hd_bp b) p2 ∧
  no_cell b p1 ∧ no_cell b p2 ∧ b ≠ Fl_head s ∧ Hd_bp b ≠ Fl_head s ∧
  off (Fl_head s) p1 ∧ Hd_bp (Fl_head s) ≠ p ∧ Hd_bp (Fl_head s) ≠ b ∧ Hd_bp b ≠ Hd_bp (Fl_head s).
Proof.
  intros p. destruct around_sizes as (H1 & H2 & H3 & H4). pose proof around_sentinel as Hse.
  pose proof (inv_sentinel _ _ Hinv) as Hall. apply sentinel_app in Hall as [Hs1 Hs2].
  apply sentinel_cons in Hs2 as [_ Hs2].
  assert (p ≠ b ∧ p ≠ Hd_bp b ∧ no_cell p p2 ∧ Hd_bp (Fl_head s) ≠ p) as (Ha & Hb & Hc & Hd).
  { destruct (last_bp_in (Fl_head s) p1) as [E|[s' Hin]]; [fold p in E|fold p in Hin].
    - rewrite E. unfold Hd_bp in *. split_and!; [lia|lia| |lia].
      intros b' s' Hin. specialize (Hs2 b' s' Hin). destruct (around_after _ _ Hin). unfold Hd_bp in *. lia.
    - destruct (around_before _ _ Hin) as [H5 H6]. specialize (Hs1 _ _ Hin).
      split_and!; [unfold Hd_bp in *; lia..| |unfold Hd_bp in *; lia].
      intros b' s'' Hin'. destruct (around_after _ _ Hin'). unfold Hd_bp in *. lia. }
  assert (off (Fl_head s) p1) as Ho.
  { intros b' s' Hin. specialize (Hs1 _ _ Hin). unfold Hd_bp in *. lia. }
  unfold Hd_bp in *. split_and!; try done; try lia;
    intros b' s' Hin; try (destruct (around_before _ _ Hin)); try (destruct (around_after _ _ Hin));
    unfold Hd_bp in *; lia.
Qed.
End Around.

(** ** Allocation from a block *)

Lemma blue_free z m b : 0 <= z <= Max_wosize → free_hd (<[Hd_bp b := blue z]> m) b z.
Proof.
  intros Hz. destruct (header_fields z 0 Caml_blue) as (H1 & H2 & _ & H3);
    [done|lia|unfold wf_color; tauto|].
  exists (blue z). rewrite lookup_insert_eq. unfold Is_blue_hd, blue. rewrite H3. done.
Qed.

Section Run.
Context {A : Type}.
Lemma f_ld a v (Q : Z → fl → Prop) s : mem s !! a = Some v → Q v s → wp (ld a) Q s.
Proof. intros Hl. unfold wp, ld. by rewrite Hl. Qed.
Lemma f_st a v (Q : unit → fl → Prop) s :
  is_Some (mem s !! a) → Q tt (set_mem (<[a := v]> (mem s)) s) → wp (st a v) Q s.
Proof. intros [w Hw]. unfold wp, st. by rewrite Hw. Qed.
Lemma f_modify g (Q : unit → fl → Prop) s : Q tt (g s) → wp (mmodify (E := fault) g) Q s.
Proof. done. Qed.
Lemma f_get (Q : fl → fl → Prop) s : Q s s → wp (mget (E := fault)) Q s.
Proof. done. Qed.
Lemma f_if (b : bool) (f g : FM A) Q s :
  (b = true → wp f Q s) → (b = false → wp g Q s) → wp (if b then f else g) Q s.
Proof. destruct b; auto. Qed.
Lemma f_wosize a z (Q : Z → fl → Prop) s :
  free_hd (mem s) a z → Q z s → wp (Wosize_bp a) Q s.
Proof.
  intros (hd & Hl & _ & Hz & _) HQ. unfold Wosize_bp. apply wp_bind. eapply f_ld; [exact Hl|].
  apply wp_ret. by rewrite Hz.
Qed.
End Run.

(** What remains of a block of [sz] words after [wo] words and a header are
    taken from its end. *)
Definition leftover (b sz wo : Z) : list (Z * Z) :=
  if sz <? wo + 2 then [] else [(b, sz - (wo + 1))].

Lemma chain_some m p l : chain m p l → is_Some (m !! p).
Proof.
  destruct l as [|[b s] l]; [intros [_ H0]; by eexists|]. intros Hc. apply chain_cons in Hc as (H0 & _).
  by eexists.
Qed.

Lemma allocate_block_run p1 b sz p2 wo s :
  fl_inv s (p1 ++ (b, sz) :: p2) → 1 <= wo <= sz →
  let prev := last_bp (Fl_head s) p1 in
  wp (allocate_block_r (Whsize_wosize wo) 0 prev b) (λ r s',
    r = b + 8 * sz - 8 * (wo + 1) ∧
    Fl_head s' = Fl_head s ∧ policy s' = policy s ∧ fl_prev s' = prev ∧
    if sz <? wo + 2 then
      (∃ n, mem s !! b = Some n ∧
        mem s' = <[Hd_bp b := Make_header 0 0 Caml_white]> (<[prev := n]> (mem s))) ∧
      caml_fl_merge s' = (if caml_fl_merge s =? b then prev else caml_fl_merge s) ∧
      caml_fl_cur_size s' = u64 (caml_fl_cur_size s + - (sz + 1))
    else
      mem s' = <[Hd_bp b := blue (sz - (wo + 1))]> (mem s) ∧
      caml_fl_merge s' = caml_fl_merge s ∧
      caml_fl_cur_size s' = u64 (caml_fl_cur_size s + - (wo + 1))) s.
Proof.
  intros Hinv Hwo prev. pose proof (inv_chain _ _ Hinv) as Hc. apply chain_app in Hc as [Hl Hc].
  fold prev in Hc. apply chain_cons in Hc as (Hprev & Hhd & Hc).
  destruct (around_sizes _ _ _ _ _ Hinv) as (_ & Hsz & _).
  destruct Hhd as (hd & Hhd & _ & Ewo & _). destruct (chain_some _ _ _ Hc) as [n Hn].
  pose proof (inv_policy _ _ Hinv) as Hpol.
  unfold allocate_block_r. apply wp_bind. eapply f_ld; [exact Hhd|].
  unfold Bosize_hd, Bsize_wsize, Whsize_hd. rewrite Ewo.
  unfold Whsize_wosize. replace (wo + 1 + 1) with (wo + 2) by lia. apply wp_bind.
  destruct (Z.ltb_spec sz (wo + 2)) as [Hlt|Hge].
  - apply wp_bind, f_modify, wp_bind. eapply f_ld; [exact Hn|].
    apply wp_bind, f_st; [by eexists|]. apply wp_bind, f_get. cbn [caml_fl_merge set_mem set_caml_fl_cur_size].
    apply wp_bind. apply wp_conseq with (P := λ _ s1, s1 =
      set_caml_fl_merge (if caml_fl_merge s =? b then prev else caml_fl_merge s)
        (set_mem (<[prev := n]> (mem s)) (set_caml_fl_cur_size (u64 (caml_fl_cur_size s + - (sz + 1))) s))).
    { apply f_if; intros ->; [by apply f_modify|by apply wp_ret]. }
    intros [] s1 ->. apply wp_bind, f_st.
    { cbn. rewrite lookup_insert_is_Some'. right. by eexists. }
    apply wp_bind, f_get. cbn [policy set_mem set_caml_fl_merge set_caml_fl_cur_size].
    rewrite Hpol. apply wp_ret. apply wp_bind, f_get. cbn [policy set_mem set_caml_fl_merge set_caml_fl_cur_size].
    rewrite Hpol. apply wp_bind, f_modify, wp_ret. cbn. split_and!; try done; [lia|]. eauto.
  - apply wp_bind, f_modify, f_st; [by eexists|].
    apply wp_bind, f_get. cbn [policy set_mem set_caml_fl_merge set_caml_fl_cur_size].
    rewrite Hpol. apply wp_bind, f_modify, wp_ret. cbn. split_and!; try done; lia.
Qed.

Lemma leftover_sorted b sz wo lo l :
  1 <= wo <= sz → sz <= Max_wosize → lo <= Hd_bp b → sorted_from (b + 8 * sz) l →
  sorted_from lo (leftover b sz wo ++ l).
Proof.
  intros Hwo Hmax Hlo Hs. unfold leftover. unfold Hd_bp in *.
  destruct (Z.ltb_spec sz (wo + 2)); cbn [app sorted_from]; unfold Hd_bp.
  - eapply sorted_weaken; [|exact Hs]. lia.
  - split_and!; try lia. eapply sorted_weaken; [|exact Hs]. lia.
Qed.

Lemma leftover_in b sz wo b' s' : 1 <= wo <= sz → (b', s') ∈ leftover b sz wo →
  b' = b ∧ s' = sz - (wo + 1) ∧ 1 <= s'.
Proof.
  unfold leftover. intros Hwo Hin. destruct (Z.ltb_spec sz (wo + 2)).
  - by apply not_elem_of_nil in Hin.
  - apply list_elem_of_singleton in Hin. simplify_eq. lia.
Qed.

Lemma points_into_remove h p l1 b sz l2 :
  points_into h p (l1 ++ (b, sz) :: l2) → p ≠ b → points_into h p (l1 ++ l2).
Proof.
  unfold points_into. rewrite !fmap_app. cbn. intros [->|Hin] Hne; [by left|]. right.
  apply elem_of_app in Hin as [Hin|Hin]; apply elem_of_app; [by left|].
  apply elem_of_cons in Hin as [->|Hin]; [done|by right].
Qed.

Lemma points_into_resize h p l1 b sz sz' l2 :
  points_into h p (l1 ++ (b, sz) :: l2) → points_into h p (l1 ++ (b, sz') :: l2).
Proof. unfold points_into. by rewrite !fmap_app. Qed.

Lemma points_into_last h l1 l2 : points_into h (last_bp h l1) (l1 ++ l2).
Proof.
  destruct (last_bp_in h l1) as [->|[s Hin]]; [by left|]. right. rewrite fmap_app. apply elem_of_app. left.
  apply (list_elem_of_fmap_2 fst) in Hin. exact Hin.
Qed.

Lemma allocate_block_spec p1 b sz p2 wo s :
  fl_inv s (p1 ++ (b, sz) :: p2) → 1 <= wo <= sz →
  let prev := last_bp (Fl_head s) p1 in
  wp (allocate_block_r (Whsize_wosize wo) 0 prev b) (λ r s',
    r = b + 8 * sz - 8 * (wo + 1) ∧
    fl_inv s' (p1 ++ leftover b sz wo ++ p2) ∧ fl_prev s' = prev ∧ Fl_head s' = Fl_head s ∧
    ∀ a, a ≠ prev → a ≠ Hd_bp b → mem s' !! a = mem s !! a) s.
Proof.
  intros Hinv Hwo prev. eapply wp_conseq; [exact (allocate_block_run p1 b sz p2 wo s Hinv Hwo)|].
  intros r s' (-> & Eh & Ep & Efp & Hcase).
  destruct (around_sizes _ _ _ _ _ Hinv) as (Htop & Hsz & Hs1 & Hs2).
  destruct (around_prev _ _ _ _ _ Hinv) as (N1 & N2 & N3 & N4 & N5 & N6 & N7 & N8 & N9 & Hoff & N10 & N11 & N12).
  fold prev in N1, N2, N3, N10. pose proof Hinv as [I1 I2 I3 I4 I5 I6 I7 I8 I9 I10].
  apply chain_app in I3 as [Hl Hc]. fold prev in Hc. apply chain_cons in Hc as (Hprev & Hhd & Hc).
  pose proof (total_nonneg _ _ Hs1) as T1. pose proof (total_nonneg _ _ Hs2) as T2.
  rewrite total_app in I7, I8. cbn [total] in I7, I8. unfold Whsize_wosize in I7, I8.
  apply sentinel_app in I5 as [S1 S2]. apply sentinel_cons in S2 as [S2 S3].
  assert (sentinel_off (Fl_head s) (p1 ++ leftover b sz wo ++ p2)) as Hsent.
  { apply sentinel_app. split; [done|]. apply sentinel_app. split; [|done].
    intros b' s'' Hin. apply leftover_in in Hin as (-> & -> & _); [|done]. lia. }
  assert (sorted_from 8 (p1 ++ leftover b sz wo ++ p2)) as Hsort.
  { apply sorted_app. split; [done|]. apply leftover_sorted; (done || lia). }
  unfold leftover in *. destruct (Z.ltb_spec sz (wo + 2)) as [Hlt|Hge]; cbn [app] in *.
  - destruct Hcase as ((n & Hn & Em) & Eg & Es). split_and!; try done.
    2:{ intros a Ha1 Ha2. rewrite Em, !lookup_insert_ne by done. done. }
    split; rewrite ?Eh, ?Ep, ?Efp, ?Eg, ?Es, ?Em; try done.
    + apply chain_app. fold prev. split.
      * apply lseg_insert; [done..|]. by eapply lseg_insert_last.
      * apply chain_insert; [done..|]. by eapply chain_relink.
    + rewrite !lookup_insert_ne by done. done.
    + rewrite I7, total_app. rewrite u64_small by (unfold word; lia). lia.
    + rewrite total_app. lia.
    + apply points_into_last.
    + destruct (Z.eqb_spec (caml_fl_merge s) b); [apply points_into_last|]. by eapply points_into_remove.
  - destruct Hcase as (Em & Eg & Es). split_and!; try done.
    2:{ intros a Ha1 Ha2. rewrite Em, lookup_insert_ne by done. done. }
    split; rewrite ?Eh, ?Ep, ?Efp, ?Eg, ?Es, ?Em; try done.
    + apply chain_app. fold prev. split; [by apply lseg_insert|].
      apply chain_cons. rewrite lookup_insert_ne by done. split_and!; [done|apply blue_free; lia|].
      apply chain_insert; [unfold Hd_bp; lia|done|done].
    + rewrite lookup_insert_ne by done. done.
    + rewrite I7, total_app. cbn [total]. unfold Whsize_wosize.
      rewrite u64_small by (unfold word; lia). lia.
    + rewrite total_app. cbn [total]. unfold Whsize_wosize. lia.
    + apply points_into_last.
    + by eapply points_into_resize.
Qed.

(** ** Next fit *)

(** The first block of [l], [NULL] if there is none. *)
Definition first_bp (l : list (Z * Z)) : Z := match l with [] => 0 | (b, _) :: _ => b end.

Lemma chain_first m p l : chain m p l → m !! p = Some (first_bp l).
Proof.
  destruct l as [|[b s] l]; [by intros [_ H0]|]. intros Hc. by apply chain_cons in Hc as (H0 & _).
Qed.

(** [hp] is the head pointer of a block of [wo] words cut from the end of a
    block of the list, and the list has changed accordingly. *)
Definition allocated (s s' : fl) (l : list (Z * Z)) (wo hp : Z) : Prop :=
  ∃ q1 b sz q2, l = q1 ++ (b, sz) :: q2 ∧ wo <= sz ∧ hp = b + 8 * sz - 8 * (wo + 1) ∧
    fl_inv s' (q1 ++ leftover b sz wo ++ q2) ∧
    ∀ a, a ≠ last_bp (Fl_head s) q1 → a ≠ Hd_bp b → mem s' !! a = mem s !! a.

Lemma inv_block s p1 b sz p2 :
  fl_inv s (p1 ++ (b, sz) :: p2) →
  b ≠ 0 ∧ free_hd (mem s) b sz ∧ 1 <= sz <= Max_wosize ∧
  mem s !! b = Some (first_bp p2).
Proof.
  intros Hinv. destruct (around_sizes _ _ _ _ _ Hinv) as (H1 & H2 & H3 & _).
  pose proof (sorted_top _ _ H3). unfold Hd_bp in H1. split; [lia|].
  pose proof (inv_chain _ _ Hinv) as Hc. apply chain_app in Hc as [_ Hc].
  apply chain_cons in Hc as (_ & Hhd & Hc). by apply chain_first in Hc.
Qed.

Lemma search_to_end_spec fuel wo s l2 p1 :
  fl_inv s (p1 ++ l2) → 1 <= wo → (length l2 < fuel)%nat →
  wp (search_to_end fuel wo (last_bp (Fl_head s) p1) (first_bp l2)) (λ r s',
    match r with
    | inl last => s' = s ∧ last = last_bp (Fl_head s) (p1 ++ l2) ∧ Forall (λ x, x.2 < wo) l2
    | inr hp => allocated s s' (p1 ++ l2) wo hp
    end) s.
Proof.
  revert fuel p1. induction l2 as [|[b sz] l2 IH]; intros fuel p1 Hinv Hwo Hf;
    (destruct fuel as [|fuel]; [cbn in Hf; lia|]); cbn [search_to_end first_bp].
  { apply wp_ret. rewrite app_nil_r. done. }
  destruct (inv_block _ _ _ _ _ Hinv) as (Hb & Hhd & Hsz & Hn).
  rewrite (proj2 (Z.eqb_neq _ _) Hb). apply wp_bind. eapply f_wosize; [exact Hhd|].
  destruct (Z.leb_spec wo sz) as [Hle|Hgt].
  - apply wp_bind. eapply wp_conseq; [apply (allocate_block_spec p1 b sz l2 wo s Hinv); lia|].
    intros r s' (-> & Hinv' & _ & _ & Hfr). apply wp_ret. exists p1, b, sz, l2. done.
  - apply wp_bind. eapply f_ld; [exact Hn|].
    assert (fl_inv s ((p1 ++ [(b, sz)]) ++ l2)) as Hinv2 by (by rewrite <- app_assoc).
    specialize (IH fuel (p1 ++ [(b, sz)]) Hinv2 Hwo ltac:(cbn in Hf; lia)).
    rewrite last_bp_app in IH. eapply wp_conseq; [exact IH|]. intros [last|hp] s'.
    + rewrite <- app_assoc. intros (-> & -> & HF). split_and!; [done..|]. by constructor.
    + by rewrite <- app_assoc.
Qed.

(** Distinct positions have distinct addresses. *)
Lemma last_bp_ne s q1 b sz r l2 :
  fl_inv s (q1 ++ (b, sz) :: r ++ l2) →
  last_bp (Fl_head s) q1 ≠ last_bp (Fl_head s) (q1 ++ (b, sz) :: r).
Proof.
  intros Hinv. rewrite last_bp_app, last_bp_cons.
  destruct (around_prev _ _ _ _ _ Hinv) as (N1 & _ & N3 & _).
  destruct (last_bp_in b r) as [->|[s' Hin]]; [done|]. intros E.
  destruct (N3 (last_bp b r) s') as [H1 _]; [apply elem_of_app; by left|]. by rewrite E in H1.
Qed.

Lemma search_to_prev_spec fuel wo s r q1 l2 :
  fl_inv s (q1 ++ r ++ l2) → fl_prev s = last_bp (Fl_head s) (q1 ++ r) →
  1 <= wo → (length r < fuel)%nat →
  wp (search_to_prev fuel wo (last_bp (Fl_head s) q1) (first_bp (r ++ l2))) (λ hp s',
    (hp = 0 ∧ s' = s ∧ Forall (λ x, x.2 < wo) r) ∨
    (hp ≠ 0 ∧ allocated s s' (q1 ++ r ++ l2) wo hp)) s.
Proof.
  revert fuel q1. induction r as [|[b sz] r IH]; intros fuel q1 Hinv Hprev Hwo Hf;
    (destruct fuel as [|fuel]; [cbn in Hf; lia|]); cbn [search_to_prev]; apply wp_bind, f_get.
  { rewrite app_nil_r in Hprev. rewrite Hprev, Z.eqb_refl. apply wp_ret. by left. }
  cbn [app] in Hinv |- *. pose proof (last_bp_ne _ _ _ _ _ _ Hinv) as Hne. rewrite <- Hprev in Hne.
  rewrite (proj2 (Z.eqb_neq _ _) Hne). destruct (inv_block _ _ _ _ _ Hinv) as (Hb & Hhd & Hsz & Hn).
  cbn [first_bp app]. apply wp_bind. eapply f_wosize; [exact Hhd|].
  destruct (Z.leb_spec wo sz) as [Hle|Hgt].
  - eapply wp_conseq; [apply (allocate_block_spec q1 b sz (r ++ l2) wo s Hinv); lia|].
    intros hp s' (-> & Hinv' & _ & _ & Hfr). right. split.
    + destruct (around_sizes _ _ _ _ _ Hinv) as (H1 & _ & H3 & _). pose proof (sorted_top _ _ H3).
      unfold Hd_bp in H1. lia.
    + exists q1, b, sz, (r ++ l2). done.
  - apply wp_bind. eapply f_ld; [exact Hn|].
    assert (fl_inv s ((q1 ++ [(b, sz)]) ++ r ++ l2)) as Hinv2 by (by rewrite <- app_assoc).
    specialize (IH fuel (q1 ++ [(b, sz)]) Hinv2 ltac:(by rewrite <- app_assoc) Hwo ltac:(cbn in Hf; lia)).
    rewrite last_bp_app in IH. eapply wp_conseq; [exact IH|]. rewrite <- app_assoc.
    intros hp s' [(-> & -> & HF)|Hal]; [left|by right]. split_and!; [done..|]. by constructor.
Qed.

Lemma set_fl_last_inv x s l : fl_inv s l → fl_inv (set_fl_last x s) l.
Proof. intros []. by split. Qed.

Lemma points_split h p l : points_into h p l → ∃ l1 l2, l = l1 ++ l2 ∧ p = last_bp h l1.
Proof.
  intros [->|Hin]; [exists [], l; done|]. apply list_elem_of_fmap in Hin as ([b s] & -> & Hin).
  apply list_elem_of_split in Hin as (l1 & l2 & ->). exists (l1 ++ [(b, s)]), l2.
  rewrite <- app_assoc. split; [done|]. by rewrite last_bp_app.
Qed.

(** An allocated block does not overlap the blocks left in the list. *)
Lemma allocated_disjoint s q1 b sz q2 wo b' s' :
  fl_inv s (q1 ++ (b, sz) :: q2) → 1 <= wo <= sz → (b', s') ∈ q1 ++ leftover b sz wo ++ q2 →
  let hp := b + 8 * sz - 8 * (wo + 1) in
  b' + 8 * s' <= hp ∨ hp + 8 * (wo + 1) <= Hd_bp b'.
Proof.
  intros Hinv Hle. rewrite !elem_of_app. intros [Hin|[Hin|Hin]] hp.
  - destruct (around_before _ _ _ _ _ Hinv _ _ Hin) as [H1 _]. unfold hp, Hd_bp in *. left. lia.
  - apply leftover_in in Hin as (-> & -> & _); [|lia]. left. unfold hp. lia.
  - destruct (around_after _ _ _ _ _ Hinv _ _ Hin) as [H1 _]. right. unfold hp. lia.
Qed.

Lemma next_fit_run fuel wo s l :
  fl_inv s l → 1 <= wo → (length l < fuel)%nat →
  wp (caml_fl_allocate_r fuel wo) (λ hp s',
    (hp = 0 ∧ Forall (λ x, x.2 < wo) l ∧ fl_inv s' l ∧ mem s' = mem s ∧
     fl_last s' = last_bp (Fl_head s) l) ∨
    (hp ≠ 0 ∧ ∃ q1 b sz q2, l = q1 ++ (b, sz) :: q2 ∧ wo <= sz ∧ hp = b + 8 * sz - 8 * (wo + 1) ∧
     let l' := q1 ++ leftover b sz wo ++ q2 in
     fl_inv s' l' ∧
     (∀ b' s', (b', s') ∈ l' → b' + 8 * s' <= hp ∨ hp + 8 * (wo + 1) <= Hd_bp b') ∧
     ∀ a, a ≠ last_bp (Fl_head s) q1 → a ≠ Hd_bp b → mem s' !! a = mem s !! a)) s.
Proof.
  intros Hinv Hwo Hf.
  assert (∀ s0 s' hp, mem s0 = mem s → Fl_head s0 = Fl_head s → allocated s0 s' l wo hp →
    hp ≠ 0 ∧ ∃ q1 b sz q2, l = q1 ++ (b, sz) :: q2 ∧ wo <= sz ∧ hp = b + 8 * sz - 8 * (wo + 1) ∧
     let l' := q1 ++ leftover b sz wo ++ q2 in
     fl_inv s' l' ∧
     (∀ b' s', (b', s') ∈ l' → b' + 8 * s' <= hp ∨ hp + 8 * (wo + 1) <= Hd_bp b') ∧
     ∀ a, a ≠ last_bp (Fl_head s) q1 → a ≠ Hd_bp b → mem s' !! a = mem s !! a) as Hal.
  { intros s0 s' hp Em Eh (q1 & b & sz & q2 & -> & Hle & -> & Hinv' & Hfr). rewrite Em, Eh in Hfr.
    destruct (around_sizes _ _ _ _ _ Hinv) as (H1 & _ & H3 & _). pose proof (sorted_top _ _ H3).
    unfold Hd_bp in H1. split; [lia|]. exists q1, b, sz, q2.
    do 3 (split; [done|]). split_and!; [done| |done]. intros b' s'' Hin. eapply allocated_disjoint; [exact Hinv|lia|exact Hin]. }
  unfold caml_fl_allocate_r. apply wp_bind, f_get. rewrite (inv_policy _ _ Hinv).
  unfold next_fit. apply wp_bind, f_get.
  destruct (points_split _ _ _ (inv_prev _ _ Hinv)) as (l1 & l2 & -> & Hp). rewrite Hp.
  pose proof (inv_chain _ _ Hinv) as Hc. apply chain_app in Hc as [_ Hc]. apply chain_first in Hc.
  apply wp_bind. eapply f_ld; [exact Hc|]. rewrite length_app in Hf.
  apply wp_bind. eapply wp_conseq; [apply search_to_end_spec; [done..|lia]|].
  intros [last|hp] s1; [|intros Ha; apply wp_ret; right; by eapply Hal].
  intros (-> & -> & HF). apply wp_bind, f_modify. apply wp_bind.
  eapply f_ld; [exact (chain_first _ _ _ (inv_chain _ _ Hinv))|].
  set (s1 := set_fl_last _ s). pose proof (set_fl_last_inv (last_bp (Fl_head s) (l1 ++ l2)) _ _ Hinv) as Hinv1.
  eapply wp_conseq; [apply (search_to_prev_spec fuel wo s1 l1 [] l2 Hinv1 Hp Hwo); lia|].
  intros hp s' [(-> & -> & HF1)|[_ Ha]]; [left|right; by eapply (Hal s1)].
  split_and!; try done. by apply Forall_app.
Qed.

(** Allocation moves no word in or out of the memory, and not the sentinel. *)
Definition in_place {A} (c : FM A) : Prop := ∀ s s' x, c s = inr (s', x) → dom (mem s') = dom (mem s) ∧ Fl_head s' = Fl_head s.

Lemma in_place_ret {A} (x : A) : in_place (mreturn x).
Proof. by intros s s' y [= <- _]. Qed.
Lemma in_place_fail {A} f : in_place (mfail f : FM A).
Proof. by intros s s' y. Qed.
Lemma in_place_get : in_place mget.
Proof. by intros s s' y [= <- _]. Qed.
Lemma in_place_bind {A B} (c : FM A) (k : A → FM B) : in_place c → (∀ x, in_place (k x)) → in_place (mbnd c k).
Proof.
  intros Hc Hk s s' y. unfold mbnd. destruct (c s) as [|[s1 x]] eqn:E; [done|]. intros E'. destruct (Hc _ _ _ E) as [H1 H2]. destruct (Hk _ _ _ _ E') as [H3 H4]. split; congruence.
Qed.
Lemma in_place_modify g : (∀ s, mem (g s) = mem s ∧ Fl_head (g s) = Fl_head s) → in_place (mmodify g).
Proof. intros Hg s s' y [= <- _]. destruct (Hg s) as [-> ->]. done. Qed.
Lemma in_place_ld a : in_place (ld a).
Proof. intros s s' y. unfold ld. destruct (mem s !! a); [|done]. by intros [= <- _]. Qed.
Lemma in_place_st a v : in_place (st a v).
Proof.
  intros s s' y. unfold st. destruct (mem s !! a) eqn:E; [|done]. intros [= <- _]. split; [|done]. cbn. rewrite dom_insert_L.
  apply subseteq_union_1_L, singleton_subseteq_l, elem_of_dom. by rewrite E.
Qed.
Create HintDb in_place.
#[local] Hint Resolve in_place_ret in_place_fail in_place_get in_place_ld in_place_st : in_place.

Ltac in_place := repeat first
  [ solve [eauto with in_place] | apply in_place_bind; [|intros] | apply in_place_modify; by intros
  | match goal with |- in_place (if ?b then _ else _) => destruct b end ].

Lemma allocate_block_in_place wh i prev cur : in_place (allocate_block_r wh i prev cur).
Proof.
  unfold allocate_block_r, add_cur_size, Next, set_Next, flp_get, flp_set. in_place; try (intros s s' y; repeat case_match; try done; by intros [= <- _]).
Qed.
#[local] Hint Resolve allocate_block_in_place : in_place.

Lemma search_to_end_in_place fuel wo prev cur : in_place (search_to_end fuel wo prev cur).
Proof.
  revert prev cur. induction fuel as [|fuel IH]; intros prev cur; cbn [search_to_end]; unfold Wosize_bp, Next; in_place.
Qed.

Lemma search_to_prev_in_place fuel wo prev cur : in_place (search_to_prev fuel wo prev cur).
Proof.
  revert prev cur. induction fuel as [|fuel IH]; intros prev cur; cbn [search_to_prev]; unfold Wosize_bp, Next; in_place.
Qed.

#[local] Hint Resolve search_to_end_in_place search_to_prev_in_place : in_place.

Lemma next_fit_in_place fuel wo : in_place (next_fit fuel wo).
Proof.
  unfold next_fit, Next. in_place. case_match; in_place.
Qed.

(** C11.  Next-fit allocation.  With a well-formed free list, a request either
    finds that no block of the list is large enough, returns [NULL] and leaves
    the memory and the list as they were, with [fl_last] on the last block; or
    returns a block of the requested size at the end of a free block that is
    large enough.  The list is again well formed (sorted, disjoint, with the
    right total size and valid pointers into it), the block returned overlaps
    none of its blocks, and at most two words of memory have changed: a link
    and a header of the list. *)
Theorem next_fit_correct fuel wo s l :
  fl_inv s l → 1 <= wo → (length l < fuel)%nat →
  wp (caml_fl_allocate_r fuel wo) (λ hp s',
    (hp = 0 ∧ Forall (λ x, x.2 < wo) l ∧ fl_inv s' l ∧ mem s' = mem s ∧
     fl_last s' = last_bp (Fl_head s) l) ∨
    (hp ≠ 0 ∧ ∃ q1 b sz q2, l = q1 ++ (b, sz) :: q2 ∧ wo <= sz ∧ hp = b + 8 * sz - 8 * (wo + 1) ∧
     let l' := q1 ++ leftover b sz wo ++ q2 in
     fl_inv s' l' ∧
     (∀ b' s', (b', s') ∈ l' → b' + 8 * s' <= hp ∨ hp + 8 * (wo + 1) <= Hd_bp b') ∧
     ∀ a, a ≠ last_bp (Fl_head s) q1 → a ≠ Hd_bp b → mem s' !! a = mem s !! a)) s.
Proof. apply next_fit_run. Qed.

(** ** Merging a freed block *)

(** Everything in the invariant but the size counter. *)
Definition fl_shape (s : fl) (l : list (Z * Z)) : Prop :=
  fl_inv (set_caml_fl_cur_size (total l) s) l.

Lemma shape_inv s l : fl_shape s l → caml_fl_cur_size s = total l → fl_inv s l.
Proof. intros [] E. by split. Qed.

Lemma inv_shape s l : fl_inv s l → fl_shape s l.
Proof. intros []. by split. Qed.

(** A block with header [hd], of [z] words at [b], in the heap between the
    blocks [p1] and [p2] of the list. *)
Record gap (s : fl) (p1 p2 : list (Z * Z)) (b z hd : Z) : Prop := {
  gap_before : top 8 p1 <= Hd_bp b;
  gap_after : sorted_from (b + 8 * z) p2;
  gap_size : 0 <= z <= Max_wosize;
  gap_sentinel : Fl_head s + 16 <= Hd_bp b ∨ b + 8 * z <= Fl_head s - 16;
  gap_hd : mem s !! Hd_bp b = Some hd;
  gap_hd_word : word hd;
  gap_hd_size : Wosize_hd hd = z;
  gap_field : 1 <= z → is_Some (mem s !! b)
}.

(** The next block is absorbed if adjacent. *)
Definition absorb_next (b z : Z) (p2 : list (Z * Z)) : Z * list (Z * Z) :=
  match p2 with
  | (c, zc) :: p2' =>
      if (b + 8 * z =? Hp_bp c) && (z + (zc + 1) <=? Max_wosize) then (z + (zc + 1), p2') else (z, p2)
  | [] => (z, p2)
  end.

(** The block is appended to the previous one if adjacent, inserted if it has
    a field for the link, left out otherwise. *)
Definition join_prev (p1 : list (Z * Z)) (b z : Z) (p2 : list (Z * Z)) : list (Z * Z) :=
  let inserted := if z =? 0 then p1 ++ p2 else p1 ++ (b, z) :: p2 in
  match last p1 with
  | Some (pb, pz) =>
      if (pb + 8 * pz =? Hp_bp b) && (pz + (z + 1) <? Max_wosize)
      then removelast p1 ++ (pb, pz + (z + 1)) :: p2 else inserted
  | None => inserted
  end.

(** Only the words of the link and header of [prev], and of the block at [b]
    if it has a field, may have been written. *)
Definition framed (s s' : fl) (prev b z : Z) : Prop :=
  ∀ a, a ≠ prev → a ≠ Hd_bp prev → (1 <= z → a ≠ Hd_bp b ∧ a ≠ b) → mem s' !! a = mem s !! a.

Lemma framed_refl s s' prev b z : mem s' = mem s → framed s s' prev b z.
Proof. by intros E a _ _ _; rewrite E. Qed.

Lemma framed_trans s1 s2 s3 prev b z z' : z <= z' → framed s1 s2 prev b z → framed s2 s3 prev b z' → framed s1 s3 prev b z'.
Proof. intros Hz F1 F2 a H1 H2 H3. rewrite F2, F1; auto with lia. Qed.

Lemma gap_cells s p1 p2 b z hd :
  fl_shape s (p1 ++ p2) → gap s p1 p2 b z hd →
  let p := last_bp (Fl_head s) p1 in
  p ≠ b ∧ p ≠ Hd_bp b ∧ no_cell p p2 ∧ no_cell (Hd_bp b) p1 ∧ no_cell (Hd_bp b) p2 ∧
  no_cell b p1 ∧ (1 <= z → no_cell b p2) ∧ b ≠ Fl_head s ∧ Hd_bp b ≠ Fl_head s ∧
  off (Fl_head s) p1 ∧ Hd_bp (Fl_head s) ≠ p ∧ Hd_bp (Fl_head s) ≠ b ∧ Hd_bp b ≠ Hd_bp (Fl_head s) ∧
  sorted_from 8 p1 ∧ no_cell (Hd_bp (Fl_head s)) p1 ∧ no_cell (Hd_bp (Fl_head s)) p2.
Proof.
  intros Hsh Hgap p. destruct Hgap as [G1 G2 G3 G4 _ _ _ _].
  pose proof (inv_sorted _ _ Hsh) as Hs. apply sorted_app in Hs as [Hs1 Hs2].
  pose proof (inv_sentinel _ _ Hsh) as Hse. cbn in Hse. apply sentinel_app in Hse as [S1 S2].
  pose proof (sorted_top _ _ Hs1) as Ht.
  assert (∀ b' s', (b', s') ∈ p1 → b' + 8 * s' <= Hd_bp b ∧ 1 <= s') as Hb.
  { intros b' s' Hin. destruct (sorted_elem _ _ _ _ Hs1 Hin) as (_ & H1 & H2). lia. }
  assert (∀ b' s', (b', s') ∈ p2 → b + 8 * z <= Hd_bp b' ∧ 1 <= s') as Ha.
  { intros b' s' Hin. destruct (sorted_elem _ _ _ _ G2 Hin) as (H1 & H2 & _). lia. }
  assert (p ≠ b ∧ p ≠ Hd_bp b ∧ no_cell p p2 ∧ Hd_bp (Fl_head s) ≠ p) as (Ha1 & Hb1 & Hc1 & Hd1).
  { destruct (last_bp_in (Fl_head s) p1) as [E|[s' Hin]]; [fold p in E|fold p in Hin].
    - rewrite E. unfold Hd_bp in *. split_and!; [lia|lia| |lia].
      intros b' s' Hin. specialize (S2 b' s' Hin). destruct (Ha _ _ Hin). unfold Hd_bp in *. lia.
    - destruct (Hb _ _ Hin) as [H5 H6]. specialize (S1 _ _ Hin).
      split_and!; [unfold Hd_bp in *; lia..| |unfold Hd_bp in *; lia].
      intros b' s'' Hin'. destruct (Ha _ _ Hin'). unfold Hd_bp in *. lia. }
  unfold Hd_bp in *. split_and!; try done; try lia;
    try (lazymatch goal with |- _ → no_cell _ _ => intros Hz end);
    intros b' s' Hin; try (specialize (S1 _ _ Hin)); try (specialize (S2 _ _ Hin));
    try (destruct (Hb _ _ Hin)); try (destruct (Ha _ _ Hin)); unfold Hd_bp in *; lia.
Qed.

(** Absorbing the next block. *)
Lemma merge_next_spec s p1 p2 b z hd :
  fl_shape s (p1 ++ p2) → gap s p1 p2 b z hd → caml_fl_merge s = last_bp (Fl_head s) p1 →
  let '(z', p2') := absorb_next b z p2 in
  wp (merge_next b hd (last_bp (Fl_head s) p1) (first_bp p2)) (λ r s',
    ∃ hd', r = (hd', b + 8 * z', first_bp p2') ∧
      fl_shape s' (p1 ++ p2') ∧ gap s' p1 p2' b z' hd' ∧
      total p2' + z' = total p2 + z ∧ Fl_head s' = Fl_head s ∧
      caml_fl_cur_size s' = caml_fl_cur_size s ∧ caml_fl_merge s' = caml_fl_merge s ∧
      last_fragment s' = last_fragment s ∧ framed s s' (last_bp (Fl_head s) p1) b z') s.
Proof.
  intros Hsh Hgap Hmerge. pose proof (gap_cells _ _ _ _ _ _ Hsh Hgap) as Hgc.
  unfold merge_next, Bosize_hd, Bsize_wsize. rewrite (gap_hd_size _ _ _ _ _ _ Hgap).
  rewrite (Z.mul_comm z 8).
  assert (wp (E := fault) (mreturn (hd, b + 8 * z, first_bp p2)) (λ r s',
    ∃ hd', r = (hd', b + 8 * z, first_bp p2) ∧
      fl_shape s' (p1 ++ p2) ∧ gap s' p1 p2 b z hd' ∧
      total p2 + z = total p2 + z ∧ Fl_head s' = Fl_head s ∧
      caml_fl_cur_size s' = caml_fl_cur_size s ∧ caml_fl_merge s' = caml_fl_merge s ∧
      last_fragment s' = last_fragment s ∧ framed s s' (last_bp (Fl_head s) p1) b z) s) as Hsame.
  { apply (wp_ret (E := fault)). exists hd. done. }
  destruct p2 as [|[c zc] p2']; cbn [absorb_next first_bp].
  { rewrite (proj2 (Z.eqb_neq _ _)); [exact Hsame|]. destruct Hgap as [G1 _ G3 _ _ _ _ _].
    pose proof (inv_sorted _ _ Hsh) as Hs. rewrite app_nil_r in Hs.
    pose proof (sorted_top _ _ Hs). unfold Hp_bp, Hd_bp in *. lia. }
  destruct (Z.eqb_spec (b + 8 * z) (Hp_bp c)) as [Hadj|]; [|exact Hsame]. cbn [andb].
  destruct Hgc as (N1 & N2 & N3 & N4 & N5 & N6 & N7 & N8 & N9 & Hoff & N10 & N11 & N12 & Hs1 & N13 & N14).
  pose proof Hgap as [G1 G2 G3 G4 G5 G6 G7 G8].
  pose proof Hsh as [I1 I2 I3 I4 I5 I6 I7 I8 I9 I10]. cbn in I1, I2, I3, I5, I6, I9, I10.
  apply chain_app in I3 as [Hl Hc]. apply chain_cons in Hc as (Hprev & Hhd & Hc).
  pose proof (chain_first _ _ _ Hc) as Hn. destruct Hhd as (hc & Hhc & Hwc & Hzc & _).
  destruct (Z.leb_spec (z + (zc + 1)) Max_wosize) as [Hfit|Hover];
    (apply wp_bind; eapply f_ld; [exact Hn|]; apply wp_bind; unfold Whsize_bp; apply wp_bind;
     eapply f_ld; [exact Hhc|]; apply wp_ret; unfold Whsize_hd, Whsize_wosize; rewrite Hzc);
    [rewrite (proj2 (Z.leb_le _ _)) by lia|rewrite (proj2 (Z.leb_gt _ _)) by lia; exact Hsame].
  set (prev := last_bp (Fl_head s) p1) in *. set (z' := z + (zc + 1)) in *.
  apply wp_bind, f_st; [by eexists|]. apply wp_bind, f_get. cbn [policy fl_prev set_mem]. rewrite I1.
  apply wp_bind. cbn [andb Z.eqb]. destruct (G2) as (_ & Hzc1 & Hs2).
  assert (is_Some (mem s !! b)) as Hfield.
  { destruct (decide (1 <= z)); [by apply G8|]. replace b with (Hd_bp c) by (unfold Hd_bp, Hp_bp in *; lia).
    by eexists. }
  eapply wp_conseq with (P := λ _ s1, s1 = set_fl_prev (if fl_prev s =? c then prev else fl_prev s)
    (set_mem (<[prev := first_bp p2']> (mem s)) s)).
  { rewrite Z.eqb_refl. cbn [andb]. apply f_if; intros ->; [by apply f_modify|by apply wp_ret]. }
  intros [] s1 ->. apply wp_bind, f_st.
  { cbn. rewrite lookup_insert_is_Some'. right. by eexists. }
  apply wp_ret. cbv zeta.
  destruct (header_fields z' 0 Caml_blue) as (Hw & Hwo & _ & _);
    [unfold z'; lia|lia|unfold wf_color; tauto|].
  exists (Make_header z' 0 Caml_blue). rewrite Hwo. rewrite (Z.mul_comm z' 8).
  pose proof (inv_sorted _ _ Hsh) as Hsort. apply sorted_app in Hsort as [_ (Ht & _ & Hs3)].
  split_and!; try done.
  - assert (no_cell prev p2' ∧ no_cell (Hd_bp b) p2') as [M1 M2].
    { split; intros b' s' Hin; [apply (N3 b' s')|apply (N5 b' s')]; by right. }
    split; cbn; try done.
    + apply chain_app. fold prev. split.
      * apply lseg_insert; [done|done|]. by eapply lseg_insert_last.
      * apply chain_insert; [done|done|]. by eapply chain_relink.
    + apply sorted_app. split; [done|]. eapply sorted_weaken; [|exact Hs3]. unfold Hd_bp in *. lia.
    + intros b' s' Hin. apply (I5 b' s'). apply elem_of_app in Hin as [Hin|Hin]; apply elem_of_app;
        [by left|right; by right].
    + rewrite !lookup_insert_ne by done. done.
    + rewrite total_app in I8 |- *. cbn [total] in I8. unfold Whsize_wosize in I8.
      pose proof (total_nonneg _ _ Hs1). lia.
    + destruct (Z.eqb_spec (fl_prev s) c); [apply points_into_last|]. by eapply points_into_remove.
    + eapply points_into_remove; [exact I10|]. rewrite Hmerge. fold prev.
      by destruct (N3 c zc ltac:(by left)).
  - split; cbn; try done.
    + eapply sorted_weaken; [|exact Hs2]. unfold z', Hp_bp in *. lia.
    + unfold z'. lia.
    + pose proof (I5 c zc ltac:(apply elem_of_app; right; by left)) as Hc5.
      unfold z', Hd_bp, Hp_bp in *. lia.
    + by rewrite lookup_insert_eq.
    + intros _. rewrite !lookup_insert_is_Some'. auto.
  - cbn [total]. unfold Whsize_wosize, z'. lia.
  - intros a A1 A2 A3. cbn. destruct A3 as [A3 _]; [unfold z'; lia|]. by rewrite !lookup_insert_ne by done.
Qed.

(** Widening a block of the list by rewriting its header. *)
Lemma shape_widen s r pb pz pz' p2 :
  fl_shape s (r ++ (pb, pz) :: p2) → pz <= pz' <= Max_wosize → sorted_from (pb + 8 * pz') p2 →
  (Fl_head s + 16 <= Hd_bp pb ∨ pb + 8 * pz' <= Fl_head s - 16) →
  total (r ++ (pb, pz') :: p2) < W →
  fl_shape (set_mem (<[Hd_bp pb := blue pz']> (mem s)) s) (r ++ (pb, pz') :: p2).
Proof.
  intros Hsh Hz Hs Hse Ht.
  destruct (around_sizes _ _ _ _ _ Hsh) as (Htop & Hsz & Hs1 & Hs2).
  destruct (around_prev _ _ _ _ _ Hsh) as (N1 & N2 & N3 & N4 & N5 & N6 & N7 & N8 & N9 & Hoff & N10 & N11 & N12).
  cbn in N1, N2, N3, N4, N5, N6, N7, N8, N9, Hoff, N10, N11, N12.
  pose proof Hsh as [I1 I2 I3 I4 I5 I6 I7 I8 I9 I10]. cbn in I1, I2, I3, I5, I6, I9, I10.
  apply chain_app in I3 as [Hl Hc]. apply chain_cons in Hc as (Hprev & Hhd & Hc).
  split; cbn; try done.
  - apply chain_app. split; [by apply lseg_insert|].
    apply chain_cons. rewrite lookup_insert_ne by done. split_and!; [done|apply blue_free; lia|].
    apply chain_insert; [unfold Hd_bp; lia|done|done].
  - apply sorted_app. split; [done|]. cbn. split_and!; [done|lia|lia|done].
  - apply sentinel_app in I5 as [S1 S2]. apply sentinel_cons in S2 as [S2 S3].
    apply sentinel_app. split; [done|]. by apply sentinel_cons.
  - rewrite lookup_insert_ne by done. done.
  - by eapply points_into_resize.
  - by eapply points_into_resize.
Qed.

(** Linking a new block between [p1] and [p2]. *)
Lemma shape_link s p1 p2 b z hd :
  fl_shape s (p1 ++ p2) → gap s p1 p2 b z hd → 1 <= z → total (p1 ++ p2) + z + 1 < W →
  let prev := last_bp (Fl_head s) p1 in
  fl_shape (set_caml_fl_merge b
    (set_mem (<[prev := b]> (<[b := first_bp p2]> (<[Hd_bp b := Bluehd_hd hd]> (mem s)))) s))
    (p1 ++ (b, z) :: p2).
Proof.
  intros Hsh Hgap Hz Ht prev.
  destruct (gap_cells _ _ _ _ _ _ Hsh Hgap) as (N1 & N2 & N3 & N4 & N5 & N6 & N7 & N8 & N9 & Hoff & N10 & N11 & N12 & Hs1 & N13 & N14).
  specialize (N7 Hz). fold prev in N1, N2, N3, N10. pose proof Hgap as [G1 G2 G3 G4 G5 G6 G7 G8].
  pose proof Hsh as [I1 I2 I3 I4 I5 I6 I7 I8 I9 I10]. cbn in I1, I2, I3, I5, I6, I9, I10.
  apply chain_app in I3 as [Hl Hc]. fold prev in Hc.
  destruct (Bluehd_fields hd G6) as (B1 & B2 & B3).
  assert (Hd_bp b ≠ b) by (unfold Hd_bp; lia).
  assert (b ∈ (p1 ++ (b, z) :: p2).*1) as Hbin.
  { rewrite fmap_app. apply elem_of_app. right. by left. }
  assert (∀ p, points_into (Fl_head s) p (p1 ++ p2) → points_into (Fl_head s) p (p1 ++ (b, z) :: p2)) as Hpt.
  { intros p [->|Hin]; [by left|right]. rewrite fmap_app in Hin |- *. apply elem_of_app in Hin as [Hin|Hin];
      apply elem_of_app; [by left|right; by right]. }
  split; cbn; try done; try (by apply Hpt).
  - apply chain_app. fold prev. split.
    + eapply lseg_insert_last; [done..|]. apply lseg_insert; [done..|]. by apply lseg_insert.
    + apply chain_cons. rewrite lookup_insert_eq. split_and!; [done| |].
      * exists (Bluehd_hd hd). rewrite lookup_insert_ne, lookup_insert_ne, lookup_insert_eq by done.
        split_and!; try done. by rewrite B2.
      * apply chain_insert; [done..|].
        eapply chain_relink with (q := prev); [|rewrite lookup_insert_ne by done; by apply chain_first|done].
        by apply chain_insert.
  - apply sorted_app. cbn. split_and!; try done. lia.
  - apply sentinel_app in I5 as [S1 S2]. apply sentinel_app. split; [done|]. by apply sentinel_cons.
  - rewrite !lookup_insert_ne by done. done.
  - rewrite total_app in Ht |- *. cbn [total]. unfold Whsize_wosize. lia.
  - by right.
Qed.

(** The prefix of the list up to the block inserted: where [caml_fl_merge]
    points afterwards. *)
Definition join_prefix (p1 : list (Z * Z)) (b z : Z) : list (Z * Z) :=
  join_prev p1 b z [].

Lemma join_prev_prefix p1 b z p2 : join_prev p1 b z p2 = join_prefix p1 b z ++ p2.
Proof.
  unfold join_prefix, join_prev. destruct (last p1) as [[pb pz]|]; repeat case_match;
    rewrite ?app_nil_r; try done; by rewrite <- app_assoc.
Qed.

(** Whether the block stays out of the list, as a fragment. *)
Definition is_fragment (p1 : list (Z * Z)) (b z : Z) : bool :=
  (z =? 0) && match last p1 with
              | Some (pb, pz) => negb ((pb + 8 * pz =? Hp_bp b) && (pz + (z + 1) <? Max_wosize))
              | None => true
              end.

(** The state after the block has been put in its place. *)
Definition inserted (s s' : fl) (p1 : list (Z * Z)) (b z : Z) (p2 : list (Z * Z)) : Prop :=
  fl_inv s' (join_prev p1 b z p2) ∧ Fl_head s' = Fl_head s ∧
  caml_fl_merge s' = last_bp (Fl_head s) (join_prefix p1 b z) ∧
  last_fragment s' = (if is_fragment p1 b z then b else last_fragment s) ∧
  framed s s' (last_bp (Fl_head s) p1) b z.

(** The block is not appended to the previous one. *)
Lemma insert_apart s p1 p2 b z hd pz :
  let prev := last_bp (Fl_head s) p1 in
  fl_shape s (p1 ++ p2) → gap s p1 p2 b z hd → caml_fl_merge s = prev →
  caml_fl_cur_size s = total (p1 ++ p2) + z + 1 → total (p1 ++ p2) + z + 1 < W →
  (prev + Bsize_wsize pz =? Hp_bp b) && (pz + Whsize_hd hd <? Max_wosize) = false →
  is_fragment p1 b z = (z =? 0) → join_prefix p1 b z = (if z =? 0 then p1 else p1 ++ [(b, z)]) →
  free_hd (mem s) prev pz →
  wp (insert_merged b hd prev (first_bp p2)) (λ _ s', inserted s s' p1 b z p2) s.
Proof.
  intros prev Hsh Hgap Hmerge Hsize Ht Hno Hfrag Hpre Hhd. unfold inserted.
  pose proof (gap_hd_size _ _ _ _ _ _ Hgap) as Ehd. pose proof (gap_size _ _ _ _ _ _ Hgap) as Hz.
  pose proof (inv_chain _ _ Hsh) as Hc. cbn in Hc. apply chain_app in Hc as [Hl Hc]. fold prev in Hc.
  rewrite join_prev_prefix, Hpre, Hfrag.
  unfold insert_merged. apply wp_bind. eapply f_wosize; [exact Hhd|]. rewrite Hno, Ehd.
  destruct (Z.eqb_spec z 0) as [->|Hnz]; cbn [negb].
  - apply wp_bind, f_modify. unfold add_cur_size. apply f_modify. cbn. split_and!; try done.
    apply shape_inv; [by destruct Hsh|]. cbn. rewrite Hsize. unfold Whsize_wosize.
    pose proof (total_nonneg _ _ (inv_sorted _ _ Hsh)).
    rewrite u64_small by (unfold word; lia). lia.
  - rewrite <- app_assoc. cbn [app].
    apply wp_bind, f_st; [eexists; apply Hgap|]. cbn.
    apply wp_bind, f_st; [cbn; rewrite lookup_insert_is_Some'; right; apply Hgap; lia|]. cbn.
    apply wp_bind, f_st; [cbn; rewrite !lookup_insert_is_Some'; right; right; by eapply chain_some|]. cbn.
    split_and!; [|done|by rewrite last_bp_app|done|].
    2:{ intros a A1 A2 A3. destruct A3 as [A3 A4]; [lia|]. cbn. by rewrite !lookup_insert_ne by done. }
    apply shape_inv; [apply (shape_link s p1 p2 b z hd); (done || lia)|]. cbn.
    rewrite Hsize, !total_app. cbn [total]. unfold Whsize_wosize. lia.
Qed.

Lemma insert_merged_spec s p1 p2 b z hd :
  fl_shape s (p1 ++ p2) → gap s p1 p2 b z hd → caml_fl_merge s = last_bp (Fl_head s) p1 →
  caml_fl_cur_size s = total (p1 ++ p2) + z + 1 → total (p1 ++ p2) + z + 1 < W →
  wp (insert_merged b hd (last_bp (Fl_head s) p1) (first_bp p2)) (λ _ s', inserted s s' p1 b z p2) s.
Proof.
  intros Hsh Hgap Hmerge Hsize Ht. set (prev := last_bp (Fl_head s) p1) in *.
  pose proof (gap_hd_size _ _ _ _ _ _ Hgap) as Ehd. pose proof (gap_size _ _ _ _ _ _ Hgap) as Hz.
  pose proof (inv_chain _ _ Hsh) as Hc. cbn in Hc. apply chain_app in Hc as [Hl Hc]. fold prev in Hc.
  destruct p1 as [|[pb pz] r _] using rev_ind.
  { apply (insert_apart s [] p2 b z hd 0 Hsh Hgap Hmerge Hsize Ht); [|apply andb_true_r|by unfold join_prefix, join_prev; cbn; destruct (Z.eqb_spec z 0)|].
    - rewrite andb_false_iff. left. apply Z.eqb_neq. pose proof (gap_sentinel _ _ _ _ _ _ Hgap).
      unfold Bsize_wsize, Hp_bp, Hd_bp, prev in *. cbn in *. lia.
    - exists (blue 0). split; [exact (inv_sentinel_hd _ _ Hsh)|]. split_and!; try done. }
  assert (prev = pb) as Ep by (unfold prev; by rewrite last_bp_app).
  apply lseg_app in Hl as [_ (_ & Hhd & _)].
  assert (Whsize_hd hd = z + 1) as Ewh by (unfold Whsize_hd, Whsize_wosize; by rewrite Ehd).
  destruct ((pb + 8 * pz =? Hp_bp b) && (pz + (z + 1) <? Max_wosize)) eqn:Hadj.
  2:{ apply (insert_apart s _ p2 b z hd pz Hsh Hgap Hmerge Hsize Ht); [| | |fold prev; by rewrite Ep].
      - fold prev. rewrite Ep, Ewh. unfold Bsize_wsize. by rewrite (Z.mul_comm pz 8).
      - unfold is_fragment. rewrite last_snoc, Hadj. apply andb_true_r.
      - unfold join_prefix, join_prev. rewrite last_snoc, Hadj. by destruct (z =? 0); rewrite ?app_nil_r. }
  unfold insert_merged. apply wp_bind. rewrite Ep. eapply f_wosize; [exact Hhd|].
  rewrite Ewh. unfold Bsize_wsize. rewrite (Z.mul_comm pz 8), Hadj.
  apply andb_true_iff in Hadj as [Ha1%Z.eqb_eq Ha2%Z.ltb_lt].
  rewrite <- app_assoc in *. cbn [app] in *.
  destruct (around_sizes _ _ _ _ _ Hsh) as (_ & Hpz & _ & _). pose proof (around_sentinel _ _ _ _ _ Hsh) as Hse.
  cbn in Hse. pose proof (gap_after _ _ _ _ _ _ Hgap) as Hs2. pose proof (gap_sentinel _ _ _ _ _ _ Hgap) as Hse2.
  apply f_st; [destruct Hhd as (h & Hh & _); by eexists|].
  assert (join_prefix (r ++ [(pb, pz)]) b z = r ++ [(pb, pz + (z + 1))]) as Hpre.
  { unfold join_prefix, join_prev. rewrite last_snoc, removelast_last.
    rewrite (proj2 (Z.eqb_eq _ _)), (proj2 (Z.ltb_lt _ _)) by done. done. }
  unfold inserted. rewrite join_prev_prefix, Hpre, <- app_assoc. cbn [app]. rewrite total_app in Ht, Hsize. cbn [total] in Ht, Hsize.
  unfold Whsize_wosize in Ht, Hsize.
  assert (total (r ++ (pb, pz + (z + 1)) :: p2) = caml_fl_cur_size s) as Etot.
  { rewrite total_app. cbn [total]. unfold Whsize_wosize. lia. }
  split_and!; [|done|cbn; rewrite last_bp_app; cbn; by rewrite Hmerge| |].
  - apply shape_inv; [|done]. apply (shape_widen s r pb pz (pz + (z + 1)) p2 Hsh); [lia| | |lia].
    + eapply sorted_weaken; [|exact Hs2]. unfold Hp_bp in *. lia.
    + unfold Hp_bp, Hd_bp in *. lia.
  - unfold is_fragment. rewrite last_snoc, (proj2 (Z.eqb_eq (pb + 8 * pz) (Hp_bp b))), (proj2 (Z.ltb_lt _ _)) by done.
    by rewrite andb_false_r.
  - intros a _ A2 _. cbn. rewrite last_bp_app in A2. cbn in A2. by rewrite lookup_insert_ne.
Qed.

(** The fragment left by the previous merge is absorbed if adjacent. *)
Definition absorb_fragment (f b z : Z) : Z * Z :=
  if (f =? Hp_bp b) && (z + 1 <=? Max_wosize) then (f, z + 1) else (b, z).

Lemma merge_fragment_spec s p1 p2 b z hd :
  fl_shape s (p1 ++ p2) → gap s p1 p2 b z hd → caml_fl_merge s = last_bp (Fl_head s) p1 →
  (last_fragment s = Hp_bp b → ∃ hf, gap s p1 p2 (last_fragment s) 0 hf) →
  caml_fl_cur_size s = total (p1 ++ p2) + z + 1 → total (p1 ++ p2) + z + 2 < W →
  let '(b1, z1) := absorb_fragment (last_fragment s) b z in
  wp (merge_fragment b hd) (λ r s', ∃ hd', r = (b1, hd') ∧ fl_shape s' (p1 ++ p2) ∧
    gap s' p1 p2 b1 z1 hd' ∧ caml_fl_merge s' = caml_fl_merge s ∧ Fl_head s' = Fl_head s ∧
    last_fragment s' = last_fragment s ∧ caml_fl_cur_size s' = total (p1 ++ p2) + z1 + 1 ∧
    framed s s' (last_bp (Fl_head s) p1) b1 z1) s.
Proof.
  intros Hsh Hgap Hmerge Hfr Hsize Ht. unfold absorb_fragment, merge_fragment.
  destruct (Z.eqb_spec (last_fragment s) (Hp_bp b)) as [E|E]; cbn [andb].
  2:{ apply wp_bind, f_get. rewrite (proj2 (Z.eqb_neq _ _)) by done. apply wp_ret. by exists hd. }
  destruct (Hfr E) as [hf Hgf]. pose proof Hgap as [G1 G2 G3 G4 G5 G6 G7 G8].
  destruct (Z.leb_spec (z + 1) Max_wosize) as [Hfit|Hover];
    (apply wp_bind, f_get; rewrite (proj2 (Z.eqb_eq _ _)) by done; apply wp_bind; unfold Whsize_bp;
     apply wp_bind; eapply f_ld; [exact G5|]; apply wp_ret; unfold Whsize_hd, Whsize_wosize; rewrite G7);
    [rewrite (proj2 (Z.leb_le _ _)) by lia|rewrite (proj2 (Z.leb_gt _ _)) by lia; apply wp_ret; by exists hd].
  destruct Hgf as [F1 F2 F3 F4 F5 F6 F7 F8] eqn:Egf.
  destruct (gap_cells _ _ _ _ _ _ Hsh Hgf) as (N1 & N2 & N3 & N4 & N5 & N6 & N7 & N8 & N9 & Hoff & N10 & N11 & N12 & Hs1 & N13 & N14).
  clear Egf. apply wp_bind, f_st; [by eexists|]. apply wp_bind. unfold add_cur_size. apply f_modify. apply wp_ret.
  destruct (header_fields (z + 1) 0 Caml_white) as (Hw & Hwo & _ & _);
    [lia|lia|unfold wf_color; tauto|].
  exists (Make_header (z + 1) 0 Caml_white).
  pose proof (total_nonneg _ _ (inv_sorted _ _ Hsh)).
  split_and!; try done; [| |cbn; rewrite u64_small by (unfold word, Whsize_wosize; lia); unfold Whsize_wosize; lia|].
  - pose proof Hsh as [I1 I2 I3 I4 I5 I6 I7 I8 I9 I10]. cbn in I1, I2, I3, I5, I6, I9, I10.
    split; cbn; try done; [|rewrite lookup_insert_ne by done; done].
    apply chain_app in I3 as [Hl Hc]. apply chain_app. split; [by apply lseg_insert|by apply chain_insert].
  - split; cbn; try done; [|lia| |by rewrite lookup_insert_eq|].
    + eapply sorted_weaken; [|exact G2]. unfold Hp_bp in E. lia.
    + unfold Hp_bp, Hd_bp in *. lia.
    + intros _. rewrite lookup_insert_is_Some'. right. rewrite E. by eexists.
  - intros a _ _ A3. destruct A3 as [A3 _]; [lia|]. cbn. by rewrite lookup_insert_ne.
Qed.

(** The words of the blocks, headers included. *)
Definition covered (l : list (Z * Z)) (a : Z) : Prop :=
  Exists (λ x, Hd_bp x.1 <= a < x.1 + 8 * x.2) l.

Lemma absorb_next_covered b z p2 p1 a : 0 <= z → sorted_from (b + 8 * z) p2 →
  let '(z', p2') := absorb_next b z p2 in
  covered (p1 ++ p2') a ∨ Hd_bp b <= a < b + 8 * z' ↔ covered (p1 ++ p2) a ∨ Hd_bp b <= a < b + 8 * z.
Proof.
  intros Hz Hs. unfold absorb_next, covered. destruct p2 as [|[c zc] p2]; [done|]. destruct Hs as (_ & H1 & _).
  destruct (Z.eqb_spec (b + 8 * z) (Hp_bp c)) as [E|]; [|done]. cbn [andb].
  destruct (Z.leb_spec (z + (zc + 1)) Max_wosize); [|done]. rewrite !Exists_app, Exists_cons. unfold Hp_bp, Hd_bp in *. cbn.
  split; [intros [[?|?]|?]|intros [[?|[?|?]]|?]]; try tauto; try (right; lia).
  destruct (decide (a < b + 8 * z)); [right; lia|left; right; left; lia].
Qed.

Lemma join_prev_covered p1 b z p2 a :
  0 <= z → sorted_from 8 p1 →
  covered (join_prev p1 b z p2) a ∨ (is_fragment p1 b z = true ∧ Hd_bp b <= a < b + 8 * z) ↔
  covered (p1 ++ p2) a ∨ Hd_bp b <= a < b + 8 * z.
Proof.
  intros Hz Hs. unfold join_prev, is_fragment, covered.
  assert (∀ x, x = (z =? 0) → Exists (λ x, Hd_bp x.1 <= a < x.1 + 8 * x.2) (if z =? 0 then p1 ++ p2 else p1 ++ (b, z) :: p2) ∨
    x = true ∧ Hd_bp b <= a < b + 8 * z ↔ Exists (λ x, Hd_bp x.1 <= a < x.1 + 8 * x.2) (p1 ++ p2) ∨ Hd_bp b <= a < b + 8 * z) as Hins.
  { intros x ->. destruct (Z.eqb_spec z 0); [intuition congruence|]. rewrite !Exists_app, Exists_cons. cbn. intuition congruence. }
  destruct p1 as [|[pb pz] r _] using rev_ind; [apply Hins; by rewrite andb_true_r|]. rewrite last_snoc.
  destruct (Z.eqb_spec (pb + 8 * pz) (Hp_bp b)) as [E|]; [|apply Hins; by rewrite andb_true_r]. cbn [andb].
  destruct (pz + (z + 1) <? Max_wosize); [|apply Hins; by rewrite andb_true_r]. cbn [negb]. rewrite andb_false_r, removelast_last.
  apply sorted_app in Hs as [_ (_ & Hpz & _)].
  rewrite !Exists_app, !Exists_cons, Exists_nil. unfold Hp_bp, Hd_bp in *. cbn.
  split; [intros [[?|[?|?]]|[? _]]|intros [[[?|[?|?]]|?]|?]]; try tauto; try done; try (left; right; left; lia).
  destruct (decide (a < pb + 8 * pz)); [left; left; right; left; lia|right; lia].
Qed.

Lemma join_prefix_top p1 b z : 0 <= z → top 8 p1 <= Hd_bp b → top 8 (join_prefix p1 b z) <= b + 8 * z.
Proof.
  intros Hz Ht. unfold join_prefix, join_prev, Hd_bp in *.
  assert (top 8 (if z =? 0 then p1 ++ [] else p1 ++ [(b, z)]) <= b + 8 * z) as Hins.
  { case_match; rewrite top_app; cbn; lia. }
  destruct p1 as [|[pb pz] r _] using rev_ind; [exact Hins|]. rewrite last_snoc.
  destruct (Z.eqb_spec (pb + 8 * pz) (Hp_bp b)) as [E|]; [|exact Hins]. cbn [andb].
  destruct (pz + (z + 1) <? Max_wosize); [|exact Hins]. rewrite removelast_last, top_app. cbn.
  unfold Hp_bp in E. lia.
Qed.

(** The words that may have been written are those of free blocks. *)
Lemma framed_free s s' p1 b z p2 : 0 <= z → sorted_from 8 p1 → framed s s' (last_bp (Fl_head s) p1) b z →
  ∀ a, ¬ covered (join_prev p1 b z p2) a → a ≠ Fl_head s → a ≠ Hd_bp (Fl_head s) → mem s' !! a = mem s !! a.
Proof.
  intros Hz Hs Hf a Ha Hh1 Hh2. apply Hf.
  1,2: intros ->; destruct p1 as [|[pb pz] r _] using rev_ind; [done|]; apply Ha;
    rewrite last_bp_app; unfold last_bp at 1; cbn [last]; apply sorted_app in Hs as [_ (_ & Hpz & _)];
    unfold covered, join_prev; rewrite last_snoc; repeat case_match; rewrite ?removelast_last, !Exists_app, ?Exists_cons;
    cbn; unfold Hd_bp in *; first [right; left; lia | left; right; left; lia].
  intros Hz1. pose proof (λ a, join_prev_covered p1 b z p2 a Hz Hs) as Hc.
  assert (∀ x, Hd_bp b <= x < b + 8 * z → covered (join_prev p1 b z p2) x) as Hin.
  { intros x Hx. destruct (proj2 (Hc x) (or_intror Hx)) as [?|[Hfr _]]; [done|].
    unfold is_fragment in Hfr. apply andb_true_iff in Hfr as [Hfr%Z.eqb_eq _]. lia. }
  unfold Hd_bp in *. split; intros ->; apply Ha, Hin; lia.
Qed.

Lemma merge_block_spec s p1 p2 b z hd :
  fl_inv s (p1 ++ p2) → caml_fl_merge s = last_bp (Fl_head s) p1 → gap s p1 p2 b z hd →
  (last_fragment s = Hp_bp b → ∃ hf, gap s p1 p2 (last_fragment s) 0 hf) →
  total (p1 ++ p2) + z + 2 < W →
  let '(b1, z1) := absorb_fragment (last_fragment s) b z in
  let '(z2, p2') := absorb_next b1 z1 p2 in
  wp (caml_fl_merge_block_r b) (λ adj s',
    adj = b1 + 8 * z2 ∧ fl_inv s' (join_prev p1 b1 z2 p2') ∧ Fl_head s' = Fl_head s ∧
    caml_fl_merge s' = last_bp (Fl_head s) (join_prefix p1 b1 z2) ∧
    top 8 (join_prefix p1 b1 z2) <= adj ∧
    last_fragment s' = (if is_fragment p1 b1 z2 then b1 else last_fragment s) ∧
    (∀ a, covered (join_prev p1 b1 z2 p2') a ∨ (is_fragment p1 b1 z2 = true ∧ Hd_bp b1 <= a < b1 + 8 * z2) ↔
         covered (p1 ++ p2) a ∨ Hd_bp b1 <= a < b1 + 8 * z1) ∧
    ∀ a, ¬ covered (join_prev p1 b1 z2 p2') a → a ≠ Fl_head s → a ≠ Hd_bp (Fl_head s) → mem s' !! a = mem s !! a) s.
Proof.
  intros Hinv Hmerge Hgap Hfr Ht. set (s0 := set_caml_fl_cur_size (total (p1 ++ p2) + z + 1) s).
  pose proof (merge_fragment_spec s0 p1 p2 b z hd ltac:(by destruct Hinv) ltac:(by destruct Hgap) Hmerge) as Hm1.
  cbn [last_fragment s0 set_caml_fl_cur_size] in Hm1.
  specialize (Hm1 ltac:(intros E; destruct (Hfr E) as [hf Hf]; exists hf; by destruct Hf) eq_refl Ht).
  destruct (absorb_fragment (last_fragment s) b z) as [b1 z1] eqn:Ef.
  assert (z1 <= z + 1) as Hz1 by (unfold absorb_fragment in Ef; case_match; simplify_eq; lia).
  destruct (absorb_next b1 z1 p2) as [z2 p2'] eqn:En.
  unfold caml_fl_merge_block_r. apply wp_bind. eapply f_ld; [apply Hgap|].
  apply wp_bind. unfold add_cur_size. apply f_modify.
  rewrite (inv_size _ _ Hinv), (u64_small) by
    (pose proof (total_nonneg _ _ (inv_sorted _ _ Hinv)); destruct Hgap; unfold word, Whsize_hd, Whsize_wosize; lia).
  replace (total (p1 ++ p2) + Whsize_hd hd) with (total (p1 ++ p2) + z + 1)
    by (destruct Hgap; unfold Whsize_hd, Whsize_wosize; lia). fold s0.
  apply wp_bind, f_get. pose proof (inv_chain _ _ Hinv) as Hc. apply chain_app in Hc as [_ Hc%chain_first].
  apply wp_bind. change (caml_fl_merge s0) with (caml_fl_merge s). rewrite Hmerge.
  eapply f_ld; [exact Hc|]. change (policy s0) with (policy s). rewrite (inv_policy _ _ Hinv).
  apply wp_bind, wp_ret. apply wp_bind. eapply wp_conseq; [exact Hm1|]. clear Hm1.
  intros [b1' hd1'] s1 (hd1 & [= -> ->] & Hsh1 & Hg1 & Em1 & Eh1 & Ef1 & Es1 & Fr1).
  change (Fl_head s0) with (Fl_head s) in Eh1. change (caml_fl_merge s0) with (caml_fl_merge s) in Em1.
  change (last_fragment s0) with (last_fragment s) in Ef1. rewrite Hmerge in Em1. rewrite <- Eh1 in Em1 |- *.
  pose proof (merge_next_spec s1 p1 p2 b1 z1 hd1 Hsh1 Hg1 Em1) as Hm2. rewrite En in Hm2.
  apply wp_bind. eapply wp_conseq; [exact Hm2|]. clear Hm2.
  intros [[hd2' adj] cur] s2 (hd2 & [= -> -> ->] & Hsh2 & Hg2 & Et2 & Eh2 & Es2 & Em2 & Ef2 & Fr2).
  rewrite Em1, <- Eh2 in Em2. rewrite <- Eh2, <- Ef1, <- Ef2.
  assert (caml_fl_cur_size s2 = total (p1 ++ p2') + z2 + 1) as Hcs.
  { rewrite Es2, Es1, !total_app. lia. }
  apply wp_bind. eapply wp_conseq; [apply (insert_merged_spec s2 p1 p2' b1 z2 hd2 Hsh2 Hg2 Em2 Hcs)|].
  { rewrite total_app in Ht |- *. lia. }
  intros _ s3 (Hi & Eh3 & Em3 & Ef3 & Fr3). apply wp_ret.
  pose proof (gap_size _ _ _ _ _ _ Hg2) as Hz2. split_and!; try done.
  - apply join_prefix_top; [lia|apply Hg2].
  - intros a. rewrite join_prev_covered; [|lia|].
    + pose proof (absorb_next_covered b1 z1 p2 p1 a) as Hcov. rewrite En in Hcov. apply Hcov; apply Hg1.
    + by destruct (gap_cells _ _ _ _ _ _ Hsh2 Hg2) as (_ & _ & _ & _ & _ & _ & _ & _ & _ & _ & _ & _ & _ & Hs1 & _).
  - destruct (gap_cells _ _ _ _ _ _ Hsh2 Hg2) as (_ & _ & _ & _ & _ & _ & _ & _ & _ & _ & _ & _ & _ & Hs1 & _).
    assert (z1 <= z2) as Hz12.
    { destruct Hg1. unfold absorb_next in En. destruct p2 as [|[c zc] p2]; [by simplify_eq|]. destruct gap_after0 as (_ & Hzc & _).
      destruct (_ && _) in En; injection En as <- <-; lia. }
    rewrite Eh2 in *. rewrite Eh1 in *. change (Fl_head s0) with (Fl_head s) in Fr1.
    apply (framed_free s s3 p1 b1 z2 p2'); [lia|done|]. eapply framed_trans; [exact Hz12|exact Fr1|].
    eapply framed_trans; [|exact Fr2|exact Fr3]. done.
Qed.

(** C10: under the next-fit policy, [caml_fl_merge_block_r] gives a swept block
    back to the list.  With
    [caml_fl_merge] on the last free block [p1] before the block, as the
    sweeper keeps it, and [last_fragment] naming the empty block just before
    it if there is one, the block is coalesced with that fragment and with the
    free block after it if they are adjacent and the size of the sum is at most
    [Max_wosize], and with the free block before it if they are adjacent and
    the size of the sum is less than [Max_wosize].  The list is again well formed and
    the free words are exactly the old ones and those of the block (and of
    the fragment absorbed), unless what results is an empty block, which is
    remembered as the new fragment.  No word
    outside the free blocks changes, the sentinel apart.  The result is the
    end of the merged block, and [caml_fl_merge] is again on the last free
    block before it. *)
Theorem merge_block_correct s p1 p2 b z hd :
  fl_inv s (p1 ++ p2) → caml_fl_merge s = last_bp (Fl_head s) p1 → gap s p1 p2 b z hd →
  (last_fragment s = Hp_bp b → ∃ hf, gap s p1 p2 (last_fragment s) 0 hf) →
  total (p1 ++ p2) + z + 2 < W →
  let '(b1, z1) := absorb_fragment (last_fragment s) b z in
  let '(z2, p2') := absorb_next b1 z1 p2 in
  wp (caml_fl_merge_block_r b) (λ adj s',
    adj = b1 + 8 * z2 ∧ fl_inv s' (join_prev p1 b1 z2 p2') ∧ Fl_head s' = Fl_head s ∧
    caml_fl_merge s' = last_bp (Fl_head s) (join_prefix p1 b1 z2) ∧
    top 8 (join_prefix p1 b1 z2) <= adj ∧
    last_fragment s' = (if is_fragment p1 b1 z2 then b1 else last_fragment s) ∧
    (∀ a, covered (join_prev p1 b1 z2 p2') a ∨ (is_fragment p1 b1 z2 = true ∧ Hd_bp b1 <= a < b1 + 8 * z2) ↔
         covered (p1 ++ p2) a ∨ Hd_bp b1 <= a < b1 + 8 * z1) ∧
    ∀ a, ¬ covered (join_prev p1 b1 z2 p2') a → a ≠ Fl_head s → a ≠ Hd_bp (Fl_head s) → mem s' !! a = mem s !! a) s.
Proof. apply merge_block_spec. Qed.

(** ** Witnesses *)

(** Three free blocks; an empty block and a block of three words lie between
    the first two of them. *)
Definition ex_free : fl :=
  Fl (list_to_map [(56, blue 0); (64, 1024); (1016, blue 4); (1024, 1104);
        (1056, Make_header 0 0 Caml_white); (1064, Make_header 3 7 Caml_white); (1072, 1);
        (1096, blue 5); (1104, 2048); (2040, blue 10); (2048, 0)])
     64 1104 0 1024 22 1064 [] 0 0 Policy_next_fit 0.

Lemma ex_free_inv : fl_inv ex_free [(1024, 4); (1104, 5); (2048, 10)].
Proof.
  split; try reflexivity.
  - assert (∀ b z, 0 <= z <= Max_wosize → mem ex_free !! Hd_bp b = Some (blue z) → free_hd (mem ex_free) b z) as Hf.
    { intros b z Hz E. destruct (blue_free z (mem ex_free) b Hz) as (hd & H1 & H2).
      rewrite lookup_insert_eq in H1. simplify_eq. by exists (blue z). }
    repeat split; try reflexivity; apply Hf; (reflexivity || done).
  - cbn. unfold Hd_bp, Max_wosize. lia.
  - intros b s Hin. rewrite !elem_of_cons, elem_of_nil in Hin. unfold Hd_bp. cbn. destruct_or!; simplify_eq; lia.
  - right. right. left.
  - right. left.
Qed.

(** [next_fit_correct] at a request of six words: the block of ten is split. *)
Lemma next_fit_correct_witness :
  wp (caml_fl_allocate_r 4 6) (λ hp s', hp = 2048 + 8 * 10 - 8 * 7 ∧
    ∃ l', fl_inv s' l' ∧ total l' + 7 = 22) ex_free.
Proof.
  eapply wp_conseq; [apply (next_fit_correct 4 6 ex_free _ ex_free_inv); cbn; lia|].
  intros hp s' [(-> & HF & _)|(_ & q1 & b & sz & q2 & E & Hle & -> & Hi & _)].
  - rewrite !Forall_cons in HF. cbn in HF. lia.
  - destruct q1 as [|x1 [|x2 [|x3 [|x4 q1]]]]; cbn in E; simplify_eq; try (cbn in Hle; lia).
    split; [done|]. eexists. split; [exact Hi|]. reflexivity.
Defined.

Lemma ex_free_gap : gap ex_free [(1024, 4)] [(1104, 5); (2048, 10)] 1072 3 (Make_header 3 7 Caml_white).
Proof.
  destruct (header_fields 3 7 Caml_white) as (Hw & Hwo & _ & _);
    [unfold Max_wosize; lia|lia|unfold wf_color; tauto|].
  split; try done; try (unfold Hd_bp, Max_wosize in *; cbn; lia).
Qed.

(** [merge_block_correct] where the block, the fragment before it and both
    neighbouring free blocks become one. *)
Lemma merge_block_correct_witness :
  wp (caml_fl_merge_block_r 1072) (λ adj s', adj = 1144 ∧ fl_inv s' [(1024, 15); (2048, 10)] ∧
    caml_fl_merge s' = 1024) ex_free.
Proof.
  eapply wp_conseq; [apply (merge_block_correct ex_free [(1024, 4)] [(1104, 5); (2048, 10)] 1072 3 _
    ex_free_inv eq_refl ex_free_gap)|]; [|done|].
  - intros _. exists (Make_header 0 0 Caml_white). 
    split; try done; unfold Hd_bp, Max_wosize; cbn; lia.
  - intros adj s' (-> & Hi & _ & Hm & _). split_and!; [done|exact Hi|exact Hm].
Defined.

End Freelist.
