(* ===== verification/PageTable.v ===== *)
(** The page table of the major heap on 64-bit platforms (byterun/memory.c):
    a hash table with linear probing from page addresses to 8-bit flags.

    The state is [struct page_table].  [calloc] is a parameter: it returns
    [None] when it fails.  The theorems relate the table to a finite map from
    page numbers to flags. *)

From S2P Require Import Prelude.

Module PageTable.

Definition Page_log : Z := 12.
Definition Page_size : Z := Z.shiftl 1 Page_log.
Definition Page (p : Z) : Z := Z.shiftr (u64 p) Page_log.
Definition Page_mask : Z := u64 (Z.shiftl (-1) Page_log).

Record page_table : Type := Page_table {
  size : Z;
  shift : Z;
  mask : Z;
  occupancy : Z;
  entries : list Z
}.

Definition set_occupancy (x : Z) (t : page_table) : page_table :=
  Page_table (size t) (shift t) (mask t) x (entries t).
Definition set_entries (x : list Z) (t : page_table) : page_table :=
  Page_table (size t) (shift t) (mask t) (occupancy t) x.

Abbreviation PM := (M page_table fault).

Definition Page_entry_matches (entry addr : Z) : bool :=
  Z.land (Z.lxor entry addr) Page_mask =? 0.

Definition HASH_FACTOR : Z := 11400714819323198486.
Definition Hash (t : page_table) (v : Z) : Z := Z.shiftr (u64 (v * HASH_FACTOR)) (shift t).

(** [caml_page_table.entries[h]] *)
Definition entry (h : Z) : PM Z :=
  λ t, if 0 <=? h then
         match entries t !! Z.to_nat h with Some e => inr (t, e) | None => inl (BadLoad h) end
       else inl (BadLoad h).
Definition set_entry (h e : Z) : PM unit :=
  λ t, if (0 <=? h) && (h <? Z.of_nat (length (entries t)))
       then inr (set_entries (<[Z.to_nat h := e]> (entries t)) t, tt)
       else inl (BadStore h).

(** [h = (h + 1) & caml_page_table.mask] *)
Definition next_slot (h : Z) : PM Z :=
  let* t := mget in mreturn (Z.land (u64 (h + 1)) (mask t)).

Fixpoint lookup_loop (fuel : nat) (addr h e : Z) : PM Z :=
  match fuel with
  | O => mfail OutOfFuel
  | S fuel =>
      if e =? 0 then mreturn 0 else
      let* h := next_slot h in
      let* e := entry h in
      if Page_entry_matches e addr then mreturn (Z.land e 255)
      else lookup_loop fuel addr h e
  end.

Definition caml_page_table_lookup_r (addr : Z) : PM Z :=
  let* t := mget in
  let h := Hash t (Page addr) in
  let* e := entry h in
  if Page_entry_matches e addr then mreturn (Z.land e 255)
  else lookup_loop (length (entries t)) addr h e.

Section Calloc.
Variable calloc : Z → option (list Z).

(** [while (size < 2 * pagesize) { size <<= 1; shift -= 1; }] *)
Fixpoint grow_table (fuel : nat) (pagesize size shift : Z) : option (Z * Z) :=
  match fuel with
  | O => None
  | S fuel =>
      if size <? u64 (2 * pagesize)
      then grow_table fuel pagesize (u64 (Z.shiftl size 1)) (s32 (shift - 1))
      else Some (size, shift)
  end.

(** The table before initialization is irrelevant; when [calloc] fails the
    entries are the [NULL] array. *)
Definition caml_page_table_initialize_r (bytesize : Z) : PM Z :=
  let pagesize := Page bytesize in
  match grow_table 65 pagesize 1 64 with
  | None => mfail OutOfFuel
  | Some (sz, sh) =>
      match calloc sz with
      | None => mput (Page_table sz sh (u64 (sz - 1)) 0 []) ;;; mreturn (-1)
      | Some es => mput (Page_table sz sh (u64 (sz - 1)) 0 es) ;;; mreturn 0
      end
  end.

(** [while (caml_page_table.entries[h] != 0) h = (h + 1) & caml_page_table.mask;] *)
Fixpoint free_slot (fuel : nat) (h : Z) : PM Z :=
  match fuel with
  | O => mfail OutOfFuel
  | S fuel =>
      let* e := entry h in
      if e =? 0 then mreturn h else
      let* h := next_slot h in
      free_slot fuel h
  end.

(** The loop over the old entries. *)
Fixpoint rehash (old : list Z) : PM unit :=
  match old with
  | [] => mreturn tt
  | e :: old =>
      (if e =? 0 then mreturn tt else
       let* t := mget in
       let* h := free_slot (S (length (entries t))) (Hash t (Page e)) in
       set_entry h e) ;;;
      rehash old
  end.

Definition caml_page_table_resize_r : PM Z :=
  let* old := mget in
  match calloc (u64 (2 * size old)) with
  | None => mreturn (-1)
  | Some new_entries =>
      let sz := u64 (2 * size old) in
      mput (Page_table sz (s32 (shift old - 1)) (u64 (sz - 1)) (occupancy old) new_entries) ;;;
      rehash (take (Z.to_nat (size old)) (entries old)) ;;;
      mreturn 0
  end.

(** The loop of [caml_page_table_modify_r]. *)
Fixpoint modify_loop (fuel : nat) (page toclear toset h : Z) : PM unit :=
  match fuel with
  | O => mfail OutOfFuel
  | S fuel =>
      let* e := entry h in
      if e =? 0 then
        set_entry h (Z.lor page toset) ;;;
        let* t := mget in mput (set_occupancy (u64 (occupancy t + 1)) t)
      else if Page_entry_matches e page then
        set_entry h (Z.lor (Z.land e (Z.lnot toclear)) toset)
      else
        let* h := next_slot h in
        modify_loop fuel page toclear toset h
  end.

Definition caml_page_table_modify_r (page toclear toset : Z) : PM Z :=
  let* t := mget in
  let* r := (if size t <=? u64 (occupancy t * 2) then caml_page_table_resize_r else mreturn 0) in
  if negb (r =? 0) then mreturn (-1) else
  let* t := mget in
  modify_loop (S (length (entries t))) page toclear toset (Hash t (Page page)) ;;;
  mreturn 0.

(** [for (p = pstart; p <= pend; p += Page_size) if (modify (...) != 0) return -1;] *)
Fixpoint modify_pages (fuel : nat) (p pend toclear toset : Z) : PM Z :=
  match fuel with
  | O => mfail OutOfFuel
  | S fuel =>
      if p <=? pend then
        let* r := caml_page_table_modify_r p toclear toset in
        if negb (r =? 0) then mreturn (-1)
        else modify_pages fuel (u64 (p + Page_size)) pend toclear toset
      else mreturn 0
  end.

Definition pages_fuel (pstart pend : Z) : nat := Z.to_nat ((pend - pstart) / Page_size + 2).

Definition caml_page_table_add_r (kind start end_ : Z) : PM Z :=
  let pstart := Z.land start Page_mask in
  let pend := Z.land (u64 (end_ - 1)) Page_mask in
  modify_pages (pages_fuel pstart pend) pstart pend 0 kind.

Definition caml_page_table_remove_r (kind start end_ : Z) : PM Z :=
  let pstart := Z.land start Page_mask in
  let pend := Z.land (u64 (end_ - 1)) Page_mask in
  modify_pages (pages_fuel pstart pend) pstart pend kind 0.
End Calloc.

(** ** Pages and slots *)

Lemma Page_div x : word x → Page x = x / 4096.
Proof. intros Hx. unfold Page. rewrite u64_small by done. by rewrite Z.shiftr_div_pow2. Qed.

Lemma Page_mask_bits i : 0 <= i → Z.testbit Page_mask i = (12 <=? i) && (i <? 64).
Proof.
  intros Hi. change Page_mask with (Z.shiftl (Z.ones 52) 12). rewrite Z.shiftl_spec by done.
  destruct (Z.leb_spec 12 i); [|by rewrite Z.testbit_neg_r by lia]. cbn [andb].
  destruct (Z.ltb_spec i 64); [apply Z.ones_spec_low|apply Z.ones_spec_high]; lia.
Qed.

Lemma land_mask x : word x → Z.land x Page_mask = 4096 * (x / 4096).
Proof.
  intros Hx. rewrite Z.mul_comm. change 4096 with (2 ^ 12) at 1 2.
  rewrite <- Z.shiftr_div_pow2, <- Z.shiftl_mul_pow2 by lia. apply Z.bits_inj'. intros i Hi.
  rewrite Z.land_spec, Page_mask_bits, Z.shiftl_spec by done.
  destruct (Z.leb_spec 12 i); [|by rewrite (Z.testbit_neg_r _ (i - 12)), andb_false_r by lia].
  rewrite Z.shiftr_spec by lia. replace (i - 12 + 12) with i by lia. cbn [andb].
  destruct (Z.ltb_spec i 64); [apply andb_true_r|]. by rewrite word_bits, andb_false_r by done.
Qed.

Lemma matches_div e a : word e → word a → Page_entry_matches e a = (e / 4096 =? a / 4096).
Proof.
  intros He Ha. unfold Page_entry_matches. apply Bool.eq_iff_eq_true. rewrite !Z.eqb_eq.
  assert (Z.land (Z.lxor e a) Page_mask = Z.lxor (Z.land e Page_mask) (Z.land a Page_mask)) as ->.
  { apply Z.bits_inj'. intros i Hi. rewrite Z.land_spec, !Z.lxor_spec, !Z.land_spec.
    by destruct (Z.testbit e i), (Z.testbit a i), (Z.testbit Page_mask i). }
  rewrite Z.lxor_eq_0_iff, !land_mask by done. lia.
Qed.

(** The shape of a table of [2 ^ k] slots. *)
Record shape (t : page_table) (k : Z) : Prop := {
  shape_k : 1 <= k <= 60;
  shape_size : size t = 2 ^ k;
  shape_shift : shift t = 64 - k;
  shape_mask : mask t = 2 ^ k - 1;
  shape_length : Z.of_nat (length (entries t)) = 2 ^ k
}.

Lemma pow_range k : 1 <= k <= 60 → 2 <= 2 ^ k <= 1152921504606846976.
Proof.
  intros Hk. change 1152921504606846976 with (2 ^ 60). split; [change 2 with (2 ^ 1) at 1|]; apply Z.pow_le_mono_r; lia.
Qed.

Lemma Hash_range t k v : shape t k → 0 <= Hash t v < 2 ^ k.
Proof.
  intros [Hk _ Hs _ _]. unfold Hash. rewrite Hs, Z.shiftr_div_pow2 by lia.
  destruct (u64_range (v * HASH_FACTOR)) as [H1 H2].
  pose proof (Z.pow_pos_nonneg 2 (64 - k) ltac:(lia) ltac:(lia)).
  split; [by apply Z.div_pos|]. apply Z.div_lt_upper_bound; [done|].
  rewrite <- Z.pow_add_r by lia. replace (64 - k + k) with 64 by lia. exact H2.
Qed.

(** The [n]-th slot probed from [h]. *)
Definition slot (sz h : Z) (n : nat) : nat := Z.to_nat ((h + Z.of_nat n) mod sz).

Lemma slot_0 sz h : 0 <= h < sz → slot sz h 0 = Z.to_nat h.
Proof. intros Hh. unfold slot. rewrite Z.add_0_r, Z.mod_small by done. done. Qed.

Lemma slot_S sz h n : 0 < sz → slot sz h (S n) = slot sz ((h + 1) mod sz) n.
Proof.
  intros Hs. unfold slot. rewrite Zplus_mod_idemp_l. do 2 f_equal. lia.
Qed.

Lemma slot_lt sz h n : 0 < sz → (slot sz h n < Z.to_nat sz)%nat.
Proof. intros Hs. unfold slot. pose proof (Z.mod_pos_bound (h + Z.of_nat n) sz Hs). lia. Qed.

Lemma slot_surj sz h i : 0 < sz → 0 <= h → (i < Z.to_nat sz)%nat → ∃ n, Z.of_nat n < sz ∧ slot sz h n = i.
Proof.
  intros Hs Hh Hi. exists (Z.to_nat ((Z.of_nat i - h) mod sz)).
  pose proof (Z.mod_pos_bound (Z.of_nat i - h) sz Hs) as Hb. rewrite Z2Nat.id by lia. split; [lia|].
  unfold slot. rewrite Z2Nat.id by lia. rewrite Zplus_mod_idemp_r.
  replace (h + (Z.of_nat i - h)) with (Z.of_nat i) by lia. rewrite Z.mod_small by lia. lia.
Qed.

Lemma next_slot_spec t k h (Q : Z → page_table → Prop) :
  shape t k → 0 <= h < 2 ^ k → Q ((h + 1) mod 2 ^ k) t → wp (next_slot h) Q t.
Proof.
  intros [Hk _ _ Hm _] Hh HQ. pose proof (pow_range k Hk) as Hp. unfold next_slot. apply wp_bind. unfold wp, mget, mreturn.
  rewrite Hm, u64_small by (unfold word, W; lia).
  replace (2 ^ k - 1) with (Z.ones k) by (rewrite Z.ones_equiv; lia). by rewrite Z.land_ones by lia.
Qed.

Lemma entry_spec t h e (Q : Z → page_table → Prop) :
  0 <= h → entries t !! Z.to_nat h = Some e → Q e t → wp (entry h) Q t.
Proof. intros Hh He HQ. unfold wp, entry. rewrite (proj2 (Z.leb_le _ _)) by done. by rewrite He. Qed.

Lemma set_entry_spec t h e e0 (Q : unit → page_table → Prop) :
  0 <= h → entries t !! Z.to_nat h = Some e0 →
  Q tt (set_entries (<[Z.to_nat h := e]> (entries t)) t) → wp (set_entry h e) Q t.
Proof.
  intros Hh He HQ. unfold wp, set_entry. apply lookup_lt_Some in He.
  by rewrite (proj2 (Z.leb_le _ _)), (proj2 (Z.ltb_lt _ _)) by lia.
Qed.

(** ** Probing *)

Lemma least (P : nat → Prop) `{!∀ n, Decision (P n)} n :
  P n → ∃ k, (k <= n)%nat ∧ P k ∧ ∀ j, (j < k)%nat → ¬ P j.
Proof.
  induction n as [n IH] using lt_wf_ind. intros Hn.
  destruct (decide (Exists P (seq 0 n))) as [(j & Hj & HP)%Exists_exists|Hno].
  - apply elem_of_seq in Hj. destruct (IH j ltac:(lia) HP) as (k & Hk & HP' & Hlt). exists k. split_and!; [lia|done|done].
  - exists n. split_and!; [done..|]. intros j Hj HP. apply Hno, Exists_exists. exists j. split; [apply elem_of_seq; lia|done].
Qed.

(** Where the search for page [p] stops. *)
Definition stops (p e : Z) : Prop := e = 0 ∨ e / 4096 = p.
#[export] Instance stops_dec p e : Decision (stops p e).
Proof. unfold stops. apply _. Defined.

(** The search for page [p] from [h] passes [n] slots and stops at the entry [e]. *)
Definition probes (sz : Z) (es : list Z) (p h : Z) (n : nat) (e : Z) : Prop :=
  Z.of_nat n < sz ∧ es !! slot sz h n = Some e ∧ stops p e ∧
  ∀ j, (j < n)%nat → ∃ e', es !! slot sz h j = Some e' ∧ ¬ stops p e'.

Definition count (es : list Z) : Z := Z.of_nat (length (filter (λ e, e ≠ 0) es)).

Lemma count_cons e es : count (e :: es) = (if decide (e = 0) then 0 else 1) + count es.
Proof. unfold count. rewrite filter_cons. repeat case_decide; cbn [length]; try done; lia. Qed.

Lemma count_bounds es : 0 <= count es <= Z.of_nat (length es).
Proof. induction es as [|e es IH]; [done|]. rewrite count_cons. cbn [length]. case_decide; lia. Qed.

Lemma count_replicate n : count (replicate n 0) = 0.
Proof. induction n as [|n IH]; [done|]. cbn [replicate]. by rewrite count_cons, IH. Qed.

Lemma count_room es : count es < Z.of_nat (length es) → ∃ i, es !! i = Some 0.
Proof.
  induction es as [|e es IH]; [done|]. rewrite count_cons. cbn [length]. case_decide as E.
  - intros _. exists 0%nat. by subst e.
  - intros H. destruct IH as [i Hi]; [lia|]. by exists (S i).
Qed.

Lemma count_insert es i e0 e : es !! i = Some e0 → e ≠ 0 →
  count (<[i := e]> es) = count es + (if decide (e0 = 0) then 1 else 0).
Proof.
  revert i. induction es as [|x es IH]; intros [|i] Hi He; try done; cbn in Hi.
  - change (<[0%nat := e]> (x :: es)) with (e :: es). rewrite !count_cons. simplify_eq.
    rewrite (decide_False (P := e = 0)) by done. case_decide; lia.
  - change (<[S i := e]> (x :: es)) with (x :: <[i := e]> es). rewrite !count_cons, (IH i Hi He). lia.
Qed.

Lemma probes_exist sz es p h :
  0 < sz → 0 <= h → Z.of_nat (length es) = sz → count es < sz → ∃ n e, probes sz es p h n e.
Proof.
  intros Hs Hh Hl Hc. destruct (count_room es ltac:(lia)) as [i Hi].
  assert (i < Z.to_nat sz)%nat as Hlt by (apply lookup_lt_Some in Hi; lia).
  destruct (slot_surj sz h i Hs Hh Hlt) as (n0 & Hn0 & Es).
  assert (∀ n, ∃ e, es !! slot sz h n = Some e) as Hsome.
  { intros n. apply lookup_lt_is_Some. pose proof (slot_lt sz h n Hs). lia. }
  destruct (least (λ n, stops p (es !!! slot sz h n)) n0) as (n & Hn & HP & Hno).
  { left. rewrite Es. by apply list_lookup_total_correct. }
  destruct (Hsome n) as [e He]. exists n, e. rewrite (list_lookup_total_correct _ _ _ He) in HP.
  split_and!; [lia|done..|]. intros j Hj. destruct (Hsome j) as [e' He']. exists e'. split; [done|].
  intros Hst. apply (Hno j Hj). by rewrite (list_lookup_total_correct _ _ _ He').
Qed.

(** ** The table as a map from page numbers to flags *)

(** All slots from [h] to [i] are in use. *)
Definition reach (sz : Z) (es : list Z) (h : Z) (i : nat) : Prop :=
  ∃ n, Z.of_nat n < sz ∧ i = slot sz h n ∧
  ∀ j, (j < n)%nat → ∃ e, es !! slot sz h j = Some e ∧ e ≠ 0.

(** An entry stands for a binding of [m]. *)
Definition entry_of (m : gmap Z Z) (e : Z) : Prop :=
  word e ∧ 0 < e / 4096 ∧ e mod 4096 < 256 ∧ m !! (e / 4096) = Some (e mod 4096).

Record table_ok (sz : Z) (hash : Z → Z) (es : list Z) (m : gmap Z Z) : Prop := {
  table_length : Z.of_nat (length es) = sz;
  table_entry : ∀ i e, es !! i = Some e → e ≠ 0 → entry_of m e ∧ reach sz es (hash (e / 4096)) i;
  table_unique : ∀ i j e e', es !! i = Some e → es !! j = Some e' → e ≠ 0 → e' ≠ 0 →
    e / 4096 = e' / 4096 → i = j
}.

(** Every binding of [m] is in one of the lists of entries. *)
Definition holds_all (m : gmap Z Z) (es : list Z) : Prop :=
  ∀ p f, m !! p = Some f → 0 < p ∧ 0 <= f < 256 ∧ 4096 * p + f ∈ es.

Record pt_inv (t : page_table) (m : gmap Z Z) : Prop := {
  inv_shape : ∃ k, shape t k;
  inv_table : table_ok (size t) (Hash t) (entries t) m;
  inv_all : holds_all m (entries t);
  inv_occupancy : occupancy t = count (entries t);
  inv_load : 2 * occupancy t <= size t
}.

Definition flags (m : gmap Z Z) (p : Z) : Z := default 0 (m !! p).

(** The search stops at the entry of the page if there is one. *)
Lemma probes_map sz hash es m p n e :
  table_ok sz hash es m → holds_all m es → 0 < p →
  probes sz es p (hash p) n e → 
  (e = 0 ∧ m !! p = None) ∨ (e ≠ 0 ∧ e / 4096 = p ∧ m !! p = Some (e mod 4096)).
Proof.
  intros Hok Hall Hp (Hn & He & Hst & Hno). destruct (decide (e = 0)) as [->|Hnz].
  - left. split; [done|]. destruct (m !! p) as [f|] eqn:Em; [exfalso|done].
    destruct (Hall _ _ Em) as (_ & Hf & [i Hi]%list_elem_of_lookup).
    assert ((4096 * p + f) / 4096 = p) as Ek by (Z.to_euclidean_division_equations; lia).
    destruct (table_entry _ _ _ _ Hok _ _ Hi ltac:(lia)) as [_ (n' & Hn' & -> & Hall')]. rewrite Ek in *.
    destruct (decide (n' < n)%nat) as [Hlt|Hge].
    + destruct (Hno n' Hlt) as (e' & He' & Hns). rewrite Hi in He'. simplify_eq. apply Hns. by right.
    + destruct (decide (n = n')) as [->|Hne]; [rewrite Hi in He; simplify_eq; lia|].
      destruct (Hall' n ltac:(lia)) as (e' & He' & Hnz). rewrite He in He'. by simplify_eq.
  - right. destruct Hst as [?|Ek]; [done|].
    destruct (table_entry _ _ _ _ Hok _ _ He Hnz) as [(_ & _ & _ & Hm) _]. by rewrite Ek in Hm.
Qed.

(** The search continues from the next slot. *)
Lemma probes_next sz es p h n e : 0 < sz →
  probes sz es p h (S n) e → probes sz es p ((h + 1) mod sz) n e.
Proof.
  intros Hs (Hn & He & Hst & Hno). rewrite slot_S in He by done. split_and!; [lia|done..|].
  intros j Hj. destruct (Hno (S j) ltac:(lia)) as (e' & He' & H'). rewrite slot_S in He' by done. by exists e'.
Qed.

(** The first slot of a search. *)
Lemma probes_first sz es p h n e : 0 <= h < sz → probes sz es p h n e →
  ∃ e0, es !! Z.to_nat h = Some e0 ∧
    match n with O => e0 = e ∧ stops p e | S _ => ¬ stops p e0 end.
Proof.
  intros Hh (Hn & He & Hst & Hno). destruct n as [|n].
  - rewrite slot_0 in He by done. by exists e.
  - destruct (Hno 0%nat ltac:(lia)) as (e0 & He0 & H0). rewrite slot_0 in He0 by done. by exists e0.
Qed.

Definition all_words (es : list Z) : Prop := ∀ i e, es !! i = Some e → word e.

Lemma table_words sz hash es m : table_ok sz hash es m → all_words es.
Proof.
  intros Hok i e He. destruct (decide (e = 0)) as [->|]; [lia_w|].
  by destruct (table_entry _ _ _ _ Hok _ _ He ltac:(done)) as [[Hw _] _].
Qed.

Lemma next_range k h : 1 <= k → 0 <= (h + 1) mod 2 ^ k < 2 ^ k.
Proof. intros Hk. apply Z.mod_pos_bound. apply Z.pow_pos_nonneg; lia. Qed.

Lemma lookup_loop_spec t k addr n h e0 e fuel :
  shape t k → word addr → all_words (entries t) → 0 <= h < 2 ^ k →
  entries t !! Z.to_nat h = Some e0 → e0 / 4096 ≠ addr / 4096 →
  probes (2 ^ k) (entries t) (addr / 4096) h n e → (n < fuel)%nat →
  wp (lookup_loop fuel addr h e0) (λ r t', t' = t ∧ r = if e / 4096 =? addr / 4096 then Z.land e 255 else 0) t.
Proof.
  intros Hsh Ha Hw. revert n h e0. induction fuel as [|fuel IH]; intros n h e0 Hh He0 Hne Hpr Hf; [lia|].
  cbn [lookup_loop]. pose proof (shape_k _ _ Hsh) as Hk. pose proof (next_range k h ltac:(lia)) as Hh'.
  destruct (probes_first _ _ _ _ _ _ Hh Hpr) as (e1 & He1 & Hn). rewrite He0 in He1. injection He1 as <-.
  destruct n as [|n].
  - destruct Hn as [-> [->|?]]; [|done]. cbn [Z.eqb]. apply wp_ret. split; [done|].
    by rewrite (proj2 (Z.eqb_neq _ _)) by done.
  - rewrite (proj2 (Z.eqb_neq e0 0)) by (intros ->; apply Hn; by left).
    apply wp_bind. eapply next_slot_spec; [done..|]. apply probes_next in Hpr; [|apply Z.pow_pos_nonneg; lia].
    destruct (probes_first _ _ _ _ _ _ Hh' Hpr) as (e1 & He1 & Hn').
    apply wp_bind. eapply entry_spec; [lia|exact He1|]. rewrite matches_div by (try done; by eapply Hw).
    destruct (Z.eqb_spec (e1 / 4096) (addr / 4096)) as [Em|Em].
    + destruct n as [|n]; [destruct Hn' as [<- _]|destruct Hn'; by right].
      apply wp_ret. split; [done|]. by rewrite (proj2 (Z.eqb_eq _ _)) by done.
    + eapply IH; [done..|]. lia.
Qed.

Lemma entry_flags e : word e → e mod 4096 < 256 → Z.land e 255 = e mod 4096.
Proof.
  intros [He _] Hf. change 255 with (Z.ones 8). rewrite Z.land_ones by lia. change (2 ^ 8) with 256.
  rewrite <- (Z.mod_small (e mod 4096) 256) at 1 by (split; [apply Z.mod_pos_bound; lia|done]).
  change 4096 with (256 * 16). rewrite Z.rem_mul_r by lia. rewrite (Z.mul_comm 256), Z_mod_plus_full.
  by rewrite Zmod_mod.
Qed.

(** The lookup of an address terminates and returns the flags of its
    page, zero if the page is not in the table; the table does not change. *)
Theorem lookup_correct t m addr :
  pt_inv t m → word addr →
  wp (caml_page_table_lookup_r addr) (λ r t', t' = t ∧ r = flags m (addr / 4096)) t.
Proof.
  intros [[k Hsh] Hok Hall Hocc Hload] Ha. pose proof (shape_k _ _ Hsh) as Hk. pose proof (pow_range k Hk) as Hp.
  rewrite (shape_size _ _ Hsh) in *. pose proof (table_words _ _ _ _ Hok) as Hw.
  unfold caml_page_table_lookup_r. apply wp_bind. unfold wp at 1, mget. rewrite Page_div by done.
  pose proof (Hash_range t k (addr / 4096) Hsh) as Hh. set (h := Hash t (addr / 4096)) in *.
  destruct (probes_exist (2 ^ k) (entries t) (addr / 4096) h) as (n & e & Hpr);
    [lia|lia|exact (table_length _ _ _ _ Hok)|lia|].
  assert ((if e / 4096 =? addr / 4096 then Z.land e 255 else 0) = flags m (addr / 4096)) as Hres.
  { unfold flags. destruct (decide (addr / 4096 = 0)) as [E0|Hne].
    - destruct (m !! (addr / 4096)) eqn:Em; [exfalso; destruct (Hall _ _ Em); lia|]. cbn.
      destruct (Z.eqb_spec (e / 4096) (addr / 4096)) as [E|E]; [|done].
      destruct (decide (e = 0)) as [->|Hnz]; [done|].
      destruct Hpr as (_ & He & _). destruct (table_entry _ _ _ _ Hok _ _ He Hnz) as [(_ & ? & _) _]. lia.
    - assert (0 < addr / 4096) as Hpos by (destruct Ha; pose proof (Z.div_pos addr 4096); lia).
      destruct (probes_map _ _ _ _ _ _ _ Hok Hall Hpos Hpr)
        as [[-> ->]|(Hnz & -> & ->)].
      + cbn. by destruct (_ =? _).
      + rewrite Z.eqb_refl. cbn. destruct Hpr as (_ & He & _).
        destruct (table_entry _ _ _ _ Hok _ _ He Hnz) as [(Hwe & _ & Hf & _) _]. by apply entry_flags. }
  rewrite <- Hres. destruct (probes_first _ _ _ _ _ _ Hh Hpr) as (e0 & He0 & Hn).
  apply wp_bind. eapply entry_spec; [lia|exact He0|]. rewrite matches_div by (try done; by eapply Hw).
  destruct (Z.eqb_spec (e0 / 4096) (addr / 4096)) as [Em|Em].
  - destruct n as [|n]; [destruct Hn as [<- _]|destruct Hn; by right].
    apply wp_ret. split; [done|]. by rewrite (proj2 (Z.eqb_eq _ _)) by done.
  - eapply lookup_loop_spec; [done..|]. destruct Hpr as [Hlt _]. pose proof (shape_length _ _ Hsh). lia.
Qed.

(** ** Updating an entry *)

Lemma page_of p f : 0 <= f < 4096 → (4096 * p + f) / 4096 = p.
Proof. intros. Z.to_euclidean_division_equations; lia. Qed.
Lemma flags_of p f : 0 <= f < 4096 → (4096 * p + f) mod 4096 = f.
Proof. intros. Z.to_euclidean_division_equations; lia. Qed.

(** The only slot that may hold page [p] is [i]. *)
Definition only_at (es : list Z) (p : Z) (i : nat) : Prop :=
  ∀ j e, es !! j = Some e → e ≠ 0 → e / 4096 = p → j = i.

Lemma reach_insert sz es h j i e : e ≠ 0 → reach sz es h j → reach sz (<[i := e]> es) h j.
Proof.
  intros He (n & Hn & -> & Hall). exists n. split_and!; [done..|]. intros j Hj.
  destruct (Hall j Hj) as (e' & He' & Hnz). destruct (decide (i = slot sz h j)) as [->|Hne].
  - exists e. rewrite list_lookup_insert_eq by (by eapply lookup_lt_Some). done.
  - exists e'. by rewrite list_lookup_insert_ne.
Qed.

Lemma table_set sz hash es m p i e0 f :
  table_ok sz hash es m → es !! i = Some e0 → only_at es p i → reach sz es (hash p) i →
  0 < p → 0 <= f < 256 → 4096 * p + f < W →
  table_ok sz hash (<[i := 4096 * p + f]> es) (<[p := f]> m).
Proof.
  intros Hok Hi Honly Hr Hp Hf Hw. pose proof (page_of p f ltac:(lia)) as Epg. pose proof (flags_of p f ltac:(lia)) as Efl.
  pose proof (lookup_lt_Some _ _ _ Hi) as Hlt.
  assert (∀ j e, <[i := 4096 * p + f]> es !! j = Some e → e ≠ 0 →
    (j = i ∧ e = 4096 * p + f) ∨ (j ≠ i ∧ es !! j = Some e ∧ e / 4096 ≠ p)) as Hcase.
  { intros j e He Hnz. destruct (decide (i = j)) as [<-|Hne].
    - rewrite list_lookup_insert_eq in He by done. left. by simplify_eq.
    - rewrite list_lookup_insert_ne in He by done. right. split_and!; [done..|]. intros Ek.
      by apply Hne; symmetry; apply (Honly j e). }
  split.
  - rewrite length_insert. apply Hok.
  - intros j e He Hnz. destruct (Hcase j e He Hnz) as [[-> ->]|(Hne & He' & Hk)].
    + rewrite Epg. split; [|by apply reach_insert; [lia|]].
      unfold entry_of. rewrite Epg, Efl, lookup_insert_eq. split_and!; [lia_w|lia|lia|done].
    + destruct (table_entry _ _ _ _ Hok _ _ He' Hnz) as [(H1 & H2 & H3 & H4) H5].
      split; [|by apply reach_insert; [lia|]]. unfold entry_of. by rewrite lookup_insert_ne by done.
  - intros j j' e e' He He' Hnz Hnz' Ek.
    destruct (Hcase j e He Hnz) as [[-> ->]|(Hne & He1 & Hk)], (Hcase j' e' He' Hnz') as [[-> ->]|(Hne' & He1' & Hk')];
      rewrite ?Epg in *; try done. by eapply (table_unique _ _ _ _ Hok).
Qed.

Lemma holds_set m es p i e0 f :
  holds_all m es → es !! i = Some e0 → (e0 = 0 ∨ e0 / 4096 = p) → 0 < p → 0 <= f < 256 →
  holds_all (<[p := f]> m) (<[i := 4096 * p + f]> es).
Proof.
  intros Hall Hi He Hp Hf q g Hq. pose proof (lookup_lt_Some _ _ _ Hi) as Hlt.
  destruct (decide (p = q)) as [<-|Hne].
  - rewrite lookup_insert_eq in Hq. simplify_eq. split_and!; [lia..|].
    apply list_elem_of_lookup. exists i. by apply list_lookup_insert_eq.
  - rewrite lookup_insert_ne in Hq by done. destruct (Hall _ _ Hq) as (H1 & H2 & [j Hj]%list_elem_of_lookup).
    split_and!; [lia..|]. apply list_elem_of_lookup. exists j. rewrite list_lookup_insert_ne; [done|].
    intros <-. rewrite Hi in Hj. simplify_eq. destruct He as [He|He]; [lia|]. rewrite page_of in He by lia. done.
Qed.

Lemma probes_reach sz es p h n e : probes sz es p h n e → reach sz es h (slot sz h n).
Proof.
  intros (Hn & He & Hst & Hno). exists n. split_and!; [done..|]. intros j Hj.
  destruct (Hno j Hj) as (e' & He' & Hs). exists e'. split; [done|]. intros ->. apply Hs. by left.
Qed.

(** The loop of [caml_page_table_modify_r] stops where the search does. *)
Lemma modify_loop_spec t k page c s n h e fuel :
  shape t k → word page → all_words (entries t) → 0 <= h < 2 ^ k →
  probes (2 ^ k) (entries t) (page / 4096) h n e → (n < fuel)%nat →
  wp (modify_loop fuel page c s h) (λ _ t',
    let set x := set_entries (<[slot (2 ^ k) h n := x]> (entries t)) t in
    t' = if e =? 0 then set_occupancy (u64 (occupancy t + 1)) (set (Z.lor page s))
         else set (Z.lor (Z.land e (Z.lnot c)) s)) t.
Proof.
  intros Hsh Ha Hw. revert n h. induction fuel as [|fuel IH]; intros n h Hh Hpr Hf; [lia|].
  cbn [modify_loop]. pose proof (shape_k _ _ Hsh) as Hk. pose proof (next_range k h ltac:(lia)) as Hh'.
  assert (0 < 2 ^ k) as Hpos by (apply Z.pow_pos_nonneg; lia).
  destruct (probes_first _ _ _ _ _ _ Hh Hpr) as (e0 & He0 & Hn).
  apply wp_bind. eapply entry_spec; [lia|exact He0|].
  destruct n as [|n].
  - destruct Hn as [-> Hst]. rewrite slot_0 by done. destruct (Z.eqb_spec e 0) as [->|Hnz].
    + apply wp_bind. eapply set_entry_spec; [lia|exact He0|]. apply wp_bind. done.
    + rewrite matches_div by (try done; by eapply Hw). destruct Hst as [?|Em]; [done|].
      rewrite (proj2 (Z.eqb_eq _ _)) by done. eapply set_entry_spec; [lia|exact He0|]. done.
  - rewrite (proj2 (Z.eqb_neq e0 0)) by (intros ->; apply Hn; by left).
    rewrite matches_div by (try done; by eapply Hw).
    rewrite (proj2 (Z.eqb_neq (e0 / 4096) _)) by (intros Em; apply Hn; by right).
    apply wp_bind. eapply next_slot_spec; [done..|]. rewrite slot_S by done.
    apply IH; [done|by apply probes_next|lia].
Qed.

(** The flags after [toclear] has been removed and [toset] added. *)
Definition update_flags (f toclear toset : Z) : Z := Z.lor (Z.land f (Z.lnot toclear)) toset.

Lemma update_flags_range f c s : 0 <= f < 256 → 0 <= s < 256 → 0 <= update_flags f c s < 256.
Proof.
  intros Hf Hs. unfold update_flags. change 256 with (2 ^ 8) in *. apply bits_small; [lia|]. intros i Hi.
  by rewrite Z.lor_spec, Z.land_spec, (small_bits f 8), (small_bits s 8) by done.
Qed.

(** Setting flags keeps the page. *)
Lemma new_entry p s : 0 <= s < 256 → Z.lor (4096 * p) s = 4096 * p + s.
Proof. intros Hs. rewrite (Z.mul_comm 4096). change 4096 with (2 ^ 12). apply lor_shifted_low; lia. Qed.

Lemma update_entry p f c s : 0 <= f < 256 → 0 <= c < 256 → 0 <= s < 256 →
  Z.lor (Z.land (4096 * p + f) (Z.lnot c)) s = 4096 * p + update_flags f c s.
Proof.
  intros Hf Hc Hs. rewrite <- (new_entry p f), <- new_entry by (try apply update_flags_range; lia).
  unfold update_flags. rewrite Z.lor_assoc. f_equal. apply Z.bits_inj'. intros i Hi.
  rewrite !Z.lor_spec, !Z.land_spec, !Z.lor_spec, Z.lnot_spec by done.
  destruct (Z.lt_ge_cases i 8) as [Hi8|Hi8].
  - rewrite (Z.mul_comm 4096). change 4096 with (2 ^ 12). by rewrite Z.mul_pow2_bits_low by lia.
  - change 256 with (2 ^ 8) in *. rewrite (small_bits f 8), (small_bits c 8) by done.
    by rewrite andb_true_r.
Qed.

Lemma shape_set_entries t k i x : shape t k → shape (set_entries (<[i := x]> (entries t)) t) k.
Proof. intros [? ? ? ? ?]. split; cbn; try done. by rewrite length_insert. Qed.

Lemma only_at_probed sz hash es m p n e :
  table_ok sz hash es m → holds_all m es → 0 < p → probes sz es p (hash p) n e → only_at es p (slot sz (hash p) n).
Proof.
  intros Hok Hall Hp Hpr j e' He' Hnz Ek. pose proof Hpr as (_ & He & _).
  destruct (table_entry _ _ _ _ Hok _ _ He' Hnz) as [(_ & _ & _ & Hm) _]. rewrite Ek in Hm.
  destruct (probes_map _ _ _ _ _ _ _ Hok Hall Hp Hpr) as [[_ Hn]|(Hnz' & Ek' & _)]; [congruence|].
  eapply (table_unique _ _ _ _ Hok); [done..|]. by rewrite Ek, Ek'.
Qed.

(** With room left, the loop updates the binding of the page. *)
Lemma modify_loop_map t m p c s :
  pt_inv t m → 2 * occupancy t < size t → 0 < p < 2 ^ 52 → 0 <= c < 256 → 0 <= s < 256 →
  wp (modify_loop (S (length (entries t))) (4096 * p) c s (Hash t p)) (λ _ t',
    pt_inv t' (<[p := update_flags (flags m p) c s]> m) ∧ size t' = size t) t.
Proof.
  intros [[k Hsh] Hok Hall Hocc Hload] Hroom Hp Hc Hs. pose proof (shape_k _ _ Hsh) as Hk. assert (0 < p) as Hp0 by lia.
  pose proof (pow_range k Hk) as Hpow. rewrite (shape_size _ _ Hsh) in *.
  pose proof (Hash_range t k p Hsh) as Hh. assert (4096 * p / 4096 = p) as Epg by (rewrite Z.mul_comm; by apply Z.div_mul).
  destruct (probes_exist (2 ^ k) (entries t) p (Hash t p)) as (n & e & Hpr);
    [lia|lia|exact (table_length _ _ _ _ Hok)|lia|].
  eapply wp_conseq; [apply (modify_loop_spec t k _ c s n _ e); rewrite ?Epg; try done|].
  { change (2 ^ 52) with 4503599627370496 in Hp. lia_w. }
  { by eapply table_words. }
  { destruct Hpr as [Hlt _]. pose proof (shape_length _ _ Hsh). lia. }
  intros _ t' ->. pose proof (only_at_probed _ _ _ _ _ _ _ Hok Hall Hp0 Hpr) as Honly.
  pose proof (probes_reach _ _ _ _ _ _ Hpr) as Hr. pose proof Hpr as (Hn & He & Hst & _).
  set (f := update_flags (flags m p) c s).
  assert (0 <= flags m p < 256 ∧ (e = 0 → flags m p = 0) ∧ (e ≠ 0 → e = 4096 * p + flags m p)) as (Hfr & Hf0 & Hf1).
  { unfold flags. destruct (probes_map _ _ _ _ _ _ _ Hok Hall Hp0 Hpr) as [[-> ->]|(Hnz & Ek & Em)]; cbn; [lia|].
    rewrite Em. cbn. destruct (Hall _ _ Em) as (_ & Hr' & _).
    pose proof (Z.div_mod e 4096 ltac:(lia)). split_and!; lia. }
  pose proof (update_flags_range (flags m p) c s Hfr Hs) as Hfs. fold f in Hfs.
  assert ((if e =? 0 then Z.lor (4096 * p) s else Z.lor (Z.land e (Z.lnot c)) s) = 4096 * p + f) as Ex.
  { destruct (Z.eqb_spec e 0) as [->|Hnz].
    - rewrite new_entry by done. unfold f. rewrite Hf0 by done. unfold update_flags. by rewrite Z.land_0_l, Z.lor_0_l.
    - rewrite (Hf1 Hnz) at 1. by apply update_entry. }
  assert (table_ok (2 ^ k) (Hash t) (<[slot (2 ^ k) (Hash t p) n := 4096 * p + f]> (entries t)) (<[p := f]> m)) as Hok'.
  { eapply table_set; try done; try lia. change (2 ^ 52) with 4503599627370496 in Hp. lia_w. }
  pose proof (holds_set m _ p _ e f Hall He Hst ltac:(lia) Hfs) as Hall'.
  pose proof (count_insert _ _ e (4096 * p + f) He ltac:(lia)) as Hcnt.
  pose proof (count_bounds (entries t)) as Hcb. destruct (Z.eqb_spec e 0) as [E0|Hnz]; rewrite Ex; (split; [|by rewrite <- (shape_size _ _ Hsh)]).
  - rewrite decide_True in Hcnt by done. split; cbn; rewrite ?(shape_size _ _ Hsh); try done.
    + exists k. pose proof (shape_set_entries t k (slot (2 ^ k) (Hash t p) n) (4096 * p + f) Hsh) as [? ? ? ? ?]. by split.
    + rewrite u64_small by lia_w. lia.
    + rewrite u64_small by lia_w. replace (2 ^ k) with (2 * 2 ^ (k - 1)) in * by (rewrite <- Z.pow_succ_r by lia; f_equal; lia). lia.
  - rewrite decide_False in Hcnt by done. split; cbn; rewrite ?(shape_size _ _ Hsh); try done; try lia.
    exists k. by apply shape_set_entries.
Qed.

(** ** Resizing *)

Lemma free_slot_spec t k p n h fuel :
  shape t k → 0 <= h < 2 ^ k → probes (2 ^ k) (entries t) p h n 0 → (n < fuel)%nat →
  wp (free_slot fuel h) (λ r t', t' = t ∧ 0 <= r ∧ Z.to_nat r = slot (2 ^ k) h n) t.
Proof.
  intros Hsh. pose proof (shape_k _ _ Hsh) as Hk. assert (0 < 2 ^ k) as Hpos by (apply Z.pow_pos_nonneg; lia).
  revert n h. induction fuel as [|fuel IH]; intros n h Hh Hpr Hf; [lia|].
  cbn [free_slot]. pose proof (next_range k h ltac:(lia)) as Hh'.
  destruct (probes_first _ _ _ _ _ _ Hh Hpr) as (e0 & He0 & Hn).
  apply wp_bind. eapply entry_spec; [lia|exact He0|]. destruct n as [|n].
  - destruct Hn as [-> _]. apply wp_ret. rewrite slot_0 by done. split_and!; [done|lia|done].
  - rewrite (proj2 (Z.eqb_neq e0 0)) by (intros ->; apply Hn; by left).
    apply wp_bind. eapply next_slot_spec; [done..|]. rewrite slot_S by done.
    apply IH; [done|by apply probes_next|lia].
Qed.

Lemma entry_of_key m e e' : entry_of m e → entry_of m e' → e / 4096 = e' / 4096 → e = e'.
Proof.
  intros (_ & _ & _ & H1) (_ & _ & _ & H2) Ek. rewrite <- Ek, H1 in H2. injection H2 as H2.
  rewrite (Z.div_mod e 4096), (Z.div_mod e' 4096) by lia. by rewrite Ek, H2.
Qed.

(** Inserting one entry that is not in the table. *)
Lemma rehash_one t k m e :
  shape t k → table_ok (2 ^ k) (Hash t) (entries t) m → count (entries t) < 2 ^ k →
  e ≠ 0 → entry_of m e → e ∉ entries t →
  wp (let* h := free_slot (S (length (entries t))) (Hash t (Page e)) in set_entry h e) (λ _ t', ∃ i,
    t' = set_entries (<[i := e]> (entries t)) t ∧ entries t !! i = Some 0 ∧
    table_ok (2 ^ k) (Hash t) (<[i := e]> (entries t)) m) t.
Proof.
  intros Hsh Hok Hc Hnz He Hni. pose proof (shape_k _ _ Hsh) as Hk. pose proof (pow_range k Hk) as Hpow.
  pose proof He as (Hw & Hp & Hf & Hm). rewrite Page_div by done. set (p := e / 4096) in *.
  assert (∀ j e', entries t !! j = Some e' → e' ≠ 0 → e' / 4096 ≠ p) as Hfresh.
  { intros j e' He' Hnz' Ek. destruct (table_entry _ _ _ _ Hok _ _ He' Hnz') as [He'' _].
    rewrite (entry_of_key m e' e He'' He Ek) in He'. apply Hni. by eapply list_elem_of_lookup_2. }
  pose proof (Hash_range t k p Hsh) as Hh.
  destruct (probes_exist (2 ^ k) (entries t) p (Hash t p)) as (n & e0 & Hpr);
    [lia|lia|exact (table_length _ _ _ _ Hok)|lia|].
  pose proof Hpr as (Hn & He0 & Hst & _).
  assert (e0 = 0) as ->.
  { destruct (decide (e0 = 0)) as [|Hnz0]; [done|]. destruct Hst as [|Ek]; [done|]. by destruct (Hfresh _ _ He0 Hnz0). }
  apply wp_bind. eapply wp_conseq; [apply (free_slot_spec t k p n _ _ Hsh Hh Hpr)|].
  { pose proof (shape_length _ _ Hsh). lia. }
  intros h _ (-> & Hh0 & Eh). eapply set_entry_spec; [done|by rewrite Eh|]. rewrite Eh.
  eexists. split; [done|]. split; [done|].
  assert (4096 * p + e mod 4096 = e) as Ee by (unfold p; symmetry; apply Z.div_mod; lia).
  pose proof (Z.mod_pos_bound e 4096). pose proof (table_set (2 ^ k) (Hash t) (entries t) m p (slot (2 ^ k) (Hash t p) n)
    0 (e mod 4096)) as Hset. rewrite Ee, (insert_id m p (e mod 4096) Hm) in Hset. apply Hset; try done; try lia.
  - intros j e' He' Hnz' Ek. by destruct (Hfresh _ _ He' Hnz').
  - by eapply probes_reach.
  - apply Hw.
Qed.

Definition no_repeat (old : list Z) : Prop := NoDup (filter (λ e, e ≠ 0) old).

Lemma rehash_spec old t k m :
  shape t k → table_ok (2 ^ k) (Hash t) (entries t) m → count (entries t) + count old < 2 ^ k →
  (∀ e, e ∈ old → e ≠ 0 → entry_of m e ∧ e ∉ entries t) → no_repeat old →
  wp (rehash old) (λ _ t', ∃ es, t' = set_entries es t ∧ shape t' k ∧ table_ok (2 ^ k) (Hash t) es m ∧
    count es = count (entries t) + count old ∧
    ∀ e, e ≠ 0 → e ∈ entries t ∨ e ∈ old → e ∈ es) t.
Proof.
  revert t. induction old as [|e old IH]; intros t Hsh Hok Hc Hold Hnd; cbn [rehash].
  { apply wp_ret. exists (entries t). destruct t. split_and!; try done.
    - change (count []) with 0. lia.
    - intros e _ [|[]%not_elem_of_nil]; done. }
  rewrite count_cons in Hc |- *. unfold no_repeat in Hnd. rewrite filter_cons in Hnd.
  pose proof (count_bounds old) as Hb. apply wp_bind. destruct (Z.eqb_spec e 0) as [->|Hnz].
  - rewrite decide_True in Hc |- * by done. rewrite decide_False in Hnd by tauto. apply wp_ret.
    eapply wp_conseq; [apply IH; try done|].
    { intros e' He'. apply Hold. by right. }
    intros _ t' (es & -> & Hsh' & Hok' & Hc' & Hin). exists es. split_and!; try done.
    intros e' Hnz [?|[->|?]%elem_of_cons]; [apply Hin; auto|done|apply Hin; auto].
  - rewrite decide_False in Hc |- * by done. rewrite decide_True in Hnd by done.
    apply NoDup_cons in Hnd as [Hni Hnd]. rewrite list_elem_of_filter in Hni.
    destruct (Hold e ltac:(by left) Hnz) as [He Het]. apply wp_bind. unfold wp at 1, mget.
    eapply wp_conseq; [apply (rehash_one t k m e); try done; lia|].
    intros _ t1 (i & -> & Hi & Hok1). pose proof (count_insert _ _ 0 e Hi Hnz) as Hc1. rewrite decide_True in Hc1 by done.
    assert (∀ x, x ∈ <[i := e]> (entries t) ↔ x = e ∨ (∃ j, j ≠ i ∧ entries t !! j = Some x)) as Hel.
    { intros x. pose proof (lookup_lt_Some _ _ _ Hi). rewrite list_elem_of_lookup. split.
      - intros [j Hj]. destruct (decide (i = j)) as [<-|]; [rewrite list_lookup_insert_eq in Hj by done; left; by simplify_eq|].
        rewrite list_lookup_insert_ne in Hj by done. right. by exists j.
      - intros [->|(j & Hne & Hj)]; [exists i; by rewrite list_lookup_insert_eq|].
        exists j. by rewrite list_lookup_insert_ne. }
    eapply wp_conseq; [apply (IH (set_entries (<[i := e]> (entries t)) t)); try done|]; cbn.
    { by apply shape_set_entries. } { lia. }
    { intros e' He' Hnz'. destruct (Hold e' ltac:(by right) Hnz') as [H1 H2]. split; [done|].
      rewrite Hel. intros [->|(j & _ & Hj)]; [by apply Hni|]. apply H2. by eapply list_elem_of_lookup_2. }
    intros _ t' (es & -> & Hsh' & Hok' & Hc' & Hin). exists es. split_and!; try done; [cbn in Hc'; lia|].
    intros e' Hnz' He'. apply Hin; [done|]. rewrite Hel. destruct He' as [[j Hj]%list_elem_of_lookup|[->|?]%elem_of_cons]; [|auto..].
    left. right. exists j. split; [|done]. intros ->. rewrite Hi in Hj. by simplify_eq.
Qed.

Lemma table_no_repeat sz hash es m : table_ok sz hash es m → no_repeat es.
Proof.
  intros Hok. pose proof (table_unique _ _ _ _ Hok) as Hu. clear Hok. unfold no_repeat.
  induction es as [|e es IH]; [constructor|]. rewrite filter_cons.
  assert (NoDup (filter (λ e, e ≠ 0) es)) as Hnd.
  { apply IH. intros i j x y Hx Hy H1 H2 E. pose proof (Hu (S i) (S j) x y Hx Hy H1 H2 E). lia. }
  case_decide as Hnz; [|done]. apply NoDup_cons. split; [|done].
  intros [_ [j Hj]%list_elem_of_lookup]%list_elem_of_filter.
  by pose proof (Hu 0%nat (S j) e e eq_refl Hj Hnz Hnz eq_refl).
Qed.

(** ** The operations on the map *)

Section Spec.
Variable calloc : Z → option (list Z).
(** [calloc] returns zeroed memory, and fails if the size in bytes overflows. *)
Hypothesis calloc_spec : ∀ n es, calloc n = Some es → 8 * n < W ∧ es = replicate (Z.to_nat n) 0.

Lemma resize_spec t m :
  pt_inv t m →
  wp (caml_page_table_resize_r calloc) (λ r t',
    (r = -1 ∧ t' = t ∧ calloc (2 * size t) = None) ∨
    (r = 0 ∧ pt_inv t' m ∧ size t' = 2 * size t ∧ occupancy t' = occupancy t)) t.
Proof.
  intros [[k Hsh] Hok Hall Hocc Hload]. pose proof (shape_k _ _ Hsh) as Hk. pose proof (pow_range k Hk) as Hpow.
  unfold caml_page_table_resize_r. apply wp_bind. unfold wp at 1, mget. rewrite (shape_size _ _ Hsh) in *.
  rewrite u64_small by lia_w. destruct (calloc (2 * 2 ^ k)) as [es0|] eqn:Ec; [|apply wp_ret; by left].
  destruct (calloc_spec _ _ Ec) as [Hlim ->]. apply wp_bind. unfold wp at 1, mput.
  assert (2 * 2 ^ k = 2 ^ (k + 1)) as E2 by (rewrite Z.pow_add_r by lia; lia).
  assert (k + 1 <= 60) as Hk1.
  { destruct (decide (k = 60)) as [->|]; [|lia]. exfalso. change (2 ^ 60) with 1152921504606846976 in Hlim. lia_w. }
  rewrite E2. pose proof (pow_range (k + 1) ltac:(lia)) as Hpow1.
  rewrite (shape_shift _ _ Hsh), (u64_small (2 ^ (k + 1) - 1)) by lia_w.
  replace (s32 (64 - k - 1)) with (64 - (k + 1)) by (unfold s32; rewrite Z.mod_small; unfold H32; lia).
  rewrite take_ge by (pose proof (shape_length _ _ Hsh); lia).
  set (t0 := Page_table (2 ^ (k + 1)) (64 - (k + 1)) (2 ^ (k + 1) - 1) (occupancy t) (replicate (Z.to_nat (2 ^ (k + 1))) 0)).
  assert (Z.of_nat (length (entries t0)) = 2 ^ (k + 1)) as Hl0 by (cbn; rewrite length_replicate; lia).
  assert (shape t0 (k + 1)) as Hsh0 by (split; try done; lia).
  assert (table_ok (2 ^ (k + 1)) (Hash t0) (entries t0) m) as Hok0.
  { split; [done|intros i e [-> _]%lookup_replicate; done|intros i j e e' [-> _]%lookup_replicate; done]. }
  pose proof (count_bounds (entries t)) as Hcb. pose proof (shape_length _ _ Hsh) as Hlen.
  apply wp_bind. eapply wp_conseq; [apply (rehash_spec (entries t) t0 (k + 1) m Hsh0 Hok0)|].
  - cbn. rewrite count_replicate. lia.
  - intros e [i Hi]%list_elem_of_lookup Hnz. split; [by destruct (table_entry _ _ _ _ Hok _ _ Hi Hnz)|].
    cbn. intros [-> _]%elem_of_replicate. done.
  - by eapply table_no_repeat.
  - intros _ t' (es & -> & Hsh' & Hok' & Hc' & Hin). apply wp_ret. right. split_and!; [done| |done|done].
    cbn in Hc'. rewrite count_replicate in Hc'. split; cbn; try done; [by exists (k + 1)| |lia|lia].
    intros p f Hm. destruct (Hall p f Hm) as (H1 & H2 & H3). split_and!; [lia..|]. apply Hin; [lia|by right].
Qed.

(** [caml_page_table_modify_r] fails, leaving the table as it is, or changes
    the flags of one page. *)
Lemma modify_spec t m p c s :
  pt_inv t m → 0 < p < 2 ^ 52 → 0 <= c < 256 → 0 <= s < 256 →
  wp (caml_page_table_modify_r calloc (4096 * p) c s) (λ r t',
    (r = -1 ∧ t' = t ∧ calloc (2 * size t) = None) ∨
    (r = 0 ∧ pt_inv t' (<[p := update_flags (flags m p) c s]> m))) t.
Proof.
  intros Hinv Hp Hc Hs. unfold caml_page_table_modify_r. apply wp_bind. unfold wp at 1, mget.
  assert (∀ t1, pt_inv t1 m → 2 * occupancy t1 < size t1 →
    wp (let* t2 := mget in modify_loop (S (length (entries t2))) (4096 * p) c s (Hash t2 (Page (4096 * p))) ;;; mreturn 0)
      (λ r t', (r = -1 ∧ t' = t ∧ calloc (2 * size t) = None) ∨
        (r = 0 ∧ pt_inv t' (<[p := update_flags (flags m p) c s]> m))) t1) as Hloop.
  { intros t1 Hinv1 Hroom. apply wp_bind. unfold wp at 1, mget. rewrite Page_div, (Z.mul_comm 4096), Z.div_mul, (Z.mul_comm p);
      [|lia|change (2 ^ 52) with 4503599627370496 in Hp; lia_w].
    apply wp_bind. eapply wp_conseq; [apply (modify_loop_map t1 m p c s); done|].
    intros _ t' [Hi _]. apply wp_ret. by right. }
  pose proof Hinv as [[k Hsh] Hok Hall Hocc Hload]. pose proof (pow_range k (shape_k _ _ Hsh)) as Hpow.
  pose proof (count_bounds (entries t)) as Hcb. pose proof (shape_size _ _ Hsh) as Esz. rewrite u64_small by lia_w.
  apply wp_bind. destruct (Z.leb_spec (size t) (occupancy t * 2)) as [Hfull|Hroom].
  - eapply wp_conseq; [apply (resize_spec t m Hinv)|].
    intros r t1 [(-> & -> & Ec)|(-> & Hinv1 & Es & Eo)]; cbn [Z.eqb negb]; [apply wp_ret; by left|].
    apply Hloop; [done|]. rewrite Es, Eo. lia.
  - apply wp_ret. cbn [Z.eqb negb]. apply Hloop; [done|]. lia.
Qed.

(** The flags of the pages from [a] up to [stop] have been updated. *)
Definition updated (m m' : gmap Z Z) (a stop c s : Z) : Prop :=
  ∀ q, flags m' q = if (a <=? q) && (q <? stop) then update_flags (flags m q) c s else flags m q.

Lemma modify_pages_spec fuel t m a b c s :
  pt_inv t m → 0 < a → a <= b + 1 → b + 1 < 2 ^ 52 → 0 <= c < 256 → 0 <= s < 256 → b + 1 - a < Z.of_nat fuel →
  wp (modify_pages calloc fuel (4096 * a) (4096 * b) c s) (λ r t', ∃ m' stop,
    pt_inv t' m' ∧ updated m m' a stop c s ∧
    ((r = 0 ∧ stop = b + 1) ∨ (r = -1 ∧ a <= stop <= b ∧ calloc (2 * size t') = None))) t.
Proof.
  intros Hinv Ha Hab Hb Hc Hs. revert t m a Hinv Ha Hab.
  induction fuel as [|fuel IH]; intros t m a Hinv Ha Hab Hf; [lia|]. cbn [modify_pages].
  destruct (Z.leb_spec (4096 * a) (4096 * b)) as [Hle|Hgt].
  2:{ apply wp_ret. exists m, a. split_and!; [done| |left; lia].
      intros q. destruct (Z.leb_spec a q), (Z.ltb_spec q a); cbn [andb]; (done || lia). }
  apply wp_bind. eapply wp_conseq; [apply (modify_spec t m a c s Hinv); (done || lia)|].
  intros r t1 [(-> & -> & Ec)|(-> & Hinv1)]; cbn [Z.eqb negb].
  - apply wp_ret. exists m, a. split_and!; [done| |right; split_and!; [done|lia..|done]].
    intros q. destruct (Z.leb_spec a q), (Z.ltb_spec q a); cbn [andb]; (done || lia).
  - change Page_size with 4096. replace (4096 * a + 4096) with (4096 * (a + 1)) by lia.
    rewrite u64_small by (change (2 ^ 52) with 4503599627370496 in Hb; lia_w).
    eapply wp_conseq; [apply (IH t1 _ (a + 1) Hinv1); lia|].
    intros r t' (m' & stop & Hi & Hup & Hr). exists m', stop.
    assert (a + 1 <= stop) as Hst by lia. split_and!; [done| |destruct Hr as [?|?]; [by left|right; split_and!; (tauto || lia)]].
    intros q. rewrite Hup. unfold flags at 1 3. destruct (decide (q = a)) as [->|Hne].
    + rewrite lookup_insert_eq. cbn. destruct (Z.leb_spec (a + 1) a), (Z.leb_spec a a), (Z.ltb_spec a stop); cbn [andb]; (done || lia).
    + rewrite lookup_insert_ne by done. fold (flags m q).
      destruct (Z.leb_spec (a + 1) q), (Z.leb_spec a q), (Z.ltb_spec q stop); cbn [andb]; (done || lia).
Qed.

(** The bounds of the area as page numbers. *)
Lemma area_pages start end_ : 4096 <= start → start < end_ → end_ <= W - 4096 →
  let a := start / 4096 in let b := (end_ - 1) / 4096 in
  Z.land start Page_mask = 4096 * a ∧ Z.land (u64 (end_ - 1)) Page_mask = 4096 * b ∧
  0 < a ∧ a <= b + 1 ∧ b + 1 < 2 ^ 52 ∧ b + 1 - a < Z.of_nat (pages_fuel (4096 * a) (4096 * b)).
Proof.
  intros H1 H2 H3 a b. rewrite u64_small by lia_w. rewrite !land_mask by lia_w. fold a b.
  assert (a <= b) by (apply Z.div_le_mono; lia).
  assert (0 < a) by (apply Z.div_str_pos; lia).
  assert (b < 4503599627370495) by (apply Z.div_lt_upper_bound; lia_w).
  change (2 ^ 52) with 4503599627370496. unfold pages_fuel. change Page_size with 4096.
  replace (4096 * b - 4096 * a) with ((b - a) * 4096) by lia. rewrite Z.div_mul by lia. lia.
Qed.

(** C21: [caml_page_table_add_r] gives [kind] to exactly the pages that meet
    the area from [start] to [end_], and keeps the other flags; when the table
    cannot grow it returns -1 with the first of these pages done.  It
    terminates, and the table is again a hash table, at most half full, of
    the new map. *)
Theorem page_table_add_correct t m kind start end_ :
  pt_inv t m → 4096 <= start → start < end_ → end_ <= W - 4096 → 0 <= kind < 256 →
  wp (caml_page_table_add_r calloc kind start end_) (λ r t', ∃ m' stop,
    pt_inv t' m' ∧
    (∀ q, flags m' q = if (start / 4096 <=? q) && (q <? stop) then Z.lor (flags m q) kind else flags m q) ∧
    ((r = 0 ∧ stop = (end_ - 1) / 4096 + 1) ∨
     (r = -1 ∧ stop <= (end_ - 1) / 4096 ∧ calloc (2 * size t') = None))) t.
Proof.
  intros Hinv H1 H2 H3 Hk. unfold caml_page_table_add_r.
  destruct (area_pages start end_ H1 H2 H3) as (-> & -> & A1 & A2 & A3 & A4).
  eapply wp_conseq; [apply (modify_pages_spec _ t m _ _ 0 kind Hinv A1 A2 A3); (done || lia)|].
  intros r t' (m' & stop & Hi & Hup & Hr). exists m', stop. split_and!; [done| |].
  - intros q. rewrite Hup. unfold update_flags. by rewrite Z.lnot_0, Z.land_m1_r.
  - destruct Hr as [?|(-> & ? & ?)]; [by left|right; split_and!; (done || lia)].
Qed.

(** [caml_page_table_remove_r] takes [kind] from exactly the pages that
    meet the area, and keeps the other flags, under the same conditions. *)
Theorem page_table_remove_correct t m kind start end_ :
  pt_inv t m → 4096 <= start → start < end_ → end_ <= W - 4096 → 0 <= kind < 256 →
  wp (caml_page_table_remove_r calloc kind start end_) (λ r t', ∃ m' stop,
    pt_inv t' m' ∧
    (∀ q, flags m' q = if (start / 4096 <=? q) && (q <? stop) then Z.ldiff (flags m q) kind else flags m q) ∧
    ((r = 0 ∧ stop = (end_ - 1) / 4096 + 1) ∨
     (r = -1 ∧ stop <= (end_ - 1) / 4096 ∧ calloc (2 * size t') = None))) t.
Proof.
  intros Hinv H1 H2 H3 Hk. unfold caml_page_table_remove_r.
  destruct (area_pages start end_ H1 H2 H3) as (-> & -> & A1 & A2 & A3 & A4).
  eapply wp_conseq; [apply (modify_pages_spec _ t m _ _ kind 0 Hinv A1 A2 A3); (done || lia)|].
  intros r t' (m' & stop & Hi & Hup & Hr). exists m', stop. split_and!; [done| |].
  - intros q. rewrite Hup. unfold update_flags. by rewrite Z.lor_0_r, <- Z.ldiff_land.
  - destruct Hr as [?|(-> & ? & ?)]; [by left|right; split_and!; (done || lia)].
Qed.

Lemma grow_table_spec fuel ps k :
  0 <= k → 0 < ps → 2 * ps <= 2 ^ 53 → 2 ^ k < 4 * ps → k + Z.of_nat fuel = 65 →
  ∃ k', grow_table fuel ps (2 ^ k) (64 - k) = Some (2 ^ k', 64 - k') ∧ 2 * ps <= 2 ^ k' < 4 * ps.
Proof.
  intros Hk Hps Hlim. revert k Hk. change (2 ^ 53) with 9007199254740992 in Hlim.
  induction fuel as [|fuel IH]; intros k Hk Hlt Hf.
  { exfalso. assert (2 ^ 65 <= 2 ^ k) by (apply Z.pow_le_mono_r; lia). lia. }
  cbn [grow_table]. rewrite u64_small by lia_w. destruct (Z.ltb_spec (2 ^ k) (2 * ps)) as [Hl|Hge]; [|by exists k].
  assert (Z.shiftl (2 ^ k) 1 = 2 ^ (k + 1)) as Esh by (rewrite Z.shiftl_mul_pow2, Z.pow_add_r by lia; lia).
  assert (2 ^ (k + 1) = 2 * 2 ^ k) by (rewrite Z.pow_add_r by lia; lia).
  rewrite Esh, u64_small by (pose proof (Z.pow_pos_nonneg 2 k); lia_w).
  replace (s32 (64 - k - 1)) with (64 - (k + 1)) by (unfold s32; rewrite Z.mod_small; unfold H32; lia).
  apply IH; lia.
Qed.

(** [caml_page_table_initialize_r] makes an empty table of a power of two
    slots, between two and four times the number of pages announced, whatever
    the table was before. *)
Theorem page_table_initialize_correct t bytesize :
  4096 <= bytesize → bytesize < W →
  wp (caml_page_table_initialize_r calloc bytesize) (λ r t',
    2 * (bytesize / 4096) <= size t' < 4 * (bytesize / 4096) ∧
    ((r = -1 ∧ calloc (size t') = None) ∨ (r = 0 ∧ pt_inv t' ∅))) t.
Proof.
  intros H1 H2. unfold caml_page_table_initialize_r. rewrite Page_div by lia_w. set (ps := bytesize / 4096).
  assert (1 <= ps) by (apply Z.div_le_lower_bound; lia).
  assert (ps < 4503599627370496) by (apply Z.div_lt_upper_bound; lia_w).
  destruct (grow_table_spec 65 ps 0) as (k & Eg & Hk); [lia|lia|change (2 ^ 53) with 9007199254740992; lia|cbn; lia|done|].
  change (grow_table 65 ps 1 64 = Some (2 ^ k, 64 - k)) in Eg. rewrite Eg.
  assert (1 <= k <= 60) as Hkr.
  { assert (0 <= k) as Hk0 by (destruct (Z.lt_ge_cases k 0); [rewrite Z.pow_neg_r in Hk by done; lia|done]).
    split; [destruct (decide (k = 0)) as [->|]; [cbn in Hk; lia|lia]|].
    destruct (Z.lt_ge_cases 60 k) as [Hbig|]; [|done]. exfalso. assert (2 ^ 60 <= 2 ^ k) by (apply Z.pow_le_mono_r; lia).
    change (2 ^ 60) with 1152921504606846976 in *. lia. }
  pose proof (pow_range k Hkr) as Hp. rewrite u64_small by lia_w.
  destruct (calloc (2 ^ k)) as [es|] eqn:Ec; apply wp_bind; unfold wp at 1, mput; apply wp_ret; (split; [exact Hk|]); [right|by left].
  destruct (calloc_spec _ _ Ec) as [_ ->]. split; [done|].
  assert (Z.of_nat (length (replicate (Z.to_nat (2 ^ k)) 0)) = 2 ^ k) as Hl by (rewrite length_replicate; lia).
  split; cbn; [exists k; by split| |done|by rewrite count_replicate|lia].
  split; [done|intros i e [-> _]%lookup_replicate; done|intros i j e e' [-> _]%lookup_replicate; done].
Qed.
End Spec.

(** ** Witnesses *)

Definition ex_calloc (n : Z) : option (list Z) :=
  if 8 * n <? W then Some (replicate (Z.to_nat n) 0) else None.

Lemma ex_calloc_spec n es : ex_calloc n = Some es → 8 * n < W ∧ es = replicate (Z.to_nat n) 0.
Proof. unfold ex_calloc. destruct (Z.ltb_spec (8 * n) W); [|done]. intros [= <-]. done. Qed.

(** Two slots, one of them holding page 5 with flags 1. *)
Definition ex_table : page_table := Page_table 2 63 1 1 [20481; 0].

Lemma ex_table_inv : pt_inv ex_table {[5 := 1]}.
Proof.
  assert (∀ i e, entries ex_table !! i = Some e → e ≠ 0 → i = 0%nat ∧ e = 20481) as Hone.
  { intros [|[|i]] e He Hnz; cbn in He; simplify_eq; done. }
  split; cbn.
  - exists 1. split; cbn; (done || lia).
  - split; [done| |].
    + intros i e He Hnz. destruct (Hone i e He Hnz) as [-> ->]. split; [by vm_compute|].
      exists 0%nat. split_and!; [done|by vm_compute|lia].
    + intros i j e e' He He' Hnz Hnz' _. destruct (Hone _ _ He Hnz), (Hone _ _ He' Hnz'). congruence.
  - intros p f [<- <-]%lookup_singleton_Some. split_and!; [lia..|]. left.
  - done.
  - lia.
Qed.

Lemma lookup_correct_witness :
  wp (caml_page_table_lookup_r 20500) (λ r t', t' = ex_table ∧ r = 1) ex_table.
Proof. apply (lookup_correct ex_table {[5 := 1]} 20500 ex_table_inv). lia_w. Defined.

(** The table is half full: adding pages 5 and 6 makes it grow. *)
Lemma page_table_add_witness :
  wp (caml_page_table_add_r ex_calloc 4 24000 24600) (λ r t', r = 0 →
    ∃ m', pt_inv t' m' ∧ flags m' 5 = 5 ∧ flags m' 6 = 4) ex_table.
Proof.
  eapply wp_conseq; [apply (page_table_add_correct ex_calloc ex_calloc_spec ex_table {[5 := 1]} 4 24000 24600 ex_table_inv); lia_w|].
  intros r t' (m' & stop & Hi & Hf & [[-> ->]|(-> & _)]); [|done].
  exists m'. split; [done|]. rewrite !Hf. done.
Defined.

Lemma page_table_remove_witness :
  wp (caml_page_table_remove_r ex_calloc 1 20480 24576) (λ r t', r = 0 → ∃ m', pt_inv t' m' ∧ flags m' 5 = 0) ex_table.
Proof.
  eapply wp_conseq; [apply (page_table_remove_correct ex_calloc ex_calloc_spec ex_table {[5 := 1]} 1 20480 24576 ex_table_inv); lia_w|].
  intros r t' (m' & stop & Hi & Hf & [[-> ->]|(-> & _)]); [|done].
  exists m'. split; [done|]. by rewrite Hf.
Defined.

Lemma page_table_initialize_witness :
  wp (caml_page_table_initialize_r ex_calloc 300000) (λ r t', r = 0 → pt_inv t' ∅) ex_table.
Proof.
  eapply wp_conseq; [apply (page_table_initialize_correct ex_calloc ex_calloc_spec ex_table 300000); lia_w|].
  intros r t' (_ & [(-> & _)|[_ Hi]]); done.
Defined.

(** The same calls, run: the table has grown to four slots. *)
Example add_run :
  match caml_page_table_add_r ex_calloc 4 24000 24600 ex_table with
  | inr (t, r) => (r, size t, occupancy t, entries t)
  | inl _ => (0, 0, 0, [])
  end = (0, 4, 2, [20485; 0; 24580; 0]).
Proof. vm_compute. reflexivity. Qed.

End PageTable.
