(* ===== verification/Context.v ===== *)
(** The runtime context shared by the interpreter, the stack manager and the
    allocation primitives: the fields of [struct caml_global_context]
    (byterun/context.h) they use, memory, minor-heap allocation
    (byterun/memory.h, alloc.c), the write barrier (memory.c) and the raising
    of exceptions from C (fail.c).

    Memory is one map from byte addresses to 64-bit words ([words]: stack,
    heap, global data) and one map from byte addresses to 32-bit opcodes
    ([code]).  Pointers are addresses; adding to a pointer does not wrap, since
    a C pointer never leaves its object.  The functions of the runtime that
    are modelled elsewhere or not at all are the operations of the class
    [Runtime]. *)

From S2P Require Import Prelude Mlvalues.

Module Context.

Record context : Type := Ctx {
  (* memory *)
  words : gmap Z Z;
  code : gmap Z Z;
  (* minor heap (minor_gc.h), reference table, GC phase *)
  caml_young_ptr : Z;
  caml_young_start : Z;
  caml_young_end : Z;
  caml_ref_table_ptr : Z;
  caml_ref_table_limit : Z;
  caml_gc_phase : Z;
  (* stack (stacks.h) *)
  caml_stack_low : Z;
  caml_stack_high : Z;
  caml_stack_threshold : Z;
  caml_extern_sp : Z;
  caml_trapsp : Z;
  caml_trap_barrier : Z;
  caml_max_stack_size : Z;
  (* global data, atoms *)
  caml_global_data : Z;
  caml_atom_table : Z;
  (* exceptions, callbacks, signals *)
  caml_external_raise : Z;
  caml_exn_bucket : Z;
  caml_local_roots : Z;
  caml_callback_depth : Z;
  caml_something_to_do : Z;
  caml_backtrace_active : Z;
  (* debugger *)
  caml_event_count : Z;
  caml_saved_code : gmap Z Z;
  caml_start_code : Z
}.

Definition set_words (x : gmap Z Z) (c : context) : context :=
  Ctx x (code c) (caml_young_ptr c) (caml_young_start c) (caml_young_end c)
    (caml_ref_table_ptr c) (caml_ref_table_limit c) (caml_gc_phase c) (caml_stack_low c)
    (caml_stack_high c) (caml_stack_threshold c) (caml_extern_sp c) (caml_trapsp c)
    (caml_trap_barrier c) (caml_max_stack_size c) (caml_global_data c) (caml_atom_table
    c) (caml_external_raise c) (caml_exn_bucket c) (caml_local_roots c)
    (caml_callback_depth c) (caml_something_to_do c) (caml_backtrace_active c)
    (caml_event_count c) (caml_saved_code c) (caml_start_code c).
Definition set_code (x : gmap Z Z) (c : context) : context :=
  Ctx (words c) x (caml_young_ptr c) (caml_young_start c) (caml_young_end c)
    (caml_ref_table_ptr c) (caml_ref_table_limit c) (caml_gc_phase c) (caml_stack_low c)
    (caml_stack_high c) (caml_stack_threshold c) (caml_extern_sp c) (caml_trapsp c)
    (caml_trap_barrier c) (caml_max_stack_size c) (caml_global_data c) (caml_atom_table
    c) (caml_external_raise c) (caml_exn_bucket c) (caml_local_roots c)
    (caml_callback_depth c) (caml_something_to_do c) (caml_backtrace_active c)
    (caml_event_count c) (caml_saved_code c) (caml_start_code c).
Definition set_caml_young_ptr (x : Z) (c : context) : context :=
  Ctx (words c) (code c) x (caml_young_start c) (caml_young_end c) (caml_ref_table_ptr
    c) (caml_ref_table_limit c) (caml_gc_phase c) (caml_stack_low c) (caml_stack_high c)
    (caml_stack_threshold c) (caml_extern_sp c) (caml_trapsp c) (caml_trap_barrier c)
    (caml_max_stack_size c) (caml_global_data c) (caml_atom_table c)
    (caml_external_raise c) (caml_exn_bucket c) (caml_local_roots c)
    (caml_callback_depth c) (caml_something_to_do c) (caml_backtrace_active c)
    (caml_event_count c) (caml_saved_code c) (caml_start_code c).
Definition set_caml_ref_table_ptr (x : Z) (c : context) : context :=
  Ctx (words c) (code c) (caml_young_ptr c) (caml_young_start c) (caml_young_end c) x
    (caml_ref_table_limit c) (caml_gc_phase c) (caml_stack_low c) (caml_stack_high c)
    (caml_stack_threshold c) (caml_extern_sp c) (caml_trapsp c) (caml_trap_barrier c)
    (caml_max_stack_size c) (caml_global_data c) (caml_atom_table c)
    (caml_external_raise c) (caml_exn_bucket c) (caml_local_roots c)
    (caml_callback_depth c) (caml_something_to_do c) (caml_backtrace_active c)
    (caml_event_count c) (caml_saved_code c) (caml_start_code c).
Definition set_caml_ref_table_limit (x : Z) (c : context) : context :=
  Ctx (words c) (code c) (caml_young_ptr c) (caml_young_start c) (caml_young_end c) (caml_ref_table_ptr c)
    x (caml_gc_phase c) (caml_stack_low c) (caml_stack_high c)
    (caml_stack_threshold c) (caml_extern_sp c) (caml_trapsp c) (caml_trap_barrier c)
    (caml_max_stack_size c) (caml_global_data c) (caml_atom_table c)
    (caml_external_raise c) (caml_exn_bucket c) (caml_local_roots c)
    (caml_callback_depth c) (caml_something_to_do c) (caml_backtrace_active c)
    (caml_event_count c) (caml_saved_code c) (caml_start_code c).
Definition set_caml_stack_low (x : Z) (c : context) : context :=
  Ctx (words c) (code c) (caml_young_ptr c) (caml_young_start c) (caml_young_end c)
    (caml_ref_table_ptr c) (caml_ref_table_limit c) (caml_gc_phase c) x (caml_stack_high
    c) (caml_stack_threshold c) (caml_extern_sp c) (caml_trapsp c) (caml_trap_barrier c)
    (caml_max_stack_size c) (caml_global_data c) (caml_atom_table c)
    (caml_external_raise c) (caml_exn_bucket c) (caml_local_roots c)
    (caml_callback_depth c) (caml_something_to_do c) (caml_backtrace_active c)
    (caml_event_count c) (caml_saved_code c) (caml_start_code c).
Definition set_caml_stack_high (x : Z) (c : context) : context :=
  Ctx (words c) (code c) (caml_young_ptr c) (caml_young_start c) (caml_young_end c)
    (caml_ref_table_ptr c) (caml_ref_table_limit c) (caml_gc_phase c) (caml_stack_low c)
    x (caml_stack_threshold c) (caml_extern_sp c) (caml_trapsp c) (caml_trap_barrier c)
    (caml_max_stack_size c) (caml_global_data c) (caml_atom_table c)
    (caml_external_raise c) (caml_exn_bucket c) (caml_local_roots c)
    (caml_callback_depth c) (caml_something_to_do c) (caml_backtrace_active c)
    (caml_event_count c) (caml_saved_code c) (caml_start_code c).
Definition set_caml_stack_threshold (x : Z) (c : context) : context :=
  Ctx (words c) (code c) (caml_young_ptr c) (caml_young_start c) (caml_young_end c)
    (caml_ref_table_ptr c) (caml_ref_table_limit c) (caml_gc_phase c) (caml_stack_low c)
    (caml_stack_high c) x (caml_extern_sp c) (caml_trapsp c) (caml_trap_barrier c)
    (caml_max_stack_size c) (caml_global_data c) (caml_atom_table c)
    (caml_external_raise c) (caml_exn_bucket c) (caml_local_roots c)
    (caml_callback_depth c) (caml_something_to_do c) (caml_backtrace_active c)
    (caml_event_count c) (caml_saved_code c) (caml_start_code c).
Definition set_caml_extern_sp (x : Z) (c : context) : context :=
  Ctx (words c) (code c) (caml_young_ptr c) (caml_young_start c) (caml_young_end c)
    (caml_ref_table_ptr c) (caml_ref_table_limit c) (caml_gc_phase c) (caml_stack_low c)
    (caml_stack_high c) (caml_stack_threshold c) x (caml_trapsp c) (caml_trap_barrier c)
    (caml_max_stack_size c) (caml_global_data c) (caml_atom_table c)
    (caml_external_raise c) (caml_exn_bucket c) (caml_local_roots c)
    (caml_callback_depth c) (caml_something_to_do c) (caml_backtrace_active c)
    (caml_event_count c) (caml_saved_code c) (caml_start_code c).
Definition set_caml_trapsp (x : Z) (c : context) : context :=
  Ctx (words c) (code c) (caml_young_ptr c) (caml_young_start c) (caml_young_end c)
    (caml_ref_table_ptr c) (caml_ref_table_limit c) (caml_gc_phase c) (caml_stack_low c)
    (caml_stack_high c) (caml_stack_threshold c) (caml_extern_sp c) x (caml_trap_barrier
    c) (caml_max_stack_size c) (caml_global_data c) (caml_atom_table c)
    (caml_external_raise c) (caml_exn_bucket c) (caml_local_roots c)
    (caml_callback_depth c) (caml_something_to_do c) (caml_backtrace_active c)
    (caml_event_count c) (caml_saved_code c) (caml_start_code c).
Definition set_caml_trap_barrier (x : Z) (c : context) : context :=
  Ctx (words c) (code c) (caml_young_ptr c) (caml_young_start c) (caml_young_end c)
    (caml_ref_table_ptr c) (caml_ref_table_limit c) (caml_gc_phase c) (caml_stack_low c)
    (caml_stack_high c) (caml_stack_threshold c) (caml_extern_sp c) (caml_trapsp c) x
    (caml_max_stack_size c) (caml_global_data c) (caml_atom_table c)
    (caml_external_raise c) (caml_exn_bucket c) (caml_local_roots c)
    (caml_callback_depth c) (caml_something_to_do c) (caml_backtrace_active c)
    (caml_event_count c) (caml_saved_code c) (caml_start_code c).
Definition set_caml_max_stack_size (x : Z) (c : context) : context :=
  Ctx (words c) (code c) (caml_young_ptr c) (caml_young_start c) (caml_young_end c)
    (caml_ref_table_ptr c) (caml_ref_table_limit c) (caml_gc_phase c) (caml_stack_low c)
    (caml_stack_high c) (caml_stack_threshold c) (caml_extern_sp c) (caml_trapsp c)
    (caml_trap_barrier c) x (caml_global_data c) (caml_atom_table c)
    (caml_external_raise c) (caml_exn_bucket c) (caml_local_roots c)
    (caml_callback_depth c) (caml_something_to_do c) (caml_backtrace_active c)
    (caml_event_count c) (caml_saved_code c) (caml_start_code c).
Definition set_caml_external_raise (x : Z) (c : context) : context :=
  Ctx (words c) (code c) (caml_young_ptr c) (caml_young_start c) (caml_young_end c)
    (caml_ref_table_ptr c) (caml_ref_table_limit c) (caml_gc_phase c) (caml_stack_low c)
    (caml_stack_high c) (caml_stack_threshold c) (caml_extern_sp c) (caml_trapsp c)
    (caml_trap_barrier c) (caml_max_stack_size c) (caml_global_data c) (caml_atom_table
    c) x (caml_exn_bucket c) (caml_local_roots c) (caml_callback_depth c)
    (caml_something_to_do c) (caml_backtrace_active c) (caml_event_count c)
    (caml_saved_code c) (caml_start_code c).
Definition set_caml_exn_bucket (x : Z) (c : context) : context :=
  Ctx (words c) (code c) (caml_young_ptr c) (caml_young_start c) (caml_young_end c)
    (caml_ref_table_ptr c) (caml_ref_table_limit c) (caml_gc_phase c) (caml_stack_low c)
    (caml_stack_high c) (caml_stack_threshold c) (caml_extern_sp c) (caml_trapsp c)
    (caml_trap_barrier c) (caml_max_stack_size c) (caml_global_data c) (caml_atom_table
    c) (caml_external_raise c) x (caml_local_roots c) (caml_callback_depth c)
    (caml_something_to_do c) (caml_backtrace_active c) (caml_event_count c)
    (caml_saved_code c) (caml_start_code c).
Definition set_caml_local_roots (x : Z) (c : context) : context :=
  Ctx (words c) (code c) (caml_young_ptr c) (caml_young_start c) (caml_young_end c)
    (caml_ref_table_ptr c) (caml_ref_table_limit c) (caml_gc_phase c) (caml_stack_low c)
    (caml_stack_high c) (caml_stack_threshold c) (caml_extern_sp c) (caml_trapsp c)
    (caml_trap_barrier c) (caml_max_stack_size c) (caml_global_data c) (caml_atom_table
    c) (caml_external_raise c) (caml_exn_bucket c) x (caml_callback_depth c)
    (caml_something_to_do c) (caml_backtrace_active c) (caml_event_count c)
    (caml_saved_code c) (caml_start_code c).
Definition set_caml_callback_depth (x : Z) (c : context) : context :=
  Ctx (words c) (code c) (caml_young_ptr c) (caml_young_start c) (caml_young_end c)
    (caml_ref_table_ptr c) (caml_ref_table_limit c) (caml_gc_phase c) (caml_stack_low c)
    (caml_stack_high c) (caml_stack_threshold c) (caml_extern_sp c) (caml_trapsp c)
    (caml_trap_barrier c) (caml_max_stack_size c) (caml_global_data c) (caml_atom_table
    c) (caml_external_raise c) (caml_exn_bucket c) (caml_local_roots c) x
    (caml_something_to_do c) (caml_backtrace_active c) (caml_event_count c)
    (caml_saved_code c) (caml_start_code c).
Definition set_caml_something_to_do (x : Z) (c : context) : context :=
  Ctx (words c) (code c) (caml_young_ptr c) (caml_young_start c) (caml_young_end c)
    (caml_ref_table_ptr c) (caml_ref_table_limit c) (caml_gc_phase c) (caml_stack_low c)
    (caml_stack_high c) (caml_stack_threshold c) (caml_extern_sp c) (caml_trapsp c)
    (caml_trap_barrier c) (caml_max_stack_size c) (caml_global_data c) (caml_atom_table
    c) (caml_external_raise c) (caml_exn_bucket c) (caml_local_roots c)
    (caml_callback_depth c) x (caml_backtrace_active c) (caml_event_count c)
    (caml_saved_code c) (caml_start_code c).
Definition set_caml_event_count (x : Z) (c : context) : context :=
  Ctx (words c) (code c) (caml_young_ptr c) (caml_young_start c) (caml_young_end c)
    (caml_ref_table_ptr c) (caml_ref_table_limit c) (caml_gc_phase c) (caml_stack_low c)
    (caml_stack_high c) (caml_stack_threshold c) (caml_extern_sp c) (caml_trapsp c)
    (caml_trap_barrier c) (caml_max_stack_size c) (caml_global_data c) (caml_atom_table
    c) (caml_external_raise c) (caml_exn_bucket c) (caml_local_roots c)
    (caml_callback_depth c) (caml_something_to_do c) (caml_backtrace_active c) x
    (caml_saved_code c) (caml_start_code c).

(** Why a runtime function does not return: a wild access, a jump to a
    [struct longjmp_buffer] with the context at that point, or a fatal error. *)
Inductive fatal : Type :=
  | FatalUncaughtException (exn : Z)
  | FatalOutOfMemory
  | FatalBadOpcode (opcode : Z)
  | FatalExit (code : Z).

Inductive cstop : Type :=
  | CFault (f : fault)
  | CLongjmp (buf : Z) (c : context)
  | CFatal (e : fatal).

Abbreviation CM := (M context cstop).

Definition ld (a : Z) : CM Z :=
  λ c, match words c !! a with Some v => inr (c, v) | None => inl (CFault (BadLoad a)) end.

Definition st (a v : Z) : CM unit :=
  λ c, match words c !! a with
       | Some _ => inr (set_words (<[a := v]> (words c)) c, tt)
       | None => inl (CFault (BadStore a)) end.

(** ** The rest of the runtime

    What the modelled code calls and the development does not (or does
    elsewhere) define: one operation per C function.  The collector is given
    the values of the registered local roots and returns them updated. *)
Class Runtime : Type := {
  caml_minor_collection_r : list Z → CM (list Z);
  caml_page_table_lookup_r : context → Z → Z;
  caml_darken_r : Z → CM unit;
  caml_realloc_ref_table_r : CM unit;
  caml_alloc_shr_r : Z → Z → CM Z;
  caml_check_urgent_gc_r : list Z → CM (list Z);
  caml_adjust_gc_speed_r : Z → Z → CM unit;
  caml_stat_alloc : Z → CM Z;
  caml_stat_free : Z → CM unit;
  caml_process_event_r : CM unit;
  caml_debugger_r : Z → context → context;
  caml_stash_backtrace_r : Z → Z → Z → context → context;
  (** [Primitive(n)] called with ([true]) or without the context argument *)
  Primitive : Z → bool → list Z → CM Z
}.

Definition Max_young_wosize : Z := 256.

(** indices in [caml_global_data] (fail.h) *)
Definition ZERO_DIVIDE_EXN : Z := 5.
Definition STACK_OVERFLOW_EXN : Z := 8.

Definition Phase_mark : Z := 0.
Definition In_heap : Z := 1.

Definition Is_young (c : context) (v : Z) : bool :=
  (v <? caml_young_end c) && (caml_young_start c <? v).

Definition Atom (c : context) (tag : Z) : Z := Val_hp (caml_atom_table c + 8 * tag).

Section Operations.
Context `{Runtime}.

(** alloc.c.  In the expansion of [Alloc_small] in this file, [Setup_for_gc]
    and [Restore_after_gc] are empty; live values are the registered local
    roots of the callers. *)
Definition caml_alloc_small_r (wosize tag : Z) (roots : list Z) : CM (Z * list Z) :=
  let* c := mget in
  let yp := caml_young_ptr c - Bhsize_wosize wosize in
  mput (set_caml_young_ptr yp c) ;;;
  let* roots :=
    (if yp <? caml_young_start c then
       mput c ;;;
       let* roots := caml_minor_collection_r roots in
       let* c := mget in
       mput (set_caml_young_ptr (caml_young_ptr c - Bhsize_wosize wosize) c) ;;;
       mreturn roots
     else mreturn roots) in
  let* c := mget in
  st (caml_young_ptr c) (Make_header wosize tag Caml_black) ;;;
  mreturn (Val_hp (caml_young_ptr c), roots).

(** fail.c.  The jump leaves the context as it is, with the bucket recorded. *)
Definition caml_raise_r {A} (v : Z) : CM A :=
  let* c := mget in
  let c := set_caml_exn_bucket v c in
  if caml_external_raise c =? 0
  then mfail (CFatal (FatalUncaughtException v))
  else mfail (CLongjmp (caml_external_raise c) c).

Definition caml_raise_constant_r {A} (tag : Z) : CM A :=
  let* (bucket, roots) := caml_alloc_small_r 1 0 [tag] in
  match roots with
  | [tag] => st (Field bucket 0) tag ;;; caml_raise_r bucket
  | _ => mfail (CFault Contract)
  end.

Definition caml_raise_zero_divide_r {A} : CM A :=
  let* c := mget in
  let* tag := ld (Field (caml_global_data c) ZERO_DIVIDE_EXN) in
  caml_raise_constant_r tag.

Definition caml_raise_stack_overflow_r {A} : CM A :=
  let* c := mget in
  let* tag := ld (Field (caml_global_data c) STACK_OVERFLOW_EXN) in
  caml_raise_constant_r tag.

(** ** The write barrier (memory.h, memory.c) *)

Definition Is_in_heap (c : context) (a : Z) : bool :=
  negb (Z.land (caml_page_table_lookup_r c a) In_heap =? 0).

(** [if (ptr >= limit) caml_realloc_ref_table_r; *ptr++ = fp] *)
Definition add_to_ref_table (fp : Z) : CM unit :=
  let* c := mget in
  (if caml_ref_table_limit c <=? caml_ref_table_ptr c
   then caml_realloc_ref_table_r else mreturn tt) ;;;
  let* c := mget in
  let p := caml_ref_table_ptr c in
  mput (set_caml_ref_table_ptr (p + 8) c) ;;;
  st p fp.

Definition caml_initialize_r (fp v : Z) : CM unit :=
  st fp v ;;;
  let* c := mget in
  if Is_block v && Is_young c v && Is_in_heap c fp
  then add_to_ref_table fp
  else mreturn tt.

Definition Modify (fp v : Z) : CM unit :=
  let* old := ld fp in
  st fp v ;;;
  let* c := mget in
  if Is_in_heap c fp then
    (if caml_gc_phase c =? Phase_mark then caml_darken_r old else mreturn tt) ;;;
    let* c := mget in
    if Is_block v && Is_young c v && negb (Is_block old && Is_young c old)
    then add_to_ref_table fp
    else mreturn tt
  else mreturn tt.

Definition caml_modify_r (fp v : Z) : CM unit := Modify fp v.
End Operations.

(** ** Raising from C *)

(** The context in which an exception without argument is raised: its bucket
    is the block of one word at [blk]. *)
Definition raised (c : context) (blk tag : Z) : context :=
  set_caml_exn_bucket blk (set_words
    (<[blk := tag]> (<[blk - 8 := Make_header 1 0 Caml_black]> (words c)))
    (set_caml_young_ptr (blk - 8) c)).

Lemma caml_raise_constant_eq `{Runtime} {A} tag blk c :
  caml_young_ptr c - 16 = blk - 8 → caml_young_start c <= blk - 8 →
  mapped (words c) (blk - 8) 2 → caml_external_raise c ≠ 0 →
  caml_raise_constant_r (A := A) tag c = inl (CLongjmp (caml_external_raise c) (raised c blk tag)).
Proof.
  intros Hp Hlo Hm Hne. pose proof (Hm 0%nat ltac:(lia)) as [w0 H0].
  pose proof (Hm 1%nat ltac:(lia)) as [w1 H1]. rewrite padd_0 in H0.
  replace (padd (blk - 8) 1) with blk in H1 by (unfold padd; lia).
  unfold caml_raise_constant_r, caml_alloc_small_r, mbnd, mget, mput, mreturn, caml_raise_r, mfail, st.
  change (Bhsize_wosize 1) with 16. rewrite Hp, (proj2 (Z.ltb_ge _ _)) by lia.
  unfold mbnd, mget, Val_hp, Field. cbn. rewrite H0. cbn.
  replace (blk - 8 + 8 + 8 * 0) with blk by lia. rewrite lookup_insert_ne, H1 by lia. cbn.
  rewrite (proj2 (Z.eqb_neq _ _) Hne). unfold raised.
  by replace (blk - 8 + 8) with blk by lia.
Qed.

(** ** A concrete runtime for the examples

    One chunk of major heap at 10000, [malloc] at 20000, no collection and no
    debugger; a primitive returns the sum of its arguments. *)
Definition ex_runtime : Runtime := {|
  caml_minor_collection_r := λ _, mfail (CFatal FatalOutOfMemory);
  caml_page_table_lookup_r := λ _ a, if (10000 <=? a) && (a <? 20000) then In_heap else 0;
  caml_darken_r := λ _, mreturn tt;
  caml_realloc_ref_table_r := mreturn tt;
  caml_alloc_shr_r := λ _ _, mfail (CFatal FatalOutOfMemory);
  caml_check_urgent_gc_r := mreturn;
  caml_adjust_gc_speed_r := λ _ _, mreturn tt;
  caml_stat_alloc := λ n,
    mmodify (λ c, set_words (stores (words c) 20000 (replicate (Z.to_nat (n / 8)) 0)) c) ;;;
    mreturn 20000;
  caml_stat_free := λ _, mreturn tt;
  caml_process_event_r := mreturn tt;
  caml_debugger_r := λ _ c, c;
  caml_stash_backtrace_r := λ _ _ _ c, c;
  Primitive := λ _ _ args, mreturn (foldr Z.add 0 args)
|}.

Definition ex_context (w c : gmap Z Z) : context :=
  Ctx w c 8000 6000 9000 0 0 2 1000 3000 1000 3000 3000 3008 4096 5000 400 77 0 0 1 0 0 0 ∅ 0.

End Context.
