(* ===== verification/Alloc.v ===== *)
(** Byte access to memory, allocation of blocks and strings (byterun/alloc.c)
    and the exceptions with an argument raised from C (byterun/fail.c).

    Memory is made of little-endian 64-bit words; a byte is part of the word
    at its address rounded down.  A C string is the list of its bytes without
    the final [NUL].  Allocation functions take the local roots of their
    callers and return them as the collector left them. *)

From S2P Require Import Prelude Mlvalues Context.
Import Context.

Module Alloc.

(** ** Bytes *)

Definition byte_of (w i : Z) : Z := Z.land (Z.shiftr w (8 * i)) 255.
Definition set_byte (w i b : Z) : Z :=
  Z.lor (Z.ldiff w (Z.shiftl 255 (8 * i))) (Z.shiftl (b mod 256) (8 * i)).

Definition load_byte (m : gmap Z Z) (a : Z) : option Z :=
  match m !! (8 * (a / 8)) with Some w => Some (byte_of w (a mod 8)) | None => None end.
Definition store_byte (m : gmap Z Z) (a b : Z) : option (gmap Z Z) :=
  match m !! (8 * (a / 8)) with
  | Some w => Some (<[8 * (a / 8) := set_byte w (a mod 8) b]> m)
  | None => None
  end.

(** The byte at an address, unsigned. *)
Definition ldb (a : Z) : CM Z :=
  λ c, match load_byte (words c) a with Some b => inr (c, b) | None => inl (CFault (BadLoad a)) end.
Definition stb (a b : Z) : CM unit :=
  λ c, match store_byte (words c) a b with
       | Some m => inr (set_words m c, tt)
       | None => inl (CFault (BadStore a)) end.

(** [char] is signed. *)
Definition s8 (b : Z) : Z := (b + 128) mod 256 - 128.

Definition Byte_u (v i : Z) : CM Z := ldb (v + i).
Definition Byte (v i : Z) : CM Z := let* b := ldb (v + i) in mreturn (s8 b).

Fixpoint ldbs (a : Z) (n : nat) : CM (list Z) :=
  match n with
  | O => mreturn []
  | S n => let* b := ldb a in let* bs := ldbs (a + 1) n in mreturn (b :: bs)
  end.
Fixpoint stbs (a : Z) (bs : list Z) : CM unit :=
  match bs with
  | [] => mreturn tt
  | b :: bs => stb a b ;;; stbs (a + 1) bs
  end.

(** [memmove] copies as if through a buffer; [memset]. *)
Definition memmove (dst src n : Z) : CM unit :=
  let* bs := ldbs src (Z.to_nat n) in stbs dst bs.
Definition memset (a b n : Z) : CM unit := stbs a (replicate (Z.to_nat n) b).

(** Headers *)
Definition Wosize_val (v : Z) : CM Z := let* hd := ld (Hd_val v) in mreturn (Wosize_hd hd).
Definition Bosize_val (v : Z) : CM Z := let* hd := ld (Hd_val v) in mreturn (Bosize_hd hd).
Definition Tag_val (v : Z) : CM Z := ldb (Hd_val v).

(** Indices in [caml_global_data] (fail.h). *)
Definition SYS_ERROR_EXN : Z := 1.
Definition FAILURE_EXN : Z := 2.
Definition INVALID_EXN : Z := 3.
Definition END_OF_FILE_EXN : Z := 4.
Definition NOT_FOUND_EXN : Z := 6.
Definition MATCH_FAILURE_EXN : Z := 7.
Definition SYS_BLOCKED_IO : Z := 9.
Definition ASSERT_FAILURE_EXN : Z := 10.
Definition UNDEFINED_RECURSIVE_MODULE_EXN : Z := 11.

Section Operations.
Context `{Runtime}.

(** ** alloc.c *)

(** The value returned by [caml_check_urgent_gc_r (ctx, result)]. *)
Definition check_urgent_gc (result : Z) (roots : list Z) : CM (Z * list Z) :=
  let* rs := caml_check_urgent_gc_r (result :: roots) in
  match rs with
  | result :: roots => mreturn (result, roots)
  | [] => mfail (CFault Contract)
  end.

(** [for (i = 0; i < wosize; i++) Field (result, i) = 0;] *)
Definition fill_words (v n : Z) : CM unit := for_up (Z.to_nat n) 0 (λ i, st (Field v i) 0).

Definition caml_alloc_r (wosize tag : Z) (roots : list Z) : CM (Z * list Z) :=
  if wosize =? 0 then
    let* c := mget in mreturn (Atom c tag, roots)
  else if wosize <=? Max_young_wosize then
    let* (result, roots) := caml_alloc_small_r wosize tag roots in
    (if tag <? No_scan_tag then fill_words result wosize else mreturn tt) ;;;
    mreturn (result, roots)
  else
    let* result := caml_alloc_shr_r wosize tag in
    (if tag <? No_scan_tag then memset result 0 (Bsize_wsize wosize) else mreturn tt) ;;;
    check_urgent_gc result roots.

Definition caml_alloc_tuple_r (n : Z) (roots : list Z) : CM (Z * list Z) := caml_alloc_r n 0 roots.

Definition caml_alloc_string_r (len : Z) (roots : list Z) : CM (Z * list Z) :=
  let wosize := u64 (len + 8) / 8 in
  let* (result, roots) :=
    (if wosize <=? Max_young_wosize then caml_alloc_small_r wosize String_tag roots
     else
       let* result := caml_alloc_shr_r wosize String_tag in
       check_urgent_gc result roots) in
  st (Field result (wosize - 1)) 0 ;;;
  let offset_index := Bsize_wsize wosize - 1 in
  stb (result + offset_index) (offset_index - len) ;;;
  mreturn (result, roots).

Definition caml_copy_string_r (s : list Z) (roots : list Z) : CM (Z * list Z) :=
  let len := s32 (Z.of_nat (length s)) in
  let* (res, roots) := caml_alloc_string_r (u64 len) roots in
  stbs res (take (Z.to_nat (u64 len)) s) ;;;
  mreturn (res, roots).

(** The loop of [caml_alloc_array_r]: [funct] may move [result]. *)
Fixpoint alloc_array_loop {A} (funct : A → list Z → CM (Z * list Z)) (arr : list A) (n result : Z)
    (roots : list Z) : CM (Z * list Z) :=
  match arr with
  | [] => mreturn (result, roots)
  | x :: arr =>
      let* (v, rs) := funct x (result :: roots) in
      match rs with
      | [] => mfail (CFault Contract)
      | result :: roots =>
          caml_modify_r (Field result n) v ;;;
          alloc_array_loop funct arr (n + 1) result roots
      end
  end.

Definition caml_alloc_array_r {A} (funct : A → list Z → CM (Z * list Z)) (arr : list A)
    (roots : list Z) : CM (Z * list Z) :=
  let nbr := Z.of_nat (length arr) in
  if nbr =? 0 then
    let* c := mget in mreturn (Atom c 0, roots)
  else
    let* (result, roots) := caml_alloc_r nbr 0 roots in
    alloc_array_loop funct arr 0 result roots.

Definition caml_copy_string_array_r (arr : list (list Z)) (roots : list Z) : CM (Z * list Z) :=
  caml_alloc_array_r caml_copy_string_r arr roots.

(** The list is followed for [fuel] cells at most. *)
Fixpoint convert_flag_list (fuel : nat) (flags : list Z) (res lst : Z) : CM Z :=
  match fuel with
  | O => mfail (CFault OutOfFuel)
  | S fuel =>
      if lst =? Val_int 0 then mreturn res else
      let* hd := ld (Field lst 0) in
      match flags !! Z.to_nat (Int_val hd) with
      | Some f =>
          if Int_val hd <? 0 then mfail (CFault (BadLoad (Int_val hd))) else
          let* tl := ld (Field lst 1) in
          convert_flag_list fuel flags (Z.lor res f) tl
      | None => mfail (CFault (BadLoad (Int_val hd)))
      end
  end.

Definition caml_convert_flag_list (fuel : nat) (lst : Z) (flags : list Z) : CM Z :=
  convert_flag_list fuel flags 0 lst.

Definition caml_alloc_dummy_r (size : Z) : CM Z :=
  let wosize := u64 (Int_val size) in
  if wosize =? 0 then let* c := mget in mreturn (Atom c 0)
  else let* (res, _) := caml_alloc_r wosize 0 [] in mreturn res.

Definition caml_alloc_dummy_float_r (size : Z) : CM Z :=
  let wosize := u64 (Int_val size * Double_wosize) in
  if wosize =? 0 then let* c := mget in mreturn (Atom c 0)
  else let* (res, _) := caml_alloc_r wosize 0 [] in mreturn res.

Definition caml_update_dummy_r (dummy newval : Z) : CM Z :=
  let* size := Wosize_val newval in
  let* tag := Tag_val newval in
  stb (Hd_val dummy) tag ;;;
  (if tag =? Double_array_tag then
     for_up (Z.to_nat (size / Double_wosize)) 0 (λ i,
       let* d := ld (Field newval i) in st (Field dummy i) d)
   else
     for_up (Z.to_nat size) 0 (λ i,
       let* x := ld (Field newval i) in caml_modify_r (Field dummy i) x)) ;;;
  mreturn Val_unit.

(** ** fail.c *)

Definition caml_raise_with_arg_r {A} (tag arg : Z) : CM A :=
  let* (bucket, roots) := caml_alloc_small_r 2 0 [tag; arg] in
  match roots with
  | [tag; arg] =>
      st (Field bucket 0) tag ;;; st (Field bucket 1) arg ;;; caml_raise_r bucket
  | _ => mfail (CFault Contract)
  end.

Fixpoint store_fields (bucket i : Z) (vs : list Z) : CM unit :=
  match vs with
  | [] => mreturn tt
  | v :: vs => st (Field bucket i) v ;;; store_fields bucket (i + 1) vs
  end.

Definition caml_raise_with_args_r {A} (tag : Z) (args : list Z) : CM A :=
  let* (bucket, roots) := caml_alloc_small_r (1 + Z.of_nat (length args)) 0 (tag :: args) in
  store_fields bucket 0 roots ;;;
  caml_raise_r bucket.

Definition caml_raise_with_string_r {A} (tag : Z) (msg : list Z) : CM A :=
  let* (vmsg, roots) := caml_copy_string_r msg [tag] in
  match roots with
  | [tag] => caml_raise_with_arg_r tag vmsg
  | _ => mfail (CFault Contract)
  end.

Definition caml_failwith_r {A} (msg : list Z) : CM A :=
  let* c := mget in
  if caml_global_data c =? 0 then mfail (CFatal (FatalExit 2)) else
  let* tag := ld (Field (caml_global_data c) FAILURE_EXN) in
  caml_raise_with_string_r tag msg.

Definition caml_invalid_argument_r {A} (msg : list Z) : CM A :=
  let* c := mget in
  if caml_global_data c =? 0 then mfail (CFatal (FatalExit 2)) else
  let* tag := ld (Field (caml_global_data c) INVALID_EXN) in
  caml_raise_with_string_r tag msg.

(** "index out of bounds" *)
Definition index_out_of_bounds : list Z :=
  [105; 110; 100; 101; 120; 32; 111; 117; 116; 32; 111; 102; 32; 98; 111; 117; 110; 100; 115].

Definition caml_array_bound_error_r {A} : CM A := caml_invalid_argument_r index_out_of_bounds.

Definition raise_global {A} (n : Z) : CM A :=
  let* c := mget in
  let* tag := ld (Field (caml_global_data c) n) in
  caml_raise_constant_r tag.

Definition caml_raise_sys_error_r {A} (msg : Z) : CM A :=
  let* c := mget in
  let* tag := ld (Field (caml_global_data c) SYS_ERROR_EXN) in
  caml_raise_with_arg_r tag msg.
Definition caml_raise_end_of_file_r {A} : CM A := raise_global END_OF_FILE_EXN.
Definition caml_raise_not_found_r {A} : CM A := raise_global NOT_FOUND_EXN.
Definition caml_raise_sys_blocked_io_r {A} : CM A := raise_global SYS_BLOCKED_IO.

Definition caml_is_special_exception_r (exn : Z) : CM bool :=
  let* c := mget in
  let* e1 := ld (Field (caml_global_data c) MATCH_FAILURE_EXN) in
  if exn =? e1 then mreturn true else
  let* e2 := ld (Field (caml_global_data c) ASSERT_FAILURE_EXN) in
  if exn =? e2 then mreturn true else
  let* e3 := ld (Field (caml_global_data c) UNDEFINED_RECURSIVE_MODULE_EXN) in
  mreturn (exn =? e3).
End Operations.
(** ** Bytes and words *)

Lemma byte_of_bits w i k : 0 <= i → 0 <= k →
  Z.testbit (byte_of w i) k = (k <? 8) && Z.testbit w (8 * i + k).
Proof.
  intros Hi Hk. unfold byte_of. change 255 with (Z.ones 8). rewrite Z.land_spec, Z.shiftr_spec by done.
  rewrite (Z.add_comm k). destruct (Z.ltb_spec k 8); [rewrite Z.ones_spec_low by lia|rewrite Z.ones_spec_high by lia].
  - by rewrite andb_true_r.
  - by rewrite andb_false_r.
Qed.

Lemma byte_of_range w i : 0 <= i → 0 <= byte_of w i < 256.
Proof.
  intros Hi. change 256 with (2 ^ 8). apply bits_small; [lia|]. intros k Hk. rewrite byte_of_bits by lia.
  by rewrite (proj2 (Z.ltb_ge _ _)).
Qed.

Lemma set_byte_bits w i b k : 0 <= i → 0 <= k →
  Z.testbit (set_byte w i b) k =
  if (8 * i <=? k) && (k <? 8 * i + 8) then Z.testbit (b mod 256) (k - 8 * i) else Z.testbit w k.
Proof.
  intros Hi Hk. unfold set_byte. rewrite Z.lor_spec, Z.ldiff_spec, !Z.shiftl_spec by done. change 255 with (Z.ones 8).
  pose proof (Z.mod_pos_bound b 256 ltac:(lia)) as Hb.
  destruct (Z.leb_spec (8 * i) k); cbn [andb].
  - destruct (Z.ltb_spec k (8 * i + 8)).
    + rewrite Z.ones_spec_low by lia. by rewrite andb_false_r.
    + rewrite Z.ones_spec_high, (small_bits (b mod 256) 8) by (cbn; lia). by rewrite andb_true_r, orb_false_r.
  - rewrite (Z.testbit_neg_r _ (k - 8 * i)) by lia. rewrite (Z.testbit_neg_r (b mod 256)) by lia.
    by rewrite andb_true_r, orb_false_r.
Qed.

Lemma byte_of_set_byte w i j b : 0 <= i → 0 <= j →
  byte_of (set_byte w i b) j = if i =? j then b mod 256 else byte_of w j.
Proof.
  intros Hi Hj. pose proof (Z.mod_pos_bound b 256 ltac:(lia)) as Hb.
  apply Z.bits_inj'. intros k Hk. rewrite byte_of_bits, set_byte_bits by lia.
  destruct (Z.eqb_spec i j) as [->|Hne]; destruct (Z.ltb_spec k 8); cbn [andb].
  - rewrite (proj2 (Z.leb_le _ _)), (proj2 (Z.ltb_lt _ _)) by lia. cbn [andb]. f_equal. lia.
  - by rewrite (small_bits (b mod 256) 8) by (cbn; lia).
  - rewrite byte_of_bits by lia. rewrite (proj2 (Z.ltb_lt k 8)) by lia. cbn [andb].
    destruct (Z.leb_spec (8 * i) (8 * j + k)), (Z.ltb_spec (8 * j + k) (8 * i + 8)); cbn [andb]; (done || lia).
  - rewrite byte_of_bits by lia. by rewrite (proj2 (Z.ltb_ge k 8)) by lia.
Qed.

Lemma set_byte_word w i b : word w → 0 <= i < 8 → word (set_byte w i b).
Proof.
  intros Hw Hi. unfold word. rewrite W_pow. apply bits_small; [lia|]. intros k Hk.
  rewrite set_byte_bits by lia. rewrite (proj2 (Z.ltb_ge k _)) by lia. rewrite andb_false_r. by apply word_bits.
Qed.

Lemma bytes_inj w w' : word w → word w' → (∀ i, 0 <= i < 8 → byte_of w i = byte_of w' i) → w = w'.
Proof.
  intros Hw Hw' Hb. apply Z.bits_inj'. intros k Hk. destruct (Z.lt_ge_cases k 64); [|by rewrite !word_bits].
  pose proof (f_equal (λ x, Z.testbit x (k mod 8)) (Hb (k / 8) ltac:(Z.to_euclidean_division_equations; lia))) as E.
  cbn beta in E. pose proof (Z.mod_pos_bound k 8 ltac:(lia)).
  rewrite !byte_of_bits in E by (try apply Z.div_pos; lia). rewrite <- Z.div_mod in E by lia.
  by rewrite (proj2 (Z.ltb_lt _ _)) in E by lia.
Qed.

(** ** Byte memory *)

Lemma same_word a a' : a / 8 = a' / 8 → a mod 8 = a' mod 8 → a = a'.
Proof. intros. rewrite (Z.div_mod a 8), (Z.div_mod a' 8) by lia. congruence. Qed.

(** Writing a byte where memory is mapped, nowhere else. *)
Definition write_byte (m : gmap Z Z) (a b : Z) : gmap Z Z := default m (store_byte m a b).

Fixpoint write_bytes (m : gmap Z Z) (a : Z) (bs : list Z) : gmap Z Z :=
  match bs with [] => m | b :: bs => write_bytes (write_byte m a b) (a + 1) bs end.

Lemma load_write_byte m a b a' : is_Some (load_byte m a) →
  load_byte (write_byte m a b) a' = if a =? a' then Some (b mod 256) else load_byte m a'.
Proof.
  unfold load_byte, write_byte, store_byte. destruct (m !! (8 * (a / 8))) as [w|] eqn:Ew; [|by intros []]. intros _. cbn.
  pose proof (Z.mod_pos_bound a 8 ltac:(lia)). pose proof (Z.mod_pos_bound a' 8 ltac:(lia)).
  destruct (decide (a / 8 = a' / 8)) as [Ed|Hne].
  - rewrite <- Ed, lookup_insert_eq, Ew, byte_of_set_byte by lia.
    destruct (Z.eqb_spec (a mod 8) (a' mod 8)) as [Em|Hm], (Z.eqb_spec a a') as [->|Hn]; try done.
    by destruct Hn; apply same_word.
  - rewrite lookup_insert_ne by lia. destruct (Z.eqb_spec a a') as [->|]; done.
Qed.

Lemma write_byte_lookup m a b k : k + 8 <= a ∨ a < k → write_byte m a b !! k = m !! k.
Proof.
  intros Hk. unfold write_byte, store_byte. destruct (m !! (8 * (a / 8))) as [w|] eqn:Ew; [|done]. cbn.
  apply lookup_insert_ne. Z.to_euclidean_division_equations; lia.
Qed.

Definition bytes_at (m : gmap Z Z) (a : Z) (bs : list Z) : Prop :=
  ∀ i b, bs !! i = Some b → load_byte m (a + Z.of_nat i) = Some b.

Definition mapped_bytes (m : gmap Z Z) (a n : Z) : Prop :=
  ∀ a', a <= a' < a + n → is_Some (load_byte m a').

Lemma load_write_bytes m a bs a' : mapped_bytes m a (Z.of_nat (length bs)) →
  load_byte (write_bytes m a bs) a' =
  match (if a <=? a' then bs !! Z.to_nat (a' - a) else None) with
  | Some b => Some (b mod 256) | None => load_byte m a' end.
Proof.
  revert m a. induction bs as [|b bs IH]; intros m a Hm; cbn [write_bytes]; [by destruct (a <=? a')|].
  assert (∀ x, load_byte (write_byte m a b) x = if a =? x then Some (b mod 256) else load_byte m x) as Hw.
  { intros x. apply load_write_byte, Hm. cbn [length]. lia. }
  rewrite IH.
  2:{ intros x Hx. rewrite Hw. case_match; [by eexists|]. apply Hm. cbn [length]. lia. }
  rewrite Hw. destruct (Z.leb_spec (a + 1) a'), (Z.leb_spec a a'); try lia.
  - replace (Z.to_nat (a' - a)) with (S (Z.to_nat (a' - (a + 1)))) by lia. cbn.
    rewrite (proj2 (Z.eqb_neq _ _)) by lia. done.
  - assert (a = a') as -> by lia. rewrite Z.sub_diag, Z.eqb_refl. done.
  - rewrite (proj2 (Z.eqb_neq _ _)) by lia. done.
Qed.

Lemma write_bytes_lookup m a bs k : k + 8 <= a ∨ a + Z.of_nat (length bs) <= k → write_bytes m a bs !! k = m !! k.
Proof.
  revert m a. induction bs as [|b bs IH]; intros m a Hk; [done|]. cbn [write_bytes length] in *.
  rewrite IH by lia. apply write_byte_lookup. lia.
Qed.

Definition word_mem (m : gmap Z Z) : Prop := ∀ a w, m !! a = Some w → word w.

Lemma write_byte_word m a b : word_mem m → word_mem (write_byte m a b).
Proof.
  intros Hm. unfold write_byte, store_byte. destruct (m !! (8 * (a / 8))) as [w|] eqn:Ew; [|done]. cbn.
  intros k x [[<- <-]|[_ Hk]]%lookup_insert_Some; [|by eapply Hm].
  apply set_byte_word; [by eapply Hm|apply Z.mod_pos_bound; lia].
Qed.

Lemma write_bytes_word m a bs : word_mem m → word_mem (write_bytes m a bs).
Proof. revert m a. induction bs as [|b bs IH]; intros m a Hm; [done|]. by apply IH, write_byte_word. Qed.

Lemma ldb_eq c a b : load_byte (words c) a = Some b → ldb a c = inr (c, b).
Proof. intros Hb. unfold ldb. by rewrite Hb. Qed.

Lemma stb_eq c a b : is_Some (load_byte (words c) a) → stb a b c = inr (set_words (write_byte (words c) a b) c, tt).
Proof.
  unfold load_byte, stb, write_byte, store_byte. destruct (words c !! (8 * (a / 8))); [done|]. by intros [].
Qed.

Lemma set_words_set_words m m' c : set_words m (set_words m' c) = set_words m c.
Proof. reflexivity. Qed.

Lemma mapped_write_byte m a b x n : mapped_bytes m x n → mapped_bytes (write_byte m a b) x n.
Proof.
  intros Hm y Hy. specialize (Hm y Hy). unfold load_byte, write_byte, store_byte in *.
  destruct (m !! (8 * (a / 8))) as [w|] eqn:Ew; [|done]. cbn. destruct (decide (a / 8 = y / 8)) as [E|].
  - rewrite E, lookup_insert_eq. by eexists.
  - by rewrite lookup_insert_ne by lia.
Qed.

Lemma mapped_write_bytes m a bs x n : mapped_bytes m x n → mapped_bytes (write_bytes m a bs) x n.
Proof. revert m a. induction bs as [|b bs IH]; intros m a Hm; [done|]. by apply IH, mapped_write_byte. Qed.

Lemma stbs_eq c a bs : mapped_bytes (words c) a (Z.of_nat (length bs)) →
  stbs a bs c = inr (set_words (write_bytes (words c) a bs) c, tt).
Proof.
  revert c a. induction bs as [|b bs IH]; intros c a Hm; cbn [stbs write_bytes]; [by destruct c|].
  unfold mbnd. rewrite stb_eq by (apply Hm; cbn; lia). rewrite IH; [done|].
  apply mapped_write_byte. intros y Hy. apply Hm. cbn [length]. lia.
Qed.

Lemma ldbs_eq c a bs : bytes_at (words c) a bs → ldbs a (length bs) c = inr (c, bs).
Proof.
  revert a. induction bs as [|b bs IH]; intros a Hb; cbn [ldbs length]; [done|].
  unfold mbnd. rewrite (ldb_eq c a b); [|specialize (Hb O b eq_refl); by rewrite Z.add_0_r in Hb].
  rewrite IH; [done|]. intros i x Hi. specialize (Hb (S i) x Hi). by replace (a + 1 + Z.of_nat i) with (a + Z.of_nat (S i)) by lia.
Qed.

Lemma bytes_at_write m a bs : mapped_bytes m a (Z.of_nat (length bs)) → Forall (λ b, 0 <= b < 256) bs →
  bytes_at (write_bytes m a bs) a bs.
Proof.
  intros Hm HF i b Hi. rewrite load_write_bytes by done. rewrite (proj2 (Z.leb_le _ _)) by lia.
  replace (Z.to_nat (a + Z.of_nat i - a)) with i by lia. rewrite Hi. f_equal. apply Z.mod_small.
  rewrite Forall_lookup in HF. by apply (HF i).
Qed.

Lemma bytes_at_app m a l k : bytes_at m a (l ++ k) ↔ bytes_at m a l ∧ bytes_at m (a + Z.of_nat (length l)) k.
Proof.
  split.
  - intros Hb. split; intros i b Hi.
    + apply Hb. by apply lookup_app_l_Some.
    + replace (a + Z.of_nat (length l) + Z.of_nat i) with (a + Z.of_nat (length l + i)) by lia.
      apply Hb. by rewrite lookup_app_r, Nat.add_comm, Nat.add_sub by lia.
  - intros [H1 H2] i b [Hi|[Hl Hi]]%lookup_app_Some; [by apply H1|].
    replace (a + Z.of_nat i) with (a + Z.of_nat (length l) + Z.of_nat (i - length l)) by lia. by apply H2.
Qed.

(** The bytes of a mapped area exist. *)
Lemma bytes_exist m a (n : nat) : mapped_bytes m a (Z.of_nat n) →
  ∃ bs, length bs = n ∧ bytes_at m a bs ∧ Forall (λ b, 0 <= b < 256) bs.
Proof.
  revert a. induction n as [|n IH]; intros a Hm; [by exists []|].
  destruct (IH (a + 1)) as (bs & Hl & Hb & HF); [intros y Hy; apply Hm; lia|].
  destruct (Hm a ltac:(lia)) as [b Eb]. exists (b :: bs). split_and!; [by rewrite <- Hl| |].
  - intros [|i] x Hi; cbn in Hi; [simplify_eq; by rewrite Z.add_0_r|].
    replace (a + Z.of_nat (S i)) with (a + 1 + Z.of_nat i) by lia. by apply Hb.
  - constructor; [|done]. unfold load_byte in Eb. case_match; [|done]. simplify_eq.
    apply byte_of_range. apply Z.mod_pos_bound. lia.
Qed.

(** ** Strings *)

(** The bytes after the contents of a string of [n] bytes in [w] words. *)
Definition padding (w n : Z) : list Z := replicate (Z.to_nat (8 * w - 1 - n)) 0 ++ [8 * w - 1 - n].

(** The string at [s] has the contents [l]. *)
Record is_string (m : gmap Z Z) (s : Z) (l : list Z) : Prop := {
  string_aligned : s mod 8 = 0;
  string_header : ∃ hd, m !! (s - 8) = Some hd ∧ Wosize_hd hd = (Z.of_nat (length l) + 8) / 8;
  string_small : Z.of_nat (length l) < 2 ^ 56;
  string_bytes : bytes_at m s (l ++ padding ((Z.of_nat (length l) + 8) / 8) (Z.of_nat (length l)));
  string_range : Forall (λ b, 0 <= b < 256) l
}.

(** Room for a block of [n] words at [blk] in the minor heap. *)
Record room (c : context) (n blk : Z) : Prop := {
  room_ptr : caml_young_ptr c - Bhsize_wosize n = blk - 8;
  room_start : caml_young_start c <= blk - 8;
  room_mapped : mapped (words c) (blk - 8) (Z.to_nat (n + 1));
  room_aligned : blk mod 8 = 0
}.

(** The context after the allocation. *)
Definition allocated (c : context) (n tag blk : Z) : context :=
  set_words (<[blk - 8 := Make_header n tag Caml_black]> (words c)) (set_caml_young_ptr (blk - 8) c).

Lemma alloc_small_eq `{Runtime} n tag roots c blk :
  0 <= n → room c n blk → caml_alloc_small_r n tag roots c = inr (allocated c n tag blk, (blk, roots)).
Proof.
  intros Hn [Hp Hs Hm _]. specialize (Hm O ltac:(lia)). rewrite padd_0 in Hm. destruct Hm as [w Hw].
  unfold caml_alloc_small_r, mbnd, mget, mput, mreturn, st. rewrite Hp, (proj2 (Z.ltb_ge _ _)) by lia.
  cbn. rewrite Hw. unfold Val_hp. by replace (blk - 8 + 8) with blk by lia.
Qed.

Lemma mapped_aligned m p n a : p mod 8 = 0 → mapped m p n → p <= a < p + 8 * Z.of_nat n →
  is_Some (m !! (8 * (a / 8))).
Proof.
  intros Hp Hm Ha. apply (mapped_is_Some m p n); [done|unfold padd; Z.to_euclidean_division_equations; lia|].
  exists (a / 8 - p / 8). Z.to_euclidean_division_equations; lia.
Qed.

Lemma mapped_words_bytes m p n : p mod 8 = 0 → mapped m p (Z.to_nat n) → mapped_bytes m p (8 * n).
Proof.
  intros Hp Hm a Ha. unfold load_byte. destruct (mapped_aligned m p (Z.to_nat n) a Hp Hm ltac:(lia)) as [w ->]. by eexists.
Qed.

(** The size in words of a string of [n] bytes. *)
Definition string_wosize (n : Z) : Z := (n + 8) / 8.

Lemma string_wosize_bounds n : 0 <= n → 1 <= string_wosize n ∧ 8 * string_wosize n - 8 <= n < 8 * string_wosize n.
Proof. intros Hn. unfold string_wosize. Z.to_euclidean_division_equations; lia. Qed.

(** The context after the allocation of a string of [n] bytes. *)
Definition string_block (c : context) (n blk : Z) : context :=
  let w := string_wosize n in
  set_words (write_byte (<[blk + 8 * (w - 1) := 0]> (words (allocated c w String_tag blk))) (blk + 8 * w - 1) (8 * w - 1 - n))
    (set_caml_young_ptr (blk - 8) c).

Lemma room_bytes c n blk : 0 <= n → room c n blk → mapped_bytes (words (allocated c n String_tag blk)) (blk - 8) (8 * (n + 1)).
Proof.
  intros Hn [_ _ Hm Ha]. apply mapped_words_bytes; [Z.to_euclidean_division_equations; lia|].
  by apply mapped_insert.
Qed.

Lemma mapped_bytes_insert m a v x n : mapped_bytes m x n → mapped_bytes (<[a := v]> m) x n.
Proof.
  intros Hm y Hy. specialize (Hm y Hy). unfold load_byte in *. destruct (decide (a = 8 * (y / 8))) as [->|].
  - rewrite lookup_insert_eq. by eexists.
  - by rewrite lookup_insert_ne.
Qed.

Lemma mapped_bytes_sub m a n a' n' : mapped_bytes m a n → a <= a' → a' + n' <= a + n → mapped_bytes m a' n'.
Proof. intros Hm H1 H2 y Hy. apply Hm. lia. Qed.

Lemma alloc_string_eq `{Runtime} n roots c blk :
  0 <= n → string_wosize n <= Max_young_wosize → room c (string_wosize n) blk →
  caml_alloc_string_r n roots c = inr (string_block c n blk, (blk, roots)).
Proof.
  intros Hn Hw Hr. destruct (string_wosize_bounds n Hn) as [Hw1 Hw2]. unfold Max_young_wosize in Hw.
  unfold caml_alloc_string_r. rewrite u64_small by lia_w. fold (string_wosize n).
  rewrite (proj2 (Z.leb_le (string_wosize n) Max_young_wosize)) by done.
  assert (0 <= string_wosize n) as Hw0 by lia. pose proof (room_bytes _ _ _ Hw0 Hr) as Hm. unfold mbnd at 1. rewrite (alloc_small_eq _ _ _ _ blk) by (done || lia).
  unfold mbnd, st, Field. assert (is_Some (words (allocated c (string_wosize n) String_tag blk) !! (blk + 8 * (string_wosize n - 1)))) as [x Hx].
  { destruct (Hm (blk + 8 * (string_wosize n - 1)) ltac:(lia)) as [b Hb]. unfold load_byte in Hb.
    replace (8 * ((blk + 8 * (string_wosize n - 1)) / 8)) with (blk + 8 * (string_wosize n - 1)) in Hb
      by (pose proof (room_aligned _ _ _ Hr); Z.to_euclidean_division_equations; lia).
    case_match; [by eexists|done]. }
  rewrite Hx, stb_eq.
  - unfold string_block, Bsize_wsize. cbn. by replace (blk + (string_wosize n * 8 - 1)) with (blk + 8 * string_wosize n - 1) by lia;
      replace (string_wosize n * 8 - 1 - n) with (8 * string_wosize n - 1 - n) by lia.
  - apply mapped_bytes_insert with (x := blk - 8) (n := 8 * (string_wosize n + 1)); [done|]. unfold Bsize_wsize. lia.
Qed.

(** The padding of a fresh string, and what a memory that agrees with it holds. *)
Lemma string_block_is_string c l blk m :
  let n := Z.of_nat (length l) in let w := string_wosize n in
  n < 2 ^ 31 → room c w blk → Forall (λ b, 0 <= b < 256) l →
  m !! (blk - 8) = words (string_block c n blk) !! (blk - 8) →
  bytes_at m blk l →
  (∀ a, blk + n <= a < blk + 8 * w → load_byte m a = load_byte (words (string_block c n blk)) a) →
  is_string m blk l.
Proof.
  intros n w Hlen Hr HF Hhd Hb Hpad. destruct (string_wosize_bounds n ltac:(lia)) as [Hw1 Hw2]. fold w in Hw1, Hw2.
  pose proof (room_aligned _ _ _ Hr) as Hal. assert (0 <= w) as Hw0 by lia. pose proof (room_bytes _ _ _ Hw0 Hr) as Hm.
  split; [done| |cbn in *; lia| |done].
  - exists (Make_header w String_tag Caml_black). split.
    + rewrite Hhd. unfold string_block. fold w. cbn. rewrite write_byte_lookup, lookup_insert_ne by lia.
      by rewrite lookup_insert_eq.
    + destruct (header_fields w String_tag Caml_black) as (_ & E & _); [|unfold String_tag; lia|unfold wf_color; tauto|done].
      unfold Max_wosize. cbn in *. lia.
  - fold n. change ((n + 8) / 8) with w. apply bytes_at_app. split; [done|]. fold n.
    assert (∀ a, blk + n <= a < blk + 8 * w → load_byte m a =
      Some (if a =? blk + 8 * w - 1 then 8 * w - 1 - n else 0)) as Hz.
    { intros a Ha. rewrite Hpad by done. unfold string_block. fold w. cbn [words set_words].
      rewrite load_write_byte by (apply (mapped_bytes_insert _ _ _ (blk - 8) (8 * (w + 1))); [done|lia]).
      rewrite (Z.eqb_sym a). destruct (Z.eqb_spec (blk + 8 * w - 1) a); [rewrite Z.mod_small by lia; done|].
      unfold load_byte. replace (8 * (a / 8)) with (blk + 8 * (w - 1)) by (Z.to_euclidean_division_equations; lia).
      rewrite lookup_insert_eq. unfold byte_of. by rewrite Z.shiftr_0_l. }
    unfold padding. intros i b Hi. pose proof (lookup_lt_Some _ _ _ Hi) as Hlt.
    rewrite length_app, length_replicate in Hlt. cbn [length] in Hlt. rewrite Hz by lia.
    apply lookup_app_Some in Hi as [[-> Hi]%lookup_replicate|[Hl Hi]].
    + by rewrite (proj2 (Z.eqb_neq _ _)) by lia.
    + rewrite length_replicate in *. replace (i - Z.to_nat (8 * w - 1 - n))%nat with O in Hi by lia. cbn in Hi. simplify_eq.
      by rewrite (proj2 (Z.eqb_eq _ _)) by lia.
Qed.

(** Memory outside a fresh string is unchanged. *)
Lemma string_block_frame c n blk k : 0 <= n →
  k + 8 <= blk - 8 ∨ blk + 8 * string_wosize n <= k → words (string_block c n blk) !! k = words c !! k.
Proof.
  intros Hn Hk. destruct (string_wosize_bounds n Hn) as [Hw1 Hw2]. unfold string_block. cbn.
  rewrite write_byte_lookup, !lookup_insert_ne by lia. done.
Qed.

Lemma string_block_mapped c n blk : 0 <= n → room c (string_wosize n) blk → mapped_bytes (words (string_block c n blk)) blk n.
Proof.
  intros Hn Hr. destruct (string_wosize_bounds n Hn) as [Hw1 Hw2]. apply mapped_write_byte, mapped_bytes_insert.
  eapply mapped_bytes_sub; [apply room_bytes; [|exact Hr]|..]; lia.
Qed.

(** [caml_alloc_string_r] returns a string of the requested length, whatever
    the memory held, and changes nothing outside the new block. *)
Theorem alloc_string_correct `{Runtime} n roots c blk :
  0 <= n → string_wosize n <= Max_young_wosize → room c (string_wosize n) blk →
  ∃ c' l, caml_alloc_string_r n roots c = inr (c', (blk, roots)) ∧
    Z.of_nat (length l) = n ∧ is_string (words c') blk l ∧ caml_young_ptr c' = blk - 8 ∧
    ∀ k, k + 8 <= blk - 8 ∨ blk + 8 * string_wosize n <= k → words c' !! k = words c !! k.
Proof.
  intros Hn Hw Hr. destruct (bytes_exist (words (string_block c n blk)) blk (Z.to_nat n)) as (l & Hl & Hb & HF).
  { rewrite Z2Nat.id by done. by apply string_block_mapped. }
  assert (Z.of_nat (length l) = n) as El by lia. destruct (string_wosize_bounds n Hn).
  exists (string_block c n blk), l. split_and!; [by apply alloc_string_eq|done| |done|].
  - eapply (string_block_is_string c); rewrite ?El; try done. unfold Max_young_wosize in Hw. cbn. lia.
  - intros k Hk. by apply string_block_frame.
Qed.

Lemma copy_string_eq `{Runtime} s roots c blk :
  let n := Z.of_nat (length s) in
  string_wosize n <= Max_young_wosize → room c (string_wosize n) blk →
  caml_copy_string_r s roots c =
    inr (set_words (write_bytes (words (string_block c n blk)) blk s) (set_caml_young_ptr (blk - 8) c), (blk, roots)).
Proof.
  intros n Hw Hr. destruct (string_wosize_bounds n ltac:(lia)) as [Hw1 Hw2]. unfold Max_young_wosize in Hw.
  unfold caml_copy_string_r. fold n.
  assert (u64 (s32 n) = n) as ->.
  { unfold s32. rewrite Z.mod_small by lia_w. rewrite u64_small by lia_w. lia. }
  unfold mbnd. rewrite (alloc_string_eq _ _ _ blk) by (done || lia).
  rewrite take_ge by lia. rewrite stbs_eq; [done|]. by apply string_block_mapped; [lia|].
Qed.

Lemma copy_string_is_string s c blk :
  let n := Z.of_nat (length s) in
  string_wosize n <= Max_young_wosize → room c (string_wosize n) blk → Forall (λ b, 0 <= b < 256) s →
  is_string (write_bytes (words (string_block c n blk)) blk s) blk s.
Proof.
  intros n Hw Hr HF. destruct (string_wosize_bounds n ltac:(lia)) as [Hw1 Hw2]. unfold Max_young_wosize in Hw.
  assert (0 <= n) as Hn by lia. pose proof (string_block_mapped c n blk Hn Hr) as Hm.
  apply (string_block_is_string c); fold n; try done; [cbn; lia| | |].
  - by rewrite write_bytes_lookup by lia.
  - by apply bytes_at_write.
  - intros a Ha. rewrite load_write_bytes by done. rewrite lookup_ge_None_2 by lia. by destruct (blk <=? a).
Qed.

Lemma copy_string_frame s c blk k :
  let n := Z.of_nat (length s) in
  k + 8 <= blk - 8 ∨ blk + 8 * string_wosize n <= k →
  write_bytes (words (string_block c n blk)) blk s !! k = words c !! k.
Proof.
  intros n Hk. destruct (string_wosize_bounds n ltac:(lia)) as [Hw1 Hw2].
  rewrite write_bytes_lookup by (fold n; lia). apply string_block_frame; lia.
Qed.

(** The context in which an exception with an argument is raised. *)
Definition raised_with (c : context) (blk tag arg : Z) : context :=
  set_caml_exn_bucket blk (set_words (<[blk + 8 := arg]> (<[blk := tag]> (words (allocated c 2 0 blk))))
    (set_caml_young_ptr (blk - 8) c)).

Lemma raise_with_arg_eq `{Runtime} {A} tag arg c blk :
  room c 2 blk → caml_external_raise c ≠ 0 →
  caml_raise_with_arg_r (A := A) tag arg c = inl (CLongjmp (caml_external_raise c) (raised_with c blk tag arg)).
Proof.
  intros Hr He. unfold caml_raise_with_arg_r, mbnd. rewrite (alloc_small_eq _ _ _ _ blk) by (done || lia).
  pose proof (room_mapped _ _ _ Hr) as Hm. destruct (Hm 1%nat ltac:(lia)) as [w1 H1]. destruct (Hm 2%nat ltac:(lia)) as [w2 H2].
  unfold padd in H1, H2. replace (blk - 8 + 8 * Z.of_nat 1) with blk in H1 by lia.
  replace (blk - 8 + 8 * Z.of_nat 2) with (blk + 8) in H2 by lia.
  unfold st, Field, allocated. cbn -[Z.mul Z.add Z.sub]. replace (blk + 8 * 0) with blk by lia. replace (blk + 8 * 1) with (blk + 8) by lia.
  rewrite lookup_insert_ne, H1 by lia. cbn -[Z.mul Z.add Z.sub]. rewrite !lookup_insert_ne, H2 by lia.
  unfold caml_raise_r, mbnd, mget, mfail. cbn -[Z.mul Z.add Z.sub].
  rewrite (proj2 (Z.eqb_neq _ _)) by done. done.
Qed.

Lemma bytes_at_ext m m' a bs :
  (∀ x, a <= x < a + Z.of_nat (length bs) → load_byte m' x = load_byte m x) → bytes_at m a bs → bytes_at m' a bs.
Proof. intros He Hb i b Hi. rewrite He; [by apply Hb|]. apply lookup_lt_Some in Hi. lia. Qed.

Lemma load_byte_insert_ne m k v a : k mod 8 = 0 → a < k ∨ k + 8 <= a → load_byte (<[k := v]> m) a = load_byte m a.
Proof. intros Hk Ha. unfold load_byte. rewrite lookup_insert_ne; [done|]. Z.to_euclidean_division_equations; lia. Qed.

Lemma is_string_insert m s l k v : k mod 8 = 0 →
  k + 8 <= s - 8 ∨ s + 8 * string_wosize (Z.of_nat (length l)) <= k → is_string m s l → is_string (<[k := v]> m) s l.
Proof.
  intros Hk Hd [H1 (hd & H2 & H3) H4 H5 H6]. destruct (string_wosize_bounds (Z.of_nat (length l)) ltac:(lia)).
  unfold string_wosize in *. split; try done.
  - exists hd. by rewrite lookup_insert_ne by lia.
  - eapply bytes_at_ext; [|exact H5]. intros x Hx. apply load_byte_insert_ne; [done|].
    unfold padding in Hx. rewrite !length_app, length_replicate in Hx. cbn [length] in Hx. lia.
Qed.

(** [caml_failwith_r] raises [Failure] with the message: control goes to
    the current C handler with a bucket made of the exception found in the
    global data and of a string with the bytes of the message. *)
Theorem failwith_correct `{Runtime} {A} msg c blk vmsg exn :
  let n := Z.of_nat (length msg) in
  caml_global_data c ≠ 0 → caml_external_raise c ≠ 0 →
  words c !! Field (caml_global_data c) FAILURE_EXN = Some exn →
  string_wosize n <= Max_young_wosize → Forall (λ b, 0 <= b < 256) msg →
  room c (string_wosize n) vmsg → blk = vmsg - 24 → caml_young_start c <= blk - 8 →
  mapped (words c) (blk - 8) 3 →
  ∃ c', caml_failwith_r (A := A) msg c = inl (CLongjmp (caml_external_raise c) c') ∧
    caml_exn_bucket c' = blk ∧ words c' !! Field blk 0 = Some exn ∧ words c' !! Field blk 1 = Some vmsg ∧
    is_string (words c') vmsg msg.
Proof.
  intros n Hg He Hexn Hw HF Hr Hblk Hs Hm. unfold caml_failwith_r, mbnd, mget.
  rewrite (proj2 (Z.eqb_neq _ _)) by done. unfold ld at 1. rewrite Hexn.
  unfold caml_raise_with_string_r, mbnd. rewrite (copy_string_eq _ _ _ vmsg) by done. fold n.
  set (m1 := write_bytes _ vmsg msg). destruct (string_wosize_bounds n ltac:(lia)) as [Hw1 Hw2].
  pose proof (room_aligned _ _ _ Hr) as Hal.
  set (c1 := set_words m1 (set_caml_young_ptr (vmsg - 8) c)).
  assert (room c1 2 blk) as Hr1.
  { split; [cbn; unfold Bhsize_wosize, Bsize_wsize, Whsize_wosize; lia|done| |Z.to_euclidean_division_equations; lia].
    intros i Hi. change (words c1) with m1. unfold m1, n. rewrite copy_string_frame by (unfold padd; fold n; lia). by apply Hm. }
  pose proof (copy_string_is_string msg c vmsg Hw Hr HF) as Hstr. fold n in Hstr. fold m1 in Hstr.
  exists (raised_with c1 blk exn vmsg). rewrite (raise_with_arg_eq _ _ _ blk) by done.
  unfold Field. replace (blk + 8 * 0) with blk by lia. replace (blk + 8 * 1) with (blk + 8) by lia.
  split_and!; [done|done| | |]; cbn -[Z.add Z.sub].
  - by rewrite lookup_insert_ne, lookup_insert_eq by lia.
  - by rewrite lookup_insert_eq.
  - assert ((blk + 8) mod 8 = 0 ∧ blk mod 8 = 0 ∧ (blk - 8) mod 8 = 0) as (A1 & A2 & A3)
      by (Z.to_euclidean_division_equations; lia).
    apply is_string_insert; [done|lia|]. apply is_string_insert; [done|lia|]. apply is_string_insert; [done|lia|]. done.
Qed.

(** ** Witnesses *)

(** 130 words of the minor heap, and the exception [Failure] of the global data. *)
Definition ex_alloc : context := ex_context (<[5016 := 41]> (stores ∅ 7000 (replicate 130 7))) ∅.

Ltac ex_mapped :=
  let i := fresh in let Hi := fresh in intros i Hi;
  repeat (destruct i as [|i]; [eexists; vm_compute; reflexivity|]);
  exfalso; vm_compute in Hi; lia.

Lemma ex_alloc_room : room ex_alloc (string_wosize 3) 7992.
Proof. split; [reflexivity|vm_compute; congruence|ex_mapped|reflexivity]. Qed.

Lemma alloc_string_witness :
  ∃ c' l, @caml_alloc_string_r ex_runtime 3 [] ex_alloc = inr (c', (7992, [])) ∧
    Z.of_nat (length l) = 3 ∧ is_string (words c') 7992 l.
Proof.
  destruct (@alloc_string_correct ex_runtime 3 [] ex_alloc 7992 ltac:(lia) ltac:(vm_compute; congruence) ex_alloc_room)
    as (c' & l & H1 & H2 & H3 & _). exists c', l. exact (conj H1 (conj H2 H3)).
Defined.

Lemma failwith_witness :
  ∃ c', @caml_failwith_r ex_runtime unit [97; 98; 99] ex_alloc = inl (CLongjmp 77 c') ∧
    caml_exn_bucket c' = 7968 ∧ words c' !! 7968 = Some 41 ∧ is_string (words c') 7992 [97; 98; 99].
Proof.
  destruct (@failwith_correct ex_runtime unit [97; 98; 99] ex_alloc 7968 7992 41) as (c' & H1 & H2 & H3 & _ & H4);
    [discriminate|discriminate|reflexivity|vm_compute; congruence|repeat constructor; lia|exact ex_alloc_room|lia|vm_compute; congruence|ex_mapped|].
  exists c'. exact (conj H1 (conj H2 (conj H3 H4))).
Defined.

End Alloc.
