(* ===== verification/Str.v ===== *)
(** Operations on strings (byterun/str.c).

    The theorems relate each operation to the list of the bytes of its string
    arguments ([is_string] of the file Alloc). *)

From S2P Require Import Prelude Mlvalues Context Alloc.
Import Context Alloc.

Module Str.

Definition caml_string_length (s : Z) : CM Z :=
  let* bosize := Bosize_val s in
  let temp := u64 (bosize - 1) in
  let* b := Byte s temp in
  mreturn (u64 (temp - b)).

Definition caml_ml_string_length (s : Z) : CM Z :=
  let* bosize := Bosize_val s in
  let temp := u64 (bosize - 1) in
  let* b := Byte s temp in
  mreturn (Val_long (u64 (temp - b))).

(** The loop that compares the strings word by word. *)
Fixpoint equal_words (n : nat) (p1 p2 : Z) : CM bool :=
  match n with
  | O => mreturn true
  | S n =>
      let* w1 := ld p1 in
      let* w2 := ld p2 in
      if negb (w1 =? w2) then mreturn false else equal_words n (p1 + 8) (p2 + 8)
  end.

Definition caml_string_equal (s1 s2 : Z) : CM Z :=
  if s1 =? s2 then mreturn Val_true else
  let* sz1 := Wosize_val s1 in
  let* sz2 := Wosize_val s2 in
  if negb (sz1 =? sz2) then mreturn Val_false else
  let* b := equal_words (Z.to_nat sz1) s1 s2 in
  mreturn (if b then Val_true else Val_false).

Definition caml_string_notequal (s1 s2 : Z) : CM Z :=
  let* r := caml_string_equal s1 s2 in mreturn (Val_not r).

(** [memcmp]: the sign of the difference of the first bytes that differ. *)
Fixpoint memcmp (n : nat) (p1 p2 : Z) : CM Z :=
  match n with
  | O => mreturn 0
  | S n =>
      let* b1 := ldb p1 in
      let* b2 := ldb p2 in
      if b1 <? b2 then mreturn (-1) else if b2 <? b1 then mreturn 1
      else memcmp n (p1 + 1) (p2 + 1)
  end.

Definition caml_string_compare (s1 s2 : Z) : CM Z :=
  if s1 =? s2 then mreturn (Val_int 0) else
  let* len1 := caml_string_length s1 in
  let* len2 := caml_string_length s2 in
  let* res := memcmp (Z.to_nat (if len1 <=? len2 then len1 else len2)) s1 s2 in
  if res <? 0 then mreturn (Val_int (-1)) else
  if 0 <? res then mreturn (Val_int 1) else
  if len1 <? len2 then mreturn (Val_int (-1)) else
  if len2 <? len1 then mreturn (Val_int 1) else
  mreturn (Val_int 0).

Definition caml_string_lessthan (s1 s2 : Z) : CM Z :=
  let* r := caml_string_compare s1 s2 in
  mreturn (if s64 r <? s64 (Val_int 0) then Val_true else Val_false).
Definition caml_string_lessequal (s1 s2 : Z) : CM Z :=
  let* r := caml_string_compare s1 s2 in
  mreturn (if s64 r <=? s64 (Val_int 0) then Val_true else Val_false).
Definition caml_string_greaterthan (s1 s2 : Z) : CM Z :=
  let* r := caml_string_compare s1 s2 in
  mreturn (if s64 (Val_int 0) <? s64 r then Val_true else Val_false).
Definition caml_string_greaterequal (s1 s2 : Z) : CM Z :=
  let* r := caml_string_compare s1 s2 in
  mreturn (if s64 (Val_int 0) <=? s64 r then Val_true else Val_false).

Definition caml_blit_string (s1 ofs1 s2 ofs2 n : Z) : CM Z :=
  memmove (s2 + Long_val ofs2) (s1 + Long_val ofs1) (u64 (Int_val n)) ;;;
  mreturn Val_unit.

Definition caml_fill_string (s offset len init : Z) : CM Z :=
  memset (s + Long_val offset) (Int_val init) (u64 (Long_val len)) ;;;
  mreturn Val_unit.

(** [isprint] depends on the locale. *)
Definition caml_is_printable (isprint : Z → bool) (chr : Z) : Z := Val_bool (isprint (Int_val chr)).

Definition caml_bitvect_test (bv n : Z) : CM Z :=
  let pos := Int_val n in
  let* b := Byte_u bv (Z.shiftr pos 3) in
  mreturn (Val_int (Z.land b (Z.shiftl 1 (Z.land pos 7)))).

Section Operations.
Context `{Runtime}.

(** "String.create" *)
Definition String_create : list Z := [83; 116; 114; 105; 110; 103; 46; 99; 114; 101; 97; 116; 101].

Definition caml_create_string_r (len : Z) : CM Z :=
  let size := u64 (Long_val len) in
  if Bsize_wsize Max_wosize - 1 <? size then caml_invalid_argument_r String_create else
  let* (s, _) := caml_alloc_string_r size [] in
  mreturn s.

Definition caml_string_get_r (str index : Z) : CM Z :=
  let idx := Long_val index in
  let* out := (if idx <? 0 then mreturn true
               else let* len := caml_string_length str in mreturn (len <=? u64 idx)) in
  if (out : bool) then caml_array_bound_error_r else
  let* b := Byte_u str idx in
  mreturn (Val_int b).

Definition caml_string_set_r (str index newval : Z) : CM Z :=
  let idx := Long_val index in
  let* out := (if idx <? 0 then mreturn true
               else let* len := caml_string_length str in mreturn (len <=? u64 idx)) in
  if (out : bool) then caml_array_bound_error_r else
  stb (str + idx) (Int_val newval) ;;;
  mreturn Val_unit.
End Operations.

(** ** Length *)

Lemma string_last m s l : is_string m s l →
  let n := Z.of_nat (length l) in load_byte m (s + (8 * string_wosize n - 1)) = Some (8 * string_wosize n - 1 - n).
Proof.
  intros Hs n. destruct (string_wosize_bounds n ltac:(lia)) as [Hw1 Hw2].
  pose proof (string_bytes _ _ _ Hs) as Hb. fold n in Hb. fold (string_wosize n) in Hb.
  replace (8 * string_wosize n - 1) with (Z.of_nat (Z.to_nat (8 * string_wosize n - 1))) at 1 by lia.
  apply Hb. rewrite lookup_app_r by lia. unfold padding. rewrite lookup_app_r by (rewrite length_replicate; lia).
  rewrite length_replicate. replace (_ - _ - _)%nat with O by lia. done.
Qed.

Lemma string_length_eq c s l : is_string (words c) s l → caml_string_length s c = inr (c, Z.of_nat (length l)).
Proof.
  intros Hs. set (n := Z.of_nat (length l)). destruct (string_wosize_bounds n ltac:(lia)) as [Hw1 Hw2].
  destruct (string_header _ _ _ Hs) as (hd & Hhd & Ew). fold n in Ew. fold (string_wosize n) in Ew.
  pose proof (string_small _ _ _ Hs) as Hsm. fold n in Hsm. change (2 ^ 56) with 72057594037927936 in Hsm.
  pose proof (string_last _ _ _ Hs) as Hl. fold n in Hl. cbv zeta in Hl.
  unfold caml_string_length, Bosize_val, Bosize_hd, Bsize_wsize, Byte, mbnd, ld, Hd_val, mreturn. rewrite Hhd, Ew.
  rewrite (Z.mul_comm _ 8), (u64_small (8 * string_wosize n - 1)) by lia_w. rewrite (ldb_eq _ _ _ Hl).
  unfold s8. rewrite Z.mod_small by lia. rewrite u64_small by lia_w. do 2 f_equal. lia.
Qed.

(** ** Equality *)

(** The words of a string. *)
Lemma string_word m s l k : is_string m s l → 0 <= k < string_wosize (Z.of_nat (length l)) →
  ∃ w, m !! (s + 8 * k) = Some w ∧ ∀ i, 0 <= i < 8 → 
    (l ++ padding (string_wosize (Z.of_nat (length l))) (Z.of_nat (length l))) !! Z.to_nat (8 * k + i) = Some (byte_of w i).
Proof.
  intros Hs Hk. set (n := Z.of_nat (length l)) in *. destruct (string_wosize_bounds n ltac:(lia)) as [Hw1 Hw2].
  pose proof (string_bytes _ _ _ Hs) as Hb. fold n in Hb. fold (string_wosize n) in Hb. pose proof (string_aligned _ _ _ Hs) as Ha.
  assert (∀ i, 0 <= i < 8 → load_byte m (s + 8 * k + i) = match m !! (s + 8 * k) with Some w => Some (byte_of w i) | None => None end) as Hld.
  { intros i Hi. unfold load_byte. replace (8 * ((s + 8 * k + i) / 8)) with (s + 8 * k) by (Z.to_euclidean_division_equations; lia).
    by replace ((s + 8 * k + i) mod 8) with i by (Z.to_euclidean_division_equations; lia). }
  assert (∀ i, 0 <= i < 8 → ∃ b, (l ++ padding (string_wosize n) n) !! Z.to_nat (8 * k + i) = Some b) as Hex.
  { intros i Hi. apply lookup_lt_is_Some. rewrite length_app. unfold padding. rewrite length_app, length_replicate. cbn [length]. lia. }
  assert (is_Some (m !! (s + 8 * k))) as [w Hw].
  { destruct (Hex 0 ltac:(lia)) as [b Eb]. apply Hb in Eb. replace (s + Z.of_nat (Z.to_nat (8 * k + 0))) with (s + 8 * k + 0) in Eb by lia.
    rewrite Hld in Eb by lia. destruct (m !! (s + 8 * k)); [by eexists|done]. }
  exists w. split; [done|]. intros i Hi. destruct (Hex i Hi) as [b Eb]. rewrite Eb. apply Hb in Eb.
  replace (s + Z.of_nat (Z.to_nat (8 * k + i))) with (s + 8 * k + i) in Eb by lia. by rewrite Hld, Hw in Eb.
Qed.

Lemma equal_words_spec c n p1 p2 : 
  (∀ k, 0 <= k < Z.of_nat n → is_Some (words c !! (p1 + 8 * k)) ∧ is_Some (words c !! (p2 + 8 * k))) →
  ∃ b, equal_words n p1 p2 c = inr (c, b) ∧
    (b = true ↔ ∀ k, 0 <= k < Z.of_nat n → words c !! (p1 + 8 * k) = words c !! (p2 + 8 * k)).
Proof.
  revert p1 p2. induction n as [|n IH]; intros p1 p2 Hm; [exists true; split; [done|]; split; [lia|done]|].
  destruct (Hm 0 ltac:(lia)) as [[w1 H1] [w2 H2]]. cbn [equal_words]. unfold mbnd, ld, mreturn.
  rewrite Z.mul_0_r, Z.add_0_r in H1, H2. rewrite H1, H2.
  destruct (Z.eqb_spec w1 w2) as [->|Hne]; cbn [negb].
  - destruct (IH (p1 + 8) (p2 + 8)) as (b & Eb & Hb).
    { intros k Hk. replace (p1 + 8 + 8 * k) with (p1 + 8 * (k + 1)) by lia. replace (p2 + 8 + 8 * k) with (p2 + 8 * (k + 1)) by lia.
      apply Hm. lia. }
    exists b. split; [done|]. rewrite Hb. split; intros Hk k Hr.
    + destruct (decide (k = 0)) as [->|]; [rewrite Z.mul_0_r, !Z.add_0_r; congruence|].
      specialize (Hk (k - 1) ltac:(lia)). replace (p1 + 8 + 8 * (k - 1)) with (p1 + 8 * k) in Hk by lia.
      by replace (p2 + 8 + 8 * (k - 1)) with (p2 + 8 * k) in Hk by lia.
    + specialize (Hk (k + 1) ltac:(lia)). replace (p1 + 8 * (k + 1)) with (p1 + 8 + 8 * k) in Hk by lia.
      by replace (p2 + 8 * (k + 1)) with (p2 + 8 + 8 * k) in Hk by lia.
  - exists false. split; [done|]. split; [done|]. intros Hk. specialize (Hk 0 ltac:(lia)).
    rewrite Z.mul_0_r, !Z.add_0_r in Hk. congruence.
Qed.
Definition padded (l : list Z) : list Z :=
  l ++ padding (string_wosize (Z.of_nat (length l))) (Z.of_nat (length l)).

Lemma padded_length l : Z.of_nat (length (padded l)) = 8 * string_wosize (Z.of_nat (length l)).
Proof.
  destruct (string_wosize_bounds (Z.of_nat (length l)) ltac:(lia)). unfold padded, padding.
  rewrite !length_app, length_replicate. cbn [length]. lia.
Qed.

Lemma padded_inj l1 l2 : padded l1 = padded l2 → l1 = l2.
Proof.
  intros E. pose proof (f_equal length E) as El. pose proof (padded_length l1) as L1. pose proof (padded_length l2) as L2.
  assert (length l1 = length l2) as Hn; [|by destruct (app_inj_1 _ _ _ _ Hn E)].
  unfold padded, padding in E. rewrite !app_assoc in E. apply app_inj_tail in E as [_ E].
  rewrite El in L1. lia.
Qed.

Lemma words_padded m s1 s2 l1 l2 :
  word_mem m → is_string m s1 l1 → is_string m s2 l2 →
  string_wosize (Z.of_nat (length l1)) = string_wosize (Z.of_nat (length l2)) →
  (∀ k, 0 <= k < string_wosize (Z.of_nat (length l1)) → m !! (s1 + 8 * k) = m !! (s2 + 8 * k)) ↔ l1 = l2.
Proof.
  intros Hm H1 H2 Ew. split.
  - intros Hk. apply padded_inj, list_eq. intros j. pose proof (padded_length l1) as L1. pose proof (padded_length l2) as L2.
    destruct (decide (j < length (padded l1))%nat) as [Hj|Hj].
    2:{ by rewrite (lookup_ge_None_2 (padded l1)), (lookup_ge_None_2 (padded l2)) by lia. }
    assert (0 <= Z.of_nat j / 8 < string_wosize (Z.of_nat (length l1))) as Hr by (Z.to_euclidean_division_equations; lia).
    destruct (string_word m s1 l1 _ H1 Hr) as (w1 & Hw1 & B1).
    rewrite Ew in Hr. destruct (string_word m s2 l2 _ H2 Hr) as (w2 & Hw2 & B2). rewrite <- Ew in Hr.
    rewrite (Hk _ Hr), Hw2 in Hw1. simplify_eq. pose proof (Z.mod_pos_bound (Z.of_nat j) 8 ltac:(lia)) as Hb.
    specialize (B1 _ Hb). specialize (B2 _ Hb). rewrite <- Z.div_mod, Nat2Z.id in B1, B2 by lia.
    fold (padded l1) in B1. fold (padded l2) in B2. congruence.
  - intros -> k Hk. destruct (string_word m s1 l2 _ H1 Hk) as (w1 & Hw1 & B1). destruct (string_word m s2 l2 _ H2 Hk) as (w2 & Hw2 & B2).
    rewrite Hw1, Hw2. f_equal. apply bytes_inj; [by eapply Hm..|]. intros i Hi. specialize (B1 i Hi). specialize (B2 i Hi). congruence.
Qed.

Lemma is_string_inj c s l1 l2 : is_string (words c) s l1 → is_string (words c) s l2 → l1 = l2.
Proof.
  intros H1 H2. pose proof (string_length_eq c s l1 H1) as L1. rewrite (string_length_eq c s l2 H2) in L1.
  injection L1 as L1. apply list_eq_same_length with (n := length l1); [lia|done|].
  intros i x y Hi Hx Hy. pose proof (string_bytes _ _ _ H1) as [B1 _]%bytes_at_app. pose proof (string_bytes _ _ _ H2) as [B2 _]%bytes_at_app.
  apply B1 in Hx. apply B2 in Hy. congruence.
Qed.

(** [caml_string_equal], which compares the strings word by word and
    never looks at their length, tells whether they have the same bytes, and
    [caml_string_notequal] whether they have not; memory is not changed. *)
Theorem string_equal_correct c s1 s2 l1 l2 :
  word_mem (words c) → is_string (words c) s1 l1 → is_string (words c) s2 l2 →
  caml_string_equal s1 s2 c = inr (c, Val_bool (bool_decide (l1 = l2))) ∧
  caml_string_notequal s1 s2 c = inr (c, Val_bool (negb (bool_decide (l1 = l2)))).
Proof.
  intros Hm H1 H2. 
  assert (caml_string_equal s1 s2 c = inr (c, Val_bool (bool_decide (l1 = l2)))) as E.
  2:{ split; [done|]. unfold caml_string_notequal, mbnd. rewrite E. unfold mreturn. by destruct (bool_decide (l1 = l2)). }
  unfold caml_string_equal. destruct (Z.eqb_spec s1 s2) as [->|Hne].
  { rewrite bool_decide_true; [done|]. by eapply is_string_inj. }
  destruct (string_header _ _ _ H1) as (hd1 & Hh1 & Ew1). destruct (string_header _ _ _ H2) as (hd2 & Hh2 & Ew2).
  fold (string_wosize (Z.of_nat (length l1))) in Ew1. fold (string_wosize (Z.of_nat (length l2))) in Ew2.
  unfold Wosize_val, mbnd, ld, Hd_val, mreturn. rewrite Hh1, Hh2, Ew1, Ew2.
  destruct (Z.eqb_spec (string_wosize (Z.of_nat (length l1))) (string_wosize (Z.of_nat (length l2)))) as [Ew|Hw]; cbn [negb].
  2:{ rewrite bool_decide_false; [done|]. by intros ->. }
  destruct (string_wosize_bounds (Z.of_nat (length l1)) ltac:(lia)).
  destruct (equal_words_spec c (Z.to_nat (string_wosize (Z.of_nat (length l1)))) s1 s2) as (b & Eb & Hb).
  { intros k Hk. rewrite Z2Nat.id in Hk by lia. destruct (string_word _ _ _ _ H1 Hk) as (w1 & -> & _). rewrite Ew in Hk.
    destruct (string_word _ _ _ _ H2 Hk) as (w2 & -> & _). split; by eexists. }
  rewrite Eb. rewrite Z2Nat.id in Hb by lia. rewrite (words_padded _ _ _ _ _ Hm H1 H2 Ew) in Hb.
  destruct b; [rewrite bool_decide_true by (by apply Hb); done|]. rewrite bool_decide_false; [done|]. intros El. by apply Hb in El.
Qed.

(** ** Ordering *)

(** Lexicographic order on bytes; a proper prefix is smaller. *)
Fixpoint lex_compare (l1 l2 : list Z) : comparison :=
  match l1, l2 with
  | [], [] => Eq
  | [], _ :: _ => Lt
  | _ :: _, [] => Gt
  | b1 :: l1, b2 :: l2 => match Z.compare b1 b2 with Eq => lex_compare l1 l2 | r => r end
  end.

Definition Z_of_comparison (r : comparison) : Z := match r with Lt => -1 | Eq => 0 | Gt => 1 end.

Lemma memcmp_spec c n p1 p2 l1 l2 : bytes_at (words c) p1 l1 → bytes_at (words c) p2 l2 →
  (n = length l1 `min` length l2)%nat →
  ∃ r, memcmp n p1 p2 c = inr (c, r) ∧
    (r < 0 → lex_compare l1 l2 = Lt) ∧ (0 < r → lex_compare l1 l2 = Gt) ∧
    (r = 0 → lex_compare l1 l2 = Nat.compare (length l1) (length l2)).
Proof.
  revert p1 p2 l1 l2. induction n as [|n IH]; intros p1 p2 l1 l2 H1 H2 Hn.
  - exists 0. split; [done|]. split_and!; [lia..|]. intros _. by destruct l1, l2.
  - destruct l1 as [|b1 l1], l2 as [|b2 l2]; try done. cbn [memcmp]. cbn in Hn. injection Hn as Hn.
    pose proof (H1 O b1 eq_refl) as E1. pose proof (H2 O b2 eq_refl) as E2. rewrite Z.add_0_r in E1, E2.
    unfold mbnd. rewrite (ldb_eq _ _ _ E1), (ldb_eq _ _ _ E2). cbn [lex_compare]. unfold mreturn.
    destruct (Z.ltb_spec b1 b2) as [Hlt|Hge].
    { exists (-1). rewrite (proj2 (Z.compare_lt_iff _ _)) by done. split_and!; (done || lia). }
    destruct (Z.ltb_spec b2 b1) as [Hgt|Hle].
    { exists 1. rewrite (proj2 (Z.compare_gt_iff _ _)) by done. split_and!; (done || lia). }
    rewrite (proj2 (Z.compare_eq_iff _ _)) by lia. apply (IH (p1 + 1) (p2 + 1) l1 l2); [| |done].
    + intros i x Hi. specialize (H1 (S i) x Hi). by replace (p1 + 1 + Z.of_nat i) with (p1 + Z.of_nat (S i)) by lia.
    + intros i x Hi. specialize (H2 (S i) x Hi). by replace (p2 + 1 + Z.of_nat i) with (p2 + Z.of_nat (S i)) by lia.
Qed.

Lemma lex_compare_refl l : lex_compare l l = Eq.
Proof. induction l as [|b l IH]; [done|]. cbn. by rewrite Z.compare_refl. Qed.

Lemma string_compare_eq c s1 s2 l1 l2 :
  is_string (words c) s1 l1 → is_string (words c) s2 l2 →
  caml_string_compare s1 s2 c = inr (c, Val_int (Z_of_comparison (lex_compare l1 l2))).
Proof.
  intros H1 H2. unfold caml_string_compare. destruct (Z.eqb_spec s1 s2) as [->|Hne].
  { rewrite (is_string_inj c s2 l1 l2 H1 H2), lex_compare_refl. done. }
  unfold mbnd, mreturn. rewrite (string_length_eq _ _ _ H1), (string_length_eq _ _ _ H2).
  pose proof (string_bytes _ _ _ H1) as [B1 _]%bytes_at_app. pose proof (string_bytes _ _ _ H2) as [B2 _]%bytes_at_app.
  destruct (memcmp_spec c (length l1 `min` length l2)%nat s1 s2 l1 l2 B1 B2 eq_refl) as (r & Er & Hlt & Hgt & Heq).
  replace (Z.to_nat (if Z.of_nat (length l1) <=? Z.of_nat (length l2) then Z.of_nat (length l1) else Z.of_nat (length l2)))
    with (length l1 `min` length l2)%nat by (destruct (Z.leb_spec (Z.of_nat (length l1)) (Z.of_nat (length l2))); lia).
  rewrite Er. destruct (Z.ltb_spec r 0); [by rewrite Hlt by done|]. destruct (Z.ltb_spec 0 r); [by rewrite Hgt by done|].
  rewrite Heq by lia. destruct (Nat.compare_spec (length l1) (length l2)) as [E|E|E].
  - rewrite E, Z.ltb_irrefl. done.
  - by rewrite (proj2 (Z.ltb_lt _ _)) by lia.
  - rewrite (proj2 (Z.ltb_ge _ _)) by lia. by rewrite (proj2 (Z.ltb_lt _ _)) by lia.
Qed.

(** [caml_string_compare] is the lexicographic order on unsigned bytes
    with the shorter string first, and the four order predicates agree with
    it; memory is not changed. *)
Theorem string_compare_correct c s1 s2 l1 l2 :
  is_string (words c) s1 l1 → is_string (words c) s2 l2 →
  let r := lex_compare l1 l2 in
  caml_string_compare s1 s2 c = inr (c, Val_int (Z_of_comparison r)) ∧
  caml_string_lessthan s1 s2 c = inr (c, Val_bool (match r with Lt => true | _ => false end)) ∧
  caml_string_lessequal s1 s2 c = inr (c, Val_bool (match r with Gt => false | _ => true end)) ∧
  caml_string_greaterthan s1 s2 c = inr (c, Val_bool (match r with Gt => true | _ => false end)) ∧
  caml_string_greaterequal s1 s2 c = inr (c, Val_bool (match r with Lt => false | _ => true end)).
Proof.
  intros H1 H2 r. pose proof (string_compare_eq c s1 s2 l1 l2 H1 H2) as E. fold r in E.
  unfold caml_string_lessthan, caml_string_lessequal, caml_string_greaterthan, caml_string_greaterequal, mbnd. rewrite E.
  split; [done|]. by destruct r.
Qed.

(** ** Access and update *)

Lemma string_mapped m s l o n : is_string m s l → 0 <= o → o + n <= Z.of_nat (length l) → mapped_bytes m (s + o) n.
Proof.
  intros Hs Ho Hn a Ha. pose proof (string_bytes _ _ _ Hs) as [Hb _]%bytes_at_app.
  destruct (lookup_lt_is_Some_2 l (Z.to_nat (a - s)) ltac:(lia)) as [b Hb']. apply Hb in Hb'.
  replace (s + Z.of_nat (Z.to_nat (a - s))) with a in Hb' by lia. by eexists.
Qed.

Lemma is_string_write m s l (o : nat) bs :
  is_string m s l → (o + length bs <= length l)%nat → Forall (λ b, 0 <= b < 256) bs →
  is_string (write_bytes m (s + Z.of_nat o) bs) s (overwrite l o bs).
Proof.
  intros Hs Hl HF. pose proof (overwrite_length l o bs Hl) as El. pose proof Hs as [H1 (hd & H2 & H3) H4 H5 H6].
  pose proof (string_mapped m s l (Z.of_nat o) (Z.of_nat (length bs)) Hs ltac:(lia) ltac:(lia)) as Hm.
  split; rewrite ?El; try done.
  - exists hd. split; [|done]. by rewrite write_bytes_lookup by lia.
  - apply bytes_at_app in H5 as [B1 B2]. apply bytes_at_app. rewrite El. split.
    + intros i b Hi. rewrite overwrite_lookup in Hi by done. rewrite load_write_bytes by done. case_decide as Hd.
      * rewrite (proj2 (Z.leb_le _ _)) by lia. replace (Z.to_nat (s + Z.of_nat i - (s + Z.of_nat o))) with (i - o)%nat by lia.
        rewrite Hi. f_equal. apply Z.mod_small. rewrite Forall_lookup in HF. by apply (HF (i - o)%nat).
      * destruct (Z.leb_spec (s + Z.of_nat o) (s + Z.of_nat i)); [rewrite lookup_ge_None_2 by lia|]; by apply B1.
    + eapply bytes_at_ext; [|exact B2]. intros x Hx. rewrite load_write_bytes by done.
      destruct (Z.leb_spec (s + Z.of_nat o) x); [rewrite lookup_ge_None_2 by lia|]; done.
  - unfold overwrite. apply Forall_app. split; [by apply Forall_take|]. apply Forall_app. split; [done|]. by apply Forall_drop.
Qed.

(** The bounds check of [caml_string_get_r] and [caml_string_set_r]. *)
Lemma bounds_check c s l idx : is_string (words c) s l → - 2 ^ 62 <= idx < 2 ^ 62 →
  (if idx <? 0 then mreturn true else let* len := caml_string_length s in mreturn (len <=? u64 idx)) c =
  inr (c, negb ((0 <=? idx) && (idx <? Z.of_nat (length l)))).
Proof.
  intros Hs Hi. change (2 ^ 62) with 4611686018427387904 in Hi. destruct (Z.ltb_spec idx 0), (Z.leb_spec 0 idx); try lia; [done|].
  unfold mbnd, mreturn. rewrite (string_length_eq _ _ _ Hs), u64_small by lia_w.
  destruct (Z.leb_spec (Z.of_nat (length l)) idx), (Z.ltb_spec idx (Z.of_nat (length l))); (done || lia).
Qed.

Lemma s32_mod_256 x : s32 x mod 256 = x mod 256.
Proof.
  unfold s32. rewrite (Z.mod_eq (x + 2147483648) H32) by (unfold H32; lia).
  replace (x + 2147483648 - H32 * ((x + 2147483648) / H32) - 2147483648)
    with (x + (- ((x + 2147483648) / H32) * 16777216) * 256) by (unfold H32; lia).
  apply Z_mod_plus_full.
Qed.

Lemma s63_mod_256 x : s63 x mod 256 = x mod 256.
Proof.
  unfold s63. rewrite (Z.mod_eq (x + 2 ^ 62) (2 ^ 63)) by lia.
  replace (x + 2 ^ 62 - 2 ^ 63 * ((x + 2 ^ 62) / 2 ^ 63) - 2 ^ 62)
    with (x + (- ((x + 2 ^ 62) / 2 ^ 63) * 2 ^ 55) * 256) by lia.
  apply Z_mod_plus_full.
Qed.

Lemma Int_val_byte v : Int_val (Val_int v) mod 256 = v mod 256.
Proof. unfold Int_val, Val_int. by rewrite Long_val_Val_long, s32_mod_256, s63_mod_256. Qed.

Lemma write_byte_mod m a b : write_byte m a (b mod 256) = write_byte m a b.
Proof. unfold write_byte, store_byte. destruct (m !! _); [|done]. unfold set_byte. by rewrite Zmod_mod. Qed.

Lemma overwrite_one l o x : (o < length l)%nat → overwrite l o [x] = <[o := x]> l.
Proof.
  intros Ho. unfold overwrite. cbn [length app]. rewrite insert_take_drop by done. by replace (o + 1)%nat with (S o) by lia.
Qed.

(** [caml_string_get_r] and [caml_string_set_r] check the index: inside
    the string they read, or replace, exactly the byte at the index; outside
    they raise [Invalid_argument], before any change. *)
Theorem string_access_correct `{Runtime} c s l idx v :
  is_string (words c) s l → - 2 ^ 62 <= idx < 2 ^ 62 →
  (∀ b, 0 <= idx → l !! Z.to_nat idx = Some b →
     caml_string_get_r s (Val_long idx) c = inr (c, Val_int b) ∧
     ∃ c', caml_string_set_r s (Val_long idx) (Val_int v) c = inr (c', Val_unit) ∧
       is_string (words c') s (<[Z.to_nat idx := v mod 256]> l)) ∧
  (idx < 0 ∨ Z.of_nat (length l) <= idx →
     caml_string_get_r s (Val_long idx) c = caml_array_bound_error_r c ∧
     caml_string_set_r s (Val_long idx) (Val_int v) c = caml_array_bound_error_r c).
Proof.
  intros Hs Hi. unfold caml_string_get_r, caml_string_set_r. rewrite Long_val_Val_long, s63_small by (unfold Min_long, Max_long; lia).
  rewrite !(mbnd_eq _ _ _ _ _ (bounds_check c s l idx Hs Hi)). unfold mbnd. split.
  - intros b Hpos Hb. pose proof (lookup_lt_Some _ _ _ Hb) as Hlt.
    rewrite (proj2 (Z.leb_le _ _)), (proj2 (Z.ltb_lt _ _)) by lia. cbn [andb negb].
    pose proof (string_bytes _ _ _ Hs) as [B _]%bytes_at_app. apply B in Hb. rewrite Z2Nat.id in Hb by done. split.
    + unfold Byte_u. by rewrite (ldb_eq _ _ _ Hb).
    + rewrite stb_eq by (by eexists). eexists. split; [done|]. cbn [words set_words].
      rewrite <- write_byte_mod, Int_val_byte. rewrite <- overwrite_one by done.
      pose proof (is_string_write (words c) s l (Z.to_nat idx) [v mod 256] Hs) as Hw. cbn [write_bytes length] in Hw.
      rewrite Z2Nat.id in Hw by done. apply Hw; [lia|]. constructor; [apply Z.mod_pos_bound; lia|done].
  - intros Hout. assert ((0 <=? idx) && (idx <? Z.of_nat (length l)) = false) as ->; [|done].
    destruct (Z.leb_spec 0 idx), (Z.ltb_spec idx (Z.of_nat (length l))); (done || lia).
Qed.

Lemma Long_val_index n : 0 <= n < 2 ^ 62 → Long_val (Val_long n) = n.
Proof. intros Hn. rewrite Long_val_Val_long. apply s63_small. unfold Min_long, Max_long. lia. Qed.

(** [caml_blit_string] on valid ranges of fewer than 2^31 bytes replaces
    exactly the destination range by the source bytes as they were before,
    also when the ranges overlap. *)
Theorem blit_string_correct c s1 l1 (o1 : nat) s2 l2 (o2 n : nat) :
  is_string (words c) s1 l1 → is_string (words c) s2 l2 →
  (o1 + n <= length l1)%nat → (o2 + n <= length l2)%nat → Z.of_nat n < 2 ^ 31 →
  ∃ c', caml_blit_string s1 (Val_long (Z.of_nat o1)) s2 (Val_long (Z.of_nat o2)) (Val_long (Z.of_nat n)) c = inr (c', Val_unit) ∧
    is_string (words c') s2 (overwrite l2 o2 (take n (drop o1 l1))) ∧
    ∀ a, a < s2 + Z.of_nat o2 ∨ s2 + Z.of_nat (o2 + n) <= a → load_byte (words c') a = load_byte (words c) a.
Proof.
  intros H1 H2 Hl1 Hl2 Hn. pose proof (string_small _ _ _ H1) as Z1. pose proof (string_small _ _ _ H2) as Z2.
  change (2 ^ 56) with 72057594037927936 in *. change (2 ^ 31) with 2147483648 in Hn.
  set (bs := take n (drop o1 l1)). assert (length bs = n) as Lb by (unfold bs; rewrite length_take, length_drop; lia).
  assert (bytes_at (words c) (s1 + Z.of_nat o1) bs) as Hb.
  { intros i b Hi. pose proof (string_bytes _ _ _ H1) as [B _]%bytes_at_app. replace (s1 + Z.of_nat o1 + Z.of_nat i) with (s1 + Z.of_nat (o1 + i)) by lia.
    apply B. unfold bs in Hi. rewrite <- lookup_drop. by apply lookup_take_Some in Hi as [Hi _]. }
  assert (Forall (λ b, 0 <= b < 256) bs) as HF by (apply Forall_take, Forall_drop; apply H1).
  pose proof (string_mapped (words c) s2 l2 (Z.of_nat o2) (Z.of_nat (length bs)) H2 ltac:(lia) ltac:(lia)) as Hm.
  eexists. split; [|split].
  - unfold caml_blit_string, Int_val, memmove. rewrite !Long_val_index by (cbn; lia).
    rewrite (u64_small (s32 _)) by (unfold s32; rewrite Z.mod_small by lia_w; lia_w).
    replace (Z.to_nat (s32 (Z.of_nat n))) with (length bs) by (rewrite Lb; unfold s32; rewrite Z.mod_small by lia_w; lia).
    unfold mbnd. rewrite (ldbs_eq _ _ _ Hb), (stbs_eq _ _ _ Hm). done.
  - cbn [words set_words]. apply is_string_write; (done || lia).
  - intros a Ha. cbn [words set_words]. rewrite load_write_bytes by done.
    destruct (Z.leb_spec (s2 + Z.of_nat o2) a); [rewrite lookup_ge_None_2 by lia|]; done.
Qed.

(** C40. The length given to [caml_blit_string] is truncated to 32 bits: a
    transfer of a multiple of 2^32 bytes copies nothing. *)
Theorem blit_string_truncates c s1 ofs1 s2 ofs2 k :
  0 <= k < 2 ^ 24 → caml_blit_string s1 ofs1 s2 ofs2 (Val_long (k * 2 ^ 32)) c = inr (c, Val_unit).
Proof.
  intros Hk. change (2 ^ 32) with 4294967296. change (2 ^ 24) with 16777216 in Hk.
  unfold caml_blit_string, Int_val, memmove. rewrite (Long_val_index (k * 4294967296)) by (cbn; lia).
  replace (s32 (k * 4294967296)) with 0; [by destruct c|]. unfold s32. rewrite Z.add_comm.
  change 4294967296 with H32. rewrite Z_mod_plus_full. reflexivity.
Qed.

(** [caml_fill_string] on a valid range replaces exactly that range by
    copies of the byte. *)
Theorem fill_string_correct c s l (o n : nat) b :
  is_string (words c) s l → (o + n <= length l)%nat →
  ∃ c', caml_fill_string s (Val_long (Z.of_nat o)) (Val_long (Z.of_nat n)) (Val_int b) c = inr (c', Val_unit) ∧
    is_string (words c') s (overwrite l o (replicate n (b mod 256))) ∧
    ∀ a, a < s + Z.of_nat o ∨ s + Z.of_nat (o + n) <= a → load_byte (words c') a = load_byte (words c) a.
Proof.
  intros Hs Hl. pose proof (string_small _ _ _ Hs) as Z1. change (2 ^ 56) with 72057594037927936 in *.
  assert (∀ m a k x, write_bytes m a (replicate k x) = write_bytes m a (replicate k (x mod 256))) as Hmod.
  { intros m a k x. revert m a. induction k as [|k IH]; intros m a; [done|]. cbn. by rewrite write_byte_mod, IH. }
  pose proof (string_mapped (words c) s l (Z.of_nat o) (Z.of_nat n) Hs ltac:(lia) ltac:(lia)) as Hm.
  assert (mapped_bytes (words c) (s + Z.of_nat o) (Z.of_nat (length (replicate n (b mod 256))))) as Hm' by (by rewrite length_replicate).
  eexists. split; [|split].
  - unfold caml_fill_string, memset. rewrite !Long_val_index by (cbn; lia). rewrite u64_small, Nat2Z.id by lia_w.
    unfold mbnd. rewrite stbs_eq by (by rewrite length_replicate). rewrite Hmod, Int_val_byte. done.
  - cbn [words set_words]. apply is_string_write; [done|by rewrite length_replicate|]. apply Forall_replicate, Z.mod_pos_bound. lia.
  - intros a Ha. cbn [words set_words]. rewrite load_write_bytes by done.
    destruct (Z.leb_spec (s + Z.of_nat o) a); [rewrite lookup_ge_None_2 by (rewrite length_replicate; lia)|]; done.
Qed.


(** ** Witnesses *)

(** The strings "ab" and "abc". *)
Definition ex_strings : context :=
  ex_context (list_to_map
    [(4000, Make_header 1 String_tag Caml_white); (4008, 97 + 98 * 256 + 5 * 2 ^ 56);
     (4016, Make_header 1 String_tag Caml_white); (4024, 97 + 98 * 256 + 99 * 65536 + 4 * 2 ^ 56)]) ∅.

Ltac ex_bytes :=
  let i := fresh in let b := fresh in let Hi := fresh in intros i b Hi;
  do 8 (destruct i as [|i]; [vm_compute in Hi |- *; congruence|]); vm_compute in Hi; discriminate.

Lemma ex_ab : is_string (words ex_strings) 4008 [97; 98].
Proof.
  split; [reflexivity|exists (Make_header 1 String_tag Caml_white); split; vm_compute; reflexivity|vm_compute; reflexivity|ex_bytes|repeat constructor; lia].
Qed.
Lemma ex_abc : is_string (words ex_strings) 4024 [97; 98; 99].
Proof.
  split; [reflexivity|exists (Make_header 1 String_tag Caml_white); split; vm_compute; reflexivity|vm_compute; reflexivity|ex_bytes|repeat constructor; lia].
Qed.

Lemma ex_strings_words : word_mem (words ex_strings).
Proof.
  intros a w Hw. apply elem_of_list_to_map_2 in Hw. rewrite !elem_of_cons, elem_of_nil in Hw.
  destruct_or!; simplify_eq; vm_compute; (split; congruence).
Qed.

Lemma string_equal_witness :
  caml_string_equal 4008 4024 ex_strings = inr (ex_strings, Val_bool false) ∧
  caml_string_notequal 4008 4024 ex_strings = inr (ex_strings, Val_bool true).
Proof. exact (string_equal_correct ex_strings 4008 4024 _ _ ex_strings_words ex_ab ex_abc). Defined.

Lemma string_compare_witness : caml_string_compare 4008 4024 ex_strings = inr (ex_strings, Val_int (-1)).
Proof. exact (proj1 (string_compare_correct ex_strings 4008 4024 _ _ ex_ab ex_abc)). Defined.

Lemma string_access_witness :
  @caml_string_get_r ex_runtime 4024 (Val_long 2) ex_strings = inr (ex_strings, Val_int 99) ∧
  @caml_string_get_r ex_runtime 4024 (Val_long 3) ex_strings = @caml_array_bound_error_r ex_runtime Z ex_strings.
Proof.
  split.
  - apply (@string_access_correct ex_runtime ex_strings 4024 _ 2 0 ex_abc); (lia || reflexivity).
  - apply (@string_access_correct ex_runtime ex_strings 4024 _ 3 0 ex_abc); cbn; lia.
Defined.

Lemma blit_string_witness :
  ∃ c', caml_blit_string 4024 (Val_long 1) 4008 (Val_long 0) (Val_long 2) ex_strings = inr (c', Val_unit) ∧
    is_string (words c') 4008 [98; 99].
Proof.
  destruct (blit_string_correct ex_strings 4024 _ 1 4008 _ 0 2 ex_abc ex_ab) as (c' & H1 & H2 & _); [cbn; lia..|].
  exists c'. exact (conj H1 H2).
Defined.

Lemma blit_string_truncates_witness :
  caml_blit_string 4024 (Val_long 0) 4008 (Val_long 0) (Val_long (1 * 2 ^ 32)) ex_strings = inr (ex_strings, Val_unit).
Proof. apply (blit_string_truncates ex_strings 4024 (Val_long 0) 4008 (Val_long 0) 1). lia. Defined.

Lemma fill_string_witness :
  ∃ c', caml_fill_string 4024 (Val_long 1) (Val_long 2) (Val_int 42) ex_strings = inr (c', Val_unit) ∧
    is_string (words c') 4024 [97; 42; 42].
Proof.
  destruct (fill_string_correct ex_strings 4024 _ 1 2 42 ex_abc) as (c' & H1 & H2 & _); [cbn; lia|].
  exists c'. exact (conj H1 H2).
Defined.

End Str.
