(* ===== verification/Ints.v ===== *)
(** Integers as strings and boxed integers (byterun/ints.c, with the
    allocation of custom blocks of custom.c and the macros of
    int64_native.h).

    An int32, int64 or nativeint is a custom block: the address of its
    operations, then the integer.  Signed arithmetic wraps; a shift by an
    amount that C does not define is a fault.  The loops of the parsers take
    their fuel from the caller: a number above the length of the string is
    enough. *)

From S2P Require Import Prelude Mlvalues Context Alloc Str.
Import Context Alloc Str.

Module Ints.

(** ** Parsing *)

(** [*p] as a [char] *)
Definition ldc (p : Z) : CM Z := let* b := ldb p in mreturn (s8 b).

Definition parse_sign_and_base (p : Z) : CM (Z * Z * Z) :=
  let* c := ldc p in
  let '(sign, p) := (if c =? 45 then (-1, p + 1) else (1, p)) in
  let* c := ldc p in
  if c =? 48 then
    let* c1 := ldc (p + 1) in
    if (c1 =? 120) || (c1 =? 88) then mreturn (p + 2, 16, sign)
    else if (c1 =? 111) || (c1 =? 79) then mreturn (p + 2, 8, sign)
    else if (c1 =? 98) || (c1 =? 66) then mreturn (p + 2, 2, sign)
    else mreturn (p, 10, sign)
  else mreturn (p, 10, sign).

Definition parse_digit (c : Z) : Z :=
  if (48 <=? c) && (c <=? 57) then c - 48
  else if (65 <=? c) && (c <=? 70) then c - 65 + 10
  else if (97 <=? c) && (c <=? 102) then c - 97 + 10
  else -1.

(** "int_of_string" *)
Definition int_of_string : list Z := [105; 110; 116; 95; 111; 102; 95; 115; 116; 114; 105; 110; 103].

Section Operations.
Context `{Runtime}.

(** The loop over the digits after the first. *)
Fixpoint parse_digits (fuel : nat) (base threshold p res : Z) : CM (Z * Z) :=
  match fuel with
  | O => mfail (CFault OutOfFuel)
  | S fuel =>
      let* c := ldc p in
      if c =? 95 then parse_digits fuel base threshold (p + 1) res else
      let d := parse_digit c in
      if (d <? 0) || (base <=? d) then mreturn (p, res) else
      if threshold <? res then caml_failwith_r int_of_string else
      let res := u64 (base * res + d) in
      if res <? u64 d then caml_failwith_r int_of_string else
      parse_digits fuel base threshold (p + 1) res
  end.

Definition parse_intnat_r (fuel : nat) (s nbits : Z) : CM Z :=
  let* (p, base, sign) := parse_sign_and_base s in
  let threshold := u64 (-1) / base in
  let* c := ldc p in
  let d := parse_digit c in
  if (d <? 0) || (base <=? d) then caml_failwith_r int_of_string else
  let* (p, res) := parse_digits fuel base threshold (p + 1) (u64 d) in
  let* len := caml_string_length s in
  if negb (p =? s + len) then caml_failwith_r int_of_string else
  (if base =? 10 then
     if 0 <=? sign then
       if u64 (Z.shiftl 1 (nbits - 1)) <=? res then caml_failwith_r int_of_string else mreturn tt
     else
       if u64 (Z.shiftl 1 (nbits - 1)) <? res then caml_failwith_r int_of_string else mreturn tt
   else
     if (nbits <? 64) && (u64 (Z.shiftl 1 nbits) <=? res) then caml_failwith_r int_of_string else mreturn tt) ;;;
  mreturn (if sign <? 0 then s64 (- s64 res) else s64 res).

(** ** Tagged integers *)

Definition caml_int_compare (v1 v2 : Z) : Z :=
  let res := b2z (s64 v2 <? s64 v1) - b2z (s64 v1 <? s64 v2) in
  Val_int res.

Definition caml_int_of_string_r (fuel : nat) (s : Z) : CM Z :=
  let* n := parse_intnat_r fuel s (8 * 8 - 1) in
  mreturn (Val_long n).

(** ** Custom blocks (custom.c) *)

Record custom_operations : Type := { ops_address : Z; finalize : Z }.

Definition caml_alloc_custom (ops : custom_operations) (size mem max : Z) : CM Z :=
  let wosize := 1 + u64 (size + 8 - 1) / 8 in
  if (finalize ops =? 0) && (wosize <=? Max_young_wosize) then
    let* (result, _) := caml_alloc_small_r wosize Custom_tag [] in
    st (Field result 0) (ops_address ops) ;;;
    mreturn result
  else
    let* result := caml_alloc_shr_r wosize Custom_tag in
    st (Field result 0) (ops_address ops) ;;;
    caml_adjust_gc_speed_r mem max ;;;
    let* (result, _) := check_urgent_gc result [] in
    mreturn result.
End Operations.

(** The addresses of the static operation tables; [custom_finalize_default] is [NULL]. *)
Class IntTables : Type := { int32_table : Z; int64_table : Z; nativeint_table : Z }.

Definition caml_int32_ops `{IntTables} : custom_operations := {| ops_address := int32_table; finalize := 0 |}.
Definition caml_int64_ops `{IntTables} : custom_operations := {| ops_address := int64_table; finalize := 0 |}.
Definition caml_nativeint_ops `{IntTables} : custom_operations := {| ops_address := nativeint_table; finalize := 0 |}.

Definition Int32_val (v : Z) : CM Z := let* w := ld (Data_custom_val v) in mreturn (s32 w).
Definition set_Int32_val (v i : Z) : CM unit :=
  let* w := ld (Data_custom_val v) in
  st (Data_custom_val v) (Z.lor (Z.ldiff w (H32 - 1)) (u32 i)).
Definition Int64_val (v : Z) : CM Z := let* w := ld (Data_custom_val v) in mreturn (s64 w).
Definition set_Int64_val (v i : Z) : CM unit := st (Data_custom_val v) (u64 i).
Definition Nativeint_val (v : Z) : CM Z := let* w := ld (Data_custom_val v) in mreturn (s64 w).
Definition set_Nativeint_val (v i : Z) : CM unit := st (Data_custom_val v) (u64 i).

(** A shift is defined for amounts from 0 to the width less one. *)
Definition shift_amount (width n : Z) : CM Z :=
  if (0 <=? n) && (n <? width) then mreturn n else mfail (CFault Contract).

(** ** int64_native.h

    Operands are signed 64-bit integers unless said otherwise. *)

Definition I64_literal (hi lo : Z) : Z := s64 (Z.lor (Z.shiftl hi 32) lo).
Definition I64_split (x : Z) : Z * Z := (u32 (Z.shiftr x 32), u32 x).
Definition I64_compare (x y : Z) : Z := b2z (y <? x) - b2z (x <? y).
Definition I64_ult (x y : Z) : bool := u64 x <? u64 y.
Definition I64_neg (x : Z) : Z := s64 (- x).
Definition I64_add (x y : Z) : Z := s64 (x + y).
Definition I64_sub (x y : Z) : Z := s64 (x - y).
Definition I64_mul (x y : Z) : Z := s64 (x * y).
Definition I64_is_zero (x : Z) : bool := x =? 0.
Definition I64_is_min_int (x : Z) : bool := x =? s64 (Z.shiftl 1 63).
Definition I64_is_minus_one (x : Z) : bool := x =? -1.
Definition I64_div (x y : Z) : Z := Z.quot x y.
Definition I64_mod (x y : Z) : Z := Z.rem x y.
Definition I64_udivmod (x y : Z) : Z * Z := (u64 x / u64 y, u64 x mod u64 y).
Definition I64_and (x y : Z) : Z := Z.land x y.
Definition I64_or (x y : Z) : Z := Z.lor x y.
Definition I64_xor (x y : Z) : Z := Z.lxor x y.
Definition I64_lsl (x n : Z) : Z := s64 (Z.shiftl x n).
Definition I64_asr (x n : Z) : Z := Z.shiftr x n.
Definition I64_lsr (x n : Z) : Z := Z.shiftr (u64 x) n.

Section Boxed.
Context `{Runtime} `{IntTables}.

(** ** 32-bit integers *)

Definition int32_cmp (v1 v2 : Z) : CM Z :=
  let* i1 := Int32_val v1 in
  let* i2 := Int32_val v2 in
  mreturn (b2z (i2 <? i1) - b2z (i1 <? i2)).

Definition int32_hash (v : Z) : CM Z := Int32_val v.

Definition caml_copy_int32_r (i : Z) : CM Z :=
  let* res := caml_alloc_custom caml_int32_ops 4 0 1 in
  set_Int32_val res i ;;;
  mreturn res.

Definition caml_int32_neg_r (v : Z) : CM Z :=
  let* i := Int32_val v in caml_copy_int32_r (s32 (- i)).
Definition caml_int32_add_r (v1 v2 : Z) : CM Z :=
  let* i1 := Int32_val v1 in let* i2 := Int32_val v2 in caml_copy_int32_r (s32 (i1 + i2)).
Definition caml_int32_sub_r (v1 v2 : Z) : CM Z :=
  let* i1 := Int32_val v1 in let* i2 := Int32_val v2 in caml_copy_int32_r (s32 (i1 - i2)).
Definition caml_int32_mul_r (v1 v2 : Z) : CM Z :=
  let* i1 := Int32_val v1 in let* i2 := Int32_val v2 in caml_copy_int32_r (s32 (i1 * i2)).

Definition caml_int32_div_r (v1 v2 : Z) : CM Z :=
  let* dividend := Int32_val v1 in
  let* divisor := Int32_val v2 in
  if divisor =? 0 then caml_raise_zero_divide_r else
  if (dividend =? s32 (Z.shiftl 1 31)) && (divisor =? -1) then mreturn v1 else
  caml_copy_int32_r (Z.quot dividend divisor).

Definition caml_int32_mod_r (v1 v2 : Z) : CM Z :=
  let* dividend := Int32_val v1 in
  let* divisor := Int32_val v2 in
  if divisor =? 0 then caml_raise_zero_divide_r else
  if (dividend =? s32 (Z.shiftl 1 31)) && (divisor =? -1) then caml_copy_int32_r 0 else
  caml_copy_int32_r (Z.rem dividend divisor).

Definition caml_int32_and_r (v1 v2 : Z) : CM Z :=
  let* i1 := Int32_val v1 in let* i2 := Int32_val v2 in caml_copy_int32_r (Z.land i1 i2).
Definition caml_int32_or_r (v1 v2 : Z) : CM Z :=
  let* i1 := Int32_val v1 in let* i2 := Int32_val v2 in caml_copy_int32_r (Z.lor i1 i2).
Definition caml_int32_xor_r (v1 v2 : Z) : CM Z :=
  let* i1 := Int32_val v1 in let* i2 := Int32_val v2 in caml_copy_int32_r (Z.lxor i1 i2).

Definition caml_int32_shift_left_r (v1 v2 : Z) : CM Z :=
  let* i := Int32_val v1 in
  let* n := shift_amount 32 (Int_val v2) in caml_copy_int32_r (s32 (Z.shiftl i n)).
Definition caml_int32_shift_right_r (v1 v2 : Z) : CM Z :=
  let* i := Int32_val v1 in
  let* n := shift_amount 32 (Int_val v2) in caml_copy_int32_r (Z.shiftr i n).
Definition caml_int32_shift_right_unsigned_r (v1 v2 : Z) : CM Z :=
  let* i := Int32_val v1 in
  let* n := shift_amount 32 (Int_val v2) in caml_copy_int32_r (s32 (Z.shiftr (u32 i) n)).

Definition caml_int32_of_int_r (v : Z) : CM Z := caml_copy_int32_r (s32 (Long_val v)).
Definition caml_int32_to_int (v : Z) : CM Z := let* i := Int32_val v in mreturn (Val_long i).

Definition caml_int32_compare (v1 v2 : Z) : CM Z :=
  let* i1 := Int32_val v1 in
  let* i2 := Int32_val v2 in
  let res := b2z (i2 <? i1) - b2z (i1 <? i2) in
  mreturn (Val_int res).

Definition caml_int32_of_string_r (fuel : nat) (s : Z) : CM Z :=
  let* n := parse_intnat_r fuel s 32 in caml_copy_int32_r (s32 n).

(** ** 64-bit integers *)

Definition int64_cmp (v1 v2 : Z) : CM Z :=
  let* i1 := Int64_val v1 in
  let* i2 := Int64_val v2 in
  mreturn (I64_compare i1 i2).

Definition int64_hash (v : Z) : CM Z :=
  let* x := Int64_val v in
  let '(hi, lo) := I64_split x in
  mreturn (Z.lxor hi lo).

Definition caml_copy_int64_r (i : Z) : CM Z :=
  let* res := caml_alloc_custom caml_int64_ops 8 0 1 in
  set_Int64_val res i ;;;
  mreturn res.

Definition caml_int64_neg_r (v : Z) : CM Z :=
  let* i := Int64_val v in caml_copy_int64_r (I64_neg i).
Definition caml_int64_add_r (v1 v2 : Z) : CM Z :=
  let* i1 := Int64_val v1 in let* i2 := Int64_val v2 in caml_copy_int64_r (I64_add i1 i2).
Definition caml_int64_sub_r (v1 v2 : Z) : CM Z :=
  let* i1 := Int64_val v1 in let* i2 := Int64_val v2 in caml_copy_int64_r (I64_sub i1 i2).
Definition caml_int64_mul_r (v1 v2 : Z) : CM Z :=
  let* i1 := Int64_val v1 in let* i2 := Int64_val v2 in caml_copy_int64_r (I64_mul i1 i2).
Definition caml_int64_and_r (v1 v2 : Z) : CM Z :=
  let* i1 := Int64_val v1 in let* i2 := Int64_val v2 in caml_copy_int64_r (I64_and i1 i2).
Definition caml_int64_or_r (v1 v2 : Z) : CM Z :=
  let* i1 := Int64_val v1 in let* i2 := Int64_val v2 in caml_copy_int64_r (I64_or i1 i2).
Definition caml_int64_xor_r (v1 v2 : Z) : CM Z :=
  let* i1 := Int64_val v1 in let* i2 := Int64_val v2 in caml_copy_int64_r (I64_xor i1 i2).

Definition caml_int64_div_r (v1 v2 : Z) : CM Z :=
  let* dividend := Int64_val v1 in
  let* divisor := Int64_val v2 in
  if I64_is_zero divisor then caml_raise_zero_divide_r else
  if I64_is_min_int dividend && I64_is_minus_one divisor then mreturn v1 else
  let* i1 := Int64_val v1 in
  caml_copy_int64_r (I64_div i1 divisor).

Definition caml_int64_mod_r (v1 v2 : Z) : CM Z :=
  let* dividend := Int64_val v1 in
  let* divisor := Int64_val v2 in
  if I64_is_zero divisor then caml_raise_zero_divide_r else
  if I64_is_min_int dividend && I64_is_minus_one divisor then caml_copy_int64_r (I64_literal 0 0) else
  let* i1 := Int64_val v1 in
  caml_copy_int64_r (I64_mod i1 divisor).

Definition caml_int64_shift_left_r (v1 v2 : Z) : CM Z :=
  let* i := Int64_val v1 in
  let* n := shift_amount 64 (Int_val v2) in caml_copy_int64_r (I64_lsl i n).
Definition caml_int64_shift_right_r (v1 v2 : Z) : CM Z :=
  let* i := Int64_val v1 in
  let* n := shift_amount 64 (Int_val v2) in caml_copy_int64_r (I64_asr i n).
Definition caml_int64_shift_right_unsigned_r (v1 v2 : Z) : CM Z :=
  let* i := Int64_val v1 in
  let* n := shift_amount 64 (Int_val v2) in caml_copy_int64_r (s64 (I64_lsr i n)).

Definition caml_int64_of_int_r (v : Z) : CM Z := caml_copy_int64_r (Long_val v).
Definition caml_int64_to_int (v : Z) : CM Z := let* i := Int64_val v in mreturn (Val_long i).
Definition caml_int64_of_int32_r (v : Z) : CM Z := let* i := Int32_val v in caml_copy_int64_r i.
Definition caml_int64_to_int32_r (v : Z) : CM Z := let* i := Int64_val v in caml_copy_int32_r (s32 i).

Definition caml_int64_compare (v1 v2 : Z) : CM Z :=
  let* i1 := Int64_val v1 in
  let* i2 := Int64_val v2 in
  mreturn (Val_int (I64_compare i1 i2)).

Fixpoint parse_digits64 (fuel : nat) (base threshold p res : Z) : CM (Z * Z) :=
  match fuel with
  | O => mfail (CFault OutOfFuel)
  | S fuel =>
      let* c := ldc p in
      if c =? 95 then parse_digits64 fuel base threshold (p + 1) res else
      let d := parse_digit c in
      if (d <? 0) || (base <=? d) then mreturn (p, res) else
      if I64_ult threshold res then caml_failwith_r int_of_string else
      let res := u64 (I64_add (I64_mul base res) d) in
      if I64_ult res d then caml_failwith_r int_of_string else
      parse_digits64 fuel base threshold (p + 1) res
  end.

Definition caml_int64_of_string_r (fuel : nat) (s : Z) : CM Z :=
  let max_uint64 := u64 (I64_literal 4294967295 4294967295) in
  let max_int64_pos := u64 (I64_literal 2147483647 4294967295) in
  let max_int64_neg := u64 (I64_literal 2147483648 0) in
  let* (p, base, sign) := parse_sign_and_base s in
  let '(threshold, _) := I64_udivmod max_uint64 base in
  let* c := ldc p in
  let d := parse_digit c in
  if (d <? 0) || (base <=? d) then caml_failwith_r int_of_string else
  let* (p, res) := parse_digits64 fuel base threshold (p + 1) (u64 d) in
  let* len := caml_string_length s in
  if negb (p =? s + len) then caml_failwith_r int_of_string else
  if (base =? 10) && I64_ult (if 0 <=? sign then max_int64_pos else max_int64_neg) res
  then caml_failwith_r int_of_string else
  let res := (if sign <? 0 then u64 (I64_neg res) else res) in
  caml_copy_int64_r (s64 res).

(** The bits of a double are the word that holds it. *)
Definition caml_copy_double_r (d : Z) : CM Z :=
  let* (res, _) := caml_alloc_small_r Double_wosize Double_tag [] in
  st (Field res 0) d ;;;
  mreturn res.

Definition caml_int64_bits_of_float_r (vd : Z) : CM Z :=
  let* d := ld (Field vd 0) in caml_copy_int64_r (s64 d).
Definition caml_int64_float_of_bits_r (vi : Z) : CM Z :=
  let* i := Int64_val vi in caml_copy_double_r (u64 i).

(** ** Native integers *)

Definition nativeint_cmp (v1 v2 : Z) : CM Z :=
  let* i1 := Nativeint_val v1 in
  let* i2 := Nativeint_val v2 in
  mreturn (b2z (i2 <? i1) - b2z (i1 <? i2)).

Definition nativeint_hash (v : Z) : CM Z :=
  let* n := Nativeint_val v in
  mreturn (Z.lxor (Z.lxor (Z.shiftr n 32) (Z.shiftr n 63)) n).

Definition caml_copy_nativeint_r (i : Z) : CM Z :=
  let* res := caml_alloc_custom caml_nativeint_ops 8 0 1 in
  set_Nativeint_val res i ;;;
  mreturn res.

Definition caml_nativeint_neg_r (v : Z) : CM Z :=
  let* i := Nativeint_val v in caml_copy_nativeint_r (s64 (- i)).
Definition caml_nativeint_add_r (v1 v2 : Z) : CM Z :=
  let* i1 := Nativeint_val v1 in let* i2 := Nativeint_val v2 in caml_copy_nativeint_r (s64 (i1 + i2)).
Definition caml_nativeint_sub_r (v1 v2 : Z) : CM Z :=
  let* i1 := Nativeint_val v1 in let* i2 := Nativeint_val v2 in caml_copy_nativeint_r (s64 (i1 - i2)).
Definition caml_nativeint_mul_r (v1 v2 : Z) : CM Z :=
  let* i1 := Nativeint_val v1 in let* i2 := Nativeint_val v2 in caml_copy_nativeint_r (s64 (i1 * i2)).

Definition Nativeint_min_int : Z := s64 (Z.shiftl 1 (8 * 8 - 1)).

Definition caml_nativeint_div_r (v1 v2 : Z) : CM Z :=
  let* dividend := Nativeint_val v1 in
  let* divisor := Nativeint_val v2 in
  if divisor =? 0 then caml_raise_zero_divide_r else
  if (dividend =? Nativeint_min_int) && (divisor =? -1) then mreturn v1 else
  caml_copy_nativeint_r (Z.quot dividend divisor).

Definition caml_nativeint_mod_r (v1 v2 : Z) : CM Z :=
  let* dividend := Nativeint_val v1 in
  let* divisor := Nativeint_val v2 in
  if divisor =? 0 then caml_raise_zero_divide_r else
  if (dividend =? Nativeint_min_int) && (divisor =? -1) then caml_copy_nativeint_r 0 else
  caml_copy_nativeint_r (Z.rem dividend divisor).

Definition caml_nativeint_and_r (v1 v2 : Z) : CM Z :=
  let* i1 := Nativeint_val v1 in let* i2 := Nativeint_val v2 in caml_copy_nativeint_r (Z.land i1 i2).
Definition caml_nativeint_or_r (v1 v2 : Z) : CM Z :=
  let* i1 := Nativeint_val v1 in let* i2 := Nativeint_val v2 in caml_copy_nativeint_r (Z.lor i1 i2).
Definition caml_nativeint_xor_r (v1 v2 : Z) : CM Z :=
  let* i1 := Nativeint_val v1 in let* i2 := Nativeint_val v2 in caml_copy_nativeint_r (Z.lxor i1 i2).

Definition caml_nativeint_shift_left_r (v1 v2 : Z) : CM Z :=
  let* i := Nativeint_val v1 in
  let* n := shift_amount 64 (Int_val v2) in caml_copy_nativeint_r (s64 (Z.shiftl i n)).
Definition caml_nativeint_shift_right_r (v1 v2 : Z) : CM Z :=
  let* i := Nativeint_val v1 in
  let* n := shift_amount 64 (Int_val v2) in caml_copy_nativeint_r (Z.shiftr i n).
Definition caml_nativeint_shift_right_unsigned_r (v1 v2 : Z) : CM Z :=
  let* i := Nativeint_val v1 in
  let* n := shift_amount 64 (Int_val v2) in caml_copy_nativeint_r (s64 (Z.shiftr (u64 i) n)).

Definition caml_nativeint_of_int_r (v : Z) : CM Z := caml_copy_nativeint_r (Long_val v).
Definition caml_nativeint_to_int (v : Z) : CM Z := let* i := Nativeint_val v in mreturn (Val_long i).
Definition caml_nativeint_of_int32_r (v : Z) : CM Z := let* i := Int32_val v in caml_copy_nativeint_r i.
Definition caml_nativeint_to_int32_r (v : Z) : CM Z := let* i := Nativeint_val v in caml_copy_int32_r (s32 i).
Definition caml_int64_of_nativeint_r (v : Z) : CM Z := let* i := Nativeint_val v in caml_copy_int64_r i.
Definition caml_int64_to_nativeint_r (v : Z) : CM Z := let* i := Int64_val v in caml_copy_nativeint_r i.

Definition caml_nativeint_compare (v1 v2 : Z) : CM Z :=
  let* i1 := Nativeint_val v1 in
  let* i2 := Nativeint_val v2 in
  let res := b2z (i2 <? i1) - b2z (i1 <? i2) in
  mreturn (Val_int res).

Definition caml_nativeint_of_string_r (fuel : nat) (s : Z) : CM Z :=
  let* n := parse_intnat_r fuel s (8 * 8) in caml_copy_nativeint_r n.
End Boxed.
(** ** Integer literals *)

Definition digit_of (b : Z) : option Z :=
  if (48 <=? b) && (b <=? 57) then Some (b - 48)
  else if (65 <=? b) && (b <=? 70) then Some (b - 55)
  else if (97 <=? b) && (b <=? 102) then Some (b - 87)
  else None.

(** The value of a sequence of digits and underscores after the value [v]. *)
Fixpoint digits_value (base v : Z) (l : list Z) : option Z :=
  match l with
  | [] => Some v
  | b :: l =>
      if b =? 95 then digits_value base v l else
      match digit_of b with
      | Some d => if d <? base then digits_value base (base * v + d) l else None
      | None => None
      end
  end.

Definition literal_sign (l : list Z) : Z * list Z :=
  match l with
  | b :: l' => if b =? 45 then (-1, l') else (1, l)
  | [] => (1, l)
  end.

Definition literal_base (l : list Z) : Z * list Z :=
  match l with
  | b0 :: b1 :: l' =>
      if b0 =? 48 then
        if (b1 =? 120) || (b1 =? 88) then (16, l')
        else if (b1 =? 111) || (b1 =? 79) then (8, l')
        else if (b1 =? 98) || (b1 =? 66) then (2, l')
        else (10, l)
      else (10, l)
  | _ => (10, l)
  end.

(** The integer of [nbits] bits a literal stands for: a decimal literal is
    signed, the others go up to the largest unsigned integer. *)
Definition int_literal (nbits : Z) (l : list Z) : option Z :=
  let '(sign, l) := literal_sign l in
  let '(base, l) := literal_base l in
  match l with
  | [] => None
  | b :: l =>
      match digit_of b with
      | Some d =>
          if d <? base then
            match digits_value base d l with
            | Some v =>
                if base =? 10 then
                  if (if 0 <? sign then v <? 2 ^ (nbits - 1) else v <=? 2 ^ (nbits - 1)) then Some (sign * v) else None
                else if v <? 2 ^ nbits then Some (sign * v) else None
            | None => None
            end
          else None
      | None => None
      end
  end.

Example literal_hex : int_literal 63 [45; 48; 120; 49; 95; 70] = Some (-31).
Proof. reflexivity. Qed.

Definition byte (b : Z) : Prop := 0 <= b < 256.

Lemma parse_digit_spec b : byte b →
  parse_digit (s8 b) = match digit_of b with Some d => d | None => -1 end.
Proof.
  intros Hb. unfold byte in Hb. unfold parse_digit, digit_of.
  assert (s8 b = b ∨ (128 <= b ∧ s8 b = b - 256)) as [->|[Hh ->]].
  { unfold s8. destruct (Z.lt_ge_cases b 128); [left; rewrite Z.mod_small by lia; lia|right; split; [done|]].
    rewrite <- (Z.mod_unique_pos (b + 128) 256 1 (b + 128 - 256)) by lia. lia. }
  - repeat case_match; rewrite ?andb_true_iff, ?andb_false_iff, ?Z.leb_le, ?Z.leb_gt in *; lia.
  - repeat match goal with |- context [?x <=? ?y] =>
      first [rewrite (proj2 (Z.leb_gt x y)) by lia | rewrite (proj2 (Z.leb_le x y)) by lia] end. done.
Qed.

Lemma digit_of_range b d : digit_of b = Some d → 0 <= d < 16.
Proof.
  unfold digit_of. repeat case_match; rewrite ?andb_true_iff, ?Z.leb_le in *; intros; simplify_eq; lia.
Qed.

Lemma s8_eq b k : byte b → 0 <= k < 128 → (s8 b =? k) = (b =? k).
Proof.
  intros Hb Hk. unfold byte in Hb. unfold s8. apply Bool.eq_iff_eq_true. rewrite !Z.eqb_eq.
  destruct (Z.lt_ge_cases b 128); [rewrite Z.mod_small by lia; lia|].
  rewrite <- (Z.mod_unique_pos (b + 128) 256 1 (b + 128 - 256)) by lia. lia.
Qed.

(** The characters of a string, with the [NUL] that follows them. *)
Lemma string_char c s l i : is_string (words c) s l → (i <= length l)%nat →
  ldc (s + Z.of_nat i) c = inr (c, s8 (nth i l 0)) ∧ byte (nth i l 0).
Proof.
  intros Hs Hi. pose proof (string_bytes _ _ _ Hs) as Hb. destruct (string_wosize_bounds (Z.of_nat (length l)) ltac:(lia)).
  fold (string_wosize (Z.of_nat (length l))) in Hb.
  assert (load_byte (words c) (s + Z.of_nat i) = Some (nth i l 0)) as Hl.
  { apply Hb. destruct (decide (i = length l)) as [->|Hne].
    - rewrite nth_overflow, lookup_app_r, Nat.sub_diag by lia. unfold padding.
      destruct (Z.to_nat (8 * string_wosize (Z.of_nat (length l)) - 1 - Z.of_nat (length l))) eqn:E; [|done]. cbn. f_equal. lia.
    - rewrite lookup_app_l by lia. rewrite nth_lookup. destruct (lookup_lt_is_Some_2 l i ltac:(lia)) as [x Hx]. by rewrite Hx. }
  unfold ldc, mbnd. rewrite (ldb_eq _ _ _ Hl). split; [done|]. unfold byte.
  destruct (nth_in_or_default i l 0) as [Hin| ->]; [|lia]. pose proof (string_range _ _ _ Hs) as HF.
  rewrite List.Forall_forall in HF. by apply HF.
Qed.

Lemma digits_value_mono base v l v' : 0 < base → 0 <= v → digits_value base v l = Some v' → v <= v'.
Proof.
  intros Hb. revert v. induction l as [|b l IH]; intros v Hv E; cbn in E; [by simplify_eq|].
  destruct (b =? 95); [by apply IH|]. destruct (digit_of b) as [d|] eqn:Ed; [|done]. apply digit_of_range in Ed.
  destruct (d <? base); [|done]. apply IH in E; nia.
Qed.
(** What the loop over the digits does from position [i]: it fails when the
    value does not fit 64 bits, and stops at the first character that is
    neither a digit of the base nor an underscore. *)
Definition digits_outcome `{Runtime} (c : context) (s : Z) (l : list Z) (base v : Z) (rest : list Z) (r : cstop + context * (Z * Z)) : Prop :=
  (r = caml_failwith_r int_of_string c ∧ ∀ v', digits_value base v rest = Some v' → W <= v') ∨
  (∃ (j : nat) v', r = inr (c, (s + Z.of_nat j, v')) ∧
    ((j = length l ∧ digits_value base v rest = Some v' ∧ 0 <= v' < W) ∨
     ((j < length l)%nat ∧ digits_value base v rest = None))).

Lemma parse_digits_spec `{Runtime} c s l base fuel i v :
  is_string (words c) s l → 2 <= base <= 16 → (i <= length l)%nat → 0 <= v < W → (length l - i < fuel)%nat →
  digits_outcome c s l base v (drop i l) (parse_digits fuel base ((W - 1) / base) (s + Z.of_nat i) v c).
Proof.
  intros Hs Hbase. revert i v. induction fuel as [|fuel IH]; intros i v Hi Hv Hf; [lia|]. cbn [parse_digits].
  destruct (string_char c s l i Hs Hi) as [Hc Hb]. rewrite (mbnd_eq _ _ _ _ _ Hc). rewrite s8_eq by (done || lia).
  rewrite parse_digit_spec by done. destruct (decide (i = length l)) as [->|Hne].
  { rewrite drop_all, nth_overflow by lia. right. exists (length l), v. split; [done|]. by left. }
  assert (drop i l = nth i l 0 :: drop (S i) l) as Ed.
  { destruct (lookup_lt_is_Some_2 l i ltac:(lia)) as [x Hx]. rewrite (drop_S l x i Hx). f_equal. by rewrite nth_lookup, Hx. }
  rewrite Ed. unfold digits_outcome. cbn [digits_value].
  replace (s + Z.of_nat i + 1) with (s + Z.of_nat (S i)) by lia.
  destruct (nth i l 0 =? 95); [apply IH; (done || lia)|].
  destruct (digit_of (nth i l 0)) as [d|] eqn:Edig.
  2:{ right. exists i, v. split; [done|]. right. split; [lia|done]. }
  pose proof (digit_of_range _ _ Edig) as Hd. rewrite (proj2 (Z.ltb_ge d 0)) by lia. cbn [orb].
  destruct (Z.leb_spec base d) as [Hge|Hlt].
  { rewrite (proj2 (Z.ltb_ge d base)) by lia. right. exists i, v. split; [done|]. right. split; [lia|done]. }
  rewrite (proj2 (Z.ltb_lt d base)) by lia.
  assert (∀ v', digits_value base (base * v + d) (drop (S i) l) = Some v' → base * v + d <= v') as Hmono.
  { intros v'. apply digits_value_mono; nia. }
  destruct (Z.ltb_spec ((W - 1) / base) v) as [Hbig|Hsm].
  { left. split; [done|]. intros v' E. specialize (Hmono _ E). 
    assert (W - 1 < base * v) by (pose proof (Z.mul_succ_div_gt (W - 1) base ltac:(lia)); nia). lia. }
  assert (base * v <= W - 1) by (pose proof (Z.mul_div_le (W - 1) base ltac:(lia)); nia).
  rewrite (u64_small d) by lia_w. destruct (Z.lt_ge_cases (base * v + d) W) as [Hfit|Hov].
  - rewrite u64_small by (unfold word; nia). rewrite (proj2 (Z.ltb_ge _ _)) by nia. apply IH; [lia|nia|lia].
  - rewrite <- (u64_u64 (base * v + d)). destruct (u64_add_cases (base * v) d) as [[? _]|[_ E]]; [unfold word; nia|lia_w|lia|].
    rewrite u64_u64, E. rewrite (proj2 (Z.ltb_lt _ _)) by lia. left. split; [done|]. intros v' Ev. specialize (Hmono _ Ev). lia.
Qed.

Lemma nth_drop i k l : nth k (drop i l) 0 = nth (i + k) l 0.
Proof. by rewrite !nth_lookup, lookup_drop. Qed.

(** The sign and the base prefix. *)
Lemma parse_sign_and_base_spec c s l :
  is_string (words c) s l →
  let sl := literal_sign l in
  let bl := literal_base sl.2 in
  ∃ i, parse_sign_and_base s c = inr (c, (s + Z.of_nat i, bl.1, sl.1)) ∧ (i <= length l)%nat ∧ bl.2 = drop i l ∧
    2 <= bl.1 <= 16 ∧ (sl.1 = 1 ∨ sl.1 = -1).
Proof.
  intros Hs sl bl. unfold parse_sign_and_base.
  destruct (string_char c s l 0 Hs ltac:(lia)) as [Hc Hb]. rewrite Z.add_0_r in Hc. rewrite (mbnd_eq _ _ _ _ _ Hc).
  rewrite s8_eq by (done || lia).
  assert (∃ i, (if nth 0 l 0 =? 45 then (-1, s + 1) else (1, s)) = (sl.1, s + Z.of_nat i) ∧
    (i <= length l)%nat ∧ sl.2 = drop i l ∧ (sl.1 = 1 ∨ sl.1 = -1)) as (i & -> & Hi & El & Hsign).
  { unfold sl, literal_sign. destruct l as [|b l]; cbn [nth]; [exists O; cbn; rewrite Z.add_0_r; auto|].
    destruct (b =? 45); [exists 1%nat; cbn; rewrite drop_0; split_and!; auto; lia|exists O; cbn; rewrite Z.add_0_r; split_and!; auto; lia]. }
  destruct (string_char c s l i Hs Hi) as [Hc0 Hb0]. rewrite (mbnd_eq _ _ _ _ _ Hc0). rewrite s8_eq by (done || lia).
  unfold bl, literal_base. rewrite El. pose proof (nth_drop i 0 l) as N0. pose proof (nth_drop i 1 l) as N1.
  rewrite Nat.add_0_r in N0. pose proof (length_drop l i) as Ld.
  assert (∃ i', inr (A := cstop) (c, (s + Z.of_nat i, 10, sl.1)) = inr (c, (s + Z.of_nat i', 10, sl.1)) ∧ (i' <= length l)%nat ∧ drop i l = drop i' l ∧
    2 <= 10 <= 16 ∧ (sl.1 = 1 ∨ sl.1 = -1)) as Hdec by (exists i; split_and!; (done || lia)).
  destruct (Z.eqb_spec (nth i l 0) 48) as [E48|Hne].
  2:{ destruct (drop i l) as [|b0 [|b1 l']] eqn:Edr; cbn in N0; try exact Hdec.
      rewrite (proj2 (Z.eqb_neq b0 48)) by congruence. exact Hdec. }
  assert (i < length l)%nat as Hi'.
  { destruct (decide (i = length l)) as [->|]; [|lia]. rewrite nth_overflow in E48 by lia. done. }
  destruct (string_char c s l (i + 1) Hs ltac:(lia)) as [Hc1 Hb1].
  replace (s + Z.of_nat i + 1) with (s + Z.of_nat (i + 1)) by lia. rewrite (mbnd_eq _ _ _ _ _ Hc1). rewrite !s8_eq by (done || lia).
  destruct (drop i l) as [|b0 [|b1 l']] eqn:Edr; cbn [length] in Ld; [lia| |].
  - rewrite (nth_overflow l (n := i + 1)) by lia. exact Hdec.
  - cbn in N0, N1. rewrite <- N0 in E48. rewrite E48, <- N1. cbn [Z.eqb].
    assert (∀ base, 2 <= base <= 16 → ∃ i', inr (A := cstop) (c, (s + Z.of_nat i + 2, base, sl.1)) = inr (c, (s + Z.of_nat i', base, sl.1)) ∧
      (i' <= length l)%nat ∧ l' = drop i' l ∧ 2 <= base <= 16 ∧ (sl.1 = 1 ∨ sl.1 = -1)) as Hpre.
    { intros base Hbase. exists (i + 2)%nat. split_and!; try done; try lia; [do 4 f_equal; lia|].
      by rewrite <- drop_drop, Edr. }
    change (48 =? 48)%positive with true. cbv iota. rewrite E48 in Hdec.
    destruct ((b1 =? 120) || (b1 =? 88)); [apply (Hpre 16); lia|]. destruct ((b1 =? 111) || (b1 =? 79)); [apply (Hpre 8); lia|].
    destruct ((b1 =? 98) || (b1 =? 66)); [apply (Hpre 2); lia|]. exact Hdec.
Qed.

(** Raising does not return, whatever type its result would have. *)
Lemma raise_stop v c : ∃ e, ∀ A, caml_raise_r (A := A) v c = inl e.
Proof.
  unfold caml_raise_r, mbnd, mget, mfail. case_match; eexists; intros; reflexivity.
Qed.

Lemma raise_with_arg_stop `{Runtime} tag arg c : ∃ e, ∀ A, caml_raise_with_arg_r (A := A) tag arg c = inl e.
Proof.
  unfold caml_raise_with_arg_r, mbnd. destruct (caml_alloc_small_r 2 0 [tag; arg] c) as [e|[c1 [bucket roots]]]; [by exists e|].
  destruct roots as [|t [|a [|]]]; try (eexists; intros; reflexivity).
  destruct (st (Field bucket 0) t c1) as [e|[c2 _]]; [by exists e|]. destruct (st (Field bucket 1) a c2) as [e|[c3 _]]; [by exists e|].
  apply raise_stop.
Qed.

Lemma failwith_stop `{Runtime} msg c : ∃ e, ∀ A, caml_failwith_r (A := A) msg c = inl e.
Proof.
  unfold caml_failwith_r, mbnd, mget. destruct (caml_global_data c =? 0); [eexists; intros; reflexivity|].
  destruct (ld (Field (caml_global_data c) FAILURE_EXN) c) as [e|[c1 tag]]; [by exists e|].
  unfold caml_raise_with_string_r, mbnd. destruct (caml_copy_string_r msg [tag] c1) as [e|[c2 [vmsg roots]]]; [by exists e|].
  destruct roots as [|t [|]]; try (eexists; intros; reflexivity). apply raise_with_arg_stop.
Qed.

Lemma s64_opp x : s64 (- s64 x) = s64 (- x).
Proof.
  rewrite <- (s64_u64 (- s64 x)), <- (s64_u64 (- x)). f_equal. rewrite <- !Z.sub_0_l.
  rewrite <- (u64_sub_r 0 (s64 x)). by autorewrite with words.
Qed.

(** [parse_intnat_r], for an integer type of [nbits] bits, accepts exactly
    the literals of that type and returns their value (as a 64-bit integer):
    sign, base prefix, underscores, and the overflow checks of the digit loop
    included; on any other string it raises [Failure "int_of_string"].  The
    loop ends at the [NUL] after the string at the latest. *)
Theorem parse_intnat_correct `{Runtime} c s l fuel nbits :
  is_string (words c) s l → (length l <= fuel)%nat → 1 <= nbits <= 64 →
  match int_literal nbits l with
  | Some v => parse_intnat_r fuel s nbits c = inr (c, s64 v)
  | None => parse_intnat_r fuel s nbits c = caml_failwith_r int_of_string c
  end.
Proof.
  intros Hs Hf Hn. destruct (parse_sign_and_base_spec c s l Hs) as (i & Ep & Hi & El & Hbase & Hsign).
  unfold parse_intnat_r. rewrite (mbnd_eq _ _ _ _ _ Ep). clear Ep. unfold int_literal.
  destruct (literal_sign l) as [sign l1]. cbn [fst snd] in *. destruct (literal_base l1) as [base l2]. cbn [fst snd] in *. subst l2.
  change (u64 (-1)) with (W - 1). destruct (string_char c s l i Hs Hi) as [Hc Hb]. rewrite (mbnd_eq _ _ _ _ _ Hc).
  rewrite parse_digit_spec by done. destruct (decide (i = length l)) as [->|Hne].
  { rewrite drop_all, nth_overflow by lia. done. }
  assert (drop i l = nth i l 0 :: drop (S i) l) as Ed.
  { destruct (lookup_lt_is_Some_2 l i ltac:(lia)) as [x Hx]. rewrite (drop_S l x i Hx). f_equal. by rewrite nth_lookup, Hx. }
  rewrite Ed. destruct (digit_of (nth i l 0)) as [d|] eqn:Edig; [|done]. pose proof (digit_of_range _ _ Edig) as Hd.
  rewrite (proj2 (Z.ltb_ge d 0)) by lia. cbn [orb].
  destruct (Z.leb_spec base d) as [Hge|Hlt]; [by rewrite (proj2 (Z.ltb_ge d base)) by lia|].
  rewrite (proj2 (Z.ltb_lt d base)), (u64_small d) by lia_w. replace (s + Z.of_nat i + 1) with (s + Z.of_nat (S i)) by lia.
  assert (2 ^ nbits <= W ∧ 0 < 2 ^ (nbits - 1) ∧ 2 ^ nbits = 2 * 2 ^ (nbits - 1)) as (P1 & P2 & P3).
  { rewrite W_pow. split_and!; [apply Z.pow_le_mono_r; lia|apply Z.pow_pos_nonneg; lia|rewrite <- Z.pow_succ_r by lia; f_equal; lia]. }
  destruct (parse_digits_spec c s l base fuel (S i) d Hs Hbase ltac:(lia) ltac:(lia_w) ltac:(lia)) as [[Er Hbig]|(j & v & Er & Hj)].
  - destruct (failwith_stop int_of_string c) as [e Ee]. rewrite Ee in Er. rewrite (mbnd_stop _ _ _ _ Er), Ee.
    destruct (digits_value base d (drop (S i) l)) as [v|]; [|done]. specialize (Hbig v eq_refl).
    destruct (base =? 10); [|by rewrite (proj2 (Z.ltb_ge v (2 ^ nbits))) by lia].
    rewrite (proj2 (Z.ltb_ge v _)), (proj2 (Z.leb_gt v _)) by lia. by destruct (0 <? sign).
  - rewrite (mbnd_eq _ _ _ _ _ Er), (mbnd_eq _ _ _ _ _ (string_length_eq c s l Hs)).
    destruct Hj as [(-> & -> & Hv)|[Hlt' ->]]; [|by rewrite (proj2 (Z.eqb_neq _ _)) by lia].
    rewrite Z.eqb_refl. cbn [negb]. rewrite !Z.shiftl_mul_pow2, !Z.mul_1_l, (u64_small (2 ^ (nbits - 1))) by lia_w.
    assert ((if sign <? 0 then s64 (- s64 v) else s64 v) = s64 (sign * v)) as Eres.
    { destruct Hsign as [->| ->]; cbn [Z.ltb Z.compare]; [by rewrite Z.mul_1_l|]. by rewrite s64_opp. }
    rewrite Eres. destruct (failwith_stop int_of_string c) as [e Ee]. rewrite Ee. destruct (Z.eqb_spec base 10) as [_|_].
    + destruct Hsign as [->| ->]; cbn [Z.ltb Z.leb Z.compare].
      * destruct (Z.leb_spec (2 ^ (nbits - 1)) v), (Z.ltb_spec v (2 ^ (nbits - 1))); try lia; unfold mbnd; rewrite ?Ee; done.
      * destruct (Z.ltb_spec (2 ^ (nbits - 1)) v), (Z.leb_spec v (2 ^ (nbits - 1))); try lia; unfold mbnd; rewrite ?Ee; done.
    + destruct (Z.ltb_spec nbits 64) as [Hn64|Hn64]; cbn [andb].
      * rewrite u64_small.
        2:{ split; [lia|]. rewrite W_pow. apply Z.pow_lt_mono_r; lia. }
        destruct (Z.leb_spec (2 ^ nbits) v), (Z.ltb_spec v (2 ^ nbits)); try lia; unfold mbnd; rewrite ?Ee; done.
      * assert (nbits = 64) as -> by lia. rewrite <- W_pow. rewrite (proj2 (Z.ltb_lt v W)) by lia. done.
Qed.

(** ** Boxed integers *)

Lemma s32_u32 x : s32 (u32 x) = s32 x.
Proof. unfold s32, u32. by rewrite Zplus_mod_idemp_l. Qed.

Lemma s32_range x : -2147483648 <= s32 x < 2147483648.
Proof. unfold s32. pose proof (Z.mod_pos_bound (x + 2147483648) H32 H32_pos). unfold H32 in *. lia. Qed.

Lemma s32_small x : -2147483648 <= x < 2147483648 → s32 x = x.
Proof. intros Hx. unfold s32. rewrite Z.mod_small by (unfold H32; lia). lia. Qed.

Lemma s32_s32 x : s32 (s32 x) = s32 x.
Proof. apply s32_small, s32_range. Qed.

Lemma s64_s64 x : s64 (s64 x) = s64 x.
Proof. apply s64_small, s64_range. Qed.

(** Replacing the low half of a word. *)
Lemma s32_set_low w i : s32 (Z.lor (Z.ldiff w (H32 - 1)) (u32 i)) = s32 i.
Proof.
  rewrite <- (s32_u32 (Z.lor _ _)), <- (s32_u32 i). f_equal. unfold u32 at 1. rewrite H32_pow. apply Z.bits_inj'. intros k Hk.
  destruct (Z.lt_ge_cases k 32) as [Hl|Hh].
  - rewrite Z.mod_pow2_bits_low, Z.lor_spec, Z.ldiff_spec by lia. change (2 ^ 32 - 1) with (Z.ones 32).
    rewrite Z.ones_spec_low by lia. by rewrite andb_false_r.
  - rewrite Z.mod_pow2_bits_high by lia. unfold u32. rewrite H32_pow. by rewrite Z.mod_pow2_bits_high by lia.
Qed.

Definition is_int32 (m : gmap Z Z) (v i : Z) : Prop := ∃ w, m !! (v + 8) = Some w ∧ s32 w = i.
Definition is_int64 (m : gmap Z Z) (v i : Z) : Prop := ∃ w, m !! (v + 8) = Some w ∧ s64 w = i.

(** Only the block of two words at [blk] has changed. *)
Definition only_block (c c' : context) (blk : Z) : Prop :=
  ∀ k, k < blk - 8 ∨ blk + 16 <= k → words c' !! k = words c !! k.

Lemma Int32_val_eq c v i : is_int32 (words c) v i → Int32_val v c = inr (c, i).
Proof.
  intros (w & Hw & <-). unfold Int32_val, Data_custom_val, Field, mbnd, ld. change (8 * 1) with 8. by rewrite Hw.
Qed.
Lemma Int64_val_eq c v i : is_int64 (words c) v i → Int64_val v c = inr (c, i).
Proof.
  intros (w & Hw & <-). unfold Int64_val, Data_custom_val, Field, mbnd, ld. change (8 * 1) with 8. by rewrite Hw.
Qed.

Lemma alloc_custom_eq `{Runtime} ops size mem max c blk :
  finalize ops = 0 → 1 <= size <= 8 → room c 2 blk →
  ∃ w, caml_alloc_custom ops size mem max c =
    inr (set_words (<[blk := ops_address ops]> (words (allocated c 2 Custom_tag blk))) (set_caml_young_ptr (blk - 8) c), blk) ∧
    words c !! (blk + 8) = Some w.
Proof.
  intros Hf Hs Hr. pose proof (room_mapped _ _ _ Hr) as Hm. destruct (Hm 1%nat ltac:(lia)) as [w1 H1]. destruct (Hm 2%nat ltac:(lia)) as [w2 H2].
  unfold padd in H1, H2. replace (blk - 8 + 8 * Z.of_nat 1) with blk in H1 by lia.
  replace (blk - 8 + 8 * Z.of_nat 2) with (blk + 8) in H2 by lia. exists w2. split; [|done].
  unfold caml_alloc_custom. rewrite Hf, u64_small by lia_w.
  replace (1 + (size + 8 - 1) / 8) with 2 by (Z.to_euclidean_division_equations; lia). change ((0 =? 0) && (2 <=? Max_young_wosize)) with true. cbv iota.
  rewrite (mbnd_eq _ _ _ _ _ (alloc_small_eq 2 Custom_tag [] c blk ltac:(lia) Hr)).
  unfold mbnd, st, Field. replace (blk + 8 * 0) with blk by lia. cbn -[Z.sub]. by rewrite lookup_insert_ne, H1 by lia.
Qed.

Lemma copy_int32_eq `{Runtime} `{IntTables} i c blk : room c 2 blk →
  ∃ c', caml_copy_int32_r i c = inr (c', blk) ∧ is_int32 (words c') blk (s32 i) ∧ words c' !! blk = Some int32_table ∧ only_block c c' blk.
Proof.
  intros Hr. destruct (alloc_custom_eq caml_int32_ops 4 0 1 c blk eq_refl ltac:(lia) Hr) as (w & E & Hw).
  unfold caml_copy_int32_r. rewrite (mbnd_eq _ _ _ _ _ E). unfold set_Int32_val, Data_custom_val, Field, mbnd, ld, st.
  replace (blk + 8 * 1) with (blk + 8) by lia. cbn -[Z.add Z.sub Z.lor Z.ldiff u32]. rewrite !lookup_insert_ne, Hw by lia. cbn -[Z.add Z.sub Z.lor Z.ldiff u32].
  rewrite !lookup_insert_ne, Hw by lia. eexists. split; [done|]. cbn -[Z.add Z.sub Z.lor Z.ldiff u32]. split_and!.
  - eexists. rewrite lookup_insert_eq. split; [done|]. apply s32_set_low.
  - by rewrite lookup_insert_ne, lookup_insert_eq by lia.
  - intros k Hk. cbn -[Z.add Z.sub Z.lor Z.ldiff u32]. by rewrite !lookup_insert_ne by lia.
Qed.

Lemma copy_int64_eq `{Runtime} `{IntTables} i c blk : room c 2 blk →
  ∃ c', caml_copy_int64_r i c = inr (c', blk) ∧ is_int64 (words c') blk (s64 i) ∧ words c' !! blk = Some int64_table ∧ only_block c c' blk.
Proof.
  intros Hr. destruct (alloc_custom_eq caml_int64_ops 8 0 1 c blk eq_refl ltac:(lia) Hr) as (w & E & Hw).
  unfold caml_copy_int64_r. rewrite (mbnd_eq _ _ _ _ _ E). unfold set_Int64_val, Data_custom_val, Field, mbnd, st.
  replace (blk + 8 * 1) with (blk + 8) by lia. cbn -[Z.add Z.sub u64]. rewrite !lookup_insert_ne, Hw by lia. cbn -[Z.add Z.sub u64].
  eexists. split; [done|]. cbn -[Z.add Z.sub u64]. split_and!.
  - eexists. rewrite lookup_insert_eq. split; [done|]. apply s64_u64.
  - by rewrite lookup_insert_ne, lookup_insert_eq by lia.
  - intros k Hk. cbn -[Z.add Z.sub u64]. by rewrite !lookup_insert_ne by lia.
Qed.

(** The operations on two boxed integers, and their meaning on integers. *)
Inductive int_op : Type := OpAdd | OpSub | OpMul | OpDiv | OpMod | OpAnd | OpOr | OpXor.

Definition op_value (op : int_op) (x y : Z) : Z :=
  match op with
  | OpAdd => x + y | OpSub => x - y | OpMul => x * y | OpDiv => Z.quot x y | OpMod => Z.rem x y
  | OpAnd => Z.land x y | OpOr => Z.lor x y | OpXor => Z.lxor x y
  end.

Definition divides (op : int_op) : bool := match op with OpDiv | OpMod => true | _ => false end.

Definition int32_prim `{Runtime} `{IntTables} (op : int_op) : Z → Z → CM Z :=
  match op with
  | OpAdd => caml_int32_add_r | OpSub => caml_int32_sub_r | OpMul => caml_int32_mul_r
  | OpDiv => caml_int32_div_r | OpMod => caml_int32_mod_r
  | OpAnd => caml_int32_and_r | OpOr => caml_int32_or_r | OpXor => caml_int32_xor_r
  end.

Definition int64_prim `{Runtime} `{IntTables} (op : int_op) : Z → Z → CM Z :=
  match op with
  | OpAdd => caml_int64_add_r | OpSub => caml_int64_sub_r | OpMul => caml_int64_mul_r
  | OpDiv => caml_int64_div_r | OpMod => caml_int64_mod_r
  | OpAnd => caml_int64_and_r | OpOr => caml_int64_or_r | OpXor => caml_int64_xor_r
  end.

(** The operations on int32 values return an int32 holding the result
    modulo 2^32, division rounding towards zero; the quotient of the least
    integer by -1 wraps.  Dividing by zero raises [Division_by_zero] and
    nothing else.  At most the new block changes. *)
Theorem int32_arith_correct `{Runtime} `{IntTables} op c v1 v2 i1 i2 blk :
  is_int32 (words c) v1 i1 → is_int32 (words c) v2 i2 → room c 2 blk →
  if divides op && (i2 =? 0) then int32_prim op v1 v2 c = caml_raise_zero_divide_r c
  else ∃ c' r, int32_prim op v1 v2 c = inr (c', r) ∧ is_int32 (words c') r (s32 (op_value op i1 i2)) ∧ only_block c c' blk.
Proof.
  intros H1 H2 Hr. pose proof (Int32_val_eq _ _ _ H1) as E1. pose proof (Int32_val_eq _ _ _ H2) as E2.
  assert (∀ x, s32 x = s32 (op_value op i1 i2) →
    ∃ c' r, caml_copy_int32_r x c = inr (c', r) ∧ is_int32 (words c') r (s32 (op_value op i1 i2)) ∧ only_block c c' blk) as Hcopy.
  { intros x <-. destruct (copy_int32_eq x c blk Hr) as (c' & Ec & Hi & _ & Ho). by exists c', blk. }
  destruct op; cbn [divides andb int32_prim op_value] in *;
    unfold caml_int32_add_r, caml_int32_sub_r, caml_int32_mul_r, caml_int32_div_r, caml_int32_mod_r, caml_int32_and_r, caml_int32_or_r, caml_int32_xor_r;
    rewrite (mbnd_eq _ _ _ _ _ E1), (mbnd_eq _ _ _ _ _ E2); try (apply Hcopy; by rewrite ?s32_s32).
  - destruct (i2 =? 0); [done|]. destruct ((i1 =? s32 (Z.shiftl 1 31)) && (i2 =? -1)) eqn:Emin; [|by apply Hcopy].
    apply andb_true_iff in Emin as [E3%Z.eqb_eq E4%Z.eqb_eq]. exists c, v1. split_and!; [done| |done]. by subst i1 i2.
  - destruct (i2 =? 0); [done|]. destruct ((i1 =? s32 (Z.shiftl 1 31)) && (i2 =? -1)) eqn:Emin; [|by apply Hcopy].
    apply andb_true_iff in Emin as [E3%Z.eqb_eq E4%Z.eqb_eq]. apply Hcopy. by subst i1 i2.
Qed.

(** The operations on int64 values return an int64 holding the result
    modulo 2^64, division rounding towards zero; the quotient of the least
    integer by -1 wraps.  Dividing by zero raises [Division_by_zero] and
    nothing else.  At most the new block changes. *)
Theorem int64_arith_correct `{Runtime} `{IntTables} op c v1 v2 i1 i2 blk :
  is_int64 (words c) v1 i1 → is_int64 (words c) v2 i2 → room c 2 blk →
  if divides op && (i2 =? 0) then int64_prim op v1 v2 c = caml_raise_zero_divide_r c
  else ∃ c' r, int64_prim op v1 v2 c = inr (c', r) ∧ is_int64 (words c') r (s64 (op_value op i1 i2)) ∧ only_block c c' blk.
Proof.
  intros H1 H2 Hr. pose proof (Int64_val_eq _ _ _ H1) as E1. pose proof (Int64_val_eq _ _ _ H2) as E2.
  assert (∀ x, s64 x = s64 (op_value op i1 i2) →
    ∃ c' r, caml_copy_int64_r x c = inr (c', r) ∧ is_int64 (words c') r (s64 (op_value op i1 i2)) ∧ only_block c c' blk) as Hcopy.
  { intros x <-. destruct (copy_int64_eq x c blk Hr) as (c' & Ec & Hi & _ & Ho). by exists c', blk. }
  destruct op; cbn [divides andb int64_prim op_value] in *;
    unfold caml_int64_add_r, caml_int64_sub_r, caml_int64_mul_r, caml_int64_div_r, caml_int64_mod_r, caml_int64_and_r, caml_int64_or_r, caml_int64_xor_r;
    rewrite (mbnd_eq _ _ _ _ _ E1), (mbnd_eq _ _ _ _ _ E2);
    unfold I64_add, I64_sub, I64_mul, I64_and, I64_or, I64_xor; try (apply Hcopy; by rewrite ?s64_s64).
  - unfold I64_is_zero. destruct (i2 =? 0); [done|]. destruct (I64_is_min_int i1 && I64_is_minus_one i2) eqn:Emin.
    + apply andb_true_iff in Emin as [E3%Z.eqb_eq E4%Z.eqb_eq]. exists c, v1. split_and!; [done| |done]. by subst i1 i2.
    + rewrite (mbnd_eq _ _ _ _ _ E1). by apply Hcopy.
  - unfold I64_is_zero. destruct (i2 =? 0); [done|]. destruct (I64_is_min_int i1 && I64_is_minus_one i2) eqn:Emin.
    + apply andb_true_iff in Emin as [E3%Z.eqb_eq E4%Z.eqb_eq]. apply Hcopy. by subst i1 i2.
    + rewrite (mbnd_eq _ _ _ _ _ E1). by apply Hcopy.
Qed.

(** ** Witnesses *)

Definition ex_tables : IntTables := {| int32_table := 900; int64_table := 904; nativeint_table := 908 |}.

(** The string "-0b10", two boxed integers and room for one. *)
Definition ex_ints : context :=
  ex_context (list_to_map
    [(4000, Make_header 1 String_tag Caml_white); (4008, 45 + 48 * 256 + 98 * 2 ^ 16 + 49 * 2 ^ 24 + 48 * 2 ^ 32 + 2 * 2 ^ 56);
     (4032, -2 ^ 63 mod 2 ^ 64); (4048, 2 ^ 64 - 1); (7976, 0); (7984, 0); (7992, 0)]) ∅.

Lemma ex_ints_string : is_string (words ex_ints) 4008 [45; 48; 98; 49; 48].
Proof.
  split; [reflexivity|exists (Make_header 1 String_tag Caml_white); split; vm_compute; reflexivity|vm_compute; reflexivity|
    ex_bytes|repeat constructor; lia].
Qed.

Lemma parse_intnat_witness : @parse_intnat_r ex_runtime 5 4008 63 ex_ints = inr (ex_ints, s64 (-2)).
Proof. exact (@parse_intnat_correct ex_runtime ex_ints 4008 _ 5 63 ex_ints_string ltac:(cbn; lia) ltac:(lia)). Defined.

Lemma ex_ints_room : room ex_ints 2 7984.
Proof. split; [reflexivity|vm_compute; congruence|ex_mapped|reflexivity]. Qed.

Lemma ex_int32 : is_int32 (words ex_ints) 4024 0 ∧ is_int32 (words ex_ints) 4040 (-1).
Proof. split; [exists (2 ^ 63)|exists (2 ^ 64 - 1)]; split; vm_compute; reflexivity. Qed.
Lemma ex_int64 : is_int64 (words ex_ints) 4024 (- 2 ^ 63) ∧ is_int64 (words ex_ints) 4040 (-1).
Proof. split; [exists (2 ^ 63)|exists (2 ^ 64 - 1)]; split; vm_compute; reflexivity. Qed.

Lemma int32_arith_witness :
  ∃ c' r, @int32_prim ex_runtime ex_tables OpAdd 4024 4040 ex_ints = inr (c', r) ∧
    is_int32 (words c') r (s32 (op_value OpAdd 0 (-1))) ∧ only_block ex_ints c' 7984.
Proof.
  exact (@int32_arith_correct ex_runtime ex_tables OpAdd ex_ints 4024 4040 0 (-1) 7984 (proj1 ex_int32) (proj2 ex_int32) ex_ints_room).
Defined.

Lemma int64_arith_witness :
  ∃ c' r, @int64_prim ex_runtime ex_tables OpDiv 4024 4040 ex_ints = inr (c', r) ∧
    is_int64 (words c') r (s64 (op_value OpDiv (- 2 ^ 63) (-1))) ∧ only_block ex_ints c' 7984.
Proof.
  exact (@int64_arith_correct ex_runtime ex_tables OpDiv ex_ints 4024 4040 (- 2 ^ 63) (-1) 7984 (proj1 ex_int64) (proj2 ex_int64) ex_ints_room).
Defined.

End Ints.
