(* ===== verification/Stacks.v ===== *)
(** The bytecode stack (byterun/stacks.c): creation, growth, limits.

    The stack grows downwards from [caml_stack_high]; trap frames (exception
    handlers) are linked by absolute addresses from [caml_trapsp] up to
    [caml_stack_high], so growing the stack relocates the links. *)

From S2P Require Import Prelude Mlvalues Context.
Import Context.

Module Stacks.

(** config.h, in bytes *)
Definition Stack_size : Z := 4096 * 8.
Definition Stack_threshold : Z := 256 * 8.

(** slots of a trap frame (stacks.h) *)
Definition Trap_pc (tp : Z) : Z := tp.
Definition Trap_link (tp : Z) : Z := tp + 8.

Fixpoint load_words (a : Z) (n : nat) : CM (list Z) :=
  match n with
  | O => mreturn []
  | S n => let* v := ld a in let* l := load_words (a + 8) n in mreturn (v :: l)
  end.

Fixpoint store_words (a : Z) (l : list Z) : CM unit :=
  match l with
  | [] => mreturn tt
  | v :: l => st a v ;;; store_words (a + 8) l
  end.

(** [memmove] of [n] words *)
Definition memmove_words (dst src : Z) (n : nat) : CM unit :=
  let* l := load_words src n in store_words dst l.

(** difference of two [value *] pointers, converted to [asize_t] *)
Definition words_between (p q : Z) : Z := u64 ((q - p) / 8).

Section Operations.
Context `{Runtime}.

Definition caml_init_stack_r (initial_max_size : Z) : CM unit :=
  let* low := caml_stat_alloc Stack_size in
  mmodify (set_caml_stack_low low) ;;;
  mmodify (set_caml_stack_high (low + 8 * (Stack_size / 8))) ;;;
  mmodify (set_caml_stack_threshold (low + 8 * (Stack_threshold / 8))) ;;;
  mmodify (λ c, set_caml_extern_sp (caml_stack_high c) c) ;;;
  mmodify (λ c, set_caml_trapsp (caml_stack_high c) c) ;;;
  mmodify (λ c, set_caml_trap_barrier (caml_stack_high c + 8) c) ;;;
  mmodify (set_caml_max_stack_size initial_max_size).

(** [do { if (size >= caml_max_stack_size) raise; size *= 2; }
     while (size < stack_high - extern_sp + required_space)]: a doubling of a
    positive 64-bit size wraps after at most 64 rounds. *)
Definition grow_fuel : nat := 65.

Fixpoint grow_size (fuel : nat) (size needed : Z) : CM Z :=
  match fuel with
  | O => mfail (CFault OutOfFuel)
  | S fuel =>
      let* c := mget in
      (if caml_max_stack_size c <=? size then caml_raise_stack_overflow_r else mreturn tt) ;;;
      let size := u64 (size * 2) in
      if size <? needed then grow_size fuel size needed else mreturn size
  end.

(** [for (p = caml_trapsp; p < new_high; p = Trap_link(p))
       Trap_link(p) = shift(Trap_link(p));] *)
Definition relocate_traps (fuel : positive) (delta new_high p : Z) : CM Z :=
  while_m (λ p, mreturn (p <? new_high))
    (λ p, let* l := ld (Trap_link p) in
          st (Trap_link p) (l + delta) ;;;
          ld (Trap_link p))
    fuel (CFault OutOfFuel) p.

Definition caml_realloc_stack_r (required_space : Z) : CM unit :=
  let* c := mget in
  let* size := grow_size grow_fuel
    (words_between (caml_stack_low c) (caml_stack_high c))
    (u64 (words_between (caml_extern_sp c) (caml_stack_high c) + required_space)) in
  let* new_low := caml_stat_alloc (u64 (size * 8)) in
  let new_high := new_low + 8 * size in
  let shift ptr := new_high - (caml_stack_high c - ptr) in
  let new_sp := shift (caml_extern_sp c) in
  memmove_words new_sp (caml_extern_sp c)
    (Z.to_nat (words_between (caml_extern_sp c) (caml_stack_high c))) ;;;
  caml_stat_free (caml_stack_low c) ;;;
  mmodify (set_caml_trapsp (shift (caml_trapsp c))) ;;;
  mmodify (set_caml_trap_barrier (shift (caml_trap_barrier c))) ;;;
  relocate_traps (Z.to_pos (size + 1)) (new_high - caml_stack_high c) new_high
    (shift (caml_trapsp c)) ;;;
  mmodify (set_caml_stack_low new_low) ;;;
  mmodify (set_caml_stack_high new_high) ;;;
  mmodify (set_caml_stack_threshold (new_low + 8 * (Stack_threshold / 8))) ;;;
  mmodify (set_caml_extern_sp new_sp).

Definition caml_ensure_stack_capacity_r (required_space : Z) : CM Z :=
  let req := u64 (Long_val required_space) in
  let* c := mget in
  (if caml_extern_sp c - 8 * req <? caml_stack_low c
   then caml_realloc_stack_r req else mreturn tt) ;;;
  mreturn Val_unit.

Definition caml_change_max_stack_size_r (new_max_size : Z) : CM unit :=
  let* c := mget in
  let size := u64 (words_between (caml_extern_sp c) (caml_stack_high c) + Stack_threshold / 8) in
  let new_max_size := if new_max_size <? size then size else new_max_size in
  mmodify (set_caml_max_stack_size new_max_size).

(** [hook] is the value returned by [caml_stack_usage_hook], when set. *)
Definition caml_stack_usage_r (hook : option Z) : CM Z :=
  let* c := mget in
  let sz := words_between (caml_extern_sp c) (caml_stack_high c) in
  mreturn (match hook with Some n => u64 (sz + n) | None => sz end).
End Operations.

(** ** Growth keeps the stack *)

Lemma set_words_self c : set_words (words c) c = c.
Proof. by destruct c. Qed.

Lemma load_words_eq a vs c : seg (words c) a vs → load_words a (length vs) c = inr (c, vs).
Proof.
  revert a. induction vs as [|v vs IH]; intros a Hs; [done|]. destruct Hs as [Hv Hs].
  cbn [length load_words]. unfold mbnd, ld. rewrite Hv. by rewrite IH.
Qed.

Lemma store_words_eq a l c :
  mapped (words c) a (length l) →
  store_words a l c = inr (set_words (stores (words c) a l) c, tt).
Proof.
  revert a c. induction l as [|v l IH]; intros a c Hm;
    [cbn [stores]; by rewrite set_words_self|].
  cbn [store_words stores length] in *. unfold mbnd, st.
  destruct (Hm O ltac:(lia)) as [w Hw]. rewrite padd_0 in Hw. rewrite Hw, IH; [done|].
  cbn. apply mapped_insert. intros i Hi. rewrite <- padd_S. apply Hm. lia.
Qed.

(** The doubling loop ends with a large enough size, unless the limit is
    reached. *)
Lemma grow_size_ok `{Runtime} fuel size needed c :
  0 < size < caml_max_stack_size c → caml_max_stack_size c <= 2 ^ 60 →
  needed <= caml_max_stack_size c → needed <= size * 2 ^ Z.of_nat fuel → (0 < fuel)%nat →
  ∃ r, grow_size fuel size needed c = inr (c, r) ∧
       needed <= r ∧ 2 * size <= r < 2 * caml_max_stack_size c.
Proof.
  revert size. induction fuel as [|fuel IH]; intros size Hs HM Hn Hf Hpos; [lia|].
  cbn [grow_size]. unfold mbnd at 1, mget. rewrite (proj2 (Z.leb_gt _ _)) by lia.
  unfold mbnd, mreturn. rewrite (u64_small (size * 2)) by lia_w.
  destruct (Z.ltb_spec (size * 2) needed) as [Hlt|Hge]; [|exists (size * 2); split; [done|lia]].
  rewrite Nat2Z.inj_succ, Z.pow_succ_r in Hf by lia.
  destruct (IH (size * 2)) as (r & E & Hr); try lia.
  - destruct fuel; [change (2 ^ Z.of_nat 0) with 1 in Hf; lia|lia].
  - exists r. split; [exact E|lia].
Qed.

(** The chain of trap frames from [p] up to the top of the stack, as the
    distances (in words) of the frames from the top; frames are four words
    long and do not overlap.  [delta] is what is still to be added to the
    links. *)
Fixpoint traps (delta : Z) (w : gmap Z Z) (high p : Z) (offs : list nat) : Prop :=
  match offs with
  | [] => p = high
  | k :: offs =>
      p = high - 8 * Z.of_nat k ∧
      ∃ q, w !! Trap_link p = Some (q - delta) ∧ p + 32 <= q ∧ traps delta w high q offs
  end.

Lemma traps_above delta w high p offs :
  traps delta w high p offs → p <= high ∧ ∀ k, k ∈ offs → p <= high - 8 * Z.of_nat k.
Proof.
  revert p. induction offs as [|k offs IH]; intros p Ht.
  - cbn in Ht. split; [lia|]. intros k Hk. by apply not_elem_of_nil in Hk.
  - destruct Ht as (-> & q & _ & Hle & Ht). destruct (IH q Ht) as [H1 H2]. split; [lia|].
    intros j [->|Hj]%elem_of_cons; [lia|]. specialize (H2 j Hj). lia.
Qed.

Lemma traps_ext delta w w' high p offs :
  (∀ a, p <= a < high → w' !! a = w !! a) → traps delta w high p offs → traps delta w' high p offs.
Proof.
  revert p. induction offs as [|k offs IH]; intros p Ha Ht; [done|].
  destruct Ht as (Hp & q & Hq & Hle & Ht). split; [done|]. exists q.
  destruct (traps_above _ _ _ _ _ Ht) as [Hqh _]. split_and!; [|done|].
  - rewrite Ha by (unfold Trap_link; lia). done.
  - apply IH; [|done]. intros a Hra. apply Ha. lia.
Qed.

(** Relocation walks the chain once and rewrites exactly its links. *)
Lemma relocate_spec delta new_high offs n k p c :
  (length offs < n)%nat → traps delta (words c) new_high p offs →
  ∃ w', loop_nat (λ p, mreturn (p <? new_high))
      (λ p, let* l := ld (Trap_link p) in st (Trap_link p) (l + delta) ;;; ld (Trap_link p)) n k p c
      = inr (set_words w' c, new_high) ∧
    traps 0 w' new_high p offs ∧
    (∀ a, (∀ k, k ∈ offs → a ≠ Trap_link (new_high - 8 * Z.of_nat k)) → w' !! a = words c !! a) ∧
    ∀ a, is_Some (words c !! a) → is_Some (w' !! a).
Proof.
  revert n p c. induction offs as [|j offs IH]; intros n p c Hn Ht; (destruct n as [|n]; [cbn in Hn; lia|]).
  { cbn in Ht. subst p. exists (words c). cbn [loop_nat]. unfold loop_once, mbnd, mreturn.
    rewrite Z.ltb_irrefl, set_words_self. done. }
  destruct Ht as (Hp & q & Hq & Hle & Ht). destruct (traps_above _ _ _ _ _ Ht) as [Hqh Hab].
  set (c1 := set_words (<[Trap_link p := q]> (words c)) c).
  destruct (IH n q c1) as (w' & E & Ht' & Hf & Hm); [cbn in Hn; lia| |].
  { eapply traps_ext; [|exact Ht]. intros a Ha. cbn. apply lookup_insert_ne. unfold Trap_link. lia. }
  exists w'. split_and!.
  - cbn [loop_nat]. unfold loop_once. unfold mbnd at 1, mreturn at 1.
    rewrite (proj2 (Z.ltb_lt _ _)) by lia. unfold mbnd at 1. unfold mbnd at 1, ld at 1. rewrite Hq.
    unfold mbnd, st. rewrite Hq. unfold ld. cbn. rewrite lookup_insert_eq.
    replace (q - delta + delta) with q by lia. exact E.
  - split; [done|]. exists q. split_and!; [|done|done]. rewrite Z.sub_0_r, Hf.
    + cbn. apply lookup_insert_eq.
    + intros k' Hk'. specialize (Hab k' Hk'). unfold Trap_link. lia.
  - intros a Ha. rewrite Hf by (intros k' Hk'; apply Ha; by right). cbn.
    apply lookup_insert_ne. rewrite Hp. intros E'. apply (Ha j); [by left|done].
  - intros a Ha. apply Hm. cbn. rewrite lookup_insert_is_Some'. by right.
Qed.

Lemma traps_length delta w high p offs :
  traps delta w high p offs → p + 32 * Z.of_nat (length offs) <= high.
Proof.
  revert p. induction offs as [|k offs IH]; intros p Ht; [cbn in *; lia|].
  destruct Ht as (_ & q & _ & Hle & Ht). specialize (IH q Ht). cbn [length]. lia.
Qed.

(** The same chain in a copy of the stack, displaced by [delta]. *)
Lemma traps_shift w w' high p offs delta :
  (∀ a, p <= a < high → (8 | high - a) → w' !! (a + delta) = w !! a) →
  traps 0 w high p offs → traps delta w' (high + delta) (p + delta) offs.
Proof.
  revert p. induction offs as [|k offs IH]; intros p Ha Ht; [cbn in *; lia|].
  destruct Ht as (-> & q & Hq & Hle & Ht). destruct (traps_above _ _ _ _ _ Ht) as [Hqh _].
  split; [lia|]. exists (q + delta). split_and!; [|lia|].
  - unfold Trap_link in *.
    replace (high - 8 * Z.of_nat k + delta + 8) with (high - 8 * Z.of_nat k + 8 + delta) by lia.
    rewrite Ha; [rewrite Hq; f_equal; lia|lia|]. exists (Z.of_nat k - 1). lia.
  - apply IH; [|done]. intros a Hra. apply Ha. lia.
Qed.

(** What [malloc] and [free] do to the memory the stack code sees. *)
Definition allocates (c c1 : context) (p : Z) (n : nat) : Prop :=
  c1 = set_words (words c1) c ∧ mapped (words c1) p n ∧
  (∀ a, a < p ∨ padd p n <= a → words c1 !! a = words c !! a) ∧
  (padd p n <= caml_stack_low c ∨ caml_stack_high c <= p).

Definition frees (c c1 : context) (lo hi : Z) : Prop :=
  c1 = set_words (words c1) c ∧ ∀ a, a < lo ∨ hi <= a → words c1 !! a = words c !! a.

(** [vs'] is [vs] but for the links of the trap frames, given by their
    distances from the end. *)
Definition same_but_links (offs : list nat) (vs vs' : list Z) : Prop :=
  length vs' = length vs ∧
  ∀ i, (∀ k, k ∈ offs → (i + k ≠ length vs + 1)%nat) → vs' !! i = vs !! i.

(** Reading back [n] words. *)
Lemma seg_exists w p n : mapped w p n → ∃ vs, seg w p vs ∧ length vs = n.
Proof.
  revert p. induction n as [|n IH]; intros p Hm; [by exists []|].
  destruct (Hm O ltac:(lia)) as [v Hv]. rewrite padd_0 in Hv.
  destruct (IH (p + 8)) as (vs & Hs & Hl).
  { intros i Hi. rewrite <- padd_S. apply Hm. lia. }
  exists (v :: vs). cbn. auto.
Qed.

Lemma links_only w w' p vs offs high :
  seg w p vs → high = padd p (length vs) →
  (∀ a, (∀ k, k ∈ offs → a ≠ Trap_link (high - 8 * Z.of_nat k)) → w' !! a = w !! a) →
  (∀ a, is_Some (w !! a) → is_Some (w' !! a)) →
  ∃ vs', seg w' p vs' ∧ same_but_links offs vs vs'.
Proof.
  intros Hs Hh Hf Hm. destruct (seg_exists w' p (length vs)) as (vs' & Hs' & Hl).
  { intros i Hi. destruct (lookup_lt_is_Some_2 vs i Hi) as [v Hv].
    apply Hm. eexists. by eapply seg_lookup. }
  exists vs'. split; [done|]. split; [done|]. intros i Hi.
  destruct (decide (i < length vs)%nat) as [Hlt|]; [|rewrite !lookup_ge_None_2 by lia; done].
  destruct (lookup_lt_is_Some_2 vs i Hlt) as [v Hv].
  destruct (lookup_lt_is_Some_2 vs' i) as [v' Hv']; [lia|].
  pose proof (seg_lookup _ _ _ _ _ Hs Hv) as Hw. pose proof (seg_lookup _ _ _ _ _ Hs' Hv') as Hw'.
  rewrite Hf in Hw'; [congruence|]. intros k Hk. specialize (Hi k Hk).
  rewrite Hh. unfold Trap_link, padd. lia.
Qed.

Lemma words_between_eq p n : Z.of_nat n < 2 ^ 60 → words_between p (padd p n) = Z.of_nat n.
Proof.
  intros Hn. unfold words_between, padd. replace (p + 8 * Z.of_nat n - p) with (Z.of_nat n * 8) by lia.
  rewrite Z.div_mul by lia. apply u64_small. lia_w.
Qed.

(** Copy, free and relocation, once the new stack is allocated. *)
Lemma move_stack `{Runtime} vs offs c c1 new_low size :
  let high := caml_stack_high c in let ext := caml_extern_sp c in
  seg (words c) ext vs → high = padd ext (length vs) → caml_stack_low c <= ext →
  traps 0 (words c) high (caml_trapsp c) offs → ext <= caml_trapsp c →
  Z.of_nat (length vs) <= Z.of_nat size →
  allocates c c1 new_low size →
  (∀ c, ∃ c', caml_stat_free (caml_stack_low c) c = inr (c', tt) ∧
              frees c c' (caml_stack_low c) (caml_stack_high c)) →
  let new_high := padd new_low size in
  let delta := new_high - high in
  ∃ w' vs',
    (memmove_words (ext + delta) ext (length vs) ;;;
     caml_stat_free (caml_stack_low c) ;;;
     mmodify (set_caml_trapsp (caml_trapsp c + delta)) ;;;
     mmodify (set_caml_trap_barrier (caml_trap_barrier c + delta)) ;;;
     relocate_traps (Z.to_pos (Z.of_nat size + 1)) delta new_high (caml_trapsp c + delta)) c1
    = inr (set_words w' (set_caml_trap_barrier (caml_trap_barrier c + delta)
             (set_caml_trapsp (caml_trapsp c + delta) c)), new_high) ∧
    seg w' (ext + delta) vs' ∧ same_but_links offs vs vs' ∧
    traps 0 w' new_high (caml_trapsp c + delta) offs.
Proof.
  intros high ext Hs Hh Hlow Ht Hext Hsz (Ec1 & Hmap & Hsame & Hdisj) Hfree new_high delta.
  assert (ext + delta = padd new_low (size - length vs)) as Edst by (unfold delta, new_high, padd in *; lia).
  assert (seg (words c1) ext vs) as Hs1.
  { eapply seg_ext; [|exact Hs]. intros a Ha. apply Hsame. rewrite <- Hh in Ha. fold high in Hdisj. lia. }
  unfold memmove_words. unfold mbnd at 1. unfold mbnd at 1. rewrite (load_words_eq _ _ _ Hs1).
  rewrite store_words_eq.
  2:{ rewrite Edst. eapply mapped_sub; [exact Hmap|unfold padd; lia| |unfold padd; lia].
      exists (Z.of_nat (size - length vs)). unfold padd. lia. }
  set (c2 := set_words _ c1). destruct (Hfree c2) as (c3 & Ef & Ec3 & Hsame3).
  unfold mbnd at 1. assert (caml_stack_low c2 = caml_stack_low c) as El
    by (unfold c2; by rewrite Ec1).
  assert (caml_stack_high c2 = high) as Ehi by (unfold c2; by rewrite Ec1).
  rewrite El in Ef, Hsame3. rewrite Ehi in Hsame3. rewrite Ef.
  assert (∀ a, new_low <= a < new_high → words c3 !! a = words c2 !! a) as H32.
  { intros a Ha. apply Hsame3. fold high in Hdisj. unfold new_high, padd in *. lia. }
  assert (seg (words c3) (ext + delta) vs) as Hs3.
  { eapply seg_ext; [|apply (seg_stores (words c1) (ext + delta) vs)]. intros a Ha. rewrite H32; [done|].
    unfold new_high, padd in *. lia. }
  set (c4 := set_caml_trap_barrier (caml_trap_barrier c + delta)
               (set_caml_trapsp (caml_trapsp c + delta) c3)).
  assert (traps delta (words c4) new_high (caml_trapsp c + delta) offs) as Ht4.
  { replace new_high with (high + delta) by (unfold delta; lia).
    eapply traps_shift; [|exact Ht]. intros a Ha [z Hz]. cbn.
    set (j := (length vs - Z.to_nat z)%nat).
    destruct (lookup_lt_is_Some_2 vs j) as [v Hv]; [unfold j, padd in *; lia|].
    pose proof (seg_lookup _ _ _ _ _ Hs Hv) as H1. pose proof (seg_lookup _ _ _ _ _ Hs3 Hv) as H2.
    replace (padd ext j) with a in H1 by (unfold j, padd in *; lia).
    replace (padd (ext + delta) j) with (a + delta) in H2 by (unfold j, padd in *; lia). congruence. }
  destruct (relocate_spec delta new_high offs (Pos.to_nat (Z.to_pos (Z.of_nat size + 1)))
    (λ _, mfail (CFault OutOfFuel)) (caml_trapsp c + delta) c4) as (w' & E & Ht' & Hf & Hm).
  { pose proof (traps_length _ _ _ _ _ Ht). unfold padd in *. lia. }
  { exact Ht4. }
  destruct (links_only (words c3) w' (ext + delta) vs offs new_high) as (vs' & Hs' & Hsb); try done.
  { unfold delta, padd in *. lia. }
  exists w', vs'. split_and!; try done.
  unfold mbnd, mmodify. unfold relocate_traps, while_m. rewrite loop_upto_nat. fold c4. rewrite E.
  unfold c4. rewrite Ec3. unfold c2. rewrite Ec1. by destruct c.
Qed.

(** C26.  Growing the stack.  When the limit allows it, [caml_realloc_stack_r]
    moves the stack to a larger area with at least the required space below
    the stack pointer; its words are unchanged except for the links of the
    trap frames, which are relocated so that the chain of handlers designates
    the same frames; trap pointer and barrier move along. *)
Theorem realloc_stack_correct `{Runtime} vs offs (old_size : nat) required c :
  let high := caml_stack_high c in let ext := caml_extern_sp c in
  seg (words c) ext vs → high = padd ext (length vs) →
  high = padd (caml_stack_low c) old_size → (length vs <= old_size)%nat →
  traps 0 (words c) high (caml_trapsp c) offs → ext <= caml_trapsp c →
  0 <= required → 0 < Z.of_nat old_size < caml_max_stack_size c → caml_max_stack_size c <= 2 ^ 59 →
  Z.of_nat (length vs) + required <= caml_max_stack_size c →
  (∀ n : nat, ∃ c1 p, caml_stat_alloc (Z.of_nat n * 8) c = inr (c1, p) ∧ allocates c c1 p n) →
  (∀ c, ∃ c', caml_stat_free (caml_stack_low c) c = inr (c', tt) ∧
              frees c c' (caml_stack_low c) (caml_stack_high c)) →
  ∃ c' vs' size, caml_realloc_stack_r required c = inr (c', tt) ∧
    caml_stack_high c' = padd (caml_stack_low c') size ∧ (2 * old_size <= size)%nat ∧
    caml_stack_high c' - caml_extern_sp c' = high - ext ∧
    caml_stack_low c' + 8 * required <= caml_extern_sp c' ∧
    caml_stack_threshold c' = caml_stack_low c' + Stack_threshold ∧
    seg (words c') (caml_extern_sp c') vs' ∧ same_but_links offs vs vs' ∧
    traps 0 (words c') (caml_stack_high c') (caml_trapsp c') offs ∧
    caml_stack_high c' - caml_trapsp c' = high - caml_trapsp c ∧
    caml_stack_high c' - caml_trap_barrier c' = high - caml_trap_barrier c.
Proof.
  intros high ext Hs Hh Hlow Hle Ht Hext Hreq Hsz HM Hneed Hmalloc Hfree.
  destruct (grow_size_ok grow_fuel (Z.of_nat old_size) (Z.of_nat (length vs) + required) c)
    as (r & Hg & Hr1 & Hr2); try lia.
  { unfold grow_fuel. change (2 ^ Z.of_nat 65) with 36893488147419103232. lia. }
  { unfold grow_fuel. lia. }
  set (size := Z.to_nat r). replace r with (Z.of_nat size) in * by (unfold size; lia).
  clearbody size. clear r. destruct (Hmalloc size) as (c1 & new_low & Ha & Hal).
  destruct (move_stack vs offs c c1 new_low size) as (w' & vs' & E & Hs' & Hsb & Ht'); try done.
  { unfold padd in *. fold high ext. lia. }
  { lia. }
  set (delta := padd new_low size - high) in *. fold high ext in E, Hs', Ht'.
  set (c4 := set_words w' _) in E.
  set (c5 := set_caml_extern_sp (ext + delta) (set_caml_stack_threshold
    (new_low + 8 * (Stack_threshold / 8)) (set_caml_stack_high (padd new_low size)
      (set_caml_stack_low new_low c4)))).
  exists c5, vs', size. split; [|unfold c5, c4; cbn -[padd traps seg]; unfold delta, padd in *; split_and!; (done || lia)].
  unfold caml_realloc_stack_r. unfold mbnd at 1, mget. fold high ext.
  assert (words_between (caml_stack_low c) high = Z.of_nat old_size) as ->
    by (rewrite Hlow; apply words_between_eq; lia).
  assert (words_between ext high = Z.of_nat (length vs)) as ->
    by (rewrite Hh; apply words_between_eq; lia).
  rewrite (u64_small (Z.of_nat (length vs) + required)) by lia_w.
  unfold mbnd at 1. rewrite Hg. unfold mbnd at 1. rewrite (u64_small (Z.of_nat size * 8)) by lia_w.
  rewrite Ha. cbv zeta.
  replace (new_low + 8 * Z.of_nat size - (high - ext)) with (ext + delta) by (unfold delta, padd; lia).
  replace (new_low + 8 * Z.of_nat size - (high - caml_trapsp c))
    with (caml_trapsp c + delta) by (unfold delta, padd; lia).
  replace (new_low + 8 * Z.of_nat size - (high - caml_trap_barrier c))
    with (caml_trap_barrier c + delta) by (unfold delta, padd; lia).
  change (new_low + 8 * Z.of_nat size) with (padd new_low size). fold delta. rewrite Nat2Z.id.
  unfold mbnd at 1 in E. unfold mbnd at 1.
  destruct (memmove_words _ _ _ c1) as [|[c2 x2]]; [done|].
  unfold mbnd at 1 in E. unfold mbnd at 1.
  destruct (caml_stat_free _ c2) as [|[c3 x3]]; [done|].
  unfold mbnd at 1, mmodify in E. unfold mbnd at 1 in E. unfold mbnd at 1, mmodify. unfold mbnd at 1.
  rewrite (mbnd_eq _ _ _ _ _ E). reflexivity.
Qed.

(** ** A concrete run *)

(** 250 words of stack, five of them in use: a local and a trap frame. *)
Definition ex_stack : context :=
  set_caml_extern_sp 2960 (set_caml_trapsp 2968 (ex_context
    (stores ∅ 2960 [Val_long 7; 500; 3000; Val_unit; Val_long 0]) ∅)).

Lemma ex_malloc n c :
  caml_stack_high c <= 20000 →
  ∃ c1 p, @caml_stat_alloc ex_runtime (Z.of_nat n * 8) c = inr (c1, p) ∧ allocates c c1 p n.
Proof.
  intros Hh. cbn. unfold mbnd, mmodify, mreturn. rewrite Z.div_mul, Nat2Z.id by lia.
  eexists _, _. split; [reflexivity|].
  assert (length (replicate n 0) = n) as Hl by apply length_replicate.
  split_and!; cbn -[padd stores replicate].
  - by destruct c.
  - intros i Hi. exists 0. eapply (seg_lookup _ _ (replicate n 0)); [apply seg_stores|].
    by apply lookup_replicate_2.
  - intros a Ha. apply lookup_stores_ne. by rewrite Hl.
  - lia.
Qed.

Lemma realloc_stack_witness :
  ∃ c' size, @caml_realloc_stack_r ex_runtime 256 ex_stack = inr (c', tt) ∧
    caml_stack_high c' = padd (caml_stack_low c') size ∧ (500 <= size)%nat.
Proof.
  destruct (@realloc_stack_correct ex_runtime [Val_long 7; 500; 3000; Val_unit; Val_long 0] [4%nat] 250 256
    ex_stack) as (c' & vs' & size & E & H1 & H2 & _).
  - repeat split; vm_compute; reflexivity.
  - reflexivity.
  - reflexivity.
  - simpl; lia.
  - split; [reflexivity|]. exists 3000. split_and!; vm_compute; (reflexivity || congruence).
  - vm_compute; congruence.
  - lia.
  - vm_compute; split; reflexivity.
  - vm_compute; congruence.
  - vm_compute; congruence.
  - intros n. apply ex_malloc. vm_compute; congruence.
  - intros c. exists c. split; [reflexivity|]. split; [by destruct c|reflexivity].
  - exists c', size. split; [exact E|split; [exact H1|lia]].
Defined.

End Stacks.
