(* ===== verification/Array.v ===== *)
(** Operations on arrays (byterun/array.c).

    Arrays of floats hold the words of the floats; the other arrays hold
    values.  Functions that register their arguments as roots use the values
    the collector gives back. *)

From S2P Require Import Prelude Mlvalues Context Alloc Stacks.
Import Context Alloc Stacks.

Module Array.

Definition In_young : Z := 2.
Definition In_static_data : Z := 4.

(** "Array.make" and "Array.concat" *)
Definition Array_make : list Z := [65; 114; 114; 97; 121; 46; 109; 97; 107; 101].
Definition Array_concat : list Z := [65; 114; 114; 97; 121; 46; 99; 111; 110; 99; 97; 116].

Section Operations.
Context `{Runtime}.

Definition Is_in_value_area (c : context) (a : Z) : bool :=
  negb (Z.land (caml_page_table_lookup_r c a) (Z.lor In_heap (Z.lor In_young In_static_data)) =? 0).

Definition caml_array_length_r (array : Z) : CM Z :=
  let* tag := Tag_val array in
  let* sz := Wosize_val array in
  if tag =? Double_array_tag then mreturn (sz / Double_wosize) else mreturn sz.

Definition caml_is_double_array_r (array : Z) : CM bool :=
  let* tag := Tag_val array in mreturn (tag =? Double_array_tag).

(** [idx < 0 || idx >= size]; the second comparison is unsigned. *)
Definition out_of_bounds (idx size : Z) : bool := (idx <? 0) || (size <=? u64 idx).

Definition caml_array_get_addr_r (array index : Z) : CM Z :=
  let idx := Long_val index in
  let* sz := Wosize_val array in
  if out_of_bounds idx sz then caml_array_bound_error_r else
  ld (Field array idx).

(** A fresh block holding a float. *)
Definition alloc_double (d : Z) : CM Z :=
  let* (res, _) := caml_alloc_small_r Double_wosize Double_tag [] in
  st (Field res 0) d ;;;
  mreturn res.

Definition caml_array_get_float_r (array index : Z) : CM Z :=
  let idx := Long_val index in
  let* sz := Wosize_val array in
  if out_of_bounds idx (sz / Double_wosize) then caml_array_bound_error_r else
  let* d := ld (Field array idx) in
  alloc_double d.

Definition caml_array_get_r (array index : Z) : CM Z :=
  let* tag := Tag_val array in
  if tag =? Double_array_tag then caml_array_get_float_r array index
  else caml_array_get_addr_r array index.

Definition caml_array_set_addr_r (array index newval : Z) : CM Z :=
  let idx := Long_val index in
  let* sz := Wosize_val array in
  if out_of_bounds idx sz then caml_array_bound_error_r else
  Modify (Field array idx) newval ;;;
  mreturn Val_unit.

Definition caml_array_set_float_r (array index newval : Z) : CM Z :=
  let idx := Long_val index in
  let* sz := Wosize_val array in
  if out_of_bounds idx (sz / Double_wosize) then caml_array_bound_error_r else
  let* d := ld (Field newval 0) in
  st (Field array idx) d ;;;
  mreturn Val_unit.

Definition caml_array_set_r (array index newval : Z) : CM Z :=
  let* tag := Tag_val array in
  if tag =? Double_array_tag then caml_array_set_float_r array index newval
  else caml_array_set_addr_r array index newval.

Definition caml_array_unsafe_get_float_r (array index : Z) : CM Z :=
  let* d := ld (Field array (Long_val index)) in
  alloc_double d.

Definition caml_array_unsafe_get_r (array index : Z) : CM Z :=
  let* tag := Tag_val array in
  if tag =? Double_array_tag then caml_array_unsafe_get_float_r array index
  else ld (Field array (Long_val index)).

Definition caml_array_unsafe_set_addr_r (array index newval : Z) : CM Z :=
  let idx := Long_val index in
  Modify (Field array idx) newval ;;;
  mreturn Val_unit.

Definition caml_array_unsafe_set_float (array index newval : Z) : CM Z :=
  let* d := ld (Field newval 0) in
  st (Field array (Long_val index)) d ;;;
  mreturn Val_unit.

Definition caml_array_unsafe_set_r (array index newval : Z) : CM Z :=
  let* tag := Tag_val array in
  if tag =? Double_array_tag then caml_array_unsafe_set_float array index newval
  else caml_array_unsafe_set_addr_r array index newval.

(** [for (i = 0; i < size; i++) Field(res, i) = x;] *)
Definition set_fields (res size x : Z) : CM unit := for_up (Z.to_nat size) 0 (λ i, st (Field res i) x).

Definition caml_make_vect_r (len init : Z) : CM Z :=
  let size := u64 (Long_val len) in
  if size =? 0 then let* c := mget in mreturn (Atom c 0) else
  let* isfloat :=
    (let* c := mget in
     if Is_block init && Is_in_value_area c init
     then let* tag := Tag_val init in mreturn (tag =? Double_tag) else mreturn false) in
  if (isfloat : bool) then
    let* d := ld (Field init 0) in
    let wsize := u64 (size * Double_wosize) in
    if Max_wosize <? wsize then caml_invalid_argument_r Array_make else
    let* (res, _) := caml_alloc_r wsize Double_array_tag [len; init] in
    set_fields res size d ;;;
    mreturn res
  else
    if Max_wosize <? size then caml_invalid_argument_r Array_make else
    let* c := mget in
    if size <? Max_young_wosize then
      let* (res, roots) := caml_alloc_small_r size 0 [len; init] in
      match roots with
      | [_; init] => set_fields res size init ;;; mreturn res
      | _ => mfail (CFault Contract)
      end
    else if Is_block init && Is_young c init then
      let* roots := caml_minor_collection_r [len; init] in
      match roots with
      | [len; init] =>
          let* res := caml_alloc_shr_r size 0 in
          set_fields res size init ;;;
          let* (res, _) := check_urgent_gc res [len; init] in
          mreturn res
      | _ => mfail (CFault Contract)
      end
    else
      let* res := caml_alloc_shr_r size 0 in
      for_up (Z.to_nat size) 0 (λ i, caml_initialize_r (Field res i) init) ;;;
      let* (res, _) := check_urgent_gc res [len; init] in
      mreturn res.

Definition caml_make_array_r (init : Z) : CM Z :=
  let* size := Wosize_val init in
  if size =? 0 then mreturn init else
  let* v := ld (Field init 0) in
  let* c := mget in
  if Is_long v || negb (Is_in_value_area c v) then mreturn init else
  let* tag := Tag_val v in
  if negb (tag =? Double_tag) then mreturn init else
  let wsize := u64 (size * Double_wosize) in
  let* (res, roots) := caml_alloc_small_r wsize Double_array_tag [init; v] in
  match roots with
  | init :: _ =>
      for_up (Z.to_nat size) 0 (λ i,
        let* x := ld (Field init i) in
        let* d := ld (Field x 0) in
        st (Field res i) d) ;;;
      mreturn res
  | [] => mfail (CFault Contract)
  end.

(** ** Blitting *)

(** [for (...; count > 0; count--, src++, dst++) caml_modify_r (ctx, dst, *src);] *)
Fixpoint modify_up (count : nat) (dst src : Z) : CM unit :=
  match count with
  | O => mreturn tt
  | S count =>
      let* x := ld src in
      caml_modify_r dst x ;;;
      modify_up count (dst + 8) (src + 8)
  end.

(** The same with [src--, dst--]. *)
Fixpoint modify_down (count : nat) (dst src : Z) : CM unit :=
  match count with
  | O => mreturn tt
  | S count =>
      let* x := ld src in
      caml_modify_r dst x ;;;
      modify_down count (dst - 8) (src - 8)
  end.

Definition caml_array_blit_r (a1 ofs1 a2 ofs2 n : Z) : CM Z :=
  let* tag := Tag_val a2 in
  let o1 := Long_val ofs1 in
  let o2 := Long_val ofs2 in
  if tag =? Double_array_tag then
    memmove_words (Field a2 o2) (Field a1 o1) (Z.to_nat (u64 (Long_val n * 8) / 8)) ;;;
    mreturn Val_unit
  else
  let* c := mget in
  if Is_young c a2 then
    memmove_words (Field a2 o2) (Field a1 o1) (Z.to_nat (u64 (Long_val n * 8) / 8)) ;;;
    mreturn Val_unit
  else
  let count := Long_val n in
  (if (a1 =? a2) && (o1 <? o2)
   then modify_down (Z.to_nat count) (Field a2 (o2 + count - 1)) (Field a1 (o1 + count - 1))
   else modify_up (Z.to_nat count) (Field a2 o2) (Field a1 o1)) ;;;
  let* _ := caml_check_urgent_gc_r [Val_unit] in
  mreturn Val_unit.

(** ** Extraction and concatenation *)

(** An array with the offset and the length of the part taken from it. *)
Record part : Type := Part { part_array : Z; part_offset : Z; part_length : Z }.

(** The total size, and whether one of the arrays is an array of floats. *)
Fixpoint gather_size (parts : list part) (size : Z) (isfloat : bool) : CM (Z * bool) :=
  match parts with
  | [] => mreturn (size, isfloat)
  | p :: parts =>
      let* tag := Tag_val (part_array p) in
      gather_size parts (u64 (size + part_length p)) (if tag =? Double_array_tag then true else isfloat)
  end.

(** The arrays after they may have moved. *)
Fixpoint move_parts (parts : list part) (roots : list Z) : list part :=
  match parts, roots with
  | p :: parts, a :: roots => Part a (part_offset p) (part_length p) :: move_parts parts roots
  | _, _ => []
  end.

(** [memcpy] of the parts one after the other. *)
Fixpoint copy_parts (parts : list part) (res pos : Z) : CM unit :=
  match parts with
  | [] => mreturn tt
  | p :: parts =>
      memmove_words (Field res pos) (Field (part_array p) (part_offset p)) (Z.to_nat (part_length p)) ;;;
      copy_parts parts res (u64 (pos + part_length p))
  end.

(** Filling a block of the major heap with [caml_initialize_r], giving the
    collector a chance to run after each array. *)
Fixpoint initialize_parts (n : nat) (parts : list part) (res pos : Z) : CM Z :=
  match n, parts with
  | S n, p :: parts =>
      for_up (Z.to_nat (part_length p)) 0 (λ k,
        let* x := ld (Field (part_array p) (part_offset p + k)) in
        caml_initialize_r (Field res (pos + k)) x) ;;;
      let* (res, roots) := check_urgent_gc res (map part_array parts) in
      initialize_parts n (move_parts parts roots) res (u64 (pos + part_length p))
  | _, _ => mreturn res
  end.

Definition caml_array_gather_r (parts : list part) : CM Z :=
  let* (size, isfloat) := gather_size parts 0 false in
  if size =? 0 then let* c := mget in mreturn (Atom c 0)
  else if (isfloat : bool) then
    let wsize := u64 (size * Double_wosize) in
    if Max_wosize <? wsize then caml_invalid_argument_r Array_concat else
    let* (res, roots) := caml_alloc_r wsize Double_array_tag (map part_array parts) in
    copy_parts (move_parts parts roots) res 0 ;;;
    mreturn res
  else if Max_wosize <? size then caml_invalid_argument_r Array_concat
  else if size <? Max_young_wosize then
    let* (res, roots) := caml_alloc_small_r size 0 (map part_array parts) in
    copy_parts (move_parts parts roots) res 0 ;;;
    mreturn res
  else
    let* res := caml_alloc_shr_r size 0 in
    initialize_parts (length parts) parts res 0.

Definition caml_array_sub_r (a ofs len : Z) : CM Z :=
  caml_array_gather_r [Part a (Long_val ofs) (Long_val len)].

Definition caml_array_append_r (a1 a2 : Z) : CM Z :=
  let* n1 := caml_array_length_r a1 in
  let* n2 := caml_array_length_r a2 in
  caml_array_gather_r [Part a1 0 n1; Part a2 0 n2].

Definition STATIC_SIZE : Z := 16.

(** The loops over the list of arrays, for at most [fuel] cells. *)
Fixpoint list_parts (fuel : nat) (l : Z) : CM (list part) :=
  match fuel with
  | O => mfail (CFault OutOfFuel)
  | S fuel =>
      if l =? Val_int 0 then mreturn [] else
      let* a := ld (Field l 0) in
      let* n := caml_array_length_r a in
      let* tl := ld (Field l 1) in
      let* parts := list_parts fuel tl in
      mreturn (Part a 0 n :: parts)
  end.

Fixpoint list_length (fuel : nat) (l : Z) : CM Z :=
  match fuel with
  | O => mfail (CFault OutOfFuel)
  | S fuel =>
      if l =? Val_int 0 then mreturn 0 else
      let* tl := ld (Field l 1) in
      let* n := list_length fuel tl in
      mreturn (n + 1)
  end.

Definition caml_array_concat_r (fuel : nat) (al : Z) : CM Z :=
  let* n := list_length fuel al in
  let* bufs := (if n <=? STATIC_SIZE then mreturn [] else
                let* arrays := caml_stat_alloc (n * 8) in
                let* offsets := caml_stat_alloc (n * 8) in
                let* lengths := caml_stat_alloc (n * 8) in
                mreturn [arrays; offsets; lengths]) in
  let* parts := list_parts fuel al in
  let* res := caml_array_gather_r parts in
  match bufs with
  | [arrays; offsets; lengths] =>
      caml_stat_free arrays ;;; caml_stat_free offsets ;;; caml_stat_free lengths ;;; mreturn res
  | _ => mreturn res
  end.
End Operations.
(** ** The write barrier

    What array operations need from the collector: marking and the growth of
    the table of references leave alone the words [P] of the arrays, and a
    growth makes room in the table. *)

(** The free slots of the table of references are mapped and not in [P]. *)
Definition table_inv (P : Z → Prop) (c : context) : Prop :=
  ∀ q, caml_ref_table_ptr c <= q < caml_ref_table_limit c → (8 | q - caml_ref_table_ptr c) →
    is_Some (words c !! q) ∧ ¬ P q.

Definition agree (P : Z → Prop) (c c' : context) : Prop := ∀ k, P k → words c' !! k = words c !! k.

Class Barrier `{Runtime} (P : Z → Prop) : Prop := {
  barrier_darken : ∀ v c, table_inv P c →
    ∃ c', caml_darken_r v c = inr (c', tt) ∧ table_inv P c' ∧ agree P c c';
  barrier_realloc : ∀ c, table_inv P c →
    ∃ c', caml_realloc_ref_table_r c = inr (c', tt) ∧ table_inv P c' ∧ agree P c c' ∧
      caml_ref_table_ptr c' < caml_ref_table_limit c'
}.

Section Blit.
Context `{Runtime} (P : Z → Prop) `{!Barrier P}.

Lemma add_to_ref_table_frame fp c : table_inv P c →
  ∃ c', add_to_ref_table fp c = inr (c', tt) ∧ table_inv P c' ∧ agree P c c'.
Proof.
  intros Ht. unfold add_to_ref_table.
  assert (∃ c1, (if caml_ref_table_limit c <=? caml_ref_table_ptr c then caml_realloc_ref_table_r else mreturn tt) c = inr (c1, tt) ∧
    table_inv P c1 ∧ agree P c c1 ∧ caml_ref_table_ptr c1 < caml_ref_table_limit c1) as (c1 & E1 & Ht1 & Ha1 & Hlt).
  { destruct (Z.leb_spec (caml_ref_table_limit c) (caml_ref_table_ptr c)); [by apply barrier_realloc|].
    exists c. split_and!; try done. }
  unfold mbnd at 1, mget. rewrite (mbnd_eq _ _ _ _ _ E1). unfold mbnd, mget, mput, st. cbn.
  destruct (Ht1 (caml_ref_table_ptr c1) ltac:(lia) ltac:(exists 0; lia)) as [[w Hw] Hp]. rewrite Hw. eexists. split; [done|]. split.
  - intros q Hq Hd. cbn in *. destruct (Ht1 q) as [Hs Hn]; [lia|destruct Hd as [z Hz]; exists (z + 1); lia|].
    split; [|done]. rewrite lookup_insert_is_Some'. by right.
  - intros k Hk. cbn. rewrite lookup_insert_ne by (intros <-; done). by apply Ha1.
Qed.

(** [caml_modify_r] stores the value and touches no other word of [P]. *)
Lemma modify_frame fp v c : table_inv P c → P fp → is_Some (words c !! fp) →
  ∃ c', caml_modify_r fp v c = inr (c', tt) ∧ table_inv P c' ∧ ∀ k, P k → words c' !! k = <[fp := v]> (words c) !! k.
Proof.
  intros Ht Hp [w Hw]. unfold caml_modify_r, Modify. unfold mbnd at 1, ld. rewrite Hw. unfold mbnd at 1, st. rewrite Hw.
  set (c1 := set_words (<[fp := v]> (words c)) c). unfold mbnd at 1, mget.
  assert (table_inv P c1) as Ht1.
  { intros q Hq Hd. destruct (Ht q Hq Hd) as [Hs Hn]. split; [|done]. cbn. rewrite lookup_insert_is_Some'. by right. }
  destruct (Is_in_heap c1 fp); [|by exists c1].
  assert (∃ c2, (if caml_gc_phase c1 =? Phase_mark then caml_darken_r w else mreturn tt) c1 = inr (c2, tt) ∧
    table_inv P c2 ∧ agree P c1 c2) as (c2 & E2 & Ht2 & Ha2).
  { destruct (caml_gc_phase c1 =? Phase_mark); [by apply barrier_darken|by exists c1]. }
  rewrite (mbnd_eq _ _ _ _ _ E2). unfold mbnd, mget. destruct (_ && _ && _); [|by exists c2].
  destruct (add_to_ref_table_frame fp c2 Ht2) as (c3 & E3 & Ht3 & Ha3). exists c3. split_and!; [done..|].
  intros k Hk. by rewrite Ha3, Ha2.
Qed.

(** Where word [i] of the source goes. *)
Definition copied (w w' : gmap Z Z) (dst src : Z) (n : nat) : Prop :=
  (∀ i, (i < n)%nat → w' !! padd dst i = w !! padd src i) ∧
  ∀ k, P k → (∀ i, (i < n)%nat → k ≠ padd dst i) → w' !! k = w !! k.

Definition area (p : Z) (n : nat) : Prop := ∀ i, (i < n)%nat → P (padd p i).

Lemma modify_up_spec n dst src c :
  table_inv P c → area dst n → area src n → mapped (words c) dst n → mapped (words c) src n →
  (∀ i j, (i < j < n)%nat → padd dst i ≠ padd src j) →
  ∃ c', modify_up n dst src c = inr (c', tt) ∧ table_inv P c' ∧ copied (words c) (words c') dst src n.
Proof.
  revert dst src c. induction n as [|n IH]; intros dst src c Ht Hpd Hps Hmd Hms Hno; cbn [modify_up].
  { exists c. split_and!; [done..|]. split; [lia|done]. }
  destruct (Hms O ltac:(lia)) as [x Hx]. rewrite padd_0 in Hx. unfold mbnd at 1, ld. rewrite Hx.
  pose proof (Hpd O ltac:(lia)) as Hp0. pose proof (Hmd O ltac:(lia)) as Hm0. rewrite padd_0 in Hp0, Hm0.
  destruct (modify_frame dst x c Ht Hp0 Hm0) as (c1 & E1 & Ht1 & Hw1). rewrite (mbnd_eq _ _ _ _ _ E1).
  assert (∀ i, (i < n)%nat → P (padd (dst + 8) i) ∧ P (padd (src + 8) i)) as Hps'.
  { intros i Hi. rewrite <- !padd_S. split; [apply Hpd|apply Hps]; lia. }
  destruct (IH (dst + 8) (src + 8) c1) as (c' & E' & Ht' & Hc1 & Hc2); [done|by intros i Hi; apply Hps'|by intros i Hi; apply Hps'|..].
  - intros i Hi. rewrite Hw1 by (by apply Hps'). rewrite <- padd_S. rewrite lookup_insert_is_Some'. right. apply Hmd. lia.
  - intros i Hi. rewrite Hw1 by (by apply Hps'). rewrite <- padd_S. rewrite lookup_insert_is_Some'. right. apply Hms. lia.
  - intros i j Hij. rewrite <- !padd_S. apply Hno. lia.
  - exists c'. split_and!; [done..|]. split.
    + intros [|i] Hi.
      * rewrite !padd_0. rewrite Hc2; [rewrite Hw1 by done; by rewrite lookup_insert_eq, Hx|done|].
        intros i Hi'. unfold padd. lia.
      * rewrite !padd_S, Hc1 by lia. rewrite Hw1 by (apply Hps'; lia). rewrite <- padd_S, lookup_insert_ne; [done|].
        specialize (Hno O (S i) ltac:(lia)). rewrite padd_0 in Hno. done.
    + intros k Hk Hne. rewrite Hc2; [|done|].
      * rewrite Hw1 by done. apply lookup_insert_ne. specialize (Hne O ltac:(lia)). rewrite padd_0 in Hne. congruence.
      * intros i Hi. rewrite <- padd_S. apply Hne. lia.
Qed.

Lemma modify_down_spec n dst src c :
  table_inv P c → area dst n → area src n → mapped (words c) dst n → mapped (words c) src n →
  (∀ i j, (j < i < n)%nat → padd dst i ≠ padd src j) →
  ∃ c', modify_down n (dst + 8 * (Z.of_nat n - 1)) (src + 8 * (Z.of_nat n - 1)) c = inr (c', tt) ∧ table_inv P c' ∧
    copied (words c) (words c') dst src n.
Proof.
  revert c. induction n as [|n IH]; intros c Ht Hpd Hps Hmd Hms Hno; cbn [modify_down].
  { exists c. split_and!; [done..|]. split; [lia|done]. }
  replace (dst + 8 * (Z.of_nat (S n) - 1)) with (padd dst n) by (unfold padd; lia).
  replace (src + 8 * (Z.of_nat (S n) - 1)) with (padd src n) by (unfold padd; lia).
  destruct (Hms n ltac:(lia)) as [x Hx]. unfold mbnd at 1, ld. rewrite Hx.
  destruct (modify_frame (padd dst n) x c Ht (Hpd n ltac:(lia)) (Hmd n ltac:(lia))) as (c1 & E1 & Ht1 & Hw1).
  rewrite (mbnd_eq _ _ _ _ _ E1).
  replace (padd dst n - 8) with (dst + 8 * (Z.of_nat n - 1)) by (unfold padd; lia).
  replace (padd src n - 8) with (src + 8 * (Z.of_nat n - 1)) by (unfold padd; lia).
  destruct (IH c1) as (c' & E' & Ht' & Hc1 & Hc2); [done|intros i Hi; apply Hpd; lia|intros i Hi; apply Hps; lia|..].
  - intros i Hi. rewrite Hw1 by (apply Hpd; lia). rewrite lookup_insert_is_Some'. right. apply Hmd. lia.
  - intros i Hi. rewrite Hw1 by (apply Hps; lia). rewrite lookup_insert_is_Some'. right. apply Hms. lia.
  - intros i j Hij. apply Hno. lia.
  - exists c'. split_and!; [done..|]. split.
    + intros i Hi. destruct (decide (i = n)) as [->|Hne].
      * rewrite Hc2; [rewrite Hw1 by (apply Hpd; lia); by rewrite lookup_insert_eq, Hx|apply Hpd; lia|].
        intros j Hj. unfold padd. lia.
      * rewrite Hc1 by lia. rewrite Hw1 by (apply Hps; lia). apply lookup_insert_ne. apply Hno. lia.
    + intros k Hk Hne. rewrite Hc2; [|done|intros i Hi; apply Hne; lia].
      rewrite Hw1 by done. apply lookup_insert_ne. specialize (Hne n ltac:(lia)). congruence.
Qed.
End Blit.

Lemma lookup_stores_off m p ds k : (∀ i, (i < length ds)%nat → k ≠ padd p i) → stores m p ds !! k = m !! k.
Proof.
  revert m p. induction ds as [|d ds IH]; intros m p Hk; [done|]. cbn [stores]. rewrite IH.
  - apply lookup_insert_ne. specialize (Hk O ltac:(cbn; lia)). rewrite padd_0 in Hk. congruence.
  - intros i Hi. rewrite <- padd_S. apply Hk. cbn. lia.
Qed.

Lemma memmove_copied P n dst src vs c :
  length vs = n → seg (words c) src vs → mapped (words c) dst n →
  ∃ c', memmove_words dst src n c = inr (c', tt) ∧ copied P (words c) (words c') dst src n.
Proof.
  intros <- Hs Hm. unfold memmove_words. rewrite (mbnd_eq _ _ _ _ _ (load_words_eq _ _ _ Hs)).
  rewrite store_words_eq by done. eexists. split; [done|]. cbn. split.
  - intros i Hi. destruct (lookup_lt_is_Some_2 vs i Hi) as [x Hx].
    rewrite (seg_lookup _ _ _ _ _ (seg_stores _ _ _) Hx). symmetry. by eapply seg_lookup.
  - intros k _ Hne. by apply lookup_stores_off.
Qed.

Lemma copied_seg (P : Z → Prop) w w' a1 l1 (o1 : nat) a2 l2 (o2 n : nat) :
  seg w a1 l1 → seg w a2 l2 → area P a2 (length l2) → (o1 + n <= length l1)%nat → (o2 + n <= length l2)%nat →
  copied P w w' (padd a2 o2) (padd a1 o1) n →
  seg w' a2 (overwrite l2 o2 (take n (drop o1 l1))).
Proof.
  intros H1 H2 Hp Hl1 Hl2 [Hc1 Hc2]. apply seg_intro. intros i x.
  assert (length (take n (drop o1 l1)) = n) as Ln by (rewrite length_take, length_drop; lia).
  rewrite overwrite_lookup by lia. rewrite Ln. case_decide as Hd; intros Hx.
  - replace (padd a2 i) with (padd (padd a2 o2) (i - o2)) by (rewrite <- padd_add; f_equal; lia).
    rewrite Hc1 by lia. rewrite <- padd_add. eapply seg_lookup; [exact H1|].
    apply lookup_take_Some in Hx as [Hx _]. by rewrite lookup_drop in Hx.
  - pose proof (lookup_lt_Some _ _ _ Hx). rewrite Hc2; [by eapply seg_lookup|by apply Hp|].
    intros j Hj. unfold padd. lia.
Qed.

Lemma seg_mapped m p ds : seg m p ds → mapped m p (length ds).
Proof. intros Hs i Hi. destruct (lookup_lt_is_Some_2 ds i Hi) as [x Hx]. exists x. by eapply seg_lookup. Qed.

(** [caml_array_blit_r] on valid ranges replaces exactly the destination
    range by the source fields as they were before the call, whether the
    destination is an array of floats, a young array (both copied directly)
    or an array of the major heap (stored field by field through the write
    barrier, downwards or upwards), and also when the arrays are the same and
    the ranges overlap. *)
Theorem array_blit_correct `{Runtime} (P : Z → Prop) `{!Barrier P} c a1 l1 (o1 : nat) a2 l2 (o2 n : nat) tag :
  (∀ c, caml_check_urgent_gc_r [Val_unit] c = inr (c, [Val_unit])) →
  table_inv P c → area P a1 (length l1) → area P a2 (length l2) →
  seg (words c) a1 l1 → seg (words c) a2 l2 → load_byte (words c) (Hd_val a2) = Some tag →
  a1 = a2 ∨ padd a1 (length l1) <= a2 ∨ padd a2 (length l2) <= a1 →
  (o1 + n <= length l1)%nat → (o2 + n <= length l2)%nat → Z.of_nat (length l1) <= Max_wosize → Z.of_nat (length l2) <= Max_wosize →
  ∃ c', caml_array_blit_r a1 (Val_long (Z.of_nat o1)) a2 (Val_long (Z.of_nat o2)) (Val_long (Z.of_nat n)) c = inr (c', Val_unit) ∧
    seg (words c') a2 (overwrite l2 o2 (take n (drop o1 l1))) ∧
    ∀ k, P k → (∀ i, (i < n)%nat → k ≠ padd (padd a2 o2) i) → words c' !! k = words c !! k.
Proof.
  intros Hgc Ht Hp1 Hp2 H1 H2 Htag Hov Hl1 Hl2 Hm1 Hm2.
  unfold Max_wosize in *. change (2 ^ 54) with 18014398509481984 in *.
  assert (∀ k, 0 <= k <= 18014398509481983 → Long_val (Val_long k) = k) as Hlong.
  { intros k Hk. rewrite Long_val_Val_long. apply s63_small. unfold Min_long, Max_long. lia. }
  assert (∀ a o, Field a (Z.of_nat o) = padd a o) as Hfield by (intros; unfold Field, padd; lia).
  assert (seg (words c) (padd a1 o1) (take n (drop o1 l1))) as Hsrc.
  { apply seg_intro. intros i d [Hd _]%lookup_take_Some. rewrite lookup_drop in Hd. rewrite <- padd_add. by eapply seg_lookup. }
  assert (length (take n (drop o1 l1)) = n) as Ln by (rewrite length_take, length_drop; lia).
  assert (mapped (words c) (padd a2 o2) n ∧ mapped (words c) (padd a1 o1) n) as [Hmd Hms].
  { split; intros i Hi; rewrite <- padd_add; [apply (seg_mapped _ _ _ H2)|apply (seg_mapped _ _ _ H1)]; lia. }
  assert (area P (padd a2 o2) n ∧ area P (padd a1 o1) n) as [Had Has].
  { split; intros i Hi; rewrite <- padd_add; [apply Hp2|apply Hp1]; lia. }
  assert (∃ c', caml_array_blit_r a1 (Val_long (Z.of_nat o1)) a2 (Val_long (Z.of_nat o2)) (Val_long (Z.of_nat n)) c = inr (c', Val_unit) ∧
    copied P (words c) (words c') (padd a2 o2) (padd a1 o1) n) as (c' & E & Hc).
  2:{ exists c'. split_and!; [done|by eapply copied_seg|apply Hc]. }
  unfold caml_array_blit_r, Tag_val. rewrite (mbnd_eq _ _ _ _ _ (ldb_eq _ _ _ Htag)), !Hlong, !Hfield by lia.
  assert (Z.to_nat (u64 (Z.of_nat n * 8) / 8) = n) as -> by (rewrite u64_small, Z.div_mul by lia_w; lia).
  destruct (memmove_copied P n (padd a2 o2) (padd a1 o1) _ c Ln Hsrc Hmd) as (cm & Em & Hcm).
  destruct (tag =? Double_array_tag); [exists cm; by rewrite (mbnd_eq _ _ _ _ _ Em)|].
  unfold mbnd at 1, mget. destruct (Is_young c a2); [exists cm; by rewrite (mbnd_eq _ _ _ _ _ Em)|]. rewrite Nat2Z.id.
  assert (∃ c1, (if (a1 =? a2) && (Z.of_nat o1 <? Z.of_nat o2)
    then modify_down n (Field a2 (Z.of_nat o2 + Z.of_nat n - 1)) (Field a1 (Z.of_nat o1 + Z.of_nat n - 1))
    else modify_up n (padd a2 o2) (padd a1 o1)) c = inr (c1, tt) ∧ copied P (words c) (words c1) (padd a2 o2) (padd a1 o1) n) as (c1 & E1 & Hc1).
  2:{ exists c1. rewrite (mbnd_eq _ _ _ _ _ E1), (mbnd_eq _ _ _ _ _ (Hgc c1)). done. }
  destruct ((a1 =? a2) && (Z.of_nat o1 <? Z.of_nat o2)) eqn:Edir.
  - apply andb_true_iff in Edir as [Ea%Z.eqb_eq Eo%Z.ltb_lt].
    replace (Field a2 (Z.of_nat o2 + Z.of_nat n - 1)) with (padd a2 o2 + 8 * (Z.of_nat n - 1)) by (unfold Field, padd; lia).
    replace (Field a1 (Z.of_nat o1 + Z.of_nat n - 1)) with (padd a1 o1 + 8 * (Z.of_nat n - 1)) by (unfold Field, padd; lia).
    destruct (modify_down_spec P n (padd a2 o2) (padd a1 o1) c Ht Had Has Hmd Hms) as (c1 & E1 & _ & Hc1); [|by exists c1].
    intros i j Hij. unfold padd. lia.
  - destruct (modify_up_spec P n (padd a2 o2) (padd a1 o1) c Ht Had Has Hmd Hms) as (c1 & E1 & _ & Hc1); [|by exists c1].
    intros i j Hij. unfold padd in *. apply andb_false_iff in Edir as [?%Z.eqb_neq|?%Z.ltb_ge]; lia.
Qed.

(** ** Witnesses *)

(** [ex_runtime] with a table of references that is emptied when full. *)
Definition ex_barrier : Runtime := {|
  caml_minor_collection_r := @caml_minor_collection_r ex_runtime;
  caml_page_table_lookup_r := @caml_page_table_lookup_r ex_runtime;
  caml_darken_r := @caml_darken_r ex_runtime;
  caml_realloc_ref_table_r := mmodify (λ c, set_caml_ref_table_limit 30008 (set_caml_ref_table_ptr 30000
    (set_words (<[30000 := 0]> (words c)) c)));
  caml_alloc_shr_r := @caml_alloc_shr_r ex_runtime;
  caml_check_urgent_gc_r := @caml_check_urgent_gc_r ex_runtime;
  caml_adjust_gc_speed_r := @caml_adjust_gc_speed_r ex_runtime;
  caml_stat_alloc := @caml_stat_alloc ex_runtime;
  caml_stat_free := @caml_stat_free ex_runtime;
  caml_process_event_r := @caml_process_event_r ex_runtime;
  caml_debugger_r := @caml_debugger_r ex_runtime;
  caml_stash_backtrace_r := @caml_stash_backtrace_r ex_runtime;
  Primitive := @Primitive ex_runtime
|}.

Definition ex_heap (k : Z) : Prop := 10000 <= k < 20000.

Lemma ex_barrier_laws : @Barrier ex_barrier ex_heap.
Proof.
  split.
  - intros v c Ht. by exists c.
  - intros c Ht. eexists. split; [reflexivity|]. split_and!; cbn [words set_words set_caml_ref_table_ptr set_caml_ref_table_limit caml_ref_table_ptr caml_ref_table_limit]; [| |lia].
    + intros q Hq Hd. cbn in Hq, Hd |- *. assert (q = 30000) as -> by (destruct Hd; lia). rewrite lookup_insert_eq.
      split; [by eexists|]. unfold ex_heap. lia.
    + intros k Hk. cbn. apply lookup_insert_ne. unfold ex_heap in Hk. lia.
Qed.

(** An array of five integers in the major heap. *)
Definition ex_array : context :=
  ex_context (stores ∅ 10000 [Make_header 5 0 Caml_white; 3; 5; 7; 9; 11]) ∅.

Lemma ex_array_seg : seg (words ex_array) 10008 [3; 5; 7; 9; 11].
Proof. exact (proj2 (seg_stores ∅ 10000 [Make_header 5 0 Caml_white; 3; 5; 7; 9; 11])). Qed.

Lemma ex_array_area : area ex_heap 10008 5.
Proof. intros i Hi. unfold ex_heap, padd. lia. Qed.

Lemma ex_array_table : table_inv ex_heap ex_array.
Proof. intros q Hq. cbn in Hq. lia. Qed.

(** Three fields are moved one position up in the same array. *)
Lemma array_blit_witness :
  ∃ c', @caml_array_blit_r ex_barrier 10008 (Val_long 0) 10008 (Val_long 1) (Val_long 3) ex_array = inr (c', Val_unit) ∧
    seg (words c') 10008 [3; 3; 5; 7; 11].
Proof.
  destruct (@array_blit_correct ex_barrier ex_heap ex_barrier_laws ex_array 10008 [3; 5; 7; 9; 11] 0 10008 [3; 5; 7; 9; 11] 1 3 0
    (λ c, eq_refl) ex_array_table ex_array_area ex_array_area ex_array_seg ex_array_seg) as (c' & H1 & H2 & _);
    [vm_compute; reflexivity|by left|cbn; lia|cbn; lia|vm_compute; congruence|vm_compute; congruence|].
  exists c'. exact (conj H1 H2).
Defined.

End Array.
