(* ===== verification/Hash.v ===== *)
(** The generic hashing primitive (byterun/hash.c): MurmurHash 3 mixing, the
    bounded breadth-first traversal, and the older depth-first hash.

    A [uint32] is an integer below 2^32; a double is its 64-bit word, a float
    its 32-bit pattern.  The hash function of a custom block is a parameter:
    [None] when its operations have none.  [fuel] bounds the chains of
    forwarding and infix pointers followed from one value (and the depth of
    the older function). *)

From S2P Require Import Prelude Mlvalues Context Alloc Str Stacks Array.
Import Context Alloc Str Array.

Module Hash.

Definition ROTL32 (x n : Z) : Z := Z.lor (u32 (Z.shiftl x n)) (Z.shiftr x (32 - n)).

(** The new value of [h]. *)
Definition MIX (h d : Z) : Z :=
  let d := u32 (d * 3432918353) in
  let d := ROTL32 d 15 in
  let d := u32 (d * 461845907) in
  let h := Z.lxor h d in
  let h := ROTL32 h 13 in
  u32 (h * 5 + 3864292196).

Definition FINAL_MIX (h : Z) : Z :=
  let h := Z.lxor h (Z.shiftr h 16) in
  let h := u32 (h * 2246822507) in
  let h := Z.lxor h (Z.shiftr h 13) in
  let h := u32 (h * 3266489909) in
  Z.lxor h (Z.shiftr h 16).

Definition caml_hash_mix_uint32 (h d : Z) : Z := MIX h d.

Definition caml_hash_mix_intnat (h d : Z) : Z :=
  let n := u32 (Z.lxor (Z.lxor (Z.shiftr d 32) (Z.shiftr d 63)) d) in
  MIX h n.

Definition caml_hash_mix_int64 (h d : Z) : Z :=
  let hi := u32 (Z.shiftr d 32) in
  let lo := u32 d in
  MIX (MIX h lo) hi.

Definition caml_hash_mix_double (hash d : Z) : Z :=
  let h := u32 (Z.shiftr d 32) in
  let l := u32 d in
  let '(h, l) :=
    (if (Z.land h 2146435072 =? 2146435072) && negb (Z.lor l (Z.land h 1048575) =? 0)
     then (2146435072, 1)
     else if (h =? 2147483648) && (l =? 0) then (0, l)
     else (h, l)) in
  MIX (MIX hash l) h.

Definition caml_hash_mix_float (hash d : Z) : Z :=
  let n := u32 d in
  let n :=
    (if (Z.land n 2139095040 =? 2139095040) && negb (Z.land n 8388607 =? 0) then 2139095041
     else if n =? 2147483648 then 0
     else n) in
  MIX hash n.

(** A little-endian [uint32]. *)
Definition ld32 (a : Z) : CM Z :=
  let* b0 := ldb a in
  let* b1 := ldb (a + 1) in
  let* b2 := ldb (a + 2) in
  let* b3 := ldb (a + 3) in
  mreturn (b0 + 256 * b1 + 65536 * b2 + 16777216 * b3).

(** [for (i = 0; i + 4 <= len; i += 4) { w = ...; MIX(h, w); }]: the hash and
    the final [i]. *)
Fixpoint mix_blocks (n : nat) (s i h : Z) : CM (Z * Z) :=
  match n with
  | O => mreturn (h, i)
  | S n =>
      let* w := ld32 (s + i) in
      mix_blocks n s (i + 4) (MIX h w)
  end.

(** [switch (len & 3)]: up to 3 bytes at [i]; the cases fall through. *)
Definition mix_tail (s i r h : Z) : CM Z :=
  let* w := (if 3 <=? r then let* b := Byte_u s (i + 2) in mreturn (Z.shiftl b 16) else mreturn 0) in
  let* w := (if 2 <=? r then let* b := Byte_u s (i + 1) in mreturn (Z.lor w (Z.shiftl b 8)) else mreturn w) in
  if 1 <=? r then let* b := Byte_u s i in mreturn (MIX h (Z.lor w b)) else mreturn h.

Definition caml_hash_mix_string (h s : Z) : CM Z :=
  let* len := caml_string_length s in
  let* (h, i) := mix_blocks (Z.to_nat (len / 4)) s 0 h in
  let* h := mix_tail s i (Z.land len 3) h in
  mreturn (Z.lxor h (u32 len)).

Definition HASH_QUEUE_SIZE : Z := 256.

Definition Infix_offset_val (v : Z) : CM Z := Bosize_val v.
Definition Forward_val (v : Z) : CM Z := ld (Field v 0).
Definition Oid_val (v : Z) : CM Z := let* x := ld (Field v 1) in mreturn (Long_val x).

(** The array [queue], and accesses to it. *)
Definition queue_get (queue : list Z) (i : Z) : CM Z :=
  match queue !! Z.to_nat i with
  | Some v => if 0 <=? i then mreturn v else mfail (CFault Contract)
  | None => mfail (CFault Contract)
  end.
Definition queue_set (queue : list Z) (i v : Z) : CM (list Z) :=
  if (0 <=? i) && (i <? HASH_QUEUE_SIZE) then mreturn (<[Z.to_nat i := v]> queue) else mfail (CFault Contract).

Section Operations.
Context `{Runtime} (custom_hash : context → Z → option Z).

(** [for (i = 0; i < len; i++) { h = mix(h, Double_field(v, i)); num--; if (num < 0) break; }] *)
Fixpoint hash_doubles (n : nat) (v i h num : Z) : CM (Z * Z) :=
  match n with
  | O => mreturn (h, num)
  | S n =>
      let* d := ld (Field v i) in
      let h := caml_hash_mix_double h d in
      let num := num - 1 in
      if num <? 0 then mreturn (h, num) else hash_doubles n v (i + 1) h num
  end.

(** Copy fields into the queue, not exceeding the total size [sz]. *)
Fixpoint enqueue (n : nat) (v i sz : Z) (queue : list Z) (wr : Z) : CM (list Z * Z) :=
  match n with
  | O => mreturn (queue, wr)
  | S n =>
      if sz <=? wr then mreturn (queue, wr) else
      let* x := ld (Field v i) in
      let* queue := queue_set queue wr x in
      enqueue n v (i + 1) sz queue (wr + 1)
  end.

(** One value, from the label [again] on. *)
Fixpoint hash_value (fuel : nat) (v h num sz : Z) (queue : list Z) (wr : Z) : CM (Z * Z * list Z * Z) :=
  match fuel with
  | O => mfail (CFault OutOfFuel)
  | S fuel =>
      let* c := mget in
      if Is_long v then mreturn (caml_hash_mix_intnat h (s64 v), num - 1, queue, wr)
      else if Is_in_value_area c v then
        let* tag := Tag_val v in
        if tag =? String_tag then
          let* h := caml_hash_mix_string h v in mreturn (h, num - 1, queue, wr)
        else if tag =? Double_tag then
          let* d := ld (Field v 0) in mreturn (caml_hash_mix_double h d, num - 1, queue, wr)
        else if tag =? Double_array_tag then
          let* len := Wosize_val v in
          let* (h, num) := hash_doubles (Z.to_nat (len / Double_wosize)) v 0 h num in
          mreturn (h, num, queue, wr)
        else if tag =? Abstract_tag then mreturn (h, num, queue, wr)
        else if tag =? Infix_tag then
          let* ofs := Infix_offset_val v in
          hash_value fuel (v - ofs) (caml_hash_mix_uint32 h (u32 ofs)) num sz queue wr
        else if tag =? Forward_tag then
          let* v := Forward_val v in hash_value fuel v h num sz queue wr
        else if tag =? Object_tag then
          let* oid := Oid_val v in mreturn (caml_hash_mix_intnat h oid, num - 1, queue, wr)
        else if tag =? Custom_tag then
          match custom_hash c v with
          | Some n => mreturn (caml_hash_mix_uint32 h (u32 n), num - 1, queue, wr)
          | None => mreturn (h, num, queue, wr)
          end
        else
          let* hd := ld (Hd_val v) in
          let h := caml_hash_mix_uint32 h (u32 (Whitehd_hd hd)) in
          let* len := Wosize_val v in
          let* (queue, wr) := enqueue (Z.to_nat len) v 0 sz queue wr in
          mreturn (h, num, queue, wr)
      else mreturn (caml_hash_mix_intnat h (s64 v), num - 1, queue, wr)
  end.

(** [while (rd < wr && num > 0)]; [n] is the number of elements of the queue
    that are still to be read, past which reading is out of bounds. *)
Fixpoint hash_loop (fuel n : nat) (rd wr sz num h : Z) (queue : list Z) : CM Z :=
  if (rd <? wr) && (0 <? num) then
    match n with
    | O => mfail (CFault Contract)
    | S n =>
        let* v := queue_get queue rd in
        let* (h, num, queue, wr) := hash_value fuel v h num sz queue wr in
        hash_loop fuel n (rd + 1) wr sz num h queue
    end
  else mreturn h.

Definition caml_hash_r (fuel : nat) (count limit seed obj : Z) : CM Z :=
  let sz := Long_val limit in
  let sz := (if (sz <? 0) || (HASH_QUEUE_SIZE <? sz) then HASH_QUEUE_SIZE else sz) in
  let num := Long_val count in
  let h := u32 (Int_val seed) in
  let* queue := queue_set (replicate (Z.to_nat HASH_QUEUE_SIZE) 0) 0 obj in
  let* h := hash_loop fuel (Z.to_nat HASH_QUEUE_SIZE) 0 1 sz num h queue in
  let h := FINAL_MIX h in
  mreturn (Val_int (Z.land h 1073741823)).

(** ** The old implementation *)

(** [hash_accu], [hash_univ_limit] and [hash_univ_count]. *)
Record univ : Type := Univ { accu : Z; limit : Z; count : Z }.

Definition Alpha : Z := 65599.
Definition Beta : Z := 19.
Definition Combine (u : univ) (new : Z) : univ := Univ (u64 (accu u * Alpha + new)) (limit u) (count u).
Definition Combine_small (u : univ) (new : Z) : univ := Univ (u64 (accu u * Beta + new)) (limit u) (count u).
Definition decr_count (u : univ) : univ := Univ (accu u) (limit u) (count u - 1).

(** [one Combine_small per byte at p] *)
Fixpoint combine_bytes (n : nat) (p : Z) (u : univ) : CM univ :=
  match n with
  | O => mreturn u
  | S n => let* b := ldb p in combine_bytes n (p + 1) (Combine_small u b)
  end.

(** The fields of a block, from the last. *)
Fixpoint hash_fields (aux : Z → univ → CM univ) (i : nat) (obj : Z) (u : univ) : CM univ :=
  match i with
  | O => mreturn u
  | S i =>
      let* x := ld (Field obj (Z.of_nat i)) in
      let* u := aux x u in
      hash_fields aux i obj u
  end.

(** From the label [again] on; [aux] is the recursive call. *)
Fixpoint hash_again (aux : Z → univ → CM univ) (fuel : nat) (obj : Z) (u : univ) : CM univ :=
  match fuel with
  | O => mfail (CFault OutOfFuel)
  | S fuel =>
      let* c := mget in
      if Is_long obj then mreturn (Combine (decr_count u) (Long_val obj))
      else if Is_in_value_area c obj then
        let* tag := Tag_val obj in
        if tag =? String_tag then
          let* len := caml_string_length obj in
          combine_bytes (Z.to_nat len) obj (decr_count u)
        else if tag =? Double_tag then combine_bytes 8 obj (decr_count u)
        else if tag =? Double_array_tag then
          let* n := Bosize_val obj in
          combine_bytes (Z.to_nat n) obj (decr_count u)
        else if tag =? Abstract_tag then mreturn u
        else if tag =? Infix_tag then
          let* ofs := Infix_offset_val obj in aux (obj - ofs) u
        else if tag =? Forward_tag then
          let* x := Forward_val obj in hash_again aux fuel x u
        else if tag =? Object_tag then
          let* oid := Oid_val obj in mreturn (Combine (decr_count u) oid)
        else if tag =? Custom_tag then
          match custom_hash c obj with
          | Some n => mreturn (Combine (decr_count u) n)
          | None => mreturn u
          end
        else
          let u := Combine_small (decr_count u) tag in
          let* sz := Wosize_val obj in
          hash_fields aux (Z.to_nat sz) obj u
      else mreturn (Combine u (s64 obj))
  end.

Fixpoint hash_aux_r (fuel : nat) (obj : Z) (u : univ) : CM univ :=
  match fuel with
  | O => mfail (CFault OutOfFuel)
  | S fuel' =>
      let u := Univ (accu u) (limit u - 1) (count u) in
      if (count u <? 0) || (limit u <? 0) then mreturn u else
      hash_again (hash_aux_r fuel') fuel obj u
  end.

Definition caml_hash_univ_param_r (fuel : nat) (count limit obj : Z) : CM Z :=
  let* u := hash_aux_r fuel obj (Univ 0 (Long_val limit) (Long_val count)) in
  mreturn (Val_long (Z.land (accu u) 1073741823)).
End Operations.

(** ** Mixing of numbers *)

(** A double is a NaN when its exponent is maximal and its mantissa is not 0. *)
Definition is_nan64 (d : Z) : bool := ((d / 2 ^ 52) mod 2 ^ 11 =? 2047) && negb (d mod 2 ^ 52 =? 0).
Definition is_nan32 (d : Z) : bool := ((d / 2 ^ 23) mod 2 ^ 8 =? 255) && negb (d mod 2 ^ 23 =? 0).

(** One NaN for all, and one zero. *)
Definition canonical64 (d : Z) : Z :=
  if is_nan64 d then 2047 * 2 ^ 52 + 1 else if d =? 2 ^ 63 then 0 else d.
Definition canonical32 (d : Z) : Z :=
  if is_nan32 d then 255 * 2 ^ 23 + 1 else if d =? 2 ^ 31 then 0 else d.

(** Selecting the bits from [a] to [b]. *)
Lemma land_field x a b : 0 <= a <= b → Z.land x (2 ^ b - 2 ^ a) = x mod 2 ^ b / 2 ^ a * 2 ^ a.
Proof.
  intros Hab. replace (2 ^ b - 2 ^ a) with (Z.ones (b - a) * 2 ^ a).
  - apply Z.bits_inj'. intros i Hi. rewrite Z.land_spec. destruct (Z.lt_ge_cases i a).
    + by rewrite !Z.mul_pow2_bits_low, andb_false_r by done.
    + rewrite !Z.mul_pow2_bits, Z.div_pow2_bits by lia. replace (i - a + a) with i by lia. destruct (Z.lt_ge_cases i b).
      * rewrite Z.ones_spec_low, andb_true_r, Z.mod_pow2_bits_low by lia. done.
      * rewrite Z.ones_spec_high, andb_false_r, Z.mod_pow2_bits_high by lia. done.
  - rewrite Z.ones_equiv, Z.mul_pred_l, <- Z.pow_add_r by lia. do 2 f_equal. lia.
Qed.

Lemma lor_zero x y : 0 <= x → 0 <= y → (Z.lor x y =? 0) = (x =? 0) && (y =? 0).
Proof.
  intros Hx Hy. apply eq_true_iff_eq. rewrite andb_true_iff, !Z.eqb_eq. by rewrite Z.lor_eq_0_iff.
Qed.

Lemma mix_double_canonical h d : word d → caml_hash_mix_double h d = caml_hash_mix_int64 h (canonical64 d).
Proof.
  intros Hd. assert (d = H32 * (d / H32) + d mod H32) as E by (apply Z.div_mod; unfold H32; lia).
  unfold caml_hash_mix_double, caml_hash_mix_int64, canonical64, is_nan64.
  rewrite Z.shiftr_div_pow2 by lia. change (2 ^ 32) with H32.
  assert (u32 (d / H32) = d / H32) as Eh by (unfold u32; Z.to_euclidean_division_equations; lia_w).
  rewrite Eh. change 2146435072 with (2 ^ 31 - 2 ^ 20). change 1048575 with (2 ^ 20 - 2 ^ 0).
  rewrite !land_field by lia. rewrite lor_zero by (unfold u32; Z.to_euclidean_division_equations; lia_w).
  assert (((d / H32) mod 2 ^ 31 / 2 ^ 20 * 2 ^ 20 =? 2 ^ 31 - 2 ^ 20) = ((d / 2 ^ 52) mod 2 ^ 11 =? 2047)) as ->.
  { apply eq_true_iff_eq. rewrite !Z.eqb_eq. unfold word, W in Hd. unfold H32. Z.to_euclidean_division_equations; lia. }
  assert ((u32 d =? 0) && ((d / H32) mod 2 ^ 20 / 2 ^ 0 * 2 ^ 0 =? 0) = (d mod 2 ^ 52 =? 0)) as ->.
  { apply eq_true_iff_eq. rewrite andb_true_iff, !Z.eqb_eq. unfold word, W in Hd. unfold u32, H32. Z.to_euclidean_division_equations; lia. }
  destruct (_ && _); [reflexivity|].
  assert ((d / H32 =? 2147483648) && (u32 d =? 0) = (d =? 2 ^ 63)) as E0.
  { apply eq_true_iff_eq. rewrite andb_true_iff, !Z.eqb_eq. unfold u32, H32. Z.to_euclidean_division_equations; lia. }
  destruct (Z.eqb_spec d (2 ^ 63)) as [->|Hn]; [reflexivity|]. rewrite E0, Z.shiftr_div_pow2 by lia.
  change (2 ^ 32) with H32. by rewrite Eh.
Qed.


Lemma mix_float_canonical h d : 0 <= d < 2 ^ 32 → caml_hash_mix_float h d = caml_hash_mix_uint32 h (canonical32 d).
Proof.
  intros Hd. unfold caml_hash_mix_float, caml_hash_mix_uint32, canonical32, is_nan32.
  assert (u32 d = d) as -> by (apply u32_small; unfold H32; lia). f_equal.
  change 2139095040 with (2 ^ 31 - 2 ^ 23). change 8388607 with (2 ^ 23 - 2 ^ 0). rewrite !land_field by lia.
  assert ((d mod 2 ^ 31 / 2 ^ 23 * 2 ^ 23 =? 2 ^ 31 - 2 ^ 23) = ((d / 2 ^ 23) mod 2 ^ 8 =? 255)) as ->.
  { apply eq_true_iff_eq. rewrite !Z.eqb_eq. Z.to_euclidean_division_equations; lia. }
  replace (d mod 2 ^ 23 / 2 ^ 0 * 2 ^ 0) with (d mod 2 ^ 23) by (change (2 ^ 0) with 1; rewrite Z.div_1_r; lia). done.
Qed.

Lemma mix_intnat_small h d : - 2 ^ 31 <= d < 2 ^ 31 → caml_hash_mix_intnat h d = caml_hash_mix_uint32 h (u32 d).
Proof.
  intros Hd. unfold caml_hash_mix_intnat, caml_hash_mix_uint32. do 2 f_equal.
  rewrite !Z.shiftr_div_pow2 by lia. replace (d / 2 ^ 63) with (d / 2 ^ 32); [by rewrite Z.lxor_nilpotent, Z.lxor_0_l|].
  Z.to_euclidean_division_equations; lia.
Qed.

(** Hashes do not depend on the platform or on the representation of equal
    numbers: an integer that fits 32 bits is mixed as a 32-bit platform does,
    and a float is mixed as its canonical representative, so that 0.0 and -0.0
    have the same hash and so do all NaNs. *)
Theorem hash_mix_canonical h :
  (∀ d, - 2 ^ 31 <= d < 2 ^ 31 → caml_hash_mix_intnat h d = caml_hash_mix_uint32 h (u32 d)) ∧
  (∀ d, word d → caml_hash_mix_double h d = caml_hash_mix_int64 h (canonical64 d)) ∧
  (∀ d, 0 <= d < 2 ^ 32 → caml_hash_mix_float h d = caml_hash_mix_uint32 h (canonical32 d)).
Proof. exact (conj (mix_intnat_small h) (conj (mix_double_canonical h) (mix_float_canonical h))). Qed.

(** ** Strings *)

(** The little-endian value of up to four bytes. *)
Fixpoint le (bs : list Z) : Z := match bs with [] => 0 | b :: bs => b + 256 * le bs end.

(** MurmurHash 3 on a list of bytes: blocks of four, then the tail. *)
Fixpoint murmur (h : Z) (l : list Z) : Z :=
  match l with
  | b0 :: b1 :: b2 :: b3 :: l => murmur (MIX h (le [b0; b1; b2; b3])) l
  | [] => h
  | l => MIX h (le l)
  end.

Lemma bytes_at_cons m a b bs : bytes_at m a (b :: bs) ↔ load_byte m a = Some b ∧ bytes_at m (a + 1) bs.
Proof.
  split.
  - intros Hb. split; [specialize (Hb O b eq_refl); by rewrite Z.add_0_r in Hb|].
    intros i x Hi. specialize (Hb (S i) x Hi). by replace (a + 1 + Z.of_nat i) with (a + Z.of_nat (S i)) by lia.
  - intros [H1 H2] [|i] x Hi; cbn in Hi; [simplify_eq; by rewrite Z.add_0_r|].
    replace (a + Z.of_nat (S i)) with (a + 1 + Z.of_nat i) by lia. by apply H2.
Qed.

Lemma ld32_eq c a b0 b1 b2 b3 l : bytes_at (words c) a (b0 :: b1 :: b2 :: b3 :: l) →
  ld32 a c = inr (c, le [b0; b1; b2; b3]).
Proof.
  rewrite !bytes_at_cons. intros (H0 & H1 & H2 & H3 & _). unfold ld32, mbnd.
  replace (a + 2) with (a + 1 + 1) by lia. replace (a + 3) with (a + 1 + 1 + 1) by lia.
  rewrite (ldb_eq _ _ _ H0), (ldb_eq _ _ _ H1), (ldb_eq _ _ _ H2), (ldb_eq _ _ _ H3). cbn [le].
  unfold mreturn. do 2 f_equal. lia.
Qed.

(** The loop over blocks stops before the tail. *)
Lemma mix_blocks_eq c s k : ∀ i h l, (4 * k <= length l)%nat →
  bytes_at (words c) (s + i) l →
  ∃ h', mix_blocks k s i h c = inr (c, (h', i + 4 * Z.of_nat k)) ∧ murmur h l = murmur h' (drop (4 * k) l) .
Proof.
  induction k as [|k IH]; intros i h l Hl Hb.
  - exists h. cbn [mix_blocks]. rewrite Z.mul_0_r, Z.add_0_r. done.
  - destruct l as [|b0 [|b1 [|b2 [|b3 l]]]]; try (cbn in Hl; lia).
    cbn [mix_blocks]. rewrite (mbnd_eq _ _ _ _ _ (ld32_eq _ _ _ _ _ _ _ Hb)).
    destruct (IH (i + 4) (MIX h (le [b0; b1; b2; b3])) l) as (h' & E & Em).
    + cbn in Hl. lia.
    + rewrite !bytes_at_cons in Hb. replace (s + (i + 4)) with (s + i + 1 + 1 + 1 + 1) by lia. tauto.
    + exists h'. rewrite E. split; [do 3 f_equal; lia|].
      replace (4 * S k)%nat with (S (S (S (S (4 * k)))))%nat by lia. exact Em.
Qed.

Lemma lor_byte_parts x y n : 0 <= n → 0 <= y < 2 ^ n → Z.lor (Z.shiftl x n) y = x * 2 ^ n + y.
Proof. intros Hn Hy. rewrite Z.shiftl_mul_pow2 by done. by apply lor_shifted_low. Qed.

Lemma mix_tail_eq c s i l h : (length l < 4)%nat → Forall (λ b, 0 <= b < 256) l → bytes_at (words c) (s + i) l →
  mix_tail s i (Z.of_nat (length l)) h c = inr (c, murmur h l).
Proof.
  intros Hl HF Hb. unfold mix_tail, Byte_u, mbnd.
  replace (s + (i + 2)) with (s + i + 1 + 1) by lia. replace (s + (i + 1)) with (s + i + 1) by lia.
  destruct l as [|b0 [|b1 [|b2 [|]]]]; cbn in Hl; try lia; rewrite ?bytes_at_cons in Hb; rewrite ?Forall_cons in HF;
    cbn [length]; [done| | |].
  - destruct Hb as (T0 & _). change (Z.of_nat 1) with 1. cbn -[Z.add MIX]. by rewrite (ldb_eq _ _ _ T0), Z.mul_0_r, Z.add_0_r.
  - destruct Hb as (T0 & T1 & _). change (Z.of_nat 2) with 2. cbn -[Z.add MIX Z.shiftl Z.lor].
    rewrite (ldb_eq _ _ _ T1). cbn -[Z.add MIX Z.shiftl Z.lor]. rewrite (ldb_eq _ _ _ T0).
    rewrite Z.lor_0_l, lor_byte_parts by lia. unfold mreturn. do 3 f_equal. lia.
  - destruct Hb as (T0 & T1 & T2 & _). change (Z.of_nat 3) with 3. cbn -[Z.add MIX Z.shiftl Z.lor].
    rewrite (ldb_eq _ _ _ T2). cbn -[Z.add MIX Z.shiftl Z.lor]. rewrite (ldb_eq _ _ _ T1).
    cbn -[Z.add MIX Z.shiftl Z.lor]. rewrite (ldb_eq _ _ _ T0).
    rewrite Z.shiftl_mul_pow2, <- Z.lor_assoc, (lor_byte_parts b1), lor_shifted_low by lia.
    unfold mreturn. do 3 f_equal. lia.
Qed.

(** The hash of a string is MurmurHash 3 of its bytes (mixed with its
    length): it reads exactly the bytes of the string, never the padding, and
    two strings with the same bytes have the same hash. *)
Theorem hash_mix_string_correct c s l h :
  is_string (words c) s l →
  caml_hash_mix_string h s c = inr (c, Z.lxor (murmur h l) (u32 (Z.of_nat (length l)))).
Proof.
  intros Hs. pose proof (string_bytes _ _ _ Hs) as [Hb _]%bytes_at_app. pose proof (string_range _ _ _ Hs) as HF.
  unfold caml_hash_mix_string. rewrite (mbnd_eq _ _ _ _ _ (string_length_eq _ _ _ Hs)).
  set (n := length l) in *. set (k := (n / 4)%nat).
  assert (n = (4 * k + n mod 4)%nat) as En by apply Nat.div_mod_eq. assert (n mod 4 < 4)%nat as Hr by (apply Nat.mod_upper_bound; lia).
  replace (Z.to_nat (Z.of_nat n / 4)) with k by (unfold k; rewrite <- (Nat2Z.id (n / 4)), Nat2Z.inj_div; done).
  destruct (mix_blocks_eq c s k 0 h l) as (h' & E & Em); [fold n; lia|by rewrite Z.add_0_r|].
  rewrite (mbnd_eq _ _ _ _ _ E), Em, Z.add_0_l.
  assert (length (drop (4 * k) l) = n mod 4)%nat as Hlen by (rewrite length_drop; fold n; lia).
  assert (Z.land (Z.of_nat n) 3 = Z.of_nat (length (drop (4 * k) l))) as ->.
  { change 3 with (2 ^ 2 - 1). rewrite land_low, Hlen, Nat2Z.inj_mod by lia. done. }
  erewrite mbnd_eq; [done|]. apply mix_tail_eq; [lia|by apply Forall_drop|].
  intros i b Hi. rewrite lookup_drop in Hi. apply Hb in Hi. by replace (s + 4 * Z.of_nat k + Z.of_nat i) with (s + Z.of_nat (4 * k + i)) by lia.
Qed.

(** ** Safety of the traversal *)

(** [m] reads memory and does not change it; it returns a result in [Q], or
    stops at an address that holds no word or for lack of fuel. *)
Definition reads_only {A} (m : CM A) (Q : A → Prop) : Prop :=
  ∀ c, match m c with
       | inr (c', x) => c' = c ∧ Q x
       | inl (CFault (BadLoad _)) | inl (CFault OutOfFuel) => True
       | inl _ => False
       end.

Section ReadsOnly.
Context {A B : Type}.

Lemma ro_ret (x : A) (Q : A → Prop) : Q x → reads_only (mreturn x) Q.
Proof. intros HQ c. done. Qed.

Lemma ro_bind (m : CM A) (k : A → CM B) P Q : reads_only m P → (∀ x, P x → reads_only (k x) Q) → reads_only (mbnd m k) Q.
Proof.
  intros Hm Hk c. specialize (Hm c). unfold mbnd. destruct (m c) as [e|[c' x]]; [done|].
  destruct Hm as [-> HP]. by apply Hk.
Qed.

Lemma ro_weaken (m : CM A) (P Q : A → Prop) : reads_only m P → (∀ x, P x → Q x) → reads_only m Q.
Proof.
  intros Hm HPQ c. specialize (Hm c). destruct (m c) as [e|[c' x]]; [done|]. destruct Hm. eauto.
Qed.

Lemma ro_get (k : context → CM B) Q : (∀ c, reads_only (k c) Q) → reads_only (mbnd mget k) Q.
Proof. intros Hk c. apply Hk. Qed.
End ReadsOnly.

Lemma ro_ld a : reads_only (ld a) (λ _, True).
Proof. intros c. unfold ld. by destruct (words c !! a). Qed.

Lemma ro_ldb a : reads_only (ldb a) (λ _, True).
Proof. intros c. unfold ldb. by destruct (load_byte (words c) a). Qed.

Create HintDb reads.
#[export] Hint Resolve ro_ld ro_ldb : reads.

(** One step of a proof of [reads_only]. *)
Ltac ro_step :=
  lazymatch goal with
  | |- reads_only (mreturn _) _ => apply ro_ret; done
  | |- reads_only (mbnd mget _) _ => apply ro_get; intros ?
  | |- reads_only (mbnd _ _) _ => eapply ro_bind; [solve [eauto with reads]|intros ? _]
  | |- reads_only (match ?x with (_, _) => _ end) _ => destruct x
  | |- reads_only (if ?b then _ else _) _ => destruct b
  | |- reads_only (match ?x with Some _ => _ | None => _ end) _ => destruct x
  end.
Ltac ro := repeat ro_step.

Lemma ro_accessors v i :
  reads_only (Wosize_val v) (λ _, True) ∧ reads_only (Bosize_val v) (λ _, True) ∧ reads_only (Tag_val v) (λ _, True) ∧
  reads_only (Oid_val v) (λ _, True) ∧ reads_only (Forward_val v) (λ _, True) ∧ reads_only (Infix_offset_val v) (λ _, True) ∧
  reads_only (Byte v i) (λ _, True) ∧ reads_only (Byte_u v i) (λ _, True).
Proof.
  unfold Wosize_val, Infix_offset_val, Bosize_val, Tag_val, Oid_val, Forward_val, Byte, Byte_u.
  split_and!; first [apply ro_ld | apply ro_ldb | ro].
Qed.
#[export] Hint Extern 1 (reads_only _ _) => apply ro_accessors : reads.

Lemma ro_string_length s : reads_only (caml_string_length s) (λ _, True).
Proof. unfold caml_string_length. ro. Qed.

Lemma ro_ld32 a : reads_only (ld32 a) (λ _, True).
Proof. unfold ld32. ro. Qed.
#[export] Hint Resolve ro_string_length ro_ld32 : reads.

Lemma ro_mix_blocks n s : ∀ i h, reads_only (mix_blocks n s i h) (λ _, True).
Proof. induction n as [|n IH]; intros i h; cbn [mix_blocks]; [by apply ro_ret|]. ro. apply IH. Qed.
#[export] Hint Resolve ro_mix_blocks : reads.

Lemma ro_mix_tail s i r h : reads_only (mix_tail s i r h) (λ _, True).
Proof.
  unfold mix_tail. apply (ro_bind _ _ (λ _, True)); [ro|]. intros w _.
  apply (ro_bind _ _ (λ _, True)); [ro|]. intros w' _. ro.
Qed.
#[export] Hint Resolve ro_mix_tail : reads.

Lemma ro_mix_string h s : reads_only (caml_hash_mix_string h s) (λ _, True).
Proof. unfold caml_hash_mix_string. ro. Qed.
#[export] Hint Resolve ro_mix_string : reads.

Lemma ro_hash_doubles n v : ∀ i h num, reads_only (hash_doubles n v i h num) (λ _, True).
Proof. induction n as [|n IH]; intros i h num; cbn [hash_doubles]; [by apply ro_ret|]. ro. apply IH. Qed.
#[export] Hint Resolve ro_hash_doubles : reads.

(** The queue has [HASH_QUEUE_SIZE] elements, of which at most [max 1 sz] are
    in use. *)
Definition queue_ok (sz : Z) (queue : list Z) (wr : Z) : Prop :=
  Z.of_nat (length queue) = HASH_QUEUE_SIZE ∧ 1 <= wr <= Z.max 1 sz ∧ sz <= HASH_QUEUE_SIZE.

Lemma ro_queue_set queue i v : 0 <= i < HASH_QUEUE_SIZE →
  reads_only (queue_set queue i v) (λ q, length q = length queue).
Proof.
  intros Hi. unfold queue_set. rewrite (proj2 (Z.leb_le _ _)), (proj2 (Z.ltb_lt _ _)) by lia.
  apply ro_ret. apply length_insert.
Qed.

Lemma ro_queue_get queue i : 0 <= i < Z.of_nat (length queue) → reads_only (queue_get queue i) (λ _, True).
Proof.
  intros Hi. unfold queue_get. destruct (lookup_lt_is_Some_2 queue (Z.to_nat i) ltac:(lia)) as [v ->].
  rewrite (proj2 (Z.leb_le _ _)) by lia. by apply ro_ret.
Qed.

Lemma ro_enqueue n v sz : ∀ i queue wr, queue_ok sz queue wr →
  reads_only (enqueue n v i sz queue wr) (λ p, queue_ok sz p.1 p.2).
Proof.
  induction n as [|n IH]; intros i queue wr Hq; cbn [enqueue]; [by apply ro_ret|].
  destruct (Z.leb_spec sz wr); [by apply ro_ret|]. eapply ro_bind; [apply ro_ld|]. intros x _.
  destruct Hq as (Hl & Hw & Hs). unfold HASH_QUEUE_SIZE in *.
  eapply ro_bind; [apply ro_queue_set; unfold HASH_QUEUE_SIZE; lia|]. cbn. intros q Hql. apply IH.
  unfold queue_ok, HASH_QUEUE_SIZE. lia.
Qed.

Lemma ro_hash_value custom_hash `{Runtime} fuel sz : ∀ v h num queue wr, queue_ok sz queue wr →
  reads_only (hash_value custom_hash fuel v h num sz queue wr) (λ p, queue_ok sz p.1.2 p.2).
Proof.
  induction fuel as [|fuel IH]; intros v h num queue wr Hq; cbn [hash_value]; [by intros c|].
  ro; try (by apply IH).
  eapply ro_bind; [by apply ro_enqueue|]. intros [q w] Hq'. by apply ro_ret.
Qed.

Lemma ro_hash_loop custom_hash `{Runtime} fuel sz : ∀ n rd wr num h queue,
  queue_ok sz queue wr → 0 <= rd → rd + Z.of_nat n = HASH_QUEUE_SIZE →
  reads_only (hash_loop custom_hash fuel n rd wr sz num h queue) (λ _, True).
Proof.
  induction n as [|n IH]; intros rd wr num h queue Hq Hrd Hn; cbn [hash_loop];
    (destruct (_ && _) eqn:E; [|by apply ro_ret]);
    apply andb_true_iff in E as [E%Z.ltb_lt _]; destruct Hq as (Hl & Hw & Hs); unfold HASH_QUEUE_SIZE in *; [lia|].
  eapply ro_bind; [apply ro_queue_get; lia|]. intros v _.
  eapply ro_bind; [apply (ro_hash_value _ _ sz); unfold queue_ok, HASH_QUEUE_SIZE; lia|].
  intros [[[h' num'] q'] wr'] Hq'. cbn in Hq'. apply IH; [done|lia|lia].
Qed.

(** Whatever the memory, the arguments and the depth of the structure,
    [caml_hash_r] never reads or writes outside its queue of 256 values and
    visits at most 256 of them, changes nothing, and returns an integer of 30
    bits; it stops only at a wild pointer or on a cycle of forwarding and
    infix pointers longer than the fuel. *)
Theorem hash_queue_safe custom_hash `{Runtime} fuel count limit seed obj :
  reads_only (caml_hash_r custom_hash fuel count limit seed obj)
    (λ r, 0 <= Long_val r < 2 ^ 30 ∧ Is_long r = true).
Proof.
  unfold caml_hash_r. set (sz := if _ || _ then _ else _).
  assert (0 <= sz <= HASH_QUEUE_SIZE) as Hsz.
  { unfold sz, HASH_QUEUE_SIZE. destruct (Z.ltb_spec (Long_val limit) 0), (Z.ltb_spec 256 (Long_val limit)); cbn; lia. }
  eapply ro_bind; [apply ro_queue_set; done|]. intros q Hq. cbn in Hq. rewrite length_replicate in Hq.
  eapply ro_bind; [apply (ro_hash_loop _ _ sz); [|done|done]|].
  { unfold queue_ok. rewrite Hq. unfold HASH_QUEUE_SIZE in *. lia. }
  intros h _. apply ro_ret. split; [|apply Is_long_Val_long].
  assert (0 <= Z.land (FINAL_MIX h) 1073741823 < 2 ^ 30) as Hr.
  { change 1073741823 with (2 ^ 30 - 1). rewrite land_low by lia. apply Z.mod_pos_bound. lia. }
  unfold Val_int. rewrite Long_val_index by lia. done.
Qed.

(** ** Witnesses *)

(** -1 is mixed as on a 32-bit platform, -0.0 as 0.0, two NaNs alike. *)
Lemma hash_mix_canonical_witness :
  caml_hash_mix_intnat 7 (-1) = caml_hash_mix_uint32 7 4294967295 ∧
  caml_hash_mix_double 7 (2 ^ 63) = caml_hash_mix_double 7 0 ∧
  caml_hash_mix_float 7 2143289344 = caml_hash_mix_float 7 4290772993.
Proof.
  destruct (hash_mix_canonical 7) as (H1 & H2 & H3). split_and!.
  - rewrite H1 by lia. reflexivity.
  - rewrite !H2 by lia_w. reflexivity.
  - rewrite !H3 by lia. reflexivity.
Defined.

Lemma hash_mix_string_witness : caml_hash_mix_string 0 4024 ex_strings = inr (ex_strings, 3370595297).
Proof. rewrite (hash_mix_string_correct ex_strings 4024 _ 0 ex_abc). vm_compute. reflexivity. Defined.

(** [Hashtbl.hash 0] is 129913994. *)
Example hash_long : caml_hash_r (H := ex_runtime) (λ _ _, None) 1 (Val_long 10) (Val_long 100) (Val_long 0) (Val_long 0) ex_strings
  = inr (ex_strings, Val_long 129913994).
Proof. vm_compute. reflexivity. Qed.

End Hash.
