(* ===== verification/Md5.v ===== *)
(** MD5 message digests (byterun/md5.c).

    [struct MD5Context] is the record [MD5Context]: the four words of the
    state, the two words of the bit count, and the 64 bytes of the buffer [in].
    The machine is little endian, so that [byteReverse] does nothing and
    [(uint32 * ) in] reads little-endian words.  The theorems compare the
    incremental implementation with the one-shot definition of RFC 1321. *)

From S2P Require Import Prelude Mlvalues Context Alloc Str.
Import Context Alloc Str.

Module Md5.

Record MD5Context : Type := MD5Ctx {
  md5_buf : Z * Z * Z * Z;
  md5_bits0 : Z;
  md5_bits1 : Z;
  md5_in : list Z
}.

Definition F1 (x y z : Z) : Z := Z.lxor z (Z.land x (Z.lxor y z)).
Definition F2 (x y z : Z) : Z := F1 z x y.
Definition F3 (x y z : Z) : Z := Z.lxor (Z.lxor x y) z.
Definition F4 (x y z : Z) : Z := Z.lxor y (Z.lor x (u32 (Z.lnot z))).

(** The new value of [w]. *)
Definition MD5STEP (f : Z → Z → Z → Z) (w x y z data s : Z) : Z :=
  let w := u32 (w + (f x y z + data)) in
  let w := Z.lor (u32 (Z.shiftl w s)) (Z.shiftr w (32 - s)) in
  u32 (w + x).

(** The local variables of [caml_MD5Transform], and an assignment
    [MD5STEP(f, w, x, y, z, in[i] + k, s)] to one of them. *)
Inductive var : Type := a | b | c | d.
Inductive assignment : Type := STEP (f : Z → Z → Z → Z) (w x y z : var) (i k s : Z).

Definition get (v : var) (r : Z * Z * Z * Z) : Z :=
  let '(ra, rb, rc, rd) := r in match v with a => ra | b => rb | c => rc | d => rd end.
Definition set (v : var) (n : Z) (r : Z * Z * Z * Z) : Z * Z * Z * Z :=
  let '(ra, rb, rc, rd) := r in
  match v with a => (n, rb, rc, rd) | b => (ra, n, rc, rd) | c => (ra, rb, n, rd) | d => (ra, rb, rc, n) end.
Definition assign (in_ : Z → Z) (r : Z * Z * Z * Z) (s : assignment) : Z * Z * Z * Z :=
  let '(STEP f w x y z i k s) := s in
  set w (MD5STEP f (get w r) (get x r) (get y r) (get z r) (in_ i + k) s) r.

Definition transform_body : list assignment :=
  [
   STEP F1 a b c d 0 0xd76aa478 7;
   STEP F1 d a b c 1 0xe8c7b756 12;
   STEP F1 c d a b 2 0x242070db 17;
   STEP F1 b c d a 3 0xc1bdceee 22;
   STEP F1 a b c d 4 0xf57c0faf 7;
   STEP F1 d a b c 5 0x4787c62a 12;
   STEP F1 c d a b 6 0xa8304613 17;
   STEP F1 b c d a 7 0xfd469501 22;
   STEP F1 a b c d 8 0x698098d8 7;
   STEP F1 d a b c 9 0x8b44f7af 12;
   STEP F1 c d a b 10 0xffff5bb1 17;
   STEP F1 b c d a 11 0x895cd7be 22;
   STEP F1 a b c d 12 0x6b901122 7;
   STEP F1 d a b c 13 0xfd987193 12;
   STEP F1 c d a b 14 0xa679438e 17;
   STEP F1 b c d a 15 0x49b40821 22;
   STEP F2 a b c d 1 0xf61e2562 5;
   STEP F2 d a b c 6 0xc040b340 9;
   STEP F2 c d a b 11 0x265e5a51 14;
   STEP F2 b c d a 0 0xe9b6c7aa 20;
   STEP F2 a b c d 5 0xd62f105d 5;
   STEP F2 d a b c 10 0x02441453 9;
   STEP F2 c d a b 15 0xd8a1e681 14;
   STEP F2 b c d a 4 0xe7d3fbc8 20;
   STEP F2 a b c d 9 0x21e1cde6 5;
   STEP F2 d a b c 14 0xc33707d6 9;
   STEP F2 c d a b 3 0xf4d50d87 14;
   STEP F2 b c d a 8 0x455a14ed 20;
   STEP F2 a b c d 13 0xa9e3e905 5;
   STEP F2 d a b c 2 0xfcefa3f8 9;
   STEP F2 c d a b 7 0x676f02d9 14;
   STEP F2 b c d a 12 0x8d2a4c8a 20;
   STEP F3 a b c d 5 0xfffa3942 4;
   STEP F3 d a b c 8 0x8771f681 11;
   STEP F3 c d a b 11 0x6d9d6122 16;
   STEP F3 b c d a 14 0xfde5380c 23;
   STEP F3 a b c d 1 0xa4beea44 4;
   STEP F3 d a b c 4 0x4bdecfa9 11;
   STEP F3 c d a b 7 0xf6bb4b60 16;
   STEP F3 b c d a 10 0xbebfbc70 23;
   STEP F3 a b c d 13 0x289b7ec6 4;
   STEP F3 d a b c 0 0xeaa127fa 11;
   STEP F3 c d a b 3 0xd4ef3085 16;
   STEP F3 b c d a 6 0x04881d05 23;
   STEP F3 a b c d 9 0xd9d4d039 4;
   STEP F3 d a b c 12 0xe6db99e5 11;
   STEP F3 c d a b 15 0x1fa27cf8 16;
   STEP F3 b c d a 2 0xc4ac5665 23;
   STEP F4 a b c d 0 0xf4292244 6;
   STEP F4 d a b c 7 0x432aff97 10;
   STEP F4 c d a b 14 0xab9423a7 15;
   STEP F4 b c d a 5 0xfc93a039 21;
   STEP F4 a b c d 12 0x655b59c3 6;
   STEP F4 d a b c 3 0x8f0ccc92 10;
   STEP F4 c d a b 10 0xffeff47d 15;
   STEP F4 b c d a 1 0x85845dd1 21;
   STEP F4 a b c d 8 0x6fa87e4f 6;
   STEP F4 d a b c 15 0xfe2ce6e0 10;
   STEP F4 c d a b 6 0xa3014314 15;
   STEP F4 b c d a 13 0x4e0811a1 21;
   STEP F4 a b c d 4 0xf7537e82 6;
   STEP F4 d a b c 11 0xbd3af235 10;
   STEP F4 c d a b 2 0x2ad7d2bb 15;
   STEP F4 b c d a 9 0xeb86d391 21 ].

Definition caml_MD5Transform (buf : Z * Z * Z * Z) (in_ : Z → Z) : Z * Z * Z * Z :=
  let '(buf0, buf1, buf2, buf3) := buf in
  let '(ra, rb, rc, rd) := foldl (assign in_) buf transform_body in
  (u32 (buf0 + ra), u32 (buf1 + rb), u32 (buf2 + rc), u32 (buf3 + rd)).

(** The little-endian [uint32] at word [i] of an array of bytes, and the four
    bytes of a [uint32]. *)
Definition le32 (bytes : list Z) (i : Z) : Z :=
  let byte k := nth (Z.to_nat (4 * i + k)) bytes 0 in
  byte 0 + 2 ^ 8 * byte 1 + 2 ^ 16 * byte 2 + 2 ^ 24 * byte 3.
Definition bytes32 (w : Z) : list Z :=
  [w mod 256; w / 2 ^ 8 mod 256; w / 2 ^ 16 mod 256; w / 2 ^ 24 mod 256].

Definition caml_MD5Init (ctx : MD5Context) : MD5Context :=
  MD5Ctx (0x67452301, 0xefcdab89, 0x98badcfe, 0x10325476) 0 0 (md5_in ctx).

Definition transform (ctx : MD5Context) : MD5Context :=
  MD5Ctx (caml_MD5Transform (md5_buf ctx) (le32 (md5_in ctx))) (md5_bits0 ctx) (md5_bits1 ctx) (md5_in ctx).
(** [memcpy(in + p, data, n)] *)
Definition fill_in (ctx : MD5Context) (p : Z) (data : list Z) : MD5Context :=
  MD5Ctx (md5_buf ctx) (md5_bits0 ctx) (md5_bits1 ctx) (overwrite (md5_in ctx) (Z.to_nat p) data).

(** [while (len >= 64)], [n] times: the context and the rest of the data. *)
Fixpoint process_chunks (n : nat) (ctx : MD5Context) (data : list Z) : MD5Context * list Z :=
  match n with
  | O => (ctx, data)
  | S n => process_chunks n (transform (fill_in ctx 0 (take 64 data))) (drop 64 data)
  end.

Definition update_chunks (ctx : MD5Context) (data : list Z) : MD5Context :=
  let '(ctx, data) := process_chunks (length data / 64) ctx data in
  fill_in ctx 0 data.

Definition caml_MD5Update (ctx : MD5Context) (data : list Z) : MD5Context :=
  let len := Z.of_nat (length data) in
  let t := md5_bits0 ctx in
  let bits0 := u32 (t + u32 (Z.shiftl (u32 len) 3)) in
  let bits1 := (if bits0 <? t then u32 (md5_bits1 ctx + 1) else md5_bits1 ctx) in
  let bits1 := u32 (bits1 + Z.shiftr len 29) in
  let ctx := MD5Ctx (md5_buf ctx) bits0 bits1 (md5_in ctx) in
  let t := Z.land (Z.shiftr t 3) 0x3f in
  if negb (t =? 0) then
    let p := t in
    let t := 64 - t in
    if len <? t then fill_in ctx p data
    else update_chunks (transform (fill_in ctx p (take (Z.to_nat t) data))) (drop (Z.to_nat t) data)
  else update_chunks ctx data.

(** The digest; the context is then erased. *)
Definition caml_MD5Final (ctx : MD5Context) : list Z :=
  let count := Z.land (Z.shiftr (md5_bits0 ctx) 3) 0x3F in
  let ctx := fill_in ctx count [0x80] in
  let p := count + 1 in
  let count := 64 - 1 - count in
  let ctx := (if count <? 8
            then fill_in (transform (fill_in ctx p (replicate (Z.to_nat count) 0))) 0 (replicate 56 0)
            else fill_in ctx p (replicate (Z.to_nat (count - 8)) 0)) in
  let ctx := fill_in ctx 56 (bytes32 (md5_bits0 ctx) ++ bytes32 (md5_bits1 ctx)) in
  let '(buf0, buf1, buf2, buf3) := md5_buf (transform ctx) in
  bytes32 buf0 ++ bytes32 buf1 ++ bytes32 buf2 ++ bytes32 buf3.

(** [junk] is the uninitialised context on the stack. *)
Definition caml_md5_block (junk : MD5Context) (data : list Z) : list Z :=
  caml_MD5Final (caml_MD5Update (caml_MD5Init junk) data).

Section Operations.
Context `{Runtime}.

Definition caml_md5_string_r (junk : MD5Context) (str ofs len : Z) : CM Z :=
  let* data := ldbs (str + Long_val ofs) (Z.to_nat (u64 (Long_val len))) in
  let md5_ctx := caml_MD5Update (caml_MD5Init junk) data in
  let* (res, _) := caml_alloc_string_r 16 [] in
  stbs res (caml_MD5Final md5_ctx) ;;;
  mreturn res.
End Operations.

Example md5_empty : caml_md5_block (MD5Ctx (0, 0, 0, 0) 0 0 (replicate 64 7)) [] =
  [0xd4; 0x1d; 0x8c; 0xd9; 0x8f; 0x00; 0xb2; 0x04; 0xe9; 0x80; 0x09; 0x98; 0xec; 0xf8; 0x42; 0x7e].
Proof. vm_compute. reflexivity. Qed.
Example md5_abc : caml_md5_block (MD5Ctx (0, 0, 0, 0) 0 0 (replicate 64 7)) [97; 98; 99] =
  [0x90; 0x01; 0x50; 0x98; 0x3c; 0xd2; 0x4f; 0xb0; 0xd6; 0x96; 0x3f; 0x7d; 0x28; 0xe1; 0x7f; 0x72].
Proof. vm_compute. reflexivity. Qed.

(** ** RFC 1321 *)

Module Rfc1321.

Definition F (x y z : Z) : Z := Z.lor (Z.land x y) (Z.land (Z.lnot x) z).
Definition G (x y z : Z) : Z := Z.lor (Z.land x z) (Z.land y (Z.lnot z)).
Definition H (x y z : Z) : Z := Z.lxor x (Z.lxor y z).
Definition I (x y z : Z) : Z := Z.lxor y (Z.lor x (2 ^ 32 - 1 - z)).

Definition rotl (x s : Z) : Z := (x * 2 ^ s) mod 2 ^ 32 + x / 2 ^ (32 - s).

(** [floor (2^32 * |sin i|)], with the series of the sine in fixed point of 256
    bits: [term] is the current term times [2^256]. *)
Fixpoint sin_series (n : nat) (x k term acc : Z) : Z :=
  match n with
  | O => acc
  | S n => sin_series n x (k + 2) (- term * x * x / ((k + 1) * (k + 2))) (acc + term)
  end.
Definition T (i : Z) : Z := Z.abs (sin_series 160 i 1 (i * 2 ^ 256) 0) / 2 ^ 224.

(** Step [i] (from 0) of the 64: its function, the word it uses, its shift. *)
Definition round_fun (i : Z) : Z → Z → Z → Z :=
  if i <? 16 then F else if i <? 32 then G else if i <? 48 then H else I.
Definition round_word (i : Z) : Z :=
  if i <? 16 then i else if i <? 32 then (5 * i + 1) mod 16
  else if i <? 48 then (3 * i + 5) mod 16 else (7 * i) mod 16.
Definition round_shift (i : Z) : Z :=
  nth (Z.to_nat (i mod 4)) (if i <? 16 then [7; 12; 17; 22] else if i <? 32 then [5; 9; 14; 20]
    else if i <? 48 then [4; 11; 16; 23] else [6; 10; 15; 21]) 0.

(** [A = B + ((A + f(B,C,D) + X[k] + T[i]) <<< s)], then the registers turn. *)
Definition step (X : Z → Z) (i : Z) (r : Z * Z * Z * Z) : Z * Z * Z * Z :=
  let '(A, B, C, D) := r in
  (D, (B + rotl ((A + round_fun i B C D + X (round_word i) + T (i + 1)) mod 2 ^ 32) (round_shift i)) mod 2 ^ 32, B, C).

Fixpoint steps (n : nat) (X : Z → Z) (i : Z) (r : Z * Z * Z * Z) : Z * Z * Z * Z :=
  match n with O => r | S n => steps n X (i + 1) (step X i r) end.

Definition compress (buf : Z * Z * Z * Z) (block : list Z) : Z * Z * Z * Z :=
  let '(A, B, C, D) := buf in
  let '(A', B', C', D') := steps 64 (le32 block) 0 buf in
  ((A + A') mod 2 ^ 32, (B + B') mod 2 ^ 32, (C + C') mod 2 ^ 32, (D + D') mod 2 ^ 32).

(** A 1 bit, zeros up to 56 bytes modulo 64, and the length in bits. *)
Definition padded_message (msg : list Z) : list Z :=
  let n := Z.of_nat (length msg) in
  let bits := (8 * n) mod 2 ^ 64 in
  msg ++ [128] ++ replicate (Z.to_nat ((55 - n) mod 64)) 0 ++ bytes32 (bits mod 2 ^ 32) ++ bytes32 (bits / 2 ^ 32).

Fixpoint blocks (n : nat) (buf : Z * Z * Z * Z) (msg : list Z) : Z * Z * Z * Z :=
  match n with O => buf | S n => blocks n (compress buf (take 64 msg)) (drop 64 msg) end.

Definition init : Z * Z * Z * Z := (0x67452301, 0xefcdab89, 0x98badcfe, 0x10325476).

Definition digest (msg : list Z) : list Z :=
  let p := padded_message msg in
  let '(A, B, C, D) := blocks (length p / 64) init p in
  bytes32 A ++ bytes32 B ++ bytes32 C ++ bytes32 D.

End Rfc1321.

(** *** The compression function *)

Lemma F1_F x y z : F1 x y z = Rfc1321.F x y z.
Proof.
  unfold F1, Rfc1321.F. apply Z.bits_inj'. intros i Hi.
  rewrite ?Z.lxor_spec, ?Z.lor_spec, ?Z.land_spec, ?Z.lxor_spec, ?Z.lnot_spec by done.
  by destruct (Z.testbit x i), (Z.testbit y i), (Z.testbit z i).
Qed.

Lemma F2_G x y z : F2 x y z = Rfc1321.G x y z.
Proof.
  unfold F2, F1, Rfc1321.G. apply Z.bits_inj'. intros i Hi.
  rewrite ?Z.lxor_spec, ?Z.lor_spec, ?Z.land_spec, ?Z.lxor_spec, ?Z.lnot_spec by done.
  by destruct (Z.testbit x i), (Z.testbit y i), (Z.testbit z i).
Qed.

Lemma F3_H x y z : F3 x y z = Rfc1321.H x y z.
Proof. unfold F3, Rfc1321.H. by rewrite Z.lxor_assoc. Qed.

Lemma F4_I x y z : 0 <= z < 2 ^ 32 → F4 x y z = Rfc1321.I x y z.
Proof.
  intros Hz. unfold F4, Rfc1321.I. do 2 f_equal. unfold Z.lnot, u32, H32.
  symmetry. apply (Z.mod_unique_pos _ _ (-1)); lia.
Qed.

Lemma MD5STEP_eq f w x y z data s : 0 < s < 32 →
  MD5STEP f w x y z data s = (x + Rfc1321.rotl ((w + f x y z + data) mod 2 ^ 32) s) mod 2 ^ 32.
Proof.
  intros Hs. unfold MD5STEP, Rfc1321.rotl, u32. change H32 with (2 ^ 32).
  replace (w + (f x y z + data)) with (w + f x y z + data) by lia.
  set (v := (w + f x y z + data) mod 2 ^ 32). assert (0 <= v < 2 ^ 32) by (apply Z.mod_pos_bound; lia).
  rewrite Z.shiftl_mul_pow2, Z.shiftr_div_pow2 by lia.
  assert ((v * 2 ^ s) mod 2 ^ 32 = (v mod 2 ^ (32 - s)) * 2 ^ s) as ->.
  { replace (2 ^ 32) with (2 ^ (32 - s) * 2 ^ s) by (rewrite <- Z.pow_add_r by lia; f_equal; lia).
    by rewrite Z.mul_mod_distr_r by lia. }
  rewrite lor_shifted_low; [f_equal; lia|lia|]. split; [apply Z.div_pos; lia|].
  apply Z.div_lt_upper_bound; [lia|]. rewrite <- Z.pow_add_r by lia. replace (32 - s + s) with 32 by lia. lia.
Qed.

Lemma MD5STEP_range f w x y z data s : 0 <= MD5STEP f w x y z data s < 2 ^ 32.
Proof. unfold MD5STEP, u32. apply Z.mod_pos_bound. done. Qed.

(** The table of sines is the constants of the code. *)
Definition constants : list Z := map (λ i, Rfc1321.T (Z.of_nat i + 1)) (seq 0 64).

(** One of the 64 steps: [i] with its function, word, constant and shift. *)
Lemma md5_step_eq X i f k t s A B C D :
  (∀ x y z, 0 <= z < 2 ^ 32 → f x y z = Rfc1321.round_fun i x y z) → Rfc1321.round_word i = k →
  Rfc1321.T (i + 1) = t → Rfc1321.round_shift i = s → 0 < s < 32 → 0 <= D < 2 ^ 32 →
  Rfc1321.step X i (A, B, C, D) = (D, MD5STEP f A B C D (X k + t) s, B, C).
Proof.
  intros Hf <- <- <- Hs Hd. unfold Rfc1321.step. by rewrite MD5STEP_eq, Hf, (Z.add_assoc _ (X _)) by done.
Qed.

Lemma md5_steps_S n X i r : Rfc1321.steps (S n) X i r = Rfc1321.steps n X (i + 1) (Rfc1321.step X i r).
Proof. reflexivity. Qed.

Definition buf_ok (buf : Z * Z * Z * Z) : Prop :=
  let '(A, B, C, D) := buf in
  0 <= A < 2 ^ 32 ∧ 0 <= B < 2 ^ 32 ∧ 0 <= C < 2 ^ 32 ∧ 0 <= D < 2 ^ 32.

(** An assignment of the code. *)
Section Assign.
Context (X : Z → Z) (r0 r1 r2 r3 : Z) (f : Z → Z → Z → Z) (i k s : Z) (l : list assignment).

Lemma assign_a : foldl (assign X) (r0, r1, r2, r3) (STEP f a b c d i k s :: l) =
  foldl (assign X) (MD5STEP f r0 r1 r2 r3 (X i + k) s, r1, r2, r3) l.
Proof. reflexivity. Qed.
Lemma assign_d : foldl (assign X) (r0, r1, r2, r3) (STEP f d a b c i k s :: l) =
  foldl (assign X) (r0, r1, r2, MD5STEP f r3 r0 r1 r2 (X i + k) s) l.
Proof. reflexivity. Qed.
Lemma assign_c : foldl (assign X) (r0, r1, r2, r3) (STEP f c d a b i k s :: l) =
  foldl (assign X) (r0, r1, MD5STEP f r2 r3 r0 r1 (X i + k) s, r3) l.
Proof. reflexivity. Qed.
Lemma assign_b : foldl (assign X) (r0, r1, r2, r3) (STEP f b c d a i k s :: l) =
  foldl (assign X) (r0, MD5STEP f r1 r2 r3 r0 (X i + k) s, r2, r3) l.
Proof. reflexivity. Qed.
End Assign.

(** Follow one assignment of the code and one step of the reference. *)
Ltac side_condition :=
  lazymatch goal with
  | |- ∀ _ _ _, _ → _ = Rfc1321.round_fun ?n _ _ _ =>
      let g := eval vm_compute in (n / 16) in
      lazymatch g with
      | 0 => intros; apply F1_F | 1 => intros; apply F2_G | 2 => intros; apply F3_H | 3 => intros; apply F4_I; assumption
      end
  | |- 0 <= ?x < 2 ^ 32 => assumption
  | |- 0 < _ < 32 => lia
  | |- _ => vm_compute; reflexivity
  end.
Ltac md5_step :=
  lazymatch goal with
  | |- foldl (assign ?X) _ (STEP ?f _ _ _ _ ?i ?k ?s :: _) = _ =>
      first [rewrite assign_a | rewrite assign_b | rewrite assign_c | rewrite assign_d];
      rewrite md5_steps_S, (md5_step_eq X _ f i k s) by side_condition;
      let v := fresh "v" in let Hv := fresh "Hv" in
      match goal with |- context [MD5STEP f ?p ?q ?u ?t (X i + k) s] =>
        pose proof (MD5STEP_range f p q u t (X i + k) s) as Hv; generalize dependent (MD5STEP f p q u t (X i + k) s); intros v Hv end
  end.

Lemma transform_steps buf X : buf_ok buf → foldl (assign X) buf transform_body = Rfc1321.steps 64 X 0 buf.
Proof.
  destruct buf as [[[r0 r1] r2] r3]. intros (H0 & H1 & H2 & H3). unfold transform_body.

  do 64 md5_step. reflexivity.
Qed.

Lemma transform_compress buf block : buf_ok buf →
  caml_MD5Transform buf (le32 block) = Rfc1321.compress buf block ∧ buf_ok (Rfc1321.compress buf block).
Proof.
  intros Hb. unfold caml_MD5Transform, Rfc1321.compress. rewrite transform_steps by done.
  destruct buf as [[[r0 r1] r2] r3]. destruct (Rfc1321.steps 64 _ 0 _) as [[[s0 s1] s2] s3].
  split; [done|]. cbn -[Z.pow Z.modulo]. split_and!; try (apply Z.mod_pos_bound; lia).
Qed.

(** *** Blocks of a message *)

Lemma blocks_add n k buf msg : Rfc1321.blocks (n + k) buf msg = Rfc1321.blocks k (Rfc1321.blocks n buf msg) (drop (64 * n) msg).
Proof.
  revert buf msg. induction n as [|n IH]; intros buf msg; [by rewrite Nat.mul_0_r|]. cbn [Rfc1321.blocks Nat.add].
  rewrite IH, drop_drop. do 2 f_equal. lia.
Qed.

Lemma blocks_app n buf m1 m2 : (64 * n <= length m1)%nat → Rfc1321.blocks n buf (m1 ++ m2) = Rfc1321.blocks n buf m1.
Proof.
  revert buf m1. induction n as [|n IH]; intros buf m1 Hl; [done|]. cbn [Rfc1321.blocks].
  rewrite take_app_le, drop_app_le by lia. apply IH. rewrite length_drop. lia.
Qed.

Lemma blocks_ok n buf msg : buf_ok buf → buf_ok (Rfc1321.blocks n buf msg).
Proof.
  revert buf msg. induction n as [|n IH]; intros buf msg Hb; [done|]. cbn [Rfc1321.blocks]. apply IH.
  by apply transform_compress.
Qed.

(** The state after the full blocks of a message, and the rest of it. *)
Definition state_of (msg : list Z) : Z * Z * Z * Z := Rfc1321.blocks (length msg / 64) Rfc1321.init msg.
Definition tail_of (msg : list Z) : list Z := drop (64 * (length msg / 64)) msg.

Lemma tail_length msg : length (tail_of msg) = (length msg mod 64)%nat.
Proof. unfold tail_of. rewrite length_drop. pose proof (Nat.div_mod_eq (length msg) 64). lia. Qed.

Lemma state_ok msg : buf_ok (state_of msg).
Proof. apply blocks_ok. cbv. repeat split; congruence. Qed.

(** Data that do not complete a block, and data that do. *)
Lemma state_short msg data : (length msg mod 64 + length data < 64)%nat →
  state_of (msg ++ data) = state_of msg ∧ tail_of (msg ++ data) = tail_of msg ++ data.
Proof.
  intros Hl. assert (length (msg ++ data) / 64 = length msg / 64)%nat as E.
  { rewrite length_app. symmetry. apply (Nat.div_unique _ _ _ (length msg mod 64 + length data)); [done|].
    pose proof (Nat.div_mod_eq (length msg) 64). lia. }
  pose proof (Nat.mul_div_le (length msg) 64). unfold state_of, tail_of. rewrite E. split.
  - apply blocks_app. lia.
  - apply drop_app_le. lia.
Qed.

Lemma state_full msg data : (length msg mod 64 + length data = 64)%nat →
  state_of (msg ++ data) = Rfc1321.compress (state_of msg) (tail_of msg ++ data) ∧ tail_of (msg ++ data) = [].
Proof.
  intros Hl. pose proof (Nat.div_mod_eq (length msg) 64) as E0.
  assert (length (msg ++ data) / 64 = length msg / 64 + 1)%nat as E.
  { rewrite length_app. symmetry. apply (Nat.div_unique _ _ _ 0); lia. }
  unfold state_of, tail_of. rewrite E. split.
  - rewrite blocks_add, blocks_app, drop_app_le by lia. cbn [Rfc1321.blocks]. f_equal. apply take_ge.
    rewrite length_app, length_drop. lia.
  - apply drop_ge. rewrite length_app. lia.
Qed.

(** *** The incremental state *)

(** The context has digested [msg]. *)
Record digested (ctx : MD5Context) (msg : list Z) : Prop := {
  digested_buf : md5_buf ctx = state_of msg;
  digested_in : length (md5_in ctx) = 64%nat;
  digested_tail : take (length msg mod 64) (md5_in ctx) = tail_of msg
}.
(** and its bit count is that of [msg]. *)
Record counted (ctx : MD5Context) (msg : list Z) : Prop := {
  counted_bits : md5_bits0 ctx + 2 ^ 32 * md5_bits1 ctx = (8 * Z.of_nat (length msg)) mod 2 ^ 64;
  counted_bits0 : 0 <= md5_bits0 ctx < 2 ^ 32;
  counted_bits1 : 0 <= md5_bits1 ctx < 2 ^ 32
}.

Lemma overwrite_prefix l o bs : (o + length bs <= length l)%nat → take (o + length bs) (overwrite l o bs) = take o l ++ bs.
Proof.
  intros Hl. unfold overwrite. rewrite app_assoc. apply take_app_length'. rewrite length_app, length_take. lia.
Qed.

Lemma fill_short ctx msg data : digested ctx msg → (length msg mod 64 + length data < 64)%nat →
  digested (fill_in ctx (Z.of_nat (length msg mod 64)) data) (msg ++ data).
Proof.
  intros [Hb Hi Ht] Hl. destruct (state_short msg data Hl) as [E1 E2]. split; cbn [md5_buf md5_in fill_in].
  - by rewrite E1.
  - rewrite overwrite_length by (rewrite Nat2Z.id; lia). done.
  - rewrite Nat2Z.id, E2, <- Ht, <- overwrite_prefix by lia. f_equal. rewrite length_app.
    rewrite <- Nat.add_mod_idemp_l by lia. by apply Nat.mod_small.
Qed.

Lemma fill_full ctx msg data : digested ctx msg → (length msg mod 64 + length data = 64)%nat →
  digested (transform (fill_in ctx (Z.of_nat (length msg mod 64)) data)) (msg ++ data).
Proof.
  intros [Hb Hi Ht] Hl. destruct (state_full msg data Hl) as [E1 E2].
  assert (overwrite (md5_in ctx) (length msg mod 64) data = tail_of msg ++ data) as E.
  { rewrite <- Ht, <- overwrite_prefix by lia. symmetry. apply take_ge. rewrite overwrite_length by lia. lia. }
  split; cbn [md5_buf md5_in fill_in transform]; rewrite Nat2Z.id, E.
  - rewrite Hb, E1. apply transform_compress, state_ok.
  - rewrite length_app, tail_length. lia.
  - rewrite E2. replace (length (msg ++ data) mod 64)%nat with 0%nat; [done|].
    rewrite length_app, <- Nat.add_mod_idemp_l, Hl by lia. done.
Qed.

Lemma process_chunks_spec n : ∀ ctx msg data, digested ctx msg → (length msg mod 64 = 0)%nat → (64 * n <= length data)%nat →
  let '(ctx', data') := process_chunks n ctx data in
  digested ctx' (msg ++ take (64 * n) data) ∧ data' = drop (64 * n) data ∧
  md5_bits0 ctx' = md5_bits0 ctx ∧ md5_bits1 ctx' = md5_bits1 ctx.
Proof.
  induction n as [|n IH]; intros ctx msg data Hd Hm Hl; cbn [process_chunks].
  - rewrite Nat.mul_0_r, app_nil_r. done.
  - assert (length (take 64 data) = 64%nat) as L64 by (rewrite length_take; lia).
    pose proof (fill_full ctx msg (take 64 data) Hd ltac:(lia)) as Hf. rewrite Hm in Hf. change (Z.of_nat 0) with 0 in Hf.
    specialize (IH _ _ (drop 64 data) Hf). destruct (process_chunks n _ _) as [ctx' data'].
    destruct IH as (H1 & -> & H3 & H4).
    + rewrite length_app, L64, <- Nat.add_mod_idemp_l, Hm by lia. done.
    + rewrite length_drop. lia.
    + rewrite drop_drop. replace (64 + 64 * n)%nat with (64 * S n)%nat by lia. split_and!; try done.
      rewrite <- app_assoc, take_drop_commute in H1. replace (64 + 64 * n)%nat with (64 * S n)%nat in H1 by lia.
      rewrite <- (take_drop 64 (take (64 * S n) data)), take_take, Nat.min_l by lia. done.
Qed.

Lemma update_chunks_spec ctx msg data : digested ctx msg → (length msg mod 64 = 0)%nat →
  digested (update_chunks ctx data) (msg ++ data) ∧
  md5_bits0 (update_chunks ctx data) = md5_bits0 ctx ∧ md5_bits1 (update_chunks ctx data) = md5_bits1 ctx.
Proof.
  intros Hd Hm. unfold update_chunks. pose proof (Nat.div_mod_eq (length data) 64) as E.
  pose proof (Nat.mod_upper_bound (length data) 64 ltac:(lia)) as Hr.
  pose proof (process_chunks_spec (length data / 64) ctx msg data Hd Hm ltac:(lia)) as Hp.
  destruct (process_chunks _ _ _) as [ctx' data']. destruct Hp as (H1 & -> & H3 & H4). split; [|done].
  set (k := (64 * (length data / 64))%nat) in *.
  assert (length (msg ++ take k data) mod 64 = 0)%nat as Hk.
  { rewrite length_app, length_take, Nat.min_l, <- Nat.add_mod_idemp_l, Hm by lia. cbn [Nat.add].
    unfold k. rewrite Nat.mul_comm. apply Nat.Div0.mod_mul. }
  pose proof (fill_short ctx' _ (drop k data) H1) as Hf. rewrite Hk in Hf. change (Z.of_nat 0) with 0 in Hf.
  rewrite <- app_assoc, take_drop in Hf. apply Hf. rewrite length_drop. lia.
Qed.

(** The position in the buffer is read off the bit count. *)
Lemma buffer_position ctx msg : counted ctx msg →
  Z.land (Z.shiftr (md5_bits0 ctx) 3) 0x3f = Z.of_nat (length msg mod 64).
Proof.
  intros [Hb H0 H1]. change 0x3f with (2 ^ 6 - 1). rewrite land_low, Z.shiftr_div_pow2, Nat2Z.inj_mod by lia.
  change (Z.of_nat 64) with 64. Z.to_euclidean_division_equations; lia.
Qed.

Lemma update_count ctx msg data :
  counted ctx msg → Z.of_nat (length data) < 2 ^ 64 →
  let bits0 := u32 (md5_bits0 ctx + u32 (Z.shiftl (u32 (Z.of_nat (length data))) 3)) in
  let bits1 := if bits0 <? md5_bits0 ctx then u32 (md5_bits1 ctx + 1) else md5_bits1 ctx in
  counted (MD5Ctx (md5_buf ctx) bits0 (u32 (bits1 + Z.shiftr (Z.of_nat (length data)) 29)) (md5_in ctx)) (msg ++ data).
Proof.
  intros [Hb H0 H1] Hl bits0 bits1. split; cbn [md5_bits0 md5_bits1].
  - rewrite length_app, Nat2Z.inj_add. subst bits0 bits1. set (n := Z.of_nat (length data)) in *.
    rewrite Z.shiftl_mul_pow2, Z.shiftr_div_pow2 by lia. unfold u32, H32.
    destruct (Z.ltb_spec ((md5_bits0 ctx + (n mod 4294967296 * 2 ^ 3) mod 4294967296) mod 4294967296) (md5_bits0 ctx));
      Z.to_euclidean_division_equations; lia.
  - apply Z.mod_pos_bound. done.
  - apply Z.mod_pos_bound. done.
Qed.

Lemma update_spec ctx msg data :
  digested ctx msg → counted ctx msg → Z.of_nat (length data) < 2 ^ 64 →
  digested (caml_MD5Update ctx data) (msg ++ data) ∧ counted (caml_MD5Update ctx data) (msg ++ data).
Proof.
  intros Hd Hc Hl. pose proof (update_count ctx msg data Hc Hl) as Hc'. unfold caml_MD5Update. cbv zeta in Hc'.
  rewrite (buffer_position _ _ Hc). cbv zeta. set (ctx1 := MD5Ctx _ _ _ _) in *.
  assert (digested ctx1 msg) as Hd1 by (destruct Hd; by split).
  pose proof (Nat.mod_upper_bound (length msg) 64 ltac:(lia)) as Hr.
  assert (∀ ctx2, md5_bits0 ctx2 = md5_bits0 ctx1 → md5_bits1 ctx2 = md5_bits1 ctx1 → counted ctx2 (msg ++ data)) as Hcount.
  { intros ctx2 E0 E1. destruct Hc'. split; by rewrite ?E0, ?E1. }
  destruct (Z.eqb_spec (Z.of_nat (length msg mod 64)) 0) as [E|E]; cbn [negb].
  - destruct (update_chunks_spec ctx1 msg data Hd1 ltac:(lia)) as (? & ? & ?). auto.
  - destruct (Z.ltb_spec (Z.of_nat (length data)) (64 - Z.of_nat (length msg mod 64))).
    + split; [apply fill_short; [done|lia]|by apply Hcount].
    + set (k := Z.to_nat (64 - Z.of_nat (length msg mod 64))). assert (length (take k data) = k) as Lk by (rewrite length_take; lia).
      pose proof (fill_full ctx1 msg (take k data) Hd1 ltac:(lia)) as Hf.
      destruct (update_chunks_spec _ _ (drop k data) Hf) as (G1 & G2 & G3).
      { rewrite length_app, Lk, <- Nat.add_mod_idemp_l by lia. unfold k.
        replace (length msg mod 64 + Z.to_nat (64 - Z.of_nat (length msg mod 64)))%nat with 64%nat by lia. done. }
      rewrite <- app_assoc, take_drop in G1. auto.
Qed.

Lemma init_spec junk : length (md5_in junk) = 64%nat → digested (caml_MD5Init junk) [] ∧ counted (caml_MD5Init junk) [].
Proof. intros Hj. split; split; try done. Qed.

Lemma overwrite_overwrite l o x y : (o + length x + length y <= length l)%nat →
  overwrite (overwrite l o x) (o + length x) y = overwrite l o (x ++ y).
Proof.
  intros Hl. unfold overwrite at 1 3. rewrite overwrite_prefix by lia. rewrite length_app, <- !app_assoc. do 3 f_equal.
  unfold overwrite. rewrite !drop_app. rewrite (drop_ge (take o l)) by (rewrite length_take; lia).
  rewrite (drop_ge x) by (rewrite length_take; lia). cbn [app]. rewrite drop_drop, length_take. f_equal. lia.
Qed.

Lemma fill_fill ctx o x y : 0 <= o → (Z.to_nat o + length x + length y <= length (md5_in ctx))%nat →
  fill_in (fill_in ctx o x) (o + Z.of_nat (length x)) y = fill_in ctx o (x ++ y).
Proof.
  intros Ho Hl. unfold fill_in. cbn [md5_buf md5_bits0 md5_bits1 md5_in]. f_equal.
  replace (Z.to_nat (o + Z.of_nat (length x))) with (Z.to_nat o + length x)%nat by lia. by apply overwrite_overwrite.
Qed.

(** The length at the end of the padding is the bit count of the context. *)
Lemma counted_bytes ctx msg : counted ctx msg →
  let bits := (8 * Z.of_nat (length msg)) mod 2 ^ 64 in
  bytes32 (bits mod 2 ^ 32) ++ bytes32 (bits / 2 ^ 32) = bytes32 (md5_bits0 ctx) ++ bytes32 (md5_bits1 ctx).
Proof.
  intros [Hb H0 H1] bits. subst bits. rewrite <- Hb. do 2 f_equal; Z.to_euclidean_division_equations; lia.
Qed.

(** The bit count in the last block. *)
Definition bit_count (ctx : MD5Context) : list Z := bytes32 (md5_bits0 ctx) ++ bytes32 (md5_bits1 ctx).
Lemma fill_bits ctx p data : bit_count (fill_in ctx p data) = bit_count ctx.
Proof. reflexivity. Qed.
Lemma transform_bits ctx : bit_count (transform ctx) = bit_count ctx.
Proof. reflexivity. Qed.

Lemma final_buf ctx msg : digested ctx msg → counted ctx msg →
  caml_MD5Final ctx = let '(A, B, C, D) := state_of (Rfc1321.padded_message msg) in bytes32 A ++ bytes32 B ++ bytes32 C ++ bytes32 D.
Proof.
  intros Hd Hc. unfold caml_MD5Final, Rfc1321.padded_message. rewrite (buffer_position _ _ Hc), (counted_bytes _ _ Hc).
  fold (bit_count ctx). repeat match goal with |- context [bytes32 (md5_bits0 ?x) ++ bytes32 (md5_bits1 ?x)] =>
    change (bytes32 (md5_bits0 x) ++ bytes32 (md5_bits1 x)) with (bit_count x) end.
  set (r := (length msg mod 64)%nat). assert (r < 64)%nat as Hr by (apply Nat.mod_upper_bound; lia).
  set (lb := bit_count ctx). assert (length lb = 8%nat) as Ll by done.
  pose proof (digested_in _ _ Hd) as Hin.
  pose proof (Nat.div_mod_eq (length msg) 64) as En. fold r in En.
  replace (64 - 1 - Z.of_nat r) with (63 - Z.of_nat r) by lia.
  destruct (Z.ltb_spec (63 - Z.of_nat r) 8) as [H8|H8]; rewrite ?fill_bits, ?transform_bits, ?fill_bits; fold lb;
    change (Z.of_nat r + 1) with (Z.of_nat r + Z.of_nat (length [128])).
  - replace (Z.to_nat ((55 - Z.of_nat (length msg)) mod 64)) with (Z.to_nat (63 - Z.of_nat r) + 56)%nat
      by (Z.to_euclidean_division_equations; lia).
    rewrite replicate_add. set (zs := replicate (Z.to_nat (63 - Z.of_nat r)) 0).
    assert (length zs = (63 - r)%nat) as Lz by (unfold zs; rewrite length_replicate; lia).
    rewrite (fill_fill ctx (Z.of_nat r) [128] zs) by (cbn [length]; lia).
    pose proof (fill_full ctx msg ([128] ++ zs) Hd) as F1. rewrite length_app, Lz in F1. specialize (F1 ltac:(cbn [length]; fold r; lia)).
    fold r in F1. set (ctx1 := transform _) in *. pose proof (digested_in _ _ F1) as Hin1.
    change 56 with (0 + Z.of_nat (length (replicate 56 0))). rewrite (fill_fill ctx1 0 (replicate 56 0) lb) by (rewrite ?length_replicate; lia).
    assert (length (msg ++ [128%Z] ++ zs) mod 64 = 0)%nat as E0.
    { rewrite !length_app, Lz. cbn [length]. replace (length msg + (1 + (63 - r)))%nat with ((length msg / 64 + 1) * 64)%nat by lia.
      apply Nat.Div0.mod_mul. }
    pose proof (fill_full ctx1 _ (replicate 56 0 ++ lb) F1) as F2. rewrite E0 in F2. specialize (F2 eq_refl).
    apply digested_buf in F2. change (Z.of_nat 0) with 0 in F2. rewrite F2. by rewrite <- !app_assoc.
  - replace (Z.to_nat ((55 - Z.of_nat (length msg)) mod 64)) with (Z.to_nat (63 - Z.of_nat r - 8))
      by (Z.to_euclidean_division_equations; lia).
    set (zs := replicate (Z.to_nat (63 - Z.of_nat r - 8)) 0).
    assert (length zs = (55 - r)%nat) as Lz by (unfold zs; rewrite length_replicate; lia).
    rewrite (fill_fill ctx (Z.of_nat r) [128] zs) by (cbn [length]; lia).
    replace 56 with (Z.of_nat r + Z.of_nat (length ([128] ++ zs))) by (rewrite length_app, Lz; cbn [length]; lia).
    rewrite fill_fill by (rewrite ?length_app, ?Lz; cbn [length]; lia).
    pose proof (fill_full ctx msg (([128] ++ zs) ++ lb) Hd) as F. rewrite !length_app, Lz in F. specialize (F ltac:(cbn [length]; fold r; lia)).
    apply digested_buf in F. fold r in F. rewrite F. by rewrite <- !app_assoc.
Qed.

Lemma final_spec ctx msg : digested ctx msg → counted ctx msg → caml_MD5Final ctx = Rfc1321.digest msg.
Proof. intros Hd Hc. by rewrite (final_buf ctx msg). Qed.

(** [caml_MD5Transform], with its optimised functions and unrolled steps, is
    the compression function of RFC 1321 (whose constants are the sines of 1
    to 64) on every state and block. *)
Theorem md5_transform_rfc1321 buf block :
  buf_ok buf → caml_MD5Transform buf (le32 block) = Rfc1321.compress buf block.
Proof. apply transform_compress. Qed.

(** C33: the incremental digest is the digest of RFC 1321 of the whole message:
    however a message is cut into the buffers given to [caml_MD5Update], and
    whatever the context held before [caml_MD5Init], [caml_MD5Final] returns
    the same 16 bytes as the one-shot definition on the concatenation. *)
Theorem md5_incremental junk chunks :
  length (md5_in junk) = 64%nat → Forall (λ data, Z.of_nat (length data) < 2 ^ 64) chunks →
  caml_MD5Final (foldl caml_MD5Update (caml_MD5Init junk) chunks) = Rfc1321.digest (concat chunks).
Proof.
  intros Hj HF. destruct (init_spec junk Hj) as [Hd Hc]. change (concat chunks) with ([] ++ concat chunks).
  revert Hd Hc. generalize (caml_MD5Init junk) (@nil Z). induction HF as [|data chunks Hl HF IH]; intros ctx msg Hd Hc; cbn [foldl concat].
  - rewrite app_nil_r. by apply final_spec.
  - rewrite app_assoc. destruct (update_spec ctx msg data Hd Hc Hl). by apply IH.
Qed.

Lemma digest_bytes msg : length (Rfc1321.digest msg) = 16%nat ∧ Forall (λ x, 0 <= x < 256) (Rfc1321.digest msg).
Proof.
  unfold Rfc1321.digest. destruct (Rfc1321.blocks _ _ _) as [[[A B] C] D]. split; [done|].
  unfold bytes32. cbn [app]. repeat constructor; apply Z.mod_pos_bound; lia.
Qed.

(** [Digest.substring]: [caml_md5_string_r] on a valid range of a string
    returns a new string of 16 bytes, the RFC 1321 digest of the range. *)
Theorem md5_string_correct `{Runtime} junk cx str l (ofs len : nat) blk :
  length (md5_in junk) = 64%nat → is_string (words cx) str l → (ofs + len <= length l)%nat → room cx 3 blk →
  ∃ cx', caml_md5_string_r junk str (Val_long (Z.of_nat ofs)) (Val_long (Z.of_nat len)) cx = inr (cx', blk) ∧
    is_string (words cx') blk (Rfc1321.digest (take len (drop ofs l))) ∧
    ∀ k, k + 8 <= blk - 8 ∨ blk + 24 <= k → words cx' !! k = words cx !! k.
Proof.
  intros Hj Hs Hl Hr. pose proof (string_small _ _ _ Hs) as Hsm. change (2 ^ 56) with 72057594037927936 in Hsm.
  set (data := take len (drop ofs l)). assert (length data = len) as Ld by (unfold data; rewrite length_take, length_drop; lia).
  assert (bytes_at (words cx) (str + Z.of_nat ofs) data) as Hb.
  { intros i x Hi. pose proof (string_bytes _ _ _ Hs) as [B _]%bytes_at_app.
    replace (str + Z.of_nat ofs + Z.of_nat i) with (str + Z.of_nat (ofs + i)) by lia.
    apply B. unfold data in Hi. rewrite <- lookup_drop. by apply lookup_take_Some in Hi as [Hi _]. }
  destruct (digest_bytes data) as [D1 D2]. change 3 with (string_wosize (Z.of_nat 16)) in Hr. rewrite <- D1 in Hr.
  set (dg := Rfc1321.digest data) in *. unfold caml_md5_string_r.
  rewrite !Long_val_index by (cbn; lia). rewrite u64_small, Nat2Z.id by lia_w. rewrite <- Ld.
  rewrite (mbnd_eq _ _ _ _ _ (ldbs_eq _ _ _ Hb)).
  replace (caml_MD5Final _) with dg.
  2: { destruct (init_spec junk Hj) as [I1 I2]. assert (Z.of_nat (length data) < 2 ^ 64) as Hlt by (cbn; lia).
       destruct (update_spec _ [] data I1 I2 Hlt) as [U1 U2]. symmetry. by apply final_spec. }
  change 16 with (Z.of_nat 16). rewrite <- D1. unfold mbnd. rewrite (alloc_string_eq _ _ _ blk); [|lia|by rewrite D1|done].
  rewrite stbs_eq by (apply string_block_mapped; [lia|done]). eexists. split; [done|]. cbn [words set_words].
  split; [apply copy_string_is_string; [by rewrite D1|done|done]|]. intros k Hk. apply copy_string_frame. rewrite D1. change (string_wosize (Z.of_nat 16)) with 3. lia.
Qed.

(** ** Witnesses *)

Definition ex_junk : MD5Context := MD5Ctx (1, 2, 3, 4) 5 6 (replicate 64 7).

Lemma md5_transform_witness :
  caml_MD5Transform Rfc1321.init (le32 (replicate 64 1)) = Rfc1321.compress Rfc1321.init (replicate 64 1).
Proof. apply md5_transform_rfc1321. cbv. repeat split; congruence. Defined.

Lemma md5_incremental_witness :
  caml_MD5Final (foldl caml_MD5Update (caml_MD5Init ex_junk) [replicate 60 97; [98]; replicate 70 99]) =
  Rfc1321.digest (replicate 60 97 ++ [98] ++ replicate 70 99 ++ []).
Proof. apply (md5_incremental ex_junk [replicate 60 97; [98]; replicate 70 99]); [reflexivity|repeat constructor]. Defined.

(** The string "abc", and room in the minor heap. *)
Definition ex_md5 : context :=
  ex_context (<[4016 := Make_header 1 String_tag Caml_white]> (<[4024 := 97 + 98 * 256 + 99 * 65536 + 4 * 2 ^ 56]>
    (stores ∅ 7000 (replicate 130 7)))) ∅.

Lemma md5_string_witness :
  ∃ cx', @caml_md5_string_r ex_runtime ex_junk 4024 (Val_long 1) (Val_long 2) ex_md5 = inr (cx', 7976) ∧
    is_string (words cx') 7976 (Rfc1321.digest [98; 99]).
Proof.
  destruct (@md5_string_correct ex_runtime ex_junk ex_md5 4024 [97; 98; 99] 1 2 7976) as (cx' & H1 & H2 & _).
  - reflexivity.
  - split; [reflexivity|exists (Make_header 1 String_tag Caml_white); split; vm_compute; reflexivity|vm_compute; reflexivity|ex_bytes|repeat constructor; lia].
  - cbn. lia.
  - split; [reflexivity|vm_compute; congruence|ex_mapped|reflexivity].
  - exists cx'. exact (conj H1 H2).
Defined.

End Md5.
