(* ===== verification/Globroots.v ===== *)
(** Registration of global roots (byterun/globroots.c).

    A list of roots is a skip list.  A node is a root and its forward
    pointers; the head of a list has [NUM_LEVELS] of them and comes with the
    list's current level.  [NULL] is 0.  The state also holds the words the
    roots point to.  The allocator is a parameter ([None]: out of memory), and
    so are the tests of the two heaps.  [fuel] bounds the walk at one level;
    more than the number of nodes is enough. *)

From S2P Require Import Prelude Mlvalues.
From Stdlib Require Import Sorted.

Module Globroots.

Definition NUM_LEVELS : nat := 17.

Record global_root : Type := Node { root : Z; forward : list Z }.

Record groots : Type := Groots {
  nodes : gmap Z global_root;
  level : gmap Z Z;
  random_seed : Z;
  cells : gmap Z Z
}.

Inductive stop : Type :=
  | Wild (a : Z)
  | Out_of_memory
  | No_fuel.

Abbreviation GM := (M groots stop).

Definition set_nodes (n : gmap Z global_root) (s : groots) : groots := Groots n (level s) (random_seed s) (cells s).
Definition set_level (l : gmap Z Z) (s : groots) : groots := Groots (nodes s) l (random_seed s) (cells s).
Definition set_seed (x : Z) (s : groots) : groots := Groots (nodes s) (level s) x (cells s).
Definition set_cells (m : gmap Z Z) (s : groots) : groots := Groots (nodes s) (level s) (random_seed s) m.

(** [e->forward[i]], an assignment to it, [e->root], [rootlist->level]. *)
Definition get_forward (e : Z) (i : nat) : GM Z :=
  λ s, match nodes s !! e ≫= λ n, forward n !! i with Some f => inr (s, f) | None => inl (Wild e) end.
Definition set_forward (e : Z) (i : nat) (f : Z) : GM unit :=
  λ s, match nodes s !! e with
       | Some n => if (i <? length (forward n))%nat
                   then inr (set_nodes (<[e := Node (root n) (<[i := f]> (forward n))]> (nodes s)) s, tt)
                   else inl (Wild e)
       | None => inl (Wild e) end.
Definition get_root (e : Z) : GM Z :=
  λ s, match nodes s !! e with Some n => inr (s, root n) | None => inl (Wild e) end.
Definition get_level (l : Z) : GM Z :=
  λ s, match level s !! l with Some x => inr (s, x) | None => inl (Wild l) end.
Definition put_level (l x : Z) : GM unit := mmodify (λ s, set_level (<[l := x]> (level s)) s).
(** [*r] *)
Definition get_cell (r : Z) : GM Z :=
  λ s, match cells s !! r with Some v => inr (s, v) | None => inl (Wild r) end.
Definition set_cell (r v : Z) : GM unit := mmodify (λ s, set_cells (<[r := v]> (cells s)) s).

Fixpoint random_loop (fuel : nat) (r : Z) (lv : nat) : option nat :=
  if Z.land r 0xC0000000 =? 0xC0000000 then
    match fuel with O => None | S fuel => random_loop fuel (u32 (Z.shiftl r 2)) (S lv) end
  else Some lv.

Definition random_level_r : GM nat :=
  let* s := mget in
  let r := u32 (random_seed s * 69069 + 25173) in
  mput (set_seed r s) ;;;
  match random_loop 16 r 0 with Some lv => mreturn lv | None => mfail No_fuel end.

Section Operations.
Context (stat_alloc : groots → option Z) (Is_young Is_in_heap : Z → bool).
Context (caml_global_roots caml_global_roots_young caml_global_roots_old : Z).

(** [while (1) { f = e->forward[i]; if (f == NULL || f->root >= r) break; e = f; }] *)
Fixpoint advance (fuel : nat) (i : nat) (r e : Z) : GM Z :=
  match fuel with
  | O => mfail No_fuel
  | S fuel =>
      let* f := get_forward e i in
      if f =? 0 then mreturn e else
      let* x := get_root f in
      if r <=? x then mreturn e else advance fuel i r f
  end.

(** [for (i = n - 1; i >= 0; i--)]: the last [e], and the array [update]. *)
Fixpoint find_root (fuel n : nat) (r e : Z) (update : list Z) : GM (Z * list Z) :=
  match n with
  | O => mreturn (e, update)
  | S i =>
      let* e := advance fuel i r e in
      find_root fuel i r e (<[i := e]> update)
  end.

(** [update[i] = (struct global_root * ) rootlist], for the [n] levels from [i]. *)
Fixpoint update_heads (n i : nat) (rootlist : Z) (update : list Z) : list Z :=
  match n with O => update | S n => update_heads n (S i) rootlist (<[i := rootlist]> update) end.

(** [for (i = 0; i <= new_level; i++)], the links of the new node [e]. *)
Fixpoint link (n i : nat) (e : Z) (update : list Z) : GM unit :=
  match n with
  | O => mreturn tt
  | S n =>
      match update !! i with
      | None => mfail (Wild e)
      | Some u =>
          let* f := get_forward u i in
          set_forward e i f ;;;
          set_forward u i e ;;;
          link n (S i) e update
      end
  end.

Definition caml_insert_global_root_r (fuel : nat) (rootlist r : Z) : GM unit :=
  let* lv := get_level rootlist in
  let* (e, update) := find_root fuel (Z.to_nat (lv + 1)) r rootlist (replicate NUM_LEVELS 0) in
  let* e := get_forward e 0 in
  let* present := (if e =? 0 then mreturn false else let* x := get_root e in mreturn (x =? r)) in
  if (present : bool) then mreturn tt else
  let* new_level := random_level_r in
  let* update :=
    (if lv <? Z.of_nat new_level
     then put_level rootlist (Z.of_nat new_level) ;;;
          mreturn (update_heads (new_level - Z.to_nat lv) (Z.to_nat (lv + 1)) rootlist update)
     else mreturn update) in
  let* s := mget in
  match stat_alloc s with
  | None => mfail Out_of_memory
  | Some e =>
      mput (set_nodes (<[e := Node r (replicate (S new_level) 0)]> (nodes s)) s) ;;;
      link (S new_level) 0 e update
  end.

(** [for (i = 0; i <= rootlist->level; i++)], the links around the node [e]. *)
Fixpoint unlink (n i : nat) (e : Z) (update : list Z) : GM unit :=
  match n with
  | O => mreturn tt
  | S n =>
      match update !! i with
      | None => mfail (Wild e)
      | Some u =>
          let* f := get_forward u i in
          (if f =? e then let* g := get_forward e i in set_forward u i g else mreturn tt) ;;;
          unlink n (S i) e update
      end
  end.

(** [while (rootlist->level > 0 && rootlist->forward[rootlist->level] == NULL)
    rootlist->level--;] *)
Fixpoint lower_level (n : nat) (rootlist : Z) : GM unit :=
  let* lv := get_level rootlist in
  if 0 <? lv then
    let* f := get_forward rootlist (Z.to_nat lv) in
    if f =? 0 then
      match n with
      | O => mfail No_fuel
      | S n => put_level rootlist (lv - 1) ;;; lower_level n rootlist
      end
    else mreturn tt
  else mreturn tt.

Definition stat_free (e : Z) : GM unit := mmodify (λ s, set_nodes (delete e (nodes s)) s).

Definition caml_delete_global_root_r (fuel : nat) (rootlist r : Z) : GM unit :=
  let* lv := get_level rootlist in
  let* (e, update) := find_root fuel (Z.to_nat (lv + 1)) r rootlist (replicate NUM_LEVELS 0) in
  let* e := get_forward e 0 in
  let* absent := (if e =? 0 then mreturn true else let* x := get_root e in mreturn (negb (x =? r))) in
  if (absent : bool) then mreturn tt else
  unlink (Z.to_nat (lv + 1)) 0 e update ;;;
  stat_free e ;;;
  lower_level NUM_LEVELS rootlist.

(** The roots visited, from the first node [gr] on. *)
Fixpoint iterate_from (fuel : nat) (gr : Z) (f : Z → Z → GM unit) : GM unit :=
  if gr =? 0 then mreturn tt else
  match fuel with
  | O => mfail No_fuel
  | S fuel =>
      let* r := get_root gr in
      let* v := get_cell r in
      f v r ;;;
      let* gr := get_forward gr 0 in
      iterate_from fuel gr f
  end.

Definition caml_iterate_global_roots_r (fuel : nat) (f : Z → Z → GM unit) (rootlist : Z) : GM unit :=
  let* gr := get_forward rootlist 0 in
  iterate_from fuel gr f.

Fixpoint free_from (fuel : nat) (gr : Z) : GM unit :=
  if gr =? 0 then mreturn tt else
  match fuel with
  | O => mfail No_fuel
  | S fuel =>
      let* next := get_forward gr 0 in
      stat_free gr ;;;
      free_from fuel next
  end.

Fixpoint clear_heads (n i : nat) (rootlist : Z) : GM unit :=
  match n with
  | O => mreturn tt
  | S n => set_forward rootlist i 0 ;;; clear_heads n (S i) rootlist
  end.

Definition caml_empty_global_roots_r (fuel : nat) (rootlist : Z) : GM unit :=
  let* gr := get_forward rootlist 0 in
  free_from fuel gr ;;;
  let* lv := get_level rootlist in
  clear_heads (Z.to_nat (lv + 1)) 0 rootlist ;;;
  put_level rootlist 0.

Definition caml_register_global_root_r (fuel : nat) (r : Z) : GM unit :=
  caml_insert_global_root_r fuel caml_global_roots r.

Definition caml_remove_global_root_r (fuel : nat) (r : Z) : GM unit :=
  caml_delete_global_root_r fuel caml_global_roots r.

Definition caml_register_generational_global_root_r (fuel : nat) (r : Z) : GM unit :=
  let* v := get_cell r in
  if Is_block v then
    if Is_young v then caml_insert_global_root_r fuel caml_global_roots_young r
    else if Is_in_heap v then caml_insert_global_root_r fuel caml_global_roots_old r
    else mreturn tt
  else mreturn tt.

Definition caml_remove_generational_global_root_r (fuel : nat) (r : Z) : GM unit :=
  let* v := get_cell r in
  if Is_block v then
    if Is_young v then caml_delete_global_root_r fuel caml_global_roots_young r
    else if Is_in_heap v then caml_delete_global_root_r fuel caml_global_roots_old r
    else mreturn tt
  else mreturn tt.

Definition caml_modify_generational_global_root_r (fuel : nat) (r newval : Z) : GM unit :=
  let* oldval := get_cell r in
  (if Is_block newval && Is_young newval && (Is_block oldval && Is_in_heap oldval) then
     caml_delete_global_root_r fuel caml_global_roots_old r ;;;
     caml_insert_global_root_r fuel caml_global_roots_young r
   else if negb (Is_block oldval) && Is_block newval then
     if Is_young newval then caml_insert_global_root_r fuel caml_global_roots_young r
     else if Is_in_heap newval then caml_insert_global_root_r fuel caml_global_roots_old r
     else mreturn tt
   else if Is_block oldval && negb (Is_block newval) then
     if Is_young oldval then caml_delete_global_root_r fuel caml_global_roots_young r
     else if Is_in_heap oldval then caml_delete_global_root_r fuel caml_global_roots_old r
     else mreturn tt
   else mreturn tt) ;;;
  set_cell r newval.

(** The calls of [f] on the registered roots ([caml_scan_caml_globals_r] scans
    the OCaml globals before them). *)
Definition caml_scan_global_roots_r (fuel : nat) (caml_scan_caml_globals_r : GM unit) (f : Z → Z → GM unit) : GM unit :=
  caml_scan_caml_globals_r ;;;
  caml_iterate_global_roots_r fuel f caml_global_roots ;;;
  caml_iterate_global_roots_r fuel f caml_global_roots_young ;;;
  caml_iterate_global_roots_r fuel f caml_global_roots_old.

(** Move the roots of the young list, from its node [gr] on, to the old list. *)
Fixpoint move_young (n fuel : nat) (gr : Z) : GM unit :=
  if gr =? 0 then mreturn tt else
  match n with
  | O => mfail No_fuel
  | S n =>
      let* r := get_root gr in
      caml_insert_global_root_r fuel caml_global_roots_old r ;;;
      let* gr := get_forward gr 0 in
      move_young n fuel gr
  end.

Definition caml_scan_global_young_roots_r (fuel : nat) (caml_scan_caml_globals_r : GM unit) (f : Z → Z → GM unit) : GM unit :=
  caml_scan_caml_globals_r ;;;
  caml_iterate_global_roots_r fuel f caml_global_roots ;;;
  caml_iterate_global_roots_r fuel f caml_global_roots_young ;;;
  let* gr := get_forward caml_global_roots_young 0 in
  move_young fuel fuel gr ;;;
  caml_empty_global_roots_r fuel caml_global_roots_young.
End Operations.


(** ** Skip lists *)

(** A node as the list sees it: its address, its root and the number of its
    forward pointers. *)
Record item : Type := Item { addr : Z; key : Z; ht : nat }.

(** The first node of [l] that is linked at level [i]. *)
Fixpoint next_at (i : nat) (l : list item) : Z :=
  match l with [] => 0 | x :: l => if (i <? ht x)%nat then addr x else next_at i l end.

(** The nodes of [l] are in memory, with forward pointers given by [F] from the
    level and the items that follow. *)
Fixpoint chain (m : gmap Z global_root) (F : nat → list item → Z) (l : list item) : Prop :=
  match l with
  | [] => True
  | x :: l => m !! addr x = Some (Node (key x) (map (λ i, F i l) (seq 0 (ht x)))) ∧ chain m F l
  end.

(** [e] is the last item of [p] linked at level [i]. *)
Definition is_last (i : nat) (p : list item) (e : item) : Prop :=
  ∃ p1 p2, p = p1 ++ e :: p2 ∧ (i < ht e)%nat ∧ Forall (λ y, ht y <= i)%nat p2.

Lemma next_app_low i p l : Forall (λ y, ht y <= i)%nat p → next_at i (p ++ l) = next_at i l.
Proof.
  induction 1 as [|y p Hy Hp IH]; cbn [next_at app]; [done|]. by rewrite (proj2 (Nat.ltb_ge _ _)) by done.
Qed.

(** Either no item is linked at a level, or there is a first one. *)
Lemma level_split i (p : list item) :
  Forall (λ y, ht y <= i)%nat p ∨ ∃ p1 y p2, p = p1 ++ y :: p2 ∧ Forall (λ y, ht y <= i)%nat p1 ∧ (i < ht y)%nat.
Proof.
  induction p as [|x p IH]; [by left|]. destruct (decide (ht x <= i)%nat) as [H|H].
  - destruct IH as [IH|(p1 & y & p2 & -> & H1 & H2)]; [left; by constructor|].
    right. exists (x :: p1), y, p2. split_and!; [done|by constructor|done].
  - right. exists [], x, p. split_and!; [done|constructor|lia].
Qed.

Lemma next_app_split i p1 y p2 l : Forall (λ y, ht y <= i)%nat p1 → (i < ht y)%nat → next_at i ((p1 ++ y :: p2) ++ l) = addr y.
Proof.
  intros H1 H2. rewrite <- app_assoc, next_app_low by done. cbn [next_at app]. by rewrite (proj2 (Nat.ltb_lt _ _)).
Qed.

Lemma links_app m F l k : chain m F (l ++ k) ↔ chain m (λ i p, F i (p ++ k)) l ∧ chain m F k.
Proof.
  induction l as [|x l IH]; cbn; [tauto|]. rewrite IH. tauto.
Qed.

Lemma links_ext m m' F F' l :
  (∀ x p2, ∀ p1, l = p1 ++ x :: p2 → m' !! addr x = m !! addr x ∧ ∀ i, (i < ht x)%nat → F' i p2 = F i p2) →
  chain m F l → chain m' F' l.
Proof.
  induction l as [|x l IH]; intros He Hc; [done|]. destruct Hc as [Hx Hc]. split.
  - destruct (He x l [] eq_refl) as [-> HF]. rewrite Hx. do 2 f_equal. apply map_ext_in. intros i Hi%in_seq. symmetry. apply HF. lia.
  - apply IH; [|done]. intros y p2 p1 ->. by apply (He y p2 (x :: p1)).
Qed.

Lemma chain_lookup m F p1 x p2 : chain m F (p1 ++ x :: p2) →
  m !! addr x = Some (Node (key x) (map (λ i, F i p2) (seq 0 (ht x)))).
Proof. rewrite links_app. by intros [_ [Hx _]]. Qed.

Lemma map_seq_lookup {A} (f : nat → A) n i : (i < n)%nat → map f (seq 0 n) !! i = Some (f i).
Proof. intros Hi. change (map f (seq 0 n)) with (f <$> seq 0 n). rewrite list_lookup_fmap, lookup_seq_lt by done. done. Qed.

Lemma map_seq_insert {A} (f : nat → A) n i v : (i < n)%nat →
  <[i := v]> (map f (seq 0 n)) = map (λ j, if (j =? i)%nat then v else f j) (seq 0 n).
Proof.
  intros Hi. apply list_eq. intros j. destruct (decide (j < n)%nat) as [Hj|Hj].
  - rewrite map_seq_lookup by done. destruct (Nat.eqb_spec j i) as [->|Hne].
    + apply list_lookup_insert_eq. by rewrite length_map, length_seq.
    + rewrite list_lookup_insert_ne by done. by apply map_seq_lookup.
  - rewrite !lookup_ge_None_2; [done|rewrite length_map, length_seq; lia|rewrite length_insert, length_map, length_seq; lia].
Qed.

Lemma get_forward_eq s F p1 x p2 i : chain (nodes s) F (p1 ++ x :: p2) → (i < ht x)%nat →
  get_forward (addr x) i s = inr (s, F i p2).
Proof.
  intros Hc Hi. unfold get_forward. rewrite (chain_lookup _ _ _ _ _ Hc). cbn. by rewrite map_seq_lookup.
Qed.

Lemma get_root_eq s F p1 x p2 : chain (nodes s) F (p1 ++ x :: p2) → get_root (addr x) s = inr (s, key x).
Proof. intros Hc. unfold get_root. by rewrite (chain_lookup _ _ _ _ _ Hc). Qed.

(** ** The search *)

(** From [e], the walk at level [i] stops at the last item linked there before
    the roots that are not below [r]. *)
Lemma advance_spec s r i ge : Forall (λ y, r <= key y) ge → 
  ∀ fuel p1 e p2, (length p2 < fuel)%nat → chain (nodes s) next_at (p1 ++ e :: p2 ++ ge) → (i < ht e)%nat →
  Forall (λ y, key y < r) p2 → Forall (λ y, addr y ≠ 0) (p2 ++ ge) →
  ∃ e', advance fuel i r (addr e) s = inr (s, addr e') ∧ is_last i (e :: p2) e'.
Proof.
  intros Hge. induction fuel as [|fuel IH]; intros p1 e p2 Hf Hc Hi Hlt Hnz; [lia|]. cbn [advance].
  rewrite (mbnd_eq _ _ _ _ _ (get_forward_eq s next_at p1 e (p2 ++ ge) i Hc Hi)).
  destruct (level_split i p2) as [Hlow|(q1 & y & q2 & -> & Hq & Hy)].
  - rewrite next_app_low by done. assert (is_last i (e :: p2) e) as Hl by (by exists [], p2).
    destruct (level_split i ge) as [Hlow'|(g1 & z & g2 & -> & Hg & Hz)].
    + rewrite <- (app_nil_r ge), next_app_low by done. by exists e.
    + replace (next_at i (g1 ++ z :: g2)) with (addr z) by (rewrite <- (app_nil_r (g1 ++ z :: g2)); by rewrite next_app_split).
      rewrite Forall_app, Forall_app, Forall_cons in Hnz. rewrite (proj2 (Z.eqb_neq _ _)) by tauto.
      rewrite (mbnd_eq _ _ _ _ _ (get_root_eq s next_at (p1 ++ e :: p2 ++ g1) z g2 ltac:(by rewrite <- !app_assoc, <- app_comm_cons, <- app_assoc))).
      rewrite Forall_app, Forall_cons in Hge. rewrite (proj2 (Z.leb_le _ _)) by tauto. by exists e.
  - rewrite next_app_split by done. rewrite <- app_assoc in Hnz, Hc. rewrite Forall_app, <- app_comm_cons, Forall_cons in Hnz.
    rewrite (proj2 (Z.eqb_neq _ _)) by tauto.
    assert (chain (nodes s) next_at ((p1 ++ e :: q1) ++ y :: q2 ++ ge)) as Hc' by (by rewrite <- app_assoc).
    rewrite (mbnd_eq _ _ _ _ _ (get_root_eq _ _ _ _ _ Hc')). rewrite Forall_app, Forall_cons in Hlt.
    rewrite (proj2 (Z.leb_gt _ _)) by lia.
    destruct (IH (p1 ++ e :: q1) y q2) as (e' & E & (a1 & a2 & Ea & Hh & Ha)); try done; try tauto.
    { rewrite length_app in Hf. cbn in Hf. lia. }
    exists e'. split; [done|]. exists (e :: q1 ++ a1), a2. split_and!; [|done|done].
    by rewrite <- app_comm_cons, <- app_assoc, Ea.
Qed.

Lemma find_root_spec s r fuel P ge : Forall (λ y, r <= key y) ge →
  chain (nodes s) next_at (P ++ ge) → Forall (λ y, addr y ≠ 0) (tail P ++ ge) → Forall (λ y, key y < r) (tail P) → (length P <= fuel)%nat →
  ∀ n p1 e p2 update, P = p1 ++ e :: p2 → (n <= ht e)%nat → (n <= length update)%nat →
  ∃ e' update', find_root fuel n r (addr e) update s = inr (s, (addr e', update')) ∧
    (if n is O then e' = e else is_last 0 P e') ∧ length update' = length update ∧
    (∀ i, (i < n)%nat → ∃ u, update' !! i = Some (addr u) ∧ is_last i P u) ∧
    (∀ i, (n <= i)%nat → update' !! i = update !! i).
Proof.
  intros Hge Hc Hnz Hlt Hf. induction n as [|n IH]; intros p1 e p2 update HP He Hu; cbn [find_root].
  { exists e, update. split_and!; [done|done|done|lia|done]. }
  assert (∀ (Q : item → Prop), Forall Q (tail P) → Forall Q p2) as Htl.
  { intros Q HQ. subst P. destruct p1; cbn in HQ; [done|]. rewrite Forall_app, Forall_cons in HQ. tauto. }
  destruct (advance_spec s r n ge Hge fuel p1 e p2) as (e1 & E & (a1 & a2 & Ea & Hh & Ha)).
  - subst P. rewrite length_app in Hf. cbn in Hf. lia.
  - rewrite HP in Hc. by rewrite <- app_assoc, <- app_comm_cons in Hc.
  - lia.
  - by apply Htl.
  - rewrite Forall_app in Hnz |- *. destruct Hnz. split; [by apply Htl|done].
  - rewrite (mbnd_eq _ _ _ _ _ E). assert (P = (p1 ++ a1) ++ e1 :: a2) as HP1 by (rewrite HP, Ea; by rewrite app_assoc).
    assert (is_last n P e1) as Hlast by (by exists (p1 ++ a1), a2).
    destruct (IH _ _ _ (<[n := addr e1]> update) HP1) as (e' & u' & E' & H0 & Hl & Hi & Hj); [lia|rewrite length_insert; lia|].
    exists e', u'. rewrite length_insert in Hl. split_and!; [done| |done| |].
    + destruct n; [by subst|done].
    + intros i Hin. destruct (decide (i = n)) as [->|Hne]; [|apply Hi; lia].
      exists e1. split; [|done]. rewrite Hj by lia. apply list_lookup_insert_eq. lia.
    + intros i Hin. rewrite Hj by lia. apply list_lookup_insert_ne. lia.
Qed.

(** ** Updates of the links *)

(** The last linked item, as a function. *)
Definition last_at (i : nat) (p : list item) : option item := last (filter (λ y, i < ht y)%nat p).

Lemma is_last_at i p e : is_last i p e → last_at i p = Some e.
Proof.
  intros (p1 & p2 & -> & He & Hp). unfold last_at. rewrite filter_app, filter_cons_True by done.
  replace (filter (λ y, i < ht y)%nat p2) with (@nil item); [by rewrite last_snoc|].
  induction Hp; [done|]. by rewrite filter_cons_False by lia.
Qed.

Lemma is_last_unique i p e e' : is_last i p e → is_last i p e' → e = e'.
Proof. intros H1%is_last_at H2%is_last_at. congruence. Qed.

Lemma position_unique (P : list item) p1 e p2 q1 x q2 :
  NoDup (map addr P) → P = p1 ++ e :: p2 → P = q1 ++ x :: q2 → addr x = addr e → x = e ∧ q2 = p2.
Proof.
  intros Hnd HP HQ Ha. assert (length p1 = length q1) as Hl.
  { apply (NoDup_lookup (map addr P) _ _ (addr e) Hnd).
    - rewrite HP, list_lookup_fmap, lookup_app_r, Nat.sub_diag by lia. done.
    - rewrite HQ, list_lookup_fmap, lookup_app_r, Nat.sub_diag by lia. cbn. by rewrite Ha. }
  rewrite HP in HQ. apply app_inj_1 in HQ as [_ HQ]; [|done]. by simplify_eq.
Qed.

(** What a change leaves: nodes outside [A], levels, seed, cells. *)
Record frame (A : list Z) (s s' : groots) : Prop := {
  frame_nodes : ∀ x, x ∉ A → nodes s' !! x = nodes s !! x;
  frame_level : level s' = level s;
  frame_seed : random_seed s' = random_seed s;
  frame_cells : cells s' = cells s
}.

Lemma nodes_frame_refl A s : frame A s s.
Proof. by split. Qed.

Lemma nodes_frame_trans A B s1 s2 s3 : frame A s1 s2 → frame B s2 s3 → A ⊆ B → frame B s1 s3.
Proof.
  intros [H1 H2 H3 H4] [G1 G2 G3 G4] Hsub. split; try congruence. intros x Hx. rewrite G1 by done. apply H1. set_solver.
Qed.

Lemma chain_frame A s s' F l : frame A s s' → Forall (λ x, addr x ∉ A) l → chain (nodes s) F l → chain (nodes s') F l.
Proof.
  intros HA Hl. apply links_ext. intros x p2 p1 ->. rewrite Forall_app, Forall_cons in Hl. split; [|done].
  apply (frame_nodes _ _ _ HA). tauto.
Qed.

(** Assigning one link changes the function that gives the links. *)
Lemma set_forward_chain s F F' P k e v : chain (nodes s) F P → NoDup (map addr P) → e ∈ P → (k < ht e)%nat →
  (∀ q1 x q2 i, P = q1 ++ x :: q2 → (i < ht x)%nat →
     F' i q2 = if decide (addr x = addr e ∧ i = k) then v else F i q2) →
  ∃ s', set_forward (addr e) k v s = inr (s', tt) ∧ chain (nodes s') F' P ∧ frame [addr e] s s'.
Proof.
  intros Hc Hnd (p1 & p2 & HP)%list_elem_of_split Hk HF.
  assert (nodes s !! addr e = Some (Node (key e) (map (λ i, F i p2) (seq 0 (ht e))))) as He by (subst P; by eapply chain_lookup).
  unfold set_forward. rewrite He. cbn [forward root]. rewrite length_map, length_seq, (proj2 (Nat.ltb_lt _ _)) by done.
  eexists. split; [reflexivity|]. rewrite map_seq_insert by done. split.
  - cbn [nodes set_nodes]. assert (∀ Q p, P = p ++ Q → chain (nodes s) F Q → chain (<[addr e := Node (key e)
      (map (λ j, if (j =? k)%nat then v else F j p2) (seq 0 (ht e)))]> (nodes s)) F' Q) as Hind; [|by apply (Hind P [])].
    induction Q as [|x Q IH]; intros p Hp Hcq; [done|]. destruct Hcq as [Hx Hcq]. split.
    + destruct (decide (addr x = addr e)) as [Ha|Ha].
      * destruct (position_unique P p1 e p2 p x Q Hnd HP Hp Ha) as [-> ->]. rewrite lookup_insert_eq. do 2 f_equal.
        apply map_ext_in. intros i Hi%in_seq. rewrite (HF p e p2 i Hp) by lia.
        destruct (Nat.eqb_spec i k); [by rewrite decide_True|by rewrite decide_False by tauto].
      * rewrite lookup_insert_ne by done. rewrite Hx. do 2 f_equal. apply map_ext_in. intros i Hi%in_seq.
        rewrite (HF p x Q i Hp) by lia. by rewrite decide_False by tauto.
    + apply (IH (p ++ [x])); [by rewrite <- app_assoc|done].
  - split; try done. intros x Hx. cbn. apply lookup_insert_ne. set_solver.
Qed.

(** The links of the items before a new node [z] when its levels below [k] are
    linked. *)
Definition linked (z : item) (ge : list item) (k i : nat) (p : list item) : Z :=
  if decide (i < k ∧ Forall (λ y, ht y <= i) p)%nat then addr z else next_at i (p ++ ge).
(** The links of the new node. *)
Definition own_links (ge : list item) (k i : nat) (_ : list item) : Z := if (i <? k)%nat then next_at i ge else 0.

Lemma linked_step z ge P k e : NoDup (map addr P) → is_last k P e → ∀ q1 x q2 i, P = q1 ++ x :: q2 → (i < ht x)%nat →
  linked z ge (S k) i q2 = if decide (addr x = addr e ∧ i = k) then addr z else linked z ge k i q2.
Proof.
  intros Hnd He q1 x q2 i HP Hi. unfold linked. destruct (decide (i = k)) as [->|Hne].
  - destruct (decide (Forall (λ y, ht y <= k)%nat q2)) as [Hq|Hq].
    + assert (x = e) as -> by (eapply is_last_unique; [|exact He]; by exists q1, q2).
      rewrite decide_True by (split; [lia|done]). by rewrite decide_True.
    + rewrite !(decide_False (P := (k < _ ∧ _)%nat)) by tauto. destruct He as (p1 & p2 & HP' & Hk & Hp).
      rewrite decide_False; [done|]. intros [Ha _].
      destruct (position_unique P p1 e p2 q1 x q2 Hnd HP' HP Ha) as [-> ->]. done.
  - rewrite (decide_False (P := addr x = addr e ∧ i = k)) by tauto.
    destruct (decide (i < k ∧ _)%nat) as [Hd|Hd]; [rewrite decide_True by (split; [lia|tauto]); done|].
    rewrite decide_False; [done|]. intros [H1 H2]. apply Hd. split; [lia|done].
Qed.

Lemma is_last_elem i P e : is_last i P e → e ∈ P ∧ (i < ht e)%nat.
Proof. intros (p1 & p2 & -> & He & _). split; [set_solver|done]. Qed.

Lemma link_spec z ge P update : NoDup (map addr (z :: P)) →
  (∀ i, (i < ht z)%nat → ∃ u, update !! i = Some (addr u) ∧ is_last i P u) →
  ∀ n k s, (k + n = ht z)%nat → chain (nodes s) (linked z ge k) P → chain (nodes s) (own_links ge k) [z] →
  ∃ s', link n k (addr z) update s = inr (s', tt) ∧
    chain (nodes s') (linked z ge (ht z)) P ∧ chain (nodes s') (own_links ge (ht z)) [z] ∧ frame (map addr (z :: P)) s s'.
Proof.
  intros Hnd Hu. cbn [map] in Hnd. apply NoDup_cons in Hnd as [Hz Hnd].
  assert (∀ x, x ∈ P → addr x ∈ map addr P) as Hin by (intros x; apply (list_elem_of_fmap_2 addr)).
  induction n as [|n IH]; intros k s Hk Hc Hz0; cbn [link].
  { replace k with (ht z) in * by lia. exists s. split_and!; (done || apply nodes_frame_refl). }
  destruct (Hu k ltac:(lia)) as (u & -> & Hl). destruct (is_last_elem _ _ _ Hl) as [Hu1 Hu2].
  pose proof Hl as (p1 & p2 & HP & _ & Hp2).
  assert (get_forward (addr u) k s = inr (s, next_at k ge)) as E1.
  { rewrite HP in Hc. rewrite (get_forward_eq s _ p1 u p2 k Hc) by done. unfold linked. rewrite decide_False by lia. by rewrite next_app_low. }
  rewrite (mbnd_eq _ _ _ _ _ E1).
  destruct (set_forward_chain s (own_links ge k) (own_links ge (S k)) [z] k z (next_at k ge) Hz0) as (s1 & E2 & C2 & F2).
  { cbn. apply NoDup_singleton. } { by apply list_elem_of_singleton. } { lia. }
  { intros q1 x q2 i HP1 Hi. destruct q1 as [|? [|]]; simplify_eq/=. unfold own_links. destruct (decide (i = k)) as [->|Hne].
    - rewrite decide_True by done. by rewrite (proj2 (Nat.ltb_lt _ _)) by lia.
    - rewrite decide_False by tauto. by destruct (Nat.ltb_spec i (S k)), (Nat.ltb_spec i k); try lia. }
  rewrite (mbnd_eq _ _ _ _ _ E2).
  assert (chain (nodes s1) (linked z ge k) P) as C1.
  { eapply chain_frame; [exact F2| |done]. apply Forall_forall. intros x Hx Ex%list_elem_of_singleton. apply Hz. rewrite <- Ex. by apply Hin. }
  destruct (set_forward_chain s1 _ _ P k u (addr z) C1 Hnd Hu1 Hu2 (linked_step z ge P k u Hnd Hl)) as (s2 & E3 & C3 & F3).
  rewrite (mbnd_eq _ _ _ _ _ E3).
  assert (chain (nodes s2) (own_links ge (S k)) [z]) as C4.
  { eapply chain_frame; [exact F3| |done]. apply Forall_singleton. intros Ex%list_elem_of_singleton. apply Hz. rewrite Ex. by apply Hin. }
  destruct (IH (S k) s2 ltac:(lia) C3 C4) as (s' & E4 & C5 & C6 & F4). exists s'. split_and!; [done..|].
  assert (addr u ∈ map addr P) by (by apply Hin).
  eapply nodes_frame_trans; [|exact F4|done]. eapply nodes_frame_trans; [exact F2| |]; [|set_solver].
  destruct F3. split; try done. intros x Hx. apply frame_nodes0. set_solver.
Qed.

(** The links of the items before the node [z] when its levels below [k] are
    unlinked. *)
Definition unlinked (z : item) (ge : list item) (k i : nat) (p : list item) : Z :=
  next_at i (p ++ if (i <? k)%nat then ge else z :: ge).

Lemma unlinked_step z ge P k e : NoDup (map addr P) → is_last k P e → ∀ q1 x q2 i, P = q1 ++ x :: q2 → (i < ht x)%nat →
  unlinked z ge (S k) i q2 = if decide (addr x = addr e ∧ i = k) then next_at k ge else unlinked z ge k i q2.
Proof.
  intros Hnd He q1 x q2 i HP Hi. unfold unlinked. destruct (decide (i = k)) as [->|Hne].
  - rewrite (proj2 (Nat.ltb_lt k (S k))), (proj2 (Nat.ltb_ge k k)) by lia.
    destruct (level_split k q2) as [Hq|(r1 & y & r2 & Eq & Hr & Hy)].
    + assert (x = e) as -> by (eapply is_last_unique; [|exact He]; by exists q1, q2).
      rewrite decide_True by done. by rewrite next_app_low.
    + rewrite Eq, !next_app_split by done. rewrite decide_False; [done|]. intros [Ha _]. destruct He as (p1 & p2 & HP' & Hk & Hp).
      destruct (position_unique P p1 e p2 q1 x q2 Hnd HP' HP Ha) as [-> <-]. subst q2.
      rewrite Forall_app, Forall_cons in Hp. lia.
  - rewrite decide_False by tauto. by destruct (Nat.ltb_spec i (S k)), (Nat.ltb_spec i k); try lia.
Qed.

Lemma unlink_spec z ge P update : NoDup (map addr (P ++ z :: ge)) → Forall (λ y, addr y ≠ 0) (z :: ge) →
  ∀ n k s, (∀ i, (i < k + n)%nat → ∃ u, update !! i = Some (addr u) ∧ is_last i P u) →
  chain (nodes s) (unlinked z ge k) P → chain (nodes s) next_at (z :: ge) →
  ∃ s', unlink n k (addr z) update s = inr (s', tt) ∧
    chain (nodes s') (unlinked z ge (k + n)) P ∧ chain (nodes s') next_at (z :: ge) ∧ frame (map addr P) s s'.
Proof.
  intros Hnd0 Hnz. pose proof Hnd0 as Hnd. unfold map in Hnd. fold (map addr) in Hnd. change (map addr (P ++ z :: ge)) with (addr <$> (P ++ z :: ge)) in Hnd.
  rewrite fmap_app in Hnd. apply NoDup_app in Hnd as (Hnd & Hdis & Hnd2).
  assert (∀ x, x ∈ P → addr x ∈ addr <$> P) as Hin by (intros x; apply list_elem_of_fmap_2).
  induction n as [|n IH]; intros k s Hu Hc Hz0; cbn [unlink].
  { rewrite Nat.add_0_r. exists s. split_and!; (done || apply nodes_frame_refl). }
  destruct (Hu k ltac:(lia)) as (u & -> & Hl). destruct (is_last_elem _ _ _ Hl) as [Hu1 Hu2].
  pose proof Hl as (p1 & p2 & HP & _ & Hp2).
  assert (get_forward (addr u) k s = inr (s, next_at k (z :: ge))) as E1.
  { rewrite HP in Hc. rewrite (get_forward_eq s _ p1 u p2 k Hc) by done. unfold unlinked.
    rewrite (proj2 (Nat.ltb_ge k k)) by lia. by rewrite next_app_low. }
  rewrite (mbnd_eq _ _ _ _ _ E1).
  assert (∃ s1, (if next_at k (z :: ge) =? addr z then let* g := get_forward (addr z) k in set_forward (addr u) k g else mreturn tt) s = inr (s1, tt) ∧
    chain (nodes s1) (unlinked z ge (S k)) P ∧ chain (nodes s1) next_at (z :: ge) ∧ frame [addr u] s s1) as (s1 & E2 & C1 & C2 & F1).
  { cbn [next_at]. destruct (Nat.ltb_spec k (ht z)) as [Hk|Hk].
    - rewrite Z.eqb_refl. rewrite (mbnd_eq _ _ _ _ _ (get_forward_eq s next_at [] z ge k Hz0 Hk)).
      destruct (set_forward_chain s _ _ P k u (next_at k ge) Hc Hnd Hu1 Hu2 (unlinked_step z ge P k u Hnd Hl)) as (s1 & E & C & Fr).
      exists s1. split_and!; [done..| |done]. eapply chain_frame; [exact Fr| |done].
      apply Forall_forall. intros x Hx Ex%list_elem_of_singleton. apply (Hdis (addr u)); [by apply Hin|]. rewrite <- Ex. by apply list_elem_of_fmap_2.
    - assert (next_at k ge ≠ addr z) as Hne.
      { cbn in Hnd2. apply NoDup_cons in Hnd2 as [Hz _]. rewrite Forall_cons in Hnz. destruct Hnz as [Hz0' _].
        clear - Hz Hz0'. induction ge as [|y ge IHg]; cbn [next_at]; [done|]. destruct (k <? ht y)%nat; [set_solver|]. apply IHg. set_solver. }
      rewrite (proj2 (Z.eqb_neq _ _)) by done. exists s. split_and!; [done| |done|apply nodes_frame_refl].
      eapply links_ext; [|exact Hc]. intros x q2 q1 HPx. split; [done|]. intros i Hi.
      rewrite (unlinked_step z ge P k u Hnd Hl q1 x q2 i HPx Hi). destruct (decide _) as [[Ha ->]|]; [|done].
      destruct (position_unique P p1 u p2 q1 x q2 Hnd HP HPx Ha) as [-> ->]. unfold unlinked.
      rewrite (proj2 (Nat.ltb_ge k k)) by lia. rewrite next_app_low by done. cbn [next_at]. by rewrite (proj2 (Nat.ltb_ge k (ht z))). }
  rewrite (mbnd_eq _ _ _ _ _ E2).
  destruct (IH (S k) s1) as (s' & E4 & C5 & C6 & F4); [intros i Hi; apply Hu; lia|done|done|].
  exists s'. replace (k + S n)%nat with (S k + n)%nat by lia. split_and!; [done..|].
  assert (addr u ∈ map addr P) by (by apply Hin). eapply nodes_frame_trans; [exact F1|exact F4|set_solver].
Qed.

(** ** The lists of roots *)

(** [s] holds at [h] a list whose nodes are [l]. *)
Record rep (s : groots) (h : Z) (l : list item) : Prop := {
  rep_chain : ∃ x, chain (nodes s) next_at (Item h x NUM_LEVELS :: l);
  rep_level : ∃ lv, level s !! h = Some (Z.of_nat lv) ∧ (lv < NUM_LEVELS)%nat ∧ Forall (λ x, 1 <= ht x <= S lv)%nat l;
  rep_sorted : StronglySorted (λ x y, key x < key y) l;
  rep_nodup : NoDup (h :: map addr l);
  rep_nonnull : Forall (λ x, addr x ≠ 0) l
}.

Lemma keys_sorted_app (l1 l2 : list item) : StronglySorted (λ x y, key x < key y) (l1 ++ l2) ↔
  StronglySorted (λ x y, key x < key y) l1 ∧ StronglySorted (λ x y, key x < key y) l2 ∧
  ∀ x y, x ∈ l1 → y ∈ l2 → key x < key y.
Proof.
  induction l1 as [|a l1 IH]; cbn.
  - split; [intros H; split_and!; [constructor|done|set_solver]|tauto].
  - split.
    + intros [H1 H2]%StronglySorted_inv. apply IH in H1 as (S1 & S2 & S3). rewrite Forall_app, !Forall_forall in H2.
      destruct H2 as [F1 F2]. split_and!; [constructor; [done|by apply Forall_forall]|done|].
      intros x y [->|Hx]%elem_of_cons Hy; auto.
    + intros ([S1 F1]%StronglySorted_inv & S2 & S3). constructor.
      * apply IH. split_and!; [done|done|]. intros x y Hx. apply S3. by right.
      * apply Forall_app. split; [done|]. apply Forall_forall. intros y Hy. apply S3; [by left|done].
Qed.

(** A root cuts its list. *)
Lemma sorted_split r l : StronglySorted (λ x y, key x < key y) l →
  ∃ lt ge, l = lt ++ ge ∧ Forall (λ y, key y < r) lt ∧ Forall (λ y, r <= key y) ge.
Proof.
  induction 1 as [|x l Hs IH Hx]; [by exists [], []|]. destruct IH as (lt & ge & -> & H1 & H2).
  destruct (Z.lt_ge_cases (key x) r) as [Hr|Hr].
  - exists (x :: lt), ge. split_and!; [done|by constructor|done].
  - exists [], (x :: lt ++ ge). split_and!; [done|constructor|]. constructor; [done|].
    eapply Forall_impl; [exact Hx|]. cbn. lia.
Qed.

(** The search in a list: where it stops, and what the node found there is. *)
Lemma search_spec s h l r fuel : rep s h l → (length l < fuel)%nat →
  ∃ x lt ge lv e update, l = lt ++ ge ∧ Forall (λ y, key y < r) lt ∧ Forall (λ y, r <= key y) ge ∧
    chain (nodes s) next_at (Item h x NUM_LEVELS :: l) ∧ get_level h s = inr (s, Z.of_nat lv) ∧ (lv < NUM_LEVELS)%nat ∧
    Forall (λ x, 1 <= ht x <= S lv)%nat l ∧
    find_root fuel (Z.to_nat (Z.of_nat lv + 1)) r h (replicate NUM_LEVELS 0) s = inr (s, (addr e, update)) ∧
    get_forward (addr e) 0 s = inr (s, next_at 0 ge) ∧ length update = NUM_LEVELS ∧
    ∀ i, (i < S lv)%nat → ∃ u, update !! i = Some (addr u) ∧ is_last i (Item h x NUM_LEVELS :: lt) u.
Proof.
  intros [(x & Hc) (lv & Hlv & Hlt & Hht) Hs Hnd Hnz] Hf.
  destruct (sorted_split r l Hs) as (lt & ge & -> & Hlow & Hge).
  destruct (find_root_spec s r fuel (Item h x NUM_LEVELS :: lt) ge Hge Hc Hnz Hlow ltac:(rewrite length_app in Hf; cbn; lia)
    (S lv) [] (Item h x NUM_LEVELS) lt (replicate NUM_LEVELS 0) eq_refl) as (e & update & E & H0 & Hl & Hi & _).
  { cbn [ht]. lia. } { rewrite length_replicate. lia. }
  rewrite length_replicate in Hl. pose proof H0 as (p1 & p2 & HP & He & Hp).
  exists x, lt, ge, lv, e, update. split_and!; try done.
  - unfold get_level. by rewrite Hlv.
  - by replace (Z.to_nat (Z.of_nat lv + 1)) with (S lv) by lia.
  - assert (p2 = []) as ->.
    { destruct p2 as [|y p2]; [done|]. exfalso. apply Forall_cons in Hp as [Hy _].
      assert (y ∈ lt) as Hin by (destruct p1; simplify_eq/=; set_solver).
      rewrite Forall_app, Forall_forall in Hht. destruct Hht as [Hht _]. specialize (Hht y Hin). lia. }
    rewrite app_comm_cons, HP, <- app_assoc in Hc. by apply (get_forward_eq s next_at p1 e ge 0).
Qed.

(** Whether the root is there. *)
Lemma found_spec s P ge r : chain (nodes s) next_at (P ++ ge) → Forall (λ y, r <= key y) ge → Forall (λ x, addr x ≠ 0) ge →
  Forall (λ x, 1 <= ht x)%nat ge → StronglySorted (λ x y, key x < key y) ge →
  (Forall (λ y, r < key y) ge ∧ (if next_at 0 ge =? 0 then mreturn false else let* x := get_root (next_at 0 ge) in mreturn (x =? r)) s = inr (s, false)) ∨
  (∃ z gt, ge = z :: gt ∧ key z = r ∧ next_at 0 ge = addr z ∧
     (if next_at 0 ge =? 0 then mreturn false else let* x := get_root (next_at 0 ge) in mreturn (x =? r)) s = inr (s, true)).
Proof.
  intros Hc Hge Hnz Hht Hs. destruct ge as [|z gt]; [by left|]. apply Forall_cons in Hge as [Hz Hge].
  apply Forall_cons in Hnz as [Hz0 _]. apply Forall_cons in Hht as [Hz1 _]. apply StronglySorted_inv in Hs as [_ Hs].
  assert (next_at 0 (z :: gt) = addr z) as -> by (cbn [next_at]; by rewrite (proj2 (Nat.ltb_lt _ _)) by lia).
  rewrite (proj2 (Z.eqb_neq _ _)), (mbnd_eq _ _ _ _ _ (get_root_eq s next_at P z gt Hc)) by done.
  destruct (Z.eqb_spec (key z) r) as [E|E]; [right; by exists z, gt|left]. split; [|done].
  constructor; [lia|]. eapply Forall_impl; [exact Hs|]. cbn. lia.
Qed.

Lemma random_loop_spec fuel r lv : 0 <= r < 2 ^ 32 → (2 ^ 32 | r * 4 ^ Z.of_nat fuel) →
  ∃ k, random_loop fuel r lv = Some k ∧ (k <= lv + fuel)%nat.
Proof.
  revert r lv. induction fuel as [|fuel IH]; intros r lv Hr Hd; cbn [random_loop].
  - destruct Hd as [q Hq]. assert (r = 0) as -> by (change (4 ^ Z.of_nat 0) with 1 in Hq; lia). exists lv. split; [done|lia].
  - destruct (_ =? _); [|exists lv; split; [done|lia]].
    destruct (IH (u32 (Z.shiftl r 2)) (S lv)) as (k & E & Hk).
    + apply Z.mod_pos_bound. done.
    + rewrite Z.shiftl_mul_pow2 by lia. unfold u32. rewrite Z.mod_eq by done. change H32 with (2 ^ 32).
      rewrite Z.mul_sub_distr_r. apply Z.divide_sub_r; [|rewrite <- Z.mul_assoc; apply Z.divide_factor_l].
      rewrite Nat2Z.inj_succ, Z.pow_succ_r in Hd by lia. change (2 ^ 2) with 4. by rewrite <- Z.mul_assoc.
    + exists k. split; [done|lia].
Qed.

(** The level of a new node is within the head's pointers. *)
Lemma random_level_spec s : ∃ k x, random_level_r s = inr (set_seed x s, k) ∧ (k < NUM_LEVELS)%nat.
Proof.
  unfold random_level_r, mbnd, mget, mput. set (r := u32 _).
  destruct (random_loop_spec 16 r 0) as (k & -> & Hk).
  - apply Z.mod_pos_bound. done.
  - change (4 ^ Z.of_nat 16) with (2 ^ 32). apply Z.divide_factor_r.
  - exists k, r. split; [done|]. unfold NUM_LEVELS. lia.
Qed.

Lemma update_heads_lookup n : ∀ i h update j, (i + n <= length update)%nat →
  length (update_heads n i h update) = length update ∧
  update_heads n i h update !! j = if decide (i <= j < i + n)%nat then Some h else update !! j.
Proof.
  induction n as [|n IH]; intros i h update j Hl; cbn [update_heads].
  - split; [done|]. by rewrite decide_False by lia.
  - destruct (IH (S i) h (<[i := h]> update) j) as [E1 E2]; [rewrite length_insert; lia|]. rewrite length_insert in E1. split; [done|].
    rewrite E2. repeat case_decide; try lia; try done.
    + assert (j = i) as -> by lia. apply list_lookup_insert_eq. lia.
    + apply list_lookup_insert_ne. lia.
Qed.

Lemma linked_all z ge i p : linked z ge (ht z) i p = next_at i (p ++ z :: ge).
Proof.
  unfold linked. destruct (level_split i p) as [Hp|(p1 & y & p2 & -> & Hp & Hy)].
  - rewrite !next_app_low by done. cbn [next_at]. destruct (Nat.ltb_spec i (ht z)).
    + by rewrite decide_True.
    + by rewrite decide_False by lia.
  - rewrite !next_app_split by done. rewrite decide_False; [done|]. rewrite Forall_app, Forall_cons. lia.
Qed.

Lemma unlinked_all z ge k i p : (ht z <= k)%nat → unlinked z ge k i p = next_at i (p ++ ge).
Proof.
  intros Hk. unfold unlinked. destruct (Nat.ltb_spec i k); [done|].
  destruct (level_split i p) as [Hp|(p1 & y & p2 & -> & Hp & Hy)].
  - rewrite !next_app_low by done. cbn [next_at]. by rewrite (proj2 (Nat.ltb_ge _ _)) by lia.
  - by rewrite !next_app_split.
Qed.

(** The list at [h] has changed from [l] to [l'], and nothing else. *)
Record changed (h : Z) (l l' : list item) (s s' : groots) : Prop := {
  changed_new : ∀ a, a ∈ map addr l' → a ∈ map addr l ∨ nodes s !! a = None;
  changed_nodes : ∀ x, x ∉ h :: map addr l → x ∉ map addr l' → nodes s' !! x = nodes s !! x;
  changed_level : ∀ h', h' ≠ h → level s' !! h' = level s !! h';
  changed_cells : cells s' = cells s
}.


Lemma get_level_inv s h lv : get_level h s = inr (s, lv) → level s !! h = Some lv.
Proof. unfold get_level. by destruct (level s !! h); intros; simplify_eq. Qed.

(** The level of the list is raised to that of the new node, and the head is
    the place of the update at the new levels. *)
Lemma raise_level_spec s1 h (lv nl : nat) update P x :
  level s1 !! h = Some (Z.of_nat lv) → (nl < length update)%nat →
  (∀ i, (i < S lv)%nat → ∃ u, update !! i = Some (addr u) ∧ is_last i P u) →
  (∀ i, (lv < i <= nl)%nat → is_last i P (Item h x NUM_LEVELS)) →
  ∃ s2 up, (if Z.of_nat lv <? Z.of_nat nl
      then put_level h (Z.of_nat nl) ;;;
           mreturn (update_heads (nl - Z.to_nat (Z.of_nat lv)) (Z.to_nat (Z.of_nat lv + 1)) h update)
      else mreturn update) s1 = inr (s2, up) ∧
    nodes s2 = nodes s1 ∧ cells s2 = cells s1 ∧ level s2 !! h = Some (Z.of_nat (Nat.max lv nl)) ∧
    (∀ h', h' ≠ h → level s2 !! h' = level s1 !! h') ∧
    ∀ i, (i < S nl)%nat → ∃ u, up !! i = Some (addr u) ∧ is_last i P u.
Proof.
  intros Hlv Hlu Hu Hhead. destruct (Z.ltb_spec (Z.of_nat lv) (Z.of_nat nl)).
  - eexists _, (update_heads (nl - lv) (S lv) h update). split_and!.
    + unfold mbnd, put_level, mmodify. rewrite Nat2Z.id. by replace (Z.to_nat (Z.of_nat lv + 1)) with (S lv) by lia.
    + done.
    + done.
    + cbn. rewrite lookup_insert_eq. do 2 f_equal. lia.
    + intros. cbn. by apply lookup_insert_ne.
    + intros i Hi. destruct (update_heads_lookup (nl - lv) (S lv) h update i) as [_ ->]; [lia|].
      destruct (decide _) as [Hd|Hd]; [|apply Hu; lia]. exists (Item h x NUM_LEVELS). split; [done|]. apply Hhead. lia.
  - exists s1, update. split_and!; try done; [|intros i Hi; apply Hu; lia]. rewrite Hlv. do 2 f_equal. lia.
Qed.


Lemma next_none i l : Forall (λ x, addr x ≠ 0) l → next_at i l = 0 → Forall (λ x, ht x <= i)%nat l.
Proof.
  induction 1 as [|x l Hx Hl IH]; cbn [next_at]; [done|]. destruct (Nat.ltb_spec i (ht x)); [done|]. constructor; [done|auto].
Qed.

Lemma lower_level_spec h x l n : ∀ s (lv : nat), chain (nodes s) next_at (Item h x NUM_LEVELS :: l) → Forall (λ x, addr x ≠ 0) l →
  level s !! h = Some (Z.of_nat lv) → (lv < NUM_LEVELS)%nat → (lv <= n)%nat → Forall (λ x, 1 <= ht x <= S lv)%nat l →
  ∃ s', lower_level n h s = inr (s', tt) ∧ nodes s' = nodes s ∧ cells s' = cells s ∧
    (∀ h', h' ≠ h → level s' !! h' = level s !! h') ∧
    ∃ lv' : nat, level s' !! h = Some (Z.of_nat lv') ∧ (lv' < NUM_LEVELS)%nat ∧ Forall (λ x, 1 <= ht x <= S lv')%nat l.
Proof.
  induction n as [|n IH]; intros s lv Hc Hnz Hl Hlv Hn Hht; cbn [lower_level];
    rewrite (mbnd_eq _ _ s s (Z.of_nat lv)) by (unfold get_level; by rewrite Hl).
  - assert (lv = 0%nat) as -> by lia. exists s. split_and!; try done. by exists 0%nat.
  - destruct (Z.ltb_spec 0 (Z.of_nat lv)); [|by exists s; split_and!; try done; exists lv].
    rewrite Nat2Z.id, (mbnd_eq _ _ _ _ _ (get_forward_eq s next_at [] (Item h x NUM_LEVELS) l lv Hc Hlv)).
    destruct (Z.eqb_spec (next_at lv l) 0) as [E|E]; [|by exists s; split_and!; try done; exists lv].
    set (s1 := set_level (<[h := Z.of_nat lv - 1]> (level s)) s).
    rewrite (mbnd_eq _ _ s s1 tt) by done.
    destruct (IH s1 (lv - 1)%nat) as (s' & E1 & H1 & H2 & H3 & H4).
    + done.
    + done.
    + cbn. rewrite lookup_insert_eq. f_equal. lia.
    + lia.
    + lia.
    + apply Forall_forall. intros y Hy. rewrite Forall_forall in Hht. specialize (Hht y Hy).
      pose proof (next_none lv l Hnz E) as Hlow. rewrite Forall_forall in Hlow. specialize (Hlow y Hy). lia.
    + exists s'. split_and!; try done. intros h' Hh. rewrite H3 by done. cbn. by apply lookup_insert_ne.
Qed.

Lemma delete_spec s h l r fuel : rep s h l → (length l < fuel)%nat →
  ∃ s' l', caml_delete_global_root_r fuel h r s = inr (s', tt) ∧ rep s' h l' ∧ changed h l l' s s' ∧
    ∀ k, k ∈ map key l' ↔ k ≠ r ∧ k ∈ map key l.
Proof.
  intros Hrep Hf. pose proof Hrep as [_ _ Hs Hnd Hnz].
  destruct (search_spec s h l r fuel Hrep Hf) as (x & lt & ge & lv & e & update & -> & Hlt & Hge & Hc & Elv & Hlv & Hht & Ef & Eg & Hlu & Hu).
  unfold caml_delete_global_root_r. rewrite (mbnd_eq _ _ _ _ _ Elv), (mbnd_eq _ _ _ _ _ Ef), (mbnd_eq _ _ _ _ _ Eg).
  rewrite keys_sorted_app in Hs. destruct Hs as (S1 & S2 & S3). rewrite Forall_app in Hnz, Hht. destruct Hnz as [Hz1 Hz2]. destruct Hht as [Hh1 Hh2].
  assert (∀ b, (if next_at 0 ge =? 0 then mreturn false else let* x := get_root (next_at 0 ge) in mreturn (x =? r)) s = inr (s, b) →
    (if next_at 0 ge =? 0 then mreturn true else let* x := get_root (next_at 0 ge) in mreturn (negb (x =? r))) s = inr (s, negb b)) as Hneg.
  { intros b. unfold mbnd, mreturn. destruct (next_at 0 ge =? 0); [by intros [= <-]|]. destruct (get_root _ _) as [|[]]; by intros [= <- <-]. }
  destruct (found_spec s (Item h x NUM_LEVELS :: lt) ge r Hc Hge Hz2) as [[Hgt Ep]|(z & gt & -> & Ekz & En & Ep)]; [|done| |];
    [eapply Forall_impl; [exact Hh2|]; cbn; lia|..]; rewrite (mbnd_eq _ _ _ _ _ (Hneg _ Ep)); cbn [negb].
  { exists s, (lt ++ ge). split_and!; [done|done|split; auto|]. intros k. split; [|tauto]. intros Hk. split; [|done]. intros ->.
    rewrite map_app in Hk. apply elem_of_app in Hk as [(y & Ey & Hy)%(list_elem_of_fmap key)|(y & Ey & Hy)%(list_elem_of_fmap key)];
      rewrite Forall_forall in Hlt, Hgt; [specialize (Hlt y Hy)|specialize (Hgt y Hy)]; lia. }
  set (P := Item h x NUM_LEVELS :: lt) in *. change (chain (nodes s) next_at (P ++ z :: gt)) in Hc. pose proof Hc as [HcP Hcg]%links_app.
  assert (NoDup (map addr (P ++ z :: gt))) as HndP by done.
  destruct (unlink_spec z gt P update HndP Hz2 (S lv) 0 s) as (s1 & Eu & C1 & C2 & F1).
  { intros i Hi. apply Hu. lia. } { done. } { done. }
  rewrite En. replace (Z.to_nat (Z.of_nat lv + 1)) with (S lv) by lia. rewrite (mbnd_eq _ _ _ _ _ Eu).
  set (s2 := set_nodes (delete (addr z) (nodes s1)) s1). rewrite (mbnd_eq _ _ s1 s2 tt) by done.
  rewrite Forall_cons in Hh2. destruct Hh2 as [Hzh Hh2]. rewrite Forall_cons in Hz2. destruct Hz2 as [Hz0 Hz2].
  assert (NoDup (map addr (P ++ gt)) ∧ addr z ∉ map addr (P ++ gt)) as [HndP' Hzout].
  { rewrite map_app in HndP |- *. cbn [map] in HndP. rewrite <- Permutation_middle in HndP. apply NoDup_cons in HndP. tauto. }
  assert (chain (nodes s2) next_at (P ++ gt)) as C3.
  { assert (chain (nodes s1) next_at (P ++ gt)) as C3.
    { apply links_app. split; [|by destruct C2]. eapply links_ext; [|exact C1]. intros y p2 p1 _. split; [done|].
      intros i Hi. symmetry. apply unlinked_all. lia. }
    eapply links_ext; [|exact C3]. intros y p2 p1 Ey. split; [|done]. cbn. apply lookup_delete_ne. intros Ea. apply Hzout.
    rewrite Ea, Ey. apply (list_elem_of_fmap_2 addr). set_solver. }
  destruct (lower_level_spec h x (lt ++ gt) NUM_LEVELS s2 lv) as (s' & E' & N' & Ce' & L' & lv' & L1 & L2 & L3).
  { done. } { by apply Forall_app. } { cbn. rewrite (frame_level _ _ _ F1). by apply get_level_inv. } { done. } { lia. } { by apply Forall_app. }
  apply StronglySorted_inv in S2 as [S2 S2z]. destruct F1 as [Fn Fl Fs Fc]. exists s', (lt ++ gt). split_and!; [done|split| |].
  - exists x. by rewrite N'.
  - by exists lv'.
  - rewrite keys_sorted_app. split_and!; [done|done|]. intros y w Hy Hw. apply S3; [done|by right].
  - done.
  - by apply Forall_app.
  - split.
    + intros b. rewrite !map_app. cbn [map]. set_solver.
    + intros y Hy1 Hy2. rewrite N'. cbn. rewrite lookup_delete_ne; [apply Fn|]; rewrite map_app in Hy1; cbn [map] in *; set_solver.
    + intros h' Hh. rewrite L' by done. cbn. by rewrite Fl.
    + rewrite Ce'. cbn. done.
  - intros k. rewrite !map_app. cbn [map]. rewrite !elem_of_app, elem_of_cons. rewrite Forall_forall in Hlt, S2z.
    assert (∀ y, y ∈ lt ∨ y ∈ gt → key y ≠ r) as Hne by (intros y [Hy|Hy]; [specialize (Hlt y Hy)|specialize (S2z y Hy)]; cbn in *; lia).
    rewrite Ekz. split; [|tauto]. intros Hk. split; [|tauto]. intros ->.
    destruct Hk as [(y & Ey & Hy)%(list_elem_of_fmap key)|(y & Ey & Hy)%(list_elem_of_fmap key)]; apply (Hne y); auto.
Qed.

Section Lists.
Context (stat_alloc : groots → option Z).

(** [c] returns with [Q], or the allocator gave up. *)
Definition runs {A} (c : GM A) (Q : A → groots → Prop) (s : groots) : Prop :=
  match c s with
  | inr (s', x) => Q x s'
  | inl Out_of_memory => ∃ t, stat_alloc t = None
  | inl _ => False
  end.

Lemma runs_bind {A B} (c : GM A) (k : A → GM B) Q s : runs c (λ x, runs (k x) Q) s → runs (mbnd c k) Q s.
Proof. unfold runs, mbnd. destruct (c s) as [|[s' x]]; done. Qed.

Lemma runs_conseq {A} (c : GM A) (P Q : A → groots → Prop) s : runs c P s → (∀ x s', P x s' → Q x s') → runs c Q s.
Proof. unfold runs. destruct (c s) as [|[s' x]]; eauto. Qed.

Lemma runs_eq {A} (c : GM A) Q s s' x : c s = inr (s', x) → Q x s' → runs c Q s.
Proof. unfold runs. by intros ->. Qed.

Hypothesis alloc_fresh : ∀ s e, stat_alloc s = Some e → e ≠ 0 ∧ nodes s !! e = None.

(** A new node, with its links made. *)
Lemma new_node_spec s2 h x lt ge r nl update a :
  let P := Item h x NUM_LEVELS :: lt in let z := Item a r (S nl) in
  chain (nodes s2) next_at (P ++ ge) → NoDup (map addr (P ++ ge)) → nodes s2 !! a = None →
  (∀ i, (i < S nl)%nat → ∃ u, update !! i = Some (addr u) ∧ is_last i P u) →
  ∃ s', link (S nl) 0 a update (set_nodes (<[a := Node r (replicate (S nl) 0)]> (nodes s2)) s2) = inr (s', tt) ∧
    chain (nodes s') next_at (P ++ z :: ge) ∧ NoDup (map addr (P ++ z :: ge)) ∧
    frame (a :: map addr P) s2 s'.
Proof.
  intros P z Hc Hnd Ha Hu.
  assert (∀ y, y ∈ P ++ ge → addr y ≠ a) as Hfresh.
  { intros y (q1 & q2 & E)%list_elem_of_split <-. rewrite E in Hc. rewrite (chain_lookup _ _ _ _ _ Hc) in Ha. done. }
  assert (NoDup (map addr (P ++ z :: ge))) as Hnd'.
  { rewrite map_app in Hnd |- *. cbn [map]. rewrite <- Permutation_middle. apply NoDup_cons. split; [|done].
    rewrite <- map_app. intros (y & Ey & Hy)%list_elem_of_fmap. by apply (Hfresh y Hy). }
  assert (NoDup (map addr (z :: P))) as Hzp.
  { cbn [map]. apply NoDup_cons. rewrite map_app in Hnd. apply NoDup_app in Hnd as (HnP & _ & _). split; [|done].
    intros (y & Ey & Hy)%(list_elem_of_fmap addr). apply (Hfresh y); [set_solver|done]. }
  pose proof Hc as [HcP Hcg]%links_app. set (s3 := set_nodes _ s2).
  assert (frame [a] s2 s3) as F1 by (split; try done; intros y Hy; cbn; apply lookup_insert_ne; set_solver).
  assert (∀ l, (∀ y, y ∈ l → y ∈ P ++ ge) → Forall (λ y, addr y ∉ [a]) l) as Hout.
  { intros l Hl. apply Forall_forall. intros y Hy ?%list_elem_of_singleton. by apply (Hfresh y); [apply Hl|]. }
  destruct (link_spec z ge P update Hzp Hu (S nl) 0 s3 eq_refl) as (s' & E & C1 & C2 & F2).
  - eapply (chain_frame [a]); [exact F1|apply Hout; set_solver|].
    eapply links_ext; [|exact HcP]. intros y p2 p1 _. split; [done|]. intros i Hi. unfold linked. by rewrite decide_False by lia.
  - split; [|done]. cbn [nodes set_nodes s3 addr z]. rewrite lookup_insert_eq. do 2 f_equal. cbn [ht z].
    apply list_eq. intros j. destruct (decide (j < S nl)%nat).
    + rewrite lookup_replicate_2, map_seq_lookup by done. done.
    + rewrite !lookup_ge_None_2; [done|rewrite length_map, length_seq; lia|rewrite length_replicate; lia].
  - exists s'. split_and!; [done| |done|].
    + apply links_app. split.
      * eapply links_ext; [|exact C1]. intros y p2 p1 _. split; [done|]. intros i Hi. symmetry. apply linked_all.
      * destruct C2 as [C2 _]. split.
        -- rewrite C2. do 2 f_equal. apply map_ext_in. intros i Hi%in_seq. unfold own_links. by rewrite (proj2 (Nat.ltb_lt _ _)) by lia.
        -- eapply chain_frame; [exact F2| |]; [|eapply (chain_frame [a]); [exact F1|apply Hout; set_solver|done]].
           apply Forall_forall. intros y Hy. rewrite map_app in Hnd'. apply NoDup_app in Hnd' as (_ & Hd & Hn).
           cbn [map]. intros [Ey|Hy']%elem_of_cons; [by apply (Hfresh y); [set_solver|]|].
           apply (Hd (addr y) Hy'). cbn [map]. right. by apply (list_elem_of_fmap_2 addr).
    + eapply nodes_frame_trans; [exact F1|exact F2|]. cbn [map]. set_solver.
Qed.

Lemma insert_spec s h l r fuel : rep s h l → (length l < fuel)%nat →
  runs (caml_insert_global_root_r stat_alloc fuel h r) (λ _ s', ∃ l', rep s' h l' ∧ changed h l l' s s' ∧
    ∀ k, k ∈ map key l' ↔ k = r ∨ k ∈ map key l) s.
Proof.
  intros Hrep Hf. pose proof Hrep as [_ _ Hs Hnd Hnz].
  destruct (search_spec s h l r fuel Hrep Hf) as (x & lt & ge & lv & e & update & -> & Hlt & Hge & Hc & Elv & Hlv & Hht & Ef & Eg & Hlu & Hu).
  unfold caml_insert_global_root_r. apply runs_bind. eapply runs_eq; [exact Elv|]. apply runs_bind.
  eapply runs_eq; [exact Ef|]. apply runs_bind. eapply runs_eq; [exact Eg|]. apply runs_bind.
  rewrite keys_sorted_app in Hs. destruct Hs as (S1 & S2 & S3). rewrite Forall_app in Hnz, Hht. destruct Hnz as [Hz1 Hz2]. destruct Hht as [Hh1 Hh2].
  destruct (found_spec s (Item h x NUM_LEVELS :: lt) ge r Hc Hge Hz2) as [[Hgt Ep]|(z & gt & -> & Ekz & _ & Ep)]; [|done| |].
  { eapply Forall_impl; [exact Hh2|]. cbn. lia. }
  2: { eapply runs_eq; [exact Ep|]. cbn. exists (lt ++ z :: gt). split_and!; [done|split; auto|].
       intros k. split; [by right|]. intros [->|]; [|done]. rewrite map_app. cbn. set_solver. }
  eapply runs_eq; [exact Ep|]. cbn. apply runs_bind. destruct (random_level_spec s) as (nl & sd & Er & Hnl). eapply runs_eq; [exact Er|].
  set (s1 := set_seed sd s). apply runs_bind.
  set (lv' := Nat.max lv nl).
  destruct (raise_level_spec s1 h lv nl update (Item h x NUM_LEVELS :: lt) x) as (s2 & up & E2 & N2 & Ce2 & L2 & L2' & Hup);
    [exact (get_level_inv _ _ _ Elv)|by rewrite Hlu|done| |].
  { intros i Hi. exists [], lt. split_and!; [done|cbn [ht]; lia|]. eapply Forall_impl; [exact Hh1|]. cbn. lia. }
  change (nodes s1) with (nodes s) in N2. change (cells s1) with (cells s) in Ce2. change (level s1) with (level s) in L2'.
  eapply runs_eq; [exact E2|]. apply runs_bind. eapply runs_eq; [reflexivity|].
  destruct (stat_alloc s2) as [a|] eqn:Ea; [|by exists s2]. destruct (alloc_fresh s2 a Ea) as [Ha0 Hfr].
  apply runs_bind. eapply runs_eq; [reflexivity|].
  destruct (new_node_spec s2 h x lt ge r nl up a) as (s' & El & C' & N' & F').
  { by rewrite N2. } { cbn [map app]. done. } { done. } { done. }
  eapply runs_eq; [exact El|]. exists (lt ++ Item a r (S nl) :: ge). destruct F' as [Fn Flv Fsd Fc]. split_and!.
  - split.
    + by exists x.
    + exists lv'. rewrite Flv. split_and!; [done|unfold lv'; lia|]. rewrite Forall_app, Forall_cons. cbn [ht]. split_and!; try lia.
      * eapply Forall_impl; [exact Hh1|]. cbn. lia.
      * eapply Forall_impl; [exact Hh2|]. cbn. lia.
    + rewrite keys_sorted_app. rewrite Forall_forall in Hlt, Hgt. split_and!; [done|constructor; [done|by apply Forall_forall]|].
      intros y w Hy [->|Hw]%elem_of_cons; cbn [key]; auto.
    + done.
    + rewrite Forall_app, Forall_cons. done.
  - split.
    + intros b. rewrite !map_app. cbn [map]. rewrite elem_of_app, elem_of_cons, elem_of_app. cbn [addr]. rewrite <- N2. naive_solver.
    + intros y Hy1 Hy2. rewrite <- N2. apply Fn. rewrite map_app in Hy2. cbn [map addr] in *. set_solver.
    + intros h' Hh. rewrite Flv. by apply L2'.
    + by rewrite Fc.
  - intros k. rewrite !map_app. cbn [map key]. set_solver.
Qed.
End Lists.

(** ** Several lists *)

(** Another list is not affected by a change, and stays apart from it. *)
Definition apart (h : Z) (l : list item) (h2 : Z) (l2 : list item) : Prop :=
  ∀ a, a ∈ h :: map addr l → a ∉ h2 :: map addr l2.

Lemma rep_mapped s h l a : rep s h l → a ∈ h :: map addr l → is_Some (nodes s !! a).
Proof.
  intros [(x & Hc) _ _ _ _] Ha. change (h :: map addr l) with (map addr (Item h x NUM_LEVELS :: l)) in Ha.
  apply (list_elem_of_fmap addr) in Ha as (y & -> & (p1 & p2 & E)%list_elem_of_split).
  rewrite E in Hc. rewrite (chain_lookup _ _ _ _ _ Hc). by eexists.
Qed.

Lemma rep_same s s' h l : rep s h l → (∀ a, a ∈ h :: map addr l → nodes s' !! a = nodes s !! a) → level s' !! h = level s !! h → rep s' h l.
Proof.
  intros [(x & Hc) Hl Hs Hnd Hnz] Hn Hlv. split; try done; [|by rewrite Hlv].
  exists x. eapply links_ext; [|exact Hc]. intros y p2 p1 E. split; [|done]. apply Hn.
  change (h :: map addr l) with (map addr (Item h x NUM_LEVELS :: l)). rewrite E. apply (list_elem_of_fmap_2 addr). set_solver.
Qed.

Lemma changed_other h l l' s s' h2 l2 : rep s h l → rep s' h l' → changed h l l' s s' → rep s h2 l2 → apart h l h2 l2 →
  rep s' h2 l2 ∧ apart h l' h2 l2.
Proof.
  intros Hr Hr' [Hnew Hn Hl _] Hr2 Hap.
  assert (apart h l' h2 l2) as Hap'.
  { intros a Ha Ha2. apply elem_of_cons in Ha as [->|Ha]; [apply (Hap h); [by left|done]|].
    destruct (Hnew a Ha) as [Ha'|Ha']; [apply (Hap a); [by right|done]|].
    destruct (rep_mapped _ _ _ _ Hr2 Ha2) as [? ?]. congruence. }
  split; [|done]. apply (rep_same s); [done| |].
  - intros a Ha. apply Hn; [intros Hh; by apply (Hap a Hh)|intros Hh; apply (Hap' a); [by right|done]].
  - apply Hl. intros ->. apply (Hap h); by left.
Qed.

(** ** Iteration *)

(** The calls [f( *r, r)] on a list of roots. *)
Fixpoint visit (f : Z → Z → GM unit) (rs : list Z) : GM unit :=
  match rs with
  | [] => mreturn tt
  | r :: rs => let* v := get_cell r in f v r ;;; visit f rs
  end.

(** A scanning action changes roots only. *)
Definition scanning (f : Z → Z → GM unit) : Prop :=
  ∀ v r s s', f v r s = inr (s', tt) → nodes s' = nodes s ∧ level s' = level s.

Lemma iterate_from_spec f fuel : scanning f → ∀ l s p, chain (nodes s) next_at (p ++ l) → Forall (λ x, addr x ≠ 0) l →
  Forall (λ x, 1 <= ht x)%nat l → (length l <= fuel)%nat → iterate_from fuel (next_at 0 l) f s = visit f (map key l) s.
Proof.
  intros Hf. induction fuel as [|fuel IH]; intros l s p Hc Hnz Hht Hl; destruct l as [|x l]; cbn in Hl; try lia; [done..|].
  apply Forall_cons in Hnz as [Hx Hnz]. apply Forall_cons in Hht as [Hh Hht]. cbn [map visit].
  assert (next_at 0 (x :: l) = addr x) as -> by (cbn [next_at]; by rewrite (proj2 (Nat.ltb_lt _ _)) by lia).
  cbn [iterate_from]. rewrite (proj2 (Z.eqb_neq _ _)), (mbnd_eq _ _ _ _ _ (get_root_eq s next_at p x l Hc)) by done.
  unfold mbnd. destruct (get_cell (key x) s) as [|[s1 v]] eqn:E1; [done|].
  assert (s1 = s) as -> by (unfold get_cell in E1; destruct (cells s !! key x); by simplify_eq).
  destruct (f v (key x) s) as [|[s2 []]] eqn:E2; [done|]. destruct (Hf _ _ _ _ E2) as [En _].
  rewrite <- En in Hc. rewrite (get_forward_eq s2 next_at p x l 0 Hc) by lia.
  apply (IH _ _ (p ++ [x])); [by rewrite <- app_assoc|done|done|lia].
Qed.

Lemma iterate_spec f fuel s h l : scanning f → rep s h l → (length l <= fuel)%nat →
  caml_iterate_global_roots_r fuel f h s = visit f (map key l) s.
Proof.
  intros Hf [(x & Hc) (lv & _ & _ & Hht) _ _ Hnz] Hl. unfold caml_iterate_global_roots_r.
  rewrite (mbnd_eq _ _ _ _ _ (get_forward_eq s next_at [] (Item h x NUM_LEVELS) l 0 Hc ltac:(cbn; unfold NUM_LEVELS; lia))).
  apply (iterate_from_spec f fuel Hf l s [Item h x NUM_LEVELS]); try done. eapply Forall_impl; [exact Hht|]. cbn. lia.
Qed.

Lemma visit_scanning f rs s s' : scanning f → visit f rs s = inr (s', tt) → nodes s' = nodes s ∧ level s' = level s.
Proof.
  intros Hf. revert s. induction rs as [|r rs IH]; intros s; cbn [visit]; [by intros [= ->]|].
  unfold mbnd. destruct (get_cell r s) as [|[s1 v]] eqn:E1; [done|].
  assert (s1 = s) as -> by (unfold get_cell in E1; destruct (cells s !! r); by simplify_eq).
  destruct (f v r s) as [|[s2 []]] eqn:E2; [done|]. destruct (Hf _ _ _ _ E2) as [<- <-]. apply IH.
Qed.

(** ** Emptying a list *)

Lemma free_from_spec fuel : ∀ l s, chain (nodes s) next_at l → NoDup (map addr l) → Forall (λ x, addr x ≠ 0) l →
  Forall (λ x, 1 <= ht x)%nat l → (length l <= fuel)%nat →
  ∃ s', free_from fuel (next_at 0 l) s = inr (s', tt) ∧ frame (map addr l) s s'.
Proof.
  induction fuel as [|fuel IH]; intros l s Hc Hnd Hnz Hht Hl; destruct l as [|x l]; cbn in Hl; try lia;
    [exists s; split; [done|apply nodes_frame_refl]..|].
  apply Forall_cons in Hnz as [Hx Hnz]. apply Forall_cons in Hht as [Hh Hht].
  assert (next_at 0 (x :: l) = addr x) as -> by (cbn [next_at]; by rewrite (proj2 (Nat.ltb_lt _ _)) by lia).
  cbn [free_from]. rewrite (proj2 (Z.eqb_neq _ _)), (mbnd_eq _ _ _ _ _ (get_forward_eq s next_at [] x l 0 Hc ltac:(lia))) by done.
  set (s1 := set_nodes (delete (addr x) (nodes s)) s). rewrite (mbnd_eq _ _ s s1 tt) by done.
  cbn [map] in Hnd. apply NoDup_cons in Hnd as [Hxo Hnd].
  assert (frame [addr x] s s1) as F1 by (split; try done; intros y Hy; cbn; apply lookup_delete_ne; set_solver).
  destruct (IH l s1) as (s' & E & F'); try done; try lia.
  { eapply chain_frame; [exact F1| |by destruct Hc]. apply Forall_forall. intros y Hy Ey%list_elem_of_singleton. apply Hxo.
    rewrite <- Ey. by apply (list_elem_of_fmap_2 addr). }
  exists s'. split; [done|]. cbn [map]. eapply nodes_frame_trans; [exact F1| |]; [|set_solver].
  destruct F' as [G1 G2 G3 G4]. split; try done. intros y Hy. apply G1. set_solver.
Qed.

Lemma clear_heads_spec h x l n : ∀ k s, (k + n <= NUM_LEVELS)%nat →
  chain (nodes s) (λ i _, if (i <? k)%nat then 0 else next_at i l) [Item h x NUM_LEVELS] →
  ∃ s', clear_heads n k h s = inr (s', tt) ∧
    chain (nodes s') (λ i _, if (i <? k + n)%nat then 0 else next_at i l) [Item h x NUM_LEVELS] ∧ frame [h] s s'.
Proof.
  induction n as [|n IH]; intros k s Hk Hc; cbn [clear_heads].
  - rewrite Nat.add_0_r. exists s. split_and!; (done || apply nodes_frame_refl).
  - destruct (set_forward_chain s _ (λ i _, if (i <? S k)%nat then 0 else next_at i l) _ k (Item h x NUM_LEVELS) 0 Hc) as (s1 & E1 & C1 & F1).
    { cbn. apply NoDup_singleton. } { by apply list_elem_of_singleton. } { cbn [ht]. lia. }
    { intros q1 y q2 i HP Hi. destruct q1 as [|? [|]]; simplify_eq/=. destruct (decide (i = k)) as [->|Hne].
      - rewrite decide_True by done. by rewrite (proj2 (Nat.ltb_lt _ _)) by lia.
      - rewrite decide_False by tauto. by destruct (Nat.ltb_spec i (S k)), (Nat.ltb_spec i k); try lia. }
    cbn [addr] in E1. rewrite (mbnd_eq _ _ _ _ _ E1). destruct (IH (S k) s1 ltac:(lia) C1) as (s' & E2 & C2 & F2).
    exists s'. replace (k + S n)%nat with (S k + n)%nat by lia. split_and!; [done..|]. eapply nodes_frame_trans; [exact F1|exact F2|done].
Qed.

Lemma next_high i l : Forall (λ x, ht x <= i)%nat l → next_at i l = 0.
Proof. intros Hl. by rewrite <- (app_nil_r l), next_app_low. Qed.

Lemma empty_spec s h l fuel : rep s h l → (length l <= fuel)%nat →
  ∃ s', caml_empty_global_roots_r fuel h s = inr (s', tt) ∧ rep s' h [] ∧ changed h l [] s s'.
Proof.
  intros [(x & Hc) (lv & Hlv & Hlt & Hht) Hs Hnd Hnz] Hl. unfold caml_empty_global_roots_r.
  rewrite (mbnd_eq _ _ _ _ _ (get_forward_eq s next_at [] (Item h x NUM_LEVELS) l 0 Hc ltac:(cbn; unfold NUM_LEVELS; lia))).
  apply NoDup_cons in Hnd as [Hh Hnd]. destruct Hc as [Hch Hcl].
  destruct (free_from_spec fuel l s Hcl Hnd Hnz) as (s1 & E1 & F1); [eapply Forall_impl; [exact Hht|]; cbn; lia|done|].
  rewrite (mbnd_eq _ _ _ _ _ E1). destruct F1 as [Fn Fl Fs Fc].
  rewrite (mbnd_eq _ _ s1 s1 (Z.of_nat lv)) by (unfold get_level; by rewrite Fl, Hlv).
  replace (Z.to_nat (Z.of_nat lv + 1)) with (S lv) by lia.
  destruct (clear_heads_spec h x l (S lv) 0 s1) as (s2 & E2 & C2 & F2); [lia|split; [|done]; cbn [addr] in *; rewrite Fn by done; exact Hch|].
  rewrite (mbnd_eq _ _ _ _ _ E2). destruct F2 as [Gn Gl Gs Gc].
  eexists. split; [reflexivity|]. split.
  - split; [exists x|exists 0%nat|constructor|apply NoDup_singleton|done].
    + cbn [nodes set_level]. eapply links_ext; [|exact C2]. intros y q2 q1 E. split; [done|]. intros i Hi.
      destruct q1 as [|? [|]]; simplify_eq/=. destruct (Nat.ltb_spec i (S lv)); [done|]. rewrite next_high; [done|].
      eapply Forall_impl; [exact Hht|]. cbn. lia.
    + cbn [level set_level]. rewrite lookup_insert_eq. split_and!; [done|unfold NUM_LEVELS; lia|done].
  - split.
    + intros a Ha. cbn in Ha. set_solver.
    + intros y Hy _. cbn. rewrite Gn by set_solver. apply Fn. set_solver.
    + intros h' Hne. cbn. rewrite lookup_insert_ne by done. by rewrite Gl, Fl.
    + cbn. by rewrite Gc, Fc.
Qed.

(** ** The root lists as sets *)

Inductive list_op : Type := Insert (r : Z) | Delete (r : Z).

Definition apply_op (x : gset Z) (op : list_op) : gset Z :=
  match op with Insert r => {[r]} ∪ x | Delete r => x ∖ {[r]} end.

Definition keys (l : list item) : gset Z := list_to_set (map key l).

Lemma elem_of_keys k l : k ∈ keys l ↔ k ∈ map key l.
Proof. unfold keys. apply elem_of_list_to_set. Qed.

Lemma sorted_keys l : StronglySorted (λ x y, key x < key y) l → StronglySorted Z.lt (map key l).
Proof. induction 1 as [|x l Hs IH Hx]; cbn; constructor; [done|]. by apply Forall_map. Qed.

Lemma sorted_nodup (rs : list Z) : StronglySorted Z.lt rs → NoDup rs.
Proof.
  induction 1 as [|x l Hs IH Hx]; constructor; [|done]. intros Hin. rewrite Forall_forall in Hx. specialize (Hx x Hin). lia.
Qed.

Lemma keys_length s s' h l l' r : rep s h l → rep s' h l' → (∀ k, k ∈ map key l' → k = r ∨ k ∈ map key l) → (length l' <= S (length l))%nat.
Proof.
  intros _ [_ _ Hs _ _] Hk. assert (map key l' ⊆+ r :: map key l) as Hsub.
  { apply NoDup_submseteq; [by apply sorted_nodup, sorted_keys|]. intros k Hin. apply elem_of_cons. auto. }
  apply submseteq_length in Hsub. cbn in Hsub. by rewrite !length_map in Hsub.
Qed.

Section Roots.
Context (stat_alloc : groots → option Z).

Abbreviation insert_root := (caml_insert_global_root_r stat_alloc).
Abbreviation runs := (runs stat_alloc).

Definition run_op (fuel : nat) (h : Z) (op : list_op) : GM unit :=
  match op with Insert r => insert_root fuel h r | Delete r => caml_delete_global_root_r fuel h r end.
Fixpoint run_ops (fuel : nat) (h : Z) (ops : list list_op) : GM unit :=
  match ops with [] => mreturn tt | op :: ops => run_op fuel h op ;;; run_ops fuel h ops end.

(** What the allocator promises. *)
Hypothesis alloc_fresh : ∀ s e, stat_alloc s = Some e → e ≠ 0 ∧ nodes s !! e = None.

Lemma run_op_spec s h l op fuel : rep s h l → (length l < fuel)%nat →
  runs (run_op fuel h op) (λ _ s', ∃ l', rep s' h l' ∧ changed h l l' s s' ∧
    keys l' = apply_op (keys l) op ∧ (length l' <= S (length l))%nat) s.
Proof.
  intros Hr Hf. destruct op as [r|r]; cbn [run_op apply_op].
  - eapply runs_conseq; [by apply insert_spec|]. cbn. intros _ s' (l' & Hr' & Hc & Hk). exists l'. split_and!; [done|done| |].
    + apply set_eq. intros k. rewrite elem_of_union, elem_of_singleton, !elem_of_keys. apply Hk.
    + eapply (keys_length s s' h l l' r); [done|done|]. intros k. apply Hk.
  - destruct (delete_spec s h l r fuel Hr Hf) as (s' & l' & E & Hr' & Hc & Hk).
    eapply runs_eq; [exact E|]. exists l'. split_and!; [done|done| |].
    + apply set_eq. intros k. rewrite elem_of_difference, elem_of_singleton, !elem_of_keys, Hk. tauto.
    + eapply (keys_length s s' h l l' r); [done|done|]. intros k Hin%Hk. tauto.
Qed.

Lemma run_ops_spec ops : ∀ s h l fuel, rep s h l → (length l + length ops < fuel)%nat →
  runs (run_ops fuel h ops) (λ _ s', ∃ l', rep s' h l' ∧ keys l' = foldl apply_op (keys l) ops ∧
    (length l' <= length l + length ops)%nat) s.
Proof.
  induction ops as [|op ops IH]; intros s h l fuel Hr Hf; cbn [run_ops foldl length] in *.
  - exists l. split_and!; [done|done|lia].
  - apply runs_bind. eapply runs_conseq; [apply run_op_spec; [done|lia]|]. cbn. intros _ s' (l' & Hr' & _ & <- & Hl).
    eapply runs_conseq; [apply IH; [done|lia]|]. cbn. intros _ s'' (l'' & H1 & H2 & H3). exists l''. split_and!; [done|done|lia].
Qed.

(** C15: a list of roots is a finite set: after any sequence of insertions and
    deletions of roots, in any order and with repetitions, iterating over the
    list visits exactly the roots of the resulting set, each once and in
    increasing order, whatever the levels chosen at random; every operation
    ends (or the allocator is out of memory). *)
Theorem root_list_refines_set s h l ops fuel :
  rep s h l → (length l + length ops < fuel)%nat →
  runs (run_ops fuel h ops) (λ _ s', ∃ rs, StronglySorted Z.lt rs ∧
    (list_to_set rs : gset Z) = foldl apply_op (keys l) ops ∧
    ∀ f, scanning f → caml_iterate_global_roots_r fuel f h s' = visit f rs s') s.
Proof.
  intros Hr Hf. eapply runs_conseq; [by apply run_ops_spec|]. cbn. intros _ s' (l' & H1 & H2 & H3).
  exists (map key l'). split_and!; [apply sorted_keys, H1|done|]. intros f Hfs. apply iterate_spec; [done|done|lia].
Qed.

(** ** The three lists *)

Context (hg hy ho : Z).

Record lists (s : groots) (lg ly lo : list item) : Prop := {
  lists_g : rep s hg lg;
  lists_y : rep s hy ly;
  lists_o : rep s ho lo;
  lists_gy : apart hg lg hy ly;
  lists_go : apart hg lg ho lo;
  lists_yo : apart hy ly ho lo
}.

Lemma apart_sym h l h2 l2 : apart h l h2 l2 → apart h2 l2 h l.
Proof. intros Ha a H2 H1. by apply (Ha a). Qed.

Lemma lists_young s s' lg ly lo ly' : lists s lg ly lo → rep s' hy ly' → changed hy ly ly' s s' → lists s' lg ly' lo.
Proof.
  intros [Hg Hy Ho A1 A2 A3] Hy' Hc.
  destruct (changed_other hy ly ly' s s' hg lg) as [Hg' A1']; try done; [by apply apart_sym|].
  destruct (changed_other hy ly ly' s s' ho lo) as [Ho' A3']; try done. split; try done. by apply apart_sym.
Qed.

Lemma lists_old s s' lg ly lo lo' : lists s lg ly lo → rep s' ho lo' → changed ho lo lo' s s' → lists s' lg ly lo'.
Proof.
  intros [Hg Hy Ho A1 A2 A3] Ho' Hc.
  destruct (changed_other ho lo lo' s s' hg lg) as [Hg' A2']; try done; [by apply apart_sym|].
  destruct (changed_other ho lo lo' s s' hy ly) as [Hy' A3']; try done; [by apply apart_sym|].
  split; try done; by apply apart_sym.
Qed.

(** ** Minor collections *)

Lemma lists_same s s' lg ly lo : lists s lg ly lo → nodes s' = nodes s → level s' = level s → lists s' lg ly lo.
Proof.
  intros [G1 G2 G3 A1 A2 A3] En El. split; try done; eapply rep_same; try done; by rewrite ?En, ?El.
Qed.

Lemma visit_app f rs1 rs2 s : visit f (rs1 ++ rs2) s = mbnd (visit f rs1) (λ _, visit f rs2) s.
Proof.
  revert s. induction rs1 as [|r rs1 IH]; intros s; [done|]. cbn [visit app]. unfold mbnd.
  destruct (get_cell r s) as [|[s1 v]]; [done|]. destruct (f v r s1) as [|[s2 []]]; [done|]. apply IH.
Qed.

Lemma move_young_spec lg fuel n : ∀ ly1 ly2 lo s, lists s lg (ly1 ++ ly2) lo → (length ly2 <= n)%nat → (length lo + length ly2 < fuel)%nat →
  runs (move_young stat_alloc ho n fuel (next_at 0 ly2)) (λ _ s', ∃ lo', lists s' lg (ly1 ++ ly2) lo' ∧
    keys lo' = keys ly2 ∪ keys lo ∧ cells s' = cells s) s.
Proof.
  induction n as [|n IH]; intros ly1 ly2 lo s Hl Hn Hf; destruct ly2 as [|x ly2]; cbn [length] in *; try lia;
    [exists lo; split_and!; [done|set_solver|done]..|].
  pose proof (lists_y _ _ _ _ Hl) as [(k & Hc) (lv & _ & _ & Hht) _ _ Hnz].
  rewrite Forall_app, Forall_cons in Hnz, Hht.
  assert (next_at 0 (x :: ly2) = addr x) as -> by (cbn [next_at]; by rewrite (proj2 (Nat.ltb_lt _ _)) by lia).
  cbn [move_young]. rewrite (proj2 (Z.eqb_neq _ _)) by tauto. apply runs_bind.
  eapply runs_eq; [apply (get_root_eq s next_at (Item hy k NUM_LEVELS :: ly1) x ly2 Hc)|]. apply runs_bind.
  eapply runs_conseq; [apply (run_op_spec s ho lo (Insert (key x))); [apply Hl|lia]|]. cbn.
  intros _ s1 (lo' & R1 & C1 & K1 & L1). pose proof (lists_old _ _ _ _ _ _ Hl R1 C1) as Hl1. apply runs_bind.
  pose proof (lists_y _ _ _ _ Hl1) as [(k1 & Hc1) _ _ _ _].
  eapply runs_eq; [apply (get_forward_eq s1 next_at (Item hy k1 NUM_LEVELS :: ly1) x ly2 0 Hc1); lia|].
  change (x :: ly2) with ([x] ++ ly2) in *. rewrite app_assoc in Hl1.
  eapply runs_conseq; [apply (IH (ly1 ++ [x]) ly2 lo' s1 Hl1); lia|]. cbn. intros _ s' (lo2 & H1 & H2 & H3).
  exists lo2. rewrite <- app_assoc in H1. split_and!; [done| |by rewrite H3; apply C1]. rewrite H2, K1. unfold keys. cbn. set_solver.
Qed.

(** The scan for a minor collection applies the action to the mutable roots
    and to the young ones, each once in increasing order, and then has all
    young roots in the old list and none in the young list. *)
Theorem scan_young_roots_correct s s0 s1 lg ly lo f scan_globals fuel :
  lists s lg ly lo → (length lg + length ly + length lo < fuel)%nat → scanning f →
  scan_globals s = inr (s0, tt) → nodes s0 = nodes s ∧ level s0 = level s →
  visit f (map key lg ++ map key ly) s0 = inr (s1, tt) →
  runs (caml_scan_global_young_roots_r stat_alloc hg hy ho fuel scan_globals f)
    (λ _ s', ∃ lo', lists s' lg [] lo' ∧ keys lo' = keys ly ∪ keys lo ∧ cells s' = cells s1) s.
Proof.
  intros Hl Hf Hs Eg [N0 L0] Ev. unfold caml_scan_global_young_roots_r. apply runs_bind. eapply runs_eq; [exact Eg|].
  pose proof (lists_same _ s0 _ _ _ Hl N0 L0) as Hl0. rewrite visit_app in Ev. unfold mbnd in Ev.
  destruct (visit f (map key lg) s0) as [|[sa []]] eqn:Ea; [done|]. destruct (visit_scanning _ _ _ _ Hs Ea) as [Na La].
  pose proof (lists_same _ sa _ _ _ Hl0 Na La) as Hla. destruct (visit_scanning _ _ _ _ Hs Ev) as [N1 L1].
  pose proof (lists_same _ s1 _ _ _ Hla N1 L1) as Hl1.
  apply runs_bind. eapply runs_eq; [rewrite (iterate_spec f fuel s0 hg lg Hs (lists_g _ _ _ _ Hl0)) by lia; exact Ea|].
  apply runs_bind. eapply runs_eq; [rewrite (iterate_spec f fuel sa hy ly Hs (lists_y _ _ _ _ Hla)) by lia; exact Ev|].
  apply runs_bind. pose proof (lists_y _ _ _ _ Hl1) as [(k & Hc) _ _ _ _].
  eapply runs_eq; [apply (get_forward_eq s1 next_at [] (Item hy k NUM_LEVELS) ly 0 Hc); cbn; unfold NUM_LEVELS; lia|].
  apply runs_bind. eapply runs_conseq; [apply (move_young_spec lg fuel fuel [] ly lo s1 Hl1); lia|]. cbn.
  intros _ s2 (lo' & Hl2 & K2 & C2). destruct (empty_spec s2 hy ly fuel (lists_y _ _ _ _ Hl2) ltac:(lia)) as (s' & E' & R' & Ch).
  eapply runs_eq; [exact E'|]. exists lo'. split_and!; [by eapply lists_young|done|]. by rewrite (changed_cells _ _ _ _ _ Ch).
Qed.
(** ** Generational roots *)

Context (Is_young Is_in_heap : Z → bool).

(** A generational root that holds a block of the minor heap is in the young
    list; one that holds a block of the major heap is in one of the two. *)
Definition covered (v : Z) (y o : Prop) : Prop :=
  Is_block v = true → (Is_young v = true → y) ∧ (Is_in_heap v = true → y ∨ o).

Definition generational (s : groots) (R : gset Z) (ly lo : list item) : Prop :=
  ∀ r, r ∈ R → ∃ v, cells s !! r = Some v ∧ covered v (r ∈ keys ly) (r ∈ keys lo).

Inductive root_op : Type := Register (r : Z) | Remove (r : Z) | Change (r v : Z).

Definition run_root_op (fuel : nat) (op : root_op) : GM unit :=
  match op with
  | Register r => caml_register_generational_global_root_r stat_alloc Is_young Is_in_heap hy ho fuel r
  | Remove r => caml_remove_generational_global_root_r Is_young Is_in_heap hy ho fuel r
  | Change r v => caml_modify_generational_global_root_r stat_alloc Is_young Is_in_heap hy ho fuel r v
  end.
Definition after_op (R : gset Z) (op : root_op) : gset Z :=
  match op with Register r => {[r]} ∪ R | Remove r => R ∖ {[r]} | Change _ _ => R end.

(** A root is changed while registered, and from a value that the collector
    tracks: not a block outside both heaps. *)
Definition allowed (s : groots) (R : gset Z) (op : root_op) : Prop :=
  match op with
  | Register r => is_Some (cells s !! r)
  | Remove r => is_Some (cells s !! r)
  | Change r v => r ∈ R ∧ ∀ old, cells s !! r = Some old → Is_block old = true → Is_young old = true ∨ Is_in_heap old = true
  end.


Lemma covered_weaken v (y o y' o' : Prop) : covered v y o → (y → y') → (o → y' ∨ o') → covered v y' o'.
Proof. unfold covered. intros Hc Hy Ho Hb. destruct (Hc Hb). split; tauto. Qed.

Lemma generational_step s s' R R' ly lo ly' lo' r v : generational s R ly lo →
  (∀ k, k ∈ R' → k ≠ r → k ∈ R) → (∀ k, k ≠ r → cells s' !! k = cells s !! k) →
  (∀ k, k ≠ r → k ∈ keys ly → k ∈ keys ly') → (∀ k, k ≠ r → k ∈ keys lo → k ∈ keys lo') →
  (r ∈ R' → cells s' !! r = Some v ∧ covered v (r ∈ keys ly') (r ∈ keys lo')) → generational s' R' ly' lo'.
Proof.
  intros Hg HR Hc Hy Ho Hr k Hk. destruct (decide (k = r)) as [->|Hne]; [exists v; by apply Hr|].
  destruct (Hg k (HR k Hk Hne)) as (w & Ew & Hw). exists w. rewrite Hc by done. split; [done|].
  eapply covered_weaken; [exact Hw|..]; eauto.
Qed.

(** One operation on the young, or the old, list. *)
Lemma young_op_spec s lg ly lo op fuel : lists s lg ly lo → (length ly < fuel)%nat →
  runs (run_op fuel hy op) (λ _ s', ∃ ly', lists s' lg ly' lo ∧ keys ly' = apply_op (keys ly) op ∧ cells s' = cells s) s.
Proof.
  intros Hl Hf. eapply runs_conseq; [apply run_op_spec; [apply Hl|done]|]. cbn. intros _ s' (l' & Hr & Hc & Hk & _).
  exists l'. split_and!; [by eapply lists_young|done|apply Hc].
Qed.

Lemma old_op_spec s lg ly lo op fuel : lists s lg ly lo → (length lo < fuel)%nat →
  runs (run_op fuel ho op) (λ _ s', ∃ lo', lists s' lg ly lo' ∧ keys lo' = apply_op (keys lo) op ∧ cells s' = cells s) s.
Proof.
  intros Hl Hf. eapply runs_conseq; [apply run_op_spec; [apply Hl|done]|]. cbn. intros _ s' (l' & Hr & Hc & Hk & _).
  exists l'. split_and!; [by eapply lists_old|done|apply Hc].
Qed.

(** A root is entered in the list its value calls for. *)
Lemma register_spec s lg ly lo r v fuel : lists s lg ly lo → (length ly < fuel)%nat → (length lo < fuel)%nat → Is_block v = true →
  runs (if Is_young v then insert_root fuel hy r else if Is_in_heap v then insert_root fuel ho r else mreturn tt)
    (λ _ s', ∃ ly' lo', lists s' lg ly' lo' ∧ cells s' = cells s ∧ keys ly ⊆ keys ly' ∧ keys lo ⊆ keys lo' ∧
       covered v (r ∈ keys ly') (r ∈ keys lo')) s.
Proof.
  intros Hl Hy Ho Hb. destruct (Is_young v) eqn:Ey; [|destruct (Is_in_heap v) eqn:Eh].
  - eapply runs_conseq; [apply (young_op_spec s lg ly lo (Insert r)); done|]. cbn. intros _ s' (ly' & H1 & H2 & H3).
    exists ly', lo. rewrite H2. split_and!; [done|done|set_solver|done|]. intros _. split; [set_solver|]. left. set_solver.
  - eapply runs_conseq; [apply (old_op_spec s lg ly lo (Insert r)); done|]. cbn. intros _ s' (lo' & H1 & H2 & H3).
    exists ly, lo'. rewrite H2. split_and!; [done|done|done|set_solver|]. intros _. split; [congruence|]. right. set_solver.
  - exists ly, lo. split_and!; [done|done|done|done|]. intros _. split; congruence.
Qed.

(** and withdrawn from it; other roots stay. *)
Lemma withdraw_spec s lg ly lo r v fuel : lists s lg ly lo → (length ly < fuel)%nat → (length lo < fuel)%nat →
  runs (if Is_young v then caml_delete_global_root_r fuel hy r else if Is_in_heap v then caml_delete_global_root_r fuel ho r else mreturn tt)
    (λ _ s', ∃ ly' lo', lists s' lg ly' lo' ∧ cells s' = cells s ∧
       (∀ k, k ≠ r → k ∈ keys ly → k ∈ keys ly') ∧ (∀ k, k ≠ r → k ∈ keys lo → k ∈ keys lo')) s.
Proof.
  intros Hl Hy Ho. destruct (Is_young v); [|destruct (Is_in_heap v)].
  - eapply runs_conseq; [apply (young_op_spec s lg ly lo (Delete r)); done|]. cbn. intros _ s' (ly' & H1 & H2 & H3).
    exists ly', lo. rewrite H2. split_and!; [done|done|set_solver|done].
  - eapply runs_conseq; [apply (old_op_spec s lg ly lo (Delete r)); done|]. cbn. intros _ s' (lo' & H1 & H2 & H3).
    exists ly, lo'. rewrite H2. split_and!; [done|done|done|set_solver].
  - by exists ly, lo.
Qed.

Lemma lists_cells s lg ly lo m : lists s lg ly lo → lists (set_cells m s) lg ly lo.
Proof. intros [G1 G2 G3 A1 A2 A3]. split; try done; [destruct G1|destruct G2|destruct G3]; by split. Qed.

Lemma get_cell_eq r s v : cells s !! r = Some v → get_cell r s = inr (s, v).
Proof. unfold get_cell. by intros ->. Qed.

(** The lists are brought in line with a new value [w] of a root. *)
Lemma modify_lists_spec s lg ly lo r v w fuel : lists s lg ly lo → (length ly < fuel)%nat → (length lo < fuel)%nat →
  covered v (r ∈ keys ly) (r ∈ keys lo) → (Is_block v = true → Is_young v = true ∨ Is_in_heap v = true) →
  runs (if Is_block w && Is_young w && (Is_block v && Is_in_heap v) then
          caml_delete_global_root_r fuel ho r ;;; insert_root fuel hy r
        else if negb (Is_block v) && Is_block w then
          if Is_young w then insert_root fuel hy r else if Is_in_heap w then insert_root fuel ho r else mreturn tt
        else if Is_block v && negb (Is_block w) then
          if Is_young v then caml_delete_global_root_r fuel hy r else if Is_in_heap v then caml_delete_global_root_r fuel ho r else mreturn tt
        else mreturn tt)
    (λ _ s', ∃ ly' lo', lists s' lg ly' lo' ∧ cells s' = cells s ∧
       (∀ k, k ≠ r → k ∈ keys ly → k ∈ keys ly') ∧ (∀ k, k ≠ r → k ∈ keys lo → k ∈ keys lo') ∧
       covered w (r ∈ keys ly') (r ∈ keys lo')) s.
Proof.
  intros Hl Hy Ho Hv Ht. destruct (Is_block w && Is_young w && (Is_block v && Is_in_heap v)) eqn:E1;
    [|destruct (negb (Is_block v) && Is_block w) eqn:E2; [|destruct (Is_block v && negb (Is_block w)) eqn:E3]].
  - apply runs_bind. eapply runs_conseq; [apply (old_op_spec s lg ly lo (Delete r)); done|]. cbn. intros _ s1 (lo' & H1 & H2 & H3).
    eapply runs_conseq; [apply (young_op_spec s1 lg ly lo' (Insert r)); done|]. cbn. intros _ s2 (ly' & H4 & H5 & H6).
    exists ly', lo'. rewrite H5, H2. split_and!; [done|congruence|set_solver|set_solver|]. intros _. split; [set_solver|left; set_solver].
  - apply andb_true_iff in E2 as [_ E2]. eapply runs_conseq; [by apply register_spec|]. cbn.
    intros _ s' (ly' & lo' & H1 & H2 & H3 & H4 & H5). exists ly', lo'. split_and!; [done|done|set_solver|set_solver|done].
  - apply andb_true_iff in E3 as [_ E3%negb_true_iff]. eapply runs_conseq; [by apply withdraw_spec|]. cbn.
    intros _ s' (ly' & lo' & H1 & H2 & H3 & H4). exists ly', lo'. split_and!; [done..|]. intros ?. congruence.
  - exists ly, lo. split_and!; [done..|]. intros Hw. rewrite Hw in *. destruct (Is_block v) eqn:Ev; [|done].
    destruct (Hv Ev) as [V1 V2]. cbn in E1. split; [|intros _].
    + intros Hyw. rewrite Hyw in E1. cbn in E1. apply V1. destruct (Ht eq_refl); congruence.
    + destruct (Ht eq_refl); [left; auto|auto].
Qed.

(** C16: registering, removing and changing generational roots keeps every
    registered root where the collector looks for it: a root that holds a
    block of the minor heap is in the young list, one that holds a block of
    the major heap in the young or the old list.  A root may be changed only
    while it is registered, and only if the value it held is not a block
    outside both heaps ([allowed]); [static_root_missed] is about the changes
    excluded here, for which the property does not hold. *)
Theorem generational_roots_covered s lg ly lo R op fuel :
  lists s lg ly lo → (length ly < fuel)%nat → (length lo < fuel)%nat → generational s R ly lo → allowed s R op →
  runs (run_root_op fuel op) (λ _ s', ∃ ly' lo', lists s' lg ly' lo' ∧ generational s' (after_op R op) ly' lo') s.
Proof.
  intros Hl Hy Ho Hg Ha. destruct op as [r|r|r w]; cbn [run_root_op after_op allowed] in *.
  - destruct Ha as [v Ev]. apply runs_bind. eapply runs_eq; [by apply get_cell_eq|]. destruct (Is_block v) eqn:Eb.
    + eapply runs_conseq; [by apply register_spec|]. cbn. intros _ s' (ly' & lo' & H1 & H2 & H3 & H4 & H5). exists ly', lo'. split; [done|].
      eapply (generational_step s s' R _ ly lo); [done|set_solver|by rewrite H2|set_solver|set_solver|]. rewrite H2. eauto.
    + exists ly, lo. split; [done|]. eapply (generational_step s s R _ ly lo ly lo r v); [done|set_solver|done|done|done|].
      intros _. split; [done|]. intros ?. congruence.
  - destruct Ha as [v Ev]. apply runs_bind. eapply runs_eq; [by apply get_cell_eq|]. destruct (Is_block v) eqn:Eb.
    + eapply runs_conseq; [by apply withdraw_spec|]. cbn. intros _ s' (ly' & lo' & H1 & H2 & H3 & H4). exists ly', lo'. split; [done|].
      eapply (generational_step s s' R _ ly lo ly' lo' r v); [done|set_solver|by rewrite H2|done|done|]. set_solver.
    + exists ly, lo. split; [done|]. eapply (generational_step s s R _ ly lo ly lo r v); [done|set_solver|done|done|done|]. set_solver.
  - destruct Ha as [HR Ht]. destruct (Hg r HR) as (v & Ev & Hv).
    apply runs_bind. eapply runs_eq; [by apply get_cell_eq|]. apply runs_bind.
    eapply runs_conseq; [by apply modify_lists_spec; eauto|]. cbn. intros _ s' (ly' & lo' & H1 & H2 & H3 & H4 & H5).
    exists ly', lo'. split; [by apply (lists_cells s')|].
    eapply (generational_step s _ R _ ly lo ly' lo' r w); [done|done| |done|done|].
    + intros k Hk. cbn. by rewrite lookup_insert_ne, H2 by done.
    + intros _. cbn. by rewrite lookup_insert_eq.
Qed.

(** C36: a generational root that holds a block outside both heaps (a
    statically allocated one) is in no list, and changing it to hold a block
    of the minor heap does not enter it in one: the lists are left as they
    are, so that the next minor collection does not see the root. *)
Theorem static_root_missed s r old new fuel :
  cells s !! r = Some old → Is_block old = true → Is_young old = false → Is_in_heap old = false →
  Is_block new = true → Is_young new = true →
  run_root_op fuel (Register r) s = inr (s, tt) ∧
  ∃ s', run_root_op fuel (Change r new) s = inr (s', tt) ∧
    nodes s' = nodes s ∧ level s' = level s ∧ cells s' !! r = Some new.
Proof.
  intros Ec Eb Ey Eh Fb Fy. cbn [run_root_op].
  unfold caml_register_generational_global_root_r, caml_modify_generational_global_root_r.
  rewrite !(mbnd_eq _ _ _ _ _ (get_cell_eq _ _ _ Ec)), Eb, Ey, Eh, Fb, Fy. cbn [andb negb]. split; [done|].
  eexists. split; [reflexivity|]. cbn. split_and!; [done|done|]. apply lookup_insert_eq.
Qed.

End Roots.

(** ** Witnesses *)

(** Three empty lists, and four cells: an integer, a block of the minor heap
    (500 to 600), one of the major heap (600 to 700) and a static block. *)
Definition ex_head : global_root := Node 0 (replicate NUM_LEVELS 0).
Definition ex_roots : groots :=
  Groots (list_to_map [(100, ex_head); (200, ex_head); (300, ex_head)])
    (list_to_map [(100, 0); (200, 0); (300, 0)]) 0 (list_to_map [(8, 1); (16, 512); (24, 640); (32, 800)]).
Definition ex_young (v : Z) : bool := (500 <=? v) && (v <? 600).
Definition ex_heap (v : Z) : bool := (600 <=? v) && (v <? 700).
Definition ex_stat_alloc (s : groots) : option Z := Some (fresh ({[0]} ∪ dom (nodes s))).

Lemma ex_alloc_fresh s e : ex_stat_alloc s = Some e → e ≠ 0 ∧ nodes s !! e = None.
Proof.
  intros [= <-]. pose proof (is_fresh ({[0]} ∪ dom (nodes s))) as Hf. split; [set_solver|].
  apply not_elem_of_dom. set_solver.
Qed.

Lemma ex_rep h : h ∈ [100; 200; 300] → rep ex_roots h [].
Proof.
  intros Hh. split; [exists 0|exists 0%nat|constructor|apply NoDup_singleton|done].
  - rewrite !elem_of_cons, elem_of_nil in Hh. destruct_or!; subst; cbn [chain addr]; (split; [reflexivity|done]).
  - rewrite !elem_of_cons, elem_of_nil in Hh. destruct_or!; subst; (split_and!; [reflexivity|unfold NUM_LEVELS; lia|done]).
Qed.

Lemma ex_lists : lists 100 200 300 ex_roots [] [] [].
Proof.
  split; try (apply ex_rep; set_solver); intros a; cbn; rewrite !list_elem_of_singleton; lia.
Qed.

Lemma root_list_refines_set_witness :
  runs ex_stat_alloc (run_ops ex_stat_alloc 10 100 [Insert 32; Insert 8; Insert 24; Delete 8; Insert 24])
    (λ _ s', ∃ rs, StronglySorted Z.lt rs ∧ (list_to_set rs : gset Z) = {[24; 32]} ∧
       ∀ f, scanning f → caml_iterate_global_roots_r 10 f 100 s' = visit f rs s') ex_roots.
Proof.
  eapply runs_conseq.
  - apply (root_list_refines_set ex_stat_alloc ex_alloc_fresh ex_roots 100 [] [Insert 32; Insert 8; Insert 24; Delete 8; Insert 24] 10);
      [apply ex_rep; set_solver|cbn; lia].
  - intros _ s' (rs & H1 & H2 & H3). exists rs. split; [exact H1|]. split; [|exact H3]. rewrite H2. vm_compute. reflexivity.
Defined.

Lemma generational_roots_covered_witness :
  runs ex_stat_alloc (run_root_op ex_stat_alloc 200 300 ex_young ex_heap 10 (Register 16))
    (λ _ s', ∃ ly' lo', lists 100 200 300 s' [] ly' lo' ∧ generational ex_young ex_heap s' {[16]} ly' lo') ex_roots.
Proof.
  eapply runs_conseq.
  - apply (generational_roots_covered ex_stat_alloc ex_alloc_fresh 100 200 300 ex_young ex_heap ex_roots [] [] [] ∅ (Register 16) 10 ex_lists);
      [cbn; lia|cbn; lia|intros r; set_solver|exists 512; reflexivity].
  - intros _ s' (ly' & lo' & H1 & H2). exists ly', lo'. split; [exact H1|]. cbn in H2. by rewrite union_empty_r_L in H2.
Defined.

(** The address of a static block is replaced by that of a young one. *)
Lemma static_root_missed_witness :
  ∃ s', run_root_op ex_stat_alloc 200 300 ex_young ex_heap 10 (Change 32 512) ex_roots = inr (s', tt) ∧
    nodes s' = nodes ex_roots ∧ cells s' !! 32 = Some 512.
Proof.
  destruct (static_root_missed ex_stat_alloc 200 300 ex_young ex_heap ex_roots 32 800 512 10) as [_ (s' & H1 & H2 & _ & H3)];
    [reflexivity..|]. exists s'. exact (conj H1 (conj H2 H3)).
Defined.

Lemma scan_young_roots_witness :
  runs ex_stat_alloc (caml_scan_global_young_roots_r ex_stat_alloc 100 200 300 10 (mreturn tt) (λ _ r, set_cell r 1))
    (λ _ s', ∃ lo', lists 100 200 300 s' [] [] lo' ∧ keys lo' = ∅ ∧ cells s' = cells ex_roots) ex_roots.
Proof.
  eapply runs_conseq.
  - apply (scan_young_roots_correct ex_stat_alloc ex_alloc_fresh 100 200 300 ex_roots ex_roots ex_roots [] [] [] (λ _ r, set_cell r 1) (mreturn tt) 10 ex_lists);
      [cbn; lia|by intros v r s s' [= <-]|reflexivity|done|reflexivity].
  - intros _ s' (lo' & H1 & H2 & H3). exists lo'. split_and!; [exact H1| |exact H3]. rewrite H2. reflexivity.
Defined.

End Globroots.
