(* ===== verification/MinorGc.v ===== *)
(** The minor collector (byterun/minor_gc.c), with the scanning of the roots
    of the minor heap (roots.c, finalise.c).

    A collection copies the live blocks of the minor heap to the major heap.
    The state is the part of the context that the collector uses; [words] is
    the whole memory, in which the stack, the local roots, the tables of
    references and of finalised values, and the blocks are.  The major heap,
    the allocator of the C library and the lists of global roots are reached
    through the class [MajorHeap] over their state [X]. *)

From S2P Require Import Prelude Mlvalues.

Module MinorGc.

(** [struct caml_minor_ref_table] (context.h) *)
Record caml_minor_ref_table : Type := RefTable {
  base : Z; end_ : Z; threshold : Z; ptr : Z; limit : Z; size : Z; reserve : Z
}.

Definition set_base (x : Z) (t : caml_minor_ref_table) := RefTable x (end_ t) (threshold t) (ptr t) (limit t) (size t) (reserve t).
Definition set_end (x : Z) (t : caml_minor_ref_table) := RefTable (base t) x (threshold t) (ptr t) (limit t) (size t) (reserve t).
Definition set_threshold (x : Z) (t : caml_minor_ref_table) := RefTable (base t) (end_ t) x (ptr t) (limit t) (size t) (reserve t).
Definition set_ptr (x : Z) (t : caml_minor_ref_table) := RefTable (base t) (end_ t) (threshold t) x (limit t) (size t) (reserve t).
Definition set_limit (x : Z) (t : caml_minor_ref_table) := RefTable (base t) (end_ t) (threshold t) (ptr t) x (size t) (reserve t).
Definition set_size (x : Z) (t : caml_minor_ref_table) := RefTable (base t) (end_ t) (threshold t) (ptr t) (limit t) x (reserve t).
Definition set_reserve (x : Z) (t : caml_minor_ref_table) := RefTable (base t) (end_ t) (threshold t) (ptr t) (limit t) (size t) x.

(** The bounds of the minor heap. *)
Record young_area : Type := Young {
  caml_young_base : Z; caml_young_start : Z; caml_young_end : Z; caml_young_ptr : Z; caml_minor_heap_size : Z
}.

(** Where the roots are. *)
Record root_area : Type := Roots {
  caml_extern_sp : Z; caml_stack_high : Z; caml_local_roots : Z;
  final_table : Z; final_old : Z; final_young : Z
}.

(** Counters and requests. *)
Record gc_stats : Type := Stats {
  caml_young_limit : Z; caml_force_major_slice : Z; caml_something_to_do : Z; caml_allocated_words : Z;
  caml_stat_minor_words : Z; caml_stat_promoted_words : Z; caml_stat_minor_collections : Z
}.

Inductive which : Type := Strong | Weak.

Section State.
Context {X : Type}.

Record gc : Type := Gc {
  words : gmap Z Z;
  young : young_area;
  caml_ref_table : caml_minor_ref_table;
  caml_weak_ref_table : caml_minor_ref_table;
  caml_in_minor_collection : Z;
  oldify_todo_list : Z;
  roots : root_area;
  stats : gc_stats;
  rest : X
}.

Definition set_words (x : gmap Z Z) (s : gc) : gc := Gc x (young s) (caml_ref_table s) (caml_weak_ref_table s) (caml_in_minor_collection s) (oldify_todo_list s) (roots s) (stats s) (rest s).
Definition set_young (x : young_area) (s : gc) : gc := Gc (words s) x (caml_ref_table s) (caml_weak_ref_table s) (caml_in_minor_collection s) (oldify_todo_list s) (roots s) (stats s) (rest s).
Definition set_table (w : which) (x : caml_minor_ref_table) (s : gc) : gc :=
  match w with
  | Strong => Gc (words s) (young s) x (caml_weak_ref_table s) (caml_in_minor_collection s) (oldify_todo_list s) (roots s) (stats s) (rest s)
  | Weak => Gc (words s) (young s) (caml_ref_table s) x (caml_in_minor_collection s) (oldify_todo_list s) (roots s) (stats s) (rest s)
  end.
Definition set_in_minor (x : Z) (s : gc) : gc := Gc (words s) (young s) (caml_ref_table s) (caml_weak_ref_table s) x (oldify_todo_list s) (roots s) (stats s) (rest s).
Definition set_todo (x : Z) (s : gc) : gc := Gc (words s) (young s) (caml_ref_table s) (caml_weak_ref_table s) (caml_in_minor_collection s) x (roots s) (stats s) (rest s).
Definition set_roots (x : root_area) (s : gc) : gc := Gc (words s) (young s) (caml_ref_table s) (caml_weak_ref_table s) (caml_in_minor_collection s) (oldify_todo_list s) x (stats s) (rest s).
Definition set_stats (x : gc_stats) (s : gc) : gc := Gc (words s) (young s) (caml_ref_table s) (caml_weak_ref_table s) (caml_in_minor_collection s) (oldify_todo_list s) (roots s) x (rest s).
Definition set_rest (x : X) (s : gc) : gc := Gc (words s) (young s) (caml_ref_table s) (caml_weak_ref_table s) (caml_in_minor_collection s) (oldify_todo_list s) (roots s) (stats s) x.
Definition table (w : which) (s : gc) : caml_minor_ref_table := match w with Strong => caml_ref_table s | Weak => caml_weak_ref_table s end.
End State.
Arguments gc : clear implicits.

Inductive gc_stop : Type :=
  | GFault (f : fault)
  | Fatal_out_of_memory
  | Raise_out_of_memory
  | Ref_table_overflow
  | Raise_other.

Abbreviation GM X := (M (gc X) gc_stop).

Section Operations.
Context {X : Type}.

Definition ld (a : Z) : GM X Z := λ s, match words s !! a with Some v => inr (s, v) | None => inl (GFault (BadLoad a)) end.
Definition st (a v : Z) : GM X unit :=
  λ s, match words s !! a with Some _ => inr (set_words (<[a := v]> (words s)) s, tt) | None => inl (GFault (BadStore a)) end.

Definition Is_young (s : gc X) (v : Z) : bool := (v <? caml_young_end (young s)) && (caml_young_start (young s) <? v).

(** What the collector calls. *)
Class MajorHeap : Type := {
  (** memory.c, major_gc.c, the page table *)
  caml_alloc_shr_r : Z → Z → GM X Z;
  Is_in_value_area : gc X → Z → bool;
  caml_major_collection_slice_r : Z → GM X unit;
  caml_page_table_add_r : Z → Z → Z → GM X Z;
  caml_page_table_remove_r : Z → Z → Z → GM X Z;
  (** the C library: [NULL] is 0 *)
  caml_aligned_malloc : Z → GM X (Z * Z);
  free : Z → GM X unit;
  caml_stat_alloc : Z → GM X Z;
  realloc : Z → Z → GM X Z;
  (** globroots.c, the hook of the thread library, callbacks *)
  caml_scan_global_young_roots_r : (Z → Z → GM X unit) → GM X unit;
  caml_scan_roots_hook : (Z → Z → GM X unit) → GM X unit;
  caml_final_do_calls_r : GM X unit;
  (** the value of an empty slot of a weak array (weak.c) *)
  caml_weak_none : Z
}.
Context `{MajorHeap}.

(** ** Tables of references *)

Definition modify_table (w : which) (f : caml_minor_ref_table → caml_minor_ref_table) : GM X unit := mmodify (λ s, set_table w (f (table w s)) s).

Definition caml_stat_free (p : Z) : GM X unit := free p.

Definition caml_alloc_table_r (w : which) (sz rsv : Z) : GM X unit :=
  modify_table w (set_size sz) ;;;
  modify_table w (set_reserve rsv) ;;;
  let* s := mget in
  let* new_table := caml_stat_alloc ((size (table w s) + reserve (table w s)) * 8) in
  let* s := mget in
  (if base (table w s) =? 0 then mreturn tt else caml_stat_free (base (table w s))) ;;;
  modify_table w (set_base new_table) ;;;
  modify_table w (λ t, set_ptr (base t) t) ;;;
  modify_table w (λ t, set_threshold (base t + 8 * size t) t) ;;;
  modify_table w (λ t, set_limit (threshold t) t) ;;;
  modify_table w (λ t, set_end (base t + 8 * (size t + reserve t)) t).

Definition reset_table_r (w : which) : GM X unit :=
  modify_table w (set_size 0) ;;;
  modify_table w (set_reserve 0) ;;;
  let* s := mget in
  (if base (table w s) =? 0 then mreturn tt else caml_stat_free (base (table w s))) ;;;
  modify_table w (λ t, RefTable 0 0 0 0 0 (size t) (reserve t)).

Definition clear_table (w : which) : GM X unit :=
  modify_table w (λ t, set_ptr (base t) t) ;;;
  modify_table w (λ t, set_limit (threshold t) t).

(** signals.c *)
Definition caml_urge_major_slice_r : GM X unit :=
  mmodify (λ s, let t := stats s in
    set_stats (Stats (caml_young_limit t) 1 1 (caml_allocated_words t) (caml_stat_minor_words t) (caml_stat_promoted_words t) (caml_stat_minor_collections t)) s).

Definition caml_realloc_ref_table_r (w : which) : GM X unit :=
  let* s := mget in
  let tbl := table w s in
  if base tbl =? 0 then caml_alloc_table_r w (caml_minor_heap_size (young s) / 8 / 8) 256
  else if limit tbl =? threshold tbl then
    modify_table w (λ t, set_limit (end_ t) t) ;;;
    caml_urge_major_slice_r
  else
    let cur_ptr := (ptr tbl - base tbl) / 8 in
    modify_table w (λ t, set_size (u64 (size t * 2)) t) ;;;
    let* s := mget in
    let sz := u64 ((size (table w s) + reserve (table w s)) * 8) in
    let* b := realloc (base (table w s)) sz in
    modify_table w (set_base b) ;;;
    if b =? 0 then mfail Ref_table_overflow else
    modify_table w (λ t, set_end (base t + 8 * (size t + reserve t)) t) ;;;
    modify_table w (λ t, set_threshold (base t + 8 * size t) t) ;;;
    modify_table w (λ t, set_ptr (base t + 8 * cur_ptr) t) ;;;
    modify_table w (λ t, set_limit (end_ t) t).

(** ** Copying *)

Definition Infix_offset_hd (hd : Z) : Z := Bosize_hd hd.

(** [for (i = 0; i < sz; i++) Field (result, i) = Field (v, i)] *)
Fixpoint copy_fields (n : nat) (i : Z) (result v : Z) : GM X unit :=
  match n with
  | O => mreturn tt
  | S n => let* x := ld (Field v i) in st (Field result i) x ;;; copy_fields n (i + 1) result v
  end.

(** In the case of a forwarding block: is the pointer [f] kept?  [vv] and
    [ft] of the source. *)
Definition forward_kept (f : Z) : GM X bool :=
  let* s := mget in
  let* (vv, ft) :=
    (if Is_block f then
       if Is_young s f then
         let* hd := ld (Hd_val f) in
         let* f' := (if hd =? 0 then ld (Field f 0) else mreturn f) in
         let* hd' := ld (Hd_val f') in
         mreturn (true, Tag_hd hd')
       else
         let vv := Is_in_value_area s f in
         if vv then let* hd := ld (Hd_val f) in mreturn (vv, Tag_hd hd) else mreturn (vv, 0)
     else mreturn (true, 0)) in
  mreturn (negb vv || (ft =? Forward_tag) || (ft =? Lazy_tag) || (ft =? Double_tag)).

Fixpoint caml_oldify_one_r (fuel : nat) (v p : Z) : GM X unit :=
  match fuel with
  | O => mfail (GFault OutOfFuel)
  | S fuel =>
      let* s := mget in
      if Is_block v && Is_young s v then
        let* hd := ld (Hd_val v) in
        if hd =? 0 then let* f := ld (Field v 0) in st p f
        else
          let tag := Tag_hd hd in
          if tag <? Infix_tag then
            let sz := Wosize_hd hd in
            let* result := caml_alloc_shr_r sz tag in
            st p result ;;;
            let* field0 := ld (Field v 0) in
            st (Hd_val v) 0 ;;;
            st (Field v 0) result ;;;
            if 1 <? sz then
              st (Field result 0) field0 ;;;
              let* s := mget in
              st (Field result 1) (oldify_todo_list s) ;;;
              mmodify (set_todo v)
            else caml_oldify_one_r fuel field0 (Field result 0)
          else if No_scan_tag <=? tag then
            let sz := Wosize_hd hd in
            let* result := caml_alloc_shr_r sz tag in
            copy_fields (Z.to_nat sz) 0 result v ;;;
            st (Hd_val v) 0 ;;;
            st (Field v 0) result ;;;
            st p result
          else if tag =? Infix_tag then
            let offset := Infix_offset_hd hd in
            caml_oldify_one_r fuel (v - offset) p ;;;
            let* x := ld p in st p (u64 (x + offset))
          else
            let* f := ld (Field v 0) in
            let* kept := forward_kept f in
            if kept then
              let* result := caml_alloc_shr_r 1 Forward_tag in
              st p result ;;;
              st (Hd_val v) 0 ;;;
              st (Field v 0) result ;;;
              caml_oldify_one_r fuel f (Field result 0)
            else caml_oldify_one_r fuel f p
      else st p v
  end.

(** [for (i = 1; i < Wosize_val (new_v); i++)] of the following function. *)
Fixpoint mopup_fields (fuel : nat) (one : nat) (i : Z) (v new_v : Z) : GM X unit :=
  match fuel with
  | O => mfail (GFault OutOfFuel)
  | S fuel =>
      let* hd := ld (Hd_val new_v) in
      if i <? Wosize_hd hd then
        let* f := ld (Field v i) in
        let* s := mget in
        (if Is_block f && Is_young s f then caml_oldify_one_r one f (Field new_v i) else st (Field new_v i) f) ;;;
        mopup_fields fuel one (i + 1) v new_v
      else mreturn tt
  end.

(** [n] bounds the number of blocks, [m] the number of fields of a block. *)
Fixpoint caml_oldify_mopup_r (n m one : nat) : GM X unit :=
  match n with
  | O => mfail (GFault OutOfFuel)
  | S n =>
      let* s := mget in
      if oldify_todo_list s =? 0 then mreturn tt else
      let v := oldify_todo_list s in
      let* new_v := ld (Field v 0) in
      let* next := ld (Field new_v 1) in
      mmodify (set_todo next) ;;;
      let* f := ld (Field new_v 0) in
      let* s := mget in
      (if Is_block f && Is_young s f then caml_oldify_one_r one f (Field new_v 0) else mreturn tt) ;;;
      mopup_fields m one 1 v new_v ;;;
      caml_oldify_mopup_r n m one
  end.

(** ** Roots *)

Section Scan.
Context (f : Z → Z → GM X unit).

Definition scan_cell (a : Z) : GM X unit := let* v := ld a in f v a.

(** [for (sp = low; sp < high; sp++) f (ctx, *sp, sp)] *)
Fixpoint scan_stack (fuel : nat) (sp high : Z) : GM X unit :=
  match fuel with
  | O => mfail (GFault OutOfFuel)
  | S fuel => if sp <? high then scan_cell sp ;;; scan_stack fuel (sp + 8) high else mreturn tt
  end.

(** Fields of [struct caml__roots_block] (memory.h). *)
Definition lr_next (lr : Z) : Z := lr.
Definition lr_ntables (lr : Z) : Z := lr + 8.
Definition lr_nitems (lr : Z) : Z := lr + 16.
Definition lr_tables (lr i : Z) : Z := lr + 24 + 8 * i.

Fixpoint scan_items (fuel : nat) (lr i j : Z) : GM X unit :=
  match fuel with
  | O => mfail (GFault OutOfFuel)
  | S fuel =>
      let* nitems := ld (lr_nitems lr) in
      if s64 j <? s64 nitems then
        let* t := ld (lr_tables lr i) in
        scan_cell (t + 8 * j) ;;; scan_items fuel lr i (j + 1)
      else mreturn tt
  end.

Fixpoint scan_tables (fuel : nat) (n : nat) (lr i : Z) : GM X unit :=
  match n with
  | O => mfail (GFault OutOfFuel)
  | S n =>
      let* ntables := ld (lr_ntables lr) in
      if s64 i <? s64 ntables then scan_items fuel lr i 0 ;;; scan_tables fuel n lr (i + 1) else mreturn tt
  end.

Fixpoint scan_local_roots (fuel : nat) (n : nat) (lr : Z) : GM X unit :=
  match n with
  | O => mfail (GFault OutOfFuel)
  | S n =>
      if lr =? 0 then mreturn tt else
      scan_tables fuel fuel lr 0 ;;;
      let* next := ld (lr_next lr) in
      scan_local_roots fuel n next
  end.

(** Fields of [struct final] (context.h): [fun], [val], [offset]. *)
Definition final_fun (t i : Z) : Z := t + 24 * i.
Definition final_val (t i : Z) : Z := t + 24 * i + 8.

Fixpoint final_scan (n : nat) (t i : Z) : GM X unit :=
  match n with O => mreturn tt | S n => scan_cell (final_fun t i) ;;; scan_cell (final_val t i) ;;; final_scan n t (i + 1) end.

(** finalise.c *)
Definition caml_final_do_young_roots_r : GM X unit :=
  let* s := mget in
  let r := roots s in
  final_scan (Z.to_nat (final_young r - final_old r)) (final_table r) (final_old r).
End Scan.

Definition caml_final_empty_young_r : GM X unit :=
  mmodify (λ s, let r := roots s in
    set_roots (Roots (caml_extern_sp r) (caml_stack_high r) (caml_local_roots r) (final_table r) (final_young r) (final_young r)) s).

(** roots.c *)
Definition caml_oldify_local_roots_r (fuel one : nat) : GM X unit :=
  let* s := mget in
  scan_stack (caml_oldify_one_r one) fuel (caml_extern_sp (roots s)) (caml_stack_high (roots s)) ;;;
  let* s := mget in
  scan_local_roots (caml_oldify_one_r one) fuel fuel (caml_local_roots (roots s)) ;;;
  caml_scan_global_young_roots_r (caml_oldify_one_r one) ;;;
  caml_final_do_young_roots_r (caml_oldify_one_r one) ;;;
  caml_scan_roots_hook (caml_oldify_one_r one).

(** ** A minor collection *)

(** [for (r = caml_ref_table.base; r < caml_ref_table.ptr; r++) caml_oldify_one_r (ctx, **r, *r)] *)
Fixpoint oldify_refs (fuel one : nat) (r : Z) : GM X unit :=
  match fuel with
  | O => mfail (GFault OutOfFuel)
  | S fuel =>
      let* s := mget in
      if r <? ptr (caml_ref_table s) then
        let* a := ld r in
        let* v := ld a in
        caml_oldify_one_r one v a ;;;
        oldify_refs fuel one (r + 8)
      else mreturn tt
  end.

(** The body of the loop over the weak references. *)
Definition weak_ref (a : Z) : GM X unit :=
  let* v := ld a in
  let* s := mget in
  if Is_block v && Is_young s v then
    let* hd := ld (Hd_val v) in
    if hd =? 0 then let* f := ld (Field v 0) in st a f else st a caml_weak_none
  else mreturn tt.

Fixpoint weak_refs (fuel : nat) (r : Z) : GM X unit :=
  match fuel with
  | O => mfail (GFault OutOfFuel)
  | S fuel =>
      let* s := mget in
      if r <? ptr (caml_weak_ref_table s) then let* a := ld r in weak_ref a ;;; weak_refs fuel (r + 8) else mreturn tt
  end.

Definition modify_young_ptr (f : young_area → Z) : GM X unit :=
  mmodify (λ s, let y := young s in set_young (Young (caml_young_base y) (caml_young_start y) (caml_young_end y) (f y) (caml_minor_heap_size y)) s).

Definition caml_empty_minor_heap_r (fuel one : nat) : GM X unit :=
  let* s := mget in
  (if caml_young_ptr (young s) =? caml_young_end (young s) then mreturn tt else
   mmodify (set_in_minor 1) ;;;
   caml_oldify_local_roots_r fuel one ;;;
   let* s := mget in
   oldify_refs fuel one (base (caml_ref_table s)) ;;;
   caml_oldify_mopup_r fuel fuel one ;;;
   let* s := mget in
   weak_refs fuel (base (caml_weak_ref_table s)) ;;;
   modify_young_ptr (λ y, if caml_young_ptr y <? caml_young_start y then caml_young_start y else caml_young_ptr y) ;;;
   mmodify (λ s, let t := stats s in
     set_stats (Stats (caml_young_limit t) (caml_force_major_slice t) (caml_something_to_do t) (caml_allocated_words t)
       (caml_stat_minor_words t + (caml_young_end (young s) - caml_young_ptr (young s)) / 8) (caml_stat_promoted_words t) (caml_stat_minor_collections t)) s) ;;;
   modify_young_ptr caml_young_end ;;;
   mmodify (λ s, let t := stats s in
     set_stats (Stats (caml_young_start (young s)) (caml_force_major_slice t) (caml_something_to_do t) (caml_allocated_words t)
       (caml_stat_minor_words t) (caml_stat_promoted_words t) (caml_stat_minor_collections t)) s) ;;;
   clear_table Strong ;;;
   clear_table Weak ;;;
   mmodify (set_in_minor 0)) ;;;
  caml_final_empty_young_r.

Definition caml_minor_collection_r (fuel one : nat) : GM X unit :=
  let* s := mget in
  let prev_alloc_words := caml_allocated_words (stats s) in
  caml_empty_minor_heap_r fuel one ;;;
  mmodify (λ s, let t := stats s in
    set_stats (Stats (caml_young_limit t) (caml_force_major_slice t) (caml_something_to_do t) (caml_allocated_words t) (caml_stat_minor_words t)
      (caml_stat_promoted_words t + (caml_allocated_words t - prev_alloc_words)) (caml_stat_minor_collections t + 1)) s) ;;;
  caml_major_collection_slice_r 0 ;;;
  mmodify (λ s, let t := stats s in
    set_stats (Stats (caml_young_limit t) 0 (caml_something_to_do t) (caml_allocated_words t) (caml_stat_minor_words t)
      (caml_stat_promoted_words t) (caml_stat_minor_collections t)) s) ;;;
  caml_final_do_calls_r ;;;
  caml_empty_minor_heap_r fuel one.

(** [extra_root] is a local root of this function, at [cell]. *)
Definition caml_check_urgent_gc_r (fuel one : nat) (cell : Z) : GM X Z :=
  let* s := mget in
  (if caml_force_major_slice (stats s) =? 0 then mreturn tt else caml_minor_collection_r fuel one) ;;;
  ld cell.

Definition In_young : Z := 2.

Definition caml_set_minor_heap_size_r (fuel one : nat) (size : Z) : GM X unit :=
  let* s := mget in
  (if caml_young_ptr (young s) =? caml_young_end (young s) then mreturn tt else caml_minor_collection_r fuel one) ;;;
  let* (new_heap, new_heap_base) := caml_aligned_malloc size in
  if new_heap =? 0 then mfail Raise_out_of_memory else
  let* err := caml_page_table_add_r In_young new_heap (new_heap + size) in
  if negb (err =? 0) then mfail Raise_out_of_memory else
  let* s := mget in
  (if caml_young_start (young s) =? 0 then mreturn tt else
   (let* _ := caml_page_table_remove_r In_young (caml_young_start (young s)) (caml_young_end (young s)) in
    free (caml_young_base (young s)))) ;;;
  mmodify (set_young (Young new_heap_base new_heap (new_heap + size) (new_heap + size) size)) ;;;
  mmodify (λ s, let t := stats s in
    set_stats (Stats (caml_young_start (young s)) (caml_force_major_slice t) (caml_something_to_do t) (caml_allocated_words t) (caml_stat_minor_words t)
      (caml_stat_promoted_words t) (caml_stat_minor_collections t)) s) ;;;
  reset_table_r Strong ;;;
  reset_table_r Weak.
End Operations.
Arguments MajorHeap : clear implicits.

(** * Correctness

    ** The promise of the major heap

    The allocator owns some of the memory, its invariant depends on nothing
    else, and it allocates in what it owns or in memory that was not there. *)

(** A word of the block [n]: its header or one of its fields. *)
Definition in_block (n len a : Z) : Prop := ∃ i, -1 <= i < len ∧ a = n + 8 * i.

Fixpoint visit {X} (f : Z → Z → GM X unit) (l : list Z) : GM X unit :=
  match l with [] => mreturn tt | a :: l => scan_cell f a ;;; visit f l end.

Class HeapLaws (X : Type) {MH : MajorHeap X} : Type := {
  major_ok : gc X → Prop;
  owned : gc X → Z → Prop;
  (** The cells that the scan of the global roots and the hook visit, and what
      the former does to its lists. *)
  global_cells : X → list Z;
  hook_cells : X → list Z;
  after_global : GM X unit;
  major_frame s s' : rest s' = rest s → caml_young_start (young s') = caml_young_start (young s) → caml_young_end (young s') = caml_young_end (young s) → dom (words s') = dom (words s) →
    (∀ a, owned s a → words s' !! a = words s !! a) → major_ok s →
    major_ok s' ∧ (∀ a, owned s' a ↔ owned s a) ∧ (∀ f, Is_in_value_area s' f = Is_in_value_area s f);
  alloc_law s sz tag : major_ok s → caml_in_minor_collection s ≠ 0 → 1 <= sz <= Max_wosize → 0 <= tag < 256 →
    match caml_alloc_shr_r sz tag s with
    | inl e => e = Fatal_out_of_memory
    | inr (s', n) =>
        major_ok s' ∧ n mod 8 = 0 ∧ 8 <= n ∧ n + 8 * sz < W ∧
        (caml_young_end (young s) <= n - 8 ∨ n + 8 * sz <= caml_young_start (young s)) ∧
        (∀ a, in_block n sz a → owned s a ∨ words s !! a = None) ∧
        (∃ h, words s' !! (n - 8) = Some h ∧ Wosize_hd h = sz ∧ Tag_hd h = tag) ∧
        (∀ i, 0 <= i < sz → is_Some (words s' !! (n + 8 * i))) ∧
        (∀ a, owned s' a → (owned s a ∨ words s !! a = None) ∧ ¬ in_block n sz a) ∧
        (∀ a, is_Some (words s !! a) → is_Some (words s' !! a)) ∧
        (∀ a, is_Some (words s !! a) → ¬ owned s a → words s' !! a = words s !! a) ∧
        (∀ f, is_Some (words s !! f) → Is_in_value_area s' f = Is_in_value_area s f) ∧
        young s' = young s ∧ caml_ref_table s' = caml_ref_table s ∧ caml_weak_ref_table s' = caml_weak_ref_table s ∧
        caml_in_minor_collection s' = caml_in_minor_collection s ∧ oldify_todo_list s' = oldify_todo_list s ∧ roots s' = roots s ∧
        global_cells (rest s') = global_cells (rest s) ∧ hook_cells (rest s') = hook_cells (rest s)
    end;
  scan_global_law f s : caml_scan_global_young_roots_r f s = (visit f (global_cells (rest s)) ;;; after_global) s;
  after_law s : major_ok s → ∃ x, after_global s = inr (set_rest x s, tt) ∧ hook_cells x = hook_cells (rest s) ∧ major_ok (set_rest x s) ∧
    (∀ a, owned (set_rest x s) a ↔ owned s a) ∧ (∀ f, Is_in_value_area (set_rest x s) f = Is_in_value_area s f);
  scan_hook_law f s : caml_scan_roots_hook f s = visit f (hook_cells (rest s)) s
}.

(** ** The graph of the minor heap *)

Record obj : Type := Obj { o_hd : Z; o_fields : list Z }.
Definition o_tag (o : obj) : Z := Tag_hd (o_hd o).
Definition o_len (o : obj) : Z := Z.of_nat (length (o_fields o)).

(** What a collection starts from: memory, bounds of the minor heap, its
    blocks, the cells that hold roots, the cells of weak references, the memory
    of the allocator, and the values the page table knows. *)
Record scene : Type := Scene {
  m0 : gmap Z Z; ys : Z; ye : Z; Y : gmap Z obj; cells : list Z; weaks : list Z; own0 : Z → Prop; inva : Z → bool
}.

Section Graph.
Context (g : scene).

Definition hd0 (v : Z) : Z := default 0 (m0 g !! (v - 8)).
Definition tag0 (v : Z) : Z := Tag_hd (hd0 v).

(** A pointer into the minor heap. *)
Definition yv (v : Z) : bool := Is_block v && ((v <? ye g) && (ys g <? v)).

(** A forwarding block whose content takes its place. *)
Definition special (t : Z) : bool := (t =? Forward_tag) || (t =? Lazy_tag) || (t =? Double_tag).
Definition shortcut (f : Z) : bool := if Is_block f then (yv f || inva g f) && negb (special (tag0 f)) else true.

(** The value that takes the place of [v] before it is moved. *)
Definition skip (v : Z) : Z :=
  match Y g !! v with
  | Some o => match o_fields o with f :: _ => if (o_tag o =? Forward_tag) && shortcut f then f else v | [] => v end
  | None => v
  end.

(** The block of a pointer, which may be an infix one. *)
Definition block_of (w : Z) : Z := if tag0 w =? Infix_tag then w - Infix_offset_hd (hd0 w) else w.
Definition target (v : Z) : Z := block_of (skip v).

(** The new value of [w], when [φ] says where the blocks went. *)
Definition move (φ : gmap Z Z) (w : Z) : option Z :=
  if yv w then
    if tag0 w =? Infix_tag then (λ n, n + Infix_offset_hd (hd0 w)) <$> φ !! block_of w else φ !! w
  else Some w.
Definition new (φ : gmap Z Z) (v : Z) : option Z := move φ (skip v).

(** A pointer into the minor heap points to one of the blocks, or into a
    closure, after an infix header. *)
Definition vok (v : Z) : Prop :=
  yv v = true → is_Some (Y g !! v) ∨
  ∃ b o k h, Y g !! b = Some o ∧ o_tag o < Infix_tag ∧ (1 <= k)%nat ∧ v = b + 8 * Z.of_nat (S k) ∧ (S k < length (o_fields o))%nat ∧
    o_fields o !! k = Some h ∧ Tag_hd h = Infix_tag ∧ Infix_offset_hd h = v - b.

Definition client (a : Z) : Prop := is_Some (m0 g !! a) ∧ ¬ own0 g a.

Record wf : Prop := {
  wf_bounds : 0 <= ys g;
  wf_obj b o : Y g !! b = Some o → (Is_block b = true ∧ ys g <= b - 8) ∧ b + 8 * o_len o <= ye g ∧ 1 <= o_len o <= Max_wosize ∧
    Wosize_hd (o_hd o) = o_len o ∧ o_tag o ≠ Infix_tag ∧ m0 g !! (b - 8) = Some (o_hd o) ∧
    ∀ i x, o_fields o !! i = Some x → m0 g !! (b + 8 * Z.of_nat i) = Some x;
  wf_disj b o b' o' : Y g !! b = Some o → Y g !! b' = Some o' → b ≠ b' → b + 8 * o_len o <= b' - 8 ∨ b' + 8 * o_len o' <= b - 8;
  wf_young a : ys g <= a < ye g → ¬ own0 g a;
  wf_fwd b o f : Y g !! b = Some o → o_tag o = Forward_tag → o_fields o !! 0%nat = Some f → length (o_fields o) = 1%nat ∧
    (Is_block f = true → yv f = false → is_Some (m0 g !! f) ∧
      (inva g f = true → client (f - 8) ∧ ¬ (ys g <= f - 8 < ye g) ∧ (f - 8) ∉ cells g ∧ (f - 8) ∉ weaks g));
  wf_fields b o x : Y g !! b = Some o → o_tag o < No_scan_tag → x ∈ o_fields o → vok x;
  wf_cells a : a ∈ cells g → client a ∧ ¬ (ys g <= a < ye g);
  wf_roots a v : a ∈ cells g → m0 g !! a = Some v → vok v
}.

(** The values and the blocks that the roots reach. *)
Inductive live : Z → Prop :=
  | live_root a v : a ∈ cells g → m0 g !! a = Some v → live v
  | live_field v b o x : live v → yv (skip v) = true → target v = b → Y g !! b = Some o → o_tag o < No_scan_tag → x ∈ o_fields o → live x.
Definition live_block (b : Z) : Prop := ∃ v, live v ∧ yv (skip v) = true ∧ target v = b.

(** ** Facts about the graph *)

Context (Hwf : wf).

Lemma yv_spec v : yv v = true ↔ Is_block v = true ∧ ys g < v < ye g.
Proof. unfold yv. rewrite !andb_true_iff, !Z.ltb_lt. tauto. Qed.

Lemma obj_hd b o : Y g !! b = Some o → hd0 b = o_hd o.
Proof. intros Hb. unfold hd0. by destruct (wf_obj Hwf _ _ Hb) as (_ & _ & _ & _ & _ & -> & _). Qed.

Lemma obj_tag b o : Y g !! b = Some o → tag0 b = o_tag o.
Proof. intros Hb. unfold tag0, o_tag. by rewrite (obj_hd b o). Qed.

Lemma obj_block_of b o : Y g !! b = Some o → block_of b = b.
Proof.
  intros Hb. unfold block_of. rewrite (obj_tag b o Hb). destruct (wf_obj Hwf _ _ Hb) as (_ & _ & _ & _ & Hn & _).
  by destruct (Z.eqb_spec (o_tag o) Infix_tag).
Qed.

Lemma obj_hd_ne b o : Y g !! b = Some o → o_hd o ≠ 0.
Proof. intros Hb E. destruct (wf_obj Hwf _ _ Hb) as (_ & _ & Hl & Hw & _). rewrite E in Hw. change (Wosize_hd 0) with 0 in Hw. lia. Qed.

Lemma move_mono φ φ' w x : φ ⊆ φ' → move φ w = Some x → move φ' w = Some x.
Proof.
  intros Hs. unfold move. destruct (yv w); [|done]. destruct (tag0 w =? Infix_tag); [|apply lookup_weaken_inv || (intros; by eapply lookup_weaken)].
  destruct (φ !! block_of w) eqn:E; [|done]. by rewrite (lookup_weaken _ _ _ _ E Hs).
Qed.

Lemma new_mono φ φ' v x : φ ⊆ φ' → new φ v = Some x → new φ' v = Some x.
Proof. apply move_mono. Qed.

Lemma obj_young b o : Y g !! b = Some o → yv b = true.
Proof. intros Hb. destruct (wf_obj Hwf _ _ Hb) as ((H0 & H1) & H2 & H3 & _). apply yv_spec. split; [done|lia]. Qed.

(** A value that is no pointer into the minor heap does not move. *)
Lemma skip_old v : yv v = false → skip v = v.
Proof. intros Hv. unfold skip. destruct (Y g !! v) as [o|] eqn:E; [|done]. by rewrite (obj_young _ _ E) in Hv. Qed.

Lemma new_old φ v : yv v = false → new φ v = Some v.
Proof. intros Hv. unfold new. rewrite (skip_old v Hv). unfold move. by rewrite Hv. Qed.

(** What a pointer into the minor heap is. *)
Lemma vok_cases v : vok v → yv v = true → (∃ o, Y g !! v = Some o) ∨
  (Y g !! v = None ∧ tag0 v = Infix_tag ∧ ∃ o k, Y g !! block_of v = Some o ∧ o_tag o < Infix_tag ∧ (1 <= k)%nat ∧ (S k < length (o_fields o))%nat ∧
     v = block_of v + 8 * Z.of_nat (S k) ∧ o_fields o !! k = Some (hd0 v) ∧ Infix_offset_hd (hd0 v) = v - block_of v).
Proof.
  intros Hv Hy. destruct (Hv Hy) as [[o Ho]|(b & o & k & h & Ho & Ht & Hk & Ev & Hlt & Hh & Hti & Hoff)]; [left; by exists o|right].
  assert (hd0 v = h) as Eh.
  { unfold hd0. destruct (wf_obj Hwf _ _ Ho) as (_ & _ & _ & _ & _ & _ & Hf). replace (v - 8) with (b + 8 * Z.of_nat k) by lia. by rewrite (Hf _ _ Hh). }
  assert (tag0 v = Infix_tag) as Et by (unfold tag0; by rewrite Eh). split_and!; [|done|].
  - destruct (Y g !! v) as [o'|] eqn:E; [|done]. destruct (wf_obj Hwf _ _ E) as (_ & _ & _ & _ & Hn & _). by rewrite (obj_tag _ _ E) in Et.
  - assert (block_of v = b) as Eb by (unfold block_of; rewrite Et, Eh, Hoff; cbn; lia). exists o, k. rewrite Eb, Eh. done.
Qed.

Lemma skip_infix v : Y g !! v = None → skip v = v.
Proof. intros E. unfold skip. by rewrite E. Qed.

Lemma skip_cases b o : Y g !! b = Some o →
  (o_tag o ≠ Forward_tag ∧ skip b = b) ∨
  (o_tag o = Forward_tag ∧ ∃ f, o_fields o = [f] ∧ skip b = if shortcut f then f else b).
Proof.
  intros Hb. destruct (Z.eq_dec (o_tag o) Forward_tag) as [E|E]; [right|left].
  - split; [done|]. destruct (wf_obj Hwf _ _ Hb) as (_ & _ & Hl & _). destruct (o_fields o) as [|f l] eqn:El; [unfold o_len in Hl; rewrite El in Hl; cbn in Hl; lia|].
    destruct (wf_fwd Hwf _ _ f Hb E) as [Hlen _]; [by rewrite El|]. rewrite El in Hlen. destruct l; [|done]. exists f. split; [done|].
    unfold skip. rewrite Hb, El, E. by destruct (shortcut f).
  - split; [done|]. unfold skip. rewrite Hb. destruct (o_fields o); [done|]. by rewrite (proj2 (Z.eqb_neq _ _) E).
Qed.

(** Following a forwarding block leads to no other one. *)
Lemma skip_skip f : vok f → shortcut f = true → skip f = f.
Proof.
  intros Hf Hs. destruct (yv f) eqn:Hy; [|by apply skip_old]. destruct (vok_cases f Hf Hy) as [[o Ho]|[E _]]; [|by apply skip_infix].
  destruct (skip_cases f o Ho) as [[_ ?]|(Et & f' & _ & E)]; [done|]. exfalso. unfold shortcut in Hs. apply yv_spec in Hy as [Hb _]. rewrite Hb in Hs.
  rewrite (obj_tag _ _ Ho), Et, andb_false_r in Hs. done.
Qed.

(** A bound on the iterations before a block is copied. *)
Definition rank (v : Z) : nat := if Z.eqb (skip v) v then (if yv v && (tag0 v =? Infix_tag) then 1 else 0) else 2.
End Graph.

Lemma dom_insert_same (m : gmap Z Z) a v : is_Some (m !! a) → dom (<[a := v]> m) = dom m.
Proof. intros Ha. rewrite dom_insert_L. apply elem_of_dom in Ha. set_solver. Qed.

Lemma is_Some_store (m : gmap Z Z) p v a : is_Some (m !! p) → is_Some (<[p := v]> m !! a) ↔ is_Some (m !! a).
Proof. intros Hp. destruct (decide (p = a)) as [->|]; [rewrite lookup_insert_eq; split; [done|by eexists]|by rewrite lookup_insert_ne]. Qed.

(** ** The invariant of a collection

    [φ] is the map from the blocks already copied to their copies, [todo] the
    list of those whose fields remain to be done, [H] the cells about to be
    written, [done_] the roots already updated. *)
Section Invariant.
Context {X : Type} {MH : MajorHeap X} {HL : HeapLaws X}.
Context (g : scene) (Hwf : wf g).

Definition fresh_block (s : gc X) (n len tag : Z) : Prop :=
  (∃ h, words s !! (n - 8) = Some h ∧ Wosize_hd h = len ∧ Tag_hd h = tag) ∧
  (∀ i, 0 <= i < len → is_Some (words s !! (n + 8 * i))) ∧
  n mod 8 = 0 ∧ 8 <= n ∧ n + 8 * len < W ∧ (ye g <= n - 8 ∨ n + 8 * len <= ys g) ∧
  ∀ a, in_block n len a → is_Some (words s !! a) → ¬ client g a ∧ ¬ owned s a.

Definition apart (n len n' len' : Z) : Prop := n + 8 * len <= n' - 8 ∨ n' + 8 * len' <= n - 8.

Definition todo_head (l : list Z) : Z := match l with [] => 0 | b :: _ => b end.

(** The copies on the list: first field as in the original, link to the next. *)
Fixpoint linked (m : gmap Z Z) (φ : gmap Z Z) (l : list Z) : Prop :=
  match l with
  | [] => True
  | b :: l => (∃ n o x, φ !! b = Some n ∧ Y g !! b = Some o ∧ o_tag o < Infix_tag ∧ (1 < length (o_fields o))%nat ∧
                 o_fields o !! 0%nat = Some x ∧ m !! n = Some x ∧ m !! (n + 8) = Some (todo_head l)) ∧ linked m φ l
  end.

Definition in_new (φ : gmap Z Z) (b n : Z) (o : obj) (i : nat) (x : Z) : Prop := φ !! b = Some n ∧ Y g !! b = Some o ∧ o_fields o !! i = Some x.

Record inv (s : gc X) (φ : gmap Z Z) (todo : list Z) (H : Z → Prop) (done_ : list Z) : Prop := {
  v_young : caml_young_start (young s) = ys g ∧ caml_young_end (young s) = ye g;
  v_minor : caml_in_minor_collection s ≠ 0;
  v_ok : major_ok s;
  v_area f : is_Some (m0 g !! f) → Is_in_value_area s f = inva g f;
  v_dom b n : φ !! b = Some n → ∃ o, Y g !! b = Some o ∧ skip g b = b ∧ live_block g b ∧ fresh_block s n (o_len o) (o_tag o);
  v_apart b n o b' n' o' : φ !! b = Some n → Y g !! b = Some o → φ !! b' = Some n' → Y g !! b' = Some o' → b ≠ b' → apart n (o_len o) n' (o_len o');
  v_intact b o : Y g !! b = Some o → φ !! b = None → words s !! (b - 8) = Some (o_hd o) ∧ ∀ x, o_fields o !! 0%nat = Some x → words s !! b = Some x;
  v_moved b n : φ !! b = Some n → words s !! (b - 8) = Some 0 ∧ words s !! b = Some n;
  v_tail b o i x : Y g !! b = Some o → (1 <= i)%nat → o_fields o !! i = Some x → words s !! (b + 8 * Z.of_nat i) = Some x;
  v_raw b n o i x : in_new φ b n o i x → ¬ H (n + 8 * Z.of_nat i) → No_scan_tag <= o_tag o → words s !! (n + 8 * Z.of_nat i) = Some x;
  v_copied b n o i x : in_new φ b n o i x → ¬ H (n + 8 * Z.of_nat i) → o_tag o < No_scan_tag → b ∉ todo →
    ∃ y, new g φ x = Some y ∧ words s !! (n + 8 * Z.of_nat i) = Some y;
  v_todo : oldify_todo_list s = todo_head todo ∧ linked (words s) φ todo ∧ NoDup todo;
  v_cells a : a ∈ cells g → ¬ H a → ∃ v, m0 g !! a = Some v ∧ (if decide (a ∈ done_) then words s !! a = new g φ v else words s !! a = Some v);
  v_frozen a : client g a → ¬ (ys g <= a < ye g) → a ∉ cells g → words s !! a = m0 g !! a;
  v_mapped a : is_Some (m0 g !! a) → is_Some (words s !! a);
  v_client a : client g a → ¬ owned s a;
  v_holes a : H a → a ∈ cells g ∨ ∃ b n o i x, in_new φ b n o i x ∧ b ∉ todo ∧ a = n + 8 * Z.of_nat i
}.

(** *** Separation *)

Section Facts.
Context (s : gc X) (φ : gmap Z Z) (todo : list Z) (H : Z → Prop) (D : list Z) (HI : inv s φ todo H D).

Lemma new_block b n : φ !! b = Some n → ∃ o, Y g !! b = Some o ∧ fresh_block s n (o_len o) (o_tag o).
Proof. intros E. destruct (v_dom _ _ _ _ _ HI b n E) as (o & ? & _ & _ & ?). eauto. Qed.

Lemma linked_dom m l b : linked m φ l → b ∈ l → ∃ n o x x1, in_new φ b n o 0 x ∧ o_fields o !! 1%nat = Some x1 ∧ o_tag o < Infix_tag.
Proof.
  induction l as [|c l IH]; [intros _ Hb; by apply elem_of_nil in Hb|]. intros [(n & o & x & E1 & E2 & Ht & Hl & Ex & _) Hr] [->|Hb]%elem_of_cons; [|by apply IH].
  destruct (lookup_lt_is_Some_2 (o_fields o) 1%nat Hl) as [x1 E3]. by exists n, o, x, x1.
Qed.

(** The cell of a copy: it is mapped, belongs to no one else and is not in the
    minor heap. *)
Lemma new_cell b n o i x : in_new φ b n o i x → let a := n + 8 * Z.of_nat i in
  in_block n (o_len o) a ∧ is_Some (words s !! a) ∧ ¬ client g a ∧ ¬ owned s a ∧ ¬ (ys g <= a < ye g).
Proof.
  intros (E1 & E2 & E3) a. destruct (new_block b n E1) as (o' & E2' & Hh & Hm & _ & _ & _ & Hy & Hc). rewrite E2 in E2'. injection E2' as <-.
  apply lookup_lt_Some in E3. assert (0 <= Z.of_nat i < o_len o) as Hi by (unfold o_len; lia). specialize (Hm _ Hi). fold a in Hm.
  assert (in_block n (o_len o) a) as Hb by (exists (Z.of_nat i); unfold a; lia). destruct (Hc a Hb Hm). split_and!; try done. destruct Hb as (j & ? & ?). lia.
Qed.

Lemma new_header b n o : φ !! b = Some n → Y g !! b = Some o → is_Some (words s !! (n - 8)) ∧ ¬ client g (n - 8) ∧ ¬ owned s (n - 8) ∧ ¬ (ys g <= n - 8 < ye g).
Proof.
  intros E1 E2. destruct (new_block b n E1) as (o' & E2' & (h & Hh & _) & Hm & _ & _ & _ & Hy & Hc). rewrite E2 in E2'. injection E2' as <-.
  destruct (wf_obj g Hwf _ _ E2) as (_ & _ & Hl & _). assert (in_block n (o_len o) (n - 8)) as Hb by (exists (-1); lia).
  rewrite Hh. destruct (Hc _ Hb) as [? ?]; [by rewrite Hh|]. split_and!; [done..|]. lia.
Qed.

(** Cells of copies are the same only if block and field are. *)
Lemma new_cell_inj b n o i x b' n' o' i' x' : in_new φ b n o i x → in_new φ b' n' o' i' x' →
  n + 8 * Z.of_nat i = n' + 8 * Z.of_nat i' → b = b' ∧ i = i'.
Proof.
  intros H1 H2 E. destruct (decide (b = b')) as [<-|Hne].
  - destruct H1 as (E1 & _), H2 as (E1' & _). rewrite E1 in E1'. injection E1' as <-. lia.
  - pose proof (new_cell _ _ _ _ _ H1) as [B1 _]. pose proof (new_cell _ _ _ _ _ H2) as [(? & ? & ?) _]. destruct H1 as (E1 & E2 & _), H2 as (E1' & E2' & _).
    pose proof (v_apart _ _ _ _ _ HI _ _ _ _ _ _ E1 E2 E1' E2' Hne) as Ha. destruct B1 as (? & ? & ?). unfold apart in *. lia.
Qed.

Lemma cell_not_header b n o i x b' n' o' : in_new φ b n o i x → φ !! b' = Some n' → Y g !! b' = Some o' → n + 8 * Z.of_nat i ≠ n' - 8.
Proof.
  intros H1 E1' E2' E. pose proof (new_cell _ _ _ _ _ H1) as [B1 _]. destruct (wf_obj g Hwf _ _ E2') as (_ & _ & Hl & _). destruct (decide (b = b')) as [<-|Hne].
  - destruct H1 as (E1 & _). rewrite E1 in E1'. injection E1' as <-. lia.
  - destruct H1 as (E1 & E2 & _). pose proof (v_apart _ _ _ _ _ HI _ _ _ _ _ _ E1 E2 E1' E2' Hne) as Ha. destruct B1 as (? & ? & ?). unfold apart in *. lia.
Qed.

Record hole (p : Z) : Prop := {
  h_mapped : is_Some (words s !! p);
  h_owned : ¬ owned s p;
  h_young : ¬ (ys g <= p < ye g);
  h_client : client g p → p ∈ cells g;
  h_header b n o : φ !! b = Some n → Y g !! b = Some o → p ≠ n - 8;
  h_todo b n o i x : b ∈ todo → in_new φ b n o i x → p ≠ n + 8 * Z.of_nat i
}.

Lemma hole_facts p : H p → hole p.
Proof.
  intros Hp. destruct (v_holes _ _ _ _ _ HI p Hp) as [Hc|(b & n & o & i & x & Hn & Hb & ->)].
  - destruct (wf_cells g Hwf p Hc) as [[Hm Ho] Hy]. pose proof (v_client _ _ _ _ _ HI p (conj Hm Ho)). split; try done.
    + by apply (v_mapped _ _ _ _ _ HI).
    + intros b n o E1 E2 ->. by destruct (new_header b n o E1 E2) as (_ & Hn & _); apply Hn.
    + intros b n o i x _ Hn ->. by destruct (new_cell _ _ _ _ _ Hn) as (_ & _ & Hcl & _); apply Hcl.
  - destruct (new_cell _ _ _ _ _ Hn) as (_ & Hm & Hcl & Ho & Hy). split; try done.
    + intros b' n' o' E1 E2. by eapply cell_not_header.
    + intros b' n' o' i' x' Hb' Hn' E. destruct (new_cell_inj _ _ _ _ _ _ _ _ _ _ Hn Hn' E) as [-> _]. done.
Qed.

(** Addresses of the blocks of the minor heap. *)
Lemma young_addr b o i : Y g !! b = Some o → -1 <= i < o_len o → ys g <= b + 8 * i < ye g.
Proof. intros E Hi. destruct (wf_obj g Hwf _ _ E) as ((_ & H1) & H2 & _). lia. Qed.

Lemma young_client b o i : Y g !! b = Some o → -1 <= i < o_len o → client g (b + 8 * i).
Proof.
  intros E Hi. split; [|apply (wf_young g Hwf), (young_addr b o i E Hi)]. destruct (wf_obj g Hwf _ _ E) as (_ & _ & _ & _ & _ & H1 & H2).
  destruct (Z.eq_dec i (-1)) as [->|]; [exists (o_hd o); by replace (b + 8 * -1) with (b - 8) by lia|].
  destruct (lookup_lt_is_Some_2 (o_fields o) (Z.to_nat i)) as [x Hx]; [unfold o_len in Hi; lia|]. exists x. rewrite <- (H2 _ _ Hx). f_equal. lia.
Qed.
End Facts.

Lemma linked_ext m m' φ l : linked m φ l → (∀ b n o i x, b ∈ l → in_new φ b n o i x → m' !! (n + 8 * Z.of_nat i) = m !! (n + 8 * Z.of_nat i)) → linked m' φ l.
Proof.
  induction l as [|b l IH]; [done|]. intros [(n & o & x & E1 & E2 & Ht & Hl & Ex & M0 & M1) Hr] He. split.
  - exists n, o, x. destruct (lookup_lt_is_Some_2 (o_fields o) 1%nat Hl) as [x1 E3].
    pose proof (He b n o 0%nat x ltac:(left) (conj E1 (conj E2 Ex))) as A0. pose proof (He b n o 1%nat x1 ltac:(left) (conj E1 (conj E2 E3))) as A1.
    rewrite Z.add_0_r in A0. change (8 * Z.of_nat 1) with 8 in A1. by rewrite A0, A1.
  - apply IH; [done|]. intros b' n' o' i' x' Hb'. apply He. by right.
Qed.

Lemma linked_mono m φ φ' l : φ ⊆ φ' → linked m φ l → linked m φ' l.
Proof.
  intros Hs. induction l as [|b l IH]; [done|]. intros [(n & o & x & E1 & Hrest) Hr]. split; [|by apply IH]. exists n, o, x. split; [by eapply lookup_weaken|done].
Qed.

(** The invariant depends on the memory it guards only. *)
Lemma inv_frame s s' φ todo H D : inv s φ todo H D → young s' = young s → caml_in_minor_collection s' = caml_in_minor_collection s →
  oldify_todo_list s' = oldify_todo_list s → major_ok s' →
  (∀ f, is_Some (words s !! f) → Is_in_value_area s' f = Is_in_value_area s f) →
  (∀ a, is_Some (words s !! a) → is_Some (words s' !! a)) →
  (∀ a, is_Some (words s !! a) → ¬ owned s a → ¬ owned s' a) →
  (∀ a, client g a ∨ (∃ b n o, φ !! b = Some n ∧ Y g !! b = Some o ∧ in_block n (o_len o) a) →
     is_Some (words s !! a) → ¬ owned s a → ¬ H a → words s' !! a = words s !! a) →
  inv s' φ todo H D.
Proof.
  intros HI Ey Em Et Hok Hva Hmap Hown Hag. pose proof HI as [V1 V2 V3 V4 V5 V6 V7 V8 V9 V10 V11 V12 V13 V14 V15 V16 V17].
  assert (∀ a, client g a → ¬ H a → words s' !! a = words s !! a) as Hcl by (intros a Ha; apply Hag; [by left|apply V15, Ha|by apply V16]).
  assert (∀ b o i, Y g !! b = Some o → -1 <= i < o_len o → words s' !! (b + 8 * i) = words s !! (b + 8 * i)) as Hyoung.
  { intros b o i Hb Hi. apply Hcl; [by eapply young_client|]. intros Hh. apply (h_young _ _ _ _ (hole_facts s φ todo H D HI _ Hh)). by eapply young_addr. }
  split; rewrite ?Ey, ?Em, ?Et; try done.
  - intros f Hf. rewrite Hva by by apply V15. by apply V4.
  - intros b n E. destruct (V5 b n E) as (o & E2 & Hk & Hlv & (h & Hh & Hsz & Htg) & Hm & Hal & Hn8 & Hw & Hy & Hc). exists o. split_and!; [done..|].
    destruct (new_header s φ todo H D HI b n o E E2) as (Hh1 & Hh2 & Hh3 & Hh4). split_and!; try done.
    + exists h. rewrite Hag; [done|right; exists b, n, o; split_and!; [done..|]|done..|].
      { destruct (wf_obj g Hwf _ _ E2) as (_ & _ & Hl & _). exists (-1). lia. }
      intros Hhole. by apply (h_header _ _ _ _ (hole_facts s φ todo H D HI _ Hhole) b n o E E2).
    + intros i Hi. apply Hmap, Hm, Hi.
    + intros a Ha _. assert (is_Some (words s !! a)) as Hs.
      { destruct Ha as (i & Hi & ->). destruct (Z.eq_dec i (-1)) as [->|]; [by replace (n + 8 * -1) with (n - 8) by lia|apply Hm; lia]. }
      destruct (Hc a Ha Hs) as [? ?]. split; [done|]. by apply Hown.
  - intros b o E1 E2. destruct (V7 b o E1 E2) as [A1 A2]. destruct (wf_obj g Hwf _ _ E1) as (_ & _ & Hl & _). split.
    + replace (b - 8) with (b + 8 * -1) by lia. rewrite (Hyoung b o) by (done || lia). by replace (b + 8 * -1) with (b - 8) by lia.
    + intros x Hx. replace b with (b + 8 * 0) by lia. rewrite (Hyoung b o) by (done || lia). rewrite Z.add_0_r. by apply A2.
  - intros b n E. destruct (V5 b n E) as (o & E2 & _). destruct (V8 b n E) as [A1 A2]. destruct (wf_obj g Hwf _ _ E2) as (_ & _ & Hl & _). split.
    + replace (b - 8) with (b + 8 * -1) by lia. rewrite (Hyoung b o) by (done || lia). by replace (b + 8 * -1) with (b - 8) by lia.
    + replace b with (b + 8 * 0) at 1 by lia. rewrite (Hyoung b o) by (done || lia). by rewrite Z.add_0_r.
  - intros b o i x E Hi Hx. pose proof (lookup_lt_Some _ _ _ Hx). rewrite (Hyoung b o) by (done || unfold o_len; lia). by eapply V9.
  - intros b n o i x Hn HH Ht. destruct (new_cell s φ todo H D HI _ _ _ _ _ Hn) as (Hib & Hm & _ & Ho & _). rewrite Hag; [by eapply V10|by right; exists b, n, o; destruct Hn as (? & ? & _)|done..].
  - intros b n o i x Hn HH Ht Hb. destruct (new_cell s φ todo H D HI _ _ _ _ _ Hn) as (Hib & Hm & _ & Ho & _). rewrite Hag; [by eapply V11|by right; exists b, n, o; destruct Hn as (? & ? & _)|done..].
  - destruct V12 as (T1 & T2 & T3). split_and!; try done. eapply linked_ext; [exact T2|]. intros b n o i x Hb Hn.
    destruct (new_cell s φ todo H D HI _ _ _ _ _ Hn) as (Hib & Hm & _ & Ho & _). apply Hag; [by right; exists b, n, o; destruct Hn as (? & ? & _)|done..|]. intros Hh.
    by apply (h_todo _ _ _ _ (hole_facts s φ todo H D HI _ Hh) b n o i x Hb Hn).
  - intros a Ha Hh. destruct (V13 a Ha Hh) as (v & E & Hv). exists v. split; [done|]. destruct (wf_cells g Hwf a Ha) as [Hc _]. by rewrite (Hcl a Hc Hh).
  - intros a Hc Hy Hn. rewrite Hcl; [by apply V14|done|]. intros Hh. by apply Hn, (h_client _ _ _ _ (hole_facts s φ todo H D HI _ Hh)).
  - intros a Ha. by apply Hmap, V15.
  - intros a Ha. apply Hown; [apply V15, Ha|by apply V16].
Qed.

(** Storing in memory that the allocator does not own. *)
Lemma major_store s p v : major_ok s → is_Some (words s !! p) → ¬ owned s p →
  let s' := set_words (<[p := v]> (words s)) s in
  major_ok s' ∧ (∀ a, owned s' a ↔ owned s a) ∧ (∀ f, Is_in_value_area s' f = Is_in_value_area s f).
Proof.
  intros Hok Hp Ho s'. apply major_frame; try done; cbn.
  - by apply dom_insert_same.
  - intros a Ha. rewrite lookup_insert_ne; [done|]. by intros ->.
Qed.

Lemma inv_store s φ todo H D p v : inv s φ todo H D → H p → inv (set_words (<[p := v]> (words s)) s) φ todo H D.
Proof.
  intros HI Hp. destruct (hole_facts s φ todo H D HI p Hp) as [Hm Ho _ _ _ _]. destruct (major_store s p v (v_ok _ _ _ _ _ HI) Hm Ho) as (K1 & K2 & K3).
  apply (inv_frame s); try done; cbn.
  - intros a. by rewrite is_Some_store.
  - intros a Ha Hn. by rewrite K2.
  - intros a _ _ _ Hh. rewrite lookup_insert_ne; [done|]. by intros ->.
Qed.

(** *** Steps *)

(** A computation returns, or the memory is exhausted. *)
Definition runs {A} (c : GM X A) (Q : A → gc X → Prop) (s : gc X) : Prop :=
  match c s with inr (s', x) => Q x s' | inl e => e = Fatal_out_of_memory end.

Lemma runs_ret {A} (x : A) Q s : Q x s → runs (mreturn x) Q s.
Proof. done. Qed.
Lemma gc_bind {A B} (c : GM X A) (k : A → GM X B) Q s : runs c (λ x, runs (k x) Q) s → runs (mbnd c k) Q s.
Proof. unfold runs, mbnd. by destruct (c s) as [|[]]. Qed.
Lemma gc_conseq {A} (c : GM X A) (P Q : A → gc X → Prop) s : runs c P s → (∀ x s', P x s' → Q x s') → runs c Q s.
Proof. unfold runs. destruct (c s) as [|[]]; eauto. Qed.
Lemma runs_get Q s : Q s s → runs mget Q s.
Proof. done. Qed.
Lemma runs_modify f Q s : Q tt (f s) → runs (mmodify f) Q s.
Proof. done. Qed.
Lemma runs_ld a v Q s : words s !! a = Some v → Q v s → runs (ld a) Q s.
Proof. unfold runs, ld. by intros ->. Qed.
Lemma runs_st a v Q s : is_Some (words s !! a) → Q tt (set_words (<[a := v]> (words s)) s) → runs (st a v) Q s.
Proof. unfold runs, st. by intros [w ->]. Qed.

(** The parts of the state that copying leaves alone. *)
Definition same (s s' : gc X) : Prop := young s' = young s ∧ caml_ref_table s' = caml_ref_table s ∧ caml_weak_ref_table s' = caml_weak_ref_table s ∧ roots s' = roots s ∧
  global_cells (rest s') = global_cells (rest s) ∧ hook_cells (rest s') = hook_cells (rest s).

Lemma same_refl s : same s s.
Proof. done. Qed.
Lemma same_trans s1 s2 s3 : same s1 s2 → same s2 s3 → same s1 s3.
Proof. intros (A1 & A2 & A3 & A4 & A5 & A6) (B1 & B2 & B3 & B4 & B5 & B6). split_and!; congruence. Qed.

Lemma overlap n len n' len' : n mod 8 = 0 → n' mod 8 = 0 → 1 <= len → 1 <= len' → apart n len n' len' ∨ in_block n len (n' - 8) ∨ in_block n' len' (n - 8).
Proof.
  intros Hn Hn' H1 H2. unfold apart. apply Z.mod_divide in Hn as [k Hk], Hn' as [k' Hk']; try lia. subst.
  destruct (Z.le_gt_cases k k'); destruct (Z.le_gt_cases (k * 8 + 8 * len) (k' * 8 - 8)); try (left; lia);
    destruct (Z.le_gt_cases (k' * 8 + 8 * len') (k * 8 - 8)); try (left; lia).
  - right; left. exists (k' - 1 - k). lia.
  - right; right. exists (k - 1 - k'). lia.
Qed.

Lemma inv_alloc s φ todo H D sz tag : inv s φ todo H D → 1 <= sz <= Max_wosize → 0 <= tag < 256 →
  runs (caml_alloc_shr_r sz tag) (λ n s', inv s' φ todo H D ∧ fresh_block s' n sz tag ∧ same s s' ∧
    (∀ b n' o', φ !! b = Some n' → Y g !! b = Some o' → apart n sz n' (o_len o')) ∧
    (∀ a, H a → words s' !! a = words s !! a ∧ ¬ in_block n sz a)) s.
Proof.
  intros HI Hsz Htag. pose proof (alloc_law s sz tag (v_ok _ _ _ _ _ HI) (v_minor _ _ _ _ _ HI) Hsz Htag) as HA. unfold runs.
  destruct (caml_alloc_shr_r sz tag s) as [e|[s' n]]; [done|].
  destruct HA as (Hok & Hal & Hn & Hw & Hy & Hblk & Hhd & Hfs & Hown & Hmap & Hag & Hva & E1 & E2 & E3 & E4 & E5 & E6 & E7 & E8).
  assert (∀ a, is_Some (words s !! a) → ¬ owned s a → ¬ in_block n sz a) as Hout.
  { intros a Ha Ho Hb. destruct (Hblk a Hb) as [|En]; [done|]. rewrite En in Ha. by destruct Ha. }
  destruct (v_young _ _ _ _ _ HI) as [Ys Ye]. split_and!; try done.
  - apply (inv_frame s); try done.
    + intros a Ha Ho Ho'. destruct (Hown a Ho') as [[|En] _]; [done|]. rewrite En in Ha. by destruct Ha.
    + intros a _ Ha Ho _. by apply Hag.
  - split_and!; try done; [by rewrite <- Ys, <- Ye|]. intros a Hb _. split.
    + intros Hc. apply (Hout a); [apply (v_mapped _ _ _ _ _ HI), Hc|by apply (v_client _ _ _ _ _ HI)|done].
    + intros Ho. by destruct (Hown a Ho).
  - intros b n' o' Eb Eo. destruct (new_block s φ todo H D HI b n' Eb) as (o1 & Eo1 & Hh1 & Hm1 & Hal1 & _ & _ & _ & Hc1). rewrite Eo in Eo1. injection Eo1 as <-.
    destruct (wf_obj g Hwf _ _ Eo) as (_ & _ & Hl & _). destruct (new_header s φ todo H D HI b n' o' Eb Eo) as (M1 & _ & O1 & _).
    destruct (overlap n sz n' (o_len o')) as [|[Hb|Hb]]; try done; try lia; exfalso.
    + by apply (Hout (n' - 8)).
    + assert (is_Some (words s !! (n - 8))) as M.
      { destruct Hb as (i & Hi & ->). destruct (Z.eq_dec i (-1)) as [->|]; [by replace (n' + 8 * -1) with (n' - 8) by lia|apply Hm1; lia]. }
      apply (Hout (n - 8)); [done|by apply Hc1|]. exists (-1). lia.
  - intros a Ha. destruct (hole_facts s φ todo H D HI a Ha) as [Hm Ho _ _ _ _]. split; [by apply Hag|by apply Hout].
Qed.

Lemma todo_dom s φ todo H D b : inv s φ todo H D → b ∈ todo → is_Some (φ !! b).
Proof. intros HI Hb. destruct (v_todo _ _ _ _ _ HI) as (_ & Hl & _). destruct (linked_dom φ _ _ _ Hl Hb) as (n & o & x & x1 & (E & _) & _). by exists n. Qed.

(** The cells of a block. *)
Definition cells_of (n : Z) (o : obj) (a : Z) : Prop := ∃ i, (i < length (o_fields o))%nat ∧ a = n + 8 * Z.of_nat i.

(** Recording that [b] is copied to [n]. *)
Lemma inv_register s φ todo H D b o n : inv s φ todo H D → Y g !! b = Some o → φ !! b = None → skip g b = b → live_block g b →
  fresh_block s n (o_len o) (o_tag o) → (∀ b' n' o', φ !! b' = Some n' → Y g !! b' = Some o' → apart n (o_len o) n' (o_len o')) →
  let s' := set_words (<[b := n]> (<[b - 8 := 0]> (words s))) s in
  inv s' (<[b := n]> φ) todo (λ a, H a ∨ cells_of n o a) D.
Proof.
  intros HI Eb Ef Hk Hlv Hfr Hap s'. pose proof HI as [V1 V2 V3 V4 V5 V6 V7 V8 V9 V10 V11 V12 V13 V14 V15 V16 V17].
  assert (φ ⊆ <[b := n]> φ) as Hsub by by apply insert_subseteq. destruct (wf_obj g Hwf _ _ Eb) as (_ & _ & Hl & _).
  assert (∀ a, ¬ (ys g <= a < ye g) → words s' !! a = words s !! a) as Hag.
  { intros a Ha. pose proof (young_addr b o 0 Eb ltac:(lia)). pose proof (young_addr b o (-1) Eb ltac:(lia)). cbn. rewrite !lookup_insert_ne by lia. done. }
  assert (∀ b' o' i, Y g !! b' = Some o' → b' ≠ b ∨ 1 <= i → -1 <= i < o_len o' → words s' !! (b' + 8 * i) = words s !! (b' + 8 * i)) as Hyo.
  { intros b' o' i Eb' Hne Hi. assert (b' + 8 * i ≠ b ∧ b' + 8 * i ≠ b - 8) as [N1 N2].
    { destruct (Z.eq_dec b' b) as [->|Hn]; [lia|]. pose proof (wf_disj g Hwf _ _ _ _ Eb' Eb Hn). lia. }
    cbn. by rewrite !lookup_insert_ne. }
  pose proof (young_client b o 0 Eb ltac:(lia)) as C0. pose proof (young_client b o (-1) Eb ltac:(lia)) as C1. rewrite Z.add_0_r in C0. replace (b + 8 * -1) with (b - 8) in C1 by lia.
  assert (is_Some (words s !! b)) as S0 by (apply V15, C0). assert (is_Some (words s !! (b - 8))) as S1 by (apply V15, C1).
  assert (is_Some (<[b - 8 := 0]> (words s) !! b)) as S2 by (rewrite lookup_insert_ne by lia; done).
  assert (major_ok s' ∧ (∀ a, owned s' a ↔ owned s a) ∧ (∀ f, Is_in_value_area s' f = Is_in_value_area s f)) as (K1 & K2 & K3).
  { destruct (major_store s (b - 8) 0 V3 S1 (V16 _ C1)) as (J1 & J2 & J3).
    destruct (major_store (set_words (<[b - 8 := 0]> (words s)) s) b n J1 S2) as (L1 & L2 & L3); [rewrite J2; by apply V16|]. split_and!; [done|..].
    - intros a. unfold s'. rewrite <- J2. apply L2.
    - intros f. unfold s'. rewrite <- J3. apply L3. }
  assert (∀ a, is_Some (words s' !! a) ↔ is_Some (words s !! a)) as Hmap by (intros a; cbn; by rewrite !is_Some_store).
  assert (∀ len tag n', 1 <= len → fresh_block s n' len tag → fresh_block s' n' len tag) as Hfresh.
  { intros len tag n' Hlen ((h & Hh & Hsz) & Hm & F3 & F4 & F5 & F6 & F7). split_and!; try done; [exists h; rewrite Hag by lia; done|intros i Hi; apply Hmap, Hm, Hi|].
    intros a Ha Hs. rewrite K2. by apply F7, Hmap. }
  assert (b ∉ todo) as Hnt by (intros Hb; destruct (todo_dom s φ todo H D b HI Hb); congruence).
  assert (∀ b' n' o' i x, in_new (<[b := n]> φ) b' n' o' i x → ¬ cells_of n o (n' + 8 * Z.of_nat i) → in_new φ b' n' o' i x) as Hin.
  { intros b' n' o' i x (E1 & E2 & E3) Hc. destruct (decide (b' = b)) as [->|Hne]; [|rewrite lookup_insert_ne in E1 by done; done].
    exfalso. apply Hc. rewrite lookup_insert_eq in E1. injection E1 as <-. rewrite Eb in E2. injection E2 as <-. exists i. split; [by eapply lookup_lt_Some|done]. }
  split; try done.
  - intros f Hf. rewrite K3. by apply V4.
  - intros b' n' E. destruct (decide (b' = b)) as [->|Hne].
    + rewrite lookup_insert_eq in E. injection E as <-. exists o. split_and!; try done. by apply Hfresh; [lia|].
    + rewrite lookup_insert_ne in E by done. destruct (V5 b' n' E) as (o' & E2 & ? & ? & ?). exists o'. split_and!; try done. apply Hfresh; [|done].
      destruct (wf_obj g Hwf _ _ E2) as (_ & _ & ? & _). lia.
  - intros b1 n1 o1 b2 n2 o2 E1 Eo1 E2 Eo2 Hne. destruct (decide (b1 = b)) as [->|Hn1]; [|destruct (decide (b2 = b)) as [->|Hn2]].
    + rewrite lookup_insert_eq in E1. injection E1 as <-. rewrite lookup_insert_ne in E2 by done. rewrite Eb in Eo1. injection Eo1 as <-. by eapply Hap.
    + rewrite lookup_insert_eq in E2. injection E2 as <-. rewrite lookup_insert_ne in E1 by done. rewrite Eb in Eo2. injection Eo2 as <-.
      destruct (Hap _ _ _ E1 Eo1); [right|left]; lia.
    + rewrite !lookup_insert_ne in E1, E2 by done. by eapply V6.
  - intros b' o' Eb' E. destruct (decide (b' = b)) as [->|Hne]; [by rewrite lookup_insert_eq in E|]. rewrite lookup_insert_ne in E by done.
    destruct (V7 b' o' Eb' E) as [A1 A2]. destruct (wf_obj g Hwf _ _ Eb') as (_ & _ & Hl' & _). split.
    + replace (b' - 8) with (b' + 8 * -1) by lia. rewrite (Hyo b' o') by (done || lia || by left). by replace (b' + 8 * -1) with (b' - 8) by lia.
    + intros x Hx. replace b' with (b' + 8 * 0) by lia. rewrite (Hyo b' o') by (done || lia || by left). rewrite Z.add_0_r. by apply A2.
  - intros b' n' E. destruct (decide (b' = b)) as [->|Hne].
    + rewrite lookup_insert_eq in E. injection E as <-. cbn. rewrite lookup_insert_ne, !lookup_insert_eq by lia. done.
    + rewrite lookup_insert_ne in E by done. destruct (V5 b' n' E) as (o' & E2 & _). destruct (V8 b' n' E) as [A1 A2]. destruct (wf_obj g Hwf _ _ E2) as (_ & _ & Hl' & _). split.
      * replace (b' - 8) with (b' + 8 * -1) by lia. rewrite (Hyo b' o') by (done || lia || by left). by replace (b' + 8 * -1) with (b' - 8) by lia.
      * replace b' with (b' + 8 * 0) at 1 by lia. rewrite (Hyo b' o') by (done || lia || by left). by rewrite Z.add_0_r.
  - intros b' o' i x E Hi Hx. pose proof (lookup_lt_Some _ _ _ Hx). rewrite (Hyo b' o') by (done || (unfold o_len; lia) || (right; lia)). by eapply V9.
  - intros b' n' o' i x Hn HH Ht. assert (in_new φ b' n' o' i x) as Hn' by (apply Hin; [done|tauto]).
    destruct (new_cell s φ todo H D HI _ _ _ _ _ Hn') as (_ & _ & _ & _ & Hy'). rewrite Hag by done. eapply V10; [done|tauto|done].
  - intros b' n' o' i x Hn HH Ht Hb. assert (in_new φ b' n' o' i x) as Hn' by (apply Hin; [done|tauto]).
    destruct (new_cell s φ todo H D HI _ _ _ _ _ Hn') as (_ & _ & _ & _ & Hy'). rewrite Hag by done. destruct (V11 b' n' o' i x Hn' ltac:(tauto) Ht Hb) as (y & E1 & E2).
    exists y. split; [by eapply new_mono|done].
  - destruct V12 as (T1 & T2 & T3). split_and!; try done. apply (linked_mono _ φ); [done|]. eapply linked_ext; [exact T2|]. intros b' n' o' i x Hb' Hn.
    destruct (new_cell s φ todo H D HI _ _ _ _ _ Hn) as (_ & _ & _ & _ & Hy'). by apply Hag.
  - intros a Ha Hh. destruct (V13 a Ha ltac:(tauto)) as (v & E & Hv). exists v. split; [done|]. destruct (wf_cells g Hwf a Ha) as [Hc Hy']. rewrite (Hag a Hy').
    case_decide; [|done]. destruct (V15 a (proj1 Hc)) as [w Ew]. rewrite Ew in Hv |- *. symmetry. symmetry in Hv. by eapply new_mono.
  - intros a Hc Hy' Hn. rewrite Hag by done. by apply V14.
  - intros a Ha. by apply Hmap, V15.
  - intros a Ha. rewrite K2. by apply V16.
  - intros a [Ha|(i & Hi & ->)].
    + destruct (V17 a Ha) as [|(b' & n' & o' & i & x & (E1 & E2) & Hb & ->)]; [by left|right]. exists b', n', o', i, x. split_and!; try done. split; [by eapply lookup_weaken|done].
    + right. destruct (lookup_lt_is_Some_2 _ _ Hi) as [x Hx]. exists b, n, o, i, x. split_and!; try done. split_and!; try done. by rewrite lookup_insert_eq.
Qed.

Lemma fresh_same s s' n len tag : words s' = words s → (∀ a, owned s' a ↔ owned s a) → fresh_block s n len tag → fresh_block s' n len tag.
Proof.
  intros Ew Ko (F1 & F2 & F3 & F4 & F5 & F6 & F7). unfold fresh_block. rewrite Ew. split_and!; try done. intros a Ha Hs. rewrite Ko. by apply F7.
Qed.

(** Holes that have been filled. *)
Lemma inv_close s φ todo (H H' : Z → Prop) D D' : inv s φ todo H D → (∀ a, H' a → H a) →
  (∀ b n o i x, in_new φ b n o i x → ¬ H' (n + 8 * Z.of_nat i) → ¬ H (n + 8 * Z.of_nat i) ∨
     (if No_scan_tag <=? o_tag o then words s !! (n + 8 * Z.of_nat i) = Some x else ∃ y, new g φ x = Some y ∧ words s !! (n + 8 * Z.of_nat i) = Some y)) →
  (∀ a, a ∈ cells g → ¬ H' a → (¬ H a ∧ (a ∈ D' ↔ a ∈ D)) ∨ (a ∈ D' ∧ ∃ v, m0 g !! a = Some v ∧ words s !! a = new g φ v)) →
  inv s φ todo H' D'.
Proof.
  intros HI Hsub Hn Hc. pose proof HI as [V1 V2 V3 V4 V5 V6 V7 V8 V9 V10 V11 V12 V13 V14 V15 V16 V17]. split; try done.
  - intros b n o i x Hin Hh Ht. destruct (Hn b n o i x Hin Hh) as [|Hx]; [by eapply V10|]. by rewrite (proj2 (Z.leb_le _ _) Ht) in Hx.
  - intros b n o i x Hin Hh Ht Hb. destruct (Hn b n o i x Hin Hh) as [|Hx]; [by eapply V11|]. by rewrite (proj2 (Z.leb_gt _ _) Ht) in Hx.
  - intros a Ha Hh. destruct (Hc a Ha Hh) as [[HH Hi]|(HD' & v & Ev & Hv)].
    + destruct (V13 a Ha HH) as (v & Ev & Hv). exists v. split; [done|]. destruct (decide (a ∈ D')), (decide (a ∈ D)); tauto.
    + exists v. by rewrite decide_True.
  - intros a Ha. by apply V17, Hsub.
Qed.

(** Putting a copied block on the list, and taking it off. *)
Lemma inv_push s φ todo H D b n o x : inv s φ todo (λ a, H a ∨ cells_of n o a) D → φ !! b = Some n → Y g !! b = Some o → b ∉ todo →
  o_tag o < Infix_tag → (1 < length (o_fields o))%nat → (∀ a, cells_of n o a → ¬ H a) →
  o_fields o !! 0%nat = Some x → words s !! n = Some x → words s !! (n + 8) = Some (oldify_todo_list s) →
  inv (set_todo b s) φ (b :: todo) H D.
Proof.
  intros HI E1 E2 Hb Ht Hl HH Ex M0 M1. pose proof HI as [V1 V2 V3 V4 V5 V6 V7 V8 V9 V10 V11 V12 V13 V14 V15 V16 V17].
  destruct (major_frame s (set_todo b s)) as (K1 & K2 & K3); try done.
  assert (∀ b' n' o' i y, in_new φ b' n' o' i y → b' ≠ b → ¬ cells_of n o (n' + 8 * Z.of_nat i)) as Hcell.
  { intros b' n' o' i y Hn Hne (j & Hj & E). destruct (lookup_lt_is_Some_2 _ _ Hj) as [z Hz].
    destruct (new_cell_inj s φ todo _ D HI _ _ _ _ _ b n o j z Hn (conj E1 (conj E2 Hz)) E) as [-> _]. done. }
  split; try done.
  - intros f Hf. rewrite K3. by apply V4.
  - intros b' n' E. destruct (V5 b' n' E) as (o' & A1 & A2 & A3 & A4). exists o'. split_and!; try done. by apply (fresh_same s).
  - intros b' n' o' i y Hn Hh Hs. destruct (decide (b' = b)) as [->|Hne].
    + destruct Hn as (_ & E2' & _). rewrite E2 in E2'. injection E2' as <-. unfold No_scan_tag, Infix_tag in *. lia.
    + eapply V10; [done| |done]. intros [|Hc]; [done|]. by apply (Hcell b' n' o' i y).
  - intros b' n' o' i y Hn Hh Hs Hb'. apply not_elem_of_cons in Hb' as [Hne Hb']. eapply V11; [done| |done..]. intros [|Hc]; [done|]. by apply (Hcell b' n' o' i y).
  - destruct V12 as (T1 & T2 & T3). split_and!; [done| |by constructor]. split; [|done]. exists n, o, x. rewrite <- T1. done.
  - intros a Ha Hh. apply V13; [done|]. intros [|(j & Hj & ->)]; [done|]. destruct (lookup_lt_is_Some_2 _ _ Hj) as [z Hz].
    destruct (new_cell s φ todo _ D HI b n o j z (conj E1 (conj E2 Hz))) as (_ & _ & Hcl & _). by apply Hcl, (wf_cells g Hwf).
  - intros a Ha. rewrite K2. by apply V16.
  - intros a Ha. destruct (V17 a (or_introl Ha)) as [|(b' & n' & o' & i & y & Hn & Hb' & ->)]; [by left|right]. exists b', n', o', i, y. split_and!; try done.
    apply not_elem_of_cons. split; [|done]. intros ->. apply (HH (n' + 8 * Z.of_nat i)); [|done]. destruct Hn as (E1' & E2' & E3). rewrite E1 in E1'. injection E1' as <-.
    rewrite E2 in E2'. injection E2' as <-. exists i. split; [by eapply lookup_lt_Some|done].
Qed.

Lemma inv_pop s φ todo b n o D : inv s φ (b :: todo) (λ _, False) D → φ !! b = Some n → Y g !! b = Some o →
  inv (set_todo (todo_head todo) s) φ todo (cells_of n o) D.
Proof.
  intros HI E1 E2. pose proof HI as [V1 V2 V3 V4 V5 V6 V7 V8 V9 V10 V11 V12 V13 V14 V15 V16 V17].
  destruct (major_frame s (set_todo (todo_head todo) s)) as (K1 & K2 & K3); try done. destruct V12 as (T1 & [T2 T2'] & T3). apply NoDup_cons in T3 as [T3 T3'].
  split; try done.
  - intros f Hf. rewrite K3. by apply V4.
  - intros b' n' E. destruct (V5 b' n' E) as (o' & A1 & A2 & A3 & A4). exists o'. split_and!; try done. by apply (fresh_same s).
  - intros b' n' o' i y Hn Hh. eapply V10; [done|tauto].
  - intros b' n' o' i y Hn Hh Hs Hb'. eapply V11; [done|tauto|done|]. apply not_elem_of_cons. split; [|done]. intros ->. apply Hh. destruct Hn as (E1' & E2' & E3).
    rewrite E1 in E1'. injection E1' as <-. rewrite E2 in E2'. injection E2' as <-. exists i. split; [by eapply lookup_lt_Some|done].
  - intros a Ha _. apply V13; [done|tauto].
  - intros a Ha. rewrite K2. by apply V16.
  - intros a (i & Hi & ->). right. destruct (lookup_lt_is_Some_2 _ _ Hi) as [x Hx]. by exists b, n, o, i, x.
Qed.

(** A store in a block that is not yet recorded. *)
Lemma inv_store_fresh s φ todo H D n len tag i v : inv s φ todo H D → fresh_block s n len tag → 0 <= i < len →
  (∀ b n' o', φ !! b = Some n' → Y g !! b = Some o' → apart n len n' (o_len o')) →
  let s' := set_words (<[n + 8 * i := v]> (words s)) s in inv s' φ todo H D ∧ fresh_block s' n len tag.
Proof.
  intros HI ((h & Hh & Hsz) & Hm & F3 & F4 & F5 & F6 & F7) Hi Hap s'. assert (in_block n len (n + 8 * i)) as Hib by (exists i; lia). destruct (F7 _ Hib (Hm i Hi)) as [Hcl Ho].
  destruct (major_store s (n + 8 * i) v (v_ok _ _ _ _ _ HI) (Hm i Hi) Ho) as (K1 & K2 & K3). fold s' in K1, K2, K3. split.
  - apply (inv_frame s); try done; cbn.
    + intros a. rewrite is_Some_store; [done|]. by apply Hm.
    + intros a Ha Hn. by rewrite K2.
    + intros a Hg _ _ _. rewrite lookup_insert_ne; [done|]. intros <-. destruct Hg as [|(b & n' & o' & E1 & E2 & (j & Hj & E))]; [done|].
      pose proof (Hap _ _ _ E1 E2). unfold apart in *. lia.
  - assert (∀ a, is_Some (words s' !! a) ↔ is_Some (words s !! a)) as Hmap by (intros a; cbn; apply is_Some_store; by apply Hm).
    split_and!; try done.
    + exists h. cbn. rewrite lookup_insert_ne by lia. done.
    + intros j Hj. apply Hmap, Hm, Hj.
    + intros a Ha Hs. rewrite K2. by apply F7, Hmap.
Qed.

Lemma size_le s φ todo H D : inv s φ todo H D → (base.size φ <= base.size (Y g))%nat.
Proof.
  intros HI. rewrite <- !size_dom. apply subseteq_size. intros b Hb. apply elem_of_dom in Hb as [n Hn]. destruct (v_dom _ _ _ _ _ HI b n Hn) as (o & E & _). apply elem_of_dom. by exists o.
Qed.

(** What a call to [caml_oldify_one_r] on [v] and [p] achieves. *)
Definition moved (φ : gmap Z Z) (todo : list Z) (H : Z → Prop) (D : list Z) (p v : Z) (s s' : gc X) : Prop :=
  ∃ φ' todo' y, inv s' φ' todo' H D ∧ φ ⊆ φ' ∧ new g φ' v = Some y ∧ words s' !! p = Some y ∧
    (∀ a, H a → a ≠ p → words s' !! a = words s !! a) ∧ same s s' ∧ (length todo' + base.size φ <= length todo + base.size φ')%nat.

(** Allocating the copy of [b] and recording it. *)
Definition reached (v : Z) : Prop := yv g (skip g v) = true → live_block g (target g v).

Lemma Tag_range h : 0 <= Tag_hd h < 256.
Proof. unfold Tag_hd. change 255 with (2 ^ 8 - 1). rewrite land_low by lia. by apply Z.mod_pos_bound. Qed.

Lemma live_field_block b o x : live_block g b → Y g !! b = Some o → o_tag o < No_scan_tag → x ∈ o_fields o → reached x.
Proof. intros (v & Hv & Hy & Ht) Eb Htag Hx Hyx. exists x. split_and!; [|done..]. by eapply live_field. Qed.

Section One.
Context (s : gc X) (φ : gmap Z Z) (todo : list Z) (H : Z → Prop) (D : list Z) (HI : inv s φ todo H D) (p : Z) (Hp : H p).

Lemma young_test v : Is_block v && Is_young s v = yv g v.
Proof. unfold Is_young, yv. by destruct (v_young _ _ _ _ _ HI) as [-> ->]. Qed.

Lemma new_forwarded φ' b n o : φ' !! b = Some n → Y g !! b = Some o → skip g b = b → new g φ' b = Some n.
Proof.
  intros E1 E2 Hk. unfold new. rewrite Hk. unfold move. rewrite (obj_young g Hwf _ _ E2), (obj_tag g Hwf _ _ E2).
  destruct (wf_obj g Hwf _ _ E2) as (_ & _ & _ & _ & Hn & _). by rewrite (proj2 (Z.eqb_neq _ _) Hn).
Qed.

(** Storing the new value of [v], already known. *)
Lemma store_moved v y : new g φ v = Some y → runs (st p y) (λ _ s', moved φ todo H D p v s s') s.
Proof.
  intros Hy. apply runs_st; [apply (h_mapped _ _ _ _ (hole_facts s φ todo H D HI p Hp))|]. exists φ, todo, y. split_and!; try done.
  - by apply inv_store.
  - apply lookup_insert_eq.
  - intros a _ Hne. by apply lookup_insert_ne.
Qed.

(** The stores that record a copy. *)
Lemma copy_stores s1 b o n : inv s1 φ todo H D → Y g !! b = Some o → φ !! b = None → skip g b = b → live_block g b →
  fresh_block s1 n (o_len o) (o_tag o) → (∀ b' n' o', φ !! b' = Some n' → Y g !! b' = Some o' → apart n (o_len o) n' (o_len o')) →
  let s2 := set_words (<[b := n]> (<[b - 8 := 0]> (<[p := n]> (words s1)))) s1 in
  inv s2 (<[b := n]> φ) todo (λ a, H a ∨ cells_of n o a) D ∧ words s2 !! p = Some n ∧ (∀ a, H a → a ≠ p → words s2 !! a = words s1 !! a) ∧
  words s1 !! (b - 8) = Some (o_hd o) ∧ is_Some (words s1 !! b) ∧ p ≠ b ∧ p ≠ b - 8 ∧ (∀ x, o_fields o !! 0%nat = Some x → words s1 !! b = Some x) ∧
  fresh_block (set_words (<[p := n]> (words s1)) s1) n (o_len o) (o_tag o).
Proof.
  intros HI1 Eb Ef Hk Hlv Hfr Hap s2. destruct (wf_obj g Hwf _ _ Eb) as (_ & _ & Hl & _).
  pose proof (young_addr b o 0 Eb ltac:(lia)) as Y0. pose proof (young_addr b o (-1) Eb ltac:(lia)) as Y1.
  destruct (v_intact _ _ _ _ _ HI1 b o Eb Ef) as [I1 I2]. destruct (lookup_lt_is_Some_2 (o_fields o) 0%nat) as [x Hx]; [unfold o_len in Hl; lia|].
  assert (∀ a, H a → a ≠ b ∧ a ≠ b - 8) as Hne by (intros a Ha; pose proof (h_young _ _ _ _ (hole_facts s1 φ todo H D HI1 a Ha)); lia).
  pose proof (hole_facts s1 φ todo H D HI1 p Hp) as HF. pose proof (inv_store s1 φ todo H D p n HI1 Hp) as HI1'.
  assert (fresh_block (set_words (<[p := n]> (words s1)) s1) n (o_len o) (o_tag o)) as Hfr'.
  { destruct Hfr as ((h & Hh & Hsz) & F2 & F3 & F4 & F5 & F6 & F7). destruct (major_store s1 p n (v_ok _ _ _ _ _ HI1) (h_mapped _ _ _ _ HF) (h_owned _ _ _ _ HF)) as (_ & K2 & _).
    split_and!; try done.
    - exists h. cbn. destruct (decide (p = n - 8)) as [E|Hn]; [|by rewrite lookup_insert_ne]. exfalso.
      destruct (F7 (n - 8)) as [F _]; [exists (-1); lia|by rewrite Hh|]. rewrite <- E in F. destruct (v_holes _ _ _ _ _ HI1 p Hp) as [Hc|(b' & n' & o' & i & y & Hn & _ & E')].
      + by apply F, (wf_cells g Hwf).
      + destruct (new_cell s1 φ todo H D HI1 _ _ _ _ _ Hn) as ((j & Hj & Ej) & _). destruct Hn as (E1 & E2 & _). pose proof (Hap _ _ _ E1 E2). unfold apart in *. lia.
    - intros i Hi. cbn. apply is_Some_store; [apply HF|by apply F2].
    - intros a Ha Hs. rewrite K2. apply F7; [done|]. cbn in Hs. by apply is_Some_store in Hs; [|apply HF]. }
  destruct (Hne p Hp) as [N1 N2]. split_and!; try done.
  - exact (inv_register (set_words (<[p := n]> (words s1)) s1) φ todo H D b o n HI1' Eb Ef Hk Hlv Hfr' Hap).
  - cbn. rewrite !lookup_insert_ne by done. apply lookup_insert_eq.
  - intros a Ha Hap'. destruct (Hne a Ha) as [M1 M2]. cbn. by rewrite !lookup_insert_ne.
  - rewrite (I2 x Hx). done.
Qed.

(** The copy of a block that is scanned, up to its fields. *)
Lemma copy_block (k : Z → Z → GM X unit) b o x Q : Y g !! b = Some o → φ !! b = None → skip g b = b → live_block g b → o_fields o !! 0%nat = Some x →
  (∀ n s2, inv s2 (<[b := n]> φ) todo (λ a, H a ∨ cells_of n o a) D → words s2 !! p = Some n → (∀ a, H a → a ≠ p → words s2 !! a = words s !! a) →
     same s s2 → oldify_todo_list s2 = oldify_todo_list s → (∀ a, cells_of n o a → ¬ H a) → b ∉ todo → runs (k n x) Q s2) →
  runs (let* result := caml_alloc_shr_r (o_len o) (o_tag o) in
        st p result ;;;
        let* field0 := ld (Field b 0) in
        st (Hd_val b) 0 ;;;
        st (Field b 0) result ;;;
        k result field0) Q s.
Proof.
  intros Eb Ef Hk Hlv Hx Hcont. destruct (wf_obj g Hwf _ _ Eb) as (_ & _ & Hl & _). apply gc_bind.
  eapply gc_conseq; [apply (inv_alloc s φ todo H D); [done|lia|apply Tag_range]|]. intros n s1 (HI1 & Hfr & Hsame & Hap & Hholes).
  destruct (copy_stores s1 b o n HI1 Eb Ef Hk Hlv Hfr Hap) as (HI2 & Hw & Hoth & I1 & I2 & N1 & N2 & I3 & _). cbv zeta in HI2.
  assert (Field b 0 = b) as F0 by (unfold Field; lia).
  apply gc_bind, runs_st; [apply (h_mapped _ _ _ _ (hole_facts s1 φ todo H D HI1 p Hp))|]. cbn [words set_words].
  apply gc_bind, (runs_ld _ x); [rewrite F0; cbn; rewrite lookup_insert_ne by done; by apply I3|].
  apply gc_bind, runs_st; [unfold Hd_val; cbn; rewrite lookup_insert_ne by done; by rewrite I1|].
  apply gc_bind, runs_st; [rewrite F0; unfold Hd_val; cbn; rewrite !lookup_insert_ne by (done || lia); done|]. cbn [words set_words].
  rewrite F0. unfold Hd_val. apply Hcont.
  - exact HI2.
  - exact Hw.
  - intros a Ha Hne. rewrite <- (proj1 (Hholes a Ha)). by apply Hoth.
  - exact Hsame.
  - cbn. transitivity (todo_head todo); [|symmetry]; eapply v_todo; [exact HI1|exact HI].
  - intros a (i & Hi & ->) Ha. apply (proj2 (Hholes _ Ha)). exists (Z.of_nat i). unfold o_len. lia.
  - intros Hb. destruct (todo_dom s φ todo H D b HI Hb). congruence.
Qed.
End One.

(** A block of several fields is put on the list. *)
Lemma push_block s φ todo H D p b o x : inv s φ todo H D → H p → Y g !! b = Some o → φ !! b = None → skip g b = b → live_block g b → o_fields o !! 0%nat = Some x →
  o_tag o < Infix_tag → (1 < length (o_fields o))%nat →
  runs (let* result := caml_alloc_shr_r (o_len o) (o_tag o) in
        st p result ;;;
        let* field0 := ld (Field b 0) in
        st (Hd_val b) 0 ;;;
        st (Field b 0) result ;;;
        (st (Field result 0) field0 ;;;
         let* s := mget in
         st (Field result 1) (oldify_todo_list s) ;;;
         mmodify (set_todo b))) (λ _ s', moved φ todo H D p b s s') s.
Proof.
  intros HI Hp Eb Ef Hk Hlv Hx Ht Hl.
  apply (copy_block s φ todo H D HI p Hp (λ result field0, st (Field result 0) field0 ;;; let* s := mget in st (Field result 1) (oldify_todo_list s) ;;; mmodify (set_todo b)) b o x); try done.
  intros n s2 HI2 Hw Hoth Hsame Htl HnH Hnt. assert (Field n 0 = n) as F0 by (unfold Field; lia). assert (Field n 1 = n + 8) as F1 by (unfold Field; lia).
  assert (cells_of n o n) as C0 by (exists 0%nat; lia). assert (cells_of n o (n + 8)) as C1 by (exists 1%nat; lia). rewrite F0, F1.
  pose proof (inv_store s2 _ _ _ _ n x HI2 (or_intror C0)) as HI3. set (s3 := set_words (<[n := x]> (words s2)) s2) in *.
  apply gc_bind, runs_st; [apply (h_mapped _ _ _ _ (hole_facts s2 _ _ _ _ HI2 n (or_intror C0)))|]. fold s3. apply gc_bind, runs_get.
  pose proof (inv_store s3 _ _ _ _ (n + 8) (oldify_todo_list s3) HI3 (or_intror C1)) as HI4. set (s4 := set_words (<[n + 8 := oldify_todo_list s3]> (words s3)) s3) in *.
  apply gc_bind, runs_st; [apply (h_mapped _ _ _ _ (hole_facts s3 _ _ _ _ HI3 (n + 8) (or_intror C1)))|]. fold s4. apply runs_modify.
  assert (∀ a, H a → words s4 !! a = words s2 !! a) as Hkeep.
  { intros a Ha. cbn. rewrite !lookup_insert_ne; [done|..]; intros <-; [by apply (HnH n)|by apply (HnH (n + 8))]. }
  exists (<[b := n]> φ), (b :: todo), n. split_and!.
  - apply (inv_push s4 _ todo H D b n o x); try done; [by rewrite lookup_insert_eq| |].
    + cbn. rewrite lookup_insert_ne by lia. apply lookup_insert_eq.
    + cbn. apply lookup_insert_eq.
  - by apply insert_subseteq.
  - eapply new_forwarded; [by rewrite lookup_insert_eq|done..].
  - change (words s4 !! p = Some n). by rewrite Hkeep.
  - intros a Ha Hne. change (words s4 !! a = words s !! a). rewrite Hkeep by done. by apply Hoth.
  - done.
  - cbn [length]. rewrite map_size_insert_None by done. lia.
Qed.

(** A block of one field: its field is moved at once. *)
Lemma finish_single s s2 s' φ todo H D p b n o x : Y g !! b = Some o → φ !! b = None → skip g b = b → o_tag o < No_scan_tag → o_fields o = [x] → H p →
  words s2 !! p = Some n → (∀ a, H a → a ≠ p → words s2 !! a = words s !! a) → same s s2 → (∀ a, cells_of n o a → ¬ H a) →
  moved (<[b := n]> φ) todo (λ a, H a ∨ cells_of n o a) D n x s2 s' → moved φ todo H D p b s s'.
Proof.
  intros Eb Ef Hk Ht Ex Hp Hw Hoth Hsame HnH (φ' & todo' & y & HI & Hsub & Hy & Hn & Hkeep & Hs & Hsz).
  assert (φ' !! b = Some n) as Eb' by (eapply lookup_weaken; [|exact Hsub]; apply lookup_insert_eq).
  assert (cells_of n o n) as C0 by (exists 0%nat; rewrite Ex; cbn; lia). assert (∀ a, H a → a ≠ n) as Hne by (intros a Ha ->; by apply (HnH n)).
  exists φ', todo', n. split_and!.
  - eapply inv_close; [exact HI|by left| |].
    + intros b' n' o' i z Hnew Hh. destruct (decide (n' + 8 * Z.of_nat i = n)) as [E|Hd].
      * right. destruct (new_cell_inj s' _ _ _ _ HI b' n' o' i z b n o 0%nat x Hnew) as [-> ->]; [split_and!; [done..|by rewrite Ex]|lia|]. destruct Hnew as (_ & Eo & Ez). rewrite Eb in Eo. injection Eo as <-.
        rewrite Ex in Ez. injection Ez as <-. rewrite (proj2 (Z.leb_gt _ _) Ht). exists y. rewrite E. done.
      * left. intros [|(j & Hj & E)]; [done|]. rewrite Ex in Hj. cbn in Hj. lia.
    + intros a Ha Hh. left. split; [|done]. intros [|(j & Hj & ->)]; [done|]. destruct (lookup_lt_is_Some_2 _ _ Hj) as [z Hz].
      destruct (new_cell s' _ _ _ _ HI b n o j z (conj Eb' (conj Eb Hz))) as (_ & _ & Hcl & _). by apply Hcl, (wf_cells g Hwf).
  - transitivity (<[b := n]> φ); [by apply insert_subseteq|done].
  - by eapply new_forwarded.
  - rewrite Hkeep; [done|by left|by apply Hne].
  - intros a Ha Hap. rewrite Hkeep; [by apply Hoth|by left|by apply Hne].
  - by eapply same_trans.
  - rewrite map_size_insert_None in Hsz by done. lia.
Qed.

(** A block that is not scanned is copied word by word. *)
Lemma copy_fields_spec b o n φ todo H D : Y g !! b = Some o → φ !! b = None →
  (∀ b' n' o', φ !! b' = Some n' → Y g !! b' = Some o' → apart n (o_len o) n' (o_len o')) → (∀ a, cells_of n o a → ¬ H a) →
  ∀ k i s1, (i + k = length (o_fields o))%nat → inv s1 φ todo H D → fresh_block s1 n (o_len o) (o_tag o) →
  (∀ j x, (j < i)%nat → o_fields o !! j = Some x → words s1 !! (n + 8 * Z.of_nat j) = Some x) →
  runs (copy_fields k (Z.of_nat i) n b) (λ _ s2, inv s2 φ todo H D ∧ fresh_block s2 n (o_len o) (o_tag o) ∧ same s1 s2 ∧
    (∀ a, H a → words s2 !! a = words s1 !! a) ∧ ∀ j x, o_fields o !! j = Some x → words s2 !! (n + 8 * Z.of_nat j) = Some x) s1.
Proof.
  intros Eb Ef Hap HnH k. induction k as [|k IH]; intros i s1 Hik HI Hfr Hdone; cbn [copy_fields].
  { apply runs_ret. split_and!; try done. intros j x Hx. apply Hdone; [|done]. apply lookup_lt_Some in Hx. lia. }
  destruct (lookup_lt_is_Some_2 (o_fields o) i) as [x Hx]; [lia|].
  assert (words s1 !! Field b (Z.of_nat i) = Some x) as Hld.
  { unfold Field. destruct i as [|i]; [|eapply v_tail; [exact HI|done|lia|done]]. destruct (v_intact _ _ _ _ _ HI b o Eb Ef) as [_ Hi]. rewrite Z.add_0_r. by apply Hi. }
  apply gc_bind, (runs_ld _ x); [exact Hld|]. assert (0 <= Z.of_nat i < o_len o) as Hi by (unfold o_len; lia).
  apply gc_bind, runs_st; [by apply Hfr|]. unfold Field. destruct (inv_store_fresh s1 φ todo H D n _ _ (Z.of_nat i) x HI Hfr Hi Hap) as [HI2 Hfr2].
  replace (Z.of_nat i + 1) with (Z.of_nat (S i)) by lia. eapply gc_conseq; [apply IH; [lia|exact HI2|exact Hfr2|]|].
  - intros j z Hj Hz. cbn. destruct (decide (j = i)) as [->|Hne]; [rewrite lookup_insert_eq; congruence|]. rewrite lookup_insert_ne by lia. apply Hdone; [lia|done].
  - cbn. intros _ s2 (A1 & A2 & A3 & A4 & A5). split_and!; try done. intros a Ha. rewrite A4 by done. apply lookup_insert_ne. intros <-.
    apply (HnH (n + 8 * Z.of_nat i)); [|done]. exists i. lia.
Qed.

Lemma copy_raw s φ todo H D p b o : inv s φ todo H D → H p → Y g !! b = Some o → φ !! b = None → skip g b = b → live_block g b → No_scan_tag <= o_tag o →
  runs (let* result := caml_alloc_shr_r (o_len o) (o_tag o) in
        copy_fields (Z.to_nat (o_len o)) 0 result b ;;;
        st (Hd_val b) 0 ;;;
        st (Field b 0) result ;;;
        st p result) (λ _ s', moved φ todo H D p b s s') s.
Proof.
  intros HI Hp Eb Ef Hk Hlv Ht. destruct (wf_obj g Hwf _ _ Eb) as (_ & _ & Hl & _). apply gc_bind.
  eapply gc_conseq; [apply (inv_alloc s φ todo H D); [done|lia|apply Tag_range]|]. intros n s1 (HI1 & Hfr & Hsame & Hap & Hholes).
  assert (∀ a, cells_of n o a → ¬ H a) as HnH by (intros a (i & Hi & ->) Ha; apply (proj2 (Hholes _ Ha)); exists (Z.of_nat i); unfold o_len; lia).
  apply gc_bind. eapply gc_conseq; [apply (copy_fields_spec b o n φ todo H D Eb Ef Hap HnH _ 0%nat s1); [unfold o_len; lia|done|done|intros; lia]|].
  intros _ s2 (HI2 & Hfr2 & Hsame2 & Hk2 & Hcopied). destruct (copy_stores φ todo H D p Hp s2 b o n HI2 Eb Ef Hk Hlv Hfr2 Hap) as (_ & _ & _ & I1 & I2 & N1 & N2 & _).
  assert (Field b 0 = b) as F0 by (unfold Field; lia). rewrite F0. unfold Hd_val.
  pose proof (inv_register s2 φ todo H D b o n HI2 Eb Ef Hk Hlv Hfr2 Hap) as HI3. cbv zeta in HI3.
  apply gc_bind, runs_st; [by rewrite I1|]. apply gc_bind, runs_st; [cbn; rewrite lookup_insert_ne by lia; done|]. cbn [words set_words].
  set (s3 := set_words (<[b := n]> (<[b - 8 := 0]> (words s2))) s2) in *. change (runs (st p n) (λ _ s', moved φ todo H D p b s s') s3).
  apply runs_st; [apply (h_mapped _ _ _ _ (hole_facts s3 _ _ _ _ HI3 p (or_introl Hp)))|].
  pose proof (inv_store s3 _ _ _ _ p n HI3 (or_introl Hp)) as HI4. set (s4 := set_words (<[p := n]> (words s3)) s3) in *.
  pose proof (young_addr b o 0 Eb ltac:(lia)) as Y0. pose proof (young_addr b o (-1) Eb ltac:(lia)) as Y1.
  assert (∀ a, ¬ (ys g <= a < ye g) → a ≠ p → words s4 !! a = words s2 !! a) as Hkeep by (intros a Ha Hn; cbn; rewrite !lookup_insert_ne by lia; done).
  assert ((<[b := n]> φ) !! b = Some n) as En by apply lookup_insert_eq.
  exists (<[b := n]> φ), todo, n. split_and!.
  - eapply inv_close; [exact HI4|by left| |].
    + intros b' n' o' i z Hnew Hh. destruct (decide (b' = b)) as [->|Hd].
      * right. pose proof (new_cell s4 _ _ _ _ HI4 _ _ _ _ _ Hnew) as (_ & _ & _ & _ & Hy'). destruct Hnew as (E1 & Eo & Ez). rewrite Eb in Eo. injection Eo as <-. rewrite En in E1. injection E1 as <-.
        rewrite (proj2 (Z.leb_le _ _) Ht). rewrite Hkeep; [by apply Hcopied|done|]. intros E. apply (HnH p); [|done]. exists i. split; [by eapply lookup_lt_Some|done].
      * left. intros [|(j & Hj & E)]; [done|]. destruct (lookup_lt_is_Some_2 _ _ Hj) as [z' Hz'].
        destruct (new_cell_inj s4 _ _ _ _ HI4 b' n' o' i z b n o j z' Hnew (conj En (conj Eb Hz')) E) as [-> _]. done.
    + intros a Ha Hh. left. split; [|done]. intros [|(j & Hj & ->)]; [done|]. destruct (lookup_lt_is_Some_2 _ _ Hj) as [z Hz].
      destruct (new_cell s4 _ _ _ _ HI4 b n o j z (conj En (conj Eb Hz))) as (_ & _ & Hcl & _). by apply Hcl, (wf_cells g Hwf).
  - by apply insert_subseteq.
  - by eapply new_forwarded.
  - cbn. apply lookup_insert_eq.
  - intros a Ha Hne. rewrite Hkeep; [|exact (h_young _ _ _ _ (hole_facts s1 _ _ _ _ HI1 a Ha))|done]. rewrite Hk2 by done. by apply Hholes.
  - eapply same_trans; [exact Hsame|exact Hsame2].
  - rewrite map_size_insert_None by done. lia.
Qed.

(** The header of an infix pointer is where it was. *)
Lemma infix_header s φ todo H D v : inv s φ todo H D → Y g !! v = None → vok g v → yv g v = true → words s !! Hd_val v = Some (hd0 g v) ∧ hd0 g v ≠ 0.
Proof.
  intros HI En Hv Hy. destruct (vok_cases g Hwf v Hv Hy) as [[o Ho]|(_ & Ht & o & k & Eo & _ & Hk & _ & Ev & Hf & _)]; [congruence|]. split.
  - unfold Hd_val. rewrite Ev. replace (block_of g v + 8 * Z.of_nat (S k) - 8) with (block_of g v + 8 * Z.of_nat k) by lia. rewrite <- Ev. by eapply v_tail.
  - intros E. unfold tag0 in Ht. rewrite E in Ht. done.
Qed.

Lemma forward_kept_spec s φ todo H D b o f : inv s φ todo H D → Y g !! b = Some o → o_tag o = Forward_tag → o_fields o = [f] →
  runs (forward_kept f) (λ k s', s' = s ∧ k = negb (shortcut g f)) s.
Proof.
  intros HI Eb Et Ef. pose proof (young_test s φ todo H D HI f) as Hyt. destruct (wf_fwd g Hwf b o f Eb Et) as [_ Hfw]; [by rewrite Ef|].
  assert (vok g f) as Hv by (eapply (wf_fields g Hwf b o); [done|rewrite Et; done|rewrite Ef; left]).
  assert (∀ t, special t = (t =? Forward_tag) || (t =? Lazy_tag) || (t =? Double_tag)) as Hsp by done.
  unfold forward_kept, shortcut. apply gc_bind, runs_get. destruct (Is_block f) eqn:Hb; [|apply gc_bind, runs_ret; done].
  cbn [andb] in Hyt. destruct (Is_young s f) eqn:Hy.
  - symmetry in Hyt. rewrite Hyt, orb_true_l, andb_true_l, negb_involutive.
    assert (∃ h, words s !! Hd_val f = Some h ∧ ∃ f', (if h =? 0 then words s !! Field f 0 else Some f) = Some f' ∧ ∃ h', words s !! Hd_val f' = Some h' ∧ Tag_hd h' = tag0 g f) as (h & E1 & f' & E2 & h' & E3 & E4).
    { destruct (vok_cases g Hwf f Hv Hyt) as [[o' Ho]|(En & _)].
      - destruct (φ !! f) as [n|] eqn:Ep.
        + destruct (v_moved _ _ _ _ _ HI f n Ep) as [M1 M2]. exists 0. split; [done|]. exists n. split; [unfold Field; cbn; by rewrite Z.add_0_r|].
          destruct (new_block s _ _ _ _ HI f n Ep) as (o1 & Eo1 & (h & Hh & _ & Ht) & _). rewrite Ho in Eo1. injection Eo1 as <-. exists h. split; [done|]. by rewrite (obj_tag g Hwf _ _ Ho).
        + destruct (v_intact _ _ _ _ _ HI f o' Ho Ep) as [M1 _]. exists (o_hd o'). split; [done|]. exists f. rewrite (proj2 (Z.eqb_neq _ _) (obj_hd_ne g Hwf _ _ Ho)). split; [done|].
          exists (o_hd o'). split; [done|]. by rewrite (obj_tag g Hwf _ _ Ho).
      - destruct (infix_header s φ todo H D f HI En Hv Hyt) as [M1 M2]. exists (hd0 g f). split; [done|]. exists f. rewrite (proj2 (Z.eqb_neq _ _) M2). split; [done|]. by exists (hd0 g f). }
    apply gc_bind, gc_bind, (runs_ld _ h); [done|]. apply gc_bind.
    assert (runs (if h =? 0 then ld (Field f 0) else mreturn f) (λ x s', x = f' ∧ s' = s) s) as Hr.
    { destruct (h =? 0); [by apply (runs_ld _ f')|]. injection E2 as <-. by apply runs_ret. }
    eapply gc_conseq; [exact Hr|]. intros ? ? [-> ->]. apply gc_bind, (runs_ld _ h'); [done|]. apply runs_ret. cbn. split; [done|]. by rewrite E4, Hsp.
  - rewrite <- Hyt. cbn [orb]. destruct (Hfw eq_refl ltac:(congruence)) as [Hm Hfh]. rewrite (v_area _ _ _ _ _ HI f Hm). destruct (inva g f) eqn:Ei; [|by apply gc_bind, runs_ret].
    destruct (Hfh eq_refl) as (Hc & Hny & Hnc & _). assert (words s !! Hd_val f = m0 g !! (f - 8)) as E by (by apply (v_frozen _ _ _ _ _ HI)).
    destruct Hc as [[h Hh] _]. apply gc_bind, gc_bind, (runs_ld _ h); [congruence|]. apply runs_ret, runs_ret. split; [done|]. cbn [negb orb]. rewrite andb_true_l, negb_involutive, Hsp.
    unfold tag0, hd0. by rewrite Hh.
Qed.

(** Moving a value, by cases on what it is. *)
Definition oldifies (fuel : nat) : Prop := ∀ s φ todo H D p v, inv s φ todo H D → H p → vok g v → reached v →
  (3 * (base.size (Y g) - base.size φ) + rank g v < fuel)%nat → runs (caml_oldify_one_r fuel v p) (λ _ s', moved φ todo H D p v s s') s.

Lemma oldified_trans s s1 s2 φ φ' todo todo' H D p v : φ ⊆ φ' → (∀ a, H a → a ≠ p → words s1 !! a = words s !! a) → same s s1 →
  (length todo' + base.size φ <= length todo + base.size φ')%nat → moved φ' todo' H D p v s1 s2 → moved φ todo H D p v s s2.
Proof.
  intros Hsub Hk Hs Hsz (φ2 & todo2 & y & HI2 & Hsub2 & Hy2 & Hw2 & Hk2 & Hs2 & Hsz2). exists φ2, todo2, y. split_and!; try done.
  - by transitivity φ'.
  - intros a Ha Hne. by rewrite Hk2, Hk.
  - by eapply same_trans.
  - lia.
Qed.

Section Cases.
Context (fuel : nat) (IH : oldifies fuel) (s : gc X) (φ : gmap Z Z) (todo : list Z) (H : Z → Prop) (D : list Z) (HI : inv s φ todo H D).
Context (p v : Z) (Hp : H p) (Hv : vok g v) (Hr : reached v) (Hf : (3 * (base.size (Y g) - base.size φ) + rank g v < S fuel)%nat) (Hy : yv g v = true).

Lemma one_infix : Y g !! v = None → runs (caml_oldify_one_r (S fuel) v p) (λ _ s', moved φ todo H D p v s s') s.
Proof.
  intros En. destruct (vok_cases g Hwf v Hv Hy) as [[o Ho]|(_ & Ht & o & k & Eo & Hto & Hk & Hlt & Ev & Hfk & Hoff)]; [congruence|].
  destruct (infix_header s φ todo H D v HI En Hv Hy) as [M1 M2]. cbn [caml_oldify_one_r]. apply gc_bind, runs_get. rewrite (young_test s φ todo H D HI v), Hy.
  apply gc_bind, (runs_ld _ (hd0 g v)); [done|]. rewrite (proj2 (Z.eqb_neq _ _) M2). fold (tag0 g v). rewrite Ht. cbn -[caml_oldify_one_r]. apply gc_bind.
  rewrite Hoff. replace (v - (v - block_of g v)) with (block_of g v) by lia.
  assert (skip g v = v) as Sv by by apply skip_infix. assert (o_tag o ≠ Forward_tag) as Hnf by (unfold Infix_tag, Forward_tag in *; lia).
  assert ((o_tag o =? Infix_tag) = false) as Hni by (apply Z.eqb_neq; unfold Infix_tag in *; lia).
  destruct (skip_cases g Hwf _ _ Eo) as [[_ Sb]|[? _]]; [|done]. eapply gc_conseq; [apply (IH s φ todo H D p (block_of g v)); try done|].
  - left. by exists o.
  - intros _. unfold target. rewrite Sb, (obj_block_of g Hwf _ _ Eo). assert (target g v = block_of g v) as <- by (unfold target; by rewrite Sv). apply Hr. by rewrite Sv.
  - unfold rank in *. rewrite Sv, Hy, Ht, Z.eqb_refl in Hf. rewrite Sb, Z.eqb_refl, (obj_tag g Hwf _ _ Eo), Hni, andb_false_r. cbn in Hf. lia.
  - intros _ s1 (φ' & todo' & n & HI1 & Hsub & Hn & Hw & Hkeep & Hsame & Hsz).
    assert (φ' !! block_of g v = Some n) as Eb by (unfold new, move in Hn; by rewrite Sb, (obj_young g Hwf _ _ Eo), (obj_tag g Hwf _ _ Eo), Hni in Hn).
    destruct (new_block s1 _ _ _ _ HI1 _ _ Eb) as (o1 & Eo1 & _ & _ & _ & Hn8 & HnW & _). rewrite Eo in Eo1. injection Eo1 as <-.
    apply gc_bind, (runs_ld _ n); [done|]. rewrite u64_small by (unfold word, o_len in *; lia).
    eapply gc_conseq; [apply (store_moved s1 φ' todo' H D HI1 p Hp v); unfold new, move; rewrite Sv, Hy, Ht, Eb; cbn; by rewrite Hoff|].
    intros ? s2. by apply oldified_trans.
Qed.

Lemma one_copied n o : Y g !! v = Some o → φ !! v = Some n → runs (caml_oldify_one_r (S fuel) v p) (λ _ s', moved φ todo H D p v s s') s.
Proof.
  intros Ho Ep. destruct (v_moved _ _ _ _ _ HI v n Ep) as [M1 M2]. destruct (v_dom _ _ _ _ _ HI v n Ep) as (o1 & _ & Sv & _).
  cbn [caml_oldify_one_r]. apply gc_bind, runs_get. rewrite (young_test s φ todo H D HI v), Hy.
  apply gc_bind, (runs_ld _ 0); [done|]. cbn -[caml_oldify_one_r]. apply gc_bind, (runs_ld _ n); [unfold Field; by rewrite Z.add_0_r|].
  by apply (store_moved s φ todo H D HI p Hp), (new_forwarded φ v n o).
Qed.

(** The copy of a block of one field, then of its field. *)
Lemma then_field o x n s2 : Y g !! v = Some o → φ !! v = None → skip g v = v → live_block g v → o_tag o < No_scan_tag → o_fields o = [x] →
  inv s2 (<[v := n]> φ) todo (λ a, H a ∨ cells_of n o a) D → words s2 !! p = Some n → (∀ a, H a → a ≠ p → words s2 !! a = words s !! a) →
  same s s2 → (∀ a, cells_of n o a → ¬ H a) → runs (caml_oldify_one_r fuel x (Field n 0)) (λ _ s', moved φ todo H D p v s s') s2.
Proof.
  intros Ho Ep Sv Hlv Ht Ex HI2 Hw Hoth Hsame HnH. assert (Field n 0 = n) as -> by (unfold Field; lia).
  assert (x ∈ o_fields o) as Hx by (rewrite Ex; left). eapply gc_conseq; [apply (IH s2 (<[v := n]> φ) todo (λ a, H a ∨ cells_of n o a) D n x)|]; try done.
  - right. exists 0%nat. rewrite Ex. cbn. lia.
  - by eapply (wf_fields g Hwf).
  - by eapply live_field_block.
  - pose proof (size_le s2 _ _ _ _ HI2) as Hle. rewrite map_size_insert_None in Hle |- * by done. assert (rank g x <= 2)%nat by (unfold rank; repeat case_match; lia). lia.
  - intros ? s'. by eapply finish_single.
Qed.

Lemma one_block o : Y g !! v = Some o → φ !! v = None → o_tag o ≠ Forward_tag → runs (caml_oldify_one_r (S fuel) v p) (λ _ s', moved φ todo H D p v s s') s.
Proof.
  intros Ho Ep Hnf. destruct (skip_cases g Hwf _ _ Ho) as [[_ Sv]|[? _]]; [|done]. destruct (wf_obj g Hwf _ _ Ho) as (_ & _ & Hl & Hwo & Hni & _).
  assert (live_block g v) as Hlv. { assert (target g v = v) as <- by (unfold target; by rewrite Sv, (obj_block_of g Hwf _ _ Ho)). apply Hr. by rewrite Sv. }
  destruct (v_intact _ _ _ _ _ HI v o Ho Ep) as [M1 M2].
  cbn [caml_oldify_one_r]. apply gc_bind, runs_get. rewrite (young_test s φ todo H D HI v), Hy. apply gc_bind, (runs_ld _ (o_hd o)); [done|].
  rewrite (proj2 (Z.eqb_neq _ _) (obj_hd_ne g Hwf _ _ Ho)). fold (o_tag o). rewrite Hwo. destruct (Z.ltb_spec (o_tag o) Infix_tag) as [Hlt|Hge].
  - destruct (o_fields o) as [|x l] eqn:Ex; [unfold o_len in Hl; rewrite Ex in Hl; cbn in Hl; lia|]. destruct (Z.ltb_spec 1 (o_len o)) as [H1|H1].
    + apply (push_block s φ todo H D p v o x); try done; [by rewrite Ex|unfold o_len in H1; lia].
    + apply (copy_block s φ todo H D HI p Hp (λ result field0, caml_oldify_one_r fuel field0 (Field result 0)) v o x); try done; [by rewrite Ex|].
      intros n s2 HI2 Hw Hoth Hsame _ HnH _. apply (then_field o x n s2); try done; [unfold No_scan_tag, Infix_tag in *; lia|].
      unfold o_len in H1. rewrite Ex in H1. rewrite Ex. destruct l; [done|cbn in H1; lia].
  - destruct (Z.leb_spec No_scan_tag (o_tag o)); [by apply copy_raw|]. unfold No_scan_tag, Infix_tag, Forward_tag in *. lia.
Qed.

Lemma one_forward o f : Y g !! v = Some o → φ !! v = None → o_tag o = Forward_tag → o_fields o = [f] → skip g v = (if shortcut g f then f else v) →
  runs (caml_oldify_one_r (S fuel) v p) (λ _ s', moved φ todo H D p v s s') s.
Proof.
  intros Ho Ep Et Ex Sv. destruct (v_intact _ _ _ _ _ HI v o Ho Ep) as [M1 M2]. destruct (wf_obj g Hwf _ _ Ho) as (_ & _ & Hl & _).
  assert (vok g f) as Hvf by (eapply (wf_fields g Hwf v o); [done|rewrite Et; done|rewrite Ex; left]).
  cbn [caml_oldify_one_r]. apply gc_bind, runs_get. rewrite (young_test s φ todo H D HI v), Hy. apply gc_bind, (runs_ld _ (o_hd o)); [done|].
  rewrite (proj2 (Z.eqb_neq _ _) (obj_hd_ne g Hwf _ _ Ho)). fold (o_tag o). rewrite Et. cbn -[caml_oldify_one_r].
  apply gc_bind, (runs_ld _ f); [unfold Field; rewrite Z.add_0_r; apply M2; by rewrite Ex|]. apply gc_bind.
  eapply gc_conseq; [by apply (forward_kept_spec s φ todo H D v o f)|]. intros ? ? [-> ->]. destruct (shortcut g f) eqn:Es; cbn -[caml_oldify_one_r].
  - pose proof (skip_skip g Hwf f Hvf Es) as Sf. eapply gc_conseq; [apply (IH s φ todo H D p f); try done|].
    + intros Hyf. unfold reached, target in *. rewrite Sv in Hr. rewrite Sf in *. by apply Hr.
    + unfold rank in *. rewrite Sf, Z.eqb_refl. destruct (Z.eqb_spec (skip g v) v) as [E|E]; [|case_match; lia]. exfalso. rewrite Sv in E. rewrite E in Es.
      unfold shortcut in Es. apply yv_spec in Hy as [Hb _]. rewrite Hb, (obj_tag g Hwf _ _ Ho), Et, andb_false_r in Es. done.
    + intros _ s' (φ' & todo' & y & A1 & A2 & A3 & A4 & A5 & A6 & A7). exists φ', todo', y. split_and!; try done. unfold new in *. by rewrite Sv, <- Sf.
  - assert (live_block g v) as Hlv. { assert (target g v = v) as <- by (unfold target; by rewrite Sv, (obj_block_of g Hwf _ _ Ho)). apply Hr. by rewrite Sv. }
    assert (o_len o = 1) as El by (unfold o_len; by rewrite Ex). pose proof (copy_block s φ todo H D HI p Hp (λ result _, caml_oldify_one_r fuel f (Field result 0)) v o f) as Hcb.
    rewrite El, Et in Hcb. specialize (Hcb (λ _ s', moved φ todo H D p v s s') Ho Ep Sv Hlv ltac:(by rewrite Ex)).
    assert (∀ r : Z → GM X unit, runs (let* result := caml_alloc_shr_r 1 Forward_tag in st p result ;;; let* _ := ld (Field v 0) in st (Hd_val v) 0 ;;; st (Field v 0) result ;;; r result) (λ _ s', moved φ todo H D p v s s') s →
      runs (let* result := caml_alloc_shr_r 1 Forward_tag in st p result ;;; st (Hd_val v) 0 ;;; st (Field v 0) result ;;; r result) (λ _ s', moved φ todo H D p v s s') s) as Hskip.
    { intros r. unfold runs, mbnd, ld, st. destruct (caml_alloc_shr_r 1 Forward_tag s) as [|[s1 n]]; [done|]. destruct (words s1 !! p); [|done]. cbn. by destruct (<[p:=n]> (words s1) !! Field v 0). }
    apply Hskip, Hcb. intros n s2 HI2 Hw Hoth Hsame _ HnH _. apply (then_field o f n s2); try done. by rewrite Et.
Qed.
End Cases.

Theorem oldify_one_spec fuel : oldifies fuel.
Proof.
  induction fuel as [|fuel IH]; intros s φ todo H D p v HI Hp Hv Hr Hf; [lia|]. destruct (yv g v) eqn:Hy.
  - destruct (Y g !! v) as [o|] eqn:Ho; [|by apply one_infix]. destruct (φ !! v) as [n|] eqn:Ep; [by eapply one_copied|].
    destruct (skip_cases g Hwf _ _ Ho) as [[Hnf _]|(Et & f & Ex & Sv)]; [by eapply one_block|by eapply one_forward].
  - cbn [caml_oldify_one_r]. apply gc_bind, runs_get. rewrite (young_test s φ todo H D HI v), Hy. by apply (store_moved s φ todo H D HI p Hp), new_old.
Qed.

(** *** The blocks whose fields remain to be moved *)

Section Mopup.
Context (one : nat) (Hone : (3 * base.size (Y g) + 2 < one)%nat).

Lemma oldify_enough (φ : gmap Z Z) v : (3 * (base.size (Y g) - base.size φ) + rank g v < one)%nat.
Proof. assert (rank g v <= 2)%nat by (unfold rank; repeat case_match; lia). lia. Qed.

(** The cells of [n] from the field [i] on. *)
Definition from (n : Z) (o : obj) (i : nat) (a : Z) : Prop := ∃ j, (i <= j < length (o_fields o))%nat ∧ a = n + 8 * Z.of_nat j.

(** A field that has been moved. *)
Lemma close_field s φ todo D b n o i x y : inv s φ todo (from n o i) D → φ !! b = Some n → Y g !! b = Some o → o_tag o < No_scan_tag → o_fields o !! i = Some x →
  new g φ x = Some y → words s !! (n + 8 * Z.of_nat i) = Some y → inv s φ todo (from n o (S i)) D.
Proof.
  intros HI E1 E2 Ht Hx Hy Hw. eapply inv_close; [exact HI| | |].
  - intros a (j & Hj & ->). exists j. split; [lia|done].
  - intros b' n' o' j z Hnew Hh. destruct (decide (n' + 8 * Z.of_nat j = n + 8 * Z.of_nat i)) as [E|Hd].
    + right. destruct (new_cell_inj s _ _ _ _ HI _ _ _ _ _ b n o i x Hnew (conj E1 (conj E2 Hx)) E) as [-> ->]. destruct Hnew as (E1' & E2' & Hz).
      rewrite E1 in E1'. injection E1' as <-. rewrite E2 in E2'. injection E2' as <-. rewrite Hx in Hz. injection Hz as <-. rewrite (proj2 (Z.leb_gt _ _) Ht). by exists y.
    + left. intros (k & Hk & E). apply Hh. exists k. split; [|done]. destruct (decide (k = i)) as [->|]; [done|lia].
  - intros a Ha Hh. left. split; [|done]. intros (j & Hj & ->). destruct (lookup_lt_is_Some_2 (o_fields o) j) as [z Hz]; [lia|].
    destruct (new_cell s _ _ _ _ HI b n o j z (conj E1 (conj E2 Hz))) as (_ & _ & Hcl & _). by apply Hcl, (wf_cells g Hwf).
Qed.

Definition progress (φ : gmap Z Z) (todo : list Z) (H : Z → Prop) (D : list Z) (s s' : gc X) : Prop :=
  ∃ φ' todo', inv s' φ' todo' H D ∧ φ ⊆ φ' ∧ same s s' ∧ (length todo' + base.size φ <= length todo + base.size φ')%nat.

Lemma progress_trans s s1 s2 φ φ' todo todo' H D : φ ⊆ φ' → same s s1 → (length todo' + base.size φ <= length todo + base.size φ')%nat →
  progress φ' todo' H D s1 s2 → progress φ todo H D s s2.
Proof. intros Hsub Hs Hsz (φ2 & todo2 & A & B & C & E). exists φ2, todo2. split_and!; [done|by transitivity φ'|by eapply same_trans|lia]. Qed.

Lemma mopup_fields_spec b n o D : Y g !! b = Some o → o_tag o < No_scan_tag → ∀ fuel i s φ todo, φ !! b = Some n → (1 <= i)%nat → (i <= length (o_fields o))%nat →
  (length (o_fields o) - i < fuel)%nat → inv s φ todo (from n o i) D →
  runs (mopup_fields fuel one (Z.of_nat i) b n) (λ _ s', progress φ todo (λ _, False) D s s') s.
Proof.
  intros Eb Ht fuel. induction fuel as [|fuel IH]; intros i s φ todo En Hi Hle Hf HI; [lia|]. cbn [mopup_fields].
  destruct (new_block s _ _ _ _ HI b n En) as (o1 & Eo1 & (h & Hh & Hsz & _) & _). rewrite Eb in Eo1. injection Eo1 as <-.
  apply gc_bind, (runs_ld _ h); [done|]. rewrite Hsz. destruct (Z.ltb_spec (Z.of_nat i) (o_len o)) as [Hlt|Hge].
  - destruct (lookup_lt_is_Some_2 (o_fields o) i) as [x Hx]; [unfold o_len in Hlt; lia|].
    apply gc_bind, (runs_ld _ x); [by eapply v_tail|]. apply gc_bind, runs_get. apply gc_bind. rewrite (young_test s φ todo _ D HI x).
    assert (from n o i (n + 8 * Z.of_nat i)) as Hp by (exists i; unfold o_len in Hlt; split; [lia|done]).
    assert (runs (if yv g x then caml_oldify_one_r one x (Field n (Z.of_nat i)) else st (Field n (Z.of_nat i)) x) (λ _ s', moved φ todo (from n o i) D (n + 8 * Z.of_nat i) x s s') s) as Hm.
    { unfold Field. destruct (yv g x) eqn:Hy; [|by apply store_moved, new_old]. apply (oldify_one_spec one s φ todo _ D); try done; [| |apply oldify_enough].
      - eapply (wf_fields g Hwf); [done..|]. by eapply list_elem_of_lookup_2.
      - destruct (v_dom _ _ _ _ _ HI b n En) as (o1 & _ & _ & Hlv & _). eapply live_field_block; [done..|]. by eapply list_elem_of_lookup_2. }
    eapply gc_conseq; [exact Hm|]. intros ? s1 (φ1 & todo1 & y & HI1 & Hsub & Hy & Hw & _ & Hs & Hms). replace (Z.of_nat i + 1) with (Z.of_nat (S i)) by lia.
    assert (φ1 !! b = Some n) as En1 by by eapply lookup_weaken. eapply gc_conseq; [apply (IH (S i) s1 φ1 todo1); try done|]; try (unfold o_len in Hlt; lia).
    + by eapply close_field.
    + intros ? s2. by apply progress_trans.
  - apply runs_ret. exists φ, todo. split_and!; try done. eapply inv_close; [exact HI|done| |].
    + intros b' n' o' j z _ _. left. intros (k & Hk & _). unfold o_len in Hge. lia.
    + intros a _ _. left. split; [|done]. intros (k & Hk & _). unfold o_len in Hge. lia.
Qed.

Lemma mopup_spec m D : (∀ b o, Y g !! b = Some o → (length (o_fields o) < m)%nat) → ∀ fuel s φ todo, inv s φ todo (λ _, False) D →
  (length todo + base.size (Y g) - base.size φ < fuel)%nat → runs (caml_oldify_mopup_r fuel m one) (λ _ s', ∃ φ', inv s' φ' [] (λ _, False) D ∧ φ ⊆ φ' ∧ same s s') s.
Proof.
  intros Hm fuel. induction fuel as [|fuel IH]; intros s φ todo HI Hf; [lia|]. cbn [caml_oldify_mopup_r]. apply gc_bind, runs_get.
  destruct (v_todo _ _ _ _ _ HI) as (Et & Hl & Hnd). rewrite Et. destruct todo as [|b todo]; [by apply runs_ret; exists φ|]. cbn [todo_head].
  destruct Hl as [(n & o & x & En & Eb & Ht & Hlen & Hx & M0 & M1) Hl]. pose proof (obj_young g Hwf _ _ Eb) as Hyb. apply yv_spec in Hyb as [_ Hyb]. pose proof (wf_bounds g Hwf).
  destruct (Z.eqb_spec b 0); [lia|]. assert (Field n 0 = n) as F0 by (unfold Field; lia). assert (Field n 1 = n + 8) as F1 by (unfold Field; lia).
  apply gc_bind, (runs_ld _ n); [unfold Field; rewrite Z.add_0_r; by apply (v_moved _ _ _ _ _ HI)|]. apply gc_bind, (runs_ld _ (todo_head todo)); [by rewrite F1|].
  apply gc_bind, runs_modify. pose proof (inv_pop s φ todo b n o D HI En Eb) as HI1. set (s1 := set_todo (todo_head todo) s) in *.
  assert (inv s1 φ todo (from n o 0) D) as HI2.
  { eapply inv_close; [exact HI1|intros a (j & Hj & ->); exists j; split; [lia|done]| |].
    - intros b' n' o' i z _ Hh. left. intros (j & Hj & E). apply Hh. exists j. split; [lia|done].
    - intros a _ Hh. left. split; [|done]. intros (j & Hj & E). apply Hh. exists j. split; [lia|done]. }
  assert (o_tag o < No_scan_tag) as Ht' by (unfold Infix_tag, No_scan_tag in *; lia). assert (x ∈ o_fields o) as Hin by by eapply list_elem_of_lookup_2.
  apply gc_bind, (runs_ld _ x); [by rewrite F0|]. apply gc_bind, runs_get. apply gc_bind. rewrite (young_test s1 φ todo _ D HI2 x), F0.
  assert (runs (if yv g x then caml_oldify_one_r one x n else mreturn tt) (λ _ s', ∃ φ' todo', inv s' φ' todo' (from n o 1) D ∧ φ ⊆ φ' ∧ same s1 s' ∧ (length todo' + base.size φ <= length todo + base.size φ')%nat) s1) as Hfst.
  { destruct (yv g x) eqn:Hy.
    - eapply gc_conseq; [apply (oldify_one_spec one s1 φ todo _ D n x HI2); [exists 0%nat; lia|by eapply (wf_fields g Hwf)| |apply oldify_enough]|].
      + destruct (v_dom _ _ _ _ _ HI b n En) as (o1 & _ & _ & Hlv & _). by eapply live_field_block.
      + intros ? s2 (φ1 & todo1 & y & HI3 & Hsub & Hy1 & Hw & _ & Hs & Hms). exists φ1, todo1. split_and!; try done.
        eapply (close_field s2 φ1 todo1 D b n o 0); try done; [by eapply lookup_weaken|by rewrite Z.add_0_r].
    - apply runs_ret. exists φ, todo. split_and!; try done. eapply (close_field s1 φ todo D b n o 0); try done; [by apply new_old|by rewrite Z.add_0_r]. }
  eapply gc_conseq; [exact Hfst|]. intros ? s2 (φ1 & todo1 & HI3 & Hsub & Hs & Hms). apply gc_bind.
  eapply gc_conseq; [apply (mopup_fields_spec b n o D Eb Ht' m 1%nat s2 φ1 todo1); try done; [by eapply lookup_weaken|lia|pose proof (Hm b o Eb); lia]|].
  intros ? s3 (φ2 & todo2 & HI4 & Hsub2 & Hs2 & Hms2). pose proof (size_le s _ _ _ _ HI). pose proof (size_le s3 _ _ _ _ HI4). cbn [length] in Hf.
  eapply gc_conseq; [apply (IH s3 φ2 todo2 HI4); lia|]. intros ? s4 (φ' & HI5 & Hsub3 & Hs3). exists φ'. split_and!; [done|by transitivity φ2; [transitivity φ1|]|].
  eapply same_trans; [|exact Hs3]. by eapply same_trans.
Qed.
End Mopup.
End Invariant.
End MinorGc.
