(* ===== verification/MajorAlloc.v ===== *)
(** Allocation in the major heap ([caml_alloc_shr_r] of byterun/memory.c) over
    the free list of Freelist.v, and the proof that it keeps the promise that
    the minor collector relies on ([HeapLaws]). *)

From S2P Require Import Prelude Mlvalues Freelist MinorGc.

Module MajorAlloc.
Import MinorGc.

(** The state of the major heap: the free list (its memory is [words]) and
    the phase of the collector; the cells of the global roots and of the hook. *)
Record major : Type := Major { free_list : Freelist.fl; caml_gc_phase : Z; globals : list Z; hooks : list Z }.

Definition Phase_mark : Z := 0.
Definition Phase_sweep : Z := 1.
Definition Phase_idle : Z := 2.

(** The free list with the memory of the state. *)
Definition fl_of (s : gc major) : Freelist.fl := Freelist.set_mem (words s) (free_list (rest s)).

Definition lift_fl {A} (c : M Freelist.fl fault A) : GM major A :=
  λ s, match c (fl_of s) with
       | inl f => inl (GFault f)
       | inr (fl, x) => inr (set_words (Freelist.mem fl) (set_rest (Major fl (caml_gc_phase (rest s)) (globals (rest s)) (hooks (rest s))) s), x)
       end.

Definition caml_allocation_color_r (hp : Z) (s : gc major) : Z :=
  if (caml_gc_phase (rest s) =? Phase_mark)
     || ((caml_gc_phase (rest s) =? Phase_sweep) && (Freelist.caml_gc_sweep_hp (free_list (rest s)) <=? hp))
  then Caml_black else Caml_white.

Section Alloc.
(** [expand_heap_r], which calls [malloc]: 0 when out of memory; [fuel] bounds
    the length of the free list. *)
Context (expand_heap_r : Z → GM major Z) (fuel : nat).

Definition caml_alloc_shr_r (wosize tag : Z) : GM major Z :=
  if Max_wosize <? wosize then mfail Raise_out_of_memory else
  let* hp := lift_fl (Freelist.caml_fl_allocate_r fuel wosize) in
  let* hp :=
    (if hp =? 0 then
       let* new_block := expand_heap_r wosize in
       (if new_block =? 0 then
          let* s := mget in
          if caml_in_minor_collection s =? 0 then mfail Raise_out_of_memory else mfail Fatal_out_of_memory
        else mreturn tt) ;;;
       lift_fl (Freelist.caml_fl_add_blocks_r fuel new_block) ;;;
       lift_fl (Freelist.caml_fl_allocate_r fuel wosize)
     else mreturn hp) in
  let* s := mget in
  st hp (Make_header wosize tag (caml_allocation_color_r hp s)) ;;;
  mmodify (λ s, let t := stats s in
    set_stats (Stats (caml_young_limit t) (caml_force_major_slice t) (caml_something_to_do t) (caml_allocated_words t + Whsize_wosize wosize)
      (caml_stat_minor_words t) (caml_stat_promoted_words t) (caml_stat_minor_collections t)) s) ;;;
  let* s := mget in
  (if caml_minor_heap_size (young s) / 8 <? caml_allocated_words (stats s) then caml_urge_major_slice_r else mreturn tt) ;;;
  mreturn (Val_hp hp).
End Alloc.

(** ** The heap, seen from the outside *)

Definition fl_words (h : Z) (l : list (Z * Z)) (a : Z) : Prop := Freelist.covered l a ∨ a = h ∨ a = h - 8.

Lemma covered_elem l a : Freelist.covered l a ↔ ∃ b z, (b, z) ∈ l ∧ b - 8 <= a < b + 8 * z.
Proof.
  unfold Freelist.covered, Freelist.Hd_bp. rewrite Exists_exists. split.
  - intros ((b & z) & Hin & Ha). by exists b, z.
  - intros (b & z & Hin & Ha). exists (b, z). done.
Qed.

Lemma chain_det m p l l' : (∀ b z, (b, z) ∈ l → b ≠ 0) → (∀ b z, (b, z) ∈ l' → b ≠ 0) → Freelist.chain m p l → Freelist.chain m p l' → l = l'.
Proof.
  revert p l'. induction l as [|[b z] l IH]; intros p [|[b' z'] l'] H1 H2 C1 C2; [done| | |].
  - destruct C1 as [_ C1]. cbn in C1. apply Freelist.chain_cons in C2 as (C2 & _). rewrite C1 in C2. injection C2 as <-. exfalso. by apply (H2 0 z'); [left|].
  - destruct C2 as [_ C2]. cbn in C2. apply Freelist.chain_cons in C1 as (C1 & _). rewrite C1 in C2. injection C2 as ->. exfalso. by apply (H1 0 z); [left|].
  - apply Freelist.chain_cons in C1 as (E1 & (h1 & Hh1 & _ & Hz1 & _) & C1). apply Freelist.chain_cons in C2 as (E2 & (h2 & Hh2 & _ & Hz2 & _) & C2).
    rewrite E1 in E2. injection E2 as <-. rewrite Hh1 in Hh2. injection Hh2 as <-. rewrite <- Hz1, <- Hz2. f_equal. apply (IH b); [..|done|done].
    + intros b' z'' Hin. apply (H1 b' z''). by right.
    + intros b' z'' Hin. apply (H2 b' z''). by right.
Qed.

Lemma inv_nonzero f l b z : Freelist.fl_inv f l → (b, z) ∈ l → 16 <= b ∧ 1 <= z <= Max_wosize.
Proof.
  intros Hi Hin. apply list_elem_of_split in Hin as (l1 & l2 & ->). destruct (Freelist.around_sizes _ _ _ _ _ Hi) as (Ht & Hz & Hs & _).
  pose proof (Freelist.sorted_top _ _ Hs). unfold Freelist.Hd_bp in Ht. lia.
Qed.

Lemma inv_unique f l l' : Freelist.fl_inv f l → Freelist.fl_inv f l' → l = l'.
Proof.
  intros H1 H2. apply (chain_det (Freelist.mem f) (Freelist.Fl_head f)); try apply Freelist.inv_chain; try done; intros b z Hin.
  - pose proof (inv_nonzero f l b z H1 Hin). lia.
  - pose proof (inv_nonzero f l' b z H2 Hin). lia.
Qed.

Lemma fl_inv_ext f l m : Freelist.fl_inv f l → (∀ a, fl_words (Freelist.Fl_head f) l a → m !! a = Freelist.mem f !! a) → Freelist.fl_inv (Freelist.set_mem m f) l.
Proof.
  intros Hi Hm. pose proof Hi as [I1 I2 I3 I4 I5 I6 I7 I8 I9 I10]. split; try done.
  - cbn. eapply Freelist.chain_ext; [|exact I3]. intros a Ha. apply Hm. destruct Ha as [->|(b & z & Hin & Ha)]; [by right; left|]. left. apply covered_elem. exists b, z. split; [done|].
    pose proof (inv_nonzero f l b z Hi Hin). unfold Freelist.Hd_bp in Ha. lia.
  - cbn. rewrite Hm; [done|]. right; right. done.
Qed.

(** ** A heap that cannot grow

    The free list holds all the free memory; the other functions of the
    interface are not called during a collection and stay parameters. *)
Section Instance.
Context (fuel : nat) (in_area : Z → bool) (none : Z).
Context (slice : Z → GM major unit) (page_add page_remove : Z → Z → Z → GM major Z) (amalloc : Z → GM major (Z * Z)) (cfree : Z → GM major unit)
  (salloc : Z → GM major Z) (crealloc : Z → Z → GM major Z) (final_calls : GM major unit).

#[local] Instance free_list_heap : MajorHeap major := {|
  MinorGc.caml_alloc_shr_r := caml_alloc_shr_r (λ _, mreturn 0) fuel;
  Is_in_value_area := λ _ f, in_area f;
  caml_major_collection_slice_r := slice;
  caml_page_table_add_r := page_add;
  caml_page_table_remove_r := page_remove;
  caml_aligned_malloc := amalloc;
  free := cfree;
  caml_stat_alloc := salloc;
  realloc := crealloc;
  caml_scan_global_young_roots_r := λ f, let* s := mget in visit f (globals (rest s));
  caml_scan_roots_hook := λ f, let* s := mget in visit f (hooks (rest s));
  caml_final_do_calls_r := final_calls;
  caml_weak_none := none
|}.

(** A free block: aligned, mapped, outside the minor heap. *)
Definition block_ok (s : gc major) (x : Z * Z) : Prop :=
  x.1 mod 8 = 0 ∧ x.1 + 8 * x.2 < W ∧ (caml_young_end (young s) <= x.1 - 8 ∨ x.1 + 8 * x.2 <= caml_young_start (young s)) ∧
  ∀ i, -1 <= i < x.2 → is_Some (words s !! (x.1 + 8 * i)).

Definition heap_ok (s : gc major) : Prop := ∃ l, Freelist.fl_inv (fl_of s) l ∧ (length l < fuel)%nat ∧ Forall (block_ok s) l.
Definition heap_owned (s : gc major) (a : Z) : Prop := ∃ l, Freelist.fl_inv (fl_of s) l ∧ fl_words (Freelist.Fl_head (fl_of s)) l a.

Lemma heap_frame s s' : rest s' = rest s → caml_young_start (young s') = caml_young_start (young s) → caml_young_end (young s') = caml_young_end (young s) → dom (words s') = dom (words s) →
  (∀ a, heap_owned s a → words s' !! a = words s !! a) → heap_ok s → heap_ok s' ∧ (∀ a, heap_owned s' a ↔ heap_owned s a).
Proof.
  intros Er E1 E2 Ed Ha (l & Hi & Hl & Hb). assert (fl_of s' = Freelist.set_mem (words s') (fl_of s)) as Ef by (unfold fl_of; by rewrite Er).
  assert (Freelist.fl_inv (fl_of s') l) as Hi' by (rewrite Ef; apply fl_inv_ext; [done|]; intros a Hw; apply Ha; by exists l). split.
  - exists l. split_and!; [done..|]. eapply Forall_impl; [exact Hb|]. intros x (B1 & B2 & B3 & B4). unfold block_ok. rewrite E1, E2. split_and!; try done.
    intros i Hi2. apply elem_of_dom. rewrite Ed. apply elem_of_dom. by apply B4.
  - intros a. split; intros (l' & Hl' & Hw); exists l'; [rewrite (inv_unique _ _ _ Hl' Hi') in *|rewrite (inv_unique _ _ _ Hl' Hi) in *]; (split; [done|]).
    + by rewrite Ef in Hw.
    + by rewrite Ef.
Qed.

(** One allocation from the free list. *)
Lemma take_block s l wo : Freelist.fl_inv (fl_of s) l → (length l < fuel)%nat → Forall (block_ok s) l → 1 <= wo →
  ∃ s1 hp, lift_fl (Freelist.caml_fl_allocate_r fuel wo) s = inr (s1, hp) ∧ s1 = set_words (words s1) (set_rest (rest s1) s) ∧
    (∃ fl, rest s1 = Major fl (caml_gc_phase (rest s)) (globals (rest s)) (hooks (rest s)) ∧ Freelist.mem fl = words s1) ∧
    (hp = 0 ∨ hp ≠ 0 ∧ hp mod 8 = 0 ∧ 8 <= hp ∧ hp + 8 * (wo + 1) < W ∧ (caml_young_end (young s) <= hp ∨ hp + 8 * (wo + 1) <= caml_young_start (young s)) ∧
      (∀ a, hp <= a < hp + 8 * (wo + 1) → Freelist.covered l a) ∧ dom (words s1) = dom (words s) ∧ Freelist.Fl_head (fl_of s1) = Freelist.Fl_head (fl_of s) ∧
      (∀ i, -1 <= i < wo → is_Some (words s !! (hp + 8 + 8 * i))) ∧
      (∀ a, ¬ fl_words (Freelist.Fl_head (fl_of s)) l a → words s1 !! a = words s !! a) ∧
      ∃ l', Freelist.fl_inv (fl_of s1) l' ∧ (length l' < fuel)%nat ∧ Forall (block_ok s) l' ∧
        ∀ a, Freelist.covered l' a → Freelist.covered l a ∧ ¬ (hp <= a < hp + 8 * (wo + 1))).
Proof.
  intros Hi Hl Hb Hwo. destruct (wp_elim _ _ _ (Freelist.next_fit_run fuel wo (fl_of s) l Hi Hwo Hl)) as (fl' & hp & E & Hc).
  exists (set_words (Freelist.mem fl') (set_rest (Major fl' (caml_gc_phase (rest s)) (globals (rest s)) (hooks (rest s))) s)), hp. split; [unfold lift_fl; by rewrite E|].
  split; [done|]. split; [by exists fl'|]. destruct Hc as [(-> & _)|(Hne & q1 & b & sz & q2 & -> & Hle & Ehp & Hi' & Hdis & Hfr)]; [by left|right].
  assert (dom (Freelist.mem fl') = dom (words s) ∧ Freelist.Fl_head fl' = Freelist.Fl_head (fl_of s)) as [Hd Hh].
  { unfold Freelist.caml_fl_allocate_r, mbnd, mget in E. rewrite (Freelist.inv_policy _ _ Hi), Z.eqb_refl in E. by destruct (Freelist.next_fit_in_place fuel wo _ _ _ E). }
  assert ((b, sz) ∈ q1 ++ (b, sz) :: q2) as Hin by (apply elem_of_app; right; left). rewrite Forall_forall in Hb. destruct (Hb _ Hin) as (B1 & B2 & B3 & B4). cbn [fst snd] in *.
  destruct (inv_nonzero _ _ _ _ Hi Hin) as [Hb16 Hz].
  assert (∀ b' z', (b', z') ∈ q1 ++ Freelist.leftover b sz wo ++ q2 → ∃ z, (b', z) ∈ q1 ++ (b, sz) :: q2 ∧ z' <= z) as Hsub.
  { intros b' z'. rewrite !elem_of_app. intros [H|[H|H]]; [exists z'; split; [apply elem_of_app; by left|lia]| |exists z'; split; [apply elem_of_app; right; by right|lia]].
    unfold Freelist.leftover in H. destruct (sz <? wo + 2); [by apply elem_of_nil in H|]. apply list_elem_of_singleton in H as [= -> ->]. exists sz. split; [apply elem_of_app; right; left|lia]. }
  split_and!; try done; try lia.
  - rewrite Ehp. replace (b + 8 * sz - 8 * (wo + 1)) with (b + (sz - wo - 1) * 8) by lia. by rewrite Z.mod_add.
  - intros a Ha. apply covered_elem. exists b, sz. split; [done|lia].
  - intros i Hi2. replace (hp + 8 + 8 * i) with (b + 8 * (sz - wo + i)) by lia. apply B4. lia.
  - intros a Ha. cbn. apply Hfr; intros ->; apply Ha.
    + destruct (Freelist.last_bp_in (Freelist.Fl_head (fl_of s)) q1) as [->|(z & Hz')]; [by right; left|left]. apply covered_elem. exists (Freelist.last_bp (Freelist.Fl_head (fl_of s)) q1), z.
      assert ((Freelist.last_bp (Freelist.Fl_head (fl_of s)) q1, z) ∈ q1 ++ (b, sz) :: q2) as Hin2 by (apply elem_of_app; by left). split; [done|]. destruct (inv_nonzero _ _ _ _ Hi Hin2). lia.
    + left. apply covered_elem. exists b, sz. split; [done|]. unfold Freelist.Hd_bp. lia.
  - exists (q1 ++ Freelist.leftover b sz wo ++ q2). split_and!.
    + eapply fl_inv_ext; [exact Hi'|]. done.
    + rewrite length_app in Hl. cbn in Hl. rewrite !length_app. unfold Freelist.leftover. destruct (sz <? wo + 2); cbn; lia.
    + apply Forall_forall. intros [b' z'] H'. destruct (Hsub _ _ H') as (z & Hz' & Hle'). destruct (Hb _ Hz') as (C1 & C2 & C3 & C4). cbn [fst snd] in *. split_and!; cbn; try done; try lia. intros i Hi2. apply C4. lia.
    + intros a. rewrite !covered_elem. intros (b' & z' & H' & Ha). destruct (Hsub _ _ H') as (z & Hz' & Hle'). split; [exists b', z; split; [done|lia]|]. specialize (Hdis _ _ H'). unfold Freelist.Hd_bp in Hdis. lia.
Qed.

Lemma sentinel_apart s l a : Freelist.fl_inv (fl_of s) l → Freelist.covered l a → a ≠ Freelist.Fl_head (fl_of s) ∧ a ≠ Freelist.Fl_head (fl_of s) - 8.
Proof. intros Hi Hc. apply covered_elem in Hc as (b & z & Hin & Ha). pose proof (Freelist.inv_sentinel _ _ Hi _ _ Hin) as Hs. unfold Freelist.Hd_bp in Hs. lia. Qed.

Lemma color_ok hp s : wf_color (caml_allocation_color_r hp s).
Proof. unfold caml_allocation_color_r, wf_color. destruct (_ || _); tauto. Qed.

(** What the rest of the allocation does to the state [s1] that the free list leaves. *)
Lemma alloc_finish s1 hp sz tag : is_Some (words s1 !! hp) →
  ∃ t, (let* s := mget in
        st hp (Make_header sz tag (caml_allocation_color_r hp s)) ;;;
        mmodify (λ s, let t := stats s in
          set_stats (Stats (caml_young_limit t) (caml_force_major_slice t) (caml_something_to_do t) (caml_allocated_words t + Whsize_wosize sz)
            (caml_stat_minor_words t) (caml_stat_promoted_words t) (caml_stat_minor_collections t)) s) ;;;
        let* s := mget in
        (if caml_minor_heap_size (young s) / 8 <? caml_allocated_words (stats s) then caml_urge_major_slice_r else mreturn tt) ;;;
        mreturn (Val_hp hp)) s1
  = inr (set_stats t (set_words (<[hp := Make_header sz tag (caml_allocation_color_r hp s1)]> (words s1)) s1), Val_hp hp).
Proof. intros [w Hw]. unfold mbnd, mget, st, mmodify, caml_urge_major_slice_r. rewrite Hw. cbn. destruct (_ <? _); eexists; reflexivity. Qed.

Lemma heap_alloc s sz tag : heap_ok s → caml_in_minor_collection s ≠ 0 → 1 <= sz <= Max_wosize → 0 <= tag < 256 →
  match caml_alloc_shr_r (λ _, mreturn 0) fuel sz tag s with
  | inl e => e = Fatal_out_of_memory
  | inr (s', n) =>
      heap_ok s' ∧ n mod 8 = 0 ∧ 8 <= n ∧ n + 8 * sz < W ∧
      (caml_young_end (young s) <= n - 8 ∨ n + 8 * sz <= caml_young_start (young s)) ∧
      (∀ a, in_block n sz a → heap_owned s a ∨ words s !! a = None) ∧
      (∃ h, words s' !! (n - 8) = Some h ∧ Wosize_hd h = sz ∧ Tag_hd h = tag) ∧
      (∀ i, 0 <= i < sz → is_Some (words s' !! (n + 8 * i))) ∧
      (∀ a, heap_owned s' a → (heap_owned s a ∨ words s !! a = None) ∧ ¬ in_block n sz a) ∧
      (∀ a, is_Some (words s !! a) → is_Some (words s' !! a)) ∧
      (∀ a, is_Some (words s !! a) → ¬ heap_owned s a → words s' !! a = words s !! a) ∧
      young s' = young s ∧ caml_ref_table s' = caml_ref_table s ∧ caml_weak_ref_table s' = caml_weak_ref_table s ∧
      caml_in_minor_collection s' = caml_in_minor_collection s ∧ oldify_todo_list s' = oldify_todo_list s ∧ roots s' = roots s ∧
      globals (rest s') = globals (rest s) ∧ hooks (rest s') = hooks (rest s)
  end.
Proof.
  intros (l & Hi & Hl & Hb) Hmin Hsz Htag. unfold caml_alloc_shr_r. destruct (Z.ltb_spec Max_wosize sz); [lia|].
  destruct (take_block s l sz Hi Hl Hb ltac:(lia)) as (s1 & hp & E & Es & (fl & Er & Em) & Hc). rewrite (mbnd_eq _ _ _ _ _ E).
  destruct Hc as [->|(Hne & T1 & T2 & T3 & T4 & T5 & T6 & T7 & T8 & T9 & l' & Hi' & Hl' & Hb' & Hcov)].
  { cbn. rewrite Es. cbn. unfold mbnd, mget. cbn. by rewrite (proj2 (Z.eqb_neq _ _) Hmin). }
  rewrite (proj2 (Z.eqb_neq _ _) Hne). rewrite (mbnd_eq (mreturn hp) _ s1 s1 hp) by done.
  assert (∀ a, is_Some (words s1 !! a) ↔ is_Some (words s !! a)) as Hdom by (intros a; by rewrite <- !elem_of_dom, T6).
  assert (is_Some (words s1 !! hp)) as Hhp by (apply Hdom; replace hp with (hp + 8 + 8 * -1) by lia; apply T8; lia).
  destruct (alloc_finish s1 hp sz tag Hhp) as [t Et]. cbv zeta in Et. cbv beta zeta. rewrite Et. set (h := Make_header sz tag (caml_allocation_color_r hp s1)).
  pose proof (header_fields sz tag (caml_allocation_color_r hp s1) ltac:(lia) Htag (color_ok hp s1)) as (_ & Hsize & Htg & _). fold h in Hsize, Htg.
  assert (∀ a, in_block (Val_hp hp) sz a → hp <= a < hp + 8 * (sz + 1)) as Hblk by (intros a (i & Hi2 & ->); unfold Val_hp; lia).
  assert (∀ a, is_Some (<[hp := h]> (words s1) !! a) ↔ is_Some (words s !! a)) as Hdom2 by (intros a; rewrite is_Some_store by done; apply Hdom).
  set (s' := set_stats t (set_words (<[hp := h]> (words s1)) s1)).
  assert (Freelist.fl_inv (fl_of s') l') as Hi2.
  { change (fl_of s') with (Freelist.set_mem (<[hp := h]> (words s1)) (fl_of s1)). apply fl_inv_ext; [done|]. intros a Ha. cbn. apply lookup_insert_ne. intros <-.
    rewrite T7 in Ha. destruct (sentinel_apart s l hp Hi) as [N1 N2]; [apply T5; lia|]. destruct Ha as [Ha|[Ha|Ha]]; [|done|done]. destruct (Hcov _ Ha) as [_ Hn]. lia. }
  assert (young s' = young s ∧ caml_ref_table s' = caml_ref_table s ∧ caml_weak_ref_table s' = caml_weak_ref_table s ∧ caml_in_minor_collection s' = caml_in_minor_collection s ∧
    oldify_todo_list s' = oldify_todo_list s ∧ roots s' = roots s) as (Y1 & Y2 & Y3 & Y4 & Y5 & Y6) by (unfold s'; rewrite Es; done).
  split_and!; try done.
  - exists l'. split_and!; [done..|]. eapply Forall_impl; [exact Hb'|]. intros x (B1 & B2 & B3 & B4). unfold block_ok. rewrite Y1. split_and!; try done. intros i Hi3. apply Hdom2. by apply B4.
  - unfold Val_hp. rewrite <- Zplus_mod_idemp_l, T1. done.
  - unfold Val_hp. lia.
  - unfold Val_hp. lia.
  - unfold Val_hp. lia.
  - intros a Ha. left. exists l. split; [done|]. left. apply T5. by apply Hblk.
  - exists h. split; [|done]. cbn. unfold Val_hp. replace (hp + 8 - 8) with hp by lia. apply lookup_insert_eq.
  - intros i Hi3. apply Hdom2. unfold Val_hp. apply T8. lia.
  - intros a (l2 & Hl2 & Hw). rewrite (inv_unique _ _ _ Hl2 Hi2) in Hw. change (Freelist.Fl_head (fl_of s')) with (Freelist.Fl_head (fl_of s1)) in Hw. rewrite T7 in Hw. split.
    + left. exists l. split; [done|]. destruct Hw as [Hw|Hw]; [left; by apply Hcov|by right].
    + intros Hin%Hblk. destruct Hw as [Hw|Hw]; [by apply (Hcov a Hw)|]. destruct (sentinel_apart s l a Hi (T5 a Hin)). lia.
  - intros a. apply Hdom2.
  - intros a _ Ho. cbn. rewrite lookup_insert_ne; [apply T9; intros Hw; apply Ho; by exists l|]. intros <-. apply Ho. exists l. split; [done|]. left. apply T5. lia.
  - cbn. by rewrite Er.
  - cbn. by rewrite Er.
Qed.

#[local] Instance free_list_laws : HeapLaws major.
Proof.
  refine {| major_ok := heap_ok; owned := heap_owned; global_cells := globals; hook_cells := hooks; after_global := mreturn tt |}.
  - intros s s' E1 E2 E3 E4 Ha Hok. destruct (heap_frame s s' E1 E2 E3 E4 Ha Hok) as [H1 H2]. done.
  - intros s sz tag Hok Hmin Hsz Htag. pose proof (heap_alloc s sz tag Hok Hmin Hsz Htag) as Hal. cbn [MinorGc.caml_alloc_shr_r free_list_heap].
    destruct (caml_alloc_shr_r (λ _, mreturn 0) fuel sz tag s) as [e|[s' n]]; [done|]. naive_solver.
  - intros f s. unfold caml_scan_global_young_roots_r, free_list_heap, mbnd, mget. destruct (visit f (globals (rest s)) s) as [|[s1 []]]; done.
  - intros s Hok. exists (rest s). by destruct s.
  - done.
Defined.
End Instance.
End MajorAlloc.
