(* ===== verification/Collect.v ===== *)
(** A whole minor collection: the scan of the roots and of the tables of
    references, the theorem that the live part of the minor heap is copied
    ([minor_collection_copies]), and an example. *)

From S2P Require Import Prelude Mlvalues Freelist MinorGc MajorAlloc.

Module Collect.
Import MajorAlloc MinorGc.

Section Scan.
Context {X : Type} {MH : MajorHeap X} {HL : HeapLaws X}.
Context (g : scene) (Hwf : wf g) (one : nat) (Hone : (3 * base.size (Y g) + 2 < one)%nat).

Abbreviation no_hole := (λ _ : Z, False).
Abbreviation oldify := (caml_oldify_one_r one).

(** ** The roots *)

(** More cells may be written. *)
Lemma inv_open s φ todo (H H' : Z → Prop) D : inv g s φ todo H D → (∀ a, H a → H' a) →
  (∀ a, H' a → a ∈ cells g ∨ ∃ b n o i x, in_new g φ b n o i x ∧ b ∉ todo ∧ a = n + 8 * Z.of_nat i) → inv g s φ todo H' D.
Proof.
  intros [V1 V2 V3 V4 V5 V6 V7 V8 V9 V10 V11 V12 V13 V14 V15 V16 V17] Hsub Hh. split; try done.
  - intros b n o i x Hn HH. eapply V10; [done|]. intros Hx. by apply HH, Hsub.
  - intros b n o i x Hn HH. eapply V11; [done|]. intros Hx. by apply HH, Hsub.
  - intros a Ha HH. apply V13; [done|]. intros Hx. by apply HH, Hsub.
Qed.

(** A value that has been moved is not in the minor heap. *)
Lemma new_not_young s φ todo H D v y : inv g s φ todo H D → vok g v → new g φ v = Some y → yv g y = false.
Proof.
  intros HI Hv Hy. unfold new, move in Hy. destruct (yv g (skip g v)) eqn:Hsy; [|by injection Hy as <-].
  assert (∀ b n, φ !! b = Some n → ∃ o, Y g !! b = Some o ∧ (ye g <= n - 8 ∨ n + 8 * o_len o <= ys g)) as Hout.
  { intros b n E. destruct (v_dom _ _ _ _ _ _ HI b n E) as (o & Eo & _ & _ & _ & _ & _ & _ & _ & Hd & _). by exists o. }
  assert (∀ z, ¬ (ys g < z < ye g) → yv g z = false) as Hno by (intros z Hz; apply not_true_iff_false; rewrite yv_spec; tauto).
  assert (vok g (skip g v)) as Hvs.
  { unfold skip. destruct (Y g !! v) as [o|] eqn:E; [|done]. destruct (o_fields o) as [|f l] eqn:El; [done|]. destruct (_ && _) eqn:Ef; [|done].
    apply andb_true_iff in Ef as [Ef _]. apply Z.eqb_eq in Ef. eapply (wf_fields g Hwf v o); [done|rewrite Ef; done|rewrite El; left]. }
  destruct (vok_cases g Hwf _ Hvs Hsy) as [[o Ho]|(_ & Ht & o & k & Eo & _ & _ & Hlt & Ev & _ & Hoff)].
  - destruct (wf_obj g Hwf _ _ Ho) as (_ & _ & Hl & _ & Hni & _). rewrite (obj_tag g Hwf _ _ Ho), (proj2 (Z.eqb_neq _ _) Hni) in Hy.
    destruct (Hout _ _ Hy) as (o' & Eo' & Hd). rewrite Ho in Eo'. injection Eo' as <-. apply Hno. lia.
  - rewrite Ht in Hy. cbn in Hy. destruct (φ !! block_of g (skip g v)) as [n|] eqn:E; [|done]. injection Hy as <-. destruct (Hout _ _ E) as (o' & Eo' & Hd).
    rewrite Eo in Eo'. injection Eo' as <-. apply Hno. unfold o_len in Hd. lia.
Qed.

Lemma old_vok v : yv g v = false → vok g v ∧ reached g v.
Proof. intros Hv. split; [intros Hy; congruence|]. intros Hy. rewrite (skip_old g Hwf v Hv) in Hy. congruence. Qed.

(** The state after more cells, in [l], have been scanned. *)
Definition scanned (l : list Z) (φ : gmap Z Z) (D : list Z) (s s' : gc X) : Prop :=
  ∃ φ' todo' D', inv g s' φ' todo' no_hole D' ∧ φ ⊆ φ' ∧ same s s' ∧ ∀ a, a ∈ D ∨ a ∈ l → a ∈ D'.

Lemma scan_cell_spec s φ todo D a : inv g s φ todo no_hole D → a ∈ cells g → runs (scan_cell oldify a) (λ _ s', scanned [a] φ D s s') s.
Proof.
  intros HI Ha. destruct (v_cells _ _ _ _ _ _ HI a Ha ltac:(tauto)) as (v0 & E0 & Hw). destruct (wf_cells g Hwf a Ha) as [Hc _].
  destruct (v_mapped _ _ _ _ _ _ HI a (proj1 Hc)) as [v Ev]. pose proof (wf_roots g Hwf a v0 Ha E0) as Hv0.
  assert (vok g v ∧ reached g v ∧ (new g φ v0 = Some v ∧ yv g v = false ∨ v = v0)) as (Hv & Hr & Hcase).
  { destruct (decide (a ∈ D)).
    - rewrite Ev in Hw. pose proof (new_not_young s φ todo _ D v0 v HI Hv0 (eq_sym Hw)) as Hn. destruct (old_vok v Hn) as [A1 A2]. split_and!; [done..|]. by left.
    - rewrite Ev in Hw. injection Hw as <-. split_and!; [done| |by right]. intros Hy. exists v. split_and!; [|done..]. by eapply live_root. }
  assert (inv g s φ todo (λ x, x = a) D) as HI1 by (eapply inv_open; [exact HI|done|intros x ->; by left]).
  apply gc_bind, (runs_ld _ v); [done|]. eapply gc_conseq; [apply (oldify_one_spec g Hwf one s φ todo (λ x, x = a) D a v HI1); try done; by apply oldify_enough|].
  intros _ s1 (φ' & todo' & y & HI2 & Hsub & Hy & Hwa & _ & Hs & _). exists φ', todo', (a :: D). split_and!; try done.
  - eapply inv_close; [exact HI2|done| |].
    + intros b n o i x Hn _. left. intros E. destruct (new_cell g s1 _ _ _ _ HI2 _ _ _ _ _ Hn) as (_ & _ & Hcl & _). rewrite E in Hcl. done.
    + intros x Hx _. destruct (decide (x = a)) as [->|Hne].
      * right. split; [left|]. exists v0. split; [done|]. rewrite Hwa. destruct Hcase as [[Hn Hyo]|<-]; [|done]. rewrite (new_old g Hwf φ' v Hyo) in Hy. injection Hy as <-.
        symmetry. by eapply new_mono.
      * left. split; [done|]. rewrite elem_of_cons. tauto.
  - intros x [|Hx%list_elem_of_singleton]; [by right|subst x; left].
Qed.

(** Scans follow each other. *)
Lemma scanned_seq (c : GM X unit) (k : GM X unit) l l' s φ todo D : inv g s φ todo no_hole D → runs c (λ _ s', scanned l φ D s s') s →
  (∀ s1 φ1 todo1 D1, inv g s1 φ1 todo1 no_hole D1 → same s s1 → runs k (λ _ s', scanned l' φ1 D1 s1 s') s1) →
  runs (c ;;; k) (λ _ s', scanned (l ++ l') φ D s s') s.
Proof.
  intros HI Hc Hk. apply gc_bind. eapply gc_conseq; [exact Hc|]. intros _ s1 (φ1 & todo1 & D1 & HI1 & Hsub & Hs & HD). eapply gc_conseq; [by eapply Hk|].
  intros _ s2 (φ2 & todo2 & D2 & HI2 & Hsub2 & Hs2 & HD2). exists φ2, todo2, D2. split_and!; [done|by transitivity φ1|by eapply same_trans|].
  intros a. rewrite elem_of_app. intros [Ha|[Ha|Ha]]; apply HD2; [left; apply HD; by left|left; apply HD; by right|by right].
Qed.

Lemma scanned_nil s φ todo D : inv g s φ todo no_hole D → runs (mreturn tt) (λ _ s', scanned [] φ D s s') s.
Proof. intros HI. exists φ, todo, D. split_and!; try done. intros a [|Ha]; [done|]. by apply elem_of_nil in Ha. Qed.

Lemma visit_spec l : ∀ s φ todo D, inv g s φ todo no_hole D → (∀ a, a ∈ l → a ∈ cells g) → runs (visit oldify l) (λ _ s', scanned l φ D s s') s.
Proof.
  induction l as [|a l IH]; intros s φ todo D HI Hl; [by eapply scanned_nil|]. cbn [visit]. apply (scanned_seq _ _ [a] l s φ todo D HI); [eapply scan_cell_spec; [done|apply Hl; left]|].
  intros s1 φ1 todo1 D1 HI1 _. eapply IH; [done|]. intros x Hx. apply Hl. by right.
Qed.

(** *** The stack, the local roots and the finalised values *)

Definition stack_cells (sp : Z) (n : nat) : list Z := (λ i, sp + 8 * Z.of_nat i) <$> seq 0 n.

Lemma stack_cells_S sp n : stack_cells sp (S n) = sp :: stack_cells (sp + 8) n.
Proof. unfold stack_cells. cbn [seq fmap list_fmap]. f_equal; [lia|]. rewrite <- seq_shift, <- list_fmap_compose. apply list_fmap_ext. intros i x _. cbn. lia. Qed.

Lemma scan_stack_spec n : ∀ fuel sp s φ todo D, (n < fuel)%nat → inv g s φ todo no_hole D → (∀ a, a ∈ stack_cells sp n → a ∈ cells g) →
  runs (scan_stack oldify fuel sp (sp + 8 * Z.of_nat n)) (λ _ s', scanned (stack_cells sp n) φ D s s') s.
Proof.
  induction n as [|n IH]; intros fuel sp s φ todo D Hf HI Hl; (destruct fuel as [|fuel]; [lia|]); cbn [scan_stack].
  - destruct (Z.ltb_spec sp (sp + 8 * Z.of_nat 0)); [lia|]. by eapply scanned_nil.
  - destruct (Z.ltb_spec sp (sp + 8 * Z.of_nat (S n))); [|lia]. rewrite stack_cells_S in *. apply (scanned_seq _ _ [sp] (stack_cells (sp + 8) n) s φ todo D HI).
    + eapply scan_cell_spec; [done|apply Hl; left].
    + intros s1 φ1 todo1 D1 HI1 _. replace (sp + 8 * Z.of_nat (S n)) with (sp + 8 + 8 * Z.of_nat n) by lia. eapply IH; [lia|done|]. intros a Ha. apply Hl. by right.
Qed.

(** A word that the collection does not change. *)
Definition steady (a v : Z) : Prop := m0 g !! a = Some v ∧ client g a ∧ ¬ (ys g <= a < ye g) ∧ a ∉ cells g.

Lemma steady_ld s φ todo H D a v : inv g s φ todo H D → steady a v → words s !! a = Some v.
Proof. intros HI (E & Hc & Hy & Hn). by rewrite (v_frozen _ _ _ _ _ _ HI a Hc Hy Hn). Qed.

(** A [struct caml__roots_block] in memory. *)
Record frame : Type := Frame { f_addr : Z; f_tables : list Z; f_items : nat }.
Definition frame_cells (f : frame) : list Z := flat_map (λ t, stack_cells t (f_items f)) (f_tables f).
Definition frame_at (f : frame) (next : Z) : Prop :=
  f_addr f ≠ 0 ∧ steady (lr_next (f_addr f)) next ∧ steady (lr_ntables (f_addr f)) (Z.of_nat (length (f_tables f))) ∧
  steady (lr_nitems (f_addr f)) (Z.of_nat (f_items f)) ∧ Z.of_nat (length (f_tables f)) < HW ∧ Z.of_nat (f_items f) < HW ∧
  ∀ i t, f_tables f !! i = Some t → steady (lr_tables (f_addr f) (Z.of_nat i)) t.
Fixpoint frames_at (lr : Z) (l : list frame) : Prop :=
  match l with [] => lr = 0 | f :: l => lr = f_addr f ∧ ∃ next, frame_at f next ∧ frames_at next l end.

Lemma s64_nat n : Z.of_nat n < HW → s64 (Z.of_nat n) = Z.of_nat n.
Proof. intros Hn. apply s64_small. unfold HW in *. lia. Qed.

Lemma scan_items_spec f next t i : frame_at f next → f_tables f !! i = Some t → ∀ n fuel j s φ todo D, (j + n = f_items f)%nat → (n < fuel)%nat → inv g s φ todo no_hole D →
  (∀ a, a ∈ stack_cells (t + 8 * Z.of_nat j) n → a ∈ cells g) →
  runs (scan_items oldify fuel (f_addr f) (Z.of_nat i) (Z.of_nat j)) (λ _ s', scanned (stack_cells (t + 8 * Z.of_nat j) n) φ D s s') s.
Proof.
  intros (_ & _ & _ & Hit & _ & Hb & Htb) Ht n. specialize (Htb i t Ht).
  induction n as [|n IH]; intros fuel j s φ todo D Hj Hf HI Hl; (destruct fuel as [|fuel]; [lia|]); cbn [scan_items];
    apply gc_bind, (runs_ld _ (Z.of_nat (f_items f))); try (by eapply steady_ld); rewrite !s64_nat by lia.
  - destruct (Z.ltb_spec (Z.of_nat j) (Z.of_nat (f_items f))); [lia|]. by eapply scanned_nil.
  - destruct (Z.ltb_spec (Z.of_nat j) (Z.of_nat (f_items f))); [|lia]. apply gc_bind, (runs_ld _ t); [by eapply steady_ld|]. rewrite stack_cells_S in *.
    apply (scanned_seq _ _ [t + 8 * Z.of_nat j] _ s φ todo D HI); [eapply scan_cell_spec; [done|apply Hl; left]|].
    intros s1 φ1 todo1 D1 HI1 _. replace (Z.of_nat j + 1) with (Z.of_nat (S j)) by lia. replace (t + 8 * Z.of_nat j + 8) with (t + 8 * Z.of_nat (S j)) in * by lia.
    eapply IH; [lia|lia|done|]. intros a Ha. apply Hl. by right.
Qed.

Lemma scan_tables_spec f next fuel : frame_at f next → (f_items f < fuel)%nat → ∀ ts n i s φ todo D, f_tables f = take i (f_tables f) ++ ts → (i + length ts = length (f_tables f))%nat →
  (length ts < n)%nat → inv g s φ todo no_hole D → (∀ a, a ∈ flat_map (λ t, stack_cells t (f_items f)) ts → a ∈ cells g) →
  runs (scan_tables oldify fuel n (f_addr f) (Z.of_nat i)) (λ _ s', scanned (flat_map (λ t, stack_cells t (f_items f)) ts) φ D s s') s.
Proof.
  intros Hfr Hfuel ts. pose proof Hfr as (_ & _ & Hnt & _ & Hb & _). induction ts as [|t ts IH]; intros n i s φ todo D Hts Hi Hn HI Hl; (destruct n as [|n]; [lia|]); cbn [scan_tables];
    apply gc_bind, (runs_ld _ (Z.of_nat (length (f_tables f)))); try (by eapply steady_ld); cbn [length] in *; rewrite !s64_nat by lia.
  - destruct (Z.ltb_spec (Z.of_nat i) (Z.of_nat (length (f_tables f)))); [lia|]. by eapply scanned_nil.
  - destruct (Z.ltb_spec (Z.of_nat i) (Z.of_nat (length (f_tables f)))); [|lia]. cbn [flat_map] in *.
    assert (f_tables f !! i = Some t) as Ht.
    { rewrite Hts, lookup_app_r; rewrite length_take; [|lia]. by replace (i - i `min` length (f_tables f))%nat with 0%nat by lia. }
    apply (scanned_seq _ _ (stack_cells t (f_items f)) _ s φ todo D HI).
    + pose proof (scan_items_spec f next t i Hfr Ht (f_items f) fuel 0%nat s φ todo D eq_refl Hfuel HI) as Hsi. replace (t + 8 * Z.of_nat 0) with t in Hsi by lia.
      apply Hsi. intros a Ha. apply Hl. apply elem_of_app. by left.
    + intros s1 φ1 todo1 D1 HI1 _. replace (Z.of_nat i + 1) with (Z.of_nat (S i)) by lia. eapply IH; [|lia|lia|done|].
      * rewrite Hts at 1. rewrite (take_S_r _ _ _ Ht), <- app_assoc. done.
      * intros a Ha. apply Hl. apply elem_of_app. by right.
Qed.

Lemma scan_local_roots_spec fuel : ∀ l n lr s φ todo D, frames_at lr l → (length l < n)%nat → Forall (λ f, (f_items f < fuel)%nat ∧ (length (f_tables f) < fuel)%nat) l →
  inv g s φ todo no_hole D → (∀ a, a ∈ flat_map frame_cells l → a ∈ cells g) →
  runs (scan_local_roots oldify fuel n lr) (λ _ s', scanned (flat_map frame_cells l) φ D s s') s.
Proof.
  induction l as [|f l IH]; intros n lr s φ todo D Hat Hn Hsz HI Hl; (destruct n as [|n]; [lia|]); cbn [scan_local_roots frames_at flat_map] in *.
  - rewrite Hat. by eapply scanned_nil.
  - destruct Hat as (-> & next & Hfr & Hat). apply Forall_cons in Hsz as [[S1 S2] Hsz]. pose proof Hfr as (Hne & Hnx & _). rewrite (proj2 (Z.eqb_neq _ _) Hne).
    apply (scanned_seq _ _ (frame_cells f) _ s φ todo D HI).
    + pose proof (scan_tables_spec f next fuel Hfr S1 (f_tables f) fuel 0%nat s φ todo D eq_refl eq_refl S2 HI) as Hst. apply Hst. intros a Ha. apply Hl. apply elem_of_app. by left.
    + intros s1 φ1 todo1 D1 HI1 _. apply gc_bind, (runs_ld _ next); [by eapply steady_ld|]. eapply IH; try done; [cbn in Hn; lia|]. intros a Ha. apply Hl. apply elem_of_app. by right.
Qed.

Definition final_cells (t i : Z) (n : nat) : list Z := flat_map (λ k, [final_fun t (i + Z.of_nat k); final_val t (i + Z.of_nat k)]) (seq 0 n).

Lemma final_cells_S t i n : final_cells t i (S n) = final_fun t i :: final_val t i :: final_cells t (i + 1) n.
Proof.
  unfold final_cells. cbn [seq flat_map]. rewrite Z.add_0_r. cbn [app]. do 2 f_equal. rewrite <- seq_shift, flat_map_concat_map, map_map, <- flat_map_concat_map.
  apply flat_map_ext. intros k. by replace (i + Z.of_nat (S k)) with (i + 1 + Z.of_nat k) by lia.
Qed.

Lemma final_scan_spec n : ∀ t i s φ todo D, inv g s φ todo no_hole D → (∀ a, a ∈ final_cells t i n → a ∈ cells g) →
  runs (final_scan oldify n t i) (λ _ s', scanned (final_cells t i n) φ D s s') s.
Proof.
  induction n as [|n IH]; intros t i s φ todo D HI Hl; cbn [final_scan]; [by eapply scanned_nil|]. rewrite final_cells_S in *.
  apply (scanned_seq _ _ [final_fun t i] _ s φ todo D HI); [eapply scan_cell_spec; [done|apply Hl; left]|]. intros s1 φ1 todo1 D1 HI1 _.
  apply (scanned_seq _ _ [final_val t i] _ s1 φ1 todo1 D1 HI1); [eapply scan_cell_spec; [done|apply Hl; right; left]|]. intros s2 φ2 todo2 D2 HI2 _.
  eapply IH; [done|]. intros a Ha. apply Hl. by do 2 right.
Qed.

(** *** The table of references *)
Definition entries_at (base : Z) (l : list Z) : Prop := ∀ i a, l !! i = Some a → steady (base + 8 * Z.of_nat i) a.

Lemma oldify_refs_spec b l : entries_at b l → ∀ n i fuel s φ todo D, (i + n = length l)%nat → (n < fuel)%nat → inv g s φ todo no_hole D →
  ptr (caml_ref_table s) = b + 8 * Z.of_nat (length l) → (∀ a, a ∈ drop i l → a ∈ cells g) →
  runs (oldify_refs fuel one (b + 8 * Z.of_nat i)) (λ _ s', scanned (drop i l) φ D s s') s.
Proof.
  intros He n. induction n as [|n IH]; intros i fuel s φ todo D Hi Hf HI Hp Hl; (destruct fuel as [|fuel]; [lia|]); cbn [oldify_refs]; apply gc_bind, runs_get; rewrite Hp.
  - destruct (Z.ltb_spec (b + 8 * Z.of_nat i) (b + 8 * Z.of_nat (length l))); [lia|]. rewrite drop_ge by lia. by eapply scanned_nil.
  - destruct (Z.ltb_spec (b + 8 * Z.of_nat i) (b + 8 * Z.of_nat (length l))); [|lia]. destruct (lookup_lt_is_Some_2 l i) as [a Ha]; [lia|].
    apply gc_bind, (runs_ld _ a); [eapply steady_ld; [done|by apply He]|]. rewrite (drop_S _ _ _ Ha) in *.
    assert (∀ k : GM X unit, runs (scan_cell oldify a ;;; k) (λ _ s', scanned ([a] ++ drop (S i) l) φ D s s') s → runs (let* v := ld a in oldify v a ;;; k) (λ _ s', scanned (a :: drop (S i) l) φ D s s') s) as Has.
    { intros k. unfold runs, scan_cell. rewrite mbnd_assoc. done. }
    apply Has, (scanned_seq _ _ [a] _ s φ todo D HI); [eapply scan_cell_spec; [done|apply Hl; left]|].
    intros s1 φ1 todo1 D1 HI1 Hs. replace (b + 8 * Z.of_nat i + 8) with (b + 8 * Z.of_nat (S i)) by lia. eapply IH; [lia|lia|done| |].
    + destruct Hs as (_ & -> & _). done.
    + intros x Hx. apply Hl. by right.
Qed.

(** ** The weak references *)

(** A weak reference to a block that was copied follows it; the others are
    cleared. *)
Definition weak_new (φ : gmap Z Z) (v : Z) : Z := if yv g v then default caml_weak_none (φ !! v) else v.

Definition weak_at (a : Z) : Prop := client g a ∧ ¬ (ys g <= a < ye g) ∧ a ∉ cells g ∧ ∃ v, m0 g !! a = Some v ∧ vok g v.

(** The memory after the weak cells of [l] were updated. *)
Definition weak_done (φ : gmap Z Z) (l : list Z) (s0 s : gc X) : Prop :=
  (∀ a, a ∈ l → ∃ v, m0 g !! a = Some v ∧ words s !! a = Some (weak_new φ v)) ∧
  (∀ a, a ∉ l → words s !! a = words s0 !! a) ∧ s = set_words (words s) s0 ∧ dom (words s) = dom (words s0).

Lemma weak_ref_spec s0 φ D a l s : inv g s0 φ [] no_hole D → yv g caml_weak_none = false → weak_at a → Forall weak_at l → weak_done φ l s0 s →
  runs (weak_ref a) (λ _ s', weak_done φ (a :: l) s0 s') s.
Proof.
  intros HI Hnone Ha Hl (H1 & H2 & H3 & H4). destruct Ha as (Hc & Hny & Hnc & v & Ev & Hv).
  assert (∀ z, ys g <= z < ye g → words s !! z = words s0 !! z) as Hyoung by (intros z Hz; apply H2; intros Hin; rewrite Forall_forall in Hl; by destruct (Hl z Hin) as (_ & Hn & _)).
  assert (∀ z, ¬ (ys g < z < ye g) → yv g z = false) as Hno by (intros z Hz; apply not_true_iff_false; rewrite yv_spec; tauto).
  assert (∃ w, words s !! a = Some w ∧ (w = v ∨ yv g w = false ∧ w = weak_new φ v)) as (w & Ew & Hw).
  { destruct (decide (a ∈ l)) as [Hin|Hin].
    - destruct (H1 a Hin) as (v' & Ev' & Hw). rewrite Ev in Ev'. injection Ev' as <-. exists (weak_new φ v). split; [done|]. right. split; [|done]. unfold weak_new.
      destruct (yv g v) eqn:Hy; [|done]. destruct (φ !! v) as [n|] eqn:E; [|done]. destruct (v_dom _ _ _ _ _ _ HI v n E) as (o & Eo & _ & _ & _ & _ & _ & _ & _ & Hd & _).
      destruct (wf_obj g Hwf _ _ Eo) as (_ & _ & Hl' & _). apply Hno. cbn. lia.
    - exists v. split; [|by left]. rewrite (H2 a Hin). by rewrite (v_frozen _ _ _ _ _ _ HI a Hc Hny Hnc). }
  assert (young s = young s0) as Ey by by rewrite H3.
  assert (∀ x, Is_block x && Is_young s x = yv g x) as Hyt by (intros x; rewrite <- (young_test g s0 φ [] _ D HI x); unfold Is_young; by rewrite Ey).
  assert (∀ x, x = weak_new φ v → runs (st a x) (λ _ s', weak_done φ (a :: l) s0 s') s) as Hst.
  { intros x ->. apply runs_st; [by rewrite Ew|]. split_and!; cbn.
    - intros z Hz. destruct (decide (z = a)) as [->|Hne]; [exists v; by rewrite lookup_insert_eq|]. rewrite lookup_insert_ne by done. apply elem_of_cons in Hz as [|Hz]; [done|by apply H1].
    - intros z [Hne Hz]%not_elem_of_cons. rewrite lookup_insert_ne by done. by apply H2.
    - generalize (<[a := weak_new φ v]> (words s)). intros m. by rewrite H3.
    - rewrite <- H4. apply dom_insert_same. by rewrite Ew. }
  apply gc_bind, (runs_ld _ w); [done|]. apply gc_bind, runs_get. rewrite Hyt. destruct (yv g w) eqn:Hyw.
  - destruct Hw as [->|[? _]]; [|congruence]. destruct (vok_cases g Hwf v Hv Hyw) as [[o Ho]|(En & _)].
    + destruct (wf_obj g Hwf _ _ Ho) as (_ & _ & Hlen & _). pose proof (young_addr g Hwf v o (-1) Ho ltac:(lia)) as Y1. pose proof (young_addr g Hwf v o 0 Ho ltac:(lia)) as Y0.
      replace (v + 8 * -1) with (v - 8) in Y1 by lia. rewrite Z.add_0_r in Y0. destruct (φ !! v) as [n|] eqn:E.
      * destruct (v_moved _ _ _ _ _ _ HI v n E) as [M1 M2]. apply gc_bind, (runs_ld _ 0); [unfold Hd_val; by rewrite (Hyoung _ Y1)|]. cbn.
        apply gc_bind, (runs_ld _ n); [unfold Field; rewrite Z.add_0_r; by rewrite (Hyoung _ Y0)|]. apply Hst. unfold weak_new. by rewrite Hyw, E.
      * destruct (v_intact _ _ _ _ _ _ HI v o Ho E) as [M1 _]. apply gc_bind, (runs_ld _ (o_hd o)); [unfold Hd_val; by rewrite (Hyoung _ Y1)|].
        rewrite (proj2 (Z.eqb_neq _ _) (obj_hd_ne g Hwf _ _ Ho)). apply Hst. unfold weak_new. by rewrite Hyw, E.
    + destruct (infix_header g Hwf s0 φ [] _ D v HI En Hv Hyw) as [M1 M2]. destruct (vok_cases g Hwf v Hv Hyw) as [[o Ho]|(_ & _ & o & k & Eo & _ & Hk & Hlt & Evk & _)]; [congruence|].
      pose proof (young_addr g Hwf _ o (Z.of_nat k) Eo ltac:(unfold o_len; lia)) as Yk. replace (block_of g v + 8 * Z.of_nat k) with (Hd_val v) in Yk by (unfold Hd_val; lia).
      apply gc_bind, (runs_ld _ (hd0 g v)); [by rewrite (Hyoung _ Yk)|]. rewrite (proj2 (Z.eqb_neq _ _) M2). apply Hst. unfold weak_new. rewrite Hyw.
      destruct (φ !! v) as [n|] eqn:E; [|done]. destruct (v_dom _ _ _ _ _ _ HI v n E) as (o' & Eo' & _). congruence.
  - apply runs_ret. assert (w = weak_new φ v) as -> by (destruct Hw as [->|[_ ->]]; [unfold weak_new; by rewrite Hyw|done]). split_and!; try done.
    + intros z [->|Hz]%elem_of_cons; [by exists v|by apply H1].
    + intros z [Hne Hz]%not_elem_of_cons. by apply H2.
Qed.

Lemma weak_refs_spec s0 φ D b l : inv g s0 φ [] no_hole D → yv g caml_weak_none = false → (∀ i a, l !! i = Some a → steady (b + 8 * Z.of_nat i) a ∧ (b + 8 * Z.of_nat i) ∉ l) → Forall weak_at l →
  ptr (caml_weak_ref_table s0) = b + 8 * Z.of_nat (length l) →
  ∀ n i fuel s, (i + n = length l)%nat → (n < fuel)%nat → weak_done φ (reverse (take i l)) s0 s →
  runs (weak_refs fuel (b + 8 * Z.of_nat i)) (λ _ s', weak_done φ (reverse l) s0 s') s.
Proof.
  intros HI Hnone He Hat Hp n. induction n as [|n IH]; intros i fuel s Hi Hf Hd; (destruct fuel as [|fuel]; [lia|]); cbn [weak_refs]; apply gc_bind, runs_get;
    assert (caml_weak_ref_table s = caml_weak_ref_table s0) as -> by (by destruct Hd as (_ & _ & -> & _)); rewrite Hp.
  - destruct (Z.ltb_spec (b + 8 * Z.of_nat i) (b + 8 * Z.of_nat (length l))); [lia|]. apply runs_ret. by rewrite take_ge in Hd by lia.
  - destruct (Z.ltb_spec (b + 8 * Z.of_nat i) (b + 8 * Z.of_nat (length l))); [|lia]. destruct (lookup_lt_is_Some_2 l i) as [a Ha]; [lia|]. destruct (He i a Ha) as [Hst Hnl].
    apply gc_bind, (runs_ld _ a).
    + destruct Hd as (_ & H2 & _). rewrite H2; [by eapply steady_ld|]. intros Hin. apply Hnl. rewrite elem_of_reverse in Hin. by eapply elem_of_take in Hin as (j & Hj & _); eapply list_elem_of_lookup_2.
    + apply gc_bind. rewrite Forall_forall in Hat. eapply gc_conseq; [eapply (weak_ref_spec s0 φ D a (reverse (take i l)) s); try done|].
      * apply Hat. by eapply list_elem_of_lookup_2.
      * apply Forall_forall. intros x Hx. apply Hat. rewrite elem_of_reverse in Hx. by eapply elem_of_take in Hx as (j & Hj & _); eapply list_elem_of_lookup_2.
      * intros ? s' Hd'. replace (b + 8 * Z.of_nat i + 8) with (b + 8 * Z.of_nat (S i)) by lia. apply IH; [lia|lia|]. by rewrite (take_S_r _ _ _ Ha), reverse_app.
Qed.

(** ** A collection *)

(** A state to collect from: it is the scene [g], with [n] words of stack, the
    frames [fs] of local roots and the recorded references [refs]. *)
Record ready (s : gc X) (n : nat) (fs : list frame) (refs : list Z) : Prop := {
  r_words : words s = m0 g;
  r_young : caml_young_start (young s) = ys g ∧ caml_young_end (young s) = ye g;
  r_ok : major_ok s;
  r_own a : own0 g a ↔ owned s a;
  r_area f : Is_in_value_area s f = inva g f;
  r_todo : oldify_todo_list s = 0;
  r_stack : caml_stack_high (roots s) = caml_extern_sp (roots s) + 8 * Z.of_nat n;
  r_frames : frames_at (caml_local_roots (roots s)) fs;
  r_refs : entries_at (base (caml_ref_table s)) refs ∧ ptr (caml_ref_table s) = base (caml_ref_table s) + 8 * Z.of_nat (length refs);
  r_weak i a : weaks g !! i = Some a → steady (base (caml_weak_ref_table s) + 8 * Z.of_nat i) a ∧ (base (caml_weak_ref_table s) + 8 * Z.of_nat i) ∉ weaks g;
  r_weak_ptr : ptr (caml_weak_ref_table s) = base (caml_weak_ref_table s) + 8 * Z.of_nat (length (weaks g));
  r_weak_at : Forall weak_at (weaks g);
  r_none : yv g caml_weak_none = false;
  r_cells : cells g = stack_cells (caml_extern_sp (roots s)) n ++ flat_map frame_cells fs ++ global_cells (rest s) ++
    final_cells (final_table (roots s)) (final_old (roots s)) (Z.to_nat (final_young (roots s) - final_old (roots s))) ++ hook_cells (rest s) ++ refs
}.

(** Enough fuel for the loops. *)
Record enough (fuel n : nat) (fs : list frame) (refs : list Z) : Prop := {
  e_stack : (n < fuel)%nat;
  e_frames : (length fs < fuel)%nat ∧ Forall (λ f, (f_items f < fuel)%nat ∧ (length (f_tables f) < fuel)%nat) fs;
  e_refs : (length refs < fuel)%nat ∧ (length (weaks g) < fuel)%nat;
  e_blocks : (base.size (Y g) < fuel)%nat ∧ ∀ b o, Y g !! b = Some o → (length (o_fields o) < fuel)%nat
}.

(** The result: [φ] maps the live blocks, and no others, to their copies. *)
Record collected (φ : gmap Z Z) (s' : gc X) : Prop := {
  c_roots a : a ∈ cells g → ∃ v y, m0 g !! a = Some v ∧ new g φ v = Some y ∧ words s' !! a = Some y;
  c_live b : is_Some (φ !! b) ↔ live_block g b;
  c_copy b n : φ !! b = Some n → ∃ o, Y g !! b = Some o ∧ (∃ h, words s' !! (n - 8) = Some h ∧ Wosize_hd h = o_len o ∧ Tag_hd h = o_tag o) ∧
    ∀ i x, o_fields o !! i = Some x →
      if No_scan_tag <=? o_tag o then words s' !! (n + 8 * Z.of_nat i) = Some x else ∃ y, new g φ x = Some y ∧ words s' !! (n + 8 * Z.of_nat i) = Some y;
  c_apart b n o b' n' o' : φ !! b = Some n → Y g !! b = Some o → φ !! b' = Some n' → Y g !! b' = Some o' → b ≠ b' → apart n (o_len o) n' (o_len o');
  c_fresh b n o a : φ !! b = Some n → Y g !! b = Some o → in_block n (o_len o) a → ¬ client g a ∧ ¬ (ys g <= a < ye g);
  c_old v y : vok g v → new g φ v = Some y → yv g y = false;
  c_weak a v : a ∈ weaks g → m0 g !! a = Some v → words s' !! a = Some (weak_new φ v);
  c_frame a : client g a → ¬ (ys g <= a < ye g) → a ∉ cells g → a ∉ weaks g → words s' !! a = m0 g !! a;
  c_empty : caml_young_ptr (young s') = caml_young_end (young s') ∧ caml_young_start (young s') = ys g ∧ caml_young_end (young s') = ye g ∧
    ptr (caml_ref_table s') = base (caml_ref_table s') ∧ ptr (caml_weak_ref_table s') = base (caml_weak_ref_table s') ∧
    final_old (roots s') = final_young (roots s') ∧ caml_in_minor_collection s' = 0 ∧ major_ok s'
}.

Lemma inv_start s n fs refs : ready s n fs refs → inv g (set_in_minor 1 s) ∅ [] no_hole [].
Proof.
  intros R. destruct (major_frame s (set_in_minor 1 s)) as (K1 & K2 & K3); try done; [apply R|]. split; cbn; try done; try (by intros; simplify_map_eq).
  - apply R.
  - intros f _. rewrite K3. apply R.
  - intros b o Eb _. rewrite (r_words _ _ _ _ R). destruct (wf_obj g Hwf _ _ Eb) as (_ & _ & _ & _ & _ & H1 & H2). split; [done|]. intros x Hx. specialize (H2 _ _ Hx). by rewrite Z.add_0_r in H2.
  - intros b o i x Eb _ Hx. rewrite (r_words _ _ _ _ R). destruct (wf_obj g Hwf _ _ Eb) as (_ & _ & _ & _ & _ & _ & H2). by apply H2.
  - intros b n' o i x (E & _). by rewrite lookup_empty in E.
  - intros b n' o i x (E & _). by rewrite lookup_empty in E.
  - split_and!; [apply R|done|constructor].
  - intros a Ha _. destruct (wf_cells g Hwf a Ha) as [[[v Hv] _] _]. exists v. split; [done|]. by rewrite (r_words _ _ _ _ R).
  - intros a _ _ _. by rewrite (r_words _ _ _ _ R).
  - intros a Ha. by rewrite (r_words _ _ _ _ R).
  - intros a [_ Ha]. rewrite K2. by rewrite <- (r_own _ _ _ _ R).
Qed.

(** The state after a change that concerns the lists of global roots only. *)
Lemma after_global_spec s φ todo D : inv g s φ todo no_hole D → runs after_global (λ _ s', inv g s' φ todo no_hole D ∧ ∃ x, s' = set_rest x s ∧ hook_cells x = hook_cells (rest s)) s.
Proof.
  intros HI. destruct (after_law s (v_ok _ _ _ _ _ _ HI)) as (x & E & Hh & K1 & K2 & K3). unfold runs. rewrite E. split; [|by exists x].
  apply (inv_frame g Hwf s); try done. intros a _ Ho. by rewrite K2.
Qed.

(** What the scan of the roots leaves alone. *)
Definition same' (s s' : gc X) : Prop := young s' = young s ∧ caml_ref_table s' = caml_ref_table s ∧ caml_weak_ref_table s' = caml_weak_ref_table s ∧ roots s' = roots s.
Lemma same_same' s s' : same s s' → same' s s'.
Proof. intros (A1 & A2 & A3 & A4 & _). done. Qed.
Lemma same'_trans s1 s2 s3 : same' s1 s2 → same' s2 s3 → same' s1 s3.
Proof. intros (A1 & A2 & A3 & A4) (B1 & B2 & B3 & B4). split_and!; congruence. Qed.

Lemma local_roots_spec s n fs refs fuel : ready s n fs refs → enough fuel n fs refs → let s0 := set_in_minor 1 s in
  runs (caml_oldify_local_roots_r fuel one) (λ _ s', ∃ φ todo D, inv g s' φ todo no_hole D ∧ same' s0 s' ∧ ∀ a, a ∈ cells g → a ∈ D ∨ a ∈ refs) s0.
Proof.
  intros R E s0. pose proof (inv_start s n fs refs R) as HI. fold s0 in HI. destruct (e_frames _ _ _ _ E) as [Ef1 Ef2].
  assert (∀ l : list Z, (∀ a, a ∈ l → a ∈ stack_cells (caml_extern_sp (roots s)) n ++ flat_map frame_cells fs ++ global_cells (rest s) ++ final_cells (final_table (roots s)) (final_old (roots s)) (Z.to_nat (final_young (roots s) - final_old (roots s))) ++ hook_cells (rest s) ++ refs) → ∀ a, a ∈ l → a ∈ cells g) as Hin by (intros l Hl a Ha; rewrite (r_cells _ _ _ _ R); by apply Hl).
  unfold caml_oldify_local_roots_r. apply gc_bind, runs_get. apply gc_bind. change (roots s0) with (roots s). rewrite (r_stack _ _ _ _ R).
  eapply gc_conseq; [eapply scan_stack_spec; [apply E|exact HI|apply Hin; intros a Ha; rewrite !elem_of_app; tauto]|]. intros [] s1 (φ1 & todo1 & D1 & HI1 & _ & S1 & HD1).
  apply gc_bind, runs_get. apply gc_bind. assert (roots s1 = roots s) as -> by apply S1.
  eapply gc_conseq; [eapply scan_local_roots_spec; [apply R|exact Ef1|exact Ef2|exact HI1|apply Hin; intros a Ha; rewrite !elem_of_app; tauto]|]. intros [] s2 (φ2 & todo2 & D2 & HI2 & _ & S2 & HD2).
  assert (same s0 s2) as S02 by by eapply same_trans. destruct S02 as (Sy & Sr & Sw & Sroot & Sg & Sh).
  apply gc_bind. unfold runs at 1. rewrite scan_global_law. assert (global_cells (rest s2) = global_cells (rest s)) as -> by exact Sg.
  match goal with |- match ?c ?st with _ => _ end => change (runs c (λ _, runs (caml_final_do_young_roots_r oldify ;;; caml_scan_roots_hook oldify) (λ _ s', ∃ φ todo D, inv g s' φ todo no_hole D ∧ same' s0 s' ∧ ∀ a, a ∈ cells g → a ∈ D ∨ a ∈ refs)) st) end.
  apply gc_bind. eapply gc_conseq; [eapply visit_spec; [exact HI2|apply Hin; intros a Ha; rewrite !elem_of_app; tauto]|]. intros [] s3 (φ3 & todo3 & D3 & HI3 & _ & S3 & HD3).
  eapply gc_conseq; [by eapply after_global_spec|]. intros [] s4 (HI4 & x & -> & Hx). destruct S3 as (Sy3 & Sr3 & Sw3 & Sroot3 & _ & Sh3).
  apply gc_bind. unfold caml_final_do_young_roots_r. apply gc_bind, runs_get. cbn [roots set_rest]. assert (roots s3 = roots s) as -> by (rewrite Sroot3; exact Sroot).
  eapply gc_conseq; [eapply final_scan_spec; [exact HI4|apply Hin; intros a Ha; rewrite !elem_of_app; tauto]|]. intros [] s5 (φ5 & todo5 & D5 & HI5 & _ & S5 & HD5).
  unfold runs. rewrite scan_hook_law. assert (hook_cells (rest s5) = hook_cells (rest s)) as -> by (destruct S5 as (_ & _ & _ & _ & _ & ->); cbn; rewrite Hx, Sh3; exact Sh).
  match goal with |- match ?c ?st with _ => _ end => change (runs c (λ _ s', ∃ φ todo D, inv g s' φ todo no_hole D ∧ same' s0 s' ∧ ∀ a, a ∈ cells g → a ∈ D ∨ a ∈ refs) st) end.
  eapply gc_conseq; [eapply visit_spec; [exact HI5|apply Hin; intros a Ha; rewrite !elem_of_app; tauto]|]. intros [] s6 (φ6 & todo6 & D6 & HI6 & _ & S6 & HD6).
  exists φ6, todo6, D6. split_and!; [done| |].
  - eapply same'_trans; [|eapply same_same'; exact S6]. eapply same'_trans; [|eapply same_same'; exact S5].
    split_and!; etransitivity; [exact Sy3|exact Sy|exact Sr3|exact Sr|exact Sw3|exact Sw|exact Sroot3|exact Sroot].
  - intros a. rewrite (r_cells _ _ _ _ R), !elem_of_app. intros [Ha|[Ha|[Ha|[Ha|[Ha|Ha]]]]]; [left..|by right]; apply HD6; [left|left|left|left|by right].
    + apply HD5. left. apply HD3. left. apply HD2. left. apply HD1. by right.
    + apply HD5. left. apply HD3. left. apply HD2. by right.
    + apply HD5. left. apply HD3. by right.
    + apply HD5. by right.
Qed.

Lemma todo_length s φ todo H D : inv g s φ todo H D → (length todo <= base.size φ)%nat.
Proof.
  intros HI. destruct (v_todo _ _ _ _ _ _ HI) as (_ & _ & Hnd). rewrite <- size_dom. rewrite <- (size_list_to_set (C := gset Z) todo Hnd). apply subseteq_size.
  intros b Hb%elem_of_list_to_set. apply elem_of_dom. by eapply todo_dom.
Qed.

(** Every live value has been moved. *)
Lemma live_new s φ D v : inv g s φ [] no_hole D → (∀ a, a ∈ cells g → a ∈ D) → live g v → is_Some (new g φ v).
Proof.
  intros HI HD. induction 1 as [a v Ha Ev|v b o x Hv IH Hy Ht Eb Htag Hx].
  - destruct (v_cells _ _ _ _ _ _ HI a Ha ltac:(tauto)) as (v' & Ev' & Hw). rewrite Ev in Ev'. injection Ev' as <-. rewrite decide_True in Hw by by apply HD. rewrite <- Hw.
    apply (v_mapped _ _ _ _ _ _ HI), (wf_cells g Hwf a Ha).
  - assert (is_Some (φ !! b)) as [n En].
    { unfold new, move in IH. rewrite Hy in IH. unfold target, block_of in Ht. destruct (tag0 g (skip g v) =? Infix_tag) eqn:Ei; [|by rewrite <- Ht].
      unfold block_of in IH. rewrite Ei, Ht in IH. destruct (φ !! b); [done|]. by destruct IH. }
    apply list_elem_of_lookup in Hx as [i Hi]. destruct (v_copied _ _ _ _ _ _ HI b n o i x) as (y & Hy' & _); try done; [tauto|]. intros Hb. by apply elem_of_nil in Hb.
Qed.

(** The invariant at the end, the weak references being updated. *)
Lemma collected_spec s1 s2 s' φ D : inv g s1 φ [] no_hole D → (∀ a, a ∈ cells g → a ∈ D) → Forall weak_at (weaks g) → weak_done φ (reverse (weaks g)) s1 s2 → words s' = words s2 → rest s' = rest s2 →
  caml_young_start (young s') = ys g → caml_young_end (young s') = ye g → caml_young_ptr (young s') = caml_young_end (young s') →
  ptr (caml_ref_table s') = base (caml_ref_table s') → ptr (caml_weak_ref_table s') = base (caml_weak_ref_table s') → final_old (roots s') = final_young (roots s') → caml_in_minor_collection s' = 0 →
  collected φ s'.
Proof.
  intros HI HD Hwk (W1 & W2 & W3 & W4) Ew Er Ey1 Ey2 Ey3 Er1 Er2 Er3 Er4. rewrite Forall_forall in Hwk.
  assert (∀ a, a ∉ weaks g → words s' !! a = words s1 !! a) as Hag by (intros a Ha; rewrite Ew; apply W2; by rewrite elem_of_reverse).
  assert (∀ a, ¬ client g a → a ∉ weaks g) as Hnc by (intros a Ha Hin; by apply Ha, (Hwk a Hin)).
  split.
  - intros a Ha. destruct (v_cells _ _ _ _ _ _ HI a Ha ltac:(tauto)) as (v & Ev & Hw). rewrite decide_True in Hw by by apply HD.
    destruct (v_mapped _ _ _ _ _ _ HI a) as [y Hy]; [apply (wf_cells g Hwf a Ha)|]. exists v, y. rewrite <- Hw. split_and!; [done..|]. rewrite Hag; [done|]. intros Hin. by destruct (Hwk a Hin) as (_ & _ & Hn & _).
  - intros b. split.
    + intros [n En]. by destruct (v_dom _ _ _ _ _ _ HI b n En) as (o & _ & _ & Hl & _).
    + intros (v & Hv & Hy & Ht). pose proof (live_new s1 φ D v HI HD Hv) as Hn. unfold new, move in Hn. rewrite Hy in Hn. unfold target in Ht. rewrite Ht in Hn.
      unfold block_of in Ht. destruct (tag0 g (skip g v) =? Infix_tag) eqn:Ei; [|by rewrite <- Ht]. destruct (φ !! b); [done|]. by destruct Hn.
  - intros b n En. destruct (v_dom _ _ _ _ _ _ HI b n En) as (o & Eo & _ & _ & Hh & _). exists o. split_and!; [done| |].
    + destruct Hh as (h & Hh & Hsz). exists h. rewrite Hag; [done|]. apply Hnc. by eapply new_header.
    + intros i x Hx. pose proof (conj En (conj Eo Hx) : in_new g φ b n o i x) as Hin. destruct (new_cell g s1 _ _ _ _ HI _ _ _ _ _ Hin) as (_ & _ & Hcl & _). rewrite Hag by by apply Hnc.
      destruct (Z.leb_spec No_scan_tag (o_tag o)) as [Hge|Hlt]; [eapply v_raw; [done..| |done]; tauto|]. eapply v_copied; [done..| |done|]; [tauto|]. intros Hb. by apply elem_of_nil in Hb.
  - apply (v_apart _ _ _ _ _ _ HI).
  - intros b n o a En Eo (i & Hi & ->). destruct (Z.eq_dec i (-1)) as [->|Hne].
    + replace (n + 8 * -1) with (n - 8) by lia. by destruct (new_header g Hwf s1 _ _ _ _ HI b n o En Eo) as (_ & ? & _ & ?).
    + destruct (lookup_lt_is_Some_2 (o_fields o) (Z.to_nat i)) as [x Hx]; [unfold o_len in Hi; lia|]. pose proof (conj En (conj Eo Hx) : in_new g φ b n o (Z.to_nat i) x) as Hin.
      destruct (new_cell g s1 _ _ _ _ HI _ _ _ _ _ Hin) as (_ & _ & ? & _ & ?). by rewrite Z2Nat.id in * by lia.
  - intros v y Hv Hy. by eapply new_not_young.
  - intros a v Ha Ev. destruct (W1 a) as (v' & Ev' & Hw); [by rewrite elem_of_reverse|]. rewrite Ev in Ev'. injection Ev' as <-. by rewrite Ew.
  - intros a Hc Hy Hn Hw. rewrite Hag by done. by apply (v_frozen _ _ _ _ _ _ HI).
  - split_and!; try done. destruct (v_young _ _ _ _ _ _ HI) as [Y1 Y2]. apply (major_frame s1 s'); try congruence; [by rewrite Er, W3| |apply HI].
    intros a Ho. apply Hag. intros Hin. by apply (v_client _ _ _ _ _ _ HI a); [apply (Hwk a Hin)|].
Qed.

(** The end of a collection. *)
Lemma finish_spec s1 s2 φ D : inv g s1 φ [] no_hole D → (∀ a, a ∈ cells g → a ∈ D) → Forall weak_at (weaks g) → weak_done φ (reverse (weaks g)) s1 s2 →
  runs (modify_young_ptr (λ y, if caml_young_ptr y <? caml_young_start y then caml_young_start y else caml_young_ptr y) ;;;
   mmodify (λ s, let t := stats s in
     set_stats (Stats (caml_young_limit t) (caml_force_major_slice t) (caml_something_to_do t) (caml_allocated_words t)
       (caml_stat_minor_words t + (caml_young_end (young s) - caml_young_ptr (young s)) / 8) (caml_stat_promoted_words t) (caml_stat_minor_collections t)) s) ;;;
   modify_young_ptr caml_young_end ;;;
   mmodify (λ s, let t := stats s in
     set_stats (Stats (caml_young_start (young s)) (caml_force_major_slice t) (caml_something_to_do t) (caml_allocated_words t)
       (caml_stat_minor_words t) (caml_stat_promoted_words t) (caml_stat_minor_collections t)) s) ;;;
   clear_table Strong ;;;
   clear_table Weak ;;;
   mmodify (set_in_minor 0)) (λ _, runs caml_final_empty_young_r (λ _ s', collected φ s')) s2.
Proof.
  intros HI HD Hwk Hd. pose proof Hd as (_ & _ & E2 & _). destruct (v_young _ _ _ _ _ _ HI) as [Y1 Y2].
  unfold runs at 1, mbnd, mmodify, modify_young_ptr, clear_table, modify_table, mbnd, mmodify. cbn. unfold runs, caml_final_empty_young_r, mmodify.
  apply (collected_spec s1 s2 _ φ D); try done; cbn; rewrite E2; done.
Qed.

(** C3. A minor collection copies the live part of the minor heap.  From any
    well-formed heap, stack, local, global and finalised roots, and tables of
    references, the collection ends (or the memory is exhausted) with an empty
    minor heap, and there is a map from exactly the blocks that the roots
    reach to disjoint new blocks of the major heap, of the same size and tag,
    such that every root and every field of a copy holds the image of its old
    value.  Infix pointers keep their offset, forwarding blocks are
    short-circuited unless their content forbids it, no pointer to the minor
    heap is left, weak references follow their block or are cleared, and the
    rest of the memory is unchanged. *)
Theorem minor_collection_copies s n fs refs fuel : ready s n fs refs → enough fuel n fs refs → caml_young_ptr (young s) ≠ caml_young_end (young s) →
  runs (caml_empty_minor_heap_r fuel one) (λ _ s', ∃ φ, collected φ s') s.
Proof.
  intros R E Hne. unfold caml_empty_minor_heap_r. apply gc_bind, runs_get. rewrite (proj2 (Z.eqb_neq _ _) Hne). apply gc_bind, gc_bind, runs_modify. apply gc_bind.
  eapply gc_conseq; [by eapply local_roots_spec|]. intros [] s1 (φ1 & todo1 & D1 & HI1 & (Sy & Sr & Sw & Sro) & HD1). destruct (r_refs _ _ _ _ R) as [Re Rp].
  apply gc_bind, runs_get. apply gc_bind. assert (caml_ref_table s1 = caml_ref_table s) as Et by exact Sr. rewrite Et.
  destruct (e_refs _ _ _ _ E) as [Er Ew]. destruct (e_blocks _ _ _ _ E) as [Ebl Ele].
  eapply gc_conseq; [pose proof (oldify_refs_spec _ _ Re (length refs) 0%nat fuel s1 φ1 todo1 D1 eq_refl Er HI1) as Ho; rewrite Z.add_0_r in Ho; apply Ho; [by rewrite Et|]; rewrite drop_0; intros a Ha; rewrite (r_cells _ _ _ _ R), !elem_of_app; tauto|].
  rewrite drop_0. intros [] s2 (φ2 & todo2 & D2 & HI2 & _ & S2 & HD2). apply gc_bind. pose proof (todo_length _ _ _ _ _ HI2). pose proof (size_le g s2 _ _ _ _ HI2).
  eapply gc_conseq; [eapply mopup_spec; [exact Hwf|exact Hone|exact Ele|exact HI2|lia]|]. intros [] s3 (φ3 & HI3 & _ & S3).
  apply gc_bind, runs_get. apply gc_bind. assert (caml_weak_ref_table s3 = caml_weak_ref_table s) as Ewt.
  { destruct S3 as (_ & _ & -> & _). destruct S2 as (_ & _ & -> & _). exact Sw. }
  rewrite Ewt. pose proof (weak_refs_spec s3 φ3 D2 (base (caml_weak_ref_table s)) (weaks g) HI3 (r_none _ _ _ _ R) (r_weak _ _ _ _ R) (r_weak_at _ _ _ _ R)) as Hwr.
  specialize (Hwr ltac:(rewrite Ewt; apply R) (length (weaks g)) 0%nat fuel s3 eq_refl Ew). rewrite Z.add_0_r in Hwr. eapply gc_conseq; [apply Hwr|].
  - split_and!; try done; [|by destruct s3]. intros a Ha. by apply elem_of_nil in Ha.
  - intros [] s4 Hd. eapply gc_conseq; [eapply (finish_spec s3 s4 φ3 D2); [done| |apply R|done]|].
    + intros a Ha. destruct (HD1 a Ha) as [Hx|Hx]; apply HD2; [by left|by right].
    + intros [] s5 Hc. eapply gc_conseq; [exact Hc|]. intros [] s6 Hc'. by exists φ3.
Qed.
End Scan.

(** ** An example

    A minor heap with a pair, a string, a closure with a second entry point,
    a forwarding block and a block that nothing reaches; roots of every kind;
    a major heap with one free block of twenty words. *)

Definition ex_blocks : list (Z * obj) :=
  [ (4104, Obj (Make_header 2 0 Caml_black) [4128; 3]);
    (4128, Obj (Make_header 1 String_tag Caml_black) [4660]);
    (4144, Obj (Make_header 4 Closure_tag Caml_black) [1; Make_header 2 Infix_tag Caml_white; 1; 4104]);
    (4184, Obj (Make_header 1 Forward_tag Caml_black) [4104]);
    (4200, Obj (Make_header 1 0 Caml_black) [1]) ].

Definition ex_words : gmap Z Z :=
  stores (list_to_map (flat_map (λ x, (x.1 - 8, o_hd x.2) :: imap (λ i f, (x.1 + 8 * Z.of_nat i, f)) (o_fields x.2)) ex_blocks ++
    [ (8000, 4184); (8008, 4160);                        (* the stack *)
      (8104, 0); (8112, 1); (8120, 1); (8128, 8200); (8200, 4104);  (* a frame of local roots *)
      (8304, 8400); (8400, 4128);                        (* the references *)
      (8504, 8600); (8512, 8608); (8600, 4200); (8608, 4160);       (* the weak references *)
      (8704, 1); (8712, 4104); (8720, 0);                (* the finalised values *)
      (8800, 1);                                         (* a global root *)
      (56, Freelist.blue 0); (64, 16384); (16376, Freelist.blue 20) ])) 16384 (replicate 20 0).

Definition ex_scene : scene :=
  Scene ex_words 4096 4208 (list_to_map ex_blocks) [8000; 8008; 8200; 8800; 8704; 8712; 8400] [8600; 8608]
    (λ a, fl_words 64 [(16384, 20)] a) (λ _, true).

Definition ex_gc : gc major :=
  Gc ex_words (Young 4088 4096 4208 4096 112) (RefTable 8304 8376 8368 8312 8368 8 1) (RefTable 8504 8576 8568 8520 8568 8 1) 0 0
    (Roots 8000 8016 8104 8704 0 1) (Stats 4096 0 0 0 0 0 0)
    (Major (Freelist.Fl ∅ 64 64 0 64 21 0 [] 0 0 Freelist.Policy_next_fit 0) Phase_idle [8800] []).

#[local] Instance ex_heap : MajorHeap major :=
  free_list_heap 10 (λ _, true) 9000 (λ _, mreturn tt) (λ _ _ _, mreturn 0) (λ _ _ _, mreturn 0) (λ _, mreturn (0, 0)) (λ _, mreturn tt) (λ _, mreturn 0) (λ _ _, mreturn 0) (mreturn tt).
#[local] Instance ex_laws : HeapLaws major := free_list_laws 10 (λ _, true) 9000 _ _ _ _ _ _ _ _.

Ltac each_block H := apply elem_of_list_to_map_2 in H; unfold ex_blocks in H; rewrite !elem_of_cons, elem_of_nil in H; destruct_or!; simplify_eq.

Lemma ex_free_list : Freelist.fl_inv (fl_of ex_gc) [(16384, 20)].
Proof.
  split; try reflexivity.
  - split; [|reflexivity]. split_and!; [reflexivity| |done]. destruct (Freelist.blue_free 20 ∅ 16384) as (hd & H1 & H2); [done|]. exists hd. split; [|done].
    rewrite lookup_insert_eq in H1. injection H1 as <-. reflexivity.
  - cbn. unfold Freelist.Hd_bp, Max_wosize. lia.
  - intros b s Hin. apply list_elem_of_singleton in Hin as [= -> ->]. unfold Freelist.Hd_bp. cbn. lia.
  - by left.
  - by left.
Qed.

Lemma ex_client a : is_Some (ex_words !! a) → a < 16376 → a ≠ 64 → a ≠ 56 → client ex_scene a.
Proof.
  intros Ha Hlt N1 N2. split; [done|]. intros [Hc|[?|?]]; [|lia..]. apply covered_elem in Hc as (b & z & Hin & Hb). apply list_elem_of_singleton in Hin as [= -> ->]. lia.
Qed.

Lemma ex_vok v : v ∈ [4104; 4128; 4144; 4184; 4200] → vok ex_scene v.
Proof. intros Hv _. left. rewrite !elem_of_cons, elem_of_nil in Hv. destruct_or!; subst; try done; vm_compute; eauto. Qed.

Lemma ex_vok_infix : vok ex_scene 4160.
Proof.
  intros _. right. exists 4144, (Obj (Make_header 4 Closure_tag Caml_black) [1; Make_header 2 Infix_tag Caml_white; 1; 4104]), 1%nat, (Make_header 2 Infix_tag Caml_white).
  split_and!; try reflexivity; cbn; lia.
Qed.

Lemma ex_wf : wf ex_scene.
Proof.
  assert (∀ b o, Y ex_scene !! b = Some o → b ∈ [4104; 4128; 4144; 4184; 4200]) as Hb.
  { intros b o H. each_block H; set_solver. }
  pose proof ex_vok_infix as Hvi.
  assert (∀ v, yv ex_scene v = false → vok ex_scene v) as Hvo by (intros v E Hy; congruence).
  split.
  - done.
  - intros b o H. each_block H; split_and!; try reflexivity; try (unfold o_len, Max_wosize; cbn; lia); try done;
      intros i x Hx; repeat (destruct i as [|i]; [injection Hx as <-; reflexivity|]); done.
  - intros b o b' o' H H' Hne. each_block H; each_block H'; unfold o_len; cbn; try lia; done.
  - intros a Ha [Hc|[?|?]]; cbn in Ha; [|lia..]. apply covered_elem in Hc as (b & z & Hin & Hz). apply list_elem_of_singleton in Hin as [= -> ->]. lia.
  - intros b o f H Ht Hf. each_block H; try (by vm_compute in Ht). injection Hf as <-. split; [done|]. intros _ Hy. by vm_compute in Hy.
  - intros b o x H Ht Hx. each_block H; cbn in Hx; rewrite ?elem_of_cons, ?elem_of_nil in Hx; destruct_or!; subst; try done; try (apply ex_vok; set_solver); try (by apply Hvo); by vm_compute in Ht.
  - intros a Ha. cbn in Ha. rewrite !elem_of_cons, elem_of_nil in Ha. destruct_or!; subst; try done; (split; [apply ex_client; [vm_compute; eauto|lia..]|cbn; lia]).
  - intros a v Ha Hv. cbn in Ha. rewrite !elem_of_cons, elem_of_nil in Ha. destruct_or!; subst; try done; vm_compute in Hv; injection Hv as <-; first [done | by apply Hvo | apply ex_vok; set_solver].
Qed.

Lemma ex_steady a v : ex_words !! a = Some v → a < 16376 → a ≠ 64 → a ≠ 56 → 4208 <= a → a ∉ cells ex_scene → steady ex_scene a v.
Proof. intros E Hlt N1 N2 Hy Hc. split_and!; [done|apply ex_client; [by rewrite E|done..]|cbn; lia|done]. Qed.

Definition ex_frames : list frame := [Frame 8104 [8200] 1].

Lemma ex_mapped i : -1 <= i < 20 → is_Some (words ex_gc !! (16384 + 8 * i)).
Proof.
  intros Hi. assert (Forall (λ k, is_Some (words ex_gc !! (16384 + 8 * k))) (seqZ (-1) 21)) as H by (apply (bool_decide_unpack _); vm_compute; exact I).
  rewrite Forall_forall in H. apply H, elem_of_seqZ. lia.
Qed.

Lemma ex_ready : ready ex_scene ex_gc 2 ex_frames [8400].
Proof.
  assert (∀ a, bool_decide (a ∈ cells ex_scene) = false → a ∉ cells ex_scene) as Hnc by (intros a; by rewrite bool_decide_eq_false).
  split.
  - done.
  - done.
  - exists [(16384, 20)]. split_and!; [apply ex_free_list|cbn; lia|]. apply Forall_singleton. split_and!; [done|done|cbn; lia|apply ex_mapped].
  - intros a. split; [intros Ha; exists [(16384, 20)]; split; [apply ex_free_list|done]|]. intros (l & Hl & Ha). by rewrite (inv_unique _ _ _ Hl ex_free_list) in Ha.
  - done.
  - done.
  - done.
  - split; [done|]. exists 0. split; [|done]. split_and!; try done; try (apply ex_steady; [by vm_compute..|by apply Hnc]).
    intros i t Ht. destruct i as [|i]; [|done]. injection Ht as <-. apply ex_steady; [by vm_compute..|by apply Hnc].
  - split; [|done]. intros i a Ha. destruct i as [|i]; [|done]. injection Ha as <-. apply ex_steady; [by vm_compute..|by apply Hnc].
  - intros [|[|i]] a Ha; [| |done]; injection Ha as <-; (split; [apply ex_steady; [by vm_compute..|by apply Hnc]|by apply (bool_decide_unpack _)]).
  - done.
  - rewrite Forall_forall. intros a Ha. cbn in Ha. rewrite !elem_of_cons, elem_of_nil in Ha. destruct_or!; subst; try done;
      (split_and!; [apply ex_client; [vm_compute; eauto|lia..]|cbn; lia|by apply Hnc|]).
    + exists 4200. split; [by vm_compute|]. apply ex_vok. set_solver.
    + exists 4160. split; [by vm_compute|apply ex_vok_infix].
  - done.
  - by vm_compute.
Qed.

Lemma ex_fuel : enough ex_scene 50 2 ex_frames [8400].
Proof.
  split; [lia|cbn; split; [lia|]; repeat constructor; cbn; lia|cbn; lia|]. split; [vm_compute; lia|]. intros b o H. each_block H; cbn; lia.
Qed.

Lemma minor_collection_copies_witness : runs (caml_empty_minor_heap_r 50 50) (λ _ s', ∃ φ, collected ex_scene φ s') ex_gc.
Proof. apply (minor_collection_copies ex_scene ex_wf 50 ltac:(vm_compute; lia) ex_gc 2 ex_frames [8400]); [apply ex_ready|apply ex_fuel|done]. Defined.

(** The collection of the example, run: the forwarding block is gone, the
    second entry of the closure keeps its offset (8008), and both weak
    references are cleared: the first (8600) to a block that nothing reaches,
    the second (8608) to that second entry, although the closure is live. *)
Example ex_run : match caml_empty_minor_heap_r 50 50 ex_gc with
  | inr (s, _) => (λ a, default 0 (words s !! a)) <$> [8000; 8008; 8200; 8400; 8600; 8608]
  | inl _ => [] end = [16528; 16504; 16528; 16472; 9000; 9000].
Proof. vm_compute. reflexivity. Qed.
End Collect.
