(* ===== verification/MajorGc.v ===== *)
(** The major collector (byterun/major_gc.c) with the functions of roots.c and
    finalise.c that it calls, and the write barrier (memory.h).

    The state is that of the minor collector ([MinorGc.gc]), whose last field
    holds the variables of the major collector.  The array of gray blocks is
    the list of its entries; [gray_vals_ptr], the copy of [gray_vals_cur] that
    [mark_slice_r] keeps in a local variable, is written back before any other
    function reads [gray_vals_cur], and both are the length of this list. *)

From S2P Require Import Prelude Mlvalues Freelist PageTable MinorGc.

Module MajorGc.
Import MinorGc.

Definition Phase_mark : Z := 0.
Definition Phase_sweep : Z := 1.
Definition Phase_idle : Z := 2.
Definition Subphase_main : Z := 10.
Definition Subphase_weak1 : Z := 11.
Definition Subphase_weak2 : Z := 12.
Definition Subphase_final : Z := 13.

(** [struct final] (context.h) *)
Record final : Type := Final { fun_ : Z; val : Z; offset : Z }.

(** The variables of the marking phase. *)
Record marker : Type := Marker {
  gray_vals : list Z;
  gray_vals_size : Z;
  heap_is_pure : Z;
  markhp : Z;
  mark_chunk : Z;
  mark_limit : Z;
  caml_gc_subphase : Z;
  weak_prev : Z
}.

(** The finalised values ([final_old] is the length of [final_table]), the
    queue of [to_do] records, and the cells of the global roots and of the
    hook of the thread library. *)
Record other_roots : Type := Other { final_table : list final; to_do : list (list final); globals : list Z; hooks : list Z }.

Record major : Type := Major {
  mk : marker;
  caml_gc_phase : Z;
  free_list : Freelist.fl;
  others : other_roots;
  caml_heap_start : Z;
  caml_stat_heap_size : Z;
  caml_stat_major_collections : Z;
  caml_fl_size_at_phase_change : Z
}.

Abbreviation XM := (GM major).

Definition set_mk (x : marker) (t : major) : major := Major x (caml_gc_phase t) (free_list t) (others t) (caml_heap_start t) (caml_stat_heap_size t) (caml_stat_major_collections t) (caml_fl_size_at_phase_change t).
Definition set_phase (x : Z) (t : major) : major := Major (mk t) x (free_list t) (others t) (caml_heap_start t) (caml_stat_heap_size t) (caml_stat_major_collections t) (caml_fl_size_at_phase_change t).
Definition set_free_list (x : Freelist.fl) (t : major) : major := Major (mk t) (caml_gc_phase t) x (others t) (caml_heap_start t) (caml_stat_heap_size t) (caml_stat_major_collections t) (caml_fl_size_at_phase_change t).
Definition set_others (x : other_roots) (t : major) : major := Major (mk t) (caml_gc_phase t) (free_list t) x (caml_heap_start t) (caml_stat_heap_size t) (caml_stat_major_collections t) (caml_fl_size_at_phase_change t).
Definition set_collections (x : Z) (t : major) : major := Major (mk t) (caml_gc_phase t) (free_list t) (others t) (caml_heap_start t) (caml_stat_heap_size t) x (caml_fl_size_at_phase_change t).
Definition set_size_at_phase_change (x : Z) (t : major) : major := Major (mk t) (caml_gc_phase t) (free_list t) (others t) (caml_heap_start t) (caml_stat_heap_size t) (caml_stat_major_collections t) x.

Definition set_gray (x : list Z) (k : marker) : marker := Marker x (gray_vals_size k) (heap_is_pure k) (markhp k) (mark_chunk k) (mark_limit k) (caml_gc_subphase k) (weak_prev k).
Definition set_gray_size (x : Z) (k : marker) : marker := Marker (gray_vals k) x (heap_is_pure k) (markhp k) (mark_chunk k) (mark_limit k) (caml_gc_subphase k) (weak_prev k).
Definition set_pure (x : Z) (k : marker) : marker := Marker (gray_vals k) (gray_vals_size k) x (markhp k) (mark_chunk k) (mark_limit k) (caml_gc_subphase k) (weak_prev k).
Definition set_markhp (x : Z) (k : marker) : marker := Marker (gray_vals k) (gray_vals_size k) (heap_is_pure k) x (mark_chunk k) (mark_limit k) (caml_gc_subphase k) (weak_prev k).
Definition set_mark_chunk (x : Z) (k : marker) : marker := Marker (gray_vals k) (gray_vals_size k) (heap_is_pure k) (markhp k) x (mark_limit k) (caml_gc_subphase k) (weak_prev k).
Definition set_mark_limit (x : Z) (k : marker) : marker := Marker (gray_vals k) (gray_vals_size k) (heap_is_pure k) (markhp k) (mark_chunk k) x (caml_gc_subphase k) (weak_prev k).
Definition set_subphase (x : Z) (k : marker) : marker := Marker (gray_vals k) (gray_vals_size k) (heap_is_pure k) (markhp k) (mark_chunk k) (mark_limit k) x (weak_prev k).
Definition set_weak_prev (x : Z) (k : marker) : marker := Marker (gray_vals k) (gray_vals_size k) (heap_is_pure k) (markhp k) (mark_chunk k) (mark_limit k) (caml_gc_subphase k) x.

Definition put_mk (x : marker) (s : gc major) : gc major := set_rest (set_mk x (rest s)) s.
Definition modify_mk (f : marker → marker) : XM unit := mmodify (λ s, put_mk (f (mk (rest s))) s).
Definition get_mk : XM marker := let* s := mget in mreturn (mk (rest s)).
Definition modify_rest (f : major → major) : XM unit := mmodify (λ s, set_rest (f (rest s)) s).

(** The operations of the free list work on the memory of the state. *)
Definition fl_of (s : gc major) : Freelist.fl := Freelist.set_mem (words s) (free_list (rest s)).
Definition lift_fl {A} (c : M Freelist.fl fault A) : XM A :=
  λ s, match c (fl_of s) with
       | inl f => inl (GFault f)
       | inr (fl, x) => inr (set_words (Freelist.mem fl) (set_rest (set_free_list fl (rest s)) s), x)
       end.
Definition set_sweep_hp (x : Z) (f : Freelist.fl) : Freelist.fl :=
  Freelist.Fl (Freelist.mem f) (Freelist.Fl_head f) (Freelist.fl_prev f) (Freelist.fl_last f) (Freelist.caml_fl_merge f) (Freelist.caml_fl_cur_size f)
    (Freelist.last_fragment f) (Freelist.flp f) (Freelist.flp_size f) (Freelist.beyond f) (Freelist.policy f) x.

(** [heap_chunk_head] (major_gc.h) is before the chunk. *)
Definition Chunk_size (c : Z) : XM Z := ld (c - 16).
Definition Chunk_next (c : Z) : XM Z := ld (c - 8).

Section Operations.
(** The C library: does [realloc], [malloc] succeed?  The page table.  What
    the finalisation function of a custom block does.  The addresses of the
    variables [caml_global_data] and [caml_weak_list_head]. *)
Context (realloc_ok malloc_ok : gc major → bool).
Context (Is_in_heap Is_in_value_area : Z → bool).
Context (custom_finalize : Z → XM unit).
Context (caml_global_data caml_weak_list_head caml_weak_none : Z).

Definition realloc_gray_vals_r : XM unit :=
  let* s := mget in
  let k := mk (rest s) in
  if gray_vals_size k <? caml_stat_heap_size (rest s) / 128 then
    if realloc_ok s then
      (* the entries are copied; [gray_vals_cur = gray_vals + gray_vals_size] *)
      modify_mk (λ k, set_gray_size (gray_vals_size k * 2) k)
    else
      modify_mk (set_gray []) ;;;
      modify_mk (set_pure 0)
  else
    modify_mk (λ k, set_gray (take (Z.to_nat (gray_vals_size k / 2)) (gray_vals k)) k) ;;;
    modify_mk (set_pure 0).

(** [*gray_vals_cur++ = v; if (gray_vals_cur >= gray_vals_end) realloc_gray_vals_r (ctx);] *)
Definition push_gray (v : Z) : XM unit :=
  modify_mk (λ k, set_gray (gray_vals k ++ [v]) k) ;;;
  let* k := get_mk in
  if gray_vals_size k <=? Z.of_nat (length (gray_vals k)) then realloc_gray_vals_r else mreturn tt.

Definition caml_darken_r (v p : Z) : XM unit :=
  if Is_block v && Is_in_heap v then
    let* h := ld (Hd_val v) in
    let* (v, h) :=
      (if Tag_hd h =? Infix_tag then
         let v := v - Infix_offset_hd h in
         let* h := ld (Hd_val v) in mreturn (v, h)
       else mreturn (v, h)) in
    if Is_white_hd h then
      if Tag_hd h <? No_scan_tag then
        st (Hd_val v) (Grayhd_hd h) ;;;
        push_gray v
      else st (Hd_val v) (Blackhd_hd h)
    else mreturn tt
  else mreturn tt.

(** ** Roots (roots.c, finalise.c, globroots.c) *)

Definition caml_do_local_roots_r (fuel : nat) (f : Z → Z → XM unit) (stack_low stack_high local_roots : Z) : XM unit :=
  scan_stack f fuel stack_low stack_high ;;;
  scan_local_roots f fuel fuel local_roots.

(** [Call_action (f, x)]: [f (ctx, x, &x)]; the address, in the table of
    finalised values, is not used by the collector. *)
Fixpoint final_funs (f : Z → Z → XM unit) (l : list final) : XM unit :=
  match l with [] => mreturn tt | x :: l => f (fun_ x) 0 ;;; final_funs f l end.
Fixpoint final_items (f : Z → Z → XM unit) (l : list final) : XM unit :=
  match l with [] => mreturn tt | x :: l => f (fun_ x) 0 ;;; f (val x) 0 ;;; final_items f l end.
Fixpoint final_to_do (f : Z → Z → XM unit) (l : list (list final)) : XM unit :=
  match l with [] => mreturn tt | x :: l => final_items f x ;;; final_to_do f l end.

Definition caml_final_do_strong_roots_r (f : Z → Z → XM unit) : XM unit :=
  let* s := mget in
  final_funs f (final_table (others (rest s))) ;;;
  let* s := mget in
  final_to_do f (to_do (others (rest s))).

Definition caml_do_roots_r (fuel : nat) (f : Z → Z → XM unit) : XM unit :=
  let* g := ld caml_global_data in
  f g caml_global_data ;;;
  let* s := mget in
  caml_do_local_roots_r fuel f (caml_extern_sp (roots s)) (caml_stack_high (roots s)) (caml_local_roots (roots s)) ;;;
  let* s := mget in
  visit f (globals (others (rest s))) ;;;
  caml_final_do_strong_roots_r f ;;;
  let* s := mget in
  visit f (hooks (others (rest s))).

Definition caml_darken_all_roots_r (fuel : nat) : XM unit := caml_do_roots_r fuel caml_darken_r.

Definition start_cycle_r (fuel : nat) : XM unit :=
  caml_darken_all_roots_r fuel ;;;
  modify_rest (set_phase Phase_mark) ;;;
  modify_mk (set_subphase Subphase_main) ;;;
  modify_mk (set_markhp 0).

(** ** Marking *)

(** Is the pointer to the content [f] of a forwarding block left alone? *)
Definition forward_kept (f : Z) : XM bool :=
  if Is_block f then
    if Is_in_value_area f then
      let* hd := ld (Hd_val f) in
      mreturn ((Tag_hd hd =? Forward_tag) || (Tag_hd hd =? Lazy_tag) || (Tag_hd hd =? Double_tag))
    else mreturn true
  else mreturn false.

(** The body of [for (i = 0; i < size; i++)]. *)
Definition mark_field (v i : Z) : XM unit :=
  let* child := ld (Field v i) in
  if Is_block child && Is_in_heap child then
    let* hd := ld (Hd_val child) in
    let* (child, hd) :=
      (if Tag_hd hd =? Forward_tag then
         let* f := ld (Field child 0) in
         let* kept := forward_kept f in
         (if kept then mreturn tt else st (Field v i) f) ;;;
         mreturn (child, hd)
       else if Tag_hd hd =? Infix_tag then
         let child := child - Infix_offset_hd hd in
         let* hd := ld (Hd_val child) in mreturn (child, hd)
       else mreturn (child, hd)) in
    if Is_white_hd hd then
      st (Hd_val child) (Grayhd_hd hd) ;;;
      push_gray child
    else mreturn tt
  else mreturn tt.

(** The first case of the loop: [v = *--gray_vals_ptr]; the work done. *)
Definition mark_block (v : Z) : XM Z :=
  let* hd := ld (Hd_val v) in
  st (Hd_val v) (Blackhd_hd hd) ;;;
  let size := Wosize_hd hd in
  (if Tag_hd hd <? No_scan_tag then for_up (Z.to_nat size) 0 (mark_field v) else mreturn tt) ;;;
  mreturn (Whsize_wosize size).

(** The second case: the walk through the heap. *)
Definition mark_walk : XM unit :=
  let* k := get_mk in
  if markhp k =? mark_limit k then
    let* c := Chunk_next (mark_chunk k) in
    modify_mk (set_mark_chunk c) ;;;
    if c =? 0 then modify_mk (set_markhp 0)
    else
      modify_mk (set_markhp c) ;;;
      let* sz := Chunk_size c in
      modify_mk (set_mark_limit (c + sz))
  else
    let* hd := ld (markhp k) in
    (if Is_gray_hd hd then modify_mk (λ k, set_gray (gray_vals k ++ [Val_hp (markhp k)]) k) else mreturn tt) ;;;
    let* hd := ld (markhp k) in
    modify_mk (set_markhp (markhp k + Bhsize_hd hd)).

Definition mark_restart : XM unit :=
  modify_mk (set_pure 1) ;;;
  let* s := mget in
  let c := caml_heap_start (rest s) in
  modify_mk (set_mark_chunk c) ;;;
  modify_mk (set_markhp c) ;;;
  let* sz := Chunk_size c in
  modify_mk (set_mark_limit (c + sz)).

(** *** Weak arrays *)

(** The body of [for (i = 1; i < sz; i++)], from the label [weak_again]; after
    one [goto] the block is not a forwarding block any more. *)
Fixpoint weak_again (n : nat) (cur i curfield : Z) : XM unit :=
  if negb (curfield =? caml_weak_none) && Is_block curfield && Is_in_heap curfield then
    let* hd := ld (Hd_val curfield) in
    let* next :=
      (if Tag_hd hd =? Forward_tag then
         let* f := ld (Field curfield 0) in
         if Is_block f then
           let* kept := forward_kept f in
           if kept then mreturn None else mreturn (Some f)
         else mreturn None
       else mreturn None) in
    match next, n with
    | Some f, S n => st (Field cur i) f ;;; weak_again n cur i f
    | Some _, O => mfail (GFault OutOfFuel)
    | None, _ =>
        let* hd := ld (Hd_val curfield) in
        if Is_white_hd hd then st (Field cur i) caml_weak_none else mreturn tt
    end
  else mreturn tt.

Definition weak_field (cur i : Z) : XM unit := let* curfield := ld (Field cur i) in weak_again 1 cur i curfield.

(** ** Finalised values (finalise.c) *)

Definition is_white (v : Z) : XM bool := let* hd := ld (Hd_val v) in mreturn (Is_white_hd hd).

Fixpoint count_white (l : list final) : XM Z :=
  match l with
  | [] => mreturn 0
  | x :: l => let* b := is_white (val x) in let* n := count_white l in mreturn (b2z b + n)
  end.

(** The body of the second loop from the label [again]: the entry, and whether
    it goes to the [to_do] record. *)
Fixpoint final_again (n : nat) (x : final) : XM (final * bool) :=
  let* hd := ld (Hd_val (val x)) in
  if Is_white_hd hd then
    if Tag_hd hd =? Forward_tag then
      let* fv := ld (Field (val x) 0) in
      let* kept := forward_kept fv in
      if kept then mreturn (x, true)
      else
        let x := Final (fun_ x) fv (offset x) in
        if Is_block fv && Is_in_heap fv then
          match n with O => mfail (GFault OutOfFuel) | S n => final_again n x end
        else mreturn (x, true)
    else mreturn (x, true)
  else mreturn (x, false).

(** The entries kept in the table, and those of the [to_do] record. *)
Fixpoint final_split (l : list final) : XM (list final * list final) :=
  match l with
  | [] => mreturn ([], [])
  | x :: l =>
      let* (x, b) := final_again 1 x in
      let* (kept, todo) := final_split l in
      mreturn (if (b : bool) then (kept, x :: todo) else (x :: kept, todo))
  end.

Fixpoint final_darken (l : list final) : XM unit :=
  match l with [] => mreturn tt | x :: l => caml_darken_r (val x) 0 ;;; final_darken l end.

Definition caml_final_update_r : XM unit :=
  let* s := mget in
  let* todo_count := count_white (final_table (others (rest s))) in
  if 0 <? todo_count then
    let* s := mget in
    (if malloc_ok s then mreturn tt else mfail Fatal_out_of_memory) ;;;
    let* (kept, todo) := final_split (final_table (others (rest s))) in
    modify_rest (λ t, set_others (Other kept (to_do (others t) ++ [todo]) (globals (others t)) (hooks (others t))) t) ;;;
    final_darken todo
  else mreturn tt.

(** ** Slices *)

(** The last case of the loop; the remaining work. *)
Definition mark_subphase (work : Z) : XM Z :=
  let* k := get_mk in
  if caml_gc_subphase k =? Subphase_main then
    modify_mk (set_subphase Subphase_weak1) ;;;
    modify_mk (set_weak_prev caml_weak_list_head) ;;;
    mreturn work
  else if caml_gc_subphase k =? Subphase_weak1 then
    let* cur := ld (weak_prev k) in
    if negb (cur =? 0) then
      let* hd := ld (Hd_val cur) in
      for_up (Z.to_nat (Wosize_hd hd - 1)) 1 (weak_field cur) ;;;
      modify_mk (set_weak_prev (Field cur 0)) ;;;
      mreturn (work - Whsize_hd hd)
    else
      caml_final_update_r ;;;
      modify_mk (set_subphase Subphase_weak2) ;;;
      modify_mk (set_weak_prev caml_weak_list_head) ;;;
      mreturn work
  else if caml_gc_subphase k =? Subphase_weak2 then
    let* cur := ld (weak_prev k) in
    if negb (cur =? 0) then
      let* hd := ld (Hd_val cur) in
      (if Color_hd hd =? Caml_white then
         let* next := ld (Field cur 0) in st (weak_prev k) next
       else modify_mk (set_weak_prev (Field cur 0))) ;;;
      mreturn (work - 1)
    else
      modify_mk (set_subphase Subphase_final) ;;;
      mreturn work
  else if caml_gc_subphase k =? Subphase_final then
    lift_fl Freelist.caml_fl_init_merge_r ;;;
    modify_rest (set_phase Phase_sweep) ;;;
    let* s := mget in
    let c := caml_heap_start (rest s) in
    modify_mk (set_mark_chunk c) ;;;
    modify_rest (λ t, set_free_list (set_sweep_hp c (free_list t)) t) ;;;
    let* sz := Chunk_size c in
    modify_mk (set_mark_limit (c + sz)) ;;;
    modify_rest (λ t, set_size_at_phase_change (Freelist.caml_fl_cur_size (free_list t)) t) ;;;
    mreturn 0
  else mreturn work.

(** The body of [while (work > 0)]. *)
Definition mark_step (work : Z) : XM Z :=
  let* k := get_mk in
  match last (gray_vals k) with
  | Some v =>
      modify_mk (λ k, set_gray (removelast (gray_vals k)) k) ;;;
      let* done := mark_block v in
      mreturn (work - done)
  | None =>
      if negb (markhp k =? 0) then mark_walk ;;; mreturn work
      else if heap_is_pure k =? 0 then mark_restart ;;; mreturn work
      else mark_subphase work
  end.

Fixpoint mark_slice_r (fuel : nat) (work : Z) : XM unit :=
  if 0 <? work then
    match fuel with
    | O => mfail (GFault OutOfFuel)
    | S fuel => let* work := mark_step work in mark_slice_r fuel work
    end
  else mreturn tt.

(** The body of [while (work > 0)] of [sweep_slice_r]. *)
Definition sweep_step (work : Z) : XM Z :=
  let* s := mget in
  let hp := Freelist.caml_gc_sweep_hp (free_list (rest s)) in
  if hp <? mark_limit (mk (rest s)) then
    let* hd := ld hp in
    modify_rest (λ t, set_free_list (set_sweep_hp (hp + Bhsize_hd hd) (free_list t)) t) ;;;
    (if Color_hd hd =? Caml_white then
       (if Tag_hd hd =? Custom_tag then custom_finalize (Val_hp hp) else mreturn tt) ;;;
       let* p := lift_fl (Freelist.caml_fl_merge_block_r (Val_hp hp)) in
       modify_rest (λ t, set_free_list (set_sweep_hp p (free_list t)) t)
     else if Color_hd hd =? Caml_blue then
       modify_rest (λ t, set_free_list (Freelist.set_caml_fl_merge (Val_hp hp) (free_list t)) t)
     else st hp (Whitehd_hd hd)) ;;;
    mreturn (work - Whsize_hd hd)
  else
    let* c := Chunk_next (mark_chunk (mk (rest s))) in
    modify_mk (set_mark_chunk c) ;;;
    if c =? 0 then
      modify_rest (λ t, set_collections (caml_stat_major_collections t + 1) t) ;;;
      modify_rest (set_phase Phase_idle) ;;;
      mreturn 0
    else
      modify_rest (λ t, set_free_list (set_sweep_hp c (free_list t)) t) ;;;
      let* sz := Chunk_size c in
      modify_mk (set_mark_limit (c + sz)) ;;;
      mreturn work.

Fixpoint sweep_slice_r (fuel : nat) (work : Z) : XM unit :=
  if 0 <? work then
    match fuel with
    | O => mfail (GFault OutOfFuel)
    | S fuel => let* work := sweep_step work in sweep_slice_r fuel work
    end
  else mreturn tt.

Definition LONG_MAX : Z := 2 ^ 63 - 1.

Fixpoint mark_all (fuel n : nat) : XM unit :=
  let* s := mget in
  if caml_gc_phase (rest s) =? Phase_mark then
    match n with
    | O => mfail (GFault OutOfFuel)
    | S n => mark_slice_r fuel LONG_MAX ;;; mark_all fuel n
    end
  else mreturn tt.

Fixpoint sweep_all (fuel n : nat) : XM unit :=
  let* s := mget in
  if caml_gc_phase (rest s) =? Phase_sweep then
    match n with
    | O => mfail (GFault OutOfFuel)
    | S n => sweep_slice_r fuel LONG_MAX ;;; sweep_all fuel n
    end
  else mreturn tt.

Definition caml_finish_major_cycle_r (fuel : nat) : XM unit :=
  let* s := mget in
  (if caml_gc_phase (rest s) =? Phase_idle then start_cycle_r fuel else mreturn tt) ;;;
  mark_all fuel fuel ;;;
  sweep_all fuel fuel ;;;
  mmodify (λ s, let t := stats s in
    set_stats (Stats (caml_young_limit t) (caml_force_major_slice t) (caml_something_to_do t) 0
      (caml_stat_minor_words t) (caml_stat_promoted_words t) (caml_stat_minor_collections t)) s).

(** ** The write barrier ([Modify] of memory.h) *)

Context `{MajorHeap major}.

Definition add_to_ref_table (fp : Z) : XM unit :=
  let* s := mget in
  (if limit (caml_ref_table s) <=? ptr (caml_ref_table s) then caml_realloc_ref_table_r Strong else mreturn tt) ;;;
  let* s := mget in
  st (ptr (caml_ref_table s)) fp ;;;
  modify_table Strong (λ t, set_ptr (ptr t + 8) t).

Definition Modify (fp v : Z) : XM unit :=
  let* old := ld fp in
  st fp v ;;;
  if Is_in_heap fp then
    let* s := mget in
    (if caml_gc_phase (rest s) =? Phase_mark then caml_darken_r old 0 else mreturn tt) ;;;
    let* s := mget in
    if Is_block v && Is_young s v && negb (Is_block old && Is_young s old)
    then add_to_ref_table fp
    else mreturn tt
  else mreturn tt.
End Operations.

(** ** Sizes of heap chunks *)

Definition Heap_chunk_min : Z := 2 * PageTable.Page_size / 8.

(** [asize_t] is unsigned. *)
Definition clip_heap_chunk_size (request : Z) : Z :=
  let request := if request <? Bsize_wsize Heap_chunk_min then Bsize_wsize Heap_chunk_min else request in
  Z.shiftl (Z.shiftr (u64 (u64 (request + PageTable.Page_size) - 1)) PageTable.Page_log) PageTable.Page_log.

(** [None]: [caml_raise_out_of_memory_r] *)
Definition caml_round_heap_chunk_size_r (caml_major_heap_increment request : Z) : option Z :=
  let result := if request <? caml_major_heap_increment then caml_major_heap_increment else request in
  let result := clip_heap_chunk_size result in
  if result <? request then None else Some result.
End MajorGc.
