(* ===== verification/Marking.v ===== *)
(** The invariant of the marking phase of the major collector (MajorGc.v).

    A block that the program reaches is black, or gray, or reached through
    white blocks from a gray block ([graph]); the gray blocks are on the stack,
    or the walk through the heap has still to meet them, or another walk is
    requested ([marks]).  Every step of [mark_slice_r] preserves it, the
    subphases for weak arrays and finalised values included, and decreases
    [steps]; at the last step nothing is gray ([ready]). *)

From stdpp Require Import relations.
From S2P Require Import Prelude Mlvalues Freelist MinorGc MajorGc.

Module Marking.
Import MinorGc MajorGc.

Lemma infix_odd hd : Tag_hd hd = Infix_tag → Is_block hd = false.
Proof.
  unfold Tag_hd, Infix_tag, Is_block. intros E. apply Z.eqb_neq. intros E2. assert (Z.testbit (Z.land hd 255) 0 = Z.testbit (Z.land hd 1) 0) as E3 by (rewrite !Z.land_spec; done). by rewrite E, E2 in E3.
Qed.
(** ** The heap

    The layout of the heap: [B] gives the size and the tag of each block, free
    blocks included, [I] the block of each infix pointer, and [H] the chunks
    with their sizes and blocks in order.  It does not change while blocks
    are marked. *)
Record lay : Type := Lay { B : gmap Z (Z * Z); I : gmap Z Z; H : list (Z * Z * list Z) }.

Fixpoint tiles (b : gmap Z (Z * Z)) (from till : Z) (l : list Z) : Prop :=
  match l with
  | [] => from = till
  | v :: l => v = from + 8 ∧ ∃ sz tg, b !! v = Some (sz, tg) ∧ tiles b (v + 8 * sz) till l
  end.

Definition in_block (L : lay) (a : Z) : Prop := ∃ v sz tg, B L !! v = Some (sz, tg) ∧ v - 8 <= a < v + 8 * sz.

Record lay_ok (L : lay) : Prop := {
  lo_size v sz tg : B L !! v = Some (sz, tg) → 0 <= sz ∧ tg ≠ Infix_tag ∧ (tg = Forward_tag → sz = 1);
  lo_apart v sz tg w sz' tg' : B L !! v = Some (sz, tg) → B L !! w = Some (sz', tg') → v ≠ w → v + 8 * sz <= w - 8 ∨ w + 8 * sz' <= v - 8;
  lo_infix x v : I L !! x = Some v → ∃ sz tg j, B L !! v = Some (sz, tg) ∧ tg < No_scan_tag ∧ 0 <= j < sz ∧ x = v + 8 * j + 8;
  lo_chunk c n l : (c, n, l) ∈ H L → 0 < c ∧ tiles (B L) c (c + n) l ∧ ¬ in_block L (c - 8) ∧ ¬ in_block L (c - 16);
  lo_all v : is_Some (B L !! v) → ∃ c n l, (c, n, l) ∈ H L ∧ v ∈ l
}.

Definition hdr (m : gmap Z Z) (v : Z) : Z := default 0 (m !! (v - 8)).
Definition col (m : gmap Z Z) (v : Z) : Z := Color_hd (hdr m v).
Definition white (m : gmap Z Z) (v : Z) : Prop := col m v = Caml_white.
Definition gray (m : gmap Z Z) (v : Z) : Prop := col m v = Caml_gray.
Definition black (m : gmap Z Z) (v : Z) : Prop := col m v = Caml_black.
Definition used (m : gmap Z Z) (v : Z) : Prop := col m v ≠ Caml_blue.

Fixpoint linked (m : gmap Z Z) (c : Z) (l : list (Z * Z * list Z)) : Prop :=
  match l with
  | [] => c = 0
  | (c', n, _) :: l => c = c' ∧ m !! (c - 16) = Some n ∧ ∃ next, m !! (c - 8) = Some next ∧ linked m next l
  end.

Record mem_ok (L : lay) (m : gmap Z Z) : Prop := {
  mo_hdr v sz tg : B L !! v = Some (sz, tg) → ∃ hd, m !! (v - 8) = Some hd ∧ word hd ∧ Wosize_hd hd = sz ∧ Tag_hd hd = tg;
  mo_field v sz tg i : B L !! v = Some (sz, tg) → 0 <= i < sz → is_Some (m !! (v + 8 * i));
  mo_infix x v : I L !! x = Some v → ∃ h, m !! (x - 8) = Some h ∧ Tag_hd h = Infix_tag ∧ Infix_offset_hd h = x - v
}.

Section Graph.
Context (Is_in_heap Is_in_value_area : Z → bool) (L : lay) (HL : lay_ok L).

(** The block of a pointer. *)
Definition target (x : Z) : Z := default x (I L !! x).
Definition inheap (x : Z) : bool := Is_block x && Is_in_heap x.
Definition valid (m : gmap Z Z) (x : Z) : Prop := is_Some (B L !! target x) ∧ used m (target x).
(** What may be in a field that is scanned. *)
Definition field_ok (m : gmap Z Z) (x : Z) : Prop := Is_block x = true → (Is_in_heap x = true → valid m x) ∧ (Is_in_value_area x = true → is_Some (m !! (x - 8))).

Definition holds (m : gmap Z Z) (v x : Z) : Prop := ∃ sz tg i, B L !! v = Some (sz, tg) ∧ tg < No_scan_tag ∧ 0 <= i < sz ∧ m !! (v + 8 * i) = Some x.
Definition edge (m : gmap Z Z) (v w : Z) : Prop := used m v ∧ ∃ x, holds m v x ∧ inheap x = true ∧ target x = w.

(** [w] is reached from [g] through white blocks. *)
Definition wedge (m : gmap Z Z) (v w : Z) : Prop := edge m v w ∧ white m w.

(** A white block is protected when it is reached from a gray block, or from
    one of the values [P] that are still to be darkened. *)
Definition protected (P : Z → Prop) (m : gmap Z Z) (w : Z) : Prop :=
  ∃ g, rtc (wedge m) g w ∧ (gray m g ∧ is_Some (B L !! g) ∨ white m g ∧ ∃ x, P x ∧ inheap x = true ∧ target x = g).

(** The invariant of incremental marking: what the program reaches, from the
    roots [rs] or from a black block, is protected if it is white. *)
Record graph (rs : Z → Prop) (P : Z → Prop) (m : gmap Z Z) : Prop := {
  g_mem : mem_ok L m;
  g_field v x : used m v → holds m v x → field_ok m x;
  g_root x : rs x → inheap x = true → valid m x;
  g_tri_root x : rs x → inheap x = true → white m (target x) → protected P m (target x);
  g_tri_black v w : black m v → edge m v w → white m w → protected P m w
}.

(** *** Changing the colour of a block *)

Lemma block_word v sz tg w sz' tg' i : B L !! v = Some (sz, tg) → B L !! w = Some (sz', tg') → 0 <= i < sz' → v - 8 ≠ w + 8 * i.
Proof.
  intros Hv Hw Hi E. destruct (decide (v = w)) as [->|Hne]; [lia|]. pose proof (lo_size _ HL _ _ _ Hv). destruct (lo_apart _ HL _ _ _ _ _ _ Hv Hw Hne); lia.
Qed.

Lemma infix_word v sz tg x w : B L !! v = Some (sz, tg) → I L !! x = Some w → v - 8 ≠ x - 8.
Proof. intros Hv Hx. destruct (lo_infix _ HL x w Hx) as (sz' & tg' & j & Hw & _ & Hj & ->). pose proof (block_word v sz tg w sz' tg' j Hv Hw Hj). lia. Qed.

Lemma target_infix v sz tg : B L !! v = Some (sz, tg) → target v = v.
Proof. intros Hv. unfold target. destruct (I L !! v) as [w|] eqn:E; [|done]. by pose proof (infix_word v sz tg v w Hv E). Qed.

Section Recolour.
Context (b sz tg c hd hd' : Z) (m : gmap Z Z).
Context (Hb : B L !! b = Some (sz, tg)) (Hhd : m !! (b - 8) = Some hd) (Hc : recoloured c hd hd').
Let m' := <[b - 8 := hd']> m.

Lemma rec_col v : col m' v = if decide (v = b) then c else col m v.
Proof.
  unfold col, hdr, m'. destruct (decide (v = b)) as [->|Hne]; [rewrite lookup_insert_eq; apply Hc|]. by rewrite lookup_insert_ne by lia.
Qed.

Lemma rec_field v sz' tg' i : B L !! v = Some (sz', tg') → 0 <= i < sz' → m' !! (v + 8 * i) = m !! (v + 8 * i).
Proof. intros Hv Hi. unfold m'. apply lookup_insert_ne. by eapply block_word. Qed.

Lemma rec_holds v x : holds m' v x ↔ holds m v x.
Proof. split; intros (sz' & tg' & i & H1 & H2 & H3 & H4); exists sz', tg', i; revert H4; rewrite (rec_field v sz' tg' i H1 H3); done. Qed.

Lemma rec_mem : mem_ok L m → mem_ok L m'.
Proof.
  intros [M1 M2 M3]. split.
  - intros v sz' tg' Hv. destruct (M1 v sz' tg' Hv) as (h & H1 & H2 & H3 & H4). unfold m'. destruct (decide (v = b)) as [->|Hne].
    + rewrite Hhd in H1. injection H1 as <-. destruct Hc as (C1 & C2 & C3 & C4). exists hd'. rewrite lookup_insert_eq, C2, C3. done.
    + exists h. by rewrite lookup_insert_ne by lia.
  - intros v sz' tg' i Hv Hi. rewrite (rec_field v sz' tg' i Hv Hi). by eapply M2.
  - intros x v Hx. destruct (M3 x v Hx) as (h & Hh). exists h. unfold m'. rewrite lookup_insert_ne; [done|]. by eapply infix_word.
Qed.

Context (Hu : used m b) (Hcb : c ≠ Caml_blue).

Lemma rec_used v : used m' v ↔ used m v.
Proof. unfold used, col, hdr, m'. destruct (decide (v - 8 = b - 8)) as [E|Hne]; [|by rewrite lookup_insert_ne by lia]. replace v with b by lia. rewrite lookup_insert_eq. cbn. destruct Hc as (_ & _ & _ & ->). split; [intros _; exact Hu|done]. Qed.

Lemma rec_edge v w : edge m' v w ↔ edge m v w.
Proof. unfold edge. rewrite rec_used. setoid_rewrite rec_holds. done. Qed.

Lemma rec_valid x : valid m' x ↔ valid m x.
Proof. unfold valid. by rewrite rec_used. Qed.

Lemma rec_field_ok x : field_ok m x → field_ok m' x.
Proof. unfold field_ok. rewrite rec_valid. intros Hf E. destruct (Hf E) as [H1 H2]. split; [done|]. intros Hv. unfold m'. destruct (decide (x - 8 = b - 8)) as [->|]; [rewrite lookup_insert_eq; eauto|rewrite lookup_insert_ne by done; auto]. Qed.

Lemma rec_graph_frame rs P : graph rs P m → mem_ok L m' ∧ (∀ v x, used m' v → holds m' v x → field_ok m' x) ∧ (∀ x, rs x → inheap x = true → valid m' x).
Proof.
  intros [G1 G2 G3 _ _]. split_and!; [by apply rec_mem| |].
  - intros v x Hv Hx. apply rec_field_ok. eapply G2; [by apply rec_used|by apply rec_holds].
  - intros x Hx Hin. apply rec_valid. auto.
Qed.
End Recolour.

(** *** Darkening a value *)

(** A white block turned gray. *)
Lemma gray_graph rs (P : Z → Prop) m b sz tg hd x : B L !! b = Some (sz, tg) → m !! (b - 8) = Some hd → Color_hd hd = Caml_white → word hd → inheap x = true → target x = b →
  graph rs (λ y, P y ∨ y = x) m → graph rs P (<[b - 8 := Grayhd_hd hd]> m).
Proof.
  intros Hb Hhd Hw Hword Hx Ex HG. pose proof (Grayhd_spec hd Hword) as Hc. assert (white m b) as Hwb by (unfold white, col, hdr; by rewrite Hhd). assert (used m b) as Hu by (unfold used; by rewrite Hwb).
  assert (∀ v, col (<[b - 8 := Grayhd_hd hd]> m) v = if decide (v = b) then Caml_gray else col m v) as Hcol by (intros v; by apply (rec_col b _ hd)). set (m' := <[_ := _]> m) in *.
  assert (∀ v w, edge m' v w ↔ edge m v w) as Hedge by (intros v w; by eapply rec_edge). destruct (rec_graph_frame b sz tg Caml_gray hd _ m Hb Hhd Hc Hu ltac:(done) rs _ HG) as (F1 & F2 & F3).
  assert (∀ v, white m' v → v ≠ b ∧ white m v) as Hwh by (unfold white; intros v; rewrite Hcol; by case_decide).
  assert (∀ g w, rtc (wedge m) g w → rtc (wedge m') g w ∨ rtc (wedge m') b w) as Hpath.
  { intros g w Hr. induction Hr as [g|g g1 w [He1 Hw1] Hr IH]; [by left|]. destruct IH as [IH|IH]; [|by right]. destruct (decide (g1 = b)) as [->|Hne]; [by right|]. left. eapply rtc_l; [|exact IH]. split; [by apply Hedge|]. unfold white. rewrite Hcol. by rewrite decide_False. }
  assert (∀ w, protected (λ y, P y ∨ y = x) m w → protected P m' w) as Hprot.
  { intros w (g & Hr & Hg). assert (gray m' b) as Hgb by (unfold gray; rewrite Hcol; by rewrite decide_True). destruct (Hpath g w Hr) as [Hr'|Hr']; [|exists b; split; [done|left; split; [done|eauto]]].
    destruct (decide (g = b)) as [->|Hne]; [exists b; split; [done|left; split; [done|eauto]]|]. exists g. split; [done|]. unfold gray, white. rewrite Hcol, decide_False by done. destruct Hg as [Hg|(Hg & y & [Hy| ->] & Hy2 & Hy3)]; [by left|right; eauto|congruence]. }
  split; try done.
  - intros y Hy Hin Hwy. apply Hprot, (g_tri_root _ _ _ HG); [done..|]. by apply Hwh.
  - intros v w Hv He Hww. apply Hprot, (g_tri_black _ _ _ HG v); [|by apply Hedge|by apply Hwh]. revert Hv. unfold black. rewrite Hcol. by case_decide.
Qed.

(** A white block without pointers turned black. *)
Lemma noscan_graph rs (P : Z → Prop) m b sz tg hd x : B L !! b = Some (sz, tg) → No_scan_tag <= tg → m !! (b - 8) = Some hd → Color_hd hd = Caml_white → word hd → inheap x = true → target x = b →
  graph rs (λ y, P y ∨ y = x) m → graph rs P (<[b - 8 := Blackhd_hd hd]> m).
Proof.
  intros Hb Htg Hhd Hw Hword Hx Ex HG. pose proof (Blackhd_spec hd Hword) as Hc. assert (white m b) as Hwb by (unfold white, col, hdr; by rewrite Hhd). assert (used m b) as Hu by (unfold used; by rewrite Hwb).
  assert (∀ v, col (<[b - 8 := Blackhd_hd hd]> m) v = if decide (v = b) then Caml_black else col m v) as Hcol by (intros v; by apply (rec_col b _ hd)). set (m' := <[_ := _]> m) in *.
  assert (∀ v w, edge m' v w ↔ edge m v w) as Hedge by (intros v w; by eapply rec_edge). destruct (rec_graph_frame b sz tg Caml_black hd _ m Hb Hhd Hc Hu ltac:(done) rs _ HG) as (F1 & F2 & F3).
  assert (∀ v, white m' v → v ≠ b ∧ white m v) as Hwh by (unfold white; intros v; rewrite Hcol; by case_decide).
  assert (∀ w, ¬ edge m b w) as Hnone by (intros w (_ & y & (sz' & tg' & i & E1 & E2 & _) & _); rewrite Hb in E1; injection E1 as <- <-; lia).
  assert (∀ g w, rtc (wedge m) g w → white m' w → rtc (wedge m') g w) as Hpath.
  { intros g w Hr Hww. induction Hr as [g|g g1 w [He1 Hw1] Hr IH]; [done|]. eapply rtc_l; [|by apply IH]. split; [by apply Hedge|]. unfold white. rewrite Hcol. case_decide as Hd; [|done]. subst g1. destruct Hr as [|b' y w [He _] _]; [by destruct (Hwh _ Hww)|by destruct (Hnone y)]. }
  assert (∀ w, white m' w → protected (λ y, P y ∨ y = x) m w → protected P m' w) as Hprot.
  { intros w Hww (g & Hr & Hg). pose proof (Hpath g w Hr Hww) as Hr'. destruct (decide (g = b)) as [->|Hne]; [destruct Hr as [|b' y w [He _] _]; [by destruct (Hwh _ Hww)|by destruct (Hnone y)]|].
    exists g. split; [done|]. unfold gray, white. rewrite Hcol, decide_False by done. destruct Hg as [Hg|(Hg & y & [Hy| ->] & Hy2 & Hy3)]; [by left|right; eauto|congruence]. }
  split; try done.
  - intros y Hy Hin Hwy. apply Hprot, (g_tri_root _ _ _ HG); [done..|]. by apply Hwh.
  - intros v w Hv He Hww. apply Hprot; [done|]. apply (g_tri_black _ _ _ HG v); [|by apply Hedge|by apply Hwh]. revert Hv. unfold black. rewrite Hcol. case_decide as Hd; [|done]. subst v. by destruct (Hnone w); apply Hedge.
Qed.

(** Nothing to do for a value that is not a pointer to a white block. *)
Lemma skip_graph rs (P : Z → Prop) m x : (inheap x = true → ¬ white m (target x)) → graph rs (λ y, P y ∨ y = x) m → graph rs P m.
Proof.
  intros Hx [G1 G2 G3 G4 G5]. assert (∀ w, protected (λ y, P y ∨ y = x) m w → protected P m w) as Hprot.
  { intros w (g & Hr & Hg). exists g. split; [done|]. destruct Hg as [Hg|(Hg & y & [Hy| ->] & Hy2 & Hy3)]; [by left|right; eauto|]. destruct (Hx Hy2). by rewrite Hy3. }
  split; auto. intros v w Hv He Hw. by apply Hprot, (G5 v).
Qed.

(** A gray block turned black: what it holds is to be darkened. *)
Lemma blacken_graph rs m b sz tg hd : B L !! b = Some (sz, tg) → m !! (b - 8) = Some hd → Color_hd hd = Caml_gray → word hd → graph rs (λ _, False) m → graph rs (holds m b) (<[b - 8 := Blackhd_hd hd]> m).
Proof.
  intros Hb Hhd Hg0 Hword HG. pose proof (Blackhd_spec hd Hword) as Hc. assert (gray m b) as Hgb by (unfold gray, col, hdr; by rewrite Hhd). assert (used m b) as Hu by (unfold used; by rewrite Hgb).
  assert (∀ v, col (<[b - 8 := Blackhd_hd hd]> m) v = if decide (v = b) then Caml_black else col m v) as Hcol by (intros v; by apply (rec_col b _ hd)). set (m' := <[_ := _]> m) in *.
  assert (∀ v w, edge m' v w ↔ edge m v w) as Hedge by (intros v w; by eapply rec_edge). destruct (rec_graph_frame b sz tg Caml_black hd _ m Hb Hhd Hc Hu ltac:(done) rs _ HG) as (F1 & F2 & F3).
  assert (∀ v, white m' v ↔ white m v) as Hwh by (unfold white; intros v; rewrite Hcol; case_decide as Hd; [subst v; by rewrite Hgb|done]).
  assert (∀ g w, rtc (wedge m) g w → rtc (wedge m') g w) as Hpath by (intros g w; apply rtc_subrel; intros y z [He Hz]; split; [by apply Hedge|by apply Hwh]).
  assert (∀ w, white m w → edge m b w → protected (holds m b) m' w) as Hdirect by (intros w Hww (_ & x & Hx & Hin & E1); exists w; split; [done|right; split; [by apply Hwh|eauto]]).
  assert (∀ w, white m w → protected (λ _, False) m w → protected (holds m b) m' w) as Hprot.
  { intros w Hww (g & Hr & [[Hg Hgb']|(_ & y & [] & _)]). destruct (decide (g = b)) as [->|Hne].
    - destruct Hr as [|b' y w Hx Hr]; [unfold white in Hww; by rewrite Hgb in Hww|]. exists y. split; [by apply Hpath|]. right. split; [apply Hwh; by destruct Hx|]. destruct Hx as [(_ & x & Hx & Hin & E1) _]. by exists x.
    - exists g. split; [by apply Hpath|]. left. split; [|done]. unfold gray. by rewrite Hcol, decide_False. }
  split; try done.
  - intros y Hy Hin Hwy. apply Hwh in Hwy. apply Hprot; [done|]. by apply (g_tri_root _ _ _ HG).
  - intros v w Hv He Hww. apply Hedge in He. apply Hwh in Hww. destruct (decide (v = b)) as [->|Hne]; [by apply Hdirect|]. apply Hprot; [done|]. apply (g_tri_black _ _ _ HG v); [|done..]. revert Hv. unfold black. by rewrite Hcol, decide_False.
Qed.

(** *** Writing a field *)

Lemma holds_block m w y : holds m w y → is_Some (B L !! w).
Proof. intros (sz' & tg' & j & H1 & _). eauto. Qed.

Lemma inheap_split x : inheap x = true → Is_block x = true ∧ Is_in_heap x = true.
Proof. apply andb_true_iff. Qed.

Lemma edge_valid rs P m w y : graph rs P m → edge m w y → is_Some (B L !! y) ∧ used m y.
Proof. intros HG (Hu & z & Hz & Hin & <-). apply inheap_split in Hin as [H1 H2]. by apply (g_field _ _ _ HG w z Hu Hz H1). Qed.

Lemma wedge_block m g w : rtc (wedge m) g w → is_Some (B L !! w) → is_Some (B L !! g).
Proof. intros [|g' y w' [(_ & z & Hz & _) _] _]; [done|]. intros _. by eapply holds_block. Qed.

Section Write.
Context (b sz tg i x v : Z) (m : gmap Z Z).
Context (Hb : B L !! b = Some (sz, tg)) (Hi : 0 <= i < sz) (Hx : m !! (b + 8 * i) = Some x) (Hinfix : ∀ y w, I L !! y = Some w → y - 8 ≠ b + 8 * i).
Let m' := <[b + 8 * i := v]> m.

Lemma wr_hdr w : is_Some (B L !! w) → m' !! (w - 8) = m !! (w - 8).
Proof. intros [[sz' tg'] Hw]. unfold m'. apply lookup_insert_ne. intros E. by apply (block_word w sz' tg' b sz tg i). Qed.

Lemma wr_col w : is_Some (B L !! w) → col m' w = col m w.
Proof. intros Hw. unfold col, hdr. by rewrite wr_hdr. Qed.

Lemma wr_holds w y : holds m' w y → holds m w y ∨ w = b ∧ y = v.
Proof.
  intros (sz' & tg' & j & H1 & H2 & H3 & H4). unfold m' in H4. apply lookup_insert_Some in H4 as [[E <-]|[E H4]]; [|left; exists sz', tg', j; done]. destruct (decide (w = b)) as [->|Hne]; [by right|].
  exfalso. destruct (lo_apart _ HL _ _ _ _ _ _ H1 Hb Hne); lia.
Qed.

Lemma holds_wr w y : holds m w y → holds m' w y ∨ w = b ∧ y = x.
Proof.
  intros (sz' & tg' & j & H1 & H2 & H3 & H4). destruct (decide (w + 8 * j = b + 8 * i)) as [E|Hne]; [|left; exists sz', tg', j; unfold m'; by rewrite lookup_insert_ne]. destruct (decide (w = b)) as [->|Hne]; [right; split; [done|congruence]|].
  exfalso. destruct (lo_apart _ HL _ _ _ _ _ _ H1 Hb Hne); lia.
Qed.

Lemma wr_mem : mem_ok L m → mem_ok L m'.
Proof.
  intros [M1 M2 M3]. split.
  - intros w sz' tg' Hw. rewrite wr_hdr by eauto. by apply M1.
  - intros w sz' tg' j Hw Hj. unfold m'. destruct (decide (b + 8 * i = w + 8 * j)) as [->|]; [rewrite lookup_insert_eq; eauto|rewrite lookup_insert_ne by done; by eapply M2].
  - intros y w Hy. destruct (M3 y w Hy) as (h & Hh). exists h. unfold m'. rewrite lookup_insert_ne; [done|]. intros E. by apply (Hinfix y w).
Qed.

Lemma wr_used w : is_Some (B L !! w) → used m' w ↔ used m w.
Proof. intros Hw. unfold used. by rewrite wr_col. Qed.

Lemma wr_valid y : valid m y → valid m' y.
Proof. intros [H1 H2]. split; [done|]. by apply wr_used. Qed.

Lemma wr_field_ok y : field_ok m y → field_ok m' y.
Proof. intros Hf E. destruct (Hf E) as [H1 H2]. split; [intros Hh; by apply wr_valid, H1|]. intros Hv. unfold m'. apply lookup_insert_is_Some'. right. by apply H2. Qed.

Lemma wr_graph_frame rs P : graph rs P m → field_ok m v → mem_ok L m' ∧ (∀ w y, used m' w → holds m' w y → field_ok m' y) ∧ (∀ y, rs y → inheap y = true → valid m' y).
Proof.
  intros [G1 G2 G3 _ _] Hv. split_and!; [by apply wr_mem| |].
  - intros w y Hw Hy. apply wr_field_ok. destruct (wr_holds w y Hy) as [Hy'|[-> ->]]; [|done]. eapply G2; [|done]. apply wr_used; [by eapply holds_block|done].
  - intros y Hy Hin. apply wr_valid. auto.
Qed.

Lemma wr_edge w y : edge m' w y → edge m w y ∨ w = b ∧ inheap v = true ∧ target v = y.
Proof.
  intros (H1 & z & H2 & H3 & H4). destruct (wr_holds w z H2) as [H2'|[-> ->]]; [left|by right]. split; [apply wr_used; [by eapply holds_block|done]|by exists z].
Qed.

Lemma edge_wr w y : edge m w y → edge m' w y ∨ w = b ∧ inheap x = true ∧ target x = y.
Proof.
  intros (H1 & z & H2 & H3 & H4). destruct (holds_wr w z H2) as [H2'|[-> ->]]; [left|by right]. split; [apply wr_used; [by eapply holds_block|done]|by exists z].
Qed.

(** What is reached through the other blocks is not changed. *)
Lemma wr_path rs P g w : graph rs P m → black m b → g ≠ b → rtc (wedge m) g w → rtc (wedge m') g w.
Proof.
  intros HG Hbb Hg Hr. induction Hr as [g|g g1 w [He1 Hw1] Hr IH]; [done|]. assert (g1 ≠ b) as Hg1 by (intros ->; unfold white in Hw1; by rewrite Hbb in Hw1). eapply rtc_l; [|by apply IH].
  split; [by destruct (edge_wr g g1 He1) as [?|[? _]]|]. unfold white. rewrite wr_col; [done|by eapply edge_valid].
Qed.

(** A pointer to a forwarding block is replaced by its content, in a black block. *)
Lemma shortcut_graph rs (P : Z → Prop) : graph rs P m → tg < No_scan_tag → black m b → inheap x = true → target x ≠ b → holds m (target x) v → (white m (target x) → P x) → graph rs P m'.
Proof.
  intros HG Htg Hbb Hxin Hxb Hxv HP. assert (edge m b (target x)) as Hbx by (split; [unfold used; by rewrite Hbb|exists x; split; [exists sz, tg, i; done|done]]). destruct (edge_valid _ _ _ _ _ HG Hbx) as [Hxt Hxu].
  assert (field_ok m v) as Hfv by (by apply (g_field _ _ _ HG (target x))). destruct (wr_graph_frame rs P HG Hfv) as (F1 & F2 & F3).
  assert (∀ w, is_Some (B L !! w) → protected P m w → protected P m' w) as Hprot.
  { intros w Hw (g & Hr & Hg). pose proof (wedge_block _ _ _ Hr Hw) as Hgb. assert (g ≠ b) as Hne by (intros ->; unfold gray, white in Hg; rewrite Hbb in Hg; by destruct Hg as [[? _]|[? _]]). exists g. split; [by eapply wr_path|]. unfold gray, white. by rewrite wr_col. }
  assert (∀ w, edge m (target x) w → white m w → protected P m w) as Hcontent.
  { intros w He Hw. destruct (color_cases (hdr m (target x))) as [Hc|[Hc|[Hc|Hc]]].
    - exists (target x). split; [by apply rtc_once|]. right. split; [done|]. exists x. auto.
    - exists (target x). split; [by apply rtc_once|]. left. done.
    - done.
    - by apply (g_tri_black _ _ _ HG (target x)). }
  split; try done.
  - intros y Hy Hin Hwy. destruct (g_root _ _ _ HG y Hy Hin) as [Hyb _]. apply Hprot; [done|]. apply (g_tri_root _ _ _ HG); [done..|]. unfold white. by rewrite <- wr_col.
  - intros w y Hw He Hwy. destruct (wr_edge w y He) as [He'|(-> & Hvin & Hvt)].
    + destruct (edge_valid _ _ _ _ _ HG He') as [Hyb _]. assert (is_Some (B L !! w)) as Hwb by (destruct He' as (_ & z & Hz & _); by eapply holds_block). unfold black, white in *. rewrite wr_col in Hw, Hwy by done. apply Hprot; [done|]. by apply (g_tri_black _ _ _ HG w).
    + assert (edge m (target x) y) as He' by (split; [done|by exists v]). destruct (edge_valid _ _ _ _ _ HG He') as [Hyb _]. unfold white in Hwy. rewrite wr_col in Hwy by done. apply Hprot; [done|]. by apply Hcontent.
Qed.

(** The program writes a value that it knows: the old value is to be darkened. *)
Lemma assign_graph rs : graph rs (λ _, False) m → field_ok m v → (inheap v = true → white m (target v) → protected (λ _, False) m (target v)) → graph rs (λ y, y = x) m'.
Proof.
  intros HG Hfv Hv. destruct (wr_graph_frame rs _ HG Hfv) as (F1 & F2 & F3).
  assert (∀ g w, rtc (wedge m) g w → rtc (wedge m') g w ∨ inheap x = true ∧ is_Some (B L !! target x) ∧ white m (target x) ∧ rtc (wedge m') (target x) w) as Hpath.
  { intros g w Hr. induction Hr as [g|g g1 w [He1 Hw1] Hr IH]; [by left|]. destruct IH as [IH|IH]; [|by right]. destruct (edge_valid _ _ _ _ _ HG He1) as [Hg1 _]. destruct (edge_wr g g1 He1) as [He'|(-> & Hin & E1)]; [left|right; by rewrite E1].
    eapply rtc_l; [|exact IH]. split; [done|]. unfold white. by rewrite wr_col. }
  assert (∀ w, is_Some (B L !! w) → protected (λ _, False) m w → protected (λ y, y = x) m' w) as Hprot.
  { intros w Hw (g & Hr & [[Hg Hgb]|(_ & y & [] & _)]). destruct (Hpath g w Hr) as [Hr'|(Hin & Hxb & Hxw & Hr')].
    - exists g. split; [done|left]. unfold gray. by rewrite wr_col.
    - exists (target x). split; [done|right]. split; [unfold white; by rewrite wr_col|by exists x]. }
  split; try done.
  - intros y Hy Hin Hwy. destruct (g_root _ _ _ HG y Hy Hin) as [Hyb _]. apply Hprot; [done|]. apply (g_tri_root _ _ _ HG); [done..|]. unfold white. by rewrite <- wr_col.
  - intros w y Hw He Hwy. assert (is_Some (B L !! w)) as Hwb by (destruct He as (_ & z & Hz & _); by eapply holds_block). unfold black, white in *. rewrite wr_col in Hw by done. destruct (wr_edge w y He) as [He'|(-> & Hvin & <-)].
    + destruct (edge_valid _ _ _ _ _ HG He') as [Hyb _]. rewrite wr_col in Hwy by done. apply Hprot; [done|]. by apply (g_tri_black _ _ _ HG w).
    + apply inheap_split in Hvin as [H1 H2]. destruct (Hfv H1) as [Hval _]. destruct (Hval H2) as [Hyb _]. rewrite wr_col in Hwy by done. apply Hprot; [done|]. apply Hv; [unfold inheap; by rewrite H1, H2|done].
Qed.
End Write.

(** *** What the program reaches *)

Definition reach (rs : Z → Prop) (m : gmap Z Z) (w : Z) : Prop := ∃ x, rs x ∧ inheap x = true ∧ rtc (edge m) (target x) w.

Lemma reach_protected rs m w : graph rs (λ _, False) m → reach rs m w → is_Some (B L !! w) ∧ used m w ∧ (white m w → protected (λ _, False) m w).
Proof.
  intros HG (x & Hx & Hin & Hr). revert w Hr. apply rtc_ind_r; [|intros a c _ He IH].
  - destruct (g_root _ _ _ HG x Hx Hin) as [H1 H2]. split_and!; [done..|]. intros Hw. by apply (g_tri_root _ _ _ HG).
  - destruct IH as (Hab & Hau & Hap). destruct (edge_valid _ _ _ _ _ HG He) as [Hcb Hcu]. split_and!; [done..|]. intros Hw. destruct (color_cases (hdr m a)) as [Hc|[Hc|[Hc|Hc]]].
    + destruct (Hap Hc) as (g & Hr & Hg). exists g. split; [|done]. eapply rtc_r; [exact Hr|done].
    + exists a. split; [by apply rtc_once|by left].
    + done.
    + by apply (g_tri_black _ _ _ HG a).
Qed.

(** Without gray blocks, all that is reached is black. *)
Lemma reach_black rs m w : graph rs (λ _, False) m → (∀ g, is_Some (B L !! g) → ¬ gray m g) → reach rs m w → is_Some (B L !! w) ∧ black m w.
Proof.
  intros HG Hno Hw. destruct (reach_protected rs m w HG Hw) as (H1 & H2 & H3). split; [done|]. destruct (color_cases (hdr m w)) as [Hc|[Hc|[Hc|Hc]]]; [|by destruct (Hno w)|done|done].
  destruct (H3 Hc) as (g & _ & [[Hg Hgb]|(_ & y & [] & _)]). by destruct (Hno g).
Qed.

Lemma roots_graph rs rs' m : graph rs (λ _, False) m → (∀ x, rs' x → inheap x = true → reach rs m (target x)) → graph rs' (λ _, False) m.
Proof.
  intros HG Hrs. split; [apply HG|apply HG| | |apply HG].
  - intros x Hx Hin. by destruct (reach_protected rs m (target x) HG (Hrs x Hx Hin)) as (H1 & H2 & _).
  - intros x Hx Hin. by destruct (reach_protected rs m (target x) HG (Hrs x Hx Hin)) as (_ & _ & H3).
Qed.

Lemma graph_roots rs rs' P m : (∀ x, rs' x → rs x) → graph rs P m → graph rs' P m.
Proof. intros Hsub [G1 G2 G3 G4 G5]. split; auto. Qed.

Lemma graph_pending rs (P P' : Z → Prop) m : (∀ x, P x → P' x) → graph rs P m → graph rs P' m.
Proof.
  intros Hsub [G1 G2 G3 G4 G5]. assert (∀ w, protected P m w → protected P' m w) as Hprot by (intros w (g & Hr & Hg); exists g; split; [done|]; destruct Hg as [Hg|(Hg & y & Hy & Hg')]; [by left|right; eauto]).
  split; auto. intros v w Hv He Hw. by apply Hprot, (G5 v).
Qed.

(** *** Changes outside the graph *)

(** [m'] is [m] but for words that marking does not look at. *)
Record alike (m m' : gmap Z Z) : Prop := {
  a_hdr v : is_Some (B L !! v) → m' !! (v - 8) = m !! (v - 8);
  a_field v sz tg i : B L !! v = Some (sz, tg) → tg < No_scan_tag → 0 <= i < sz → m' !! (v + 8 * i) = m !! (v + 8 * i);
  a_dom a : is_Some (m !! a) → is_Some (m' !! a)
}.

Lemma alike_col m m' v : alike m m' → is_Some (B L !! v) → col m' v = col m v.
Proof. intros Ha Hv. unfold col, hdr. by rewrite (a_hdr _ _ Ha). Qed.

Lemma alike_graph rs P m m' : alike m m' → graph rs P m → graph rs P m'.
Proof.
  intros [A1 A2 A3] HG. assert (∀ v, is_Some (B L !! v) → col m' v = col m v) as Hcol by (intros v Hv; unfold col, hdr; by rewrite A1).
  assert (∀ v x, holds m' v x ↔ holds m v x) as Hh by (intros v x; split; intros (sz & tg & i & H1 & H2 & H3 & H4); exists sz, tg, i; [rewrite <- (A2 v sz tg i)|rewrite (A2 v sz tg i)]; done).
  assert (∀ v w, edge m' v w ↔ edge m v w) as He.
  { intros v w; split; intros (Hu & x & Hx & Hin); (split; [|exists x; split; [by apply Hh|done]]); revert Hu; unfold used; (rewrite Hcol; [done|]); [apply Hh in Hx|]; by eapply holds_block. }
  assert (∀ g w, is_Some (B L !! w) → rtc (wedge m) g w → rtc (wedge m') g w) as Hpath.
  { intros g w Hw Hr. induction Hr as [g|g g1 w [He1 Hw1] Hr IH]; [done|]. eapply rtc_l; [|by apply IH]. split; [by apply He|]. unfold white. rewrite Hcol; [done|]. by eapply edge_valid. }
  assert (∀ w, is_Some (B L !! w) → protected P m w → protected P m' w) as Hprot.
  { intros w Hw (g & Hr & Hg). pose proof (wedge_block _ _ _ Hr Hw) as Hgb. exists g. split; [by apply Hpath|]. unfold gray, white. by rewrite Hcol. }
  assert (∀ x, valid m x → valid m' x) as Hval by (intros x [H1 H2]; split; [done|]; unfold used; by rewrite Hcol).
  destruct (g_mem _ _ _ HG) as [M1 M2 M3]. split.
  - split.
    + intros v sz tg Hv. rewrite A1 by eauto. by apply M1.
    + intros v sz tg i Hv Hi. apply A3. by eapply M2.
    + intros x v Hx. destruct (lo_infix _ HL x v Hx) as (sz & tg & j & Hv & Ht & Hj & E). replace (x - 8) with (v + 8 * j) by lia. rewrite (A2 v sz tg j) by done. replace (v + 8 * j) with (x - 8) by lia. by apply M3.
  - intros v x Hu Hx. apply Hh in Hx. unfold used in Hu. rewrite Hcol in Hu by by eapply holds_block. pose proof (g_field _ _ _ HG v x Hu Hx) as Hf. intros E. destruct (Hf E) as [H1 H2]. split; [auto|]. intros Hv. by apply A3, H2.
  - intros x Hx Hin. by apply Hval, (g_root _ _ _ HG).
  - intros x Hx Hin Hw. destruct (g_root _ _ _ HG x Hx Hin) as [Hb _]. apply Hprot; [done|]. apply (g_tri_root _ _ _ HG); [done..|]. unfold white. by rewrite <- Hcol.
  - intros v w Hv Hvw Hw. apply He in Hvw. destruct (edge_valid _ _ _ _ _ HG Hvw) as [Hwb _]. assert (is_Some (B L !! v)) as Hvb by (destruct Hvw as (_ & x & Hx & _); by eapply holds_block). unfold black, white in *. rewrite Hcol in Hv, Hw by done. apply Hprot; [done|]. by apply (g_tri_black _ _ _ HG v).
Qed.

(** *** What marking keeps of the memory *)

(** The words of a block, header included. *)
Definition inside (v a : Z) : Prop := ∃ sz tg, B L !! v = Some (sz, tg) ∧ v - 8 <= a < v + 8 * sz.

Lemma inside_eq v w a : inside v a → inside w a → v = w.
Proof. intros (sz & tg & Hv & Ha) (sz' & tg' & Hw & Hb). destruct (decide (v = w)) as [|Hne]; [done|]. destruct (lo_apart _ HL _ _ _ _ _ _ Hv Hw Hne); lia. Qed.

Lemma inside_some v a : inside v a → is_Some (B L !! v).
Proof. intros (sz & tg & Hv & _). eauto. Qed.

Lemma insert_free m b a y : inside b a → used m b → ∀ v a', ¬ used m v → inside v a' → <[a := y]> m !! a' = m !! a'.
Proof. intros Ha Hb v a' Hv Ha'. apply lookup_insert_ne. intros <-. by rewrite (inside_eq _ _ _ Ha' Ha) in Hv. Qed.

Record keeps (m m' : gmap Z Z) : Prop := {
  k_out a : ¬ in_block L a → m' !! a = m !! a;
  k_noscan v sz tg i : B L !! v = Some (sz, tg) → No_scan_tag <= tg → 0 <= i < sz → m' !! (v + 8 * i) = m !! (v + 8 * i);
  k_used v : is_Some (B L !! v) → used m' v ↔ used m v;
  k_black v : is_Some (B L !! v) → black m v → black m' v;
  k_dom a : is_Some (m !! a) → is_Some (m' !! a);
  k_free v a : ¬ used m v → inside v a → m' !! a = m !! a
}.

Lemma mkeeps_refl m : keeps m m.
Proof. by split. Qed.

Lemma mkeeps_trans m1 m2 m3 : keeps m1 m2 → keeps m2 m3 → keeps m1 m3.
Proof.
  intros [A1 A2 A3 A4 A5 A6] [B1 B2 B3 B4 B5 B6]. split; intros.
  - by rewrite B1, A1.
  - by rewrite (B2 v sz tg i), (A2 v sz tg i).
  - by rewrite B3, A3.
  - auto.
  - auto.
  - rewrite (B6 v), (A6 v); [done..| |done]. by rewrite A3 by by eapply inside_some.
Qed.

Lemma rec_keeps b sz tg c hd hd' m : B L !! b = Some (sz, tg) → m !! (b - 8) = Some hd → recoloured c hd hd' → used m b → c ≠ Caml_blue → (black m b → c = Caml_black) → keeps m (<[b - 8 := hd']> m).
Proof.
  intros Hb Hhd Hc Hu Hcb Hbl. split.
  - intros a Ha. apply lookup_insert_ne. intros <-. apply Ha. exists b, sz, tg. pose proof (lo_size _ HL _ _ _ Hb). split; [done|lia].
  - intros v sz' tg' i Hv _ Hi. by eapply rec_field.
  - intros v _. by eapply rec_used.
  - intros v _ Hv. unfold black. rewrite (rec_col b c hd) by done. case_decide as E; [subst v; auto|done].
  - intros a Ha. apply lookup_insert_is_Some'. by right.
  - apply (insert_free m b); [|done]. exists sz, tg. pose proof (lo_size _ HL _ _ _ Hb). split; [done|lia].
Qed.

Lemma wr_keeps b sz tg i v m : B L !! b = Some (sz, tg) → tg < No_scan_tag → 0 <= i < sz → used m b → keeps m (<[b + 8 * i := v]> m).
Proof.
  intros Hb Ht Hi Hu. split.
  - intros a Ha. apply lookup_insert_ne. intros <-. apply Ha. exists b, sz, tg. split; [done|lia].
  - intros w sz' tg' j Hw Ht' Hj. apply lookup_insert_ne. intros E. destruct (decide (b = w)) as [->|Hne]; [rewrite Hb in Hw; injection Hw as <- <-; lia|]. destruct (lo_apart _ HL _ _ _ _ _ _ Hb Hw Hne); lia.
  - intros w Hw. unfold used. by rewrite (wr_col b sz tg i v m).
  - intros w Hw. unfold black. by rewrite (wr_col b sz tg i v m).
  - intros a Ha. apply lookup_insert_is_Some'. by right.
  - apply (insert_free m b); [|done]. exists sz, tg. split; [done|lia].
Qed.
End Graph.

(** ** The free list *)

Lemma covered_app l1 l2 a : Freelist.covered (l1 ++ l2) a ↔ Freelist.covered l1 a ∨ Freelist.covered l2 a.
Proof. apply Exists_app. Qed.

Lemma covered_in l a : Freelist.covered l a ↔ ∃ b z, (b, z) ∈ l ∧ Freelist.Hd_bp b <= a < b + 8 * z.
Proof. unfold Freelist.covered. rewrite Exists_exists. split; [intros ([b z] & H1 & H2); eauto|intros (b & z & H1 & H2); by exists (b, z)]. Qed.

(** The invariant depends on the words of the free blocks and of the sentinel. *)
Lemma fl_inv_frame f l m' : Freelist.fl_inv f l → (∀ a, Freelist.covered l a ∨ a = Freelist.Fl_head f ∨ a = Freelist.Hd_bp (Freelist.Fl_head f) → m' !! a = Freelist.mem f !! a) → Freelist.fl_inv (Freelist.set_mem m' f) l.
Proof.
  intros [I1 I2 I3 I4 I5 I6 I7 I8 I9 I10] Hm. split; cbn; try done; [|rewrite Hm; tauto].
  eapply Freelist.chain_ext; [|exact I3]. intros a [->|(b & z & Hin & Ha)]; [apply Hm; tauto|]. apply Hm. left. apply covered_in. exists b, z. split; [done|]. destruct (Freelist.sorted_elem _ _ _ _ I4 Hin) as (_ & H2 & _). unfold Freelist.Hd_bp in *. lia.
Qed.

(** The free blocks among the blocks [l]. *)
Definition free_blocks (L : lay) (m : gmap Z Z) (l : list Z) : list (Z * Z) :=
  omap (λ v, if col m v =? Caml_blue then (λ x, (v, x.1)) <$> B L !! v else None) l.

Lemma elem_free L v z m l : (v, z) ∈ free_blocks L m l ↔ v ∈ l ∧ ¬ used m v ∧ ∃ tg, B L !! v = Some (z, tg).
Proof.
  unfold free_blocks. rewrite list_elem_of_omap. unfold used. split.
  - intros (w & Hw & E). destruct (Z.eqb_spec (col m w) Caml_blue) as [Ec|]; [|done]. destruct (B L !! w) as [[sz tg]|] eqn:EB; [|done]. cbn in E. injection E as -> <-. split_and!; [done|by intros []|eauto].
  - intros (Hl & Hu & tg & Hb). exists v. split; [done|]. destruct (Z.eqb_spec (col m v) Caml_blue) as [Ec|Ec]; [by rewrite Hb|by destruct Hu].
Qed.

Lemma free_blocks_ext L m m' l : (∀ v, is_Some (B L !! v) → used m' v ↔ used m v) → free_blocks L m' l = free_blocks L m l.
Proof.
  intros Hu. induction l as [|v l IH]; [done|]. unfold free_blocks in *. cbn. rewrite IH. destruct (B L !! v) as [[sz tg]|] eqn:E; cbn; [|by destruct (_ =? _), (_ =? _)]. specialize (Hu v ltac:(eauto)). unfold used in Hu. destruct (Z.eqb_spec (col m' v) Caml_blue), (Z.eqb_spec (col m v) Caml_blue); tauto.
Qed.

Lemma free_covered L m l a : Freelist.covered (free_blocks L m l) a → ∃ v, v ∈ l ∧ ¬ used m v ∧ inside L v a.
Proof. intros (v & z & (Hv & Hu & tg & Hb)%elem_free & Ha)%covered_in. exists v. split_and!; [done..|]. exists z, tg. unfold Freelist.Hd_bp in Ha. split; [done|lia]. Qed.

(** ** Progress *)

(** The blocks that are not black. *)
Definition unmarked (L : lay) (m : gmap Z Z) : Z := Z.of_nat (stdpp.base.size (filter (λ v, col m v ≠ Caml_black) (dom (B L)))).

Lemma unmarked_keeps L m m' : keeps L m m' → unmarked L m' <= unmarked L m.
Proof.
  intros Hk. unfold unmarked. apply inj_le, subseteq_size. intros v. rewrite !elem_of_filter, elem_of_dom. intros [H1 H2]. split; [|done]. intros E. by apply H1, (k_black _ _ _ Hk).
Qed.

Lemma unmarked_black L m m' v : keeps L m m' → is_Some (B L !! v) → ¬ black m v → black m' v → unmarked L m' < unmarked L m.
Proof.
  intros Hk Hv H1 H2. unfold unmarked. apply inj_lt, subset_size. split.
  - intros w. rewrite !elem_of_filter, elem_of_dom. intros [G1 G2]. split; [|done]. intros E. by apply G1, (k_black _ _ _ Hk).
  - intros Hsub. assert (v ∈ filter (λ v, col m' v ≠ Caml_black) (dom (B L))) as Hin by (apply Hsub; apply elem_of_filter; split; [done|by apply elem_of_dom]). by apply elem_of_filter in Hin as [? _].
Qed.

Lemma unmarked_bound L m : 0 <= unmarked L m <= Z.of_nat (stdpp.base.size (dom (B L))).
Proof. unfold unmarked. split; [lia|]. apply inj_le, subseteq_size. intros v. rewrite elem_of_filter. tauto. Qed.

(** ** The marking operations *)

Section Machine.
Context (realloc_ok malloc_ok : gc major → bool) (Is_in_heap Is_in_value_area : Z → bool) (caml_weak_list_head caml_weak_none : Z).
Context (L : lay) (HL : lay_ok L).
Notation graph := (graph Is_in_heap Is_in_value_area L).
Notation inheap := (inheap Is_in_heap).
Notation keeps := (keeps L).

Lemma ld_run {X} (s : gc X) a v : words s !! a = Some v → ld a s = inr (s, v).
Proof. intros E. unfold ld. by rewrite E. Qed.

Lemma st_run {X} (s : gc X) a v w : words s !! a = Some w → st a v s = inr (set_words (<[a := v]> (words s)) s, tt).
Proof. intros E. unfold st. by rewrite E. Qed.

Definition blocks_of (h : list (Z * Z * list Z)) : list Z := mjoin (snd <$> h).

(** The walk is in a chunk, before the blocks [l2]; the chunks [h] follow. *)
Definition walk_at (k : marker) (l2 : list Z) (h : list (Z * Z * list Z)) : Prop :=
  ∃ h1 c n l1, H L = h1 ++ (c, n, l1 ++ l2) :: h ∧ mark_chunk k = c ∧ mark_limit k = c + n ∧ 0 < markhp k ∧ tiles (B L) (markhp k) (c + n) l2.

(** The gray blocks are on the stack, or will be found by a walk. *)
Record marks (k : marker) (m : gmap Z Z) : Prop := {
  q_stack g : g ∈ gray_vals k → is_Some (B L !! g) ∧ gray m g;
  q_nodup : NoDup (gray_vals k);
  q_cap : Z.of_nat (length (gray_vals k)) < gray_vals_size k ∧ 2 <= gray_vals_size k;
  q_walk : markhp k = 0 ∨ ∃ l2 h, walk_at k l2 h;
  q_found g : is_Some (B L !! g) → gray m g → g ∈ gray_vals k ∨ heap_is_pure k = 0 ∨ ∃ l2 h, walk_at k l2 h ∧ g ∈ l2 ++ blocks_of h
}.

(** Only the memory, the stack, its size and [heap_is_pure] change. *)
Definition steady (k k' : marker) : Prop := markhp k' = markhp k ∧ mark_chunk k' = mark_chunk k ∧ mark_limit k' = mark_limit k ∧ caml_gc_subphase k' = caml_gc_subphase k ∧ weak_prev k' = weak_prev k.
Definition moved (s s' : gc major) : Prop := s' = set_words (words s') (put_mk (mk (rest s')) s) ∧ steady (mk (rest s)) (mk (rest s')).

Lemma mmoved_refl s : moved s s.
Proof. by destruct s as [? ? ? ? ? ? ? ? []]. Qed.

Lemma mmoved_trans s1 s2 s3 : moved s1 s2 → moved s2 s3 → moved s1 s3.
Proof.
  intros [E1 (A1 & A2 & A3 & A4 & A5)] [E2 (B1 & B2 & B3 & B4 & B5)]. split; [rewrite E2; rewrite E1; by destruct s1 as [? ? ? ? ? ? ? ? []]|]. unfold steady. by rewrite B1, B2, B3, B4, B5.
Qed.

Lemma moved_words s m : moved s (set_words m s).
Proof. split; [by destruct s as [? ? ? ? ? ? ? ? []]|done]. Qed.

Lemma steady_walk k k' l2 h : steady k k' → walk_at k l2 h → walk_at k' l2 h.
Proof. intros (A1 & A2 & A3 & _) (h1 & c & n & l1 & H1). exists h1, c, n, l1. by rewrite A1, A2, A3. Qed.

Lemma push_run s c : let k := mk (rest s) in
  (∀ g, g ∈ gray_vals k ++ [c] → is_Some (B L !! g) ∧ gray (words s) g) → NoDup (gray_vals k ++ [c]) → Z.of_nat (length (gray_vals k)) < gray_vals_size k ∧ 2 <= gray_vals_size k →
  (markhp k = 0 ∨ ∃ l2 h, walk_at k l2 h) →
  (∀ g, is_Some (B L !! g) → gray (words s) g → g ≠ c → g ∈ gray_vals k ∨ heap_is_pure k = 0 ∨ ∃ l2 h, walk_at k l2 h ∧ g ∈ l2 ++ blocks_of h) →
  wp (push_gray realloc_ok c) (λ _ s', words s' = words s ∧ marks (mk (rest s')) (words s) ∧ moved s s') s.
Proof.
  intros k Hst Hnd Hcap Hw Hf. assert (∀ g, is_Some (B L !! g) → gray (words s) g → g ∈ gray_vals k ++ [c] ∨ heap_is_pure k = 0 ∨ ∃ l2 h, walk_at k l2 h ∧ g ∈ l2 ++ blocks_of h) as Hf'.
  { intros g Hg Hgg. destruct (decide (g = c)) as [->|Hne]; [left; set_solver|]. destruct (Hf g Hg Hgg Hne) as [?|?]; [left; set_solver|by right]. }
  unfold push_gray. apply wp_bind. eapply wp_intro; [reflexivity|]. apply wp_bind. eapply wp_intro; [reflexivity|]. cbn [put_mk set_rest set_mk rest mk set_gray gray_vals gray_vals_size]. fold k.
  rewrite length_app. cbn [length]. destruct (Z.leb_spec (gray_vals_size k) (Z.of_nat (length (gray_vals k) + 1))) as [Hle|Hlt].
  - unfold realloc_gray_vals_r. apply wp_bind. eapply wp_intro; [reflexivity|]. cbn [rest put_mk set_rest set_mk mk set_gray gray_vals gray_vals_size caml_stat_heap_size]. fold k. destruct (_ <? _).
    + destruct (realloc_ok _).
      * eapply wp_intro; [reflexivity|]. split_and!; [done| |by split]. split; cbn; fold k; try done. rewrite length_app; cbn; lia.
      * apply wp_bind. eapply wp_intro; [reflexivity|]. eapply wp_intro; [reflexivity|]. split_and!; [done| |by split]. split; cbn; fold k; try done; [by intros g ?%elem_of_nil|constructor|lia|intros; by right; left].
    + apply wp_bind. eapply wp_intro; [reflexivity|]. eapply wp_intro; [reflexivity|]. split_and!; [done| |by split]. split; cbn; fold k; try done.
      * intros g Hg. apply Hst. eapply elem_of_submseteq; [exact Hg|apply submseteq_take].
      * eapply sublist_NoDup; [exact Hnd|]. apply sublist_take.
      * rewrite length_take. split; [|lia]. pose proof (Z.div_lt (gray_vals_size k) 2). lia.
      * intros. by right; left.
  - apply wp_ret. split_and!; [done| |by split]. split; cbn; fold k; try done. rewrite length_app; cbn; lia.
Qed.

(** The state while values wait to be darkened. *)
Definition ginv (rs P : Z → Prop) (s : gc major) : Prop := graph rs P (words s) ∧ marks (mk (rest s)) (words s).

Definition advances (rs P : Z → Prop) (s s' : gc major) : Prop := ginv rs P s' ∧ moved s s' ∧ keeps (words s) (words s').

(** Blocks that are not gray can change without the stack. *)
Lemma marks_alike k m m' : (∀ g, is_Some (B L !! g) → gray m' g ↔ gray m g) → marks k m → marks k m'.
Proof. intros Hg [Q1 Q2 Q3 Q4 Q5]. split; try done; [intros g Hin; destruct (Q1 g Hin); split; [done|by apply Hg]|intros g Hb Hgg; apply Q5; [done|by apply Hg]]. Qed.

(** A white block becomes gray and is pushed. *)
Lemma paint_run rs (P : Z → Prop) s b sz tg hd x : B L !! b = Some (sz, tg) → words s !! (b - 8) = Some hd → word hd → Color_hd hd = Caml_white → inheap x = true → target L x = b →
  ginv rs (λ y, P y ∨ y = x) s → wp (st (Hd_val b) (Grayhd_hd hd) ;;; push_gray realloc_ok b) (λ _ s', advances rs P s s' ∧ words s' = <[b - 8 := Grayhd_hd hd]> (words s)) s.
Proof.
  intros Hb Hhd Hword Hw Hx Ex [HG [Q1 Q2 Q3 Q4 Q5]]. apply wp_bind. eapply wp_intro; [by apply (st_run s _ _ hd)|]. pose proof (Grayhd_spec hd Hword) as Hc. assert (white (words s) b) as Hwb by (unfold white, col, hdr; by rewrite Hhd). assert (used (words s) b) as Hu by (unfold used; by rewrite Hwb).
  assert (∀ v, col (<[b - 8 := Grayhd_hd hd]> (words s)) v = if decide (v = b) then Caml_gray else col (words s) v) as Hcol by (intros v; by apply (rec_col b _ hd)). assert (b ∉ gray_vals (mk (rest s))) as Hnb by (intros Hin; destruct (Q1 b Hin) as [_ Hg]; unfold gray in Hg; by rewrite Hwb in Hg).
  eapply wp_conseq; [apply push_run|].
  - intros g Hg. cbn. unfold gray. rewrite Hcol. apply elem_of_app in Hg as [Hg|Hg%list_elem_of_singleton]; [|subst g; rewrite decide_True by done; split; [eauto|done]]. destruct (Q1 g Hg) as [H1 H2]. split; [done|]. by case_decide.
  - apply NoDup_app. split_and!; [done|by intros y Hy ->%list_elem_of_singleton|apply NoDup_singleton].
  - done.
  - done.
  - cbn. intros g Hg Hgg Hne. apply Q5; [done|]. revert Hgg. unfold gray. by rewrite Hcol, decide_False.
  - cbn. intros [] s' (E1 & E2 & E3). split; [|done]. split_and!.
    + split; [|by rewrite E1]. rewrite E1. by eapply gray_graph.
    + eapply mmoved_trans; [apply (moved_words s)|exact E3].
    + rewrite E1. eapply rec_keeps; [done..|]. unfold black. by rewrite Hwb.
Qed.

(** The header that [Infix_offset_val] and the like lead to. *)
Lemma target_header rs P m x : graph rs P m → inheap x = true → valid L m x → ∃ h, m !! (x - 8) = Some h ∧
  ((I L !! x = None ∧ Tag_hd h ≠ Infix_tag ∧ target L x = x) ∨ (Tag_hd h = Infix_tag ∧ x - Infix_offset_hd h = target L x)) ∧ ∃ sz tg hd, B L !! target L x = Some (sz, tg) ∧ m !! (target L x - 8) = Some hd ∧ word hd ∧ Wosize_hd hd = sz ∧ Tag_hd hd = tg.
Proof.
  intros HG Hin [[[sz tg] Hb] Hu]. destruct (mo_hdr _ _ (g_mem _ _ _ _ _ _ HG) _ _ _ Hb) as (hd & H1 & H2 & H3 & H4). unfold target in *. destruct (I L !! x) as [v|] eqn:Ex; cbn in *.
  - destruct (mo_infix _ _ (g_mem _ _ _ _ _ _ HG) x v Ex) as (h & E1 & E2 & E3). exists h. split_and!; [done|right; split; [done|lia]|]. exists sz, tg, hd. done.
  - exists hd. split_and!; [done|left; split_and!; [done| |done]|by exists sz, tg, hd]. rewrite H4. by eapply lo_size.
Qed.

Lemma darken_run rs (P : Z → Prop) x p s : ginv rs (λ y, P y ∨ y = x) s → (inheap x = true → valid L (words s) x) → wp (caml_darken_r realloc_ok Is_in_heap x p) (λ _ s', advances rs P s s') s.
Proof.
  intros HI Hv. unfold caml_darken_r. destruct (inheap x) eqn:Hx; unfold Marking.inheap in Hx; rewrite Hx; [|apply wp_ret; split_and!; [split; [|apply HI]; eapply skip_graph; [|apply HI]; unfold Marking.inheap; by rewrite Hx|apply mmoved_refl|apply mkeeps_refl]].
  fold (inheap x) in Hx. destruct (target_header _ _ _ x (proj1 HI) Hx (Hv eq_refl)) as (h & Hh & Hor & sz & tg & hd & Hb & Hhd & Hword & Hsz & Htg). apply wp_bind. eapply wp_intro; [by apply ld_run|]. apply wp_bind.
  eapply wp_conseq with (P := λ y s', y = (target L x, hd) ∧ s' = s).
  { destruct Hor as [(E1 & E2 & E3)|(E1 & E2)].
    - rewrite (proj2 (Z.eqb_neq _ _)) by done. apply wp_ret. rewrite E3 in *. split; congruence.
    - rewrite E1, Z.eqb_refl. apply wp_bind. rewrite E2. eapply wp_intro; [by apply ld_run|]. by apply wp_ret. }
  intros y s' [-> ->]. destruct (Is_white_hd hd) eqn:Ew; unfold Is_white_hd in Ew.
  - apply Z.eqb_eq in Ew. rewrite Htg. destruct (Z.ltb_spec tg No_scan_tag).
    + eapply wp_conseq; [by eapply paint_run|]. by intros _ s' [? _].
    + assert (white (words s) (target L x)) as Hwb by (unfold white, col, hdr; by rewrite Hhd). eapply wp_intro; [by apply (st_run s _ _ hd)|]. pose proof (Blackhd_spec hd Hword) as Hc. unfold Hd_val. split_and!.
      * split; cbn; [by eapply (noscan_graph _ _ L HL rs P (words s) (target L x) sz tg hd x); [..|apply HI]|]. eapply marks_alike; [|apply HI]. intros g Hg. unfold gray. rewrite (rec_col _ Caml_black hd) by done. case_decide as E; [subst g; by rewrite Hwb|done].
      * apply moved_words.
      * eapply (rec_keeps L HL _ sz tg Caml_black hd); [done..|unfold used; by rewrite Hwb|done|done].
  - apply Z.eqb_neq in Ew. apply wp_ret. split_and!; [split; [|apply HI]; eapply skip_graph; [|apply HI]|apply mmoved_refl|apply mkeeps_refl]. intros _. unfold white, col, hdr. by rewrite Hhd.
Qed.

(** [forward_kept] reads the content of a forwarding block. *)
Lemma forward_kept_run s f : field_ok Is_in_heap Is_in_value_area L (words s) f → ∃ b, forward_kept Is_in_value_area f s = inr (s, b) ∧
  (b = false → Is_block f = true → Is_in_value_area f = true ∧ Tag_hd (hdr (words s) f) ≠ Forward_tag).
Proof.
  intros Hf. unfold forward_kept. destruct (Is_block f) eqn:Eb; [|by exists false]. destruct (Is_in_value_area f) eqn:Ev; [|by exists true]. destruct (Hf Eb) as [_ Hd]. destruct (Hd Ev) as [hd Hhd].
  unfold mbnd. rewrite (ld_run s _ hd) by done. eexists. split; [reflexivity|]. intros E _. split; [done|]. unfold hdr. rewrite Hhd. cbn. apply orb_false_iff in E as [E _]. apply orb_false_iff in E as [E _]. by apply Z.eqb_neq.
Qed.

(** A field of a black block: its value is darkened. *)
Lemma mark_field_run rs (P : Z → Prop) s b sz tg i x : B L !! b = Some (sz, tg) → tg < No_scan_tag → 0 <= i < sz → words s !! (b + 8 * i) = Some x → black (words s) b → ginv rs (λ y, P y ∨ y = x) s →
  wp (mark_field realloc_ok Is_in_heap Is_in_value_area b i) (λ _ s', advances rs P s s' ∧ ∀ j, 0 <= j < sz → j ≠ i → words s' !! (b + 8 * j) = words s !! (b + 8 * j)) s.
Proof.
  intros Hb Ht Hi Hx Hbl HI. assert (holds L (words s) b x) as Hbx by (exists sz, tg, i; done). assert (used (words s) b) as Hbu by (unfold used; by rewrite Hbl). pose proof (g_field _ _ _ _ _ _ (proj1 HI) b x Hbu Hbx) as Hfx.
  unfold mark_field. apply wp_bind. eapply wp_intro; [by apply (ld_run s (Field b i))|]. destruct (inheap x) eqn:Ex; unfold Marking.inheap in Ex; rewrite Ex; [|apply wp_ret; split; [|done]; split_and!; [split; [|apply HI]; eapply skip_graph; [|apply HI]; unfold Marking.inheap; by rewrite Ex|apply mmoved_refl|apply mkeeps_refl]].
  fold (inheap x) in Ex. destruct (inheap_split _ _ Ex) as [Ex1 Ex2]. destruct (Hfx Ex1) as [Hval _]. specialize (Hval Ex2). destruct (target_header _ _ _ x (proj1 HI) Ex Hval) as (h & Hh & Hor & sz' & tg' & hd & Ht' & Hhd & Hword & Hsz & Htg).
  apply wp_bind. eapply wp_intro; [by apply ld_run|]. apply wp_bind.
  eapply wp_conseq with (P := λ y s', y = (target L x, hd) ∧ ginv rs (λ y, P y ∨ y = x) s' ∧ moved s s' ∧ keeps (words s) (words s') ∧ words s' !! (target L x - 8) = Some hd ∧ ∀ j, 0 <= j < sz → j ≠ i → words s' !! (b + 8 * j) = words s !! (b + 8 * j)).
  { destruct Hor as [(E1 & E2 & E3)|(E1 & E2)].
    - rewrite E3 in *. rewrite Hh in Hhd. injection Hhd as ->. rewrite Htg. destruct (Z.eqb_spec tg' Forward_tag) as [Ef|Ef].
      + destruct (lo_size _ HL _ _ _ Ht') as (_ & _ & Hone). specialize (Hone Ef). destruct (mo_field _ _ (g_mem _ _ _ _ _ _ (proj1 HI)) x sz' tg' 0 Ht') as [f Hff]; [lia|]. apply wp_bind. eapply wp_intro; [by apply ld_run|].
        assert (holds L (words s) x f) as Hxf by (exists sz', tg', 0; split_and!; try done; unfold Forward_tag, No_scan_tag in *; lia). assert (used (words s) x) as Hxu by (unfold valid in Hval; rewrite E3 in Hval; apply Hval).
        destruct (forward_kept_run s f (g_field _ _ _ _ _ _ (proj1 HI) x f Hxu Hxf)) as (kept & Ek & Hk). apply wp_bind. eapply wp_intro; [exact Ek|]. apply wp_bind. destruct kept; [apply wp_ret, wp_ret; split_and!; try done; try apply mmoved_refl; try apply mkeeps_refl|].
        eapply wp_intro; [by apply (st_run s _ _ x)|]. apply wp_ret. unfold Field. cbn. assert (x ≠ b) as Hne.
        { intros ->. rewrite Hb in Ht'. injection Ht' as -> ->. replace i with 0 in Hx by lia. rewrite Hx in Hff. injection Hff as ->. destruct (Hk eq_refl Ex1) as [_ Hnf]. unfold hdr in Hnf. rewrite Hh in Hnf. cbn in Hnf. congruence. }
        assert (∀ y w, I L !! y = Some w → y - 8 ≠ b + 8 * i) as Hinf. { intros y w Hy E. destruct (mo_infix _ _ (g_mem _ _ _ _ _ _ (proj1 HI)) y w Hy) as (h' & G1 & G2 & _). rewrite E, Hx in G1. injection G1 as <-. rewrite (infix_odd x G2) in Ex1. done. }
        split_and!; try done.
        * split; cbn; [eapply (shortcut_graph _ _ L HL b sz tg i x f); try done; [apply HI|by rewrite E3|by rewrite E3|intros _; by right]|]. eapply marks_alike; [|apply HI]. intros g Hg. unfold gray. by rewrite (wr_col L HL b sz tg i).
        * apply moved_words.
        * by eapply wr_keeps.
        * rewrite lookup_insert_ne; [done|]. intros E. by apply (block_word L HL x sz' tg' b sz tg i).
        * intros j Hj Hji. apply lookup_insert_ne. lia.
      + rewrite (proj2 (Z.eqb_neq _ _)) by congruence. apply wp_ret. split_and!; try done; try apply mmoved_refl; try apply mkeeps_refl.
    - rewrite E1. cbn [Z.eqb]. apply wp_bind. rewrite E2. eapply wp_intro; [by apply ld_run|]. apply wp_ret. split_and!; try done; try apply mmoved_refl; try apply mkeeps_refl. }
  intros y s1 (-> & HI1 & Hm1 & Hk1 & Hhd1 & Hj1). destruct (Is_white_hd hd) eqn:Ew; unfold Is_white_hd in Ew.
  - apply Z.eqb_eq in Ew. eapply wp_conseq; [by eapply (paint_run rs P s1 (target L x) sz' tg' hd x)|]. intros [] s2 [(H1 & H2 & H3) E1]. split; [split_and!; [done|by eapply mmoved_trans|by eapply mkeeps_trans]|].
    intros j Hj Hji. rewrite E1, lookup_insert_ne by (by eapply block_word). by apply Hj1.
  - apply Z.eqb_neq in Ew. apply wp_ret. split; [|done]. split_and!; [split; [|apply HI1]; eapply skip_graph; [|apply HI1]|done|done]. intros _. unfold white, col, hdr. by rewrite Hhd1.
Qed.

(** A gray block is taken from the stack: it becomes black, and what it holds
    is darkened. *)
Lemma mark_block_run rs s l v : ginv rs (λ _, False) s → gray_vals (mk (rest s)) = l ++ [v] →
  let s0 := put_mk (set_gray l (mk (rest s))) s in
  wp (mark_block realloc_ok Is_in_heap Is_in_value_area v) (λ _ s', advances rs (λ _, False) s0 s' ∧ black (words s') v ∧ ¬ black (words s) v) s0.
Proof.
  intros [HG [Q1 Q2 Q3 Q4 Q5]] El s0. rewrite El in *. destruct (Q1 v) as [[[sz tg] Hb] Hgv]; [set_solver|]. destruct (mo_hdr _ _ (g_mem _ _ _ _ _ _ HG) _ _ _ Hb) as (hd & Hhd & Hword & Hsz & Htg).
  assert (Color_hd hd = Caml_gray) as Hcg by (unfold gray, col, hdr in Hgv; by rewrite Hhd in Hgv). pose proof (Blackhd_spec hd Hword) as Hc. assert (used (words s) v) as Hu by (unfold used; by rewrite Hgv).
  assert (¬ black (words s) v) as Hnb by (unfold black; by rewrite Hgv). unfold mark_block. apply wp_bind. eapply wp_intro; [by apply (ld_run s0 _ hd)|]. apply wp_bind. eapply wp_intro; [by apply (st_run s0 _ _ hd)|].
  set (s1 := set_words _ s0). assert (words s1 = <[v - 8 := Blackhd_hd hd]> (words s)) as Es1 by done. assert (∀ w, col (words s1) w = if decide (w = v) then Caml_black else col (words s) w) as Hcol by (intros w; rewrite Es1; by apply (rec_col v _ hd)).
  assert (ginv rs (holds L (words s) v) s1) as HI1.
  { split; [rewrite Es1; by eapply blacken_graph|]. apply NoDup_app in Q2 as (N1 & N2 & _). rewrite length_app in Q3. cbn in Q3. split; cbn; try done.
    - intros g Hg. destruct (Q1 g) as [H1 H2]; [set_solver|]. split; [done|]. unfold gray. rewrite Hcol. case_decide as E; [|done]. subst g. exfalso. apply (N2 v Hg). set_solver.
    - lia.
    - intros g Hg Hgg. unfold gray in Hgg. rewrite Hcol in Hgg. case_decide as E; [done|]. destruct (Q5 g Hg Hgg) as [Hin|?]; [|by right]. left. set_solver. }
  assert (keeps (words s0) (words s1)) as Hk1 by (rewrite Es1; eapply rec_keeps; [done..|]; by intros).
  assert (black (words s1) v) as Hbl by (unfold black; rewrite Hcol; by rewrite decide_True). rewrite Htg, Hsz. apply wp_bind.
  eapply wp_conseq with (P := λ _ s', advances rs (λ _, False) s1 s').
  2: { intros [] s' (A1 & A2 & A3). apply wp_ret. split; [split_and!; [done|eapply mmoved_trans; [apply (moved_words s0)|exact A2]|by eapply mkeeps_trans]|]. split; [|done]. by apply (k_black _ _ _ A3); [eauto|]. }
  destruct (Z.ltb_spec tg No_scan_tag) as [Hlt|Hge].
  2: { apply wp_ret. split_and!; [|apply mmoved_refl|apply mkeeps_refl]. split; [|apply HI1]. eapply graph_pending; [|apply HI1]. intros x (sz' & tg' & i & E1 & E2 & _). rewrite Hb in E1. injection E1 as <- <-. lia. }
  pose proof (lo_size _ HL _ _ _ Hb) as [Hsz0 _]. eapply wp_conseq; [apply (wp_for_up (λ i s', advances rs (λ y, ∃ j, i <= j < sz ∧ words s1 !! (v + 8 * j) = Some y) s1 s' ∧ ∀ j, i <= j < sz → words s' !! (v + 8 * j) = words s1 !! (v + 8 * j)))|].
  - split; [|done]. split_and!; [|apply mmoved_refl|apply mkeeps_refl]. split; [|apply HI1]. eapply graph_pending; [|apply HI1]. intros x (sz' & tg' & i & E1 & E2 & E3 & E4). rewrite Hb in E1. injection E1 as <- <-. exists i. split; [done|]. rewrite Es1. by rewrite (rec_field L HL v sz tg _ _ Hb v sz tg i Hb E3).
  - intros i t Hi [(A1 & A2 & A3) A4]. destruct (mo_field _ _ (g_mem _ _ _ _ _ _ (proj1 HI1)) v sz tg i Hb) as [x Hx]; [lia|]. eapply wp_conseq; [apply (mark_field_run rs (λ y, ∃ j, i + 1 <= j < sz ∧ words s1 !! (v + 8 * j) = Some y) t v sz tg i x); [done|done|lia|rewrite A4 by lia; done|apply (k_black _ _ _ A3); [eauto|done]|]|].
    + split; [|apply A1]. eapply graph_pending; [|apply A1]. intros y (j & Hj & Hy). destruct (decide (j = i)) as [->|]; [right; congruence|left]. exists j. split; [lia|done].
    + intros [] t' [(B1 & B2 & B3) B4]. split; [split_and!; [done|by eapply mmoved_trans|by eapply mkeeps_trans]|]. intros j Hj. rewrite B4 by lia. apply A4. lia.
  - cbn. intros [] t [(A1 & A2 & A3) _]. split_and!; [|done|done]. split; [|apply A1]. eapply graph_pending; [|apply A1]. intros y (j & Hj & _). lia.
Qed.

(** ** The walk through the heap *)

Fixpoint walk_length (h : list (Z * Z * list Z)) : Z := match h with [] => 0 | (_, l) :: h => Z.of_nat (length l) + 1 + walk_length h end.

(** [t] steps of the walk remain. *)
Definition walks (k : marker) (t : Z) : Prop := markhp k = 0 ∧ t = 0 ∨ ∃ l2 h, walk_at k l2 h ∧ t = Z.of_nat (length l2) + walk_length h + 1.

Lemma tiles_le b l : (∀ v sz tg, b !! v = Some (sz, tg) → 0 <= sz) → ∀ from till, tiles b from till l → from + 8 * Z.of_nat (length l) <= till.
Proof.
  intros Hsz. induction l as [|v l IH]; intros from till; cbn [tiles length]; [lia|]. intros (-> & sz & tg & Hb & Ht). apply IH in Ht. pose proof (Hsz _ _ _ Hb). lia.
Qed.

Lemma walk_tiles from till l : tiles (B L) from till l → from + 8 * Z.of_nat (length l) <= till.
Proof. apply tiles_le. intros v sz tg Hb. by apply (lo_size _ HL) in Hb as [? _]. Qed.

Lemma linked_at m c h1 c' n l h : linked m c (h1 ++ (c', n, l) :: h) → m !! (c' - 16) = Some n ∧ ∃ next, m !! (c' - 8) = Some next ∧ linked m next h.
Proof.
  revert c. induction h1 as [|[[c1 n1] l1] h1 IH]; intros c; cbn [app linked]; [by intros (-> & H1 & H2)|]. intros (_ & _ & next & _ & Hl). by apply (IH next).
Qed.

(** The next chunk. *)
Lemma linked_start m c h1 h k : linked m c h → H L = h1 ++ h → mark_chunk k = c → markhp k = c → (∀ sz, m !! (c - 16) = Some sz → mark_limit k = c + sz) →
  c = 0 ∧ h = [] ∨ ∃ n l h', h = (c, n, l) :: h' ∧ walk_at k l h'.
Proof.
  intros Hl EH E1 E2 E3. destruct h as [|[[c' n] l] h']; cbn in Hl; [by left|]. destruct Hl as (-> & Hn & _). right. exists n, l, h'. split; [done|]. assert ((c', n, l) ∈ H L) as Hin by (rewrite EH; set_solver).
  destruct (lo_chunk _ HL _ _ _ Hin) as (H1 & H2 & _). exists h1, c', n, []. rewrite E1, E2, (E3 n Hn). split_and!; done.
Qed.

Lemma walk_next k l2 h : walk_at k l2 h → markhp k ≠ mark_limit k → ∃ sz tg l2', l2 = markhp k + 8 :: l2' ∧ B L !! (markhp k + 8) = Some (sz, tg) ∧
  ∀ k', mark_chunk k' = mark_chunk k → mark_limit k' = mark_limit k → markhp k' = markhp k + 8 * (sz + 1) → walk_at k' l2' h.
Proof.
  intros (h1 & c & n & l1 & EH & E1 & E2 & Hp & Ht) Hne. destruct l2 as [|v l2]; cbn in Ht; [congruence|]. destruct Ht as (-> & sz & tg & Hb & Ht). exists sz, tg, l2. split_and!; [done..|].
  intros k' F1 F2 F3. pose proof (lo_size _ HL _ _ _ Hb). exists h1, c, n, (l1 ++ [markhp k + 8]). rewrite <- app_assoc, F1, F2, F3. split_and!; try done; [lia|]. by replace (markhp k + 8 * (sz + 1)) with (markhp k + 8 + 8 * sz) by lia.
Qed.

Lemma walk_end k l2 h m c0 : walk_at k l2 h → markhp k = mark_limit k → linked m c0 (H L) → l2 = [] ∧ ∃ next h1, m !! (mark_chunk k - 8) = Some next ∧ linked m next h ∧ H L = h1 ++ h.
Proof.
  intros (h1 & c & n & l1 & EH & E1 & E2 & Hp & Ht) He Hl. apply walk_tiles in Ht. destruct l2 as [|v l2]; [|cbn in Ht; lia]. split; [done|]. rewrite EH in Hl. apply linked_at in Hl as (_ & next & Hn & Hl). exists next, (h1 ++ [(c, n, l1 ++ [])]). rewrite <- app_assoc, E1. done.
Qed.

(** *** The whole state *)

Definition strong (rs : Z → Prop) (o : other_roots) (x : Z) : Prop := rs x ∨ (∃ f, f ∈ final_table o ∧ x = fun_ f) ∨ ∃ q f, q ∈ to_do o ∧ f ∈ q ∧ (x = fun_ f ∨ x = val f).

(** The list of weak arrays from the word at [a]. *)
Fixpoint weak_chain (m : gmap Z Z) (a : Z) (ws : list Z) : Prop :=
  match ws with
  | [] => m !! a = Some 0
  | w :: ws => m !! a = Some w ∧ w ≠ 0 ∧ weak_chain m w ws
  end.

(** The cell that points to the weak array after [ws]. *)
Definition weak_cell (ws : list Z) : Z := default caml_weak_list_head (last ws).

Definition weak_array (m : gmap Z Z) (w : Z) : Prop := ∃ sz tg, B L !! w = Some (sz, tg) ∧ No_scan_tag <= tg ∧ 1 <= sz ∧ used m w ∧
  ∀ i x, 1 <= i < sz → m !! (w + 8 * i) = Some x → x = caml_weak_none ∨ field_ok Is_in_heap Is_in_value_area L m x.

Record weak_ok (ws : list Z) (m : gmap Z Z) : Prop := {
  w_chain : weak_chain m caml_weak_list_head ws;
  w_array w : w ∈ ws → weak_array m w;
  w_nodup : NoDup ws;
  w_cell : ¬ in_block L caml_weak_list_head;
  w_head c n l : (c, n, l) ∈ H L → caml_weak_list_head ≠ c - 8 ∧ caml_weak_list_head ≠ c - 16
}.

(** The free list holds the blue blocks; its sentinel is out of the heap. *)
Record free_ok (m : gmap Z Z) (f : Freelist.fl) : Prop := {
  o_inv : Freelist.fl_inv (Freelist.set_mem m f) (free_blocks L m (blocks_of (H L)));
  o_head v sz tg : B L !! v = Some (sz, tg) → Freelist.Fl_head f + 16 <= v - 8 ∨ v + 8 * sz <= Freelist.Fl_head f - 16;
  o_weak : caml_weak_list_head ≠ Freelist.Fl_head f ∧ caml_weak_list_head ≠ Freelist.Fl_head f - 8;
  o_chunk c n l : (c, n, l) ∈ H L → c - 8 ≠ Freelist.Fl_head f ∧ c - 8 ≠ Freelist.Fl_head f - 8 ∧ c - 16 ≠ Freelist.Fl_head f ∧ c - 16 ≠ Freelist.Fl_head f - 8
}.

Lemma o_out m f v : free_ok m f → ¬ inside L v (Freelist.Fl_head f) ∧ ¬ inside L v (Freelist.Fl_head f - 8).
Proof. intros Ho. split; intros (sz & tg & Hv & Ha); destruct (o_head _ _ Ho _ _ _ Hv); lia. Qed.

Lemma free_ok_frame m m' f : free_ok m f → (∀ v, is_Some (B L !! v) → used m' v ↔ used m v) → (∀ v a, ¬ used m v → inside L v a → m' !! a = m !! a) →
  m' !! Freelist.Fl_head f = m !! Freelist.Fl_head f → m' !! (Freelist.Fl_head f - 8) = m !! (Freelist.Fl_head f - 8) → free_ok m' f.
Proof.
  intros [O1 O2 O3 O4] Hu Hm H1 H2. split; [|done..]. rewrite (free_blocks_ext _ m m') by done. apply (fl_inv_frame (Freelist.set_mem m f)); [done|]. cbn. intros a [Ha|[->| ->]]; [|done..]. destruct (free_covered _ _ _ _ Ha) as (v & _ & K2 & K3). by apply (Hm v).
Qed.

Lemma keeps_free m m' f : keeps m m' → free_ok m f → free_ok m' f.
Proof.
  intros Hk Ho. assert (∀ a, (∀ v, ¬ inside L v a) → m' !! a = m !! a) as Hout by (intros a Ha; apply (k_out _ _ _ Hk); intros (v & sz & tg & Hv & Hin); apply (Ha v); by exists sz, tg).
  apply (free_ok_frame m); [done|apply (k_used _ _ _ Hk)|apply (k_free _ _ _ Hk)|apply Hout; intros v; by apply (o_out m)|apply Hout; intros v; by apply (o_out m)].
Qed.

(** A word is changed that is not in a free block. *)
Lemma store_free m f a y : free_ok m f → (∀ v, is_Some (B L !! v) → used (<[a := y]> m) v ↔ used m v) → (∀ v, inside L v a → used m v) → a ≠ Freelist.Fl_head f → a ≠ Freelist.Fl_head f - 8 → free_ok (<[a := y]> m) f.
Proof. intros Ho Hu Ha H1 H2. apply (free_ok_frame m); [done|done| |by apply lookup_insert_ne..]. intros v a' Hv Hin. apply lookup_insert_ne. intros <-. by apply Hv, Ha. Qed.

(** Where the subphase is; [n] bounds the steps to the end of marking. *)
Definition stage (ws : list Z) (k : marker) (n : Z) : Prop :=
  caml_gc_subphase k = Subphase_main ∧ n = 2 * Z.of_nat (length ws) + 4 ∨
  (∃ ws1 ws2, ws = ws1 ++ ws2 ∧ caml_gc_subphase k = Subphase_weak1 ∧ weak_prev k = weak_cell ws1 ∧ n = Z.of_nat (length ws2) + Z.of_nat (length ws) + 3) ∨
  (∃ ws1 ws2, ws = ws1 ++ ws2 ∧ caml_gc_subphase k = Subphase_weak2 ∧ weak_prev k = weak_cell ws1 ∧ n = Z.of_nat (length ws2) + 1) ∨
  caml_gc_subphase k = Subphase_final ∧ n = 0.

Record shape (ws : list Z) (n t : Z) (s : gc major) : Prop := {
  v_phase : caml_gc_phase (rest s) = Phase_mark;
  v_link : linked (words s) (caml_heap_start (rest s)) (H L) ∧ H L ≠ [];
  v_weak : weak_ok ws (words s);
  v_final f : f ∈ final_table (others (rest s)) → inheap (val f) = true ∧ valid L (words s) (val f);
  v_stage : stage ws (mk (rest s)) n;
  v_walks : walks (mk (rest s)) t;
  v_free : free_ok (words s) (free_list (rest s))
}.

Definition minv (rs : Z → Prop) (ws : list Z) (n t : Z) (s : gc major) : Prop := shape ws n t s ∧ ginv (strong rs (others (rest s))) (λ _, False) s.

Lemma keeps_valid m m' x : keeps m m' → valid L m x → valid L m' x.
Proof. intros Hk [H1 H2]. split; [done|]. by apply (k_used _ _ _ Hk). Qed.

Lemma keeps_field_ok m m' x : keeps m m' → field_ok Is_in_heap Is_in_value_area L m x → field_ok Is_in_heap Is_in_value_area L m' x.
Proof. intros Hk Hf E. destruct (Hf E) as [H1 H2]. split; [intros Hh; eapply keeps_valid; [done|auto]|]. intros Hv. apply (k_dom _ _ _ Hk). auto. Qed.

Lemma chunks_ext m m' : (∀ c n l, (c, n, l) ∈ H L → m' !! (c - 8) = m !! (c - 8) ∧ m' !! (c - 16) = m !! (c - 16)) → ∀ h c, (∀ x, x ∈ h → x ∈ H L) → linked m c h → linked m' c h.
Proof.
  intros Ho. induction h as [|[[c' n] l] h IH]; intros c Hin; cbn [linked]; [done|]. intros (-> & H1 & next & H2 & H3). destruct (Ho c' n l) as [G1 G2]; [apply Hin; left|]. split; [done|].
  rewrite G2. split; [done|]. exists next. rewrite G1. split; [done|]. apply IH; [|done]. intros x Hx. apply Hin. by right.
Qed.

Lemma keeps_linked m m' : keeps m m' → ∀ h c, (∀ x, x ∈ h → x ∈ H L) → linked m c h → linked m' c h.
Proof. intros Hk. apply chunks_ext. intros c n l Hin. destruct (lo_chunk _ HL c n l Hin) as (_ & _ & G1 & G2). split; by apply (k_out _ _ _ Hk). Qed.

Lemma weak_array_word m w : weak_array m w → ∃ sz tg, B L !! w = Some (sz, tg) ∧ No_scan_tag <= tg ∧ 0 <= 0 < sz.
Proof. intros (sz & tg & H1 & H2 & H3 & _). exists sz, tg. split_and!; [done..|lia|lia]. Qed.

Lemma weak_chain_ext m m' ws : ∀ a, m' !! a = m !! a → (∀ w, w ∈ ws → m' !! w = m !! w) → weak_chain m a ws → weak_chain m' a ws.
Proof.
  induction ws as [|w ws IH]; intros a Ea Hw; cbn [weak_chain]; [by rewrite Ea|]. intros (H1 & H2 & H3). rewrite Ea. split_and!; [done..|]. apply IH; [apply Hw; left| |done]. intros w' Hw'. apply Hw. by right.
Qed.

Lemma keeps_weak ws m m' : keeps m m' → weak_ok ws m → weak_ok ws m'.
Proof.
  intros Hk [W1 W2 W3 W4 W5]. split; try done.
  - eapply weak_chain_ext; [by apply (k_out _ _ _ Hk)| |exact W1]. intros w Hw. destruct (weak_array_word m w (W2 w Hw)) as (sz & tg & H1 & H2 & H3). pose proof (k_noscan _ _ _ Hk w sz tg 0 H1 H2 H3) as E. by replace (w + 8 * 0) with w in E by lia.
  - intros w Hw. destruct (W2 w Hw) as (sz & tg & H1 & H2 & H3 & H4 & H5). exists sz, tg. split_and!; [done..|apply (k_used _ _ _ Hk); [eauto|done]|]. intros i x Hi Hx. rewrite (k_noscan _ _ _ Hk w sz tg i) in Hx by (done || lia). destruct (H5 i x Hi Hx) as [?|Hf]; [by left|right; by eapply keeps_field_ok].
Qed.

Lemma steady_stage ws k k' n : steady k k' → stage ws k n → stage ws k' n.
Proof. intros (_ & _ & _ & E1 & E2). unfold stage. by rewrite E1, E2. Qed.

Lemma steady_walks k k' t : steady k k' → walks k t → walks k' t.
Proof. intros Hs [[H1 H2]|(l2 & h & H1 & H2)]; [left; by rewrite (proj1 Hs)|right; exists l2, h; split; [by eapply steady_walk|done]]. Qed.

Lemma moved_others s s' : moved s s' → others (rest s') = others (rest s).
Proof. intros [E _]. by rewrite E. Qed.

Lemma moved_shape ws n t s s' : shape ws n t s → moved s s' → keeps (words s) (words s') → shape ws n t s'.
Proof.
  intros [V1 [V3 V4] V5 V6 V7 V8 V9] [Es Hst] Hk. assert (rest s' = set_mk (mk (rest s')) (rest s)) as Er by by rewrite Es.
  assert (others (rest s') = others (rest s) ∧ caml_gc_phase (rest s') = caml_gc_phase (rest s) ∧ caml_heap_start (rest s') = caml_heap_start (rest s) ∧ free_list (rest s') = free_list (rest s)) as (Eo & Ep & Eh & El) by by rewrite Er.
  split; rewrite ?Eo, ?Ep, ?Eh, ?El; try done.
  - split; [|done]. by eapply keeps_linked.
  - by eapply keeps_weak.
  - intros f Hf. destruct (V6 f Hf). split; [done|]. by eapply keeps_valid.
  - by eapply steady_stage.
  - by eapply steady_walks.
  - by eapply keeps_free.
Qed.

Lemma advances_minv rs ws n t s s' : shape ws n t s → advances (strong rs (others (rest s))) (λ _, False) s s' → minv rs ws n t s'.
Proof. intros HS (HI & Hm & Hk). split; [by eapply moved_shape|]. by rewrite (moved_others s s' Hm). Qed.

(** The marker changes, but not the position in the subphases. *)
Lemma put_shape ws n t t' s k : shape ws n t s → caml_gc_subphase k = caml_gc_subphase (mk (rest s)) → weak_prev k = weak_prev (mk (rest s)) → walks k t' → shape ws n t' (put_mk k s).
Proof. intros [V1 V3 V5 V6 V7 V8 V9] E1 E2 Hw. split; cbn; try done. unfold stage in *. by rewrite E1, E2. Qed.

Lemma put_put k1 k2 s : put_mk k2 (put_mk k1 s) = put_mk k2 s.
Proof. done. Qed.

Lemma mk_put k s : mk (rest (put_mk k s)) = k.
Proof. done. Qed.

Lemma walk_length_pos (h : list (Z * Z * list Z)) : 0 <= walk_length h.
Proof. induction h as [|[? ?] ? ?]; cbn; lia. Qed.

(** A step of the walk: the marker [k'] comes after [k]. *)
Lemma walk_minv rs ws n t t' s k' : minv rs ws n t s → caml_gc_subphase k' = caml_gc_subphase (mk (rest s)) → weak_prev k' = weak_prev (mk (rest s)) → walks k' t' →
  marks k' (words s) → minv rs ws n t' (put_mk k' s).
Proof. intros [HS [HG HQ]] E1 E2 Hw HQ'. split; [by eapply put_shape|]. split; [exact HG|exact HQ']. Qed.

Lemma mark_walk_run rs ws n t s : minv rs ws n t s → gray_vals (mk (rest s)) = [] → markhp (mk (rest s)) ≠ 0 →
  wp mark_walk (λ _ s', ∃ t', 0 <= t' < t ∧ minv rs ws n t' s' ∧ words s' = words s ∧ heap_is_pure (mk (rest s')) = heap_is_pure (mk (rest s))) s.
Proof.
  intros HI Eg Hp. pose proof HI as [HS [HG [Q1 Q2 Q3 Q4 Q5]]]. set (k := mk (rest s)) in *. destruct (v_walks _ _ _ _ HS) as [[? _]|(l2 & h & Hw & Et)]; [done|]. fold k in Hw. destruct (v_link _ _ _ _ HS) as [Hlink Hne].
  unfold mark_walk. apply wp_bind. eapply wp_intro; [reflexivity|]. cbn beta. fold k. destruct (Z.eqb_spec (markhp k) (mark_limit k)) as [Ee|Ee].
  - destruct (walk_end k l2 h (words s) _ Hw Ee Hlink) as (-> & next & h1 & Hn & Hl & EH). apply wp_bind. eapply wp_intro; [by apply ld_run|]. apply wp_bind. eapply wp_intro; [reflexivity|].
    assert (∀ g l2 h, walk_at k l2 h → g ∈ l2 ++ blocks_of h → ∃ h1, linked (words s) next h ∧ H L = h1 ++ h ∧ g ∈ blocks_of h) as Hdec.
    { intros g l2' h' Hw' Hg. destruct (walk_end k l2' h' (words s) _ Hw' Ee Hlink) as (-> & next' & h1' & Hn' & Hl' & EH'). rewrite Hn in Hn'. injection Hn' as <-. by exists h1'. }
    pose proof (walk_length_pos h) as Hwl. destruct (Z.eqb_spec next 0) as [E0|E0].
    + assert (∀ h0 h1, H L = h1 ++ h0 → linked (words s) next h0 → h0 = []) as Hz.
      { intros [|[[c n'] l] h0] h2 EH0; [done|]. intros (E & _). destruct (lo_chunk _ HL c n' l) as [? _]; [rewrite EH0; set_solver|lia]. }
      eapply wp_intro; [reflexivity|]. rewrite put_put, mk_put. exists 0. split; [lia|]. split_and!; [|done..]. apply (walk_minv rs ws n t); [done..|by left|]. split; cbn; fold k; try done; [by left|].
      intros g Hg Hgg. destruct (Q5 g Hg Hgg) as [?|[?|(l2' & h' & Hw' & Hin)]]; [by left|by right; left|]. destruct (Hdec g l2' h' Hw' Hin) as (h1' & G1 & G2 & G3). rewrite (Hz h' h1' G2 G1) in G3. by apply elem_of_nil in G3.
    + apply wp_bind. eapply wp_intro; [reflexivity|]. rewrite put_put, mk_put. assert (∃ sz, words s !! (next - 16) = Some sz) as [sz Hsz] by (destruct h as [|[[c n'] l] h0]; [done|]; destruct Hl as (-> & Hl & _); eauto).
      apply wp_bind. eapply wp_intro; [by apply ld_run|]. eapply wp_intro; [reflexivity|]. rewrite put_put, !mk_put. set (k' := set_mark_limit _ _).
      assert (∀ h0 h1, H L = h1 ++ h0 → linked (words s) next h0 → ∃ n' l h', h0 = (next, n', l) :: h' ∧ walk_at k' l h') as Hnext.
      { intros h0 h2 EH0 Hl0. destruct (linked_start (words s) next h2 h0 k' Hl0 EH0) as [[? _]|?]; try done. intros sz' Hsz'. rewrite Hsz in Hsz'. by injection Hsz' as <-. }
      destruct (Hnext h h1 EH Hl) as (n' & l & h' & -> & Hw'). cbn [walk_length length] in Et, Hwl. pose proof (walk_length_pos h') as Hwl'. exists (Z.of_nat (length l) + walk_length h' + 1). split; [lia|]. split_and!; [|done..]. apply (walk_minv rs ws n t); [done..|right; by exists l, h'|].
      split; try done; [right; by exists l, h'|]. intros g Hg Hgg. destruct (Q5 g Hg Hgg) as [?|[?|(l2' & h2 & Hw2 & Hin)]]; [by left|by right; left|]. destruct (Hdec g l2' h2 Hw2 Hin) as (h1' & G1 & G2 & G3). destruct (Hnext h2 h1' G2 G1) as (n2 & l' & h'' & -> & Hw'').
      right; right. exists l', h''. split; [done|]. exact G3.
  - destruct (walk_next k l2 h Hw Ee) as (sz & tg & l2' & -> & Hb & Hk'). destruct (mo_hdr _ _ (g_mem _ _ _ _ _ _ HG) _ _ _ Hb) as (hd & Hhd & Hword & Hsz & Htg). replace (markhp k + 8 - 8) with (markhp k) in Hhd by lia.
    assert (Bhsize_hd hd = 8 * (sz + 1)) as Ebh by (unfold Bhsize_hd, Bsize_wsize, Whsize_hd, Whsize_wosize; lia). apply wp_bind. eapply wp_intro; [by apply ld_run|]. apply wp_bind.
    set (k1 := if Is_gray_hd hd then set_gray (gray_vals k ++ [Val_hp (markhp k)]) k else k). eapply wp_intro with (s' := put_mk k1 s) (x := tt). { unfold k1. destruct (Is_gray_hd hd); [done|]. by destruct s as [? ? ? ? ? ? ? ? []]. }
    apply wp_bind. eapply wp_intro; [by apply (ld_run (put_mk k1 s) _ hd)|]. eapply wp_intro; [reflexivity|]. rewrite put_put, !mk_put, Ebh. set (k' := set_markhp _ _).
    assert (mark_chunk k' = mark_chunk k ∧ mark_limit k' = mark_limit k ∧ gray_vals_size k' = gray_vals_size k ∧ heap_is_pure k' = heap_is_pure k ∧ caml_gc_subphase k' = caml_gc_subphase k ∧ weak_prev k' = weak_prev k) as (F1 & F2 & F3 & F4 & F5 & F6) by (unfold k', k1; by destruct (Is_gray_hd hd)).
    assert (walk_at k' l2' h) as Hw' by by apply Hk'. cbn [length] in Et. pose proof (walk_length_pos h). exists (t - 1). split; [lia|]. split_and!; [|done..]. apply (walk_minv rs ws n t); [done|done|done|right; exists l2', h; split; [done|lia]|].
    assert (gray (words s) (markhp k + 8) ↔ Is_gray_hd hd = true) as Hgr by (unfold gray, col, hdr, Is_gray_hd; replace (markhp k + 8 - 8) with (markhp k) by lia; rewrite Hhd; cbn; by rewrite Z.eqb_eq).
    assert (gray_vals k' = if Is_gray_hd hd then [markhp k + 8] else []) as Egv by (unfold k', k1; cbn; destruct (Is_gray_hd hd); cbn; by rewrite ?Eg). split.
    + intros g. rewrite Egv. destruct (Is_gray_hd hd); [intros ->%list_elem_of_singleton; split; [eauto|by apply Hgr]|by intros ?%elem_of_nil].
    + rewrite Egv. destruct (Is_gray_hd hd); [apply NoDup_singleton|constructor].
    + rewrite Egv, F3. destruct Q3. destruct (Is_gray_hd hd); cbn; lia.
    + right. by exists l2', h.
    + rewrite F4. intros g Hg Hgg. destruct (Q5 g Hg Hgg) as [Hin|[?|(l3 & h3 & Hw3 & Hin)]]; [rewrite Eg in Hin; by apply elem_of_nil in Hin|by right; left|]. destruct (walk_next k l3 h3 Hw3 Ee) as (sz3 & tg3 & l3' & -> & Hb3 & Hk3). rewrite Hb in Hb3. injection Hb3 as <- <-.
      apply elem_of_cons in Hin as [->|Hin]; [left; rewrite Egv; rewrite (proj1 Hgr Hgg); set_solver|]. right; right. exists l3', h3. split; [|done]. by apply Hk3.
Qed.

Lemma mark_restart_run rs ws n t s : minv rs ws n t s → gray_vals (mk (rest s)) = [] →
  wp mark_restart (λ _ s', minv rs ws n (walk_length (H L)) s' ∧ words s' = words s ∧ heap_is_pure (mk (rest s')) = 1) s.
Proof.
  intros HI Eg. pose proof HI as [HS [HG [Q1 Q2 Q3 Q4 Q5]]]. set (k := mk (rest s)) in *. destruct (v_link _ _ _ _ HS) as [Hlink Hne]. unfold mark_restart. apply wp_bind. eapply wp_intro; [reflexivity|]. apply wp_bind. eapply wp_intro; [reflexivity|].
  apply wp_bind. eapply wp_intro; [reflexivity|]. apply wp_bind. eapply wp_intro; [reflexivity|]. rewrite !put_put, !mk_put. fold k. change (caml_heap_start (rest (put_mk (set_pure 1 k) s))) with (caml_heap_start (rest s)). set (c := caml_heap_start (rest s)) in *.
  assert (∃ sz, words s !! (c - 16) = Some sz) as [sz Hsz] by (destruct (H L) as [|[[c' n'] l] h0]; [done|]; destruct Hlink as (-> & Hl & _); eauto). apply wp_bind. eapply wp_intro; [by apply ld_run|]. eapply wp_intro; [reflexivity|]. rewrite put_put, !mk_put. set (k' := set_mark_limit _ _).
  destruct (linked_start (words s) c [] (H L) k' Hlink eq_refl eq_refl eq_refl) as [[_ ?]|(n' & l & h' & EH & Hw)]; [|done|].
  { intros sz' Hsz'. rewrite Hsz in Hsz'. by injection Hsz' as <-. }
  split_and!; [|done..]. apply (walk_minv rs ws n t); [done..|right; exists l, h'; split; [done|rewrite EH; cbn; lia]|]. split; try done; [right; by exists l, h'|].
  intros g Hg Hgg. right; right. exists l, h'. split; [done|]. destruct (lo_all _ HL g Hg) as (c1 & n1 & l1 & Hin & Hgl). change (g ∈ blocks_of ((c, n', l) :: h')). rewrite <- EH. unfold blocks_of. apply list_elem_of_join. exists l1. split; [done|]. apply list_elem_of_fmap. by exists (c1, n1, l1).
Qed.

(** ** Weak arrays *)

(** The words that marking does not look at change. *)
Lemma alike_minv rs ws ws' n n' t s m' k' : minv rs ws n t s → alike L (words s) m' → linked m' (caml_heap_start (rest s)) (H L) → weak_ok ws' m' → stage ws' k' n' → steady (set_subphase (caml_gc_subphase k') (set_weak_prev (weak_prev k') (mk (rest s)))) k' → gray_vals k' = gray_vals (mk (rest s)) → gray_vals_size k' = gray_vals_size (mk (rest s)) → heap_is_pure k' = heap_is_pure (mk (rest s)) →
  free_ok m' (free_list (rest s)) → minv rs ws' n' t (put_mk k' (set_words m' s)).
Proof.
  intros [[V1 V2 V3 V4 V5 V6 V7] [HG HQ]] Ha Hl Hw Hst (S1 & S2 & S3 & _) E1 E2 E3 Hfo. cbn in S1, S2, S3. assert (∀ v, is_Some (B L !! v) → col m' v = col (words s) v) as Hcol by (intros v Hv; unfold col, hdr; by rewrite (a_hdr _ _ _ Ha)).
  assert (steady (mk (rest s)) (set_subphase (caml_gc_subphase (mk (rest s))) (set_weak_prev (weak_prev (mk (rest s))) k'))) as Hst' by done.
  assert (∀ l2 h, walk_at (mk (rest s)) l2 h → walk_at k' l2 h) as Hwalk by (intros l2 h (h1 & c & n1 & l1 & Hw1); exists h1, c, n1, l1; by rewrite S1, S2, S3).
  split; [split; cbn; try done; [by split; [|apply V2]| |]|split; cbn].
  - intros f Hf. destruct (V4 f Hf) as [H1 [H2 H3]]. split; [done|split; [done|]]. unfold used. by rewrite Hcol.
  - destruct V6 as [[H1 H2]|(l2 & h & H1 & H2)]; [left; by rewrite S1|right; exists l2, h; split; [by apply Hwalk|done]].
  - by eapply alike_graph.
  - destruct HQ as [Q1 Q2 Q3 Q4 Q5]. split; rewrite ?E1, ?E2, ?E3; try done.
    + intros g Hg. destruct (Q1 g Hg) as [H1 H2]. split; [done|]. unfold gray. by rewrite Hcol.
    + destruct Q4 as [Q4|(l2 & h & Q4)]; [left; by rewrite S1|right; exists l2, h; by apply Hwalk].
    + intros g Hg Hgg. unfold gray in Hgg. rewrite Hcol in Hgg by done. destruct (Q5 g Hg Hgg) as [?|[?|(l2 & h & H1 & H2)]]; [by left|by right; left|right; right; exists l2, h; split; [by apply Hwalk|done]].
Qed.

(** A field of a block without pointers. *)
Lemma noscan_alike m w sz tg i y : B L !! w = Some (sz, tg) → No_scan_tag <= tg → 0 <= i < sz → alike L m (<[w + 8 * i := y]> m) ∧ ∀ a, ¬ in_block L a → <[w + 8 * i := y]> m !! a = m !! a.
Proof.
  intros Hw Ht Hi. split; [split|].
  - intros v [[sz' tg'] Hv]. apply lookup_insert_ne. intros E. by apply (block_word L HL v sz' tg' w sz tg i).
  - intros v sz' tg' j Hv Ht' Hj. apply lookup_insert_ne. intros E. destruct (decide (w = v)) as [->|Hne]; [rewrite Hw in Hv; injection Hv as <- <-; lia|]. destruct (lo_apart _ HL _ _ _ _ _ _ Hw Hv Hne); lia.
  - intros a Ha. apply lookup_insert_is_Some'. by right.
  - intros a Ha. apply lookup_insert_ne. intros <-. apply Ha. exists w, sz, tg. split; [done|lia].
Qed.

Notation fok := (field_ok Is_in_heap Is_in_value_area L).

Lemma alike_field_ok m m' x : alike L m m' → fok m x → fok m' x.
Proof.
  intros Ha Hf E. destruct (Hf E) as [H1 H2]. split; [|intros Hv; apply (a_dom _ _ _ Ha); auto]. intros Hh. destruct (H1 Hh) as [G1 G2]. split; [done|]. unfold used, col, hdr. by rewrite (a_hdr _ _ _ Ha).
Qed.

Lemma chain_at m ws1 ws2 : ∀ a, weak_chain m a (ws1 ++ ws2) → weak_chain m (default a (last ws1)) ws2.
Proof.
  induction ws1 as [|w ws1 IH]; intros a; [done|]. cbn [app weak_chain]. intros (_ & _ & Hc). specialize (IH w Hc). rewrite last_cons. by destruct (last ws1).
Qed.

Lemma chain_head m ws : ∀ a b, weak_chain m a ws → m !! b = m !! a → weak_chain m b ws.
Proof. destruct ws as [|w ws]; intros a b; cbn; [by intros ? ->|by intros ? ->]. Qed.

Lemma chain_remove m cur ws2 next : ∀ ws1 a, NoDup (a :: ws1 ++ cur :: ws2) → weak_chain m a (ws1 ++ cur :: ws2) → m !! cur = Some next → weak_chain (<[default a (last ws1) := next]> m) a (ws1 ++ ws2).
Proof.
  induction ws1 as [|w ws1 IH]; intros a Hnd; cbn [app weak_chain].
  - intros (_ & _ & Hc) Hn. cbn. apply NoDup_cons in Hnd as [Ha _]. assert (∀ b, b ∈ cur :: ws2 → <[a := next]> m !! b = m !! b) as Hb by (intros b Hb; apply lookup_insert_ne; intros ->; done).
    apply (chain_head _ ws2 cur); [|rewrite lookup_insert_eq, Hb by left; done]. eapply weak_chain_ext; [apply Hb; left| |exact Hc]. intros w Hw. apply Hb. by right.
  - intros (H1 & H2 & Hc) Hn. apply NoDup_cons in Hnd as [Ha Hnd]. specialize (IH w Hnd Hc Hn). assert (default a (last (w :: ws1)) = default w (last ws1)) as -> by (rewrite last_cons; by destruct (last ws1)). rewrite lookup_insert_ne; [done|]. intros E. apply Ha. rewrite <- E.
    destruct (last ws1) as [x|] eqn:El; cbn; [|left]. right. apply elem_of_app. left. apply last_Some in El as (l & ->). set_solver.
Qed.

(** A weak array is removed from the list. *)
Lemma weak_remove rs ws1 cur ws2 n t s next : minv rs (ws1 ++ cur :: ws2) n t s → words s !! cur = Some next → let m' := <[weak_cell ws1 := next]> (words s) in
  alike L (words s) m' ∧ linked m' (caml_heap_start (rest s)) (H L) ∧ weak_ok (ws1 ++ ws2) m' ∧ free_ok m' (free_list (rest s)).
Proof.
  intros [HS [HG _]] Hn m'. destruct (v_weak _ _ _ _ HS) as [W1 W2 W3 W4 W5]. assert (∀ w, w ∈ ws1 ++ cur :: ws2 → in_block L w) as Hblk by (intros w Hw; destruct (weak_array_word _ _ (W2 w Hw)) as (sz & tg & H1 & _ & H3); exists w, sz, tg; split; [done|lia]).
  assert (weak_cell ws1 = caml_weak_list_head ∨ weak_cell ws1 ∈ ws1) as Hcell by (unfold weak_cell; destruct (last ws1) eqn:El; [right; apply last_Some in El as (l & ->); cbn; set_solver|by left]).
  assert (∀ v sz tg i, B L !! v = Some (sz, tg) → -1 <= i < sz → i ≠ 0 ∨ tg < No_scan_tag → weak_cell ws1 ≠ v + 8 * i) as Hoff.
  { intros v sz tg i Hv Hi Hor E. destruct Hcell as [Ec|Ec]; [apply W4; rewrite <- Ec, E; exists v, sz, tg; split; [done|lia]|]. destruct (weak_array_word _ _ (W2 (weak_cell ws1) ltac:(set_solver))) as (sz' & tg' & H1 & H2 & H3). rewrite E in H1. destruct (decide (v + 8 * i = v)) as [E2|Hne].
    - rewrite E2, Hv in H1. injection H1 as <- <-. lia.
    - destruct (lo_apart _ HL _ _ _ _ _ _ H1 Hv Hne); lia. }
  assert (alike L (words s) m') as Ha.
  { split.
    - intros v [[sz tg] Hv]. unfold m'. apply lookup_insert_ne. pose proof (lo_size _ HL _ _ _ Hv). pose proof (Hoff v sz tg (-1) Hv). lia.
    - intros v sz tg i Hv Ht Hi. unfold m'. apply lookup_insert_ne. apply (Hoff v sz tg i Hv); [lia|by right].
    - intros a Ha. apply lookup_insert_is_Some'. by right. }
  split_and!; [done| |split; try done|].
  - eapply chunks_ext; [|done|apply (v_link _ _ _ _ HS)]. intros c n' l Hin. destruct (W5 c n' l Hin) as [G1 G2]. destruct (lo_chunk _ HL c n' l Hin) as (_ & _ & G3 & G4). split; unfold m'; apply lookup_insert_ne; (destruct Hcell as [->|Ec]; [done|]); intros E; [apply G3|apply G4]; rewrite <- E; apply Hblk; set_solver.
  - unfold m', weak_cell. apply (chain_remove _ cur); [|done|done]. apply NoDup_cons. split; [|done]. intros Hin. by apply W4, Hblk.
  - intros w Hw. destruct (W2 w ltac:(set_solver)) as (sz & tg & G1 & G2 & G3 & G4 & G5). exists sz, tg. split_and!; [done..|unfold used, col, hdr; rewrite (a_hdr _ _ _ Ha) by eauto; exact G4|]. intros i x Hi Hx. unfold m' in Hx. rewrite lookup_insert_ne in Hx by (apply (Hoff w sz tg); [done|lia|left; lia]).
    destruct (G5 i x Hi Hx) as [?|Hf]; [by left|right; by eapply alike_field_ok].
  - apply NoDup_app in W3 as (N1 & N2 & N3). apply NoDup_cons in N3 as [_ N3]. apply NoDup_app. split_and!; [done| |done]. intros w H1 H2. apply (N2 w H1). by right.
  - pose proof (v_free _ _ _ _ HS) as Ho. assert (∀ w, w ∈ ws1 → inside L w w ∧ used (words s) w) as Hws by (intros w Hw; destruct (W2 w ltac:(set_solver)) as (sz & tg & G1 & _ & G3 & G4 & _); split; [exists sz, tg; split; [done|lia]|done]). apply store_free; [done|intros v Hv; unfold used; fold m'; by rewrite (alike_col _ _ _ _ Ha)|..].
    + intros v Hv. destruct Hcell as [E|E]; [rewrite E in Hv; destruct W4; destruct Hv as (sz & tg & Hv); by exists v, sz, tg|]. destruct (Hws _ E) as [G1 G2]. by rewrite (inside_eq L HL _ _ _ Hv G1).
    + destruct Hcell as [->|E]; [apply Ho|]. destruct (Hws _ E) as [G1 _]. intros E2. destruct (o_out _ _ (weak_cell ws1) Ho) as [K1 _]. by rewrite <- E2 in K1.
    + destruct Hcell as [->|E]; [apply Ho|]. destruct (Hws _ E) as [G1 _]. intros E2. destruct (o_out _ _ (weak_cell ws1) Ho) as [_ K2]. by rewrite <- E2 in K2.
Qed.

(** A weak pointer is changed. *)
Lemma weak_store rs ws n t s w sz tg i y : minv rs ws n t s → w ∈ ws → B L !! w = Some (sz, tg) → 1 <= i < sz → y = caml_weak_none ∨ fok (words s) y →
  minv rs ws n t (set_words (<[w + 8 * i := y]> (words s)) s).
Proof.
  intros HI Hw Hb Hi Hy. pose proof HI as [HS _]. destruct (v_weak _ _ _ _ HS) as [W1 W2 W3 W4 W5]. destruct (W2 w Hw) as (sz' & tg' & E1 & Ht & _). rewrite Hb in E1. injection E1 as <- <-.
  destruct (noscan_alike (words s) w sz tg i y Hb Ht ltac:(lia)) as [Ha Ho]. set (m' := <[_ := _]> (words s)) in *.
  replace (set_words m' s) with (put_mk (mk (rest s)) (set_words m' s)) by (by destruct s as [? ? ? ? ? ? ? ? []]). eapply alike_minv; try done; [|split; try done|apply HS|].
  - eapply chunks_ext; [|done|apply (v_link _ _ _ _ HS)]. intros c n' l Hin. destruct (lo_chunk _ HL c n' l Hin) as (_ & _ & G1 & G2). split; by apply Ho.
  - eapply weak_chain_ext; [by apply Ho| |exact W1]. intros w' Hw'. unfold m'. apply lookup_insert_ne. destruct (weak_array_word _ _ (W2 w' Hw')) as (sz' & tg' & G1 & _ & G3). intros E. destruct (decide (w = w')) as [->|Hne]; [lia|]. destruct (lo_apart _ HL _ _ _ _ _ _ Hb G1 Hne); lia.
  - intros w' Hw'. destruct (W2 w' Hw') as (sz' & tg' & G1 & G2 & G3 & G4 & G5). exists sz', tg'. split_and!; [done..|unfold used, col, hdr; rewrite (a_hdr _ _ _ Ha) by eauto; exact G4|]. intros j x Hj Hx.
    unfold m' in Hx. apply lookup_insert_Some in Hx as [[_ <-]|[_ Hx]]; [destruct Hy as [?|Hy]; [by left|right; by eapply alike_field_ok]|]. destruct (G5 j x Hj Hx) as [?|Hf]; [by left|right; by eapply alike_field_ok].
  - pose proof (v_free _ _ _ _ HS) as Hf. destruct (W2 w Hw) as (sz' & tg' & G1 & _ & _ & G4 & _). assert (inside L w (w + 8 * i)) as Hin by (exists sz, tg; split; [done|lia]). destruct (o_out _ _ w Hf) as [K1 K2]. apply store_free; [done|intros v Hv; unfold used; fold m'; by rewrite (alike_col _ _ _ _ Ha)|..].
    + intros v Hv. by rewrite (inside_eq L HL _ _ _ Hv Hin).
    + intros E. by rewrite E in Hin.
    + intros E. by rewrite E in Hin.
Qed.

Definition quiet (s s' : gc major) : Prop := ∃ m', s' = set_words m' s ∧ ∀ v, is_Some (B L !! v) → m' !! (v - 8) = words s !! (v - 8).

Lemma quiet_refl s : quiet s s.
Proof. exists (words s). split; [by destruct s|done]. Qed.

Lemma quiet_trans s1 s2 s3 : quiet s1 s2 → quiet s2 s3 → quiet s1 s3.
Proof. intros (m1 & -> & H1) (m2 & -> & H2). exists m2. split; [by destruct s1|]. intros v Hv. by rewrite H2, H1. Qed.

Lemma quiet_store s w sz tg i y : B L !! w = Some (sz, tg) → 0 <= i < sz → quiet s (set_words (<[w + 8 * i := y]> (words s)) s).
Proof. intros Hw Hi. eexists. split; [done|]. intros v [[sz' tg'] Hv]. apply lookup_insert_ne. intros E. by apply (block_word L HL v sz' tg' w sz tg i). Qed.

Section Weak.
Context (rs : Z → Prop) (ws : list Z) (n t w sz tg i : Z) (Hw : w ∈ ws) (Hb : B L !! w = Some (sz, tg)) (Hi : 1 <= i < sz).

Lemma weak_cell_run s y : minv rs ws n t s → y = caml_weak_none ∨ fok (words s) y → st (Field w i) y s = inr (set_words (<[w + 8 * i := y]> (words s)) s, tt).
Proof. intros [_ [HG _]] _. destruct (mo_field _ _ (g_mem _ _ _ _ _ _ HG) w sz tg i Hb) as [x Hx]; [lia|]. by apply (st_run s _ _ x). Qed.

(** A pointer that is not to a forwarding block. *)
Lemma weak_last_run k s x : minv rs ws n t s → x = caml_weak_none ∨ fok (words s) x → (inheap x = true → Tag_hd (hdr (words s) x) ≠ Forward_tag) →
  wp (weak_again Is_in_heap Is_in_value_area caml_weak_none k w i x) (λ _ s', minv rs ws n t s' ∧ quiet s s') s.
Proof.
  intros HI Hx Hf. assert (weak_again Is_in_heap Is_in_value_area caml_weak_none k w i x = (if negb (x =? caml_weak_none) && Is_block x && Is_in_heap x then _ else mreturn tt)) as -> by by destruct k.
  destruct (negb (x =? caml_weak_none) && Is_block x && Is_in_heap x) eqn:E; [|apply wp_ret; split; [done|apply quiet_refl]]. rewrite <- andb_assoc in E. apply andb_true_iff in E as [E1 E2]. fold (inheap x) in E2. destruct Hx as [->|Hx]; [by rewrite Z.eqb_refl in E1|]. specialize (Hf E2).
  destruct (inheap_split _ _ E2) as [E3 E4]. pose proof HI as [_ [HG _]]. destruct (target_header _ _ _ x HG E2 (proj1 (Hx E3) E4)) as (h & Hh & _). unfold hdr in Hf. rewrite Hh in Hf. cbn in Hf. apply wp_bind. eapply wp_intro; [by apply ld_run|]. apply wp_bind. rewrite (proj2 (Z.eqb_neq _ _) Hf). apply wp_ret.
  assert (wp (let* hd := ld (Hd_val x) in if Is_white_hd hd then st (Field w i) caml_weak_none else mreturn tt) (λ _ s', minv rs ws n t s' ∧ quiet s s') s) as Hend.
  { apply wp_bind. eapply wp_intro; [by apply ld_run|]. destruct (Is_white_hd h); [|apply wp_ret; split; [done|apply quiet_refl]]. eapply wp_intro; [by apply weak_cell_run; [|left]|]. split; [by eapply weak_store; [..|left]|apply (quiet_store s w sz tg); [done|lia]]. }
  by destruct k.
Qed.

Lemma weak_field_run s : minv rs ws n t s → wp (weak_field Is_in_heap Is_in_value_area caml_weak_none w i) (λ _ s', minv rs ws n t s' ∧ quiet s s') s.
Proof.
  intros HI. pose proof HI as [HS [HG _]]. destruct (mo_field _ _ (g_mem _ _ _ _ _ _ HG) w sz tg i Hb) as [x Hx]; [lia|]. unfold weak_field. apply wp_bind. eapply wp_intro; [by apply ld_run|].
  destruct (w_array _ _ (v_weak _ _ _ _ HS) w Hw) as (sz' & tg' & E1 & _ & _ & _ & Hf). rewrite Hb in E1. injection E1 as <- <-. specialize (Hf i x Hi Hx). destruct (decide (inheap x = true ∧ x ≠ caml_weak_none ∧ Tag_hd (hdr (words s) x) = Forward_tag)) as [(E1 & E2 & E3)|Hn].
  2: { destruct (decide (x = caml_weak_none)) as [->|Hne]; [|apply weak_last_run; [done..|]; intros Hin E; by apply Hn]. cbn [weak_again]. rewrite Z.eqb_refl. apply wp_ret. split; [done|apply quiet_refl]. }
  destruct Hf as [?|Hf]; [done|]. cbn [weak_again]. rewrite (proj2 (Z.eqb_neq _ _)) by done. cbn [negb andb]. fold (inheap x). rewrite E1. destruct (inheap_split _ _ E1) as [E4 E5]. destruct (Hf E4) as [Hv _]. specialize (Hv E5).
  destruct (target_header _ _ _ x HG E1 Hv) as (h & Hh & Hor & sz' & tg' & hd & Hb' & Hhd & _ & _ & Htg). unfold hdr in E3. rewrite Hh in E3. cbn in E3. destruct Hor as [(_ & _ & Et)|[E6 _]]; [|by rewrite E3 in E6]. rewrite Et in *. rewrite Hh in Hhd. injection Hhd as ->.
  assert (tg' = Forward_tag) as -> by congruence. destruct (lo_size _ HL _ _ _ Hb') as (_ & _ & Hone). specialize (Hone eq_refl). destruct (mo_field _ _ (g_mem _ _ _ _ _ _ HG) x sz' Forward_tag 0 Hb') as [f Hff]; [lia|]. apply wp_bind. eapply wp_intro; [by apply ld_run|]. rewrite Htg. cbn [Z.eqb].
  assert (fok (words s) f) as Hfok. { apply (g_field _ _ _ _ _ _ HG x f); [unfold valid in Hv; rewrite Et in Hv; apply Hv|]. exists sz', Forward_tag, 0. split_and!; try done; lia. }
  destruct (forward_kept_run s f Hfok) as (kept & Ek & Hk).
  assert (wp (let* hd0 := ld (Hd_val x) in if Is_white_hd hd0 then st (Field w i) caml_weak_none else mreturn tt) (λ _ s', minv rs ws n t s' ∧ quiet s s') s) as Hend.
  { apply wp_bind. eapply wp_intro; [by apply ld_run|]. destruct (Is_white_hd hd); [|apply wp_ret; split; [done|apply quiet_refl]]. eapply wp_intro; [by apply weak_cell_run; [|left]|]. split; [by eapply weak_store; [..|left]|apply (quiet_store s w sz tg); [done|lia]]. }
  apply wp_bind. apply wp_bind. eapply wp_intro; [by apply ld_run|]. destruct (Is_block f) eqn:Ebf; [|by apply wp_ret]. apply wp_bind. eapply wp_intro; [exact Ek|]. destruct kept; apply wp_ret; [done|]. apply wp_bind. eapply wp_intro; [by apply weak_cell_run; [|right]|]. set (s1 := set_words _ s).
  assert (minv rs ws n t s1) as HI1 by by eapply weak_store; [..|right]. assert (quiet s s1) as Hq1 by (apply (quiet_store s w sz tg); [done|lia]). assert (alike L (words s) (words s1)) as Ha. { destruct (w_array _ _ (v_weak _ _ _ _ HS) w Hw) as (sz2 & tg2 & E6 & Ht & _). rewrite Hb in E6. injection E6 as <- <-. apply (noscan_alike (words s) w sz tg i f); [done|done|lia]. }
  eapply wp_conseq; [apply (weak_last_run 0 s1 f); [done|right; by eapply alike_field_ok|]|].
  - intros Hin. destruct (Hk eq_refl eq_refl) as [_ Hnf]. destruct (inheap_split _ _ Hin) as [G1 G2]. destruct (Hfok G1) as [Hvf _]. destruct (target_header _ _ _ f HG Hin (Hvf G2)) as (h2 & Hh2 & Hor2 & sz2 & tg2 & hd2 & Hb2 & Hhd2 & _). unfold hdr in *. rewrite Hh2 in Hnf. cbn in Hnf.
    destruct Hor2 as [(_ & _ & Et2)|[E6 E7]]; [rewrite Et2 in *; rewrite (a_hdr _ _ _ Ha) by eauto; by rewrite Hh2|]. destruct (I L !! f) as [v|] eqn:Ef; [|unfold target in E7; rewrite Ef in E7; cbn in E7; unfold target in Hb2; rewrite Ef in Hb2; cbn in Hb2; rewrite (a_hdr _ _ _ Ha) by eauto; by rewrite Hh2].
    destruct HI1 as [_ [HG1 _]]. destruct (mo_infix _ _ (g_mem _ _ _ _ _ _ HG1) f v Ef) as (h3 & G3 & G4 & _). rewrite G3. cbn. by rewrite G4.
  - intros [] s2 [H1 H2]. split; [done|by eapply quiet_trans].
Qed.
End Weak.

(** ** Finalised values *)

Definition final_ok (m : gmap Z Z) (f : final) : Prop := inheap (val f) = true ∧ valid L m (val f).

Lemma count_white_run rs P s l : graph rs P (words s) → (∀ f, f ∈ l → final_ok (words s) f) → ∃ n, count_white l s = inr (s, n).
Proof.
  intros HG. induction l as [|f l IH]; intros Hl; cbn [count_white]; [by exists 0|]. destruct (Hl f) as [H1 H2]; [left|]. destruct (target_header _ _ _ (val f) HG H1 H2) as (h & Hh & _). destruct IH as [n IH]; [intros g Hg; apply Hl; by right|].
  unfold mbnd, is_white. unfold mbnd. rewrite (ld_run s _ h) by done. cbn. rewrite IH. eauto.
Qed.

Lemma final_again_run rs P s k x : graph rs P (words s) → final_ok (words s) x → k ≠ 0%nat ∨ Tag_hd (hdr (words s) (val x)) ≠ Forward_tag →
  ∃ y b, final_again Is_in_heap Is_in_value_area k x s = inr (s, (y, b)) ∧ fun_ y = fun_ x ∧ (inheap (val y) = true → valid L (words s) (val y)) ∧ (b = false → inheap (val y) = true).
Proof.
  revert x. induction k as [|k IH]; intros x HG [H1 H2] Hk; destruct (target_header _ _ _ (val x) HG H1 H2) as (h & Hh & Hor & sz & tg & hd & Hb & Hhd & _ & _ & Htg); cbn [final_again]; unfold mbnd at 1; rewrite (ld_run s _ h) by done.
  all: destruct (Is_white_hd h); [|by exists x, false]. all: destruct (Z.eqb_spec (Tag_hd h) Forward_tag) as [Ef|Ef]; [|by exists x, true]. all: destruct Hor as [(_ & _ & Et)|[E6 _]]; [|by rewrite Ef in E6]. all: rewrite Et in *; rewrite Hh in Hhd; injection Hhd as ->.
  - destruct Hk as [?|Hk]; [done|]. unfold hdr in Hk. rewrite Hh in Hk. done.
  - rewrite Ef in Htg. subst tg. destruct (lo_size _ HL _ _ _ Hb) as (_ & _ & Hone). specialize (Hone eq_refl). destruct (mo_field _ _ (g_mem _ _ _ _ _ _ HG) (val x) sz Forward_tag 0 Hb) as [f Hff]; [lia|]. unfold mbnd. rewrite (ld_run s (Field (val x) 0) f) by done.
    assert (fok (words s) f) as Hfok. { apply (g_field _ _ _ _ _ _ HG (val x) f); [unfold valid in H2; rewrite Et in H2; apply H2|]. exists sz, Forward_tag, 0. split_and!; try done; lia. }
    destruct (forward_kept_run s f Hfok) as (kept & Ek & Hkept). rewrite Ek. destruct kept; [by exists x, true|]. fold (inheap f). destruct (inheap f) eqn:Ein; [|exists (Final (fun_ x) f (offset x)), true; cbn; split_and!; try done; by rewrite Ein].
    destruct (inheap_split _ _ Ein) as [G1 G2]. destruct (IH (Final (fun_ x) f (offset x)) HG) as (y & b & E1 & E2 & E3 & E4); [split; [done|by apply Hfok]|right; cbn; by apply Hkept|]. exists y, b. done.
Qed.

Lemma final_split_run rs P s l : graph rs P (words s) → (∀ f, f ∈ l → final_ok (words s) f) → ∃ kept todo, final_split Is_in_heap Is_in_value_area l s = inr (s, (kept, todo)) ∧
  (∀ f, f ∈ kept → final_ok (words s) f) ∧ (∀ f, f ∈ kept ++ todo → ∃ g, g ∈ l ∧ fun_ f = fun_ g) ∧ ∀ f, f ∈ todo → inheap (val f) = true → valid L (words s) (val f).
Proof.
  intros HG. induction l as [|f l IH]; intros Hl; cbn [final_split]; [exists [], []; split_and!; try done; by intros f ?%elem_of_nil|]. destruct (final_again_run rs P s 1 f HG (Hl f ltac:(left)) ltac:(by left)) as (y & b & E1 & E2 & E3 & E4).
  destruct IH as (kept & todo & F1 & F2 & F3 & F4); [intros g Hg; apply Hl; by right|]. unfold mbnd. rewrite E1, F1. cbn. assert (∀ g, g ∈ kept ++ todo → ∃ g0, g0 ∈ f :: l ∧ fun_ g = fun_ g0) as F3' by (intros g Hg; destruct (F3 g Hg) as (g0 & ? & ?); exists g0; split; [by right|done]). destruct b.
  - exists kept, (y :: todo). split_and!; try done.
    + intros g Hg. assert (g = y ∨ g ∈ kept ++ todo) as [->|Hg'] by set_solver; [exists f; split; [left|done]|auto].
    + intros g [->|Hg]%elem_of_cons; auto.
  - exists (y :: kept), todo. split_and!; try done.
    + intros g [->|Hg]%elem_of_cons; [|auto]. split; auto.
    + intros g Hg. assert (g = y ∨ g ∈ kept ++ todo) as [->|Hg'] by set_solver; [exists f; split; [left|done]|auto].
Qed.

(** New roots are to be darkened. *)
Lemma new_roots rs rs' (P : Z → Prop) m : graph rs (λ _, False) m → (∀ x, rs' x → rs x ∨ P x ∧ (inheap x = true → valid L m x)) → graph rs' P m.
Proof.
  intros HG Hrs. apply (graph_pending _ _ _ _ _ P) in HG; [|done]. split; [apply HG|apply HG| | |apply HG].
  - intros x Hx Hin. destruct (Hrs x Hx) as [Hx'|[_ Hv]]; [by apply (g_root _ _ _ _ _ _ HG)|auto].
  - intros x Hx Hin Hw. destruct (Hrs x Hx) as [Hx'|[HP Hv]]; [by apply (g_tri_root _ _ _ _ _ _ HG)|]. exists (target L x). split; [done|]. right. split; [done|]. by exists x.
Qed.

Lemma final_darken_run rs l : ∀ s, ginv rs (λ y, ∃ f, f ∈ l ∧ y = val f) s → (∀ f, f ∈ l → inheap (val f) = true → valid L (words s) (val f)) → wp (final_darken realloc_ok Is_in_heap l) (λ _ s', advances rs (λ _, False) s s') s.
Proof.
  induction l as [|f l IH]; intros s [HG HQ] Hv; cbn [final_darken].
  - apply wp_ret. split_and!; [split; [|done]|apply mmoved_refl|apply mkeeps_refl]. eapply graph_pending; [|exact HG]. intros y (f & Hf & _). by apply elem_of_nil in Hf.
  - apply wp_bind. eapply wp_conseq; [apply (darken_run rs (λ y, ∃ f, f ∈ l ∧ y = val f)); [split; [|done]; eapply graph_pending; [|exact HG]; intros y (g & [->|Hg]%elem_of_cons & ->); [by right|left; eauto]|apply Hv; left]|].
    intros [] s1 (H1 & H2 & H3). eapply wp_conseq; [apply IH; [done|]|].
    + intros g Hg Hin. eapply keeps_valid; [exact H3|]. apply Hv; [by right|done].
    + intros [] s2 (G1 & G2 & G3). split_and!; [done|by eapply mmoved_trans|by eapply mkeeps_trans].
Qed.

Lemma final_update_run rs ws n t s : (∀ s, malloc_ok s = true) → minv rs ws n t s → wp (caml_final_update_r realloc_ok malloc_ok Is_in_heap Is_in_value_area) (λ _ s', minv rs ws n t s') s.
Proof.
  intros Hmalloc HI. pose proof HI as [HS [HG HQ]]. unfold caml_final_update_r. apply wp_bind. eapply wp_intro; [reflexivity|]. destruct (count_white_run _ _ s _ HG (v_final _ _ _ _ HS)) as [c Ec]. apply wp_bind. eapply wp_intro; [exact Ec|]. destruct (0 <? c); [|by apply wp_ret].
  apply wp_bind. eapply wp_intro; [reflexivity|]. apply wp_bind. rewrite Hmalloc. apply wp_ret. destruct (final_split_run _ _ s _ HG (v_final _ _ _ _ HS)) as (kept & todo & E1 & E2 & E3 & E4). apply wp_bind. eapply wp_intro; [exact E1|]. cbn beta iota. apply wp_bind. eapply wp_intro; [reflexivity|].
  set (s1 := set_rest _ s). eapply wp_conseq; [apply (final_darken_run (strong rs (others (rest s1))))|].
  - split; [|exact HQ]. apply (new_roots (strong rs (others (rest s)))); [done|]. intros x [Hx|[(f & Hf & ->)|(q & f & Hq & Hf & Hx)]]; [left; by left| |]; cbn in *.
    + destruct (E3 f) as (g & Hg & ->); [set_solver|]. left. right; left. by exists g.
    + apply elem_of_app in Hq as [Hq| ->%list_elem_of_singleton]; [left; right; right; by exists q, f|]. destruct Hx as [->| ->]; [|right; split; [by exists f|by apply E4]]. destruct (E3 f) as (g & Hg & ->); [set_solver|]. left. right; left. by exists g.
  - exact E4.
  - intros [] s' Hadv. eapply advances_minv; [|exact Hadv]. destruct HS as [V1 V2 V3 V4 V5 V6 V7]. split; try done.
Qed.

(** ** Subphases *)

Lemma restage_alike rs ws ws' n n' t s m' p q : minv rs ws n t s → alike L (words s) m' → linked m' (caml_heap_start (rest s)) (H L) → weak_ok ws' m' → stage ws' (set_weak_prev p (set_subphase q (mk (rest s)))) n' → free_ok m' (free_list (rest s)) →
  minv rs ws' n' t (put_mk (set_weak_prev p (set_subphase q (mk (rest s)))) (set_words m' s)).
Proof. intros. by eapply alike_minv. Qed.

Lemma restage rs ws n n' t s p q : minv rs ws n t s → stage ws (set_weak_prev p (set_subphase q (mk (rest s)))) n' → minv rs ws n' t (put_mk (set_weak_prev p (set_subphase q (mk (rest s)))) s).
Proof.
  intros HI Hst. pose proof (restage_alike rs ws ws n n' t s (words s) p q HI) as Hr. assert (set_words (words s) s = s) as Es by by destruct s. rewrite Es in Hr. apply Hr; [by split|apply (v_link _ _ _ _ (proj1 HI))|apply (v_weak _ _ _ _ (proj1 HI))|done|apply (v_free _ _ _ _ (proj1 HI))].
Qed.

(** Marking is over: nothing is gray, and the sweeper starts at the first chunk. *)
Record ready (rs : Z → Prop) (s : gc major) : Prop := {
  d_phase : caml_gc_phase (rest s) = Phase_sweep;
  d_graph : graph (strong rs (others (rest s))) (λ _, False) (words s);
  d_nogray g : is_Some (B L !! g) → ¬ gray (words s) g;
  d_empty : gray_vals (mk (rest s)) = [];
  d_link : linked (words s) (caml_heap_start (rest s)) (H L);
  d_sweep : mark_chunk (mk (rest s)) = caml_heap_start (rest s) ∧ Freelist.caml_gc_sweep_hp (free_list (rest s)) = caml_heap_start (rest s) ∧
    ∃ sz, words s !! (caml_heap_start (rest s) - 16) = Some sz ∧ mark_limit (mk (rest s)) = caml_heap_start (rest s) + sz;
  d_merge : Freelist.caml_fl_merge (free_list (rest s)) = Freelist.Fl_head (free_list (rest s)) ∧ Freelist.last_fragment (free_list (rest s)) = 0;
  d_free : free_ok (words s) (free_list (rest s))
}.

Section Subphases.
Context (Hmalloc : ∀ s, malloc_ok s = true) (rs : Z → Prop).
Notation sub := (mark_subphase realloc_ok malloc_ok Is_in_heap Is_in_value_area caml_weak_list_head caml_weak_none).

(** Marking is over, or nearer to its end. *)
Definition later (n work' : Z) (s' : gc major) : Prop :=
  ready rs s' ∧ work' = 0 ∨ ∃ ws' n' t', minv rs ws' n' t' s' ∧ 0 <= n' < n.

Lemma main_run ws n t work s : minv rs ws n t s → caml_gc_subphase (mk (rest s)) = Subphase_main → wp (sub work) (λ work' s', later n work' s') s.
Proof.
  intros HI Ep. unfold mark_subphase. apply wp_bind. eapply wp_intro; [reflexivity|]. cbn beta. rewrite Ep. cbn [Z.eqb]. change (Subphase_main =? Subphase_main) with true. cbn iota. apply wp_bind. eapply wp_intro; [reflexivity|]. apply wp_bind. eapply wp_intro; [reflexivity|]. rewrite put_put, mk_put. apply wp_ret. right.
  destruct (v_stage _ _ _ _ (proj1 HI)) as [[_ En]|[(?&?&?&E&_)|[(?&?&?&E&_)|[E _]]]]; try (rewrite Ep in E; done). exists ws, (2 * Z.of_nat (length ws) + 3), t. split; [|lia]. apply (restage rs ws n); [done|]. right; left. exists [], ws. split_and!; try done. lia.
Qed.

Lemma weak1_run ws n t work s : minv rs ws n t s → caml_gc_subphase (mk (rest s)) = Subphase_weak1 → wp (sub work) (λ work' s', later n work' s') s.
Proof.
  intros HI Ep. unfold mark_subphase. apply wp_bind. eapply wp_intro; [reflexivity|]. cbn beta. rewrite Ep. change (Subphase_weak1 =? Subphase_main) with false. change (Subphase_weak1 =? Subphase_weak1) with true. cbn iota.
  pose proof HI as [HS [HG HQ]]. destruct (v_stage _ _ _ _ HS) as [[E _]|[(ws1&ws2&Ews&_&Epr&En)|[(?&?&?&E&_)|[E _]]]]; try (rewrite Ep in E; done). pose proof (v_weak _ _ _ _ HS) as HW. pose proof (chain_at (words s) ws1 ws2 caml_weak_list_head) as Hc. rewrite <- Ews in Hc. specialize (Hc (w_chain _ _ HW)). fold (weak_cell ws1) in Hc. rewrite <- Epr in Hc.
  destruct ws2 as [|cur ws2]; cbn [weak_chain length] in *.
  - apply wp_bind. eapply wp_intro; [by apply ld_run|]. cbn [Z.eqb negb]. apply wp_bind. eapply wp_conseq; [by eapply final_update_run|]. intros [] s1 HI1. apply wp_bind. eapply wp_intro; [reflexivity|]. apply wp_bind. eapply wp_intro; [reflexivity|]. rewrite put_put, mk_put. apply wp_ret. right. exists ws, (Z.of_nat (length ws) + 1), t. split; [|lia].
    apply (restage rs ws n); [done|]. right; right; left. exists [], ws. done.
  - destruct Hc as (Hcur & Hne & Hc). apply wp_bind. eapply wp_intro; [by apply ld_run|]. rewrite (proj2 (Z.eqb_neq _ _) Hne). cbn [negb]. assert (cur ∈ ws) as Hin by (rewrite Ews; set_solver). destruct (w_array _ _ HW cur Hin) as (sz & tg & Hb & _ & Hsz & _).
    destruct (mo_hdr _ _ (g_mem _ _ _ _ _ _ HG) _ _ _ Hb) as (hd & Hhd & _ & Hwo & _). apply wp_bind. eapply wp_intro; [by apply ld_run|]. rewrite Hwo. apply wp_bind. eapply wp_conseq; [apply (wp_for_up (λ _ s', minv rs ws n t s' ∧ quiet s s'))|].
    + split; [done|apply quiet_refl].
    + intros j s1 Hj [HI1 Hq1]. eapply wp_conseq; [apply (weak_field_run rs ws n t cur sz tg j); [done|done|lia|done]|]. intros [] s2 [HI2 Hq2]. split; [done|by eapply quiet_trans].
    + intros [] s1 [HI1 (m1 & Es1 & _)]. apply wp_bind. eapply wp_intro; [reflexivity|]. apply wp_ret. right. exists ws, (n - 1), t. split; [|lia]. assert (mk (rest s1) = mk (rest s)) as Ek by by rewrite Es1.
      replace (set_weak_prev (Field cur 0) (mk (rest s1))) with (set_weak_prev (Field cur 0) (set_subphase Subphase_weak1 (mk (rest s1)))) by (unfold set_subphase; rewrite Ek, <- Ep; by destruct (mk (rest s))).
      apply (restage rs ws n); [done|]. right; left. exists (ws1 ++ [cur]), ws2. rewrite <- app_assoc. split_and!; [done|done| |lia]. unfold weak_cell. rewrite last_snoc. cbn. unfold Field. lia.
Qed.

Lemma weak2_run ws n t work s : minv rs ws n t s → caml_gc_subphase (mk (rest s)) = Subphase_weak2 → wp (sub work) (λ work' s', later n work' s') s.
Proof.
  intros HI Ep. unfold mark_subphase. apply wp_bind. eapply wp_intro; [reflexivity|]. cbn beta. rewrite Ep. change (Subphase_weak2 =? Subphase_main) with false. change (Subphase_weak2 =? Subphase_weak1) with false. change (Subphase_weak2 =? Subphase_weak2) with true. cbn iota.
  pose proof HI as [HS [HG HQ]]. destruct (v_stage _ _ _ _ HS) as [[E _]|[(?&?&?&E&_)|[(ws1&ws2&Ews&_&Epr&En)|[E _]]]]; try (rewrite Ep in E; done). pose proof (v_weak _ _ _ _ HS) as HW. pose proof (chain_at (words s) ws1 ws2 caml_weak_list_head) as Hc. rewrite <- Ews in Hc. specialize (Hc (w_chain _ _ HW)). fold (weak_cell ws1) in Hc. rewrite <- Epr in Hc.
  destruct ws2 as [|cur ws2]; cbn [weak_chain length] in *.
  - apply wp_bind. eapply wp_intro; [by apply ld_run|]. cbn [Z.eqb negb]. apply wp_bind. eapply wp_intro; [reflexivity|]. apply wp_ret. right. exists ws, 0, t. split; [|lia].
    replace (set_subphase Subphase_final (mk (rest s))) with (set_weak_prev (weak_prev (mk (rest s))) (set_subphase Subphase_final (mk (rest s)))) by by destruct (mk (rest s)). apply (restage rs ws n); [done|]. right; right; right. done.
  - destruct Hc as (Hcur & Hne & Hc). apply wp_bind. eapply wp_intro; [by apply ld_run|]. rewrite (proj2 (Z.eqb_neq _ _) Hne). cbn [negb]. assert (cur ∈ ws) as Hin by (rewrite Ews; set_solver). destruct (w_array _ _ HW cur Hin) as (sz & tg & Hb & _ & Hsz & _).
    destruct (mo_hdr _ _ (g_mem _ _ _ _ _ _ HG) _ _ _ Hb) as (hd & Hhd & _ & Hwo & _). apply wp_bind. eapply wp_intro; [by apply ld_run|]. apply wp_bind. destruct (Z.eqb_spec (Color_hd hd) Caml_white).
    + destruct (mo_field _ _ (g_mem _ _ _ _ _ _ HG) cur sz tg 0 Hb) as [next Hnext]; [lia|]. apply wp_bind. eapply wp_intro; [by apply ld_run|]. eapply wp_intro; [by apply (st_run s _ _ cur)|]. apply wp_ret. right. exists (ws1 ++ ws2), (n - 1), t. split; [|lia].
      replace (cur + 8 * 0) with cur in Hnext by lia. rewrite Ews in HI. destruct (weak_remove rs ws1 cur ws2 n t s next HI Hnext) as (R1 & R2 & R3 & R4). rewrite Epr. set (m' := <[_ := _]> (words s)) in *.
      replace (set_words m' s) with (put_mk (set_weak_prev (weak_prev (mk (rest s))) (set_subphase Subphase_weak2 (mk (rest s)))) (set_words m' s)) by (rewrite <- Ep; by destruct s as [? ? ? ? ? ? ? ? [[] ? ? ? ? ? ? ?]]).
      eapply restage_alike; [done..| |done]. right; right; left. exists ws1, ws2. split_and!; [done|done|done|lia].
    + eapply wp_intro; [reflexivity|]. apply wp_ret. right. exists ws, (n - 1), t. split; [|lia].
      replace (set_weak_prev (Field cur 0) (mk (rest s))) with (set_weak_prev (Field cur 0) (set_subphase Subphase_weak2 (mk (rest s)))) by (unfold set_subphase; rewrite <- Ep; by destruct (mk (rest s))).
      apply (restage rs ws n); [done|]. right; right; left. exists (ws1 ++ [cur]), ws2. rewrite <- app_assoc. split_and!; [done|done| |lia]. unfold weak_cell. rewrite last_snoc. cbn. unfold Field. lia.
Qed.

Lemma final_run ws n t work s : minv rs ws n t s → gray_vals (mk (rest s)) = [] → markhp (mk (rest s)) = 0 → heap_is_pure (mk (rest s)) ≠ 0 → caml_gc_subphase (mk (rest s)) = Subphase_final → wp (sub work) (λ work' s', later n work' s') s.
Proof.
  intros [HS [HG HQ]] Eg Ehp Epure Ep. unfold mark_subphase. apply wp_bind. eapply wp_intro; [reflexivity|]. cbn beta. rewrite Ep. change (Subphase_final =? Subphase_main) with false. change (Subphase_final =? Subphase_weak1) with false. change (Subphase_final =? Subphase_weak2) with false. change (Subphase_final =? Subphase_final) with true. cbn iota.
  destruct (v_link _ _ _ _ HS) as [Hlink Hne]. set (c := caml_heap_start (rest s)) in *. assert (∃ sz, words s !! (c - 16) = Some sz) as [sz Hsz] by (destruct (H L) as [|[[c' n'] l] h0]; [done|]; destruct Hlink as (-> & Hl & _); eauto).
  apply wp_bind. eapply wp_intro; [reflexivity|]. apply wp_bind. eapply wp_intro; [reflexivity|]. apply wp_bind. eapply wp_intro; [reflexivity|]. apply wp_bind. eapply wp_intro; [reflexivity|]. apply wp_bind. eapply wp_intro; [reflexivity|]. apply wp_bind. eapply wp_intro; [by apply ld_run|]. apply wp_bind. eapply wp_intro; [reflexivity|]. apply wp_bind. eapply wp_intro; [reflexivity|]. apply wp_ret.
  left. split; [|done]. split; cbn; try done; [|by split_and!; try done; exists sz|].
  intros g Hg Hgg. destruct (q_found _ _ HQ g Hg Hgg) as [Hin|[?|(l2 & h & (h1 & c' & n' & l1 & _ & _ & _ & Hpos & _) & _)]]; [rewrite Eg in Hin; by apply elem_of_nil in Hin|done|lia].
  destruct (v_free _ _ _ _ HS) as [[I1 I2 I3 I4 I5 I6 I7 I8 I9 I10] O2 O3 O4]. split; [|done..]. split; try done. by left.
Qed.

Lemma subphase_run ws n t work s : minv rs ws n t s → gray_vals (mk (rest s)) = [] → markhp (mk (rest s)) = 0 → heap_is_pure (mk (rest s)) ≠ 0 → wp (sub work) (λ work' s', later n work' s') s.
Proof.
  intros HI Eg Ehp Epure. destruct (v_stage _ _ _ _ (proj1 HI)) as [[E _]|[(?&?&_&E&_)|[(?&?&_&E&_)|[E _]]]]; [by eapply main_run|by eapply weak1_run|by eapply weak2_run|by eapply final_run].
Qed.

(** *** Progress *)

Definition wl : Z := walk_length (H L).
Definition pace (k : marker) (t : Z) : Z := t + if heap_is_pure k =? 0 then wl + 1 else 0.

(** A bound on the number of steps. *)
Definition steps (n t : Z) (s : gc major) : Z :=
  n * ((Z.of_nat (stdpp.base.size (dom (B L))) + 1) * (2 * wl + 2)) + unmarked L (words s) * (2 * wl + 2) + pace (mk (rest s)) t.

Lemma walk_length_app h1 h2 : walk_length (h1 ++ h2) = walk_length h1 + walk_length h2.
Proof. induction h1 as [|[? ?] ? IH]; cbn; [done|]. rewrite IH. lia. Qed.

Lemma walks_bound k t : walks k t → 0 <= t <= wl.
Proof.
  pose proof (walk_length_pos (H L)) as Hp. unfold wl. intros [[_ ->]|(l2 & h & (h1 & c & n & l1 & -> & _) & ->)]; [lia|]. rewrite walk_length_app. cbn. rewrite length_app. pose proof (walk_length_pos h1). pose proof (walk_length_pos h). lia.
Qed.

Lemma steps_bound ws n t s : minv rs ws n t s → 0 <= pace (mk (rest s)) t < 2 * wl + 2 ∧ 0 <= n.
Proof.
  intros [HS _]. pose proof (walks_bound _ _ (v_walks _ _ _ _ HS)). split; [unfold pace; destruct (_ =? 0); lia|]. destruct (v_stage _ _ _ _ HS) as [[_ ->]|[(?&?&_&_&_&->)|[(?&?&_&_&_&->)|[_ ->]]]]; lia.
Qed.

(** The order of the measure. *)
Lemma steps_stage ws n t s ws' n' t' s' : minv rs ws n t s → minv rs ws' n' t' s' → n' < n → 0 <= steps n' t' s' < steps n t s.
Proof.
  intros H1 H2 Hn. destruct (steps_bound _ _ _ _ H1) as [P1 P2], (steps_bound _ _ _ _ H2) as [P3 P4]. pose proof (unmarked_bound L (words s)). pose proof (unmarked_bound L (words s')). unfold steps. set (K := 2 * wl + 2) in *. set (N := Z.of_nat (stdpp.base.size (dom (B L)))) in *. set (M := (N + 1) * K). assert (unmarked L (words s') * K + pace (mk (rest s')) t' < M) by nia.
  assert (0 <= M) by nia. assert (n' * M + M <= n * M) by nia. assert (0 <= n' * M) by nia. assert (0 <= unmarked L (words s) * K) by nia. assert (0 <= unmarked L (words s') * K) by nia. lia.
Qed.

Lemma steps_unmarked ws n t s ws' t' s' : minv rs ws n t s → minv rs ws' n t' s' → unmarked L (words s') < unmarked L (words s) → 0 <= steps n t' s' < steps n t s.
Proof.
  intros H1 H2 Hn. destruct (steps_bound _ _ _ _ H1) as [P1 P2], (steps_bound _ _ _ _ H2) as [P3 P4]. pose proof (unmarked_bound L (words s)). pose proof (unmarked_bound L (words s')). unfold steps. set (K := 2 * wl + 2) in *. set (M := _ * K). assert (0 <= M) by (unfold M; nia). assert (unmarked L (words s') * K + K <= unmarked L (words s) * K) by nia. assert (0 <= unmarked L (words s') * K) by nia. assert (0 <= n * M) by nia. lia.
Qed.

Lemma steps_pace ws n t s ws' t' s' : minv rs ws n t s → minv rs ws' n t' s' → words s' = words s → pace (mk (rest s')) t' < pace (mk (rest s)) t → 0 <= steps n t' s' < steps n t s.
Proof.
  intros H1 H2 Ew Hp. destruct (steps_bound _ _ _ _ H1) as [P1 P2], (steps_bound _ _ _ _ H2) as [P3 P4]. pose proof (unmarked_bound L (words s)). unfold steps. rewrite Ew. set (K := 2 * wl + 2) in *. set (M := _ * K). assert (0 <= M) by (unfold M; nia). assert (0 <= unmarked L (words s) * K) by nia. assert (0 <= n * M) by nia. lia.
Qed.

Lemma mark_step_run ws n t work s : minv rs ws n t s → wp (mark_step realloc_ok malloc_ok Is_in_heap Is_in_value_area caml_weak_list_head caml_weak_none work)
  (λ work' s', ready rs s' ∧ work' = 0 ∨ ∃ ws' n' t', minv rs ws' n' t' s' ∧ 0 <= steps n' t' s' < steps n t s) s.
Proof.
  intros HI. pose proof HI as [HS HG]. unfold mark_step. apply wp_bind. eapply wp_intro; [reflexivity|]. cbn beta. destruct (last (gray_vals (mk (rest s)))) as [v|] eqn:El.
  - apply last_Some in El as [l El]. apply wp_bind. eapply wp_intro; [reflexivity|]. cbn beta. rewrite El, removelast_last. apply wp_bind. assert (is_Some (B L !! v)) as Hv by (destruct HG as [_ HQ]; apply (q_stack _ _ HQ v); rewrite El; set_solver).
    eapply wp_conseq; [by apply (mark_block_run (strong rs (others (rest s))) s l v)|]. intros w s' (Hadv & H1 & H2). apply wp_ret. right. exists ws, n, t. assert (minv rs ws n t s') as HI' by (apply (advances_minv rs ws n t (put_mk (set_gray l (mk (rest s))) s) s'); [|exact Hadv]; by apply (put_shape ws n t); [..|apply (v_walks _ _ _ _ HS)]).
    split; [done|]. eapply steps_unmarked; [done..|]. destruct Hadv as (_ & _ & Hk). by eapply unmarked_black.
  - apply last_None in El. destruct (Z.eqb_spec (markhp (mk (rest s))) 0) as [Ehp|Ehp]; cbn [negb].
    + destruct (Z.eqb_spec (heap_is_pure (mk (rest s))) 0) as [Epu|Epu].
      * apply wp_bind. eapply wp_conseq; [by eapply mark_restart_run|]. intros [] s' (HI' & E1 & E2). apply wp_ret. right. exists ws, n, (walk_length (H L)). split; [done|]. eapply steps_pace; [done..|]. unfold pace. rewrite E2, Epu. cbn.
        destruct (v_walks _ _ _ _ HS) as [[_ ->]|(l2 & h & (h1 & c' & n' & l1 & _ & _ & _ & Hpos & _) & _)]; [|lia]. unfold wl. lia.
      * eapply wp_conseq; [by eapply subphase_run|]. intros work' s' [Hr|(ws' & n' & t' & HI' & Hn)]; [by left|]. right. exists ws', n', t'. split; [done|]. eapply steps_stage; [done..|lia].
    + apply wp_bind. eapply wp_conseq; [by eapply mark_walk_run|]. intros [] s' (t' & Ht & HI' & E1 & E2). apply wp_ret. right. exists ws, n, t'. split; [done|]. eapply steps_pace; [done..|]. unfold pace. rewrite E2. lia.
Qed.

Lemma mark_slice_run fuel : ∀ ws n t work s, minv rs ws n t s → steps n t s < Z.of_nat fuel →
  wp (mark_slice_r realloc_ok malloc_ok Is_in_heap Is_in_value_area caml_weak_list_head caml_weak_none fuel work)
    (λ _ s', ready rs s' ∨ ∃ ws' n' t', minv rs ws' n' t' s' ∧ 0 <= steps n' t' s' <= steps n t s ∧ (0 < work → steps n' t' s' < steps n t s)) s.
Proof.
  induction fuel as [|fuel IH]; intros ws n t work s HI Hf; pose proof (unmarked_bound L (words s)); destruct (steps_bound _ _ _ _ HI) as [P1 P2]; assert (0 <= steps n t s) as Hs by (unfold steps; nia); [lia|]. cbn [mark_slice_r]. destruct (Z.ltb_spec 0 work).
  - apply wp_bind. eapply wp_conseq; [by eapply mark_step_run|]. intros work' s1 [[Hr ->]|(ws' & n' & t' & HI' & Hlt)].
    + destruct fuel; apply wp_ret; by left.
    + eapply wp_conseq; [apply (IH ws' n' t' work' s1 HI'); lia|]. intros [] s2 [?|(ws2 & n2 & t2 & G1 & G2 & _)]; [by left|]. right. exists ws2, n2, t2. split; [done|lia].
  - apply wp_ret. right. exists ws, n, t. split; [done|lia].
Qed.

Lemma mark_all_run fuel j : ∀ ws n t s, minv rs ws n t s → steps n t s < Z.of_nat fuel → steps n t s < Z.of_nat j →
  wp (mark_all realloc_ok malloc_ok Is_in_heap Is_in_value_area caml_weak_list_head caml_weak_none fuel j) (λ _ s', ready rs s') s.
Proof.
  induction j as [|j IH]; intros ws n t s HI Hf Hj; pose proof (unmarked_bound L (words s)); destruct (steps_bound _ _ _ _ HI) as [P1 P2]; assert (0 <= steps n t s) as Hs by (unfold steps; nia); [lia|].
  cbn [mark_all]. apply wp_bind. eapply wp_intro; [reflexivity|]. rewrite (v_phase _ _ _ _ (proj1 HI)). cbn [Z.eqb]. apply wp_bind. eapply wp_conseq; [by eapply mark_slice_run|]. intros [] s1 [Hr|(ws' & n' & t' & HI' & G1 & G2)].
  - assert (mark_all realloc_ok malloc_ok Is_in_heap Is_in_value_area caml_weak_list_head caml_weak_none fuel j s1 = inr (s1, tt)) as E; [|by eapply wp_intro].
    destruct j; cbn [mark_all]; unfold mbnd, mget; by rewrite (d_phase _ _ Hr).
  - apply (IH ws' n' t' s1); [done|lia|]. specialize (G2 ltac:(done)). lia.
Qed.
End Subphases.
End Machine.
End Marking.
