(* ===== verification/Snapshot.v ===== *)
(** Incremental marking: the start of a cycle, and the program that runs
    between two slices (byterun/major_gc.c, memory.h, roots.c). *)

From stdpp Require Import relations.
From S2P Require Import Prelude Mlvalues Freelist MinorGc MajorGc Marking.

Module Snapshot.
Import MinorGc MajorGc Marking.

(** ** The cells of the roots *)

Fixpoint cells_from (a : Z) (n : nat) : list Z := match n with O => [] | S n => a :: cells_from (a + 8) n end.

(** The list of [n] blocks of local roots from [lr], whose cells are [l], with
    tables shorter than [fuel]; its words are outside of [inside]. *)
Inductive local_cells (inside : Z → Prop) (m : gmap Z Z) (fuel : nat) : nat → Z → list Z → Prop :=
  | local_none : local_cells inside m fuel 0 0 []
  | local_block n lr tables nitems next l :
      lr ≠ 0 → (∀ i, 0 <= i < 3 + Z.of_nat (length tables) → ¬ inside (lr + 8 * i)) →
      m !! lr_ntables lr = Some (Z.of_nat (length tables)) → m !! lr_nitems lr = Some (Z.of_nat nitems) →
      Z.of_nat (length tables) < HW → Z.of_nat nitems < HW → (length tables < fuel)%nat → (nitems < fuel)%nat →
      (∀ i tb, tables !! i = Some tb → m !! lr_tables lr (Z.of_nat i) = Some tb) →
      m !! lr_next lr = Some next → local_cells inside m fuel n next l →
      local_cells inside m fuel (S n) lr (mjoin ((λ tb, cells_from tb nitems) <$> tables) ++ l).

Section Start.
Context (realloc_ok : gc major → bool) (Is_in_heap Is_in_value_area : Z → bool) (L : lay) (HL : lay_ok L).
Notation graph := (graph Is_in_heap Is_in_value_area L).
Notation inheap := (inheap Is_in_heap).
Notation keeps := (keeps L).
Notation ginv := (ginv Is_in_heap Is_in_value_area L).
Notation darken := (caml_darken_r realloc_ok Is_in_heap).

Section Scan.
Context (rs : Z → Prop) (s0 : gc major).

(** The values [l] are still to be darkened. *)
Definition dinv (l : list Z) (s : gc major) : Prop := ginv rs (λ y, y ∈ l) s ∧ moved s0 s ∧ keeps (words s0) (words s).

(** The computation [c] darkens the values [l]. *)
Definition darkens (c : XM unit) (l : list Z) : Prop := ∀ l' s, dinv (l ++ l') s → wp c (λ _, dinv l') s.

Lemma darkens_nil : darkens (mreturn tt) [].
Proof. intros l' s Hd. by apply wp_ret. Qed.

Lemma darkens_seq c1 c2 l1 l2 : darkens c1 l1 → darkens c2 l2 → darkens (c1 ;;; c2) (l1 ++ l2).
Proof. intros H1 H2 l' s Hd. apply wp_bind. rewrite <- app_assoc in Hd. eapply wp_conseq; [by apply H1|]. intros [] s1 Hd1. by apply H2. Qed.

Lemma darkens_value x p : rs x → darkens (darken x p) [x].
Proof.
  intros Hx l' s [[HG HQ] [Hm Hk]]. eapply wp_conseq; [apply (darken_run realloc_ok realloc_ok Is_in_heap Is_in_value_area L HL rs (λ y, y ∈ l') x p s)|].
  - split; [|done]. eapply graph_pending; [|exact HG]. intros y [->|Hy]%elem_of_cons; [by right|by left].
  - by apply (g_root _ _ _ _ _ _ HG).
  - intros [] s' (H1 & H2 & H3). split_and!; [done|by eapply mmoved_trans|by eapply mkeeps_trans].
Qed.

Definition outside (a : Z) : Prop := ¬ in_block L a.

Lemma dinv_word l s a : dinv l s → outside a → words s !! a = words s0 !! a.
Proof. intros (_ & _ & Hk) Ha. by apply (k_out _ _ _ Hk). Qed.

(** The root cells and their values. *)
Definition cell_ok (a x : Z) : Prop := outside a ∧ words s0 !! a = Some x ∧ rs x.

Lemma darkens_cell a x : cell_ok a x → darkens (scan_cell darken a) [x].
Proof. intros (H1 & H2 & H3) l' s Hd. unfold scan_cell. apply wp_bind. eapply wp_intro; [apply ld_run; by rewrite (dinv_word _ _ _ Hd)|]. by apply darkens_value. Qed.

Lemma darkens_visit l xs : Forall2 cell_ok l xs → darkens (visit darken l) xs.
Proof. induction 1 as [|a x l xs Ha _ IH]; cbn [visit]; [apply darkens_nil|]. apply (darkens_seq _ _ [x]); [by apply darkens_cell|done]. Qed.

Lemma darkens_stack n : ∀ fuel sp xs, (n < fuel)%nat → Forall2 cell_ok (cells_from sp n) xs → darkens (scan_stack darken fuel sp (sp + 8 * Z.of_nat n)) xs.
Proof.
  induction n as [|n IH]; intros [|fuel] sp xs Hf; try lia; cbn [cells_from scan_stack].
  - intros ->%Forall2_nil_inv_l. rewrite (proj2 (Z.ltb_ge _ _)) by lia. apply darkens_nil.
  - intros (x & xs' & Hx & Hxs & ->)%Forall2_cons_inv_l. rewrite (proj2 (Z.ltb_lt _ _)) by lia. apply (darkens_seq _ _ [x]); [by apply darkens_cell|]. replace (sp + 8 * Z.of_nat (S n)) with (sp + 8 + 8 * Z.of_nat n) by lia. apply IH; [lia|done].
Qed.

(** A word of the root structures is loaded. *)
Lemma darkens_ld a v (c : Z → XM unit) l : outside a → words s0 !! a = Some v → darkens (c v) l → darkens (let* x := ld a in c x) l.
Proof. intros H1 H2 Hc l' s Hd. apply wp_bind. eapply wp_intro; [apply ld_run; by rewrite (dinv_word _ _ _ Hd)|]. by apply Hc. Qed.

Lemma darkens_items lr tb i nitems : outside (lr_nitems lr) → words s0 !! lr_nitems lr = Some (Z.of_nat nitems) → Z.of_nat nitems < HW → outside (lr_tables lr i) → words s0 !! lr_tables lr i = Some tb →
  ∀ n fuel j xs, (j + n = nitems)%nat → (n < fuel)%nat → Forall2 cell_ok (cells_from (tb + 8 * Z.of_nat j) n) xs → darkens (scan_items darken fuel lr i (Z.of_nat j)) xs.
Proof.
  intros O1 E1 Hw O2 E2. induction n as [|n IH]; intros [|fuel] j xs Hj Hf; try lia; cbn [cells_from scan_items]; intros Hxs; apply (darkens_ld _ (Z.of_nat nitems)); try done; rewrite !s64_small by lia_w.
  - apply Forall2_nil_inv_l in Hxs as ->. rewrite (proj2 (Z.ltb_ge _ _)) by lia. apply darkens_nil.
  - apply Forall2_cons_inv_l in Hxs as (x & xs' & Hx & Hxs & ->). rewrite (proj2 (Z.ltb_lt _ _)) by lia. apply (darkens_ld _ tb); [done..|]. apply (darkens_seq _ _ [x]); [by apply darkens_cell|]. replace (Z.of_nat j + 1) with (Z.of_nat (S j)) by lia. apply IH; [lia|lia|]. by replace (tb + 8 * Z.of_nat (S j)) with (tb + 8 * Z.of_nat j + 8) by lia.
Qed.

Lemma darkens_tables lr fuel tables nitems : (∀ i, 0 <= i < 3 + Z.of_nat (length tables) → outside (lr + 8 * i)) → words s0 !! lr_ntables lr = Some (Z.of_nat (length tables)) → words s0 !! lr_nitems lr = Some (Z.of_nat nitems) →
  Z.of_nat (length tables) < HW → Z.of_nat nitems < HW → (nitems < fuel)%nat → (∀ i tb, tables !! i = Some tb → words s0 !! lr_tables lr (Z.of_nat i) = Some tb) →
  ∀ ts n i xs, tables = take i tables ++ ts → (i + length ts = length tables)%nat → (length ts < n)%nat → Forall2 cell_ok (mjoin ((λ tb, cells_from tb nitems) <$> ts)) xs → darkens (scan_tables darken fuel n lr (Z.of_nat i)) xs.
Proof.
  intros Ho E1 E2 W1 W2 Hf Ht. assert (outside (lr_ntables lr)) as O1 by (replace (lr_ntables lr) with (lr + 8 * 1) by (unfold lr_ntables; lia); apply Ho; lia). assert (outside (lr_nitems lr)) as O2 by (replace (lr_nitems lr) with (lr + 8 * 2) by (unfold lr_nitems; lia); apply Ho; lia).
  induction ts as [|tb ts IH]; intros [|n] i xs Hts Hi Hn; try (cbn in Hn; lia); cbn [scan_tables]; intros Hxs; apply (darkens_ld _ (Z.of_nat (length tables))); try done; cbn [length] in *; rewrite !s64_small by lia_w.
  - cbn in Hxs. apply Forall2_nil_inv_l in Hxs as ->. rewrite (proj2 (Z.ltb_ge _ _)) by lia. apply darkens_nil.
  - change (mjoin ((λ tb, cells_from tb nitems) <$> tb :: ts)) with (cells_from tb nitems ++ mjoin ((λ tb, cells_from tb nitems) <$> ts)) in Hxs. apply Forall2_app_inv_l in Hxs as (x1 & x2 & H1 & H2 & ->). rewrite (proj2 (Z.ltb_lt _ _)) by lia.
    assert (tables !! i = Some tb) as Htb by (rewrite Hts, lookup_app_r, length_take by (rewrite length_take; lia); by replace (i - i `min` length tables)%nat with 0%nat by lia). apply darkens_seq.
    + apply (darkens_items lr tb (Z.of_nat i) nitems) with (n := nitems) (j := 0%nat); try done; [replace (lr_tables lr (Z.of_nat i)) with (lr + 8 * (3 + Z.of_nat i)) by (unfold lr_tables; lia); apply Ho; lia|by apply Ht|]. by replace (tb + 8 * Z.of_nat 0) with tb by lia.
    + replace (Z.of_nat i + 1) with (Z.of_nat (S i)) by lia. apply IH; [|lia|lia|done]. by erewrite (take_S_r tables i tb), <- app_assoc.
Qed.

Lemma darkens_local fuel k lr cells : local_cells (in_block L) (words s0) fuel k lr cells → ∀ n xs, (k < n)%nat → Forall2 cell_ok cells xs → darkens (scan_local_roots darken fuel n lr) xs.
Proof.
  induction 1 as [|k lr tables nitems next l Hne Ho E1 E2 W1 W2 F1 F2 Ht Hnext Hl IH]; intros [|n] xs Hn Hxs; try lia; cbn [scan_local_roots]; [apply Forall2_nil_inv_l in Hxs as ->; apply darkens_nil|].
  rewrite (proj2 (Z.eqb_neq _ _) Hne). apply Forall2_app_inv_l in Hxs as (x1 & x2 & H1 & H2 & ->). apply darkens_seq.
  - apply (darkens_tables lr fuel tables nitems) with (ts := tables) (i := 0%nat); done.
  - apply (darkens_ld _ next); [|done|apply IH; [lia|done]]. replace (lr_next lr) with (lr + 8 * 0) by (unfold lr_next; lia). apply Ho. lia.
Qed.

Lemma darkens_funs l : (∀ f, f ∈ l → rs (fun_ f)) → darkens (final_funs darken l) (fun_ <$> l).
Proof. induction l as [|f l IH]; intros Hl; cbn [final_funs]; [apply darkens_nil|]. apply (darkens_seq _ _ [fun_ f]); [apply darkens_value, Hl; left|apply IH; intros g Hg; apply Hl; by right]. Qed.

Lemma darkens_items_of l : (∀ f, f ∈ l → rs (fun_ f) ∧ rs (val f)) → ∃ xs, darkens (final_items darken l) xs ∧ ∀ f, f ∈ l → fun_ f ∈ xs ∧ val f ∈ xs.
Proof.
  induction l as [|f l IH]; intros Hl; cbn [final_items]; [exists []; split; [apply darkens_nil|by intros f ?%elem_of_nil]|]. destruct IH as (xs & H1 & H2); [intros g Hg; apply Hl; by right|]. destruct (Hl f) as [R1 R2]; [left|]. exists ([fun_ f] ++ [val f] ++ xs).
  split; [apply darkens_seq; [by apply darkens_value|]; apply darkens_seq; [by apply darkens_value|done]|]. intros g [->|Hg]%elem_of_cons; [split; set_solver|]. destruct (H2 g Hg). split; set_solver.
Qed.

Lemma darkens_to_do q : (∀ l f, l ∈ q → f ∈ l → rs (fun_ f) ∧ rs (val f)) → ∃ xs, darkens (final_to_do darken q) xs ∧ ∀ l f, l ∈ q → f ∈ l → fun_ f ∈ xs ∧ val f ∈ xs.
Proof.
  induction q as [|l q IH]; intros Hq; cbn [final_to_do]; [exists []; split; [apply darkens_nil|by intros l f ?%elem_of_nil]|]. destruct IH as (xs & H1 & H2); [intros l' f Hl'; apply Hq; by right|]. destruct (darkens_items_of l) as (ys & G1 & G2); [intros f; apply Hq; left|].
  exists (ys ++ xs). split; [by apply darkens_seq|]. intros l' f [->|Hl']%elem_of_cons Hf; [destruct (G2 f Hf)|destruct (H2 l' f Hl' Hf)]; split; set_solver.
Qed.

Lemma darkens_get {A} (f : gc major → A) (c : A → XM unit) l : (∀ s, moved s0 s → f s = f s0) → darkens (c (f s0)) l → darkens (let* s := mget in c (f s)) l.
Proof. intros Hf Hc l' s Hd. apply wp_bind. eapply wp_intro; [reflexivity|]. cbn. rewrite Hf by apply Hd. by apply Hc. Qed.
End Scan.

(** ** The start of a cycle *)

Context (caml_global_data caml_weak_list_head caml_weak_none : Z) (fuel : nat).

(** The cells of the roots: the stack has [k] words, [lc] are those of the
    local roots. *)
Definition root_cells (k : nat) (lc : list Z) (s : gc major) : list Z :=
  caml_global_data :: cells_from (caml_extern_sp (roots s)) k ++ lc ++ globals (others (rest s)) ++ hooks (others (rest s)).

(** The values of the roots, the finalised values apart. *)
Definition root_values (k : nat) (lc : list Z) (s : gc major) (x : Z) : Prop := ∃ a, a ∈ root_cells k lc s ∧ words s !! a = Some x.

(** The state between two cycles. *)
Record idle (k n : nat) (lc ws : list Z) (s : gc major) : Prop := {
  z_phase : caml_gc_phase (rest s) = Phase_idle;
  z_marker : gray_vals (mk (rest s)) = [] ∧ 2 <= gray_vals_size (mk (rest s)) ∧ markhp (mk (rest s)) = 0;
  z_mem : mem_ok L (words s);
  z_colour v : is_Some (B L !! v) → white (words s) v ∨ ¬ used (words s) v;
  z_field v x : used (words s) v → holds L (words s) v x → field_ok Is_in_heap Is_in_value_area L (words s) x;
  z_stack : caml_stack_high (roots s) = caml_extern_sp (roots s) + 8 * Z.of_nat k ∧ (k < fuel)%nat;
  z_local : local_cells (in_block L) (words s) fuel n (caml_local_roots (roots s)) lc ∧ (n < fuel)%nat;
  z_cells a : a ∈ root_cells k lc s → outside a ∧ is_Some (words s !! a);
  z_roots x : strong (root_values k lc s) (others (rest s)) x → inheap x = true → valid L (words s) x;
  z_final f : f ∈ final_table (others (rest s)) → inheap (val f) = true ∧ valid L (words s) (val f);
  z_link : linked (words s) (caml_heap_start (rest s)) (H L) ∧ H L ≠ [];
  z_weak : weak_ok Is_in_heap Is_in_value_area caml_weak_list_head caml_weak_none L ws (words s);
  z_free : free_ok caml_weak_list_head L (words s) (free_list (rest s))
}.

Lemma cell_values (rs : Z → Prop) s l : (∀ a, a ∈ l → outside a ∧ is_Some (words s !! a)) → (∀ a x, a ∈ l → words s !! a = Some x → rs x) → ∃ xs, Forall2 (cell_ok rs s) l xs ∧ ∀ a x, a ∈ l → words s !! a = Some x → x ∈ xs.
Proof.
  induction l as [|a l IH]; intros H1 H2; [exists []; split; [constructor|by intros a x ?%elem_of_nil]|]. destruct (H1 a) as [Ho [x Hx]]; [left|]. destruct IH as (xs & F1 & F2); [intros b Hb; apply H1; by right|intros b y Hb; apply H2; by right|].
  exists (x :: xs). split; [constructor; [split_and!; [done..|apply (H2 a); [left|done]]|done]|]. intros b y [->|Hb]%elem_of_cons Hy; [rewrite Hx in Hy; injection Hy as <-; left|right; by apply (F2 b)].
Qed.

Lemma darken_roots_run k n lc ws s : idle k n lc ws s → let rs := strong (root_values k lc s) (others (rest s)) in
  wp (caml_darken_all_roots_r realloc_ok Is_in_heap caml_global_data fuel) (λ _ s', advances Is_in_heap Is_in_value_area L rs (λ _, False) s s') s.
Proof.
  intros Hz rs. destruct Hz as [Z1 (Z2 & Z2' & Z2'') Z3 Z4 Z5 [Z6 Z6'] [Z7 Z7'] Z8 Z9 Z10 Z11 Z12 Z13].
  assert (∀ l, (∀ a, a ∈ l → a ∈ root_cells k lc s) → ∃ xs, Forall2 (cell_ok rs s) l xs ∧ ∀ a x, a ∈ l → words s !! a = Some x → x ∈ xs) as Hcells.
  { intros l Hl. apply cell_values; [intros a Ha; by apply Z8, Hl|]. intros a x Ha Hx. left. exists a. split; [by apply Hl|done]. }
  destruct (Z8 caml_global_data) as [Hgo [g Hg]]; [left|]. assert (rs g) as Hrg by (left; exists caml_global_data; split; [left|done]).
  destruct (Hcells (cells_from (caml_extern_sp (roots s)) k)) as (x1 & F1 & G1); [unfold root_cells; intros a Ha; rewrite elem_of_cons, !elem_of_app; tauto|].
  destruct (Hcells lc) as (x2 & F2 & G2); [unfold root_cells; intros a Ha; rewrite elem_of_cons, !elem_of_app; tauto|].
  destruct (Hcells (globals (others (rest s)))) as (x3 & F3 & G3); [unfold root_cells; intros a Ha; rewrite elem_of_cons, !elem_of_app; tauto|].
  destruct (Hcells (hooks (others (rest s)))) as (x4 & F4 & G4); [unfold root_cells; intros a Ha; rewrite elem_of_cons, !elem_of_app; tauto|].
  destruct (darkens_to_do rs s (to_do (others (rest s)))) as (x5 & D5 & G5); [intros l f Hl Hf; split; right; right; exists l, f; tauto|].
  assert (darkens rs s (caml_darken_all_roots_r realloc_ok Is_in_heap caml_global_data fuel) ([g] ++ (x1 ++ x2) ++ x3 ++ ((fun_ <$> final_table (others (rest s))) ++ x5) ++ x4)) as Hd.
  { unfold caml_darken_all_roots_r, caml_do_roots_r. apply (darkens_ld _ _ _ g); [done..|]. apply darkens_seq; [by apply darkens_value|]. apply (darkens_get rs s (λ s, roots s) (λ r, caml_do_local_roots_r fuel darken (caml_extern_sp r) (caml_stack_high r) (caml_local_roots r) ;;; _)); [by intros t [-> _]|].
    apply darkens_seq; [unfold caml_do_local_roots_r; rewrite Z6; apply darkens_seq; [by apply darkens_stack|by eapply darkens_local]|]. apply (darkens_get rs s (λ s, globals (others (rest s))) (λ r, visit darken r ;;; _)); [by intros t [-> _]|]. apply darkens_seq; [by apply darkens_visit|].
    apply darkens_seq; [|apply (darkens_get rs s (λ s, hooks (others (rest s))) (λ r, visit darken r)); [by intros t [-> _]|by apply darkens_visit]].
    unfold caml_final_do_strong_roots_r. apply (darkens_get rs s (λ s, final_table (others (rest s))) (λ r, final_funs darken r ;;; _)); [by intros t [-> _]|]. apply darkens_seq; [apply darkens_funs; intros f Hf; right; left; by exists f|].
    apply (darkens_get rs s (λ s, to_do (others (rest s))) (λ r, final_to_do darken r)); [by intros t [-> _]|done]. }
  set (xs := [g] ++ _) in Hd. assert (∀ x, rs x → x ∈ xs) as Hall.
  { unfold xs. intros x [(a & Ha & Hx)|[(f & Hf & ->)|(q & f & Hq & Hf & Hx)]]; rewrite !elem_of_app.
    - unfold root_cells in Ha. rewrite elem_of_cons, !elem_of_app in Ha. destruct Ha as [->|[Ha|[Ha|[Ha|Ha]]]]; [rewrite Hg in Hx; injection Hx as <-; set_solver|..]; eauto 7.
    - do 3 right. left. left. by apply list_elem_of_fmap_2.
    - destruct (G5 q f Hq Hf). destruct Hx as [->| ->]; tauto. }
  eapply wp_conseq; [apply (Hd [] s)|].
  - rewrite app_nil_r. split_and!; [split; [split|split]|apply mmoved_refl|apply mkeeps_refl]; rewrite ?Z2; try done.
    + intros x Hx Hin Hw. exists (target L x). split; [done|]. right. split; [done|]. exists x. auto.
    + intros v w Hb (_ & x & Hx & _) _. destruct (Z4 v) as [Hw|Hw]; [by eapply holds_block|unfold black in Hb; by rewrite Hw in Hb|]. destruct Hw. unfold used. by rewrite Hb.
    + by intros v ?%elem_of_nil.
    + constructor.
    + cbn. lia.
    + by left.
    + intros v Hv Hgv. destruct (Z4 v Hv) as [Hw|Hw]; [unfold gray in Hgv; by rewrite Hw in Hgv|]. destruct Hw. unfold used. by rewrite Hgv.
  - intros [] s' ((HG & HQ) & Hm & Hk). split_and!; [split; [|done]|done|done]. eapply graph_pending; [|exact HG]. intros y Hy. by apply elem_of_nil in Hy.
Qed.

Lemma start_cycle_run k n lc ws s : idle k n lc ws s → wp (start_cycle_r realloc_ok Is_in_heap caml_global_data fuel)
  (λ _ s', minv Is_in_heap Is_in_value_area caml_weak_list_head caml_weak_none L (root_values k lc s) ws (2 * Z.of_nat (length ws) + 4) 0 s') s.
Proof.
  intros Hz. unfold start_cycle_r. apply wp_bind. eapply wp_conseq; [by eapply darken_roots_run|]. intros [] s1 ((HG & HQ) & [Es Hst] & Hk). destruct Hz as [Z1 (Z2 & Z2' & Z2'') Z3 Z4 Z5 Z6 Z7 Z8 Z9 Z10 [Z11 Z11'] Z12 Z13].
  apply wp_bind. eapply wp_intro; [reflexivity|]. apply wp_bind. eapply wp_intro; [reflexivity|]. eapply wp_intro; [reflexivity|]. set (k2 := set_markhp 0 _). assert (markhp (mk (rest s1)) = 0) as Ehp by (by rewrite (proj1 Hst)).
  assert (others (rest s1) = others (rest s) ∧ caml_heap_start (rest s1) = caml_heap_start (rest s) ∧ free_list (rest s1) = free_list (rest s)) as (Eo & Eh & Ef) by by rewrite Es. split; [split; cbn; try done|split; cbn].
  - rewrite Eh. split; [|done]. by eapply keeps_linked.
  - by eapply keeps_weak.
  - rewrite Eo. intros f Hf. destruct (Z10 f Hf). split; [done|]. by eapply keeps_valid.
  - by left.
  - by left.
  - rewrite Ef. by eapply keeps_free.
  - by rewrite Eo.
  - destruct HQ as [Q1 Q2 Q3 Q4 Q5]. split; cbn; try done; [by left|]. intros g Hg Hgg. destruct (Q5 g Hg Hgg) as [?|[?|(l2 & h & (h1 & c' & n' & l1 & _ & _ & _ & Hpos & _) & _)]]; [by left|by right; left|lia].
Qed.

(** ** The program between two slices *)

Context (malloc_ok : gc major → bool) (Hmalloc : ∀ s, malloc_ok s = true) (Hheap : ∀ a, in_block L a → Is_in_heap a = true).
Context {MH : MajorHeap major}.
Notation minv := (minv Is_in_heap Is_in_value_area caml_weak_list_head caml_weak_none L).
Notation ready := (ready Is_in_heap Is_in_value_area caml_weak_list_head L).
Notation mark_slice := (mark_slice_r realloc_ok malloc_ok Is_in_heap Is_in_value_area caml_weak_list_head caml_weak_none).

(** A value that the program can have: not a pointer to the major heap, or a
    pointer to a block that it reaches. *)
Definition known (rs : Z → Prop) (s : gc major) (v : Z) : Prop := inheap v = true → reach Is_in_heap L (strong rs (others (rest s))) (words s) (target L v).

(** The table of references has room, out of the heap. *)
Definition table_room (s : gc major) : Prop := let p := ptr (caml_ref_table s) in
  p < limit (caml_ref_table s) ∧ is_Some (words s !! p) ∧ outside p ∧ p ≠ caml_weak_list_head ∧ (∀ c n l, (c, n, l) ∈ H L → p ≠ c - 8 ∧ p ≠ c - 16) ∧ p ≠ Freelist.Fl_head (free_list (rest s)) ∧ p ≠ Freelist.Fl_head (free_list (rest s)) - 8.

Inductive step : (Z → Prop) * gc major → (Z → Prop) * gc major → Prop :=
  | step_slice rs s work fuel' s' : caml_gc_phase (rest s) = Phase_mark → mark_slice fuel' work s = inr (s', tt) → step (rs, s) (rs, s')
  | step_assign rs s b sz tg i v s' : caml_gc_phase (rest s) = Phase_mark → reach Is_in_heap L (strong rs (others (rest s))) (words s) b → B L !! b = Some (sz, tg) → tg < No_scan_tag → 0 <= i < sz →
      (∀ y w, I L !! y = Some w → y - 8 ≠ b + 8 * i) → known rs s v → (Is_block v = true → Is_in_value_area v = true → is_Some (words s !! (v - 8))) → table_room s →
      Modify realloc_ok Is_in_heap (b + 8 * i) v s = inr (s', tt) → step (rs, s) (rs, s')
  | step_roots rs rs' s : (∀ x, rs' x → known rs s x) → step (rs, s) (rs', s).

Definition good (rs : Z → Prop) (s : gc major) : Prop := (∃ ws n t, minv rs ws n t s) ∨ ready rs s.

Lemma mark_slice_more fuel' work s r : mark_slice fuel' work s = inr r → mark_slice (S fuel') work s = inr r.
Proof.
  revert work s. induction fuel' as [|fuel' IH]; intros work s.
  - cbn [mark_slice_r]. by destruct (0 <? work).
  - intros E. assert (mark_slice (S (S fuel')) work s = (if 0 <? work then mbnd (mark_step realloc_ok malloc_ok Is_in_heap Is_in_value_area caml_weak_list_head caml_weak_none work) (mark_slice (S fuel')) else mreturn tt) s) as -> by done.
    assert (mark_slice (S fuel') work s = (if 0 <? work then mbnd (mark_step realloc_ok malloc_ok Is_in_heap Is_in_value_area caml_weak_list_head caml_weak_none work) (mark_slice fuel') else mreturn tt) s) as E2 by done. rewrite E2 in E.
    destruct (0 <? work); [|done]. revert E. unfold mbnd. destruct (mark_step _ _ _ _ _ _ work s) as [|[s1 w]]; [done|]. apply IH.
Qed.

Lemma mark_slice_enough fuel' k work s r : mark_slice fuel' work s = inr r → mark_slice (k + fuel') work s = inr r.
Proof. intros E. induction k as [|k IH]; [done|]. by apply mark_slice_more. Qed.

Lemma slice_good rs s work fuel' s' : good rs s → caml_gc_phase (rest s) = Phase_mark → mark_slice fuel' work s = inr (s', tt) → good rs s'.
Proof.
  intros [(ws & n & t & HI)|Hr] Hp E; [|by rewrite (d_phase _ _ _ _ _ _ Hr) in Hp]. set (j := S (Z.to_nat (steps L n t s))). pose proof (mark_slice_enough fuel' j work s _ E) as E1.
  pose proof (mark_slice_run realloc_ok malloc_ok Is_in_heap Is_in_value_area caml_weak_list_head caml_weak_none L HL Hmalloc rs (j + fuel') ws n t work s HI ltac:(unfold j; lia)) as Hw. unfold wp in Hw. rewrite E1 in Hw.
  destruct Hw as [?|(ws' & n' & t' & H1 & _)]; [by right|left; by exists ws', n', t'].
Qed.

Lemma strong_roots rs rs' s : (∀ x, rs' x → known rs s x) → ∀ x, strong rs' (others (rest s)) x → inheap x = true → reach Is_in_heap L (strong rs (others (rest s))) (words s) (target L x).
Proof. intros Hk x [Hx|Hx] Hin; [by apply Hk|]. exists x. split; [by right|]. split; [done|]. apply rtc_refl. Qed.

Lemma roots_good rs rs' s : (∀ x, rs' x → known rs s x) → good rs s → good rs' s.
Proof.
  intros Hk [(ws & n & t & HS & HG & HQ)|[D1 D2 D3 D4 D5 D6 D7 D8]]; [left; exists ws, n, t; split; [done|split; [|done]]|right; split; try done]; (eapply roots_graph; [done|]); by apply strong_roots.
Qed.

Lemma outside_alike m a v : outside a → (∃ w, m !! a = Some w) → alike L m (<[a := v]> m).
Proof.
  intros Ha _. split.
  - intros w [[sz tg] Hw]. apply lookup_insert_ne. intros ->. apply Ha. exists w, sz, tg. pose proof (lo_size _ HL _ _ _ Hw). split; [done|lia].
  - intros w sz tg i Hw _ Hi. apply lookup_insert_ne. intros ->. apply Ha. exists w, sz, tg. split; [done|lia].
  - intros b Hb. apply lookup_insert_is_Some'. by right.
Qed.

(** A word of the table of references. *)
Lemma table_minv rs ws n t s p v tb : minv rs ws n t s → outside p → p ≠ caml_weak_list_head → (∀ c n l, (c, n, l) ∈ H L → p ≠ c - 8 ∧ p ≠ c - 16) → p ≠ Freelist.Fl_head (free_list (rest s)) → p ≠ Freelist.Fl_head (free_list (rest s)) - 8 → (∃ w, words s !! p = Some w) → minv rs ws n t (set_table Strong tb (set_words (<[p := v]> (words s)) s)).
Proof.
  intros HI Ho Hh Hc Hf1 Hf2 Hw. pose proof HI as [HS _]. pose proof (outside_alike (words s) p v Ho Hw) as Ha. destruct (v_weak _ _ _ _ _ _ _ _ _ HS) as [W1 W2 W3 W4 W5].
  assert (minv rs ws n t (put_mk (mk (rest s)) (set_words (<[p := v]> (words s)) s))) as HI'.
  { eapply alike_minv; try done; [|split; try done|apply HS|].
    - eapply chunks_ext; [|done|apply (v_link _ _ _ _ _ _ _ _ _ HS)]. intros c n' l Hin. destruct (Hc c n' l Hin). split; by apply lookup_insert_ne.
    - eapply weak_chain_ext; [by apply lookup_insert_ne| |exact W1]. intros w Hin. apply lookup_insert_ne. intros ->. apply Ho. destruct (weak_array_word _ _ _ _ _ _ (W2 w Hin)) as (sz & tg & H1 & _ & H3). exists w, sz, tg. split; [done|lia].
    - intros w Hin. destruct (W2 w Hin) as (sz & tg & G1 & G2 & G3 & G4 & G5). exists sz, tg. split_and!; [done..|unfold used, col, hdr; rewrite (a_hdr _ _ _ Ha) by eauto; exact G4|]. intros i x Hi Hx. rewrite lookup_insert_ne in Hx by (intros ->; apply Ho; exists w, sz, tg; split; [done|lia]).
      destruct (G5 i x Hi Hx) as [?|Hf]; [by left|right; by eapply alike_field_ok].
    - apply store_free; [apply HS|intros w Hb; unfold used; by rewrite (alike_col _ _ _ _ Ha)| |done|done]. intros w (sz & tg & Hb & Hin). destruct Ho. by exists w, sz, tg. }
  destruct HI' as [[V1 V2 V3 V4 V5 V6 V7] HG]. split; [by split|exact HG].
Qed.

Lemma assign_good rs s b sz tg i v s' : good rs s → caml_gc_phase (rest s) = Phase_mark → reach Is_in_heap L (strong rs (others (rest s))) (words s) b → B L !! b = Some (sz, tg) → tg < No_scan_tag → 0 <= i < sz →
  (∀ y w, I L !! y = Some w → y - 8 ≠ b + 8 * i) → known rs s v → (Is_block v = true → Is_in_value_area v = true → is_Some (words s !! (v - 8))) → table_room s → Modify realloc_ok Is_in_heap (b + 8 * i) v s = inr (s', tt) → good rs s'.
Proof.
  intros [(ws & n & t & HI)|Hr] Hp Hreach Hb Ht Hi Hinf Hk Hva (T1 & T0 & T2 & T3 & T4 & T5 & T6) E; [|by rewrite (d_phase _ _ _ _ _ _ Hr) in Hp]. left. exists ws, n, t. pose proof HI as [HS [HG HQ]].
  destruct (mo_field _ _ (g_mem _ _ _ _ _ _ HG) b sz tg i Hb Hi) as [x Hx]. cut (wp (Modify realloc_ok Is_in_heap (b + 8 * i) v) (λ _ s', minv rs ws n t s') s); [unfold wp; by rewrite E|]. clear E.
  unfold Modify. apply wp_bind. eapply wp_intro; [by apply ld_run|]. apply wp_bind. eapply wp_intro; [by apply (st_run s _ _ x)|]. rewrite Hheap by (exists b, sz, tg; split; [done|lia]). apply wp_bind. eapply wp_intro; [reflexivity|]. cbn [rest set_words]. rewrite Hp. cbn [Z.eqb]. set (s1 := set_words _ s).
  assert (field_ok Is_in_heap Is_in_value_area L (words s) v ∧ (inheap v = true → white (words s) (target L v) → protected Is_in_heap L (λ _, False) (words s) (target L v))) as [Hfv Hpv].
  { split.
    - intros E1. split; [|by apply Hva]. intros E2. destruct (reach_protected _ _ _ _ _ _ HG (Hk ltac:(unfold Marking.inheap; by rewrite E1, E2))) as (G1 & G2 & _). done.
    - intros Hin. by destruct (reach_protected _ _ _ _ _ _ HG (Hk Hin)) as (_ & _ & G3). }
  assert (ginv (strong rs (others (rest s))) (λ y, False ∨ y = x) s1) as HI1.
  { split; [eapply graph_pending; [|eapply (assign_graph _ _ L HL b sz tg i x v); done]; tauto|]. eapply marks_alike; [|exact HQ]. intros g Hg. unfold gray, s1. cbn [words set_words]. by rewrite (wr_col L HL b sz tg i). }
  apply wp_bind. eapply wp_conseq; [apply (darken_run realloc_ok realloc_ok Is_in_heap Is_in_value_area L HL _ (λ _, False) x 0 s1 HI1)|].
  { intros Hin. destruct (inheap_split _ _ Hin) as [E1 E2]. destruct (reach_protected _ _ _ _ _ _ HG Hreach) as (_ & Hu & _). destruct (g_field _ _ _ _ _ _ HG b x Hu) as [Hv _]; [exists sz, tg, i; done|done|]. destruct (Hv E2) as [V1 V2]. split; [done|]. by apply (wr_used L HL b sz tg i). }
  intros [] s2 (HI2 & Hm2 & Hk2). assert (minv rs ws n t s2) as Hmin2.
  { split; [|by rewrite (moved_others _ _ Hm2)]. eapply moved_shape; [done|exact HS|eapply mmoved_trans; [apply (moved_words s)|exact Hm2]|]. eapply mkeeps_trans; [|exact Hk2]. eapply wr_keeps; [done..|]. by destruct (reach_protected _ _ _ _ _ _ HG Hreach) as (_ & Hu & _). }
  apply wp_bind. eapply wp_intro; [reflexivity|]. destruct (_ && _); [|by apply wp_ret].
  assert (caml_ref_table s2 = caml_ref_table s) as Et by (destruct Hm2 as [-> _]; done). unfold add_to_ref_table. apply wp_bind. eapply wp_intro; [reflexivity|]. rewrite Et, (proj2 (Z.leb_gt _ _) T1). apply wp_bind, wp_ret. apply wp_bind. eapply wp_intro; [reflexivity|]. rewrite Et.
  assert (is_Some (words s2 !! ptr (caml_ref_table s))) as [y Hy] by (apply (k_dom _ _ _ Hk2); cbn; apply lookup_insert_is_Some'; by right). apply wp_bind. eapply wp_intro; [by apply (st_run s2 _ _ y)|]. eapply wp_intro; [reflexivity|]. assert (free_list (rest s2) = free_list (rest s)) as El by (destruct Hm2 as [-> _]; done). apply table_minv; rewrite ?El; try done. by exists y.
Qed.

Lemma step_good p q : step p q → good p.1 p.2 → good q.1 q.2.
Proof.
  intros [rs s work fuel' s' Hp E|rs s b sz tg i v s' Hp Hr Hb Ht Hi Hinf Hk Hva Ht' E|rs rs' s Hk] Hg; cbn in *; [by eapply slice_good|by eapply assign_good|by eapply roots_good].
Qed.
End Start.

Lemma rtc_ind_inv {A} (R : relation A) (P : A → Prop) x y : (∀ x y, R x y → P x → P y) → rtc R x y → P x → P y.
Proof. intros HP. induction 1 as [|x y z Hxy _ IH]; eauto. Qed.

(** C1. The marking phase of the major collector is incremental: between two
    slices of any size the program stores values in its blocks, through the
    write barrier [Modify], and changes its roots.  From the start of a cycle
    ([start_cycle_r]), whatever the sequence of slices and of actions of the
    program, and even when the stack of gray blocks overflows, when the sweep
    phase begins every block that the program reaches is black: the sweeper
    does not free it. *)
Theorem marking_safe realloc_ok malloc_ok Is_in_heap Is_in_value_area caml_global_data caml_weak_list_head caml_weak_none (MH : MajorHeap major) L fuel k n lc ws s :
  lay_ok L → (∀ s, malloc_ok s = true) → (∀ a, in_block L a → Is_in_heap a = true) →
  idle Is_in_heap Is_in_value_area L caml_global_data caml_weak_list_head caml_weak_none fuel k n lc ws s →
  wp (start_cycle_r realloc_ok Is_in_heap caml_global_data fuel) (λ _ s1, ∀ rs s2,
    rtc (step realloc_ok Is_in_heap Is_in_value_area L caml_weak_list_head caml_weak_none malloc_ok) (root_values caml_global_data k lc s, s1) (rs, s2) →
    caml_gc_phase (rest s2) = Phase_mark ∨
    caml_gc_phase (rest s2) = Phase_sweep ∧ ∀ b, reach Is_in_heap L (strong rs (others (rest s2))) (words s2) b → is_Some (B L !! b) ∧ black (words s2) b) s.
Proof.
  intros HL Hm Hh Hz. eapply wp_conseq; [by eapply start_cycle_run|]. intros [] s1 HI rs s2 Hr.
  assert (good Is_in_heap Is_in_value_area L caml_weak_list_head caml_weak_none rs s2) as [(ws' & n' & t' & HS & _)|Hd].
  { change (good Is_in_heap Is_in_value_area L caml_weak_list_head caml_weak_none (rs, s2).1 (rs, s2).2). apply (rtc_ind_inv _ _ _ _ (step_good realloc_ok Is_in_heap Is_in_value_area L HL caml_weak_list_head caml_weak_none malloc_ok Hm Hh) Hr). left. by exists ws, (2 * Z.of_nat (length ws) + 4), 0. }
  - left. apply HS.
  - right. split; [apply Hd|]. intros b Hb. by eapply reach_black; [apply Hd|apply Hd|].
Qed.

(** A bound on the measure at the start of a cycle. *)
Lemma start_steps Is_in_heap Is_in_value_area caml_weak_list_head caml_weak_none L rs ws s : minv Is_in_heap Is_in_value_area caml_weak_list_head caml_weak_none L rs ws (2 * Z.of_nat (length ws) + 4) 0 s →
  steps L (2 * Z.of_nat (length ws) + 4) 0 s < (2 * Z.of_nat (length ws) + 5) * ((Z.of_nat (stdpp.base.size (dom (B L))) + 1) * (2 * wl L + 2)).
Proof.
  intros HI. pose proof (unmarked_bound L (words s)) as Hu. destruct (steps_bound _ _ _ _ _ _ _ _ _ _ HI) as [P1 P2]. unfold steps. set (K := 2 * wl L + 2) in *. set (N := Z.of_nat (stdpp.base.size (dom (B L)))) in *. set (M := (N + 1) * K) in *. assert (unmarked L (words s) * K + pace L (mk (rest s)) 0 < M) by (unfold M; nia). lia.
Qed.

(** C5. Marking ends: from a heap with [N] blocks in chunks of [wl] blocks and
    chunk ends in all, and a list of weak arrays [ws], the loop of
    [caml_finish_major_cycle_r] that marks returns, within a number of steps
    that the sizes bound; the sweep phase then begins. *)
Theorem marking_ends realloc_ok malloc_ok Is_in_heap Is_in_value_area caml_global_data caml_weak_list_head caml_weak_none L fuel j k n lc ws s :
  lay_ok L → (∀ s, malloc_ok s = true) →
  idle Is_in_heap Is_in_value_area L caml_global_data caml_weak_list_head caml_weak_none fuel k n lc ws s →
  (2 * Z.of_nat (length ws) + 5) * ((Z.of_nat (stdpp.base.size (dom (B L))) + 1) * (2 * wl L + 2)) <= Z.of_nat j →
  wp (start_cycle_r realloc_ok Is_in_heap caml_global_data fuel ;;; mark_all realloc_ok malloc_ok Is_in_heap Is_in_value_area caml_weak_list_head caml_weak_none j j)
    (λ _ s2, caml_gc_phase (rest s2) = Phase_sweep ∧ gray_vals (mk (rest s2)) = [] ∧
      ∀ b, is_Some (B L !! b) → ¬ gray (words s2) b ∧ (reach Is_in_heap L (strong (root_values caml_global_data k lc s) (others (rest s2))) (words s2) b → black (words s2) b)) s.
Proof.
  intros HL Hm Hz Hj. apply wp_bind. eapply wp_conseq; [by eapply start_cycle_run|]. intros [] s1 HI. pose proof (start_steps _ _ _ _ _ _ _ _ HI). assert (steps L (2 * Z.of_nat (length ws) + 4) 0 s1 < Z.of_nat j) as Hlt by lia.
  eapply wp_conseq; [by eapply mark_all_run|]. intros [] s2 Hd. split_and!; [apply Hd..|]. intros b Hb. split; [by apply Hd|]. intros Hr. eapply reach_black; [apply Hd|apply Hd|done].
Qed.
(** ** An example

    One chunk at 1000: the block at 1008 points to the block at 1032, the
    block at 1048 is garbage, and that at 1064 is free. *)
Definition ex_lay : lay := Lay {[1008 := (2, 0); 1032 := (1, 0); 1048 := (1, 0); 1064 := (2, 0)]} ∅ [(1000, 80, [1008; 1032; 1048; 1064])].
Definition ex_in_heap (a : Z) : bool := (1000 <=? a) && (a <? 1080).
Definition ex_words : gmap Z Z := list_to_map [(392, Make_header 0 0 Caml_blue); (400, 1064); (500, 1008); (510, 0); (984, 80); (992, 0); (1000, Make_header 2 0 Caml_white); (1008, 1032); (1016, 1);
  (1024, Make_header 1 0 Caml_white); (1032, 1); (1040, Make_header 1 0 Caml_white); (1048, 1008); (1056, Make_header 2 0 Caml_blue); (1064, 0); (1072, 0)].
Definition ex_fl : Freelist.fl := Freelist.Fl ∅ 400 400 0 400 3 0 [] 0 0 Freelist.Policy_next_fit 0.
Definition ex_table : caml_minor_ref_table := RefTable 2000 2080 2064 2000 2064 8 2.
Definition ex_state : gc major :=
  Gc ex_words (Young 0 0 0 0 0) ex_table ex_table 0 0 (Roots 600 600 0 0 0 0) (Stats 0 0 0 0 0 0 0)
    (Major (Marker [] 2 1 0 0 0 Subphase_final 0) Phase_idle ex_fl (Other [] [] [] []) 1000 80 0 0).

#[local] Instance ex_major_heap : MajorHeap major := {|
  MinorGc.caml_alloc_shr_r := λ _ _, mfail Fatal_out_of_memory;
  MinorGc.Is_in_value_area := λ _, ex_in_heap;
  caml_major_collection_slice_r := λ _, mreturn tt;
  caml_page_table_add_r := λ _ _ _, mreturn 0;
  caml_page_table_remove_r := λ _ _ _, mreturn 0;
  caml_aligned_malloc := λ _, mfail Fatal_out_of_memory;
  free := λ _, mreturn tt;
  caml_stat_alloc := λ _, mfail Fatal_out_of_memory;
  realloc := λ _ _, mfail Fatal_out_of_memory;
  caml_scan_global_young_roots_r := λ _, mreturn tt;
  caml_scan_roots_hook := λ _, mreturn tt;
  caml_final_do_calls_r := mreturn tt;
  MinorGc.caml_weak_none := 520
|}.

Lemma ex_lay_blocks v sz tg : B ex_lay !! v = Some (sz, tg) → (v = 1008 ∧ sz = 2 ∨ v = 1032 ∧ sz = 1 ∨ v = 1048 ∧ sz = 1 ∨ v = 1064 ∧ sz = 2) ∧ tg = 0.
Proof.
  cbn. intros Hv. repeat (apply lookup_insert_Some in Hv as [[<- [= <- <-]]|[_ Hv]]; [tauto|]). apply lookup_singleton_Some in Hv as [<- [= <- <-]]. tauto.
Qed.

Lemma ex_chunk c n l : (c, n, l) ∈ H ex_lay → c = 1000 ∧ n = 80 ∧ l = [1008; 1032; 1048; 1064].
Proof. intros Hin. apply list_elem_of_singleton in Hin. by injection Hin as -> -> ->. Qed.

Lemma ex_lay_ok : lay_ok ex_lay.
Proof.
  split.
  - intros v sz tg Hv. apply ex_lay_blocks in Hv as [Hv ->]. split_and!; [lia|done|done].
  - intros v sz tg w sz' tg' Hv Hw. apply ex_lay_blocks in Hv as [Hv _]. apply ex_lay_blocks in Hw as [Hw _]. lia.
  - intros x v Hx. done.
  - intros c n l Hin. apply ex_chunk in Hin as (-> & -> & ->). split_and!; [lia| |..].
    + cbn. repeat (split; [lia|]; eexists _, _; split; [reflexivity|]). lia.
    + intros (v & sz & tg & Hv & Ha). apply ex_lay_blocks in Hv as [Hv _]. lia.
    + intros (v & sz & tg & Hv & Ha). apply ex_lay_blocks in Hv as [Hv _]. lia.
  - intros v [[sz tg] Hv]. apply ex_lay_blocks in Hv as [Hv _]. exists 1000, 80, [1008; 1032; 1048; 1064]. split; [left|]. rewrite !elem_of_cons. lia.
Qed.

Lemma ex_free_ok : free_ok 510 ex_lay ex_words ex_fl.
Proof.
  assert (free_blocks ex_lay ex_words (blocks_of (H ex_lay)) = [(1064, 2)]) as E by by vm_compute. split; [rewrite E; split; try done|..].
  - split; [|by vm_compute]. split; [by vm_compute|]. split; [|done]. exists (Make_header 2 0 Caml_blue). split_and!; by vm_compute.
  - intros b z Hin. apply list_elem_of_singleton in Hin. injection Hin as -> ->. left. by vm_compute.
  - by left.
  - by left.
  - intros v sz tg Hv. apply ex_lay_blocks in Hv as [Hv _]. cbn. lia.
  - done.
  - intros c n l Hin. apply ex_chunk in Hin as (-> & -> & ->). cbn. lia.
Qed.

Lemma ex_idle fuel : (0 < fuel)%nat → idle ex_in_heap ex_in_heap ex_lay 500 510 520 fuel 0 0 [] [] ex_state.
Proof.
  intros Hfuel. split; try exact ex_free_ok; try done.
  - split.
    + intros v sz tg Hv. apply ex_lay_blocks in Hv as [[[-> ->]|[[-> ->]|[[-> ->]|[-> ->]]]] ->]; (eexists; split; [vm_compute; reflexivity|]); split_and!; try done; unfold word, W; lia.
    + intros v sz tg i Hv Hi. apply ex_lay_blocks in Hv as [Hv _]. assert (v + 8 * i ∈ [1008; 1016; 1032; 1048; 1064; 1072]) as Hin by (rewrite !elem_of_cons; lia). revert Hin. generalize (v + 8 * i). intros a. rewrite !elem_of_cons, elem_of_nil. intros [->|[->|[->|[->|[->|[->|[]]]]]]]; vm_compute; eauto.
    + done.
  - intros v [[sz tg] Hv]. apply ex_lay_blocks in Hv as [[[-> ->]|[[-> ->]|[[-> ->]|[-> ->]]]] _]; [by left..|right]. intros Hu. by apply Hu.
  - intros v x Hu (sz & tg & i & Hv & _ & Hi & Hx). apply ex_lay_blocks in Hv as [Hv _]. assert (v ≠ 1064) as Hne by (intros ->; by apply Hu). assert (v + 8 * i ∈ [1008; 1016; 1032; 1048]) as Hin by (rewrite !elem_of_cons; lia). revert Hin Hx. generalize (v + 8 * i). intros a. rewrite !elem_of_cons, elem_of_nil.
    assert (∀ y, y = 1032 ∨ y = 1008 → field_ok ex_in_heap ex_in_heap ex_lay (words ex_state) y) as Hok by (intros y [->| ->] _; split; intros _; [split; [vm_compute; eauto|done]|vm_compute; eauto|split; [vm_compute; eauto|done]|vm_compute; eauto]).
    intros [->|[->|[->|[->|[]]]]] Hx; vm_compute in Hx; injection Hx as <-; first [apply Hok; tauto|by intros ?].
  - split; [constructor|lia].
  - intros a Ha. apply list_elem_of_singleton in Ha as ->. split; [|vm_compute; eauto]. intros (v & sz & tg & Hv & Ha). apply ex_lay_blocks in Hv as [Hv _]. lia.
  - intros x [(a & ->%list_elem_of_singleton & Hx)|[(f & Hf & _)|(q & f & Hq & _)]]; [|by apply elem_of_nil in Hf|by apply elem_of_nil in Hq]. vm_compute in Hx. injection Hx as <-. intros _. split; [vm_compute; eauto|done].
  - intros f Hf. by apply elem_of_nil in Hf.
  - split; [|done]. split; [done|]. split; [by vm_compute|]. exists 0. split; [by vm_compute|done].
  - split.
    + by vm_compute.
    + by intros w ?%elem_of_nil.
    + constructor.
    + intros (v & sz & tg & Hv & Ha). apply ex_lay_blocks in Hv as [Hv _]. lia.
    + intros c n l Hin. apply ex_chunk in Hin as (-> & -> & ->). lia.
Qed.

(** The two live blocks are black when the sweep starts, the others keep
    their colours. *)
Example ex_marked : match (start_cycle_r (λ _, false) ex_in_heap 500 2 ;;; mark_slice_r (λ _, false) (λ _, true) ex_in_heap ex_in_heap 510 520 30 100) ex_state with
  | inr (s, _) => caml_gc_phase (rest s) = Phase_sweep ∧ map (col (words s)) [1008; 1032; 1048; 1064] = [Caml_black; Caml_black; Caml_white; Caml_blue]
  | inl _ => False end.
Proof. vm_compute. done. Qed.

Lemma ex_in_block a : in_block ex_lay a → ex_in_heap a = true.
Proof. intros (v & sz & tg & Hv & Ha). apply ex_lay_blocks in Hv as [Hv _]. unfold ex_in_heap. apply andb_true_iff. rewrite Z.leb_le, Z.ltb_lt. lia. Qed.

Lemma marking_safe_witness : idle ex_in_heap ex_in_heap ex_lay 500 510 520 2 0 0 [] [] ex_state ∧
  wp (start_cycle_r (λ _, false) ex_in_heap 500 2) (λ _ s1, ∀ rs s2,
    rtc (step (λ _, false) ex_in_heap ex_in_heap ex_lay 510 520 (λ _, true)) (root_values 500 0 [] ex_state, s1) (rs, s2) →
    caml_gc_phase (rest s2) = Phase_mark ∨
    caml_gc_phase (rest s2) = Phase_sweep ∧ ∀ b, reach ex_in_heap ex_lay (strong rs (others (rest s2))) (words s2) b → is_Some (B ex_lay !! b) ∧ black (words s2) b) ex_state.
Proof. split; [apply ex_idle; lia|]. apply (marking_safe (λ _, false) (λ _, true) ex_in_heap ex_in_heap 500 510 520 ex_major_heap ex_lay 2 0 0 [] [] ex_state ex_lay_ok); [done|exact ex_in_block|apply ex_idle; lia]. Defined.

Lemma marking_ends_witness :
  wp (start_cycle_r (λ _, false) ex_in_heap 500 2 ;;; mark_all (λ _, false) (λ _, true) ex_in_heap ex_in_heap 510 520 300 300)
    (λ _ s2, caml_gc_phase (rest s2) = Phase_sweep ∧ gray_vals (mk (rest s2)) = [] ∧
      ∀ b, is_Some (B ex_lay !! b) → ¬ gray (words s2) b ∧ (reach ex_in_heap ex_lay (strong (root_values 500 0 [] ex_state) (others (rest s2))) (words s2) b → black (words s2) b)) ex_state.
Proof. apply (marking_ends (λ _, false) (λ _, true) ex_in_heap ex_in_heap 500 510 520 ex_lay 2 300 0 0 [] [] ex_state ex_lay_ok); [done|apply ex_idle; lia|by vm_compute]. Defined.

End Snapshot.
