(* ===== verification/Sweep.v ===== *)
(** The sweeper of the major heap ([sweep_slice_r] of byterun/major_gc.c):
    blocks left white are given back to the free list, black blocks become
    white again. *)

From stdpp Require Import relations.
From S2P Require Import Prelude Mlvalues Freelist MinorGc MajorGc Marking Snapshot.

Module Sweep.
Import MinorGc MajorGc Marking.

(** ** Facts on the free list *)

Lemma fl_inv_sweep x f l : Freelist.fl_inv f l → Freelist.fl_inv (set_sweep_hp x f) l.
Proof. intros []. by split. Qed.

Lemma sorted_from_above lo lo' l : (∀ b z, (b, z) ∈ l → lo' <= Freelist.Hd_bp b) → Freelist.sorted_from lo l → Freelist.sorted_from lo' l.
Proof. destruct l as [|[b z] l]; [done|]. cbn. intros Hb (H1 & H2 & H3). split_and!; [apply (Hb b z); left|lia|lia|done]. Qed.

Lemma total_top lo l : Freelist.sorted_from lo l → lo + 8 * Freelist.total l <= Freelist.top lo l.
Proof.
  revert lo. induction l as [|[b z] l IH]; intros lo; cbn; [lia|]. intros (H1 & H2 & H3). specialize (IH _ H3). unfold Freelist.Hd_bp, Whsize_wosize in *. lia.
Qed.

Lemma top_bound lo hi l : lo <= hi → (∀ b z, (b, z) ∈ l → b + 8 * z <= hi) → Freelist.top lo l <= hi.
Proof.
  revert lo. induction l as [|[b z] l IH]; intros lo Hlo Hl; cbn; [done|]. apply IH; [apply Hl; left|]. intros b' z' Hin. apply Hl. by right.
Qed.

Lemma covered_top lo l a : Freelist.sorted_from lo l → Freelist.covered l a → lo <= a < Freelist.top lo l.
Proof. intros Hs (b & z & Hin & Ha)%covered_in. destruct (Freelist.sorted_elem _ _ _ _ Hs Hin) as (H1 & H2 & H3). lia. Qed.

(** The sweeper moves [caml_fl_merge] to a block of the list. *)
Lemma fl_inv_merge f l v : Freelist.fl_inv f l → v ∈ l.*1 → Freelist.fl_inv (Freelist.set_caml_fl_merge v f) l.
Proof. intros [] Hv. split; try done. by right. Qed.

Lemma fl_of_eta s f : fl_of (set_words (Freelist.mem f) (set_rest (set_free_list f (rest s)) s)) = f.
Proof. by destruct f. Qed.

Lemma lift_fl_run {A} (c : M Freelist.fl fault A) (Q : A → gc major → Prop) s :
  wp c (λ x f, Q x (set_words (Freelist.mem f) (set_rest (set_free_list f (rest s)) s))) (fl_of s) → wp (lift_fl c) Q s.
Proof. unfold wp, lift_fl. by destruct (c (fl_of s)) as [|[f x]]. Qed.

Lemma wosize_max hd : word hd → 0 <= Wosize_hd hd <= Max_wosize.
Proof.
  intros [H1 H2]. unfold Wosize_hd, Max_wosize. rewrite Z.shiftr_div_pow2 by lia. rewrite W_pow in H2. split; [by apply Z.div_pos|].
  assert (hd / 2 ^ 10 < 2 ^ 54) by (apply Z.div_lt_upper_bound; [done|]; change (2 ^ 10 * 2 ^ 54) with (2 ^ 64); lia). lia.
Qed.

(** The chunks are sorted by address, from [lo] on. *)
Fixpoint ordered (lo : Z) (h : list (Z * Z * list Z)) : Prop :=
  match h with
  | [] => True
  | (c, n, _) :: h => lo < c ∧ ordered (c + n) h
  end.

Lemma tiles_elem (b : gmap Z (Z * Z)) : (∀ v sz tg, b !! v = Some (sz, tg) → 0 <= sz) → ∀ l from till v, tiles b from till l → v ∈ l → ∃ sz tg, b !! v = Some (sz, tg) ∧ from <= v - 8 ∧ v + 8 * sz <= till.
Proof.
  intros Hsz. induction l as [|w l IH]; intros from till v; [by intros _ ?%elem_of_nil|]. cbn [tiles]. intros (-> & sz & tg & Hb & Ht) [->|Hin]%elem_of_cons.
  - exists sz, tg. pose proof (tiles_le b l Hsz _ _ Ht). split_and!; [done|lia|lia].
  - destruct (IH _ _ _ Ht Hin) as (sz' & tg' & H1 & H2 & H3). exists sz', tg'. pose proof (Hsz _ _ _ Hb). split_and!; [done|lia|lia].
Qed.

Section Sweeping.
Context (L : lay) (HL : lay_ok L) (custom_finalize : Z → XM unit).
(** The memory and the sentinel at the start of the sweep. *)
Context (m0 : gmap Z Z) (o0 : other_roots) (head start : Z).

(** The heap when the sweep starts: nothing is gray, the chunks are sorted,
    and the sentinel is not in them. *)
Record sweepable : Prop := {
  h_mem : mem_ok L m0;
  h_nogray v : is_Some (B L !! v) → ¬ gray m0 v;
  h_link : linked m0 start (H L);
  h_order : ordered 8 (H L);
  h_end c n l : (c, n, l) ∈ H L → c + n <= W;
  h_head v sz tg : B L !! v = Some (sz, tg) → head + 16 <= v - 8 ∨ v + 8 * sz <= head - 16;
  h_chunk c n l : (c, n, l) ∈ H L → c - 8 ≠ head ∧ c - 8 ≠ head - 8 ∧ c - 16 ≠ head ∧ c - 16 ≠ head - 8
}.

Context (HS : sweepable).
Notation inside := (inside L).
Notation free_blocks := (free_blocks L).

Lemma inside_head v a : inside v a → a ≠ head ∧ a ≠ head - 8.
Proof. intros (sz & tg & Hv & Ha). destruct (h_head HS _ _ _ Hv); lia. Qed.

Lemma free_cons m v l : free_blocks m (v :: l) = match (if col m v =? Caml_blue then (λ x, (v, x.1)) <$> B L !! v else None) with Some x => x :: free_blocks m l | None => free_blocks m l end.
Proof. done. Qed.

Lemma free_skip m v l : used m v → free_blocks m (v :: l) = free_blocks m l.
Proof. intros Hu. rewrite free_cons. unfold used in Hu. by rewrite (proj2 (Z.eqb_neq _ _)). Qed.

Lemma free_take m v sz tg l : ¬ used m v → B L !! v = Some (sz, tg) → free_blocks m (v :: l) = (v, sz) :: free_blocks m l.
Proof. intros Hu Hb. rewrite free_cons. destruct (Z.eqb_spec (col m v) Caml_blue) as [|Hc]; [by rewrite Hb|by destruct Hu]. Qed.

Lemma block_sizes v sz tg : B L !! v = Some (sz, tg) → 0 <= sz <= Max_wosize.
Proof. intros Hv. destruct (mo_hdr _ _ (h_mem HS) _ _ _ Hv) as (hd & _ & Hw & <- & _). by apply wosize_max. Qed.

Lemma block_tiles from till l v : tiles (B L) from till l → v ∈ l → ∃ sz tg, B L !! v = Some (sz, tg) ∧ from <= v - 8 ∧ v + 8 * sz <= till.
Proof. apply tiles_elem. intros w sz tg Hw. by apply block_sizes in Hw as [? _]. Qed.

Lemma block_end v sz tg : B L !! v = Some (sz, tg) → v + 8 * sz <= W.
Proof.
  intros Hv. destruct (lo_all _ HL v) as (c & n & l & Hin & Hl); [eauto|]. destruct (lo_chunk _ HL _ _ _ Hin) as (_ & Ht & _). destruct (block_tiles _ _ _ _ Ht Hl) as (sz' & tg' & E & _ & He). rewrite Hv in E. injection E as <- <-. pose proof (h_end HS _ _ _ Hin). lia.
Qed.

(** The blocks of the chunks after [lo]. *)
Lemma later_low h lo v : ordered lo h → (∀ x, x ∈ h → x ∈ H L) → v ∈ blocks_of h → is_Some (B L !! v) ∧ lo < v - 8.
Proof.
  revert lo. induction h as [|[[c n] l] h IH]; intros lo; cbn [ordered]; [by intros _ _ ?%elem_of_nil|]. intros [Hlo Ho] Hin. destruct (lo_chunk _ HL c n l) as (_ & Ht & _); [apply Hin; left|]. unfold blocks_of. cbn. intros [Hv|Hv]%elem_of_app.
  - destruct (block_tiles _ _ _ _ Ht Hv) as (sz & tg & Hb & H1 & H2). split; [eauto|lia].
  - assert (c <= c + n) by (pose proof (walk_tiles L HL _ _ _ Ht); lia). destruct (IH _ Ho (λ x Hx, Hin x (list_elem_of_further _ _ _ Hx)) Hv). split; [done|lia].
Qed.

Lemma ordered_app lo h1 c n l h : ordered lo (h1 ++ (c, n, l) :: h) → ordered (c + n) h.
Proof. revert lo. induction h1 as [|[[c' n'] l'] h1 IH]; intros lo; cbn; [by intros [_ ?]|]. intros [_ Ho]. by eapply IH. Qed.

Abbreviation hp s := (Freelist.caml_gc_sweep_hp (free_list (rest s))).

(** The sweeper is at [hp], in a chunk, before the blocks [l2]; the chunks [h]
    follow. *)
Definition sweep_at (p : Z) (k : marker) (l2 : list Z) (h : list (Z * Z * list Z)) : Prop :=
  ∃ h1 c n l1, H L = h1 ++ (c, n, l1 ++ l2) :: h ∧ mark_chunk k = c ∧ mark_limit k = c + n ∧ tiles (B L) p (c + n) l2.

Definition todo (l2 : list Z) (h : list (Z * Z * list Z)) : list Z := l2 ++ blocks_of h.

Lemma sweep_low p k l2 h v : sweep_at p k l2 h → v ∈ todo l2 h → is_Some (B L !! v) ∧ p <= v - 8.
Proof.
  intros (h1 & c & n & l1 & EH & _ & _ & Ht) [Hv|Hv]%elem_of_app.
  - destruct (block_tiles _ _ _ _ Ht Hv) as (sz & tg & Hb & H1 & H2). eauto.
  - pose proof (h_order HS) as Ho. rewrite EH in Ho. apply ordered_app in Ho. destruct (later_low h (c + n) v Ho) as [H1 H2]; [|done|split; [done|]].
    + intros x Hx. rewrite EH. apply elem_of_app. right. by right.
    + pose proof (walk_tiles L HL _ _ _ Ht). lia.
Qed.

(** The words that may have changed: those of the dead blocks that have been
    swept and those of the free blocks. *)
Definition touched (td : list Z) (a : Z) : Prop := ∃ v, inside v a ∧ ¬ black m0 v ∧ (v ∉ td ∨ ¬ used m0 v).

(** The word at [p - 8] is an empty block that was swept last. *)
Definition fragment (td : list Z) (p1 : list (Z * Z)) (m : gmap Z Z) (p : Z) : Prop :=
  (∃ hf, m !! (p - 8) = Some hf ∧ word hf ∧ Wosize_hd hf = 0) ∧ Freelist.top 8 p1 <= p - 8 ∧ (head + 16 <= p - 8 ∨ p <= head - 16) ∧
  ∀ a, p - 8 <= a < p → ∃ v, inside v a ∧ ¬ black m0 v ∧ v ∉ td.

(** The invariant of the sweep: [p1] are the free blocks before [hp]. *)
Record sinv (l2 : list Z) (h : list (Z * Z * list Z)) (p1 : list (Z * Z)) (s : gc major) : Prop := {
  s_phase : caml_gc_phase (rest s) = Phase_sweep;
  s_others : others (rest s) = o0;
  s_at : sweep_at (hp s) (mk (rest s)) l2 h;
  s_free : Freelist.fl_inv (fl_of s) (p1 ++ free_blocks m0 (todo l2 h));
  s_head : Freelist.Fl_head (free_list (rest s)) = head;
  s_merge : Freelist.caml_fl_merge (free_list (rest s)) = Freelist.last_bp head p1;
  s_top : Freelist.top 8 p1 <= hp s;
  s_frag : Freelist.last_fragment (free_list (rest s)) <= hp s ∧ (Freelist.last_fragment (free_list (rest s)) = hp s → fragment (todo l2 h) p1 (words s) (hp s));
  s_same a : ¬ touched (todo l2 h) a → (∀ v, is_Some (B L !! v) → black m0 v → v ∉ todo l2 h → a ≠ v - 8) → a ≠ head → a ≠ head - 8 → words s !! a = m0 !! a;
  s_white v : is_Some (B L !! v) → black m0 v → v ∉ todo l2 h → words s !! (v - 8) = Whitehd_hd <$> m0 !! (v - 8);
  s_cov a : Freelist.covered p1 a → ∃ v, inside v a ∧ ¬ black m0 v ∧ v ∉ todo l2 h;
  s_all v sz tg a : B L !! v = Some (sz, tg) → 1 <= sz → ¬ black m0 v → v ∉ todo l2 h → v - 8 <= a < v + 8 * sz → Freelist.covered p1 a
}.

(** *** Consequences *)

Lemma black_used m v : black m v → used m v.
Proof. unfold black, used. by intros ->. Qed.

Lemma cov_touched l2 h p1 s a : sinv l2 h p1 s → Freelist.covered (p1 ++ free_blocks m0 (todo l2 h)) a → touched (todo l2 h) a.
Proof.
  intros Hi [Hc|Hc]%covered_app; [destruct (s_cov _ _ _ _ Hi a Hc) as (v & H1 & H2 & H3); exists v; tauto|]. destruct (free_covered _ _ _ _ Hc) as (v & H1 & H2 & H3). exists v. split_and!; [done| |tauto]. intros Hb. by apply H2, black_used.
Qed.

(** A word of a block that is still to be swept. *)
Lemma todo_word l2 h p1 s v a : sinv l2 h p1 s → v ∈ todo l2 h → used m0 v → inside v a → words s !! a = m0 !! a.
Proof.
  intros Hi Hv Hu Ha. destruct (inside_head v a Ha) as [Hh1 Hh2]. apply (s_same _ _ _ _ Hi); [| |done..].
  - intros (w & Hw & _ & [Hn|Hn]); rewrite (inside_eq L HL _ _ _ Hw Ha) in Hn; done.
  - intros w [[sz tg] Hw] _ Hn ->. apply Hn. rewrite <- (inside_eq L HL v w (w - 8)); [done|done|]. exists sz, tg. split; [done|]. pose proof (block_sizes _ _ _ Hw). lia.
Qed.

Lemma sweep_next p k v l2 h : sweep_at p k (v :: l2) h → v = p + 8 ∧ v - 8 < mark_limit k ∧ ∃ sz tg, B L !! v = Some (sz, tg) ∧ sweep_at (v + 8 * sz) k l2 h ∧ v ∉ todo l2 h.
Proof.
  intros (h1 & c & n & l1 & EH & E1 & E2 & Ht). destruct Ht as (-> & sz & tg & Hb & Ht). pose proof (block_sizes _ _ _ Hb) as Hsz. pose proof (walk_tiles L HL _ _ _ Ht).
  assert (sweep_at (p + 8 + 8 * sz) k l2 h) as Hat by (exists h1, c, n, (l1 ++ [p + 8]); rewrite <- app_assoc; done). split_and!; [done|lia|]. exists sz, tg. split_and!; [done..|]. intros Hv. destruct (sweep_low _ _ _ _ _ Hat Hv). lia.
Qed.

Lemma touched_mono td td' a : (∀ v, v ∈ td' → v ∈ td) → touched td a → touched td' a.
Proof. intros Hs (v & H1 & H2 & H3). exists v. split_and!; [done..|]. destruct H3 as [H3|H3]; [left; by intros ?%Hs|by right]. Qed.

Definition put_fl (f : Freelist.fl) (s : gc major) : gc major := set_rest (set_free_list f (rest s)) s.

(** *** A free block *)

Lemma free_swept v l2 h p1 s sz tg : sinv (v :: l2) h p1 s → B L !! v = Some (sz, tg) → ¬ used m0 v →
  sinv l2 h (p1 ++ [(v, sz)]) (put_fl (Freelist.set_caml_fl_merge v (set_sweep_hp (v + 8 * sz) (free_list (rest s)))) s).
Proof.
  intros [S1 So S2 S3 S4 S5 S6 [S7 S7'] S8 S9 S10 S11] Hb Hu. destruct (sweep_next _ _ _ _ _ S2) as (Ev & Hlim & sz' & tg' & Hb' & Hat & Hni). rewrite Hb in Hb'. injection Hb' as <- <-. pose proof (block_sizes _ _ _ Hb) as Hsz.
  change (todo (v :: l2) h) with (v :: todo l2 h) in *. rewrite (free_take _ _ _ _ _ Hu Hb) in S3. assert (¬ black m0 v) as Hnb by (intros ?%black_used; done).
  assert (∀ w, w ∈ todo l2 h → w ∈ v :: todo l2 h) as Hmono by (intros w; by right). split; cbn; try done.
  - rewrite <- app_assoc. apply (fl_inv_merge (set_sweep_hp (v + 8 * sz) (fl_of s))); [by apply fl_inv_sweep|]. rewrite fmap_app. apply elem_of_app. right. left.
  - by rewrite Freelist.last_bp_app.
  - rewrite Freelist.top_app. cbn. lia.
  - split; lia.
  - intros a Ha Hk. apply S8; [intros Ht; by apply Ha; eapply touched_mono|]. intros w H1 H2 H3. apply Hk; [done..|]. by intros ?%Hmono.
  - intros w H1 H2 H3. apply S9; [done..|]. intros [->|?]%elem_of_cons; done.
  - intros a [Hc|Hc]%covered_app.
    + destruct (S10 a Hc) as (w & H1 & H2 & H3). exists w. split_and!; [done..|]. by intros ?%Hmono.
    + apply covered_in in Hc as (b & z & Hin & Ha). apply list_elem_of_singleton in Hin. injection Hin as -> ->. exists v. split_and!; [|done..]. exists sz, tg. unfold Freelist.Hd_bp in Ha. split; [done|lia].
  - intros w szw tgw a Hw H1 H2 H3 Ha. apply covered_app. destruct (decide (w = v)) as [->|Hne].
    + right. apply covered_in. exists v, sz. rewrite Hb in Hw. injection Hw as <- <-. unfold Freelist.Hd_bp. split; [left|lia].
    + left. apply (S11 w szw tgw a Hw); [done..| |done]. intros [->|?]%elem_of_cons; done.
Qed.

(** *** A live block *)

Lemma black_swept v l2 h p1 s sz tg hd : sinv (v :: l2) h p1 s → B L !! v = Some (sz, tg) → black m0 v → m0 !! (v - 8) = Some hd →
  sinv l2 h p1 (set_words (<[v - 8 := Whitehd_hd hd]> (words s)) (put_fl (set_sweep_hp (v + 8 * sz) (free_list (rest s))) s)).
Proof.
  intros Hi Hb Hbl Hhd. pose proof Hi as [S1 So S2 S3 S4 S5 S6 [S7 S7'] S8 S9 S10 S11]. destruct (sweep_next _ _ _ _ _ S2) as (Ev & Hlim & sz' & tg' & Hb' & Hat & Hni). rewrite Hb in Hb'. injection Hb' as <- <-. pose proof (block_sizes _ _ _ Hb) as Hsz.
  assert (inside v (v - 8)) as Hin by (exists sz, tg; split; [done|lia]). destruct (inside_head _ _ Hin) as [Hh1 Hh2].
  assert (Freelist.fl_inv (fl_of (set_words (<[v - 8 := Whitehd_hd hd]> (words s)) (put_fl (set_sweep_hp (v + 8 * sz) (free_list (rest s))) s))) (p1 ++ free_blocks m0 (todo (v :: l2) h))) as Hf.
  { apply (fl_inv_frame (set_sweep_hp (v + 8 * sz) (fl_of s))); [by apply fl_inv_sweep|]. cbn. rewrite S4. intros a Ha. apply lookup_insert_ne. intros <-. destruct Ha as [Ha|[Ha|Ha]]; [|unfold Freelist.Hd_bp in *; lia..].
    destruct (cov_touched _ _ _ _ _ Hi Ha) as (w & H1 & H2 & _). by rewrite (inside_eq L HL _ _ _ H1 Hin) in H2. }
  change (todo (v :: l2) h) with (v :: todo l2 h) in *. rewrite (free_skip _ _ _ (black_used _ _ Hbl)) in Hf. assert (∀ w, w ∈ todo l2 h → w ∈ v :: todo l2 h) as Hmono by (intros w; by right). split; cbn; try done; [lia|split; lia|..].
  - intros a Ha Hk Ha1 Ha2. rewrite lookup_insert_ne; [|intros <-; apply (Hk v); eauto]. apply S8; [intros Ht; by apply Ha; eapply touched_mono| |done..]. intros w H1 H2 H3. apply Hk; [done..|]. by intros ?%Hmono.
  - intros w H1 H2 H3. destruct (decide (w = v)) as [->|Hne]; [by rewrite lookup_insert_eq, Hhd|]. rewrite lookup_insert_ne by lia. apply S9; [done..|]. intros [->|?]%elem_of_cons; done.
  - intros a Hc. destruct (S10 a Hc) as (w & H1 & H2 & H3). exists w. split_and!; [done..|]. by intros ?%Hmono.
  - intros w szw tgw a Hw H1 H2 H3. apply (S11 w szw tgw a Hw); [done..|]. intros [->|?]%elem_of_cons; done.
Qed.

(** *** A dead block *)

(** The free block after the block that is given back may be absorbed. *)
Lemma absorb_todo k b z e l2 h z2 p2 : b + 8 * z = e → sweep_at e k l2 h → Freelist.absorb_next b z (free_blocks m0 (todo l2 h)) = (z2, p2) →
  ∃ l2', p2 = free_blocks m0 (todo l2' h) ∧ sweep_at (b + 8 * z2) k l2' h ∧ z <= z2 ∧ (length l2' <= length l2)%nat ∧ (∀ w, w ∈ todo l2' h → w ∈ todo l2 h) ∧ ∀ w, w ∈ todo l2 h → w ∉ todo l2' h → ¬ used m0 w.
Proof.
  intros Ee Hat Ea. unfold Freelist.absorb_next in Ea. destruct (free_blocks m0 (todo l2 h)) as [|[c zc] q] eqn:Ef; [injection Ea as <- <-; exists l2; rewrite Ee; done|].
  destruct (_ && _) eqn:Eb; injection Ea as <- <-; [|exists l2; rewrite Ee, Ef; done]. apply andb_true_iff in Eb as [Eb%Z.eqb_eq _]. unfold Freelist.Hp_bp in Eb.
  assert ((c, zc) ∈ free_blocks m0 (todo l2 h)) as Hc by (rewrite Ef; left). apply elem_free in Hc as (Hc & Hu & tg & Hb). pose proof (block_sizes _ _ _ Hb) as Hzc.
  destruct l2 as [|v l2].
  - exfalso. destruct Hat as (h1 & c' & n & l1 & EH & _ & _ & Ht). cbn in Ht. pose proof (h_order HS) as Ho. rewrite EH in Ho. apply ordered_app in Ho. destruct (later_low h (c' + n) c Ho) as [_ H2]; [|done|lia]. intros x Hx. rewrite EH. apply elem_of_app. right. by right.
  - destruct (sweep_next _ _ _ _ _ Hat) as (Ev & _ & sz & tg' & Hb' & Hat' & Hni). assert (v = c) as -> by lia. rewrite Hb in Hb'. injection Hb' as <- <-. change (todo (c :: l2) h) with (c :: todo l2 h) in *. rewrite (free_take _ _ _ _ _ Hu Hb) in Ef. injection Ef as <-.
    exists l2. replace (b + 8 * (z + (zc + 1))) with (c + 8 * zc) by lia. split_and!; [done..|lia|cbn; lia|intros w; by right|]. intros w [->|?]%elem_of_cons ?; done.
Qed.

Lemma is_fragment_true p1 b z : Freelist.is_fragment p1 b z = true → z = 0 ∧ Freelist.join_prefix p1 b z = p1.
Proof.
  unfold Freelist.is_fragment, Freelist.join_prefix, Freelist.join_prev. intros [->%Z.eqb_eq Hl]%andb_true_iff. split; [done|]. cbn [Z.eqb]. destruct (last p1) as [[pb pz]|]; [|apply app_nil_r]. destruct (_ && _); [done|apply app_nil_r].
Qed.

Section Dead.
Context (v : Z) (l2 : list Z) (h : list (Z * Z * list Z)) (p1 : list (Z * Z)) (s : gc major) (sz tg hd x : Z).
Context (Hi : sinv (v :: l2) h p1 s) (Hb : B L !! v = Some (sz, tg)) (Hw : white m0 v) (Hhd : m0 !! (v - 8) = Some hd).

Let s1 := put_fl (set_sweep_hp x (free_list (rest s))) s.
Let p2 := free_blocks m0 (todo l2 h).

Lemma dead_used : used m0 v.
Proof. unfold used. by rewrite Hw. Qed.

Lemma dead_next : v = hp s + 8 ∧ sweep_at (v + 8 * sz) (mk (rest s)) l2 h ∧ v ∉ todo l2 h.
Proof. destruct (sweep_next _ _ _ _ _ (s_at _ _ _ _ Hi)) as (Ev & _ & sz' & tg' & Hb' & Hat & Hni). rewrite Hb in Hb'. by injection Hb' as <- <-. Qed.

Lemma dead_free : Freelist.fl_inv (fl_of s1) (p1 ++ p2).
Proof. pose proof (s_free _ _ _ _ Hi) as Hf. change (todo (v :: l2) h) with (v :: todo l2 h) in Hf. rewrite (free_skip _ _ _ dead_used) in Hf. by apply (fl_inv_sweep x (fl_of s)). Qed.

Lemma dead_after b z : b + 8 * z = v + 8 * sz → Freelist.sorted_from (b + 8 * z) p2.
Proof.
  intros ->. pose proof (Freelist.inv_sorted _ _ dead_free) as Hs. apply Freelist.sorted_app in Hs as [_ Hs]. eapply sorted_from_above; [|exact Hs]. intros c zc (Hc & _)%elem_free. destruct dead_next as (_ & Hat & _). destruct (sweep_low _ _ _ _ _ Hat Hc) as [_ Hlow]. exact Hlow.
Qed.

Lemma dead_gap : Freelist.gap (fl_of s1) p1 p2 v sz hd.
Proof.
  destruct dead_next as (Ev & Hat & Hni). pose proof (block_sizes _ _ _ Hb) as Hsz. destruct (mo_hdr _ _ (h_mem HS) _ _ _ Hb) as (hd' & E & H1 & H2 & H3). rewrite Hhd in E. injection E as <-.
  assert (∀ a, inside v a → words s !! a = m0 !! a) as Hm by (intros a; apply (todo_word _ _ _ _ _ _ Hi); [left|apply dead_used]).
  split; try done.
  - pose proof (s_top _ _ _ _ Hi). unfold Freelist.Hd_bp. lia.
  - by apply dead_after.
  - cbn. rewrite (s_head _ _ _ _ Hi). exact (h_head HS _ _ _ Hb).
  - cbn. unfold Freelist.Hd_bp. rewrite Hm; [done|]. exists sz, tg. split; [done|lia].
  - cbn. intros Hz. rewrite Hm by (exists sz, tg; split; [done|lia]). replace v with (v + 8 * 0) by lia. eapply (mo_field _ _ (h_mem HS)); [exact Hb|lia].
Qed.

Lemma dead_fragment : Freelist.last_fragment (fl_of s1) = Freelist.Hp_bp v → ∃ hf, Freelist.gap (fl_of s1) p1 p2 (Freelist.last_fragment (fl_of s1)) 0 hf.
Proof.
  unfold Freelist.Hp_bp. intros E. destruct dead_next as (Ev & Hat & Hni). pose proof (block_sizes _ _ _ Hb) as Hsz. cbn in E |- *. destruct (s_frag _ _ _ _ Hi) as [_ Hf]. destruct Hf as ((hf & F1 & F2 & F3) & F4 & F5 & _); [lia|]. exists hf. rewrite E. replace (v - 8) with (hp s) by lia. split; cbn; unfold Freelist.Hd_bp; try done.
  - eapply Freelist.sorted_weaken; [|by apply (dead_after v sz)]. lia.
  - rewrite (s_head _ _ _ _ Hi). lia.
Qed.

Lemma dead_total : Freelist.total (p1 ++ p2) + sz + 2 < W.
Proof.
  pose proof (block_sizes _ _ _ Hb) as Hsz. pose proof (Freelist.inv_sorted _ _ dead_free) as Hs. pose proof (total_top _ _ Hs) as Ht. assert (Freelist.top 8 (p1 ++ p2) <= W) as Htop.
  { apply top_bound; [unfold W; lia|]. intros b z Hin. destruct (Freelist.sorted_elem _ _ _ _ Hs Hin) as (_ & Hz & _). assert (∃ w, inside w (b + 8 * z - 1)) as (w & szw & tgw & Hbw & Ha).
    { destruct (cov_touched _ _ _ _ (b + 8 * z - 1) Hi) as (w & Hw' & _); [|eauto]. change (todo (v :: l2) h) with (v :: todo l2 h). rewrite (free_skip _ _ _ dead_used). apply covered_in. exists b, z. split; [done|]. unfold Freelist.Hd_bp. lia. }
    pose proof (block_end _ _ _ Hbw). lia. }
  unfold Max_wosize, W in *. lia.
Qed.

(** What [absorb_fragment] gives. *)
Lemma dead_range b1 z1 : Freelist.absorb_fragment (Freelist.last_fragment (fl_of s1)) v sz = (b1, z1) →
  b1 + 8 * z1 = v + 8 * sz ∧ hp s <= b1 ∧ 0 <= z1 ∧ (z1 = 0 → b1 = v ∧ sz = 0) ∧ Freelist.top 8 p1 <= Freelist.Hd_bp b1 ∧ (∀ a, Freelist.Hd_bp b1 <= a < b1 + 8 * z1 → ∃ w, inside w a ∧ ¬ black m0 w ∧ w ∉ todo l2 h) ∧ ∀ a, inside v a → Freelist.Hd_bp b1 <= a < b1 + 8 * z1.
Proof.
  destruct dead_next as (Ev & Hat & Hni). pose proof (block_sizes _ _ _ Hb) as Hsz. pose proof (s_top _ _ _ _ Hi) as Htop. assert (¬ black m0 v) as Hnb by (unfold black; rewrite Hw; done). unfold Freelist.absorb_fragment, Freelist.Hp_bp, Freelist.Hd_bp. cbn.
  assert (∀ a, inside v a → v - 8 <= a < v + 8 * sz) as Hin by (intros a (sz' & tg' & E & Ha); rewrite Hb in E; injection E as <- <-; done).
  destruct (Z.eqb_spec (Freelist.last_fragment (free_list (rest s))) (v - 8)) as [E|E]; cbn [andb]; [destruct (Z.leb_spec (sz + 1) Max_wosize)|]; intros [= <- <-].
  - destruct (s_frag _ _ _ _ Hi) as [_ Hf]. destruct Hf as (_ & F4 & _ & F6); [lia|]. rewrite E. split_and!; try lia; [|intros a ?%Hin; lia]. intros a Ha. destruct (decide (a < v - 8)).
    + destruct (F6 a) as (w & H1 & H2 & H3); [lia|]. exists w. split_and!; [done..|]. intros ?. apply H3. by right.
    + exists v. split_and!; [|done..]. exists sz, tg. split; [done|lia].
  - split_and!; try lia; [|done]. intros a Ha. exists v. split_and!; [|done..]. exists sz, tg. split; [done|lia].
  - split_and!; try lia; [|done]. intros a Ha. exists v. split_and!; [|done..]. exists sz, tg. split; [done|lia].
Qed.

Lemma dead_swept : wp (lift_fl (Freelist.caml_fl_merge_block_r v)) (λ p s', ∃ l2' p1', (length l2' <= length l2)%nat ∧ sinv l2' h p1' (put_fl (set_sweep_hp p (free_list (rest s'))) s')) s1.
Proof.
  pose proof (Freelist.merge_block_spec (fl_of s1) p1 p2 v sz hd dead_free) as Hm.
  specialize (Hm ltac:(cbn; rewrite (s_head _ _ _ _ Hi); apply (s_merge _ _ _ _ Hi)) dead_gap dead_fragment dead_total).
  destruct (Freelist.absorb_fragment _ v sz) as [b1 z1] eqn:Ef. destruct (Freelist.absorb_next b1 z1 p2) as [z2 p2'] eqn:En.
  destruct (dead_range b1 z1 Ef) as (R1 & R2 & R3 & R4 & R5 & R6 & R7). destruct dead_next as (Ev & Hat & Hni). pose proof (block_sizes _ _ _ Hb) as Hsz.
  destruct (absorb_todo (mk (rest s)) b1 z1 _ l2 h z2 p2' R1 Hat En) as (l2' & Ep2 & Hat' & Hz & Hlen & Hsub & Hblue).
  apply lift_fl_run. eapply wp_conseq; [exact Hm|]. clear Hm. intros adj f (-> & Hf & Eh & Emerge & Htop & Efr & Hcov & Hframe). exists l2', (Freelist.join_prefix p1 b1 z2). split; [done|].
  change (Freelist.Fl_head (fl_of s1)) with (Freelist.Fl_head (free_list (rest s))) in *. rewrite (s_head _ _ _ _ Hi) in Eh, Emerge, Hframe. change (Freelist.mem (fl_of s1)) with (words s) in Hframe. change (Freelist.last_fragment (fl_of s1)) with (Freelist.last_fragment (free_list (rest s))) in Efr.
  rewrite Freelist.join_prev_prefix in Hf, Hcov, Hframe. set (p1' := Freelist.join_prefix p1 b1 z2) in *. rewrite Ep2 in *. 
  assert (∀ w, w ∈ todo l2' h → w ∈ todo (v :: l2) h) as Hsub' by (intros w Hin; right; by apply Hsub).
  assert (∀ w, w ∉ todo (v :: l2) h → w ∉ todo l2' h) as Hsub'' by (intros w Hn ?%Hsub'; done).
  assert (v ∉ todo l2' h) as Hnv by (intros ?%Hsub; done).
  assert (∀ a, Freelist.covered p1' a → ∃ w, inside w a ∧ ¬ black m0 w ∧ w ∉ todo l2' h) as Hcov1.
  { intros a Ha. pose proof (Freelist.inv_sorted _ _ Hf) as Hs. apply Freelist.sorted_app in Hs as [Hs _]. pose proof (covered_top _ _ _ Hs Ha) as [_ Hlt]. destruct (proj1 (Hcov a)) as [[Hc|Hc]%covered_app|Hc]; [by left; apply covered_app; left|..].
    - destruct (s_cov _ _ _ _ Hi a Hc) as (w & H1 & H2 & H3). exists w. auto.
    - destruct (free_covered _ _ _ _ Hc) as (w & H1 & H2 & H3). exists w. split_and!; [done|by intros ?%black_used|]. intros Hin. destruct (sweep_low _ _ _ _ _ Hat' Hin). destruct H3 as (? & ? & _ & H3). lia.
    - destruct (R6 a Hc) as (w & H1 & H2 & H3). exists w. split_and!; [done..|]. by intros ?%Hsub. }
  assert (∀ a, Freelist.covered (p1' ++ free_blocks m0 (todo l2' h)) a → touched (todo l2' h) a) as Htouch.
  { intros a [Hc|Hc]%covered_app; [destruct (Hcov1 a Hc) as (w & H1 & H2 & H3); exists w; tauto|]. destruct (free_covered _ _ _ _ Hc) as (w & H1 & H2 & H3). exists w. split_and!; [done|by intros ?%black_used|tauto]. }
  assert (∀ a, ¬ touched (todo l2' h) a → a ≠ head → a ≠ head - 8 → Freelist.mem f !! a = words s !! a) as Hkeep by (intros a Ha H1 H2; apply Hframe; [by intros ?%Htouch|done..]).
  split; cbn.
  - apply (s_phase _ _ _ _ Hi).
  - apply (s_others _ _ _ _ Hi).
  - exact Hat'.
  - replace (fl_of _) with (set_sweep_hp (b1 + 8 * z2) f) by by destruct f. by apply fl_inv_sweep.
  - done.
  - done.
  - exact Htop.
  - destruct (Freelist.is_fragment p1 b1 z2) eqn:Ei; rewrite Efr.
    + destruct (is_fragment_true _ _ _ Ei) as [E0 Epre]. assert (z1 = 0) as E1 by lia. destruct (R4 E1) as [-> Es0]. rewrite E0. split; [lia|]. intros _. replace (v + 8 * 0) with v by lia. unfold fragment, p1'. rewrite E0 in Epre. rewrite E0, Epre. assert (inside v (v - 8)) as Hiv by (exists sz, tg; split; [done|lia]). destruct (inside_head _ _ Hiv) as [Hh1 Hh2]. split_and!.
      * exists hd. destruct dead_gap as [_ _ _ _ G5 G6 G7 _]. rewrite Hframe; [cbn in G5; unfold Freelist.Hd_bp in G5; rewrite G5, G7; done| |done..]. intros [Hc|Hc]%covered_app.
        -- destruct (s_cov _ _ _ _ Hi (v - 8)) as (w & H1 & _ & H3); [unfold p1' in Hc; by rewrite E0, Epre in Hc|]. apply H3. rewrite (inside_eq L HL _ _ _ H1 Hiv). left.
        -- destruct (free_covered _ _ _ _ Hc) as (w & H1 & _ & H3). by rewrite (inside_eq L HL _ _ _ H3 Hiv) in H1.
      * unfold Freelist.Hd_bp in R5. lia.
      * pose proof (h_head HS _ _ _ Hb). lia.
      * intros a Ha. destruct (R6 a) as (w & H1 & H2 & H3); [unfold Freelist.Hd_bp; lia|]. exists w. split_and!; [done..|]. by intros ?%Hsub.
    + destruct (s_frag _ _ _ _ Hi) as [F1 _]. assert (hp s < b1 + 8 * z2) by (destruct (decide (z1 = 0)) as [E|]; [destruct (R4 E); lia|lia]). split; lia.
  - intros a Ha Hk H1 H2. rewrite Hkeep by done. apply (s_same _ _ _ _ Hi); [|intros w K1 K2 K3; apply Hk; auto|done..]. intros Ht. apply Ha. by eapply touched_mono.
  - intros w H1 H2 H3. destruct H1 as [[szw tgw] Hbw]. assert (inside w (w - 8)) as Hiw by (exists szw, tgw; split; [done|]; pose proof (block_sizes _ _ _ Hbw); lia). destruct (inside_head _ _ Hiw) as [Hh1 Hh2]. assert (w ∉ todo (v :: l2) h) as Hnw.
    { intros [->|Hin]%elem_of_cons; [unfold black in H2; by rewrite Hw in H2|]. apply (Hblue w Hin H3). by apply black_used. }
    rewrite Hkeep; [apply (s_white _ _ _ _ Hi); eauto| |done..]. intros (u & K1 & K2 & _). by rewrite (inside_eq L HL _ _ _ K1 Hiw) in K2.
  - exact Hcov1.
  - intros w szw tgw a Hbw H1 H2 H3 Ha. assert (inside w a) as Hiw by (exists szw, tgw; done). assert (Freelist.covered (p1 ++ p2) a ∨ Freelist.Hd_bp b1 <= a < b1 + 8 * z1) as Hor.
    { destruct (decide (w ∈ todo (v :: l2) h)) as [[->|Hin]%elem_of_cons|Hn]; [right; by apply R7| |].
      - left. apply covered_app. right. apply covered_in. exists w, szw. split; [|unfold Freelist.Hd_bp; lia]. apply elem_free. split_and!; [done|by apply Hblue|eauto].
      - left. apply covered_app. left. by apply (s_all _ _ _ _ Hi w szw tgw). }
    apply Hcov in Hor as [[Hc|Hc]%covered_app|[Ei Hc]]; [done|..].
    + destruct (free_covered _ _ _ _ Hc) as (u & K1 & _ & K3). by rewrite (inside_eq L HL _ _ _ K3 Hiw) in K1.
    + exfalso. destruct (is_fragment_true _ _ _ Ei) as [E0 _]. assert (z1 = 0) as E1 by lia. destruct (R4 E1) as [-> Es0]. assert (w = v) as ->; [|rewrite Hb in Hbw; injection Hbw as <- <-; lia]. apply (inside_eq L HL w v a); [done|]. exists sz, tg. unfold Freelist.Hd_bp in Hc. split; [done|lia].
Qed.
End Dead.

(** *** Sweeping *)

(** The end of the sweep: the free list holds the words of the blocks that
    were not black and have a field, and nothing else; black blocks are white
    and hold what they held. *)
Record swept (s : gc major) : Prop := {
  e_phase : caml_gc_phase (rest s) = Phase_idle;
  e_others : others (rest s) = o0;
  e_free : ∃ l, Freelist.fl_inv (fl_of s) l ∧ (∀ a, Freelist.covered l a → ∃ v, inside v a ∧ ¬ black m0 v) ∧
    ∀ v sz tg a, B L !! v = Some (sz, tg) → 1 <= sz → ¬ black m0 v → v - 8 <= a < v + 8 * sz → Freelist.covered l a;
  e_live v sz tg : B L !! v = Some (sz, tg) → black m0 v → words s !! (v - 8) = Whitehd_hd <$> m0 !! (v - 8) ∧ ∀ i, 0 <= i < sz → words s !! (v + 8 * i) = m0 !! (v + 8 * i);
  e_out a : ¬ in_block L a → a ≠ head → a ≠ head - 8 → words s !! a = m0 !! a
}.

Lemma sinv_swept p1 s s' : sinv [] [] p1 s → words s' = words s → free_list (rest s') = free_list (rest s) → others (rest s') = others (rest s) → caml_gc_phase (rest s') = Phase_idle → swept s'.
Proof.
  intros Hi Ew Ef Eo Ep. pose proof Hi as [S1 So S2 S3 S4 S5 S6 S7 S8 S9 S10 S11]. change (todo [] []) with (@nil Z) in *. assert (∀ v : Z, v ∉ []) as Hn by (intros v; apply not_elem_of_nil). split; [done|by rewrite Eo|..].
  - exists p1. unfold fl_of. rewrite Ew, Ef. cbn in S3. rewrite app_nil_r in S3. split_and!; [done| |].
    + intros a Hc. destruct (S10 a Hc) as (v & H1 & H2 & _). eauto.
    + intros v sz tg a Hb H1 H2 H3. by apply (S11 v sz tg a).
  - intros v sz tg Hb Hbl. rewrite Ew. split; [by apply S9; [eauto|..]|]. intros i Hiz. assert (inside v (v + 8 * i)) as Ha by (exists sz, tg; split; [done|lia]). destruct (inside_head _ _ Ha) as [N1 N2]. apply S8; [| |done..].
    + intros (w & H1 & H2 & _). by rewrite (inside_eq L HL _ _ _ H1 Ha) in H2.
    + intros w [[szw tgw] Hw] _ _ E. by apply (block_word L HL w szw tgw v sz tg i).
  - intros a Ha H1 H2. rewrite Ew. apply S8; [| |done..].
    + intros (v & (sz & tg & Hv & Hin) & _). apply Ha. by exists v, sz, tg.
    + intros v [[sz tg] Hv] _ _ ->. apply Ha. exists v, sz, tg. split; [done|]. pose proof (block_sizes _ _ _ Hv). lia.
Qed.

(** The words before the chunks do not change. *)
Lemma chunk_words l2 h p1 s c n l : sinv l2 h p1 s → (c, n, l) ∈ H L → words s !! (c - 8) = m0 !! (c - 8) ∧ words s !! (c - 16) = m0 !! (c - 16).
Proof.
  intros Hi Hin. destruct (lo_chunk _ HL _ _ _ Hin) as (_ & _ & H1 & H2). destruct (h_chunk HS _ _ _ Hin) as (K1 & K2 & K3 & K4).
  assert (∀ a, ¬ in_block L a → a ≠ head → a ≠ head - 8 → words s !! a = m0 !! a) as Hout; [|by split; apply Hout].
  intros a Ha A1 A2. apply (s_same _ _ _ _ Hi); [| |done..].
  - intros (v & (sz & tg & Hv & Hr) & _). apply Ha. by exists v, sz, tg.
  - intros v [[sz tg] Hv] _ _ ->. apply Ha. exists v, sz, tg. split; [done|]. pose proof (block_sizes _ _ _ Hv). lia.
Qed.

Definition left_to_do (l2 : list Z) (h : list (Z * Z * list Z)) : Z := Z.of_nat (length l2) + walk_length h.

(** At the end of a chunk. *)
Lemma chunk_swept h p1 s : sinv [] h p1 s → mark_limit (mk (rest s)) <= hp s ∧ ∃ next, words s !! (mark_chunk (mk (rest s)) - 8) = Some next ∧
  match h with
  | [] => next = 0
  | (c, n, l) :: h' => next = c ∧ c ≠ 0 ∧ words s !! (c - 16) = Some n ∧ ∀ k, mark_chunk k = c → mark_limit k = c + n → ∃ f, free_list (rest s) = f ∧ sinv l h' p1 (put_fl (set_sweep_hp c f) (put_mk k s))
  end.
Proof.
  intros Hi. pose proof Hi as [S1 So S2 S3 S4 S5 S6 [S7 S7'] S8 S9 S10 S11]. pose proof S2 as (h1 & c & n & l1 & EH & E1 & E2 & Ht). cbn in Ht. split; [lia|]. pose proof (h_link HS) as Hl. rewrite EH in Hl. apply linked_at in Hl as [_ (next & Hnext & Hl)].
  exists next. assert ((c, n, l1 ++ []) ∈ H L) as Hin by (rewrite EH; set_solver). destruct (chunk_words _ _ _ _ _ _ _ Hi Hin) as [C1 _]. rewrite E1, C1. split; [done|]. destruct h as [|[[c' n'] l'] h]; cbn [linked] in Hl; [done|]. destruct Hl as (-> & Hn & _).
  assert ((c', n', l') ∈ H L) as Hin' by (rewrite EH; set_solver). destruct (chunk_words _ _ _ _ _ _ _ Hi Hin') as [_ C2]. destruct (lo_chunk _ HL _ _ _ Hin') as (Hpos & Ht' & _). split_and!; [done|lia|by rewrite C2|]. intros k K1 K2. exists (free_list (rest s)). split; [done|].
  pose proof (h_order HS) as Ho. rewrite EH in Ho. apply ordered_app in Ho. cbn in Ho. destruct Ho as [Ho _]. assert (todo [] ((c', n', l') :: h) = todo l' h) as Etd by done. rewrite Etd in *. split; cbn; try done.
  - exists (h1 ++ [(c, n, l1 ++ [])]), c', n', []. rewrite <- app_assoc. done.
  - by apply (fl_inv_sweep c' (fl_of s)).
  - lia.
  - split; lia.
Qed.

Context (Hfin : ∀ v s, custom_finalize v s = inr (s, tt)).

Lemma block_swept v l2 h p1 work s : sinv (v :: l2) h p1 s → wp (sweep_step custom_finalize work) (λ _ s', ∃ l2' p1', sinv l2' h p1' s' ∧ left_to_do l2' h < left_to_do (v :: l2) h) s.
Proof.
  intros Hi. destruct (sweep_next _ _ _ _ _ (s_at _ _ _ _ Hi)) as (Ev & Hlim & sz & tg & Hb & _). pose proof (block_sizes _ _ _ Hb) as Hsz. assert (inside v (v - 8)) as Hin by (exists sz, tg; split; [done|lia]).
  destruct (mo_hdr _ _ (h_mem HS) _ _ _ Hb) as (hd0 & Hhd0 & _ & Hwo0 & _). assert (∃ hd, words s !! (v - 8) = Some hd ∧ Wosize_hd hd = sz ∧ Color_hd hd = col m0 v ∧ (used m0 v → hd = hd0)) as (hd & Hhd & Hwo & Hcol & Hsame).
  { destruct (decide (col m0 v = Caml_blue)) as [Hu|Hu].
    - assert ((v, sz) ∈ p1 ++ free_blocks m0 (todo (v :: l2) h)) as Hel by (apply elem_of_app; right; apply elem_free; split_and!; [left|by intros []|eauto]). pose proof (Freelist.inv_chain _ _ (s_free _ _ _ _ Hi)) as [Hl _]. apply list_elem_of_split in Hel as (q1 & q2 & Eq). rewrite Eq in Hl. apply Freelist.lseg_app in Hl as [_ (_ & (hd & K1 & K2 & K3 & K4) & _)].
      exists hd. split_and!; [done..| |by intros []]. rewrite Hu. by apply Z.eqb_eq in K4.
    - exists hd0. rewrite (todo_word _ _ _ _ v _ Hi); [|left|done|done]. split_and!; [done..|unfold col, hdr; by rewrite Hhd0|done]. }
  unfold sweep_step. apply wp_bind. eapply wp_intro; [reflexivity|]. cbv zeta. replace (hp s) with (v - 8) by lia. rewrite (proj2 (Z.ltb_lt _ _)) by lia. apply wp_bind. eapply wp_intro; [by apply ld_run|].
  unfold Bhsize_hd, Bsize_wsize, Whsize_hd, Whsize_wosize, Val_hp. rewrite Hwo. replace (v - 8 + (sz + 1) * 8) with (v + 8 * sz) by lia. replace (v - 8 + 8) with v by lia. apply wp_bind. eapply wp_intro; [reflexivity|]. apply wp_bind. rewrite Hcol.
  destruct (color_cases (hdr m0 v)) as [Ec|[Ec|[Ec|Ec]]]; change (Color_hd (hdr m0 v)) with (col m0 v) in Ec.
  - rewrite Ec. cbn [Z.eqb]. change (Caml_white =? Caml_white) with true. cbn iota. apply wp_bind. assert (∀ t : bool, (if t then custom_finalize v else mreturn tt) = custom_finalize v ∨ (if t then custom_finalize v else mreturn tt) = mreturn tt) as Hc by (intros []; tauto). eapply wp_intro; [destruct (Tag_hd hd =? Custom_tag); [apply Hfin|reflexivity]|]. clear Hc.
    apply wp_bind. eapply wp_conseq; [apply (dead_swept v l2 h p1 s sz tg hd0 (v + 8 * sz) Hi Hb Ec Hhd0)|]. intros p s' (l2' & p1' & Hlen & Hi'). eapply wp_intro; [reflexivity|]. apply wp_ret. exists l2', p1'. split; [exact Hi'|]. unfold left_to_do. cbn [length]. lia.
  - by destruct (h_nogray HS v ltac:(eauto)).
  - rewrite Ec. change (Caml_blue =? Caml_white) with false. change (Caml_blue =? Caml_blue) with true. cbn iota. eapply wp_intro; [reflexivity|]. apply wp_ret. exists l2, (p1 ++ [(v, sz)]). split; [|unfold left_to_do; cbn [length]; lia]. apply (free_swept v l2 h p1 s sz tg Hi Hb). by intros [].
  - rewrite Ec. change (Caml_black =? Caml_white) with false. change (Caml_black =? Caml_blue) with false. cbn iota. eapply wp_intro; [by apply (st_run _ _ _ hd)|]. apply wp_ret. exists l2, p1. split; [|unfold left_to_do; cbn [length]; lia]. rewrite Hsame by by apply black_used. by apply (black_swept v l2 h p1 s sz tg hd0 Hi Hb).
Qed.

Lemma sweep_step_run l2 h p1 work s : sinv l2 h p1 s → wp (sweep_step custom_finalize work) (λ work' s', swept s' ∧ work' = 0 ∨ ∃ l2' h' p1', sinv l2' h' p1' s' ∧ left_to_do l2' h' < left_to_do l2 h) s.
Proof.
  intros Hi. destruct l2 as [|v l2]; [|eapply wp_conseq; [by apply (block_swept v l2 h p1)|]; intros work' s' (l2' & p1' & H1 & H2); right; by exists l2', h, p1'].
  destruct (chunk_swept h p1 s Hi) as (Hlim & next & Hnext & Hh). unfold sweep_step. apply wp_bind. eapply wp_intro; [reflexivity|]. cbv zeta. rewrite (proj2 (Z.ltb_ge _ _)) by lia. apply wp_bind. eapply wp_intro; [by apply ld_run|]. apply wp_bind. eapply wp_intro; [reflexivity|]. destruct h as [|[[c n] l] h].
  - rewrite Hh. cbn [Z.eqb]. apply wp_bind. eapply wp_intro; [reflexivity|]. apply wp_bind. eapply wp_intro; [reflexivity|]. apply wp_ret. left. split; [|done]. by apply (sinv_swept p1 s).
  - destruct Hh as (-> & Hne & Hn & Hinv). rewrite (proj2 (Z.eqb_neq _ _) Hne). apply wp_bind. eapply wp_intro; [reflexivity|]. apply wp_bind. eapply wp_intro; [by apply ld_run|]. apply wp_bind. eapply wp_intro; [reflexivity|]. apply wp_ret. right. exists l, h, p1. split; [|unfold left_to_do; cbn; lia].
    destruct (Hinv (set_mark_limit (c + n) (set_mark_chunk c (mk (rest s)))) ltac:(done) ltac:(done)) as (f & <- & Hi'). exact Hi'.
Qed.

Lemma sweep_slice_run fuel : ∀ l2 h p1 work s, sinv l2 h p1 s → left_to_do l2 h < Z.of_nat fuel →
  wp (sweep_slice_r custom_finalize fuel work) (λ _ s', swept s' ∨ ∃ l2' h' p1', sinv l2' h' p1' s' ∧ left_to_do l2' h' <= left_to_do l2 h ∧ (0 < work → left_to_do l2' h' < left_to_do l2 h)) s.
Proof.
  induction fuel as [|fuel IH]; intros l2 h p1 work s Hi Hf; pose proof (walk_length_pos h); [unfold left_to_do in Hf; lia|]. cbn [sweep_slice_r]. destruct (Z.ltb_spec 0 work).
  - apply wp_bind. eapply wp_conseq; [by eapply sweep_step_run|]. intros work' s' [[Hs ->]|(l2' & h' & p1' & Hi' & Hlt)].
    + destruct fuel; apply wp_ret; by left.
    + eapply wp_conseq; [apply (IH l2' h' p1' work' s' Hi'); lia|]. intros [] s2 [?|(l3 & h3 & p3 & G1 & G2 & _)]; [by left|]. right. exists l3, h3, p3. split; [done|lia].
  - apply wp_ret. right. exists l2, h, p1. split; [done|lia].
Qed.

Lemma sweep_all_run fuel j : ∀ l2 h p1 s, sinv l2 h p1 s → left_to_do l2 h < Z.of_nat fuel → left_to_do l2 h < Z.of_nat j → wp (sweep_all custom_finalize fuel j) (λ _ s', swept s') s.
Proof.
  induction j as [|j IH]; intros l2 h p1 s Hi Hf Hj; pose proof (walk_length_pos h); [unfold left_to_do in Hj; lia|]. cbn [sweep_all]. apply wp_bind. eapply wp_intro; [reflexivity|]. rewrite (s_phase _ _ _ _ Hi). cbn [Z.eqb]. apply wp_bind. eapply wp_conseq; [by eapply sweep_slice_run|]. intros [] s' [Hs|(l2' & h' & p1' & Hi' & G1 & G2)].
  - assert (sweep_all custom_finalize fuel j s' = inr (s', tt)) as E; [|by eapply wp_intro]. destruct j; cbn [sweep_all]; unfold mbnd, mget; by rewrite (e_phase _ Hs).
  - apply (IH l2' h' p1'); [done|lia|]. specialize (G2 ltac:(done)). lia.
Qed.
End Sweeping.

(** ** From the end of marking *)

(** The chunks are in order. *)
Record placed (L : lay) : Prop := {
  pl_some : H L ≠ [];
  pl_order : ordered 8 (H L);
  pl_end c n l : (c, n, l) ∈ H L → c + n <= W
}.

(** Slices of the given amounts of work, until the sweep is over. *)
Fixpoint sweep_slices (custom_finalize : Z → XM unit) (fuel : nat) (works : list Z) : XM unit :=
  match works with
  | [] => mreturn tt
  | work :: works =>
      let* s := mget in
      if caml_gc_phase (rest s) =? Phase_sweep then sweep_slice_r custom_finalize fuel work ;;; sweep_slices custom_finalize fuel works
      else mreturn tt
  end.

Section Cycle.
Context (Is_in_heap Is_in_value_area : Z → bool) (caml_weak_list_head : Z) (L : lay) (HL : lay_ok L) (custom_finalize : Z → XM unit) (Hfin : ∀ v s, custom_finalize v s = inr (s, tt)).
Notation ready := (ready Is_in_heap Is_in_value_area caml_weak_list_head L).
Abbreviation head s := (Freelist.Fl_head (free_list (rest s))).

Lemma ready_sweepable rs s : ready rs s → placed L → sweepable L (words s) (head s) (caml_heap_start (rest s)).
Proof. intros [D1 D2 D3 D4 D5 D6 D7 D8] [P1 P2 P3]. split; try done; [apply D2|apply D8|apply D8]. Qed.

Lemma all_blocks v : is_Some (B L !! v) → v ∈ blocks_of (H L).
Proof. intros Hv. destruct (lo_all _ HL v Hv) as (c & n & l & Hin & Hl). apply list_elem_of_join. exists l. split; [done|]. apply list_elem_of_fmap. by exists (c, n, l). Qed.

Lemma ready_sinv rs s : ready rs s → placed L → ∃ l h, left_to_do l h < wl L ∧ sinv L (words s) (others (rest s)) (head s) l h [] s.
Proof.
  intros [D1 D2 D3 D4 D5 (D6 & D6' & sz & Hsz & Hlim) [D7 D7'] D8] [P1 P2 P3]. destruct (H L) as [|[[c n] l] h] eqn:EH; [done|]. exists l, h. destruct D5 as (Ec & En & _). rewrite Ec in *. rewrite En in Hsz. injection Hsz as <-.
  assert ((c, n, l) ∈ H L) as Hin by (rewrite EH; left). destruct (lo_chunk _ HL _ _ _ Hin) as (Hpos & Ht & _). destruct P2 as [P2 _]. assert (todo l h = blocks_of (H L)) as Etd by by rewrite EH.
  assert (∀ v, is_Some (B L !! v) → v ∉ todo l h → False) as Hall by (intros v Hv Hn; apply Hn; rewrite Etd; by apply all_blocks). unfold wl. rewrite EH. split; [unfold left_to_do; cbn; lia|].
  split; cbn; try done.
  - exists [], c, n, []. rewrite D6'. done.
  - rewrite Etd. apply D8.
  - lia.
  - rewrite D7', D6'. split; [lia|]. intros E. lia.
  - intros v Hv _ Hn. by destruct (Hall v).
  - intros a Hc. by apply Exists_nil in Hc.
  - intros v sz tg a Hv _ _ Hn. by destruct (Hall v ltac:(eauto)).
Qed.

Lemma sweep_slices_run rs s0 fuel works : ready rs s0 → placed L → wl L <= Z.of_nat fuel → ∀ l h p s, sinv L (words s0) (others (rest s0)) (head s0) l h p s → left_to_do l h < Z.of_nat fuel →
  wp (sweep_slices custom_finalize fuel works) (λ _ s', swept L (words s0) (others (rest s0)) (head s0) s' ∨ caml_gc_phase (rest s') = Phase_sweep ∧ (Forall (λ work, 0 < work) works → Z.of_nat (length works) <= left_to_do l h)) s.
Proof.
  intros Hr Hp Hf. pose proof (ready_sweepable _ _ Hr Hp) as HS. induction works as [|work works IH]; intros l h p s Hi Hl; cbn [sweep_slices].
  - apply wp_ret. right. split; [apply Hi|]. intros _. unfold left_to_do. cbn. pose proof (walk_length_pos h). lia.
  - apply wp_bind. eapply wp_intro; [reflexivity|]. rewrite (s_phase _ _ _ _ _ _ _ _ Hi). cbn [Z.eqb]. apply wp_bind. eapply wp_conseq; [by eapply (sweep_slice_run L HL custom_finalize (words s0) (others (rest s0)) (head s0) _ HS Hfin fuel l h p work s)|]. intros [] s' [Hs|(l' & h' & p' & Hi' & G1 & G2)].
    + assert (sweep_slices custom_finalize fuel works s' = inr (s', tt)) as E; [|eapply wp_intro; [exact E|by left]]. destruct works; [done|]. cbn [sweep_slices]. unfold mbnd, mget. by rewrite (e_phase _ _ _ _ _ Hs).
    + eapply wp_conseq; [apply (IH l' h' p' s' Hi'); lia|]. intros [] s2 [?|[H1 H2]]; [by left|]. right. split; [done|]. intros [Hw Hws]%Forall_cons. specialize (G2 Hw). specialize (H2 Hws). cbn [length]. lia.
Qed.

(** What the program reaches after the sweep it reached before. *)
Lemma swept_reach rs s s' b : ready rs s → swept L (words s) (others (rest s)) (head s) s' → reach Is_in_heap L (strong rs (others (rest s'))) (words s') b →
  ∃ sz tg, B L !! b = Some (sz, tg) ∧ black (words s) b.
Proof.
  intros Hr Hs (x & Hx & Hin & Hpath). rewrite (e_others _ _ _ _ _ Hs) in Hx. assert (reach Is_in_heap L (strong rs (others (rest s))) (words s) b) as Hreach.
  { revert b Hpath. apply rtc_ind_r; [exists x; split_and!; [done|done|apply rtc_refl]|]. intros v w _ He IH. destruct (reach_black _ _ _ _ _ _ (d_graph _ _ _ _ _ _ Hr) (d_nogray _ _ _ _ _ _ Hr) IH) as [[[sz tg] Hv] Hbl].
    destruct IH as (y & H1 & H2 & H3). exists y. split_and!; [done..|]. eapply rtc_r; [exact H3|]. destruct He as (_ & z & (sz' & tg' & i & K1 & K2 & K3 & K4) & K5 & K6). split; [by apply black_used|]. exists z. split_and!; [|done..]. exists sz', tg', i. split_and!; [done..|lia|lia|]. rewrite <- K4. symmetry. destruct (e_live _ _ _ _ _ Hs v sz' tg' K1 Hbl) as [_ Hf]. by apply Hf. }
  destruct (reach_black _ _ _ _ _ _ (d_graph _ _ _ _ _ _ Hr) (d_nogray _ _ _ _ _ _ Hr) Hreach) as [[[sz tg] Hv] Hbl]. eauto.
Qed.

(** A live block after the sweep. *)
Lemma swept_live s s' b sz tg : mem_ok L (words s) → swept L (words s) (others (rest s)) (head s) s' → B L !! b = Some (sz, tg) → black (words s) b → white (words s') b.
Proof.
  intros Hm Hs Hb Hbl. destruct (e_live _ _ _ _ _ Hs b sz tg Hb Hbl) as [Hh _]. destruct (mo_hdr _ _ Hm b sz tg Hb) as (hd & Hhd & Hw & _). unfold white, col, hdr. rewrite Hh, Hhd. cbn. by apply (Whitehd_spec hd Hw).
Qed.
End Cycle.

(** C4. Sweeping, from the end of marking and in slices of any amounts of work:
    when it is over, the free list is well formed and holds the words of
    every block that was not black and has a field, and no word of another
    block; black blocks are white again, with their block_sizes, tags and fields,
    and no word outside the heap has changed but those of the sentinel of the
    list.  It is over after at most as many slices with some work as there are
    blocks and chunks. *)
Theorem sweep_correct Is_in_heap Is_in_value_area caml_weak_list_head custom_finalize L rs s fuel works :
  lay_ok L → ready Is_in_heap Is_in_value_area caml_weak_list_head L rs s → let head := Freelist.Fl_head (free_list (rest s)) in placed L →
  (∀ v s, custom_finalize v s = inr (s, tt)) → wl L <= Z.of_nat fuel →
  wp (sweep_slices custom_finalize fuel works) (λ _ s', swept L (words s) (others (rest s)) head s' ∨
    caml_gc_phase (rest s') = Phase_sweep ∧ (Forall (λ work, 0 < work) works → Z.of_nat (length works) < wl L)) s.
Proof.
  intros HL Hr head Hp Hfin Hf. destruct (ready_sinv _ _ _ L HL rs s Hr Hp) as (l & h & Hl & Hi). eapply wp_conseq; [eapply (sweep_slices_run _ _ _ L HL custom_finalize Hfin rs s fuel works Hr Hp Hf l h []); [done|lia]|]. intros [] s' [?|[H1 H2]]; [by left|right]. split; [done|]. intros Hw. specialize (H2 Hw). lia.
Qed.

(** C2. A whole major collection ([caml_finish_major_cycle_r] between two cycles):
    marking and sweeping end, the free list is well formed, and every block
    that the program reaches from its roots is white, not free, and none of
    its words is in a free block. *)
Theorem major_cycle_correct realloc_ok malloc_ok Is_in_heap Is_in_value_area custom_finalize caml_global_data caml_weak_list_head caml_weak_none L fuel k n lc ws s :
  lay_ok L → (∀ s, malloc_ok s = true) → (∀ v s, custom_finalize v s = inr (s, tt)) →
  Snapshot.idle Is_in_heap Is_in_value_area L caml_global_data caml_weak_list_head caml_weak_none fuel k n lc ws s →
  placed L →
  (2 * Z.of_nat (length ws) + 5) * ((Z.of_nat (stdpp.base.size (dom (B L))) + 1) * (2 * wl L + 2)) <= Z.of_nat fuel →
  wp (caml_finish_major_cycle_r realloc_ok malloc_ok Is_in_heap Is_in_value_area custom_finalize caml_global_data caml_weak_list_head caml_weak_none fuel)
    (λ _ s', caml_gc_phase (rest s') = Phase_idle ∧ ∃ l, Freelist.fl_inv (fl_of s') l ∧
      ∀ b, reach Is_in_heap L (strong (Snapshot.root_values caml_global_data k lc s) (others (rest s'))) (words s') b →
        white (words s') b ∧ is_Some (B L !! b) ∧ ∀ a, inside L b a → ¬ Freelist.covered l a) s.
Proof.
  intros HL Hm Hfin Hz Hp Hf. unfold caml_finish_major_cycle_r. apply wp_bind. eapply wp_intro; [reflexivity|]. rewrite (Snapshot.z_phase _ _ _ _ _ _ _ _ _ _ _ _ Hz). cbn [Z.eqb]. change (Phase_idle =? Phase_idle) with true. cbn iota.
  apply wp_bind. eapply wp_conseq; [by eapply Snapshot.start_cycle_run|]. intros [] s1 HI. pose proof (Snapshot.start_steps _ _ _ _ _ _ _ _ HI) as Hst. apply wp_bind. eapply wp_conseq; [eapply mark_all_run; [done..|lia|lia]|]. intros [] s2 Hr.
  destruct (ready_sinv _ _ _ L HL _ s2 Hr Hp) as (l & h & Hl & Hi). pose proof (ready_sweepable _ _ _ L _ s2 Hr Hp) as HS. assert (wl L < Z.of_nat fuel) as Hwl by (pose proof (walk_length_pos (H L)); unfold wl in *; nia).
  apply wp_bind. eapply wp_conseq; [apply (sweep_all_run L HL custom_finalize _ _ _ _ HS Hfin fuel fuel l h [] s2 Hi); lia|]. intros [] s3 Hs. eapply wp_intro; [reflexivity|]. split; [apply Hs|]. destruct (e_free _ _ _ _ _ Hs) as (l' & F1 & F2 & _). exists l'. split; [exact F1|]. intros b Hb.
  destruct (swept_reach _ _ _ L _ s2 s3 b Hr Hs Hb) as (sz & tg & Hbl & Hblack). split_and!; [apply (swept_live L s2 s3 b sz tg); [apply (d_graph _ _ _ _ _ _ Hr)|done..]|eauto|].
  intros a Ha Hc. destruct (F2 a Hc) as (v & H1 & H2). by rewrite (inside_eq L HL _ _ _ H1 Ha) in H2.
Qed.

(** ** An example *)

Import Snapshot.

Lemma ex_placed : placed ex_lay.
Proof. split; [done|cbn; lia|]. intros c n l Hin. apply ex_chunk in Hin as (-> & -> & ->). done. Qed.

Definition ex_finalize (v : Z) : XM unit := mreturn tt.

(** The dead block at 1048 and the free block after it become one. *)
Example ex_swept : match caml_finish_major_cycle_r (λ _, false) (λ _, true) ex_in_heap ex_in_heap ex_finalize 500 510 520 30 ex_state with
  | inr (s, _) => caml_gc_phase (rest s) = Phase_idle ∧ map (hdr (words s)) [1008; 1032; 1048] = [Make_header 2 0 Caml_white; Make_header 1 0 Caml_white; Make_header 4 0 Caml_blue] ∧ words s !! 400 = Some 1048
  | inl _ => False end.
Proof. vm_compute. done. Qed.

(** The state when the sweep starts. *)
Definition ex_marking : XM unit := start_cycle_r (λ _, false) ex_in_heap 500 300 ;;; mark_all (λ _, false) (λ _, true) ex_in_heap ex_in_heap 510 520 300 300.
Definition ex_marked_state : gc major := match ex_marking ex_state with inr (s, _) => s | inl _ => ex_state end.

Lemma ex_ready_ok : ready ex_in_heap ex_in_heap 510 ex_lay (root_values 500 0 [] ex_state) ex_marked_state.
Proof.
  assert (wp ex_marking (λ _ s, ready ex_in_heap ex_in_heap 510 ex_lay (root_values 500 0 [] ex_state) s) ex_state) as Hw.
  { unfold ex_marking. apply wp_bind. eapply wp_conseq; [eapply start_cycle_run; [exact ex_lay_ok|apply (ex_idle 300); lia]|]. intros [] s1 HI. pose proof (start_steps _ _ _ _ _ _ _ _ HI) as Hst. change ((_ + 5) * _) with 300 in Hst. eapply mark_all_run; [exact ex_lay_ok|done|exact HI|lia|lia]. }
  unfold wp in Hw. unfold ex_marked_state. by destruct (ex_marking ex_state) as [|[s []]].
Qed.

Lemma sweep_correct_witness : let head := Freelist.Fl_head (free_list (rest ex_marked_state)) in
  wp (sweep_slices ex_finalize 5 [1; 2; 100]) (λ _ s', swept ex_lay (words ex_marked_state) (others (rest ex_marked_state)) head s' ∨
    caml_gc_phase (rest s') = Phase_sweep ∧ (Forall (λ work, 0 < work) [1; 2; 100] → 3 < 5)) ex_marked_state.
Proof. apply (sweep_correct ex_in_heap ex_in_heap 510 ex_finalize ex_lay (root_values 500 0 [] ex_state) ex_marked_state 5 [1; 2; 100] ex_lay_ok ex_ready_ok ex_placed); [done|by vm_compute]. Defined.

Lemma major_cycle_correct_witness :
  wp (caml_finish_major_cycle_r (λ _, false) (λ _, true) ex_in_heap ex_in_heap ex_finalize 500 510 520 300)
    (λ _ s', caml_gc_phase (rest s') = Phase_idle ∧ ∃ l, Freelist.fl_inv (fl_of s') l ∧
      ∀ b, reach ex_in_heap ex_lay (strong (root_values 500 0 [] ex_state) (others (rest s'))) (words s') b →
        white (words s') b ∧ is_Some (B ex_lay !! b) ∧ ∀ a, inside ex_lay b a → ¬ Freelist.covered l a) ex_state.
Proof. apply (major_cycle_correct (λ _, false) (λ _, true) ex_in_heap ex_in_heap ex_finalize 500 510 520 ex_lay 300 0 0 [] [] ex_state ex_lay_ok); [done|done|apply ex_idle; lia|exact ex_placed|by vm_compute]. Defined.
End Sweep.
