(* ===== verification/Compare.v ===== *)
(** Structural comparison (byterun/compare.c).

    The loop compares two values and keeps the pairs of fields that remain in
    an explicit stack.  The part of the context that this file owns is the
    record [cstate]: the items of the stack between [compare_stack] and [sp]
    (the top first; the slot at [compare_stack] itself is never used), the
    number of slots up to [compare_stack_limit], and whether [compare_stack]
    is [compare_stack_init].  A computation that does not return says how it
    stopped and how it left the stack.

    A double is its 64-bit word, compared as IEEE 754 says.  The operations of
    custom blocks are the class [CustomCompare]; [malloc_ok] tells whether an
    allocation of that many items succeeds. *)

From S2P Require Import Prelude Mlvalues Context Alloc Str Stacks Array Hash.
Import Context Alloc Str Array.

Module Compare.

Definition COMPARE_STACK_INIT_SIZE : Z := 256.
Definition COMPARE_STACK_MAX_SIZE : Z := 1024 * 1024.

Record compare_item : Type := CItem { item_v1 : Z; item_v2 : Z; item_count : Z }.

Record cstate : Type := CState {
  cx : context;
  compare_stack : list compare_item;
  compare_stack_size : Z;
  compare_stack_is_init : bool
}.

(** [Stopped e size init]: how the computation stopped, and the stack then. *)
Inductive cmp_stop : Type := Stopped (e : cstop) (size : Z) (is_init : bool).

Abbreviation KM := (M cstate cmp_stop).

(** A step on the rest of the context. *)
Definition lift {A} (m : CM A) : KM A :=
  λ s, match m (cx s) with
       | inl e => inl (Stopped e (compare_stack_size s) (compare_stack_is_init s))
       | inr (c, x) => inr (CState c (compare_stack s) (compare_stack_size s) (compare_stack_is_init s), x)
       end.

Definition set_stack (l : list compare_item) : KM unit :=
  mmodify (λ s, CState (cx s) l (compare_stack_size s) (compare_stack_is_init s)).

(** ** Doubles *)

Definition double_is_nan (d : Z) : bool := Hash.is_nan64 d.
(** The order of the numbers: by sign and magnitude. *)
Definition double_rank (d : Z) : Z := if d <? 2 ^ 63 then d else - (d - 2 ^ 63).
Definition double_lt (d1 d2 : Z) : bool :=
  negb (double_is_nan d1) && negb (double_is_nan d2) && (double_rank d1 <? double_rank d2).
Definition double_eq (d1 d2 : Z) : bool :=
  negb (double_is_nan d1) && negb (double_is_nan d2) && (double_rank d1 =? double_rank d2).

Definition LESS : Z := -1.
Definition EQUAL : Z := 0.
Definition GREATER : Z := 1.
Definition UNORDERED : Z := s64 (Z.shiftl 1 (8 * 8 - 1)).

(** The comparison of two doubles: [None] when it goes on. *)
Definition compare_doubles (total : bool) (d1 d2 : Z) : option Z :=
  if double_lt d1 d2 then Some LESS else
  if double_lt d2 d1 then Some GREATER else
  if negb (double_eq d1 d2) then
    if negb total then Some UNORDERED else
    if double_eq d1 d1 then Some GREATER else
    if double_eq d2 d2 then Some LESS else None
  else None.

(** "equal: abstract value" and "equal: functional value" *)
Definition equal_abstract : list Z :=
  [101; 113; 117; 97; 108; 58; 32; 97; 98; 115; 116; 114; 97; 99; 116; 32; 118; 97; 108; 117; 101].
Definition equal_functional : list Z :=
  [101; 113; 117; 97; 108; 58; 32; 102; 117; 110; 99; 116; 105; 111; 110; 97; 108; 32; 118; 97; 108; 117; 101].

(** Custom blocks: the address of the operations of a block, the addresses of
    their functions (0 for [NULL]), [strcmp] on their identifiers being
    negative, and a call: its result and [caml_compare_unordered]. *)
Class CustomCompare : Type := {
  Custom_ops_val : context → Z → Z;
  ops_compare : Z → Z;
  ops_compare_ext : Z → Z;
  ops_identifier_lt : Z → Z → bool;
  call_compare : Z → context → Z → Z → Z * bool
}.

(** What an iteration of the loop does next. *)
Inductive next_step : Type :=
  | Return (res : Z)
  | Next_item
  | Continue (v1 v2 : Z).

Section Operations.
Context `{Runtime} `{CustomCompare} (malloc_ok : Z → bool) (out_of_memory_exn : Z).

(** fail.c; [out_of_memory_exn] is the address of [out_of_memory_bucket.exn]. *)
Definition caml_raise_out_of_memory_r {A} : CM A :=
  let* exn := ld out_of_memory_exn in
  if exn =? 0 then mfail (CFatal FatalOutOfMemory) else caml_raise_r out_of_memory_exn.

Definition compare_free_stack_r : KM unit :=
  mmodify (λ s, if negb (compare_stack_is_init s) then CState (cx s) (compare_stack s) COMPARE_STACK_INIT_SIZE true else s).

Definition compare_stack_overflow_r {A} : KM A :=
  compare_free_stack_r ;;;
  lift caml_raise_out_of_memory_r.

Definition compare_resize_stack_r : KM unit :=
  let* s := mget in
  let newsize := 2 * compare_stack_size s in
  if COMPARE_STACK_MAX_SIZE <=? newsize then compare_stack_overflow_r else
  if negb (malloc_ok newsize) then compare_stack_overflow_r else
  mput (CState (cx s) (compare_stack s) newsize false).

(** [sp++; if (sp >= compare_stack_limit) sp = resize; *sp = ...] *)
Definition push_item (it : compare_item) : KM unit :=
  let* s := mget in
  (if compare_stack_size s <=? Z.of_nat (length (compare_stack s)) + 1
   then compare_resize_stack_r else mreturn tt) ;;;
  set_stack (it :: compare_stack s).

(** A call to the comparison function of a custom block. *)
Definition compare_custom (f v1 v2 : Z) (total : bool) : KM next_step :=
  let* s := mget in
  let '(res, unordered) := call_compare f (cx s) v1 v2 in
  if unordered && negb total then mreturn (Return UNORDERED) else
  if negb (s32 res =? 0) then mreturn (Return (s32 res)) else mreturn Next_item.

Definition invalid {A} (msg : list Z) : KM A :=
  compare_free_stack_r ;;;
  lift (caml_invalid_argument_r msg).

(** An integer and a block [v]: [swap] when the block is the first value. *)
Definition compare_long_block (v1 v2 v : Z) (swap total : bool) : KM next_step :=
  let res := (if swap then GREATER else LESS) in
  let* s := mget in
  if Is_in_value_area (cx s) v then
    let* t := lift (Tag_val v) in
    if t =? Forward_tag then
      let* w := lift (Hash.Forward_val v) in
      mreturn (if swap then Continue w v2 else Continue v1 w)
    else if t =? Custom_tag then
      let f := ops_compare_ext (Custom_ops_val (cx s) v) in
      if f =? 0 then mreturn (Return res) else compare_custom f v1 v2 total
    else mreturn (Return res)
  else mreturn (Return res).

Definition compare_strings (v1 v2 : Z) : KM next_step :=
  if v1 =? v2 then mreturn Next_item else
  let* len1 := lift (caml_string_length v1) in
  let* len2 := lift (caml_string_length v2) in
  let* res := lift (memcmp (Z.to_nat (if len1 <=? len2 then len1 else len2)) v1 v2) in
  if res <? 0 then mreturn (Return LESS) else
  if 0 <? res then mreturn (Return GREATER) else
  if negb (len1 =? len2) then mreturn (Return (s64 (len1 - len2))) else mreturn Next_item.

Definition of_option (r : option Z) : next_step := match r with Some z => Return z | None => Next_item end.

Fixpoint compare_double_fields (n : nat) (i v1 v2 : Z) (total : bool) : KM next_step :=
  match n with
  | O => mreturn Next_item
  | S n =>
      let* d1 := lift (ld (Field v1 i)) in
      let* d2 := lift (ld (Field v2 i)) in
      match compare_doubles total d1 d2 with
      | Some z => mreturn (Return z)
      | None => compare_double_fields n (i + 1) v1 v2 total
      end
  end.

(** Two blocks of the same tag, from [switch(t1)] on. *)
Definition compare_blocks (t v1 v2 : Z) (total : bool) : KM next_step :=
  if t =? String_tag then compare_strings v1 v2
  else if t =? Double_tag then
    let* d1 := lift (ld (Field v1 0)) in
    let* d2 := lift (ld (Field v2 0)) in
    mreturn (of_option (compare_doubles total d1 d2))
  else if t =? Double_array_tag then
    let* sz1 := lift (Wosize_val v1) in
    let* sz2 := lift (Wosize_val v2) in
    if negb (sz1 / Double_wosize =? sz2 / Double_wosize)
    then mreturn (Return (s64 (sz1 / Double_wosize - sz2 / Double_wosize)))
    else compare_double_fields (Z.to_nat (sz1 / Double_wosize)) 0 v1 v2 total
  else if t =? Abstract_tag then invalid equal_abstract
  else if (t =? Closure_tag) || (t =? Infix_tag) then invalid equal_functional
  else if t =? Object_tag then
    let* oid1 := lift (Hash.Oid_val v1) in
    let* oid2 := lift (Hash.Oid_val v2) in
    if negb (oid1 =? oid2) then mreturn (Return (oid1 - oid2)) else mreturn Next_item
  else if t =? Custom_tag then
    let* s := mget in
    let f := ops_compare (Custom_ops_val (cx s) v1) in
    if negb (f =? ops_compare (Custom_ops_val (cx s) v2)) then
      mreturn (Return (if ops_identifier_lt (Custom_ops_val (cx s) v1) (Custom_ops_val (cx s) v2) then LESS else GREATER))
    else if f =? 0 then invalid equal_abstract
    else compare_custom f v1 v2 total
  else
    let* sz1 := lift (Wosize_val v1) in
    let* sz2 := lift (Wosize_val v2) in
    if negb (sz1 =? sz2) then mreturn (Return (s64 (sz1 - sz2))) else
    if sz1 =? 0 then mreturn Next_item else
    (if 1 <? sz1 then push_item (CItem (Field v1 1) (Field v2 1) (sz1 - 1)) else mreturn tt) ;;;
    let* w1 := lift (ld (Field v1 0)) in
    let* w2 := lift (ld (Field v2 0)) in
    mreturn (Continue w1 w2).

(** The body of [while (1)], up to the label [next_item]. *)
Definition compare_iteration (v1 v2 : Z) (total : bool) : KM next_step :=
  let* s := mget in
  if (v1 =? v2) && total then mreturn Next_item else
  if Is_long v1 then
    if v1 =? v2 then mreturn Next_item else
    if Is_long v2 then mreturn (Return (Long_val v1 - Long_val v2)) else
    compare_long_block v1 v2 v2 false total
  else if Is_long v2 then compare_long_block v1 v2 v1 true total
  else if negb (Is_in_value_area (cx s) v1) || negb (Is_in_value_area (cx s) v2) then
    if v1 =? v2 then mreturn Next_item else
    mreturn (Return (Z.shiftr (s64 v1) 1 - Z.shiftr (s64 v2) 1))
  else
    let* t1 := lift (Tag_val v1) in
    let* t2 := lift (Tag_val v2) in
    if t1 =? Forward_tag then let* w := lift (Hash.Forward_val v1) in mreturn (Continue w v2)
    else if t2 =? Forward_tag then let* w := lift (Hash.Forward_val v2) in mreturn (Continue v1 w)
    else if negb (t1 =? t2) then mreturn (Return (t1 - t2))
    else compare_blocks t1 v1 v2 total.

(** [next_item:] the next pair to compare, if any. *)
Definition pop_item : KM (option (Z * Z)) :=
  let* s := mget in
  match compare_stack s with
  | [] => mreturn None
  | CItem p1 p2 count :: rest =>
      let* v1 := lift (ld p1) in
      let* v2 := lift (ld p2) in
      set_stack (if count - 1 =? 0 then rest else CItem (p1 + 8) (p2 + 8) (count - 1) :: rest) ;;;
      mreturn (Some (v1, v2))
  end.

Fixpoint compare_val_loop (fuel : nat) (v1 v2 : Z) (total : bool) : KM Z :=
  match fuel with
  | O => λ s, inl (Stopped (CFault OutOfFuel) (compare_stack_size s) (compare_stack_is_init s))
  | S fuel =>
      let* r := compare_iteration v1 v2 total in
      match r with
      | Return res => mreturn res
      | Continue v1 v2 => compare_val_loop fuel v1 v2 total
      | Next_item =>
          let* it := pop_item in
          match it with
          | None => mreturn EQUAL
          | Some (v1, v2) => compare_val_loop fuel v1 v2 total
          end
      end
  end.

Definition compare_val_r (fuel : nat) (v1 v2 : Z) (total : bool) : KM Z :=
  set_stack [] ;;;
  compare_val_loop fuel v1 v2 total.

(** [if (compare_stack != compare_stack_init) compare_free_stack_r(ctx);] *)
Definition compare_and_free (fuel : nat) (v1 v2 : Z) (total : bool) : KM Z :=
  let* res := compare_val_r fuel v1 v2 total in
  compare_free_stack_r ;;;
  mreturn res.

Definition caml_compare_r (fuel : nat) (v1 v2 : Z) : KM Z :=
  let* res := compare_and_free fuel v1 v2 true in
  mreturn (if res <? 0 then Val_int LESS else if 0 <? res then Val_int GREATER else Val_int EQUAL).
Definition caml_equal_r (fuel : nat) (v1 v2 : Z) : KM Z :=
  let* res := compare_and_free fuel v1 v2 false in mreturn (Val_bool (res =? 0)).
Definition caml_notequal_r (fuel : nat) (v1 v2 : Z) : KM Z :=
  let* res := compare_and_free fuel v1 v2 false in mreturn (Val_bool (negb (res =? 0))).
Definition caml_lessthan_r (fuel : nat) (v1 v2 : Z) : KM Z :=
  let* res := compare_and_free fuel v1 v2 false in mreturn (Val_bool ((res <? 0) && negb (res =? UNORDERED))).
Definition caml_lessequal_r (fuel : nat) (v1 v2 : Z) : KM Z :=
  let* res := compare_and_free fuel v1 v2 false in mreturn (Val_bool ((res <=? 0) && negb (res =? UNORDERED))).
Definition caml_greaterthan_r (fuel : nat) (v1 v2 : Z) : KM Z :=
  let* res := compare_and_free fuel v1 v2 false in mreturn (Val_bool (0 <? res)).
Definition caml_greaterequal_r (fuel : nat) (v1 v2 : Z) : KM Z :=
  let* res := compare_and_free fuel v1 v2 false in mreturn (Val_bool (0 <=? res)).
End Operations.

(** ** Data structures and their order *)

(** The data that [compare] accepts, without custom blocks: integers, strings,
    floats, arrays of floats, objects, blocks of the other tags, and values
    behind a forwarding block. *)
Inductive data : Type :=
  | DInt (n : Z)
  | DString (l : list Z)
  | DDouble (d : Z)
  | DDoubles (ds : list Z)
  | DObject (oid : Z)
  | DBlock (tag : Z) (fs : list data)
  | DForward (t : data).

Section DataInd.
Context (P : data → Prop) (HI : ∀ n, P (DInt n)) (HS : ∀ l, P (DString l)) (HD : ∀ d, P (DDouble d))
  (HA : ∀ ds, P (DDoubles ds)) (HO : ∀ o, P (DObject o)) (HB : ∀ tag fs, Forall P fs → P (DBlock tag fs))
  (HF : ∀ t, P t → P (DForward t)).

Fixpoint data_induction (t : data) : P t :=
  match t with
  | DInt n => HI n
  | DString l => HS l
  | DDouble d => HD d
  | DDoubles ds => HA ds
  | DObject o => HO o
  | DBlock tag fs => HB tag fs ((fix go fs := match fs return Forall P fs with
      | [] => Forall_nil_2 P | x :: fs => Forall_cons_2 P x fs (data_induction x) (go fs) end) fs)
  | DForward t => HF t (data_induction t)
  end.
End DataInd.

(** [None] when the values are not comparable. *)
Abbreviation order := (option comparison).

(** The first difference. *)
Definition then_ (r r' : order) : order := match r with Some Eq => r' | _ => r end.

(** Comparison of lists of the same length. *)
Section Lex.
Context {A : Type} (f : A → A → order).
Fixpoint lex (l1 l2 : list A) : order :=
  match l1, l2 with x :: l1, y :: l2 => then_ (f x y) (lex l1 l2) | _, _ => Some Eq end.

(** Shorter lists first. *)
Definition by_length (l1 l2 : list A) : order := then_ (Some (length l1 ?= length l2)%nat) (lex l1 l2).
End Lex.

(** NaN is below every number for a total comparison, and not comparable
    otherwise. *)
Definition double_order (total : bool) (d1 d2 : Z) : order :=
  match double_is_nan d1, double_is_nan d2 with
  | false, false => Some (double_rank d1 ?= double_rank d2)
  | n1, n2 => if total then Some (if n1 then if n2 then Eq else Lt else Gt) else None
  end.

Definition tag_of (t : data) : Z :=
  match t with
  | DString _ => String_tag | DDouble _ => Double_tag | DDoubles _ => Double_array_tag
  | DObject _ => Object_tag | DBlock tag _ => tag | _ => -1
  end.

Fixpoint strip (t : data) : data := match t with DForward t => strip t | _ => t end.

(** The structural order: integers before blocks, blocks by tag, then by their
    contents. *)
Fixpoint cmp (total : bool) (t1 t2 : data) {struct t1} : order :=
  match t1, strip t2 with
  | DForward t, _ => cmp total t t2
  | DInt a, DInt b => Some (a ?= b)
  | DInt _, _ => Some Lt
  | _, DInt _ => Some Gt
  | DString l1, DString l2 => Some (lex_compare l1 l2)
  | DDouble d1, DDouble d2 => double_order total d1 d2
  | DDoubles l1, DDoubles l2 => by_length (double_order total) l1 l2
  | DObject a, DObject b => Some (a ?= b)
  | DBlock g1 f1, DBlock g2 f2 =>
      then_ (Some (g1 ?= g2)) (by_length (cmp total) f1 f2)
  | d1, d2 => Some (tag_of d1 ?= tag_of d2)
  end.

Lemma cmp_block total g1 f1 g2 f2 :
  cmp total (DBlock g1 f1) (DBlock g2 f2) = then_ (Some (g1 ?= g2)) (by_length (cmp total) f1 f2).
Proof. reflexivity. Qed.

(** ** Representation in memory *)

Section Repr.
Context `{Runtime} (c : context).

Definition heap_block (v tag : Z) : Prop :=
  Is_block v = true ∧ Is_in_value_area c v = true ∧ load_byte (words c) (Hd_val v) = Some tag.
Definition block_size (v n : Z) : Prop :=
  ∃ hd, words c !! Hd_val v = Some hd ∧ Wosize_hd hd = n ∧ n < 2 ^ 54.

Section Fields.
Context (rep : data → Z → Prop).
Fixpoint fields_repr (p : Z) (fs : list data) : Prop :=
  match fs with [] => True | t :: fs => (∃ w, words c !! p = Some w ∧ rep t w) ∧ fields_repr (p + 8) fs end.
End Fields.

Fixpoint repr (t : data) (v : Z) : Prop :=
  match t with
  | DInt n => v = Val_long n ∧ Min_long <= n <= Max_long
  | DString l => heap_block v String_tag ∧ is_string (words c) v l
  | DDouble d => heap_block v Double_tag ∧ words c !! Field v 0 = Some d
  | DDoubles ds => heap_block v Double_array_tag ∧ block_size v (Z.of_nat (length ds)) ∧ seg (words c) v ds
  | DObject oid => heap_block v Object_tag ∧ words c !! Field v 1 = Some (Val_long oid) ∧ Min_long <= oid <= Max_long
  | DBlock tag fs =>
      heap_block v tag ∧ 0 <= tag < Closure_tag ∧ block_size v (Z.of_nat (length fs)) ∧
      fields_repr repr v fs
  | DForward t => heap_block v Forward_tag ∧ ∃ w, words c !! Field v 0 = Some w ∧ repr t w
  end.

Lemma repr_block tag fs v : repr (DBlock tag fs) v ↔
  heap_block v tag ∧ 0 <= tag < Closure_tag ∧ block_size v (Z.of_nat (length fs)) ∧ fields_repr repr v fs.
Proof. reflexivity. Qed.
End Repr.

(** What comparing needs: iterations, and slots of the stack. *)
Fixpoint data_size (t : data) : nat :=
  match t with
  | DBlock _ fs => S ((fix go fs := match fs with [] => 0 | x :: fs => data_size x + go fs end)%nat fs)
  | DForward t => S (data_size t)
  | _ => 1%nat
  end.
Definition sizes (fs : list data) : nat := (foldr (λ x n, data_size x + n) 0 fs)%nat.

Fixpoint stack_need (t : data) : nat :=
  match t with
  | DBlock _ fs => (fix go fs := match fs with
      | [] => 0 | [x] => stack_need x | x :: fs => Nat.max (S (stack_need x)) (go fs) end)%nat fs
  | DForward t => stack_need t
  | _ => 0%nat
  end.
Fixpoint needs (fs : list data) : nat :=
  match fs with [] => 0 | [x] => stack_need x | x :: fs => Nat.max (S (stack_need x)) (needs fs) end%nat.

Lemma data_size_block tag fs : data_size (DBlock tag fs) = S (sizes fs). Proof. reflexivity. Qed.
Lemma stack_need_block tag fs : stack_need (DBlock tag fs) = needs fs. Proof. reflexivity. Qed.

(** The result [z] of the code says [r]. *)
Definition verdict (r : order) (z : Z) : Prop :=
  match r with
  | Some Lt => z < 0 ∧ z ≠ UNORDERED
  | Some Eq => z = 0
  | Some Gt => 0 < z
  | None => z = UNORDERED
  end.

(** ** Steps on memory *)

Lemma lift_eq {A} (m : CM A) s x : m (cx s) = inr (cx s, x) → lift m s = inr (s, x).
Proof. unfold lift. intros ->. by destruct s. Qed.

Section Access.
Context `{Runtime}.

Lemma tag_eq s v t : heap_block (cx s) v t → lift (Tag_val v) s = inr (s, t).
Proof. intros (_ & _ & Ht). apply lift_eq. by apply ldb_eq. Qed.

Lemma wosize_eq s v n : block_size (cx s) v n → lift (Wosize_val v) s = inr (s, n).
Proof. intros (hd & Hh & <- & _). apply lift_eq. unfold Wosize_val, mbnd, ld. by rewrite Hh. Qed.

Lemma word_eq s a w : words (cx s) !! a = Some w → lift (ld a) s = inr (s, w).
Proof. intros Hw. apply lift_eq. unfold ld. by rewrite Hw. Qed.

Lemma oid_eq s v oid : words (cx s) !! Field v 1 = Some (Val_long oid) → Min_long <= oid <= Max_long →
  lift (Hash.Oid_val v) s = inr (s, oid).
Proof.
  intros Hw Hr. apply lift_eq. unfold Hash.Oid_val, mbnd, ld. rewrite Hw. unfold mreturn.
  by rewrite Long_val_Val_long, s63_small.
Qed.

Lemma heap_block_tag c v t1 t2 : heap_block c v t1 → heap_block c v t2 → t1 = t2.
Proof. intros (_ & _ & H1) (_ & _ & H2). congruence. Qed.

Lemma heap_block_long c v t : heap_block c v t → Is_long v = false.
Proof. intros (Hb & _ & _). rewrite Is_long_odd, <- Z.negb_even, <- Is_block_even. by rewrite Hb. Qed.

Lemma Val_long_block c n t : heap_block c (Val_long n) t → False.
Proof. intros Hb. apply heap_block_long in Hb. by rewrite Is_long_Val_long in Hb. Qed.
End Access.

(** ** Properties of the order *)

Lemma cmp_forward_r total t1 t2 : cmp total t1 (DForward t2) = cmp total t1 t2.
Proof. induction t1 using data_induction; try reflexivity. exact IHt1. Qed.

Lemma double_order_refl d : double_order true d d = Some Eq.
Proof. unfold double_order. destruct (double_is_nan d); [done|]. by rewrite Z.compare_refl. Qed.

Lemma lex_refl {A} (f : A → A → order) l : Forall (λ x, f x x = Some Eq) l → lex f l l = Some Eq.
Proof. induction 1 as [|x l Hx Hl IH]; cbn; [done|]. by rewrite Hx. Qed.

Section Same.
Context `{Runtime} (c : context).

(** What kind of value it is. *)
Lemma repr_kind t v : repr c t v →
  match t with DInt n => v = Val_long n | DForward _ => heap_block c v Forward_tag | _ => heap_block c v (tag_of t) end ∧
  match t with DBlock tag _ => 0 <= tag < Closure_tag | _ => True end.
Proof. destruct t; cbn [repr tag_of]; tauto. Qed.

Lemma same_fields v f1 : Forall (λ t1, ∀ t2 v, repr c t1 v → repr c t2 v → cmp true t1 t2 = Some Eq) f1 →
  ∀ f2, length f1 = length f2 → fields_repr c (repr c) v f1 → fields_repr c (repr c) v f2 → lex (cmp true) f1 f2 = Some Eq.
Proof.
  intros HF. revert v. induction HF as [|x f1 Hx HF IH]; intros v [|y f2]; cbn; try done. intros [= Hl] [(w & Ew & Hw) H1] [(w' & Ew' & Hw') H2].
  assert (w' = w) as -> by congruence. rewrite (Hx y w) by done. cbn. by apply (IH (v + 8)).
Qed.

(** Two readings of the same value are equal. *)
Lemma same_value t1 : ∀ t2 v, repr c t1 v → repr c t2 v → cmp true t1 t2 = Some Eq.
Proof.
  induction t1 as [n|l|d|ds|o|tag fs IH|t IH] using data_induction; intros t2 v H1 H2;
    destruct (repr_kind _ _ H1) as [K1 K1']; destruct (repr_kind _ _ H2) as [K2 K2'];
    destruct t2 as [n2|l2|d2|ds2|o2|tag2 fs2|t2]; cbn [tag_of] in *;
    try (subst v; exfalso; by eapply Val_long_block);
    try (pose proof (heap_block_tag _ _ _ _ K1 K2) as Et; unfold Closure_tag, Forward_tag, String_tag, Double_tag, Double_array_tag, Object_tag in *; lia);
    try (cbn [repr] in H1, H2).
  - destruct H1 as [-> R1], H2 as [E2 R2]. cbn. f_equal. apply Z.compare_eq_iff.
    rewrite Val_long_congr, !s63_small in E2 by done. done.
  - destruct H1 as [_ S1], H2 as [_ S2]. rewrite (is_string_inj c v l l2 S1 S2). cbn. by rewrite lex_compare_refl.
  - destruct H1 as [_ D1], H2 as [_ D2]. assert (d2 = d) as -> by congruence. apply double_order_refl.
  - destruct H1 as (_ & (hd & E1 & S1 & _) & G1), H2 as (_ & (hd' & E2 & S2 & _) & G2).
    assert (length ds = length ds2) as El by (assert (hd' = hd) by congruence; subst; lia).
    rewrite (seg_det _ _ _ _ G1 G2 El). cbn. unfold by_length. rewrite Nat.compare_refl. cbn. apply lex_refl.
    apply Forall_true. intros x. apply double_order_refl.
  - destruct H1 as (_ & E1 & R1), H2 as (_ & E2 & R2). rewrite E1 in E2. injection E2 as E2.
    rewrite Val_long_congr, !s63_small in E2 by done. subst. cbn. by rewrite Z.compare_refl.
  - apply repr_block in H1 as (_ & _ & (hd & E1 & S1 & _) & G1). apply repr_block in H2 as (_ & _ & (hd' & E2 & S2 & _) & G2).
    rewrite (heap_block_tag _ _ _ _ K1 K2) in *. rewrite cmp_block, Z.compare_refl. cbn.
    assert (length fs = length fs2) as El by (assert (hd' = hd) by congruence; subst; lia).
    unfold by_length. rewrite El, Nat.compare_refl. cbn. by apply (same_fields v).
  - destruct H1 as (_ & w & E1 & R1), H2 as (_ & w' & E2 & R2). assert (w' = w) as -> by congruence.
    rewrite cmp_forward_r. by apply (IH _ w).
Qed.
End Same.

(** ** The loop *)

Lemma verdict_sub a b : - 2 ^ 62 <= a < 2 ^ 62 → - 2 ^ 62 <= b < 2 ^ 62 → verdict (Some (a ?= b)) (a - b).
Proof.
  intros Ha Hb. change (2 ^ 62) with 4611686018427387904 in *. unfold verdict. change UNORDERED with (- 9223372036854775808).
  destruct (Z.compare_spec a b); lia.
Qed.

Lemma verdict_size (n k : nat) : Z.of_nat n < 2 ^ 56 → Z.of_nat k < 2 ^ 56 →
  verdict (Some (n ?= k)%nat) (s64 (Z.of_nat n - Z.of_nat k)).
Proof.
  intros Hn Hk. change (2 ^ 56) with 72057594037927936 in *. rewrite s64_small by lia_w. rewrite <- Nat2Z.inj_compare. apply verdict_sub; lia.
Qed.

Lemma then_neq r r' : r ≠ Some Eq → then_ r r' = r.
Proof. destruct r as [[]|]; done. Qed.

Lemma then_assoc r1 r2 r3 : then_ (then_ r1 r2) r3 = then_ r1 (then_ r2 r3).
Proof. by destruct r1 as [[]|]. Qed.

Lemma compare_doubles_order total d1 d2 :
  match compare_doubles total d1 d2 with
  | Some z => double_order total d1 d2 ≠ Some Eq ∧ verdict (double_order total d1 d2) z
  | None => double_order total d1 d2 = Some Eq
  end.
Proof.
  unfold compare_doubles, double_order, double_lt, double_eq.
  destruct (double_is_nan d1), (double_is_nan d2), total; cbn [negb andb]; rewrite ?Z.eqb_refl; cbn; try done.
  all: destruct (Z.compare_spec (double_rank d1) (double_rank d2)) as [E|E|E];
    rewrite ?(proj2 (Z.ltb_lt _ _) E), ?(proj2 (Z.ltb_ge (double_rank d1) (double_rank d2))), ?(proj2 (Z.ltb_lt (double_rank d2) (double_rank d1))), 
      ?(proj2 (Z.ltb_ge (double_rank d2) (double_rank d1))), ?(proj2 (Z.eqb_eq _ _) E) by lia; cbn; done.
Qed.

Section Loop.
Context `{Runtime} `{CustomCompare} (malloc_ok : Z → bool) (oom : Z).
Hypothesis malloc_succeeds : ∀ n, malloc_ok n = true.

Record item_repr (c : context) (it : compare_item) (p : list data * list data) : Prop := {
  item_length : Z.of_nat (length p.1) = item_count it ∧ length p.2 = length p.1 ∧ (0 < length p.1)%nat;
  item_first : fields_repr c (repr c) (item_v1 it) p.1;
  item_second : fields_repr c (repr c) (item_v2 it) p.2
}.

(** The comparison of the pairs of lists on the stack. *)
Fixpoint cmp_stack (total : bool) (st : list (list data * list data)) : order :=
  match st with [] => Some Eq | (l1, l2) :: st => then_ (lex (cmp total) l1 l2) (cmp_stack total st) end.

(** Iterations and slots that the stack stands for. *)
Fixpoint stack_work (st : list (list data * list data)) : nat :=
  match st with [] => 0 | (l1, l2) :: st => sizes l1 + sizes l2 + stack_work st end%nat.
Fixpoint stack_fits (n : nat) (st : list (list data * list data)) : Prop :=
  match st with [] => True | (l1, _) :: st => (length st + needs l1 <= n)%nat ∧ stack_fits n st end.

Definition max_depth : nat := Z.to_nat 524287.

Record stack_ok (s : cstate) (st : list (list data * list data)) : Prop := {
  stack_items : Forall2 (item_repr (cx s)) (compare_stack s) st;
  stack_room : Z.of_nat (length (compare_stack s)) < compare_stack_size s;
  stack_depth : stack_fits max_depth st;
  stack_init : compare_stack_is_init s = true → compare_stack_size s = COMPARE_STACK_INIT_SIZE
}.

Lemma push_spec s it : Z.of_nat (length (compare_stack s)) < compare_stack_size s → (length (compare_stack s) < max_depth)%nat →
  (compare_stack_is_init s = true → compare_stack_size s = COMPARE_STACK_INIT_SIZE) →
  ∃ s', push_item malloc_ok oom it s = inr (s', tt) ∧ cx s' = cx s ∧ compare_stack s' = it :: compare_stack s ∧
    Z.of_nat (length (compare_stack s')) < compare_stack_size s' ∧
    (compare_stack_is_init s' = true → compare_stack_size s' = COMPARE_STACK_INIT_SIZE).
Proof.
  intros Hr Hd Hi. unfold max_depth in Hd. unfold push_item, mbnd, mget. cbn beta iota.
  destruct (Z.leb_spec (compare_stack_size s) (Z.of_nat (length (compare_stack s)) + 1)) as [Hl|Hl].
  - unfold compare_resize_stack_r, mbnd, mget, COMPARE_STACK_MAX_SIZE. cbn beta iota.
    rewrite (proj2 (Z.leb_gt _ _)) by lia. rewrite malloc_succeeds. cbn. eexists. split_and!; [reflexivity|done|done| |done]. cbn. lia.
  - cbn. eexists. split_and!; [reflexivity|done|done| |done]. cbn. lia.
Qed.

(** What an iteration that compares [t1] and [t2] does. *)
Definition iterates (total : bool) (t1 t2 : data) (st : list (list data * list data)) (s : cstate) (m : KM next_step) : Prop :=
  ∃ s' r, m s = inr (s', r) ∧ cx s' = cx s ∧
  match r with
  | Return z => cmp total t1 t2 ≠ Some Eq ∧ verdict (cmp total t1 t2) z ∧ s' = s
  | Next_item => cmp total t1 t2 = Some Eq ∧ s' = s
  | Continue w1 w2 => ∃ u1 u2 st', repr (cx s) u1 w1 ∧ repr (cx s) u2 w2 ∧ stack_ok s' st' ∧ (length st' + stack_need u1 <= max_depth)%nat ∧
      then_ (cmp total t1 t2) (cmp_stack total st) = then_ (cmp total u1 u2) (cmp_stack total st') ∧
      (data_size u1 + data_size u2 + stack_work st' < data_size t1 + data_size t2 + stack_work st)%nat
  end.

Lemma iterates_return total t1 t2 st s z :
  cmp total t1 t2 ≠ Some Eq → verdict (cmp total t1 t2) z → iterates total t1 t2 st s (mreturn (Return z)).
Proof. intros H1 H2. exists s, (Return z). done. Qed.

Lemma iterates_next total t1 t2 st s : cmp total t1 t2 = Some Eq → iterates total t1 t2 st s (mreturn Next_item).
Proof. intros H1. exists s, Next_item. done. Qed.

Lemma iterates_bind {A} total t1 t2 st s (m : KM A) k x :
  m s = inr (s, x) → iterates total t1 t2 st s (k x) → iterates total t1 t2 st s (mbnd m k).
Proof. intros Em (s' & r & E & Hr). exists s', r. by rewrite (mbnd_eq _ _ _ _ _ Em). Qed.

(** Following a forwarding block. *)
Lemma iterates_forward_l total t1 t2 st s v1 v2 : stack_ok s st → (length st + stack_need t1 <= max_depth)%nat →
  repr (cx s) (DForward t1) v1 → repr (cx s) t2 v2 →
  iterates total (DForward t1) t2 st s (let* w := lift (Hash.Forward_val v1) in mreturn (Continue w v2)).
Proof.
  intros Hs Hd (_ & w & Ew & Hw) H2. eapply iterates_bind; [by apply word_eq|]. exists s, (Continue w v2). split_and!; [done|done|].
  exists t1, t2, st. split_and!; try done. cbn [data_size]. lia.
Qed.

Lemma iterates_forward_r total t1 t2 st s v1 v2 : stack_ok s st → (length st + stack_need t1 <= max_depth)%nat →
  repr (cx s) t1 v1 → repr (cx s) (DForward t2) v2 →
  iterates total t1 (DForward t2) st s (let* w := lift (Hash.Forward_val v2) in mreturn (Continue v1 w)).
Proof.
  intros Hs Hd H1 (_ & w & Ew & Hw). eapply iterates_bind; [by apply word_eq|]. exists s, (Continue v1 w). split_and!; [done|done|].
  exists t1, t2, st. rewrite cmp_forward_r. split_and!; try done. cbn [data_size]. lia.
Qed.

Lemma strings_spec total l1 l2 st s v1 v2 : is_string (words (cx s)) v1 l1 → is_string (words (cx s)) v2 l2 →
  iterates total (DString l1) (DString l2) st s (compare_strings v1 v2).
Proof.
  intros S1 S2. unfold compare_strings. destruct (Z.eqb_spec v1 v2) as [->|_].
  { apply iterates_next. rewrite (is_string_inj _ _ _ _ S1 S2). cbn. by rewrite lex_compare_refl. }
  eapply iterates_bind; [by apply lift_eq, string_length_eq|]. eapply iterates_bind; [by apply lift_eq, string_length_eq|].
  pose proof (string_bytes _ _ _ S1) as [B1 _]%bytes_at_app. pose proof (string_bytes _ _ _ S2) as [B2 _]%bytes_at_app.
  replace (Z.to_nat (if Z.of_nat (length l1) <=? Z.of_nat (length l2) then Z.of_nat (length l1) else Z.of_nat (length l2)))
    with (length l1 `min` length l2)%nat by (destruct (Z.leb_spec (Z.of_nat (length l1)) (Z.of_nat (length l2))); lia).
  destruct (memcmp_spec (cx s) _ v1 v2 l1 l2 B1 B2 eq_refl) as (r & Er & Hlt & Hgt & Heq).
  eapply iterates_bind; [by apply lift_eq|]. assert (cmp total (DString l1) (DString l2) = Some (lex_compare l1 l2)) as Ec by done.
  destruct (Z.ltb_spec r 0); [apply iterates_return; rewrite Ec, Hlt by done; cbn; done|].
  destruct (Z.ltb_spec 0 r); [apply iterates_return; rewrite Ec, Hgt by done; cbn; done|].
  rewrite Heq in Ec by lia. destruct (Z.eqb_spec (Z.of_nat (length l1)) (Z.of_nat (length l2))) as [E|E]; cbn [negb].
  - apply iterates_next. rewrite Ec. f_equal. apply Nat.compare_eq_iff. lia.
  - apply iterates_return; rewrite Ec; [intros [= E'%Nat.compare_eq_iff]; lia|].
    apply verdict_size; [apply (string_small _ _ _ S1)|apply (string_small _ _ _ S2)].
Qed.

Lemma double_fields_spec total s n : ∀ i v1 v2 ds1 ds2, length ds1 = n → length ds2 = n →
  seg (words (cx s)) (Field v1 i) ds1 → seg (words (cx s)) (Field v2 i) ds2 →
  ∃ r, compare_double_fields n i v1 v2 total s = inr (s, r) ∧
    match r with
    | Return z => lex (double_order total) ds1 ds2 ≠ Some Eq ∧ verdict (lex (double_order total) ds1 ds2) z
    | Next_item => lex (double_order total) ds1 ds2 = Some Eq
    | Continue _ _ => False
    end.
Proof.
  induction n as [|n IH]; intros i v1 v2 [|d1 ds1] [|d2 ds2]; try done; cbn [compare_double_fields lex].
  - intros _ _ _ _. by exists Next_item.
  - intros [= L1] [= L2] [E1 G1] [E2 G2]. rewrite (mbnd_eq _ _ _ _ _ (word_eq _ _ _ E1)), (mbnd_eq _ _ _ _ _ (word_eq _ _ _ E2)).
    pose proof (compare_doubles_order total d1 d2) as Hd. destruct (compare_doubles total d1 d2) as [z|].
    + exists (Return z). split; [done|]. by rewrite then_neq by apply Hd.
    + rewrite Hd. cbn. unfold Field in *. apply IH; [done|done| |].
      * by replace (v1 + 8 * (i + 1)) with (v1 + 8 * i + 8) by lia.
      * by replace (v2 + 8 * (i + 1)) with (v2 + 8 * i + 8) by lia.
Qed.


Lemma fields_cons c p t fs : fields_repr c (repr c) p (t :: fs) ↔
  (∃ w, words c !! p = Some w ∧ repr c t w) ∧ fields_repr c (repr c) (p + 8) fs.
Proof. reflexivity. Qed.

(** Two blocks of fields. *)
Lemma fields_spec total g f1 f2 st s v1 v2 : stack_ok s st → (length st + needs f1 <= max_depth)%nat →
  repr (cx s) (DBlock g f1) v1 → repr (cx s) (DBlock g f2) v2 →
  iterates total (DBlock g f1) (DBlock g f2) st s
    (let* sz1 := lift (Wosize_val v1) in
     let* sz2 := lift (Wosize_val v2) in
     if negb (sz1 =? sz2) then mreturn (Return (s64 (sz1 - sz2))) else
     if sz1 =? 0 then mreturn Next_item else
     (if 1 <? sz1 then push_item malloc_ok oom (CItem (Field v1 1) (Field v2 1) (sz1 - 1)) else mreturn tt) ;;;
     let* w1 := lift (ld (Field v1 0)) in
     let* w2 := lift (ld (Field v2 0)) in
     mreturn (Continue w1 w2)).
Proof.
  intros Hs Hd (_ & _ & B1 & F1)%repr_block (_ & _ & B2 & F2)%repr_block.
  eapply iterates_bind; [by apply wosize_eq|]. eapply iterates_bind; [by apply wosize_eq|].
  destruct B1 as (? & _ & _ & L1). destruct B2 as (? & _ & _ & L2). change (2 ^ 54) with 18014398509481984 in *.
  assert (cmp total (DBlock g f1) (DBlock g f2) = by_length (cmp total) f1 f2) as Ec by (rewrite cmp_block, Z.compare_refl; done).
  unfold by_length in Ec.
  destruct (Z.eqb_spec (Z.of_nat (length f1)) (Z.of_nat (length f2))) as [El|El]; cbn [negb].
  2: { assert ((length f1 ?= length f2)%nat ≠ Eq) as Hne by (intros E%Nat.compare_eq_iff; lia).
       rewrite then_neq in Ec by congruence. apply iterates_return; rewrite Ec; [congruence|]. apply verdict_size; cbn; lia. }
  rewrite (proj2 (Nat.compare_eq_iff _ _)) in Ec by lia. cbn [then_] in Ec.
  destruct f1 as [|x1 f1], f2 as [|x2 f2]; cbn [length] in *; try lia; [by apply iterates_next|].
  rewrite (proj2 (Z.eqb_neq _ _)) by lia. apply fields_cons in F1 as [(w1 & E1 & R1) F1]. apply fields_cons in F2 as [(w2 & E2 & R2) F2].
  assert (∀ s', cx s' = cx s → (let* w1 := lift (ld (Field v1 0)) in let* w2 := lift (ld (Field v2 0)) in mreturn (Continue w1 w2)) s' = inr (s', Continue w1 w2)) as Eld.
  { intros s' Ecx. unfold Field. rewrite !Z.mul_0_r, !Z.add_0_r.
    rewrite (mbnd_eq _ _ s' s' w1) by (apply word_eq; by rewrite Ecx). by rewrite (mbnd_eq _ _ s' s' w2) by (apply word_eq; by rewrite Ecx). }
  destruct Hs as [Hi Hr Hf Hin]. pose proof (Forall2_length _ _ _ Hi) as Hlen.
  destruct f1 as [|y1 f1], f2 as [|y2 f2]; cbn [length] in *; try lia.
  - exists s, (Continue w1 w2). split_and!; [by apply Eld|done|]. exists x1, x2, st. split_and!; try done.
    + rewrite Ec. cbn [lex]. destruct (cmp total x1 x2) as [[]|]; done.
    + rewrite !data_size_block. unfold sizes. cbn. lia.
  - rewrite (proj2 (Z.ltb_lt _ _)) by lia. change (needs (x1 :: y1 :: f1)) with (Nat.max (S (stack_need x1)) (needs (y1 :: f1))) in Hd.
    destruct (push_spec s (CItem (Field v1 1) (Field v2 1) (Z.of_nat (S (S (length f1))) - 1)) Hr) as (s1 & Ep & Ecx & Est & Hroom & Hin1); [lia|done|].
    exists s1, (Continue w1 w2). rewrite (mbnd_eq _ _ _ _ _ Ep). split_and!; [by apply Eld|done|].
    exists x1, x2, ((y1 :: f1, y2 :: f2) :: st). split_and!; try done.
    + split; [rewrite Est, Ecx; constructor; [|done]| |cbn [stack_fits]; split; [lia|done]|done].
      * split; cbn [item_count item_v1 item_v2 fst snd]; [cbn [length]; lia| |].
        -- unfold Field. by rewrite Z.mul_1_r.
        -- unfold Field. by rewrite Z.mul_1_r.
      * done.
    + cbn [length]. lia.
    + rewrite Ec. change (cmp_stack total ((y1 :: f1, y2 :: f2) :: st)) with (then_ (lex (cmp total) (y1 :: f1) (y2 :: f2)) (cmp_stack total st)).
      cbn [lex]. rewrite !then_assoc. done.
    + rewrite !data_size_block. unfold sizes. cbn. lia.
Qed.

(** The tags of the special blocks are not those of the others. *)
Ltac tag_tests := unfold Forward_tag, String_tag, Double_tag, Double_array_tag, Abstract_tag, Closure_tag, Infix_tag, Object_tag, Custom_tag in *;
  repeat match goal with |- context [?a =? ?b] => rewrite (proj2 (Z.eqb_neq a b)) by lia end; cbn [orb].

Definition is_plain_block (t : data) : Prop := match t with DInt _ | DForward _ => False | _ => True end.

(** Two blocks with the same tag. *)
Lemma blocks_spec total t1 t2 st s v1 v2 : stack_ok s st → (length st + stack_need t1 <= max_depth)%nat →
  is_plain_block t1 → is_plain_block t2 → tag_of t1 = tag_of t2 → repr (cx s) t1 v1 → repr (cx s) t2 v2 →
  iterates total t1 t2 st s (compare_blocks malloc_ok oom (tag_of t1) v1 v2 total).
Proof.
  intros Hs Hd P1 P2 Et H1 H2. destruct (repr_kind _ _ _ H1) as [_ K1]. destruct (repr_kind _ _ _ H2) as [_ K2].
  destruct t1 as [|l1|d1|ds1|o1|g1 f1|]; try done; destruct t2 as [|l2|d2|ds2|o2|g2 f2|]; try done; cbn [tag_of] in *;
    try (unfold Forward_tag, String_tag, Double_tag, Double_array_tag, Closure_tag, Object_tag in *; lia); unfold compare_blocks.
  - apply strings_spec; [apply H1|apply H2].
  - destruct H1 as [_ E1], H2 as [_ E2]. cbn. eapply iterates_bind; [by apply word_eq|]. eapply iterates_bind; [by apply word_eq|].
    pose proof (compare_doubles_order total d1 d2) as Hc. destruct (compare_doubles total d1 d2); cbn [of_option].
    + by apply iterates_return; apply Hc.
    + by apply iterates_next.
  - destruct H1 as (_ & B1 & G1), H2 as (_ & B2 & G2). cbn -[s64 Z.of_nat Z.div compare_double_fields].
    eapply iterates_bind; [by apply wosize_eq|]. eapply iterates_bind; [by apply wosize_eq|].
    unfold Double_wosize. rewrite !Z.div_1_r. destruct B1 as (? & _ & _ & L1). destruct B2 as (? & _ & _ & L2). change (2 ^ 54) with 18014398509481984 in *.
    assert (cmp total (DDoubles ds1) (DDoubles ds2) = by_length (double_order total) ds1 ds2) as Ec by done. unfold by_length in Ec.
    destruct (Z.eqb_spec (Z.of_nat (length ds1)) (Z.of_nat (length ds2))) as [El|El]; cbn [negb].
    + rewrite (proj2 (Nat.compare_eq_iff _ _)) in Ec by lia. cbn [then_] in Ec. rewrite Nat2Z.id.
      destruct (double_fields_spec total s (length ds1) 0 v1 v2 ds1 ds2) as (r & E & Hr); try done; try lia;
        [unfold Field; by rewrite Z.mul_0_r, Z.add_0_r..|].
      exists s, r. split_and!; [done|done|]. rewrite Ec. destruct r; [|by split|done]. split_and!; [apply Hr..|done].
    + assert ((length ds1 ?= length ds2)%nat ≠ Eq) as Hne by (intros E%Nat.compare_eq_iff; lia).
      rewrite then_neq in Ec by congruence. apply iterates_return; rewrite Ec; [congruence|]. apply verdict_size; cbn; lia.
  - destruct H1 as (_ & E1 & R1), H2 as (_ & E2 & R2). cbn -[Hash.Oid_val].
    eapply iterates_bind; [by apply oid_eq|]. eapply iterates_bind; [by apply oid_eq|].
    destruct (Z.eqb_spec o1 o2) as [->|Hne]; cbn [negb].
    + apply iterates_next. cbn. by rewrite Z.compare_refl.
    + apply iterates_return; cbn; [intros [= E%Z.compare_eq_iff]; done|]. apply verdict_sub; unfold Min_long, Max_long in *; lia.
  - subst g2. tag_tests. by apply fields_spec.
Qed.

(** An integer and a block. *)
Lemma long_block_spec total n t2 st s v1 v2 : stack_ok s st → (length st <= max_depth)%nat →
  repr (cx s) (DInt n) v1 → repr (cx s) t2 v2 → (∀ k, t2 ≠ DInt k) →
  iterates total (DInt n) t2 st s (compare_long_block v1 v2 v2 false total).
Proof.
  intros Hs Hd H1 H2 Hne. destruct (repr_kind _ _ _ H2) as [K2 _]. unfold compare_long_block. apply (iterates_bind _ _ _ _ _ mget _ s); [done|].
  assert (heap_block (cx s) v2 (if t2 is DForward _ then Forward_tag else tag_of t2)) as Hb by (destruct t2; try done; by destruct (Hne n0)).
  assert (cmp total (DInt n) t2 = match strip t2 with DInt b => Some (n ?= b) | _ => Some Lt end) as Ec by done.
  pose proof Hb as (_ & -> & _). eapply iterates_bind; [by apply tag_eq|]. destruct t2 as [k|?|?|?|?|tag ?|t2]; [by destruct (Hne k)|..]; cbn [tag_of].
  1-4: apply iterates_return; rewrite Ec; cbn; done.
  - destruct H2 as (_ & Ht & _). cbn [tag_of] in *. tag_tests. apply iterates_return; rewrite Ec; cbn; done.
  - cbn -[Hash.Forward_val Forward_tag]. rewrite Z.eqb_refl. apply iterates_forward_r; [done|cbn; lia|done|done].
Qed.

Lemma cmp_block_int total t1 k : is_plain_block t1 → cmp total t1 (DInt k) = Some Gt.
Proof. by destruct t1. Qed.

Lemma block_long_spec total t1 n st s v1 v2 : stack_ok s st → (length st + stack_need t1 <= max_depth)%nat →
  repr (cx s) t1 v1 → repr (cx s) (DInt n) v2 → (∀ k, t1 ≠ DInt k) →
  iterates total t1 (DInt n) st s (compare_long_block v1 v2 v1 true total).
Proof.
  intros Hs Hd H1 H2 Hne. destruct (repr_kind _ _ _ H1) as [K1 _]. unfold compare_long_block. apply (iterates_bind _ _ _ _ _ mget _ s); [done|].
  assert (heap_block (cx s) v1 (if t1 is DForward _ then Forward_tag else tag_of t1)) as Hb by (destruct t1; try done; by destruct (Hne n0)).
  pose proof Hb as (_ & -> & _). eapply iterates_bind; [by apply tag_eq|]. destruct t1 as [k|?|?|?|?|tag ?|t1]; [by destruct (Hne k)|..]; cbn [tag_of].
  1-4: apply iterates_return; rewrite cmp_block_int by done; cbn; done.
  - destruct H1 as (_ & Ht & _). cbn [tag_of] in *. tag_tests. apply iterates_return; rewrite cmp_block_int by done; cbn; done.
  - cbn -[Hash.Forward_val Forward_tag]. rewrite Z.eqb_refl. by apply iterates_forward_l.
Qed.

Lemma cmp_tags total t1 t2 : is_plain_block t1 → is_plain_block t2 → tag_of t1 ≠ tag_of t2 → cmp total t1 t2 = Some (tag_of t1 ?= tag_of t2).
Proof.
  intros P1 P2 Hne. destruct t1, t2; try done. cbn in Hne. rewrite cmp_block. apply then_neq. intros [= E%Z.compare_eq_iff]. done.
Qed.

Lemma int_or_not t : (∃ n, t = DInt n) ∨ ∀ n, t ≠ DInt n.
Proof. destruct t; [left; eauto|right; done..]. Qed.

(** A value that is not an integer is a block, with a tag of its own. *)
Lemma not_int_block c t v : repr c t v → (∀ n, t ≠ DInt n) → heap_block c v (if t is DForward _ then Forward_tag else tag_of t).
Proof. intros Hr Hne. destruct (repr_kind _ _ _ Hr) as [K _]. destruct t; try done. by destruct (Hne n). Qed.

Lemma plain_tag c t v : repr c t v → is_plain_block t → 0 <= tag_of t < 256 ∧ tag_of t ≠ Forward_tag.
Proof.
  intros Hr Hp. destruct (repr_kind _ _ _ Hr) as [_ K]. unfold Closure_tag, Forward_tag in *.
  destruct t; try done; cbn; unfold String_tag, Double_tag, Double_array_tag, Object_tag; lia.
Qed.

Lemma forward_or_plain t : (∀ n, t ≠ DInt n) → (∃ u, t = DForward u) ∨ is_plain_block t.
Proof. intros Hn. destruct t as [n|?|?|?|?|? ?|u]; [by destruct (Hn n)|right; exact I..|left; by exists u]. Qed.

Lemma two_blocks_spec total t1 t2 st s v1 v2 : stack_ok s st → (length st + stack_need t1 <= max_depth)%nat →
  repr (cx s) t1 v1 → repr (cx s) t2 v2 → (∀ n, t1 ≠ DInt n) → (∀ n, t2 ≠ DInt n) →
  iterates total t1 t2 st s
    (let* t1 := lift (Tag_val v1) in
     let* t2 := lift (Tag_val v2) in
     if t1 =? Forward_tag then let* w := lift (Hash.Forward_val v1) in mreturn (Continue w v2)
     else if t2 =? Forward_tag then let* w := lift (Hash.Forward_val v2) in mreturn (Continue v1 w)
     else if negb (t1 =? t2) then mreturn (Return (t1 - t2))
     else compare_blocks malloc_ok oom t1 v1 v2 total).
Proof.
  intros Hs Hd H1 H2 N1 N2.
  eapply iterates_bind; [by apply tag_eq, not_int_block|]. eapply iterates_bind; [by apply tag_eq, not_int_block|].
  destruct (forward_or_plain t1 N1) as [[t ->]|P1].
  { rewrite Z.eqb_refl. by apply iterates_forward_l. }
  destruct (plain_tag _ _ _ H1 P1) as [G1 F1].
  replace (if t1 is DForward _ then Forward_tag else tag_of t1) with (tag_of t1) by (by destruct t1).
  rewrite (proj2 (Z.eqb_neq (tag_of t1) Forward_tag)) by done.
  destruct (forward_or_plain t2 N2) as [[t ->]|P2].
  { rewrite Z.eqb_refl. by apply iterates_forward_r. }
  destruct (plain_tag _ _ _ H2 P2) as [G2 F2].
  replace (if t2 is DForward _ then Forward_tag else tag_of t2) with (tag_of t2) by (by destruct t2).
  rewrite (proj2 (Z.eqb_neq (tag_of t2) Forward_tag)) by done.
  destruct (Z.eqb_spec (tag_of t1) (tag_of t2)) as [Et|Et]; cbn [negb]; [by apply blocks_spec|].
  apply iterates_return; rewrite cmp_tags by done; [intros [= E%Z.compare_eq_iff]; done|]. apply verdict_sub; lia.
Qed.

Lemma iteration_spec total t1 t2 st s v1 v2 : stack_ok s st → (length st + stack_need t1 <= max_depth)%nat →
  repr (cx s) t1 v1 → repr (cx s) t2 v2 → iterates total t1 t2 st s (compare_iteration malloc_ok oom v1 v2 total).
Proof.
  intros Hs Hd H1 H2. unfold compare_iteration. apply (iterates_bind _ _ _ _ _ mget _ s); [done|].
  destruct ((v1 =? v2) && total) eqn:E0.
  { apply andb_true_iff in E0 as [->%Z.eqb_eq ->]. apply iterates_next. by apply (same_value (cx s) t1 t2 v2). }
  destruct (int_or_not t1) as [[n ->]|N1].
  - pose proof H1 as [E1 R1]. rewrite E1 at 1. rewrite Is_long_Val_long. destruct (int_or_not t2) as [[k ->]|N2].
    + pose proof H2 as [E2 R2]. assert (v1 = v2 ↔ n = k) as Hiff by (rewrite E1, E2, Val_long_congr, !s63_small by done; done).
      destruct (Z.eqb_spec v1 v2) as [E|E].
      * apply iterates_next. cbn. by rewrite (proj1 Hiff E), Z.compare_refl.
      * rewrite E2, Is_long_Val_long, E1, !Long_val_Val_long, !s63_small by done.
        apply iterates_return; cbn; [intros [= E'%Z.compare_eq_iff]; by apply E, Hiff|]. apply verdict_sub; unfold Min_long, Max_long in *; lia.
    + pose proof (heap_block_long _ _ _ (not_int_block _ _ _ H2 N2)) as El.
      destruct (Z.eqb_spec v1 v2) as [E|E]; [rewrite <- E, E1, Is_long_Val_long in El; done|]. rewrite El. apply long_block_spec; try done. lia.
  - pose proof (not_int_block _ _ _ H1 N1) as B1. rewrite (heap_block_long _ _ _ B1). destruct (int_or_not t2) as [[k ->]|N2].
    + pose proof H2 as [E2 _]. rewrite E2 at 1. rewrite Is_long_Val_long. by apply block_long_spec.
    + pose proof (not_int_block _ _ _ H2 N2) as B2. rewrite (heap_block_long _ _ _ B2).
      pose proof B1 as (_ & -> & _). pose proof B2 as (_ & -> & _). cbn [negb orb]. by apply two_blocks_spec.
Qed.

Lemma pop_spec s st : stack_ok s st →
  match st with
  | [] => pop_item s = inr (s, None)
  | (l1, l2) :: rest => ∃ x1 k1 x2 k2 s' w1 w2, l1 = x1 :: k1 ∧ l2 = x2 :: k2 ∧ pop_item s = inr (s', Some (w1, w2)) ∧ cx s' = cx s ∧
      repr (cx s) x1 w1 ∧ repr (cx s) x2 w2 ∧
      let st' := (if k1 is [] then rest else (k1, k2) :: rest) in
      stack_ok s' st' ∧ (length st' + stack_need x1 <= max_depth)%nat
  end.
Proof.
  intros [Hi Hr Hf Hin]. unfold pop_item. rewrite (mbnd_eq mget _ s s s) by done. destruct st as [|[l1 l2] rest]; [by inversion Hi|].
  inversion Hi as [|[p1 p2 cnt] ? its ? [(L1 & L2 & L3) F1 F2] Hits Es]; subst. cbn [fst snd item_v1 item_v2 item_count] in *.
  destruct l1 as [|x1 k1], l2 as [|x2 k2]; cbn [length] in *; try lia.
  apply fields_cons in F1 as [(w1 & E1 & R1) F1]. apply fields_cons in F2 as [(w2 & E2 & R2) F2].
  rewrite (mbnd_eq _ _ _ _ _ (word_eq _ _ _ E1)), (mbnd_eq _ _ _ _ _ (word_eq _ _ _ E2)).
  exists x1, k1, x2, k2. eexists _, w1, w2. split_and!; [done|done|reflexivity|done|done|done| |].
  - cbn [stack_fits] in Hf. rewrite <- Es in Hr. cbn [length] in Hr. destruct k1 as [|y1 k1]; cbn [length] in *.
    + rewrite (proj2 (Z.eqb_eq _ _)) by lia. split; cbn; [done|lia|tauto|done].
    + rewrite (proj2 (Z.eqb_neq _ _)) by lia. split; cbn [compare_stack cx compare_stack_size].
      * constructor; [|done]. split; cbn [fst snd item_v1 item_v2 item_count length]; [lia|done|done].
      * cbn [length]. lia.
      * cbn [stack_fits]. change (needs (x1 :: y1 :: k1)) with (Nat.max (S (stack_need x1)) (needs (y1 :: k1))) in Hf. split; [lia|tauto].
      * done.
  - destruct Hf as [Hf _]. destruct k1 as [|y1 k1]; cbn [length] in *; [done|].
    change (needs (x1 :: y1 :: k1)) with (Nat.max (S (stack_need x1)) (needs (y1 :: k1))) in Hf. lia.
Qed.

Lemma sizes_cons x l : sizes (x :: l) = (data_size x + sizes l)%nat. Proof. reflexivity. Qed.

Lemma loop_spec total fuel : ∀ t1 t2 st s v1 v2, stack_ok s st → (length st + stack_need t1 <= max_depth)%nat →
  repr (cx s) t1 v1 → repr (cx s) t2 v2 → (data_size t1 + data_size t2 + stack_work st <= fuel)%nat →
  ∃ s' z, compare_val_loop malloc_ok oom fuel v1 v2 total s = inr (s', z) ∧ cx s' = cx s ∧
    (compare_stack_is_init s' = true → compare_stack_size s' = COMPARE_STACK_INIT_SIZE) ∧
    verdict (then_ (cmp total t1 t2) (cmp_stack total st)) z.
Proof.
  induction fuel as [|fuel IH]; intros t1 t2 st s v1 v2 Hs Hd H1 H2 Hf.
  { exfalso. destruct t1; cbn in Hf; lia. }
  cbn [compare_val_loop]. destruct (iteration_spec total t1 t2 st s v1 v2 Hs Hd H1 H2) as (s1 & r & E & Ecx & Hr).
  rewrite (mbnd_eq _ _ _ _ _ E). destruct r as [z| |w1 w2].
  - destruct Hr as (Hne & Hv & ->). exists s, z. rewrite then_neq by done. split_and!; [done|done|apply Hs|done].
  - destruct Hr as [Hr ->]. rewrite Hr. cbn [then_]. pose proof (pop_spec s st Hs) as Hp. destruct st as [|[l1 l2] rest].
    + rewrite (mbnd_eq _ _ _ _ _ Hp). exists s, 0. split_and!; [done|done|apply Hs|done].
    + destruct Hp as (x1 & k1 & x2 & k2 & s2 & w1 & w2 & -> & -> & Ep & Ecx2 & R1 & R2 & Hs2 & Hd2).
      rewrite (mbnd_eq _ _ _ _ _ Ep). rewrite <- Ecx2 in R1, R2.
      destruct (IH x1 x2 _ s2 w1 w2 Hs2 Hd2 R1 R2) as (s' & z & E' & Ecx' & Hi' & Hv).
      * assert (1 <= data_size t1)%nat by (destruct t1; cbn; lia). cbn [stack_work] in Hf. rewrite !sizes_cons in Hf. destruct k1; cbn [stack_work]; lia.
      * exists s', z. rewrite Ecx' , Ecx2. split_and!; [done|done|done|]. cbn [cmp_stack lex]. rewrite then_assoc.
        destruct k1 as [|y1 k1]; [|done]. done.
  - destruct Hr as (u1 & u2 & st' & R1 & R2 & Hs' & Hd' & Hc & Hw). rewrite <- Ecx in R1, R2.
    destruct (IH u1 u2 st' s1 w1 w2 Hs' Hd' R1 R2 ltac:(lia)) as (s' & z & E' & Ecx' & Hi' & Hv). exists s', z. rewrite Hc, Ecx'. done.
Qed.

(** The state before and after a call: the small stack is in place. *)
Definition at_rest (s : cstate) : Prop := compare_stack_size s = COMPARE_STACK_INIT_SIZE ∧ compare_stack_is_init s = true.

Lemma compare_and_free_spec total fuel t1 t2 v1 v2 s : at_rest s → (stack_need t1 <= max_depth)%nat →
  repr (cx s) t1 v1 → repr (cx s) t2 v2 → (data_size t1 + data_size t2 <= fuel)%nat →
  ∃ s' z, compare_and_free malloc_ok oom fuel v1 v2 total s = inr (s', z) ∧ cx s' = cx s ∧ at_rest s' ∧ verdict (cmp total t1 t2) z.
Proof.
  intros [Hsz Hin] Hd H1 H2 Hf. unfold compare_and_free, compare_val_r, mbnd at 1 2. cbn [set_stack mmodify].
  destruct (loop_spec total fuel t1 t2 [] (CState (cx s) [] (compare_stack_size s) (compare_stack_is_init s)) v1 v2)
    as (s' & z & -> & Ecx & Hi & Hv); [|done|done|done|cbn; lia|].
  { split; cbn; [constructor|rewrite Hsz; done|done|done]. }
  cbn [compare_free_stack_r mbnd mmodify mreturn]. cbn beta iota. eexists _, z. split; [reflexivity|].
  replace (then_ (cmp total t1 t2) (cmp_stack total [])) with (cmp total t1 t2) in Hv by (cbn [cmp_stack then_]; destruct (cmp total t1 t2) as [[]|]; done).
  destruct (compare_stack_is_init s') eqn:Ei; cbn [negb]; split_and!; try done. by split; [apply Hi|].
Qed.

(** Runs a primitive that ends with a comparison. *)
Lemma primitive_spec total fuel t1 t2 v1 v2 s (f : Z → Z) r : at_rest s → (stack_need t1 <= max_depth)%nat →
  repr (cx s) t1 v1 → repr (cx s) t2 v2 → (data_size t1 + data_size t2 <= fuel)%nat →
  (∀ z, verdict (cmp total t1 t2) z → f z = r) →
  ∃ s', (let* res := compare_and_free malloc_ok oom fuel v1 v2 total in mreturn (f res)) s = inr (s', r) ∧ cx s' = cx s ∧ at_rest s'.
Proof.
  intros Hs Hd H1 H2 Hf Hv. destruct (compare_and_free_spec total fuel t1 t2 v1 v2 s Hs Hd H1 H2 Hf) as (s' & z & E & Ecx & Hr & V).
  exists s'. rewrite (mbnd_eq _ _ _ _ _ E). split_and!; [|done|done]. by rewrite <- (Hv z V).
Qed.

(** What a primitive returns: it computes [r], changes nothing and leaves the
    small stack in place. *)
Definition returns (m : KM Z) (s : cstate) (r : Z) : Prop := ∃ s', m s = inr (s', r) ∧ cx s' = cx s ∧ at_rest s'.

Definition order_is (r : order) (l : list comparison) : bool :=
  match r with Some o => existsb (λ x, match o, x with Lt, Lt | Eq, Eq | Gt, Gt => true | _, _ => false end) l | None => false end.

Lemma negative_verdict r z : verdict r z → (z <? 0) && negb (z =? UNORDERED) = order_is r [Lt] ∧
  (z <=? 0) && negb (z =? UNORDERED) = order_is r [Lt; Eq] ∧ (0 <? z) = order_is r [Gt] ∧ (0 <=? z) = order_is r [Gt; Eq] ∧
  (z =? 0) = order_is r [Eq].
Proof.
  change UNORDERED with (- 9223372036854775808). unfold verdict. change UNORDERED with (- 9223372036854775808).
  destruct r as [[]|]; intros Hz; split_and!; cbn; try (subst; done); destruct (Z.ltb_spec z 0), (Z.leb_spec z 0), (Z.eqb_spec z (-9223372036854775808)), (Z.ltb_spec 0 z), (Z.leb_spec 0 z), (Z.eqb_spec z 0); cbn; done || lia.
Qed.
End Loop.

(** ** The order is a total order *)

(** What two comparisons say of the third. *)
Definition chain (r12 r23 r13 : order) : Prop :=
  match r12, r23 with
  | Some Eq, _ => r13 = r23
  | _, Some Eq => r13 = r12
  | Some Lt, Some Lt => r13 = Some Lt
  | Some Gt, Some Gt => r13 = Some Gt
  | _, _ => True
  end.

Definition opp (r : order) : order := match r with Some o => Some (CompOpp o) | None => None end.

Lemma chain_then a b c a' b' c' : chain a b c → (a = Some Eq → b = Some Eq → chain a' b' c') → chain (then_ a a') (then_ b b') (then_ c c').
Proof. intros Hc Hc'. destruct a as [[]|], b as [[]|]; cbn in *; subst; cbn; try done; [by apply Hc'| | | | | |]; destruct a' as [[]|], b' as [[]|]; done. Qed.

Lemma opp_then a b : opp (then_ a b) = then_ (opp a) (opp b).
Proof. by destruct a as [[]|]. Qed.

Lemma chain_Z x y z : chain (Some (x ?= y)) (Some (y ?= z)) (Some (x ?= z)).
Proof. unfold chain. destruct (Z.compare_spec x y), (Z.compare_spec y z), (Z.compare_spec x z); try done; subst; lia. Qed.

Lemma order_eq x y : Some (x ?= y) = Some Eq → x = y.
Proof. intros [= E]. by apply Z.compare_eq_iff. Qed.

Lemma chain_nat x y z : chain (Some (x ?= y)%nat) (Some (y ?= z)%nat) (Some (x ?= z)%nat).
Proof. rewrite <- !Nat2Z.inj_compare. apply chain_Z. Qed.

Lemma opp_Z x y : Some (y ?= x) = opp (Some (x ?= y)).
Proof. cbn. by rewrite Z.compare_antisym. Qed.

Lemma opp_nat x y : Some (y ?= x)%nat = opp (Some (x ?= y)%nat).
Proof. rewrite <- !Nat2Z.inj_compare. apply opp_Z. Qed.

Lemma lex_compare_cons x l y k : Some (lex_compare (x :: l) (y :: k)) = then_ (Some (x ?= y)) (Some (lex_compare l k)).
Proof. cbn. by destruct (x ?= y). Qed.

Lemma chain_strings l1 : ∀ l2 l3, chain (Some (lex_compare l1 l2)) (Some (lex_compare l2 l3)) (Some (lex_compare l1 l3)).
Proof.
  induction l1 as [|x l1 IH]; intros [|y l2] [|z l3]; rewrite ?lex_compare_cons.
  1-7: cbn; try destruct (y ?= z); try destruct (lex_compare l2 l3); try destruct (x ?= y); try destruct (lex_compare l1 l2); done.
  apply chain_then; [apply chain_Z|intros _ _; apply IH].
Qed.

Lemma opp_strings l1 : ∀ l2, Some (lex_compare l2 l1) = opp (Some (lex_compare l1 l2)).
Proof.
  induction l1 as [|x l1 IH]; intros [|y l2]; try done. rewrite !lex_compare_cons, opp_then, opp_Z. f_equal. apply IH.
Qed.

Lemma chain_double total d1 d2 d3 : chain (double_order total d1 d2) (double_order total d2 d3) (double_order total d1 d3).
Proof.
  unfold double_order. destruct (double_is_nan d1), (double_is_nan d2), (double_is_nan d3), total; try done; try apply chain_Z; cbn;
    try destruct (double_rank d1 ?= double_rank d2); try destruct (double_rank d2 ?= double_rank d3); done.
Qed.

Lemma opp_double total d1 d2 : double_order total d2 d1 = opp (double_order total d1 d2).
Proof. unfold double_order. destruct (double_is_nan d1), (double_is_nan d2), total; try done; apply opp_Z. Qed.

Lemma chain_lex {A} (P : A → Prop) (f : A → A → order) l1 : Forall (λ x, ∀ y z, P y → P z → chain (f x y) (f y z) (f x z)) l1 →
  ∀ l2 l3, Forall P l2 → Forall P l3 → length l1 = length l2 → length l2 = length l3 → chain (lex f l1 l2) (lex f l2 l3) (lex f l1 l3).
Proof.
  induction 1 as [|x l1 Hx _ IH]; intros [|y l2] [|z l3]; try done. intros [Py P2]%Forall_cons [Pz P3]%Forall_cons [= E1] [= E2].
  cbn [lex]. apply chain_then; [by apply Hx|intros _ _; by apply IH].
Qed.

Lemma chain_by_length {A} (P : A → Prop) (f : A → A → order) l1 l2 l3 : Forall (λ x, ∀ y z, P y → P z → chain (f x y) (f y z) (f x z)) l1 →
  Forall P l2 → Forall P l3 → chain (by_length f l1 l2) (by_length f l2 l3) (by_length f l1 l3).
Proof.
  intros HF P2 P3. apply chain_then; [apply chain_nat|]. intros [= E1%Nat.compare_eq_iff] [= E2%Nat.compare_eq_iff]. by apply (chain_lex P).
Qed.

Lemma opp_lex {A} (f : A → A → order) l1 : Forall (λ x, ∀ y, f y x = opp (f x y)) l1 → ∀ l2, lex f l2 l1 = opp (lex f l1 l2).
Proof.
  induction 1 as [|x l1 Hx _ IH]; intros [|y l2]; try done. cbn [lex]. by rewrite opp_then, Hx, IH.
Qed.

Lemma opp_by_length {A} (f : A → A → order) l1 l2 : Forall (λ x, ∀ y, f y x = opp (f x y)) l1 → by_length f l2 l1 = opp (by_length f l1 l2).
Proof. intros HF. unfold by_length. by rewrite opp_then, opp_nat, (opp_lex f l1) by done. Qed.

(** The tags of ordinary blocks are not those of the special ones. *)
Fixpoint data_ok (t : data) : Prop :=
  match t with
  | DBlock tag fs => 0 <= tag < Closure_tag ∧ (fix go fs := match fs with [] => True | x :: fs => data_ok x ∧ go fs end) fs
  | DForward t => data_ok t
  | _ => True
  end.

Lemma data_ok_block tag fs : data_ok (DBlock tag fs) ↔ 0 <= tag < Closure_tag ∧ Forall data_ok fs.
Proof.
  cbn. enough ((fix go fs := match fs with [] => True | x :: fs => data_ok x ∧ go fs end) fs ↔ Forall data_ok fs) as -> by done.
  induction fs as [|x fs IH]; [by split|]. by rewrite Forall_cons, IH.
Qed.

Lemma data_ok_strip t : data_ok t → data_ok (strip t).
Proof. induction t using data_induction; try done. Qed.

Lemma strip_plain t : (∃ n, strip t = DInt n) ∨ is_plain_block (strip t).
Proof. induction t using data_induction; cbn; eauto. Qed.

Lemma cmp_strip_r total t1 t2 : cmp total t1 t2 = cmp total t1 (strip t2).
Proof. induction t2 using data_induction; try done. by rewrite cmp_forward_r. Qed.

Lemma cmp_strip total t1 t2 : cmp total t1 t2 = cmp total (strip t1) (strip t2).
Proof. rewrite <- cmp_strip_r. by induction t1 using data_induction. Qed.

(** The comparison of values of the same kind. *)
Definition cmp_contents (total : bool) (t1 t2 : data) : order :=
  match t1, t2 with
  | DInt a, DInt b | DObject a, DObject b => Some (a ?= b)
  | DString l1, DString l2 => Some (lex_compare l1 l2)
  | DDouble d1, DDouble d2 => double_order total d1 d2
  | DDoubles l1, DDoubles l2 => by_length (double_order total) l1 l2
  | DBlock _ f1, DBlock _ f2 => by_length (cmp total) f1 f2
  | _, _ => Some Eq
  end.

Definition stripped (t : data) : Prop := match t with DForward _ => False | _ => True end.

Lemma strip_stripped t : stripped (strip t).
Proof. by induction t using data_induction. Qed.

(** First the kind, an integer being below every block, then the contents. *)
Lemma cmp_by_tag total t1 t2 : stripped t1 → stripped t2 → data_ok t1 → data_ok t2 →
  cmp total t1 t2 = then_ (Some (tag_of t1 ?= tag_of t2)) (cmp_contents total t1 t2).
Proof.
  intros S1 S2 O1 O2. destruct t1 as [|l1|d1|ds1|o1|g1 f1|]; try done; destruct t2 as [|l2|d2|ds2|o2|g2 f2|]; try done.
  all: try reflexivity; cbn [tag_of cmp_contents].
  all: try apply data_ok_block in O1 as [O1 _]; try apply data_ok_block in O2 as [O2 _]; unfold Closure_tag in *.
  all: match goal with |- context [then_ (Some (?a ?= ?b))] => pose proof (Z.compare_spec a b) as E; destruct (a ?= b) eqn:Ec; apply CompareSpec2Type in E; inversion E; clear E end; cbn [then_];
    unfold String_tag, Double_tag, Double_array_tag, Object_tag in *; try lia; cbn [cmp strip tag_of];
    unfold String_tag, Double_tag, Double_array_tag, Object_tag in *; try (rewrite Ec); try done.
Qed.

(** Values of the same tag are built alike. *)
Lemma contents_chain total t1 t2 t3 : stripped t1 → stripped t2 → stripped t3 → data_ok t1 → data_ok t2 → data_ok t3 →
  match t1 with DBlock _ fs => Forall (λ x, ∀ y z, data_ok y → data_ok z → chain (cmp total x y) (cmp total y z) (cmp total x z)) fs | _ => True end →
  tag_of t1 = tag_of t2 → tag_of t2 = tag_of t3 → chain (cmp_contents total t1 t2) (cmp_contents total t2 t3) (cmp_contents total t1 t3).
Proof.
  intros S1 S2 S3 O1 O2 O3 IH E1 E2.
  destruct t1 as [|l1|d1|ds1|o1|g1 f1|]; try done; destruct t2 as [|l2|d2|ds2|o2|g2 f2|]; try done; cbn [tag_of] in *;
  try (apply data_ok_block in O1 as [O1 F1]); try (apply data_ok_block in O2 as [O2 F2]); unfold Closure_tag, String_tag, Double_tag, Double_array_tag, Object_tag in *; try lia;
  destruct t3 as [|l3|d3|ds3|o3|g3 f3|]; try done; cbn [tag_of cmp_contents] in *;
  try (apply data_ok_block in O3 as [O3 F3]); unfold Closure_tag, String_tag, Double_tag, Double_array_tag, Object_tag in *; try lia.
  - apply chain_Z.
  - apply chain_strings.
  - apply chain_double.
  - apply (chain_by_length (λ _, True)); [|by apply Forall_true..]. apply Forall_true. intros x y z _ _. apply chain_double.
  - apply chain_Z.
  - by apply (chain_by_length data_ok).
Qed.

Lemma cmp_chain total t1 : data_ok t1 → ∀ t2 t3, data_ok t2 → data_ok t3 → chain (cmp total t1 t2) (cmp total t2 t3) (cmp total t1 t3).
Proof.
  induction t1 as [n|l|d|ds|o|tag fs IH|t IH] using data_induction; intros O1 t2 t3 O2 O3; [..|by apply IH].
  all: match goal with |- chain (cmp _ ?t _) _ _ => rewrite (cmp_strip_r total t t2), (cmp_strip_r total t t3), (cmp_strip total t2 t3) end.
  all: apply data_ok_strip in O2, O3; rewrite !cmp_by_tag by (done || apply strip_stripped).
  all: apply chain_then; [apply chain_Z|intros E1%order_eq E2%order_eq].
  all: apply contents_chain; try done; try apply strip_stripped.
  apply data_ok_block in O1 as [_ O1]. rewrite !Forall_forall in *. eauto.
Qed.

Lemma cmp_opp total t1 : ∀ t2, cmp total t2 t1 = opp (cmp total t1 t2).
Proof.
  induction t1 as [n|l|d|ds|o|tag fs IH|t IH] using data_induction; intros t2; [..|by rewrite cmp_forward_r, IH].
  all: rewrite (cmp_strip total t2), (cmp_strip_r total _ t2); cbn [strip]; destruct (strip_plain t2) as [[k E]|E]; [rewrite E|destruct (strip t2); try done].
  all: cbn [cmp strip]; try reflexivity; try apply opp_Z.
  - apply opp_strings.
  - apply opp_double.
  - apply opp_by_length, Forall_true. intros x y. apply opp_double.
  - rewrite !opp_then, opp_Z. f_equal. by apply opp_by_length.
Qed.

(** A total comparison always decides. *)
Lemma lex_some {A} (f : A → A → order) l1 : Forall (λ x, ∀ y, f x y ≠ None) l1 → ∀ l2, lex f l1 l2 ≠ None.
Proof.
  induction 1 as [|x l1 Hx _ IH]; intros [|y l2]; try done. cbn. specialize (Hx y). specialize (IH l2). by destruct (f x y) as [[]|].
Qed.

Lemma cmp_some t1 : ∀ t2, cmp true t1 t2 ≠ None.
Proof.
  assert (∀ a b, double_order true a b ≠ None) as Hd by (intros a b; unfold double_order; by destruct (double_is_nan a), (double_is_nan b)).
  induction t1 as [n|l|d|ds|o|tag fs IH|t IH] using data_induction; intros t2; [..|by apply IH]; cbn [cmp]; destruct (strip t2); try done; try apply Hd.
  - unfold by_length. destruct (_ ?= _)%nat; cbn; try done. apply lex_some, Forall_true. intros x y. apply Hd.
  - destruct (_ ?= _); cbn; try done. unfold by_length. destruct (_ ?= _)%nat; cbn; try done. by apply lex_some.
Qed.

Section ReprOk.
Context `{Runtime} (c : context).

Lemma fields_repr_ok fs : Forall (λ t, ∀ v, repr c t v → data_ok t) fs → ∀ p, fields_repr c (repr c) p fs → Forall data_ok fs.
Proof. induction 1 as [|t fs Ht _ IH]; intros p; [constructor|]. cbn. intros [(w & _ & Hw) Hfs]. constructor; eauto. Qed.

Lemma repr_ok t : ∀ v, repr c t v → data_ok t.
Proof.
  induction t as [n|l|d|ds|o|tag fs IH|t IH] using data_induction; intros v; try done.
  - intros (_ & Ht & _ & Hf)%repr_block. apply data_ok_block. split; [done|]. by apply (fields_repr_ok fs IH v).
  - intros (_ & w & _ & Hw). by apply (IH w).
Qed.
End ReprOk.

(** ** However a comparison ends, the small stack is back *)

Import Hash.

Section Clean.
Context `{Runtime} `{CustomCompare} (malloc_ok : Z → bool) (oom : Z).

Definition stack_inv (s : cstate) : Prop := compare_stack_is_init s = true → compare_stack_size s = COMPARE_STACK_INIT_SIZE.

(** [m] keeps the context, and stops by a fault or with the small stack. *)
Definition clean {A} (m : KM A) : Prop :=
  ∀ s, stack_inv s →
  match m s with
  | inr (s', _) => cx s' = cx s ∧ stack_inv s'
  | inl (Stopped (CFault _) _ _) => True
  | inl (Stopped _ size is_init) => size = COMPARE_STACK_INIT_SIZE ∧ is_init = true
  end.

Lemma clean_ret {A} (x : A) : clean (mreturn x). Proof. by intros s Hs. Qed.

Lemma clean_bind {A B} (m : KM A) (k : A → KM B) : clean m → (∀ x, clean (k x)) → clean (mbnd m k).
Proof.
  intros Hm Hk s Hs. specialize (Hm s Hs). unfold mbnd. destruct (m s) as [e|[s' x]]; [done|]. destruct Hm as [<- Hs']. by apply Hk.
Qed.

Lemma clean_get {B} (k : cstate → KM B) : (∀ s, clean (k s)) → clean (mbnd mget k).
Proof. intros Hk s Hs. by apply Hk. Qed.

Lemma clean_lift {A} (m : CM A) : reads_only m (λ _, True) → clean (lift m).
Proof.
  intros Hm s Hs. unfold lift. specialize (Hm (cx s)). destruct (m (cx s)) as [[f| |]|[c' x]]; try done. by destruct Hm as [-> _].
Qed.

(** Raising an exception does not return. *)
Definition never_returns {A} (m : CM A) : Prop := ∀ c, ∃ e, m c = inl e.

Lemma never_bind {A B} (m : CM A) (k : A → CM B) : (∀ x, never_returns (k x)) → never_returns (mbnd m k).
Proof. intros Hk c. unfold mbnd. destruct (m c) as [e|[c' x]]; [by exists e|apply Hk]. Qed.

Lemma never_fail {A} e : never_returns (mfail e : CM A). Proof. intros c. by exists e. Qed.

Lemma raise_never {A} v : never_returns (caml_raise_r v : CM A).
Proof. apply never_bind. intros c. cbn. destruct (_ =? 0); apply never_fail. Qed.

Lemma invalid_argument_never {A} msg : never_returns (caml_invalid_argument_r msg : CM A).
Proof.
  apply never_bind. intros c. destruct (_ =? 0); [apply never_fail|]. apply never_bind. intros tag. apply never_bind. intros [v [|t []]]; try apply never_fail.
  apply never_bind. intros [b [|t1 [|t2 []]]]; try apply never_fail. apply never_bind. intros _. apply never_bind. intros _. apply raise_never.
Qed.

Lemma out_of_memory_never {A} : never_returns (caml_raise_out_of_memory_r oom : CM A).
Proof. apply never_bind. intros exn. destruct (exn =? 0); [apply never_fail|apply raise_never]. Qed.

(** After the stack is freed anything may be raised. *)
Lemma clean_free {A} (m : CM A) : never_returns m → clean (compare_free_stack_r ;;; lift m).
Proof.
  intros Hm s Hs. unfold compare_free_stack_r, mmodify, mbnd, lift. cbn beta iota.
  destruct (compare_stack_is_init s) eqn:Ei; cbn [negb cx compare_stack_size compare_stack_is_init].
  - destruct (Hm (cx s)) as [e ->]. rewrite Ei, Hs by done. by destruct e.
  - destruct (Hm (cx s)) as [e ->]. by destruct e.
Qed.

Lemma clean_set l : clean (set_stack l). Proof. by intros s Hs. Qed.

Lemma clean_invalid {A} msg : clean (invalid msg : KM A).
Proof. apply clean_free, invalid_argument_never. Qed.

Lemma clean_push it : clean (push_item malloc_ok oom it).
Proof.
  apply clean_get. intros s0. apply clean_bind; [|intros _; apply clean_set]. destruct (_ <=? _); [|apply clean_ret].
  intros s Hs. unfold compare_resize_stack_r, mbnd at 1, mget. cbn beta iota. destruct (_ <=? _); [by apply clean_free; [apply out_of_memory_never|]|].
  destruct (malloc_ok _); cbn [negb]; [done|]. by apply clean_free; [apply out_of_memory_never|].
Qed.

Lemma ro_memcmp n : ∀ a b, reads_only (memcmp n a b) (λ _, True).
Proof. induction n as [|n IH]; intros a b; cbn [memcmp]; [by apply ro_ret|]. ro. apply IH. Qed.

Lemma clean_custom f v1 v2 total : clean (compare_custom f v1 v2 total).
Proof. apply clean_get. intros s. destruct (call_compare _ _ _ _) as [r u]. destruct (u && _); [|destruct (negb _)]; apply clean_ret. Qed.

Create HintDb clean.
Hint Resolve clean_ret clean_invalid clean_push clean_custom clean_set ro_memcmp : clean.

Ltac clean_step :=
  lazymatch goal with
  | |- clean (mbnd mget _) => apply clean_get; intros ?
  | |- clean (mbnd (lift _) _) => apply clean_bind; [apply clean_lift; solve [eauto with reads clean]|intros ?]
  | |- clean (mbnd (if ?b then _ else _) _) => apply clean_bind; [destruct b|intros ?]
  | |- clean (mbnd _ _) => apply clean_bind; [|intros ?]
  | |- clean (if ?b then _ else _) => destruct b
  | |- clean (let '(_, _) := ?x in _) => destruct x
  | |- clean (match ?x with Some _ => _ | None => _ end) => destruct x
  | |- clean _ => solve [auto with clean]
  end.

Lemma clean_double_fields n : ∀ i v1 v2 total, clean (compare_double_fields n i v1 v2 total).
Proof. induction n as [|n IH]; intros i v1 v2 total; cbn [compare_double_fields]; repeat clean_step. Qed.
Hint Resolve clean_double_fields : clean.

Lemma clean_iteration v1 v2 total : clean (compare_iteration malloc_ok oom v1 v2 total).
Proof. unfold compare_iteration, compare_long_block, compare_blocks, compare_strings. repeat clean_step. Qed.

Lemma clean_pop : clean pop_item.
Proof. apply clean_get. intros s. destruct (compare_stack s) as [|[p1 p2 n] rest]; repeat clean_step. Qed.

Lemma clean_loop fuel : ∀ v1 v2 total, clean (compare_val_loop malloc_ok oom fuel v1 v2 total).
Proof.
  induction fuel as [|fuel IH]; intros v1 v2 total; cbn [compare_val_loop]; [by intros s Hs|].
  apply clean_bind; [apply clean_iteration|]. intros [z| |w1 w2]; [apply clean_ret| |apply IH].
  apply clean_bind; [apply clean_pop|]. intros [[w1 w2]|]; [apply IH|apply clean_ret].
Qed.

(** The primitives of the file. *)
Definition primitives (fuel : nat) (v1 v2 : Z) : list (KM Z) :=
  [caml_compare_r malloc_ok oom fuel v1 v2; caml_equal_r malloc_ok oom fuel v1 v2; caml_notequal_r malloc_ok oom fuel v1 v2;
   caml_lessthan_r malloc_ok oom fuel v1 v2; caml_lessequal_r malloc_ok oom fuel v1 v2;
   caml_greaterthan_r malloc_ok oom fuel v1 v2; caml_greaterequal_r malloc_ok oom fuel v1 v2].

Lemma and_free_rests fuel v1 v2 total f s : at_rest s →
  match (let* res := compare_and_free malloc_ok oom fuel v1 v2 total in mreturn (f res : Z)) s with
  | inr (s', _) => cx s' = cx s ∧ at_rest s'
  | inl (Stopped (CFault _) _ _) => True
  | inl (Stopped _ size is_init) => size = COMPARE_STACK_INIT_SIZE ∧ is_init = true
  end.
Proof.
  intros [Hsz Hin]. unfold compare_and_free, compare_val_r, mbnd at 1 2 3, set_stack, mmodify. cbn beta iota.
  pose proof (clean_loop fuel v1 v2 total (CState (cx s) [] (compare_stack_size s) (compare_stack_is_init s)) (λ _, Hsz)) as Hc.
  destruct (compare_val_loop _ _ _ _ _ _ _) as [e|[s' z]]; [done|]. destruct Hc as [Hcx Hi].
  unfold compare_free_stack_r, mmodify, mbnd, mreturn. cbn beta iota. destruct (compare_stack_is_init s') eqn:Ei; cbn [negb]; split; try done.
  by split; [apply Hi|].
Qed.
End Clean.

(** ** Properties *)

Lemma compare_sign o z : verdict (Some o) z →
  (if z <? 0 then Val_int LESS else if 0 <? z then Val_int GREATER else Val_int EQUAL) = Val_int (Z_of_comparison o).
Proof. destruct (Z.ltb_spec z 0), (Z.ltb_spec 0 z), o; cbn [verdict]; intros Hz; done || lia. Qed.

Section Properties.
Context `{Runtime} `{CustomCompare} (malloc_ok : Z → bool) (oom : Z).

(** C12: structural comparison.  For two values that represent data, when
    memory can be allocated, [compare] returns the sign of the total order of
    the data, in which NaN is equal to itself and below every number, and the
    six comparison operators return what the partial order says, in which NaN
    is not comparable.  The explicit stack is deep enough for data that needs
    up to 524287 slots, a number of iterations bounded by the sizes of the data
    is enough, the memory is not changed, and the small stack is in place
    again afterwards. *)
Theorem compare_correct t1 t2 v1 v2 fuel s :
  (∀ n, malloc_ok n = true) → at_rest s → (stack_need t1 <= max_depth)%nat →
  repr (cx s) t1 v1 → repr (cx s) t2 v2 → (data_size t1 + data_size t2 <= fuel)%nat →
  let holds l := order_is (cmp false t1 t2) l in
  (∃ o, cmp true t1 t2 = Some o ∧ returns (caml_compare_r malloc_ok oom fuel v1 v2) s (Val_int (Z_of_comparison o))) ∧
  returns (caml_equal_r malloc_ok oom fuel v1 v2) s (Val_bool (holds [Eq])) ∧
  returns (caml_notequal_r malloc_ok oom fuel v1 v2) s (Val_bool (negb (holds [Eq]))) ∧
  returns (caml_lessthan_r malloc_ok oom fuel v1 v2) s (Val_bool (holds [Lt])) ∧
  returns (caml_lessequal_r malloc_ok oom fuel v1 v2) s (Val_bool (holds [Lt; Eq])) ∧
  returns (caml_greaterthan_r malloc_ok oom fuel v1 v2) s (Val_bool (holds [Gt])) ∧
  returns (caml_greaterequal_r malloc_ok oom fuel v1 v2) s (Val_bool (holds [Gt; Eq])).
Proof.
  intros Hm Hs Hd H1 H2 Hf holds. split.
  - destruct (cmp true t1 t2) as [o|] eqn:Ec; [|by destruct (cmp_some t1 t2)]. exists o. split; [done|].
    apply (primitive_spec malloc_ok oom Hm true fuel t1 t2); try done. intros z. rewrite Ec. apply compare_sign.
  - split_and!; apply (primitive_spec malloc_ok oom Hm false fuel t1 t2); try done; intros z (H3 & H4 & H5 & H6 & H7)%negative_verdict;
      unfold holds; congruence.
Qed.

(** [compare] is a total order on values that represent data: two values
    are compared the same way from either side up to the sign, a value is
    equal to itself, and if the first is not above the second nor the second
    above the third, the first is not above the third, strictly so when one
    of the two is strict. *)
Theorem compare_total_order t1 t2 t3 v1 v2 v3 fuel s :
  (∀ n, malloc_ok n = true) → at_rest s → (∀ t, In t [t1; t2; t3] → (stack_need t <= max_depth)%nat) →
  repr (cx s) t1 v1 → repr (cx s) t2 v2 → repr (cx s) t3 v3 → (2 * (data_size t1 + data_size t2 + data_size t3) <= fuel)%nat →
  let compares v w z := returns (caml_compare_r malloc_ok oom fuel v w) s (Val_int z) in
  ∃ z12 z23 z13, compares v1 v2 z12 ∧ compares v2 v3 z23 ∧ compares v1 v3 z13 ∧ compares v2 v1 (- z12) ∧ compares v1 v1 0 ∧
    (z12 <= 0 → z23 <= 0 → z13 = Z.min z12 z23).
Proof.
  intros Hm Hs Hd H1 H2 H3 Hf compares.
  assert (∀ t v u w, In t [t1; t2; t3] → In u [t1; t2; t3] → repr (cx s) t v → repr (cx s) u w →
    compares v w (Z_of_comparison (default Eq (cmp true t u)))) as Hc.
  { intros t v u w It Iu Rt Ru. destruct (cmp true t u) as [o|] eqn:Ec; [|by destruct (cmp_some t u)].
    apply (primitive_spec malloc_ok oom Hm true fuel t u); try done; [by apply Hd| |intros z; rewrite Ec; apply compare_sign].
    cbn [In] in It, Iu. destruct_or!; subst; lia. }
  exists (Z_of_comparison (default Eq (cmp true t1 t2))), (Z_of_comparison (default Eq (cmp true t2 t3))), (Z_of_comparison (default Eq (cmp true t1 t3))).
  split_and!; [apply Hc; cbn; tauto..| | |].
  - assert (- Z_of_comparison (default Eq (cmp true t1 t2)) = Z_of_comparison (default Eq (cmp true t2 t1))) as ->;
      [rewrite (cmp_opp true t1 t2); by destruct (cmp true t1 t2) as [[]|]|]. apply Hc; cbn; tauto.
  - assert (0 = Z_of_comparison (default Eq (cmp true t1 t1))) as -> by (by rewrite (same_value (cx s) t1 t1 v1)). apply Hc; cbn; tauto.
  - pose proof (cmp_chain true t1 (repr_ok _ _ _ H1) t2 t3 (repr_ok _ _ _ H2) (repr_ok _ _ _ H3)) as Hch.
    pose proof (cmp_some t1 t2). pose proof (cmp_some t2 t3). destruct (cmp true t1 t2) as [[]|], (cmp true t2 t3) as [[]|]; cbn in *; try done; by rewrite Hch.
Qed.

(** However a comparison of any two values ends, by its result, by
    [Invalid_argument] on an abstract or functional value or by
    [Out_of_memory] when the stack cannot grow, the small stack is in place
    again and, when it returns, nothing else has changed.  Nothing is assumed
    of the memory, of the custom blocks, or of the allocations that succeed. *)
Theorem compare_restores_stack fuel v1 v2 s m : at_rest s → In m (primitives malloc_ok oom fuel v1 v2) →
  match m s with
  | inr (s', _) => cx s' = cx s ∧ at_rest s'
  | inl (Stopped (CFault _) _ _) => True
  | inl (Stopped _ size is_init) => size = COMPARE_STACK_INIT_SIZE ∧ is_init = true
  end.
Proof. intros Hs Hm. cbn [primitives In] in Hm. destruct_or!; subst m; try done; by apply and_free_rests. Qed.
End Properties.

(** ** Witnesses *)

(** The pairs (1, nan) and (1, 2.0), and the second behind a forwarding block. *)
Definition ex_pairs : context :=
  ex_context (stores ∅ 10000
    [Make_header 2 0 Caml_white; Val_long 1; 10032; Make_header 1 Double_tag Caml_white; 9221120237041090561;
     Make_header 2 0 Caml_white; Val_long 1; 10072; Make_header 1 Double_tag Caml_white; 4611686018427387904;
     Make_header 1 Forward_tag Caml_white; 10048]) ∅.

Definition ex_nan : data := DBlock 0 [DInt 1; DDouble 9221120237041090561].
Definition ex_two : data := DBlock 0 [DInt 1; DDouble 4611686018427387904].

Definition ex_no_custom : CustomCompare := {|
  Custom_ops_val := λ _ _, 0; ops_compare := λ _, 0; ops_compare_ext := λ _, 0;
  ops_identifier_lt := λ _ _, false; call_compare := λ _ _ _ _, (0, false) |}.

Definition ex_cstate : cstate := CState ex_pairs [] COMPARE_STACK_INIT_SIZE true.

Ltac ex_repr :=
  repeat first [ split | exact I | (eexists; split; [vm_compute; reflexivity|]) | (vm_compute; reflexivity) | (vm_compute; congruence) ].

Lemma ex_pair_nan : repr (H := ex_runtime) ex_pairs ex_nan 10008.
Proof. unfold repr, fields_repr. ex_repr. Qed.
Lemma ex_pair_two : repr (H := ex_runtime) ex_pairs ex_two 10048.
Proof. ex_repr. Qed.
Lemma ex_pair_forward : repr (H := ex_runtime) ex_pairs (DForward ex_two) 10088.
Proof. ex_repr. Qed.

Lemma need_small n : Z.of_nat n <= 524287 → (n <= max_depth)%nat.
Proof. unfold max_depth. lia. Qed.

Lemma ex_need : (stack_need ex_nan <= max_depth)%nat.
Proof. apply need_small. cbn. lia. Qed.

(** [compare (1, nan) (1, 2.0)] is -1; the two are not ordered by [<] or [>=]. *)
Lemma compare_correct_witness :
  returns (@caml_compare_r ex_runtime ex_no_custom (λ _, true) 0 6 10008 10048) ex_cstate (Val_int (-1)) ∧
  returns (@caml_lessthan_r ex_runtime ex_no_custom (λ _, true) 0 6 10008 10048) ex_cstate (Val_bool false) ∧
  returns (@caml_greaterequal_r ex_runtime ex_no_custom (λ _, true) 0 6 10008 10048) ex_cstate (Val_bool false).
Proof.
  destruct (@compare_correct ex_runtime ex_no_custom (λ _, true) 0 ex_nan ex_two 10008 10048 6 ex_cstate (λ _, eq_refl) (conj eq_refl eq_refl)
    ex_need ex_pair_nan ex_pair_two ltac:(cbn; lia)) as ((o & Ho & Hc) & _ & _ & Hlt & _ & _ & Hge).
  change (Some Lt = Some o) in Ho. injection Ho as <-. exact (conj Hc (conj Hlt Hge)).
Defined.

Lemma compare_total_order_witness :
  ∃ z12 z23 z13, returns (@caml_compare_r ex_runtime ex_no_custom (λ _, true) 0 20 10008 10048) ex_cstate (Val_int z12) ∧
    returns (@caml_compare_r ex_runtime ex_no_custom (λ _, true) 0 20 10048 10088) ex_cstate (Val_int z23) ∧
    returns (@caml_compare_r ex_runtime ex_no_custom (λ _, true) 0 20 10008 10088) ex_cstate (Val_int z13) ∧
    (z12 <= 0 → z23 <= 0 → z13 = Z.min z12 z23).
Proof.
  destruct (@compare_total_order ex_runtime ex_no_custom (λ _, true) 0 ex_nan ex_two (DForward ex_two) 10008 10048 10088 20 ex_cstate (λ _, eq_refl) (conj eq_refl eq_refl))
    with (2 := ex_pair_nan) (3 := ex_pair_two) (4 := ex_pair_forward) as (z12 & z23 & z13 & H1 & H2 & H3 & _ & _ & H4).
  - intros t [<-|[<-|[<-|[]]]]; exact ex_need.
  - cbn; lia.
  - exists z12, z23, z13. exact (conj H1 (conj H2 (conj H3 H4))).
Defined.

(** The small stack is enough here: no allocation is needed. *)
Lemma compare_restores_stack_witness :
  ∃ s' r, @caml_equal_r ex_runtime ex_no_custom (λ _, false) 0 6 10048 10088 ex_cstate = inr (s', r) ∧ r = Val_bool true ∧ at_rest s'.
Proof.
  pose proof (@compare_restores_stack ex_runtime ex_no_custom (λ _, false) 0 6 10048 10088 ex_cstate
    (@caml_equal_r ex_runtime ex_no_custom (λ _, false) 0 6 10048 10088) (conj eq_refl eq_refl) ltac:(right; left; reflexivity)) as Hr.
  destruct (@caml_equal_r _ _ _ _ _ _ _ _) as [e|[s' r]] eqn:E; [vm_compute in E; discriminate|].
  exists s', r. split; [reflexivity|]. split; [|exact (proj2 Hr)]. vm_compute in E. injection E as _ <-. reflexivity.
Defined.

End Compare.
