(* ===== verification/Extern.v ===== *)
(** Marshalling of values to bytes (byterun/extern.c).

    The part of the context that this file owns is the record [xstate]: the
    trail of the blocks visited, whose header and first field are overwritten
    while the value is traversed, the blocks of output, the stack of the fields
    that remain and the counters.  A block of output is the bytes up to
    [extern_ptr] (or to [end]), with the size of the current one; of the buffer
    of the caller, if there is one, likewise.  The stack is an array with an
    identity: 0 is [extern_stack_init], another number an array from [malloc],
    so that a pointer into an array that was freed is told apart.

    [malloc] tells whether an allocation of that many bytes succeeds,
    [md5_block] is the digest of the code between two addresses, and
    [ops_serialize] what a custom block writes. *)

From S2P Require Import Prelude Mlvalues Context Alloc Str Stacks Array Hash Compare.
Import Context Alloc Str Array.

Module Extern.

(** ** Constants (intext.h, context.h) *)

Definition Intext_magic_number : Z := 2224400062.

Definition PREFIX_SMALL_BLOCK : Z := 128.
Definition PREFIX_SMALL_INT : Z := 64.
Definition PREFIX_SMALL_STRING : Z := 32.
Definition CODE_INT8 : Z := 0.
Definition CODE_INT16 : Z := 1.
Definition CODE_INT32 : Z := 2.
Definition CODE_INT64 : Z := 3.
Definition CODE_SHARED8 : Z := 4.
Definition CODE_SHARED16 : Z := 5.
Definition CODE_SHARED32 : Z := 6.
Definition CODE_DOUBLE_ARRAY32_LITTLE : Z := 7.
Definition CODE_BLOCK32 : Z := 8.
Definition CODE_STRING8 : Z := 9.
Definition CODE_STRING32 : Z := 10.
Definition CODE_DOUBLE_BIG : Z := 11.
Definition CODE_DOUBLE_LITTLE : Z := 12.
Definition CODE_DOUBLE_ARRAY8_BIG : Z := 13.
Definition CODE_DOUBLE_ARRAY8_LITTLE : Z := 14.
Definition CODE_DOUBLE_ARRAY32_BIG : Z := 15.
Definition CODE_CODEPOINTER : Z := 16.
Definition CODE_INFIXPOINTER : Z := 17.
Definition CODE_CUSTOM : Z := 18.
Definition CODE_BLOCK64 : Z := 19.

Definition ENTRIES_PER_TRAIL_BLOCK : Z := 1025.
Definition SIZE_EXTERN_OUTPUT_BLOCK : Z := 8100.
Definition EXTERN_STACK_INIT_SIZE : Z := 256.
Definition EXTERN_STACK_MAX_SIZE : Z := 1024 * 1024 * 100.
Definition NO_SHARING : Z := 1.
Definition CLOSURES : Z := 2.
Definition CROSS_CONTEXT : Z := 4.

(** gc.h *)
Definition Colornum_hd (hd : Z) : Z := Z.land (Z.shiftr hd 8) 3.
Definition Coloredhd_hd (hd colnum : Z) : Z := Z.lor (clear_color hd) (Z.shiftl colnum 8).

(** ** State *)

Record extern_item : Type := XItem { item_v : Z; item_count : Z }.
Record trail_entry : Type := TEntry { entry_obj : Z; entry_field0 : Z }.
Record code_fragment : Type := Fragment { code_start : Z; code_end : Z; digest : list Z; digest_computed : bool }.

(** [extern_stack_init], the array from [malloc] if there is one, and the
    number of arrays so far. *)
Record stacks : Type := XStacks { stack_init : list extern_item; stack_malloced : option (Z * list extern_item); stack_count : Z }.

(** A pointer to an item. *)
Record item_ptr : Type := Ptr { ptr_array : Z; ptr_index : Z }.

(** The blocks that are full, the current one and its size. *)
Record output : Type := Output { extern_userprovided_output : bool; out_closed : list (list Z); out_current : list Z; out_size : Z }.

Record xstate : Type := XState {
  cx : context;
  extern_ignore_sharing : bool;
  extern_closures : bool;
  extern_cross_context : bool;
  extern_trail : list (list trail_entry);
  out : output;
  extern_stacks : stacks;
  obj_counter : Z;
  size_32 : Z;
  size_64 : Z;
  caml_code_fragments_table : list code_fragment
}.

Definition set_cx (c : context) (s : xstate) : xstate :=
  XState c (extern_ignore_sharing s) (extern_closures s) (extern_cross_context s) (extern_trail s) (out s) (extern_stacks s) (obj_counter s) (size_32 s) (size_64 s) (caml_code_fragments_table s).
Definition set_flags (a b c : bool) (s : xstate) : xstate :=
  XState (cx s) a b c (extern_trail s) (out s) (extern_stacks s) (obj_counter s) (size_32 s) (size_64 s) (caml_code_fragments_table s).
Definition set_trail (l : list (list trail_entry)) (s : xstate) : xstate :=
  XState (cx s) (extern_ignore_sharing s) (extern_closures s) (extern_cross_context s) l (out s) (extern_stacks s) (obj_counter s) (size_32 s) (size_64 s) (caml_code_fragments_table s).
Definition set_out (o : output) (s : xstate) : xstate :=
  XState (cx s) (extern_ignore_sharing s) (extern_closures s) (extern_cross_context s) (extern_trail s) o (extern_stacks s) (obj_counter s) (size_32 s) (size_64 s) (caml_code_fragments_table s).
Definition set_stacks (x : stacks) (s : xstate) : xstate :=
  XState (cx s) (extern_ignore_sharing s) (extern_closures s) (extern_cross_context s) (extern_trail s) (out s) x (obj_counter s) (size_32 s) (size_64 s) (caml_code_fragments_table s).
Definition set_counters (n a b : Z) (s : xstate) : xstate :=
  XState (cx s) (extern_ignore_sharing s) (extern_closures s) (extern_cross_context s) (extern_trail s) (out s) (extern_stacks s) n a b (caml_code_fragments_table s).
Definition set_fragments (l : list code_fragment) (s : xstate) : xstate :=
  XState (cx s) (extern_ignore_sharing s) (extern_closures s) (extern_cross_context s) (extern_trail s) (out s) (extern_stacks s) (obj_counter s) (size_32 s) (size_64 s) l.

Abbreviation XM := (M xstate cstop).

(** A step on the rest of the context. *)
Definition lift {A} (m : CM A) : XM A :=
  λ s, match m (cx s) with inl e => inl e | inr (c, x) => inr (set_cx c s, x) end.

(** "Marshal.to_buffer: buffer overflow" *)
Definition buffer_overflow : list Z :=
  [77; 97; 114; 115; 104; 97; 108; 46; 116; 111; 95; 98; 117; 102; 102; 101; 114; 58; 32; 98; 117; 102; 102; 101; 114; 32; 111; 118; 101; 114; 102; 108; 111; 119].
(** "output_value: abstract value (Abstract)" *)
Definition abstract_value : list Z :=
  [111; 117; 116; 112; 117; 116; 95; 118; 97; 108; 117; 101; 58; 32; 97; 98; 115; 116; 114; 97; 99; 116; 32; 118; 97; 108; 117; 101; 32; 40; 65; 98; 115; 116; 114; 97; 99; 116; 41].
(** "output_value: abstract value (Custom)" *)
Definition custom_value : list Z :=
  [111; 117; 116; 112; 117; 116; 95; 118; 97; 108; 117; 101; 58; 32; 97; 98; 115; 116; 114; 97; 99; 116; 32; 118; 97; 108; 117; 101; 32; 40; 67; 117; 115; 116; 111; 109; 41].
(** "output_value: functional value" *)
Definition functional_value : list Z :=
  [111; 117; 116; 112; 117; 116; 95; 118; 97; 108; 117; 101; 58; 32; 102; 117; 110; 99; 116; 105; 111; 110; 97; 108; 32; 118; 97; 108; 117; 101].
(** "output_value: abstract value (outside heap)" *)
Definition outside_heap : list Z :=
  [111; 117; 116; 112; 117; 116; 95; 118; 97; 108; 117; 101; 58; 32; 97; 98; 115; 116; 114; 97; 99; 116; 32; 118; 97; 108; 117; 101; 32; 40; 111; 117; 116; 115; 105; 100; 101; 32; 104; 101; 97; 112; 41].
(** "output_value: abstract value (outside heap) [FIXME: implement]" *)
Definition outside_heap_fixme : list Z :=
  [111; 117; 116; 112; 117; 116; 95; 118; 97; 108; 117; 101; 58; 32; 97; 98; 115; 116; 114; 97; 99; 116; 32; 118; 97; 108; 117; 101; 32; 40; 111; 117; 116; 115; 105; 100; 101; 32; 104; 101; 97; 112; 41; 32; 91; 70; 73; 88; 77; 69; 58; 32; 105; 109; 112; 108; 101; 109; 101; 110; 116; 93].
(** "output_value: object too big" *)
Definition object_too_big : list Z :=
  [111; 117; 116; 112; 117; 116; 95; 118; 97; 108; 117; 101; 58; 32; 111; 98; 106; 101; 99; 116; 32; 116; 111; 111; 32; 98; 105; 103].

(** What a custom block provides: its identifier, and the function that writes
    its data and gives the sizes, if there is one. *)
Record custom_serializer : Type := Custom {
  identifier : list Z;
  serialize : option (Z → XM (Z * Z));
  cross_context_serialize : option (Z → XM (Z * Z))
}.

Section Operations.
Context `{Runtime} (malloc : Z → bool) (out_of_memory_exn : Z) (md5_block : Z → Z → list Z) (Custom_ops_val : context → Z → custom_serializer).

Definition fault_ {A} (f : fault) : XM A := mfail (CFault f).

(** ** The stack *)

Definition extern_stack (x : stacks) : item_ptr := Ptr (match stack_malloced x with Some (id, _) => id | None => 0 end) 0.
Definition extern_stack_size (x : stacks) : Z := match stack_malloced x with Some (_, l) => Z.of_nat (length l) | None => EXTERN_STACK_INIT_SIZE end.

Definition extern_free_stack_r : XM unit :=
  mmodify (λ s, match stack_malloced (extern_stacks s) with
                | Some _ => set_stacks (XStacks (stack_init (extern_stacks s)) None (stack_count (extern_stacks s))) s
                | None => s
                end).

(** [*p] and an assignment to it *)
Definition stack_load (p : item_ptr) : XM extern_item :=
  let* s := mget in
  let x := extern_stacks s in
  match (if ptr_array p =? 0 then Some (stack_init x) else match stack_malloced x with Some (id, l) => if id =? ptr_array p then Some l else None | None => None end) with
  | Some l => match l !! Z.to_nat (ptr_index p) with Some it => if 0 <=? ptr_index p then mreturn it else fault_ (BadLoad (ptr_index p)) | None => fault_ (BadLoad (ptr_index p)) end
  | None => fault_ (BadLoad (ptr_index p))
  end.

Definition stack_store (p : item_ptr) (it : extern_item) : XM unit :=
  let* s := mget in
  let x := extern_stacks s in
  let put (l : list extern_item) := if (0 <=? ptr_index p) && (ptr_index p <? Z.of_nat (length l)) then Some (<[Z.to_nat (ptr_index p) := it]> l) else None in
  if ptr_array p =? 0 then
    match put (stack_init x) with Some l => mput (set_stacks (XStacks l (stack_malloced x) (stack_count x)) s) | None => fault_ (BadStore (ptr_index p)) end
  else
    match stack_malloced x with
    | Some (id, l) =>
        if id =? ptr_array p then match put l with Some l => mput (set_stacks (XStacks (stack_init x) (Some (id, l)) (stack_count x)) s) | None => fault_ (BadStore (ptr_index p)) end
        else fault_ (BadStore (ptr_index p))
    | None => fault_ (BadStore (ptr_index p))
    end.

(** ** The trail *)

Definition init_extern_trail_r : XM unit := mmodify (set_trail [[]]).

Definition replay_entry (e : trail_entry) : XM unit :=
  let colornum := Z.land (entry_obj e) 3 in
  let obj := Z.land (entry_obj e) (u64 (Z.lnot 3)) in
  let* hd := lift (ld (Hd_val obj)) in
  lift (st (Hd_val obj) (Coloredhd_hd hd colornum)) ;;;
  lift (st (Field obj 0) (entry_field0 e)).

Fixpoint replay_entries (l : list trail_entry) : XM unit :=
  match l with [] => mreturn tt | e :: l => replay_entry e ;;; replay_entries l end.

(** From the current block to the first. *)
Fixpoint replay_blocks (l : list (list trail_entry)) : XM unit :=
  match l with [] => mreturn tt | b :: l => replay_entries b ;;; replay_blocks l end.

Definition extern_replay_trail_r : XM unit :=
  let* s := mget in
  replay_blocks (extern_trail s) ;;;
  mmodify (set_trail [[]]).

(** ** The output *)

Definition sizeof_output_block : Z := 8120.
Definition sizeof_trail_block : Z := 8 + 16 * ENTRIES_PER_TRAIL_BLOCK.
Definition sizeof_extern_item : Z := 16.

Definition raise_out_of_memory {A} : XM A := lift (Compare.caml_raise_out_of_memory_r out_of_memory_exn).

Definition init_extern_output_r : XM unit :=
  if negb (malloc sizeof_output_block) then raise_out_of_memory
  else mmodify (set_out (Output false [] [] SIZE_EXTERN_OUTPUT_BLOCK)).

(** [extern_output_block->end] is [extern_ptr]: the current block is complete. *)
Definition close_extern_output_r : XM unit := mreturn tt.

Definition free_extern_output_r : XM unit :=
  let* s := mget in
  if extern_userprovided_output (out s) then mreturn tt
  else mmodify (set_out (Output false [] [] 0)) ;;; extern_free_stack_r.

Definition extern_out_of_memory_r {A} : XM A :=
  extern_replay_trail_r ;;; free_extern_output_r ;;; raise_out_of_memory.

Definition extern_invalid_argument_r {A} (msg : list Z) : XM A :=
  extern_replay_trail_r ;;; free_extern_output_r ;;; lift (caml_invalid_argument_r msg).

Definition extern_failwith_r {A} (msg : list Z) : XM A :=
  extern_replay_trail_r ;;; free_extern_output_r ;;; lift (caml_failwith_r msg).

Definition extern_stack_overflow_r {A} : XM A :=
  extern_replay_trail_r ;;; free_extern_output_r ;;; raise_out_of_memory.

Definition grow_extern_output_r (required : Z) : XM unit :=
  let* s := mget in
  (if extern_userprovided_output (out s) then extern_failwith_r buffer_overflow else mreturn tt) ;;;
  let extra := if required <=? SIZE_EXTERN_OUTPUT_BLOCK / 2 then 0 else required in
  (if negb (malloc (sizeof_output_block + extra)) then extern_out_of_memory_r else mreturn tt) ;;;
  mmodify (set_out (Output false (out_closed (out s) ++ [out_current (out s)]) [] (SIZE_EXTERN_OUTPUT_BLOCK + extra))).

Definition extern_output_length_r : XM Z :=
  let* s := mget in
  if extern_userprovided_output (out s) then mreturn (Z.of_nat (length (out_current (out s))))
  else mreturn (Z.of_nat (length (concat (out_closed (out s) ++ [out_current (out s)])))).

(** [if (extern_ptr + n > extern_limit) grow_extern_output_r(ctx, n)], then the
    bytes are stored and [extern_ptr] advances. *)
Definition emit_bytes (bs : list Z) : XM unit :=
  let* s := mget in
  let n := Z.of_nat (length bs) in
  (if out_size (out s) <? Z.of_nat (length (out_current (out s))) + n then grow_extern_output_r n else mreturn tt) ;;;
  mmodify (λ s, let o := out s in set_out (Output (extern_userprovided_output o) (out_closed o) (out_current o ++ bs) (out_size o)) s).

(** The low byte, and the one at a bit position. *)
Definition low8 (x : Z) : Z := x mod 256.
Definition byte_at (x n : Z) : Z := low8 (Z.shiftr x n).

Definition Write (c : Z) : XM unit := emit_bytes [low8 c].
Definition writeblock_r (data len : Z) : XM unit :=
  let* bs := lift (ldbs data (Z.to_nat len)) in emit_bytes bs.
Definition writeblock_float8 (data ndoubles : Z) : XM unit := writeblock_r data (ndoubles * 8).
Definition writecode8_r (code val : Z) : XM unit := emit_bytes [code; low8 val].
Definition writecode16_r (code val : Z) : XM unit := emit_bytes [code; byte_at val 8; low8 val].
Definition write32_r (val : Z) : XM unit := emit_bytes [byte_at val 24; byte_at val 16; byte_at val 8; low8 val].
Definition writecode32_r (code val : Z) : XM unit := emit_bytes [code; byte_at val 24; byte_at val 16; byte_at val 8; low8 val].
Definition writecode64_r (code val : Z) : XM unit :=
  emit_bytes [code; byte_at val 56; byte_at val 48; byte_at val 40; byte_at val 32; byte_at val 24; byte_at val 16; byte_at val 8; low8 val].

(** ** Traversal *)

Definition extern_record_location_r (obj : Z) : XM unit :=
  let* s := mget in
  if extern_ignore_sharing s then mreturn tt else
  match extern_trail s with
  | [] => fault_ Contract
  | b :: l =>
      (if Z.of_nat (length b) =? ENTRIES_PER_TRAIL_BLOCK then
         (if negb (malloc sizeof_trail_block) then extern_out_of_memory_r else mreturn tt) ;;;
         mmodify (set_trail ([] :: b :: l))
       else mreturn tt) ;;;
      let* hdr := lift (ld (Hd_val obj)) in
      let* field0 := lift (ld (Field obj 0)) in
      let* s := mget in
      match extern_trail s with
      | b :: l => mmodify (set_trail ((b ++ [TEntry (Z.lor obj (Colornum_hd hdr)) field0]) :: l))
      | [] => fault_ Contract
      end ;;;
      lift (st (Hd_val obj) (Bluehd_hd hdr)) ;;;
      let* s := mget in
      lift (st (Field obj 0) (obj_counter s)) ;;;
      mmodify (λ s, set_counters (u64 (obj_counter s + 1)) (size_32 s) (size_64 s) s)
  end.

Definition add_sizes (a b : Z) : XM unit := mmodify (λ s, set_counters (obj_counter s) (u64 (size_32 s + a)) (u64 (size_64 s + b)) s).

(** The new stack pointer. *)
Definition extern_resize_stack_r (sp : item_ptr) : XM item_ptr :=
  let* s := mget in
  let x := extern_stacks s in
  let newsize := 2 * extern_stack_size x in
  let id := stack_count x + 1 in
  (if EXTERN_STACK_MAX_SIZE <=? newsize then extern_stack_overflow_r else mreturn tt) ;;;
  (if negb (malloc (sizeof_extern_item * newsize)) then extern_stack_overflow_r else mreturn tt) ;;;
  let old := match stack_malloced x with Some (_, l) => l | None => stack_init x end in
  mput (set_stacks (XStacks (stack_init x) (Some (id, old ++ replicate (Z.to_nat newsize - length old) (XItem 0 0))) id) s) ;;;
  mreturn (Ptr id (ptr_index sp)).

Definition sp_add (sp : item_ptr) (n : Z) : item_ptr := Ptr (ptr_array sp) (ptr_index sp + n).

(** [sp >= extern_stack_limit] *)
Definition at_limit (sp : item_ptr) (x : stacks) : bool := (ptr_array sp =? ptr_array (extern_stack x)) && (extern_stack_size x <=? ptr_index sp).

(** [for (i = size - 1; i >= 0; i--)] over the fragments, the last first. *)
Fixpoint find_code (addr : Z) (l : list code_fragment) : list code_fragment * option code_fragment :=
  match l with
  | [] => ([], None)
  | cf :: l =>
      let cf := if digest_computed cf then cf else Fragment (code_start cf) (code_end cf) (md5_block (code_start cf) (code_end cf - code_start cf)) true in
      if (code_start cf <=? addr) && (addr <? code_end cf) then (cf :: l, Some cf)
      else let '(l, r) := find_code addr l in (cf :: l, r)
  end.

Definition extern_find_code_r (addr : Z) : XM (option code_fragment) :=
  let* s := mget in
  let '(l, r) := find_code addr (rev (caml_code_fragments_table s)) in
  mput (set_fragments (rev l) s) ;;;
  mreturn r.

Definition write_long (n : Z) : XM unit :=
  if (0 <=? n) && (n <? 64) then Write (PREFIX_SMALL_INT + n)
  else if (- Z.shiftl 1 7 <=? n) && (n <? Z.shiftl 1 7) then writecode8_r CODE_INT8 n
  else if (- Z.shiftl 1 15 <=? n) && (n <? Z.shiftl 1 15) then writecode16_r CODE_INT16 n
  else if (n <? - Z.shiftl 1 31) || (Z.shiftl 1 31 <=? n) then writecode64_r CODE_INT64 n
  else writecode32_r CODE_INT32 n.

Definition write_atom (tag hd : Z) : XM unit :=
  if tag <? 16 then Write (PREFIX_SMALL_BLOCK + tag) else writecode32_r CODE_BLOCK32 hd.

Definition write_shared (d : Z) : XM unit :=
  if d <? 256 then writecode8_r CODE_SHARED8 d
  else if d <? 65536 then writecode16_r CODE_SHARED16 d
  else writecode32_r CODE_SHARED32 d.

Definition write_string (v : Z) : XM unit :=
  let* len := lift (caml_string_length v) in
  (if len <? 32 then Write (PREFIX_SMALL_STRING + len)
   else if len <? 256 then writecode8_r CODE_STRING8 len
   else writecode32_r CODE_STRING32 len) ;;;
  writeblock_r v len ;;;
  add_sizes (1 + (len + 4) / 4) (1 + (len + 8) / 8) ;;;
  extern_record_location_r v.

Definition write_double (v : Z) : XM unit :=
  Write CODE_DOUBLE_LITTLE ;;;
  writeblock_float8 v 1 ;;;
  add_sizes (1 + 2) (1 + 1) ;;;
  extern_record_location_r v.

Definition write_double_array (v : Z) : XM unit :=
  let* sz := lift (Wosize_val v) in
  let nfloats := sz / Double_wosize in
  (if nfloats <? 256 then writecode8_r CODE_DOUBLE_ARRAY8_LITTLE nfloats else writecode32_r CODE_DOUBLE_ARRAY32_LITTLE nfloats) ;;;
  writeblock_float8 v nfloats ;;;
  add_sizes (1 + nfloats * 2) (1 + nfloats) ;;;
  extern_record_location_r v.

Definition write_custom (v : Z) : XM unit :=
  let* s := mget in
  let ops := Custom_ops_val (cx s) v in
  match (if extern_cross_context s then cross_context_serialize ops else serialize ops) with
  | None => extern_invalid_argument_r custom_value
  | Some f =>
      Write CODE_CUSTOM ;;;
      emit_bytes (identifier ops ++ [0]) ;;;
      let* (sz_32, sz_64) := f v in
      add_sizes (2 + Z.shiftr (u64 (sz_32 + 3)) 2) (2 + Z.shiftr (u64 (sz_64 + 7)) 3) ;;;
      extern_record_location_r v
  end.

Definition write_block_header (tag sz hd : Z) : XM unit :=
  if (tag <? 16) && (sz <? 8) then Write (PREFIX_SMALL_BLOCK + tag + Z.shiftl sz 4)
  else if Z.shiftl 1 32 <=? hd then writecode64_r CODE_BLOCK64 (Whitehd_hd hd)
  else writecode32_r CODE_BLOCK32 (Whitehd_hd hd).

Definition write_code (v : Z) : XM unit :=
  let* cf := extern_find_code_r v in
  let* s := mget in
  match cf with
  | Some cf =>
      (if negb (extern_closures s) then extern_invalid_argument_r functional_value else mreturn tt) ;;;
      writecode32_r CODE_CODEPOINTER (v - code_start cf) ;;;
      emit_bytes (digest cf)
  | None => extern_invalid_argument_r (if extern_cross_context s then outside_heap_fixme else outside_heap)
  end.

(** Fields 1 to [sz - 1] are left for later. *)
Definition push_fields (sp : item_ptr) (v sz : Z) : XM item_ptr :=
  if 1 <? sz then
    let sp := sp_add sp 1 in
    let* s := mget in
    let* sp := (if at_limit sp (extern_stacks s) then extern_resize_stack_r sp else mreturn sp) in
    stack_store sp (XItem (Field v 1) (sz - 1)) ;;;
    mreturn sp
  else mreturn sp.

(** A forwarding block that is short-circuited. *)
Definition short_circuit (v tag : Z) : XM (option Z) :=
  if tag =? Forward_tag then
    let* f := lift (ld (Field v 0)) in
    let* s := mget in
    if Is_block f then
      if negb (Is_in_value_area (cx s) f) then mreturn None else
      let* t := lift (Tag_val f) in
      mreturn (if (t =? Forward_tag) || (t =? Lazy_tag) || (t =? Double_tag) then None else Some f)
    else mreturn (Some f)
  else mreturn None.

(** What an iteration does next: [continue] with a value, [goto next_item], or
    the call for the block of an infix pointer. *)
Inductive next_step : Type := Continue (v : Z) (sp : item_ptr) | Next_item | Recurse (v : Z).

Definition extern_block (v : Z) (sp : item_ptr) : XM next_step :=
  let* hd := lift (ld (Hd_val v)) in
  let tag := Tag_hd hd in
  let sz := Wosize_hd hd in
  let* f := short_circuit v tag in
  match f with
  | Some f => mreturn (Continue f sp)
  | None =>
      if sz =? 0 then write_atom tag hd ;;; mreturn Next_item
      else if Color_hd hd =? Caml_blue then
        let* k := lift (ld (Field v 0)) in
        let* s := mget in
        write_shared (u64 (obj_counter s - k)) ;;; mreturn Next_item
      else if tag =? String_tag then write_string v ;;; mreturn Next_item
      else if tag =? Double_tag then write_double v ;;; mreturn Next_item
      else if tag =? Double_array_tag then write_double_array v ;;; mreturn Next_item
      else if tag =? Abstract_tag then extern_invalid_argument_r abstract_value
      else if tag =? Infix_tag then writecode32_r CODE_INFIXPOINTER (Bosize_hd hd) ;;; mreturn (Recurse (v - Bosize_hd hd))
      else if tag =? Custom_tag then write_custom v ;;; mreturn Next_item
      else
        write_block_header tag sz hd ;;;
        add_sizes (1 + sz) (1 + sz) ;;;
        let* field0 := lift (ld (Field v 0)) in
        extern_record_location_r v ;;;
        let* sp := push_fields sp v sz in
        mreturn (Continue field0 sp)
  end.

Definition extern_item_step (v : Z) (sp : item_ptr) : XM next_step :=
  let* s := mget in
  if Is_long v then write_long (Long_val v) ;;; mreturn Next_item
  else if Is_in_value_area (cx s) v then extern_block v sp
  else write_code v ;;; mreturn Next_item.

(** [v = *((sp->v)++); if (--(sp->count) == 0) sp--;] *)
Definition pop_field (sp : item_ptr) : XM (Z * item_ptr) :=
  let* it := stack_load sp in
  let* v := lift (ld (item_v it)) in
  let count := u64 (item_count it - 1) in
  stack_store sp (XItem (item_v it + 8) count) ;;;
  mreturn (v, if count =? 0 then sp_add sp (-1) else sp).

(** [sp == extern_stack] *)
Definition stack_empty (sp : item_ptr) (x : stacks) : bool := (ptr_array sp =? ptr_array (extern_stack x)) && (ptr_index sp =? 0).

(** The loop; the nested call for an infix pointer starts again at
    [extern_stack]. *)
Fixpoint extern_loop (fuel : nat) (v : Z) (sp : item_ptr) : XM unit :=
  match fuel with
  | O => fault_ OutOfFuel
  | S fuel =>
      let next_item :=
        let* s := mget in
        if stack_empty sp (extern_stacks s) then extern_free_stack_r
        else let* (v, sp) := pop_field sp in extern_loop fuel v sp in
      let* r := extern_item_step v sp in
      match r with
      | Continue v sp => extern_loop fuel v sp
      | Next_item => next_item
      | Recurse v' =>
          let* s := mget in
          extern_loop fuel v' (extern_stack (extern_stacks s)) ;;;
          next_item
      end
  end.

Definition extern_rec_r (fuel : nat) (v : Z) : XM unit :=
  let* s := mget in extern_loop fuel v (extern_stack (extern_stacks s)).

(** ** Entry points *)

(** The first block of output is [b], the others [l]: [bs] is written 4 bytes
    after its beginning. *)
Definition patch (b : list Z) (bs : list Z) : list Z := overwrite b 4 bs.

Definition be32 (val : Z) : list Z := [byte_at val 24; byte_at val 16; byte_at val 8; low8 val].

(** [fl] is the result of [caml_convert_flag_list].  The 16 bytes set aside are
    written at the end. *)
Definition extern_value_r (fuel : nat) (v fl : Z) : XM Z :=
  mmodify (set_flags (negb (Z.land fl NO_SHARING =? 0)) (negb (Z.land fl CLOSURES =? 0)) (negb (Z.land fl CROSS_CONTEXT =? 0))) ;;;
  init_extern_trail_r ;;;
  mmodify (set_counters 0 0 0) ;;;
  write32_r Intext_magic_number ;;;
  mmodify (λ s, let o := out s in set_out (Output (extern_userprovided_output o) (out_closed o) (out_current o ++ replicate 16 0) (out_size o)) s) ;;;
  extern_rec_r fuel v ;;;
  close_extern_output_r ;;;
  extern_replay_trail_r ;;;
  let* res_len := extern_output_length_r in
  let* s := mget in
  (if (Z.shiftl 1 32 <=? res_len) || (Z.shiftl 1 32 <=? size_32 s) || (Z.shiftl 1 32 <=? size_64 s) then
     free_extern_output_r ;;; lift (caml_failwith_r object_too_big)
   else mreturn tt) ;;;
  let sizes := be32 (res_len - 5 * 4) ++ be32 (obj_counter s) ++ be32 (size_32 s) ++ be32 (size_64 s) in
  let o := out s in
  mmodify (set_out (match out_closed o with
                    | b :: l => Output (extern_userprovided_output o) (patch b sizes :: l) (out_current o) (out_size o)
                    | [] => Output (extern_userprovided_output o) [] (patch (out_current o) sizes) (out_size o)
                    end)) ;;;
  mreturn res_len.

(** The bytes of all the blocks. *)
Definition out_bytes (o : output) : list Z := concat (out_closed o ++ [out_current o]).

(** The buffer and its length; the flags are those of [fl]. *)
Definition caml_output_value_to_malloc_r (fuel : nat) (v fl : Z) : XM (list Z * Z) :=
  init_extern_output_r ;;;
  let* len_res := extern_value_r fuel v fl in
  (if negb (malloc len_res) then extern_out_of_memory_r else mreturn tt) ;;;
  let* s := mget in
  free_extern_output_r ;;;
  mreturn (out_bytes (out s), len_res).

(** The bytes stored in the buffer of [len] bytes of the caller, and their
    number. *)
Definition caml_output_value_to_block_r (fuel : nat) (v fl len : Z) : XM (list Z * Z) :=
  mmodify (set_out (Output true [] [] len)) ;;;
  let* len_res := extern_value_r fuel v fl in
  let* s := mget in
  mreturn (out_current (out s), len_res).

(** A new string with the bytes. *)
Definition caml_output_value_to_string_r (fuel : nat) (v fl : Z) : XM Z :=
  init_extern_output_r ;;;
  let* len := extern_value_r fuel v fl in
  let* s := mget in
  let* (res, _) := lift (caml_alloc_string_r len []) in
  lift (stbs res (out_bytes (out s))) ;;;
  mreturn res.

(** ** Writing the data of custom blocks *)

Definition caml_serialize_int_1_r (i : Z) : XM unit := emit_bytes [low8 i].
Definition caml_serialize_int_2_r (i : Z) : XM unit := emit_bytes [byte_at i 8; low8 i].
Definition caml_serialize_int_4_r (i : Z) : XM unit := emit_bytes [byte_at i 24; byte_at i 16; byte_at i 8; low8 i].
Definition caml_serialize_block_1_r (data : list Z) : XM unit := emit_bytes data.

(** Bytes in groups of [n], each reversed ([Reverse_16], [Reverse_32],
    [Reverse_64]). *)
Fixpoint reverse_groups (count n : nat) (l : list Z) : list Z :=
  match count with O => [] | S count => rev (take n l) ++ reverse_groups count n (drop n l) end.
Definition caml_serialize_block_2_r (data : list Z) (len : nat) : XM unit := emit_bytes (reverse_groups len 2 data).
Definition caml_serialize_block_4_r (data : list Z) (len : nat) : XM unit := emit_bytes (reverse_groups len 4 data).
Definition caml_serialize_block_8_r (data : list Z) (len : nat) : XM unit := emit_bytes (reverse_groups len 8 data).
Definition caml_serialize_block_float_8_r (data : list Z) : XM unit := emit_bytes data.
End Operations.
End Extern.
