(* ===== verification/Intern.v ===== *)
(** Unmarshalling of values (byterun/intern.c).

    The part of the context that this file owns is the record [istate]: the
    bytes from [intern_src] on, the place where the next block is built, the
    table of the objects read, and the stack of operations that remain (the top
    first; the slot at [intern_stack] is never used), with its size and whether
    it is [intern_stack_init].  The allocation of heap chunks is the class
    [Chunks]; [malloc] tells whether an allocation of that many bytes succeeds;
    [find_custom_operations] gives what reads the data of a custom block, and
    [named_value] the values that OCaml code has registered.  The buffer is not
    freed here, and the release of the global lock when a code pointer is not
    found is left out. *)

From S2P Require Import Prelude Mlvalues PageTable Context Alloc Str Stacks Array Hash Compare Extern.
Import Context Alloc Str Array.

Module Intern.
Import Extern.

Definition INTERN_STACK_INIT_SIZE : Z := 256.
Definition INTERN_STACK_MAX_SIZE : Z := 1024 * 1024 * 100.

Inductive intern_op : Type := OReadItems | OFreshOID | OShift.
Record intern_item : Type := IItem { dest : Z; arg : Z; op : intern_op }.

Record istate : Type := IState {
  icx : context;
  intern_src : list Z;
  intern_dest : Z;
  intern_color : Z;
  intern_obj_table : option (list Z);
  icounter : Z;
  intern_stack : list intern_item;
  intern_stack_size : Z;
  intern_stack_is_init : bool;
  camlinternaloo_last_id : Z;
  intern_block : Z;
  intern_header : Z;
  intern_extra_block : Z;
  code_fragments : list code_fragment
}.

Definition set_icx (c : context) (s : istate) : istate :=
  IState c (intern_src s) (intern_dest s) (intern_color s) (intern_obj_table s) (icounter s) (intern_stack s) (intern_stack_size s) (intern_stack_is_init s) (camlinternaloo_last_id s) (intern_block s) (intern_header s) (intern_extra_block s) (code_fragments s).
Definition set_src (l : list Z) (s : istate) : istate :=
  IState (icx s) l (intern_dest s) (intern_color s) (intern_obj_table s) (icounter s) (intern_stack s) (intern_stack_size s) (intern_stack_is_init s) (camlinternaloo_last_id s) (intern_block s) (intern_header s) (intern_extra_block s) (code_fragments s).
Definition set_dest (d col : Z) (s : istate) : istate :=
  IState (icx s) (intern_src s) d col (intern_obj_table s) (icounter s) (intern_stack s) (intern_stack_size s) (intern_stack_is_init s) (camlinternaloo_last_id s) (intern_block s) (intern_header s) (intern_extra_block s) (code_fragments s).
Definition set_table (t : option (list Z)) (n : Z) (s : istate) : istate :=
  IState (icx s) (intern_src s) (intern_dest s) (intern_color s) t n (intern_stack s) (intern_stack_size s) (intern_stack_is_init s) (camlinternaloo_last_id s) (intern_block s) (intern_header s) (intern_extra_block s) (code_fragments s).
Definition set_istack (l : list intern_item) (n : Z) (b : bool) (s : istate) : istate :=
  IState (icx s) (intern_src s) (intern_dest s) (intern_color s) (intern_obj_table s) (icounter s) l n b (camlinternaloo_last_id s) (intern_block s) (intern_header s) (intern_extra_block s) (code_fragments s).
Definition set_last_id (x : Z) (s : istate) : istate :=
  IState (icx s) (intern_src s) (intern_dest s) (intern_color s) (intern_obj_table s) (icounter s) (intern_stack s) (intern_stack_size s) (intern_stack_is_init s) x (intern_block s) (intern_header s) (intern_extra_block s) (code_fragments s).
Definition set_block (b h x : Z) (s : istate) : istate :=
  IState (icx s) (intern_src s) (intern_dest s) (intern_color s) (intern_obj_table s) (icounter s) (intern_stack s) (intern_stack_size s) (intern_stack_is_init s) (camlinternaloo_last_id s) b h x (code_fragments s).
Definition set_code_fragments (l : list code_fragment) (s : istate) : istate :=
  IState (icx s) (intern_src s) (intern_dest s) (intern_color s) (intern_obj_table s) (icounter s) (intern_stack s) (intern_stack_size s) (intern_stack_is_init s) (camlinternaloo_last_id s) (intern_block s) (intern_header s) (intern_extra_block s) l.

Abbreviation IM := (M istate cstop).

Definition ilift {A} (m : CM A) : IM A :=
  λ s, match m (icx s) with inl e => inl e | inr (c, x) => inr (set_icx c s, x) end.

(** "input_value: ill-formed message" *)
Definition ill_formed : list Z :=
  [105; 110; 112; 117; 116; 95; 118; 97; 108; 117; 101; 58; 32; 105; 108; 108; 45; 102; 111; 114; 109; 101; 100; 32; 109; 101; 115; 115; 97; 103; 101].
(** "input_value: unknown custom block identifier" *)
Definition unknown_custom : list Z :=
  [105; 110; 112; 117; 116; 95; 118; 97; 108; 117; 101; 58; 32; 117; 110; 107; 110; 111; 119; 110; 32; 99; 117; 115; 116; 111; 109; 32; 98; 108; 111; 99; 107; 32; 105; 100; 101; 110; 116; 105; 102; 105; 101; 114].
(** "input_value_from_malloc: bad object" *)
Definition bad_object_malloc : list Z :=
  [105; 110; 112; 117; 116; 95; 118; 97; 108; 117; 101; 95; 102; 114; 111; 109; 95; 109; 97; 108; 108; 111; 99; 58; 32; 98; 97; 100; 32; 111; 98; 106; 101; 99; 116].
(** "input_value_from_block: bad object" *)
Definition bad_object_block : list Z :=
  [105; 110; 112; 117; 116; 95; 118; 97; 108; 117; 101; 95; 102; 114; 111; 109; 95; 98; 108; 111; 99; 107; 58; 32; 98; 97; 100; 32; 111; 98; 106; 101; 99; 116].
(** "input_value_from_block: bad block length" *)
Definition bad_block_length : list Z :=
  [105; 110; 112; 117; 116; 95; 118; 97; 108; 117; 101; 95; 102; 114; 111; 109; 95; 98; 108; 111; 99; 107; 58; 32; 98; 97; 100; 32; 98; 108; 111; 99; 107; 32; 108; 101; 110; 103; 116; 104].
(** "Marshal.data_size: bad object" *)
Definition data_size_bad : list Z :=
  [77; 97; 114; 115; 104; 97; 108; 46; 100; 97; 116; 97; 95; 115; 105; 122; 101; 58; 32; 98; 97; 100; 32; 111; 98; 106; 101; 99; 116].
(** "input_value: unknown code module " *)
Definition unknown_code : list Z :=
  [105; 110; 112; 117; 116; 95; 118; 97; 108; 117; 101; 58; 32; 117; 110; 107; 110; 111; 119; 110; 32; 99; 111; 100; 101; 32; 109; 111; 100; 117; 108; 101; 32].
(** " (or bad code pointer)" *)
Definition bad_code : list Z :=
  [32; 40; 111; 114; 32; 98; 97; 100; 32; 99; 111; 100; 101; 32; 112; 111; 105; 110; 116; 101; 114; 41].

Class Chunks : Type := {
  caml_alloc_for_heap : Z → CM Z;
  caml_free_for_heap : Z → CM unit;
  caml_allocation_color_r : context → Z → Z;
  caml_make_free_blocks_r : Z → Z → Z → Z → CM unit;
  caml_add_to_heap_r : Z → CM unit
}.

Section Operations.
Context `{Runtime} `{Chunks} (malloc : Z → bool) (out_of_memory_exn : Z) (md5_block : Z → Z → list Z).
(** [find_custom_operations]: the address of the operations and the function
    that reads the data to an address and returns its size. *)
Context (find_custom_operations : list Z → option (Z * (Z → IM Z))) (named_value_last_id : Z) (named_value_placeholder : Z).

Definition ifault {A} (f : fault) : IM A := mfail (CFault f).

(** ** Reading bytes *)

Definition Sign_extend (b : Z) : Z := s8 b.

Definition read8u : IM Z :=
  let* s := mget in
  match intern_src s with b :: l => mput (set_src l s) ;;; mreturn b | [] => ifault (BadLoad 0) end.
Definition read8s : IM Z := let* b := read8u in mreturn (Sign_extend b).
Definition read16u : IM Z := let* a := read8u in let* b := read8u in mreturn (Z.shiftl a 8 + b).
Definition read16s : IM Z := let* a := read8u in let* b := read8u in mreturn (Z.shiftl (Sign_extend a) 8 + b).
Definition read32u : IM Z :=
  let* a := read8u in let* b := read8u in let* c := read8u in let* d := read8u in
  mreturn (Z.shiftl a 24 + Z.shiftl b 16 + Z.shiftl c 8 + d).
Definition read32s : IM Z :=
  let* a := read8u in let* b := read8u in let* c := read8u in let* d := read8u in
  mreturn (Z.shiftl (Sign_extend a) 24 + Z.shiftl b 16 + Z.shiftl c 8 + d).

(** [for (i = 0; i < 8; i++) res = (res << 8) + intern_src[i]] *)
Fixpoint read64_loop (n : nat) (res : Z) : IM Z :=
  match n with O => mreturn res | S n => let* b := read8u in read64_loop n (u64 (u64 (Z.shiftl res 8) + b)) end.
Definition read64s_r : IM Z := let* r := read64_loop 8 0 in mreturn (s64 r).

Fixpoint read_bytes (n : nat) : IM (list Z) :=
  match n with O => mreturn [] | S n => let* b := read8u in let* l := read_bytes n in mreturn (b :: l) end.
Definition readblock (dst len : Z) : IM unit := let* l := read_bytes (Z.to_nat len) in ilift (stbs dst l).

(** ** The stack *)

Definition caml_iraise_out_of_memory_r {A} : IM A := ilift (Compare.caml_raise_out_of_memory_r out_of_memory_exn).

Definition intern_free_stack_r : IM unit :=
  mmodify (λ s, if intern_stack_is_init s then s else set_istack (intern_stack s) INTERN_STACK_INIT_SIZE true s).

Definition intern_stack_overflow_r {A} : IM A := intern_free_stack_r ;;; caml_iraise_out_of_memory_r.

Definition intern_resize_stack_r : IM unit :=
  let* s := mget in
  let newsize := 2 * intern_stack_size s in
  if INTERN_STACK_MAX_SIZE <=? newsize then intern_stack_overflow_r else
  if negb (malloc (24 * newsize)) then intern_stack_overflow_r else
  mput (set_istack (intern_stack s) newsize false s).

(** [PushItem] and the assignment of the item *)
Definition PushItem (it : intern_item) : IM unit :=
  let* s := mget in
  (if intern_stack_size s <=? Z.of_nat (length (intern_stack s)) + 1 then intern_resize_stack_r else mreturn tt) ;;;
  mmodify (λ s, set_istack (it :: intern_stack s) (intern_stack_size s) (intern_stack_is_init s) s).

Definition ReadItems (d n : Z) : IM unit := if 0 <? n then PushItem (IItem d n OReadItems) else mreturn tt.

Definition pop_intern_item : IM unit :=
  let* s := mget in
  match intern_stack s with
  | _ :: l => mput (set_istack l (intern_stack_size s) (intern_stack_is_init s) s)
  | [] => ifault Contract
  end.

(** [sp->dest++; if (--(sp->arg) == 0) sp--;] *)
Definition pop_read : IM unit :=
  let* s := mget in
  match intern_stack s with
  | it :: l =>
      let n := arg it - 1 in
      mput (set_istack (if n =? 0 then l else IItem (dest it + 8) n (op it) :: l) (intern_stack_size s) (intern_stack_is_init s) s)
  | [] => ifault Contract
  end.

(** ** Reading a value *)

Definition intern_cleanup_r : IM unit :=
  let* s := mget in
  (if negb (intern_extra_block s =? 0) then ilift (caml_free_for_heap (intern_extra_block s))
   else if negb (intern_block s =? 0) then ilift (st (Hd_val (intern_block s)) (intern_header s))
   else mreturn tt) ;;;
  intern_free_stack_r.

Definition ifail {A} (msg : list Z) : IM A := intern_cleanup_r ;;; ilift (caml_failwith_r msg).

(** [if (intern_obj_table != NULL) intern_obj_table[obj_counter++] = v] *)
Definition record_object (v : Z) : IM unit :=
  let* s := mget in
  match intern_obj_table s with
  | None => mreturn tt
  | Some t =>
      if icounter s <? Z.of_nat (length t) then mput (set_table (Some (<[Z.to_nat (icounter s) := v]> t)) (u64 (icounter s + 1)) s)
      else ifault (BadStore (icounter s))
  end.

(** A block of [size] words at [intern_dest]. *)
Definition new_object (size tag : Z) : IM Z :=
  let* s := mget in
  let v := Val_hp (intern_dest s) in
  record_object v ;;;
  ilift (st (intern_dest s) (Make_header size tag (intern_color s))) ;;;
  mmodify (λ s, set_dest (intern_dest s + 8 * (1 + size)) (intern_color s) s) ;;;
  mreturn v.

Definition read_block (size tag : Z) : IM Z :=
  let* s := mget in
  if size =? 0 then mreturn (Atom (icx s) tag)
  else
    let* v := new_object size tag in
    (if tag =? Object_tag then
       ReadItems (Field v 2) (u64 (size - 2)) ;;;
       PushItem (IItem (Field v 1) 1 OFreshOID) ;;;
       ReadItems (Field v 0) 2
     else ReadItems (Field v 0) size) ;;;
    mreturn v.

Definition read_string (len : Z) : IM Z :=
  let size := (len + 8) / 8 in
  let* v := new_object size String_tag in
  ilift (st (Field v (size - 1)) 0) ;;;
  let ofs_ind := Bsize_wsize size - 1 in
  ilift (stb (v + ofs_ind) (ofs_ind - len)) ;;;
  readblock v len ;;;
  mreturn v.

Definition read_shared (ofs : Z) : IM Z :=
  let* s := mget in
  match intern_obj_table s with
  | None => ifault (BadLoad ofs)
  | Some t =>
      let i := icounter s - ofs in
      if 0 <=? i then match t !! Z.to_nat i with Some v => mreturn v | None => ifault (BadLoad i) end else ifault (BadLoad i)
  end.

(** [Reverse_64] on each group of 8 bytes *)
Definition readfloats_r (d len code : Z) : IM unit :=
  let* l := read_bytes (Z.to_nat (8 * len)) in
  let little := (code =? CODE_DOUBLE_LITTLE) || (code =? CODE_DOUBLE_ARRAY8_LITTLE) || (code =? CODE_DOUBLE_ARRAY32_LITTLE) in
  ilift (stbs d (if little then l else reverse_groups (Z.to_nat len) 8 l)).

Definition read_doubles (size tag len code : Z) : IM Z :=
  let* v := new_object size tag in readfloats_r v len code ;;; mreturn v.

(** The fragments, the last first; the digests that are compared are computed. *)
Fixpoint resolve_code (d : list Z) (offset : Z) (l : list code_fragment) : list code_fragment * option Z :=
  match l with
  | [] => ([], None)
  | cf :: l =>
      let cf := if digest_computed cf then cf else Fragment (code_start cf) (code_end cf) (md5_block (code_start cf) (code_end cf - code_start cf)) true in
      if bool_decide (d = digest cf) then (cf :: l, if code_start cf + offset <? code_end cf then Some (code_start cf + offset) else None)
      else let '(l, r) := resolve_code d offset l in (cf :: l, r)
  end.

Definition intern_resolve_code_pointer_r (d : list Z) (offset : Z) : IM (option Z) :=
  let* s := mget in
  let '(l, r) := resolve_code d offset (rev (code_fragments s)) in
  mput (set_code_fragments (rev l) s) ;;; mreturn r.

(** "%02X" *)
Definition hex (n : Z) : Z := if n <? 10 then 48 + n else 55 + n.
Definition hex_bytes (l : list Z) : list Z := concat (map (λ b, [hex (b / 16); hex (b mod 16)]) l).
Definition intern_bad_code_pointer_r {A} (d : list Z) : IM A := ilift (caml_failwith_r (unknown_code ++ hex_bytes d ++ bad_code)).

Definition read_code_pointer : IM Z :=
  let* ofs := read32u in
  let* d := read_bytes 16 in
  let* p := intern_resolve_code_pointer_r d ofs in
  match p with
  | Some p => mreturn p
  | None =>
      if negb (named_value_placeholder =? 0) then ilift (ld named_value_placeholder)
      else intern_cleanup_r ;;; intern_bad_code_pointer_r d
  end.

(** The identifier, up to its final 0. *)
Fixpoint read_identifier (fuel : nat) : IM (list Z) :=
  match fuel with
  | O => ifault (BadLoad 0)
  | S fuel => let* b := read8u in if b =? 0 then mreturn [] else let* l := read_identifier fuel in mreturn (b :: l)
  end.

Definition read_custom : IM Z :=
  let* s := mget in
  let* ident := read_identifier (S (length (intern_src s))) in
  match find_custom_operations ident with
  | None => ifail unknown_custom
  | Some (ops, deserialize) =>
      let* s := mget in
      let* size := deserialize (intern_dest s + 16) in
      let size := 1 + (size + 8 - 1) / 8 in
      let v := Val_hp (intern_dest s) in
      record_object v ;;;
      ilift (st (intern_dest s) (Make_header size Custom_tag (intern_color s))) ;;;
      ilift (st (Field v 0) ops) ;;;
      mmodify (λ s, set_dest (intern_dest s + 8 * (1 + size)) (intern_color s) s) ;;;
      mreturn v
  end.

(** The value at [intern_src]; [None] for an infix pointer, whose block is read
    to the same place first. *)
Definition read_value (d : Z) : IM (option Z) :=
  let some (c : IM Z) : IM (option Z) := let* v := c in mreturn (Some v) in
  let* code := read8u in
  if PREFIX_SMALL_INT <=? code then
    if PREFIX_SMALL_BLOCK <=? code then some (read_block (Z.land (Z.shiftr code 4) 7) (Z.land code 15))
    else mreturn (Some (Val_int (Z.land code 63)))
  else if PREFIX_SMALL_STRING <=? code then some (read_string (Z.land code 31))
  else if code =? CODE_INT8 then some (let* n := read8s in mreturn (Val_long n))
  else if code =? CODE_INT16 then some (let* n := read16s in mreturn (Val_long n))
  else if code =? CODE_INT32 then some (let* n := read32s in mreturn (Val_long n))
  else if code =? CODE_INT64 then some (let* n := read64s_r in mreturn (Val_long n))
  else if code =? CODE_SHARED8 then some (let* n := read8u in read_shared n)
  else if code =? CODE_SHARED16 then some (let* n := read16u in read_shared n)
  else if code =? CODE_SHARED32 then some (let* n := read32u in read_shared n)
  else if code =? CODE_BLOCK32 then some (let* h := read32u in read_block (Wosize_hd h) (Tag_hd h))
  else if code =? CODE_BLOCK64 then some (let* h := read64s_r in read_block (Wosize_hd (u64 h)) (Tag_hd (u64 h)))
  else if code =? CODE_STRING8 then some (let* n := read8u in read_string n)
  else if code =? CODE_STRING32 then some (let* n := read32u in read_string n)
  else if (code =? CODE_DOUBLE_LITTLE) || (code =? CODE_DOUBLE_BIG) then some (read_doubles Double_wosize Double_tag 1 code)
  else if (code =? CODE_DOUBLE_ARRAY8_LITTLE) || (code =? CODE_DOUBLE_ARRAY8_BIG) then some (let* n := read8u in read_doubles (n * Double_wosize) Double_array_tag n code)
  else if (code =? CODE_DOUBLE_ARRAY32_LITTLE) || (code =? CODE_DOUBLE_ARRAY32_BIG) then some (let* n := read32u in read_doubles (n * Double_wosize) Double_array_tag n code)
  else if code =? CODE_CODEPOINTER then some read_code_pointer
  else if code =? CODE_INFIXPOINTER then
    let* ofs := read32u in
    PushItem (IItem d ofs OShift) ;;;
    ReadItems d 1 ;;;
    mreturn None
  else if code =? CODE_CUSTOM then some read_custom
  else ifail ill_formed.

(** [case OFreshOID] *)
Definition fresh_oid (d : Z) : IM unit :=
  let* s := mget in
  (if camlinternaloo_last_id s =? 0 then mmodify (set_last_id (if named_value_last_id =? 0 then -1 else named_value_last_id)) else mreturn tt) ;;;
  let* s := mget in
  (if negb (camlinternaloo_last_id s =? -1) then
     let* r := ilift (ld (camlinternaloo_last_id s)) in
     let* id := ilift (ld (Field r 0)) in
     ilift (st (Field d 0) id) ;;;
     ilift (st (Field r 0) (u64 (id + 2)))
   else mreturn tt) ;;;
  pop_intern_item.

Fixpoint intern_loop (fuel : nat) : IM unit :=
  match fuel with
  | O => ifault OutOfFuel
  | S fuel =>
      let* s := mget in
      match intern_stack s with
      | [] => intern_free_stack_r
      | it :: _ =>
          match op it with
          | OFreshOID => fresh_oid (dest it)
          | OShift =>
              let* v := ilift (ld (dest it)) in
              ilift (st (dest it) (u64 (v + arg it))) ;;; pop_intern_item
          | OReadItems =>
              pop_read ;;;
              let* v := read_value (dest it) in
              match v with Some v => ilift (st (dest it) v) | None => mreturn tt end
          end ;;;
          intern_loop fuel
      end
  end.

(** [d] is the address of the result. *)
Definition intern_rec_r (fuel : nat) (d : Z) : IM unit := ReadItems d 1 ;;; intern_loop fuel.

(** ** Allocation of the result *)

Definition round_page (n : Z) : Z := Z.shiftl (Z.shiftr (n + 2 ^ PageTable.Page_log - 1) PageTable.Page_log) PageTable.Page_log.

Definition intern_alloc_r (whsize num_objects : Z) : IM unit :=
  let* s := mget in
  (if camlinternaloo_last_id s =? -1 then mmodify (set_last_id 0) else mreturn tt) ;;;
  if whsize =? 0 then mmodify (λ s, set_table None (icounter s) (set_block 0 (intern_header s) 0 s))
  else
    let wosize := whsize - 1 in
    (if Max_wosize <? wosize then
       let* b := ilift (caml_alloc_for_heap (round_page (Bsize_wsize whsize))) in
       mmodify (λ s, set_block (intern_block s) (intern_header s) b s) ;;;
       (if b =? 0 then caml_iraise_out_of_memory_r else mreturn tt) ;;;
       mmodify (λ s, set_dest b (caml_allocation_color_r (icx s) b) s)
     else
       let* s := mget in
       let* b := (if wosize =? 0 then mreturn (Atom (icx s) String_tag)
                  else if wosize <=? Max_young_wosize then let* (b, _) := ilift (caml_alloc_small_r wosize String_tag []) in mreturn b
                  else ilift (caml_alloc_shr_r wosize String_tag)) in
       let* hd := ilift (ld (Hd_val b)) in
       mmodify (λ s, set_dest (Hp_val b) (Color_hd hd) (set_block b hd 0 s))) ;;;
    (if (0 <? num_objects) && negb (malloc (num_objects * 8)) then caml_iraise_out_of_memory_r else mreturn tt) ;;;
    mmodify (set_table (if 0 <? num_objects then Some (replicate (Z.to_nat num_objects) 0) else None) 0).

Definition intern_add_to_heap_r (whsize : Z) : IM unit :=
  let* s := mget in
  if negb (intern_extra_block s =? 0) then
    let end_extra_block := intern_extra_block s + round_page (Bsize_wsize whsize) in
    (if intern_dest s <? end_extra_block then ilift (caml_make_free_blocks_r (intern_dest s) ((end_extra_block - intern_dest s) / 8) 0 Caml_white) else mreturn tt) ;;;
    ilift (caml_add_to_heap_r (intern_extra_block s))
  else mreturn tt.

(** ** Entry points

    [d] is the address of the local variable that receives the result. *)

Definition input_val_from_block_r (fuel : nat) (d : Z) : IM Z :=
  let* num_objects := read32u in
  let* _ := read32u in
  let* size_64 := read32u in
  intern_alloc_r size_64 num_objects ;;;
  intern_rec_r fuel d ;;;
  intern_add_to_heap_r size_64 ;;;
  ilift (ld d).

Definition caml_input_value_from_malloc_r (fuel : nat) (d : Z) (data : list Z) (ofs : Z) : IM Z :=
  mmodify (set_src (drop (Z.to_nat ofs) data)) ;;;
  let* magic := read32u in
  (if negb (magic =? Intext_magic_number) then ilift (caml_failwith_r bad_object_malloc) else mreturn tt) ;;;
  let* _ := read32u in
  input_val_from_block_r fuel d.

Definition caml_input_value_from_block_r (fuel : nat) (d : Z) (data : list Z) (len : Z) : IM Z :=
  mmodify (set_src data) ;;;
  let* magic := read32u in
  (if negb (magic =? Intext_magic_number) then ilift (caml_failwith_r bad_object_block) else mreturn tt) ;;;
  let* block_len := read32u in
  (if u64 len <? 5 * 4 + block_len then ilift (caml_failwith_r bad_block_length) else mreturn tt) ;;;
  input_val_from_block_r fuel d.

Definition caml_marshal_data_size_r (data : list Z) : IM Z :=
  mmodify (set_src data) ;;;
  let* magic := read32u in
  (if negb (magic =? Intext_magic_number) then ilift (caml_failwith_r data_size_bad) else mreturn tt) ;;;
  let* block_len := read32u in
  mreturn (Val_long block_len).

(** ** Reading the data of custom blocks *)

Definition caml_deserialize_uint_1_r : IM Z := read8u.
Definition caml_deserialize_sint_1_r : IM Z := read8s.
Definition caml_deserialize_uint_2_r : IM Z := read16u.
Definition caml_deserialize_sint_2_r : IM Z := read16s.
Definition caml_deserialize_uint_4_r : IM Z := read32u.
Definition caml_deserialize_sint_4_r : IM Z := read32s.
Definition caml_deserialize_block_1_r (len : nat) : IM (list Z) := read_bytes len.
Definition caml_deserialize_block_2_r (len : nat) : IM (list Z) := let* l := read_bytes (2 * len) in mreturn (reverse_groups len 2 l).
Definition caml_deserialize_block_4_r (len : nat) : IM (list Z) := let* l := read_bytes (4 * len) in mreturn (reverse_groups len 4 l).
Definition caml_deserialize_block_8_r (len : nat) : IM (list Z) := let* l := read_bytes (8 * len) in mreturn (reverse_groups len 8 l).
Definition caml_deserialize_block_float_8_r (len : nat) : IM (list Z) := read_bytes (8 * len).
Definition caml_deserialize_error_r {A} (msg : list Z) : IM A := ifail msg.
End Operations.
End Intern.
