(* ===== verification/Marshal.v ===== *)
(** The format of marshalled values and their reading.

    A value in memory is a graph [G] of blocks with fields, strings and floats;
    [enc] relates the bytes of a message to the blocks of the graph in the order
    in which they are met, which is also the number that a later reference to
    them uses.  [intern_reads] shows that the loop of intern.c, given such bytes,
    builds a copy of each block at a place computed from that order. *)

From S2P Require Import Prelude Mlvalues Context Alloc Str Stacks Array Hash Compare Extern Intern.
Import Context Alloc Str Array.

Module Marshal.
Import Extern Intern.

(** ** The codes of integers *)

Lemma low8_range x : 0 <= low8 x < 256.
Proof. unfold low8. apply Z.mod_pos_bound. lia. Qed.
Lemma byte_at_range x n : 0 <= byte_at x n < 256.
Proof. apply low8_range. Qed.

Lemma byte_at_div x n : 0 <= n → byte_at x n = x / 2 ^ n mod 256.
Proof. intros Hn. unfold byte_at, low8. by rewrite Z.shiftr_div_pow2. Qed.

Ltac codec := unfold low8, s8, s64, u64, W, HW in *; rewrite ?byte_at_div by lia; rewrite ?Z.shiftl_mul_pow2 by lia; Z.to_euclidean_division_equations; lia.

Lemma digit x n : 0 <= n → x / 2 ^ n = 256 * (x / 2 ^ (n + 8)) + byte_at x n.
Proof. intros Hn. rewrite byte_at_div, Z.pow_add_r, <- Z.div_div by lia. apply Z.div_mod. lia. Qed.

Lemma digits32 n : n = 2 ^ 24 * (n / 2 ^ 24) + 2 ^ 16 * byte_at n 16 + 2 ^ 8 * byte_at n 8 + low8 n.
Proof. pose proof (digit n 16 ltac:(lia)). pose proof (digit n 8 ltac:(lia)). pose proof (Z.div_mod n 256 ltac:(lia)). unfold low8. change (16 + 8) with 24 in *. change (8 + 8) with 16 in *. change (2 ^ 8) with 256 in *. lia. Qed.

Section Read.
Context (s : istate).

Lemma read8u_run b l : intern_src s = b :: l → read8u s = inr (set_src l s, b).
Proof. intros E. unfold read8u. erewrite mbnd_eq; [|reflexivity]. by rewrite E. Qed.
End Read.

(** The same state, and a result to compare. *)
Ltac same := unfold mreturn; apply f_equal, f_equal2; [reflexivity|].
Ltac reads := repeat first [erewrite mbnd_eq; [|by apply read8u_run]|rewrite mbnd_assoc].

Lemma read8s_run s n l : - 128 <= n < 128 → intern_src s = low8 n :: l → read8s s = inr (set_src l s, n).
Proof. intros Hn E. unfold read8s. reads. same. unfold Sign_extend. codec. Qed.
Lemma read16u_run s n l : 0 <= n < 65536 → intern_src s = byte_at n 8 :: low8 n :: l → read16u s = inr (set_src l s, n).
Proof. intros Hn E. unfold read16u. reads. same. codec. Qed.
Lemma read16s_run s n l : - 32768 <= n < 32768 → intern_src s = byte_at n 8 :: low8 n :: l → read16s s = inr (set_src l s, n).
Proof. intros Hn E. unfold read16s. reads. same. unfold Sign_extend. codec. Qed.
Lemma be32_run s n l : intern_src s = be32 n ++ l → read32u s = inr (set_src l s, 2 ^ 24 * byte_at n 24 + 2 ^ 16 * byte_at n 16 + 2 ^ 8 * byte_at n 8 + low8 n).
Proof. intros E. unfold be32 in E; cbn [app] in E. unfold read32u. reads. same. rewrite !Z.shiftl_mul_pow2 by lia. lia. Qed.

Lemma read32u_run s n l : 0 <= n < 2 ^ 32 → intern_src s = be32 n ++ l → read32u s = inr (set_src l s, n).
Proof.
  intros Hn E. rewrite (be32_run _ _ _ E). same. rewrite (digits32 n) at 5. rewrite (byte_at_div n 24) by lia. rewrite (Z.mod_small (n / 2 ^ 24)); [done|]. Z.to_euclidean_division_equations; lia.
Qed.

Lemma read32s_run s n l : - 2 ^ 31 <= n < 2 ^ 31 → intern_src s = be32 n ++ l → read32s s = inr (set_src l s, n).
Proof.
  intros Hn E. unfold be32 in E; cbn [app] in E. unfold read32s. reads. same. rewrite !Z.shiftl_mul_pow2 by lia. unfold Sign_extend. assert (s8 (byte_at n 24) = n / 2 ^ 24) as ->; [|pose proof (digits32 n); lia].
  unfold s8. rewrite byte_at_div by lia. Z.to_euclidean_division_equations; lia.
Qed.

Definition be64 (n : Z) : list Z := [byte_at n 56; byte_at n 48; byte_at n 40; byte_at n 32; byte_at n 24; byte_at n 16; byte_at n 8; low8 n].

Lemma read64_step res b : 0 <= res < 2 ^ 56 → 0 <= b < 256 → u64 (u64 (Z.shiftl res 8) + b) = 256 * res + b.
Proof. intros Hr Hb. rewrite u64_add_l, Z.shiftl_mul_pow2 by lia. rewrite u64_small by lia_w. lia. Qed.

Lemma digits64 n : n mod 2 ^ 64 = 256 * (256 * (256 * (256 * (256 * (256 * (256 * byte_at n 56 + byte_at n 48) + byte_at n 40) + byte_at n 32) + byte_at n 24) + byte_at n 16) + byte_at n 8) + low8 n.
Proof.
  assert (n = 256 * (n / 2 ^ 8) + low8 n) as D0 by (unfold low8; change (2 ^ 8) with 256; apply Z.div_mod; lia). pose proof (digit n 8 ltac:(lia)) as D1. pose proof (digit n 16 ltac:(lia)) as D2. pose proof (digit n 24 ltac:(lia)) as D3. pose proof (digit n 32 ltac:(lia)) as D4. pose proof (digit n 40 ltac:(lia)) as D5. pose proof (digit n 48 ltac:(lia)) as D6. pose proof (digit n 56 ltac:(lia)) as D7.
  change (8 + 8) with 16 in *. change (16 + 8) with 24 in *. change (24 + 8) with 32 in *. change (32 + 8) with 40 in *. change (40 + 8) with 48 in *. change (48 + 8) with 56 in *. change (56 + 8) with 64 in *. pose proof (Z.div_mod n (2 ^ 64) ltac:(lia)) as Dm.
  generalize dependent (n / 2 ^ 64). generalize dependent (n / 2 ^ 56). generalize dependent (n / 2 ^ 48). generalize dependent (n / 2 ^ 40). generalize dependent (n / 2 ^ 32). generalize dependent (n / 2 ^ 24). generalize dependent (n / 2 ^ 16). generalize dependent (n / 2 ^ 8). generalize (n mod 2 ^ 64). intros. lia.
Qed.

Lemma read64_run s n l : intern_src s = be64 n ++ l → read64_loop 8 0 s = inr (set_src l s, n mod 2 ^ 64).
Proof.
  intros E. unfold be64 in E; cbn [app] in E. cbn [read64_loop]. reads. same. rewrite digits64.
  pose proof (byte_at_range n 56). pose proof (byte_at_range n 48). pose proof (byte_at_range n 40). pose proof (byte_at_range n 32). pose proof (byte_at_range n 24). pose proof (byte_at_range n 16). pose proof (byte_at_range n 8). pose proof (low8_range n).
  rewrite (read64_step _ (byte_at n 56)) by lia. rewrite (read64_step _ (byte_at n 48)) by lia. rewrite (read64_step _ (byte_at n 40)) by lia. rewrite (read64_step _ (byte_at n 32)) by lia. rewrite (read64_step _ (byte_at n 24)) by lia. rewrite (read64_step _ (byte_at n 16)) by lia. rewrite (read64_step _ (byte_at n 8)) by lia. rewrite (read64_step _ (low8 n)) by lia. lia.
Qed.

Lemma read64s_run s n l : - 2 ^ 63 <= n < 2 ^ 63 → intern_src s = be64 n ++ l → read64s_r s = inr (set_src l s, n).
Proof. intros Hn E. unfold read64s_r. erewrite mbnd_eq; [|by apply read64_run]. same. rewrite <- W_pow. fold (u64 n). rewrite s64_u64. apply s64_small. lia_w. Qed.

Lemma read_bytes_run l l' s : intern_src s = l ++ l' → read_bytes (length l) s = inr (set_src l' s, l).
Proof. revert s. induction l as [|b l IH]; intros s E; cbn [length read_bytes]; [cbn in E; subst; by destruct s|]. cbn [app] in E. reads. erewrite mbnd_eq; [|by apply IH]. done. Qed.

(** ** Values as a graph *)

Inductive content : Type := Fields (ws : list Z) | Bytes (l : list Z) | Doubles (l : list Z).
Record node : Type := Node { nd_hd : Z; nd_content : content }.
Definition wosize (n : node) : Z := Wosize_hd (nd_hd n).
Definition node_tag (n : node) : Z := Tag_hd (nd_hd n).

(** The bytes of an item. *)
Definition long_bytes (n : Z) : list Z :=
  if (0 <=? n) && (n <? 64) then [64 + n]
  else if (-128 <=? n) && (n <? 128) then [CODE_INT8; low8 n]
  else if (-32768 <=? n) && (n <? 32768) then [CODE_INT16; byte_at n 8; low8 n]
  else if (n <? - 2 ^ 31) || (2 ^ 31 <=? n) then CODE_INT64 :: be64 n
  else CODE_INT32 :: be32 n.
Definition atom_bytes (hd : Z) : list Z := if Tag_hd hd <? 16 then [128 + Tag_hd hd] else CODE_BLOCK32 :: be32 hd.
Definition shared_bytes (d : Z) : list Z :=
  if d <? 256 then [CODE_SHARED8; low8 d] else if d <? 65536 then [CODE_SHARED16; byte_at d 8; low8 d] else CODE_SHARED32 :: be32 d.
Definition header_bytes (hd : Z) : list Z :=
  if (Tag_hd hd <? 16) && (Wosize_hd hd <? 8) then [128 + Tag_hd hd + 16 * Wosize_hd hd]
  else if 2 ^ 32 <=? hd then CODE_BLOCK64 :: be64 (Whitehd_hd hd) else CODE_BLOCK32 :: be32 (Whitehd_hd hd).
Definition str_bytes (l : list Z) : list Z :=
  let len := Z.of_nat (length l) in
  (if len <? 32 then [32 + len] else if len <? 256 then [CODE_STRING8; low8 len] else CODE_STRING32 :: be32 len) ++ l.
Definition dbl_bytes (tag : Z) (l : list Z) : list Z :=
  let n := Z.of_nat (length l) / 8 in
  (if tag =? Double_tag then [CODE_DOUBLE_LITTLE] else if n <? 256 then [CODE_DOUBLE_ARRAY8_LITTLE; low8 n] else CODE_DOUBLE_ARRAY32_LITTLE :: be32 n) ++ l.

(** A place that holds a value: the variable of the caller, or a field of the
    [k]-th object. *)
Inductive slot : Type := Root | Cell (k i : nat).
#[global] Instance slot_eq_dec : EqDecision slot.
Proof. solve_decision. Defined.
Definition cells (k n : nat) : list slot := map (Cell k) (seq 0 n).

Lemma bytes_at_same m m' a bs : (∀ x, a - 8 < x < a + Z.of_nat (length bs) → m' !! x = m !! x) → bytes_at m a bs → bytes_at m' a bs.
Proof.
  intros Hm Hb i b Hi. specialize (Hb i b Hi). apply lookup_lt_Some in Hi. unfold load_byte in *. rewrite Hm; [done|]. Z.to_euclidean_division_equations; lia.
Qed.

Lemma padding_length l : length (l ++ padding ((Z.of_nat (length l) + 8) / 8) (Z.of_nat (length l))) = Z.to_nat (8 * ((Z.of_nat (length l) + 8) / 8)).
Proof. unfold padding. rewrite !length_app, length_replicate. cbn [length]. Z.to_euclidean_division_equations; lia. Qed.

Section Graph.
Context `{Runtime} (c0 : context) (G : gmap Z node) (v0 : Z).

(** A block without fields. *)
Record empty_block (w hd : Z) : Prop := {
  a_block : Is_block w = true;
  a_area : Is_in_value_area c0 w = true;
  a_header : words c0 !! (w - 8) = Some hd;
  a_word : word hd;
  a_size : Wosize_hd hd = 0;
  a_tag : Tag_hd hd ≠ Forward_tag;
  a_apart : ∀ v n, G !! v = Some n → w - 8 < v - 8 ∨ v + 8 * wosize n <= w - 8
}.

Definition value_ok (w : Z) : Prop := (Is_long w = true ∧ word w) ∨ (∃ hd, empty_block w hd) ∨ is_Some (G !! w).

Definition content_ok (v : Z) (n : node) : Prop :=
  match nd_content n with
  | Fields ws => node_tag n < Closure_tag ∧ Z.of_nat (length ws) = wosize n ∧ seg (words c0) v ws ∧ Forall value_ok ws
  | Bytes l => node_tag n = String_tag ∧ is_string (words c0) v l
  | Doubles l => (node_tag n = Double_tag ∧ wosize n = 1 ∨ node_tag n = Double_array_tag) ∧ bytes_at (words c0) v l ∧ Z.of_nat (length l) = 8 * wosize n ∧ Forall (λ b, 0 <= b < 256) l
  end.

Record node_ok (v : Z) (n : node) : Prop := {
  n_aligned : v mod 8 = 0;
  n_word : word v;
  n_area : Is_in_value_area c0 v = true;
  n_header : words c0 !! (v - 8) = Some (nd_hd n);
  n_hd : word (nd_hd n);
  n_color : Color_hd (nd_hd n) ≠ Caml_blue;
  n_size : 0 < wosize n;
  n_content : content_ok v n
}.

(** The blocks of [G] do not overlap, and their fields lead to integers, atoms
    and blocks of [G]. *)
Record graph_ok : Prop := {
  g_node v n : G !! v = Some n → node_ok v n;
  g_apart v n v' n' : G !! v = Some n → G !! v' = Some n' → v ≠ v' → v + 8 * wosize n <= v' - 8 ∨ v' + 8 * wosize n' <= v - 8
}.

Definition node_fields (n : node) : list Z := match nd_content n with Fields ws => ws | _ => [] end.

(** The value that a place has, when the objects are numbered by [O]. *)
Definition contents (O : list Z) (s : slot) : option Z :=
  match s with
  | Root => Some v0
  | Cell k i => match O !! k with Some v => match G !! v with Some n => node_fields n !! i | None => None end | None => None end
  end.

Lemma contents_app O O' s w : contents O s = Some w → contents (O ++ O') s = Some w.
Proof. destruct s as [|k i]; [done|]. cbn. destruct (O !! k) as [v|] eqn:E; [|done]. by rewrite (lookup_app_l_Some _ _ _ _ E). Qed.

(** The bytes [B] describe the places [P]: the objects seen are [O] before and
    [O'] after. *)
Inductive enc : list Z → list slot → list Z → list Z → Prop :=
  | enc_nil O : enc O [] [] O
  | enc_long O s P w B O' : contents O s = Some w → Is_long w = true → word w → enc O P B O' → enc O (s :: P) (long_bytes (Long_val w) ++ B) O'
  | enc_atom O s P w hd B O' : contents O s = Some w → empty_block w hd → enc O P B O' → enc O (s :: P) (atom_bytes hd ++ B) O'
  | enc_shared O s P w k B O' : contents O s = Some w → O !! k = Some w → enc O P B O' → enc O (s :: P) (shared_bytes (Z.of_nat (length O) - Z.of_nat k) ++ B) O'
  | enc_block O s P w n ws B O' : contents O s = Some w → w ∉ O → G !! w = Some n → nd_content n = Fields ws →
      enc (O ++ [w]) (cells (length O) (length ws) ++ P) B O' → enc O (s :: P) (header_bytes (nd_hd n) ++ B) O'
  | enc_string O s P w n l B O' : contents O s = Some w → w ∉ O → G !! w = Some n → nd_content n = Bytes l →
      enc (O ++ [w]) P B O' → enc O (s :: P) (str_bytes l ++ B) O'
  | enc_doubles O s P w n l B O' : contents O s = Some w → w ∉ O → G !! w = Some n → nd_content n = Doubles l →
      enc (O ++ [w]) P B O' → enc O (s :: P) (dbl_bytes (node_tag n) l ++ B) O'.

Lemma enc_prefix O P B O' : enc O P B O' → ∃ X, O' = O ++ X.
Proof. induction 1; try done; [by exists []; rewrite app_nil_r|..]; destruct IHenc as [X ->]; rewrite <- app_assoc; by eexists. Qed.

(** *** Reading back: memory *)

Section Layout.
Context (HG : graph_ok) (Of : list Z) (HOf : Forall (λ v, is_Some (G !! v)) Of) (base R col : Z) (cI : context).

(** The words of the blocks, with their headers. *)
Definition node_words (v : Z) : Z := match G !! v with Some n => 1 + wosize n | None => 0 end.
Fixpoint tot (l : list Z) : Z := match l with [] => 0 | v :: l => node_words v + tot l end.

Lemma tot_app l k : tot (l ++ k) = tot l + tot k.
Proof. induction l as [|v l IH]; cbn; [done|]. rewrite IH. lia. Qed.
Lemma node_words_pos v : 0 <= node_words v.
Proof. unfold node_words. destruct (G !! v) as [n|] eqn:E; [|done]. pose proof (n_size _ _ (g_node HG v n E)). lia. Qed.
Lemma tot_pos l : 0 <= tot l.
Proof. induction l as [|v l IH]; cbn; [done|]. pose proof (node_words_pos v). lia. Qed.

(** Where the [k]-th object is built, and the address of a place. *)
Definition daddr (k : nat) : Z := base + 8 + 8 * tot (take k Of).
Definition addr (s : slot) : Z := match s with Root => R | Cell k i => daddr k + 8 * Z.of_nat i end.

Lemma tot_take_S k v n : Of !! k = Some v → G !! v = Some n → tot (take (S k) Of) = tot (take k Of) + 1 + wosize n.
Proof. intros Hk Hn. rewrite (take_S_r _ _ _ Hk), tot_app. cbn [tot]. unfold node_words. rewrite Hn. lia. Qed.

Lemma tot_take_le k k' : (k <= k')%nat → tot (take k Of) <= tot (take k' Of).
Proof.
  intros Hk. replace (take k Of) with (take k (take k' Of)) by (rewrite take_take; f_equal; lia). rewrite <- (take_drop k (take k' Of)) at 2. rewrite tot_app. pose proof (tot_pos (drop k (take k' Of))). lia.
Qed.

Lemma tot_take_total k : tot (take k Of) <= tot Of.
Proof. rewrite <- (take_drop k Of) at 2. rewrite tot_app. pose proof (tot_pos (drop k Of)). lia. Qed.

Definition obj (k : nat) (v : Z) (n : node) : Prop := Of !! k = Some v ∧ G !! v = Some n.

(** Objects do not overlap, and are in the area from [base] on. *)
Lemma daddr_area k v n : obj k v n → base <= daddr k - 8 ∧ daddr k + 8 * wosize n <= base + 8 * tot Of ∧ daddr (S k) = daddr k + 8 * (1 + wosize n).
Proof. intros [Hk Hn]. unfold daddr. pose proof (tot_pos (take k Of)). pose proof (tot_take_total (S k)). rewrite (tot_take_S k v n Hk Hn) in *. lia. Qed.

Lemma daddr_apart k k' v n : obj k v n → (k < k')%nat → daddr k + 8 * wosize n <= daddr k' - 8.
Proof. intros Hk Hlt. destruct (daddr_area k v n Hk) as (_ & _ & E). pose proof (tot_take_le (S k) k' ltac:(lia)). unfold daddr in *. lia. Qed.

(** The places of the objects below [m]. *)
Definition valid (m : nat) (s : slot) : Prop := match s with Root => True | Cell k i => (k < m)%nat end.

Lemma cell_obj O k i w : contents O (Cell k i) = Some w → ∃ v n, O !! k = Some v ∧ G !! v = Some n ∧ node_fields n !! i = Some w.
Proof. cbn. destruct (O !! k) as [v|]; [|done]. destruct (G !! v) as [n|] eqn:E; [|done]. eauto. Qed.

Lemma fields_size v n i w : G !! v = Some n → node_fields n !! i = Some w → Z.of_nat i < wosize n ∧ ∃ ws, nd_content n = Fields ws ∧ ws !! i = Some w.
Proof.
  intros Hn Hi. pose proof (n_content _ _ (g_node HG v n Hn)) as Hc. unfold content_ok, node_fields in *. destruct (nd_content n) as [ws|l|l]; [|done..]. destruct Hc as (_ & Hl & _). apply lookup_lt_Some in Hi as Hlt. split; [lia|]. eauto.
Qed.

Context (HR : R + 8 <= base ∨ base + 8 * tot Of <= R) (Hbase : base mod 8 = 0).

(** A place is neither a header nor another place, nor in an object without
    fields. *)
Lemma addr_header s w k v n : contents Of s = Some w → obj k v n → addr s ≠ daddr k - 8.
Proof.
  intros Hs Hk. destruct (daddr_area k v n Hk) as (D1 & D2 & _). pose proof (n_size _ _ (g_node HG v n (proj2 Hk))). destruct s as [|k' i]; cbn [addr]; [lia|]. destruct (cell_obj _ _ _ _ Hs) as (v' & n' & Hk' & Hn' & Hi). destruct (fields_size v' n' i w Hn' Hi) as [Hlt _].
  destruct (Nat.lt_trichotomy k k') as [Hc|[->|Hc]]; [pose proof (daddr_apart k k' v n Hk Hc); lia|lia|pose proof (daddr_apart k' k v' n' (conj Hk' Hn') Hc); lia].
Qed.

Lemma addr_inj s w s' w' : contents Of s = Some w → contents Of s' = Some w' → addr s = addr s' → s = s'.
Proof.
  assert (∀ k i w, contents Of (Cell k i) = Some w → ∃ v n, obj k v n ∧ Z.of_nat i < wosize n) as Hc.
  { intros k i x Hx. destruct (cell_obj _ _ _ _ Hx) as (v & n & Hk & Hn & Hi). destruct (fields_size v n i x Hn Hi) as [Hlt _]. exists v, n. done. }
  intros Hs Hs' E. destruct s as [|k i], s' as [|k' i']; cbn [addr] in E; [done|..].
  - destruct (Hc _ _ _ Hs') as (v & n & Ho & Hlt). destruct (daddr_area _ _ _ Ho). lia.
  - destruct (Hc _ _ _ Hs) as (v & n & Ho & Hlt). destruct (daddr_area _ _ _ Ho). lia.
  - destruct (Hc _ _ _ Hs) as (v & n & Ho & Hlt). destruct (Hc _ _ _ Hs') as (v' & n' & Ho' & Hlt'). destruct (Nat.lt_trichotomy k k') as [Hk|[->|Hk]]; [pose proof (daddr_apart k k' v n Ho Hk); lia|f_equal; lia|pose proof (daddr_apart k' k v' n' Ho' Hk); lia].
Qed.

Lemma addr_raw s w k v n : contents Of s = Some w → obj k v n → node_fields n = [] → addr s + 8 <= daddr k ∨ daddr k + 8 * wosize n <= addr s.
Proof.
  intros Hs Hk Hf. destruct (daddr_area k v n Hk) as (D1 & D2 & _). destruct s as [|k' i]; cbn [addr]; [lia|]. destruct (cell_obj _ _ _ _ Hs) as (v' & n' & Hk' & Hn' & Hi). destruct (fields_size v' n' i w Hn' Hi) as [Hlt _].
  destruct (Nat.lt_trichotomy k k') as [Hc|[->|Hc]]; [pose proof (daddr_apart k k' v n Hk Hc); lia| |pose proof (daddr_apart k' k v' n' (conj Hk' Hn') Hc); lia].
  destruct Hk as [Hk Hn]. assert (v' = v) as -> by congruence. assert (n' = n) as -> by congruence. by rewrite Hf in Hi.
Qed.

(** The value read for [w]. *)
Definition val_rel (w w' : Z) : Prop :=
  (Is_long w = true ∧ w' = w) ∨ (∃ hd, empty_block w hd ∧ w' = Atom cI (Tag_hd hd)) ∨ (∃ k, Of !! k = Some w ∧ w' = daddr k).

Definition raw_bytes (n : node) : list Z :=
  match nd_content n with
  | Fields _ => []
  | Bytes l => l ++ padding ((Z.of_nat (length l) + 8) / 8) (Z.of_nat (length l))
  | Doubles l => l
  end.

(** Memory [m], when the first [j] objects have been started and the places [P]
    are still to be filled. *)
Record built (m : gmap Z Z) (j : nat) (P : list slot) : Prop := {
  u_mapped a : base <= a < base + 8 * tot Of → a mod 8 = 0 → is_Some (m !! a);
  u_root : is_Some (m !! R);
  u_header k v n : (k < j)%nat → obj k v n → m !! (daddr k - 8) = Some (Make_header (wosize n) (node_tag n) col);
  u_raw k v n : (k < j)%nat → obj k v n → bytes_at m (daddr k) (raw_bytes n);
  u_done s w : valid j s → contents Of s = Some w → s ∉ P → ∃ w', m !! addr s = Some w' ∧ val_rel w w';
  u_frame a : a ≠ R → (a < base ∨ base + 8 * tot Of <= a) → m !! a = words cI !! a
}.

Lemma raw_length v n : G !! v = Some n → Z.of_nat (length (raw_bytes n)) <= 8 * wosize n ∧ (node_fields n = [] → ∀ ws, nd_content n = Fields ws → False).
Proof.
  intros Hn. pose proof (g_node HG v n Hn) as Ho. pose proof (n_size _ _ Ho) as Hs. pose proof (n_content _ _ Ho) as Hc. unfold content_ok, raw_bytes, node_fields in *. destruct (nd_content n) as [ws|l|l].
  - destruct Hc as (_ & Hl & _). cbn [length]. split; [lia|]. intros -> ? _. cbn in Hl. lia.
  - destruct Hc as [_ Hc]. rewrite padding_length. destruct (string_header _ _ _ Hc) as (hd & H1 & H2). rewrite (n_header _ _ Ho) in H1. injection H1 as <-. fold (wosize n) in H2. split; [lia|done].
  - destruct Hc as (_ & _ & Hl & _). split; [lia|done].
Qed.

(** Filling a place. *)
Lemma built_fill m j s P w w' : built m j (s :: P) → valid j s → contents Of s = Some w → val_rel w w' → s ∉ P → built (<[addr s := w']> m) j P.
Proof.
  intros [U1 U2 U3 U4 U5 U6] Hv Hs Hr Hn. split.
  - intros a Ha Hm. destruct (decide (a = addr s)) as [->|]; [rewrite lookup_insert_eq; eauto|rewrite lookup_insert_ne by done; by apply U1].
  - destruct (decide (R = addr s)) as [->|]; [rewrite lookup_insert_eq; eauto|by rewrite lookup_insert_ne].
  - intros k v n Hk Ho. rewrite lookup_insert_ne by (by eapply addr_header). by apply (U3 k v).
  - intros k v n Hk Ho. destruct (decide (node_fields n = [])) as [Hf|Hf].
    + apply (bytes_at_same m); [|by apply (U4 k v)]. intros x Hx. destruct (addr_raw s w k v n Hs Ho Hf); pose proof (proj1 (raw_length v n (proj2 Ho))); rewrite lookup_insert_ne by lia; done.
    + unfold raw_bytes, node_fields in *. by destruct (nd_content n).
  - intros s' x Hv' Hs' Hn'. destruct (decide (s' = s)) as [->|Hne]; [rewrite lookup_insert_eq; assert (x = w) as -> by congruence; eauto|].
    rewrite lookup_insert_ne by (intros E; apply Hne; symmetry; by eapply addr_inj). apply U5; [done|done|]. set_solver.
  - intros a Ha Hout. rewrite lookup_insert_ne; [by apply U6|]. intros <-. destruct s as [|k i]; [done|]. destruct (cell_obj _ _ _ _ Hs) as (v & n & Hk & Hn' & Hi). destruct (fields_size v n i w Hn' Hi) as [Hlt _]. destruct (daddr_area k v n (conj Hk Hn')). cbn [addr] in Hout. lia.
Qed.

(** Starting an object. *)
Lemma built_object m m2 j v n P : built m j P → obj j v n → (∀ a, a < daddr j - 8 ∨ daddr j + 8 * wosize n <= a → m2 !! a = m !! a) → (∀ a, is_Some (m !! a) → is_Some (m2 !! a)) →
  m2 !! (daddr j - 8) = Some (Make_header (wosize n) (node_tag n) col) → bytes_at m2 (daddr j) (raw_bytes n) → built m2 (S j) (cells j (length (node_fields n)) ++ P).
Proof.
  intros [U1 U2 U3 U4 U5 U6] Hj Hsame Hmap Hhd Hraw. destruct (daddr_area j v n Hj) as (D1 & D2 & _). split.
  - intros a Ha Hm. by apply Hmap, U1.
  - by apply Hmap.
  - intros k v' n' Hk Ho. destruct (decide (k = j)) as [->|]; [destruct Ho as [Ho1 Ho2], Hj as [Hj1 Hj2]; assert (v' = v) as -> by congruence; by assert (n' = n) as -> by congruence|].
    pose proof (daddr_apart k j v' n' Ho ltac:(lia)). pose proof (n_size _ _ (g_node HG v' n' (proj2 Ho))). rewrite Hsame by lia. by apply (U3 k v'); [lia|].
  - intros k v' n' Hk Ho. destruct (decide (k = j)) as [->|]; [destruct Ho as [Ho1 Ho2], Hj as [Hj1 Hj2]; assert (v' = v) as -> by congruence; by assert (n' = n) as -> by congruence|].
    pose proof (daddr_apart k j v' n' Ho ltac:(lia)). apply (bytes_at_same m); [|apply (U4 k v'); [lia|done]]. intros x Hx. apply Hsame. pose proof (proj1 (raw_length v' n' (proj2 Ho))). lia.
  - intros s w Hv Hs Hn. assert (valid j s) as Hv'.
    { destruct s as [|k i]; [done|]. cbn in Hv |- *. destruct (decide (k = j)) as [->|]; [|lia]. destruct Hn. apply elem_of_app. left. destruct (cell_obj _ _ _ _ Hs) as (v' & n' & Hk & Hn' & Hi). destruct Hj as [Hj1 Hj2]. assert (v' = v) as -> by congruence. assert (n' = n) as -> by congruence.
      apply list_elem_of_fmap. exists i. split; [done|]. apply elem_of_seq. apply lookup_lt_Some in Hi. lia. }
    destruct (U5 s w Hv' Hs) as (w' & Hw' & Hr); [set_solver|]. exists w'. split; [|done]. rewrite Hsame; [done|]. destruct s as [|k i]; cbn [addr]; [lia|]. cbn in Hv'. destruct (cell_obj _ _ _ _ Hs) as (v' & n' & Hk & Hn' & Hi). destruct (fields_size v' n' i w Hn' Hi) as [Hlt _]. pose proof (daddr_apart k j v' n' (conj Hk Hn') Hv'). lia.
  - intros a Ha Hout. rewrite Hsame; [by apply U6|]. lia.
Qed.

(** *** Reading back: the engine *)

Context `{Chunks} (malloc : Z → bool) (Hmalloc : ∀ n, malloc n = true) (oom : Z) (md5_block : Z → Z → list Z) (fco : list Z → option (Z * (Z → IM Z))) (last_id placeholder : Z).
Notation read_value := (read_value malloc oom md5_block fco placeholder).

(** The addresses that the items of the stack stand for. *)
Definition flat (l : list intern_item) : list Z := concat (map (λ it, map (λ i, dest it + 8 * Z.of_nat i) (seq 0 (Z.to_nat (arg it)))) l).

(** The engine has read [j] objects, and has the places [P] on its stack. *)
Record engine (i : istate) (j : nat) (P : list slot) : Prop := {
  r_ctx : icx i = set_words (words (icx i)) cI;
  r_color : intern_color i = col;
  r_table : Of ≠ [] → ∃ t, intern_obj_table i = Some t ∧ length t = length Of ∧ ∀ k, (k < j)%nat → t !! k = Some (daddr k);
  r_counter : Of ≠ [] → icounter i = Z.of_nat j;
  r_dest : Of ≠ [] → intern_dest i = daddr j - 8;
  r_stack : flat (intern_stack i) = map addr P;
  r_items : Forall (λ it, op it = OReadItems ∧ 0 < arg it) (intern_stack i);
  r_slots : NoDup P ∧ Forall (λ s, valid j s ∧ is_Some (contents Of s)) P;
  r_room : 256 <= intern_stack_size i ∧ Z.of_nat (length (intern_stack i)) < intern_stack_size i;
  r_extra : intern_extra_block i = 0
}.

Lemma engine_src i j P l : engine i j P → engine (set_src l i) j P.
Proof. intros [R1 R3 R4 R5 R6 R7 R8 R9 R10 R11]. by split. Qed.

Lemma engine_words i j P m : engine i j P → engine (set_icx (set_words m (icx i)) i) j P.
Proof. intros [R1 R3 R4 R5 R6 R7 R8 R9 R10 R11]. split; try done. cbn. by rewrite R1. Qed.

Lemma built_same m j Q Q' : (∀ s, s ∈ Q' → s ∈ Q) → (∀ s, s ∈ Q → s ∈ Q') → built m j Q → built m j Q'.
Proof. intros H1 H2 [U1 U2 U3 U4 U5 U6]. split; try done. intros s w Hv Hs Hn. apply U5; auto. Qed.

Lemma flat_cons it l : 0 < arg it → flat (it :: l) = dest it :: flat ((if arg it - 1 =? 0 then [] else [IItem (dest it + 8) (arg it - 1) (op it)]) ++ l).
Proof.
  intros Ha. unfold flat. cbn [map concat]. destruct (Z.to_nat (arg it)) as [|m] eqn:E; [lia|]. cbn [seq map app]. rewrite Z.add_0_r. f_equal. rewrite <- seq_shift, map_map. destruct (Z.eqb_spec (arg it - 1) 0) as [Hz|Hz].
  - assert (m = 0%nat) as -> by lia. done.
  - cbn [app map concat dest arg]. replace (Z.to_nat (arg it - 1)) with m by lia. f_equal. apply map_ext. intros k. lia.
Qed.

Lemma pop_read_run i j s P : engine i j (s :: P) → ∃ it l i1, intern_stack i = it :: l ∧ op it = OReadItems ∧ dest it = addr s ∧ pop_read i = inr (i1, tt) ∧ engine i1 j P ∧ intern_src i1 = intern_src i ∧ icx i1 = icx i.
Proof.
  intros [R1 R3 R4 R5 R6 R7 R8 R9 R10 R11]. destruct (intern_stack i) as [|it l] eqn:Es; [done|]. apply Forall_cons in R8 as [[Ho Ha] R8]. rewrite flat_cons in R7 by done. cbn [map] in R7. injection R7 as E1 E2. exists it, l. eexists. split_and!; [done|done|done|unfold pop_read; erewrite mbnd_eq; [|reflexivity]; rewrite Es; reflexivity| |done|done].
  destruct R9 as [N1%NoDup_cons N2%Forall_cons]. split; cbn; try done.
  - by destruct (arg it - 1 =? 0).
  - destruct (Z.eqb_spec (arg it - 1) 0); [done|]. apply Forall_cons. split; [cbn; split; [done|lia]|done].
  - split; [apply N1|apply N2].
  - cbn [length] in R10. destruct (arg it - 1 =? 0); cbn [length]; lia.
Qed.

Lemma flat_length l : Forall (λ it, op it = OReadItems ∧ 0 < arg it) l → (length l <= length (flat l))%nat.
Proof.
  induction 1 as [|it l [_ Ha] _ IH]; [done|]. unfold flat in *. cbn [map concat length]. rewrite length_app, length_map, length_seq. lia.
Qed.

(** All the places. *)
Definition all_slots : list slot := Root :: concat (map (λ k, cells k (match Of !! k with Some v => match G !! v with Some n => length (node_fields n) | None => 0 end | None => 0 end)%nat) (seq 0 (length Of))).

Lemma node_fields_length v n : G !! v = Some n → Z.of_nat (length (node_fields n)) <= wosize n.
Proof. intros Hn. pose proof (g_node HG v n Hn) as Ho. pose proof (n_size _ _ Ho). pose proof (n_content _ _ Ho) as Hc. unfold content_ok, node_fields in *. destruct (nd_content n); cbn [length]; lia. Qed.

Lemma all_slots_length : Z.of_nat (length all_slots) <= 1 + tot Of.
Proof.
  assert (∀ m, (m <= length Of)%nat → Z.of_nat (length (concat (map (λ k, cells k (match Of !! k with Some v => match G !! v with Some n => length (node_fields n) | None => 0 end | None => 0 end)%nat) (seq 0 m)))) <= tot (take m Of)) as Hm.
  { induction m as [|m IH]; intros Hm; [done|]. rewrite seq_S, map_app, concat_app, length_app. cbn [map concat Nat.add]. rewrite app_nil_r. unfold cells at 2. rewrite length_map, length_seq. destruct (lookup_lt_is_Some_2 Of m) as [v Hv]; [lia|]. rewrite Forall_lookup in HOf. destruct (HOf m v Hv) as [n Hn]. rewrite Hv, Hn, (tot_take_S m v n Hv Hn). pose proof (node_fields_length v n Hn). specialize (IH ltac:(lia)). lia. }
  unfold all_slots. cbn [length]. specialize (Hm (length Of) ltac:(lia)). rewrite firstn_all in Hm. lia.
Qed.

Lemma slots_bound P : NoDup P → Forall (λ s, is_Some (contents Of s)) P → Z.of_nat (length P) <= 1 + tot Of.
Proof.
  intros HN HF. pose proof all_slots_length. assert (length P <= length all_slots)%nat; [|lia]. apply submseteq_length, NoDup_submseteq; [done|]. intros s Hs. rewrite Forall_forall in HF. destruct (HF s Hs) as [w Hw]. unfold all_slots. destruct s as [|k i]; [set_solver|]. apply elem_of_cons. right. destruct (cell_obj _ _ _ _ Hw) as (v & n & Hk & Hn & Hi).
  apply list_elem_of_In, in_concat. exists (cells k (length (node_fields n))). split.
  - apply in_map_iff. exists k. rewrite Hk, Hn. split; [done|]. apply in_seq. apply lookup_lt_Some in Hk. lia.
  - apply in_map, in_seq. apply lookup_lt_Some in Hi. lia.
Qed.

Context (Htot : tot Of < 2 ^ 25).

Lemma stack_bound i j P : engine i j P → Z.of_nat (length (intern_stack i)) <= 2 ^ 25.
Proof.
  intros Hr. pose proof (flat_length _ (r_items _ _ _ Hr)) as Hl. rewrite (r_stack _ _ _ Hr), length_map in Hl. destruct (r_slots _ _ _ Hr) as [HN HF]. pose proof (slots_bound P HN (Forall_impl _ _ _ HF (λ s, @proj2 _ _))). lia.
Qed.

Lemma ReadItems_run i d n : 0 < n → 256 <= intern_stack_size i → Z.of_nat (length (intern_stack i)) < intern_stack_size i → Z.of_nat (length (intern_stack i)) <= 2 ^ 25 →
  ∃ sz b, ReadItems malloc oom d n i = inr (set_istack (IItem d n OReadItems :: intern_stack i) sz b i, tt) ∧ 256 <= sz ∧ Z.of_nat (length (intern_stack i)) + 1 < sz.
Proof.
  intros Hn H1 H2 H3. unfold ReadItems. rewrite (proj2 (Z.ltb_lt _ _) Hn). unfold PushItem. erewrite mbnd_eq; [|reflexivity]. destruct (Z.leb_spec (intern_stack_size i) (Z.of_nat (length (intern_stack i)) + 1)).
  - assert (intern_resize_stack_r malloc oom i = inr (set_istack (intern_stack i) (2 * intern_stack_size i) false i, tt)) as Er.
    { unfold intern_resize_stack_r. erewrite mbnd_eq; [|reflexivity]. rewrite (proj2 (Z.leb_gt _ _)) by (unfold INTERN_STACK_MAX_SIZE; lia). by rewrite Hmalloc. }
    erewrite mbnd_eq; [|exact Er]. do 2 eexists. split; [reflexivity|]. cbn [intern_stack_size set_istack]. lia.
  - erewrite mbnd_eq; [|reflexivity]. do 2 eexists. split; [reflexivity|]. cbn [intern_stack_size set_istack]. lia.
Qed.

(** *** One item *)

Lemma val_long_run i w rest d : Is_long w = true → word w → intern_src i = long_bytes (Long_val w) ++ rest → read_value d i = inr (set_src rest i, Some w).
Proof.
  intros Hl Hw E. pose proof (Val_long_Long_val w Hw Hl) as Ev. pose proof (Long_val_range w) as Hr. unfold Min_long, Max_long in Hr. set (n := Long_val w) in *. unfold long_bytes in E. unfold Intern.read_value.
  destruct (Z.leb_spec 0 n), (Z.ltb_spec n 64); cbn [andb] in E.
  { cbn [app] in E. reads. rewrite (proj2 (Z.leb_le _ _)) by (unfold PREFIX_SMALL_INT; lia). rewrite (proj2 (Z.leb_gt _ _)) by (unfold PREFIX_SMALL_BLOCK; lia). unfold mreturn. do 3 f_equal. rewrite <- Ev at 1. unfold Val_int. f_equal. change 63 with (2 ^ 6 - 1). rewrite land_low by lia. change (2 ^ 6) with 64. Z.to_euclidean_division_equations; lia. }
  all: destruct ((-128 <=? n) && (n <? 128)) eqn:E1; [cbn [app] in E; reads; cbn -[read8s]; erewrite mbnd_eq; [|erewrite mbnd_eq; [|apply (read8s_run _ n rest); [lia|reflexivity]]; reflexivity]; by rewrite Ev|].
  all: destruct ((-32768 <=? n) && (n <? 32768)) eqn:E2; [cbn [app] in E; reads; cbn -[read16s]; erewrite mbnd_eq; [|erewrite mbnd_eq; [|apply (read16s_run _ n rest); [lia|reflexivity]]; reflexivity]; by rewrite Ev|].
  all: destruct ((n <? - 2 ^ 31) || (2 ^ 31 <=? n)) eqn:E3; [cbn [app] in E; reads; cbn -[read64s_r be64]; erewrite mbnd_eq; [|erewrite mbnd_eq; [|apply (read64s_run _ n rest); [lia|reflexivity]]; reflexivity]; by rewrite Ev|].
  all: cbn [app] in E; reads; cbn -[read32s be32]; erewrite mbnd_eq; [|erewrite mbnd_eq; [|apply (read32s_run _ n rest); [lia|reflexivity]]; reflexivity]; by rewrite Ev.
Qed.

Lemma hd_eq hd : Tag_hd hd = hd mod 256 ∧ Wosize_hd hd = hd / 1024.
Proof. unfold Tag_hd, Wosize_hd. change 255 with (2 ^ 8 - 1). rewrite land_low, Z.shiftr_div_pow2 by lia. done. Qed.

Lemma small_code_run i t z rest d : 0 <= t < 16 → 0 <= z < 8 → intern_src i = (128 + t + 16 * z) :: rest → read_value d i = (let* v := read_block malloc oom z t in mreturn (Some v)) (set_src rest i).
Proof.
  intros Ht Hz E. unfold Intern.read_value. reads. rewrite (proj2 (Z.leb_le _ _)) by (unfold PREFIX_SMALL_INT; lia). rewrite (proj2 (Z.leb_le _ _)) by (unfold PREFIX_SMALL_BLOCK; lia).
  rewrite Z.shiftr_div_pow2 by lia. change 7 with (2 ^ 3 - 1). change 15 with (2 ^ 4 - 1). rewrite !land_low by lia. assert ((128 + t + 16 * z) / 2 ^ 4 mod 2 ^ 3 = z) as -> by (Z.to_euclidean_division_equations; lia). by assert ((128 + t + 16 * z) mod 2 ^ 4 = t) as -> by (Z.to_euclidean_division_equations; lia).
Qed.

Lemma code32_run i h rest d : 0 <= h < 2 ^ 32 → intern_src i = CODE_BLOCK32 :: be32 h ++ rest → read_value d i = (let* v := read_block malloc oom (Wosize_hd h) (Tag_hd h) in mreturn (Some v)) (set_src rest i).
Proof. intros Hh E. unfold Intern.read_value. reads. cbn -[read32u be32 Intern.read_block]. rewrite mbnd_assoc. erewrite mbnd_eq; [|apply (read32u_run _ h rest); [done|reflexivity]]. done. Qed.

Lemma code64_run i h rest d : word h → intern_src i = CODE_BLOCK64 :: be64 h ++ rest → read_value d i = (let* v := read_block malloc oom (Wosize_hd h) (Tag_hd h) in mreturn (Some v)) (set_src rest i).
Proof.
  intros Hh E. unfold Intern.read_value. reads. cbn -[read64s_r be64 Intern.read_block]. rewrite mbnd_assoc. unfold read64s_r. rewrite mbnd_assoc. erewrite mbnd_eq; [|apply (read64_run _ h rest); reflexivity]. erewrite mbnd_eq; [|reflexivity].
  rewrite u64_s64. rewrite <- W_pow. fold (u64 h). rewrite u64_u64, u64_small by done. done.
Qed.

Lemma block_code_run i hd rest d : word hd → intern_src i = header_bytes hd ++ rest → read_value d i = (let* v := read_block malloc oom (Wosize_hd hd) (Tag_hd hd) in mreturn (Some v)) (set_src rest i).
Proof.
  intros Hw E. destruct (hd_eq hd) as [Et Ez]. unfold word in Hw. destruct (Whitehd_spec hd Hw) as (W1 & W2 & W3 & W4). unfold header_bytes in E. destruct ((Tag_hd hd <? 16) && (Wosize_hd hd <? 8)) eqn:E1; cbn [app] in E.
  - apply small_code_run; [|..|done]; rewrite ?Et, ?Ez in *; Z.to_euclidean_division_equations; lia.
  - rewrite <- W2, <- W3. destruct (Z.leb_spec (2 ^ 32) hd); cbn [app] in E; [by apply code64_run|]. apply code32_run; [|done]. destruct (hd_eq (Whitehd_hd hd)) as [_ W5]. rewrite W5, Ez in W2. split; [apply W1|].
    assert (hd / 1024 < 2 ^ 22) by (Z.to_euclidean_division_equations; lia). Z.to_euclidean_division_equations; lia.
Qed.

Lemma val_atom_run i w hd rest d : empty_block w hd → intern_src i = atom_bytes hd ++ rest → read_value d i = inr (set_src rest i, Some (Atom (icx i) (Tag_hd hd))).
Proof.
  intros [_ _ _ Hw Hz _ _] E. destruct (hd_eq hd) as [Et Ez]. unfold word in Hw. unfold atom_bytes in E.
  assert (∀ z t, z = 0 → (let* v := read_block malloc oom z t in mreturn (Some v)) (set_src rest i) = inr (set_src rest i, Some (Atom (icx i) t))) as Hr by (intros z t ->; reflexivity).
  destruct (Z.ltb_spec (Tag_hd hd) 16); cbn [app] in E.
  - rewrite (small_code_run i (Tag_hd hd) 0 rest d); [by apply Hr|pose proof (Z.mod_pos_bound hd 256); lia|lia|by rewrite Z.add_0_r].
  - rewrite (code32_run i hd rest d); [by apply Hr| |done]. rewrite Ez in Hz. Z.to_euclidean_division_equations; lia.
Qed.

Lemma tot_length : Z.of_nat (length Of) <= tot Of.
Proof. clear -HOf HG. induction Of as [|v l IH]; cbn [tot length]; [done|]. apply Forall_cons in HOf as [[n Hn] Hf]. specialize (IH Hf). unfold node_words at 1. rewrite Hn. pose proof (n_size _ _ (g_node HG v n Hn)). lia. Qed.

Lemma val_shared_run i j P k rest d : engine i j P → (k < j)%nat → (j <= length Of)%nat → intern_src i = shared_bytes (Z.of_nat j - Z.of_nat k) ++ rest → read_value d i = inr (set_src rest i, Some (daddr k)).
Proof.
  intros Hr Hk Hj E. assert (Of ≠ []) as Hne by (intros ->; cbn in Hj; lia). destruct (r_table _ _ _ Hr Hne) as (t & T1 & T2 & T3). pose proof (r_counter _ _ _ Hr Hne) as Hc. set (n := Z.of_nat j - Z.of_nat k) in *.
  pose proof tot_length as Hlen.
  assert (∀ l, read_shared n (set_src l i) = inr (set_src l i, daddr k)) as Hs.
  { intros l. unfold read_shared. erewrite mbnd_eq; [|reflexivity]. cbn [intern_obj_table set_src icounter]. rewrite T1, Hc. replace (Z.of_nat j - n) with (Z.of_nat k) by lia. rewrite (proj2 (Z.leb_le _ _)) by lia. rewrite Nat2Z.id, (T3 k Hk). done. }
  unfold shared_bytes in E. unfold Intern.read_value. destruct (Z.ltb_spec n 256); [|destruct (Z.ltb_spec n 65536)]; cbn [app] in E; reads.
  - assert (low8 n = n) as -> by (unfold low8; apply Z.mod_small; lia). cbn -[read8u read_shared]. rewrite !mbnd_assoc. erewrite mbnd_eq; [|by apply read8u_run]. erewrite mbnd_eq; [|apply (Hs rest)]. done.
  - cbn -[read16u read_shared]. rewrite !mbnd_assoc. erewrite mbnd_eq; [|apply (read16u_run _ n rest); [lia|reflexivity]]. erewrite mbnd_eq; [|apply (Hs rest)]. done.
  - cbn -[read32u read_shared be32]. rewrite !mbnd_assoc. erewrite mbnd_eq; [|apply (read32u_run _ n rest); [lia|reflexivity]]. erewrite mbnd_eq; [|apply (Hs rest)]. done.
Qed.

(** *** A new object *)


Lemma daddr_aligned k : daddr k mod 8 = 0.
Proof. unfold daddr. Z.to_euclidean_division_equations; lia. Qed.

Lemma obj_ne j v n : obj j v n → Of ≠ [] ∧ (j < length Of)%nat.
Proof. intros [Hj _]. split; [by intros E; rewrite E in Hj|by eapply lookup_lt_Some]. Qed.

Lemma engine_new i j v n P : engine i j P → obj j v n → is_Some (words (icx i) !! (daddr j - 8)) →
  ∃ i1, new_object (wosize n) (node_tag n) i = inr (i1, daddr j) ∧ engine i1 (S j) P ∧ intern_src i1 = intern_src i ∧ words (icx i1) = <[daddr j - 8 := Make_header (wosize n) (node_tag n) col]> (words (icx i)) ∧
    intern_stack i1 = intern_stack i ∧ intern_stack_size i1 = intern_stack_size i.
Proof.
  intros He Hj [w Hw]. destruct (obj_ne j v n Hj) as [Hne Hlt]. destruct (r_table _ _ _ He Hne) as (t & T1 & T2 & T3). pose proof (r_counter _ _ _ He Hne) as Hc. pose proof (r_dest _ _ _ He Hne) as Hd. destruct (daddr_area j v n Hj) as (_ & _ & Hnext). pose proof tot_length as Hlen.
  set (i1 := set_table (Some (<[j := daddr j]> t)) (Z.of_nat j + 1) i). assert (record_object (daddr j) i = inr (i1, tt)) as Er.
  { unfold record_object. erewrite mbnd_eq; [|reflexivity]. rewrite T1, Hc, T2. rewrite (proj2 (Z.ltb_lt _ _)) by lia. rewrite Nat2Z.id, u64_small by lia_w. done. }
  set (c1 := set_words (<[daddr j - 8 := Make_header (wosize n) (node_tag n) col]> (words (icx i))) (icx i)). assert (ilift (st (daddr j - 8) (Make_header (wosize n) (node_tag n) col)) i1 = inr (set_icx c1 i1, tt)) as Es.
  { unfold ilift, st. cbn [icx i1 set_table]. by rewrite Hw. }
  exists (set_dest (daddr j - 8 + 8 * (1 + wosize n)) col (set_icx c1 i1)). split.
  { unfold new_object. erewrite mbnd_eq; [|reflexivity]. cbv zeta. rewrite Hd, (r_color _ _ _ He). replace (Val_hp (daddr j - 8)) with (daddr j) by (unfold Val_hp; lia). erewrite mbnd_eq; [|exact Er]. erewrite mbnd_eq; [|exact Es]. erewrite mbnd_eq; [|reflexivity]. cbn [intern_dest intern_color set_icx i1 set_table]. by rewrite Hd, (r_color _ _ _ He). }
  destruct He as [R1 R3 R4 R5 R6 R7 R8 R9 R10 R11]. split_and!; try done. split; cbn; try done.
  - unfold c1. by rewrite R1.
  - intros _. exists (<[j := daddr j]> t). rewrite length_insert. split_and!; [done|done|]. intros k Hk. destruct (decide (k = j)) as [->|]; [apply list_lookup_insert_eq; lia|rewrite list_lookup_insert_ne by done; apply T3; lia].
  - intros _. lia.
  - intros _. lia.
  - destruct R9 as [N1 N2]. split; [done|]. eapply Forall_impl; [exact N2|]. intros [|k x]; cbn; [done|]. intros [? ?]. split; [lia|done].
Qed.

(** Mapped memory. *)
Lemma built_mapped m j P k v n : built m j P → obj k v n → is_Some (m !! (daddr k - 8)) ∧ mapped_bytes m (daddr k) (8 * wosize n).
Proof.
  intros Hb Hk. destruct (daddr_area k v n Hk) as (D1 & D2 & _). pose proof (n_size _ _ (g_node HG v n (proj2 Hk))). pose proof (daddr_aligned k) as Ha. split; [apply (u_mapped _ _ _ Hb); [lia|Z.to_euclidean_division_equations; lia]|].
  intros a Ha'. unfold load_byte. destruct (u_mapped _ _ _ Hb (8 * (a / 8))) as [w ->]; [|Z.to_euclidean_division_equations; lia|eauto]. Z.to_euclidean_division_equations; lia.
Qed.

(** *** A block with fields *)

Lemma cells_addr k n : map addr (cells k n) = map (λ i, daddr k + 8 * Z.of_nat i) (seq 0 n).
Proof. unfold cells. by rewrite map_map. Qed.

Lemma cells_NoDup k n : NoDup (cells k n).
Proof. assert (Inj (=) (=) (Cell k)) by (by intros x y [= ->]). apply (NoDup_fmap_2 (Cell k)), NoDup_seq. Qed.

Lemma elem_cells s k n : s ∈ cells k n ↔ ∃ i, s = Cell k i ∧ (i < n)%nat.
Proof. unfold cells. rewrite list_elem_of_In, in_map_iff. split; [intros (i & <- & Hi%in_seq)|intros (i & -> & Hi)]; [exists i|exists i; rewrite in_seq]; (split; [done|lia]). Qed.

Lemma block_run i j v n ws s P rest : engine i j P → built (words (icx i)) j (s :: P) → obj j v n → nd_content n = Fields ws → intern_src i = header_bytes (nd_hd n) ++ rest →
  ∃ i2, read_value (addr s) i = inr (i2, Some (daddr j)) ∧ engine i2 (S j) (cells j (length ws) ++ P) ∧ built (words (icx i2)) (S j) (cells j (length ws) ++ s :: P) ∧ intern_src i2 = rest.
Proof.
  intros He Hb Hj Hws E. pose proof (g_node HG v n (proj2 Hj)) as Hok. pose proof (n_size _ _ Hok) as Hz. pose proof (n_content _ _ Hok) as Hc. unfold content_ok in Hc. rewrite Hws in Hc. destruct Hc as (Ht & Hl & _). destruct (built_mapped _ _ _ _ _ _ Hb Hj) as [Hm _].
  destruct (engine_new (set_src rest i) j v n P (engine_src _ _ _ _ He) Hj Hm) as (i1 & N1 & N2 & N3 & N4 & N5 & N6). pose proof (stack_bound _ _ _ N2) as Hsb. destruct (r_room _ _ _ N2) as [Q1 Q2]. destruct (ReadItems_run i1 (daddr j) (wosize n) Hz Q1 Q2 Hsb) as (sz & b & P1 & P2 & P3).
  eexists. split; [|split; [|split]].
  - rewrite (block_code_run i (nd_hd n) rest (addr s) (n_hd _ _ Hok) E). fold (wosize n) (node_tag n). erewrite mbnd_eq; [|unfold Intern.read_block; erewrite mbnd_eq; [|reflexivity]; rewrite (proj2 (Z.eqb_neq _ _)) by lia; erewrite mbnd_eq; [|exact N1]; rewrite (proj2 (Z.eqb_neq _ _)) by (unfold Closure_tag, Object_tag in *; lia); unfold Field; rewrite Z.mul_0_r, Z.add_0_r; erewrite mbnd_eq; [|exact P1]; reflexivity]. reflexivity.
  - destruct N2 as [R1 R3 R4 R5 R6 R7 R8 R9 R10 R11]. split; cbn; try done.
    + unfold flat in *. cbn [map concat dest arg]. rewrite R7, map_app, cells_addr. do 3 f_equal. lia.
    + apply Forall_cons. split; [done|done].
    + destruct R9 as [M1 M2]. split.
      * apply NoDup_app. split_and!; [apply cells_NoDup| |done]. intros x (k & -> & _)%elem_cells Hx. destruct (r_slots _ _ _ He) as [_ F]. rewrite Forall_forall in F. destruct (F _ Hx) as [Hv _]. cbn in Hv. lia.
      * apply Forall_app. split; [|done]. apply Forall_forall. intros x (k & -> & Hk)%elem_cells. split; [cbn; lia|]. cbn. destruct Hj as [J1 J2]. rewrite J1, J2. unfold node_fields. rewrite Hws. apply lookup_lt_is_Some_2. lia.
    + cbn [length]. lia.
  - cbn [icx set_istack]. rewrite N4. cbn [icx set_src]. replace (length ws) with (length (node_fields n)) by (unfold node_fields; by rewrite Hws). apply (built_object (words (icx i))  _ j v n (s :: P) Hb Hj).
    + intros a Ha. rewrite lookup_insert_ne by lia. done.
    + intros a [x Ha]. destruct (decide (a = daddr j - 8)) as [->|]; [rewrite lookup_insert_eq; eauto|rewrite lookup_insert_ne by done; eauto].
    + by rewrite lookup_insert_eq.
    + unfold raw_bytes. rewrite Hws. by intros k y.
  - done.
Qed.

(** *** Strings and floats *)

Lemma ilift_run {A} (m : CM A) i c x : m (icx i) = inr (c, x) → ilift m i = inr (set_icx c i, x).
Proof. intros E. unfold ilift. by rewrite E. Qed.

Lemma is_Some_write m a b k : is_Some (m !! k) → is_Some (write_byte m a b !! k).
Proof. intros Hk. unfold write_byte, store_byte. destruct (m !! (8 * (a / 8))) as [w|] eqn:E; [|done]. cbn. destruct (decide (8 * (a / 8) = k)) as [->|]; [rewrite lookup_insert_eq; eauto|by rewrite lookup_insert_ne]. Qed.

Lemma is_Some_writes m a bs k : is_Some (m !! k) → is_Some (write_bytes m a bs !! k).
Proof. revert m a. induction bs as [|b bs IH]; intros m a Hk; [done|]. by apply IH, is_Some_write. Qed.

Lemma is_Some_insert (m : gmap Z Z) a w k : is_Some (m !! k) → is_Some (<[a := w]> m !! k).
Proof. intros Hk. destruct (decide (a = k)) as [->|]; [rewrite lookup_insert_eq; eauto|by rewrite lookup_insert_ne]. Qed.

(** The bytes of a string that is built: its last word is cleared, the length
    of the padding stored, and the contents copied. *)
Lemma string_built m d l : let len := Z.of_nat (length l) in let size := (len + 8) / 8 in d mod 8 = 0 → mapped_bytes m d (8 * size) → Forall (λ b, 0 <= b < 256) l →
  bytes_at (write_bytes (write_byte (<[d + 8 * (size - 1) := 0]> m) (d + (8 * size - 1)) (8 * size - 1 - len)) d l) d (l ++ padding size len).
Proof.
  intros len size Hd Hm HF. set (m2 := <[d + 8 * (size - 1) := 0]> m). set (m3 := write_byte m2 _ _). assert (len <= 8 * size - 1 ∧ 8 * (size - 1) <= len) as Hs by (unfold size; Z.to_euclidean_division_equations; lia).
  assert (mapped_bytes m2 d (8 * size)) as Hm2 by (by apply mapped_bytes_insert). assert (mapped_bytes m3 d (8 * size)) as Hm3 by (by apply mapped_write_byte). assert (mapped_bytes m3 d (Z.of_nat (length l))) as Hm3' by (intros y Hy; apply Hm3; fold len in Hy; lia).
  apply bytes_at_app. split; [by apply bytes_at_write|]. fold len. intros k b Hk. rewrite load_write_bytes by done. rewrite (proj2 (Z.leb_le _ _)) by lia. rewrite lookup_ge_None_2 by (unfold len in *; lia).
  unfold m3. rewrite load_write_byte by (apply Hm2; lia). unfold padding in Hk. apply lookup_app_Some in Hk as [Hk|[Hk1 Hk]].
  - apply lookup_replicate in Hk as [-> Hk]. rewrite (proj2 (Z.eqb_neq _ _)) by lia. unfold load_byte, m2. assert (8 * ((d + len + Z.of_nat k) / 8) = d + 8 * (size - 1)) as -> by (Z.to_euclidean_division_equations; lia). rewrite lookup_insert_eq. unfold byte_of. by rewrite Z.shiftr_0_l.
  - rewrite length_replicate in *. apply list_lookup_singleton_Some in Hk as [Hk <-]. rewrite (proj2 (Z.eqb_eq _ _)) by lia. f_equal. apply Z.mod_small. lia.
Qed.

Lemma string_code_run i l rest d : Z.of_nat (length l) < 2 ^ 32 → intern_src i = str_bytes l ++ rest → read_value d i = (let* v := read_string (Z.of_nat (length l)) in mreturn (Some v)) (set_src (l ++ rest) i).
Proof.
  intros Hl E. unfold str_bytes in E. set (len := Z.of_nat (length l)) in *. rewrite <- app_assoc in E. unfold Intern.read_value. destruct (Z.ltb_spec len 32); [|destruct (Z.ltb_spec len 256)]; cbn [app] in E; reads.
  - rewrite (proj2 (Z.leb_gt _ _)) by (unfold PREFIX_SMALL_INT; lia). rewrite (proj2 (Z.leb_le _ _)) by (unfold PREFIX_SMALL_STRING; lia). change 31 with (2 ^ 5 - 1). rewrite land_low by lia. by assert ((32 + len) mod 2 ^ 5 = len) as -> by (Z.to_euclidean_division_equations; lia).
  - assert (low8 len = len) as -> by (unfold low8; apply Z.mod_small; lia). cbn -[read8u Intern.read_string]. rewrite mbnd_assoc. erewrite mbnd_eq; [|by apply read8u_run]. done.
  - cbn -[read32u Intern.read_string be32]. rewrite mbnd_assoc. erewrite mbnd_eq; [|apply (read32u_run _ len (l ++ rest)); [lia|reflexivity]]. done.
Qed.

Lemma string_run i j v n l s P rest : engine i j P → built (words (icx i)) j (s :: P) → obj j v n → nd_content n = Bytes l → intern_src i = str_bytes l ++ rest →
  ∃ i2, read_value (addr s) i = inr (i2, Some (daddr j)) ∧ engine i2 (S j) P ∧ built (words (icx i2)) (S j) (s :: P) ∧ intern_src i2 = rest.
Proof.
  intros He Hb Hj Hl E. pose proof (g_node HG v n (proj2 Hj)) as Hok. pose proof (n_size _ _ Hok) as Hz. pose proof (n_content _ _ Hok) as Hc. unfold content_ok in Hc. rewrite Hl in Hc. destruct Hc as [Ht Hstr]. destruct (string_header _ _ _ Hstr) as (hd & H1' & Hw). rewrite (n_header _ _ Hok) in H1'. injection H1' as <-. fold (wosize n) in Hw.
  destruct (daddr_area j v n Hj) as (D1 & D2 & _). pose proof (tot_pos (take j Of)). assert (wosize n <= 2 ^ 25) as Hsm by (unfold daddr in D2; lia). destruct (built_mapped _ _ _ _ _ _ Hb Hj) as [Hm Hmb]. set (len := Z.of_nat (length l)) in *. assert (len < 2 ^ 32) as Hlen by (Z.to_euclidean_division_equations; lia).
  destruct (engine_new (set_src (l ++ rest) i) j v n P (engine_src _ _ _ _ He) Hj Hm) as (i1 & N1 & N2 & N3 & N4 & _). cbn [icx set_src] in N4. cbn [intern_src set_src] in N3. set (m1 := <[daddr j - 8 := _]> (words (icx i))) in *.
  assert (mapped_bytes m1 (daddr j) (8 * wosize n)) as Hm1 by (by apply mapped_bytes_insert). set (m2 := <[daddr j + 8 * (wosize n - 1) := 0]> m1). set (m3 := write_byte m2 (daddr j + (8 * wosize n - 1)) (8 * wosize n - 1 - len)). set (m4 := write_bytes m3 (daddr j) l).
  set (i2 := set_icx (set_words m2 (icx i1)) i1). set (i3 := set_icx (set_words m3 (icx i1)) i1). set (i4 := set_src rest (set_icx (set_words m4 (icx i1)) i1)).
  assert (mapped_bytes m2 (daddr j) (8 * wosize n)) as Hm2 by (by apply mapped_bytes_insert).
  assert (ilift (st (Field (daddr j) (wosize n - 1)) 0) i1 = inr (i2, tt)) as E2.
  { apply ilift_run. unfold st. rewrite N4. unfold Field. destruct (Hm1 (daddr j + 8 * (wosize n - 1)) ltac:(lia)) as [b Hbb]. unfold load_byte in Hbb. pose proof (daddr_aligned j). replace (8 * ((daddr j + 8 * (wosize n - 1)) / 8)) with (daddr j + 8 * (wosize n - 1)) in Hbb by (Z.to_euclidean_division_equations; lia). by destruct (m1 !! _). }
  assert (ilift (stb (daddr j + (8 * wosize n - 1)) (8 * wosize n - 1 - len)) i2 = inr (i3, tt)) as E3.
  { rewrite (ilift_run _ i2 (set_words m3 (icx i1)) tt); [done|]. rewrite stb_eq; [done|]. cbn. apply Hm2. lia. }
  assert (readblock (daddr j) len i3 = inr (i4, tt)) as E4.
  { unfold readblock. replace (Z.to_nat len) with (length l) by lia. erewrite mbnd_eq; [|apply (read_bytes_run l rest); cbn; exact N3]. rewrite (ilift_run _ _ (set_words m4 (icx i1)) tt); [done|]. rewrite stbs_eq; [done|]. cbn. apply mapped_write_byte. intros y Hy. apply Hm2. Z.to_euclidean_division_equations; lia. }
  exists i4. split_and!.
  - rewrite (string_code_run i l rest (addr s) Hlen E). erewrite mbnd_eq; [|unfold Intern.read_string; cbv zeta; fold len; rewrite <- Hw, <- Ht; erewrite mbnd_eq; [|exact N1]; erewrite mbnd_eq; [|exact E2]; unfold Bsize_wsize; replace (wosize n * 8 - 1) with (8 * wosize n - 1) by lia; erewrite mbnd_eq; [|exact E3]; erewrite mbnd_eq; [|exact E4]; reflexivity]. reflexivity.
  - by apply engine_src, engine_words.
  - cbn [icx i4 set_src set_icx words set_words]. pose proof (built_object (words (icx i)) m4 j v n (s :: P) Hb Hj) as Hbo. unfold node_fields in Hbo. rewrite Hl in Hbo. apply Hbo.
    + intros a Ha. unfold m4. rewrite write_bytes_lookup by (Z.to_euclidean_division_equations; lia). unfold m3. rewrite write_byte_lookup by lia. unfold m2, m1. by rewrite !lookup_insert_ne by lia.
    + intros a Ha. by apply is_Some_writes, is_Some_write, is_Some_insert, is_Some_insert.
    + unfold m4. rewrite write_bytes_lookup by lia. unfold m3. rewrite write_byte_lookup by lia. unfold m2, m1. rewrite lookup_insert_ne, lookup_insert_eq by lia. done.
    + unfold raw_bytes. rewrite Hl. fold len. unfold m4, m3, m2. rewrite Hw in *. apply string_built; [apply daddr_aligned|done|apply Hstr].
  - done.
Qed.

Definition is_little (code : Z) : bool := (code =? CODE_DOUBLE_LITTLE) || (code =? CODE_DOUBLE_ARRAY8_LITTLE) || (code =? CODE_DOUBLE_ARRAY32_LITTLE).

Lemma doubles_code_run i n l rest d v : G !! v = Some n → wosize n < 2 ^ 32 → nd_content n = Doubles l → intern_src i = dbl_bytes (node_tag n) l ++ rest →
  ∃ code, is_little code = true ∧ read_value d i = (let* v := read_doubles (wosize n) (node_tag n) (wosize n) code in mreturn (Some v)) (set_src (l ++ rest) i).
Proof.
  intros Hn Hsm Hl E. pose proof (g_node HG v n Hn) as Hok. pose proof (n_size _ _ Hok) as Hz. pose proof (n_content _ _ Hok) as Hc. unfold content_ok in Hc. rewrite Hl in Hc. destruct Hc as (Ht & _ & Hlen & _). unfold dbl_bytes in E. rewrite Hlen, (Z.mul_comm 8), Z.div_mul in E by lia. rewrite <- app_assoc in E. unfold Intern.read_value. destruct Ht as [[Ht Hw]|Ht].
  - rewrite Ht in E. cbn [app] in E. change (Double_tag =? Double_tag) with true in E. cbn [app] in E. exists CODE_DOUBLE_LITTLE. split; [done|]. reads. rewrite Hw, Ht. done.
  - rewrite Ht in E |- *. change (Double_array_tag =? Double_tag) with false in E. cbn iota in E. destruct (Z.ltb_spec (wosize n) 256); cbn [app] in E; reads.
    + exists CODE_DOUBLE_ARRAY8_LITTLE. split; [done|]. assert (low8 (wosize n) = wosize n) as -> by (unfold low8; apply Z.mod_small; lia). cbn -[read8u read_doubles Z.mul]. rewrite mbnd_assoc. erewrite mbnd_eq; [|by apply read8u_run]. by rewrite Z.mul_1_r.
    + exists CODE_DOUBLE_ARRAY32_LITTLE. split; [done|]. cbn -[read32u read_doubles be32 Z.mul]. rewrite mbnd_assoc. erewrite mbnd_eq; [|apply (read32u_run _ (wosize n) (l ++ rest)); [lia|reflexivity]]. by rewrite Z.mul_1_r.
Qed.

Lemma doubles_run i j v n l s P rest : engine i j P → built (words (icx i)) j (s :: P) → obj j v n → nd_content n = Doubles l → intern_src i = dbl_bytes (node_tag n) l ++ rest →
  ∃ i2, read_value (addr s) i = inr (i2, Some (daddr j)) ∧ engine i2 (S j) P ∧ built (words (icx i2)) (S j) (s :: P) ∧ intern_src i2 = rest.
Proof.
  intros He Hb Hj Hl E. pose proof (g_node HG v n (proj2 Hj)) as Hok. pose proof (n_size _ _ Hok) as Hz. pose proof (n_content _ _ Hok) as Hc. unfold content_ok in Hc. rewrite Hl in Hc. destruct Hc as (Ht & _ & Hlen & HF).
  destruct (daddr_area j v n Hj) as (D1 & D2 & _). pose proof (tot_pos (take j Of)). assert (wosize n <= 2 ^ 25) as Hsm by (unfold daddr in D2; lia). destruct (built_mapped _ _ _ _ _ _ Hb Hj) as [Hm Hmb].
  destruct (engine_new (set_src (l ++ rest) i) j v n P (engine_src _ _ _ _ He) Hj Hm) as (i1 & N1 & N2 & N3 & N4 & _). cbn [icx set_src] in N4. cbn [intern_src set_src] in N3. set (m1 := <[daddr j - 8 := _]> (words (icx i))) in *.
  assert (mapped_bytes m1 (daddr j) (8 * wosize n)) as Hm1 by (by apply mapped_bytes_insert). set (m2 := write_bytes m1 (daddr j) l). set (i2 := set_src rest (set_icx (set_words m2 (icx i1)) i1)).
  destruct (doubles_code_run i n l rest (addr s) v (proj2 Hj) ltac:(lia) Hl E) as (code & Hlit & Ecode).
  assert (readfloats_r (daddr j) (wosize n) code i1 = inr (i2, tt)) as E4.
  { unfold readfloats_r. replace (Z.to_nat (8 * wosize n)) with (length l) by lia. erewrite mbnd_eq; [|apply (read_bytes_run l rest); exact N3]. fold (is_little code). rewrite Hlit. rewrite (ilift_run _ _ (set_words m2 (icx i1)) tt); [done|]. rewrite stbs_eq; cbn [words icx set_src]; rewrite N4; [done|]. by rewrite Hlen. }
  exists i2. split_and!.
  - rewrite Ecode. erewrite mbnd_eq; [|unfold read_doubles; erewrite mbnd_eq; [|exact N1]; erewrite mbnd_eq; [|exact E4]; reflexivity]. reflexivity.
  - by apply engine_src, engine_words.
  - cbn [icx i2 set_src set_icx words set_words]. pose proof (built_object (words (icx i)) m2 j v n (s :: P) Hb Hj) as Hbo. unfold node_fields in Hbo. rewrite Hl in Hbo. apply Hbo.
    + intros a Ha. unfold m2. rewrite write_bytes_lookup by lia. unfold m1. by rewrite lookup_insert_ne by lia.
    + intros a Ha. by apply is_Some_writes, is_Some_insert.
    + unfold m2. rewrite write_bytes_lookup by lia. unfold m1. by rewrite lookup_insert_eq.
    + unfold raw_bytes. rewrite Hl. unfold m2. apply bytes_at_write; [|done]. by rewrite Hlen.
  - done.
Qed.

(** *** The loop *)

(** The value read is stored in its place. *)
Lemma fill_run i j s P w w' : engine i j P → built (words (icx i)) j (s :: P) → valid j s → s ∉ P → contents Of s = Some w → val_rel w w' →
  ∃ i2, ilift (st (addr s) w') i = inr (i2, tt) ∧ engine i2 j P ∧ built (words (icx i2)) j P ∧ intern_src i2 = intern_src i.
Proof.
  intros He Hb Hv Hs Hw Hr. assert (is_Some (words (icx i) !! addr s)) as [x Hx].
  { destruct s as [|k y]; [apply (u_root _ _ _ Hb)|]. destruct (cell_obj _ _ _ _ Hw) as (v & n & Hk & Hn & Hi). destruct (fields_size v n y w Hn Hi) as [Hlt _]. destruct (daddr_area k v n (conj Hk Hn)) as (D1 & D2 & _). pose proof (daddr_aligned k). cbn [addr]. apply (u_mapped _ _ _ Hb); [lia|Z.to_euclidean_division_equations; lia]. }
  eexists. split; [apply ilift_run; unfold st; rewrite Hx; reflexivity|]. split_and!; [by apply engine_words|by eapply built_fill|done].
Qed.

Lemma item_run i s w w' i1 rest j' P' : read_value (addr s) i = inr (i1, Some w') → engine i1 j' P' → built (words (icx i1)) j' (s :: P') → intern_src i1 = rest → valid j' s → s ∉ P' → contents Of s = Some w → val_rel w w' →
  ∃ i2, (let* v := read_value (addr s) in match v with Some v => ilift (st (addr s) v) | None => mreturn tt end) i = inr (i2, tt) ∧ engine i2 j' P' ∧ built (words (icx i2)) j' P' ∧ intern_src i2 = rest.
Proof.
  intros Er He Hb Hs Hv Hn Hw Hr. destruct (fill_run i1 j' s P' w w' He Hb Hv Hn Hw Hr) as (i2 & F1 & F2 & F3 & F4). exists i2. split_and!; [by erewrite mbnd_eq; [|exact Er]|done|done|congruence].
Qed.

Notation intern_loop := (intern_loop malloc oom md5_block fco last_id placeholder).

Lemma loop_step fuel i j s P : engine i j (s :: P) → ∃ i1, engine i1 j P ∧ icx i1 = icx i ∧ intern_src i1 = intern_src i ∧
  ∀ i2, (let* v := read_value (addr s) in match v with Some v => ilift (st (addr s) v) | None => mreturn tt end) i1 = inr (i2, tt) → intern_loop (S fuel) i = intern_loop fuel i2.
Proof.
  intros He. destruct (pop_read_run i j s P He) as (it & l & i1 & E1 & E2 & E3 & E4 & E5 & E6 & E7). exists i1. split_and!; [done|done|done|]. intros i2 Hi. cbn [Intern.intern_loop]. erewrite mbnd_eq; [|reflexivity]. rewrite E1, E2, E3. erewrite mbnd_eq; [reflexivity|]. erewrite mbnd_eq; [|exact E4]. exact Hi.
Qed.

(** The objects of [O] are the first of [Of]. *)
Lemma prefix_lookup O X k v : Of = O ++ X → O !! k = Some v → Of !! k = Some v.
Proof. intros -> Hk. by apply lookup_app_l_Some. Qed.

(** An item is read and stored. *)
Lemma loop_item fuel i j s P j' P' w bs src : engine i j (s :: P) → built (words (icx i)) j (s :: P) → intern_src i = bs ++ src → contents Of s = Some w → valid j' s → s ∉ P' →
  (∀ i1, engine i1 j P → built (words (icx i1)) j (s :: P) → intern_src i1 = bs ++ src → ∃ i2 w', read_value (addr s) i1 = inr (i2, Some w') ∧ engine i2 j' P' ∧ built (words (icx i2)) j' (s :: P') ∧ intern_src i2 = src ∧ val_rel w w') →
  ∃ i3, intern_loop (S fuel) i = intern_loop fuel i3 ∧ engine i3 j' P' ∧ built (words (icx i3)) j' P' ∧ intern_src i3 = src.
Proof.
  intros He Hb Hsrc Hw Hv Hn Hitem. destruct (loop_step fuel i j s P He) as (i1 & E1 & E2 & E3 & Hstep). destruct (Hitem i1 E1) as (i2 & w' & F1 & F2 & F3 & F4 & F5); [by rewrite E2|by rewrite E3|].
  destruct (item_run i1 s w w' i2 src j' P' F1 F2 F3 F4 Hv Hn Hw F5) as (i3 & G1 & G2 & G3 & G4). exists i3. split_and!; [by apply Hstep|done..].
Qed.

Lemma bytes_nonempty : (∀ n, (0 < length (long_bytes n))%nat) ∧ (∀ hd, (0 < length (atom_bytes hd))%nat) ∧ (∀ d, (0 < length (shared_bytes d))%nat) ∧ (∀ hd, (0 < length (header_bytes hd))%nat) ∧ (∀ l, (0 < length (str_bytes l))%nat) ∧ (∀ t l, (0 < length (dbl_bytes t l))%nat).
Proof.
  unfold long_bytes, atom_bytes, shared_bytes, header_bytes, str_bytes, dbl_bytes. split_and!; intros; rewrite ?length_app; repeat case_match; cbn [length]; lia.
Qed.

Lemma intern_reads O P B O' : enc O P B O' → O' = Of → ∀ i rest fuel, engine i (length O) P → built (words (icx i)) (length O) P → intern_src i = B ++ rest → (length B < fuel)%nat →
  ∃ i', intern_loop fuel i = inr (i', tt) ∧ engine i' (length Of) [] ∧ built (words (icx i')) (length Of) [] ∧ intern_src i' = rest.
Proof.
  destruct bytes_nonempty as (L1 & L2 & L3 & L4 & L5 & L6).
  induction 1 as [O|O s P w B O' Hw Hl Hww Henc IH|O s P w hd B O' Hw Ha Henc IH|O s P w k B O' Hw Hk Henc IH|O s P w n ws B O' Hw Hnew Hn Hc Henc IH|O s P w n l B O' Hw Hnew Hn Hc Henc IH|O s P w n l B O' Hw Hnew Hn Hc Henc IH]; intros Hf i rest fuel He Hb Hsrc Hfuel.
  { subst O. destruct fuel as [|fuel]; [lia|]. cbn [Intern.intern_loop]. erewrite mbnd_eq; [|reflexivity]. pose proof (flat_length _ (r_items _ _ _ He)) as Hfl. rewrite (r_stack _ _ _ He) in Hfl. cbn in Hfl. destruct (intern_stack i) as [|it l] eqn:Es; [|cbn in Hfl; lia]. unfold intern_free_stack_r, mmodify. eexists. split; [reflexivity|]. destruct (intern_stack_is_init i); [done|]. split_and!; [|done|done]. destruct He as [R1 R3 R4 R5 R6 R7 R8 R9 R10 R11]. split; cbn; try done. by rewrite Es. }
  all: rewrite <- app_assoc in Hsrc; rewrite length_app in Hfuel; destruct fuel as [|fuel]; [lia|]; destruct (enc_prefix _ _ _ _ Henc) as [X HX]; rewrite Hf in HX.
  all: destruct (r_slots _ _ _ He) as [[Hs1 _]%NoDup_cons [[Hs2 _] _]%Forall_cons]; specialize (IH Hf).
  1-3: pose proof (contents_app O X s w Hw) as Hw'; rewrite <- HX in Hw'.
  4-6: rewrite <- app_assoc in HX; pose proof (contents_app O ([w] ++ X) s w Hw) as Hw'; rewrite <- HX in Hw'; assert (obj (length O) w n) as Hobj by (split; [rewrite HX, lookup_app_r, Nat.sub_diag by lia; done|done]); assert (val_rel w (daddr (length O))) as Hvr by (right; right; exists (length O); split; [apply Hobj|done]).
  4-6: assert (valid (S (length O)) s) as Hs3 by (destruct s; cbn in *; [done|lia]); rewrite length_app in IH; cbn [length] in IH; rewrite Nat.add_1_r in IH.
  - specialize (L1 (Long_val w)). destruct (loop_item fuel i _ s P _ P w _ _ He Hb Hsrc Hw' Hs2 Hs1) as (i3 & G1 & G2 & G3 & G4); [|rewrite G1; apply IH; [done..|lia]]. intros i1 F1 F2 F3. exists (set_src (B ++ rest) i1), w. split_and!; [by apply val_long_run|by apply engine_src|done|done|by left].
  - specialize (L2 hd). destruct (loop_item fuel i _ s P _ P w _ _ He Hb Hsrc Hw' Hs2 Hs1) as (i3 & G1 & G2 & G3 & G4); [|rewrite G1; apply IH; [done..|lia]]. intros i1 F1 F2 F3. exists (set_src (B ++ rest) i1), (Atom (icx i1) (Tag_hd hd)). split_and!; [by eapply val_atom_run|by apply engine_src|done|done|]. right. left. exists hd. split; [done|]. by rewrite (r_ctx _ _ _ F1).
  - specialize (L3 (Z.of_nat (length O) - Z.of_nat k)). destruct (loop_item fuel i _ s P _ P w _ _ He Hb Hsrc Hw' Hs2 Hs1) as (i3 & G1 & G2 & G3 & G4); [|rewrite G1; apply IH; [done..|lia]]. intros i1 F1 F2 F3. exists (set_src (B ++ rest) i1), (daddr k). split_and!; [|by apply engine_src|done|done|right; right; exists k; split; [by eapply prefix_lookup|done]].
    eapply val_shared_run; [done|by eapply lookup_lt_Some|rewrite HX, length_app; lia|done].
  - specialize (L4 (nd_hd n)). destruct (loop_item fuel i _ s P _ (cells (length O) (length ws) ++ P) w _ _ He Hb Hsrc Hw' Hs3) as (i3 & G1 & G2 & G3 & G4); [| |rewrite G1; apply IH; [done..|lia]].
    + intros [(x & -> & _)%elem_cells|]%elem_of_app; [cbn in Hs2; lia|done].
    + intros i1 F1 F2 F3. destruct (block_run i1 (length O) w n ws s P (B ++ rest) F1 F2 Hobj Hc F3) as (i2 & K1 & K2 & K3 & K4). exists i2, (daddr (length O)). split_and!; [done|done| |done|done]. eapply built_same; [| |exact K3]; set_solver.
  - specialize (L5 l). destruct (loop_item fuel i _ s P _ P w _ _ He Hb Hsrc Hw' Hs3 Hs1) as (i3 & G1 & G2 & G3 & G4); [|rewrite G1; apply IH; [done..|lia]].
    intros i1 F1 F2 F3. destruct (string_run i1 (length O) w n l s P (B ++ rest) F1 F2 Hobj Hc F3) as (i2 & K1 & K2 & K3 & K4). exists i2, (daddr (length O)). by split_and!.
  - specialize (L6 (node_tag n) l). destruct (loop_item fuel i _ s P _ P w _ _ He Hb Hsrc Hw' Hs3 Hs1) as (i3 & G1 & G2 & G3 & G4); [|rewrite G1; apply IH; [done..|lia]].
    intros i1 F1 F2 F3. destruct (doubles_run i1 (length O) w n l s P (B ++ rest) F1 F2 Hobj Hc F3) as (i2 & K1 & K2 & K3 & K4). exists i2, (daddr (length O)). by split_and!.
Qed.
End Layout.
End Graph.
End Marshal.
