(* ===== verification/MarshalOut.v ===== *)
(** Marshalling: the loop of extern.c writes bytes that [enc] describes.

    While a value is traversed its blocks are coloured blue and their first field
    holds their number ([marked]); the trail has what was there ([visited]), and
    [replay_run] puts it back.  [extern_goes] is the loop, [output_run] a whole
    message. *)

From S2P Require Import Prelude Mlvalues Context Alloc Str Stacks Array Hash Compare Extern Intern Marshal.
Import Context Alloc Str Array.

Module MarshalOut.
Import Extern Marshal.

(** ** Headers and the trail *)

Lemma colornum_range hd : 0 <= Colornum_hd hd < 4.
Proof. unfold Colornum_hd. change 3 with (2 ^ 2 - 1). rewrite land_low by lia. apply Z.mod_pos_bound. lia. Qed.

Lemma colornum_bits hd i : 0 <= i → Z.testbit (Z.shiftl (Colornum_hd hd) 8) i = ((i =? 8) || (i =? 9)) && Z.testbit hd i.
Proof.
  intros Hi. rewrite Z.shiftl_spec by done. unfold Colornum_hd. destruct (Z.lt_ge_cases i 8); [rewrite Z.testbit_neg_r by lia; replace (i =? 8) with false by lia; by replace (i =? 9) with false by lia|].
  rewrite Z.land_spec, Z.shiftr_spec by lia. replace (i - 8 + 8) with i by lia. change 3 with (Z.ones 2). destruct (Z.lt_ge_cases i 10).
  - rewrite Z.ones_spec_low by lia. rewrite andb_true_r. assert (i = 8 ∨ i = 9) as [->| ->] by lia; done.
  - rewrite Z.ones_spec_high by lia. rewrite andb_false_r. replace (i =? 8) with false by lia. by replace (i =? 9) with false by lia.
Qed.

(** The colour that the trail keeps is put back. *)
Lemma recolour_back hd : word hd → Coloredhd_hd (Bluehd_hd hd) (Colornum_hd hd) = hd.
Proof.
  intros Hw. destruct (Bluehd_spec hd Hw) as (Hb & _). apply Z.bits_inj'. intros i Hi. unfold Coloredhd_hd. rewrite Z.lor_spec, clear_bits, colornum_bits by done. unfold Bluehd_hd. rewrite Z.lor_spec, clear_bits by done. unfold Caml_blue. change 512 with (2 ^ 9). rewrite Z.pow2_bits_eqb, (Z.eqb_sym 9 i) by lia.
  destruct (Z.eqb_spec i 8) as [->|]; [cbn; by rewrite !andb_false_r|]. destruct (Z.eqb_spec i 9) as [->|]; [cbn; by rewrite !andb_false_r|]. cbn. by rewrite !andb_true_r, !orb_false_r.
Qed.

Lemma trail_entry_parts v c : word v → v mod 8 = 0 → 0 <= c < 4 → Z.land (Z.lor v c) 3 = c ∧ Z.land (Z.lor v c) (u64 (Z.lnot 3)) = v.
Proof.
  intros Hv Ha Hc. assert (∀ i, 0 <= i < 2 → Z.testbit v i = false) as Hlow.
  { intros i Hi. assert (v = v / 8 * 2 ^ 3) as -> by (Z.to_euclidean_division_equations; lia). by rewrite Z.mul_pow2_bits_low by lia. }
  assert (∀ i, 2 <= i → Z.testbit c i = false) as Hhigh by (intros i Hi; by apply (small_bits c 2)). split.
  - change 3 with (Z.ones 2). apply Z.bits_inj'. intros i Hi. rewrite Z.land_spec, Z.lor_spec. destruct (Z.lt_ge_cases i 2); [rewrite Hlow, Z.ones_spec_low by lia; by rewrite andb_true_r|rewrite Z.ones_spec_high, Hhigh by lia; by rewrite andb_false_r].
  - apply Z.bits_inj'. intros i Hi. rewrite Z.land_spec, Z.lor_spec. destruct (Z.lt_ge_cases i 64); [|rewrite (word_bits v), Hhigh by (done || lia); done]. unfold u64. rewrite W_pow, Z.mod_pow2_bits_low, Z.lnot_spec by lia. change 3 with (Z.ones 2).
    destruct (Z.lt_ge_cases i 2); [rewrite Hlow, Z.ones_spec_low by lia; by rewrite andb_false_r|rewrite Hhigh, Z.ones_spec_high by lia; by rewrite orb_false_r, andb_true_r].
Qed.

Lemma aligned_block w : w mod 8 = 0 → Is_long w = false.
Proof. intros Hw. rewrite Is_long_odd. apply negb_true_iff. rewrite Z.negb_odd, Z.even_spec. exists (4 * (w / 8)). Z.to_euclidean_division_equations; lia. Qed.

(** ** The output *)

Definition first_block (o : output) : list Z := match out_closed o with b :: _ => b | [] => out_current o end.

(** The bytes [bs] are added. *)
Definition grows (o o' : output) (bs : list Z) : Prop :=
  out_bytes o' = out_bytes o ++ bs ∧ extern_userprovided_output o' = false ∧ ∃ x, first_block o' = first_block o ++ x.

Lemma grows_refl o : extern_userprovided_output o = false → grows o o [].
Proof. intros Hu. split_and!; [by rewrite app_nil_r|done|exists []; by rewrite app_nil_r]. Qed.

Lemma grows_trans o1 o2 o3 b1 b2 : grows o1 o2 b1 → grows o2 o3 b2 → grows o1 o3 (b1 ++ b2).
Proof. intros (E1 & _ & x1 & F1) (E2 & U & x2 & F2). split_and!; [by rewrite E2, E1, app_assoc|done|exists (x1 ++ x2); by rewrite F2, F1, app_assoc]. Qed.

Section Out.
Context `{Runtime} (malloc : Z → bool) (Hmalloc : ∀ n, malloc n = true) (oom : Z).

Lemma emit_run bs s : extern_userprovided_output (out s) = false → ∃ o, emit_bytes malloc oom bs s = inr (set_out o s, tt) ∧ grows (out s) o bs.
Proof.
  intros Hu. unfold emit_bytes. erewrite mbnd_eq; [|reflexivity]. cbv zeta. destruct (_ <? _).
  - assert (∃ z, grow_extern_output_r malloc oom (Z.of_nat (length bs)) s = inr (set_out (Output false (out_closed (out s) ++ [out_current (out s)]) [] z) s, tt)) as [z Eg].
    { unfold grow_extern_output_r. erewrite mbnd_eq; [|reflexivity]. rewrite Hu. erewrite mbnd_eq; [|reflexivity]. cbv zeta. rewrite Hmalloc. erewrite mbnd_eq; [|reflexivity]. by eexists. }
    erewrite mbnd_eq; [|exact Eg]. eexists. split; [reflexivity|]. split_and!; [|done|].
    + unfold out_bytes. cbn. rewrite !concat_app. cbn. by rewrite !app_nil_r.
    + exists []. rewrite app_nil_r. unfold first_block. cbn. by destruct (out_closed (out s)).
  - erewrite mbnd_eq; [|reflexivity]. eexists. split; [reflexivity|]. split_and!; [|done|].
    + unfold out_bytes. cbn. rewrite !concat_app. cbn. by rewrite !app_nil_r, app_assoc.
    + unfold first_block. cbn. destruct (out_closed (out s)); [by eexists|exists []; by rewrite app_nil_r].
Qed.

Lemma low8_small x : 0 <= x < 256 → low8 x = x.
Proof. apply Z.mod_small. Qed.

Lemma write_long_eq n : write_long malloc oom n = emit_bytes malloc oom (long_bytes n).
Proof.
  unfold write_long, long_bytes, Write, writecode8_r, writecode16_r, writecode32_r, writecode64_r. destruct ((0 <=? n) && (n <? 64)) eqn:E1; [unfold PREFIX_SMALL_INT; by rewrite low8_small by lia|].
  change (Z.shiftl 1 7) with 128. change (Z.shiftl 1 15) with 32768. change (Z.shiftl 1 31) with (2 ^ 31). change (- (128)) with (-128). change (- (32768)) with (-32768). by repeat case_match.
Qed.

Lemma write_atom_eq hd : write_atom malloc oom (Tag_hd hd) hd = emit_bytes malloc oom (atom_bytes hd).
Proof. unfold write_atom, atom_bytes, Write, writecode32_r. pose proof (Z.mod_pos_bound hd 256 ltac:(lia)). destruct (hd_eq hd) as [Et _]. destruct (Z.ltb_spec (Tag_hd hd) 16); [|done]. unfold PREFIX_SMALL_BLOCK. by rewrite low8_small by lia. Qed.

Lemma write_shared_eq d : write_shared malloc oom d = emit_bytes malloc oom (shared_bytes d).
Proof. unfold write_shared, shared_bytes, writecode8_r, writecode16_r, writecode32_r. by repeat case_match. Qed.

Lemma write_header_eq hd : 0 <= hd → write_block_header malloc oom (Tag_hd hd) (Wosize_hd hd) hd = emit_bytes malloc oom (header_bytes hd).
Proof.
  intros Hhd. unfold write_block_header, header_bytes, Write, writecode32_r, writecode64_r. destruct (hd_eq hd) as [Et Ez]. pose proof (Z.mod_pos_bound hd 256 ltac:(lia)). assert (0 <= hd / 1024) by (apply Z.div_pos; lia). destruct ((Tag_hd hd <? 16) && (Wosize_hd hd <? 8)) eqn:E; [|change (Z.shiftl 1 32) with (2 ^ 32); by destruct (2 ^ 32 <=? hd)].
  rewrite Z.shiftl_mul_pow2 by lia. unfold PREFIX_SMALL_BLOCK. rewrite low8_small by lia. do 2 f_equal. lia.
Qed.
End Out.

(** ** The traversal *)

Section Traverse.
Context `{Runtime} (c0 : context) (G : gmap Z node) (v0 : Z) (HG : graph_ok c0 G) (Hv0 : value_ok c0 G v0).
Context (Harea : ∀ m a, caml_page_table_lookup_r (set_words m c0) a = caml_page_table_lookup_r c0 a).
Context (malloc : Z → bool) (Hmalloc : ∀ n, malloc n = true) (oom : Z) (md5_block : Z → Z → list Z) (Custom_ops_val : context → Z → custom_serializer).

Lemma area_eq m a : Is_in_value_area (set_words m c0) a = Is_in_value_area c0 a.
Proof. unfold Is_in_value_area. by rewrite Harea. Qed.

(** The memory when the objects [O] have been visited. *)
Record marked (m : gmap Z Z) (O : list Z) : Prop := {
  k_seen k v n : O !! k = Some v → G !! v = Some n → m !! (v - 8) = Some (Bluehd_hd (nd_hd n)) ∧ m !! v = Some (Z.of_nat k);
  k_same a : (∀ v, v ∈ O → a ≠ v - 8 ∧ a ≠ v) → m !! a = words c0 !! a
}.

Lemma marked_nil : marked (words c0) [].
Proof. by split. Qed.

Lemma node_apart v n v' n' a : G !! v = Some n → G !! v' = Some n' → v ≠ v' → v - 8 <= a < v + 8 * wosize n → a ≠ v' - 8 ∧ a ≠ v'.
Proof. intros Hn Hn' Hne Ha. pose proof (n_size _ _ _ _ (g_node _ _ HG v' n' Hn')). destruct (g_apart _ _ HG v n v' n' Hn Hn' Hne); lia. Qed.

Lemma marked_snoc m O v n : marked m O → Forall (λ v, is_Some (G !! v)) O → G !! v = Some n → v ∉ O → marked (<[v := Z.of_nat (length O)]> (<[v - 8 := Bluehd_hd (nd_hd n)]> m)) (O ++ [v]).
Proof.
  intros [K1 K2] HO Hn Hv. pose proof (n_size _ _ _ _ (g_node _ _ HG v n Hn)) as Hz. split.
  - intros k v' n' [Hk|[Hk1 Hk2]]%lookup_app_Some Hn'.
    + assert (v' ≠ v) as Hne by (intros ->; apply Hv; by eapply list_elem_of_lookup_2). destruct (node_apart v' n' v n (v' - 8) Hn' Hn Hne) as [A1 A2]; [pose proof (n_size _ _ _ _ (g_node _ _ HG v' n' Hn')); lia|]. destruct (node_apart v' n' v n v' Hn' Hn Hne) as [B1 B2]; [pose proof (n_size _ _ _ _ (g_node _ _ HG v' n' Hn')); lia|].
      rewrite !lookup_insert_ne by lia. by apply (K1 k v').
    + apply list_lookup_singleton_Some in Hk2 as [Hk2 <-]. assert (n' = n) as -> by congruence. split; [rewrite lookup_insert_ne, lookup_insert_eq by lia; done|]. rewrite lookup_insert_eq. do 2 f_equal. lia.
  - intros a Ha. destruct (Ha v ltac:(set_solver)). rewrite !lookup_insert_ne by lia. apply K2. intros v' Hv'. apply Ha. set_solver.
Qed.

(** What is still as it was: a block that has not been visited, and all but the
    first field of the others. *)
Lemma marked_node m O v n a : marked m O → Forall (λ v, is_Some (G !! v)) O → G !! v = Some n → v ∉ O ∨ 8 <= a - v → v - 8 <= a < v + 8 * wosize n → m !! a = words c0 !! a.
Proof.
  intros [K1 K2] HO Hn Hv Ha. apply K2. intros v' Hv'. rewrite Forall_forall in HO. destruct (HO v' Hv') as [n' Hn']. destruct (decide (v' = v)) as [->|Hne]; [destruct Hv; [done|lia]|]. by apply (node_apart v n v' n').
Qed.

Lemma marked_atom m O w hd : marked m O → Forall (λ v, is_Some (G !! v)) O → empty_block c0 G w hd → m !! (w - 8) = Some hd.
Proof.
  intros [K1 K2] HO [_ _ Hh _ _ _ Hap]. rewrite K2; [done|]. intros v Hv. rewrite Forall_forall in HO. destruct (HO v Hv) as [n Hn]. pose proof (n_size _ _ _ _ (g_node _ _ HG v n Hn)). destruct (Hap v n Hn); lia.
Qed.

Definition node_at (v : Z) : node := default (Node 0 (Fields [])) (G !! v).

(** The entry of the trail for a block. *)
Definition trail_of (v : Z) : trail_entry := TEntry (Z.lor v (Colornum_hd (nd_hd (node_at v)))) (default 0 (words c0 !! v)).

(** The objects [O] have been visited; [a] and [b] are the sizes so far. *)
Record visited (s : xstate) (O : list Z) (a b : Z) : Prop := {
  x_ctx : cx s = set_words (words (cx s)) c0;
  x_marked : marked (words (cx s)) O;
  x_nodup : NoDup O;
  x_nodes : Forall (λ v, is_Some (G !! v)) O;
  x_sharing : extern_ignore_sharing s = false;
  x_trail : concat (reverse (extern_trail s)) = map trail_of O ∧ extern_trail s ≠ [];
  x_counter : obj_counter s = Z.of_nat (length O);
  x_sizes : size_32 s = a ∧ size_64 s = b;
  x_user : extern_userprovided_output (out s) = false
}.

Lemma visited_out s O a b o bs : visited s O a b → grows (out s) o bs → visited (set_out o s) O a b.
Proof. intros [X1 X2 X3 X4 X5 X6 X7 X8 X9] (_ & U & _). by split. Qed.

Lemma visited_stacks s O a b x : visited s O a b → visited (set_stacks x s) O a b.
Proof. intros [X1 X2 X3 X4 X5 X6 X7 X8 X9]. by split. Qed.

Lemma add_sizes_run s O a b x y : visited s O a b → 0 <= a + x < 2 ^ 40 → 0 <= b + y < 2 ^ 40 → ∃ s1, add_sizes x y s = inr (s1, tt) ∧ visited s1 O (a + x) (b + y) ∧ out s1 = out s ∧ extern_stacks s1 = extern_stacks s ∧ cx s1 = cx s.
Proof.
  intros [X1 X2 X3 X4 X5 X6 X7 [X8 X8'] X9] Ha Hb. eexists. split; [reflexivity|]. split_and!; [|done..]. split; cbn; try done. rewrite X8, X8', !u64_small by lia_w. done.
Qed.

Lemma lift_run {A} (m : CM A) s c x : m (cx s) = inr (c, x) → lift m s = inr (set_cx c s, x).
Proof. intros E. unfold lift. by rewrite E. Qed.

Lemma set_cx_same s : set_cx (cx s) s = s.
Proof. by destruct s. Qed.

Lemma lift_ld s a w : words (cx s) !! a = Some w → lift (ld a) s = inr (s, w).
Proof. intros E. rewrite (lift_run _ s (cx s) w); [by rewrite set_cx_same|]. unfold ld. by rewrite E. Qed.

Lemma lift_st s a w x : words (cx s) !! a = Some x → lift (st a w) s = inr (set_cx (set_words (<[a := w]> (words (cx s))) (cx s)) s, tt).
Proof. intros E. apply lift_run. unfold st. by rewrite E. Qed.

(** The first word of a block. *)
Lemma node_first v n : G !! v = Some n → is_Some (words c0 !! v).
Proof.
  intros Hn. pose proof (g_node _ _ HG v n Hn) as Ho. pose proof (n_content _ _ _ _ Ho) as Hc. pose proof (n_size _ _ _ _ Ho) as Hz. pose proof (n_aligned _ _ _ _ Ho) as Ha. unfold content_ok in Hc.
  assert (∀ l, bytes_at (words c0) v l → l ≠ [] → is_Some (words c0 !! v)) as Hb.
  { intros [|b l] Hb Hl; [done|]. specialize (Hb 0%nat b eq_refl). unfold load_byte in Hb. replace (8 * ((v + Z.of_nat 0) / 8)) with v in Hb by (Z.to_euclidean_division_equations; lia). destruct (words c0 !! v); [eauto|done]. }
  destruct (nd_content n) as [ws|l|l].
  - destruct Hc as (_ & Hl & Hs & _). destruct ws as [|w ws]; [cbn in Hl; lia|]. destruct Hs as [-> _]. eauto.
  - destruct Hc as [_ Hs]. apply (Hb _ (string_bytes _ _ _ Hs)). unfold padding. by destruct l, (replicate _ _).
  - destruct Hc as (_ & Hs & Hl & _). apply (Hb _ Hs). intros ->. cbn in Hl. lia.
Qed.

Lemma record_run s O a b v n : visited s O a b → G !! v = Some n → v ∉ O → Z.of_nat (length O) < 2 ^ 40 →
  ∃ s1, extern_record_location_r malloc oom v s = inr (s1, tt) ∧ visited s1 (O ++ [v]) a b ∧ out s1 = out s ∧ extern_stacks s1 = extern_stacks s.
Proof.
  intros Hvis Hn Hv Hlen. pose proof Hvis as [X1 X2 X3 X4 X5 [X6 X6'] X7 X8 X9]. pose proof (g_node _ _ HG v n Hn) as Ho. pose proof (n_size _ _ _ _ Ho) as Hz. destruct (node_first v n Hn) as [f0 Hf0].
  assert (words (cx s) !! (v - 8) = Some (nd_hd n)) as Hhd by (rewrite (marked_node _ O v n) by (auto; lia); apply (n_header _ _ _ _ Ho)). assert (words (cx s) !! v = Some f0) as Hf by (rewrite (marked_node _ O v n) by (auto; lia); done).
  destruct (extern_trail s) as [|tb tl] eqn:Et; [done|]. set (e := TEntry (Z.lor v (Colornum_hd (nd_hd n))) f0).
  assert (e = trail_of v) as He by (unfold e, trail_of, node_at; rewrite Hn, Hf0; done).
  set (tr := if Z.of_nat (length tb) =? ENTRIES_PER_TRAIL_BLOCK then [e] :: tb :: tl else (tb ++ [e]) :: tl).
  assert (concat (reverse tr) = map trail_of O ++ [e] ∧ tr ≠ []) as [Htr Htr'].
  { unfold tr. destruct (_ =? _); (split; [|done]); rewrite !reverse_cons, !concat_app in *; cbn [concat] in *; rewrite !app_nil_r in *; [|rewrite app_assoc]; by rewrite X6. }
  set (m2 := <[v := Z.of_nat (length O)]> (<[v - 8 := Bluehd_hd (nd_hd n)]> (words (cx s)))).
  exists (set_counters (Z.of_nat (length O) + 1) (size_32 s) (size_64 s) (set_cx (set_words m2 (cx s)) (set_trail tr s))). split_and!; [|split; cbn; try done|done|done].
  - unfold extern_record_location_r. erewrite mbnd_eq; [|reflexivity]. rewrite X5, Et.
    set (s1 := if Z.of_nat (length tb) =? ENTRIES_PER_TRAIL_BLOCK then set_trail ([] :: tb :: tl) s else s). erewrite (mbnd_eq _ _ s s1 tt); [|unfold s1; destruct (_ =? _); [rewrite Hmalloc; reflexivity|reflexivity]].
    assert (cx s1 = cx s) as Hcx by (unfold s1; by destruct (_ =? _)). erewrite mbnd_eq; [|apply lift_ld; rewrite Hcx; exact Hhd]. erewrite mbnd_eq; [|apply lift_ld; unfold Field; rewrite Hcx, Z.mul_0_r, Z.add_0_r; exact Hf]. erewrite mbnd_eq; [|reflexivity]. fold e.
    erewrite (mbnd_eq _ _ s1 (set_trail tr s) tt); [|unfold s1, tr; destruct (_ =? _); [reflexivity|rewrite Et; reflexivity]]. erewrite mbnd_eq; [|apply (lift_st _ _ _ (nd_hd n)); exact Hhd]. erewrite mbnd_eq; [|reflexivity].
    erewrite mbnd_eq; [|eapply lift_st; unfold Field, Hd_val; cbn; rewrite Z.mul_0_r, Z.add_0_r, lookup_insert_ne by lia; exact Hf]. unfold mmodify. do 2 f_equal. unfold Field, Hd_val. cbn. rewrite Z.mul_0_r, Z.add_0_r, X7, u64_small by lia_w. done.
  - by rewrite X1.
  - by apply marked_snoc.
  - apply NoDup_app. split_and!; [done|set_solver|apply NoDup_singleton].
  - apply Forall_app. split; [done|]. apply Forall_singleton. eauto.
  - change (concat (reverse tr) = map trail_of (O ++ [v]) ∧ tr ≠ []). rewrite Htr, map_app, He. done.
  - rewrite length_app. cbn [length]. lia.
Qed.

(** *** Undoing the modifications *)

Definition undone (O : list Z) (m m' : gmap Z Z) : Prop :=
  (∀ v, v ∈ O → m' !! (v - 8) = words c0 !! (v - 8) ∧ m' !! v = words c0 !! v) ∧ ∀ a, (∀ v, v ∈ O → a ≠ v - 8 ∧ a ≠ v) → m' !! a = m !! a.

Definition blue_in (m : gmap Z Z) (O : list Z) : Prop := ∀ v, v ∈ O → ∃ n, G !! v = Some n ∧ m !! (v - 8) = Some (Bluehd_hd (nd_hd n)) ∧ is_Some (m !! v).

Lemma apart_in v n v' n' : G !! v = Some n → G !! v' = Some n' → v ≠ v' → (v - 8 ≠ v' - 8 ∧ v - 8 ≠ v') ∧ v ≠ v' - 8 ∧ v ≠ v'.
Proof. intros Hn Hn' Hne. pose proof (n_size _ _ _ _ (g_node _ _ HG v n Hn)). destruct (node_apart v n v' n' (v - 8) Hn Hn' Hne ltac:(lia)). destruct (node_apart v n v' n' v Hn Hn' Hne ltac:(lia)). done. Qed.

Lemma replay_entry_run s m v n : cx s = set_words m c0 → G !! v = Some n → m !! (v - 8) = Some (Bluehd_hd (nd_hd n)) → is_Some (m !! v) →
  ∃ m', replay_entry (trail_of v) s = inr (set_cx (set_words m' c0) s, tt) ∧ undone [v] m m'.
Proof.
  intros Hs Hn Hb [x Hx]. pose proof (g_node _ _ HG v n Hn) as Ho. destruct (node_first v n Hn) as [f0 Hf0]. destruct (trail_entry_parts v (Colornum_hd (nd_hd n)) (n_word _ _ _ _ Ho) (n_aligned _ _ _ _ Ho) (colornum_range _)) as [E1 E2].
  set (m1 := <[v - 8 := nd_hd n]> m). exists (<[v := f0]> m1). split.
  - unfold replay_entry, trail_of, node_at. cbn [entry_obj entry_field0]. rewrite Hn, Hf0. cbn [default from_option nd_hd]. unfold id. cbv zeta. rewrite E1, E2. erewrite mbnd_eq; [|apply lift_ld; rewrite Hs; exact Hb]. erewrite mbnd_eq; [|eapply lift_st; rewrite Hs; exact Hb]. rewrite recolour_back by apply (n_hd _ _ _ _ Ho).
    rewrite (lift_st _ _ _ x) by (unfold Field, Hd_val; cbn; rewrite Hs, Z.mul_0_r, Z.add_0_r, lookup_insert_ne by lia; exact Hx). unfold Field, Hd_val. cbn. rewrite Hs, Z.mul_0_r, Z.add_0_r. done.
  - split.
    + intros v' ->%list_elem_of_singleton. rewrite lookup_insert_ne by lia. unfold m1. rewrite !lookup_insert_eq, Hf0. by rewrite (n_header _ _ _ _ Ho).
    + intros a Ha. destruct (Ha v ltac:(set_solver)). unfold m1. by rewrite !lookup_insert_ne by lia.
Qed.

Lemma undone_app O1 O2 m m1 m2 : NoDup (O1 ++ O2) → Forall (λ v, is_Some (G !! v)) (O1 ++ O2) → undone O1 m m1 → undone O2 m1 m2 → undone (O1 ++ O2) m m2.
Proof.
  intros HN HF [A1 A2] [B1 B2]. rewrite Forall_forall in HF. apply NoDup_app in HN as (_ & HN & _). split.
  - intros v [Hv|Hv]%elem_of_app; [|by apply B1]. destruct (HF v ltac:(set_solver)) as [n Hn]. rewrite !B2; [by apply A1|..]; intros v' Hv'; destruct (HF v' ltac:(set_solver)) as [n' Hn']; destruct (apart_in v n v' n' Hn Hn') as [? ?]; try done; by intros ->; apply (HN v').
  - intros a Ha. rewrite B2, A2; [done|..]; intros v Hv; apply Ha; set_solver.
Qed.

Lemma blue_undone O1 O2 m m1 : NoDup (O1 ++ O2) → Forall (λ v, is_Some (G !! v)) (O1 ++ O2) → blue_in m O2 → undone O1 m m1 → blue_in m1 O2.
Proof.
  intros HN HF Hb [_ A2] v Hv. rewrite Forall_forall in HF. apply NoDup_app in HN as (_ & HN & _). destruct (Hb v Hv) as (n & Hn & H1 & H2). exists n. split; [done|]. rewrite !A2; [done|..]; intros v' Hv'; destruct (HF v' ltac:(set_solver)) as [n' Hn']; destruct (apart_in v n v' n' Hn Hn') as [? ?]; try done; by intros ->; apply (HN v').
Qed.

Lemma replay_entries_run O : ∀ s m, NoDup O → Forall (λ v, is_Some (G !! v)) O → cx s = set_words m c0 → blue_in m O → ∃ m', replay_entries (map trail_of O) s = inr (set_cx (set_words m' c0) s, tt) ∧ undone O m m'.
Proof.
  induction O as [|v O IH]; intros s m HN HF Hs Hb.
  { exists m. cbn. rewrite <- Hs, set_cx_same. split; [done|]. split; [set_solver|done]. }
  destruct (Hb v ltac:(set_solver)) as (n & Hn & H1 & H2). destruct (replay_entry_run s m v n Hs Hn H1 H2) as (m1 & R1 & U1). assert (blue_in m O) as Hb' by (intros x Hx; apply Hb; set_solver). pose proof (blue_undone [v] O m m1 HN HF Hb' U1) as Hb1.
  destruct (IH (set_cx (set_words m1 c0) s) m1) as (m2 & R2 & U2); [by apply NoDup_cons in HN as [_ ?]|by apply Forall_cons in HF as [_ ?]|done|done|]. exists m2. split; [cbn [map replay_entries]; erewrite mbnd_eq; [|exact R1]; exact R2|by apply (undone_app [v] O m m1)].
Qed.

Lemma replay_blocks_run bl : ∀ O s m, concat (reverse bl) = map trail_of O → NoDup O → Forall (λ v, is_Some (G !! v)) O → cx s = set_words m c0 → blue_in m O → ∃ m', replay_blocks bl s = inr (set_cx (set_words m' c0) s, tt) ∧ undone O m m'.
Proof.
  induction bl as [|b bl IH]; intros O s m E HN HF Hs Hb.
  { destruct O; [|done]. exists m. cbn. rewrite <- Hs, set_cx_same. split; [done|]. split; [set_solver|done]. }
  rewrite reverse_cons, concat_app in E. cbn [concat] in E. rewrite app_nil_r in E. symmetry in E. apply map_eq_app in E as (O1 & O2 & -> & E1 & E2). symmetry in E1.
  assert (NoDup (O2 ++ O1)) as HN' by (by rewrite (Permutation_app_comm O2 O1)). assert (Forall (λ v, is_Some (G !! v)) (O2 ++ O1)) as HF' by (by rewrite (Permutation_app_comm O2 O1)). pose proof HF' as [F2 F1]%Forall_app. pose proof HN' as (N2 & _ & N1)%NoDup_app.
  destruct (replay_entries_run O2 s m N2 F2 Hs) as (m1 & R1 & U1); [intros x Hx; apply Hb; set_solver|]. destruct (IH O1 (set_cx (set_words m1 c0) s) m1 E1 N1 F1 eq_refl) as (m2 & R2 & U2); [apply (blue_undone O2 O1 m); [done|done|intros x Hx; apply Hb; set_solver|done]|].
  exists m2. split; [cbn [replay_blocks]; rewrite <- E2; erewrite mbnd_eq; [|exact R1]; exact R2|]. destruct (undone_app O2 O1 m m1 m2 HN' HF' U1 U2) as [V1 V2]. split; [intros v Hv; apply V1; set_solver|intros a Ha; apply V2; set_solver].
Qed.

Lemma replay_run s O a b : visited s O a b → extern_replay_trail_r s = inr (set_trail [[]] (set_cx c0 s), tt).
Proof.
  intros [X1 [K1 K2] X3 X4 X5 [X6 X6'] X7 X8 X9]. unfold extern_replay_trail_r. erewrite mbnd_eq; [|reflexivity].
  assert (blue_in (words (cx s)) O) as Hb.
  { intros v Hv. rewrite Forall_forall in X4. destruct (X4 v Hv) as [n Hn]. apply list_elem_of_lookup_1 in Hv as [k Hk]. destruct (K1 k v n Hk Hn) as [E1 E2]. exists n. rewrite E2. eauto. }
  destruct (replay_blocks_run _ O s (words (cx s)) X6 X3 X4 X1 Hb) as (m' & R1 & U1 & U2). erewrite mbnd_eq; [|exact R1]. assert (m' = words c0) as ->.
  { apply map_eq. intros x. destruct (decide (Exists (λ v, x = v - 8 ∨ x = v) O)) as [(v & Hv & [-> | ->])%Exists_exists|Hn]; [by destruct (U1 v Hv)..|]. assert (∀ v, v ∈ O → x ≠ v - 8 ∧ x ≠ v) as Hx by (intros v Hv; split; intros ->; apply Hn, Exists_exists; exists v; auto). rewrite (U2 x Hx). by apply K2. }
  assert (set_words (words c0) c0 = c0) as -> by (by destruct c0). done.
Qed.

(** *** The stack *)

Definition cur_array (x : stacks) : list extern_item := match stack_malloced x with Some (_, l) => l | None => stack_init x end.

(** The items between the base and [sp], the top first. *)
Record stack_rep (x : stacks) (sp : item_ptr) (its : list extern_item) : Prop := {
  sr_sp : sp = Ptr (ptr_array (extern_stack x)) (Z.of_nat (length its));
  sr_size : Z.of_nat (length (cur_array x)) = extern_stack_size x ∧ 256 <= extern_stack_size x;
  sr_room : (length its < length (cur_array x))%nat;
  sr_items i it : its !! i = Some it → cur_array x !! (length its - i)%nat = Some it;
  sr_id : 0 <= stack_count x ∧ ∀ id l, stack_malloced x = Some (id, l) → 0 < id;
  sr_init : length (stack_init x) = 256%nat
}.

Definition put_array (x : stacks) (l : list extern_item) : stacks :=
  match stack_malloced x with Some (id, _) => XStacks (stack_init x) (Some (id, l)) (stack_count x) | None => XStacks l None (stack_count x) end.

Lemma put_array_facts x l : length l = length (cur_array x) → cur_array (put_array x l) = l ∧ extern_stack (put_array x l) = extern_stack x ∧ extern_stack_size (put_array x l) = extern_stack_size x ∧ stack_count (put_array x l) = stack_count x ∧ (stack_malloced (put_array x l) = None ↔ stack_malloced x = None) ∧ (length (stack_init x) = 256%nat → length (stack_init (put_array x l)) = 256%nat).
Proof. unfold put_array, cur_array, extern_stack, extern_stack_size. destruct (stack_malloced x) as [[id k]|] eqn:E; cbn; intros Hl; rewrite ?Hl; split_and!; try done; lia. Qed.

Lemma stack_store_run s sp its it j : stack_rep (extern_stacks s) sp its → (j < length (cur_array (extern_stacks s)))%nat →
  stack_store (Ptr (ptr_array sp) (Z.of_nat j)) it s = inr (set_stacks (put_array (extern_stacks s) (<[j := it]> (cur_array (extern_stacks s)))) s, tt).
Proof.
  intros [R1 [R2 R2'] R3 R4 [R5 R6] R7] Hj. unfold stack_store. erewrite mbnd_eq; [|reflexivity]. rewrite R1. cbn [ptr_array ptr_index]. unfold extern_stack, cur_array, put_array in *. destruct (stack_malloced (extern_stacks s)) as [[id l]|] eqn:E; cbn [ptr_array].
  - specialize (R6 id l eq_refl). rewrite (proj2 (Z.eqb_neq _ _)), Z.eqb_refl, (proj2 (Z.leb_le _ _)), (proj2 (Z.ltb_lt _ _)) by lia. cbn [andb]. rewrite Nat2Z.id. done.
  - rewrite Z.eqb_refl, (proj2 (Z.leb_le _ _)), (proj2 (Z.ltb_lt _ _)) by lia. cbn [andb]. rewrite Nat2Z.id. done.
Qed.

Lemma stack_load_run s sp its j it : stack_rep (extern_stacks s) sp its → cur_array (extern_stacks s) !! j = Some it → stack_load (Ptr (ptr_array sp) (Z.of_nat j)) s = inr (s, it).
Proof.
  intros [R1 [R2 R2'] R3 R4 [R5 R6] R7] Hj. unfold stack_load. erewrite mbnd_eq; [|reflexivity]. rewrite R1. cbn [ptr_array ptr_index]. unfold extern_stack, cur_array in *. destruct (stack_malloced (extern_stacks s)) as [[id l]|] eqn:E; cbn [ptr_array].
  - specialize (R6 id l eq_refl). rewrite (proj2 (Z.eqb_neq _ _)), Z.eqb_refl, Nat2Z.id, Hj, (proj2 (Z.leb_le _ _)) by lia. done.
  - rewrite Z.eqb_refl, Nat2Z.id, Hj, (proj2 (Z.leb_le _ _)) by lia. done.
Qed.

(** Writing the item after the top. *)
Lemma stack_rep_push x sp its it : stack_rep x sp its → (length its + 1 < length (cur_array x))%nat → stack_rep (put_array x (<[(length its + 1)%nat := it]> (cur_array x))) (sp_add sp 1) (it :: its).
Proof.
  intros [R1 [R2 R2'] R3 R4 [R5 R6] R7] Hlt. set (l := <[_ := it]> (cur_array x)). assert (length l = length (cur_array x)) as Hl by apply length_insert. destruct (put_array_facts x l Hl) as (F1 & F2 & F3 & F4 & F5 & F6). split.
  - rewrite R1, F2. unfold sp_add. cbn [ptr_array ptr_index length]. f_equal. lia.
  - by rewrite F1, F3, Hl.
  - rewrite F1, Hl. cbn [length]. lia.
  - rewrite F1. intros [|i] y Hy; cbn in Hy; [injection Hy as <-; cbn [length]; replace (S (length its) - 0)%nat with (length its + 1)%nat by lia; apply list_lookup_insert_eq; lia|]. apply lookup_lt_Some in Hy as Hi. unfold l. cbn [length]. rewrite list_lookup_insert_ne by lia. replace (S (length its) - S i)%nat with (length its - i)%nat by lia. by apply R4.
  - rewrite F4. split; [done|]. intros id k E. unfold put_array in E. destruct (stack_malloced x) as [[id' k']|]; [|done]. injection E as <- _. by apply (R6 id' k').
  - by apply F6.
Qed.

(** The addresses of the fields that remain. *)
Definition xflat (l : list extern_item) : list Z := concat (map (λ it, map (λ i, item_v it + 8 * Z.of_nat i) (seq 0 (Z.to_nat (item_count it)))) l).

Lemma push_fields_run s sp its v sz : stack_rep (extern_stacks s) sp its → 1 < sz → Z.of_nat (length its) < 2 ^ 25 →
  ∃ x' sp', push_fields malloc oom sp v sz s = inr (set_stacks x' s, sp') ∧ stack_rep x' sp' (XItem (v + 8) (sz - 1) :: its).
Proof.
  intros Hrep Hsz Hb. pose proof Hrep as [R1 [R2 R2'] R3 R4 [R5 R6] R7]. unfold push_fields. rewrite (proj2 (Z.ltb_lt _ _) Hsz). cbv zeta. erewrite mbnd_eq; [|reflexivity]. unfold at_limit. rewrite R1. cbn [sp_add ptr_array ptr_index]. rewrite Z.eqb_refl. cbn [andb]. set (it := XItem (Field v 1) (sz - 1)). assert (it = XItem (v + 8) (sz - 1)) as Eit by done. rewrite <- Eit.
  destruct (Z.leb_spec (extern_stack_size (extern_stacks s)) (Z.of_nat (length its) + 1)) as [Hfull|Hroom].
  - set (x := extern_stacks s) in *. set (id := stack_count x + 1). set (arr := cur_array x ++ replicate (Z.to_nat (2 * extern_stack_size x) - length (cur_array x)) (XItem 0 0)). set (x1 := XStacks (stack_init x) (Some (id, arr)) id).
    assert (length arr = Z.to_nat (2 * extern_stack_size x)) as Harr by (unfold arr; rewrite length_app, length_replicate; lia).
    assert (extern_resize_stack_r malloc oom (Ptr (ptr_array (extern_stack x)) (Z.of_nat (length its) + 1)) s = inr (set_stacks x1 s, Ptr id (Z.of_nat (length its) + 1))) as Er.
    { unfold extern_resize_stack_r. erewrite mbnd_eq; [|reflexivity]. cbv zeta. fold x. rewrite (proj2 (Z.leb_gt _ _)) by (unfold EXTERN_STACK_MAX_SIZE; lia). erewrite mbnd_eq; [|reflexivity]. rewrite Hmalloc. erewrite mbnd_eq; [|reflexivity]. done. }
    erewrite mbnd_eq; [|exact Er]. assert (stack_rep x1 (Ptr id (Z.of_nat (length its))) its) as Hrep1.
    { split; [done|cbn; rewrite Harr; lia|cbn; rewrite Harr; lia| |cbn; split; [unfold id; lia|intros ? ? [= <- _]; unfold id; lia]|done]. intros i y Hy. cbn. unfold arr. apply lookup_app_l_Some, R4, Hy. }
    pose proof (stack_store_run (set_stacks x1 s) _ its it (length its + 1) Hrep1 ltac:(cbn; rewrite Harr; lia)) as Es. cbn [ptr_array] in Es. replace (Z.of_nat (length its + 1)) with (Z.of_nat (length its) + 1) in Es by lia. erewrite mbnd_eq; [|exact Es]. do 2 eexists. split; [reflexivity|]. apply (stack_rep_push x1 (Ptr id (Z.of_nat (length its))) its it Hrep1). cbn. rewrite Harr. lia.
  - erewrite mbnd_eq; [|reflexivity]. pose proof (stack_store_run s sp its it (length its + 1) Hrep ltac:(lia)) as Es. rewrite R1 in Es. cbn [ptr_array] in Es. replace (Z.of_nat (length its + 1)) with (Z.of_nat (length its) + 1) in Es by lia. erewrite mbnd_eq; [|exact Es]. do 2 eexists. split; [reflexivity|]. pose proof (stack_rep_push _ _ its it Hrep ltac:(lia)) as Hp. by rewrite R1 in Hp.
Qed.

Definition items_ok (l : list extern_item) : Prop := Forall (λ it, 0 < item_count it < 2 ^ 60) l.

Lemma xflat_cons it l : 0 < item_count it → xflat (it :: l) = item_v it :: xflat ((if item_count it - 1 =? 0 then [] else [XItem (item_v it + 8) (item_count it - 1)]) ++ l).
Proof.
  intros Ha. unfold xflat. cbn [map concat]. destruct (Z.to_nat (item_count it)) as [|m] eqn:E; [lia|]. cbn [seq map app]. rewrite Z.add_0_r. f_equal. rewrite <- seq_shift, map_map. destruct (Z.eqb_spec (item_count it - 1) 0) as [Hz|Hz].
  - assert (m = 0%nat) as -> by lia. done.
  - cbn [app map concat item_v item_count]. replace (Z.to_nat (item_count it - 1)) with m by lia. f_equal. apply map_ext. intros k. lia.
Qed.

Lemma pop_field_run s sp it l w : stack_rep (extern_stacks s) sp (it :: l) → 0 < item_count it < 2 ^ 60 → words (cx s) !! item_v it = Some w →
  ∃ x' sp', pop_field sp s = inr (set_stacks x' s, (w, sp')) ∧ stack_rep x' sp' ((if item_count it - 1 =? 0 then [] else [XItem (item_v it + 8) (item_count it - 1)]) ++ l).
Proof.
  intros Hrep Hc Hw. pose proof Hrep as [R1 [R2 R2'] R3 R4 [R5 R6] R7]. cbn [length] in *. set (x := extern_stacks s) in *. set (c := item_count it - 1) in *. set (it' := XItem (item_v it + 8) c). pose proof (R4 0%nat it eq_refl) as Htop. replace (S (length l) - 0)%nat with (S (length l)) in Htop by lia.
  pose proof (stack_load_run s sp (it :: l) _ it Hrep Htop) as El. pose proof (stack_store_run s sp (it :: l) it' (S (length l)) Hrep R3) as Es. rewrite R1 in El, Es. cbn [ptr_array] in El, Es. fold x in Es. set (arr := <[S (length l) := it']> (cur_array x)) in *. assert (length arr = length (cur_array x)) as Hl by apply length_insert. destruct (put_array_facts x arr Hl) as (F1 & F2 & F3 & F4 & F5 & F6).
  eexists (put_array x arr), _. split.
  - unfold pop_field. rewrite R1. erewrite mbnd_eq; [|exact El]. erewrite mbnd_eq; [|by apply lift_ld]. cbv zeta. rewrite u64_small by lia_w. fold c it'. erewrite mbnd_eq; [|exact Es]. reflexivity.
  - assert (0 <= stack_count (put_array x arr) ∧ ∀ id k, stack_malloced (put_array x arr) = Some (id, k) → 0 < id) as Hid.
    { rewrite F4. split; [done|]. intros id k E. unfold put_array in E. destruct (stack_malloced x) as [[id' k']|]; [|done]. injection E as <- _. by apply (R6 id' k'). }
    destruct (Z.eqb_spec c 0) as [Hz|Hz]; cbn [app].
    + split; [rewrite F2, R1; unfold sp_add; cbn [ptr_array ptr_index]; f_equal; lia|by rewrite F1, F3, Hl|rewrite F1, Hl; lia| |done|by apply F6]. intros i y Hy. apply lookup_lt_Some in Hy as Hi. rewrite F1. unfold arr. rewrite list_lookup_insert_ne by lia. specialize (R4 (S i) y Hy). by replace (S (length l) - S i)%nat with (length l - i)%nat in R4 by lia.
    + split; [rewrite F2, R1; cbn [length]; done|by rewrite F1, F3, Hl|rewrite F1, Hl; cbn [length]; lia| |done|by apply F6]. rewrite F1. intros [|i] y Hy; cbn in Hy; cbn [length].
      * injection Hy as <-. replace (S (length l) - 0)%nat with (S (length l)) by lia. apply list_lookup_insert_eq. lia.
      * apply lookup_lt_Some in Hy as Hi. unfold arr. rewrite list_lookup_insert_ne by lia. apply (R4 (S i) y Hy).
Qed.

(** *** Weights *)

Definition node_size (v : Z) : Z := match G !! v with Some n => wosize n | None => 0 end.

(** The words of the blocks that are not in [O]. *)
Fixpoint rest_size (L O : list Z) : Z :=
  match L with [] => 0 | v :: L => (if decide (v ∈ O) then 0 else node_size v) + rest_size L O end.
Definition weight (O : list Z) : Z := rest_size (map fst (map_to_list G)) O.

Lemma node_size_pos v : 0 <= node_size v.
Proof. unfold node_size. destruct (G !! v) as [n|] eqn:E; [|done]. pose proof (n_size _ _ _ _ (g_node _ _ HG v n E)). lia. Qed.

Lemma rest_size_pos L O : 0 <= rest_size L O.
Proof. induction L as [|v L IH]; cbn; [done|]. pose proof (node_size_pos v). destruct (decide (v ∈ O)); lia. Qed.

Lemma rest_size_out L O v : v ∉ L → rest_size L (O ++ [v]) = rest_size L O.
Proof. induction L as [|u L IH]; cbn; [done|]. intros Hv. rewrite IH by set_solver. destruct (decide (u ∈ O)), (decide (u ∈ O ++ [v])); try done; set_solver. Qed.

Lemma rest_size_snoc L O v : NoDup L → v ∈ L → v ∉ O → rest_size L O = node_size v + rest_size L (O ++ [v]).
Proof.
  induction L as [|u L IH]; cbn; [set_solver|]. intros [Hu HN]%NoDup_cons Hv HO. destruct (decide (u = v)) as [->|Hne].
  - rewrite rest_size_out by done. destruct (decide (v ∈ O)); [done|]. destruct (decide (v ∈ O ++ [v])); [lia|set_solver].
  - rewrite (IH HN ltac:(set_solver) HO). destruct (decide (u ∈ O)), (decide (u ∈ O ++ [v])); try lia; set_solver.
Qed.

Lemma weight_snoc O v n : G !! v = Some n → v ∉ O → weight O = wosize n + weight (O ++ [v]).
Proof.
  intros Hn HO. unfold weight. rewrite (rest_size_snoc _ O v); [unfold node_size; by rewrite Hn|apply NoDup_fst_map_to_list| |done]. apply (list_elem_of_fmap_2' fst _ (v, n)); [by apply elem_of_map_to_list|done].
Qed.

Lemma weight_pos O : 0 <= weight O.
Proof. apply rest_size_pos. Qed.

(** *** One item *)

Notation item_step := (extern_item_step malloc oom md5_block Custom_ops_val).

Lemma emit_visited bs s O a b : visited s O a b → ∃ s1, emit_bytes malloc oom bs s = inr (s1, tt) ∧ visited s1 O a b ∧ grows (out s) (out s1) bs ∧ extern_stacks s1 = extern_stacks s ∧ cx s1 = cx s.
Proof. intros Hv. destruct (emit_run malloc Hmalloc oom bs s (x_user _ _ _ _ Hv)) as (o & E & Hg). exists (set_out o s). split_and!; [done|by eapply visited_out|done|done|done]. Qed.

Lemma node_tags v n : G !! v = Some n → node_tag n ≠ Forward_tag ∧ node_tag n ≠ Abstract_tag ∧ node_tag n ≠ Infix_tag ∧ node_tag n ≠ Custom_tag.
Proof. intros Hn. pose proof (n_content _ _ _ _ (g_node _ _ HG v n Hn)) as Hc. unfold content_ok, Forward_tag, Abstract_tag, Infix_tag, Custom_tag, Closure_tag, String_tag, Double_tag, Double_array_tag in *. destruct (nd_content n); lia. Qed.

(** The start of the work on a block. *)
Lemma block_start s O a b w sp hd : visited s O a b → Is_long w = false → Is_in_value_area c0 w = true → words (cx s) !! (w - 8) = Some hd → Tag_hd hd ≠ Forward_tag →
  item_step w sp s = (if Wosize_hd hd =? 0 then write_atom malloc oom (Tag_hd hd) hd ;;; mreturn Next_item
    else if Color_hd hd =? Caml_blue then let* k := lift (ld (Field w 0)) in let* s := mget in write_shared malloc oom (u64 (obj_counter s - k)) ;;; mreturn Next_item
    else if Tag_hd hd =? String_tag then write_string malloc oom w ;;; mreturn Next_item
    else if Tag_hd hd =? Double_tag then write_double malloc oom w ;;; mreturn Next_item
    else if Tag_hd hd =? Double_array_tag then write_double_array malloc oom w ;;; mreturn Next_item
    else if Tag_hd hd =? Abstract_tag then extern_invalid_argument_r abstract_value
    else if Tag_hd hd =? Infix_tag then writecode32_r malloc oom CODE_INFIXPOINTER (Bosize_hd hd) ;;; mreturn (Recurse (w - Bosize_hd hd))
    else if Tag_hd hd =? Custom_tag then write_custom malloc oom Custom_ops_val w ;;; mreturn Next_item
    else write_block_header malloc oom (Tag_hd hd) (Wosize_hd hd) hd ;;; add_sizes (1 + Wosize_hd hd) (1 + Wosize_hd hd) ;;; let* field0 := lift (ld (Field w 0)) in extern_record_location_r malloc oom w ;;; let* sp := push_fields malloc oom sp w (Wosize_hd hd) in mreturn (Continue field0 sp)) s.
Proof.
  intros Hv Hl Ha Hhd Ht. unfold extern_item_step. erewrite mbnd_eq; [|reflexivity]. rewrite Hl, (x_ctx _ _ _ _ Hv), area_eq, Ha. unfold extern_block. erewrite mbnd_eq; [|by apply lift_ld]. cbv zeta. erewrite mbnd_eq; [|unfold short_circuit; rewrite (proj2 (Z.eqb_neq _ _) Ht); reflexivity]. done.
Qed.

Lemma step_long s O a b w sp : visited s O a b → Is_long w = true → ∃ s1, item_step w sp s = inr (s1, Next_item) ∧ visited s1 O a b ∧ grows (out s) (out s1) (long_bytes (Long_val w)) ∧ extern_stacks s1 = extern_stacks s.
Proof.
  intros Hv Hl. destruct (emit_visited (long_bytes (Long_val w)) s O a b Hv) as (s1 & E & V & Hg & Hs & _). exists s1. split_and!; [|done..]. unfold extern_item_step. erewrite mbnd_eq; [|reflexivity]. rewrite Hl, write_long_eq. erewrite mbnd_eq; [|exact E]. done.
Qed.

Lemma step_atom s O a b w hd sp : visited s O a b → empty_block c0 G w hd → ∃ s1, item_step w sp s = inr (s1, Next_item) ∧ visited s1 O a b ∧ grows (out s) (out s1) (atom_bytes hd) ∧ extern_stacks s1 = extern_stacks s.
Proof.
  intros Hv Ha. destruct (emit_visited (atom_bytes hd) s O a b Hv) as (s1 & E & V & Hg & Hs & _). exists s1. split_and!; [|done..]. pose proof (marked_atom _ _ _ _ (x_marked _ _ _ _ Hv) (x_nodes _ _ _ _ Hv) Ha) as Hhd.
  rewrite (block_start s O a b w sp hd Hv); [|unfold Is_long; pose proof (a_block _ _ _ _ Ha) as Hb; unfold Is_block in Hb; by rewrite Hb|apply (a_area _ _ _ _ Ha)|done|apply (a_tag _ _ _ _ Ha)]. rewrite (a_size _ _ _ _ Ha), write_atom_eq. cbn [Z.eqb]. erewrite mbnd_eq; [|exact E]. done.
Qed.

Lemma step_shared s O a b w k n sp : visited s O a b → G !! w = Some n → O !! k = Some w → Z.of_nat (length O) < 2 ^ 40 →
  ∃ s1, item_step w sp s = inr (s1, Next_item) ∧ visited s1 O a b ∧ grows (out s) (out s1) (shared_bytes (Z.of_nat (length O) - Z.of_nat k)) ∧ extern_stacks s1 = extern_stacks s.
Proof.
  intros Hv Hn Hk Hlen. pose proof (g_node _ _ HG w n Hn) as Ho. destruct (emit_visited (shared_bytes (Z.of_nat (length O) - Z.of_nat k)) s O a b Hv) as (s1 & E & V & Hg & Hs & _). exists s1. split_and!; [|done..]. destruct (k_seen _ _ (x_marked _ _ _ _ Hv) k w n Hk Hn) as [Hhd Hf]. destruct (Bluehd_spec (nd_hd n) (n_hd _ _ _ _ Ho)) as (_ & B1 & B2 & B3). apply lookup_lt_Some in Hk as Hlt.
  rewrite (block_start s O a b w sp _ Hv (aligned_block w (n_aligned _ _ _ _ Ho)) (n_area _ _ _ _ Ho) Hhd) by (rewrite B2; apply (node_tags w n Hn)). pose proof (n_size _ _ _ _ Ho) as Hz. unfold wosize in Hz. rewrite B1, (proj2 (Z.eqb_neq _ _)) by lia. rewrite B3, Z.eqb_refl.
  erewrite mbnd_eq; [|apply lift_ld; unfold Field; rewrite Z.mul_0_r, Z.add_0_r; exact Hf]. erewrite mbnd_eq; [|reflexivity]. rewrite (x_counter _ _ _ _ Hv), u64_small by lia_w. rewrite write_shared_eq. erewrite mbnd_eq; [|exact E]. done.
Qed.

(** A block that has not been visited. *)
Lemma fresh_start s O a b w n sp : visited s O a b → G !! w = Some n → w ∉ O → words (cx s) !! (w - 8) = Some (nd_hd n) ∧
  item_step w sp s = (if node_tag n =? String_tag then write_string malloc oom w ;;; mreturn Next_item
    else if node_tag n =? Double_tag then write_double malloc oom w ;;; mreturn Next_item
    else if node_tag n =? Double_array_tag then write_double_array malloc oom w ;;; mreturn Next_item
    else write_block_header malloc oom (node_tag n) (wosize n) (nd_hd n) ;;; add_sizes (1 + wosize n) (1 + wosize n) ;;; let* field0 := lift (ld (Field w 0)) in extern_record_location_r malloc oom w ;;; let* sp := push_fields malloc oom sp w (wosize n) in mreturn (Continue field0 sp)) s.
Proof.
  intros Hv Hn Hw. pose proof (g_node _ _ HG w n Hn) as Ho. pose proof (n_size _ _ _ _ Ho) as Hz. assert (words (cx s) !! (w - 8) = Some (nd_hd n)) as Hhd by (rewrite (marked_node _ O w n _ (x_marked _ _ _ _ Hv) (x_nodes _ _ _ _ Hv)) by (auto; lia); apply (n_header _ _ _ _ Ho)). split; [done|]. destruct (node_tags w n Hn) as (T1 & T2 & T3 & T4).
  rewrite (block_start s O a b w sp _ Hv (aligned_block w (n_aligned _ _ _ _ Ho)) (n_area _ _ _ _ Ho) Hhd T1). unfold wosize, node_tag in *. rewrite (proj2 (Z.eqb_neq (Wosize_hd _) 0)) by lia. rewrite (proj2 (Z.eqb_neq (Color_hd _) _) (n_color _ _ _ _ Ho)). rewrite (proj2 (Z.eqb_neq _ _) T2), (proj2 (Z.eqb_neq _ _) T3), (proj2 (Z.eqb_neq _ _) T4). done.
Qed.

Lemma fresh_bytes s O a b w n l : visited s O a b → G !! w = Some n → w ∉ O → Z.of_nat (length l) <= 8 * wosize n → bytes_at (words c0) w l → bytes_at (words (cx s)) w l.
Proof. intros Hv Hn Hw Hl. apply bytes_at_same. intros x Hx. apply (marked_node _ O w n _ (x_marked _ _ _ _ Hv) (x_nodes _ _ _ _ Hv) Hn); [by left|lia]. Qed.

Lemma writeblock_run s O a b v l len : visited s O a b → bytes_at (words (cx s)) v l → len = Z.of_nat (length l) → ∃ s1, writeblock_r malloc oom v len s = inr (s1, tt) ∧ visited s1 O a b ∧ grows (out s) (out s1) l ∧ extern_stacks s1 = extern_stacks s ∧ cx s1 = cx s.
Proof.
  intros Hv Hb ->. destruct (emit_visited l s O a b Hv) as (s1 & E & R). exists s1. split; [|done]. unfold writeblock_r. rewrite Nat2Z.id. erewrite mbnd_eq; [|rewrite (lift_run _ s (cx s) l); [by rewrite set_cx_same|by apply ldbs_eq]]. done.
Qed.

Lemma step_string s O a b w n l sp : visited s O a b → G !! w = Some n → w ∉ O → nd_content n = Bytes l → Z.of_nat (length O) < 2 ^ 30 → 0 <= a < 2 ^ 30 → 0 <= b < 2 ^ 30 → wosize n < 2 ^ 30 →
  ∃ s1 x, item_step w sp s = inr (s1, Next_item) ∧ visited s1 (O ++ [w]) (a + x) (b + (1 + wosize n)) ∧ 0 <= x <= 2 * (1 + wosize n) ∧ grows (out s) (out s1) (str_bytes l) ∧ extern_stacks s1 = extern_stacks s.
Proof.
  intros Hv Hn Hw Hl HO Ha Hb Hsm. destruct (fresh_start s O a b w n sp Hv Hn Hw) as [Hhd Hstart]. pose proof (g_node _ _ HG w n Hn) as Ho. pose proof (n_content _ _ _ _ Ho) as Hc. unfold content_ok in Hc. rewrite Hl in Hc. destruct Hc as [Ht Hstr]. destruct (string_header _ _ _ Hstr) as (hd & E1 & Hsz). rewrite (n_header _ _ _ _ Ho) in E1. injection E1 as <-. fold (wosize n) in Hsz. set (len := Z.of_nat (length l)) in *.
  assert (is_string (words (cx s)) w l) as Hstr'.
  { destruct Hstr as [S1 S2 S3 S4 S5]. split; [done|exists (nd_hd n); done|done| |done]. apply (fresh_bytes s O a b w n _ Hv Hn Hw); [|done]. rewrite padding_length. fold len. rewrite <- Hsz. pose proof (n_size _ _ _ _ Ho). lia. }
  assert (bytes_at (words (cx s)) w l) as Hbytes by (pose proof (string_bytes _ _ _ Hstr') as Hsb; apply bytes_at_app in Hsb; apply Hsb).
  set (pre := if len <? 32 then [32 + len] else if len <? 256 then [CODE_STRING8; low8 len] else CODE_STRING32 :: be32 len). destruct (emit_visited pre s O a b Hv) as (s1 & M1 & V1 & G1 & K1 & C1).
  destruct (writeblock_run s1 O a b w l len V1 ltac:(by rewrite C1) eq_refl) as (s2 & M2 & V2 & G2 & K2 & C2). assert (0 <= 1 + (len + 4) / 4 <= 2 * (1 + wosize n)) as Hx by (rewrite Hsz; unfold len; Z.to_euclidean_division_equations; lia).
  destruct (add_sizes_run s2 O a b (1 + (len + 4) / 4) (1 + (len + 8) / 8) V2 ltac:(lia) ltac:(lia)) as (s3 & M3 & V3 & G3 & K3 & C3). destruct (record_run s3 O _ _ w n V3 Hn Hw ltac:(lia)) as (s4 & M4 & V4 & G4 & K4). rewrite <- Hsz in V4. exists s4, (1 + (len + 4) / 4). split_and!; [|done|lia|lia| |congruence].
  - rewrite Hstart, Ht. change (String_tag =? String_tag) with true. cbn iota. erewrite mbnd_eq; [reflexivity|]. unfold write_string. erewrite mbnd_eq; [|rewrite (lift_run _ s (cx s) len); [by rewrite set_cx_same|by apply string_length_eq]].
    assert ((if len <? 32 then Write malloc oom (PREFIX_SMALL_STRING + len) else if len <? 256 then writecode8_r malloc oom CODE_STRING8 len else writecode32_r malloc oom CODE_STRING32 len) = emit_bytes malloc oom pre) as ->.
    { unfold pre, Write, writecode8_r, writecode32_r, PREFIX_SMALL_STRING. destruct (Z.ltb_spec len 32); [rewrite low8_small by (unfold len in *; lia); done|by destruct (len <? 256)]. }
    erewrite mbnd_eq; [|exact M1]. erewrite mbnd_eq; [|exact M2]. erewrite mbnd_eq; [|exact M3]. exact M4.
  - rewrite G4, G3. unfold str_bytes. fold len pre. by eapply grows_trans.
Qed.

Lemma step_doubles s O a b w n l sp : visited s O a b → G !! w = Some n → w ∉ O → nd_content n = Doubles l → Z.of_nat (length O) < 2 ^ 30 → 0 <= a < 2 ^ 30 → 0 <= b < 2 ^ 30 → wosize n < 2 ^ 30 →
  ∃ s1 x, item_step w sp s = inr (s1, Next_item) ∧ visited s1 (O ++ [w]) (a + x) (b + (1 + wosize n)) ∧ 0 <= x <= 2 * (1 + wosize n) ∧ grows (out s) (out s1) (dbl_bytes (node_tag n) l) ∧ extern_stacks s1 = extern_stacks s.
Proof.
  intros Hv Hn Hw Hl HO Ha Hb Hsm. destruct (fresh_start s O a b w n sp Hv Hn Hw) as [Hhd Hstart]. pose proof (g_node _ _ HG w n Hn) as Ho. pose proof (n_size _ _ _ _ Ho) as Hz. pose proof (n_content _ _ _ _ Ho) as Hc. unfold content_ok in Hc. rewrite Hl in Hc. destruct Hc as (Ht & Hbytes & Hlen & _). pose proof (fresh_bytes s O a b w n l Hv Hn Hw ltac:(lia) Hbytes) as Hbytes'.
  set (pre := if node_tag n =? Double_tag then [CODE_DOUBLE_LITTLE] else if wosize n <? 256 then [CODE_DOUBLE_ARRAY8_LITTLE; low8 (wosize n)] else CODE_DOUBLE_ARRAY32_LITTLE :: be32 (wosize n)). destruct (emit_visited pre s O a b Hv) as (s1 & M1 & V1 & G1 & K1 & C1).
  destruct (writeblock_run s1 O a b w l (wosize n * 8) V1 ltac:(by rewrite C1) ltac:(lia)) as (s2 & M2 & V2 & G2 & K2 & C2). destruct (add_sizes_run s2 O a b (1 + wosize n * 2) (1 + wosize n) V2 ltac:(lia) ltac:(lia)) as (s3 & M3 & V3 & G3 & K3 & C3). destruct (record_run s3 O _ _ w n V3 Hn Hw ltac:(lia)) as (s4 & M4 & V4 & G4 & K4).
  exists s4, (1 + wosize n * 2). split_and!; [|done|lia|lia| |congruence].
  - rewrite Hstart. destruct Ht as [[Ht Hw1]|Ht]; rewrite Ht; unfold pre in M1; rewrite Ht in M1.
    + change (Double_tag =? String_tag) with false. change (Double_tag =? Double_tag) with true in *. cbn iota in *. rewrite Hw1 in *. erewrite mbnd_eq; [reflexivity|]. unfold write_double. erewrite mbnd_eq; [|exact M1]. erewrite mbnd_eq; [|exact M2]. erewrite mbnd_eq; [|exact M3]. exact M4.
    + change (Double_array_tag =? String_tag) with false. change (Double_array_tag =? Double_tag) with false in *. change (Double_array_tag =? Double_array_tag) with true. cbn iota in *. erewrite mbnd_eq; [reflexivity|]. unfold write_double_array. erewrite mbnd_eq; [|rewrite (lift_run _ s (cx s) (wosize n)); [by rewrite set_cx_same|unfold Wosize_val; erewrite mbnd_eq; [|unfold ld, Hd_val; rewrite Hhd; reflexivity]; done]].
      cbv zeta. unfold Double_wosize. rewrite Z.div_1_r. erewrite (mbnd_eq _ _ s s1 tt); [|rewrite <- M1; unfold writecode8_r, writecode32_r; by destruct (wosize n <? 256)]. erewrite mbnd_eq; [|exact M2]. erewrite mbnd_eq; [|exact M3]. exact M4.
  - rewrite G4, G3. unfold dbl_bytes. rewrite Hlen, (Z.mul_comm 8), Z.div_mul by lia. fold pre. by eapply grows_trans.
Qed.

Lemma step_block s O a b w n ws sp its : visited s O a b → G !! w = Some n → w ∉ O → nd_content n = Fields ws → Z.of_nat (length O) < 2 ^ 30 → 0 <= a < 2 ^ 30 → 0 <= b < 2 ^ 30 → wosize n < 2 ^ 30 → stack_rep (extern_stacks s) sp its → Z.of_nat (length its) < 2 ^ 25 →
  ∃ s1 sp1 f0, item_step w sp s = inr (s1, Continue f0 sp1) ∧ ws !! 0%nat = Some f0 ∧ visited s1 (O ++ [w]) (a + (1 + wosize n)) (b + (1 + wosize n)) ∧ grows (out s) (out s1) (header_bytes (nd_hd n)) ∧
    stack_rep (extern_stacks s1) sp1 ((if 1 <? wosize n then [XItem (w + 8) (wosize n - 1)] else []) ++ its).
Proof.
  intros Hv Hn Hw Hl HO Ha Hb Hsm Hrep Hits. destruct (fresh_start s O a b w n sp Hv Hn Hw) as [Hhd Hstart]. pose proof (g_node _ _ HG w n Hn) as Ho. pose proof (n_size _ _ _ _ Ho) as Hz. pose proof (n_content _ _ _ _ Ho) as Hc. unfold content_ok in Hc. rewrite Hl in Hc. destruct Hc as (Ht & Hlen & Hseg & _). destruct ws as [|f0 ws]; [cbn in Hlen; lia|]. destruct Hseg as [Hf0 _].
  destruct (emit_visited (header_bytes (nd_hd n)) s O a b Hv) as (s1 & M1 & V1 & G1 & K1 & C1). destruct (add_sizes_run s1 O a b (1 + wosize n) (1 + wosize n) V1 ltac:(lia) ltac:(lia)) as (s2 & M2 & V2 & G2 & K2 & C2).
  assert (words (cx s2) !! w = Some f0) as Hf by (rewrite (marked_node _ O w n _ (x_marked _ _ _ _ V2) (x_nodes _ _ _ _ V2) Hn) by (auto; lia); done). destruct (record_run s2 O _ _ w n V2 Hn Hw ltac:(lia)) as (s3 & M3 & V3 & G3 & K3).
  assert (∃ x1 sp1, push_fields malloc oom sp w (wosize n) s3 = inr (set_stacks x1 s3, sp1) ∧ stack_rep x1 sp1 ((if 1 <? wosize n then [XItem (w + 8) (wosize n - 1)] else []) ++ its)) as (x1 & sp1 & M4 & R4).
  { assert (stack_rep (extern_stacks s3) sp its) as Hrep3 by (by rewrite K3, K2, K1). destruct (Z.ltb_spec 1 (wosize n)) as [H1|H1]; [by apply push_fields_run|]. exists (extern_stacks s3), sp. split; [|done]. unfold push_fields. rewrite (proj2 (Z.ltb_ge _ _) H1). by destruct s3. }
  exists (set_stacks x1 s3), sp1, f0. split_and!; [|done|by apply visited_stacks|cbn; by rewrite G3, G2|done].
  rewrite Hstart. unfold Closure_tag, String_tag, Double_tag, Double_array_tag in *. rewrite !(proj2 (Z.eqb_neq (node_tag n) _)) by lia. unfold node_tag at 1, wosize at 1. rewrite write_header_eq by apply (n_hd _ _ _ _ Ho). erewrite mbnd_eq; [|exact M1]. erewrite mbnd_eq; [|exact M2]. erewrite mbnd_eq; [|apply lift_ld; unfold Field; rewrite Z.mul_0_r, Z.add_0_r; exact Hf]. erewrite mbnd_eq; [|exact M3]. erewrite mbnd_eq; [|exact M4]. done.
Qed.

(** *** The loop *)

Notation xloop := (extern_loop malloc oom md5_block Custom_ops_val).
Notation tot := (tot G).
Notation contents := (contents G v0).

(** The address of a field that is still to be written. *)
Definition pending (O : list Z) (x : Z) (c : slot) : Prop :=
  ∃ k i v n ws, c = Cell k i ∧ O !! k = Some v ∧ G !! v = Some n ∧ nd_content n = Fields ws ∧ x = v + 8 * Z.of_nat i ∧ (1 <= i < length ws)%nat.

Lemma pending_app O X x c : pending O x c → pending (O ++ X) x c.
Proof. intros (k & i & v & n & ws & E & Hk & R). exists k, i, v, n, ws. split_and!; [done|by apply lookup_app_l_Some|apply R..]. Qed.

Lemma pending_load s O a b x c : visited s O a b → pending O x c → ∃ w, words (cx s) !! x = Some w ∧ contents O c = Some w ∧ value_ok c0 G w.
Proof.
  intros Hv (k & i & v & n & ws & -> & Hk & Hn & Hc & -> & Hi). pose proof (n_content _ _ _ _ (g_node _ _ HG v n Hn)) as Hok. unfold content_ok in Hok. rewrite Hc in Hok. destruct Hok as (_ & Hl & Hseg & HF). destruct (lookup_lt_is_Some_2 ws i ltac:(lia)) as [w Hw]. exists w. split_and!.
  - rewrite (marked_node _ O v n _ (x_marked _ _ _ _ Hv) (x_nodes _ _ _ _ Hv) Hn) by (auto; lia). apply (seg_lookup _ _ _ _ _ Hseg Hw).
  - cbn. rewrite Hk, Hn. unfold node_fields. by rewrite Hc.
  - rewrite Forall_lookup in HF. by apply (HF i).
Qed.

Definition next_item (fuel : nat) (sp : item_ptr) : XM unit :=
  let* s := mget in
  if stack_empty sp (extern_stacks s) then extern_free_stack_r else let* (v, sp) := pop_field sp in xloop fuel v sp.

Lemma xloop_next fuel w sp s s1 : item_step w sp s = inr (s1, Next_item) → xloop (S fuel) w sp s = next_item fuel sp s1.
Proof. intros E. cbn [extern_loop]. erewrite mbnd_eq; [|exact E]. done. Qed.

Lemma xloop_continue fuel w sp s s1 f sp1 : item_step w sp s = inr (s1, Continue f sp1) → xloop (S fuel) w sp s = xloop fuel f sp1 s1.
Proof. intros E. cbn [extern_loop]. erewrite mbnd_eq; [|exact E]. done. Qed.

(** Nothing is left. *)
Lemma next_nil fuel sp s O a b : visited s O a b → stack_rep (extern_stacks s) sp [] → ∃ s', next_item fuel sp s = inr (s', tt) ∧ visited s' O a b ∧ out s' = out s ∧ stack_malloced (extern_stacks s') = None ∧ length (stack_init (extern_stacks s')) = 256%nat ∧ 0 <= stack_count (extern_stacks s').
Proof.
  intros Hv [R1 R2 R3 R4 R5 R6].
  assert (∃ x, extern_free_stack_r s = inr (set_stacks x s, tt) ∧ stack_malloced x = None ∧ length (stack_init x) = 256%nat ∧ 0 <= stack_count x) as (x & E & Hx).
  { unfold extern_free_stack_r, mmodify. destruct R5 as [R5 _]. destruct (stack_malloced (extern_stacks s)) eqn:Em; [by eexists|]. exists (extern_stacks s). split; [by destruct s|done]. }
  exists (set_stacks x s). split_and!; [|by apply visited_stacks|done|apply Hx..]. unfold next_item. erewrite mbnd_eq; [|reflexivity]. rewrite R1. unfold stack_empty. cbn [ptr_array ptr_index length]. by rewrite Z.eqb_refl.
Qed.

(** The next field. *)
Lemma next_cons fuel sp s O a b its c P : visited s O a b → stack_rep (extern_stacks s) sp its → items_ok its → Forall2 (pending O) (xflat its) (c :: P) →
  ∃ w s1 sp1 its1, next_item fuel sp s = xloop fuel w sp1 s1 ∧ visited s1 O a b ∧ out s1 = out s ∧ stack_rep (extern_stacks s1) sp1 its1 ∧ items_ok its1 ∧ Forall2 (pending O) (xflat its1) P ∧ contents O c = Some w ∧ value_ok c0 G w.
Proof.
  intros Hv Hrep Hok HF. destruct its as [|it its]; [by inversion HF|]. apply Forall_cons in Hok as [Hit Hok]. rewrite xflat_cons in HF by lia. apply Forall2_cons in HF as [Hp HF]. destruct (pending_load s O a b _ c Hv Hp) as (w & Hw & Hc & Hvo). destruct (pop_field_run s sp it its w Hrep Hit Hw) as (x1 & sp1 & Hpop & Hrep1).
  eexists w, (set_stacks x1 s), sp1, _. split_and!; [|by apply visited_stacks|done|exact Hrep1| |exact HF|done|done].
  - unfold next_item. erewrite mbnd_eq; [|reflexivity]. unfold stack_empty. rewrite (sr_sp _ _ _ Hrep). cbn [ptr_array ptr_index length]. rewrite Z.eqb_refl, (proj2 (Z.eqb_neq _ _)) by lia. cbn [andb]. rewrite <- (sr_sp _ _ _ Hrep : sp = Ptr _ (Z.of_nat (S (length its)))). erewrite mbnd_eq; [|exact Hpop]. done.
  - destruct (Z.eqb_spec (item_count it - 1) 0); [done|]. apply Forall_cons. split; [cbn; lia|done].
Qed.

(** A run that ends. *)
Definition ends (s : xstate) (O : list Z) (r : cstop + xstate * unit) (Q : list slot) (z : Z) : Prop :=
  ∃ s' B O' a b, r = inr (s', tt) ∧ enc c0 G v0 O Q B O' ∧ visited s' O' a b ∧ b = tot O' ∧ 0 <= a <= 2 * b ∧ b + 2 * weight O' <= 2 ^ 25 - 1 ∧ grows (out s) (out s') B ∧
    stack_malloced (extern_stacks s') = None ∧ length (stack_init (extern_stacks s')) = 256%nat ∧ 0 <= stack_count (extern_stacks s') ∧ Z.of_nat (length B) <= z.

Lemma item_lengths : (∀ n, (length (long_bytes n) <= 9)%nat) ∧ (∀ hd, (length (atom_bytes hd) <= 9)%nat) ∧ (∀ d, (length (shared_bytes d) <= 9)%nat) ∧ (∀ hd, (length (header_bytes hd) <= 9)%nat) ∧ (∀ l, (length (str_bytes l) <= 9 + length l)%nat) ∧ (∀ t l, (length (dbl_bytes t l) <= 9 + length l)%nat).
Proof. unfold long_bytes, atom_bytes, shared_bytes, header_bytes, str_bytes, dbl_bytes. split_and!; intros; rewrite ?length_app; repeat case_match; cbn [length be32 be64]; lia. Qed.

Lemma tot_snoc O v n : G !! v = Some n → tot (O ++ [v]) = tot O + (1 + wosize n).
Proof. intros Hn. rewrite tot_app. cbn [Marshal.tot]. unfold node_words. rewrite Hn. lia. Qed.

Lemma xflat_length l : items_ok l → (length l <= length (xflat l))%nat.
Proof. induction 1 as [|it l Hi _ IH]; [done|]. unfold xflat in *. cbn [map concat length]. rewrite length_app, length_map, length_seq. lia. Qed.

(** The objects [O] have been written, the places [P] are on the stack. *)
Record ready (s : xstate) (sp : item_ptr) (O : list Z) (P : list slot) : Prop := {
  y_visited : ∃ a, visited s O a (tot O) ∧ 0 <= a <= 2 * tot O;
  y_weight : tot O + 2 * weight O <= 2 ^ 25 - 1;
  y_stack : ∃ its, stack_rep (extern_stacks s) sp its ∧ items_ok its ∧ Forall2 (pending O) (xflat its) P;
  y_places : Z.of_nat (length P) <= 2 ^ 25
}.

(** The bytes that remain, at most. *)
Definition budget (O : list Z) (Q : list slot) : Z := 17 * (Z.of_nat (length Q) + weight O).

(** The loop writes the places of [c :: P] within [fuel] steps. *)
Definition goes (fuel : nat) : Prop := ∀ s sp O c P w, ready s sp O P → contents O c = Some w → value_ok c0 G w →
  Z.of_nat (length (c :: P)) + weight O <= Z.of_nat fuel → Z.of_nat (length (c :: P)) + weight O <= 2 ^ 25 → ends s O (xloop fuel w sp s) (c :: P) (budget O (c :: P)).

(** An item that leaves no field to write. *)
Lemma ends_next fuel sp s s1 O O1 Q P bs : goes fuel → ready s1 sp O1 P → Z.of_nat (length P) + weight O1 <= Z.of_nat fuel → Z.of_nat (length P) + weight O1 <= 2 ^ 25 → grows (out s) (out s1) bs →
  Z.of_nat (length bs) + budget O1 P <= budget O Q → (∀ B O', enc c0 G v0 O1 P B O' → enc c0 G v0 O Q (bs ++ B) O') → ends s O (next_item fuel sp s1) Q (budget O Q).
Proof.
  intros Hgo [(a & Hv & Ha) Hw (its & Hrep & Hok & HF) Hlen] Hm Hfuel Hg Hz Henc. destruct P as [|c P].
  - assert (its = []) as -> by (destruct its as [|it its]; [done|]; apply Forall_cons in Hok as [Hit _]; rewrite xflat_cons in HF by lia; inversion HF).
    destruct (next_nil fuel sp s1 O1 a (tot O1) Hv Hrep) as (s' & E & V & Eo & K1 & K2 & K3). exists s', (bs ++ []), O1, a, (tot O1). split_and!; try done; [apply Henc; constructor|lia|lia|rewrite Eo, app_nil_r; done|]. rewrite app_nil_r. pose proof (weight_pos O1). unfold budget in *. lia.
  - destruct (next_cons fuel sp s1 O1 a (tot O1) its c P Hv Hrep Hok HF) as (w & s2 & sp2 & its2 & E & V & Eo & R & Hok2 & HF2 & Hc & Hvo).
    destruct (Hgo s2 sp2 O1 c P w) as (s' & B & O' & a' & b' & E' & He & V' & Hb' & Ha' & Hw' & Hg' & K1 & K2 & K3 & Hl'); [split; [eauto|done|eauto|cbn [length] in Hlen; lia]|done|done|done|done|]. rewrite E. exists s', (bs ++ B), O', a', b'. split_and!; try done; [by apply Henc|lia|lia|rewrite Eo in Hg'; by eapply grows_trans|]. rewrite length_app. lia.
Qed.

Lemma length_tot O : Forall (λ v, is_Some (G !! v)) O → Z.of_nat (length O) <= tot O.
Proof. induction 1 as [|v O [n Hn] _ IH]; [done|]. cbn [length Marshal.tot]. unfold node_words. rewrite Hn. pose proof (n_size _ _ _ _ (g_node _ _ HG v n Hn)). lia. Qed.

(** The state after an item that is an object without fields. *)
Lemma ready_leaf s s1 sp O P w n a x : ready s sp O P → G !! w = Some n → w ∉ O → 0 <= a <= 2 * tot O → visited s1 (O ++ [w]) (a + x) (tot O + (1 + wosize n)) → 0 <= x <= 2 * (1 + wosize n) → extern_stacks s1 = extern_stacks s → ready s1 sp (O ++ [w]) P.
Proof.
  intros [_ Hw (its & Hrep & Hok & HF) Hlen] Hn HO Ha Hv Hx Es. pose proof (n_size _ _ _ _ (g_node _ _ HG w n Hn)). rewrite (weight_snoc O w n Hn HO) in Hw. split.
  - exists (a + x). rewrite (tot_snoc O w n Hn). split; [done|lia].
  - rewrite (tot_snoc O w n Hn). lia.
  - exists its. rewrite Es. split_and!; [done|done|]. eapply Forall2_impl; [exact HF|]. intros. by apply pending_app.
  - done.
Qed.

Lemma ready_same s s1 sp O P a : ready s sp O P → visited s1 O a (tot O) → 0 <= a <= 2 * tot O → extern_stacks s1 = extern_stacks s → ready s1 sp O P.
Proof. intros [_ Hw (its & R) Hlen] Hv Ha Es. split; [eauto|done|exists its; by rewrite Es|done]. Qed.

Lemma xflat_app l k : xflat (l ++ k) = xflat l ++ xflat k.
Proof. unfold xflat. by rewrite map_app, concat_app. Qed.

(** The fields of a new block that are left for later. *)
Definition later (k sz : nat) : list slot := map (Cell k) (seq 1 (sz - 1)).

Lemma cells_later k sz : (0 < sz)%nat → cells k sz = Cell k 0 :: later k sz.
Proof. intros Hs. unfold cells, later. destruct sz as [|m]; [lia|]. cbn [seq map]. by rewrite Nat.sub_succ, Nat.sub_0_r. Qed.

Lemma pending_later O w n ws : G !! w = Some n → nd_content n = Fields ws → Z.of_nat (length ws) = wosize n →
  Forall2 (pending (O ++ [w])) (xflat (if 1 <? wosize n then [XItem (w + 8) (wosize n - 1)] else [])) (later (length O) (length ws)).
Proof.
  intros Hn Hc Hl. unfold later. destruct (Z.ltb_spec 1 (wosize n)) as [H1|H1]; [|replace (length ws - 1)%nat with 0%nat by lia; constructor].
  unfold xflat. cbn [map concat item_v item_count]. rewrite app_nil_r. replace (Z.to_nat (wosize n - 1)) with (length ws - 1)%nat by lia. rewrite <- seq_shift, map_map. apply Forall2_fmap, Forall_Forall2_diag, Forall_forall. intros i [_ Hi]%elem_of_seq. cbn in Hi.
  exists (length O), (S i), w, n, ws. split_and!; [done|by apply list_lookup_middle|done|done|lia|lia|lia].
Qed.

Lemma ready_block s s1 sp sp1 O P w n ws a its : ready s sp O P → G !! w = Some n → w ∉ O → nd_content n = Fields ws → Z.of_nat (length ws) = wosize n → 0 <= a <= 2 * tot O → visited s1 (O ++ [w]) (a + (1 + wosize n)) (tot O + (1 + wosize n)) →
  items_ok its → Forall2 (pending O) (xflat its) P → stack_rep (extern_stacks s1) sp1 ((if 1 <? wosize n then [XItem (w + 8) (wosize n - 1)] else []) ++ its) → Z.of_nat (length ws + length P) <= 2 ^ 25 → ready s1 sp1 (O ++ [w]) (later (length O) (length ws) ++ P).
Proof.
  intros [_ Hw _ Hlen] Hn HO Hc Hl Ha Hv Hok HF Hrep Hsum. pose proof (n_size _ _ _ _ (g_node _ _ HG w n Hn)). rewrite (weight_snoc O w n Hn HO) in Hw. split.
  - exists (a + (1 + wosize n)). rewrite (tot_snoc O w n Hn). split; [done|lia].
  - rewrite (tot_snoc O w n Hn). lia.
  - eexists. split_and!; [exact Hrep| |].
    + apply Forall_app. split; [|done]. destruct (Z.ltb_spec 1 (wosize n)); [|constructor]. apply Forall_singleton. cbn. lia.
    + rewrite xflat_app. apply Forall2_app; [by apply pending_later|]. eapply Forall2_impl; [exact HF|]. intros. by apply pending_app.
  - unfold later. rewrite length_app, length_map, length_seq. lia.
Qed.

Lemma goes_S fuel : goes fuel → goes (S fuel).
Proof.
  intros Hgo s sp O c P w Hr Hc Hvo Hm Hfuel. cbn [length] in Hfuel. pose proof Hr as [(a & Hv & Ha) Hw (its & Hrep & Hok & HF) Hlen]. pose proof (length_tot O (x_nodes _ _ _ _ Hv)) as HlO. pose proof (weight_pos O) as Hwp. destruct item_lengths as (L1 & L2 & L3 & L4 & L5 & L6). cbn [length] in Hm.
  assert (Z.of_nat (length its) <= Z.of_nat (length P)) as Hits by (pose proof (xflat_length its Hok); rewrite (Forall2_length _ _ _ HF) in *; lia).
  destruct Hvo as [[Hl Hww]|[[hd Hat]|[n Hn]]].
  - destruct (step_long s O a (tot O) w sp Hv Hl) as (s1 & E & V & Hg & Es). rewrite (xloop_next _ _ _ _ _ E). specialize (L1 (Long_val w)). eapply (ends_next fuel sp s s1 O O); [done|by eapply ready_same|lia|lia|exact Hg|unfold budget; cbn [length]; lia|]. intros B O' HB. by eapply enc_long.
  - destruct (step_atom s O a (tot O) w hd sp Hv Hat) as (s1 & E & V & Hg & Es). rewrite (xloop_next _ _ _ _ _ E). specialize (L2 hd). eapply (ends_next fuel sp s s1 O O); [done|by eapply ready_same|lia|lia|exact Hg|unfold budget; cbn [length]; lia|]. intros B O' HB. by eapply enc_atom.
  - destruct (decide (w ∈ O)) as [Hin|Hnew].
    { apply list_elem_of_lookup_1 in Hin as [k Hk]. destruct (step_shared s O a (tot O) w k n sp Hv Hn Hk ltac:(lia)) as (s1 & E & V & Hg & Es). rewrite (xloop_next _ _ _ _ _ E). specialize (L3 (Z.of_nat (length O) - Z.of_nat k)). eapply (ends_next fuel sp s s1 O O); [done|by eapply ready_same|lia|lia|exact Hg|unfold budget; cbn [length]; lia|]. intros B O' HB. by eapply enc_shared. }
    pose proof (g_node _ _ HG w n Hn) as Ho. pose proof (n_size _ _ _ _ Ho) as Hz. pose proof (n_content _ _ _ _ Ho) as Hcon. unfold content_ok in Hcon. pose proof (weight_snoc O w n Hn Hnew) as Hws. pose proof (weight_pos (O ++ [w])) as Hwp'. destruct (nd_content n) as [ws|l|l] eqn:En.
    + destruct Hcon as (_ & Hlws & _). destruct (step_block s O a (tot O) w n ws sp its Hv Hn Hnew En ltac:(lia) ltac:(lia) ltac:(lia) ltac:(lia) Hrep ltac:(lia)) as (s1 & sp1 & f0 & E & Hf0 & V & Hg & Hrep1). rewrite (xloop_continue _ _ _ _ _ _ _ E).
      assert (ready s1 sp1 (O ++ [w]) (later (length O) (length ws) ++ P)) as Hr1 by (eapply ready_block; eauto; lia). assert (Z.of_nat (length (later (length O) (length ws) ++ P)) = wosize n - 1 + Z.of_nat (length P)) as Hll by (unfold later; rewrite length_app, length_map, length_seq; lia).
      assert (contents (O ++ [w]) (Cell (length O) 0) = Some f0) as Hc0 by (cbn; rewrite list_lookup_middle, Hn by done; unfold node_fields; by rewrite En). assert (value_ok c0 G f0) as Hv0' by (pose proof (n_content _ _ _ _ Ho) as Hx; unfold content_ok in Hx; rewrite En in Hx; destruct Hx as (_ & _ & _ & Hx); rewrite Forall_lookup in Hx; by apply (Hx 0%nat)).
      destruct (Hgo s1 sp1 (O ++ [w]) (Cell (length O) 0) _ f0 Hr1 Hc0 Hv0') as (s' & B & O' & a' & b' & E' & He & V' & Hb' & Ha' & Hw' & Hg' & K1 & K2 & K3 & Hl'); [cbn [length]; lia|cbn [length]; lia|]. rewrite E'. specialize (L4 (nd_hd n)).
      exists s', (header_bytes (nd_hd n) ++ B), O', a', b'. split_and!; try done; [|lia|lia|by eapply grows_trans|rewrite length_app; unfold budget in *; cbn [length] in *; lia]. eapply enc_block; try done. rewrite cells_later by lia. exact He.
    + destruct Hcon as [_ Hstr]. destruct (string_header _ _ _ Hstr) as (hd & H1 & H2). rewrite (n_header _ _ _ _ Ho) in H1. injection H1 as <-. fold (wosize n) in H2. assert (Z.of_nat (length l) <= 8 * wosize n) by (rewrite H2; Z.to_euclidean_division_equations; lia).
      destruct (step_string s O a (tot O) w n l sp Hv Hn Hnew En ltac:(lia) ltac:(lia) ltac:(lia) ltac:(lia)) as (s1 & x & E & V & Hx & Hg & Es). rewrite (xloop_next _ _ _ _ _ E). specialize (L5 l). eapply (ends_next fuel sp s s1 O (O ++ [w])); [done|by eapply ready_leaf|lia|lia|exact Hg|unfold budget; cbn [length]; lia|]. intros B O' HB. by eapply enc_string.
    + destruct Hcon as (_ & _ & Hll & _). destruct (step_doubles s O a (tot O) w n l sp Hv Hn Hnew En ltac:(lia) ltac:(lia) ltac:(lia) ltac:(lia)) as (s1 & x & E & V & Hx & Hg & Es). rewrite (xloop_next _ _ _ _ _ E). specialize (L6 (node_tag n) l). eapply (ends_next fuel sp s s1 O (O ++ [w])); [done|by eapply ready_leaf|lia|lia|exact Hg|unfold budget; cbn [length]; lia|]. intros B O' HB. by eapply enc_doubles.
Qed.

Lemma extern_goes fuel : goes fuel.
Proof. induction fuel as [|fuel IH]; [|by apply goes_S]. intros s sp O c P w _ _ _ Hm _. cbn [length] in Hm. pose proof (weight_pos O). lia. Qed.

(** ** The whole message *)

Definition message (B : list Z) (objs size32 size64 : Z) : list Z :=
  be32 Intext_magic_number ++ be32 (Z.of_nat (length B)) ++ be32 objs ++ be32 size32 ++ be32 size64 ++ B.

(** A context between two calls. *)
Definition idle (s : xstate) : Prop := cx s = c0 ∧ stack_malloced (extern_stacks s) = None ∧ length (stack_init (extern_stacks s)) = 256%nat ∧ 0 <= stack_count (extern_stacks s).

Definition preamble : list Z := be32 Intext_magic_number ++ replicate 16 0.

(** The state in which the traversal starts. *)
Lemma started s fl : idle s → Z.land fl NO_SHARING = 0 → 2 * weight [] <= 2 ^ 25 - 1 →
  ready (set_out (Output false [] preamble SIZE_EXTERN_OUTPUT_BLOCK) (set_counters 0 0 0 (set_trail [[]] (set_flags false (negb (Z.land fl CLOSURES =? 0)) (negb (Z.land fl CROSS_CONTEXT =? 0)) s)))) (extern_stack (extern_stacks s)) [] [].
Proof.
  intros (Hc & Hm & Hi & Hn) Hfl Hw. split; cbn [Marshal.tot]; [|lia| |cbn; lia].
  - exists 0. split; [|lia]. split; try done; cbn; [by rewrite Hc; destruct c0|rewrite Hc; apply marked_nil|constructor].
  - exists []. split_and!; [|constructor|constructor]. cbn. split; unfold cur_array, extern_stack, extern_stack_size; rewrite ?Hm; cbn; try done; rewrite ?Hi; unfold EXTERN_STACK_INIT_SIZE; lia.
Qed.

Lemma patch_bytes o B x sizes : length sizes = 16%nat → out_bytes o = preamble ++ B → first_block o = preamble ++ x →
  out_bytes (match out_closed o with b :: l => Output (extern_userprovided_output o) (patch b sizes :: l) (out_current o) (out_size o) | [] => Output (extern_userprovided_output o) [] (patch (out_current o) sizes) (out_size o) end) = be32 Intext_magic_number ++ sizes ++ B.
Proof.
  intros Hs Ho Hf. assert (∀ y, patch (preamble ++ y) sizes = be32 Intext_magic_number ++ sizes ++ y) as Hp.
  { intros y. unfold patch, overwrite. rewrite Hs. done. }
  unfold out_bytes, first_block in *. destruct (out_closed o) as [|b l]; cbn [app concat out_closed out_current] in *; rewrite ?app_nil_r in *.
  - rewrite Hf in Ho |- *. apply app_inv_head in Ho as ->. apply Hp.
  - rewrite Hf in Ho |- *. rewrite <- app_assoc in Ho. apply app_inv_head in Ho as <-. rewrite Hp, <- !app_assoc. done.
Qed.

Lemma write_magic s : out s = Output false [] [] SIZE_EXTERN_OUTPUT_BLOCK → write32_r malloc oom Intext_magic_number s = inr (set_out (Output false [] (be32 Intext_magic_number) SIZE_EXTERN_OUTPUT_BLOCK) s, tt).
Proof. intros E. unfold write32_r, emit_bytes. erewrite mbnd_eq; [|reflexivity]. rewrite E. cbn [out_size out_current length]. rewrite (proj2 (Z.ltb_ge _ _)) by done. erewrite mbnd_eq; [|reflexivity]. unfold mmodify. by rewrite E. Qed.

Lemma output_run fuel fl s : idle s → Z.land fl NO_SHARING = 0 → 2 * weight [] <= 2 ^ 25 - 1 → 1 + weight [] <= Z.of_nat fuel →
  ∃ s' B O a, caml_output_value_to_malloc_r malloc oom md5_block Custom_ops_val fuel v0 fl s = inr (s', (message B (Z.of_nat (length O)) a (tot O), Z.of_nat (length B) + 20)) ∧
    enc c0 G v0 [] [Root] B O ∧ NoDup O ∧ Forall (λ v, is_Some (G !! v)) O ∧ cx s' = c0 ∧ idle s' ∧ 0 <= a < 2 ^ 32 ∧ tot O < 2 ^ 25 ∧ Z.of_nat (length B) <= budget [] [Root].
Proof.
  intros Hidle Hfl Hw Hfuel. pose proof (weight_pos []) as Hwp. pose proof (started s fl Hidle Hfl Hw) as Hready. set (s0 := set_out _ _) in Hready.
  destruct (extern_goes fuel s0 _ [] Root [] v0 Hready eq_refl Hv0) as (s1 & B & O & a & b & E & He & V & -> & Ha & Hw1 & Hg & K1 & K2 & K3 & Hl); [cbn [length]; lia|cbn [length]; lia|]. change (out s0) with (Output false [] preamble SIZE_EXTERN_OUTPUT_BLOCK) in Hg. destruct Hg as (Hob & Hu & x & Hfb).
  pose proof (x_nodes _ _ _ _ V) as HnO. pose proof (length_tot O HnO) as HlO. pose proof (weight_pos O) as HwO. set (s2 := set_trail [[]] (set_cx c0 s1)). destruct (x_sizes _ _ _ _ V) as [Z1 Z2]. pose proof (x_counter _ _ _ _ V) as Z3.
  set (sizes := be32 (Z.of_nat (length B)) ++ be32 (Z.of_nat (length O)) ++ be32 a ++ be32 (tot O)). change (out_bytes (Output false [] preamble SIZE_EXTERN_OUTPUT_BLOCK)) with preamble in Hob. cbn [first_block out_closed out_current] in Hfb.
  pose proof (patch_bytes (out s1) B x sizes eq_refl Hob Hfb) as Hp. set (o3 := match out_closed (out s1) with [] => _ | _ => _ end) in Hp. assert (length (out_bytes (out s1)) = (20 + length B)%nat) as Hlen by (by rewrite Hob, length_app). assert (extern_userprovided_output o3 = false) as Hu3 by (unfold o3; by destruct (out_closed (out s1))).
  assert (extern_value_r malloc oom md5_block Custom_ops_val fuel v0 fl (set_out (Output false [] [] SIZE_EXTERN_OUTPUT_BLOCK) s) = inr (set_out o3 s2, Z.of_nat (length B) + 20)) as Ev.
  { unfold extern_value_r. erewrite mbnd_eq; [|reflexivity]. erewrite mbnd_eq; [|reflexivity]. erewrite mbnd_eq; [|reflexivity]. erewrite mbnd_eq; [|by apply write_magic]. erewrite mbnd_eq; [|reflexivity].
    erewrite (mbnd_eq (extern_rec_r _ _ _ _ _ _) _ _ s1 tt); [|unfold extern_rec_r; erewrite mbnd_eq; [|reflexivity]; rewrite <- E; rewrite Hfl; reflexivity]. erewrite mbnd_eq; [|reflexivity]. erewrite mbnd_eq; [|by eapply replay_run]. fold s2.
    erewrite (mbnd_eq extern_output_length_r _ s2 s2 (Z.of_nat (length B) + 20)); [|unfold extern_output_length_r; erewrite mbnd_eq; [|reflexivity]; cbn [out s2 set_trail set_cx]; rewrite Hu; fold (out_bytes (out s1)); rewrite Hlen; same; lia]. erewrite mbnd_eq; [|reflexivity].
    unfold budget in Hl. cbn [length] in Hl. cbn [size_32 size_64 s2 set_trail set_cx]. rewrite Z1, Z2, !(proj2 (Z.leb_gt _ _)) by (change (Z.shiftl 1 32) with (2 ^ 32); lia). cbn [orb]. erewrite mbnd_eq; [|reflexivity]. erewrite mbnd_eq; [|reflexivity]. change (obj_counter s2) with (obj_counter s1). rewrite Z3. replace (Z.of_nat (length B) + 20 - 5 * 4) with (Z.of_nat (length B)) by lia. done. }
  set (s4 := set_out (Output false [] [] 0) (set_out o3 s2)). exists s4, B, O, a. split_and!; try done; [|apply (x_nodup _ _ _ _ V)|lia..].
  unfold caml_output_value_to_malloc_r. erewrite mbnd_eq; [|unfold init_extern_output_r; rewrite Hmalloc; reflexivity]. erewrite mbnd_eq; [|exact Ev]. rewrite Hmalloc. erewrite mbnd_eq; [|reflexivity]. erewrite mbnd_eq; [|reflexivity].
  erewrite (mbnd_eq free_extern_output_r _ _ s4 tt); [|unfold free_extern_output_r; erewrite mbnd_eq; [|reflexivity]; cbn [out set_out]; rewrite Hu3; erewrite mbnd_eq; [|reflexivity]; unfold extern_free_stack_r, mmodify; cbn [extern_stacks set_out s2 set_trail set_cx]; by rewrite K1]. cbn [out set_out]. rewrite Hp. done.
Qed.
End Traverse.
End MarshalOut.
