(* ===== verification/Roundtrip.v ===== *)
(** The round trip: what is marshalled is read back as a copy.

    Also here: the state of a traversal that meets a pointer into the middle of a
    closure. *)

From S2P Require Import Prelude Mlvalues Context Alloc Str Stacks Array Hash Compare Extern Intern Marshal MarshalOut.
Import Context Alloc Str Array.

Module Roundtrip.
Import Extern Intern Marshal MarshalOut.

(** ** Reading a message *)

Section Input.
Context `{Runtime} (c0 : context) (G : gmap Z node) (v0 : Z) (HG : graph_ok c0 G).
Context `{Chunks} (malloc : Z → bool) (Hmalloc : ∀ n, malloc n = true) (oom : Z) (md5_block : Z → Z → list Z) (fco : list Z → option (Z * (Z → IM Z))) (last_id placeholder : Z).

(** The block that holds all the objects. *)
Definition alloc_objects (wosize : Z) : CM Z :=
  if wosize <=? Max_young_wosize then let* (b, _) := caml_alloc_small_r wosize String_tag [] in mreturn b else caml_alloc_shr_r wosize String_tag.

(** A block at [b] that takes [whsize] words with its header, with memory as in
    [m] elsewhere. *)
Record new_area (m : gmap Z Z) (cI : context) (b whsize col : Z) : Prop := {
  na_aligned : b mod 8 = 0;
  na_header : ∃ hd, words cI !! (b - 8) = Some hd ∧ Color_hd hd = col;
  na_mapped a : b - 8 <= a < b - 8 + 8 * whsize → a mod 8 = 0 → is_Some (words cI !! a);
  na_frame a : a < b - 8 ∨ b - 8 + 8 * whsize <= a → words cI !! a = m !! a
}.

(** The objects [O] of [G] have copies from address [b] on, in that order. *)
Record copied (O : list Z) (b R col : Z) (cI : context) (m : gmap Z Z) : Prop := {
  cp_header k v n : O !! k = Some v → G !! v = Some n → m !! (daddr G O (b - 8) k - 8) = Some (Make_header (wosize n) (node_tag n) col);
  cp_bytes k v n : O !! k = Some v → G !! v = Some n → bytes_at m (daddr G O (b - 8) k) (raw_bytes n);
  cp_fields k v n i w : O !! k = Some v → G !! v = Some n → node_fields n !! i = Some w → ∃ w', m !! (daddr G O (b - 8) k + 8 * Z.of_nat i) = Some w' ∧ val_rel c0 G O (b - 8) cI w w';
  cp_frame a : a ≠ R → a < b - 8 ∨ b - 8 + 8 * tot G O <= a → m !! a = words cI !! a
}.

Lemma built_copied O b R col cI m : built c0 G v0 O (b - 8) R col cI m (length O) [] → copied O b R col cI m ∧ ∃ w', m !! R = Some w' ∧ val_rel c0 G O (b - 8) cI v0 w'.
Proof.
  intros [U1 U2 U3 U4 U5 U6]. split; [|by apply (U5 Root v0 I eq_refl), not_elem_of_nil]. split.
  - intros k v n Hk Hn. eapply U3; [by eapply lookup_lt_Some|by split].
  - intros k v n Hk Hn. eapply U4; [by eapply lookup_lt_Some|by split].
  - intros k v n i w Hk Hn Hi. apply (U5 (Cell k i) w); [by eapply lookup_lt_Some|cbn; by rewrite Hk, Hn|apply not_elem_of_nil].
  - done.
Qed.

Notation alloc := (intern_alloc_r malloc oom).

Definition reset_id (i : istate) : istate := if camlinternaloo_last_id i =? -1 then set_last_id 0 i else i.

Lemma alloc_none_run i n : alloc 0 n i = inr (set_table None (icounter i) (set_block 0 (intern_header i) 0 (reset_id i)), tt).
Proof. unfold intern_alloc_r, reset_id. erewrite mbnd_eq; [|reflexivity]. destruct (_ =? -1); (erewrite mbnd_eq; [|reflexivity]); done. Qed.

Lemma alloc_block_run i wh n cI b hd : 2 <= wh → wh - 1 <= Max_wosize → 0 < n → alloc_objects (wh - 1) (icx i) = inr (cI, b) → words cI !! (b - 8) = Some hd →
  alloc wh n i = inr (set_table (Some (replicate (Z.to_nat n) 0)) 0 (set_dest (b - 8) (Color_hd hd) (set_block b hd 0 (set_icx cI (reset_id i)))), tt).
Proof.
  intros H1 H2 Hn Ha Hh. unfold intern_alloc_r. erewrite mbnd_eq; [|reflexivity]. set (i0 := reset_id i). assert (icx i0 = icx i) as Ei by (unfold i0, reset_id; by destruct (_ =? -1)). erewrite (mbnd_eq _ _ i i0 tt); [|unfold i0, reset_id; by destruct (_ =? -1)].
  rewrite (proj2 (Z.eqb_neq wh 0)), (proj2 (Z.ltb_ge Max_wosize _)) by lia. cbv zeta. set (i1 := set_icx cI i0).
  erewrite (mbnd_eq _ _ i0 (set_dest (b - 8) (Color_hd hd) (set_block b hd 0 i1)) tt).
  - rewrite Hmalloc, andb_false_r. erewrite mbnd_eq; [|reflexivity]. by rewrite (proj2 (Z.ltb_lt 0 n)).
  - erewrite mbnd_eq; [|reflexivity]. rewrite (proj2 (Z.eqb_neq (wh - 1) 0)) by lia. unfold alloc_objects in Ha.
    erewrite (mbnd_eq _ _ i0 i1 b).
    + erewrite mbnd_eq; [|rewrite (ilift_run _ _ cI hd); [reflexivity|]; unfold ld, Hd_val; by rewrite (Hh : words (icx i1) !! _ = _)]. done.
    + destruct (wh - 1 <=? Max_young_wosize).
      * unfold mbnd, ilift in *. rewrite Ei. destruct (caml_alloc_small_r _ _ _ _) as [|[c [y rs]]]; [done|]. by injection Ha as -> ->.
      * apply ilift_run. by rewrite Ei.
Qed.

(** What the allocation of the objects [O] in the context [c] gives. *)
Definition allocates (c : context) (O : list Z) (R : Z) (cI : context) (b col : Z) : Prop :=
  match O with
  | [] => cI = c
  | _ => alloc_objects (tot G O - 1) c = inr (cI, b) ∧ new_area (words c) cI b (tot G O) col ∧ (R + 8 <= b - 8 ∨ b - 8 + 8 * tot G O <= R)
  end.

Definition ready_in (i : istate) : Prop := intern_stack i = [] ∧ 256 <= intern_stack_size i.

Notation rec := (intern_rec_r malloc oom md5_block fco last_id placeholder).

Lemma stored_root i R O b col cI B rest fuel : (R + 8 <= b - 8 ∨ b - 8 + 8 * tot G O <= R) → b mod 8 = 0 → Forall (λ v, is_Some (G !! v)) O → tot G O < 2 ^ 25 → enc c0 G v0 [] [Root] B O → (length B < fuel)%nat →
  ready_in i → intern_extra_block i = 0 → icx i = cI → intern_color i = col → (O ≠ [] → intern_obj_table i = Some (replicate (length O) 0) ∧ icounter i = 0 ∧ intern_dest i = b - 8) → intern_src i = B ++ rest →
  (∀ a, b - 8 <= a < b - 8 + 8 * tot G O → a mod 8 = 0 → is_Some (words cI !! a)) → is_Some (words cI !! R) →
  ∃ i' w', rec fuel R i = inr (i', tt) ∧ icx i' = set_words (words (icx i')) cI ∧ intern_src i' = rest ∧ intern_extra_block i' = 0 ∧ copied O b R col cI (words (icx i')) ∧ words (icx i') !! R = Some w' ∧ val_rel c0 G O (b - 8) cI v0 w'.
Proof.
  intros HR Hb HO Htot Henc Hfuel [Hs1 Hs2] Hx Hc Hcol Htab Hsrc Hmap HRm. assert ((b - 8) mod 8 = 0) as Hb8 by (Z.to_euclidean_division_equations; lia).
  destruct (ReadItems_run malloc Hmalloc oom i R 1 ltac:(lia) Hs2 ltac:(rewrite Hs1; cbn; lia) ltac:(rewrite Hs1; cbn; lia)) as (sz & ini & E1 & Z1 & Z2). rewrite Hs1 in E1, Z2. set (i1 := set_istack _ _ _ _) in E1.
  assert (engine G v0 O (b - 8) R col cI i1 0 [Root]) as He.
  { split; cbn; try done.
    - rewrite Hc. by destruct cI.
    - intros Hne. destruct (Htab Hne) as (T1 & _). eexists. split_and!; [exact T1|apply length_replicate|lia].
    - intros Hne. apply (Htab Hne).
    - intros Hne. destruct (Htab Hne) as (_ & _ & ->). unfold daddr. change (tot G (take 0 O)) with 0. lia.
    - change ([R + 8 * Z.of_nat 0] = [R]). f_equal. lia.
    - apply Forall_singleton. done.
    - split; [apply NoDup_singleton|]. apply Forall_singleton. split; [done|]. by eexists. }
  assert (built c0 G v0 O (b - 8) R col cI (words (icx i1)) 0 [Root]) as Hbu.
  { split; cbn; rewrite ?Hc; try done; try (intros; lia). intros [|k j] w Hv _ Hn; [set_solver|cbn in Hv; lia]. }
  destruct (intern_reads c0 G v0 HG O HO (b - 8) R col cI HR Hb8 malloc Hmalloc oom md5_block fco last_id placeholder Htot [] [Root] B O Henc eq_refl i1 rest fuel He Hbu Hsrc Hfuel) as (i' & E2 & He' & Hbu' & Hsrc').
  destruct (built_copied O b R col cI _ Hbu') as (Hcp & w' & Hw' & Hr). exists i', w'. split_and!; try done.
  - unfold intern_rec_r. erewrite mbnd_eq; [|exact E1]. exact E2.
  - apply (r_ctx _ _ _ _ _ _ _ _ _ _ He').
  - apply (r_extra _ _ _ _ _ _ _ _ _ _ He').
Qed.

Notation input := (caml_input_value_from_block_r malloc oom md5_block fco last_id placeholder).

Lemma tot_ge_2 O : Forall (λ v, is_Some (G !! v)) O → O ≠ [] → 2 <= tot G O.
Proof.
  intros [|v l [n Hn] _]; [done|]. intros _. cbn [tot]. unfold node_words. rewrite Hn. pose proof (n_size _ _ _ _ (g_node _ _ HG v n Hn)). pose proof (tot_pos c0 G HG l). lia.
Qed.

(** The state after the allocation. *)
Lemma alloc_run i O R cI b col : ready_in i → Forall (λ v, is_Some (G !! v)) O → tot G O < 2 ^ 25 → allocates (icx i) O R cI b col → is_Some (words (icx i) !! R) →
  ∃ i1 b1 col1, alloc (tot G O) (Z.of_nat (length O)) i = inr (i1, tt) ∧ (O ≠ [] → b1 = b ∧ col1 = col) ∧ (R + 8 <= b1 - 8 ∨ b1 - 8 + 8 * tot G O <= R) ∧ b1 mod 8 = 0 ∧ ready_in i1 ∧ intern_extra_block i1 = 0 ∧ icx i1 = cI ∧ intern_color i1 = col1 ∧
    (O ≠ [] → intern_obj_table i1 = Some (replicate (length O) 0) ∧ icounter i1 = 0 ∧ intern_dest i1 = b1 - 8) ∧ intern_src i1 = intern_src i ∧ (∀ a, b1 - 8 <= a < b1 - 8 + 8 * tot G O → a mod 8 = 0 → is_Some (words cI !! a)) ∧ is_Some (words cI !! R).
Proof.
  intros Hi HO Htot Hal HR. assert (ready_in (reset_id i) ∧ intern_src (reset_id i) = intern_src i ∧ icx (reset_id i) = icx i) as (I1 & I2 & I3) by (unfold reset_id, ready_in; by destruct (_ =? -1)). pose proof (tot_ge_2 O HO) as H2. destruct O as [|v O].
  - cbn [allocates tot length] in *. subst cI. eexists _, (8 * (R / 8)), _. split_and!; [apply alloc_none_run|done|Z.to_euclidean_division_equations; lia|rewrite Z.mul_comm; by apply Z_mod_mult|exact I1|done|done|reflexivity|done|done|intros; lia|done].
  - destruct Hal as (Ha & [N1 (hd & N2 & N3) N4 N5] & Hout). specialize (H2 ltac:(done)). eexists _, b, col. split_and!; [apply (alloc_block_run _ _ _ cI b hd); [done|unfold Max_wosize; lia|cbn; lia|done|done]|done|done|done|exact I1|done|done|done| |done|done|rewrite N5 by lia; done].
    intros _. cbn [intern_obj_table icounter intern_dest set_table set_dest]. by rewrite Nat2Z.id.
Qed.

Lemma copied_none b b1 R col col1 cI m : copied [] b1 R col1 cI m → copied [] b R col cI m.
Proof. intros [C1 C2 C3 C4]. split; try done. intros a Ha _. apply C4; [done|]. cbn [tot]. lia. Qed.

Lemma input_run i O B R cI b col a fuel : enc c0 G v0 [] [Root] B O → Forall (λ v, is_Some (G !! v)) O → tot G O < 2 ^ 25 → 0 <= a < 2 ^ 32 → Z.of_nat (length B) < 2 ^ 32 → ready_in i → allocates (icx i) O R cI b col → is_Some (words (icx i) !! R) → (length B < fuel)%nat →
  let data := message B (Z.of_nat (length O)) a (tot G O) in
  ∃ i' w', input fuel R data (Z.of_nat (length data)) i = inr (i', w') ∧ icx i' = set_words (words (icx i')) cI ∧ val_rel c0 G O (b - 8) cI v0 w' ∧ copied O b R col cI (words (icx i')).
Proof.
  intros Henc HO Htot Ha HB Hi Hal HR Hfuel data. pose proof (length_tot c0 G HG O HO) as HlO. pose proof (tot_pos c0 G HG O) as Htp.
  set (i0 := set_src B i). destruct (alloc_run i0 O R cI b col Hi HO Htot Hal HR) as (i1 & b1 & col1 & E1 & Hb1 & A1 & A2 & A3 & A4 & A5 & A6 & A7 & A8 & A9 & A10).
  destruct (stored_root i1 R O b1 col1 cI B [] fuel A1 A2 HO Htot Henc Hfuel A3 A4 A5 A6 A7) as (i2 & w' & E2 & B1 & B2 & B3 & B4 & B5 & B6); [by rewrite A8, app_nil_r|done|done|]. exists i2, w'. split_and!; [|done| |].
  - unfold caml_input_value_from_block_r. assert (Z.of_nat (length data) = 5 * 4 + Z.of_nat (length B)) as -> by (unfold data, message; rewrite !length_app; cbn [length be32]; lia). erewrite mbnd_eq; [|reflexivity]. erewrite mbnd_eq; [|apply read32u_run; [|reflexivity]; done]. change (negb (Intext_magic_number =? Intext_magic_number)) with false. erewrite mbnd_eq; [|reflexivity]. erewrite mbnd_eq; [|apply read32u_run; [|reflexivity]; lia].
    rewrite u64_small, Z.ltb_irrefl by lia_w. erewrite mbnd_eq; [|reflexivity].
    unfold input_val_from_block_r. erewrite mbnd_eq; [|apply read32u_run; [|reflexivity]; lia]. erewrite mbnd_eq; [|apply read32u_run; [|reflexivity]; lia]. erewrite mbnd_eq; [|apply read32u_run; [|reflexivity]; lia]. erewrite mbnd_eq; [|exact E1]. erewrite mbnd_eq; [|exact E2].
    erewrite (mbnd_eq (intern_add_to_heap_r _) _ i2 i2 tt); [|unfold intern_add_to_heap_r; erewrite mbnd_eq; [|reflexivity]; by rewrite B3]. rewrite (ilift_run _ i2 (icx i2) w'); [by destruct i2|]. unfold ld. by rewrite B5.
  - destruct (decide (O = [])) as [->|Hne]; [|destruct (Hb1 Hne) as [<- _]; done]. destruct B6 as [B6|[B6|(k & Hk & _)]]; [by left|by right; left|done].
  - destruct (decide (O = [])) as [->|Hne]; [by eapply copied_none|]. by destruct (Hb1 Hne) as [-> ->].
Qed.
End Input.

(** ** The round trip *)

Section Theorems.
Context `{Runtime} `{Chunks} (malloc : Z → bool) (oom : Z) (md5_block : Z → Z → list Z) (Custom_ops_val : context → Z → custom_serializer) (fco : list Z → option (Z * (Z → IM Z))) (last_id placeholder : Z).

(** The blocks that [v] leads to. *)
Inductive reachable (G : gmap Z node) (v : Z) : Z → Prop :=
  | reach_root : reachable G v v
  | reach_field u n i w : reachable G v u → G !! u = Some n → node_fields n !! i = Some w → reachable G v w.

Lemma contents_reachable G v0 O s w : Forall (reachable G v0) O → contents G v0 O s = Some w → reachable G v0 w.
Proof. intros HO Hs. destruct s as [|k i]; cbn in Hs; [injection Hs as <-; constructor|]. destruct (O !! k) as [v|] eqn:Ek; [|done]. destruct (G !! v) as [n|] eqn:En; [|done]. rewrite Forall_lookup in HO. eapply reach_field; eauto. Qed.

Lemma enc_reachable c0 G v0 O P B O' : enc c0 G v0 O P B O' → Forall (reachable G v0) O → Forall (reachable G v0) O'.
Proof. induction 1; intros HO; try done; try (by apply IHenc); apply IHenc, Forall_app; (split; [done|]); apply Forall_singleton; by eapply contents_reachable. Qed.

(** The words of all the blocks. *)
Definition heap_words (G : gmap Z node) : Z := tot G (map fst (map_to_list G)).

Lemma tot_submseteq c0 G O L : graph_ok c0 G → O ⊆+ L → tot G O <= tot G L.
Proof. intros HG. induction 1 as [|x O L _ IH|x y O|x O L _ IH|O L K _ IH1 _ IH2]; cbn [tot]; try lia. pose proof (node_words_pos c0 G HG x). lia. Qed.

Lemma tot_heap_words c0 G O : graph_ok c0 G → NoDup O → Forall (λ v, is_Some (G !! v)) O → tot G O <= heap_words G.
Proof.
  intros HG HN HO. apply (tot_submseteq c0); [done|]. apply NoDup_submseteq; [done|]. intros v Hv. rewrite Forall_forall in HO. destruct (HO v Hv) as [n Hn]. apply (list_elem_of_fmap_2' fst _ (v, n)); [by apply elem_of_map_to_list|done].
Qed.

(** Blocks of up to [n] words, with their header, can be allocated apart from
    [R]. *)
Definition can_allocate (c : context) (R n : Z) : Prop := ∀ whsize, 2 <= whsize <= n → ∃ cI b col,
  alloc_objects (whsize - 1) c = inr (cI, b) ∧ new_area (words c) cI b whsize col ∧ (R + 8 <= b - 8 ∨ b - 8 + 8 * whsize <= R).

Lemma can_allocate_objects c0 G c R O : graph_ok c0 G → NoDup O → Forall (λ v, is_Some (G !! v)) O → can_allocate c R (heap_words G) → ∃ cI b col, allocates G c O R cI b col.
Proof.
  intros HG HN HO Hc. pose proof (tot_ge_2 c0 G HG O HO) as H2. pose proof (tot_heap_words c0 G O HG HN HO) as Hle. destruct O as [|v O]; [by exists c, 0, 0|]. apply (Hc (tot G (v :: O))). split; [by apply H2|done].
Qed.

(** C6. Marshalling ([caml_output_value_to_malloc_r]) a value whose blocks are a
    graph [G] of fewer than 2^24 words, with sharing and cycles, ends, as long as
    [malloc] succeeds, and leaves the memory as it was; the bytes it returns, given to
    [caml_input_value_from_block_r] in any context that can allocate, give a value
    with the same integers, and a copy of each block reached from the value with
    the same tag, size and bytes and with fields related in the same way: two
    fields of the copy are the same block exactly when those of the source are. *)
Theorem marshal_roundtrip c0 G v0 fl fuel s i R fuel' : graph_ok c0 G → value_ok c0 G v0 → (∀ m a, caml_page_table_lookup_r (set_words m c0) a = caml_page_table_lookup_r c0 a) → (∀ n, malloc n = true) → Z.land fl NO_SHARING = 0 →
  2 * weight G [] < 2 ^ 25 → 1 + weight G [] <= Z.of_nat fuel → 17 * (1 + weight G []) < Z.of_nat fuel' →
  idle c0 s → ready_in i → is_Some (words (icx i) !! R) → can_allocate (icx i) R (heap_words G) →
  ∃ s' data O i' w' cI b col,
    caml_output_value_to_malloc_r malloc oom md5_block Custom_ops_val fuel v0 fl s = inr (s', (data, Z.of_nat (length data))) ∧ cx s' = c0 ∧
    caml_input_value_from_block_r malloc oom md5_block fco last_id placeholder fuel' R data (Z.of_nat (length data)) i = inr (i', w') ∧ icx i' = set_words (words (icx i')) cI ∧
    NoDup O ∧ Forall (reachable G v0) O ∧ allocates G (icx i) O R cI b col ∧ val_rel c0 G O (b - 8) cI v0 w' ∧ copied c0 G O b R col cI (words (icx i')).
Proof.
  intros HG Hv0 Harea Hmalloc Hfl Hw Hfuel Hfuel' Hidle Hi HR Hcan. destruct (output_run c0 G v0 HG Hv0 Harea malloc Hmalloc oom md5_block Custom_ops_val fuel fl s Hidle Hfl ltac:(lia) Hfuel) as (s' & B & O & a & E & Henc & HN & HO & Hc & _ & Ha & Ht & Hl). unfold budget in Hl. cbn [length] in Hl.
  destruct (can_allocate_objects c0 G (icx i) R O HG HN HO Hcan) as (cI & b & col & Hal). destruct (input_run c0 G v0 HG malloc Hmalloc oom md5_block fco last_id placeholder i O B R cI b col a fuel' Henc HO Ht Ha ltac:(lia) Hi Hal HR ltac:(lia)) as (i' & w' & E' & Hcx & Hv & Hcp).
  set (data := message B (Z.of_nat (length O)) a (tot G O)) in *. assert (length data = (20 + length B)%nat) as Hlen by done. exists s', data, O, i', w', cI, b, col. split_and!; try done; [rewrite E; same; f_equal; lia|by eapply enc_reachable].
Qed.
End Theorems.

(** The copy of a block. *)
Lemma val_rel_block `{Runtime} {c0 G O base cI w w' n} : graph_ok c0 G → G !! w = Some n → val_rel c0 G O base cI w w' → ∃ k, O !! k = Some w ∧ w' = daddr G O base k.
Proof.
  intros HG Hn [[Hl _]|[(hd & Ha & _)|Hk]]; [| |done].
  - rewrite (aligned_block w (n_aligned _ _ _ _ (g_node _ _ HG w n Hn))) in Hl. done.
  - pose proof (n_size _ _ _ _ (g_node _ _ HG w n Hn)) as Hz. destruct (a_apart _ _ _ _ Ha w n Hn); lia.
Qed.

(** ** Witnesses *)

(** A block with two pointers to a second one, which points back, and has a
    string ("abc") and a float. *)
Definition ex_nodes : list (Z * node) := [
  (10008, Node (Make_header 3 0 Caml_white) (Fields [10040; 10040; Val_long 5]));
  (10040, Node (Make_header 3 1 Caml_black) (Fields [10008; 10072; 10088]));
  (10072, Node (Make_header 1 String_tag Caml_white) (Bytes [97; 98; 99]));
  (10088, Node (Make_header 1 Double_tag Caml_white) (Doubles [0; 0; 0; 0; 0; 0; 240; 63]))].
Definition ex_graph : gmap Z node := list_to_map ex_nodes.
Definition ex_memory : gmap Z Z :=
  stores (stores (<[3000 := 1]> ∅) 7904 (replicate 12 0)) 10000 [Make_header 3 0 Caml_white; 10040; 10040; Val_long 5; Make_header 3 1 Caml_black; 10008; 10072; 10088;
    Make_header 1 String_tag Caml_white; 4 * 2 ^ 56 + 99 * 2 ^ 16 + 98 * 2 ^ 8 + 97; Make_header 1 Double_tag Caml_white; 63 * 2 ^ 56 + 240 * 2 ^ 48].
Definition ex_source : context := ex_context ex_memory ∅.

Lemma bytes_at_check m a l : forallb (λ p, bool_decide (load_byte m (a + Z.of_nat (fst p)) = Some (snd p))) (zip (seq 0 (length l)) l) = true → bytes_at m a l.
Proof.
  intros Hc i b Hi. rewrite forallb_forall in Hc. specialize (Hc (i, b)). cbn in Hc. eapply bool_decide_eq_true_1, Hc. apply list_elem_of_In, list_elem_of_lookup. exists i. rewrite lookup_zip_with. rewrite (lookup_seq_lt 0 (length l) i) by (by eapply lookup_lt_Some). by rewrite Hi.
Qed.

Existing Instance ex_runtime.

Lemma ex_value w : w ∈ [10040; Val_long 5; 10008; 10072; 10088] → value_ok ex_source ex_graph w.
Proof.
  intros Hw. destruct (decide (w = Val_long 5)) as [->|Hne]; [left; by split|]. right. right. repeat (apply elem_of_cons in Hw as [->|Hw]; [try done; vm_compute; by eexists|]). by apply not_elem_of_nil in Hw.
Qed.

Lemma ex_graph_ok : graph_ok ex_source ex_graph.
Proof.
  split.
  - intros v n Hn%elem_of_list_to_map_2. unfold ex_nodes in Hn. repeat (apply elem_of_cons in Hn as [[= -> ->]|Hn]; [split; [done|by vm_compute|done|vm_compute; reflexivity|by vm_compute|by vm_compute|by vm_compute|]|]); [..|by apply not_elem_of_nil in Hn].
    1-2: split_and!; [by vm_compute|by vm_compute|repeat (split; [vm_compute; reflexivity|]); done|repeat (apply Forall_cons; split; [apply ex_value; set_solver|]); done].
    + split; [by vm_compute|]. split; [done|by eexists; split; vm_compute|done|apply bytes_at_check; by vm_compute|repeat constructor; lia].
    + split_and!; [left; by vm_compute|apply bytes_at_check; by vm_compute|by vm_compute|repeat constructor; lia].
  - intros v n v' n' Hn%elem_of_list_to_map_2 Hn'%elem_of_list_to_map_2 Hne. unfold ex_nodes in *. repeat (apply elem_of_cons in Hn as [[= -> ->]|Hn]; [repeat (apply elem_of_cons in Hn' as [[= -> ->]|Hn']; [first [done|vm_compute; by (left + right)]|]); by apply not_elem_of_nil in Hn'|]). by apply not_elem_of_nil in Hn.
Qed.

Definition ex_chunks : Chunks := {|
  caml_alloc_for_heap := λ _, mreturn 0; caml_free_for_heap := λ _, mreturn tt; caml_allocation_color_r := λ _ _, Caml_white;
  caml_make_free_blocks_r := λ _ _ _ _, mreturn tt; caml_add_to_heap_r := λ _, mreturn tt |}.
Definition ex_out : xstate := XState ex_source false false false [[]] (Output false [] [] 0) (XStacks (replicate 256 (XItem 0 0)) None 0) 0 0 0 [].
Definition ex_in : istate := IState ex_source [] 0 0 None 0 [] 256 true 0 0 0 0 [].

Lemma ex_can_allocate : can_allocate ex_source 3000 12.
Proof.
  intros n Hn. set (b := 8008 - 8 * n). assert (∀ a, b - 8 <= a < b - 8 + 8 * n → a mod 8 = 0 → is_Some (words ex_source !! a)) as Hm.
  { intros a Ha H8. assert (∃ x, a = 7904 + 8 * Z.of_nat x ∧ (x < 12)%nat) as (x & -> & Hx) by (exists (Z.to_nat ((a - 7904) / 8)); unfold b in *; Z.to_euclidean_division_equations; lia). do 12 (destruct x as [|x]; [vm_compute; by eexists|]). lia. }
  assert (room ex_source (n - 1) b) as Hr.
  { split; [unfold Bhsize_wosize, Bsize_wsize, Whsize_wosize, b; change (caml_young_ptr ex_source) with 8000; lia|change (caml_young_start ex_source) with 6000; unfold b; lia| |unfold b; Z.to_euclidean_division_equations; lia]. intros k Hk. apply Hm; unfold padd, b; [lia|Z.to_euclidean_division_equations; lia]. }
  exists (allocated ex_source (n - 1) String_tag b), b. eexists. split_and!; [|split|left; unfold b; lia].
  - unfold alloc_objects. rewrite (proj2 (Z.leb_le _ _)) by (unfold Max_young_wosize; lia). erewrite mbnd_eq; [|apply alloc_small_eq; [lia|done]]. done.
  - apply Hr.
  - eexists. split; [apply lookup_insert_eq|reflexivity].
  - intros a Ha H8. unfold allocated. cbn [words set_words]. destruct (decide (a = b - 8)) as [->|]; [rewrite lookup_insert_eq; by eexists|]. rewrite lookup_insert_ne by done. by apply Hm.
  - intros a Ha. unfold allocated. cbn [words set_words]. by rewrite lookup_insert_ne by lia.
Qed.

Lemma ex_first : ex_graph !! 10008 = Some (Node (Make_header 3 0 Caml_white) (Fields [10040; 10040; Val_long 5])).
Proof. vm_compute. reflexivity. Qed.
Lemma ex_second : ex_graph !! 10040 = Some (Node (Make_header 3 1 Caml_black) (Fields [10008; 10072; 10088])).
Proof. vm_compute. reflexivity. Qed.

(** The copy has the sharing and the cycle of the source. *)
Lemma marshal_roundtrip_witness : ∃ s' data i' w' f,
  @caml_output_value_to_malloc_r ex_runtime (λ _, true) 0 (λ _ _, []) (λ _ _, Custom [] None None) 30 10008 0 ex_out = inr (s', (data, Z.of_nat (length data))) ∧ cx s' = ex_source ∧
  @caml_input_value_from_block_r ex_runtime ex_chunks (λ _, true) 0 (λ _ _, []) (λ _, None) 0 0 200 3000 data (Z.of_nat (length data)) ex_in = inr (i', w') ∧
  words (icx i') !! (w' + 0) = Some f ∧ words (icx i') !! (w' + 8) = Some f ∧ words (icx i') !! (f + 0) = Some w'.
Proof.
  destruct (@marshal_roundtrip ex_runtime ex_chunks (λ _, true) 0 (λ _ _, []) (λ _ _, Custom [] None None) (λ _, None) 0 0 ex_source ex_graph 10008 0 30 ex_out ex_in 3000 200) as (s' & data & O & i' & w' & cI & b & col & H1 & H2 & H3 & H4 & H5 & H6 & H7 & H8 & H9); [apply ex_graph_ok|apply ex_value; set_solver|done|done|done|by vm_compute|by vm_compute|by vm_compute|done|done|by eexists|exact ex_can_allocate|].
  destruct (val_rel_block ex_graph_ok ex_first H8) as (k & Hk & ->). destruct (cp_fields _ _ _ _ _ _ _ _ H9 k 10008 _ 0 10040 Hk ex_first eq_refl) as (f & F1 & F2). destruct (val_rel_block ex_graph_ok ex_second F2) as (j & Hj & ->).
  destruct (cp_fields _ _ _ _ _ _ _ _ H9 k 10008 _ 1 10040 Hk ex_first eq_refl) as (f1 & G1 & G2). destruct (val_rel_block ex_graph_ok ex_second G2) as (j1 & Hj1 & ->). assert (j1 = j) as -> by (by eapply NoDup_lookup).
  destruct (cp_fields _ _ _ _ _ _ _ _ H9 j 10040 _ 0 10008 Hj ex_second eq_refl) as (f2 & K1 & K2). destruct (val_rel_block ex_graph_ok ex_first K2) as (k1 & Hk1 & ->). assert (k1 = k) as -> by (by eapply NoDup_lookup).
  eexists s', data, i', _, _. split_and!; [exact H1|exact H2|exact H3|exact F1|exact G1|exact K1].
Defined.

(** ** Infix pointers *)

(** A closure of two functions at 10056, a block at 10008 with a pointer to the
    second one, 1 and 2, and a block at 10040 with the pointer alone. *)
Definition ex_infix : xstate :=
  XState (ex_context (stores ∅ 10000 [Make_header 3 0 Caml_white; 10072; Val_long 1; Val_long 2; Make_header 1 0 Caml_white; 10072;
    Make_header 4 Closure_tag Caml_white; 500; Make_header 2 Infix_tag Caml_white; 504; Val_long 7]) ∅) false true false [[]] (Output false [] [] 0)
    (XStacks (replicate 256 (XItem 0 0)) None 0) 0 0 0 [Fragment 480 600 (replicate 16 0) true].
Definition ex_marshal (v : Z) : XM (list Z * Z) := @caml_output_value_to_malloc_r ex_runtime (λ _, true) 0 (λ _ _, []) (λ _ _, Custom [] None None) 30 v CLOSURES.

(** The nested call for the closure starts at [extern_stack] again, where the
    fields of the outer block are waiting: they are lost, and the outer loop goes
    on after the end of the closure. *)
Example infix_fields_lost : ex_marshal 10008 ex_infix = inl (CFault (BadLoad 10088)).
Proof. vm_compute. reflexivity. Qed.

Example infix_alone : match ex_marshal 10040 ex_infix with inr (_, (_, n)) => n | inl _ => 0 end = 77.
Proof. vm_compute. reflexivity. Qed.
End Roundtrip.
