(* ===== verification/Io.v ===== *)
(** Buffered channels (byterun/io.c, io.h).

    The state [io] holds one [struct channel], the state of the operating
    system, and the channel lock of the default hooks.  Pointers into the
    buffer are offsets from [buff], so that [end] is [IO_BUFFER_SIZE]; [max] is
    [None] for [NULL], the mark of an output channel.  The system calls and the
    blocking sections are the class [Kernel]; [FileLaws] is what POSIX
    says of the calls for a seekable file.  Signal handlers run when a blocking
    section is entered or left, while the channel is locked: they may raise an
    exception, and may lock and unlock channels themselves, which changes the
    one variable that all channels share.  What they do to the contents of the
    channel [chan] is not modelled.  An exception is a value of [exn], with
    the state at the time it is raised: its bucket is built by fail.c.  An
    OCaml string is the list of its bytes.

    [fuel] bounds the loops: interrupted system calls, partial writes. *)

From S2P Require Import Prelude Mlvalues.

Module Io.

(** ** The operating system *)

Inductive errno : Type := EINTR | EAGAIN | EWOULDBLOCK | EBADF | EOVERFLOW | Errno (n : Z).
Inductive whence : Type := SEEK_SET | SEEK_CUR | SEEK_END.

Inductive exn : Type :=
  | Sys_error (e : errno)
  | Sys_blocked_io
  | End_of_file
  | Failure (msg : list Z)
  | Signal_handler (v : Z).

(** What a signal handler does to [the_currently_locked_channel]: a primitive that
    it calls locks or unlocks a channel, or an exception is raised from C. *)
Inductive lock_call : Type := CallLock | CallUnlock | CallRaise.

Class Kernel : Type := {
  os : Type;
  sys_write : Z → list Z → os → os * (errno + Z);
  sys_read : Z → Z → os → os * (errno + list Z);
  sys_lseek : Z → Z → whence → os → os * (errno + Z);
  sys_close : Z → os → os * option errno;
  (** The handlers that run before and after a system call: the exception that
      escapes from them, and the calls they make. *)
  enter_blocking_section : os → os * option exn;
  leave_blocking_section : os → os * option exn;
  enter_calls : os → list lock_call;
  leave_calls : os → list lock_call
}.

(** ** Channels *)

Definition IO_BUFFER_SIZE : Z := 65536.
Definition INT_MAX : Z := 2147483647.

Record channel : Type := Chan {
  fd : Z;
  offset : Z;
  curr : Z;
  max : option Z;
  refcount : Z;
  buff : list Z
}.

Section Operations.
Context `{Kernel}.

(** [the_currently_locked_channel] is not [NULL] when [locked]; [depth] counts
    the acquisitions of [caml_channel_mutex], the one recursive mutex of all
    channels, less its releases. *)
Record io : Type := Io {
  chan : channel;
  sys : os;
  locked : bool;
  depth : Z
}.

Inductive io_stop : Type :=
  | Raised (e : exn) (s : io)
  | IoFault (f : fault).

Abbreviation IOM := (M io io_stop).

Definition set_chan (f : channel → channel) : IOM unit := mmodify (λ s, Io (f (chan s)) (sys s) (locked s) (depth s)).
Definition set_curr (x : Z) : IOM unit := set_chan (λ c, Chan (fd c) (offset c) x (max c) (refcount c) (buff c)).
Definition set_max (x : Z) : IOM unit := set_chan (λ c, Chan (fd c) (offset c) (curr c) (Some x) (refcount c) (buff c)).
Definition set_offset (x : Z) : IOM unit := set_chan (λ c, Chan (fd c) x (curr c) (max c) (refcount c) (buff c)).
Definition set_buff (x : list Z) : IOM unit := set_chan (λ c, Chan (fd c) (offset c) (curr c) (max c) (refcount c) x).
Definition set_fd (x : Z) : IOM unit := set_chan (λ c, Chan x (offset c) (curr c) (max c) (refcount c) (buff c)).

Definition get : IOM channel := λ s, inr (s, chan s).
(** [channel->max] where the code computes with it. *)
Definition get_max : IOM Z := λ s, match max (chan s) with Some x => inr (s, x) | None => inl (IoFault Contract) end.

(** *** Locks *)

Definition caml_default_mutex_lock : IOM unit := mmodify (λ s, Io (chan s) (sys s) true (depth s + 1)).
Definition caml_default_mutex_unlock : IOM unit := mmodify (λ s, Io (chan s) (sys s) false (depth s - 1)).
Definition caml_default_mutex_unlock_exn (s : io) : io :=
  if locked s then Io (chan s) (sys s) false (depth s - 1) else s.

(** [caml_raise_r]: the lock is released first. *)
Definition raise {A} (e : exn) : IOM A := λ s, inl (Raised e (caml_default_mutex_unlock_exn s)).

(** sys.c *)
Definition caml_sys_error_r {A} (e : errno) : IOM A := raise (Sys_error e).
Definition caml_sys_io_error_r {A} (e : errno) : IOM A :=
  match e with EAGAIN | EWOULDBLOCK => raise Sys_blocked_io | _ => caml_sys_error_r e end.

(** A step of the operating system. *)
Definition syscall {A} (f : os → os * A) : IOM A := λ s, let '(o, x) := f (sys s) in inr (Io (chan s) o (locked s) (depth s), x).

(** [caml_raise_r] calls [Unlock_exn]. *)
Definition lock_step (s : io) (c : lock_call) : io :=
  match c with
  | CallLock => Io (chan s) (sys s) true (depth s + 1)
  | CallUnlock => Io (chan s) (sys s) false (depth s - 1)
  | CallRaise => caml_default_mutex_unlock_exn s
  end.

(** The handlers of a blocking section, and the exception that escapes. *)
Definition hook (calls : os → list lock_call) (f : os → os * option exn) : IOM unit :=
  mmodify (λ s, foldl lock_step s (calls (sys s))) ;;;
  let* r := syscall f in match r with Some e => raise e | None => mreturn tt end.
Definition caml_enter_blocking_section_r : IOM unit := hook enter_calls enter_blocking_section.
Definition caml_leave_blocking_section_r : IOM unit := hook leave_calls leave_blocking_section.

(** *** The buffer *)

(** [memmove(buff + o, bs, length bs)] *)
Definition buff_store (o : Z) (bs : list Z) : IOM unit :=
  let* c := get in
  if (0 <=? o) && (o + Z.of_nat (length bs) <=? Z.of_nat (length (buff c)))
  then set_buff (overwrite (buff c) (Z.to_nat o) bs)
  else mfail (IoFault (BadStore o)).

(** The [n] bytes at [buff + o]. *)
Definition buff_load (o n : Z) : IOM (list Z) :=
  let* c := get in
  if (0 <=? o) && (0 <=? n) && (o + n <=? Z.of_nat (length (buff c)))
  then mreturn (take (Z.to_nat n) (drop (Z.to_nat o) (buff c)))
  else mfail (IoFault (BadLoad o)).

Definition buff_byte (o : Z) : IOM Z :=
  let* l := buff_load o 1 in
  match l with b :: _ => mreturn b | [] => mfail (IoFault (BadLoad o)) end.

(** *** Opening, closing, size *)

(** [garbage] is what [caml_stat_alloc] finds in the buffer. *)
Definition caml_open_descriptor_in_r (fd : Z) (garbage : list Z) : IOM unit :=
  caml_enter_blocking_section_r ;;;
  let* r := syscall (sys_lseek fd 0 SEEK_CUR) in
  caml_leave_blocking_section_r ;;;
  set_chan (λ _, Chan fd (match r with inr o => o | inl _ => -1 end) 0 (Some 0) 0 garbage).

Definition caml_open_descriptor_out_r (fd : Z) (garbage : list Z) : IOM unit :=
  caml_open_descriptor_in_r fd garbage ;;;
  set_chan (λ c, Chan (Io.fd c) (offset c) (curr c) None (refcount c) (buff c)).

Definition caml_channel_size_r : IOM Z :=
  let* c := get in
  caml_enter_blocking_section_r ;;;
  let* e := syscall (sys_lseek (fd c) 0 SEEK_END) in
  match e with
  | inl e => caml_leave_blocking_section_r ;;; caml_sys_error_r e
  | inr size =>
      let* r := syscall (sys_lseek (fd c) (offset c) SEEK_SET) in
      caml_leave_blocking_section_r ;;;
      match r with
      | inr o => if o =? offset c then mreturn size else caml_sys_error_r (Errno 0)
      | inl e => caml_sys_error_r e
      end
  end.

Definition caml_channel_binary_mode : bool := true.

(** *** Output *)

Fixpoint do_write_r (fuel : nat) (fd : Z) (p : list Z) (n : Z) : IOM Z :=
  match fuel with
  | O => mfail (IoFault OutOfFuel)
  | S fuel =>
      caml_enter_blocking_section_r ;;;
      let* r := syscall (sys_write fd (take (Z.to_nat n) p)) in
      caml_leave_blocking_section_r ;;;
      match r with
      | inr k => mreturn k
      | inl EINTR => do_write_r fuel fd p n
      | inl e =>
          if (match e with EAGAIN | EWOULDBLOCK => true | _ => false end) && (1 <? n)
          then do_write_r fuel fd p 1
          else caml_sys_io_error_r e
      end
  end.

Definition caml_flush_partial_r (fuel : nat) : IOM bool :=
  let* c := get in
  let towrite := curr c in
  (if 0 <? towrite then
     let* p := buff_load 0 towrite in
     let* written := do_write_r fuel (fd c) p towrite in
     set_offset (offset c + written) ;;;
     (if written <? towrite
      then let* rest := buff_load written (towrite - written) in buff_store 0 rest
      else mreturn tt) ;;;
     set_curr (curr c - written)
   else mreturn tt) ;;;
  let* c := get in
  mreturn (curr c =? 0).

Fixpoint caml_flush_r (fuel : nat) : IOM unit :=
  match fuel with
  | O => mfail (IoFault OutOfFuel)
  | S n => let* b := caml_flush_partial_r fuel in if b then mreturn tt else caml_flush_r n
  end.

(** The store converts to [char]. *)
Definition putch (fuel : nat) (ch : Z) : IOM unit :=
  let* c := get in
  (if IO_BUFFER_SIZE <=? curr c then caml_flush_partial_r fuel ;;; mreturn tt else mreturn tt) ;;;
  let* c := get in
  buff_store (curr c) [ch mod 256] ;;;
  set_curr (curr c + 1).

(** "output_binary_int: not a binary channel" *)
Definition output_not_binary : list Z :=
  [111; 117; 116; 112; 117; 116; 95; 98; 105; 110; 97; 114; 121; 95; 105; 110; 116; 58; 32; 110; 111; 116; 32; 97; 32;
   98; 105; 110; 97; 114; 121; 32; 99; 104; 97; 110; 110; 101; 108].
Definition input_not_binary : list Z :=
  [105; 110; 112; 117; 116; 95; 98; 105; 110; 97; 114; 121; 95; 105; 110; 116; 58; 32; 110; 111; 116; 32; 97; 32;
   98; 105; 110; 97; 114; 121; 32; 99; 104; 97; 110; 110; 101; 108].

Definition caml_putword_r (fuel : nat) (w : Z) : IOM unit :=
  (if negb caml_channel_binary_mode then raise (Failure output_not_binary) else mreturn tt) ;;;
  putch fuel (Z.shiftr w 24) ;;;
  putch fuel (Z.shiftr w 16) ;;;
  putch fuel (Z.shiftr w 8) ;;;
  putch fuel w.

(** [p]: the bytes from the pointer on, at least [len] of them. *)
Definition caml_putblock_r (fuel : nat) (p : list Z) (len : Z) : IOM Z :=
  let* c := get in
  let n := (if INT_MAX <=? len then INT_MAX else s32 len) in
  let free := IO_BUFFER_SIZE - curr c in
  if n <? free then
    buff_store (curr c) (take (Z.to_nat n) p) ;;;
    set_curr (curr c + n) ;;;
    mreturn n
  else
    buff_store (curr c) (take (Z.to_nat free) p) ;;;
    let towrite := IO_BUFFER_SIZE in
    let* b := buff_load 0 towrite in
    let* written := do_write_r fuel (fd c) b towrite in
    (if written <? towrite
     then let* rest := buff_load written (towrite - written) in buff_store 0 rest
     else mreturn tt) ;;;
    set_offset (offset c + written) ;;;
    set_curr (IO_BUFFER_SIZE - written) ;;;
    mreturn free.

Fixpoint caml_really_putblock_r (fuel n : nat) (p : list Z) (len : Z) : IOM unit :=
  if 0 <? len then
    match n with
    | O => mfail (IoFault OutOfFuel)
    | S n =>
        let* written := caml_putblock_r fuel p len in
        caml_really_putblock_r fuel n (drop (Z.to_nat written) p) (len - written)
    end
  else mreturn tt.

(** [lseek(fd, dest, SEEK_SET) != dest] is an error. *)
Definition seek_set (dest : Z) : IOM unit :=
  let* c := get in
  caml_enter_blocking_section_r ;;;
  let* r := syscall (sys_lseek (fd c) dest SEEK_SET) in
  caml_leave_blocking_section_r ;;;
  match r with
  | inr o => if o =? dest then mreturn tt else caml_sys_error_r (Errno 0)
  | inl e => caml_sys_error_r e
  end.

Definition caml_seek_out_r (fuel : nat) (dest : Z) : IOM unit :=
  caml_flush_r fuel ;;;
  seek_set dest ;;;
  set_offset dest.

Definition caml_pos_out : IOM Z :=
  let* c := get in mreturn (offset c + curr c).

(** *** Input *)

(** The bytes read are stored at [buff + p]; the result is their number. *)
Fixpoint caml_do_read_r (fuel : nat) (fd p n : Z) : IOM Z :=
  match fuel with
  | O => mfail (IoFault OutOfFuel)
  | S fuel =>
      caml_enter_blocking_section_r ;;;
      let* r := syscall (sys_read fd n) in
      match r with
      | inr bs => buff_store p bs ;;; caml_leave_blocking_section_r ;;; mreturn (Z.of_nat (length bs))
      | inl e =>
          caml_leave_blocking_section_r ;;;
          match e with EINTR => caml_do_read_r fuel fd p n | _ => caml_sys_io_error_r e end
      end
  end.

Definition caml_refill_r (fuel : nat) : IOM Z :=
  let* c := get in
  let* n := caml_do_read_r fuel (fd c) 0 IO_BUFFER_SIZE in
  if n =? 0 then raise End_of_file else
  set_offset (offset c + n) ;;;
  set_max n ;;;
  set_curr 1 ;;;
  buff_byte 0.

Definition getch (fuel : nat) : IOM Z :=
  let* c := get in
  if (match max c with Some m => m <=? curr c | None => true end) then caml_refill_r fuel else
  let* b := buff_byte (curr c) in
  set_curr (curr c + 1) ;;;
  mreturn b.

Fixpoint getword_loop (fuel i : nat) (res : Z) : IOM Z :=
  match i with
  | O => mreturn res
  | S i => let* b := getch fuel in getword_loop fuel i (u32 (u32 (Z.shiftl res 8) + b))
  end.

Definition caml_getword_r (fuel : nat) : IOM Z :=
  (if negb caml_channel_binary_mode then raise (Failure input_not_binary) else mreturn tt) ;;;
  getword_loop fuel 4 0.

(** The bytes stored at [p], whose number is the result of the C function. *)
Definition caml_getblock_r (fuel : nat) (len : Z) : IOM (list Z) :=
  let* c := get in
  let n := (if INT_MAX <=? len then INT_MAX else s32 len) in
  let* m := get_max in
  let avail := m - curr c in
  if n <=? avail then
    let* bs := buff_load (curr c) n in
    set_curr (curr c + n) ;;;
    mreturn bs
  else if 0 <? avail then
    let* bs := buff_load (curr c) avail in
    set_curr (curr c + avail) ;;;
    mreturn bs
  else
    let* nread := caml_do_read_r fuel (fd c) 0 IO_BUFFER_SIZE in
    set_offset (offset c + nread) ;;;
    set_max nread ;;;
    let n := (if nread <? n then nread else n) in
    let* bs := buff_load 0 n in
    set_curr n ;;;
    mreturn bs.

(** The bytes read, and whether all were. *)
Fixpoint caml_really_getblock_r (fuel k : nat) (n : Z) : IOM (list Z * bool) :=
  if 0 <? n then
    match k with
    | O => mfail (IoFault OutOfFuel)
    | S k =>
        let* bs := caml_getblock_r fuel n in
        let r := Z.of_nat (length bs) in
        if r =? 0 then mreturn ([], n =? 0) else
        let* (l, b) := caml_really_getblock_r fuel k (n - r) in
        mreturn (bs ++ l, b)
    end
  else mreturn ([], n =? 0).

Definition caml_seek_in_r (dest : Z) : IOM unit :=
  let* c := get in
  let* m := get_max in
  if (offset c - m <=? dest) && (dest <=? offset c) then
    set_curr (m - (offset c - dest))
  else
    seek_set dest ;;;
    set_offset dest ;;;
    set_max 0 ;;;
    set_curr 0.

Definition caml_pos_in : IOM Z :=
  let* c := get in
  let* m := get_max in
  mreturn (offset c - (m - curr c)).

(** The body of the [do] loop of [caml_input_scan_line_r], up to [*p++]: the
    value of [p] after the buffer is refilled, or the result. *)
Definition scan_refill (fuel : nat) (p : Z) : IOM (Z + Z) :=
  let* m := get_max in
  if m <=? p then
    let* c := get in
    (if 0 <? curr c then
       let* rest := buff_load (curr c) (m - curr c) in
       buff_store 0 rest ;;;
       set_curr (curr c - curr c) ;;;
       set_max (m - curr c)
     else mreturn tt) ;;;
    let p := (if 0 <? curr c then p - curr c else p) in
    let* c := get in
    let* m := get_max in
    if IO_BUFFER_SIZE <=? m then mreturn (inl (- (m - curr c))) else
    let* n := caml_do_read_r fuel (fd c) m (IO_BUFFER_SIZE - m) in
    if n =? 0 then mreturn (inl (- (m - curr c))) else
    set_offset (offset c + n) ;;;
    set_max (m + n) ;;;
    mreturn (inr p)
  else mreturn (inr p).

Fixpoint scan_loop (fuel n : nat) (p : Z) : IOM Z :=
  match n with
  | O => mfail (IoFault OutOfFuel)
  | S n =>
      let* r := scan_refill fuel p in
      match r with
      | inl res => mreturn res
      | inr p =>
          let* b := buff_byte p in
          if negb (b =? 10) then scan_loop fuel n (p + 1) else
          let* c := get in mreturn (p + 1 - curr c)
      end
  end.

Definition caml_input_scan_line_r (fuel n : nat) : IOM Z :=
  let* c := get in scan_loop fuel n (curr c).

(** ** Primitives *)

(** [Lock(channel); ...; Unlock(channel);] *)
Definition with_lock {A} (m : IOM A) : IOM A :=
  caml_default_mutex_lock ;;;
  let* r := m in
  caml_default_mutex_unlock ;;;
  mreturn r.

Definition caml_channel_descriptor_r : IOM Z :=
  let* c := get in
  if fd c =? -1 then caml_sys_error_r EBADF else mreturn (Val_int (fd c)).

Definition caml_ml_close_channel_r : IOM Z :=
  let* c := get in
  let do_syscall := negb (fd c =? -1) in
  (if do_syscall then set_fd (-1) else mreturn tt) ;;;
  set_max IO_BUFFER_SIZE ;;;
  set_curr IO_BUFFER_SIZE ;;;
  (if do_syscall then
     caml_enter_blocking_section_r ;;;
     let* r := syscall (sys_close (fd c)) in
     caml_leave_blocking_section_r ;;;
     match r with Some e => caml_sys_error_r e | None => mreturn tt end
   else mreturn tt) ;;;
  mreturn Val_unit.

(** A [file_offset] as an OCaml integer. *)
Definition val_offset (x : Z) : IOM Z :=
  if Max_long <? x then caml_sys_error_r EOVERFLOW else mreturn (Val_long x).

Definition caml_ml_channel_size_r : IOM Z := let* size := caml_channel_size_r in val_offset size.
Definition caml_ml_set_binary_mode : IOM Z := mreturn Val_unit.

Definition caml_ml_flush_partial_r (fuel : nat) : IOM Z :=
  let* c := get in
  if fd c =? -1 then mreturn Val_true else
  let* res := with_lock (caml_flush_partial_r fuel) in
  mreturn (Val_bool res).

Definition caml_ml_flush_r (fuel : nat) : IOM Z :=
  let* c := get in
  if fd c =? -1 then mreturn Val_unit else
  with_lock (caml_flush_r fuel) ;;;
  mreturn Val_unit.

Definition caml_ml_output_char_r (fuel : nat) (ch : Z) : IOM Z :=
  with_lock (putch fuel (Long_val ch)) ;;;
  mreturn Val_unit.

Definition caml_ml_output_int_r (fuel : nat) (w : Z) : IOM Z :=
  with_lock (caml_putword_r fuel (u32 (Long_val w))) ;;;
  mreturn Val_unit.

Definition caml_ml_output_partial_r (fuel : nat) (buff : list Z) (start length : Z) : IOM Z :=
  let* res := with_lock (caml_putblock_r fuel (drop (Z.to_nat (Long_val start)) buff) (Long_val length)) in
  mreturn (Val_int res).

Fixpoint output_loop (fuel n : nat) (buff : list Z) (pos len : Z) : IOM unit :=
  if 0 <? len then
    match n with
    | O => mfail (IoFault OutOfFuel)
    | S n =>
        let* written := caml_putblock_r fuel (drop (Z.to_nat pos) buff) len in
        output_loop fuel n buff (pos + written) (len - written)
    end
  else mreturn tt.

Definition caml_ml_output_r (fuel n : nat) (buff : list Z) (start length : Z) : IOM Z :=
  with_lock (output_loop fuel n buff (Long_val start) (Long_val length)) ;;;
  mreturn Val_unit.

Definition caml_ml_seek_out_r (fuel : nat) (pos : Z) : IOM Z :=
  with_lock (caml_seek_out_r fuel (Long_val pos)) ;;;
  mreturn Val_unit.

(** [pos] is [File_offset_val] of the argument. *)
Definition caml_ml_seek_out_64_r (fuel : nat) (pos : Z) : IOM Z :=
  with_lock (caml_seek_out_r fuel pos) ;;;
  mreturn Val_unit.

Definition caml_ml_pos_out_r : IOM Z := let* pos := caml_pos_out in val_offset pos.

Definition caml_ml_input_char_r (fuel : nat) : IOM Z :=
  let* c := with_lock (getch fuel) in
  mreturn (Val_long c).

Definition caml_ml_input_int_r (fuel : nat) : IOM Z :=
  let* i := with_lock (caml_getword_r fuel) in
  mreturn (Val_long (Z.shiftr (s64 (Z.shiftl i 32)) 32)).

(** The number of bytes stored, and the string with them at [start]. *)
Definition caml_ml_input_r (fuel : nat) (buff : list Z) (vstart vlength : Z) : IOM (Z * list Z) :=
  let start := Long_val vstart in
  let len := Long_val vlength in
  let* bs := with_lock (caml_getblock_r fuel len) in
  if (0 <=? start) && (start + Z.of_nat (length bs) <=? Z.of_nat (length buff))
  then mreturn (Val_long (Z.of_nat (length bs)), overwrite buff (Z.to_nat start) bs)
  else mfail (IoFault (BadStore start)).

Definition caml_ml_seek_in_r (pos : Z) : IOM Z :=
  with_lock (caml_seek_in_r (Long_val pos)) ;;;
  mreturn Val_unit.

Definition caml_ml_seek_in_64_r (pos : Z) : IOM Z :=
  with_lock (caml_seek_in_r pos) ;;;
  mreturn Val_unit.

Definition caml_ml_pos_in_r : IOM Z := let* pos := caml_pos_in in val_offset pos.

Definition caml_ml_input_scan_line_r (fuel n : nat) : IOM Z :=
  let* res := with_lock (caml_input_scan_line_r fuel n) in
  mreturn (Val_long res).
End Operations.

Abbreviation IOM := (M io io_stop).

(** ** What a computation does *)

Section Post.
Context `{Kernel}.

(** It returns a value and a state of [Q] or raises an exception in a state of
    [R]; it is never stuck. *)
Definition post {A} (m : IOM A) (Q : A → io → Prop) (R : exn → io → Prop) (s : io) : Prop :=
  match m s with
  | inr (s', x) => Q x s'
  | inl (Raised e s') => R e s'
  | inl (IoFault _) => False
  end.

Lemma post_ret {A} (x : A) (Q : A → io → Prop) R s : Q x s → post (mreturn x) Q R s.
Proof. done. Qed.

Lemma post_bind {A B} (m : IOM A) (k : A → IOM B) Q R s :
  post m (λ x, post (k x) Q R) R s → post (mbnd m k) Q R s.
Proof. unfold post, mbnd. by destruct (m s) as [[e s'|f]|[s' x]]. Qed.

Lemma post_conseq {A} (m : IOM A) (Q Q' : A → io → Prop) (R R' : exn → io → Prop) s :
  post m Q R s → (∀ x s', Q x s' → Q' x s') → (∀ e s', R e s' → R' e s') → post m Q' R' s.
Proof. unfold post. destruct (m s) as [[e s'|f]|[s' x]]; auto. Qed.

Lemma post_returns {A} (m : IOM A) Q R s s' x : post m Q R s → m s = inr (s', x) → Q x s'.
Proof. unfold post. intros Hm E. by rewrite E in Hm. Qed.

Lemma post_get {B} (k : channel → IOM B) Q R s : post (k (chan s)) Q R s → post (mbnd get k) Q R s.
Proof. done. Qed.

Lemma post_raise {A} e (Q : A → io → Prop) (R : exn → io → Prop) s : R e (caml_default_mutex_unlock_exn s) → post (raise e) Q R s.
Proof. done. Qed.

(** *** Locks *)

(** What the handlers of signals do to the lock, in the calls of a whole section:
    nothing, or uses of channels one after the other, each of which ends with an
    [Unlock] or an exception. *)
Inductive channel_uses : list lock_call → Prop :=
  | uses_none : channel_uses []
  | uses_unlock l : channel_uses l → channel_uses (CallLock :: CallUnlock :: l)
  | uses_raise l : channel_uses l → channel_uses (CallLock :: CallRaise :: l).
Definition quiet : Prop := ∀ o, enter_calls o = [] ∧ leave_calls o = [].
Definition disciplined : Prop := ∀ o, channel_uses (enter_calls o) ∧ channel_uses (leave_calls o).

(** The lock apart, nothing changes. *)
Lemma calls_same l : ∀ s, chan (foldl lock_step s l) = chan s ∧ sys (foldl lock_step s l) = sys s.
Proof. induction l as [|c l IH]; intros s; [done|]. cbn [foldl]. destruct (IH (lock_step s c)) as [-> ->]. destruct c; try done. cbn. unfold caml_default_mutex_unlock_exn. by destruct (locked s). Qed.

Lemma uses_depth l s : channel_uses l → depth (foldl lock_step s l) = depth s.
Proof. intros Hl. revert s. induction Hl as [|l _ IH|l _ IH]; intros s; [done|..]; cbn [foldl]; rewrite IH; cbn; lia. Qed.

(** [m] acquires the mutex as often as it releases it when it returns, if handlers
    are disciplined.  If they are quiet, it leaves the lock as it is when it
    returns, and releases it when it raises an exception. *)
Definition keeps_lock {A} (m : IOM A) : Prop :=
  ∀ s, match m s with
       | inr (s', _) => (disciplined → depth s' = depth s) ∧ (quiet → locked s' = locked s ∧ depth s' = depth s)
       | inl (Raised _ s') => quiet → locked s' = false ∧ depth s' = depth s - b2z (locked s)
       | inl (IoFault _) => True
       end.

Lemma lock_ret {A} (x : A) : keeps_lock (mreturn x). Proof. by intros s. Qed.
Lemma lock_fail {A} f : keeps_lock (mfail (IoFault f) : IOM A). Proof. by intros s. Qed.

Lemma lock_bind {A B} (m : IOM A) (k : A → IOM B) : keeps_lock m → (∀ x, keeps_lock (k x)) → keeps_lock (mbnd m k).
Proof.
  intros Hm Hk s. specialize (Hm s). unfold mbnd. destruct (m s) as [[]|[s' x]]; [done|done|]. destruct Hm as [H1 H2]. specialize (Hk x s').
  destruct (k x s') as [[]|[s2 y]]; [| done|].
  - intros Hq. destruct (H2 Hq) as [<- <-]. by apply Hk.
  - destruct Hk as [K1 K2]. split; [intros Hd; rewrite K1, H1 by done; done|]. intros Hq. destruct (H2 Hq) as [<- <-]. by apply K2.
Qed.

Lemma lock_get : keeps_lock get. Proof. by intros s. Qed.
Lemma lock_get_max : keeps_lock get_max. Proof. intros s. unfold get_max. by destruct (max (chan s)). Qed.
Lemma lock_set_chan f : keeps_lock (set_chan f). Proof. by intros s. Qed.

Lemma lock_raise {A} e : keeps_lock (raise e : IOM A).
Proof. intros s Hq. unfold caml_default_mutex_unlock_exn. destruct (locked s) eqn:E; cbn; [done|]. rewrite E. cbn. lia. Qed.

Lemma lock_syscall {A} (f : os → os * A) : keeps_lock (syscall f).
Proof. intros s. unfold syscall. by destruct (f (sys s)). Qed.

Lemma lock_hook calls f : (disciplined → ∀ o, channel_uses (calls o)) → (quiet → ∀ o, calls o = []) → keeps_lock (hook calls f).
Proof.
  intros Hd Hq. apply lock_bind; [|intros _; apply lock_bind; [apply lock_syscall|]; intros [e|]; [apply lock_raise|apply lock_ret]].
  intros s. unfold mmodify. split; [intros D; by apply uses_depth, Hd|]. intros Q. by rewrite (Hq Q).
Qed.

Lemma lock_enter : keeps_lock caml_enter_blocking_section_r.
Proof. apply lock_hook; intros Hs o; apply (Hs o). Qed.
Lemma lock_leave : keeps_lock caml_leave_blocking_section_r.
Proof. apply lock_hook; intros Hs o; apply (Hs o). Qed.
End Post.

Create HintDb lock.
#[export] Hint Resolve lock_ret lock_fail lock_get lock_get_max lock_set_chan lock_raise lock_syscall lock_enter lock_leave : lock.

Ltac keeps_step :=
  lazymatch goal with
  | |- keeps_lock (mbnd _ _) => apply lock_bind; [|intros ?]
  | |- keeps_lock (if ?b then _ else _) => destruct b
  | |- keeps_lock (match ?x with _ => _ end) => destruct x
  | |- keeps_lock _ => solve [auto with lock]
  end.
Ltac lock := repeat keeps_step.

Section Locks.
Context `{Kernel}.

Lemma lock_buff o bs n : keeps_lock (buff_store o bs) ∧ keeps_lock (buff_load o n) ∧ keeps_lock (buff_byte o).
Proof. unfold buff_byte, buff_load, buff_store, set_buff. split_and!; lock. Qed.
Lemma lock_store o bs : keeps_lock (buff_store o bs). Proof. apply (lock_buff o bs 0). Qed.
Lemma lock_load o n : keeps_lock (buff_load o n). Proof. apply (lock_buff o [] n). Qed.
Lemma lock_byte o : keeps_lock (buff_byte o). Proof. apply (lock_buff o [] 0). Qed.
Hint Resolve lock_store lock_load lock_byte : lock.

Lemma lock_sys_error {A} e : keeps_lock (caml_sys_error_r e : IOM A) ∧ keeps_lock (caml_sys_io_error_r e : IOM A).
Proof. unfold caml_sys_io_error_r, caml_sys_error_r. split; lock. Qed.
Hint Extern 1 (keeps_lock (caml_sys_error_r _)) => apply lock_sys_error : lock.
Hint Extern 1 (keeps_lock (caml_sys_io_error_r _)) => apply lock_sys_error : lock.

Lemma lock_do_write fuel : ∀ fd p n, keeps_lock (do_write_r fuel fd p n).
Proof. induction fuel as [|fuel IH]; intros fd p n; cbn [do_write_r]; lock. Qed.
Lemma lock_do_read fuel : ∀ fd p n, keeps_lock (caml_do_read_r fuel fd p n).
Proof. induction fuel as [|fuel IH]; intros fd p n; cbn [caml_do_read_r]; lock. Qed.
Hint Resolve lock_do_write lock_do_read : lock.

Lemma lock_flush_partial fuel : keeps_lock (caml_flush_partial_r fuel).
Proof. unfold caml_flush_partial_r, set_offset, set_curr. lock. Qed.
Hint Resolve lock_flush_partial : lock.
Lemma lock_flush fuel : keeps_lock (caml_flush_r fuel).
Proof. induction fuel as [|fuel IH]; cbn [caml_flush_r]; lock. Qed.
Lemma lock_putch fuel ch : keeps_lock (putch fuel ch).
Proof. unfold putch, set_curr. lock. Qed.
Hint Resolve lock_flush lock_putch : lock.
Lemma lock_putword fuel w : keeps_lock (caml_putword_r fuel w).
Proof. unfold caml_putword_r. lock. Qed.
Lemma lock_putblock fuel p len : keeps_lock (caml_putblock_r fuel p len).
Proof. unfold caml_putblock_r, set_offset, set_curr. cbv zeta. lock. Qed.
Hint Resolve lock_putword lock_putblock : lock.
Lemma lock_output_loop fuel n : ∀ b pos len, keeps_lock (output_loop fuel n b pos len).
Proof. induction n as [|n IH]; intros b pos len; cbn [output_loop]; lock. Qed.
Lemma lock_seek_set dest : keeps_lock (seek_set dest).
Proof. unfold seek_set. lock. Qed.
Hint Resolve lock_output_loop lock_seek_set : lock.
Lemma lock_seek_out fuel dest : keeps_lock (caml_seek_out_r fuel dest).
Proof. unfold caml_seek_out_r, set_offset. lock. Qed.
Lemma lock_getch fuel : keeps_lock (getch fuel).
Proof. unfold getch, caml_refill_r, set_curr, set_max, set_offset. lock. Qed.
Hint Resolve lock_seek_out lock_getch : lock.
Lemma lock_getword fuel i : ∀ res, keeps_lock (getword_loop fuel i res).
Proof. induction i as [|i IH]; intros res; cbn [getword_loop]; lock. Qed.
Hint Resolve lock_getword : lock.
Lemma lock_getblock fuel len : keeps_lock (caml_getblock_r fuel len).
Proof. unfold caml_getblock_r, set_offset, set_curr, set_max. cbv zeta. lock. Qed.
Lemma lock_seek_in dest : keeps_lock (caml_seek_in_r dest).
Proof. unfold caml_seek_in_r, set_offset, set_curr, set_max. lock. Qed.
Lemma lock_scan_refill fuel p : keeps_lock (scan_refill fuel p).
Proof. unfold scan_refill, set_offset, set_curr, set_max. cbv zeta. lock. Qed.
Hint Resolve lock_getblock lock_seek_in lock_scan_refill : lock.
Lemma lock_scan fuel n : ∀ p, keeps_lock (scan_loop fuel n p).
Proof. induction n as [|n IH]; intros p; cbn [scan_loop]; lock. Qed.
Hint Resolve lock_scan : lock.

(** The lock is free and the mutex has been released as often as acquired. *)
Definition released (s s' : io) : Prop := locked s' = false ∧ depth s' = depth s.

(** What becomes of the lock in a run. *)
Definition lock_result {A} (r : io_stop + io * A) (s : io) : Prop :=
  match r with
  | inr (s', _) => disciplined → released s s'
  | inl (Raised _ s') => quiet → released s s'
  | inl (IoFault _) => True
  end.

Lemma with_lock_released {A} (m : IOM A) s : keeps_lock m → locked s = false → lock_result (with_lock m s) s.
Proof.
  intros Hm Hs. unfold with_lock, mbnd at 1, caml_default_mutex_lock, mmodify. cbn beta iota.
  specialize (Hm (Io (chan s) (sys s) true (depth s + 1))). unfold mbnd, lock_result, released.
  destruct (m _) as [[e s'|f]|[s' x]]; cbn in *; [|done|].
  - intros Hq. destruct (Hm Hq). split; [done|lia].
  - intros Hd. rewrite (proj1 Hm Hd). split; [done|lia].
Qed.
End Locks.

(** ** Files *)

(** The bytes [bs] written at position [p] of a file, with zeros in between
    when [p] is beyond its end. *)
Definition write_at (c : list Z) (p : nat) (bs : list Z) : list Z :=
  match bs with
  | [] => c
  | _ => take p (c ++ replicate (p - length c) 0) ++ bs ++ drop (p + length bs) c
  end.

Lemma write_at_head c p : length (take p (c ++ replicate (p - length c) 0)) = p.
Proof. rewrite length_take, length_app, length_replicate. lia. Qed.

Lemma write_at_eq c p bs : bs ≠ [] → write_at c p bs = take p (c ++ replicate (p - length c) 0) ++ bs ++ drop (p + length bs) c.
Proof. by destruct bs. Qed.

(** Writing in two steps. *)
Lemma write_at_app c p a b : write_at (write_at c p a) (p + length a) b = write_at c p (a ++ b).
Proof.
  destruct (decide (a = [])) as [->|Ha]; [by rewrite Nat.add_0_r|]. destruct (decide (b = [])) as [->|Hb]; [by rewrite app_nil_r|].
  rewrite !write_at_eq by (try done; by destruct a). set (h := take p (c ++ replicate (p - length c) 0)).
  pose proof (write_at_head c p : length h = p) as Hh.
  rewrite (app_assoc h a). rewrite <- (app_assoc (h ++ a)). rewrite take_app_length' by (rewrite length_app; lia).
  rewrite drop_app_ge by (rewrite length_app; lia). rewrite drop_drop, !length_app, Hh, <- !app_assoc. do 3 f_equal. f_equal. lia.
Qed.

(** What POSIX says of the calls on the file open as [n], by the contents of
    the file and the position in it: a write or a read transfers at least a
    byte, a read none only at the end of the file, an error changes nothing,
    and a call is interrupted a bounded number of times.  The last two laws are
    not of POSIX: they assume that no exception escapes from a signal handler
    that runs in a blocking section, and that handlers leave the file alone. *)
Class FileLaws `{Kernel} (n : Z) : Type := {
  contents : os → list Z;
  position : os → Z;
  patience : os → nat;
  position_pos : ∀ o, 0 <= position o;
  write_law : ∀ o bs, bs ≠ [] →
    match sys_write n bs o with
    | (o', inr k) => 0 < k <= Z.of_nat (length bs) ∧ contents o' = write_at (contents o) (Z.to_nat (position o)) (take (Z.to_nat k) bs) ∧
        position o' = position o + k ∧ (patience o' <= patience o)%nat
    | (o', inl e) => contents o' = contents o ∧ position o' = position o ∧ (patience o' + (if e is EINTR then 1 else 0) <= patience o)%nat
    end;
  read_law : ∀ o k, 0 < k →
    match sys_read n k o with
    | (o', inr bs) => Z.of_nat (length bs) <= k ∧ bs = take (length bs) (drop (Z.to_nat (position o)) (contents o)) ∧
        (bs = [] → Z.of_nat (length (contents o)) <= position o) ∧ contents o' = contents o ∧
        position o' = position o + Z.of_nat (length bs) ∧ (patience o' <= patience o)%nat
    | (o', inl e) => contents o' = contents o ∧ position o' = position o ∧ (patience o' + (if e is EINTR then 1 else 0) <= patience o)%nat
    end;
  lseek_law : ∀ o d, 0 <= d →
    match sys_lseek n d SEEK_SET o with
    | (o', inr r) => r = d ∧ contents o' = contents o ∧ position o' = d ∧ (patience o' <= patience o)%nat
    | (o', inl e) => contents o' = contents o ∧ position o' = position o ∧ (patience o' <= patience o)%nat
    end;
  tell_law : ∀ o, ∃ o', sys_lseek n 0 SEEK_CUR o = (o', inr (position o)) ∧ contents o' = contents o ∧ position o' = position o ∧
    (patience o' <= patience o)%nat;
  enter_law : ∀ o, ∃ o', enter_blocking_section o = (o', None) ∧ contents o' = contents o ∧ position o' = position o ∧ (patience o' <= patience o)%nat;
  leave_law : ∀ o, ∃ o', leave_blocking_section o = (o', None) ∧ contents o' = contents o ∧ position o' = position o ∧ (patience o' <= patience o)%nat
}.

Section Files.
Context {K : Kernel} {n : Z} {L : FileLaws n}.

(** [s'] is [s] after some calls that leave the file alone. *)
Record calm (s s' : io) : Prop := {
  calm_chan : chan s' = chan s;
  calm_contents : contents (sys s') = contents (sys s);
  calm_position : position (sys s') = position (sys s);
  calm_patience : (patience (sys s') <= patience (sys s))%nat
}.

#[global] Instance calm_refl : Reflexive calm.
Proof. by intros s. Qed.
#[global] Instance calm_trans : Transitive calm.
Proof. intros s1 s2 s3 [A1 B1 C1 D1] [A2 B2 C2 D2]. split; [congruence..|lia]. Qed.

Lemma calm_unlock s : calm s (caml_default_mutex_unlock_exn s).
Proof. unfold caml_default_mutex_unlock_exn. by destruct (locked s). Qed.

Lemma post_hook calls f Q R s : (∃ o', f (sys s) = (o', None) ∧ contents o' = contents (sys s) ∧ position o' = position (sys s) ∧ (patience o' <= patience (sys s))%nat) → (∀ s', calm s s' → Q tt s') → post (hook calls f) Q R s.
Proof.
  intros (o' & E & H1 & H2 & H3) HQ. unfold hook, post, mmodify, mbnd, syscall. destruct (calls_same (calls (sys s)) s) as [Ec Es]. rewrite Es, E. apply HQ. by split.
Qed.
Lemma post_enter Q R s : (∀ s', calm s s' → Q tt s') → post caml_enter_blocking_section_r Q R s.
Proof. apply post_hook, enter_law. Qed.
Lemma post_leave Q R s : (∀ s', calm s s' → Q tt s') → post caml_leave_blocking_section_r Q R s.
Proof. apply post_hook, leave_law. Qed.

Lemma post_io_error {A} e (Q : A → io → Prop) (R : exn → io → Prop) s : (∀ e s', e ≠ End_of_file → calm s s' → R e s') → post (caml_sys_io_error_r e) Q R s.
Proof. intros HR. unfold caml_sys_io_error_r, caml_sys_error_r. destruct e; apply post_raise, HR; try done; apply calm_unlock. Qed.

(** The effect of a write. *)
Record wrote (s s' : io) (bs : list Z) : Prop := {
  wrote_chan : chan s' = chan s;
  wrote_contents : contents (sys s') = write_at (contents (sys s)) (Z.to_nat (position (sys s))) bs;
  wrote_position : position (sys s') = position (sys s) + Z.of_nat (length bs);
  wrote_patience : (patience (sys s') <= patience (sys s))%nat
}.

Lemma wrote_calm s0 s1 s2 s3 bs : calm s0 s1 → wrote s1 s2 bs → calm s2 s3 → wrote s0 s3 bs.
Proof.
  intros [A1 B1 C1 D1] [A2 B2 C2 D2] [A3 B3 C3 D3]. split; [congruence| |lia|lia]. by rewrite B3, B2, B1, C1.
Qed.

Lemma post_sys {A} (f : os → os * A) Q R s :
  (∀ o x, f (sys s) = (o, x) → Q x (Io (chan s) o (locked s) (depth s))) → post (syscall f) Q R s.
Proof. intros HQ. unfold post, syscall. destruct (f (sys s)) as [o x] eqn:E. by apply HQ. Qed.

Lemma do_write_spec fuel : ∀ s p k Q R, 0 < k <= Z.of_nat (length p) →
  (patience (sys s) + (if (1 <? k)%Z then 2 else 1) <= fuel)%nat →
  (∀ s' w, 0 < w <= k → wrote s s' (take (Z.to_nat w) p) → Q w s') → (∀ e s', calm s s' → R e s') →
  post (do_write_r fuel n p k) Q R s.
Proof.
  induction fuel as [|fuel IH]; intros s p k Q R Hk Hf HQ HR; [destruct (1 <? k); lia|]. cbn [do_write_r].
  apply post_bind, post_enter. intros s1 C1. apply post_bind, post_sys. intros o r Er. apply post_bind, post_leave. intros s3 C3.
  pose proof (write_law (sys s1) (take (Z.to_nat k) p)) as Hw. rewrite Er in Hw.
  assert (length (take (Z.to_nat k) p) = Z.to_nat k) as Hl by (rewrite length_take; lia).
  destruct r as [e|w].
  - destruct Hw as (E1 & E2 & E3); [intros E; rewrite E in Hl; cbn in Hl; lia|].
    assert (calm s s3) as C. { etransitivity; [exact C1|]. etransitivity; [|exact C3]. split; cbn; [done|done|done|lia]. }
    pose proof (calm_patience _ _ C1). pose proof (calm_patience _ _ C3). cbn in *.
    assert (∀ k', 0 < k' <= k → (patience (sys s3) + (if (1 <? k')%Z then 2 else 1) <= fuel)%nat → post (do_write_r fuel n p k') Q R s3) as Hagain.
    { intros k' Hk' Hf'. apply IH; [lia|done| |].
      - intros s' w Hw W. apply HQ; [lia|]. by eapply wrote_calm; [exact C|exact W|].
      - intros e' s' C'. apply HR. by etransitivity. }
    destruct e; try (by apply post_io_error; intros e' s' _ C'; apply HR; etransitivity).
    + apply Hagain; [lia|]. destruct (1 <? k); lia.
    + destruct (Z.ltb_spec 1 k); cbn [andb]; [apply Hagain; cbn; lia|apply post_io_error; intros e' s' _ C'; apply HR; by etransitivity].
    + destruct (Z.ltb_spec 1 k); cbn [andb]; [apply Hagain; cbn; lia|apply post_io_error; intros e' s' _ C'; apply HR; by etransitivity].
  - destruct Hw as (E0 & E1 & E2 & E3); [intros E; rewrite E in Hl; cbn in Hl; lia|]. rewrite Hl in E0. apply post_ret, HQ; [lia|].
    eapply wrote_calm; [exact C1| |exact C3]. rewrite take_take in E1. replace (Z.to_nat w `min` Z.to_nat k)%nat with (Z.to_nat w) in E1 by lia.
    split; cbn; [done|done| |done]. rewrite length_take. lia.
Qed.

Lemma seek_set_spec dest Q R s : fd (chan s) = n → 0 <= dest →
  (∀ s', chan s' = chan s → contents (sys s') = contents (sys s) → position (sys s') = dest → (patience (sys s') <= patience (sys s))%nat → Q tt s') →
  (∀ e s', e ≠ End_of_file → calm s s' → R e s') → post (seek_set dest) Q R s.
Proof.
  intros Hfd Hd HQ HR. unfold seek_set. apply post_get. apply post_bind, post_enter. intros s1 C1. rewrite Hfd.
  apply post_bind, post_sys. intros o r Er. apply post_bind, post_leave. intros s3 C3.
  pose proof (lseek_law (sys s1) dest Hd) as Hl. rewrite Er in Hl. destruct C1 as [A1 B1 D1 P1]. destruct C3 as [A3 B3 D3 P3]. cbn in *. destruct r as [e|r].
  - destruct Hl as (E1 & E2 & E3). apply post_raise, HR; [done|]. etransitivity; [|apply calm_unlock]. split; [congruence..|lia].
  - destruct Hl as (-> & E1 & E2 & E3). rewrite Z.eqb_refl. apply post_ret, HQ; [congruence|congruence|congruence|lia].
Qed.

(** The lock plays no part in what happens to the channel and the file. *)
Lemma post_with_lock {A} (m : IOM A) (Q : A → io → Prop) (R : exn → io → Prop) s :
  post m (λ x s', Q x (Io (chan s') (sys s') false (depth s' - 1))) R (Io (chan s) (sys s) true (depth s + 1)) → post (with_lock m) Q R s.
Proof. unfold with_lock. intros Hm. change (post (let* r := m in caml_default_mutex_unlock ;;; mreturn r) Q R (Io (chan s) (sys s) true (depth s + 1))). by apply post_bind. Qed.

(** The effect of a read into the buffer at [p]. *)
Record got (s s' : io) (p : Z) (bs : list Z) : Prop := {
  got_chan : chan s' = Chan (fd (chan s)) (offset (chan s)) (curr (chan s)) (max (chan s)) (refcount (chan s)) (overwrite (buff (chan s)) (Z.to_nat p) bs);
  got_contents : contents (sys s') = contents (sys s);
  got_position : position (sys s') = position (sys s) + Z.of_nat (length bs);
  got_bytes : bs = take (length bs) (drop (Z.to_nat (position (sys s))) (contents (sys s)));
  got_end : bs = [] → Z.of_nat (length (contents (sys s))) <= position (sys s);
  got_patience : (patience (sys s') <= patience (sys s))%nat
}.

Lemma got_calm s0 s1 s2 s3 p bs : calm s0 s1 → got s1 s2 p bs → calm s2 s3 → got s0 s3 p bs.
Proof.
  intros [A1 B1 C1 D1] [A2 B2 C2 D2 E2 F2] [A3 B3 C3 D3]. rewrite A1 in A2. rewrite B1 in B2, D2, E2. rewrite C1 in C2, D2, E2.
  split; [congruence|congruence|lia|done|done|lia].
Qed.

Lemma post_load o k Q R s : 0 <= o → 0 <= k → o + k <= Z.of_nat (length (buff (chan s))) →
  Q (take (Z.to_nat k) (drop (Z.to_nat o) (buff (chan s)))) s → post (buff_load o k) Q R s.
Proof.
  intros Ho Hk Hl HQ. unfold buff_load. apply post_get. rewrite !(proj2 (Z.leb_le _ _)) by done. by apply post_ret.
Qed.

Lemma post_store o bs Q R s : 0 <= o → o + Z.of_nat (length bs) <= Z.of_nat (length (buff (chan s))) →
  Q tt (Io (Chan (fd (chan s)) (offset (chan s)) (curr (chan s)) (max (chan s)) (refcount (chan s)) (overwrite (buff (chan s)) (Z.to_nat o) bs))
    (sys s) (locked s) (depth s)) → post (buff_store o bs) Q R s.
Proof. intros Ho Hl HQ. unfold buff_store. apply post_get. rewrite !(proj2 (Z.leb_le _ _)) by done. exact HQ. Qed.

Lemma post_set {A} f (k : unit → IOM A) Q R s :
  post (k tt) Q R (Io (f (chan s)) (sys s) (locked s) (depth s)) → post (mbnd (set_chan f) k) Q R s.
Proof. done. Qed.

Lemma post_set_end f Q R s : Q tt (Io (f (chan s)) (sys s) (locked s) (depth s)) → post (set_chan f) Q R s.
Proof. done. Qed.

Lemma do_read_spec fuel : ∀ s p k Q R, 0 <= p → 0 < k → p + k <= Z.of_nat (length (buff (chan s))) → (patience (sys s) + 1 <= fuel)%nat →
  (∀ s' bs, Z.of_nat (length bs) <= k → got s s' p bs → Q (Z.of_nat (length bs)) s') → (∀ e s', e ≠ End_of_file → calm s s' → R e s') →
  post (caml_do_read_r fuel n p k) Q R s.
Proof.
  induction fuel as [|fuel IH]; intros s p k Q R Hp Hk Hl Hf HQ HR; [lia|]. cbn [caml_do_read_r].
  apply post_bind, post_enter. intros s1 C1. apply post_bind, post_sys. intros o r Er.
  pose proof (read_law (sys s1) k Hk) as Hr. rewrite Er in Hr. pose proof C1 as [A1 B1 D1 P1]. destruct r as [e|bs].
  - apply post_bind, post_leave. intros s3 C3. destruct Hr as (E1 & E2 & E3).
    assert (calm s s3) as C. { etransitivity; [exact C1|]. etransitivity; [|exact C3]. split; cbn; [done|done|done|lia]. }
    pose proof (calm_patience _ _ C3). cbn in *.
    destruct e; try (by apply post_io_error; intros e' s' He' C'; apply HR; [done|etransitivity]).
    apply IH; [done|done|by rewrite (calm_chan _ _ C)|lia| |].
    + intros s' bs Hb G. apply HQ; [done|]. by eapply got_calm; [exact C|exact G|].
    + intros e' s' He' C'. apply HR; [done|]. by etransitivity.
  - destruct Hr as (E0 & E1 & E2 & E3 & E4 & E5). apply post_bind, post_store; cbn [chan]; rewrite ?A1; [lia|lia|].
    apply post_bind, post_leave. intros s3 C3. apply post_ret, HQ; [done|].
    eapply got_calm; [exact C1| |exact C3]. split; cbn; try done. by rewrite A1.
Qed.

(** Opening a descriptor leaves the file alone. *)
Lemma open_spec garbage (Q : unit → io → Prop) R s :
  (∀ s', chan s' = Chan n (position (sys s)) 0 (Some 0) 0 garbage → contents (sys s') = contents (sys s) → position (sys s') = position (sys s) →
    (patience (sys s') <= patience (sys s))%nat → Q tt s') → post (caml_open_descriptor_in_r n garbage) Q R s.
Proof.
  intros HQ. unfold caml_open_descriptor_in_r. apply post_bind, post_enter. intros s1 [A1 B1 C1 D1]. apply post_bind, post_sys. intros o r Er.
  destruct (tell_law (sys s1)) as (o' & E & E1 & E2 & E3). rewrite E in Er. injection Er as <- <-.
  apply post_bind, post_leave. intros s3 [A3 B3 C3 D3]. apply post_set_end, HQ; cbn in *; [congruence|congruence|congruence|lia].
Qed.
End Files.

(** ** Properties *)

Section Properties.
Context `{Kernel}.

(** The primitives of io.c that flush, write, read or position a channel under
    its lock. *)
Definition locked_primitives (fuel k : nat) (b : list Z) (v1 v2 : Z) : list (IOM Z) :=
  [caml_ml_flush_partial_r fuel; caml_ml_flush_r fuel; caml_ml_output_char_r fuel v1; caml_ml_output_int_r fuel v1;
   caml_ml_output_partial_r fuel b v1 v2; caml_ml_output_r fuel k b v1 v2; caml_ml_seek_out_r fuel v1; caml_ml_seek_out_64_r fuel v1;
   caml_ml_input_char_r fuel; caml_ml_input_int_r fuel; (let* (r, _) := caml_ml_input_r fuel b v1 v2 in mreturn r);
   caml_ml_seek_in_r v1; caml_ml_seek_in_64_r v1; caml_ml_input_scan_line_r fuel k].

Lemma released_ret {A} (m : IOM A) (f : A → Z) s : keeps_lock m → locked s = false → lock_result ((let* x := with_lock m in mreturn (f x)) s) s.
Proof.
  intros Hm Hs. pose proof (with_lock_released m s Hm Hs) as Hr. unfold mbnd. by destruct (with_lock m s) as [[]|[s' x]].
Qed.

Lemma lock_free s : locked s = false → ∀ x : Z, lock_result (inr (s, x)) s.
Proof. by split. Qed.


Lemma hook_chan calls f s s' u : hook calls f s = inr (s', u) → chan s' = chan s.
Proof.
  unfold hook, mmodify, mbnd, syscall. destruct (f _) as [o [e|]]; [done|]. intros [= <- _]. apply calls_same.
Qed.

Lemma buff_byte_eq o b s : 0 <= o → buff (chan s) !! Z.to_nat o = Some b → buff_byte o s = inr (s, b).
Proof.
  intros Ho Hb. pose proof (lookup_lt_Some _ _ _ Hb). unfold buff_byte, buff_load, mbnd, get. cbn beta iota. rewrite !(proj2 (Z.leb_le _ _)) by lia.
  cbn. rewrite (drop_S _ b _ Hb). reflexivity.
Qed.

(** C38: closing a channel does not prevent reading from it: [close] leaves the
    buffer, the offset and [max] at the end of the buffer, so that a seek to
    one of the [IO_BUFFER_SIZE] positions before the offset is served from the
    buffer, without a system call, and the next character is the byte found
    there, whether it was ever read from the file or not. *)
Theorem closed_channel_readable fuel s s1 dest b :
  caml_ml_close_channel_r s = inr (s1, Val_unit) → Z.of_nat (length (buff (chan s))) = IO_BUFFER_SIZE →
  offset (chan s) - IO_BUFFER_SIZE <= dest < offset (chan s) → Min_long <= dest <= Max_long →
  buff (chan s) !! Z.to_nat (IO_BUFFER_SIZE - (offset (chan s) - dest)) = Some b →
  fd (chan s1) = -1 ∧
  ∃ s2 s3, caml_ml_seek_in_r (Val_long dest) s1 = inr (s2, Val_unit) ∧ caml_ml_input_char_r fuel s2 = inr (s3, Val_long b) ∧ sys s3 = sys s1.
Proof.
  intros Hc Hl Hd Hr Hb.
  assert (fd (chan s1) = -1 ∧ offset (chan s1) = offset (chan s) ∧ max (chan s1) = Some IO_BUFFER_SIZE ∧ buff (chan s1) = buff (chan s)) as (E1 & E2 & E3 & E4).
  { revert Hc. unfold caml_ml_close_channel_r, mbnd at 1, get. destruct (Z.eqb_spec (fd (chan s)) (-1)) as [E|E]; cbn [negb].
    - intros [= <-]. by cbn.
    - unfold set_fd, set_max, set_curr, set_chan, mmodify, mbnd, syscall, mreturn, raise, caml_sys_error_r. cbn -[caml_enter_blocking_section_r caml_leave_blocking_section_r].
      destruct (caml_enter_blocking_section_r _) as [|[t1 []]] eqn:E1; [done|]. apply hook_chan in E1. destruct (sys_close _ _) as [o2 r].
      destruct (caml_leave_blocking_section_r _) as [|[t2 []]] eqn:E2; [done|]. apply hook_chan in E2. destruct r; [done|]. intros [= <-]. rewrite E2. cbn. by rewrite E1. }
  split; [done|]. unfold caml_ml_seek_in_r, with_lock, caml_seek_in_r, mbnd, caml_default_mutex_lock, caml_default_mutex_unlock, mmodify, get, get_max, mreturn.
  cbn [chan sys locked depth]. rewrite E3, E2. cbn [chan]. rewrite Long_val_Val_long, s63_small by done.
  rewrite !(proj2 (Z.leb_le _ _)) by lia. cbn [andb]. unfold set_curr, set_chan, mmodify. cbn beta iota. eexists _, _. split; [reflexivity|].
  unfold caml_ml_input_char_r, with_lock, getch, caml_default_mutex_lock, caml_default_mutex_unlock, mmodify, get, mbnd, mreturn. cbn [chan sys locked depth max curr].
  rewrite E3, (proj2 (Z.leb_gt _ _)) by lia. erewrite buff_byte_eq; [|lia|cbn; rewrite E4; exact Hb]. unfold set_curr, set_chan, mmodify. cbn. by split.
Qed.

(** The handlers of a blocking section when an exception escapes, and when none does. *)
Lemma hook_raises calls f s o e : f (sys s) = (o, Some e) → ∃ s', hook calls f s = inl (Raised e s') ∧ chan s' = chan s ∧ sys s' = o ∧ (calls (sys s) = [] → locked s = false → s' = Io (chan s) o false (depth s)).
Proof.
  intros Hf. unfold hook, mmodify, mbnd, syscall, raise. destruct (calls_same (calls (sys s)) s) as [Ec Es]. rewrite Es, Hf. eexists. split; [reflexivity|]. unfold caml_default_mutex_unlock_exn. cbn [locked]. split_and!; [by destruct (locked _)|by destruct (locked _)|]. intros El Hl. rewrite El. cbn. by rewrite Hl.
Qed.
Lemma hook_passes calls f s o : f (sys s) = (o, None) → ∃ s', hook calls f s = inr (s', tt) ∧ chan s' = chan s ∧ sys s' = o ∧ (calls (sys s) = [] → locked s' = locked s ∧ depth s' = depth s).
Proof.
  intros Hf. unfold hook, mmodify, mbnd, syscall. destruct (calls_same (calls (sys s)) s) as [Ec Es]. rewrite Es, Hf. eexists. split; [reflexivity|]. split_and!; [done|done|]. by intros ->.
Qed.

(** C39: an exception raised by a signal handler right after a system call
    leaves the channel as if the call had not been made: the bytes just
    written stay in the buffer, and will be written once more, and the bytes
    just read are dropped, though the position of the descriptor has moved. *)
Theorem signal_after_syscall fuel s e o1 o2 o3 : locked s = false → enter_blocking_section (sys s) = (o1, None) → leave_blocking_section o2 = (o3, Some e) →
  let c := chan s in
  (∀ k, 0 < curr c <= Z.of_nat (length (buff c)) → sys_write (fd c) (take (Z.to_nat (curr c)) (buff c)) o1 = (o2, inr k) →
    ∃ s', caml_flush_partial_r (S fuel) s = inl (Raised e s') ∧ chan s' = c ∧ sys s' = o3 ∧
      (enter_calls (sys s) = [] → leave_calls o2 = [] → s' = Io c o3 false (depth s))) ∧
  (∀ bs m, max c = Some m → m <= curr c → Z.of_nat (length (buff c)) = IO_BUFFER_SIZE → Z.of_nat (length bs) <= IO_BUFFER_SIZE →
    sys_read (fd c) IO_BUFFER_SIZE o1 = (o2, inr bs) →
    ∃ s', getch (S fuel) s = inl (Raised e s') ∧ offset (chan s') = offset c ∧ max (chan s') = max c ∧ curr (chan s') = curr c ∧ sys s' = o3).
Proof.
  intros Hl He Hv c. destruct (hook_passes enter_calls _ s o1 He) as (s1 & E1 & C1 & S1 & L1). fold caml_enter_blocking_section_r in E1. fold c in C1. split.
  - intros k Hc Hw. destruct (hook_raises leave_calls _ (Io (chan s1) o2 (locked s1) (depth s1)) o3 e Hv) as (s' & E2 & C2 & S2 & L2). fold caml_leave_blocking_section_r in E2.
    exists s'. split_and!; [|by rewrite C2|done|].
    + unfold caml_flush_partial_r, mbnd at 1, get. fold c. rewrite (proj2 (Z.ltb_lt _ _)) by lia.
      unfold buff_load, mbnd, get. fold c. cbn [andb]. rewrite !(proj2 (Z.leb_le _ _)) by lia. cbn [andb do_write_r Z.leb Z.compare mreturn].
      unfold mreturn. rewrite (mbnd_eq _ _ _ _ _ E1). unfold mbnd, syscall. rewrite S1, drop_0, take_take, Nat.min_id, Hw. by rewrite E2.
    + intros N1 N2. destruct (L1 N1) as [F1 F2]. rewrite L2; [|done|by cbn; rewrite F1]. cbn. by rewrite C1, F2.
  - intros bs m Hm Hc Hb Hbs Hr. set (c2 := Chan (fd c) (offset c) (curr c) (max c) (refcount c) (overwrite (buff c) 0 bs)).
    destruct (hook_raises leave_calls _ (Io c2 o2 (locked s1) (depth s1)) o3 e Hv) as (s' & E2 & C2 & S2 & _). fold caml_leave_blocking_section_r in E2. exists s'. rewrite C2. split_and!; try done.
    unfold getch, mbnd at 1, get. fold c. rewrite Hm, (proj2 (Z.leb_le _ _)) by lia.
    unfold caml_refill_r, mbnd at 1 2, get. fold c. cbn [caml_do_read_r]. rewrite (mbnd_eq _ _ _ _ _ E1). unfold mbnd, syscall. rewrite S1, Hr.
    unfold buff_store, mbnd, get. cbn [chan]. rewrite C1, !(proj2 (Z.leb_le _ _)) by lia. cbn [andb]. unfold set_buff, set_chan, mmodify. cbn [chan sys locked depth]. change (Z.to_nat 0) with 0%nat. fold c2. by rewrite E2.
Qed.

(** One turn of the loop of [do_write_r]. *)
Lemma write_turn fuel d p k s s1 s3 o2 r : caml_enter_blocking_section_r s = inr (s1, tt) → sys_write d (take (Z.to_nat k) p) (sys s1) = (o2, r) → caml_leave_blocking_section_r (Io (chan s1) o2 (locked s1) (depth s1)) = inr (s3, tt) →
  do_write_r (S fuel) d p k s = match r with
    | inr w => inr (s3, w)
    | inl EINTR => do_write_r fuel d p k s3
    | inl e => (if (match e with EAGAIN | EWOULDBLOCK => true | _ => false end) && (1 <? k) then do_write_r fuel d p 1 else caml_sys_io_error_r e) s3
    end.
Proof. intros E1 Hw E3. cbn [do_write_r]. rewrite (mbnd_eq _ _ _ _ _ E1). unfold mbnd at 1, syscall. rewrite Hw. rewrite (mbnd_eq _ _ _ _ _ E3). by destruct r as [[]|]. Qed.

Section Leaks.
Context (fuel : nat) (s : io) (o1 o2 o3 : os).
Context (Hfree : locked s = false) (Hcurr : 0 < curr (chan s) <= Z.of_nat (length (buff (chan s)))) (Hopen : fd (chan s) ≠ -1).
Context (Henter : enter_blocking_section (sys s) = (o1, None)) (Hcalm : leave_calls o2 = []) (Hleave : leave_blocking_section o2 = (o3, None)).
Let bytes := take (Z.to_nat (curr (chan s))) (buff (chan s)).

Lemma leave_eq b d : caml_leave_blocking_section_r (Io (chan s) o2 b d) = inr (Io (chan s) o3 b d, tt).
Proof. unfold caml_leave_blocking_section_r, hook, mmodify, mbnd, syscall. cbn [sys]. rewrite Hcalm. cbn. by rewrite Hleave. Qed.

(** [caml_ml_flush_partial_r] up to the system call. *)
Lemma flush_start : caml_ml_flush_partial_r (S fuel) s =
  (let* res := with_lock (caml_flush_partial_r (S fuel)) in mreturn (Val_bool res)) s ∧
  buff_load 0 (curr (chan s)) (Io (chan s) (sys s) true (depth s + 1)) = inr (Io (chan s) (sys s) true (depth s + 1), bytes).
Proof.
  split; [unfold caml_ml_flush_partial_r, mbnd at 1, get; by rewrite (proj2 (Z.eqb_neq _ _) Hopen)|]. unfold buff_load, mbnd, get. cbn [chan]. by rewrite !(proj2 (Z.leb_le _ _)) by lia.
Qed.

(** A handler that writes to another channel while this one is being flushed
    leaves [the_currently_locked_channel] at [NULL]: when the system call then
    fails, the exception does not release the mutex. *)
Theorem lock_kept_by_exception n : enter_calls (sys s) = [CallLock; CallUnlock] → sys_write (fd (chan s)) bytes o1 = (o2, inl (Errno n)) →
  ∃ s', caml_ml_flush_partial_r (S fuel) s = inl (Raised (Sys_error (Errno n)) s') ∧ locked s' = false ∧ depth s' = depth s + 1.
Proof.
  intros Hcalls Hw. destruct flush_start as [-> Hload]. set (s0 := Io (chan s) (sys s) true (depth s + 1)) in *. exists (Io (chan s) o3 false (depth s + 1)). split; [|done].
  assert (caml_enter_blocking_section_r s0 = inr (Io (chan s) o1 false (depth s + 1), tt)) as E1.
  { unfold caml_enter_blocking_section_r, hook, mmodify, mbnd, syscall, s0. cbn [sys]. rewrite Hcalls. cbn. rewrite Henter. unfold mreturn. do 3 f_equal. lia. }
  pose proof (write_turn fuel (fd (chan s)) bytes (curr (chan s)) s0 _ _ o2 (inl (Errno n)) E1 ltac:(unfold bytes in *; by rewrite take_take, Nat.min_id) (leave_eq _ _)) as Ew. cbn [andb] in Ew.
  unfold with_lock, caml_default_mutex_lock, mmodify, mbnd at 1 2 3. fold s0. unfold caml_flush_partial_r, mbnd at 1, get at 1. change (chan s0) with (chan s). rewrite (proj2 (Z.ltb_lt 0 (curr (chan s)))) by lia. unfold mbnd. rewrite Hload, Ew. done.
Qed.

(** A handler in which an exception is raised from C, and caught, releases the
    mutex of the channel that is being flushed; it is released once more when
    the primitive returns. *)
Theorem lock_released_twice : enter_calls (sys s) = [CallRaise] → sys_write (fd (chan s)) bytes o1 = (o2, inr (curr (chan s))) →
  ∃ s', caml_ml_flush_partial_r (S fuel) s = inr (s', Val_true) ∧ depth s' = depth s - 1.
Proof.
  intros Hcalls Hw. destruct flush_start as [-> Hload]. set (s0 := Io (chan s) (sys s) true (depth s + 1)) in *. eexists.
  assert (caml_enter_blocking_section_r s0 = inr (Io (chan s) o1 false (depth s), tt)) as E1.
  { unfold caml_enter_blocking_section_r, hook, mmodify, mbnd, syscall, s0. cbn [sys]. rewrite Hcalls. cbn. rewrite Henter. unfold mreturn. do 3 f_equal. lia. }
  pose proof (write_turn fuel (fd (chan s)) bytes (curr (chan s)) s0 _ _ o2 (inr (curr (chan s))) E1 ltac:(unfold bytes in *; by rewrite take_take, Nat.min_id) (leave_eq _ _)) as Ew.
  split.
  - unfold with_lock, caml_default_mutex_lock, mmodify, mbnd at 1 2 3. fold s0. unfold caml_flush_partial_r, mbnd at 1, get at 1. change (chan s0) with (chan s). rewrite (proj2 (Z.ltb_lt 0 (curr (chan s)))) by lia. unfold mbnd. rewrite Hload, Ew. rewrite Z.ltb_irrefl. cbn. rewrite Z.sub_diag. reflexivity.
  - done.
Qed.
End Leaks.
End Properties.

(** ** An operating system with one file *)

(** The file open as descriptor 5: its contents, the position in it, and how
    often a call is still interrupted.  A call transfers three bytes at most. *)
Definition ex_os : Type := (list Z * nat * nat)%type.

Definition ex_write (fd : Z) (bs : list Z) (o : ex_os) : ex_os * (errno + Z) :=
  match o with
  | (c, p, S t) => ((c, p, t), inl EINTR)
  | (c, p, O) =>
      if negb (fd =? 5) then (o, inl EBADF) else
      let l := take 3 bs in ((write_at c p l, p + length l, O)%nat, inr (Z.of_nat (length l)))
  end.
Definition ex_read (fd k : Z) (o : ex_os) : ex_os * (errno + list Z) :=
  match o with
  | (c, p, S t) => ((c, p, t), inl EINTR)
  | (c, p, O) =>
      if negb (fd =? 5) then (o, inl EBADF) else
      let l := take (3 `min` Z.to_nat k)%nat (drop p c) in ((c, p + length l, O)%nat, inr l)
  end.
Definition ex_lseek (fd d : Z) (w : whence) (o : ex_os) : ex_os * (errno + Z) :=
  let '(c, p, t) := o in
  let q := match w with SEEK_SET => d | SEEK_CUR => Z.of_nat p + d | SEEK_END => Z.of_nat (length c) + d end in
  if negb (fd =? 5) then (o, inl EBADF) else if q <? 0 then (o, inl (Errno 22)) else ((c, Z.to_nat q, t), inr q).

Definition ex_kernel : Kernel := {|
  os := ex_os;
  sys_write := ex_write;
  sys_read := ex_read;
  sys_lseek := ex_lseek;
  sys_close := λ fd o, (o, if fd =? 5 then None else Some EBADF);
  enter_blocking_section := λ o, (o, None);
  leave_blocking_section := λ o, (o, None);
  enter_calls := λ _, [];
  leave_calls := λ _, []
|}.

Lemma take_taken (l : list Z) j : take (length (take j l)) l = take j l.
Proof.
  rewrite length_take. destruct (Nat.le_gt_cases j (length l)); [by rewrite Nat.min_l by lia|].
  rewrite Nat.min_r by lia. by rewrite !take_ge by lia.
Qed.

Lemma ex_write_law o bs : bs ≠ [] →
  match ex_write 5 bs o with
  | (o', inr k) => 0 < k <= Z.of_nat (length bs) ∧ o'.1.1 = write_at o.1.1 (Z.to_nat (Z.of_nat o.1.2)) (take (Z.to_nat k) bs) ∧
      Z.of_nat o'.1.2 = Z.of_nat o.1.2 + k ∧ (o'.2 <= o.2)%nat
  | (o', inl e) => o'.1.1 = o.1.1 ∧ Z.of_nat o'.1.2 = Z.of_nat o.1.2 ∧ (o'.2 + (if e is EINTR then 1 else 0) <= o.2)%nat
  end.
Proof.
  destruct o as [[c p] [|t]]; intros Hb; cbn -[take]; [|split_and!; [done|done|lia]]. pose proof (length_take bs 3) as Hl.
  assert (0 < length bs)%nat by (destruct bs; [done|cbn; lia]). rewrite !Nat2Z.id, take_taken. split_and!; [lia|lia|done|lia|lia].
Qed.

Lemma ex_read_law o k : 0 < k →
  match ex_read 5 k o with
  | (o', inr bs) => Z.of_nat (length bs) <= k ∧ bs = take (length bs) (drop (Z.to_nat (Z.of_nat o.1.2)) o.1.1) ∧
      (bs = [] → Z.of_nat (length o.1.1) <= Z.of_nat o.1.2) ∧ o'.1.1 = o.1.1 ∧ Z.of_nat o'.1.2 = Z.of_nat o.1.2 + Z.of_nat (length bs) ∧ (o'.2 <= o.2)%nat
  | (o', inl e) => o'.1.1 = o.1.1 ∧ Z.of_nat o'.1.2 = Z.of_nat o.1.2 ∧ (o'.2 + (if e is EINTR then 1 else 0) <= o.2)%nat
  end.
Proof.
  destruct o as [[c p] [|t]]; intros Hk; cbn -[take Nat.min]; [|split_and!; [done|done|lia]]. rewrite Nat2Z.id, take_taken.
  pose proof (length_take (drop p c) (3 `min` Z.to_nat k)) as Hl. rewrite length_drop in Hl. split_and!; [lia|done| |done|lia|lia].
  intros E. rewrite E in Hl. cbn [length] in Hl. lia.
Qed.

Definition ex_laws : @FileLaws ex_kernel 5.
Proof.
  refine (@Build_FileLaws ex_kernel 5 (λ o : ex_os, o.1.1) (λ o : ex_os, Z.of_nat o.1.2) (λ o : ex_os, o.2) _ ex_write_law ex_read_law _ _ _ _).
  - intros o. lia.
  - intros [[c p] t] d Hd. cbn. rewrite (proj2 (Z.ltb_ge d 0)) by lia. cbn. split_and!; [done|done|lia|done].
  - intros [[c p] t]. cbn. rewrite (proj2 (Z.ltb_ge _ 0)) by lia. eexists. split; [by rewrite Z.add_0_r, Nat2Z.id|done].
  - intros o. by exists o.
  - intros o. by exists o.
Defined.

Definition ex_garbage : list Z := replicate (Z.to_nat IO_BUFFER_SIZE) 0.
Definition ex_io (c : list Z) (p : nat) : @io ex_kernel := @Io ex_kernel (Chan (-1) 0 0 None 0 []) (c, p, 1%nat) false 0.

Lemma ex_garbage_length : Z.of_nat (length ex_garbage) = IO_BUFFER_SIZE.
Proof. unfold ex_garbage. rewrite length_replicate. apply Z2Nat.id. done. Qed.

(** ** Witnesses *)

(** An input channel on a file of four bytes: two are read, then it is closed. *)
Definition ex_read_io : @io ex_kernel :=
  @Io ex_kernel (Chan 5 3 2 (Some 3) 0 (overwrite ex_garbage 0 [97; 98; 99])) ([97; 98; 99; 100], 3%nat, O) false 0.

(** Whether [m] returns [v]. *)
Definition ex_returns (m : @M (@io ex_kernel) (@io_stop ex_kernel) Z) (s : @io ex_kernel) (v : Z) : bool :=
  match m s with inr (_, x) => x =? v | inl _ => false end.

Lemma ex_returns_true m s v : ex_returns m s v = true → ∃ s', m s = inr (s', v).
Proof. unfold ex_returns. destruct (m s) as [e|[s' x]]; [done|]. intros ->%Z.eqb_eq. by exists s'. Qed.

(** The first of the three bytes read from the file before it was closed is
    then said to be 0. *)
Lemma closed_channel_readable_witness :
  ∃ s1 s2 s3, @caml_ml_close_channel_r ex_kernel ex_read_io = inr (s1, Val_unit) ∧
    @caml_ml_seek_in_r ex_kernel (Val_long 0) s1 = inr (s2, Val_unit) ∧ @caml_ml_input_char_r ex_kernel 1 s2 = inr (s3, Val_long 0).
Proof.
  destruct (ex_returns_true (@caml_ml_close_channel_r ex_kernel) ex_read_io Val_unit ltac:(vm_compute; reflexivity)) as [s1 E].
  destruct (@closed_channel_readable ex_kernel 1 ex_read_io s1 0 0 E) as (_ & s2 & s3 & H1 & H2 & _).
  - vm_compute. reflexivity.
  - vm_compute. split; congruence.
  - vm_compute. split; congruence.
  - vm_compute. reflexivity.
  - exists s1, s2, s3. exact (conj E (conj H1 H2)).
Defined.

(** [ex_kernel] with a handler that raises an exception after the first call. *)
Definition ex_signal : Kernel := {|
  os := ex_os; sys_write := ex_write; sys_read := ex_read; sys_lseek := ex_lseek; sys_close := λ _ o, (o, None);
  enter_blocking_section := λ o, (o, None); leave_blocking_section := λ o, (o, Some (Signal_handler 1));
  enter_calls := λ _, []; leave_calls := λ _, [] |}.

(** [ex_kernel] with handlers that use channels around every call; the second
    use ends with an exception. *)
Definition ex_busy : Kernel := {|
  os := ex_os; sys_write := ex_write; sys_read := ex_read; sys_lseek := ex_lseek; sys_close := λ _ o, (o, None);
  enter_blocking_section := λ o, (o, None); leave_blocking_section := λ o, (o, None);
  enter_calls := λ _, [CallLock; CallUnlock]; leave_calls := λ _, [CallLock; CallRaise] |}.


(** Two characters to write: they reach the file and stay in the buffer. *)
Lemma signal_after_syscall_witness :
  let c := Chan 5 0 2 None 0 [97; 98] in
  @caml_flush_partial_r ex_signal 1 (@Io ex_signal c ([], O, O) false 0) =
    inl (@Raised ex_signal (Signal_handler 1) (@Io ex_signal c ([97; 98], 2%nat, O) false 0)).
Proof.
  destruct (@signal_after_syscall ex_signal 0 (@Io ex_signal (Chan 5 0 2 None 0 [97; 98]) ([], O, O) false 0) (Signal_handler 1)
    ([], O, O) ([97; 98], 2%nat, O) ([97; 98], 2%nat, O) eq_refl eq_refl eq_refl) as [H1 _].
  destruct (H1 2 ltac:(cbn; lia) eq_refl) as (s' & E & _ & _ & Hs). rewrite (Hs eq_refl eq_refl) in E. exact E.
Defined.
End Io.
