(* ===== verification/IoOut.v ===== *)
(** Output channels (byterun/io.c) as writers of a file.

    The view of a channel is the file with the bytes of the buffer written at
    the offset.  Every primitive changes the view as if it wrote to the file
    directly; an exception loses nothing of what earlier operations added. *)

From S2P Require Import Prelude Mlvalues Io.
Import Io.

Module IoOut.

(** ** Output channels *)

(** A file as its contents and a position in it. *)
Definition put (bs : list Z) (x : list Z * Z) : list Z * Z :=
  (write_at x.1 (Z.to_nat x.2) bs, x.2 + Z.of_nat (length bs)).

Lemma put_app a b x : 0 <= x.2 → put b (put a x) = put (a ++ b) x.
Proof.
  intros Hx. unfold put. cbn [fst snd]. rewrite length_app, <- write_at_app. f_equal; [|lia]. f_equal. lia.
Qed.

Lemma put_nil x : put [] x = x.
Proof. destruct x as [c p]. unfold put. cbn. f_equal. lia. Qed.

Lemma take_overwrite (l : list Z) bs : (length bs <= length l)%nat → take (length bs) (overwrite l 0 bs) = bs.
Proof. intros Hl. unfold overwrite. rewrite take_0, app_nil_l. apply take_app_length. Qed.

Lemma take_overwrite_end (l : list Z) o bs : (o + length bs <= length l)%nat → take (o + length bs) (overwrite l o bs) = take o l ++ bs.
Proof.
  intros Hl. unfold overwrite. rewrite app_assoc. apply take_app_length'. rewrite length_app, length_take. lia.
Qed.

Section Output.
Context {K : Kernel} {n : Z} {L : FileLaws n}.

Record out_ok (s : io) : Prop := {
  out_fd : fd (chan s) = n;
  out_curr : 0 <= curr (chan s) <= IO_BUFFER_SIZE;
  out_buff : Z.of_nat (length (buff (chan s))) = IO_BUFFER_SIZE;
  out_offset : offset (chan s) = position (sys s)
}.

(** The file with the bytes of the buffer written at the offset, and the
    position after them. *)
Definition out_view (s : io) : list Z * Z :=
  put (take (Z.to_nat (curr (chan s))) (buff (chan s))) (contents (sys s), offset (chan s)).

Lemma view_empty s : curr (chan s) = 0 → out_view s = (contents (sys s), offset (chan s)).
Proof. unfold out_view. intros ->. change (Z.to_nat 0) with 0%nat. rewrite take_0. apply put_nil. Qed.

Lemma view_calm s s' : calm s s' → out_ok s → out_ok s' ∧ out_view s' = out_view s.
Proof.
  intros [E1 E2 E3 _] [H1 H2 H3 H4]. split; [split; rewrite ?E1, ?E3; done|]. unfold out_view. by rewrite E1, E2.
Qed.

Lemma offset_pos s : out_ok s → 0 <= offset (chan s).
Proof. intros Hs. rewrite (out_offset _ Hs). apply position_pos. Qed.

(** The first [w] of [k] buffered bytes leave the buffer for the file. *)
Lemma view_written c b off (k w : nat) : 0 <= off → (w <= k <= length b)%nat →
  put (take (k - w) (drop w b)) (put (take w b) (c, off)) = put (take k b) (c, off).
Proof.
  intros Ho Hk. rewrite put_app by done. f_equal. rewrite <- (take_drop w (take k b)), take_take, skipn_firstn_comm.
  by replace (w `min` k)%nat with w by lia.
Qed.

(** What makes room by writing [w] of the [k] bytes of the buffer. *)
Lemma out_shift s s' (k w : nat) cu : out_ok s → (0 < w <= k)%nat → Z.of_nat k <= IO_BUFFER_SIZE → cu = Z.of_nat k - Z.of_nat w →
  wrote s s' (take w (buff (chan s))) →
  let b' := (if (w <? k)%nat then overwrite (buff (chan s)) 0 (take (k - w) (drop w (buff (chan s)))) else buff (chan s)) in
  let s1 := Io (Chan n (offset (chan s) + Z.of_nat w) cu (max (chan s)) (refcount (chan s)) b') (sys s') (locked s') (depth s') in
  out_ok s1 ∧ out_view s1 = put (take k (buff (chan s))) (contents (sys s), offset (chan s)).
Proof.
  intros Hs Hw Hk -> [Wc Wf Wp _] b' s1. pose proof (offset_pos s Hs) as Ho. destruct Hs as [H1 H2 H3 H4]. unfold IO_BUFFER_SIZE in *.
  assert (length (take (k - w) (drop w (buff (chan s)))) = (k - w)%nat) as Hrest by (rewrite length_take, length_drop; lia).
  assert (length b' = length (buff (chan s))) as Hb by (unfold b'; destruct (Nat.ltb_spec w k); [apply overwrite_length; lia|done]).
  rewrite length_take in Wp. split.
  - split; cbn; unfold IO_BUFFER_SIZE; lia.
  - unfold out_view. cbn. replace (Z.to_nat (Z.of_nat k - Z.of_nat w)) with (k - w)%nat by lia.
    assert (take (k - w) b' = take (k - w) (drop w (buff (chan s)))) as ->.
    { unfold b'. destruct (Nat.ltb_spec w k); [|by replace (k - w)%nat with 0%nat by lia].
      rewrite <- Hrest at 1. apply take_overwrite. lia. }
    rewrite <- (view_written (contents (sys s)) (buff (chan s)) (offset (chan s)) k w) by lia. f_equal. unfold put. cbn.
    rewrite Wf, length_take, <- H4. f_equal. lia.
Qed.

(** [if (written < towrite) memmove(buff, buff + written, towrite - written)] *)
Lemma post_shift w k Q R s : 0 <= w → 0 <= k <= Z.of_nat (length (buff (chan s))) →
  let b := buff (chan s) in
  Q tt (Io (Chan (fd (chan s)) (offset (chan s)) (curr (chan s)) (max (chan s)) (refcount (chan s))
    (if (Z.to_nat w <? Z.to_nat k)%nat then overwrite b 0 (take (Z.to_nat k - Z.to_nat w) (drop (Z.to_nat w) b)) else b)) (sys s) (locked s) (depth s)) →
  post (if w <? k then let* rest := buff_load w (k - w) in buff_store 0 rest else mreturn tt) Q R s.
Proof.
  intros Hw Hk b HQ. replace (w <? k) with (Z.to_nat w <? Z.to_nat k)%nat.
  2:{ destruct (Z.ltb_spec w k), (Nat.ltb_spec (Z.to_nat w) (Z.to_nat k)); (done || lia). }
  destruct (Nat.ltb_spec (Z.to_nat w) (Z.to_nat k)); [|by destruct s as [[] ? ? ?]].
  apply post_bind, post_load; [lia..|]. apply post_store; [lia|rewrite length_take, length_drop; lia|].
  by replace (Z.to_nat (k - w)) with (Z.to_nat k - Z.to_nat w)%nat by lia.
Qed.

(** The bytes [bs] are added to the stream. *)
Definition added (s s' : io) (bs : list Z) : Prop :=
  out_ok s' ∧ out_view s' = put bs (out_view s) ∧ (patience (sys s') <= patience (sys s))%nat.

Lemma view_pos s : out_ok s → 0 <= (out_view s).2.
Proof. intros Hs. pose proof (offset_pos s Hs). cbn. lia. Qed.

Lemma added_nil s : out_ok s → added s s [].
Proof. intros Hs. split_and!; [done|by rewrite put_nil|done]. Qed.

Lemma added_trans s1 s2 s3 a b : out_ok s1 → added s1 s2 a → added s2 s3 b → added s1 s3 (a ++ b).
Proof.
  intros Hs (H1 & V1 & P1) (H2 & V2 & P2). split_and!; [done| |lia]. rewrite V2, V1. apply put_app. by apply view_pos.
Qed.

Lemma calm_added s s' : calm s s' → out_ok s → added s s' [].
Proof. intros C Hs. destruct (view_calm s s' C Hs) as [H1 H2]. split_and!; [done|by rewrite put_nil|apply C]. Qed.

(** What a step of an output channel leaves: [k] bytes at most in the buffer. *)
Definition flushed (s : io) (s' : io) (k : Z) : Prop :=
  out_ok s' ∧ out_view s' = out_view s ∧ curr (chan s') <= k ∧ (patience (sys s') <= patience (sys s))%nat.

Lemma flush_partial_spec fuel s : out_ok s → (patience (sys s) + 2 <= fuel)%nat →
  post (caml_flush_partial_r fuel) (λ b s', flushed s s' (Z.max 0 (curr (chan s) - 1)) ∧ b = (curr (chan s') =? 0))
    (λ _ s', added s s' []) s.
Proof.
  intros Hs Hf. pose proof Hs as [H1 H2 H3 H4]. unfold caml_flush_partial_r. apply post_get, post_bind. destruct (Z.ltb_spec 0 (curr (chan s))) as [Hc|Hc].
  2:{ apply post_ret, post_get, post_ret. split; [|done]. split_and!; try done. lia. }
  apply post_bind, post_load; [lia..|]. change (Z.to_nat 0) with 0%nat. rewrite drop_0, H1. apply post_bind. apply do_write_spec.
  - rewrite length_take. lia.
  - destruct (1 <? curr (chan s)); lia.
  - intros s' w Hw W. rewrite take_take, Nat.min_l in W by lia.
    pose proof (out_shift s s' (Z.to_nat (curr (chan s))) (Z.to_nat w) (curr (chan s) - w) Hs ltac:(lia) ltac:(lia) ltac:(lia) W) as Hv.
    cbv zeta in Hv. rewrite Z2Nat.id in Hv by lia. pose proof (wrote_chan _ _ _ W) as Ec. pose proof (wrote_patience _ _ _ W) as Hp.
    apply post_set, post_bind, post_shift; cbn [chan buff]; rewrite ?Ec; [lia|lia|]. apply post_set_end, post_get, post_ret.
    cbn [chan sys fd offset curr max refcount buff locked depth]. rewrite H1. split; [|done]. split_and!; [apply Hv|apply Hv|cbn; lia|done].
  - intros e s' C. by apply calm_added.
Qed.

Lemma flush_spec fuel : ∀ s, out_ok s → (patience (sys s) + 2 + Z.to_nat (curr (chan s)) <= fuel)%nat →
  post (caml_flush_r fuel) (λ _ s', flushed s s' 0) (λ _ s', added s s' []) s.
Proof.
  induction fuel as [|fuel IH]; intros s Hs Hf; [lia|]. cbn [caml_flush_r]. apply post_bind.
  eapply post_conseq; [apply flush_partial_spec; [done|lia]| |done]. cbn beta. intros b s' [(Ho & Hv & Hc & Hp) ->].
  pose proof (out_curr _ Ho). destruct (Z.eqb_spec (curr (chan s')) 0) as [E|E].
  - apply post_ret. split_and!; [done|done|lia|done].
  - eapply post_conseq; [apply IH; [done|lia]| |].
    + cbn beta. intros _ s'' (Ho' & Hv' & Hc' & Hp'). split_and!; [done|congruence|lia|lia].
    + cbn beta. intros _ s'' Ha. apply (added_trans s s' s'' [] []); [done| |done]. split_and!; [done|by rewrite put_nil|done].
Qed.

Lemma flushed_added s s' k : flushed s s' k → added s s' [].
Proof. intros (H1 & H2 & _ & H3). split_and!; [done|by rewrite put_nil|done]. Qed.

(** Appending to the buffer. *)
Lemma append_spec s bs Q R : out_ok s → curr (chan s) + Z.of_nat (length bs) <= IO_BUFFER_SIZE →
  (∀ s', added s s' bs → Q tt s') → post (buff_store (curr (chan s)) bs ;;; set_curr (curr (chan s) + Z.of_nat (length bs))) Q R s.
Proof.
  intros Hs Hl HQ. pose proof (view_pos s Hs). pose proof (offset_pos s Hs). destruct Hs as [H1 H2 H3 H4].
  apply post_bind, post_store; [lia|lia|]. apply post_set_end, HQ. cbn [chan sys fd offset curr max refcount buff locked depth]. split_and!; [|..|done].
  - split; cbn [chan sys fd offset curr buff]; [done|lia| |done]. rewrite overwrite_length by lia. done.
  - unfold out_view. cbn [chan sys fd offset curr buff]. rewrite put_app by done. f_equal.
    rewrite Z2Nat.inj_add, Nat2Z.id by lia. apply take_overwrite_end. lia.
Qed.

Lemma putch_spec fuel ch s : out_ok s → (patience (sys s) + 2 <= fuel)%nat →
  post (putch fuel ch) (λ _ s', added s s' [ch mod 256]) (λ _ s', added s s' []) s.
Proof.
  intros Hs Hf. unfold putch. apply post_get, post_bind.
  assert (post (if IO_BUFFER_SIZE <=? curr (chan s) then caml_flush_partial_r fuel ;;; mreturn tt else mreturn tt)
    (λ _ s', added s s' [] ∧ curr (chan s') < IO_BUFFER_SIZE) (λ _ s', added s s' []) s) as Hroom.
  { pose proof (out_curr _ Hs). destruct (Z.leb_spec IO_BUFFER_SIZE (curr (chan s))); [|apply post_ret; split; [by apply added_nil|done]].
    apply post_bind. eapply post_conseq; [by apply flush_partial_spec| |].
    - cbn beta. intros b s' [Hf' _]. apply post_ret. split; [by eapply flushed_added|]. destruct Hf' as (_ & _ & Hc & _). unfold IO_BUFFER_SIZE in *. lia.
    - done. }
  eapply post_conseq; [exact Hroom| |done]. cbn beta. intros _ s' [Ha Hc]. apply post_get.
  apply (append_spec s' [ch mod 256]); [apply Ha|cbn; lia|]. intros s'' Ha'. change [ch mod 256] with ([] ++ [ch mod 256]). by apply (added_trans s s' s'').
Qed.

Lemma post_assoc {A B C} (m : IOM A) (k : A → IOM B) (h : B → IOM C) Q R s :
  post (mbnd (mbnd m k) h) Q R s → post (mbnd m (λ x, mbnd (k x) h)) Q R s.
Proof. unfold post. by rewrite mbnd_assoc. Qed.

(** Storing beyond [curr] does not change the stream. *)
Lemma store_beyond s bs b' : out_ok s → curr (chan s) + Z.of_nat (length bs) <= IO_BUFFER_SIZE →
  b' = overwrite (buff (chan s)) (Z.to_nat (curr (chan s))) bs →
  let s1 := Io (Chan (fd (chan s)) (offset (chan s)) (curr (chan s)) (max (chan s)) (refcount (chan s)) b') (sys s) (locked s) (depth s) in
  out_ok s1 ∧ out_view s1 = out_view s ∧ take (Z.to_nat (curr (chan s)) + length bs) b' = take (Z.to_nat (curr (chan s))) (buff (chan s)) ++ bs.
Proof.
  intros [H1 H2 H3 H4] Hl -> s1. split_and!.
  - split; cbn [chan sys fd offset curr buff s1]; [done|done| |done]. by rewrite overwrite_length by lia.
  - unfold out_view. cbn [chan sys fd offset curr buff s1]. f_equal. unfold overwrite. apply take_app_length'. rewrite length_take. lia.
  - apply take_overwrite_end. lia.
Qed.

Lemma putblock_spec fuel p len s : out_ok s → 0 < len <= Z.of_nat (length p) → (patience (sys s) + 2 <= fuel)%nat →
  post (caml_putblock_r fuel p len)
    (λ r s', added s s' (take (Z.to_nat r) p) ∧ 0 <= r <= len ∧ (curr (chan s) < IO_BUFFER_SIZE → 0 < r) ∧ (r = 0 → curr (chan s') < IO_BUFFER_SIZE))
    (λ _ s', added s s' []) s.
Proof.
  intros Hs Hlen Hf. pose proof Hs as [H1 H2 H3 H4]. unfold caml_putblock_r. apply post_get. cbv zeta.
  set (k := if INT_MAX <=? len then INT_MAX else s32 len).
  assert (0 < k <= len) as Hk.
  { unfold k, INT_MAX. destruct (Z.leb_spec 2147483647 len); [lia|]. unfold s32, H32. rewrite Z.mod_small by lia. lia. }
  destruct (Z.ltb_spec k (IO_BUFFER_SIZE - curr (chan s))) as [Hfit|Hfit].
  - apply post_assoc, post_bind. pose proof (append_spec s (take (Z.to_nat k) p)) as Happ. rewrite length_take in Happ.
    replace (Z.of_nat (Z.to_nat k `min` length p)) with k in Happ by lia. apply Happ; [done|lia|]. intros s' Ha. apply post_ret. split_and!; [done|lia|lia|lia|lia].
  - set (free := IO_BUFFER_SIZE - curr (chan s)) in *. assert (length (take (Z.to_nat free) p) = Z.to_nat free) as Hl by (rewrite length_take; lia).
    apply post_bind, post_store; [lia|lia|].
    edestruct (store_beyond s (take (Z.to_nat free) p)) as (Ho1 & Hv1 & Hb); [done|lia|reflexivity|]. cbv zeta in Ho1, Hv1.
    match type of Ho1 with out_ok ?x => set (s1 := x) in * end. rewrite Hl in Hb. replace (Z.to_nat (curr (chan s)) + Z.to_nat free)%nat with (Z.to_nat IO_BUFFER_SIZE) in Hb by lia.
    pose proof (out_buff _ Ho1) as Hlen1. apply post_bind, post_load; [done|done|lia|]. change (Z.to_nat 0) with 0%nat. rewrite drop_0, H1. apply post_bind, do_write_spec.
    + rewrite length_take. unfold IO_BUFFER_SIZE in *. lia.
    + change (patience (sys s1)) with (patience (sys s)). cbn [Z.ltb]. destruct (1 <? IO_BUFFER_SIZE); lia.
    + intros s2 w Hw W. rewrite take_take, Nat.min_l in W by lia.
      pose proof (out_shift s1 s2 (Z.to_nat IO_BUFFER_SIZE) (Z.to_nat w) (IO_BUFFER_SIZE - w) Ho1 ltac:(lia) ltac:(lia) ltac:(lia) W) as Hv.
      cbv zeta in Hv. rewrite Z2Nat.id in Hv by lia. pose proof (wrote_chan _ _ _ W) as Ec. pose proof (wrote_patience _ _ _ W) as Hp.
      apply post_bind, post_shift; rewrite ?Ec; [lia|unfold IO_BUFFER_SIZE in *; lia|]. apply post_set, post_set, post_ret.
      cbn [chan sys fd offset curr max refcount buff locked depth]. change (fd (chan s1)) with (fd (chan s)). rewrite H1. destruct Hv as [Hv1' Hv2].
      split_and!; [split_and!; [exact Hv1'| |exact Hp]|lia|lia|lia|cbn; lia].
      etransitivity; [exact Hv2|]. change (buff (chan s1)) with (overwrite (buff (chan s)) (Z.to_nat (curr (chan s))) (take (Z.to_nat free) p)).
      rewrite Hb. rewrite <- put_app by (apply (offset_pos s Hs)). reflexivity.
    + intros e s' C. destruct (calm_added s1 s' C Ho1) as (Ha1 & Ha2 & Ha3). split_and!; [done|by rewrite Ha2, Hv1|done].
Qed.

(** An exception after some of the bytes [bs] were added. *)
Definition cut (s : io) (bs : list Z) (_ : exn) (s' : io) : Prop := ∃ p, p `prefix_of` bs ∧ added s s' p.

Lemma cut_app s s1 a b e s' : out_ok s → added s s1 a → cut s1 b e s' → cut s (a ++ b) e s'.
Proof. intros Hs Ha (p & Hp & Hb). exists (a ++ p). split; [by apply prefix_app|by apply (added_trans s s1 s')]. Qed.

Lemma cut_nil s bs e s' : added s s' [] → cut s bs e s'.
Proof. intros Ha. exists []. split; [apply prefix_nil|done]. Qed.

(** [m] adds the bytes [bs], given enough fuel for interrupted calls. *)
Definition writes (fuel : nat) {A} (m : IOM A) (bs : list Z) : Prop :=
  ∀ s, out_ok s → (patience (sys s) + 2 <= fuel)%nat → post m (λ _ s', added s s' bs) (cut s bs) s.

Lemma writes_seq fuel {A B} (m : IOM A) (k : IOM B) a b : writes fuel m a → writes fuel k b → writes fuel (m ;;; k) (a ++ b).
Proof.
  intros Hm Hk s Hs Hf. apply post_bind. eapply post_conseq; [by apply Hm| |].
  - cbn beta. intros _ s1 Ha. pose proof Ha as (Ho & _ & Hp). eapply post_conseq; [apply Hk; [done|lia]| |].
    + cbn beta. intros _ s2 Hb. by apply (added_trans s s1 s2).
    + intros e s2. by apply cut_app.
  - intros e s' (p & Hp & Ha). exists p. split; [by apply prefix_app_r|done].
Qed.

Lemma writes_putch fuel ch : writes fuel (putch fuel ch) [ch mod 256].
Proof. intros s Hs Hf. eapply post_conseq; [by apply putch_spec|done|]. intros e s'. apply cut_nil. Qed.

(** The four bytes of a word, most significant first. *)
Definition word_bytes (w : Z) : list Z := [Z.shiftr w 24 mod 256; Z.shiftr w 16 mod 256; Z.shiftr w 8 mod 256; w mod 256].

Lemma writes_putword fuel w : writes fuel (caml_putword_r fuel w) (word_bytes w).
Proof.
  unfold caml_putword_r. cbn [caml_channel_binary_mode negb]. intros s Hs Hf. apply post_bind, post_ret. revert s Hs Hf.
  change (word_bytes w) with ([Z.shiftr w 24 mod 256] ++ [Z.shiftr w 16 mod 256] ++ [Z.shiftr w 8 mod 256] ++ [w mod 256]).
  repeat apply writes_seq; apply writes_putch.
Qed.

Lemma output_loop_spec fuel k : ∀ s b pos len, out_ok s → (patience (sys s) + 2 <= fuel)%nat →
  0 <= pos → 0 <= len → pos + len <= Z.of_nat (length b) → (2 * Z.to_nat len + (if (curr (chan s) <? IO_BUFFER_SIZE)%Z then 0 else 1) <= k)%nat →
  let bs := take (Z.to_nat len) (drop (Z.to_nat pos) b) in
  post (output_loop fuel k b pos len) (λ _ s', added s s' bs) (cut s bs) s.
Proof.
  induction k as [|k IH]; intros s b pos len Hs Hf Hpos Hlen Hb Hk bs; cbn [output_loop]; destruct (Z.ltb_spec 0 len) as [Hl|Hl]; try lia;
    try (replace bs with (@nil Z) by (unfold bs; by replace (Z.to_nat len) with 0%nat by lia); apply post_ret; by apply added_nil).
  apply post_bind. eapply post_conseq; [apply putblock_spec; [done|rewrite length_drop; lia|done]| |intros e s'; apply cut_nil].
  cbn beta. intros r s1 (Ha & Hr & Hpr & Hz). pose proof Ha as (Ho & _ & Hp).
  assert (bs = take (Z.to_nat r) (drop (Z.to_nat pos) b) ++ take (Z.to_nat (len - r)) (drop (Z.to_nat (pos + r)) b)) as ->.
  { unfold bs. rewrite <- (take_drop (Z.to_nat r) (take (Z.to_nat len) (drop (Z.to_nat pos) b))), take_take, skipn_firstn_comm, drop_drop.
    do 2 f_equal; [lia|f_equal; lia|f_equal; lia]. }
  eapply post_conseq; [apply (IH s1); [done|lia|lia|lia|lia|]| |].
  - destruct (Z.ltb_spec (curr (chan s1)) IO_BUFFER_SIZE), (Z.ltb_spec (curr (chan s)) IO_BUFFER_SIZE); lia.
  - cbn beta. intros _ s2 Hb2. by apply (added_trans s s1 s2).
  - intros e s2. by apply cut_app.
Qed.

Lemma out_ok_ext s s' : chan s' = chan s → sys s' = sys s → out_ok s → out_ok s'.
Proof. intros E1 E2 [H1 H2 H3 H4]. split; by rewrite E1, ?E2. Qed.

(** *** Sequences of primitives *)

Inductive out_op : Type :=
  | OutputChar (ch : Z)
  | OutputInt (w : Z)
  | Output (b : list Z) (start len : Z)
  | FlushPartial
  | Flush
  | SeekOut (pos : Z).

Definition fixnum (x : Z) : Prop := Min_long <= x <= Max_long.

Definition out_op_ok (k : nat) (op : out_op) : Prop :=
  match op with
  | OutputChar x | OutputInt x => fixnum x
  | Output b start len => 0 <= start <= Max_long ∧ 0 <= len <= Max_long ∧ start + len <= Z.of_nat (length b) ∧ (2 * Z.to_nat len < k)%nat
  | FlushPartial | Flush => True
  | SeekOut pos => 0 <= pos <= Max_long
  end.

Definition run_out (fuel k : nat) (op : out_op) : IOM Z :=
  match op with
  | OutputChar ch => caml_ml_output_char_r fuel (Val_long ch)
  | OutputInt w => caml_ml_output_int_r fuel (Val_long w)
  | Output b start len => caml_ml_output_r fuel k b (Val_long start) (Val_long len)
  | FlushPartial => caml_ml_flush_partial_r fuel
  | Flush => caml_ml_flush_r fuel
  | SeekOut pos => caml_ml_seek_out_r fuel (Val_long pos)
  end.

(** The bytes an operation adds, and where it goes first. *)
Definition op_bytes (op : out_op) : list Z :=
  match op with
  | OutputChar ch => [ch mod 256]
  | OutputInt w => word_bytes (u32 w)
  | Output b start len => take (Z.to_nat len) (drop (Z.to_nat start) b)
  | _ => []
  end.
Definition op_file (op : out_op) (x : list Z * Z) : list Z * Z :=
  match op with SeekOut pos => (x.1, pos) | _ => put (op_bytes op) x end.

Definition enough (fuel : nat) (s : io) : Prop := (patience (sys s) + 2 + Z.to_nat IO_BUFFER_SIZE <= fuel)%nat.

(** A locked section adds what its body adds. *)
Lemma locked_spec {A B} (m : IOM A) (f : A → B) bs s (P : io → Prop) :
  (∀ s1 s2, chan s1 = chan s2 → P s1 → P s2) →
  let s0 := Io (chan s) (sys s) true (depth s + 1) in
  post m (λ _ s', added s0 s' bs ∧ P s') (cut s0 bs) s0 →
  post (let* x := with_lock m in mreturn (f x)) (λ _ s', added s s' bs ∧ P s') (cut s bs) s.
Proof.
  intros HP s0 Hm. apply post_bind, post_with_lock. eapply post_conseq; [exact Hm| |].
  - cbn beta. intros x s' [(H1 & H2 & H3) Hp]. apply post_ret. split; [|by apply (HP s')]. split_and!; [by apply (out_ok_ext s')|exact H2|exact H3].
  - intros e s' (p & Hp & H1 & H2 & H3). exists p. split; [done|]. by split_and!.
Qed.

Lemma out_ok_locked s : out_ok s → out_ok (Io (chan s) (sys s) true (depth s + 1)).
Proof. by apply out_ok_ext. Qed.

(** The primitives that add bytes. *)
Lemma locked_writes {A B} fuel (m : IOM A) (f : A → B) bs s : writes fuel m bs → out_ok s → enough fuel s →
  post (let* x := with_lock m in mreturn (f x)) (λ _ s', added s s' bs ∧ True) (cut s bs) s.
Proof.
  intros Hm Hs Hf. apply locked_spec; [done|]. eapply post_conseq; [apply Hm; [by apply out_ok_locked|unfold enough in Hf; cbn; lia]| |done].
  cbn beta. intros x s' Ha. by split.
Qed.

(** What one operation does, or the exception it raises leaves. *)
Definition op_done (op : out_op) (s : io) (s' : io) : Prop :=
  out_ok s' ∧ out_view s' = op_file op (out_view s) ∧ (op = Flush → curr (chan s') = 0) ∧ (patience (sys s') <= patience (sys s))%nat.
Definition op_cut (op : out_op) (s : io) (s' : io) : Prop :=
  out_ok s' ∧ ∃ p, p `prefix_of` op_bytes op ∧ out_view s' = put p (out_view s).

Lemma cut_op op s e s' : cut s (op_bytes op) e s' → op_cut op s s'.
Proof. intros (p & Hp & H1 & H2 & _). split; [done|]. by exists p. Qed.

Lemma seek_out_spec fuel pos s : out_ok s → enough fuel s → 0 <= pos →
  post (caml_seek_out_r fuel pos) (λ _ s', op_done (SeekOut pos) s s') (λ _ s', op_cut (SeekOut pos) s s') s.
Proof.
  intros Hs Hf Hpos. unfold caml_seek_out_r. apply post_bind. pose proof (out_curr _ Hs). unfold enough in Hf.
  eapply post_conseq; [apply flush_spec; [done|unfold IO_BUFFER_SIZE in *; lia]| |].
  2:{ intros e s' Ha. by apply cut_op with e, cut_nil. }
  cbn beta. intros _ s1 (Ho & Hv & Hc & Hp). pose proof (out_curr _ Ho). assert (curr (chan s1) = 0) as Hc0 by lia.
  apply post_bind, seek_set_spec; [apply Ho|done| |].
  - intros s2 E1 E2 E3 E4. apply post_set_end. split_and!; [|..|done|cbn; lia].
    + destruct Ho as [H1 H2 H3 H4]. by split; cbn; rewrite ?E1.
    + cbn [op_file]. rewrite <- Hv, !view_empty by (cbn; by rewrite ?E1). cbn. by rewrite E2.
  - intros e s2 _ C. apply cut_op with e, cut_nil. destruct (calm_added s1 s2 C Ho) as (H1 & H2 & H3).
    split_and!; [done|by rewrite H2, !put_nil, Hv|lia].
Qed.

Lemma run_out_spec fuel k op s : n ≠ -1 → out_ok s → enough fuel s → out_op_ok k op →
  post (run_out fuel k op) (λ _ s', op_done op s s') (λ _ s', op_cut op s s') s.
Proof.
  intros Hn Hs Hf Hop. pose proof (out_fd _ Hs) as Hfd. pose proof (out_curr _ Hs) as Hcu. pose proof (out_ok_locked _ Hs) as Hs0.
  destruct op as [ch|w|b start len| | |pos]; cbn [run_out out_op_ok] in *.
  - eapply post_conseq; [apply (locked_writes fuel (putch fuel (Long_val (Val_long ch))) (λ _, Val_unit)); [apply writes_putch|done|done]| |].
    + cbn beta. intros _ s' [(H1 & H2 & H3) _]. rewrite Long_val_Val_long, s63_small in H2 by done. by split_and!.
    + rewrite Long_val_Val_long, s63_small by done. intros e s'. apply (cut_op (OutputChar ch)).
  - eapply post_conseq; [apply (locked_writes fuel (caml_putword_r fuel (u32 (Long_val (Val_long w)))) (λ _, Val_unit)); [apply writes_putword|done|done]| |].
    + cbn beta. intros _ s' [(H1 & H2 & H3) _]. rewrite Long_val_Val_long, s63_small in H2 by done. by split_and!.
    + rewrite Long_val_Val_long, s63_small by done. intros e s'. apply (cut_op (OutputInt w)).
  - destruct Hop as (Hst & Hle & Hb & Hk). unfold caml_ml_output_r. rewrite !Long_val_Val_long, !s63_small by (unfold Min_long, Max_long in *; lia).
    eapply post_conseq; [apply (locked_spec _ (λ _, Val_unit) (op_bytes (Output b start len)) s (λ _, True)); [done|]| |].
    + cbv zeta. eapply post_conseq; [apply output_loop_spec; try done; try lia|by intros|by intros].
      * unfold enough in Hf. cbn. lia.
      * cbn. destruct (curr (chan s) <? IO_BUFFER_SIZE); lia.
    + cbn beta. intros _ s' [(H1 & H2 & H3) _]. by split_and!.
    + intros e s'. apply cut_op.
  - unfold caml_ml_flush_partial_r. apply post_get. rewrite Hfd, (proj2 (Z.eqb_neq _ _)) by done.
    eapply post_conseq; [apply (locked_spec _ Val_bool [] s (λ _, True)); [done|]| |].
    + cbv zeta. eapply post_conseq; [apply flush_partial_spec; [done|unfold enough in Hf; cbn; lia]| |].
      * cbn beta. intros b s' [Hfl _]. split; [by eapply flushed_added|done].
      * intros e s'. apply cut_nil.
    + cbn beta. intros _ s' [(H1 & H2 & H3) _]. by split_and!.
    + intros e s'. apply (cut_op FlushPartial).
  - unfold caml_ml_flush_r. apply post_get. rewrite Hfd, (proj2 (Z.eqb_neq _ _)) by done.
    eapply post_conseq; [apply (locked_spec _ (λ _, Val_unit) [] s (λ s, curr (chan s) = 0)); [by intros s1 s2 ->|]| |].
    + cbv zeta. eapply post_conseq; [apply flush_spec; [done|unfold enough in Hf; cbn; unfold IO_BUFFER_SIZE in *; lia]| |].
      * cbn beta. intros b s' Hfl. split; [by eapply flushed_added|]. destruct Hfl as (Ho & _ & Hc & _). pose proof (out_curr _ Ho). lia.
      * intros e s'. apply cut_nil.
    + cbn beta. intros _ s' [(H1 & H2 & H3) H4]. by split_and!.
    + intros e s'. apply (cut_op Flush).
  - unfold caml_ml_seek_out_r. rewrite Long_val_Val_long, s63_small by (unfold Min_long, Max_long in *; lia).
    apply post_bind, post_with_lock. eapply post_conseq; [apply seek_out_spec; [done|done|lia]| |].
    + cbn beta. intros _ s' (H1 & H2 & H3 & H4). apply post_ret. split_and!; [by apply (out_ok_ext s')|done..].
    + by intros e s'.
Qed.

(** *** Any number of primitives *)

Fixpoint run_outs (fuel k : nat) (ops : list out_op) : IOM unit :=
  match ops with [] => mreturn tt | op :: ops => run_out fuel k op ;;; run_outs fuel k ops end.
Definition ops_file (ops : list out_op) (x : list Z * Z) : list Z * Z := foldl (λ x op, op_file op x) x ops.

Lemma run_outs_spec fuel k ops : n ≠ -1 → Forall (out_op_ok k) ops → ∀ s, out_ok s → enough fuel s →
  post (run_outs fuel k ops)
    (λ _ s', out_ok s' ∧ out_view s' = ops_file ops (out_view s) ∧ (last ops = Some Flush → curr (chan s') = 0) ∧ (ops = [] → s' = s) ∧ (patience (sys s') <= patience (sys s))%nat)
    (λ _ s', out_ok s' ∧ ∃ done op rest p, ops = done ++ op :: rest ∧ p `prefix_of` op_bytes op ∧ out_view s' = put p (ops_file done (out_view s))) s.
Proof.
  intros Hn. induction 1 as [|op ops Hop Hops IH]; intros s Hs Hf; cbn [run_outs]; [apply post_ret; by split_and!|].
  apply post_bind. eapply post_conseq; [by apply run_out_spec| |].
  - cbn beta. intros _ s1 (H1 & H2 & H3 & H4). eapply post_conseq; [apply IH; [done|unfold enough in *; lia]| |].
    + cbn beta. intros _ s2 (G1 & G2 & G3 & G4 & G5). split_and!; [done|by rewrite G2, H2| |done|lia]. destruct ops as [|op' ops]; [|exact G3].
      cbn. intros [= ->]. rewrite (G4 eq_refl). by apply H3.
    + cbn beta. intros _ s2 (G1 & dn & op' & rest & p & -> & Hp & G2). split; [done|]. exists (op :: dn), op', rest, p. split_and!; [done|done|]. cbn. by rewrite <- H2.
  - cbn beta. intros _ s1 (G1 & p & Hp & G2). split; [done|]. by exists [], op, ops, p.
Qed.

(** A channel just opened has nothing in its buffer. *)
Lemma opened_out fuel garbage s : Z.of_nat (length garbage) = IO_BUFFER_SIZE → enough fuel s →
  ∀ R, post (caml_open_descriptor_out_r n garbage) (λ _ s1, out_ok s1 ∧ out_view s1 = (contents (sys s), position (sys s)) ∧ enough fuel s1) R s.
Proof.
  intros Hg Hf R. unfold caml_open_descriptor_out_r. apply post_bind, open_spec. intros s' E1 E2 E3 E4. apply post_set_end. rewrite E1. cbn.
  assert (enough fuel (Io (Chan n (position (sys s)) 0 None 0 garbage) (sys s') (locked s') (depth s'))) as Hf' by (unfold enough in *; cbn; lia).
  split_and!; [|by rewrite view_empty; cbn; [rewrite E2|]|done]. split; cbn; [done|unfold IO_BUFFER_SIZE; lia|done|done].
Qed.

(** C13: an output channel implements a file.  After a channel is opened on a
    file, any sequence of [output_char], [output_binary_int], [output],
    [flush] and [seek_out] followed by a flush leaves in the file exactly what
    the sequence writes, byte by byte, starting at the position the descriptor
    had, whatever the number of bytes each system call accepts and however
    often it is interrupted, and [pos_out] is the position reached.  When an
    error stops the sequence, all the bytes of the operations before, and some
    of the operation that failed, are in the file or still in the buffer. *)
Theorem output_refines_file fuel k ops garbage s : n ≠ -1 → Z.of_nat (length garbage) = IO_BUFFER_SIZE → enough fuel s → Forall (out_op_ok k) ops →
  let start := (contents (sys s), position (sys s)) in
  post (caml_open_descriptor_out_r n garbage ;;; run_outs fuel k ops ;;; let* p := caml_pos_out in caml_ml_flush_r fuel ;;; mreturn p)
    (λ p s', (contents (sys s'), position (sys s')) = ops_file ops start ∧ p = position (sys s'))
    (λ _ s', ∃ done op rest p, ops ++ [Flush] = done ++ op :: rest ∧ p `prefix_of` op_bytes op ∧ out_view s' = put p (ops_file done start)) s.
Proof.
  intros Hn Hg Hf Hops start. apply post_bind. eapply post_conseq; [apply (opened_out fuel garbage s Hg Hf (λ _ _, False))| |by intros].
  cbn beta. intros _ s1 (Hs1 & Hv1 & Hf1). apply post_bind. eapply post_conseq; [by apply run_outs_spec| |].
  - cbn beta. intros _ s2 (Hs2 & Hv2 & _ & _ & Hp2). apply post_bind. unfold caml_pos_out. apply post_get, post_ret, post_bind.
    eapply post_conseq; [apply (run_out_spec fuel k Flush s2); [done|done|unfold enough in *; lia|done]| |].
    + cbn beta. intros _ s3 (Hs3 & Hv3 & Hc3 & _). apply post_ret. rewrite (view_empty s3) in Hv3 by (by apply Hc3). cbn [op_file op_bytes] in Hv3.
      rewrite put_nil, Hv2, Hv1, (out_offset _ Hs3) in Hv3. split; [done|]. apply (f_equal snd) in Hv3. cbn in Hv3. rewrite Hv3, <- Hv1, <- Hv2. unfold out_view, put. cbn.
      rewrite length_take. pose proof (out_curr _ Hs2). pose proof (out_buff _ Hs2). lia.
    + cbn beta. intros _ s3 (Hs3 & p & Hp & Hv3). exists ops, Flush, [], p. split_and!; [done|done|]. by rewrite Hv3, Hv2, Hv1.
  - cbn beta. intros _ s2 (Hs2 & dn & op & rest & p & -> & Hp & Hv2). exists dn, op, (rest ++ [Flush]), p. split_and!; [by rewrite <- app_assoc|done|]. by rewrite Hv2, Hv1.
Qed.
End Output.

(** ** Witness *)

(** An interrupted call and writes of three bytes: the number 258 and the
    string "abcd" after the first byte of a file. *)
Definition ex_ops : list out_op := [OutputInt 258; Output [97; 98; 99; 100] 0 4].

Abbreviation ex_output :=
  (@caml_open_descriptor_out_r ex_kernel 5 ex_garbage ;;; @run_outs ex_kernel (Z.to_nat 70000) 9 ex_ops ;;;
   let* p := @caml_pos_out ex_kernel in @caml_ml_flush_r ex_kernel (Z.to_nat 70000) ;;; mreturn p).

Lemma ex_enough : @enough ex_kernel 5 ex_laws (Z.to_nat 70000) (ex_io [7] 1).
Proof. unfold enough, IO_BUFFER_SIZE. change (patience (sys (ex_io [7] 1))) with 1%nat. lia. Qed.

Lemma ex_ops_ok : Forall (out_op_ok 9) ex_ops.
Proof. repeat constructor; cbn; try lia; vm_compute; congruence. Qed.

Lemma ex_output_returns : ∃ s', ex_output (ex_io [7] 1) = inr (s', 9).
Proof. apply ex_returns_true. vm_compute. reflexivity. Qed.

Lemma output_refines_file_witness :
  ∃ s', ex_output (ex_io [7] 1) = inr (s', 9) ∧ (sys s').1.1 = [7; 0; 0; 1; 2; 97; 98; 99; 100].
Proof.
  pose proof (@output_refines_file ex_kernel 5 ex_laws (Z.to_nat 70000) 9 ex_ops ex_garbage (ex_io [7] 1) ltac:(discriminate)
    ex_garbage_length ex_enough ex_ops_ok) as Hr.
  destruct ex_output_returns as [s' E]. destruct (post_returns _ _ _ _ _ _ Hr E) as [H1 _].
  exists s'. split; [exact E|]. exact (f_equal fst H1).
Defined.

End IoOut.
