(* ===== verification/IoIn.v ===== *)
(** Input channels (byterun/io.c) as readers of a file.

    The buffer holds the bytes of the file before the offset; the position of
    the channel is that of the next byte.  Every primitive returns what a
    reader of the file at that position may return.  The last theorem composes
    output and input. *)

From S2P Require Import Prelude Mlvalues Io IoOut.
Import Io IoOut.

Module IoIn.

(** ** Input channels *)

Section Input.
Context {K : Kernel} {n : Z} {L : FileLaws n}.

(** The buffer holds the [m] bytes of the file before the offset. *)
Record in_ok (s : io) (m : Z) : Prop := {
  in_fd : fd (chan s) = n;
  in_max : max (chan s) = Some m;
  in_curr : 0 <= curr (chan s) <= m;
  in_size : m <= IO_BUFFER_SIZE ∧ m <= offset (chan s);
  in_buff : Z.of_nat (length (buff (chan s))) = IO_BUFFER_SIZE;
  in_offset : offset (chan s) = position (sys s);
  in_bytes : take (Z.to_nat m) (buff (chan s)) = take (Z.to_nat m) (drop (Z.to_nat (offset (chan s) - m)) (contents (sys s)))
}.

(** The position of the next byte. *)
Definition in_pos (s : io) : Z :=
  match max (chan s) with Some m => offset (chan s) - (m - curr (chan s)) | None => 0 end.

Definition rest (s : io) : list Z := drop (Z.to_nat (in_pos s)) (contents (sys s)).

(** The channel has moved [k] bytes forward. *)
Record moved (s s' : io) (k : Z) : Prop := {
  moved_ok : ∃ m, in_ok s' m;
  moved_contents : contents (sys s') = contents (sys s);
  moved_pos : in_pos s' = in_pos s + k;
  moved_patience : (patience (sys s') <= patience (sys s))%nat
}.

Lemma moved_calm s s' m : in_ok s m → calm s s' → moved s s' 0.
Proof.
  intros [H1 H2 H3 H4 H5 H6 H7] [A B C D]. split; [|done| |done].
  - exists m. by split; rewrite ?A, ?B, ?C.
  - unfold in_pos. rewrite A. lia.
Qed.

Lemma moved_trans s1 s2 s3 j k : moved s1 s2 j → moved s2 s3 k → moved s1 s3 (j + k).
Proof. intros [H1 H2 H3 H4] [G1 G2 G3 G4]. split; [done|congruence|lia|lia]. Qed.

Lemma moved_rest s s' k : 0 <= k → 0 <= in_pos s → moved s s' k → rest s' = drop (Z.to_nat k) (rest s).
Proof. intros Hk Hp [_ H2 H3 _]. unfold rest. rewrite H2, H3, drop_drop. f_equal. lia. Qed.

Lemma in_pos_eq s m : in_ok s m → in_pos s = offset (chan s) - (m - curr (chan s)).
Proof. intros Hs. unfold in_pos. by rewrite (in_max _ _ Hs). Qed.

Lemma in_pos_pos s m : in_ok s m → 0 <= in_pos s.
Proof. intros Hs. rewrite (in_pos_eq s m Hs). destruct Hs as [_ _ H3 H4 _ _ _]. lia. Qed.

(** The unread bytes of the buffer are the next bytes of the file. *)
Lemma buffered s m : in_ok s m →
  take (Z.to_nat (m - curr (chan s))) (drop (Z.to_nat (curr (chan s))) (buff (chan s))) = take (Z.to_nat (m - curr (chan s))) (rest s) ∧
  m - curr (chan s) <= Z.of_nat (length (rest s)).
Proof.
  intros Hs. pose proof (in_pos_eq s m Hs) as Hp. destruct Hs as [H1 H2 H3 H4 H5 H6 H7]. unfold rest. rewrite Hp.
  set (cu := curr (chan s)) in *. set (off := offset (chan s)) in *. set (c := contents (sys s)) in *.
  pose proof (f_equal (drop (Z.to_nat cu)) H7) as E. rewrite !skipn_firstn_comm, drop_drop in E.
  replace (Z.to_nat m - Z.to_nat cu)%nat with (Z.to_nat (m - cu)) in E by lia.
  replace (Z.to_nat (off - m) + Z.to_nat cu)%nat with (Z.to_nat (off - (m - cu))) in E by lia. split; [exact E|].
  pose proof (f_equal length H7) as El. rewrite !length_take, !length_drop in *. unfold IO_BUFFER_SIZE in *. lia.
Qed.

(** The buffer is filled again when all of it has been read. *)
Lemma refilled s s' m bs j : in_ok s m → curr (chan s) = m → got s s' 0 bs → Z.of_nat (length bs) <= IO_BUFFER_SIZE → 0 <= j <= Z.of_nat (length bs) →
  let r := Z.of_nat (length bs) in
  moved s (Io (Chan n (offset (chan s) + r) j (Some r) (refcount (chan s)) (overwrite (buff (chan s)) 0 bs)) (sys s') (locked s') (depth s')) j ∧
  bs = take (length bs) (rest s).
Proof.
  intros Hs Hc [G1 G2 G3 G4 G5 G6] Hl Hj r. pose proof (in_pos_eq s m Hs) as Hp. destruct Hs as [H1 H2 H3 H4 H5 H6 H7].
  assert (in_pos s = position (sys s)) as Hpos by lia. split; [|unfold rest; by rewrite Hpos].
  split; cbn; [|done| |done].
  - exists r. split; cbn; try done; try lia.
    + rewrite overwrite_length by (unfold IO_BUFFER_SIZE in *; lia). done.
    + rewrite G2. unfold r. rewrite Nat2Z.id, take_overwrite by (unfold IO_BUFFER_SIZE in *; lia).
      fold r. replace (offset (chan s) + r - r) with (position (sys s)) by lia. exact G4.
  - unfold in_pos. cbn. rewrite H2. lia.
Qed.

Lemma post_get_max {B} (k : Z → IOM B) Q R s m : in_ok s m → post (k m) Q R s → post (mbnd get_max k) Q R s.
Proof. intros Hs. unfold post, mbnd, get_max. by rewrite (in_max _ _ Hs). Qed.

(** What reading does: [k] bytes read, or an exception. *)
Definition failed (s : io) (e : exn) (s' : io) : Prop := moved s s' 0 ∧ (e = End_of_file → rest s = []).

Lemma failed_calm s m e s' : in_ok s m → e ≠ End_of_file → calm s s' → failed s e s'.
Proof. intros Hs He C. split; [by apply (moved_calm s s' m)|done]. Qed.

(** An error of the system: nothing was read. *)
Definition unread (s : io) (e : exn) (s' : io) : Prop := moved s s' 0 ∧ e ≠ End_of_file.

Lemma unread_calm s m e s' : in_ok s m → e ≠ End_of_file → calm s s' → unread s e s'.
Proof. intros Hs He C. split; [by apply (moved_calm s s' m)|done]. Qed.

Lemma overwrite_nil (l : list Z) o : overwrite l o [] = l.
Proof. unfold overwrite. cbn. rewrite Nat.add_0_r. apply take_drop. Qed.

(** Nothing was read. *)
Lemma got_nothing s s' p : got s s' p [] → calm s s'.
Proof.
  intros [G1 G2 G3 G4 G5 G6]. rewrite overwrite_nil in G1. split; [|done|cbn in G3; lia|done]. rewrite G1. by destruct (chan s).
Qed.

Lemma rest_end s m : in_ok s m → curr (chan s) = m → Z.of_nat (length (contents (sys s))) <= position (sys s) → rest s = [].
Proof. intros Hs Hc Hl. unfold rest. apply drop_ge. pose proof (in_pos_eq s m Hs). pose proof (in_offset _ _ Hs). lia. Qed.

Lemma moved_unlock s s' k : moved s s' k → moved s (caml_default_mutex_unlock_exn s') k.
Proof. intros [[m H1] H2 H3 H4]. replace k with (k + 0) by lia. apply (moved_trans s s'); [split; eauto|]. apply (moved_calm s' _ m H1), calm_unlock. Qed.

Lemma getch_spec fuel s m : in_ok s m → (patience (sys s) + 1 <= fuel)%nat →
  post (getch fuel) (λ b s', moved s s' 1 ∧ ∃ t, rest s = b :: t) (failed s) s.
Proof.
  intros Hs Hf. destruct (buffered s m Hs) as [Hb Hbl]. pose proof Hs as [H1 H2 H3 H4 H5 H6 H7]. unfold getch. apply post_get. rewrite H2.
  destruct (Z.leb_spec m (curr (chan s))) as [Hc|Hc].
  - assert (curr (chan s) = m) as Ec by lia. unfold caml_refill_r. apply post_get. rewrite H1. apply post_bind, do_read_spec; [done|done|lia|done| |].
    2:{ intros e s'. by apply (failed_calm s m). }
    intros s' bs Hl G. destruct (Z.eqb_spec (Z.of_nat (length bs)) 0) as [E|E].
    + assert (bs = []) as -> by (by destruct bs). apply post_raise. split; [apply moved_unlock, (moved_calm s s' m); [done|by apply got_nothing with 0]|].
      intros _. apply (rest_end s m); [done..|]. by apply G.
    + destruct (refilled s s' m bs 1 Hs Ec G Hl ltac:(lia)) as [Hm Hbs]. apply post_set, post_set, post_set. unfold buff_byte. cbn [chan]. rewrite (got_chan _ _ _ _ G), H1.
      cbn [chan fd offset curr max refcount buff]. change (Z.to_nat 0) with 0%nat in *. apply post_bind, post_load; cbn [chan buff]; [done|done| |].
      { rewrite overwrite_length by (unfold IO_BUFFER_SIZE in *; lia). unfold IO_BUFFER_SIZE in *. lia. }
      destruct bs as [|b bs]; [done|]. cbn. split; [exact Hm|]. cbn [length] in Hbs. destruct (rest s) as [|x t]; [done|]. injection Hbs as -> _. by exists t.
  - apply post_bind. unfold buff_byte. apply post_bind, post_load; [lia|lia|lia|].
    change (Z.to_nat 1) with 1%nat. destruct (drop (Z.to_nat (curr (chan s))) (buff (chan s))) as [|b l].
    { exfalso. pose proof (f_equal length Hb) as Hb'. rewrite take_nil, length_take in Hb'. cbn in Hb'. lia. }
    cbn [take]. apply post_set, post_ret. split.
    + split; cbn; [|done| |done].
      * exists m. split; cbn; try done. lia.
      * unfold in_pos. cbn. rewrite H2. lia.
    + destruct (rest s) as [|x t]; [cbn in Hbl; lia|]. exists t. destruct (Z.to_nat (m - curr (chan s))) eqn:En; [lia|]. cbn in Hb. by injection Hb as ->.
Qed.

Definition word_step (res b : Z) : Z := u32 (u32 (Z.shiftl res 8) + b).

(** An exception after some of [k] bytes were read. *)
Definition failed_within (k : Z) (s : io) (e : exn) (s' : io) : Prop :=
  (∃ j, 0 <= j <= k ∧ moved s s' j) ∧ (e = End_of_file → Z.of_nat (length (rest s)) < k).

Lemma getword_spec fuel i : ∀ s m res, in_ok s m → (patience (sys s) + 1 <= fuel)%nat →
  post (getword_loop fuel i res)
    (λ w s', moved s s' (Z.of_nat i) ∧ (i <= length (rest s))%nat ∧ w = foldl word_step res (take i (rest s))) (failed_within (Z.of_nat i) s) s.
Proof.
  induction i as [|i IH]; intros s m res Hs Hf; cbn [getword_loop].
  { apply post_ret. split_and!; [by apply (moved_calm s s m)|lia|by rewrite take_0]. }
  pose proof (in_pos_pos s m Hs) as Hpos. apply post_bind. eapply post_conseq; [by apply (getch_spec fuel s m)| |].
  - cbn beta. intros b s1 [Hm [t Ht]]. pose proof (moved_rest s s1 1 ltac:(lia) Hpos Hm) as Hr. rewrite Ht in Hr. change (rest s1 = t) in Hr.
    destruct (moved_ok _ _ _ Hm) as [m1 Hs1]. pose proof (moved_patience _ _ _ Hm).
    eapply post_conseq; [apply (IH s1 m1 _ Hs1); lia| |].
    + cbn beta. intros w s2 (Hm2 & Hl & ->). rewrite Hr in *. rewrite Ht. split_and!; [|cbn; lia|done].
      replace (Z.of_nat (S i)) with (1 + Z.of_nat i) by lia. by apply (moved_trans s s1 s2).
    + intros e s2 [(j & Hj & Hm2) He]. rewrite Hr in He. split.
      * exists (1 + j). split; [lia|]. by apply (moved_trans s s1 s2).
      * intros E. specialize (He E). rewrite Ht. cbn. lia.
  - intros e s1 [Hm He]. split; [exists 0; split; [lia|done]|]. intros E. rewrite (He E). cbn. lia.
Qed.

(** Reading [len] bytes at most, and at least one before the end of the file. *)
Definition fetched (s s' : io) (bs : list Z) : Prop := moved s s' (Z.of_nat (length bs)) ∧ bs = take (length bs) (rest s).

Lemma getblock_spec fuel len s m : in_ok s m → 0 <= len <= Max_long → (patience (sys s) + 1 <= fuel)%nat →
  post (caml_getblock_r fuel len) (λ bs s', fetched s s' bs ∧ Z.of_nat (length bs) <= len ∧ (bs = [] → len = 0 ∨ rest s = [])) (unread s) s.
Proof.
  intros Hs Hlen Hf. destruct (buffered s m Hs) as [Hb Hbl]. pose proof Hs as [H1 H2 H3 H4 H5 H6 H7]. unfold caml_getblock_r. apply post_get. cbv zeta.
  set (k := if INT_MAX <=? len then INT_MAX else s32 len).
  assert (0 <= k <= len ∧ (k = 0 → len = 0)) as [Hk Hk0].
  { unfold k, INT_MAX. destruct (Z.leb_spec 2147483647 len); [lia|]. unfold s32, H32. rewrite Z.mod_small by lia. lia. }
  apply (post_get_max _ _ _ s m Hs).
  assert (∀ j, 0 <= j <= m - curr (chan s) → (j = 0 → len = 0) → j <= len →
    post (let* bs := buff_load (curr (chan s)) j in set_curr (curr (chan s) + j) ;;; mreturn bs)
      (λ bs s', fetched s s' bs ∧ Z.of_nat (length bs) <= len ∧ (bs = [] → len = 0 ∨ rest s = [])) (unread s) s) as Hbuf.
  { intros j Hj Hj0 Hjl. apply post_bind, post_load; [lia|lia|lia|]. apply post_set, post_ret.
    assert (take (Z.to_nat j) (drop (Z.to_nat (curr (chan s))) (buff (chan s))) = take (Z.to_nat j) (rest s)) as ->.
    { pose proof (f_equal (take (Z.to_nat j)) Hb) as E. rewrite !take_take in E. by replace (Z.to_nat j `min` Z.to_nat (m - curr (chan s)))%nat with (Z.to_nat j) in E by lia. }
    assert (length (take (Z.to_nat j) (rest s)) = Z.to_nat j) as El by (rewrite length_take; lia).
    split_and!; [|lia|].
    - unfold fetched. rewrite El. split; [|done]. split; cbn; [|done| |done].
      + exists m. split; cbn; try done. lia.
      + unfold in_pos. cbn. rewrite H2. lia.
    - intros E. rewrite E in El. cbn in El. left. apply Hj0. lia. }
  destruct (Z.leb_spec k (m - curr (chan s))) as [Hka|Hka]; [apply Hbuf; lia|].
  destruct (Z.ltb_spec 0 (m - curr (chan s))) as [Hav|Hav]; [apply Hbuf; lia|].
  assert (curr (chan s) = m) as Ec by lia. rewrite H1. apply post_bind, do_read_spec; [done|done|lia|done| |].
  2:{ intros e s'. by apply (unread_calm s m). }
  intros s' bs Hl G. apply post_set, post_set. cbn [chan]. rewrite (got_chan _ _ _ _ G), H1. cbn [chan fd offset curr max refcount buff].
  set (r := Z.of_nat (length bs)) in *. set (j := if r <? k then r else k).
  assert (0 <= j <= r ∧ j <= k ∧ (j = 0 → r = 0)) as (Hj & Hjk & Hj0) by (unfold j; destruct (Z.ltb_spec r k); lia).
  change (Z.to_nat 0) with 0%nat. apply post_bind, post_load; cbn [chan buff]; [done|lia| |].
  { rewrite overwrite_length by (unfold IO_BUFFER_SIZE in *; lia). lia. }
  apply post_set, post_ret. destruct (refilled s s' m bs j Hs Ec G Hl Hj) as [Hm Hbs]. change (Z.to_nat 0) with 0%nat. rewrite drop_0.
  assert (take (Z.to_nat j) (overwrite (buff (chan s)) 0 bs) = take (Z.to_nat j) (rest s)) as ->.
  { pose proof (take_overwrite (buff (chan s)) bs ltac:(unfold IO_BUFFER_SIZE in *; lia)) as E. rewrite Hbs in E at 3. apply (f_equal (take (Z.to_nat j))) in E.
    rewrite !take_take in E. by replace (Z.to_nat j `min` length bs)%nat with (Z.to_nat j) in E by lia. }
  pose proof (f_equal length Hbs) as Hbs'. rewrite length_take in Hbs'.
  assert (length (take (Z.to_nat j) (rest s)) = Z.to_nat j) as El by (rewrite length_take; lia).
  split_and!; [|lia|].
  - unfold fetched. rewrite El. split; [|done]. rewrite Z2Nat.id by lia. exact Hm.
  - intros E. rewrite E in El. cbn in El. right. assert (bs = []) as -> by (destruct bs; [done|cbn in *; lia]).
    apply (rest_end s m); [done..|]. by apply G.
Qed.

Lemma seek_in_spec dest s m : in_ok s m → 0 <= dest →
  post (caml_seek_in_r dest) (λ _ s', moved s s' (dest - in_pos s)) (unread s) s.
Proof.
  intros Hs Hd. pose proof Hs as [H1 H2 H3 H4 H5 H6 H7]. unfold caml_seek_in_r. apply post_get, (post_get_max _ _ _ s m Hs).
  destruct ((offset (chan s) - m <=? dest) && (dest <=? offset (chan s))) eqn:E.
  - apply andb_true_iff in E as [E1%Z.leb_le E2%Z.leb_le]. apply post_set_end. split; cbn; [|done| |done].
    + exists m. split; cbn; try done. lia.
    + unfold in_pos. cbn. rewrite H2. lia.
  - apply post_bind, seek_set_spec; [done|done| |intros e s'; by apply (unread_calm s m)].
    intros s' E1 E2 E3 E4. apply post_set, post_set, post_set_end. cbn. rewrite E1. split; cbn; [|done| |done].
    + exists 0. split; cbn; try done; lia.
    + unfold in_pos. cbn. lia.
Qed.

(** The unread bytes are moved to the beginning of the buffer. *)
Lemma shifted s m : in_ok s m → let k := m - curr (chan s) in
  let s1 := Io (Chan (fd (chan s)) (offset (chan s)) 0 (Some k) (refcount (chan s))
    (overwrite (buff (chan s)) 0 (take (Z.to_nat k) (drop (Z.to_nat (curr (chan s))) (buff (chan s)))))) (sys s) (locked s) (depth s) in
  in_ok s1 k ∧ moved s s1 0 ∧ rest s1 = rest s.
Proof.
  intros Hs k s1. destruct (buffered s m Hs) as [Hb Hbl]. pose proof (in_pos_eq s m Hs) as Hp. pose proof Hs as [H1 H2 H3 H4 H5 H6 H7]. fold k in Hb, Hbl.
  assert (length (take (Z.to_nat k) (drop (Z.to_nat (curr (chan s))) (buff (chan s)))) = Z.to_nat k) as Hl by (rewrite length_take, length_drop; unfold k; lia).
  assert (in_pos s1 = in_pos s) as Hpos by (unfold in_pos; cbn; rewrite H2; unfold k; lia).
  assert (in_ok s1 k) as Hs1.
  { split; cbn; try done; try (unfold k; lia).
    - rewrite overwrite_length by (unfold k in *; lia). done.
    - rewrite <- Hl at 1. rewrite take_overwrite by (unfold k in *; lia). rewrite Hb. unfold rest. do 3 f_equal. unfold k. lia. }
  split; [done|]. split; [|unfold rest; by rewrite Hpos]. split; [by exists k|done|lia|done].
Qed.

(** More bytes are read after those of the buffer. *)
Lemma extended_buffer s s' m bs : in_ok s m → got s s' m bs → m + Z.of_nat (length bs) <= IO_BUFFER_SIZE →
  let r := Z.of_nat (length bs) in
  let s1 := Io (Chan (fd (chan s)) (offset (chan s) + r) (curr (chan s)) (Some (m + r)) (refcount (chan s)) (overwrite (buff (chan s)) (Z.to_nat m) bs))
    (sys s') (locked s') (depth s') in
  in_ok s1 (m + r) ∧ moved s s1 0.
Proof.
  intros Hs [G1 G2 G3 G4 G5 G6] Hl r s1. pose proof Hs as [H1 H2 H3 H4 H5 H6 H7].
  assert (in_ok s1 (m + r)) as Hs1.
  { split; cbn; try done; try lia.
    - rewrite overwrite_length by (unfold IO_BUFFER_SIZE in *; lia). done.
    - replace (Z.to_nat (m + r)) with (Z.to_nat m + length bs)%nat by (unfold r; lia). rewrite take_overwrite_end by (unfold IO_BUFFER_SIZE in *; lia).
      rewrite H7, G2. replace (offset (chan s) + r - (m + r)) with (offset (chan s) - m) by lia.
      rewrite <- (take_drop (Z.to_nat m) (take (Z.to_nat m + length bs) _)), take_take, skipn_firstn_comm, drop_drop.
      replace (Z.to_nat m `min` (Z.to_nat m + length bs))%nat with (Z.to_nat m) by lia.
      replace (Z.to_nat m + length bs - Z.to_nat m)%nat with (length bs) by lia.
      replace (Z.to_nat (offset (chan s) - m) + Z.to_nat m)%nat with (Z.to_nat (position (sys s))) by lia. by rewrite <- G4. }
  split; [done|]. split; [by exists (m + r)|done| |done]. unfold in_pos. cbn. rewrite H2. lia.
Qed.

(** A pass of the loop that looks for a newline: [p] is [j] bytes ahead. *)
Definition scan_result (l : list Z) (k : Z) : Prop :=
  (0 < k ∧ ∃ l0, take (Z.to_nat k) l = l0 ++ [10] ∧ Z.of_nat (length l0) = k - 1 ∧ Forall (λ b, b ≠ 10) l0) ∨
  (k <= 0 ∧ - k <= Z.of_nat (length l) ∧ Forall (λ b, b ≠ 10) (take (Z.to_nat (- k)) l) ∧ (- k = IO_BUFFER_SIZE ∨ Z.of_nat (length l) = - k)).

Lemma scan_refill_spec fuel s m j : in_ok s m → 0 <= j → curr (chan s) + j <= m → (patience (sys s) + 1 <= fuel)%nat →
  post (scan_refill fuel (curr (chan s) + j))
    (λ r s', moved s s' 0 ∧ match r with
      | inl res => res = - j ∧ j <= Z.of_nat (length (rest s)) ∧ (j = IO_BUFFER_SIZE ∨ Z.of_nat (length (rest s)) = j)
      | inr p => ∃ m', in_ok s' m' ∧ p = curr (chan s') + j ∧ p < m'
      end) (unread s) s.
Proof.
  intros Hs Hj Hjm Hf. destruct (buffered s m Hs) as [_ Hbl]. pose proof Hs as [H1 H2 H3 H4 H5 H6 H7]. unfold scan_refill. apply (post_get_max _ _ _ s m Hs).
  destruct (Z.leb_spec m (curr (chan s) + j)) as [Hm|Hm].
  2:{ apply post_ret. split; [by apply (moved_calm s s m)|]. exists m. split_and!; [done|done|lia]. }
  apply post_get. cbv zeta. apply post_bind.
  set (p := if 0 <? curr (chan s) then curr (chan s) + j - curr (chan s) else curr (chan s) + j). assert (p = j) as Ep by (unfold p; destruct (Z.ltb_spec 0 (curr (chan s))); lia).
  assert (∀ Q, (∀ s1, in_ok s1 j → moved s s1 0 → rest s1 = rest s → curr (chan s1) = 0 → Q tt s1) →
    post (if 0 <? curr (chan s) then let* rest := buff_load (curr (chan s)) (m - curr (chan s)) in buff_store 0 rest ;;;
       set_curr (curr (chan s) - curr (chan s)) ;;; set_max (m - curr (chan s)) else mreturn tt) Q (unread s) s) as Hshift.
  { intros Q HQ. destruct (Z.ltb_spec 0 (curr (chan s))).
    - apply post_bind, post_load; [lia|lia|lia|]. apply post_bind, post_store; [done|rewrite length_take, length_drop; lia|]. apply post_set, post_set_end.
      destruct (shifted s m Hs) as (Hs1 & Hm1 & Hr1). replace (m - curr (chan s)) with j in * by lia. cbn [chan fd offset curr max refcount buff].
      replace (curr (chan s) - curr (chan s)) with 0 by lia. apply HQ; done.
    - replace m with j in Hs by lia. apply post_ret, HQ; [done|by apply (moved_calm s s j)|done|lia]. }
  apply Hshift. intros s1 Hs1 Hm1 Hr1 Hc1. apply post_get, (post_get_max _ _ _ s1 j Hs1). rewrite Hc1. pose proof Hs1 as [K1 K2 K3 K4 K5 K6 K7].
  destruct (Z.leb_spec IO_BUFFER_SIZE j) as [Hfull|Hfull].
  { apply post_ret. split; [done|]. split_and!; [lia|lia|left; lia]. }
  rewrite K1. apply post_bind, do_read_spec; [lia|lia|lia|pose proof (moved_patience _ _ _ Hm1); lia| |].
  - intros s2 bs Hl G. destruct (Z.eqb_spec (Z.of_nat (length bs)) 0) as [E|E].
    + assert (bs = []) as -> by (by destruct bs). apply post_ret. split_and!; [|lia|lia|].
      * rewrite <- (Z.add_0_r 0). apply (moved_trans s s1 s2); [done|]. apply (moved_calm s1 s2 j); [done|by apply got_nothing with j].
      * right. rewrite <- Hr1. pose proof (got_end _ _ _ _ G eq_refl). pose proof (in_pos_eq s1 j Hs1). destruct (buffered s1 j Hs1) as [_ Hbl1].
        unfold rest in *. rewrite length_drop in *. lia.
    + destruct (extended_buffer s1 s2 j bs Hs1 G ltac:(lia)) as [Hs2 Hm2]. apply post_set, post_set, post_ret. cbn [chan]. rewrite (got_chan _ _ _ _ G).
      cbn [chan fd offset curr max refcount buff]. split; [rewrite <- (Z.add_0_r 0); by apply (moved_trans s s1)|].
      eexists. split; [exact Hs2|]. cbn. split; lia.
  - intros e s2 He C. split; [|done]. rewrite <- (Z.add_0_r 0). apply (moved_trans s s1 s2); [done|]. by apply (moved_calm s1 s2 j).
Qed.

Lemma rest_same s s' m : in_ok s m → moved s s' 0 → rest s' = rest s.
Proof. intros Hs Hm. rewrite (moved_rest s s' 0) by (done || by apply (in_pos_pos s m)). apply drop_0. Qed.

Lemma byte_spec s m j Q R : in_ok s m → 0 <= j → curr (chan s) + j < m →
  (∀ b, rest s !! Z.to_nat j = Some b → Q b s) → post (buff_byte (curr (chan s) + j)) Q R s.
Proof.
  intros Hs Hj Hjm HQ. destruct (buffered s m Hs) as [Hb Hbl]. pose proof Hs as [H1 H2 H3 H4 H5 H6 H7]. unfold buff_byte.
  apply post_bind, post_load; [lia|lia|lia|]. change (Z.to_nat 1) with 1%nat.
  pose proof (f_equal (λ l, l !! Z.to_nat j) Hb) as E. cbn beta in E. rewrite !lookup_take_lt in E by lia. rewrite lookup_drop in E.
  replace (Z.to_nat (curr (chan s)) + Z.to_nat j)%nat with (Z.to_nat (curr (chan s) + j)) in E by lia.
  destruct (lookup_lt_is_Some_2 (rest s) (Z.to_nat j) ltac:(lia)) as [b Eb]. rewrite Eb in E.
  rewrite (drop_S _ b _ E). cbn [take]. by apply post_ret, HQ.
Qed.

Lemma scan_loop_spec fuel k : ∀ s m j, in_ok s m → 0 <= j → curr (chan s) + j <= m → (patience (sys s) + 1 <= fuel)%nat →
  (Z.to_nat (IO_BUFFER_SIZE - j) < k)%nat → Forall (λ b, b ≠ 10) (take (Z.to_nat j) (rest s)) →
  post (scan_loop fuel k (curr (chan s) + j)) (λ res s', moved s s' 0 ∧ scan_result (rest s) res) (unread s) s.
Proof.
  induction k as [|k IH]; intros s m j Hs Hj Hjm Hf Hk Hn; [lia|]. cbn [scan_loop]. apply post_bind.
  eapply post_conseq; [by apply (scan_refill_spec fuel s m j)| |done]. cbn beta. intros [res|p] s1 [Hm1 Hr].
  - destruct Hr as (-> & Hl & He). apply post_ret. split; [done|]. right. rewrite Z.opp_involutive. split_and!; [lia|done|done|done].
  - destruct Hr as (m1 & Hs1 & -> & Hp). pose proof (rest_same s s1 m Hs Hm1) as Hr1. apply post_bind, (byte_spec s1 m1 j); [done|done|done|].
    intros b Eb. rewrite Hr1 in Eb. pose proof (take_S_r _ _ _ Eb) as Et.
    destruct (Z.eqb_spec b 10) as [->|Hb]; cbn [negb].
    + apply post_get, post_ret. split; [done|]. left. replace (curr (chan s1) + j + 1 - curr (chan s1)) with (j + 1) by lia. split; [lia|].
      exists (take (Z.to_nat j) (rest s)). replace (Z.to_nat (j + 1)) with (S (Z.to_nat j)) by lia. split_and!; [done| |done].
      apply lookup_lt_Some in Eb. rewrite length_take. lia.
    + replace (curr (chan s1) + j + 1) with (curr (chan s1) + (j + 1)) by lia. pose proof (in_size _ _ Hs1). pose proof (in_curr _ _ Hs1).
      pose proof (moved_patience _ _ _ Hm1).
      eapply post_conseq; [apply (IH s1 m1 (j + 1)); [done|lia|lia|lia|lia|]| |].
      * rewrite Hr1. replace (Z.to_nat (j + 1)) with (S (Z.to_nat j)) by lia. rewrite Et. apply Forall_app. by split; [|constructor].
      * cbn beta. rewrite Hr1. intros res s2 [Hm2 Hres]. split; [|done]. rewrite <- (Z.add_0_r 0). by apply (moved_trans s s1 s2).
      * intros e s2 [Hm2 He]. split; [|done]. rewrite <- (Z.add_0_r 0). by apply (moved_trans s s1 s2).
Qed.

(** *** Sequences of primitives *)

Inductive in_op : Type :=
  | InputChar
  | InputInt
  | Input (b : list Z) (start len : Z)
  | InputScanLine
  | SeekIn (pos : Z)
  | PosIn.

(** What a primitive returns: a value, and for [Input] the string as well. *)
Abbreviation in_result := (Z * list Z)%type.

Definition in_op_ok (op : in_op) : Prop :=
  match op with
  | Input b start len => 0 <= start <= Max_long ∧ 0 <= len <= Max_long ∧ start + len <= Z.of_nat (length b)
  | SeekIn pos => 0 <= pos <= Max_long
  | _ => True
  end.

Definition run_in (fuel k : nat) (op : in_op) : IOM in_result :=
  match op with
  | InputChar => let* v := caml_ml_input_char_r fuel in mreturn (v, [])
  | InputInt => let* v := caml_ml_input_int_r fuel in mreturn (v, [])
  | Input b start len => caml_ml_input_r fuel b (Val_long start) (Val_long len)
  | InputScanLine => let* v := caml_ml_input_scan_line_r fuel k in mreturn (v, [])
  | SeekIn pos => let* v := caml_ml_seek_in_r (Val_long pos) in mreturn (v, [])
  | PosIn => let* v := caml_ml_pos_in_r in mreturn (v, [])
  end.

(** The word of four bytes, most significant first. *)
Definition bytes_word (l : list Z) : Z := foldl (λ w b, w * 256 + b) 0 l.

(** A reader at position [p] of a file [c]: the results an operation may have,
    and how far it moves. *)
Definition reads_file (c : list Z) (p : Z) (op : in_op) (r : in_result) (p' : Z) : Prop :=
  let l := drop (Z.to_nat p) c in
  match op with
  | InputChar => ∃ b t, l = b :: t ∧ r = (Val_long b, []) ∧ p' = p + 1
  | InputInt => (4 <= length l)%nat ∧ r = (Val_long (s32 (bytes_word (take 4 l))), []) ∧ p' = p + 4
  | Input b start len => ∃ bs, bs = take (length bs) l ∧ Z.of_nat (length bs) <= len ∧ (bs = [] → len = 0 ∨ l = []) ∧
      r = (Val_long (Z.of_nat (length bs)), overwrite b (Z.to_nat start) bs) ∧ p' = p + Z.of_nat (length bs)
  | InputScanLine => p' = p ∧ ∃ k, r = (Val_long k, []) ∧ scan_result l k
  | SeekIn pos => p' = pos ∧ r = (Val_unit, [])
  | PosIn => p' = p ∧ r = (Val_long p, [])
  end.

Lemma in_ok_ext s s' m : chan s' = chan s → sys s' = sys s → in_ok s m → in_ok s' m.
Proof. intros E1 E2 [H1 H2 H3 H4 H5 H6 H7]. split; by rewrite ?E1, ?E2. Qed.

Lemma moved_ext s t s' t' k : chan t = chan s → sys t = sys s → chan t' = chan s' → sys t' = sys s' → moved s s' k → moved t t' k.
Proof.
  intros E1 E2 E3 E4 [[m H1] H2 H3 H4]. split; [exists m; by apply (in_ok_ext s')|by rewrite E2, E4| |by rewrite E2, E4].
  unfold in_pos in *. by rewrite E1, E3.
Qed.

(** A locked section reads as its body does. *)
Lemma locked_moved {A} (m : IOM A) (D : A → Z) (P : A → Prop) (R : exn → Prop) s (N : Z) :
  let s0 := Io (chan s) (sys s) true (depth s + 1) in
  post m (λ x s', moved s0 s' (D x) ∧ P x) (λ e s', (∃ j, 0 <= j <= N ∧ moved s0 s' j) ∧ R e) s0 →
  post (with_lock m) (λ x s', moved s s' (D x) ∧ P x) (λ e s', (∃ j, 0 <= j <= N ∧ moved s s' j) ∧ R e) s.
Proof.
  intros s0 Hm. apply post_with_lock. eapply post_conseq; [exact Hm| |]; cbn beta.
  - intros x s' [H1 H2]. split; [|done]. by apply (moved_ext s0 s s').
  - intros e s' [(j & Hj & H1) H2]. split; [|done]. exists j. split; [done|]. by apply (moved_ext s0 s s').
Qed.

Definition bytes (l : list Z) : Prop := Forall (λ b, 0 <= b < 256) l.

Lemma word_step_small w b k : 0 <= w < 2 ^ k → 0 <= k <= 24 → 0 <= b < 256 → word_step w b = w * 256 + b ∧ 0 <= w * 256 + b < 2 ^ (k + 8).
Proof.
  intros Hw Hk Hb. unfold word_step. rewrite Z.shiftl_mul_pow2 by lia. change (2 ^ 8) with 256. rewrite Z.pow_add_r by lia. change (2 ^ 8) with 256.
  pose proof (Z.pow_le_mono_r 2 k 24 ltac:(lia) ltac:(lia)) as Hp. change (2 ^ 24) with 16777216 in Hp. 
  rewrite (u32_small (w * 256)) by (unfold H32; nia). rewrite u32_small by (unfold H32; nia). split; [done|nia].
Qed.

Lemma word_of_bytes l : length l = 4%nat → bytes l → foldl word_step 0 l = bytes_word l ∧ 0 <= bytes_word l < H32.
Proof.
  intros Hl Hb. destruct l as [|b3 [|b2 [|b1 [|b0 []]]]]; try done. unfold bytes in Hb. rewrite !Forall_cons in Hb. destruct Hb as (B3 & B2 & B1 & B0 & _).
  unfold bytes_word. cbn [foldl].
  destruct (word_step_small 0 b3 0) as [-> R3]; [cbn; lia|lia|done|]. destruct (word_step_small _ b2 8 R3) as [-> R2]; [lia|done|].
  destruct (word_step_small _ b1 16 R2) as [-> R1]; [lia|done|]. destruct (word_step_small _ b0 24 R1) as [-> R0]; [lia|done|].
  split; [done|]. exact R0.
Qed.

(** [(i << 32) >> 32] *)
Lemma sign_extend w : 0 <= w < H32 → Z.shiftr (s64 (Z.shiftl w 32)) 32 = s32 w.
Proof.
  intros Hw. rewrite Z.shiftl_mul_pow2, Z.shiftr_div_pow2 by lia. change (2 ^ 32) with H32. unfold s64, s32.
  destruct (Z.lt_ge_cases w 2147483648).
  - rewrite !Z.mod_small by (unfold W, HW, H32 in *; lia). rewrite Z.add_simpl_r, Z.add_simpl_r. apply Z.div_mul. unfold H32. lia.
  - rewrite <- (Zmod_unique (w * H32 + HW) W 1 (w * H32 + HW - W)) by (unfold W, HW, H32 in *; lia).
    rewrite <- (Zmod_unique (w + 2147483648) H32 1 (w + 2147483648 - H32)) by (unfold H32 in *; lia).
    replace (w * H32 + HW - W - HW) with ((w - H32) * H32) by (unfold W, HW, H32; lia). rewrite Z.div_mul by (unfold H32; lia). lia.
Qed.

Definition in_failed (op : in_op) (s : io) (e : exn) (s' : io) : Prop :=
  (∃ j, 0 <= j <= 4 ∧ moved s s' j) ∧
  (e = End_of_file → match op with InputChar => rest s = [] | InputInt => (length (rest s) < 4)%nat | _ => False end).

(** One operation reads the file, or raises an exception: [End_of_file] only
    when the file ends too soon. *)
Lemma run_in_spec fuel k op s m : in_ok s m → (patience (sys s) + 1 <= fuel)%nat → (Z.to_nat IO_BUFFER_SIZE < k)%nat →
  bytes (contents (sys s)) → in_op_ok op →
  post (run_in fuel k op) (λ r s', moved s s' (in_pos s' - in_pos s) ∧ reads_file (contents (sys s)) (in_pos s) op r (in_pos s')) (in_failed op s) s.
Proof.
  intros Hs Hf Hk Hby Hop. set (s0 := Io (chan s) (sys s) true (depth s + 1)). assert (in_ok s0 m) as Hs0 by (by apply (in_ok_ext s)).
  assert (∀ s' j, moved s s' j → in_pos s' - in_pos s = j ∧ in_pos s' = in_pos s + j) as Hj by (intros s' j Hm; rewrite (moved_pos _ _ _ Hm); lia).
  destruct op as [| |b start len| |pos|]; cbn [run_in in_op_ok] in *.
  - unfold caml_ml_input_char_r. apply post_bind, post_bind.
    eapply post_conseq; [apply (locked_moved _ (λ _, 1) (λ b, ∃ t, rest s = b :: t) (λ e, e = End_of_file → rest s = []) s 4)| |done].
    + eapply post_conseq; [by apply (getch_spec fuel s0 m)|by intros|]. intros e s' [H1 H2]. split; [exists 0; by split; [lia|]|exact H2].
    + cbn beta. intros b s' [H1 (t & Ht)]. apply post_ret, post_ret. destruct (Hj s' 1 H1) as [-> ->]. split; [done|]. by exists b, t.
  - unfold caml_ml_input_int_r. apply post_bind, post_bind.
    eapply post_conseq; [apply (locked_moved _ (λ _, 4) (λ w, (4 <= length (rest s))%nat ∧ w = foldl word_step 0 (take 4 (rest s)))
      (λ e, e = End_of_file → (length (rest s) < 4)%nat) s 4)| |done].
    + unfold caml_getword_r. cbn [caml_channel_binary_mode negb]. apply post_bind, post_ret.
      eapply post_conseq; [by apply (getword_spec fuel 4 s0 m)|by intros|]. intros e s' [H1 H2]. split; [exact H1|]. intros E. specialize (H2 E). change (rest s0) with (rest s) in H2. lia.
    + cbn beta. intros w s' (H1 & Hl & ->). apply post_ret, post_ret. destruct (Hj s' 4 H1) as [-> ->]. split; [done|]. cbn [reads_file].
      destruct (word_of_bytes (take 4 (rest s))) as [-> Hw]; [rewrite length_take; lia| |].
      { apply Forall_take, Forall_drop. exact Hby. }
      rewrite sign_extend by done. by split_and!.
  - destruct Hop as (Hst & Hle & Hb). unfold caml_ml_input_r. rewrite !Long_val_Val_long, !s63_small by (unfold Min_long, Max_long in *; lia). apply post_bind.
    eapply post_conseq; [apply (locked_moved _ (λ bs, Z.of_nat (length bs)) (λ bs, bs = take (length bs) (rest s) ∧ Z.of_nat (length bs) <= len ∧ (bs = [] → len = 0 ∨ rest s = []))
      (λ e, e = End_of_file → False) s 4)| |].
    + eapply post_conseq; [by apply (getblock_spec fuel len s0 m)| |].
      * cbn beta. intros bs s' ([H1 H2] & H3 & H4). by split_and!.
      * intros e s' [H1 H2]. split; [exists 0; by split; [lia|]|done].
    + cbn beta. intros bs s' (H1 & H2 & H3 & H4). rewrite !(proj2 (Z.leb_le _ _)) by lia. apply post_ret. destruct (Hj s' _ H1) as [-> ->]. split; [done|].
      exists bs. by split_and!.
    + done.
  - unfold caml_ml_input_scan_line_r. apply post_bind, post_bind.
    eapply post_conseq; [apply (locked_moved _ (λ _, 0) (scan_result (rest s)) (λ e, e = End_of_file → False) s 4)| |].
    + unfold caml_input_scan_line_r. apply post_get. change (scan_loop fuel k (curr (chan (Io (chan s) (sys s) true (depth s + 1))))) with (scan_loop fuel k (curr (chan s0))).
      rewrite <- (Z.add_0_r (curr (chan s0))). eapply post_conseq; [apply (scan_loop_spec fuel k s0 m 0); [done|lia|pose proof (in_curr _ _ Hs0); lia|done|lia|constructor]|by intros|].
      intros e s' [H1 H2]. split; [exists 0; by split; [lia|]|done].
    + cbn beta. intros r s' [H1 H2]. apply post_ret, post_ret. destruct (Hj s' 0 H1) as [-> ->]. split; [done|]. split; [lia|]. by exists r.
    + done.
  - unfold caml_ml_seek_in_r. rewrite Long_val_Val_long, s63_small by (unfold Min_long, Max_long in *; lia). apply post_bind, post_bind.
    eapply post_conseq; [apply (locked_moved _ (λ _, pos - in_pos s) (λ _, True) (λ e, e = End_of_file → False) s 4)| |].
    + eapply post_conseq; [apply (seek_in_spec pos s0 m); [done|lia]| |].
      * cbn beta. intros _ s' H1. by split.
      * intros e s' [H1 H2]. split; [exists 0; by split; [lia|]|done].
    + cbn beta. intros r s' [H1 _]. apply post_ret, post_ret. destruct (Hj s' _ H1) as [-> ->]. split; [done|]. split; [lia|done].
    + done.
  - unfold caml_ml_pos_in_r, caml_pos_in. apply post_bind, post_bind, post_get, (post_get_max _ _ _ s m Hs), post_ret. rewrite <- (in_pos_eq s m Hs).
    unfold val_offset. destruct (Max_long <? in_pos s).
    + apply post_raise. split; [|done]. exists 0. split; [lia|]. apply moved_unlock, (moved_calm s s m); done.
    + apply post_ret, post_ret. destruct (Hj s 0) as [E _]; [by apply (moved_calm s s m)|]. rewrite E. split; [by apply (moved_calm s s m)|done].
Qed.

(** The result of a primitive without the string. *)
Lemma post_unbind {A} (m : IOM A) (Q : A * list Z → io → Prop) R s :
  post (let* v := m in mreturn (v, [])) Q R s → post m (λ v, Q (v, [])) R s.
Proof. unfold post, mbnd, mreturn. by destruct (m s) as [[]|[s' x]]. Qed.

(** *** Any number of primitives *)

Fixpoint run_ins (fuel k : nat) (ops : list in_op) : IOM (list in_result) :=
  match ops with
  | [] => mreturn []
  | op :: ops => let* r := run_in fuel k op in let* rs := run_ins fuel k ops in mreturn (r :: rs)
  end.

(** The results [rs] of the operations [ops] on a file [c] read from position
    [p] to position [p']. *)
Fixpoint reads_files (c : list Z) (p : Z) (ops : list in_op) (rs : list in_result) (p' : Z) : Prop :=
  match ops, rs with
  | [], [] => p' = p
  | op :: ops, r :: rs => ∃ q, reads_file c p op r q ∧ reads_files c q ops rs p'
  | _, _ => False
  end.

(** The operation meets the end of the file at position [p]. *)
Definition meets_end (c : list Z) (p : Z) (op : in_op) : Prop :=
  match op with
  | InputChar => drop (Z.to_nat p) c = []
  | InputInt => (length (drop (Z.to_nat p) c) < 4)%nat
  | _ => False
  end.

Lemma run_ins_spec fuel k ops : (Z.to_nat IO_BUFFER_SIZE < k)%nat → Forall in_op_ok ops →
  ∀ s m, in_ok s m → (patience (sys s) + 1 <= fuel)%nat → bytes (contents (sys s)) →
  post (run_ins fuel k ops)
    (λ rs s', contents (sys s') = contents (sys s) ∧ reads_files (contents (sys s)) (in_pos s) ops rs (in_pos s'))
    (λ e s', contents (sys s') = contents (sys s) ∧ (e = End_of_file → ∃ dn op rest rs p, ops = dn ++ op :: rest ∧
      reads_files (contents (sys s)) (in_pos s) dn rs p ∧ meets_end (contents (sys s)) p op)) s.
Proof.
  intros Hk. induction 1 as [|op ops Hop Hops IH]; intros s m Hs Hf Hb; cbn [run_ins]; [by apply post_ret|].
  apply post_bind. eapply post_conseq; [by apply (run_in_spec fuel k op s m)| |].
  - cbn beta. intros r s1 [[[m1 Hs1] Hc1 Hp1 Hpat1] Hr]. apply post_bind.
    eapply post_conseq; [apply (IH s1 m1); [done|lia|by rewrite Hc1]| |]; cbn beta; rewrite Hc1.
    + intros rs s2 [Hc2 Hrs]. apply post_ret. split; [done|]. cbn [reads_files]. by exists (in_pos s1).
    + intros e s2 [Hc2 He]. split; [done|]. intros E. destruct (He E) as (dn & op' & rst & rs & p & -> & Hrs & Hm).
      exists (op :: dn), op', rst, (r :: rs), p. split_and!; [done| |done]. cbn [reads_files]. by exists (in_pos s1).
  - intros e s1 [(j & Hj & Hm) He]. split; [apply Hm|]. intros E. specialize (He E). exists [], op, ops, [], (in_pos s). split_and!; [done|done|].
    by destruct op.
Qed.

(** A channel just opened is at the position of the descriptor. *)
Lemma opened_in garbage s R : Z.of_nat (length garbage) = IO_BUFFER_SIZE →
  post (caml_open_descriptor_in_r n garbage)
    (λ _ s1, in_ok s1 0 ∧ in_pos s1 = position (sys s) ∧ contents (sys s1) = contents (sys s) ∧ (patience (sys s1) <= patience (sys s))%nat) R s.
Proof.
  intros Hg. apply open_spec. intros s' E1 E2 E3 E4. split_and!; [|unfold in_pos; rewrite E1; cbn; lia|done|done].
  pose proof (position_pos (sys s)). split; rewrite ?E1; cbn; try done; unfold IO_BUFFER_SIZE; lia.
Qed.

(** C14: an input channel implements a reader of a file.  After a channel is
    opened on a file, the results of any sequence of [input_char],
    [input_binary_int], [input], [seek_in], [pos_in] and of the search for a
    newline are those of a reader of the file from the position the descriptor
    had: the bytes of the file in order, at least one for [input] before the
    end, the length of the line up to the first newline, or minus the number
    of bytes seen when the file ends or the buffer is full before one.  This
    holds whatever number of bytes each system call returns and however often
    it is interrupted.  [End_of_file] is raised only where the file is too
    short, and the file is never changed. *)
Theorem input_refines_file fuel k ops garbage s :
  Z.of_nat (length garbage) = IO_BUFFER_SIZE → (patience (sys s) + 1 <= fuel)%nat → (Z.to_nat IO_BUFFER_SIZE < k)%nat →
  bytes (contents (sys s)) → Forall in_op_ok ops →
  let c := contents (sys s) in
  post (caml_open_descriptor_in_r n garbage ;;; run_ins fuel k ops)
    (λ rs s', contents (sys s') = c ∧ reads_files c (position (sys s)) ops rs (in_pos s'))
    (λ e s', contents (sys s') = c ∧ (e = End_of_file → ∃ dn op rest rs p, ops = dn ++ op :: rest ∧
      reads_files c (position (sys s)) dn rs p ∧ meets_end c p op)) s.
Proof.
  intros Hg Hf Hk Hb Hops c. apply post_bind. eapply post_conseq; [apply (opened_in garbage s (λ _ _, False) Hg)| |by intros].
  cbn beta. intros _ s1 (Hs1 & Hp1 & Hc1 & Hpat1).
  pose proof (run_ins_spec fuel k ops Hk Hops s1 0 Hs1 ltac:(lia)) as Hr. rewrite Hp1, Hc1 in Hr. by apply Hr.
Qed.

Lemma bytes_write_at c p bs : bytes c → bytes bs → bytes (write_at c p bs).
Proof.
  intros Hc Hb. unfold write_at. destruct bs as [|b bs]; [done|]. unfold bytes in *. rewrite !Forall_app. split_and!; [|done|by apply Forall_drop].
  apply Forall_take, Forall_app. split; [done|]. apply Forall_replicate. lia.
Qed.

Lemma read_back c p bs : take (length bs) (drop p (write_at c p bs)) = bs.
Proof.
  destruct bs as [|b bs]; [done|]. unfold write_at. rewrite drop_app_length' by (symmetry; apply write_at_head). apply take_app_length.
Qed.

Lemma word_bytes_bytes w : bytes (word_bytes w).
Proof. unfold bytes, word_bytes. repeat constructor; apply Z.mod_pos_bound; lia. Qed.

Lemma word_bytes_word w : 0 <= w < H32 → bytes_word (word_bytes w) = w.
Proof.
  intros Hw. unfold bytes_word, word_bytes, H32 in *. cbn [foldl]. rewrite !Z.shiftr_div_pow2 by lia. change (2 ^ 24) with 16777216. change (2 ^ 16) with 65536. change (2 ^ 8) with 256.
  Z.to_euclidean_division_equations. lia.
Qed.

Lemma s32_of_u32 w : s32 (u32 w) = s32 w.
Proof. unfold s32, u32. by rewrite Zplus_mod_idemp_l. Qed.

(** C35: a number written by [output_binary_int] is read back by
    [input_binary_int]: after it is written to a file through an output
    channel and flushed, an input channel on the file that seeks to where it
    was written returns it, reduced to 32 bits and sign-extended_buffer, unless an
    operation raises an exception. *)
Theorem binary_int_roundtrip fuel w garbage garbage' s :
  n ≠ -1 → Z.of_nat (length garbage) = IO_BUFFER_SIZE → Z.of_nat (length garbage') = IO_BUFFER_SIZE → enough fuel s →
  fixnum w → position (sys s) <= Max_long → bytes (contents (sys s)) →
  post (caml_open_descriptor_out_r n garbage ;;; caml_ml_output_int_r fuel (Val_long w) ;;; caml_ml_flush_r fuel ;;;
        caml_open_descriptor_in_r n garbage' ;;; caml_ml_seek_in_r (Val_long (position (sys s))) ;;; caml_ml_input_int_r fuel)
    (λ v _, v = Val_long (s32 w)) (λ _ _, True) s.
Proof.
  intros Hn Hg Hg' Hf Hw Hp Hb. set (p := position (sys s)) in *. pose proof (position_pos (sys s) : 0 <= p) as Hp0. set (l := word_bytes (u32 w)).
  apply post_bind. eapply post_conseq; [apply (opened_out fuel garbage s Hg Hf (λ _ _, False))| |by intros]. cbn beta. intros _ s1 (Hs1 & Hv1 & Hf1).
  apply post_bind. eapply post_conseq; [apply (run_out_spec fuel 0 (OutputInt w) s1); done| |done]. cbn beta. intros _ s2 (Hs2 & Hv2 & _ & Hpat2).
  apply post_bind. eapply post_conseq; [apply (run_out_spec fuel 0 Flush s2); [done|done|unfold enough in *; lia|done]| |done].
  cbn beta. intros _ s3 (Hs3 & Hv3 & Hc3 & Hpat3). rewrite (view_empty s3) in Hv3 by (by apply Hc3). cbn [op_file op_bytes] in Hv2, Hv3. rewrite put_nil, Hv2, Hv1 in Hv3.
  apply (f_equal fst) in Hv3. change (contents (sys s3) = write_at (contents (sys s)) (Z.to_nat p) l) in Hv3.
  apply post_bind. eapply post_conseq; [apply (opened_in garbage' s3 (λ _ _, False) Hg')| |by intros]. cbn beta. intros _ s4 (Hs4 & _ & Hc4 & Hpat4).
  assert (patience (sys s4) + 1 <= fuel)%nat as Hf4 by (unfold enough in *; lia). set (k := S (Z.to_nat IO_BUFFER_SIZE)).
  assert (bytes (contents (sys s4))) as Hb4 by (rewrite Hc4, Hv3; apply bytes_write_at; [done|apply word_bytes_bytes]).
  apply post_bind. pose proof (run_in_spec fuel k (SeekIn p) s4 0 Hs4 Hf4 ltac:(lia) Hb4 (conj Hp0 Hp)) as Hseek. cbn [run_in] in Hseek.
  eapply post_conseq; [apply (post_unbind _ _ _ _ Hseek)| |done]. cbn beta. intros v5 s5 [[[m5 Hs5] Hc5 _ Hpat5] [Hp5 _]].
  pose proof (run_in_spec fuel k InputInt s5 m5 Hs5 ltac:(lia) ltac:(lia) ltac:(by rewrite Hc5) I) as Hint. cbn [run_in] in Hint.
  eapply post_conseq; [apply (post_unbind _ _ _ _ Hint)| |done]. cbn beta. intros v6 s6 [_ (_ & Hv6 & _)]. injection Hv6 as ->.
  rewrite Hp5, Hc5, Hc4, Hv3. change 4%nat with (length l). rewrite read_back. unfold l. rewrite word_bytes_word by apply Z.mod_pos_bound, H32_pos. by rewrite s32_of_u32.
Qed.
End Input.

(** ** Witnesses *)

(** A file of three lines, read by system calls of three bytes: a character, a
    line, a string of two bytes, a seek. *)
Definition ex_in_ops : list in_op := [InputChar; InputScanLine; Input [0; 0; 0; 0] 1 2; SeekIn 1; InputInt; PosIn].
Definition ex_file : list Z := [97; 98; 10; 99; 10; 100].

Abbreviation ex_input :=
  (@caml_open_descriptor_in_r ex_kernel 5 ex_garbage ;;; @run_ins ex_kernel 5 (Z.to_nat 65537) ex_in_ops).

Definition ex_results : list (Z * list Z) :=
  [(Val_long 97, []); (Val_long 2, []); (Val_long 2, [0; 98; 10; 0]); (Val_unit, []); (Val_long 1644847882, []); (Val_long 5, [])].

Lemma ex_input_returns : ∃ s', ex_input (ex_io ex_file 0) = inr (s', ex_results).
Proof.
  assert (match ex_input (ex_io ex_file 0) with inr (_, rs) => bool_decide (rs = ex_results) | inl _ => false end = true) as E by (vm_compute; reflexivity).
  destruct (ex_input (ex_io ex_file 0)) as [e|[s' rs]]; [discriminate|]. exists s'. by rewrite (bool_decide_eq_true_1 _ E).
Qed.

Lemma ex_in_ops_ok : Forall in_op_ok ex_in_ops.
Proof. repeat constructor; cbn; unfold Max_long; lia. Qed.

Lemma ex_file_bytes : bytes ex_file.
Proof. repeat constructor; lia. Qed.

Lemma input_refines_file_witness :
  ∃ s' p, ex_input (ex_io ex_file 0) = inr (s', ex_results) ∧ reads_files ex_file 0 ex_in_ops ex_results p.
Proof.
  pose proof (@input_refines_file ex_kernel 5 ex_laws 5 (Z.to_nat 65537) ex_in_ops ex_garbage (ex_io ex_file 0) ex_garbage_length
    ltac:(cbn; lia) ltac:(unfold IO_BUFFER_SIZE; lia) ex_file_bytes ex_in_ops_ok) as Hr.
  destruct ex_input_returns as [s' E]. destruct (post_returns _ _ _ _ _ _ Hr E) as [_ H1]. exists s', (in_pos s'). exact (conj E H1).
Defined.

Abbreviation ex_roundtrip :=
  (@caml_open_descriptor_out_r ex_kernel 5 ex_garbage ;;; @caml_ml_output_int_r ex_kernel (Z.to_nat 70000) (Val_long (-2)) ;;;
   @caml_ml_flush_r ex_kernel (Z.to_nat 70000) ;;; @caml_open_descriptor_in_r ex_kernel 5 ex_garbage ;;;
   @caml_ml_seek_in_r ex_kernel (Val_long (@position ex_kernel 5 ex_laws (sys (ex_io [7] 1)))) ;;; @caml_ml_input_int_r ex_kernel (Z.to_nat 70000)).

Lemma ex_roundtrip_returns : ∃ s' v, ex_roundtrip (ex_io [7] 1) = inr (s', v).
Proof.
  assert (match ex_roundtrip (ex_io [7] 1) with inr _ => true | inl _ => false end = true) as E by (vm_compute; reflexivity).
  destruct (ex_roundtrip (ex_io [7] 1)) as [e|[s' v]]; [discriminate|]. by exists s', v.
Qed.

(** -2 after the first byte of a file. *)
Lemma binary_int_roundtrip_witness : ∃ s', ex_roundtrip (ex_io [7] 1) = inr (s', Val_long (-2)).
Proof.
  pose proof (@binary_int_roundtrip ex_kernel 5 ex_laws (Z.to_nat 70000) (-2) ex_garbage ex_garbage (ex_io [7] 1) ltac:(discriminate)
    ex_garbage_length ex_garbage_length ex_enough ltac:(split; vm_compute; congruence) ltac:(vm_compute; congruence)
    ltac:(repeat constructor; cbn; lia)) as Hr.
  destruct ex_roundtrip_returns as (s' & v & E). pose proof (post_returns _ _ _ _ _ _ Hr E) as Hv. cbn beta in Hv. exists s'. rewrite E, Hv. reflexivity.
Defined.

End IoIn.
