(* ===== verification/Lexing.v ===== *)
(** The table-driven automata of ocamllex (byterun/lexing.c).

    The tables are strings of 16-bit little-endian integers.  A lexer buffer
    is the record [lexbuf], its positions tagged integers as in the OCaml
    record; a string is the list of its bytes.  The theorems relate the engine
    to the automaton that the tables encode: it answers the longest match
    ([lex_longest_match]), and the engine with memory of positions scans as the
    one without ([new_lex_engine_agrees]). *)

From S2P Require Import Prelude Mlvalues.

Module Lexing.

(** The fields of [struct lexer_buffer] that the engines access; [refill_buff],
    [lex_abs_pos], [lex_start_p] and [lex_curr_p] are not among them. *)
Record lexer_buffer : Type := Lexbuf {
  lex_buffer : list Z;
  lex_buffer_len : Z;
  lex_start_pos : Z;
  lex_curr_pos : Z;
  lex_last_pos : Z;
  lex_last_action : Z;
  lex_eof_reached : Z;
  lex_mem : list Z
}.

Record lexing_table : Type := Tables {
  lex_base : list Z; lex_backtrk : list Z; lex_default : list Z; lex_trans : list Z; lex_check : list Z;
  lex_base_code : list Z; lex_backtrk_code : list Z; lex_default_code : list Z; lex_trans_code : list Z; lex_check_code : list Z;
  lex_code : list Z
}.

(** [caml_failwith_r] with "lexing: empty token", or an access outside a
    string. *)
Inductive lex_stop : Type :=
  | Empty_token (b : lexer_buffer)
  | LexFault (f : fault).

Abbreviation LM := (M lexer_buffer lex_stop).

(** The byte at an offset of a string. *)
Definition byte_at (l : list Z) (n : Z) : LM Z :=
  match (if 0 <=? n then l !! Z.to_nat n else None) with Some b => mreturn b | None => mfail (LexFault (BadLoad n)) end.

(** A two-byte signed integer. *)
Definition s16 (x : Z) : Z := (x + 32768) mod 65536 - 32768.

Definition Short (tbl : list Z) (n : Z) : LM Z :=
  let* lo := byte_at tbl (2 * n) in
  let* hi := byte_at tbl (2 * n + 1) in
  mreturn (s16 (lo + 256 * hi)).

Definition set_start_pos (x : Z) : LM unit := mmodify (λ b, Lexbuf (lex_buffer b) (lex_buffer_len b) x (lex_curr_pos b) (lex_last_pos b) (lex_last_action b) (lex_eof_reached b) (lex_mem b)).
Definition set_curr_pos (x : Z) : LM unit := mmodify (λ b, Lexbuf (lex_buffer b) (lex_buffer_len b) (lex_start_pos b) x (lex_last_pos b) (lex_last_action b) (lex_eof_reached b) (lex_mem b)).
Definition set_last_pos (x : Z) : LM unit := mmodify (λ b, Lexbuf (lex_buffer b) (lex_buffer_len b) (lex_start_pos b) (lex_curr_pos b) x (lex_last_action b) (lex_eof_reached b) (lex_mem b)).
Definition set_last_action (x : Z) : LM unit := mmodify (λ b, Lexbuf (lex_buffer b) (lex_buffer_len b) (lex_start_pos b) (lex_curr_pos b) (lex_last_pos b) x (lex_eof_reached b) (lex_mem b)).
Definition set_eof_reached (x : Z) : LM unit := mmodify (λ b, Lexbuf (lex_buffer b) (lex_buffer_len b) (lex_start_pos b) (lex_curr_pos b) (lex_last_pos b) (lex_last_action b) x (lex_mem b)).
Definition set_mem (x : list Z) : LM unit := mmodify (λ b, Lexbuf (lex_buffer b) (lex_buffer_len b) (lex_start_pos b) (lex_curr_pos b) (lex_last_pos b) (lex_last_action b) (lex_eof_reached b) x).

(** The entry of both engines: the state to start from. *)
Definition lex_entry (start_state : Z) : LM Z :=
  let state := Int_val start_state in
  if 0 <=? state then
    let* b := mget in
    set_start_pos (lex_curr_pos b) ;;;
    set_last_pos (lex_curr_pos b) ;;;
    set_last_action (Val_int (-1)) ;;;
    mreturn state
  else mreturn (- state - 1).

(** [None]: a refill is needed; otherwise the next character, 256 at the end
    of the input. *)
Definition lex_next_char : LM (option Z) :=
  let* b := mget in
  if s64 (lex_buffer_len b) <=? s64 (lex_curr_pos b) then
    if lex_eof_reached b =? Val_bool false then mreturn None else mreturn (Some 256)
  else
    let* c := byte_at (lex_buffer b) (Long_val (lex_curr_pos b)) in
    set_curr_pos (u64 (lex_curr_pos b + 2)) ;;;
    mreturn (Some c).

Definition lex_next_state (check trans default : list Z) (base state c : Z) : LM Z :=
  let* k := Short check (base + c) in
  if k =? state then Short trans (base + c) else Short default state.

(** Return to the last backtrack point. *)
Definition lex_backtrack : LM Z :=
  let* b := mget in
  set_curr_pos (lex_last_pos b) ;;;
  if lex_last_action b =? Val_int (-1)
  then (λ b, inl (Empty_token b))
  else mreturn (lex_last_action b).

(** The loop of [caml_lex_engine_r]. *)
Fixpoint lex_loop (fuel : nat) (tbl : lexing_table) (state : Z) : LM Z :=
  match fuel with
  | O => mfail (LexFault OutOfFuel)
  | S fuel =>
      let* base := Short (lex_base tbl) state in
      if base <? 0 then mreturn (Val_int (- base - 1)) else
      let* backtrk := Short (lex_backtrk tbl) state in
      (if 0 <=? backtrk then
         let* b := mget in
         set_last_pos (lex_curr_pos b) ;;;
         set_last_action (Val_int backtrk)
       else mreturn tt) ;;;
      let* oc := lex_next_char in
      match oc with
      | None => mreturn (Val_int (- state - 1))
      | Some c =>
          let* state' := lex_next_state (lex_check tbl) (lex_trans tbl) (lex_default tbl) base state c in
          if state' <? 0 then lex_backtrack else
          (if c =? 256 then set_eof_reached (Val_bool false) else mreturn tt) ;;;
          lex_loop fuel tbl state'
      end
  end.

Definition caml_lex_engine_r (fuel : nat) (tbl : lexing_table) (start_state : Z) : LM Z :=
  let* state := lex_entry start_state in
  lex_loop fuel tbl state.

(** ** The engine with memory of positions *)

(** [Field(mem, i)] and its assignment. *)
Definition mem_get (i : Z) : LM Z :=
  let* b := mget in
  match lex_mem b !! Z.to_nat i with Some v => mreturn v | None => mfail (LexFault (BadLoad i)) end.
Definition mem_set (i v : Z) : LM unit :=
  let* b := mget in
  if i <? Z.of_nat (length (lex_mem b)) then set_mem (<[Z.to_nat i := v]> (lex_mem b)) else mfail (LexFault (BadStore i)).

(** [run_mem] and [run_tag], which store [curr_pos] and -1 respectively for
    the source 0xff; [code] is the rest of the code from [pc] on. *)
Fixpoint run_code (code : list Z) (fresh : Z) : LM unit :=
  match code with
  | [] => mfail (LexFault (BadLoad 0))
  | dst :: code =>
      if dst =? 255 then mreturn tt else
      match code with
      | [] => mfail (LexFault (BadLoad 0))
      | src :: code =>
          (if src =? 255 then mem_set dst fresh else let* v := mem_get src in mem_set dst v) ;;;
          run_code code fresh
      end
  end.
Definition run_mem (code : list Z) (pc_off curr_pos : Z) : LM unit :=
  if 0 <=? pc_off then run_code (drop (Z.to_nat pc_off) code) curr_pos else mfail (LexFault (BadLoad pc_off)).
Definition run_tag (code : list Z) (pc_off : Z) : LM unit :=
  if 0 <=? pc_off then run_code (drop (Z.to_nat pc_off) code) (Val_int (-1)) else mfail (LexFault (BadLoad pc_off)).

(** The loop of [caml_new_lex_engine_r]. *)
Fixpoint new_lex_loop (fuel : nat) (tbl : lexing_table) (state : Z) : LM Z :=
  match fuel with
  | O => mfail (LexFault OutOfFuel)
  | S fuel =>
      let* base := Short (lex_base tbl) state in
      if base <? 0 then
        let* pc_off := Short (lex_base_code tbl) state in
        run_tag (lex_code tbl) pc_off ;;;
        mreturn (Val_int (- base - 1))
      else
      let* backtrk := Short (lex_backtrk tbl) state in
      (if 0 <=? backtrk then
         let* pc_off := Short (lex_backtrk_code tbl) state in
         run_tag (lex_code tbl) pc_off ;;;
         let* b := mget in
         set_last_pos (lex_curr_pos b) ;;;
         set_last_action (Val_int backtrk)
       else mreturn tt) ;;;
      let* oc := lex_next_char in
      match oc with
      | None => mreturn (Val_int (- state - 1))
      | Some c =>
          let pstate := state in
          let* state' := lex_next_state (lex_check tbl) (lex_trans tbl) (lex_default tbl) base state c in
          if state' <? 0 then lex_backtrack else
          let* base_code := Short (lex_base_code tbl) pstate in
          let* pc_off := lex_next_state (lex_check_code tbl) (lex_trans_code tbl) (lex_default_code tbl) base_code pstate c in
          (if 0 <? pc_off then let* b := mget in run_mem (lex_code tbl) pc_off (lex_curr_pos b) else mreturn tt) ;;;
          (if c =? 256 then set_eof_reached (Val_bool false) else mreturn tt) ;;;
          new_lex_loop fuel tbl state'
      end
  end.

Definition caml_new_lex_engine_r (fuel : nat) (tbl : lexing_table) (start_state : Z) : LM Z :=
  let* state := lex_entry start_state in
  new_lex_loop fuel tbl state.

(** ** The automaton of the tables *)

Definition table_byte (l : list Z) (n : Z) : option Z := if 0 <=? n then l !! Z.to_nat n else None.
Definition short_at (t : list Z) (n : Z) : option Z :=
  lo ← table_byte t (2 * n); hi ← table_byte t (2 * n + 1); Some (s16 (lo + 256 * hi)).

Definition target_in (check trans default : list Z) (base q c : Z) : option Z :=
  k ← short_at check (base + c);
  if k =? q then short_at trans (base + c) else short_at default q.
Definition target (tbl : lexing_table) : Z → Z → Z → option Z := target_in (lex_check tbl) (lex_trans tbl) (lex_default tbl).

(** The transition function, undefined where the automaton stops. *)
Definition delta (tbl : lexing_table) (q c : Z) : option Z :=
  base ← short_at (lex_base tbl) q;
  if base <? 0 then None else
  q' ← target tbl base q c;
  if q' <? 0 then None else Some q'.

(** The action of an accepting state. *)
Definition accepts (tbl : lexing_table) (q : Z) : option Z :=
  base ← short_at (lex_base tbl) q;
  if base <? 0 then Some (- base - 1) else
  bt ← short_at (lex_backtrk tbl) q;
  if 0 <=? bt then Some bt else None.

Fixpoint run (tbl : lexing_table) (q : Z) (w : list Z) : option Z :=
  match w with [] => Some q | c :: w => q' ← delta tbl q c; run tbl q' w end.

(** Every state below [n] has its entries in the tables, and its transitions
    lead below [n]. *)
Definition table_state_ok (tbl : lexing_table) (n q : Z) : bool :=
  match short_at (lex_base tbl) q, short_at (lex_backtrk tbl) q with
  | Some base, Some _ =>
      if base <? 0 then true
      else forallb (λ c, match target tbl base q c with Some q' => q' <? n | None => false end) (seqZ 0 257)
  | _, _ => false
  end.
Definition tables_ok (tbl : lexing_table) (n : Z) : bool := forallb (table_state_ok tbl n) (seqZ 0 n).

(** The prefix of length [k] of [w] is accepted with action [a]. *)
Definition matched (tbl : lexing_table) (q0 : Z) (w : list Z) (k : nat) (a : Z) : Prop :=
  (k <= length w)%nat ∧ ∃ q, run tbl q0 (take k w) = Some q ∧ accepts tbl q = Some a.

Definition longest (tbl : lexing_table) (q0 : Z) (w : list Z) (k : nat) (a : Z) : Prop :=
  matched tbl q0 w k a ∧ ∀ k' a', matched tbl q0 w k' a' → (k' <= k)%nat.

(** The number of positions a word takes: the end-of-input character has none. *)
Definition width (w : list Z) : Z := Z.of_nat (length (filter (λ c, c ≠ 256) w)).

(** The characters the engine can still read. *)
Definition lex_input (b : lexer_buffer) : list Z :=
  take (Z.to_nat (Long_val (lex_buffer_len b) - Long_val (lex_curr_pos b))) (drop (Z.to_nat (Long_val (lex_curr_pos b))) (lex_buffer b))
  ++ (if lex_eof_reached b =? Val_bool false then [] else [256]).

Definition buffer_ok (b : lexer_buffer) : Prop :=
  ∃ c len, lex_curr_pos b = Val_long c ∧ lex_buffer_len b = Val_long len ∧
    0 <= c <= len ∧ len <= Max_long ∧ len <= Z.of_nat (length (lex_buffer b)) ∧ Forall (λ x, 0 <= x < 256) (lex_buffer b).

(** The backtrack point: the accepted prefix [o] of the word scanned from
    position [s]. *)
Definition last_is (tbl : lexing_table) (q0 s : Z) (w : list Z) (b : lexer_buffer) (o : option (nat * Z)) : Prop :=
  match o with
  | None => lex_last_action b = Val_int (-1) ∧ lex_last_pos b = Val_long s
  | Some (k, a) => matched tbl q0 w k a ∧ lex_last_action b = Val_int a ∧ lex_last_pos b = Val_long (s + width (take k w))
  end.

(** From position [s] the automaton has read [w] and is in state [q]; the
    backtrack point is beyond every accepted prefix shorter than [bound]. *)
Definition scanning (tbl : lexing_table) (q0 s : Z) (w : list Z) (q : Z) (bound : nat) (b : lexer_buffer) : Prop :=
  run tbl q0 w = Some q ∧ Forall (λ c, 0 <= c <= 256) w ∧ lex_start_pos b = Val_long s ∧ lex_curr_pos b = Val_long (s + width w) ∧
  ∃ o, last_is tbl q0 s w b o ∧ ∀ k a, (k < bound)%nat → matched tbl q0 w k a → ∃ k' a', o = Some (k', a') ∧ (k <= k')%nat.

(** What a call of the engine may answer on the word [w] read from [s]. *)
Inductive outcome (tbl : lexing_table) (q0 s : Z) (w : list Z) (eof : Z) : lex_stop + (lexer_buffer * Z) → Prop :=
  | Token k a b : longest tbl q0 w k a → lex_start_pos b = Val_long s → lex_curr_pos b = Val_long (s + width (take k w)) →
      lex_eof_reached b = (if (k =? length w)%nat then Val_bool false else eof) → outcome tbl q0 s w eof (inr (b, Val_int a))
  | No_token b : (∀ k a, ¬ matched tbl q0 w k a) → lex_start_pos b = Val_long s → lex_curr_pos b = Val_long s →
      lex_eof_reached b = eof → outcome tbl q0 s w eof (inl (Empty_token b))
  | Refill q b : scanning tbl q0 s w q (S (length w)) b → lex_eof_reached b = Val_bool false →
      outcome tbl q0 s w eof (inr (b, Val_int (- q - 1))).

(** A first call at the current position, or a call after a refill. *)
Definition lex_ready (tbl : lexing_table) (q0 s : Z) (w : list Z) (start_state : Z) (b : lexer_buffer) : Prop :=
  (w = [] ∧ start_state = Val_int q0 ∧ lex_curr_pos b = Val_long s) ∨
  (∃ q, start_state = Val_int (- q - 1) ∧ scanning tbl q0 s w q (S (length w)) b).
(** ** Runs and accepted prefixes *)

Lemma Short_at t n v b : short_at t n = Some v → Short t n b = inr (b, v).
Proof.
  unfold short_at, table_byte, Short, byte_at, mbnd. intros E. destruct (if 0 <=? 2 * n then _ else _) as [lo|]; [|done].
  cbn -[Z.mul Z.add] in *. destruct (if 0 <=? 2 * n + 1 then _ else _) as [hi|]; [|done]. by injection E as <-.
Qed.

Lemma next_state_at ck tr df base q c q' b : target_in ck tr df base q c = Some q' → lex_next_state ck tr df base q c b = inr (b, q').
Proof.
  unfold target_in, lex_next_state. destruct (short_at ck _) as [k|] eqn:Ek; [|done]. cbn. intros E.
  rewrite (mbnd_eq _ _ _ _ _ (Short_at _ _ _ b Ek)). destruct (k =? q); by apply Short_at.
Qed.

Lemma tables_state tbl n q : tables_ok tbl n = true → 0 <= q < n →
  ∃ base bt, short_at (lex_base tbl) q = Some base ∧ short_at (lex_backtrk tbl) q = Some bt ∧
    (0 <= base → ∀ c, 0 <= c <= 256 → ∃ q', target tbl base q c = Some q' ∧ q' < n).
Proof.
  intros Ht Hq. unfold tables_ok in Ht. rewrite forallb_forall in Ht. specialize (Ht q). unfold table_state_ok in Ht.
  rewrite <- list_elem_of_In, elem_of_seqZ in Ht. specialize (Ht ltac:(lia)).
  destruct (short_at (lex_base tbl) q) as [base|]; [|done]. destruct (short_at (lex_backtrk tbl) q) as [bt|]; [|done].
  exists base, bt. repeat split. intros Hb c Hc. destruct (Z.ltb_spec base 0); [lia|]. rewrite forallb_forall in Ht. specialize (Ht c).
  rewrite <- list_elem_of_In, elem_of_seqZ in Ht. specialize (Ht ltac:(lia)). destruct (target tbl base q c) as [q'|]; [|done].
  exists q'. split; [done|]. by apply Z.ltb_lt.
Qed.

Lemma run_app tbl q w w' : run tbl q (w ++ w') = (q' ← run tbl q w; run tbl q' w').
Proof. revert q. induction w as [|c w IH]; intros q; [done|]. cbn. destruct (delta tbl q c); [apply IH|done]. Qed.

Lemma run_range tbl n w : tables_ok tbl n = true → Forall (λ c, 0 <= c <= 256) w →
  ∀ q0 q, 0 <= q0 < n → run tbl q0 w = Some q → 0 <= q < n.
Proof.
  intros Ht Hw. induction Hw as [|c w Hc Hw IH]; intros q0 q Hq0 E; cbn in E; [by injection E as <-|].
  destruct (delta tbl q0 c) as [q1|] eqn:Ed; [|done]. cbn in E. apply (IH q1); [|done].
  destruct (tables_state tbl n q0 Ht Hq0) as (base & bt & Eb & _ & Hstep). unfold delta in Ed. rewrite Eb in Ed. cbn in Ed.
  destruct (Z.ltb_spec base 0); [done|]. destruct (Hstep ltac:(lia) c Hc) as (q' & Et & Hlt). rewrite Et in Ed. cbn in Ed.
  destruct (Z.ltb_spec q' 0); [done|]. injection Ed as <-. lia.
Qed.

Lemma matched_app tbl q0 w r k a : (k <= length w)%nat → matched tbl q0 (w ++ r) k a ↔ matched tbl q0 w k a.
Proof. intros Hk. unfold matched. rewrite take_app_le, length_app by done. split; intros [_ H]; (split; [lia|done]). Qed.

(** Past a state without a transition nothing is accepted. *)
Lemma matched_stuck tbl q0 w q r k a : run tbl q0 w = Some q → (∀ c r', r = c :: r' → delta tbl q c = None) →
  matched tbl q0 (w ++ r) k a → (k <= length w)%nat.
Proof.
  intros Hr Hd (Hk & q' & Hq' & _). destruct (Nat.le_gt_cases k (length w)) as [|Hgt]; [done|]. exfalso.
  rewrite take_app_ge, run_app, Hr in Hq' by lia. rewrite length_app in Hk. destruct r as [|c r']; [cbn in Hk; lia|].
  destruct (k - length w)%nat as [|j] eqn:Ej; [lia|]. cbn in Hq'. by rewrite (Hd c r' eq_refl) in Hq'.
Qed.

Lemma width_app w w' : width (w ++ w') = width w + width w'.
Proof. unfold width. rewrite filter_app, length_app. lia. Qed.

Lemma width_one c : width [c] = if c =? 256 then 0 else 1.
Proof. unfold width. rewrite filter_cons, filter_nil. case_decide; destruct (Z.eqb_spec c 256); done. Qed.

Lemma Val_long_succ x : u64 (Val_long x + 2) = Val_long (x + 1).
Proof. rewrite !Val_long_eq, u64_add_l. f_equal. lia. Qed.

Lemma Long_val_pos c : 0 <= c <= Max_long → Long_val (Val_long c) = c.
Proof. intros Hc. rewrite Long_val_Val_long. apply s63_small. unfold Min_long, Max_long in *. lia. Qed.

Lemma s64_pos c : 0 <= c <= Max_long → s64 (Val_long c) = 2 * c + 1.
Proof. intros Hc. rewrite s64_tagged by apply Is_long_Val_long. by rewrite Long_val_pos. Qed.

Lemma Int_val_small x : - 2 ^ 31 <= x < 2 ^ 31 → Int_val (Val_int x) = x.
Proof.
  intros Hx. unfold Int_val, Val_int. rewrite Long_val_Val_long, s63_small by (unfold Min_long, Max_long; lia).
  unfold s32, H32. rewrite Z.mod_small; lia.
Qed.
Lemma short_at_range t n v : short_at t n = Some v → - 32768 <= v < 32768.
Proof.
  unfold short_at. destruct (table_byte t (2 * n)) as [lo|]; [|done]. cbn -[Z.mul Z.add s16]. destruct (table_byte t (2 * n + 1)) as [hi|]; [|done].
  intros [= <-]. unfold s16. pose proof (Z.mod_pos_bound (lo + 256 * hi + 32768) 65536). lia.
Qed.

Lemma accepts_range tbl q a : accepts tbl q = Some a → 0 <= a < 32768.
Proof.
  unfold accepts. destruct (short_at (lex_base tbl) q) as [base|] eqn:Eb; [|done]. cbn. apply short_at_range in Eb.
  destruct (Z.ltb_spec base 0); [intros [= <-]; lia|]. destruct (short_at (lex_backtrk tbl) q) as [bt|] eqn:Et; [|done]. cbn.
  apply short_at_range in Et. destruct (Z.leb_spec 0 bt); [|done]. intros [= <-]. lia.
Qed.

Lemma Z_eqb_action a : 0 <= a < 32768 → (Val_int a =? Val_int (-1)) = false.
Proof. intros Ha. apply Z.eqb_neq. intros E%(f_equal Int_val). rewrite !Int_val_small in E; lia. Qed.

(** ** One iteration of the loop *)

(** The buffer after the backtrack point is recorded. *)
Definition with_last (bt : Z) (b : lexer_buffer) : lexer_buffer :=
  if 0 <=? bt
  then Lexbuf (lex_buffer b) (lex_buffer_len b) (lex_start_pos b) (lex_curr_pos b) (lex_curr_pos b) (Val_int bt) (lex_eof_reached b) (lex_mem b)
  else b.

Lemma with_last_scanning tbl q0 s w q base bt b : scanning tbl q0 s w q (length w) b →
  short_at (lex_base tbl) q = Some base → 0 <= base → short_at (lex_backtrk tbl) q = Some bt →
  scanning tbl q0 s w q (S (length w)) (with_last bt b).
Proof.
  intros (Hr & Hw & Hs & Hc & o & Ho & Hcov) Eb Hb Et.
  assert (accepts tbl q = if 0 <=? bt then Some bt else None) as Ha.
  { unfold accepts. rewrite Eb. cbn. destruct (Z.ltb_spec base 0); [lia|]. by rewrite Et. }
  unfold with_last. destruct (0 <=? bt).
  - split_and!; [done..|]. exists (Some (length w, bt)). cbn. split.
    + rewrite firstn_all. split_and!; [|done..]. split; [lia|]. exists q. by rewrite firstn_all.
    + intros k a Hk _. exists (length w), bt. split; [done|lia].
  - split_and!; [done..|]. exists o. split; [done|]. intros k a Hk Hm. destruct (Nat.eq_dec k (length w)) as [->|]; [|apply (Hcov k a); [lia|done]].
    destruct Hm as (_ & q' & Hq' & Ha'). rewrite firstn_all, Hr in Hq'. injection Hq' as <-. by rewrite Ha in Ha'.
Qed.

(** The buffer after a character is consumed. *)
Definition after_char (c : Z) (b : lexer_buffer) : lexer_buffer :=
  if c =? 256
  then Lexbuf (lex_buffer b) (lex_buffer_len b) (lex_start_pos b) (lex_curr_pos b) (lex_last_pos b) (lex_last_action b) (Val_bool false) (lex_mem b)
  else Lexbuf (lex_buffer b) (lex_buffer_len b) (lex_start_pos b) (u64 (lex_curr_pos b + 2)) (lex_last_pos b) (lex_last_action b) (lex_eof_reached b) (lex_mem b).

Lemma next_char_none b : buffer_ok b → lex_input b = [] → lex_next_char b = inr (b, None) ∧ lex_eof_reached b = Val_bool false.
Proof.
  intros (c & len & Ec & El & Hc & Hm & Hl & _) Hin. unfold lex_input in Hin. apply app_nil in Hin as [H1 H2].
  rewrite Ec, El, !Long_val_pos in H1 by lia. apply (f_equal length) in H1. rewrite length_take, length_drop in H1. cbn in H1.
  unfold lex_next_char, mbnd, mget. rewrite Ec, El, !s64_pos by lia. destruct (Z.leb_spec (2 * len + 1) (2 * c + 1)); [|lia].
  destruct (Z.eqb_spec (lex_eof_reached b) (Val_bool false)); [|done]. done.
Qed.

(** A character read: the position moves on unless it is the end of input. *)
Lemma next_char_some b c r : buffer_ok b → lex_input b = c :: r →
  ∃ b', lex_next_char b = inr (b', Some c) ∧ 0 <= c <= 256 ∧
    (c = 256 → r = [] ∧ b' = b) ∧ (c ≠ 256 → b' = after_char c b).
Proof.
  intros (p & len & Ep & El & Hp & Hm & Hl & Hby) Hin. unfold lex_input in Hin. rewrite Ep, El, !Long_val_pos in Hin by lia.
  unfold lex_next_char, mbnd, mget. rewrite Ep, El, !s64_pos, Long_val_pos by lia. destruct (Z.leb_spec (2 * len + 1) (2 * p + 1)) as [Hle|Hlt].
  - replace (Z.to_nat (len - p)) with 0%nat in Hin by lia. cbn [take app] in Hin. destruct (lex_eof_reached b =? Val_bool false); [done|].
    injection Hin as <- <-. exists b. split_and!; try done; lia.
  - destruct (lookup_lt_is_Some_2 (lex_buffer b) (Z.to_nat p)) as [c' Hc']; [lia|].
    rewrite (drop_S _ c' _ Hc') in Hin. replace (Z.to_nat (len - p)) with (S (Z.to_nat (len - p - 1))) in Hin by lia.
    cbn [take app] in Hin. injection Hin as <- _. unfold byte_at. destruct (Z.leb_spec 0 p); [|lia]. rewrite Hc'. cbn.
    rewrite Forall_lookup in Hby. pose proof (Hby _ _ Hc'). eexists. split; [reflexivity|]. split_and!; try lia. intros Hne.
    unfold after_char. destruct (Z.eqb_spec c' 256); [done|]. by rewrite Ep.
Qed.

Lemma after_char_ok b c r : buffer_ok b → lex_input b = c :: r → buffer_ok (after_char c b) ∧ lex_input (after_char c b) = r.
Proof.
  intros (p & len & Ep & El & Hp & Hm & Hl & Hby) Hin. unfold lex_input in *. rewrite Ep, El, !Long_val_pos in Hin by lia.
  assert (p = len ∧ c = 256 ∧ r = [] ∨ p < len ∧ c ≠ 256 ∧ r = take (Z.to_nat (len - (p + 1))) (drop (Z.to_nat (p + 1)) (lex_buffer b)) ++ (if lex_eof_reached b =? Val_bool false then [] else [256])) as Hcase.
  { destruct (Z.eq_dec p len) as [->|].
    - left. rewrite Z.sub_diag in Hin. cbn [Z.to_nat take app] in Hin. destruct (lex_eof_reached b =? Val_bool false); [done|]. by injection Hin as <- <-.
    - right. destruct (lookup_lt_is_Some_2 (lex_buffer b) (Z.to_nat p)) as [c' Hc']; [lia|].
      rewrite (drop_S _ c' _ Hc') in Hin. replace (Z.to_nat (len - p)) with (S (Z.to_nat (len - (p + 1)))) in Hin by lia.
      cbn [take app] in Hin. injection Hin as <- <-. rewrite Forall_lookup in Hby. pose proof (Hby _ _ Hc').
      split_and!; [lia|lia|]. by replace (S (Z.to_nat p)) with (Z.to_nat (p + 1)) by lia. }
  unfold after_char. destruct Hcase as [(-> & -> & ->)|(Hlt & Hne & ->)].
  - cbn. rewrite Ep, El, !Long_val_pos, Z.sub_diag by lia. split; [|done]. exists len, len. split_and!; try done; lia.
  - destruct (Z.eqb_spec c 256); [done|]. cbn [lex_curr_pos lex_buffer_len lex_buffer lex_eof_reached]. rewrite Ep, El, Val_long_succ, !Long_val_pos by lia.
    split; [|done]. exists (p + 1), len. cbn. split_and!; try done; lia.
Qed.
Lemma after_char_scanning tbl q0 s w q c q' b : scanning tbl q0 s w q (S (length w)) b → delta tbl q c = Some q' → 0 <= c <= 256 →
  scanning tbl q0 s (w ++ [c]) q' (length (w ++ [c])) (after_char c b).
Proof.
  intros (Hr & Hw & Hs & Hp & o & Ho & Hcov) Hd Hc.
  assert (last_is tbl q0 s (w ++ [c]) (after_char c b) o) as Ho'.
  { unfold after_char. destruct o as [[k a]|]; [|by destruct (c =? 256)]. destruct Ho as (Hm & H1 & H2). pose proof (proj1 Hm).
    destruct (c =? 256); cbn; rewrite take_app_le by done; (split_and!; [by apply matched_app|done..]). }
  split_and!.
  - rewrite run_app, Hr. cbn. by rewrite Hd.
  - apply Forall_app. split; [done|]. by constructor.
  - unfold after_char. by destruct (c =? 256).
  - rewrite width_app, width_one. unfold after_char. destruct (c =? 256); cbn [lex_curr_pos]; rewrite Hp, ?Val_long_succ; f_equal; lia.
  - exists o. split; [done|]. intros k a Hk Hm. rewrite length_app in Hk. cbn in Hk. apply (Hcov k a); [lia|].
    by apply (matched_app _ _ _ [c]); [lia|].
Qed.

Lemma with_last_same bt b : lex_input (with_last bt b) = lex_input b ∧ lex_eof_reached (with_last bt b) = lex_eof_reached b ∧ (buffer_ok b → buffer_ok (with_last bt b)).
Proof. unfold with_last. by destruct (0 <=? bt). Qed.

(** The rest of an iteration, once the backtrack point is recorded. *)
Lemma lex_loop_next fuel tbl q b base bt : short_at (lex_base tbl) q = Some base → 0 <= base → short_at (lex_backtrk tbl) q = Some bt →
  lex_loop (S fuel) tbl q b =
  (let* oc := lex_next_char in
   match oc with
   | None => mreturn (Val_int (- q - 1))
   | Some c =>
       let* q' := lex_next_state (lex_check tbl) (lex_trans tbl) (lex_default tbl) base q c in
       if q' <? 0 then lex_backtrack else
       (if c =? 256 then set_eof_reached (Val_bool false) else mreturn tt) ;;; lex_loop fuel tbl q'
   end) (with_last bt b).
Proof.
  intros Eb Hb Et. cbn [lex_loop]. rewrite (mbnd_eq _ _ _ _ _ (Short_at _ _ _ b Eb)). destruct (Z.ltb_spec base 0); [lia|].
  rewrite (mbnd_eq _ _ _ _ _ (Short_at _ _ _ b Et)). unfold with_last. by destruct (0 <=? bt).
Qed.

(** The end of the scan: the backtrack point is the longest match. *)
Lemma backtrack_outcome tbl q0 s w q c r eof b b' : scanning tbl q0 s w q (S (length w)) b → delta tbl q c = None → lex_eof_reached b = eof →
  (b' = b ∨ ∃ p, b' = Lexbuf (lex_buffer b) (lex_buffer_len b) (lex_start_pos b) p (lex_last_pos b) (lex_last_action b) (lex_eof_reached b) (lex_mem b)) →
  outcome tbl q0 s (w ++ c :: r) eof (lex_backtrack b').
Proof.
  intros (Hr & Hw & Hs & Hp & o & Ho & Hcov) Hd He Hb'.
  assert (lex_backtrack b' = lex_backtrack b) as -> by (by destruct Hb' as [->|[p ->]]). clear Hb' b'.
  assert (∀ k a, matched tbl q0 (w ++ c :: r) k a → (k <= length w)%nat ∧ matched tbl q0 w k a) as Hall.
  { intros k a Hm. assert (k <= length w)%nat as Hk by (eapply matched_stuck; [done| |done]; by intros ? ? [= <- <-]).
    split; [done|]. by apply (matched_app _ _ _ (c :: r)). }
  unfold lex_backtrack, mbnd, mget, set_curr_pos, mmodify. cbn [lex_last_action]. destruct o as [[k a]|].
  - destruct Ho as (Hm & -> & Hpos). pose proof Hm as (Hk & qa & _ & Ha). rewrite Z_eqb_action by (by eapply accepts_range).
    apply (Token tbl q0 s (w ++ c :: r) eof k a); cbn.
    + split; [by apply matched_app|]. intros k' a' Hm'. apply Hall in Hm' as [Hk' Hm']. destruct (Hcov k' a' ltac:(lia) Hm') as (k1 & a1 & [= <- <-] & ?). done.
    + done.
    + by rewrite take_app_le.
    + rewrite length_app. cbn. destruct (Nat.eqb_spec k (length w + S (length r))); [lia|done].
  - destruct Ho as (-> & Hpos). rewrite Z.eqb_refl. apply No_token; [|done..]. intros k a Hm. apply Hall in Hm as [Hk Hm].
    destruct (Hcov k a ltac:(lia) Hm) as (? & ? & ? & _). done.
Qed.
(** A state that only performs an action ends the scan. *)
Lemma action_outcome fuel tbl q0 s w q base r eof b : scanning tbl q0 s w q (length w) b → short_at (lex_base tbl) q = Some base → base < 0 →
  lex_eof_reached b = (if (length w =? length (w ++ r))%nat then Val_bool false else eof) →
  outcome tbl q0 s (w ++ r) eof (lex_loop (S fuel) tbl q b).
Proof.
  intros (Hr & Hw & Hs & Hp & _) Eb Hb He. cbn [lex_loop]. rewrite (mbnd_eq _ _ _ _ _ (Short_at _ _ _ b Eb)). destruct (Z.ltb_spec base 0); [|lia].
  apply (Token tbl q0 s (w ++ r) eof (length w) (- base - 1)); [|done| |done].
  - split.
    + apply matched_app; [lia|]. split; [lia|]. exists q. rewrite firstn_all. split; [done|]. unfold accepts. rewrite Eb. cbn.
      by destruct (Z.ltb_spec base 0); [|lia].
    + intros k' a'. apply matched_stuck with q; [done|]. intros c r' _. unfold delta. rewrite Eb. cbn. by destruct (Z.ltb_spec base 0); [|lia].
  - by rewrite take_app_length.
Qed.

Lemma end_outcome fuel tbl n q0 s w q eof b : tables_ok tbl n = true → 0 <= q < n → buffer_ok b → lex_input b = [] →
  scanning tbl q0 s w q (length w) b → outcome tbl q0 s w eof (lex_loop (S fuel) tbl q b).
Proof.
  intros Ht Hq Hb Hin Hs. destruct (tables_state tbl n q Ht Hq) as (base & bt & Eb & Et & _). destruct (next_char_none b Hb Hin) as [_ He].
  destruct (Z.lt_ge_cases base 0) as [Hlt|Hge].
  - rewrite <- (app_nil_r w). eapply action_outcome; [done..|]. by rewrite app_nil_r, Nat.eqb_refl.
  - rewrite (lex_loop_next fuel tbl q b base bt Eb Hge Et). destruct (with_last_same bt b) as (Hi & He' & Hb').
    rewrite <- Hi in Hin. destruct (next_char_none _ (Hb' Hb) Hin) as [Hn _]. rewrite (mbnd_eq _ _ _ _ _ Hn). apply Refill; [|by rewrite He'].
    by eapply with_last_scanning.
Qed.

Lemma loop_outcome fuel tbl n q0 s w q b : tables_ok tbl n = true → 0 <= q0 < n → buffer_ok b → (length (lex_input b) < fuel)%nat →
  scanning tbl q0 s w q (length w) b → outcome tbl q0 s (w ++ lex_input b) (lex_eof_reached b) (lex_loop fuel tbl q b).
Proof.
  intros Ht Hq0. revert w q b. induction fuel as [|fuel IH]; intros w q b Hb Hf Hs; [lia|].
  assert (0 <= q < n) as Hq by (destruct Hs as (Hr & Hw & _); by eapply run_range). destruct (lex_input b) as [|c r] eqn:Hin.
  { rewrite app_nil_r. by eapply end_outcome. }
  destruct (tables_state tbl n q Ht Hq) as (base & bt & Eb & Et & Hstep). destruct (Z.lt_ge_cases base 0) as [Hlt|Hge].
  { eapply action_outcome; [done..|]. rewrite length_app. cbn. by destruct (Nat.eqb_spec (length w) (length w + S (length r))); [lia|]. }
  rewrite (lex_loop_next fuel tbl q b base bt Eb Hge Et). destruct (with_last_same bt b) as (Hi & He & Hb').
  pose proof (with_last_scanning tbl q0 s w q base bt b Hs Eb Hge Et) as Hs1. specialize (Hb' Hb). rewrite Hin in Hi. rewrite <- He. clear He.
  generalize dependent (with_last bt b). clear b Hb Hs Hin. intros b Hin Hb Hs.
  destruct (next_char_some b c r Hb Hin) as (b1 & Hn & Hc & Heof & Hchr). rewrite (mbnd_eq _ _ _ _ _ Hn).
  destruct (Hstep Hge c Hc) as (q' & Etar & Hq'). rewrite (mbnd_eq _ _ _ _ _ (next_state_at _ _ _ _ _ _ _ b1 Etar)).
  assert (delta tbl q c = if q' <? 0 then None else Some q') as Hd.
  { unfold delta. rewrite Eb. cbn. destruct (Z.ltb_spec base 0); [lia|]. by rewrite Etar. }
  destruct (Z.ltb_spec q' 0) as [Hneg|Hpos].
  { apply (backtrack_outcome tbl q0 s w q c r _ b); [done..|]. destruct (Z.eq_dec c 256) as [E|E]; [left; by apply Heof|right].
    rewrite (Hchr E). unfold after_char. destruct (Z.eqb_spec c 256); [done|]. eauto. }
  assert ((if c =? 256 then set_eof_reached (Val_bool false) else mreturn tt) b1 = inr (after_char c b, tt)) as Hset.
  { destruct (Z.eqb_spec c 256) as [E|E]; [destruct (Heof E) as [_ ->]|rewrite (Hchr E); done]. unfold after_char. by rewrite (proj2 (Z.eqb_eq c 256) E). }
  rewrite (mbnd_eq _ _ _ _ _ Hset). destruct (after_char_ok b c r Hb Hin) as [Hb2 Hin2].
  pose proof (after_char_scanning tbl q0 s w q c q' b Hs Hd Hc) as Hs2. cbn in Hf. destruct (Z.eq_dec c 256) as [E|E].
  - destruct (Heof E) as [-> _]. destruct fuel as [|fuel]; [lia|]. by eapply end_outcome.
  - specialize (IH _ _ _ Hb2 ltac:(rewrite Hin2; lia) Hs2). rewrite Hin2, <- app_assoc in IH. unfold after_char in IH at 1. by destruct (Z.eqb_spec c 256).
Qed.

(** C31. The scan of one token: on tables that encode an automaton with [n]
    states the engine always answers, whatever the input and whether it is a
    first call or the continuation after a refill.  It answers the action of
    the longest accepted prefix of the characters read so far and to come,
    with the current position at its end and the end-of-file mark erased
    exactly if the mark was consumed; or it fails when no prefix is
    accepted; or it asks for a refill in a state from which the scan
    continues. *)
Theorem lex_longest_match fuel tbl n q0 s w start_state b : tables_ok tbl n = true → n <= 32768 → 0 <= q0 < n →
  buffer_ok b → (length (lex_input b) < fuel)%nat → lex_ready tbl q0 s w start_state b →
  outcome tbl q0 s (w ++ lex_input b) (lex_eof_reached b) (caml_lex_engine_r fuel tbl start_state b).
Proof.
  intros Ht Hn Hq0 Hb Hf [(-> & -> & Hp)|(q & -> & Hs)]; unfold caml_lex_engine_r.
  - set (b1 := Lexbuf (lex_buffer b) (lex_buffer_len b) (lex_curr_pos b) (lex_curr_pos b) (lex_curr_pos b) (Val_int (-1)) (lex_eof_reached b) (lex_mem b)).
    assert (lex_entry (Val_int q0) b = inr (b1, q0)) as E by (unfold lex_entry; rewrite Int_val_small by lia; by destruct (Z.leb_spec 0 q0); [|lia]).
    rewrite (mbnd_eq _ _ _ _ _ E). apply (loop_outcome fuel tbl n q0 s [] q0 b1); try done.
    split_and!; [done|constructor|done| |]; [rewrite Z.add_0_r; done|]. exists None. split; [done|]. intros k a Hk. cbn in Hk. lia.
  - assert (0 <= q < n) as Hq by (destruct Hs as (Hr & Hw & _); by eapply run_range).
    assert (lex_entry (Val_int (- q - 1)) b = inr (b, q)) as E.
    { unfold lex_entry. rewrite Int_val_small by lia. destruct (Z.leb_spec 0 (- q - 1)); [lia|]. unfold mreturn. do 2 f_equal. lia. }
    rewrite (mbnd_eq _ _ _ _ _ E). apply (loop_outcome fuel tbl n); [done..|]. destruct Hs as (Hr & Hw & Hs1 & Hp & o & Ho & Hcov).
    split_and!; [done..|]. exists o. split; [done|]. intros k a Hk. apply Hcov. lia.
Qed.
(** ** The two engines agree *)

Definition erase (b : lexer_buffer) : lexer_buffer :=
  Lexbuf (lex_buffer b) (lex_buffer_len b) (lex_start_pos b) (lex_curr_pos b) (lex_last_pos b) (lex_last_action b) (lex_eof_reached b) [].

Definition erase_result {A} (r : lex_stop + (lexer_buffer * A)) : lex_stop + (lexer_buffer * A) :=
  match r with
  | inr (b, x) => inr (erase b, x)
  | inl (Empty_token b) => inl (Empty_token (erase b))
  | inl (LexFault f) => inl (LexFault f)
  end.

(** The memory moves of a code: they end, between the cells of a memory of
    size [m]. *)
Fixpoint moves_ok (m : Z) (code : list Z) : bool :=
  match code with
  | [] => false
  | dst :: code =>
      if dst =? 255 then true else
      match code with
      | [] => false
      | src :: code => (0 <=? dst) && (dst <? m) && ((src =? 255) || (0 <=? src) && (src <? m)) && moves_ok m code
      end
  end.
Definition code_ok (tbl : lexing_table) (m : Z) (off : option Z) : bool :=
  match off with Some off => (0 <=? off) && moves_ok m (drop (Z.to_nat off) (lex_code tbl)) | None => false end.

(** The code of a transition, none for an offset that is not positive. *)
Definition trans_code_ok (tbl : lexing_table) (m : Z) (off : option Z) : bool :=
  match off with Some off => if 0 <? off then code_ok tbl m (Some off) else true | None => false end.

Definition state_codes_ok (tbl : lexing_table) (m q : Z) : bool :=
  match short_at (lex_base tbl) q, short_at (lex_backtrk tbl) q, short_at (lex_base_code tbl) q with
  | Some base, Some bt, Some bc =>
      if base <? 0 then code_ok tbl m (Some bc)
      else (if 0 <=? bt then code_ok tbl m (short_at (lex_backtrk_code tbl) q) else true) &&
           forallb (λ c, trans_code_ok tbl m (target_in (lex_check_code tbl) (lex_trans_code tbl) (lex_default_code tbl) bc q c)) (seqZ 0 257)
  | _, _, _ => false
  end.
Definition codes_ok (tbl : lexing_table) (n m : Z) : bool := forallb (state_codes_ok tbl m) (seqZ 0 n).

Section Agree.
Context (m : Z).

Definition sized (b : lexer_buffer) : Prop := Z.of_nat (length (lex_mem b)) = m ∧ Forall (λ x, 0 <= x < 256) (lex_buffer b).

(** From [b] the computation [c] does what [c'] does without memory. *)
Definition agrees {A} (Q : A → Prop) (c c' : LM A) : Prop :=
  ∀ b, sized b → c' (erase b) = erase_result (c b) ∧ match c b with inr (b1, x) => sized b1 ∧ Q x | inl _ => True end.

(** [c] returns and changes the memory only. *)
Definition mem_only {A} (Q : A → Prop) (c : LM A) : Prop :=
  ∀ b, sized b → ∃ b1 x, c b = inr (b1, x) ∧ erase b1 = erase b ∧ sized b1 ∧ Q x.

Lemma agrees_bind {A B} (P : A → Prop) (Q : B → Prop) (c c' : LM A) (k k' : A → LM B) :
  agrees P c c' → (∀ x, P x → agrees Q (k x) (k' x)) → agrees Q (mbnd c k) (mbnd c' k').
Proof.
  intros Hc Hk b Hb. destruct (Hc b Hb) as [E H]. unfold mbnd. rewrite E. destruct (c b) as [[]|[b1 x]]; [done..|].
  destruct H as [Hb1 Hx]. by apply (Hk x Hx b1).
Qed.

Lemma agrees_mem_only {A B} (P : A → Prop) (Q : B → Prop) (c : LM A) (k : A → LM B) c' :
  mem_only P c → (∀ x, P x → agrees Q (k x) c') → agrees Q (mbnd c k) c'.
Proof.
  intros Hc Hk b Hb. destruct (Hc b Hb) as (b1 & x & E & He & Hs & Hx). unfold mbnd. rewrite E, <- He. by apply (Hk x Hx b1).
Qed.

Lemma agrees_ret {A} (Q : A → Prop) x : Q x → agrees Q (mreturn x) (mreturn x).
Proof. by intros HQ b Hb. Qed.

Lemma mem_only_ret {A} (Q : A → Prop) x : Q x → mem_only Q (mreturn x).
Proof. intros HQ b Hb. by exists b, x. Qed.

Lemma short_agrees t q v : short_at t q = Some v → agrees (eq v) (Short t q) (Short t q).
Proof. intros E b Hb. by rewrite !(Short_at _ _ _ _ E). Qed.

Lemma short_mem_only t q v : short_at t q = Some v → mem_only (eq v) (Short t q).
Proof. intros E b Hb. exists b, v. by rewrite (Short_at _ _ _ _ E). Qed.

Lemma next_state_agrees ck tr df base q c q' : target_in ck tr df base q c = Some q' →
  agrees (eq q') (lex_next_state ck tr df base q c) (lex_next_state ck tr df base q c).
Proof. intros E b Hb. by rewrite !(next_state_at _ _ _ _ _ _ _ _ E). Qed.

Lemma next_state_mem_only ck tr df base q c q' : target_in ck tr df base q c = Some q' → mem_only (eq q') (lex_next_state ck tr df base q c).
Proof. intros E b Hb. exists b, q'. by rewrite (next_state_at _ _ _ _ _ _ _ _ E). Qed.

Lemma move_mem_only dst src fresh : 0 <= dst < m → src = 255 ∨ 0 <= src < m →
  mem_only (λ _, True) (if src =? 255 then mem_set dst fresh else let* v := mem_get src in mem_set dst v).
Proof.
  intros Hd Hs b [Hl Hb]. assert (∀ v, ∃ b1, mem_set dst v b = inr (b1, tt) ∧ erase b1 = erase b ∧ sized b1) as Hset.
  { intros v. unfold mem_set, mbnd, mget. destruct (Z.ltb_spec dst (Z.of_nat (length (lex_mem b)))); [|lia]. eexists. split; [reflexivity|].
    split; [done|]. split; [|done]. cbn. by rewrite length_insert. }
  destruct (Z.eqb_spec src 255) as [|Hne].
  - destruct (Hset fresh) as (b1 & E & ? & ?). by exists b1, tt.
  - destruct (lookup_lt_is_Some_2 (lex_mem b) (Z.to_nat src)) as [v Hv]; [lia|]. destruct (Hset v) as (b1 & E & ? & ?). exists b1, tt.
    unfold mem_get, mbnd at 1 2, mget. rewrite Hv. by unfold mreturn.
Qed.

Lemma run_code_mem_only code fresh : moves_ok m code = true → mem_only (λ _, True) (run_code code fresh).
Proof.
  remember (length code) as n eqn:En. assert (length code <= n)%nat as Hn by lia. clear En. revert code Hn.
  induction n as [|n IH]; intros [|dst code] Hn Hok; cbn [run_code length moves_ok] in *; try lia; try done.
  destruct (dst =? 255); [by apply mem_only_ret|]. destruct code as [|src code]; [done|]. cbn [length] in Hn.
  rewrite !andb_true_iff, orb_true_iff, andb_true_iff, Z.eqb_eq, !Z.leb_le, !Z.ltb_lt in Hok. destruct Hok as (((Hd1 & Hd2) & Hsrc) & Hok).
  intros b Hb. destruct (move_mem_only dst src fresh ltac:(lia) ltac:(lia) b Hb) as (b1 & u & E & He & Hb1 & _).
  rewrite (mbnd_eq _ _ _ _ _ E), <- He. apply IH; [lia|done..].
Qed.

Lemma run_at_mem_only tbl off fresh : code_ok tbl m (Some off) = true →
  mem_only (λ _, True) (if 0 <=? off then run_code (drop (Z.to_nat off) (lex_code tbl)) fresh else mfail (LexFault (BadLoad off))).
Proof. cbn. intros [-> Hok]%andb_true_iff. by apply run_code_mem_only. Qed.

Lemma next_char_agrees : agrees (λ o, ∀ c, o = Some c → 0 <= c <= 256) lex_next_char lex_next_char.
Proof.
  intros b Hb. unfold lex_next_char, mbnd, mget, byte_at. cbn [erase lex_buffer_len lex_curr_pos lex_eof_reached lex_buffer].
  destruct (s64 (lex_buffer_len b) <=? _).
  { destruct (lex_eof_reached b =? _); (split; [done|split; [done|]]); [done|]. intros c [= <-]. lia. }
  destruct (if 0 <=? Long_val (lex_curr_pos b) then lex_buffer b !! Z.to_nat (Long_val (lex_curr_pos b)) else None) as [c|] eqn:Ec; [|done].
  split; [done|]. split; [done|]. intros ? [= <-]. destruct (0 <=? Long_val (lex_curr_pos b)); [|done]. destruct Hb as [_ Hb].
  rewrite Forall_lookup in Hb. specialize (Hb _ _ Ec). lia.
Qed.

Lemma backtrack_agrees : agrees (λ _, True) lex_backtrack lex_backtrack.
Proof. intros b Hb. unfold lex_backtrack, mbnd, mget, set_curr_pos, mmodify. cbn. by destruct (lex_last_action b =? _). Qed.

Lemma new_loop_agrees fuel tbl n : tables_ok tbl n = true → codes_ok tbl n m = true →
  ∀ q, 0 <= q < n → agrees (λ _, True) (new_lex_loop fuel tbl q) (lex_loop fuel tbl q).
Proof.
  intros Ht Hk. induction fuel as [|fuel IH]; intros q Hq; cbn [new_lex_loop lex_loop]; [by intros b|].
  destruct (tables_state tbl n q Ht Hq) as (base & bt & Eb & Et & Hstep). unfold codes_ok in Hk. rewrite forallb_forall in Hk.
  pose proof (Hk q) as Hc. unfold state_codes_ok in Hc. rewrite <- list_elem_of_In, elem_of_seqZ, Eb, Et in Hc. specialize (Hc ltac:(lia)).
  destruct (short_at (lex_base_code tbl) q) as [bc|] eqn:Ebc; [|done].
  eapply agrees_bind; [by apply short_agrees|]. intros ? <-. destruct (Z.ltb_spec base 0).
  { eapply agrees_mem_only; [by apply short_mem_only|]. intros ? <-. eapply agrees_mem_only; [by apply run_at_mem_only|]. intros _ _. by apply agrees_ret. }
  apply andb_true_iff in Hc as [Hbt Htr]. rewrite forallb_forall in Htr.
  eapply agrees_bind; [by apply short_agrees|]. intros ? <-. eapply (agrees_bind (λ _, True)).
  { destruct (0 <=? bt); [|by apply agrees_ret]. destruct (short_at (lex_backtrk_code tbl) q) as [off|] eqn:Eo; [|done].
    eapply agrees_mem_only; [by apply short_mem_only|]. intros ? <-. eapply agrees_mem_only; [by apply run_at_mem_only|]. by intros _ _ b. }
  intros _ _. eapply agrees_bind; [apply next_char_agrees|]. intros [c|] Hc; [|by apply agrees_ret]. specialize (Hc c eq_refl).
  destruct (Hstep ltac:(lia) c Hc) as (q' & Etar & Hq'). eapply agrees_bind; [by apply next_state_agrees|]. intros ? <-.
  destruct (Z.ltb_spec q' 0); [apply backtrack_agrees|]. specialize (Htr c). rewrite <- list_elem_of_In, elem_of_seqZ in Htr. specialize (Htr ltac:(lia)).
  destruct (target_in _ _ _ bc q c) as [off|] eqn:Eoff; [|done]. cbn [trans_code_ok] in Htr.
  eapply agrees_mem_only; [by apply short_mem_only|]. intros ? <-. eapply agrees_mem_only; [by apply next_state_mem_only|]. intros ? <-.
  eapply (agrees_mem_only (λ _, True)).
  { destruct (0 <? off); [|by apply mem_only_ret]. intros b Hb. unfold mbnd, mget. by apply run_at_mem_only. }
  intros _ _. eapply (agrees_bind (λ _, True)); [|intros _ _; apply IH; lia]. destruct (c =? 256); [by intros b|by apply agrees_ret].
Qed.
End Agree.

(** C32. The engine with memory of positions scans exactly as the engine without:
    same tokens, same positions, same refills, same failure, whatever moves
    the codes make in the memory. *)
Theorem new_lex_engine_agrees fuel tbl n m start_state b : tables_ok tbl n = true → codes_ok tbl n m = true →
  - n <= Int_val start_state < n → Z.of_nat (length (lex_mem b)) = m → Forall (λ x, 0 <= x < 256) (lex_buffer b) →
  caml_lex_engine_r fuel tbl start_state (erase b) = erase_result (caml_new_lex_engine_r fuel tbl start_state b).
Proof.
  intros Ht Hk Hst Hm Hb. unfold caml_lex_engine_r, caml_new_lex_engine_r.
  assert (agrees m (λ q, 0 <= q < n) (lex_entry start_state) (lex_entry start_state)) as He.
  { intros b1 Hb1. unfold lex_entry. destruct (Z.leb_spec 0 (Int_val start_state)); (split; [done|split; [done|lia]]). }
  apply (agrees_bind m _ (λ _, True) _ _ _ _ He); [|done]. intros q Hq. by apply (new_loop_agrees m fuel tbl n).
Qed.

(** ** An automaton: [a+] and [b] are tokens, as is the end of the input; [ac] has no completion. *)

Definition ex_shorts (l : list Z) : list Z := flat_map (λ x, [x mod 256; x / 256 mod 256]) l.
Definition ex_row (l : list (nat * Z)) (d : Z) : list Z := fold_right (λ p t, <[p.1 := p.2]> t) (replicate 514 d) l.
Definition ex_tables : lexing_table :=
  Tables (ex_shorts [0; 257; -2; -3; 0]) (ex_shorts [-1; 0; -1; -1; -1]) (ex_shorts [-1; -1; -1; -1; -1])
    (ex_shorts (ex_row [(97%nat, 1); (98%nat, 2); (256%nat, 3); (354%nat, 1); (356%nat, 4)] 0))
    (ex_shorts (ex_row [(97%nat, 0); (98%nat, 0); (256%nat, 0); (354%nat, 1); (356%nat, 1)] (-1)))
    (ex_shorts [0; 0; 0; 0; 0]) (ex_shorts [0; 4; 0; 0; 0]) (ex_shorts [0; 0; 0; 0; 0])
    (ex_shorts (ex_row [(97%nat, 1)] 0)) (ex_shorts (ex_row [(97%nat, 0)] (-1))) [255; 0; 255; 255; 1; 0; 255].

(** The input [aacx], at its first character. *)
Definition ex_lexbuf : lexer_buffer := Lexbuf [97; 97; 99; 120] (Val_int 4) (Val_int 0) (Val_int 0) (Val_int 0) (Val_int 0) (Val_bool false) [Val_int (-1); Val_int (-1)].

(** The same automaton after a refill: [aa] read, in state 1. *)
Definition ex_refilled : lexer_buffer := Lexbuf [97; 97; 98] (Val_int 3) (Val_int 0) (Val_int 2) (Val_int 2) (Val_int 0) (Val_bool true) [].

Lemma ex_tables_ok : tables_ok ex_tables 5 = true.
Proof. vm_compute. reflexivity. Qed.
Lemma ex_codes_ok : codes_ok ex_tables 5 2 = true.
Proof. vm_compute. reflexivity. Qed.

Lemma lex_longest_match_witness :
  outcome ex_tables 0 0 [97; 97; 99; 120] (Val_bool false) (caml_lex_engine_r 10 ex_tables (Val_int 0) ex_lexbuf) ∧
  outcome ex_tables 0 0 [97; 97; 98; 256] (Val_bool true) (caml_lex_engine_r 10 ex_tables (Val_int (-2)) ex_refilled).
Proof.
  split.
  - apply (lex_longest_match 10 ex_tables 5 0 0 [] (Val_int 0) ex_lexbuf).
    + apply ex_tables_ok.
    + lia.
    + lia.
    + exists 0, 4. unfold Max_long. split_and!; try reflexivity; try (cbn; lia). repeat constructor; lia.
    + vm_compute. lia.
    + left. split_and!; reflexivity.
  - apply (lex_longest_match 10 ex_tables 5 0 0 [97; 97] (Val_int (-2)) ex_refilled).
    + apply ex_tables_ok.
    + lia.
    + lia.
    + exists 2, 3. unfold Max_long. split_and!; try reflexivity; try (cbn; lia). repeat constructor; lia.
    + vm_compute. lia.
    + right. exists 1. split; [reflexivity|]. split_and!; [vm_compute; reflexivity|repeat constructor; lia|reflexivity|vm_compute; reflexivity|].
      exists (Some (2%nat, 0)). split.
      * split_and!; [|reflexivity|vm_compute; reflexivity]. split; [cbn; lia|]. exists 1. split; vm_compute; reflexivity.
      * intros k a Hk _. exists 2%nat, 0. split; [reflexivity|cbn in Hk; lia].
Defined.

Lemma new_lex_engine_agrees_witness :
  caml_lex_engine_r 10 ex_tables (Val_int 0) (erase ex_lexbuf) = erase_result (caml_new_lex_engine_r 10 ex_tables (Val_int 0) ex_lexbuf).
Proof.
  apply (new_lex_engine_agrees 10 ex_tables 5 2 (Val_int 0) ex_lexbuf).
  - apply ex_tables_ok.
  - apply ex_codes_ok.
  - vm_compute. split; [discriminate|reflexivity].
  - reflexivity.
  - repeat constructor; lia.
Defined.

(** [aa] is the token, its action 0; the memory holds the position after the
    first [a] twice. *)
Example new_lex_engine_runs :
  caml_new_lex_engine_r 10 ex_tables (Val_int 0) ex_lexbuf =
  inr (Lexbuf [97; 97; 99; 120] (Val_int 4) (Val_int 0) (Val_int 2) (Val_int 2) (Val_int 0) (Val_bool false) [Val_int 1; Val_int 1], Val_int 0).
Proof. vm_compute. reflexivity. Qed.
End Lexing.
