(* ===== verification/Parsing.v ===== *)
(** The engine of the parsers of ocamlyacc (byterun/parsing.c), with the loop of
    stdlib/parsing.ml that drives it.

    The engine is a coroutine: it returns to the OCaml code to read a token, to
    grow the stacks or to run a semantic action, and is called again with the
    result.  A label of the C function is a constructor of [label], the code
    from it to the next [goto] or [return] a definition.  [engine_returns]
    shows that a call always returns; ParseRun.v relates the engine and the loop
    to the automaton that the tables encode. *)

From S2P Require Import Prelude Mlvalues Lexing.

Module Parsing.

(** ** Tables and environment *)

(** The fields that the engine reads; strings are lists of bytes. *)
Record parser_tables : Type := Tables {
  transl_const : list Z;
  transl_block : list Z;
  lhs : list Z;
  len : list Z;
  defred : list Z;
  dgoto : list Z;
  sindex : list Z;
  rindex : list Z;
  gindex : list Z;
  tablesize : Z;
  table : list Z;
  check : list Z
}.

(** Integers are tagged, arrays are lists of values. *)
Record parser_env : Type := Env {
  s_stack : list Z;
  v_stack : list Z;
  symb_start_stack : list Z;
  symb_end_stack : list Z;
  stacksize : Z;
  stackbase : Z;
  curr_char : Z;
  lval : Z;
  symb_start : Z;
  symb_end : Z;
  env_asp : Z;
  rule_len : Z;
  rule_number : Z;
  env_sp : Z;
  env_state : Z;
  env_errflag : Z
}.

(** The environment and the local variables [state], [sp] and [errflag]. *)
Record pda : Type := Pda { env : parser_env; state : Z; sp : Z; errflag : Z }.

Definition set_stacks (s v b e : list Z) (x : parser_env) : parser_env :=
  Env s v b e (stacksize x) (stackbase x) (curr_char x) (lval x) (symb_start x) (symb_end x) (env_asp x) (rule_len x) (rule_number x) (env_sp x) (env_state x) (env_errflag x).
Definition set_stacksize (n : Z) (x : parser_env) : parser_env :=
  Env (s_stack x) (v_stack x) (symb_start_stack x) (symb_end_stack x) n (stackbase x) (curr_char x) (lval x) (symb_start x) (symb_end x) (env_asp x) (rule_len x) (rule_number x) (env_sp x) (env_state x) (env_errflag x).
Definition set_stackbase (n : Z) (x : parser_env) : parser_env :=
  Env (s_stack x) (v_stack x) (symb_start_stack x) (symb_end_stack x) (stacksize x) n (curr_char x) (lval x) (symb_start x) (symb_end x) (env_asp x) (rule_len x) (rule_number x) (env_sp x) (env_state x) (env_errflag x).
Definition set_curr_char (c : Z) (x : parser_env) : parser_env :=
  Env (s_stack x) (v_stack x) (symb_start_stack x) (symb_end_stack x) (stacksize x) (stackbase x) c (lval x) (symb_start x) (symb_end x) (env_asp x) (rule_len x) (rule_number x) (env_sp x) (env_state x) (env_errflag x).
Definition set_lval (v : Z) (x : parser_env) : parser_env :=
  Env (s_stack x) (v_stack x) (symb_start_stack x) (symb_end_stack x) (stacksize x) (stackbase x) (curr_char x) v (symb_start x) (symb_end x) (env_asp x) (rule_len x) (rule_number x) (env_sp x) (env_state x) (env_errflag x).
Definition set_symb_start (p : Z) (x : parser_env) : parser_env :=
  Env (s_stack x) (v_stack x) (symb_start_stack x) (symb_end_stack x) (stacksize x) (stackbase x) (curr_char x) (lval x) p (symb_end x) (env_asp x) (rule_len x) (rule_number x) (env_sp x) (env_state x) (env_errflag x).
Definition set_symb_end (p : Z) (x : parser_env) : parser_env :=
  Env (s_stack x) (v_stack x) (symb_start_stack x) (symb_end_stack x) (stacksize x) (stackbase x) (curr_char x) (lval x) (symb_start x) p (env_asp x) (rule_len x) (rule_number x) (env_sp x) (env_state x) (env_errflag x).
Definition set_rule (a l n : Z) (x : parser_env) : parser_env :=
  Env (s_stack x) (v_stack x) (symb_start_stack x) (symb_end_stack x) (stacksize x) (stackbase x) (curr_char x) (lval x) (symb_start x) (symb_end x) a l n (env_sp x) (env_state x) (env_errflag x).
Definition set_saved (p s e : Z) (x : parser_env) : parser_env :=
  Env (s_stack x) (v_stack x) (symb_start_stack x) (symb_end_stack x) (stacksize x) (stackbase x) (curr_char x) (lval x) (symb_start x) (symb_end x) (env_asp x) (rule_len x) (rule_number x) p s e.

Abbreviation PM := (M pda fault).

Definition modify_env (f : parser_env → parser_env) : PM unit := mmodify (λ x, Pda (f (env x)) (state x) (sp x) (errflag x)).
Definition set_state (v : Z) : PM unit := mmodify (λ x, Pda (env x) v (sp x) (errflag x)).
Definition set_sp (v : Z) : PM unit := mmodify (λ x, Pda (env x) (state x) v (errflag x)).
Definition set_errflag (v : Z) : PM unit := mmodify (λ x, Pda (env x) (state x) (sp x) v).

(** ** Accesses *)

Definition at_index (l : list Z) (i : Z) : option Z := if 0 <=? i then l !! Z.to_nat i else None.

(** A 16-bit little-endian entry of a table. *)
Definition short_at (tbl : list Z) (n : Z) : option Z :=
  match at_index tbl (2 * n), at_index tbl (2 * n + 1) with
  | Some lo, Some hi => Some (Lexing.s16 (lo + 256 * hi))
  | _, _ => None
  end.

Definition Short (tbl : list Z) (n : Z) : PM Z :=
  match short_at tbl n with Some v => mreturn v | None => mfail (BadLoad n) end.

(** [Field (a, i)] of an array *)
Definition Elt (a : list Z) (i : Z) : PM Z :=
  match at_index a i with Some v => mreturn v | None => mfail (BadLoad i) end.

(** An assignment to [Field (a, i)]: the array after it. *)
Definition update (a : list Z) (i v : Z) : PM (list Z) :=
  if (0 <=? i) && (i <? Z.of_nat (length a)) then mreturn (<[Z.to_nat i := v]> a) else mfail (BadStore i).

Definition store_s (i v : Z) : PM unit :=
  let* x := mget in let* a := update (s_stack (env x)) i v in
  modify_env (λ e, set_stacks a (v_stack e) (symb_start_stack e) (symb_end_stack e) e).
Definition store_v (i v : Z) : PM unit :=
  let* x := mget in let* a := update (v_stack (env x)) i v in
  modify_env (λ e, set_stacks (s_stack e) a (symb_start_stack e) (symb_end_stack e) e).
Definition store_start (i v : Z) : PM unit :=
  let* x := mget in let* a := update (symb_start_stack (env x)) i v in
  modify_env (λ e, set_stacks (s_stack e) (v_stack e) a (symb_end_stack e) e).
Definition store_end (i v : Z) : PM unit :=
  let* x := mget in let* a := update (symb_end_stack (env x)) i v in
  modify_env (λ e, set_stacks (s_stack e) (v_stack e) (symb_start_stack e) a e).

(** ** The engine *)

Definition ERRCODE : Z := 256.

Definition START : Z := 0.
Definition TOKEN_READ : Z := 1.
Definition STACKS_GROWN_1 : Z := 2.
Definition STACKS_GROWN_2 : Z := 3.
Definition SEMANTIC_ACTION_COMPUTED : Z := 4.
Definition ERROR_DETECTED : Z := 5.

Definition READ_TOKEN : Z := Val_int 0.
Definition RAISE_PARSE_ERROR : Z := Val_int 1.
Definition GROW_STACKS_1 : Z := Val_int 2.
Definition GROW_STACKS_2 : Z := Val_int 3.
Definition COMPUTE_SEMANTIC_ACTION : Z := Val_int 4.
Definition CALL_ERROR_FUNCTION : Z := Val_int 5.

(** Where the control is; the variables that a jump passes are arguments. *)
Inductive label : Type :=
  | Loop
  | Testshift
  | Recover
  | Shift (n2 : Z)
  | Shift_recover (n2 : Z)
  | Push
  | Reduce (n : Z)
  | Semantic_action
  | Return (r : Z).

Definition SAVE : PM unit :=
  let* x := mget in
  modify_env (set_saved (Val_int (sp x)) (Val_int (state x)) (Val_int (errflag x))).

(** [sp] is a [mlsize_t]. *)
Definition RESTORE : PM unit :=
  let* x := mget in
  set_sp (u64 (Int_val (env_sp (env x)))) ;;;
  set_state (Int_val (env_state (env x))) ;;;
  set_errflag (Int_val (env_errflag (env x))).

(** [n1 != 0 && n2 >= 0 && n2 <= Int_val(tables->tablesize) &&
    Short(tables->check, n2) == key], where [n2 = n1 + key] *)
Definition probe (t : parser_tables) (n1 key : Z) : PM bool :=
  let n2 := s32 (n1 + key) in
  if negb (n1 =? 0) && (0 <=? n2) && (n2 <=? Int_val (tablesize t)) then
    let* c := Short (check t) n2 in mreturn (c =? key)
  else mreturn false.

Definition loop (t : parser_tables) : PM label :=
  let* x := mget in
  let* n := Short (defred t) (state x) in
  if negb (n =? 0) then mreturn (Reduce n)
  else if 0 <=? Int_val (curr_char (env x)) then mreturn Testshift
  else SAVE ;;; mreturn (Return READ_TOKEN).

Definition testshift (t : parser_tables) : PM label :=
  let* x := mget in
  let c := Int_val (curr_char (env x)) in
  let* n1 := Short (sindex t) (state x) in
  let* b := probe t n1 c in
  if b : bool then mreturn (Shift (s32 (n1 + c)))
  else
    let* n1 := Short (rindex t) (state x) in
    let* b := probe t n1 c in
    if b : bool then let* n := Short (table t) (s32 (n1 + c)) in mreturn (Reduce n)
    else if 0 <? errflag x then mreturn Recover
    else SAVE ;;; mreturn (Return CALL_ERROR_FUNCTION).

(** [while (1)]: [sp] decreases. *)
Fixpoint discard (fuel : nat) (t : parser_tables) : PM label :=
  match fuel with
  | O => mfail OutOfFuel
  | S fuel =>
      let* x := mget in
      let* v := Elt (s_stack (env x)) (sp x) in
      let* n1 := Short (sindex t) (Int_val v) in
      let* b := probe t n1 ERRCODE in
      if b : bool then mreturn (Shift_recover (s32 (n1 + ERRCODE)))
      else if sp x <=? u64 (Int_val (stackbase (env x))) then mreturn (Return RAISE_PARSE_ERROR)
      else set_sp (u64 (sp x - 1)) ;;; discard fuel t
  end.

Definition recover (t : parser_tables) : PM label :=
  let* x := mget in
  if errflag x <? 3 then
    set_errflag 3 ;;;
    discard (S (Z.to_nat (sp x))) t
  else if Int_val (curr_char (env x)) =? 0 then mreturn (Return RAISE_PARSE_ERROR)
  else modify_env (set_curr_char (Val_int (-1))) ;;; mreturn Loop.

Definition shift (n2 : Z) : PM label :=
  modify_env (set_curr_char (Val_int (-1))) ;;;
  let* x := mget in
  (if 0 <? errflag x then set_errflag (errflag x - 1) else mreturn tt) ;;;
  mreturn (Shift_recover n2).

Definition shift_recover (t : parser_tables) (n2 : Z) : PM label :=
  let* n := Short (table t) n2 in
  set_state n ;;;
  let* x := mget in
  set_sp (u64 (sp x + 1)) ;;;
  let* x := mget in
  if sp x <? u64 (Long_val (stacksize (env x))) then mreturn Push
  else SAVE ;;; mreturn (Return GROW_STACKS_1).

Definition push : PM label :=
  let* x := mget in
  store_s (sp x) (Val_int (state x)) ;;;
  store_v (sp x) (lval (env x)) ;;;
  store_start (sp x) (symb_start (env x)) ;;;
  store_end (sp x) (symb_end (env x)) ;;;
  mreturn Loop.

Definition reduce (t : parser_tables) (n : Z) : PM label :=
  let* m := Short (len t) n in
  let* x := mget in
  modify_env (set_rule (Val_int (sp x)) (Val_int m) (Val_int n)) ;;;
  set_sp (u64 (sp x - m + 1)) ;;;
  let* m := Short (lhs t) n in
  let* x := mget in
  let* v := Elt (s_stack (env x)) (u64 (sp x - 1)) in
  let state1 := Int_val v in
  let* n1 := Short (gindex t) m in
  let* b := probe t n1 state1 in
  (if b : bool then let* s := Short (table t) (s32 (n1 + state1)) in set_state s
   else let* s := Short (dgoto t) m in set_state s) ;;;
  if sp x <? u64 (Long_val (stacksize (env x))) then mreturn Semantic_action
  else SAVE ;;; mreturn (Return GROW_STACKS_2).

Definition semantic_action : PM label := SAVE ;;; mreturn (Return COMPUTE_SEMANTIC_ACTION).

(** From a label to the next. *)
Definition block (t : parser_tables) (l : label) : PM label :=
  match l with
  | Loop => loop t
  | Testshift => testshift t
  | Recover => recover t
  | Shift n2 => shift n2
  | Shift_recover n2 => shift_recover t n2
  | Push => push
  | Reduce n => reduce t n
  | Semantic_action => semantic_action
  | Return r => mreturn (Return r)
  end.

(** A value, with what the engine reads through it when it is a block. *)
Record arg_value : Type := Arg { arg_word : Z; arg_tag : Z; arg_field : Z }.

(** The cases of [switch(Int_val(cmd))]. *)
Definition enter (t : parser_tables) (cmd : Z) (arg : arg_value) : PM label :=
  let c := Int_val cmd in
  if c =? START then
    let* x := mget in
    set_state 0 ;;; set_sp (u64 (Int_val (env_sp (env x)))) ;;; set_errflag 0 ;;; mreturn Loop
  else if c =? TOKEN_READ then
    RESTORE ;;;
    (if Is_block (arg_word arg) then
       let* k := Elt (transl_block t) (arg_tag arg) in
       modify_env (set_curr_char k) ;;; modify_env (set_lval (arg_field arg))
     else
       let* k := Elt (transl_const t) (Int_val (arg_word arg)) in
       modify_env (set_curr_char k) ;;; modify_env (set_lval (Val_long 0))) ;;;
    mreturn Testshift
  else if c =? ERROR_DETECTED then RESTORE ;;; mreturn Recover
  else if c =? STACKS_GROWN_1 then RESTORE ;;; mreturn Push
  else if c =? STACKS_GROWN_2 then RESTORE ;;; mreturn Semantic_action
  else if c =? SEMANTIC_ACTION_COMPUTED then
    RESTORE ;;;
    let* x := mget in
    store_s (sp x) (Val_int (state x)) ;;;
    store_v (sp x) (arg_word arg) ;;;
    let asp := u64 (Int_val (env_asp (env x))) in
    let* p := Elt (symb_end_stack (env x)) asp in
    store_end (sp x) p ;;;
    (if asp <? sp x then
       let* y := mget in
       let* p := Elt (symb_end_stack (env y)) asp in store_start (sp x) p
     else mreturn tt) ;;;
    mreturn Loop
  else mreturn (Return RAISE_PARSE_ERROR).

Fixpoint labels (fuel : nat) (t : parser_tables) (l : label) : PM Z :=
  match l with
  | Return r => mreturn r
  | _ =>
      match fuel with
      | O => mfail OutOfFuel
      | S fuel => let* l := block t l in labels fuel t l
      end
  end.

(** A call passes at most 16 labels ([engine_returns]).  The local variables are
    not initialised. *)
Definition caml_parse_engine_r (t : parser_tables) (e : parser_env) (cmd : Z) (arg : arg_value) : fault + parser_env * Z :=
  match (let* l := enter t cmd arg in labels 16 t l) (Pda e 0 0 0) with
  | inl f => inl f
  | inr (x, r) => inr (env x, r)
  end.

(** [caml_parser_trace] is a field of the context; the tracing itself is not
    modelled. *)
Definition caml_set_parser_trace_r (caml_parser_trace flag : Z) : Z * Z :=
  (Int_val flag, Val_bool (negb (caml_parser_trace =? 0))).

(** ** The loop that drives it (stdlib/parsing.ml) *)

Inductive exn : Type := Parse_error | YYexit (v : Z) | Other_exception (n : Z).

(** Constructor numbers of [parser_input]. *)
Definition unit_arg : arg_value := Arg Val_unit 0 0.

Section Driver.
(** The lexer: from its state to a token with its positions, or an exception.
    The semantic actions: from the values and positions of the right-hand side
    and the end of the last symbol to a value, or an exception.  The error
    function: the exception it raises, if any.  The dummy position. *)
Context {lexbuf : Type} (lexer : lexbuf → lexbuf * (exn + arg_value * Z * Z)).
Context (actions : Z → list (Z * Z * Z) → Z → exn + Z) (error_function : option exn) (dummy_pos : Z).
Context (t : parser_tables).

Definition grow_stacks (e : parser_env) : fault + parser_env :=
  let oldsize := Long_val (stacksize e) in
  let newsize := 2 * oldsize in
  let grow (a : list Z) (d : Z) := take (Z.to_nat oldsize) a ++ replicate (Z.to_nat newsize - Z.to_nat oldsize) d in
  if (Z.of_nat (length (s_stack e)) <? oldsize) || (Z.of_nat (length (v_stack e)) <? oldsize) ||
     (Z.of_nat (length (symb_start_stack e)) <? oldsize) || (Z.of_nat (length (symb_end_stack e)) <? oldsize)
  then inl Contract
  else inr (set_stacksize (Val_long newsize)
    (set_stacks (grow (s_stack e) (Val_int 0)) (grow (v_stack e) Val_unit) (grow (symb_start_stack e) dummy_pos) (grow (symb_end_stack e) dummy_pos) e)).

(** [env.v_stack.(env.asp - i)] and the positions next to it. *)
Definition peek (e : parser_env) (i : Z) : option (Z * Z * Z) :=
  let j := Long_val (env_asp e) - i in
  match at_index (v_stack e) j, at_index (symb_start_stack e) j, at_index (symb_end_stack e) j with
  | Some v, Some p, Some q => Some (v, p, q)
  | _, _, _ => None
  end.

(** What the semantic action reads. *)
Fixpoint peek_rhs (e : parser_env) (n : nat) : option (list (Z * Z * Z)) :=
  match n with
  | O => Some []
  | S n => match peek e (Z.of_nat n), peek_rhs e n with Some c, Some l => Some (c :: l) | _, _ => None end
  end.

(** The OCaml code between two calls of the engine: the exception it raises, or
    the next command and argument. *)
Definition reply (r : Z) (e : parser_env) (lx : lexbuf) : fault + parser_env * lexbuf * (exn + Z * arg_value) :=
  if r =? READ_TOKEN then
    match lexer lx with
    | (lx, inl ex) => inr (e, lx, inl ex)
    | (lx, inr (tok, p, q)) => inr (set_symb_end q (set_symb_start p e), lx, inr (Val_int TOKEN_READ, tok))
    end
  else if r =? RAISE_PARSE_ERROR then inr (e, lx, inl Parse_error)
  else if r =? COMPUTE_SEMANTIC_ACTION then
    match peek_rhs e (Z.to_nat (Long_val (rule_len e))), at_index (symb_end_stack e) (Long_val (env_asp e)) with
    | Some l, Some q =>
        match actions (Long_val (rule_number e)) l q with
        | inr v => inr (e, lx, inr (Val_int SEMANTIC_ACTION_COMPUTED, Arg v 0 0))
        | inl Parse_error => inr (e, lx, inr (Val_int ERROR_DETECTED, unit_arg))
        | inl ex => inr (e, lx, inl ex)
        end
    | _, _ => inl Contract
    end
  else if r =? GROW_STACKS_1 then
    match grow_stacks e with inl f => inl f | inr e => inr (e, lx, inr (Val_int STACKS_GROWN_1, unit_arg)) end
  else if r =? GROW_STACKS_2 then
    match grow_stacks e with inl f => inl f | inr e => inr (e, lx, inr (Val_int STACKS_GROWN_2, unit_arg)) end
  else
    match error_function with
    | Some ex => inr (e, lx, inl ex)
    | None => inr (e, lx, inr (Val_int ERROR_DETECTED, unit_arg))
    end.

(** The function [loop]: it ends with an exception. *)
Fixpoint parse_loop (fuel : nat) (cmd : Z) (arg : arg_value) (e : parser_env) (lx : lexbuf) : fault + parser_env * lexbuf * exn :=
  match fuel with
  | O => inl OutOfFuel
  | S fuel =>
      match caml_parse_engine_r t e cmd arg with
      | inl f => inl f
      | inr (e, r) =>
          match reply r e lx with
          | inl f => inl f
          | inr (e, lx, inl ex) => inr (e, lx, ex)
          | inr (e, lx, inr (cmd, arg)) => parse_loop fuel cmd arg e lx
          end
      end
  end.

Definition yyparse (fuel : nat) (start lex_curr_p : Z) (e : parser_env) (lx : lexbuf) : fault + parser_env * lexbuf * (exn + Z) :=
  let e1 := set_symb_end lex_curr_p (set_curr_char start (set_stackbase (Val_long (Long_val (env_sp e) + 1)) e)) in
  match parse_loop fuel (Val_int START) unit_arg e1 lx with
  | inl f => inl f
  | inr (e', lx, ex) =>
      let e' := set_lval (lval e) (set_curr_char (curr_char e) (set_stackbase (stackbase e)
        (set_saved (env_sp e) (env_state e) (env_errflag e) (set_rule (env_asp e) (rule_len e') (rule_number e') e')))) in
      inr (e', lx, match ex with YYexit v => inr v | _ => inl ex end)
  end.
End Driver.

(** ** The automaton that the tables encode *)

(** [defred q] is 0 if there is no default reduction. *)
Record automaton : Type := Automaton {
  a_defred : Z → Z;
  a_shift : Z → Z → option Z;
  a_reduce : Z → Z → option Z;
  a_goto : Z → Z → Z;
  a_lhs : Z → Z;
  a_len : Z → nat;
  a_token : arg_value → option (Z * Z)
}.

(** A symbol on the stack: the state after it, its value and positions. *)
Record symbol : Type := Symbol { y_state : Z; y_value : Z; y_start : Z; y_end : Z }.

Inductive result : Type := Raised (ex : exn) | Stuck.

Section Machine.
Context {lexbuf : Type} (lexer : lexbuf → lexbuf * (exn + arg_value * Z * Z)).
Context (actions : Z → list (Z * Z * Z) → Z → exn + Z) (error_function : option exn) (A : automaton).

(** The stack, the lookahead token (-1 if there is none), the value and
    positions of the last token read, the number of tokens to shift before
    an error is reported again, and the rest of the input. *)
Record config : Type := Config { stk : list symbol; look : Z; tok : Z * Z * Z; err : Z; input : lexbuf }.

Definition cur (c : config) : Z := match stk c with [] => 0 | y :: _ => y_state y end.
Definition push_token (q : Z) (l : list symbol) (c : config) : list symbol :=
  let '(v, p, p') := tok c in Symbol q v p p' :: l.

(** Reducing by the rule [r]: the action is given the symbols of the
    right-hand side.  The rule of the entry point has no symbol below, and an
    action that raises [YYexit]. *)
Definition lr_reduce (c : config) (r : Z) : lexbuf * (config + result) :=
  let m := a_len A r in
  if (length (stk c) <? m)%nat then (input c, inr Stuck) else
  let rhs := reverse (take m (stk c)) in
  match stk c with
  | [] => (input c, inr Stuck)
  | top :: _ =>
      match actions r (map (λ y, (y_value y, y_start y, y_end y)) rhs) (y_end top) with
      | inl ex => (input c, inr (Raised ex))
      | inr v =>
          match drop m (stk c) with
          | [] => (input c, inr Stuck)
          | y :: l =>
              let start := match rhs with x :: _ => y_start x | [] => y_end top end in
              (input c, inl (Config (Symbol (a_goto A (a_lhs A r) (y_state y)) v start (y_end top) :: y :: l) (look c) (tok c) (err c) (input c)))
          end
      end
  end.

(** The longest rest of the stack where the error symbol can be shifted. *)
Fixpoint find_recovery (l : list symbol) : option (Z * list symbol) :=
  match l with
  | [] => None
  | y :: l' => match a_shift A (y_state y) ERRCODE with Some q => Some (q, l) | None => find_recovery l' end
  end.

Definition lr_recover (c : config) : lexbuf * (config + result) :=
  if err c <? 3 then
    match find_recovery (stk c) with
    | Some (q, l) => (input c, inl (Config (push_token q l c) (look c) (tok c) 3 (input c)))
    | None => (input c, inr (match stk c with [] => Stuck | _ => Raised Parse_error end))
    end
  else if look c =? 0 then (input c, inr (Raised Parse_error))
  else (input c, inl (Config (stk c) (-1) (tok c) (err c) (input c))).

(** With a lookahead token. *)
Definition lr_act (c : config) : lexbuf * (config + result) :=
  match a_shift A (cur c) (look c) with
  | Some q => (input c, inl (Config (push_token q (stk c) c) (-1) (tok c) (Z.max 0 (err c - 1)) (input c)))
  | None =>
      match a_reduce A (cur c) (look c) with
      | Some r => lr_reduce c r
      | None =>
          if 0 <? err c then lr_recover c
          else match error_function with Some ex => (input c, inr (Raised ex)) | None => lr_recover c end
      end
  end.

Definition lr_step (c : config) : lexbuf * (config + result) :=
  if negb (a_defred A (cur c) =? 0) then lr_reduce c (a_defred A (cur c))
  else if 0 <=? look c then lr_act c
  else match lexer (input c) with
       | (lx, inl ex) => (lx, inr (Raised ex))
       | (lx, inr (o, p, q)) =>
           match a_token A o with
           | Some (k, v) => lr_act (Config (stk c) k (v, p, q) (err c) lx)
           | None => (lx, inr Stuck)
           end
       end.

Fixpoint lr_run (n : nat) (c : config) : option (lexbuf * result) :=
  match n with
  | O => None
  | S n => match lr_step c with (lx, inr r) => Some (lx, r) | (_, inl c) => lr_run n c end
  end.
End Machine.
Arguments config : clear implicits.
(** ** A call returns *)

(** The computation does not run out of fuel, and establishes [Q] if there is
    no fault. *)
Definition may {A} (c : PM A) (Q : A → pda → Prop) (x : pda) : Prop :=
  match c x with inl OutOfFuel => False | inl _ => True | inr (x, a) => Q a x end.

Lemma may_ret {A} (a : A) (Q : A → pda → Prop) x : Q a x → may (mreturn a) Q x.
Proof. done. Qed.
Lemma may_bind {A B} (c : PM A) (k : A → PM B) Q x : may c (λ a, may (k a) Q) x → may (mbnd c k) Q x.
Proof. unfold may, mbnd. by destruct (c x) as [[]|[]]. Qed.
Lemma may_get (Q : pda → pda → Prop) x : Q x x → may mget Q x.
Proof. done. Qed.
Lemma may_modify f (Q : unit → pda → Prop) x : Q tt (f x) → may (mmodify f) Q x.
Proof. done. Qed.
Lemma may_conseq {A} (c : PM A) (P Q : A → pda → Prop) x : may c P x → (∀ a x, P a x → Q a x) → may c Q x.
Proof. unfold may. destruct (c x) as [[]|[]]; eauto. Qed.
Lemma may_Short tbl n (Q : Z → pda → Prop) x : (∀ v, Q v x) → may (Short tbl n) Q x.
Proof. intros HQ. unfold may, Short. destruct (short_at tbl n); [apply HQ|done]. Qed.
Lemma may_Elt l i (Q : Z → pda → Prop) x : (∀ v, Q v x) → may (Elt l i) Q x.
Proof. intros HQ. unfold may, Elt. destruct (at_index l i); [apply HQ|done]. Qed.
Lemma may_update l i v (Q : list Z → pda → Prop) x : (∀ a, Q a x) → may (update l i v) Q x.
Proof. intros HQ. unfold may, update. destruct (_ && _); [apply HQ|done]. Qed.
Lemma may_if {A} (b : bool) (c d : PM A) Q x : (b = true → may c Q x) → (b = false → may d Q x) → may (if b then c else d) Q x.
Proof. destruct b; auto. Qed.

Create HintDb may.
Ltac may_step :=
  match goal with
  | |- may (mbnd _ _) _ _ => apply may_bind
  | |- may (mreturn _) _ _ => apply may_ret
  | |- may mget _ _ => apply may_get
  | |- may (mmodify _) _ _ => apply may_modify
  | |- may (Short _ _) _ _ => apply may_Short; intros ?
  | |- may (Elt _ _) _ _ => apply may_Elt; intros ?
  | |- may (update _ _ _) _ _ => apply may_update; intros ?
  | |- may (if _ then _ else _) _ _ => apply may_if; intros ?
  | |- may SAVE _ _ => unfold SAVE
  | |- may RESTORE _ _ => unfold RESTORE
  | |- may (modify_env _) _ _ => unfold modify_env
  | |- may (set_state _) _ _ => unfold set_state
  | |- may (set_sp _) _ _ => unfold set_sp
  | |- may (set_errflag _) _ _ => unfold set_errflag
  | |- may (store_s _ _) _ _ => unfold store_s
  | |- may (store_v _ _) _ _ => unfold store_v
  | |- may (store_start _ _) _ _ => unfold store_start
  | |- may (store_end _ _) _ _ => unfold store_end
  | |- may (probe _ _ _) _ _ => unfold probe; cbv zeta
  end.

(** No lookahead token; an error was reported less than three tokens ago. *)
Definition empty (x : pda) : Prop := Int_val (curr_char (env x)) < 0.
Definition failing (x : pda) : Prop := 3 <= errflag x.

Section Returns.
Context (t : parser_tables).

Definition ends (k : nat) (l : label) (x : pda) : Prop := may (labels k t l) (λ _ _, True) x.

Lemma ends_block k l x : may (block t l) (λ l' x', ends k l' x') x → ends (S k) l x.
Proof. intros Hb. unfold ends. destruct l; try (apply may_bind; exact Hb). apply may_ret. done. Qed.

Lemma ends_return k r x : ends k (Return r) x.
Proof. by destruct k. Qed.

Lemma ends_more k l x : ends k l x → ends (S k) l x.
Proof.
  revert l x. induction k as [|k IH]; intros l x He; [destruct l; try done; apply ends_return|]. destruct l; try apply ends_return; apply ends_block;
    (unfold ends in He; cbn [labels] in He; revert He; unfold may, mbnd; destruct (block t _ x) as [[]|[x' l']]; [done..|apply IH]).
Qed.

Lemma ends_le k k' l x : (k <= k')%nat → ends k l x → ends k' l x.
Proof. induction 1; [done|]. intros He. apply ends_more. auto. Qed.

Ltac ends_tac := repeat may_step; try (lazymatch goal with |- ends _ (Return _) _ => apply ends_return end).

Lemma ends_semantic x : ends 1 Semantic_action x.
Proof. apply ends_block. cbn [block]. unfold semantic_action. ends_tac. Qed.

Lemma ends_reduce n x : ends 2 (Reduce n) x.
Proof. apply ends_block. cbn [block]. unfold reduce. cbv zeta. ends_tac; apply ends_semantic. Qed.

Lemma ends_loop_empty x : empty x → ends 3 Loop x.
Proof. intros He. apply ends_block. cbn [block]. unfold loop. ends_tac; [apply ends_reduce|]. unfold empty in He. lia. Qed.

Lemma ends_may k l x : ends k l x → may (labels k t l) (λ _ _, True) x.
Proof. done. Qed.

Opaque ends.

(** The stacks do not matter for the labels that follow. *)
Definition stable (P : pda → Prop) : Prop := ∀ x y, curr_char (env y) = curr_char (env x) → errflag y = errflag x → P x → P y.

Lemma ends_push (P : pda → Prop) k : stable P → (∀ x, P x → ends k Loop x) → ∀ x, P x → ends (S k) Push x.
Proof. intros Hp Hl x Hx. apply ends_block. cbn [block]. unfold push. ends_tac. apply Hl. by apply (Hp x). Qed.

Lemma ends_shift_recover (P : pda → Prop) k n2 : stable P → (∀ x, P x → ends k Loop x) → ∀ x, P x → ends (S (S k)) (Shift_recover n2) x.
Proof. intros Hp Hl x Hx. apply ends_block. cbn [block]. unfold shift_recover. ends_tac. apply (ends_push P k Hp Hl). by apply (Hp x). Qed.

Lemma stable_empty : stable empty.
Proof. intros x y E _. unfold empty. by rewrite E. Qed.

Lemma stable_failing : stable failing.
Proof. intros x y _ E. unfold failing. by rewrite E. Qed.

Lemma empty_set e a b c : empty (Pda (set_curr_char (Val_int (-1)) e) a b c).
Proof. unfold empty. cbn [env curr_char set_curr_char]. by vm_compute. Qed.

Lemma ends_shift n2 x : ends 6 (Shift n2) x.
Proof.
  apply ends_block. cbn [block]. unfold shift. ends_tac; apply (ends_shift_recover empty 3 n2 stable_empty ends_loop_empty), empty_set.
Qed.

Lemma ends_recover_failing x : failing x → ends 4 Recover x.
Proof. intros Hf. apply ends_block. cbn [block]. unfold recover. ends_tac; [unfold failing in Hf; lia|]. apply ends_loop_empty, empty_set. Qed.

Lemma ends_testshift_failing x : failing x → ends 7 Testshift x.
Proof.
  intros Hf. apply ends_block. cbn [block]. unfold testshift. cbv zeta. ends_tac; lazymatch goal with |- ends _ (Shift _) _ => apply ends_shift | |- ends _ (Reduce _) _ => apply (ends_le 2); [lia|apply ends_reduce] | |- ends _ Recover _ => apply (ends_le 4); [lia|by apply ends_recover_failing] end.
Qed.

Lemma ends_loop_failing x : failing x → ends 8 Loop x.
Proof. intros Hf. apply ends_block. cbn [block]. unfold loop. ends_tac; [apply (ends_le 2); [lia|apply ends_reduce]|by apply ends_testshift_failing]. Qed.

Lemma ends_discard fuel x : word (sp x) → sp x < Z.of_nat fuel → failing x → may (discard fuel t) (λ l' x', ends 10 l' x') x.
Proof.
  revert x. induction fuel as [|fuel IH]; intros x Hw Hs Hf; [unfold word in Hw; lia|]. cbn [discard]. repeat may_step; try (lazymatch goal with |- ends _ (Return _) _ => apply ends_return | |- ends _ (Shift_recover _) _ => by apply (ends_shift_recover failing 8 _ stable_failing ends_loop_failing) end).
  all: match goal with E : (sp _ <=? u64 ?v) = false |- _ => apply Z.leb_gt in E; pose proof (u64_range v) end; apply IH; [apply u64_range| |done]; cbn [sp] in *; rewrite u64_small by (unfold word in *; lia); lia.
Qed.

Lemma ends_recover x : word (sp x) → ends 11 Recover x.
Proof.
  intros Hs. destruct (decide (failing x)) as [Hf|Hf]; [apply (ends_le 4); [lia|by apply ends_recover_failing]|]. apply ends_block. cbn [block]. unfold recover. ends_tac; [|unfold failing in Hf; lia..]. apply ends_discard; [done|cbn [sp]; unfold word in Hs; lia|unfold failing; cbn; lia].
Qed.

Lemma ends_testshift x : word (sp x) → ends 12 Testshift x.
Proof.
  intros Hs. apply ends_block. cbn [block]. unfold testshift. cbv zeta. ends_tac; lazymatch goal with |- ends _ (Shift _) _ => apply (ends_le 6); [lia|apply ends_shift] | |- ends _ (Reduce _) _ => apply (ends_le 2); [lia|apply ends_reduce] | |- _ => by apply ends_recover end.
Qed.

Lemma ends_loop x : word (sp x) → ends 13 Loop x.
Proof. intros Hs. apply ends_block. cbn [block]. unfold loop. ends_tac; [apply (ends_le 2); [lia|apply ends_reduce]|by apply ends_testshift]. Qed.

Lemma ends_enter cmd arg x : may (enter t cmd arg) (λ l' x', ends 16 l' x') x.
Proof.
  unfold enter. cbv zeta. repeat may_step.
  all: lazymatch goal with
  | |- ends _ Loop _ => apply (ends_le 13); [lia|apply ends_loop; apply u64_range]
  | |- ends _ Testshift _ => apply (ends_le 12); [lia|apply ends_testshift; apply u64_range]
  | |- ends _ Recover _ => apply (ends_le 11); [lia|apply ends_recover; apply u64_range]
  | |- ends _ Semantic_action _ => apply (ends_le 1); [lia|apply ends_semantic]
  | |- ends _ Push _ => apply (ends_le 14); [lia|]; apply ends_block; cbn [block]; unfold push; repeat may_step; apply ends_loop; apply u64_range
  | |- _ => apply ends_return end.
Qed.
End Returns.

Lemma engine_may t e cmd arg : may (let* l := enter t cmd arg in labels 16 t l) (λ _ _, True) (Pda e 0 0 0).
Proof. apply may_bind. eapply may_conseq; [apply ends_enter|]. intros l x. apply ends_may. Qed.

(** A call of the engine returns, whatever the tables, the environment, the
    command and the argument: it passes at most 16 labels, and the loop that
    discards states ends at the base of the stack. *)
Theorem engine_returns t e cmd arg : caml_parse_engine_r t e cmd arg ≠ inl OutOfFuel.
Proof.
  pose proof (engine_may t e cmd arg) as Hm. unfold may in Hm. unfold caml_parse_engine_r. destruct ((let* l := enter t cmd arg in labels 16 t l) (Pda e 0 0 0)) as [f|[x r]]; [|intros E; discriminate E].
  intros E. injection E as ->. exact Hm.
Qed.
End Parsing.
