(* ===== verification/ParseRun.v ===== *)
(** Parsers of ocamlyacc as automata: the engine of byterun/parsing.c and the
    loop of stdlib/parsing.ml (Parsing.v) against the LR automaton that the
    tables encode.

    [encodes] says which automaton the tables describe, and [tables_ok] decides
    it for the automaton read from them.  [mrun] runs the engine and the loop
    label by label; each label is related to a part of a step of the automaton
    ([does]), and [fuse] goes from labels back to calls of the engine. *)

From S2P Require Import Prelude Mlvalues Lexing Parsing.
Module ParseRun.
Import Parsing.

(** ** The tables *)

Lemma Long_small n : - 2 ^ 62 <= n < 2 ^ 62 → Long_val (Val_long n) = n.
Proof. intros Hn. rewrite Long_val_Val_long. apply s63_small. unfold Min_long, Max_long. lia. Qed.

Lemma Int_small n : - 2 ^ 31 <= n < 2 ^ 31 → Int_val (Val_int n) = n.
Proof. intros Hn. unfold Int_val, Val_int. rewrite Long_small by lia. unfold s32. rewrite Z.mod_small by lia_w. lia_w. Qed.

Lemma s32_near n : - 2 ^ 31 <= n < 2 ^ 31 → s32 n = n.
Proof. intros Hn. unfold s32. rewrite Z.mod_small by lia_w. lia_w. Qed.

Lemma short_range tbl n v : short_at tbl n = Some v → -32768 <= v < 32768.
Proof. unfold short_at. destruct (at_index tbl (2 * n)), (at_index tbl (2 * n + 1)); try done. intros [= <-]. unfold Lexing.s16. pose proof (Z.mod_pos_bound (z + 256 * z0 + 32768) 65536). lia. Qed.

(** An entry of a compressed table: [None] if the access leaves the tables. *)
Definition lookup_table (t : parser_tables) (idx : list Z) (q key : Z) : option (option Z) :=
  match short_at idx q with
  | None => None
  | Some n1 =>
      if negb (n1 =? 0) && (0 <=? n1 + key) && (n1 + key <=? Int_val (tablesize t)) then
        match short_at (check t) (n1 + key), short_at (table t) (n1 + key) with
        | Some c, Some v => Some (if c =? key then Some v else None)
        | _, _ => None
        end
      else Some None
  end.

(** The tables encode the automaton, of [ns] states, [nn] non-terminals and
    [nr] rules. *)
Record encodes (t : parser_tables) (A : automaton) (ns nn nr : Z) : Prop := {
  c_states : 0 < ns <= 32768;
  c_rules : nr <= 32768;
  c_defred q : 0 <= q < ns → short_at (defred t) q = Some (a_defred A q) ∧ (a_defred A q ≠ 0 → 0 < a_defred A q < nr);
  c_shift q k : 0 <= q < ns → 0 <= k < 32768 → lookup_table t (sindex t) q k = Some (a_shift A q k) ∧ ∀ q', a_shift A q k = Some q' → 0 <= q' < ns;
  c_reduce q k : 0 <= q < ns → 0 <= k < 32768 → lookup_table t (rindex t) q k = Some (a_reduce A q k) ∧ ∀ r, a_reduce A q k = Some r → 0 < r < nr;
  c_rule r : 0 < r < nr → short_at (lhs t) r = Some (a_lhs A r) ∧ 0 <= a_lhs A r < nn ∧ short_at (len t) r = Some (Z.of_nat (a_len A r));
  c_goto n q : 0 <= n < nn → 0 <= q < 32768 → ∃ d g, short_at (dgoto t) n = Some d ∧ lookup_table t (gindex t) n q = Some g ∧ (q < ns → a_goto A n q = default d g ∧ 0 <= a_goto A n q < ns);
  c_token o k v : a_token A o = Some (k, v) → 0 <= k < 32768 ∧
    if Is_block (arg_word o) then at_index (transl_block t) (arg_tag o) = Some (Val_int k) ∧ v = arg_field o
    else at_index (transl_const t) (Int_val (arg_word o)) = Some (Val_int k) ∧ v = Val_long 0
}.

(** *** Checking that tables encode an automaton *)

Definition below_nat (n : Z) : list Z := map Z.of_nat (seq 0 (Z.to_nat n)).

(** Whether every entry that can be found in the table for the index [idx] of
    [n] rows satisfies [ok]. *)
Definition row_ok (t : parser_tables) (keys : Z) (ok : Z → bool) (n1 : Z) : bool :=
  forallb (λ i, match short_at (check t) i, short_at (table t) i with
                | Some c, Some v => negb ((c =? i - n1) && (0 <=? c) && (c <? keys)) || ok v
                | _, _ => false
                end) (below_nat (Int_val (tablesize t) + 1)).

Definition within (lo hi v : Z) : bool := (lo <=? v) && (v <? hi).

Definition tables_ok (t : parser_tables) (ns nn nr : Z) : bool :=
  within 1 32769 ns && (nr <=? 32768) &&
  forallb (λ q, match short_at (defred t) q, short_at (sindex t) q, short_at (rindex t) q with
                | Some d, Some n1, Some n2 => within 0 (Z.max 1 nr) d && row_ok t 32768 (within 0 ns) n1 && row_ok t 32768 (within 1 nr) n2
                | _, _, _ => false
                end) (below_nat ns) &&
  forallb (λ r, match short_at (lhs t) r, short_at (len t) r with
                | Some n, Some m => (r =? 0) || (within 0 nn n && (0 <=? m))
                | _, _ => false
                end) (below_nat nr) &&
  forallb (λ n, match short_at (dgoto t) n, short_at (gindex t) n with
                | Some d, Some n1 => within 0 ns d && row_ok t ns (within 0 ns) n1
                | _, _ => false
                end) (below_nat nn).

(** The automaton that the tables describe. *)
Definition automaton_of (t : parser_tables) : automaton :=
  let look_up idx q k := default None (lookup_table t idx q k) in
  let token w v := let k := Int_val w in if within 0 32768 k && (w =? Val_int k) then Some (k, v) else None in
  Automaton (λ q, default 0 (short_at (defred t) q)) (look_up (sindex t)) (look_up (rindex t))
    (λ n q, default (default 0 (short_at (dgoto t) n)) (look_up (gindex t) n q))
    (λ r, default 0 (short_at (lhs t) r)) (λ r, Z.to_nat (default 0 (short_at (len t) r)))
    (λ o, if Is_block (arg_word o) then match at_index (transl_block t) (arg_tag o) with Some w => token w (arg_field o) | None => None end
          else match at_index (transl_const t) (Int_val (arg_word o)) with Some w => token w (Val_long 0) | None => None end).

Lemma below_nat_spec n i : 0 <= i < n → In i (below_nat n).
Proof. intros Hi. unfold below_nat. rewrite <- (Z2Nat.id i) by lia. apply in_map, in_seq. lia. Qed.

Lemma within_spec lo hi v : within lo hi v = true ↔ lo <= v < hi.
Proof. unfold within. rewrite andb_true_iff. lia. Qed.

Lemma row_lookup t idx q keys ok n1 k : short_at idx q = Some n1 → row_ok t keys ok n1 = true → 0 <= k →
  ∃ r, lookup_table t idx q k = Some r ∧ ∀ v, r = Some v → k < keys → ok v = true.
Proof.
  intros En Hrow Hk. unfold lookup_table. rewrite En. destruct (negb (n1 =? 0) && (0 <=? n1 + k) && (n1 + k <=? Int_val (tablesize t))) eqn:Eb; [|by exists None].
  unfold row_ok in Hrow. rewrite forallb_forall in Hrow. specialize (Hrow (n1 + k) (below_nat_spec (Int_val (tablesize t) + 1) (n1 + k) ltac:(lia))). destruct (short_at (check t) (n1 + k)) as [c|]; [|done]. destruct (short_at (table t) (n1 + k)) as [w|]; [|done].
  eexists. split; [reflexivity|]. intros v Ev Hlt. destruct (Z.eqb_spec c k) as [->|]; [|done]. injection Ev as <-. rewrite (proj2 (Z.eqb_eq k (n1 + k - n1))), (proj2 (Z.leb_le 0 k)), (proj2 (Z.ltb_lt k keys)) in Hrow by lia. exact Hrow.
Qed.

Lemma tables_ok_encodes t ns nn nr : tables_ok t ns nn nr = true → encodes t (automaton_of t) ns nn nr.
Proof.
  unfold tables_ok. rewrite !andb_true_iff, within_spec. intros ((((Hns & Hnr) & Hq) & Hr) & Hn). rewrite forallb_forall in Hq, Hr, Hn. split; [lia|lia|..].
  - intros q Hq'. specialize (Hq q (below_nat_spec _ _ Hq')). cbn. destruct (short_at (defred t) q) as [d|]; [|done]. destruct (short_at (sindex t) q), (short_at (rindex t) q); try done. rewrite !andb_true_iff, within_spec in Hq. cbn. split; [done|lia].
  - intros q k Hq' Hk. specialize (Hq q (below_nat_spec _ _ Hq')). destruct (short_at (defred t) q) as [d|]; [|done]. destruct (short_at (sindex t) q) as [n1|] eqn:E; [|done]. destruct (short_at (rindex t) q); [|done]. rewrite !andb_true_iff in Hq. destruct Hq as [[_ H1] _].
    destruct (row_lookup t (sindex t) q _ _ n1 k E H1 ltac:(lia)) as (r & El & Hv). cbn. rewrite El. split; [done|]. cbn. intros q' ->. specialize (Hv q' eq_refl ltac:(lia)). by rewrite within_spec in Hv.
  - intros q k Hq' Hk. specialize (Hq q (below_nat_spec _ _ Hq')). destruct (short_at (defred t) q) as [d|]; [|done]. destruct (short_at (sindex t) q) as [n1|]; [|done]. destruct (short_at (rindex t) q) as [n2|] eqn:E; [|done]. rewrite !andb_true_iff in Hq. destruct Hq as [_ H1].
    destruct (row_lookup t (rindex t) q _ _ n2 k E H1 ltac:(lia)) as (r & El & Hv). cbn. rewrite El. split; [done|]. cbn. intros r' ->. specialize (Hv r' eq_refl ltac:(lia)). rewrite within_spec in Hv. lia.
  - intros r Hr'. specialize (Hr r (below_nat_spec nr r ltac:(lia))). cbn. destruct (short_at (lhs t) r) as [n|]; [|done]. destruct (short_at (len t) r) as [m|]; [|done]. rewrite (proj2 (Z.eqb_neq r 0)) in Hr by lia. cbn [orb] in Hr. rewrite andb_true_iff, within_spec in Hr. cbn. split_and!; [done|lia|lia|]. by rewrite Z2Nat.id by lia.
  - intros n q Hn' Hq'. specialize (Hn n (below_nat_spec _ _ Hn')). destruct (short_at (dgoto t) n) as [d|] eqn:Ed; [|done]. destruct (short_at (gindex t) n) as [n1|] eqn:E; [|done]. rewrite andb_true_iff in Hn. destruct Hn as [Hd H1]. rewrite within_spec in Hd.
    destruct (row_lookup t (gindex t) n _ _ n1 q E H1 ltac:(lia)) as (r & El & Hv). exists d, r. split_and!; [done|done|]. intros Hlt. cbn. rewrite El, Ed. cbn. split; [done|]. destruct r as [v|]; cbn; [|done]. specialize (Hv v eq_refl Hlt). by rewrite within_spec in Hv.
  - intros o k v. cbn. destruct (Is_block (arg_word o)); destruct (at_index _ _) as [w|]; try done; (destruct (within 0 32768 (Int_val w) && (w =? Val_int (Int_val w))) eqn:Eb; [|done]); intros [= <- <-]; rewrite andb_true_iff, within_spec in Eb; (split; [lia|]); destruct Eb as [_ Eb%Z.eqb_eq]; by rewrite <- Eb.
Qed.

Lemma bind_run {A B} (c : PM A) (k : A → PM B) x x' a : c x = inr (x', a) → mbnd c k x = k a x'.
Proof. intros E. unfold mbnd. by rewrite E. Qed.

Lemma Short_run tbl n v x : short_at tbl n = Some v → Short tbl n x = inr (x, v).
Proof. intros E. unfold Short. by rewrite E. Qed.

Lemma Elt_run l i v x : at_index l i = Some v → Elt l i x = inr (x, v).
Proof. intros E. unfold Elt. by rewrite E. Qed.

Lemma at_index_nat l (j : nat) : at_index l (Z.of_nat j) = l !! j.
Proof. unfold at_index. rewrite (proj2 (Z.leb_le _ _)) by lia. by rewrite Nat2Z.id. Qed.

(** The lookup of the engine. *)
Lemma probe_run t idx q key r x : lookup_table t idx q key = Some r → 0 <= key < 32768 →
  ∃ n1, short_at idx q = Some n1 ∧ s32 (n1 + key) = n1 + key ∧ probe t n1 key x = inr (x, bool_decide (is_Some r)) ∧ ∀ v, r = Some v → short_at (table t) (n1 + key) = Some v.
Proof.
  intros El Hk. unfold lookup_table in El. destruct (short_at idx q) as [n1|] eqn:E1; [|done]. pose proof (short_range _ _ _ E1) as Hr. exists n1. assert (s32 (n1 + key) = n1 + key) as Es by (apply s32_near; lia). split_and!; [done|done|..].
  - unfold probe. rewrite Es. cbv zeta. destruct (negb (n1 =? 0) && (0 <=? n1 + key) && (n1 + key <=? Int_val (tablesize t))); [|injection El as <-; done].
    destruct (short_at (check t) (n1 + key)) as [c|] eqn:Ec; [|done]. destruct (short_at (table t) (n1 + key)) as [v|]; [|done]. injection El as <-. unfold mbnd. rewrite (Short_run _ _ _ _ Ec). by destruct (c =? key).
  - intros v ->. destruct (_ && _); [|done]. destruct (short_at (check t) (n1 + key)) as [c|]; [|done]. destruct (short_at (table t) (n1 + key)) as [w|]; [|done]. destruct (c =? key); [by injection El as ->|done].
Qed.

(** ** The stacks *)

(** The four stacks at an index. *)
Definition cell (e : parser_env) (j : nat) (y : symbol) : Prop :=
  s_stack e !! j = Some (Val_int (y_state y)) ∧ v_stack e !! j = Some (y_value y) ∧ symb_start_stack e !! j = Some (y_start y) ∧ symb_end_stack e !! j = Some (y_end y).

Definition sized (e : parser_env) (N : nat) : Prop :=
  stacksize e = Val_long (Z.of_nat N) ∧ length (s_stack e) = N ∧ length (v_stack e) = N ∧ length (symb_start_stack e) = N ∧ length (symb_end_stack e) = N.

Definition same_at (e e' : parser_env) (j : nat) : Prop :=
  s_stack e' !! j = s_stack e !! j ∧ v_stack e' !! j = v_stack e !! j ∧ symb_start_stack e' !! j = symb_start_stack e !! j ∧ symb_end_stack e' !! j = symb_end_stack e !! j.

(** The environment [e] holds the symbols [l] above the index [p0]; up to [p0]
    the stacks are those of [e0]. *)
Record holds (e0 : parser_env) (p0 : nat) (l : list symbol) (e : parser_env) : Prop := {
  i_size : ∃ N, sized e N ∧ (p0 + length l < N)%nat ∧ Z.of_nat N < 2 ^ 40;
  i_base : stackbase e = Val_int (Z.of_nat p0 + 1);
  i_cell i y : l !! i = Some y → cell e (p0 + length l - i) y;
  i_outer j : (j <= p0)%nat → same_at e0 e j
}.

(** The stacks and their size are the same. *)
Definition same_stacks (e e' : parser_env) : Prop :=
  s_stack e' = s_stack e ∧ v_stack e' = v_stack e ∧ symb_start_stack e' = symb_start_stack e ∧ symb_end_stack e' = symb_end_stack e ∧ stacksize e' = stacksize e ∧ stackbase e' = stackbase e.

Lemma holds_same e0 p0 l e e' : same_stacks e e' → holds e0 p0 l e → holds e0 p0 l e'.
Proof.
  intros (E1 & E2 & E3 & E4 & E5 & E6) [I1 I2 I3 I4]. split; unfold sized, cell, same_at in *; rewrite ?E1, ?E2, ?E3, ?E4, ?E5, ?E6; done.
Qed.

Lemma holds_drop e0 p0 l m e : holds e0 p0 l e → (m <= length l)%nat → holds e0 p0 (drop m l) e.
Proof.
  intros [(N & H1 & H2 & H3) I2 I3 I4] Hm. split; [|done| |done].
  - exists N. rewrite length_drop. split_and!; [done|lia|done].
  - intros i y Hy. rewrite lookup_drop in Hy. rewrite length_drop. replace (p0 + (length l - m) - i)%nat with (p0 + length l - (m + i))%nat by lia. by apply I3.
Qed.

Definition write (j : nat) (y : symbol) (e : parser_env) : parser_env :=
  set_stacks (<[j := Val_int (y_state y)]> (s_stack e)) (<[j := y_value y]> (v_stack e)) (<[j := y_start y]> (symb_start_stack e)) (<[j := y_end y]> (symb_end_stack e)) e.

Lemma holds_push e0 p0 l e N y : holds e0 p0 l e → sized e N → (p0 + length l + 1 < N)%nat → Z.of_nat N < 2 ^ 40 → holds e0 p0 (y :: l) (write (p0 + length l + 1) y e).
Proof.
  intros [(N' & (Z1 & Z2 & _) & H2 & H3) I2 I3 I4] (Y1 & Y2 & Y3 & Y4 & Y5) HN Hb. split; cbn [length]; [|done|..].
  - exists N. unfold sized. cbn. rewrite !length_insert. split_and!; (done || lia).
  - intros [|i] z Hz; cbn in Hz.
    + injection Hz as ->. replace (p0 + S (length l) - 0)%nat with (p0 + length l + 1)%nat by lia. unfold cell. cbn. by rewrite !list_lookup_insert_eq by lia.
    + assert (i < length l)%nat by (by eapply lookup_lt_Some). replace (p0 + S (length l) - S i)%nat with (p0 + length l - i)%nat by lia. unfold cell. cbn. rewrite !list_lookup_insert_ne by lia. by apply I3.
  - intros j Hj. unfold same_at. cbn. rewrite !list_lookup_insert_ne by lia. by apply I4.
Qed.

(** Growing the stacks. *)
Lemma holds_grow dummy_pos e0 p0 l e N : holds e0 p0 l e → sized e N → (0 < N)%nat → Z.of_nat N < 2 ^ 39 →
  ∃ s v b f, grow_stacks dummy_pos e = inr (set_stacksize (Val_long (Z.of_nat (2 * N))) (set_stacks s v b f e)) ∧ sized (set_stacksize (Val_long (Z.of_nat (2 * N))) (set_stacks s v b f e)) (2 * N) ∧
    holds e0 p0 l (set_stacksize (Val_long (Z.of_nat (2 * N))) (set_stacks s v b f e)).
Proof.
  intros [(N' & (Z1 & Z2 & _) & H2 & H3) I2 I3 I4] (Y1 & Y2 & Y3 & Y4 & Y5) HN Hb. assert (N' = N) as -> by lia. unfold grow_stacks. rewrite Y1, Long_small by lia. rewrite Y2, Y3, Y4, Y5, Z.ltb_irrefl. cbn [orb].
  replace (2 * Z.of_nat N) with (Z.of_nat (2 * N)) by lia. rewrite !Nat2Z.id. rewrite !take_ge by lia. do 4 eexists. split; [reflexivity|].
  assert (∀ (a : list Z) d j, length a = N → (j < N)%nat → (a ++ replicate (2 * N - N) d) !! j = a !! j) as Hl by (intros a d j Ha Hj; apply lookup_app_l; lia).
  assert (sized (set_stacksize (Val_long (Z.of_nat (2 * N))) (set_stacks (s_stack e ++ replicate (2 * N - N) (Val_int 0)) (v_stack e ++ replicate (2 * N - N) Val_unit) (symb_start_stack e ++ replicate (2 * N - N) dummy_pos) (symb_end_stack e ++ replicate (2 * N - N) dummy_pos) e)) (2 * N)) as Hs.
  { unfold sized. cbn [s_stack v_stack symb_start_stack symb_end_stack stacksize set_stacksize set_stacks]. rewrite !length_app, !length_replicate. split_and!; (done || lia). }
  split; [exact Hs|]. split.
  - exists (2 * N)%nat. split_and!; [done|lia|lia].
  - done.
  - intros i y Hy. destruct (I3 i y Hy) as (C1 & C2 & C3 & C4). unfold cell. cbn [s_stack v_stack symb_start_stack symb_end_stack set_stacksize set_stacks]. rewrite !Hl by lia. done.
  - intros j Hj. destruct (I4 j Hj) as (C1 & C2 & C3 & C4). unfold same_at. cbn [s_stack v_stack symb_start_stack symb_end_stack set_stacksize set_stacks]. rewrite !Hl by lia. done.
Qed.

(** ** The engine and the code that drives it, label by label *)

Section Simulation.
Context {lexbuf : Type} (lexer : lexbuf → lexbuf * (exn + arg_value * Z * Z)).
Context (actions : Z → list (Z * Z * Z) → Z → exn + Z) (error_function : option exn) (dummy_pos : Z).
Context (t : parser_tables) (A : automaton) (ns nn nr : Z) (HE : encodes t A ns nn nr).
Context (Hact : ∀ r l q, actions r l q ≠ inl Parse_error).
Context (e0 : parser_env) (p0 : nat) (q0 : Z) (Hq0 : s_stack e0 !! p0 = Some (Val_int q0)) (Hq0' : 0 <= q0 < 32768).
Notation reply := (reply lexer actions error_function dummy_pos).

Fixpoint mrun (k : nat) (l : label) (x : pda) (lx : lexbuf) : fault + parser_env * lexbuf * exn :=
  match k with
  | O => inl OutOfFuel
  | S k =>
      match l with
      | Return r =>
          match reply r (env x) lx with
          | inl f => inl f
          | inr (e, lx, inl ex) => inr (e, lx, ex)
          | inr (e, lx, inr (cmd, arg)) =>
              match enter t cmd arg (Pda e 0 0 0) with inl f => inl f | inr (x, l) => mrun k l x lx end
          end
      | _ => match block t l x with inl f => inl f | inr (x, l) => mrun k l x lx end
      end
  end.

Definition goes (k : nat) (l : label) (x : pda) (lx : lexbuf) (l' : label) (x' : pda) (lx' : lexbuf) : Prop :=
  ∀ j, mrun (k + j) l x lx = mrun j l' x' lx'.

Lemma goes_refl l x lx : goes 0 l x lx l x lx.
Proof. done. Qed.

Lemma goes_trans k1 k2 l1 x1 lx1 l2 x2 lx2 l3 x3 lx3 : goes k1 l1 x1 lx1 l2 x2 lx2 → goes k2 l2 x2 lx2 l3 x3 lx3 → goes (k1 + k2) l1 x1 lx1 l3 x3 lx3.
Proof. intros H1 H2 j. rewrite <- Nat.add_assoc, H1. apply H2. Qed.

Lemma goes_block l x lx l' x' : (∀ r, l ≠ Return r) → block t l x = inr (x', l') → goes 1 l x lx l' x' lx.
Proof. intros Hr E j. cbn [Nat.add mrun]. destruct l; try (by rewrite E). by destruct (Hr r). Qed.

Lemma goes_reply r x lx e lx' cmd arg l' x' : reply r (env x) lx = inr (e, lx', inr (cmd, arg)) → enter t cmd arg (Pda e 0 0 0) = inr (x', l') → goes 1 (Return r) x lx l' x' lx'.
Proof. intros E1 E2 j. cbn [Nat.add mrun]. by rewrite E1, E2. Qed.

Lemma mrun_raise k r x lx e lx' ex : reply r (env x) lx = inr (e, lx', inl ex) → mrun (S k) (Return r) x lx = inr (e, lx', ex).
Proof. intros E. cbn [mrun]. by rewrite E. Qed.

Definition saved (x : pda) : pda := Pda (set_saved (Val_int (sp x)) (Val_int (state x)) (Val_int (errflag x)) (env x)) (state x) (sp x) (errflag x).

(** The local variables that survive a return. *)
Definition small (x : pda) : Prop := 0 <= sp x < 2 ^ 30 ∧ 0 <= state x < 32768 ∧ 0 <= errflag x <= 3.

Lemma RESTORE_run x e a b c : small x → env_sp e = Val_int (sp x) → env_state e = Val_int (state x) → env_errflag e = Val_int (errflag x) → RESTORE (Pda e a b c) = inr (Pda e (state x) (sp x) (errflag x), tt).
Proof.
  intros (H1 & H2 & H3) E1 E2 E3. unfold RESTORE, mbnd, mget, set_sp, set_state, set_errflag, mmodify. cbn [env state sp errflag]. rewrite E1, E2, E3, !Int_small by lia. rewrite u64_small by lia_w. done.
Qed.

Lemma update_run a (j : nat) v x : (j < length a)%nat → update a (Z.of_nat j) v x = inr (x, <[j := v]> a).
Proof. intros Hj. unfold update. rewrite (proj2 (Z.leb_le _ _)), (proj2 (Z.ltb_lt _ _)) by lia. cbn [andb]. by rewrite Nat2Z.id. Qed.

(** The fields that describe the last token. *)
Definition same_token (e e' : parser_env) : Prop := curr_char e' = curr_char e ∧ lval e' = lval e ∧ symb_start e' = symb_start e ∧ symb_end e' = symb_end e.

Lemma enter_grown_1 arg : enter t (Val_int STACKS_GROWN_1) arg = (RESTORE ;;; mreturn Push)%monad.
Proof. reflexivity. Qed.
Lemma enter_grown_2 arg : enter t (Val_int STACKS_GROWN_2) arg = (RESTORE ;;; mreturn Semantic_action)%monad.
Proof. reflexivity. Qed.
Lemma enter_error arg : enter t (Val_int ERROR_DETECTED) arg = (RESTORE ;;; mreturn Recover)%monad.
Proof. reflexivity. Qed.

(** *** Pushing a symbol *)

Lemma push_label_run l x lx N : holds e0 p0 l (env x) → sized (env x) N → (p0 + length l + 1 < N)%nat → Z.of_nat N < 2 ^ 40 → sp x = Z.of_nat (p0 + length l + 1) →
  let y := Symbol (state x) (lval (env x)) (symb_start (env x)) (symb_end (env x)) in
  goes 1 Push x lx Loop (Pda (write (p0 + length l + 1) y (env x)) (state x) (sp x) (errflag x)) lx.
Proof.
  intros Hh (Y1 & Y2 & Y3 & Y4 & Y5) HN Hb Hsp y. apply goes_block; [done|]. cbn [block]. unfold push, store_s, store_v, store_start, store_end, mbnd, mget, modify_env, mmodify. cbn [env state sp errflag]. rewrite Hsp.
  rewrite update_run by lia. cbn [env state sp errflag v_stack set_stacks]. rewrite update_run by lia. cbn [env state sp errflag symb_start_stack set_stacks v_stack s_stack]. rewrite update_run by lia. cbn [env state sp errflag symb_start_stack symb_end_stack set_stacks v_stack s_stack]. rewrite update_run by lia. unfold mreturn. by rewrite Hsp.
Qed.

Lemma shift_recover_run l x lx n2 q : holds e0 p0 l (env x) → sp x = Z.of_nat (p0 + length l) → Z.of_nat (p0 + length l) + 1 < 2 ^ 30 → short_at (table t) n2 = Some q → 0 <= q < ns → 0 <= errflag x <= 3 →
  ∃ k x', (k <= 4)%nat ∧ goes k (Shift_recover n2) x lx Loop x' lx ∧ holds e0 p0 (Symbol q (lval (env x)) (symb_start (env x)) (symb_end (env x)) :: l) (env x') ∧
    same_token (env x) (env x') ∧ state x' = q ∧ sp x' = Z.of_nat (p0 + length l + 1) ∧ errflag x' = errflag x.
Proof.
  intros Hh Hsp Hb Hq Hqs He. pose proof (c_states _ _ _ _ _ HE) as Hns. destruct (i_size _ _ _ _ Hh) as (N & Hs & HN & HNb). pose proof Hs as (Y1 & _).
  set (x1 := Pda (env x) q (Z.of_nat (p0 + length l + 1)) (errflag x)).
  assert (shift_recover t n2 x = if Z.of_nat (p0 + length l + 1) <? Z.of_nat N then inr (x1, Push) else inr (saved x1, Return GROW_STACKS_1)) as Eb.
  { unfold shift_recover, mbnd. rewrite (Short_run _ _ _ _ Hq). unfold set_state, set_sp, mmodify, mget. cbn [env state sp errflag]. rewrite Hsp. replace (Z.of_nat (p0 + length l) + 1) with (Z.of_nat (p0 + length l + 1)) by lia. rewrite (u64_small (Z.of_nat _)) by lia_w. rewrite Y1, Long_small, (u64_small (Z.of_nat N)) by lia_w. by destruct (_ <? _). }
  destruct (Z.ltb_spec (Z.of_nat (p0 + length l + 1)) (Z.of_nat N)) as [Hlt|Hge].
  - exists (1 + 1)%nat. eexists. split; [lia|]. split; [eapply goes_trans; [apply goes_block; [done|exact Eb]|apply (push_label_run l x1 lx N); [done|done|lia|done|done]]|]. split_and!; try done. apply (holds_push e0 p0 l (env x) N); [done|done|lia|done].
  - destruct (holds_grow dummy_pos e0 p0 l (env (saved x1)) N) as (s & v & b & f & Eg & Hs' & Hh'); [by apply (holds_same e0 p0 l (env x))|done|lia|lia|]. set (e1 := set_stacksize _ _) in *.
    assert (enter t (Val_int STACKS_GROWN_1) unit_arg (Pda e1 0 0 0) = inr (Pda e1 q (sp x1) (errflag x), Push)) as Ee.
    { rewrite enter_grown_1. unfold mbnd. rewrite (RESTORE_run x1); [done|split_and!; cbn; lia|done..]. }
    exists (1 + (1 + 1))%nat. eexists. split; [lia|]. split.
    + eapply goes_trans; [apply goes_block; [done|exact Eb]|]. eapply goes_trans; [eapply goes_reply; [|exact Ee]|].
      * unfold Parsing.reply. by rewrite Eg.
      * apply (push_label_run l (Pda e1 q (sp x1) (errflag x)) lx (2 * N)); [done|done|lia|lia|done].
    + split_and!; try done. apply (holds_push e0 p0 l e1 (2 * N)); [done|done|lia|lia].
Qed.

(** *** Reducing by a rule *)

(** The goto of the engine. *)
Definition goto_of (n state1 : Z) : option Z :=
  match short_at (dgoto t) n, lookup_table t (gindex t) n state1 with Some d, Some g => Some (default d g) | _, _ => None end.

Lemma goto_run n state1 x : 0 <= n < nn → 0 <= state1 < 32768 → ∃ q n1, goto_of n state1 = Some q ∧ (state1 < ns → q = a_goto A n state1) ∧ Short (gindex t) n x = inr (x, n1) ∧
  ∃ b, probe t n1 state1 x = inr (x, b) ∧ (if b : bool then let* s := Short (table t) (s32 (n1 + state1)) in set_state s else let* s := Short (dgoto t) n in set_state s)%monad x = inr (Pda (env x) q (sp x) (errflag x), tt).
Proof.
  intros Hn Hs. destruct (c_goto _ _ _ _ _ HE n state1 Hn Hs) as (d & g & Ed & Eg & Ha). exists (default d g). destruct (probe_run t (gindex t) n state1 g x Eg Hs) as (n1 & E1 & E2 & E3 & E4). exists n1. unfold goto_of. rewrite Ed, Eg. split_and!; [done|intros Hlt; by destruct (Ha Hlt) as [-> _]|by apply Short_run|]. eexists. split; [exact E3|].
  destruct g as [v|]; cbn; unfold mbnd; [rewrite E2, (Short_run _ _ _ _ (E4 v eq_refl)); done|rewrite (Short_run _ _ _ _ Ed); done].
Qed.

Section Reduce.
Context (l : list symbol) (x : pda) (lx : lexbuf) (r : Z).
Context (Hh : holds e0 p0 l (env x)) (Hsp : sp x = Z.of_nat (p0 + length l)) (Hb : Z.of_nat (p0 + length l) + 1 < 2 ^ 30) (Hr : 0 < r < nr) (Hm : (a_len A r <= length l)%nat) (Hl : l ≠ []) (He : 0 <= errflag x <= 3).
Context (Hst : Forall (λ y, 0 <= y_state y < ns) l).
Let m := a_len A r.
Let j := (p0 + length (drop m l) + 1)%nat.

(** The state below the symbols of the right-hand side. *)
Definition below : Z := match drop m l with y :: _ => y_state y | [] => q0 end.

Lemma below_cell : s_stack (env x) !! (p0 + length (drop m l))%nat = Some (Val_int below) ∧ 0 <= below < 32768.
Proof.
  pose proof (c_states _ _ _ _ _ HE) as Hns. pose proof (holds_drop _ _ _ m _ Hh Hm) as [_ _ I3 I4]. unfold below. destruct (drop m l) as [|y l2] eqn:E.
  - cbn. rewrite Nat.add_0_r. destruct (I4 p0) as [-> _]; [lia|]. done.
  - destruct (I3 0%nat y eq_refl) as [Hc _]. rewrite Nat.sub_0_r in Hc. split; [done|]. assert (y ∈ l) as Hy by (rewrite <- (take_drop m l), E; set_solver). rewrite Forall_forall in Hst. specialize (Hst y Hy). lia.
Qed.

Definition ruled (e : parser_env) : parser_env := set_rule (Val_int (sp x)) (Val_int (Z.of_nat m)) (Val_int r) e.

Lemma reduce_run : ∃ q, goto_of (a_lhs A r) below = Some q ∧ (below < ns → q = a_goto A (a_lhs A r) below) ∧ ∀ N, sized (env x) N →
  reduce t r x = if Z.of_nat j <? Z.of_nat N then inr (Pda (ruled (env x)) q (Z.of_nat j) (errflag x), Semantic_action) else inr (saved (Pda (ruled (env x)) q (Z.of_nat j) (errflag x)), Return GROW_STACKS_2).
Proof.
  destruct below_cell as [Hbel Hbr]. destruct (c_rule _ _ _ _ _ HE r Hr) as (R1 & R2 & R3). set (x1 := Pda (ruled (env x)) (state x) (Z.of_nat j) (errflag x)). destruct (goto_run (a_lhs A r) below x1 R2 Hbr) as (q & n1 & G1 & G2 & G3 & b & G4 & G5).
  exists q. split_and!; [done|done|]. intros N (Y1 & Y2 & _). destruct (i_size _ _ _ _ Hh) as (N' & (_ & Z2 & _) & HN & HNb). assert (N' = N) as -> by lia.
  assert (length (drop m l) = (length l - m)%nat) as Ed by apply length_drop. unfold reduce. erewrite bind_run; [|by apply Short_run]. erewrite bind_run; [|reflexivity]. erewrite bind_run; [|reflexivity]. erewrite bind_run; [|reflexivity]. cbn [env state sp errflag].
  replace (u64 (sp x - Z.of_nat (a_len A r) + 1)) with (Z.of_nat j) by (rewrite u64_small; unfold j; lia_w). change (Pda (set_rule (Val_int (sp x)) (Val_int (Z.of_nat (a_len A r))) (Val_int r) (env x)) (state x) (Z.of_nat j) (errflag x)) with x1.
  erewrite bind_run; [|by apply Short_run]. erewrite bind_run; [|reflexivity]. assert (Elt (s_stack (env x1)) (u64 (sp x1 - 1)) x1 = inr (x1, Val_int below)) as Ef.
  { apply Elt_run. cbn [sp x1]. replace (u64 (Z.of_nat j - 1)) with (Z.of_nat (p0 + length (drop m l))) by (rewrite u64_small; unfold j; lia_w). by rewrite at_index_nat. }
  erewrite bind_run; [|exact Ef]. cbv zeta. rewrite Int_small by lia. erewrite bind_run; [|exact G3]. erewrite bind_run; [|exact G4]. erewrite bind_run; [|exact G5].
  cbn [env sp errflag x1 stacksize ruled set_rule]. rewrite Y1, Long_small, (u64_small (Z.of_nat N)) by lia_w. by destruct (_ <? _).
Qed.

Lemma drop_len : length (drop m l) = (length l - m)%nat.
Proof. apply length_drop. Qed.

(** From [Reduce] to [Semantic_action], growing the stacks if needed. *)
Lemma reduce_goes : ∃ k x1, (k <= 2)%nat ∧ goes k (Reduce r) x lx Semantic_action x1 lx ∧ holds e0 p0 l (env x1) ∧ same_token (env x) (env x1) ∧
  env_asp (env x1) = Val_int (sp x) ∧ rule_len (env x1) = Val_int (Z.of_nat m) ∧ rule_number (env x1) = Val_int r ∧ sp x1 = Z.of_nat j ∧ errflag x1 = errflag x ∧
  (below < ns → state x1 = a_goto A (a_lhs A r) below) ∧ ∃ N, sized (env x1) N ∧ (j < N)%nat ∧ Z.of_nat N < 2 ^ 40.
Proof.
  destruct reduce_run as (q & G1 & G2 & Hred). destruct (i_size _ _ _ _ Hh) as (N & Hs & HN & HNb). specialize (Hred N Hs). pose proof drop_len as Hd. set (x1 := Pda (ruled (env x)) q (Z.of_nat j) (errflag x)) in *.
  assert (holds e0 p0 l (ruled (env x))) as Hh1 by (by apply (holds_same e0 p0 l (env x))). destruct (Z.ltb_spec (Z.of_nat j) (Z.of_nat N)) as [Hlt|Hge].
  - exists 1%nat, x1. split_and!; try done; [lia|apply goes_block; [done|exact Hred]|exists N; split_and!; [done|lia|done]].
  - assert (m = 0%nat) as Em by (unfold j in Hge; lia). assert (below < ns ∧ 0 <= below) as [Hbel Hb0].
    { unfold below. rewrite Em. destruct l as [|y l2]; [done|]. cbn. rewrite Forall_cons in Hst. lia. }
    assert (0 <= q < ns) as Hq.
    { rewrite (G2 Hbel). destruct (c_rule _ _ _ _ _ HE r Hr) as (_ & R2 & _). destruct below_cell as [_ Hbr]. destruct (c_goto _ _ _ _ _ HE (a_lhs A r) below R2 Hbr) as (d & g & _ & _ & Ha). by destruct (Ha Hbel). }
    pose proof (c_states _ _ _ _ _ HE) as Hns. destruct (holds_grow dummy_pos e0 p0 l (env (saved x1)) N) as (s & v & b & f & Eg & Hs' & Hh'); [by apply (holds_same e0 p0 l (env x))|done|lia|unfold j in Hge; lia|]. set (e1 := set_stacksize _ _) in *.
    assert (enter t (Val_int STACKS_GROWN_2) unit_arg (Pda e1 0 0 0) = inr (Pda e1 q (sp x1) (errflag x), Semantic_action)) as Ee.
    { rewrite enter_grown_2. unfold mbnd. rewrite (RESTORE_run x1); [done|split_and!; cbn; unfold j; lia|done..]. }
    exists (1 + 1)%nat, (Pda e1 q (sp x1) (errflag x)). split; [lia|]. split.
    + eapply goes_trans; [apply goes_block; [done|exact Hred]|]. eapply goes_reply; [|exact Ee]. unfold Parsing.reply. by rewrite Eg.
    + split_and!; try done. exists (2 * N)%nat. split_and!; [done|unfold j; lia|unfold j in *; lia].
Qed.

Lemma peek_cell e i y : holds e0 p0 l e → env_asp e = Val_int (sp x) → l !! i = Some y → peek e (Z.of_nat i) = Some (y_value y, y_start y, y_end y).
Proof.
  intros [_ _ I3 _] Ea Hy. destruct (I3 i y Hy) as (_ & C2 & C3 & C4). assert (i < length l)%nat by (by eapply lookup_lt_Some). unfold peek. rewrite Ea. unfold Val_int. rewrite Long_small by lia. replace (sp x - Z.of_nat i) with (Z.of_nat (p0 + length l - i)) by lia. by rewrite !at_index_nat, C2, C3, C4.
Qed.

Lemma peek_rhs_run e n : holds e0 p0 l e → env_asp e = Val_int (sp x) → (n <= length l)%nat → peek_rhs e n = Some (map (λ y, (y_value y, y_start y, y_end y)) (reverse (take n l))).
Proof.
  intros H1 H2. induction n as [|n IH]; intros Hn; [done|]. destruct (lookup_lt_is_Some_2 l n) as [y Hy]; [lia|]. cbn [peek_rhs]. rewrite (peek_cell e n y H1 H2 Hy), IH by lia. by rewrite (take_S_r l n y Hy), reverse_snoc.
Qed.

Definition rhs_values : list (Z * Z * Z) := map (λ y, (y_value y, y_start y, y_end y)) (reverse (take m l)).

(** The semantic action is called on the right-hand side. *)
Lemma action_reply top l' x1 : l = top :: l' → holds e0 p0 l (env x1) → env_asp (env x1) = Val_int (sp x) → rule_len (env x1) = Val_int (Z.of_nat m) → rule_number (env x1) = Val_int r →
  reply COMPUTE_SEMANTIC_ACTION (env (saved x1)) lx = match actions r rhs_values (y_end top) with inr v => inr (env (saved x1), lx, inr (Val_int SEMANTIC_ACTION_COMPUTED, Arg v 0 0)) | inl ex => inr (env (saved x1), lx, inl ex) end.
Proof.
  intros El H1 E1 E2 E3. pose proof (c_rules _ _ _ _ _ HE) as Hnr. pose proof (holds_same e0 p0 l (env x1) (env (saved x1)) ltac:(done) H1) as H2.
  unfold Parsing.reply. change (COMPUTE_SEMANTIC_ACTION =? READ_TOKEN) with false. change (COMPUTE_SEMANTIC_ACTION =? RAISE_PARSE_ERROR) with false. change (COMPUTE_SEMANTIC_ACTION =? COMPUTE_SEMANTIC_ACTION) with true. cbn iota.
  change (rule_len (env (saved x1))) with (rule_len (env x1)). change (rule_number (env (saved x1))) with (rule_number (env x1)). change (env_asp (env (saved x1))) with (env_asp (env x1)). rewrite E1, E2, E3. unfold Val_int. rewrite !Long_small by lia. rewrite Nat2Z.id, (peek_rhs_run _ m H2) by done.
  destruct (i_cell _ _ _ _ H2 0%nat top) as (_ & _ & _ & C4); [by rewrite El|]. rewrite Hsp, at_index_nat. replace (p0 + length l - 0)%nat with (p0 + length l)%nat in C4 by lia. rewrite C4. fold rhs_values. destruct (actions r rhs_values (y_end top)) as [ex|v] eqn:Ea; [|done]. destruct ex; try done. by destruct (Hact r rhs_values (y_end top)).
Qed.

(** The position where the left-hand side starts. *)
Definition start_of (top : symbol) : Z := match reverse (take m l) with y :: _ => y_start y | [] => y_end top end.

Lemma start_cell top l' e : l = top :: l' → holds e0 p0 l e → (0 < m)%nat → symb_start_stack e !! j = Some (start_of top).
Proof.
  intros El H1 Hm0. destruct (lookup_lt_is_Some_2 l (m - 1)) as [y Hy]; [lia|]. destruct (i_cell _ _ _ _ H1 _ _ Hy) as (_ & _ & C3 & _). pose proof drop_len. replace j with (p0 + length l - (m - 1))%nat by (unfold j; lia). rewrite C3. unfold start_of. replace m with (S (m - 1)) by lia. by rewrite (take_S_r l (m - 1) y Hy), reverse_snoc.
Qed.

Lemma semantic_enter top l' x1 v N : l = top :: l' → holds e0 p0 l (env x1) → env_asp (env x1) = Val_int (sp x) → sp x1 = Z.of_nat j → sized (env x1) N → (j < N)%nat → small x1 →
  let e1 := env (saved x1) in
  enter t (Val_int SEMANTIC_ACTION_COMPUTED) (Arg v 0 0) (Pda e1 0 0 0) = inr (Pda (write j (Symbol (state x1) v (start_of top) (y_end top)) e1) (state x1) (sp x1) (errflag x1), Loop).
Proof.
  intros El H1 Ea Hj (Y1 & Y2 & Y3 & Y4 & Y5) HN Hsm e1. pose proof drop_len as Hd. destruct (i_cell _ _ _ _ H1 0%nat top) as (_ & _ & _ & C4); [by rewrite El|]. replace (p0 + length l - 0)%nat with (p0 + length l)%nat in C4 by lia.
  change (enter t (Val_int SEMANTIC_ACTION_COMPUTED) (Arg v 0 0)) with (RESTORE ;;; let* x := mget in store_s (sp x) (Val_int (state x)) ;;; store_v (sp x) v ;;; let asp := u64 (Int_val (env_asp (env x))) in let* p := Elt (symb_end_stack (env x)) asp in store_end (sp x) p ;;; (if asp <? sp x then let* y := mget in let* p := Elt (symb_end_stack (env y)) asp in store_start (sp x) p else mreturn tt) ;;; mreturn Loop)%monad.
  erewrite bind_run; [|apply (RESTORE_run x1); done]. erewrite bind_run; [|reflexivity]. cbn [sp state env errflag]. rewrite Hj. change (env_asp e1) with (env_asp (env x1)). rewrite Ea, Int_small, u64_small by lia_w.
  erewrite bind_run; [|unfold store_s; erewrite bind_run; [|reflexivity]; erewrite bind_run; [|apply update_run; cbn; lia]; reflexivity]. erewrite bind_run; [|unfold store_v; erewrite bind_run; [|reflexivity]; erewrite bind_run; [|apply update_run; cbn; lia]; reflexivity].
  cbv zeta. erewrite bind_run; [|apply Elt_run; rewrite Hsp, at_index_nat; exact C4]. erewrite bind_run; [|unfold store_end; erewrite bind_run; [|reflexivity]; erewrite bind_run; [|apply update_run; cbn; lia]; reflexivity]. cbn [sp env state errflag s_stack v_stack symb_start_stack symb_end_stack set_stacks].
  destruct (Z.ltb_spec (sp x) (Z.of_nat j)) as [Hlt|Hge].
  - assert (m = 0%nat) as Em by (unfold j in Hlt; lia). erewrite bind_run; [|erewrite bind_run; [|reflexivity]; cbn [env symb_end_stack set_stacks]; erewrite bind_run; [|apply Elt_run; rewrite Hsp, at_index_nat; rewrite list_lookup_insert_ne by (unfold j; lia); exact C4]; unfold store_start; erewrite bind_run; [|reflexivity]; erewrite bind_run; [|apply update_run; cbn; lia]; reflexivity].
    unfold mreturn, start_of. rewrite Em. done.
  - assert (0 < m)%nat as Em by (unfold j in Hge; lia). erewrite bind_run; [|reflexivity]. assert (<[j := start_of top]> (symb_start_stack e1) = symb_start_stack e1) as Hid by (apply list_insert_id; by apply (start_cell top l' (env x1))). unfold mreturn, write. cbn [y_start y_state y_value y_end]. by rewrite Hid.
Qed.

(** A reduction as a whole. *)
Lemma reduce_step top l' : l = top :: l' →
  match actions r rhs_values (y_end top) with
  | inl ex => ∃ k e, (k <= 4)%nat ∧ (∀ i, mrun (k + i) (Reduce r) x lx = inr (e, lx, ex)) ∧ holds e0 p0 l e
  | inr v =>
      match drop m l with
      | [] => True
      | y :: l2 => ∃ k x', (k <= 4)%nat ∧ goes k (Reduce r) x lx Loop x' lx ∧ holds e0 p0 (Symbol (a_goto A (a_lhs A r) (y_state y)) v (start_of top) (y_end top) :: y :: l2) (env x') ∧
          same_token (env x) (env x') ∧ state x' = a_goto A (a_lhs A r) (y_state y) ∧ 0 <= state x' < ns ∧ sp x' = Z.of_nat j ∧ errflag x' = errflag x
      end
  end.
Proof.
  intros El. destruct reduce_goes as (k & x1 & Hk & Hg & H1 & Ht & E1 & E2 & E3 & E4 & E5 & E6 & N & HsN & HjN & HNb). pose proof (action_reply top l' x1 El H1 E1 E2 E3) as Hrep.
  assert (goes (k + 1) (Reduce r) x lx (Return COMPUTE_SEMANTIC_ACTION) (saved x1) lx) as Hg2 by (eapply goes_trans; [exact Hg|apply goes_block; done]).
  destruct (actions r rhs_values (y_end top)) as [ex|v].
  - exists (k + 1 + 1)%nat, (env (saved x1)). split_and!; [lia| |by apply (holds_same e0 p0 l (env x1))]. intros i. rewrite <- Nat.add_assoc, Hg2. cbn [Nat.add]. by apply mrun_raise.
  - case_eq (drop m l); [done|]. intros y l2 Ed. assert (below = y_state y) as Ebel by (unfold below; by rewrite Ed). assert (0 <= y_state y < ns) as Hy by (rewrite Forall_forall in Hst; apply Hst; rewrite <- (take_drop m l), Ed; set_solver). rewrite Ebel in E6. specialize (E6 (proj2 Hy)).
    destruct (c_rule _ _ _ _ _ HE r Hr) as (_ & R2 & _). pose proof (c_states _ _ _ _ _ HE) as Hns. destruct (c_goto _ _ _ _ _ HE (a_lhs A r) (y_state y) R2 ltac:(lia)) as (d & g & _ & _ & Ha). destruct (Ha (proj2 Hy)) as [_ Hgo]. pose proof drop_len as Hd.
    assert (small x1) as Hsm by (split_and!; rewrite ?E4, ?E5, ?E6; unfold j; lia). pose proof (semantic_enter top l' x1 v N El H1 E1 E4 HsN HjN Hsm) as He2.
    exists (k + 1 + 1)%nat. eexists. split; [lia|]. split; [eapply goes_trans; [exact Hg2|]; eapply goes_reply; [exact Hrep|exact He2]|]. cbn [env state sp errflag]. rewrite E6. split_and!; try done; [|lia..].
    rewrite <- Ed. unfold j. apply (holds_push e0 p0 (drop m l) (env (saved x1)) N); [apply holds_drop; [by apply (holds_same e0 p0 l (env x1))|done]|done|unfold j in HjN; lia|done].
Qed.
End Reduce.

(** *** The simulation *)

Record sim (c : config lexbuf) (x : pda) : Prop := {
  m_holds : holds e0 p0 (stk c) (env x);
  m_sp : sp x = Z.of_nat (p0 + length (stk c));
  m_state : state x = cur c;
  m_err : errflag x = err c ∧ 0 <= err c <= 3;
  m_look : curr_char (env x) = Val_int (look c) ∧ -1 <= look c < 32768;
  m_tok : (lval (env x), symb_start (env x), symb_end (env x)) = tok c;
  m_states : Forall (λ y, 0 <= y_state y < ns) (stk c)
}.

(** There is room for one more symbol. *)
Definition room (c : config lexbuf) : Prop := Z.of_nat (p0 + length (stk c)) + 1 < 2 ^ 30.

(** From the label [l] the code does what the automaton does, within [K]
    steps. *)
Definition does (K : nat) (l : label) (x : pda) (lx : lexbuf) (r : lexbuf * (config lexbuf + result)) : Prop :=
  match r with
  | (lx', inl c) => ∃ k x', (k <= K)%nat ∧ goes k l x lx Loop x' lx' ∧ sim c x' ∧ input c = lx'
  | (lx', inr (Raised ex)) => ∃ k e, (k <= K)%nat ∧ (∀ i, mrun (k + i) l x lx = inr (e, lx', ex)) ∧ ∀ j, (j <= p0)%nat → same_at e0 e j
  | (_, inr Stuck) => True
  end.

Lemma goes_does k K l x lx l1 x1 lx1 r : goes k l x lx l1 x1 lx1 → does K l1 x1 lx1 r → does (k + K) l x lx r.
Proof.
  intros Hg. destruct r as [lx' [c|[ex|]]]; cbn; [|..|done].
  - intros (k' & x' & Hk & Hg' & Hs). exists (k + k')%nat, x'. split; [lia|]. split; [by eapply goes_trans|done].
  - intros (k' & e & Hk & Hm & Ho). exists (k + k')%nat, e. split; [lia|]. split; [|done]. intros i. rewrite <- Nat.add_assoc, Hg. apply Hm.
Qed.

Lemma does_le K K' l x lx r : (K <= K')%nat → does K l x lx r → does K' l x lx r.
Proof. intros HK. destruct r as [lx' [c|[ex|]]]; cbn; [intros (k & x' & Hk & Hr)|intros (k & e & Hk & Hr)|done]; [exists k, x'|exists k, e]; (split; [lia|done]). Qed.

Lemma cur_range c x : sim c x → 0 <= cur c < ns.
Proof. intros Hs. pose proof (c_states _ _ _ _ _ HE). pose proof (m_states _ _ Hs) as Hf. unfold cur. destruct (stk c) as [|y l]; [lia|]. rewrite Forall_cons in Hf. tauto. Qed.

Lemma reduce_does c x r : sim c x → room c → 0 < r < nr → does 4 (Reduce r) x (input c) (lr_reduce actions A c r).
Proof.
  intros [M1 M2 M3 [M4 M4'] [M5 M5'] M6 M7] Hroom Hr. unfold lr_reduce. destruct (Nat.ltb_spec (length (stk c)) (a_len A r)) as [|Hm]; [done|]. destruct (stk c) as [|top l'] eqn:El; [done|].
  pose proof (reduce_step (top :: l') x (input c) r M1 M2 ltac:(unfold room in Hroom; by rewrite El in Hroom) Hr Hm ltac:(done) ltac:(lia) M7 top l' eq_refl) as Hs. unfold rhs_values in Hs. destruct (actions r _ (y_end top)) as [ex|v].
  - destruct Hs as (k & e & Hk & Hm' & Hh). exists k, e. split_and!; [done|done|apply Hh].
  - destruct (drop (a_len A r) (top :: l')) as [|y l2] eqn:Ed; [done|]. destruct Hs as (k & x' & Hk & Hg & Hh & (T1 & T2 & T3 & T4) & S1 & S1' & S2 & S3). exists k, x'. split_and!; [done|done| |done]. split; cbn; try done.
    + rewrite S2. cbn [length]. lia.
    + by rewrite S3.
    + by rewrite T1.
    + by rewrite T2, T3, T4.
    + apply Forall_cons. split; [by rewrite S1 in S1'|]. rewrite <- Ed. by apply Forall_drop.
Qed.

(** The states that are discarded. *)
Lemma discard_run fuel x l : holds e0 p0 l (env x) → sp x = Z.of_nat (p0 + length l) → Z.of_nat (p0 + length l) + 1 < 2 ^ 30 → l ≠ [] → Forall (λ y, 0 <= y_state y < ns) l → (length l <= fuel)%nat →
  match find_recovery A l with
  | Some (q, l2) => ∃ n2, discard fuel t x = inr (Pda (env x) (state x) (Z.of_nat (p0 + length l2)) (errflag x), Shift_recover n2) ∧ short_at (table t) n2 = Some q ∧ 0 <= q < ns ∧ holds e0 p0 l2 (env x) ∧ Forall (λ y, 0 <= y_state y < ns) l2 ∧ (length l2 <= length l)%nat
  | None => ∃ x', discard fuel t x = inr (x', Return RAISE_PARSE_ERROR) ∧ env x' = env x
  end.
Proof.
  revert x l. induction fuel as [|fuel IH]; intros x l Hh Hsp Hb Hl Hst Hf; (destruct l as [|y l]; [done|]); cbn [length] in Hf; [lia|]. pose proof Hst as [Hy Hst']%Forall_cons. pose proof (c_states _ _ _ _ _ HE) as Hns. cbn [discard find_recovery].
  destruct (i_cell _ _ _ _ Hh 0%nat y eq_refl) as (C1 & _). replace (p0 + length (y :: l) - 0)%nat with (p0 + length (y :: l))%nat in C1 by lia. destruct (c_shift _ _ _ _ _ HE (y_state y) ERRCODE Hy ltac:(done)) as [L1 L2]. destruct (probe_run t (sindex t) (y_state y) ERRCODE _ x L1 ltac:(done)) as (n1 & P1 & P2 & P3 & P4).
  erewrite bind_run; [|reflexivity]. erewrite bind_run; [|apply Elt_run; rewrite Hsp, at_index_nat; exact C1]. rewrite Int_small by lia. erewrite bind_run; [|by apply Short_run]. erewrite bind_run; [|exact P3]. rewrite P2.
  destruct (a_shift A (y_state y) ERRCODE) as [q|] eqn:Es; [rewrite bool_decide_eq_true_2 by eauto|rewrite bool_decide_eq_false_2 by (by intros [? ?])].
  - exists (n1 + ERRCODE). split_and!; [by rewrite <- Hsp; destruct x|by apply P4|by apply L2..|done|done|lia].
  - rewrite (i_base _ _ _ _ Hh), Int_small by lia. rewrite u64_small by lia_w. rewrite Hsp. destruct l as [|y' l].
    + rewrite (proj2 (Z.leb_le _ _)) by (cbn [length]; lia). by exists x.
    + rewrite (proj2 (Z.leb_gt _ _)) by (cbn [length]; lia). erewrite bind_run; [|reflexivity]. set (x1 := Pda _ _ _ _). assert (sp x1 = Z.of_nat (p0 + length (y' :: l))) as Hsp1 by (cbn [length] in *; cbn [x1 sp]; rewrite u64_small; lia_w).
      specialize (IH x1 (y' :: l)). cbn [env x1 state errflag] in IH. pose proof (IH (holds_drop _ _ _ 1 _ Hh ltac:(cbn; lia)) Hsp1 ltac:(cbn [length] in *; lia) ltac:(done) Hst' ltac:(cbn [length] in *; lia)) as Hi. destruct (find_recovery A (y' :: l)) as [[q l2]|]; [|exact Hi].
      destruct Hi as (n2 & D1 & D2 & D3 & D4 & D5 & D6). exists n2. split_and!; try done; try lia. cbn [length] in *. lia.
Qed.

Lemma sim_push (c : config lexbuf) x q l : tok c = (lval (env x), symb_start (env x), symb_end (env x)) → push_token q l c = Symbol q (lval (env x)) (symb_start (env x)) (symb_end (env x)) :: l.
Proof. intros E. unfold push_token. by rewrite E. Qed.

(** From [Shift_recover]: the symbol is pushed. *)
Lemma push_does (c : config lexbuf) x n2 q l : holds e0 p0 l (env x) → sp x = Z.of_nat (p0 + length l) → Z.of_nat (p0 + length l) + 1 < 2 ^ 30 → short_at (table t) n2 = Some q → 0 <= q < ns → 0 <= errflag x <= 3 → Forall (λ y, 0 <= y_state y < ns) l →
  tok c = (lval (env x), symb_start (env x), symb_end (env x)) → curr_char (env x) = Val_int (look c) → -1 <= look c < 32768 →
  does 4 (Shift_recover n2) x (input c) (input c, inl (Config (push_token q l c) (look c) (tok c) (errflag x) (input c))).
Proof.
  intros Hh Hsp Hb Hq Hqs He Hst Ht Hc Hc'. destruct (shift_recover_run l x (input c) n2 q Hh Hsp Hb Hq Hqs He) as (k & x' & Hk & Hg & Hh' & (T1 & T2 & T3 & T4) & S1 & S2 & S3). exists k, x'. split_and!; [done|done| |done]. rewrite (sim_push c x q l Ht). split; cbn [stk look tok err input].
  - done.
  - rewrite S2. cbn [length]. lia.
  - done.
  - done.
  - by rewrite T1.
  - by rewrite Ht, T2, T3, T4.
  - by apply Forall_cons.
Qed.

Lemma raise_does x lx e r ex K : (0 < K)%nat → reply r (env x) lx = inr (e, lx, inl ex) → (∀ j, (j <= p0)%nat → same_at e0 e j) → does K (Return r) x lx (lx, inr (Raised ex)).
Proof. intros HK Er Ho. exists 1%nat, e. split_and!; [lia| |done]. intros i. by apply mrun_raise. Qed.

Lemma recover_does c x : sim c x → room c → does 5 Recover x (input c) (lr_recover A c).
Proof.
  intros [M1 M2 M3 [M4 M4'] [M5 M5'] M6 M7] Hroom. unfold lr_recover. rewrite <- M4. pose proof (i_outer _ _ _ _ M1) as Ho. assert (recover t x = if errflag x <? 3 then discard (S (Z.to_nat (sp x))) t (Pda (env x) (state x) (sp x) 3) else if look c =? 0 then inr (x, Return RAISE_PARSE_ERROR) else inr (Pda (set_curr_char (Val_int (-1)) (env x)) (state x) (sp x) (errflag x), Loop)) as Er.
  { unfold recover. erewrite bind_run; [|reflexivity]. rewrite M5, Int_small by lia. destruct (errflag x <? 3); [done|]. by destruct (look c =? 0). }
  destruct (errflag x <? 3).
  - destruct (decide (stk c = [])) as [En|En]; [by rewrite En|]. pose proof (discard_run (S (Z.to_nat (sp x))) (Pda (env x) (state x) (sp x) 3) (stk c) M1 M2 Hroom En M7 ltac:(rewrite M2; lia)) as Hd. destruct (find_recovery A (stk c)) as [[q l2]|].
    + destruct Hd as (n2 & D1 & D2 & D3 & D4 & D5 & D6). cbn [env state errflag] in *. eapply (goes_does 1 4); [apply goes_block; [done|]; cbn [block]; rewrite Er; exact D1|]. unfold room in Hroom.
      apply (push_does c (Pda (env x) (state x) (Z.of_nat (p0 + length l2)) 3)); cbn; (done || lia).
    + destruct Hd as (x' & D1 & D2). cbn [env] in D2. eapply (goes_does 1 4); [apply goes_block; [done|]; cbn [block]; rewrite Er; exact D1|]. destruct (stk c); [done|]. eapply (raise_does x' _ (env x)); [lia|by rewrite D2|done].
  - destruct (look c =? 0).
    + eapply (goes_does 1 4); [apply goes_block; [done|]; exact Er|]. by eapply (raise_does x _ (env x)); [lia|..].
    + eexists 1%nat, _. split; [lia|]. split; [apply goes_block; [done|exact Er]|]. split; [|done]. split; cbn; try done; [by apply (holds_same e0 p0 (stk c) (env x))|lia].
Qed.

Lemma sim_saved c x : sim c x → sim c (saved x).
Proof. intros [M1 M2 M3 M4 M5 M6 M7]. split; try done. by apply (holds_same e0 p0 (stk c) (env x)). Qed.

Lemma sim_small c x : sim c x → room c → small x.
Proof. intros Hs Hr. pose proof (cur_range _ _ Hs). pose proof (c_states _ _ _ _ _ HE). destruct Hs as [M1 M2 M3 [M4 M4'] _ _ _]. unfold room in Hr. split_and!; lia. Qed.

(** From [Testshift], with a lookahead token. *)
Lemma act_does c x : sim c x → room c → 0 <= look c → does 8 Testshift x (input c) (lr_act actions error_function A c).
Proof.
  intros Hsim Hroom Hlk. pose proof Hsim as [M1 M2 M3 [M4 M4'] [M5 M5'] M6 M7]. pose proof (cur_range _ _ Hsim) as Hcur. pose proof (c_states _ _ _ _ _ HE) as Hns. destruct (c_shift _ _ _ _ _ HE (cur c) (look c) Hcur ltac:(lia)) as [L1 L2]. destruct (c_reduce _ _ _ _ _ HE (cur c) (look c) Hcur ltac:(lia)) as [L3 L4].
  destruct (probe_run t (sindex t) (cur c) (look c) _ x L1 ltac:(lia)) as (n1 & P1 & P2 & P3 & P4). destruct (probe_run t (rindex t) (cur c) (look c) _ x L3 ltac:(lia)) as (n3 & R1 & R2 & R3 & R4). unfold lr_act.
  assert (testshift t x = match a_shift A (cur c) (look c), a_reduce A (cur c) (look c) with Some _, _ => inr (x, Shift (n1 + look c)) | None, Some r => inr (x, Reduce r) | None, None => if 0 <? err c then inr (x, Recover) else inr (saved x, Return CALL_ERROR_FUNCTION) end) as Et.
  { unfold testshift. erewrite bind_run; [|reflexivity]. cbv zeta. rewrite M3, M5, Int_small by lia. erewrite bind_run; [|by apply Short_run]. erewrite bind_run; [|exact P3]. rewrite P2. destruct (a_shift A (cur c) (look c)) as [q|]; [done|]. cbn [bool_decide].
    rewrite bool_decide_eq_false_2 by (by intros [? ?]). erewrite bind_run; [|by apply Short_run]. erewrite bind_run; [|exact R3]. rewrite R2. destruct (a_reduce A (cur c) (look c)) as [r|].
    - rewrite bool_decide_eq_true_2 by eauto. erewrite bind_run; [|apply Short_run; by apply R4]. done.
    - rewrite bool_decide_eq_false_2 by (by intros [? ?]). rewrite M4. by destruct (0 <? err c). }
  destruct (a_shift A (cur c) (look c)) as [q|] eqn:Es.
  - eapply does_le; [|eapply (goes_does 1); [apply goes_block; [done|exact Et]|]]; [|eapply (goes_does 1 4)]; [lia| |].
    + apply goes_block; [done|]. cbn [block]. unfold shift. erewrite bind_run; [|reflexivity]. erewrite bind_run; [|reflexivity]. cbn [errflag].
      instantiate (2 := Pda (set_curr_char (Val_int (-1)) (env x)) (state x) (sp x) (Z.max 0 (err c - 1))). instantiate (1 := Shift_recover (n1 + look c)). rewrite <- M4. destruct (Z.ltb_spec 0 (errflag x)); (erewrite bind_run; [|reflexivity]); unfold mreturn; [by rewrite Z.max_r by lia|].
      rewrite Z.max_l by lia. do 3 f_equal. lia.
    + exact (push_does (Config (stk c) (-1) (tok c) (err c) (input c)) (Pda (set_curr_char (Val_int (-1)) (env x)) (state x) (sp x) (Z.max 0 (err c - 1))) (n1 + look c) q (stk c) (holds_same e0 p0 (stk c) (env x) (set_curr_char (Val_int (-1)) (env x)) ltac:(done) M1) M2 Hroom (P4 q eq_refl) (L2 q eq_refl) ltac:(cbn; lia) M7 (eq_sym M6) eq_refl ltac:(cbn; lia)).
  - destruct (a_reduce A (cur c) (look c)) as [r|].
    + eapply does_le; [|eapply (goes_does 1 4); [apply goes_block; [done|exact Et]|]]; [lia|]. apply reduce_does; [done|done|by apply L4].
    + destruct (0 <? err c).
      * eapply does_le; [|eapply (goes_does 1 5); [apply goes_block; [done|exact Et]|]]; [lia|]. by apply recover_does.
      * eapply does_le; [|eapply (goes_does 1 6); [apply goes_block; [done|exact Et]|]]; [lia|]. assert (holds e0 p0 (stk c) (env (saved x))) as Hh' by (by apply (holds_same e0 p0 (stk c) (env x))). destruct error_function as [ex|] eqn:Ef.
        -- eapply (raise_does (saved x) _ (env (saved x))); [lia|unfold Parsing.reply; by rewrite Ef|apply Hh'].
        -- eapply (goes_does 1 5); [|apply recover_does; [by apply sim_saved|done]]. eapply goes_reply; [unfold Parsing.reply; by rewrite Ef|]. rewrite enter_error. erewrite bind_run; [|apply (RESTORE_run x); [by apply (sim_small c)|done..]]. done.
Qed.

(** From [Loop]: one step of the automaton. *)
Lemma step_does c x : sim c x → room c → does 10 Loop x (input c) (lr_step lexer actions error_function A c).
Proof.
  intros Hsim Hroom. pose proof Hsim as [M1 M2 M3 [M4 M4'] [M5 M5'] M6 M7]. pose proof (cur_range _ _ Hsim) as Hcur. pose proof (c_states _ _ _ _ _ HE) as Hns. destruct (c_defred _ _ _ _ _ HE (cur c) Hcur) as [D1 D2]. unfold lr_step.
  assert (loop t x = if negb (a_defred A (cur c) =? 0) then inr (x, Reduce (a_defred A (cur c))) else if 0 <=? look c then inr (x, Testshift) else inr (saved x, Return READ_TOKEN)) as El.
  { unfold loop. erewrite bind_run; [|reflexivity]. rewrite M3. erewrite bind_run; [|by apply Short_run]. rewrite M5, Int_small by lia. destruct (negb _); [done|]. by destruct (0 <=? look c). }
  destruct (negb (a_defred A (cur c) =? 0)) eqn:En.
  { eapply does_le; [|eapply (goes_does 1 4); [apply goes_block; [done|exact El]|]]; [lia|]. apply reduce_does; [done|done|]. apply D2. lia. }
  destruct (Z.leb_spec 0 (look c)) as [Hlk|Hlk].
  { eapply does_le; [|eapply (goes_does 1 8); [apply goes_block; [done|exact El]|]]; [lia|]. by apply act_does. }
  assert (does 9 (Return READ_TOKEN) (saved x) (input c) (match lexer (input c) with (lx, inl ex) => (lx, inr (Raised ex)) | (lx, inr (o, p, q)) => match a_token A o with Some (k, v) => lr_act actions error_function A (Config (stk c) k (v, p, q) (err c) lx) | None => (lx, inr Stuck) end end)) as Hd; [|eapply (goes_does 1 9); [apply goes_block; [done|exact El]|exact Hd]].
  destruct (lexer (input c)) as [lx [ex|[[o p] q]]] eqn:Elx.
  - exists 1%nat, (env (saved x)). split; [lia|]. split; [intros i; apply mrun_raise; unfold Parsing.reply; cbn [Z.eqb]; by rewrite Elx|]. apply M1.
  - destruct (a_token A o) as [[k v]|] eqn:Eo; [|done]. destruct (c_token _ _ _ _ _ HE o k v Eo) as [Hk Ho]. set (x1 := Pda (set_lval v (set_curr_char (Val_int k) (set_symb_end q (set_symb_start p (env (saved x)))))) (state x) (sp x) (errflag x)).
    assert (goes 1 (Return READ_TOKEN) (saved x) (input c) Testshift x1 lx) as Hg.
    { eapply goes_reply; [unfold Parsing.reply; cbn [Z.eqb]; by rewrite Elx|]. change (enter t (Val_int TOKEN_READ) o) with (RESTORE ;;; (if Is_block (arg_word o) then let* k := Elt (transl_block t) (arg_tag o) in modify_env (set_curr_char k) ;;; modify_env (set_lval (arg_field o)) else let* k := Elt (transl_const t) (Int_val (arg_word o)) in modify_env (set_curr_char k) ;;; modify_env (set_lval (Val_long 0))) ;;; mreturn Testshift)%monad.
      erewrite bind_run; [|apply (RESTORE_run x); [by apply (sim_small c)|done..]]. destruct (Is_block (arg_word o)); destruct Ho as [Ho ->]; (erewrite bind_run; [|erewrite bind_run; [|by apply Elt_run]; reflexivity]); done. }
    eapply (goes_does 1 8); [exact Hg|]. apply (act_does (Config (stk c) k (v, p, q) (err c) lx) x1); [|exact Hroom|cbn; lia]. split; cbn; try done; [by apply (holds_same e0 p0 (stk c) (env x))|lia].
Qed.

(** A step pushes at most one symbol. *)
Lemma find_recovery_length l q l2 : find_recovery A l = Some (q, l2) → (length l2 <= length l)%nat.
Proof. induction l as [|y l IH]; cbn [find_recovery]; [done|]. destruct (a_shift A (y_state y) ERRCODE) as [q'|]; [by intros [= <- <-]|]. intros H. apply IH in H. cbn [length]. lia. Qed.

Lemma push_token_length q l (c : config lexbuf) : length (push_token q l c) = S (length l).
Proof. unfold push_token. by destruct (tok c) as [[] ?]. Qed.

Lemma recover_length (c : config lexbuf) lx c' : lr_recover A c = (lx, inl c') → (length (stk c') <= S (length (stk c)))%nat.
Proof.
  unfold lr_recover. destruct (err c <? 3).
  - destruct (find_recovery A (stk c)) as [[q l]|] eqn:Ef; [|by intros [= ]]. intros [= _ <-]. cbn [stk]. rewrite push_token_length. pose proof (find_recovery_length _ _ _ Ef). lia.
  - destruct (look c =? 0); [by intros [= ]|]. intros [= _ <-]. cbn [stk]. lia.
Qed.

Lemma reduce_length (c : config lexbuf) r lx c' : lr_reduce actions A c r = (lx, inl c') → (length (stk c') <= S (length (stk c)))%nat.
Proof.
  unfold lr_reduce. destruct (_ <? _)%nat; [by intros [= ]|]. pose proof (length_drop (stk c) (a_len A r)) as Hd. destruct (stk c) as [|top l]; [by intros [= ]|]. destruct (actions _ _ _) as [ex|v]; [by intros [= ]|]. destruct (drop (a_len A r) (top :: l)) as [|y l2]; [by intros [= ]|]. intros [= _ <-]. cbn [stk length] in *. lia.
Qed.

Lemma act_length (c : config lexbuf) lx c' : lr_act actions error_function A c = (lx, inl c') → (length (stk c') <= S (length (stk c)))%nat.
Proof.
  unfold lr_act. destruct (a_shift A (cur c) (look c)) as [q|]; [intros [= _ <-]; cbn [stk]; by rewrite push_token_length|]. destruct (a_reduce A (cur c) (look c)) as [r|]; [apply reduce_length|]. destruct (0 <? err c); [apply recover_length|]. destruct error_function; [by intros [= ]|apply recover_length].
Qed.

Lemma step_length (c : config lexbuf) lx c' : lr_step lexer actions error_function A c = (lx, inl c') → (length (stk c') <= S (length (stk c)))%nat.
Proof.
  unfold lr_step. destruct (negb _); [apply reduce_length|]. destruct (0 <=? look c); [apply act_length|]. destruct (lexer (input c)) as [lx1 [ex|[[o p] q]]]; [by intros [= ]|]. destruct (a_token A o) as [[k v]|]; [|by intros [= ]]. intros H. by apply act_length in H.
Qed.

(** A run of the automaton. *)
Lemma run_does n : ∀ c x lx ex, sim c x → Z.of_nat (p0 + length (stk c) + n) < 2 ^ 30 → lr_run lexer actions error_function A n c = Some (lx, Raised ex) →
  ∃ e, (∀ k, (10 * n <= k)%nat → mrun k Loop x (input c) = inr (e, lx, ex)) ∧ ∀ j, (j <= p0)%nat → same_at e0 e j.
Proof.
  induction n as [|n IH]; intros c x lx ex Hs Hb Hr; [done|]. cbn [lr_run] in Hr. pose proof (step_does c x Hs ltac:(unfold room; lia)) as Hd. destruct (lr_step lexer actions error_function A c) as [lx1 [c'|r]] eqn:E; cbn in Hd.
  - destruct Hd as (k1 & x' & Hk1 & Hg & Hs' & Hi). pose proof (step_length _ _ _ E). destruct (IH c' x' lx ex Hs' ltac:(lia) Hr) as (e & He & Ho). exists e. split; [|done]. intros k Hk. replace k with (k1 + (k - k1))%nat by lia. rewrite Hg, <- Hi. apply He. lia.
  - injection Hr as -> ->. destruct Hd as (k1 & e & Hk1 & Hm & Ho). exists e. split; [|done]. intros k Hk. replace k with (k1 + (k - k1))%nat by lia. apply Hm.
Qed.

(** *** From labels to calls of the engine *)

Notation drive := (parse_loop lexer actions error_function dummy_pos t).

Lemma engine_run e cmd arg : caml_parse_engine_r t e cmd arg = match (let* l := enter t cmd arg in labels 16 t l)%monad (Pda e 0 0 0) with inl f => inl f | inr (x, r) => inr (env x, r) end.
Proof. done. Qed.

Lemma drive_S fuel cmd arg e lx x l o : enter t cmd arg (Pda e 0 0 0) = inr (x, l) → (∀ F, labels F t l x ≠ inl OutOfFuel → ∃ x' r, labels F t l x = inr (x', r) ∧ match reply r (env x') lx with inl f => inl f | inr (e, lx, inl ex) => inr (e, lx, ex) | inr (e, lx, inr (cmd, arg)) => drive fuel cmd arg e lx end = inr o) →
  drive (S fuel) cmd arg e lx = inr o.
Proof.
  intros Ee HF. cbn [parse_loop]. rewrite engine_run. pose proof (engine_may t e cmd arg) as Hmay. unfold may in Hmay. rewrite (bind_run _ _ _ _ _ Ee) in Hmay |- *. destruct (HF 16%nat) as (x' & r' & E1 & E2); [by intros E; rewrite E in Hmay|]. by rewrite E1.
Qed.

Lemma fuse k : ∀ F l x lx o fuel, mrun k l x lx = inr o → labels F t l x ≠ inl OutOfFuel → (k <= fuel)%nat →
  ∃ x' r, labels F t l x = inr (x', r) ∧ match reply r (env x') lx with inl f => inl f | inr (e, lx, inl ex) => inr (e, lx, ex) | inr (e, lx, inr (cmd, arg)) => drive fuel cmd arg e lx end = inr o.
Proof.
  induction k as [|k IH]; intros F l x lx o fuel Hm Hl Hf; [done|]. cbn [mrun] in Hm.
  assert ((∃ r, l = Return r) ∨ ∀ r, l ≠ Return r) as [[r ->]|Hn] by (destruct l; eauto).
  - exists x, r. split; [by destruct F|]. destruct (reply r (env x) lx) as [f|[[e lx1] [ex|[cmd arg]]]]; [done..|]. destruct fuel as [|fuel]; [lia|]. destruct (enter t cmd arg (Pda e 0 0 0)) as [f|[x1 l1]] eqn:Ee; [done|]. apply (drive_S fuel cmd arg e lx1 x1 l1 o Ee). intros F' Hl'. apply IH; [done|done|lia].
  - destruct F as [|F]; [by destruct l; try (by destruct Hl); destruct (Hn r)|].
    assert (labels (S F) t l x = (let* l' := block t l in labels F t l')%monad x) as El by (destruct l; try reflexivity; by destruct (Hn r)).
    assert (match block t l x with inl f => inl f | inr (x, l) => mrun k l x lx end = inr o) as Hb by (destruct l; try exact Hm; by destruct (Hn r)).
    destruct (block t l x) as [f|[x1 l1]] eqn:Eb; [done|]. rewrite El, (bind_run _ _ _ _ _ Eb) in Hl |- *. apply IH; [done|done|lia].
Qed.
End Simulation.

Lemma enter_start t e (p0 : nat) : env_sp e = Val_int (Z.of_nat p0) → Z.of_nat p0 < 2 ^ 30 → enter t (Val_int START) unit_arg (Pda e 0 0 0) = inr (Pda e 0 (Z.of_nat p0) 0, Loop).
Proof.
  intros Hsp Hb. change (enter t (Val_int START) unit_arg (Pda e 0 0 0)) with (inr (A := fault) (Pda e 0 (u64 (Int_val (env_sp e))) 0, Loop)). rewrite Hsp, Int_small, u64_small by lia_w. done.
Qed.

(** The fields that a call of [yyparse] gives back as they were, and the stacks
    up to the index [p0]. *)
Definition restored (p0 : nat) (e e' : parser_env) : Prop :=
  env_asp e' = env_asp e ∧ env_sp e' = env_sp e ∧ stackbase e' = stackbase e ∧ env_state e' = env_state e ∧ curr_char e' = curr_char e ∧ lval e' = lval e ∧ env_errflag e' = env_errflag e ∧
  ∀ j, (j <= p0)%nat → same_at e e' j.

(** What is above the initial [sp] is free: the parser may be called from a
    semantic action of another. *)
Record callable (e : parser_env) (p0 : nat) : Prop := {
  b_size : ∃ N, sized e N ∧ (p0 < N)%nat ∧ Z.of_nat N < 2 ^ 40;
  b_sp : env_sp e = Val_int (Z.of_nat p0);
  b_cell : ∃ q, s_stack e !! p0 = Some (Val_int q) ∧ 0 <= q < 32768
}.

(** C19. Refinement: on tables that encode an automaton, the loop of
    [Parsing.yyparse] around [caml_parse_engine_r] does what the automaton does.
    If the automaton, from an empty stack and with the token of the entry point
    as lookahead, ends within [n] steps with the exception [ex], having read the
    input up to [lx'], then [yyparse] ends, with the value that [YYexit] carries
    or with [ex]; the lexer has been read as far.  Shifts, reductions by default
    and by lookahead, the error function, recovery and the growth of the stacks
    are included, the values and positions that the semantic actions receive
    too.  The fields of the environment that a parser called from the actions of
    another must not change are restored, and the stacks up to the initial [sp]
    are the same.  The actions do not raise [Parse_error] themselves. *)
Theorem yyparse_refines {lexbuf : Type} (lexer : lexbuf → lexbuf * (exn + arg_value * Z * Z)) actions error_function dummy_pos t A ns nn nr p0 e lx start lex_curr_p n lx' ex fuel :
  encodes t A ns nn nr → (∀ r l q, actions r l q ≠ inl Parse_error) → callable e p0 → 0 <= start < 32768 → Z.of_nat (p0 + n) < 2 ^ 30 →
  lr_run lexer actions error_function A n (Config [] start (lval e, symb_start e, lex_curr_p) 0 lx) = Some (lx', Raised ex) → (10 * n < fuel)%nat →
  ∃ e', yyparse lexer actions error_function dummy_pos t fuel (Val_int start) lex_curr_p e lx = inr (e', lx', match ex with YYexit v => inr v | _ => inl ex end) ∧ restored p0 e e'.
Proof.
  intros HE Hact [(N & Hs & HN & HNb) Hsp (q0 & Hq0 & Hq0')] Hst Hb Hr Hf. set (c0 := Config [] start (lval e, symb_start e, lex_curr_p) 0 lx) in *. set (e1 := set_symb_end lex_curr_p (set_curr_char (Val_int start) (set_stackbase (Val_long (Long_val (env_sp e) + 1)) e))).
  set (x1 := Pda e1 0 (Z.of_nat p0) 0). assert (sim ns e p0 c0 x1) as Hsim.
  { split; cbn; try done; [|lia|split; [done|lia]]. split; [by exists N; split_and!; [|cbn [length]; lia|]| |done|done]. cbn. rewrite Hsp. unfold Val_int. by rewrite Long_small by lia. }
  destruct (run_does lexer actions error_function dummy_pos t A ns nn nr HE Hact e p0 q0 Hq0 Hq0' n c0 x1 lx' ex Hsim ltac:(cbn; lia) Hr) as (e2 & Hm & Ho).
  assert (enter t (Val_int START) unit_arg (Pda e1 0 0 0) = inr (x1, Loop)) as Ee by (by apply enter_start; [|lia]).
  assert (parse_loop lexer actions error_function dummy_pos t fuel (Val_int START) unit_arg e1 lx = inr (e2, lx', ex)) as Hd.
  { destruct fuel as [|fuel]; [lia|]. apply (drive_S _ _ _ _ _ _ _ _ _ _ x1 Loop _ Ee). intros F HF. apply (fuse lexer actions error_function dummy_pos t (10 * n)); [apply Hm; lia|done|lia]. }
  unfold yyparse. fold e1. rewrite Hd. eexists. split; [reflexivity|]. by split_and!.
Qed.

Lemma labels_block k t l x x' l' : (∀ r, l ≠ Return r) → block t l x = inr (x', l') → labels (S k) t l x = labels k t l' x'.
Proof. intros Hn E. assert (labels (S k) t l x = (let* l' := block t l in labels k t l')%monad x) as -> by (destruct l; try reflexivity; by destruct (Hn r)). by rewrite (bind_run _ _ _ _ _ E). Qed.

Lemma labels_return k t r x : labels k t (Return r) x = inr (x, r).
Proof. by destruct k. Qed.

(** C37. A semantic action that raises [Parse_error] while the parser recovers
    from an error ([errflag] is 3) is not an error: the engine drops the
    lookahead token and asks for the next, in the state that follows the
    left-hand side, although nothing has been stored for it.  The stacks are
    those from before the call: at [sp] they hold the first symbol of the
    right-hand side, or what was left there if it is empty, and its value is
    what the actions of the enclosing rules get for the left-hand side. *)
Theorem parse_error_in_action {lexbuf : Type} (lexer : lexbuf → lexbuf * (exn + arg_value * Z * Z)) actions error_function dummy_pos t e lx p q ef l pos :
  env_sp e = Val_int p → 0 <= p < 2 ^ 30 → env_state e = Val_int q → 0 <= q < 32768 → env_errflag e = Val_int ef → ef = 3 → Int_val (curr_char e) ≠ 0 → short_at (defred t) q = Some 0 →
  peek_rhs e (Z.to_nat (Long_val (rule_len e))) = Some l → at_index (symb_end_stack e) (Long_val (env_asp e)) = Some pos → actions (Long_val (rule_number e)) l pos = inl Parse_error →
  reply lexer actions error_function dummy_pos COMPUTE_SEMANTIC_ACTION e lx = inr (e, lx, inr (Val_int ERROR_DETECTED, unit_arg)) ∧
  caml_parse_engine_r t e (Val_int ERROR_DETECTED) unit_arg = inr (set_curr_char (Val_int (-1)) e, READ_TOKEN).
Proof.
  intros Esp Hp Est Hq Eef -> Hc Hd El Epos Eact. split.
  { unfold reply. change (COMPUTE_SEMANTIC_ACTION =? READ_TOKEN) with false. change (COMPUTE_SEMANTIC_ACTION =? RAISE_PARSE_ERROR) with false. change (COMPUTE_SEMANTIC_ACTION =? COMPUTE_SEMANTIC_ACTION) with true. cbn iota. by rewrite El, Epos, Eact. }
  set (x := Pda e q p 3). assert (enter t (Val_int ERROR_DETECTED) unit_arg (Pda e 0 0 0) = inr (x, Recover)) as Ee.
  { rewrite enter_error. erewrite bind_run; [|apply (RESTORE_run x); [split_and!; cbn; lia|done..]]. done. }
  set (x1 := Pda (set_curr_char (Val_int (-1)) e) q p 3). assert (block t Recover x = inr (x1, Loop)) as Er.
  { cbn [block]. unfold recover. erewrite bind_run; [|reflexivity]. cbn [errflag x env]. change (3 <? 3) with false. cbn iota. rewrite (proj2 (Z.eqb_neq _ _) Hc). reflexivity. }
  assert (block t Loop x1 = inr (saved x1, Return READ_TOKEN)) as Eb.
  { cbn [block]. unfold loop. erewrite bind_run; [|reflexivity]. cbn [state x1]. erewrite bind_run; [|by apply Short_run]. cbn [env x1 curr_char set_curr_char]. by rewrite Int_small by lia. }
  assert (∀ r, Recover ≠ Return r) as N1 by done. assert (∀ r, Loop ≠ Return r) as N2 by done.
  rewrite engine_run, (bind_run _ _ _ _ _ Ee), (labels_block 15 _ _ _ _ _ N1 Er), (labels_block 14 _ _ _ _ _ N2 Eb), labels_return. unfold saved. cbn [env state sp errflag x1]. do 2 f_equal. unfold set_saved, set_curr_char. by rewrite Esp, Est, Eef.
Qed.

(** ** An example *)

(** The tables of
      main: expr EOF;  expr: expr PLUS NUM | NUM | error
    with the rules 1 [expr: expr PLUS NUM], 2 [expr: NUM], 3 [main: expr EOF],
    4 the entry point and 5 [expr: error]; the terminals 0 [EOF], 1 the short_at
    point, 256 [error], 257 [PLUS] and 258 [NUM]. *)
Definition pack (l : list Z) : list Z := concat (map (λ v, [v mod 256; v / 256 mod 256]) l).
Definition sparse (n : nat) (d : Z) (l : list (nat * Z)) : list Z := foldr (λ iv, <[iv.1 := iv.2]>) (replicate n d) l.

Definition sum_tables : parser_tables :=
  Tables [Val_int 257; Val_int 0] [Val_int 258]
    (pack [-1; 1; 1; 2; 3; 1]) (pack [2; 3; 1; 2; 2; 1])
    (pack [0; 0; 0; 2; 0; 3; 1; 4; 5]) (pack [0; 2; 7; 0])
    (pack [1; -250; 20; 0; -240; 0; 0; 0; 0]) (pack (replicate 9 0)) (pack (replicate 4 0))
    (Val_int 300)
    (pack (sparse 301 0 [(2%nat, 1); (8%nat, 3); (6%nat, 8); (277%nat, 4); (20%nat, 5); (18%nat, 6)]))
    (pack (sparse 301 (-1) [(2%nat, 1); (8%nat, 258); (6%nat, 256); (277%nat, 257); (20%nat, 0); (18%nat, 258)])).

Definition PLUS : arg_value := Arg (Val_int 0) 0 0.
Definition NUM (n : Z) : arg_value := Arg 4096 0 (Val_int n).

(** Tokens at the positions 1, 2, ...; [EOF] at the end. *)
Definition sum_lexer (lx : list arg_value * Z) : (list arg_value * Z) * (exn + arg_value * Z * Z) :=
  match lx with
  | ([], p) => (([], p + 1), inr (Arg (Val_int 1) 0 0, p, p + 1))
  | (o :: l, p) => ((l, p + 1), inr (o, p, p + 1))
  end.

(** [bad] is what the action of [expr: error] does. *)
Definition sum_actions (bad : exn + Z) (r : Z) (l : list (Z * Z * Z)) (pos : Z) : exn + Z :=
  match r, l with
  | 1, [(a, _, _); _; (b, _, _)] => inr (a + b - 1)
  | 2, [(a, _, _)] => inr a
  | 3, [(a, _, _); _] => inr a
  | 4, [_; (a, _, _)] => inl (YYexit a)
  | 5, _ => bad
  | _, _ => inl (Other_exception r)
  end.

Definition small_env : parser_env :=
  Env (replicate 2 (Val_int 0)) (replicate 2 Val_unit) (replicate 2 0) (replicate 2 0) (Val_int 2) (Val_int 0) (Val_int 0) Val_unit 0 0 (Val_int 0) (Val_int 0) (Val_int 0) (Val_int 0) (Val_int 0) (Val_int 0).

Definition outcome {lexbuf : Type} (r : fault + parser_env * lexbuf * (exn + Z)) : option (exn + Z) := match r with inr (_, _, o) => Some o | inl _ => None end.

(** [PLUS PLUS 20 PLUS 3]: the first token is an error. *)
Definition sum_input : list arg_value * Z := ([PLUS; PLUS; NUM 20; PLUS; NUM 3], 1).

Lemma yyparse_refines_witness : ∃ e', yyparse sum_lexer (sum_actions (inr (Val_int 100))) None 0 sum_tables 200 (Val_int 1) 0 small_env sum_input = inr (e', ([], 7), inr (Val_int 123)) ∧ restored 0 small_env e'.
Proof.
  apply (yyparse_refines sum_lexer (sum_actions (inr (Val_int 100))) None 0 sum_tables (automaton_of sum_tables) 9 4 6 0 small_env sum_input 1 0 15 ([], 7) (YYexit (Val_int 123)) 200).
  - apply tables_ok_encodes. by vm_compute.
  - intros r l pos. unfold sum_actions. repeat (case_match; try done).
  - split; [exists 2%nat; split_and!; [by vm_compute|lia|lia]|by vm_compute|exists 0; split_and!; [by vm_compute|lia|lia]].
  - lia.
  - lia.
  - by vm_compute.
  - lia.
Defined.

(** The environment when the action of [expr: error] runs, on [7 9]. *)
Definition failing_env : parser_env :=
  Env [Val_int 0; Val_int 1; Val_int 8; Val_int 0] [Val_unit; Val_unit; Val_int 9; Val_unit] [0; 0; 2; 0] [0; 0; 3; 0] (Val_int 4) (Val_int 1) (Val_int 258) (Val_int 9) 2 3 (Val_int 2) (Val_int 1) (Val_int 5) (Val_int 2) (Val_int 2) (Val_int 3).

(** The action raises [Parse_error], and the parser returns 9, the value of the
    token that was rejected. *)
Lemma parse_error_in_action_witness :
  caml_parse_engine_r sum_tables failing_env (Val_int ERROR_DETECTED) unit_arg = inr (set_curr_char (Val_int (-1)) failing_env, READ_TOKEN) ∧
  outcome (yyparse sum_lexer (sum_actions (inl Parse_error)) None 0 sum_tables 200 (Val_int 1) 0 small_env ([NUM 7; NUM 9], 1)) = Some (inr (Val_int 9)).
Proof.
  split; [|by vm_compute].
  apply (parse_error_in_action sum_lexer (sum_actions (inl Parse_error)) None 0 sum_tables failing_env ([], 3) 2 2 3 [(Val_int 9, 2, 3)] 3); try (by vm_compute); lia.
Defined.
End ParseRun.
