(* ===== verification/StrMatch.v ===== *)
(** What the matcher of str computes.

    The code of a regular expression is decoded into instructions [instr], and
    a configuration [config] of the automaton is a position in the code, one
    in the text and the variables.  [succ] gives the successors of a
    configuration: [first_match] explores them in order of priority, with a
    fresh copy of the variables for each alternative, and [accepts] is the
    existence of an accepting execution. *)

From stdpp Require Import strings.
From S2P Require Import Prelude Mlvalues Strstubs.
Import Strstubs.

Module StrMatch.

#[global] Instance loc_eq_dec : EqDecision loc.
Proof. solve_decision. Defined.
#[global] Instance loc_countable : Countable loc.
Proof.
  refine (inj_countable' (λ l, match l with Group_start n => inl (inl n) | Group_end n => inl (inr n) | Register n => inr n end)
    (λ x, match x with inl (inl n) => Group_start n | inl (inr n) => Group_end n | inr n => Register n end) _).
  by intros [].
Defined.

(** ** The automaton *)

Inductive instr : Type :=
  | IChar (norm : bool) (c : Z)
  | IString (norm : bool) (l : list Z)
  | IClass (set : list Z)
  | IBol | IEol | IBoundary
  | IAssign (l : loc)
  | IRef (g : nat)
  | IAccept
  | IOpt (set : list Z) | IStar (set : list Z) | IPlus (set : list Z)
  | IGoto (target : Z) | IFork (target : Z)
  | ICheck (r : nat).

Record config : Type := Config { c_pc : Z; c_pos : nat; c_env : gmap loc nat }.

(** The end of the text was met at position [p], in [Short p]. *)
Inductive outcome : Type := Go (c : config) | Fork (c1 c2 : config) | Fail | Short (p : nat) | Done.

Section Spec.
Context (re : regexp) (str : list Z).

Definition in_set (set : list Z) (c : Z) : bool := Z.testbit (default 0 (set !! Z.to_nat (c / 8))) (c mod 8).
Definition letter (c : Z) : bool := in_set re_word_letters c.
Definition newline (c : Z) : bool := c =? 10.
Definition normal (n : bool) (c : Z) : Z := if n then default 0 (Normtable re !! Z.to_nat c) else c.

(** The C string in a list of bytes. *)
Fixpoint c_string (l : list Z) : list Z := match l with [] => [] | c :: l => if c =? 0 then [] else c :: c_string l end.

(** The argument of an instruction as a group, a register, a string. *)
Definition arg_group (i : Z) : option nat := if (1 <=? Arg i) && (Arg i <? Numgroups re) then Some (Z.to_nat (Arg i)) else None.
Definition arg_register (i : Z) : option nat := if Arg i <? Numregisters re then Some (Z.to_nat (Arg i)) else None.
Definition arg_set (i : Z) : option (list Z) :=
  match Cpool re !! Z.to_nat (Arg i) with Some l => if (Z.of_nat (length l) =? 32) && forallb (λ b, (0 <=? b) && (b <? 256)) l then Some l else None | None => None end.
Definition normalized : option unit := if (Z.of_nat (length (Normtable re)) =? 256) then Some tt else None.

Definition decode (p i : Z) : option instr :=
  let op := Opcode i in
  if op =? CHAR then Some (IChar false (Arg i))
  else if op =? CHARNORM then (λ _, IChar true (Arg i)) <$> normalized
  else if op =? STRING then IString false ∘ c_string <$> Cpool re !! Z.to_nat (Arg i)
  else if op =? STRINGNORM then _ ← normalized; IString true ∘ c_string <$> Cpool re !! Z.to_nat (Arg i)
  else if op =? CHARCLASS then IClass <$> arg_set i
  else if op =? BOL then Some IBol
  else if op =? EOL then Some IEol
  else if op =? WORDBOUNDARY then Some IBoundary
  else if op =? BEGGROUP then IAssign ∘ Group_start <$> arg_group i
  else if op =? ENDGROUP then IAssign ∘ Group_end <$> arg_group i
  else if op =? REFGROUP then IRef <$> arg_group i
  else if op =? ACCEPT then Some IAccept
  else if op =? SIMPLEOPT then IOpt <$> arg_set i
  else if op =? SIMPLESTAR then IStar <$> arg_set i
  else if op =? SIMPLEPLUS then IPlus <$> arg_set i
  else if op =? GOTO then Some (IGoto (p + 1 + SignedArg i))
  else if op =? PUSHBACK then Some (IFork (p + 1 + SignedArg i))
  else if op =? SETMARK then IAssign ∘ Register <$> arg_register i
  else if op =? CHECKPROGRESS then ICheck <$> arg_register i
  else None.

Definition instr_at (p : Z) : option instr :=
  v ← (if 0 <=? p then Prog re !! Z.to_nat p else None); decode p (Long_val v).

(** The text of [l] at position [p]. *)
Definition literal (pc : Z) (env : gmap loc nat) (read : Z → Z) (l : list Z) (p : nat) : outcome :=
  let rest := read <$> drop p str in
  if decide (l `prefix_of` rest) then Go (Config pc (p + length l) env)
  else if decide (rest `prefix_of` l) then Short (length str) else Fail.

Definition char_if (pc : Z) (env : gmap loc nat) (test : Z → bool) (p : nat) : outcome :=
  match str !! p with
  | None => Short p
  | Some c => if test c then Go (Config pc (S p) env) else Fail
  end.

Definition guard (pc : Z) (env : gmap loc nat) (p : nat) (b : bool) : outcome := if b then Go (Config pc p env) else Fail.

(** How many characters at [p] are in a set. *)
Fixpoint run_length (test : Z → bool) (l : list Z) : nat := match l with [] => O | c :: l => if test c then S (run_length test l) else O end.

Definition before (p : nat) : option Z := match p with O => None | S p => str !! p end.

Definition succ (c : config) : outcome :=
  let 'Config pc p env := c in
  let next := pc + 1 in
  match instr_at pc with
  | None => Fail
  | Some (IChar n a) => char_if next env (λ c, normal n c =? a) p
  | Some (IString n l) => literal next env (normal n) l p
  | Some (IClass set) => char_if next env (in_set set) p
  | Some IBol => guard next env p (match before p with None => true | Some c => newline c end)
  | Some IEol => guard next env p (match str !! p with None => true | Some c => newline c end)
  | Some IBoundary =>
      match before p, str !! p with
      | None, None => Short p
      | None, Some c | Some c, None => guard next env p (letter c)
      | Some c, Some d => guard next env p (xorb (letter c) (letter d))
      end
  | Some (IAssign l) => Go (Config next p (<[l := p]> env))
  | Some (IRef g) =>
      match env !! Group_start g, env !! Group_end g with
      | Some b, Some e => literal next env (λ c, c) (take (e - b) (drop b str)) p
      | _, _ => Fail
      end
  | Some IAccept => Done
  | Some (IOpt set) => Go (Config next (p + Nat.min 1 (run_length (in_set set) (drop p str))) env)
  | Some (IStar set) => Go (Config next (p + run_length (in_set set) (drop p str)) env)
  | Some (IPlus set) =>
      match str !! p with
      | None => Short p
      | Some c => if in_set set c then Go (Config next (p + run_length (in_set set) (drop p str)) env) else Fail
      end
  | Some (IGoto t) => Go (Config t p env)
  | Some (IFork t) => Fork (Config next p env) (Config t p env)
  | Some (ICheck r) => guard next env p (negb (bool_decide (env !! Register r = Some p)))
  end.

Context (partial : bool).

Local Ltac same_succ := repeat match goal with H : succ ?c = _, H' : succ ?c = _ |- _ => rewrite H in H'; simplify_eq end.

(** The first accepting execution from a configuration. *)
Inductive first_match : config → option config → Prop :=
  | fm_done c : succ c = Done → first_match c (Some c)
  | fm_fail c : succ c = Fail → first_match c None
  | fm_short c p : succ c = Short p → first_match c (if partial then Some (Config (c_pc c) p (c_env c)) else None)
  | fm_go c c' r : succ c = Go c' → first_match c' r → first_match c r
  | fm_left c c1 c2 d : succ c = Fork c1 c2 → first_match c1 (Some d) → first_match c (Some d)
  | fm_right c c1 c2 r : succ c = Fork c1 c2 → first_match c1 None → first_match c2 r → first_match c r.

(** Some accepting execution. *)
Inductive accepts : config → config → Prop :=
  | ac_done c : succ c = Done → accepts c c
  | ac_short c p : succ c = Short p → partial = true → accepts c (Config (c_pc c) p (c_env c))
  | ac_go c c' d : succ c = Go c' → accepts c' d → accepts c d
  | ac_left c c1 c2 d : succ c = Fork c1 c2 → accepts c1 d → accepts c d
  | ac_right c c1 c2 d : succ c = Fork c1 c2 → accepts c2 d → accepts c d.

Lemma first_match_sound c r : first_match c r → match r with Some d => accepts c d | None => ∀ d, ¬ accepts c d end.
Proof.
  induction 1 as [c H|c H|c p H|c c' r H _ IH|c c1 c2 d H _ IH|c c1 c2 r H _ IH1 _ IH2].
  - by apply ac_done.
  - intros d Ha. inversion Ha; subst; same_succ.
  - destruct partial eqn:E; [by apply ac_short|]. intros d Ha. inversion Ha; subst; same_succ; congruence.
  - destruct r; [by eapply ac_go|]. intros d Ha. inversion Ha; subst; same_succ; by eapply IH.
  - by eapply ac_left.
  - destruct r; [by eapply ac_right|]. intros d Ha. inversion Ha; subst; same_succ; [by eapply IH1|by eapply IH2].
Qed.

Lemma first_match_det c r r' : first_match c r → first_match c r' → r = r'.
Proof.
  intros H. revert r'. induction H as [c H|c H|c p H|c c' r H _ IH|c c1 c2 d H _ IH|c c1 c2 r H _ IH1 _ IH2]; intros r' H'; inversion H'; subst; same_succ; try done; auto.
  - by specialize (IH _ ltac:(eassumption)).
  - by specialize (IH1 _ ltac:(eassumption)).
Qed.
End Spec.

Lemma run_length_le test l : (run_length test l <= length l)%nat.
Proof. induction l as [|c l IH]; cbn; [done|]. destruct (test c); lia. Qed.

(** ** The matcher on one instruction *)

Section Instructions.
Context (malloc_ok : Z → bool) (re : regexp) (str : list Z) (starttxt : Z) (T B : Z).

Definition byte (b : Z) : Prop := 0 <= b < 256.
Definition in_code (p : Z) : Prop := 0 <= p < Z.of_nat (length (Prog re)).

Record wf : Prop := {
  wf_groups : 1 <= Numgroups re <= Z.of_nat NUM_GROUPS;
  wf_registers : 0 <= Numregisters re <= Z.of_nat NUM_REGISTERS;
  wf_start : 0 < starttxt;
  wf_text : Forall byte str;
  wf_length : Z.of_nat (length str) < 4611686018427387904;
  wf_entry : in_code 0;
  wf_code p : in_code p → ∃ i, instr_at re p = Some i ∧
    match i with IGoto t => in_code t | IFork t => in_code (p + 1) ∧ in_code t | IAccept => True | _ => in_code (p + 1) end
}.
Context (Hwf : wf).

Definition valid (l : loc) : Prop :=
  match l with Group_start g | Group_end g => (1 <= g)%nat ∧ Z.of_nat g < Numgroups re | Register r => Z.of_nat r < Numregisters re end.

Record config_ok (c : config) : Prop := {
  ok_pc : in_code (c_pc c);
  ok_pos : (c_pos c <= length str)%nat;
  ok_env l p : c_env c !! l = Some p → (p <= length str)%nat
}.

(** *** Arguments *)

Lemma arg_nonneg i : 0 <= Arg i.
Proof. unfold Arg. apply Z.shiftr_nonneg. unfold u64. apply Z.mod_pos_bound. done. Qed.

Lemma index_eq i n : Arg i < n → n <= 64 → index i = Z.to_nat (Arg i).
Proof.
  intros H1 H2. pose proof (arg_nonneg i). unfold index, s32. rewrite Z.mod_small by (unfold H32; lia). replace (Arg i + 2147483648 - 2147483648) with (Arg i) by lia.
  by rewrite (proj2 (Z.ltb_ge _ _)) by lia.
Qed.

Lemma arg_group_eq i g : arg_group re i = Some g → index i = g ∧ (1 <= g)%nat ∧ Z.of_nat g < Numgroups re.
Proof.
  unfold arg_group. intros H. destruct (Z.leb_spec 1 (Arg i)), (Z.ltb_spec (Arg i) (Numgroups re)); simplify_eq/=. pose proof (wf_groups Hwf). unfold NUM_GROUPS in *.
  split; [apply (index_eq i (Numgroups re)); lia|lia].
Qed.

Lemma arg_register_eq i r : arg_register re i = Some r → index i = r ∧ Z.of_nat r < Numregisters re.
Proof.
  unfold arg_register. intros H. destruct (Z.ltb_spec (Arg i) (Numregisters re)); simplify_eq/=. pose proof (wf_registers Hwf). pose proof (arg_nonneg i). unfold NUM_REGISTERS in *.
  split; [apply (index_eq i (Numregisters re)); lia|lia].
Qed.

Lemma arg_set_eq i set : arg_set re i = Some set → Cpool re !! Z.to_nat (Arg i) = Some set ∧ length set = 32%nat.
Proof.
  unfold arg_set. intros H. destruct (Cpool re !! Z.to_nat (Arg i)) as [l|]; [|done]. destruct (Z.eqb_spec (Z.of_nat (length l)) 32); [|done]. cbn in H.
  destruct (forallb _ l); simplify_eq. split; [done|lia].
Qed.

(** *** Reading *)

Lemma text_eq p c s : str !! p = Some c → text str starttxt (starttxt + Z.of_nat p) s = inr (s, c).
Proof.
  intros H. pose proof (lookup_lt_Some _ _ _ H). unfold text, of_option, string_byte. replace (starttxt + Z.of_nat p - starttxt) with (Z.of_nat p) by lia.
  rewrite (proj2 (Z.leb_le _ _)), (proj2 (Z.ltb_lt _ _)) by lia. cbn. by rewrite Nat2Z.id, H.
Qed.

Lemma text_byte p c : str !! p = Some c → byte c.
Proof. intros H. pose proof (wf_text Hwf) as Ht. rewrite Forall_forall in Ht. apply Ht. by eapply list_elem_of_lookup_2. Qed.

Lemma norm_eq p c s : normalized re = Some tt → str !! p = Some c → norm re str starttxt (starttxt + Z.of_nat p) s = inr (s, normal re true c).
Proof.
  intros Hn H. unfold norm. rewrite (mbnd_eq _ _ _ _ _ (text_eq p c s H)). pose proof (text_byte p c H) as Hb. unfold byte in Hb.
  unfold normalized in Hn. destruct (Z.eqb_spec (Z.of_nat (length (Normtable re))) 256) as [El|]; [|done]. unfold of_option, string_byte, normal.
  rewrite (proj2 (Z.leb_le _ _)), (proj2 (Z.ltb_lt _ _)) by lia. cbn. destruct (lookup_lt_is_Some_2 (Normtable re) (Z.to_nat c)) as [x Hx]; [lia|]. by rewrite Hx.
Qed.

Lemma schar_testbit b k : 0 <= k < 8 → Z.testbit (schar b) k = Z.testbit b k.
Proof.
  intros Hk. unfold schar. rewrite <- (Z.mod_pow2_bits_low (_ - 128) 8 k) by lia. rewrite <- (Z.mod_pow2_bits_low b 8 k) by lia. f_equal. change (2 ^ 8) with 256.
  rewrite Zminus_mod, Z.mod_mod, <- Zminus_mod by lia. f_equal. lia.
Qed.

Lemma bit_of b k : 0 <= k → Z.land (Z.shiftr b k) 1 = b2z (Z.testbit b k).
Proof. intros Hk. change 1 with (Z.ones 1). rewrite Z.land_ones by lia. rewrite Z.shiftr_div_pow2 by lia. change (2 ^ 1) with 2. rewrite <- Z.testbit_spec' by lia. by destruct (Z.testbit b k). Qed.

Lemma low_bits c : Z.land c 7 = c mod 8 ∧ Z.shiftr c 3 = c / 8.
Proof. change 7 with (Z.ones 3). rewrite Z.land_ones, Z.shiftr_div_pow2 by lia. done. Qed.

Lemma byte_index c : byte c → 0 <= c / 8 < 32 ∧ 0 <= c mod 8 < 8.
Proof. intros [H1 H2]. split; [split; [by apply Z.div_pos|by apply Z.div_lt_upper_bound]|by apply Z.mod_pos_bound]. Qed.

Lemma In_bitset_eq {S} set c (s : S) : length set = 32%nat → byte c → In_bitset set c s = inr (s, in_set set c).
Proof.
  intros Hl Hc. destruct (byte_index c Hc) as [Hi Hk]. unfold In_bitset, in_set. destruct (low_bits c) as [-> ->]. destruct (lookup_lt_is_Some_2 set (Z.to_nat (c / 8))) as [b Hb]; [lia|].
  unfold of_option, string_byte. rewrite (proj2 (Z.leb_le _ _)), (proj2 (Z.ltb_lt _ _)) by lia. cbn. rewrite Hb. cbn. rewrite bit_of by lia. rewrite schar_testbit by lia.
  by destruct (Z.testbit b _).
Qed.

Lemma word_letter_eq {S} c (s : S) : byte c → Is_word_letter c s = inr (s, b2z (letter c)).
Proof.
  intros Hc. destruct (byte_index c Hc) as [Hi Hk]. unfold Is_word_letter, letter, in_set. destruct (low_bits c) as [-> ->].
  destruct (lookup_lt_is_Some_2 re_word_letters (Z.to_nat (c / 8))) as [b Hb]; [cbn; lia|]. rewrite Hb. cbn. by rewrite bit_of by lia.
Qed.

(** *** Loops on the text *)

(** [s] with the text pointer at position [q]. *)
Definition at_pos (q : nat) (s : matcher) : matcher := set_txt (starttxt + Z.of_nat q) s.

Definition label_of (o : outcome) (l : label) : Prop := match o with Go _ => l = Continue | Short _ => l = Prefix_match | Fail => l = Backtrack | _ => False end.
Definition pos_of (o : outcome) (q : nat) : Prop := match o with Go c => q = c_pos c | Short p => q = p | _ => True end.

Lemma end_test p : (p <= length str)%nat → (starttxt + Z.of_nat p =? endtxt str starttxt) = match str !! p with None => true | Some _ => false end.
Proof.
  intros Hp. unfold endtxt. destruct (str !! p) eqn:E; [apply lookup_lt_Some in E; apply Z.eqb_neq; lia|apply lookup_ge_None_1 in E; apply Z.eqb_eq; lia].
Qed.

Lemma end_less p : (p <= length str)%nat → (starttxt + Z.of_nat p <? endtxt str starttxt) = match str !! p with None => false | Some _ => true end.
Proof.
  intros Hp. unfold endtxt. destruct (str !! p) eqn:E; [apply lookup_lt_Some in E; apply Z.ltb_lt; lia|apply lookup_ge_None_1 in E; apply Z.ltb_ge; lia].
Qed.

(** Both comparisons of the text with a list of characters; [next] compares
    the rest. *)
Lemma literal_cons pc env f c l p : (p <= length str)%nat → literal str pc env f (c :: l) p =
  match str !! p with
  | None => Short (length str)
  | Some x => if decide (c = f x) then literal str pc env f l (S p) else Fail
  end.
Proof.
  intros Hp. unfold literal. destruct (str !! p) as [x|] eqn:E.
  - rewrite (drop_S _ _ _ E), fmap_cons. destruct (decide (c = f x)) as [->|Hne].
    + destruct (decide (l `prefix_of` f <$> drop (S p) str)) as [H|H].
      * rewrite decide_True by by apply prefix_cons. cbn. by replace (p + S (length l))%nat with (S (p + length l)) by lia.
      * rewrite decide_False by (intros H'; by apply prefix_cons_inv_2 in H'). destruct (decide (f <$> drop (S p) str `prefix_of` l)) as [H'|H'].
        -- by rewrite decide_True by by apply prefix_cons.
        -- by rewrite decide_False by (intros H2; by apply prefix_cons_inv_2 in H2).
    + rewrite decide_False by (intros H; by apply prefix_cons_inv_1 in H). by rewrite decide_False by (intros H; apply prefix_cons_inv_1 in H; congruence).
  - apply lookup_ge_None_1 in E. rewrite drop_ge by lia. cbn. rewrite decide_False by (intros H; by apply prefix_nil_not in H). by rewrite decide_True by apply prefix_nil.
Qed.

Lemma match_chars_eq read f pc env : (∀ p c s, str !! p = Some c → read (starttxt + Z.of_nat p) s = inr (s, f c)) →
  ∀ l p s, (p <= length str)%nat → txt s = starttxt + Z.of_nat p →
  ∃ q lab, match_chars str starttxt read l s = inr (at_pos q s, lab) ∧ label_of (literal str pc env f (c_string l) p) lab ∧ pos_of (literal str pc env f (c_string l) p) q.
Proof.
  intros Hr l. induction l as [|c l IH]; intros p s Hp Ht; cbn [match_chars c_string].
  - exists p, Continue. unfold literal. rewrite decide_True by apply prefix_nil. cbn. split_and!; [|done|lia]. unfold at_pos. rewrite <- Ht. by destruct s.
  - destruct (c =? 0).
    + exists p, Continue. unfold literal. rewrite decide_True by apply prefix_nil. cbn. split_and!; [|done|lia]. unfold at_pos. rewrite <- Ht. by destruct s.
    + rewrite literal_cons by done. unfold mbnd, mget. rewrite Ht, end_test by done. destruct (str !! p) as [x|] eqn:E.
      * rewrite (Hr p x s E). destruct (Z.eqb_spec c (f x)) as [->|Hne].
        -- rewrite decide_True by done. cbn. pose proof (lookup_lt_Some _ _ _ E). destruct (IH (S p) (set_txt (txt s + 1) s)) as (q & lab & Hm & Hl & Hq); [lia|cbn; lia|].
           exists q, lab. by rewrite Hm.
        -- rewrite decide_False by done. exists p, Backtrack. split_and!; [|done..]. unfold at_pos. rewrite <- Ht. by destruct s.
      * exists p, Prefix_match. apply lookup_ge_None_1 in E. split_and!; [|done|cbn; lia]. unfold at_pos. rewrite <- Ht. by destruct s.
Qed.

Lemma match_group_eq pc env : ∀ n b p s, (b + n <= length str)%nat → (p <= length str)%nat → txt s = starttxt + Z.of_nat p →
  ∃ q lab, match_group str starttxt n (starttxt + Z.of_nat b) s = inr (at_pos q s, lab) ∧
    label_of (literal str pc env (λ c, c) (take n (drop b str)) p) lab ∧ pos_of (literal str pc env (λ c, c) (take n (drop b str)) p) q.
Proof.
  induction n as [|n IH]; intros b p s Hb Hp Ht; cbn [match_group].
  - exists p, Continue. unfold literal. rewrite take_0, decide_True by apply prefix_nil. cbn. split_and!; [|done|lia]. unfold at_pos. rewrite <- Ht. by destruct s.
  - destruct (lookup_lt_is_Some_2 str b) as [c Hc]; [lia|]. rewrite (drop_S _ _ _ Hc), firstn_cons. rewrite literal_cons by done.
    unfold mbnd, mget. rewrite Ht, end_test by done. destruct (str !! p) as [x|] eqn:E.
    + rewrite (text_eq b c s Hc), (text_eq p x s E). destruct (Z.eqb_spec c x) as [->|Hne].
      * rewrite decide_True by done. cbn. pose proof (lookup_lt_Some _ _ _ E). destruct (IH (S b) (S p) (set_txt (txt s + 1) s)) as (q & lab & Hm & Hl & Hq); [lia|lia|cbn; lia|].
        exists q, lab. replace (starttxt + Z.of_nat b + 1) with (starttxt + Z.of_nat (S b)) by lia. by rewrite Hm.
      * rewrite decide_False by done. exists p, Backtrack. split_and!; [|done..]. unfold at_pos. rewrite <- Ht. by destruct s.
    + exists p, Prefix_match. apply lookup_ge_None_1 in E. split_and!; [|done|cbn; lia]. unfold at_pos. rewrite <- Ht. by destruct s.
Qed.

Lemma skip_class_eq set : length set = 32%nat → ∀ n p s, (p <= length str)%nat → txt s = starttxt + Z.of_nat p →
  skip_class str starttxt n set s = inr (at_pos (p + Nat.min n (run_length (in_set set) (drop p str))) s, tt).
Proof.
  intros Hset n. induction n as [|n IH]; intros p s Hp Ht; cbn [skip_class].
  - cbn. unfold at_pos. rewrite Nat.add_0_r, <- Ht. by destruct s.
  - unfold mbnd, mget. rewrite Ht, end_less by done. destruct (str !! p) as [c|] eqn:E.
    + rewrite (text_eq p c s E). rewrite (In_bitset_eq set c s Hset (text_byte p c E)). rewrite (drop_S _ _ _ E). cbn [run_length].
      destruct (in_set set c).
      * cbn. pose proof (lookup_lt_Some _ _ _ E). rewrite (IH (S p)); [|lia|cbn; lia]. unfold at_pos, set_txt. cbn. repeat f_equal; lia.
      * cbn. unfold at_pos. rewrite Nat.add_0_r, <- Ht. by destruct s.
    + apply lookup_ge_None_1 in E. rewrite drop_ge by lia. cbn. unfold at_pos. rewrite Nat.add_0_r, <- Ht. by destruct s.
Qed.

(** *** Variables *)

Definition lookup_loc (s : matcher) (l : loc) : option Z :=
  match l with Group_start n => start <$> re_group s !! n | Group_end n => end_ <$> re_group s !! n | Register n => re_register s !! n end.
Definition put_loc (l : loc) (v : Z) (s : matcher) : matcher :=
  match l with
  | Group_start n => set_vars (alter (λ g, Group v (end_ g)) n (re_group s)) (re_register s) s
  | Group_end n => set_vars (alter (λ g, Group (start g) v) n (re_group s)) (re_register s) s
  | Register n => set_vars (re_group s) (<[n := v]> (re_register s)) s
  end.

Lemma get_loc_eq l s v : lookup_loc s l = Some v → get_loc l s = inr (s, v).
Proof. intros H. unfold get_loc, mbnd, mget, of_option. destruct l; cbn in *; by rewrite H. Qed.

Lemma set_loc_eq l s v : is_Some (lookup_loc s l) → set_loc l v s = inr (put_loc l v s, tt).
Proof. intros [w H]. unfold set_loc. rewrite (mbnd_eq _ _ _ _ _ (get_loc_eq l s w H)). by destruct l. Qed.

Lemma lookup_put_eq l v s : is_Some (lookup_loc s l) → lookup_loc (put_loc l v s) l = Some v.
Proof.
  destruct l; cbn; intros [w H].
  - rewrite list_lookup_alter_eq. destruct (re_group s !! n); [done|]. by inversion H.
  - rewrite list_lookup_alter_eq. destruct (re_group s !! n); [done|]. by inversion H.
  - apply list_lookup_insert_eq. by eapply lookup_lt_Some.
Qed.

Lemma lookup_put_ne l l' v s : l ≠ l' → lookup_loc (put_loc l v s) l' = lookup_loc s l'.
Proof.
  intros Hne. destruct l as [n|n|n], l' as [k|k|k]; cbn; try done; try (rewrite list_lookup_insert_ne; [done|congruence]);
    (destruct (decide (n = k)) as [->|Hnk]; [|by rewrite list_lookup_alter_ne]); try done; rewrite list_lookup_alter_eq; by destruct (re_group s !! k).
Qed.

Definition enc (o : option nat) : Z := match o with None => 0 | Some p => starttxt + Z.of_nat p end.

Record vars (s : matcher) (env : gmap loc nat) : Prop := {
  va_len : length (re_group s) = NUM_GROUPS ∧ length (re_register s) = NUM_REGISTERS;
  va_zero : lookup_loc s (Group_start 0) = Some T;
  va_loc l : valid l → lookup_loc s l = Some (enc (env !! l))
}.

Lemma vars_put s env l p : vars s env → valid l → vars (put_loc l (enc p) s) (match p with Some p => <[l := p]> env | None => delete l env end).
Proof.
  intros [[V1 V2] V3 V4] Hl. split.
  - destruct l; cbn; by rewrite ?length_alter, ?length_insert.
  - rewrite lookup_put_ne; [done|]. intros ->. cbn in Hl. lia.
  - intros l' Hl'. destruct (decide (l = l')) as [->|Hne].
    + rewrite lookup_put_eq by by rewrite V4. destruct p; [by rewrite lookup_insert_eq|by rewrite lookup_delete_eq].
    + rewrite lookup_put_ne, V4 by done. destruct p; [by rewrite lookup_insert_ne|by rewrite lookup_delete_ne].
Qed.

(** *** The stack *)

Definition BLOCK : nat := BACKTRACK_STACK_BLOCK_SIZE.

Record chain (s : matcher) (l : list backtrack_point) : Prop := {
  ch_full : Forall (λ b, length b = BLOCK) (previous s);
  ch_room : (length (stack s) <= BLOCK)%nat;
  ch_flat : stack s ++ concat (previous s) = l;
  ch_blocks : blocks s = B + Z.of_nat (length (previous s))
}.

Record rep (s : matcher) (c : config) (l : list backtrack_point) : Prop := {
  rp_pc : pc s = c_pc c;
  rp_txt : txt s = starttxt + Z.of_nat (c_pos c);
  rp_vars : vars s (c_env c);
  rp_chain : chain s l
}.

Lemma vars_frame s s' env : re_group s' = re_group s → re_register s' = re_register s → vars s env → vars s' env.
Proof. intros E1 E2 [V1 V2 V3]. split; [by rewrite E1, E2| |]; [cbn in *; by rewrite E1|]. intros l Hl. rewrite <- (V3 l Hl). destruct l; cbn; by rewrite ?E1, ?E2. Qed.

Lemma points_frame s s' l : stack s' = stack s → previous s' = previous s → blocks s' = blocks s → chain s l → chain s' l.
Proof. intros E1 E2 E3 [C1 C2 C3 C4]. split; by rewrite ?E1, ?E2, ?E3. Qed.

Lemma put_frame l v s : pc (put_loc l v s) = pc s ∧ txt (put_loc l v s) = txt s ∧ stack (put_loc l v s) = stack s ∧ previous (put_loc l v s) = previous s ∧ blocks (put_loc l v s) = blocks s.
Proof. by destruct l. Qed.

Lemma push_eq s l x : chain s l → re_push malloc_ok x s = inl Out_of_memory ∨
  ∃ s', re_push malloc_ok x s = inr (s', tt) ∧ chain s' (x :: l) ∧ re_group s' = re_group s ∧ re_register s' = re_register s ∧ pc s' = pc s ∧ txt s' = txt s.
Proof.
  intros [C1 C2 C3 C4]. unfold re_push, mbnd, mget. destruct (Nat.eqb_spec (length (stack s)) BACKTRACK_STACK_BLOCK_SIZE) as [E|E].
  - unfold stat_alloc, mbnd, mget. destruct (malloc_ok (blocks s)); [|by left]. right. cbn. eexists. split_and!; try reflexivity. split; cbn.
    + by constructor.
    + unfold BLOCK, BACKTRACK_STACK_BLOCK_SIZE. lia.
    + by rewrite C3.
    + rewrite C4. lia.
  - right. cbn. eexists. split_and!; try reflexivity. split; cbn; [done|unfold BLOCK in *; lia|by rewrite C3|done].
Qed.

(** *** Backtracking *)

Lemma backtrack_below s l : chain s l → stack s = [] → l ≠ [] →
  ∃ s', backtrack s = backtrack s' ∧ chain s' l ∧ stack s' ≠ [] ∧ re_group s' = re_group s ∧ re_register s' = re_register s.
Proof.
  intros [C1 C2 C3 C4] E Hne. unfold backtrack, mbnd, mget. rewrite E in *. destruct (previous s) as [|b bs] eqn:Ep; [by subst l|].
  exists (set_stack b bs (set_blocks (blocks s - 1) s)). apply Forall_cons in C1 as [Hb C1]. split_and!; try done.
  - split; cbn; [done|unfold BLOCK in *; lia|done|]. rewrite C4. cbn. lia.
  - cbn. by destruct b.
Qed.

Lemma backtrack_undo s l v k : chain s (Undo l v :: k) → stack s ≠ [] → is_Some (lookup_loc s l) →
  ∃ s', backtrack s = backtrack (put_loc l v s') ∧ chain s' k ∧ re_group s' = re_group s ∧ re_register s' = re_register s.
Proof.
  intros [C1 C2 C3 C4] Hne Hl. destruct (stack s) as [|x rest] eqn:E; [done|]. injection C3 as -> C3. exists (set_stack rest (previous s) s). split_and!; try done.
  - unfold backtrack at 1. unfold mbnd at 1, mget. rewrite E. cbn [undo_block]. unfold mbnd at 1, mmodify. unfold mbnd at 1. rewrite set_loc_eq by by destruct l.
    unfold backtrack, mbnd, mget. by destruct l.
  - split; cbn; [done|cbn in C2; lia|done|done].
Qed.

(** [us] are assignments to undo; undoing them from [e]. *)
Fixpoint unwind (us : list (loc * option nat)) (e : gmap loc nat) : gmap loc nat :=
  match us with [] => e | (l, p) :: us => unwind us (match p with Some p => <[l := p]> e | None => delete l e end) end.
Definition undos (us : list (loc * option nat)) : list backtrack_point := (λ u : loc * option nat, Undo u.1 (enc u.2)) <$> us.

Definition undone (s : matcher) (env : gmap loc nat) (k : list backtrack_point) : Prop :=
  ∃ us e, vars s e ∧ chain s (undos us ++ k) ∧ Forall (λ u : loc * option nat, valid u.1) us ∧ unwind us e = env.

Lemma undone_nil s env k : vars s env → chain s k → undone s env k.
Proof. intros. by exists [], env. Qed.

(** Undoing the assignments on top. *)
Lemma backtrack_undone s env k : undone s env k → ∃ s', backtrack s = backtrack s' ∧ vars s' env ∧ chain s' k ∧ (stack s' ≠ [] ∨ k = []).
Proof.
  intros (us & e & Hv & Hc & Hu & Hw). revert s e Hv Hc Hw. induction us as [|[l p] us IH]; intros s e Hv Hc Hw.
  - cbn in *. subst e. destruct (decide (k = [])) as [->|Hk]; [exists s; split_and!; by try right|]. destruct (decide (stack s = [])) as [E|E]; [|exists s; split_and!; by try left].
    destruct (backtrack_below s k Hc E Hk) as (s' & Hb & Hc' & Hne & E1 & E2). exists s'. split_and!; [done|by eapply vars_frame|done|by left].
  - apply Forall_cons in Hu as [Hl Hu]. cbn in Hl. assert (∃ s1, backtrack s = backtrack s1 ∧ vars s1 e ∧ chain s1 (undos ((l, p) :: us) ++ k) ∧ stack s1 ≠ []) as (s1 & Hb1 & Hv1 & Hc1 & Hne1).
    { destruct (decide (stack s = [])) as [E|E]; [|by exists s]. destruct (backtrack_below s _ Hc E) as (s' & Hb & Hc' & Hne & E1 & E2); [done|]. exists s'. split_and!; try done. by eapply vars_frame. }
    destruct (backtrack_undo s1 l (enc p) (undos us ++ k) Hc1 Hne1) as (s2 & Hb2 & Hc2 & E1 & E2); [by rewrite (va_loc _ _ Hv1 l Hl)|].
    destruct (put_frame l (enc p) s2) as (_ & _ & F1 & F2 & F3).
    destruct (IH Hu (put_loc l (enc p) s2) (match p with Some p => <[l := p]> e | None => delete l e end)) as (s' & Hb' & Hrest).
    + apply vars_put; [by eapply vars_frame|done].
    + by eapply points_frame.
    + done.
    + exists s'. by rewrite Hb1, Hb2, Hb'.
Qed.

Lemma backtrack_resume s env p t k : undone s env (Pos p t :: k) → ∃ s', backtrack s = inr (s', true) ∧ pc s' = p ∧ txt s' = t ∧ vars s' env ∧ chain s' k.
Proof.
  intros H. destruct (backtrack_undone _ _ _ H) as (s' & -> & Hv & [C1 C2 C3 C4] & [Hne|?]); [|done]. destruct (stack s') as [|x rest] eqn:E; [done|]. injection C3 as -> C3.
  unfold backtrack, mbnd, mget. rewrite E. cbn. eexists. split_and!; try reflexivity; [by apply (vars_frame s')|]. split; cbn; [done|cbn in C2; lia|done..].
Qed.

Lemma backtrack_fail s env : undone s env [] → ∃ s', backtrack s = inr (s', false) ∧ vars s' env ∧ blocks s' = B.
Proof.
  intros H. destruct (backtrack_undone _ _ _ H) as (s' & -> & Hv & [C1 C2 C3 C4] & _). apply app_eq_nil in C3 as [E1 E2].
  assert (previous s' = []) as Ep. { destruct (previous s') as [|b bs] eqn:E; [done|]. apply Forall_cons in C1 as [Hb _]. cbn in E2. apply app_eq_nil in E2 as [-> _]. by unfold BLOCK in Hb. }
  exists s'. unfold backtrack, mbnd, mget. rewrite E1, Ep. split_and!; [done..|]. rewrite C4, Ep. cbn. lia.
Qed.

(** *** One instruction *)

(** The machine [s] after an instruction with the outcome [o], from variables
    [env] and stack [k]. *)
Definition ran (env : gmap loc nat) (p0 : nat) (k : list backtrack_point) (o : outcome) (r : str_stop + matcher * label) : Prop :=
  match o with
  | Go c => ∃ s, rep s c k ∧ (r = inr (s, Continue) ∧ c_env c = env ∨
      ∃ l, valid l ∧ r = inr (s, Push (Undo l (enc (env !! l)))) ∧ c_env c = <[l := p0]> env)
  | Fork c c' => ∃ s, rep s c k ∧ r = inr (s, Push (Pos (c_pc c') (starttxt + Z.of_nat (c_pos c')))) ∧ c_env c = env ∧ c_env c' = env
  | Fail => ∃ s, vars s env ∧ chain s k ∧ r = inr (s, Backtrack)
  | Short p => ∃ s, vars s env ∧ chain s k ∧ txt s = starttxt + Z.of_nat p ∧ r = inr (s, Prefix_match)
  | Done => ∃ s, vars s env ∧ chain s k ∧ txt s = starttxt + Z.of_nat p0 ∧ r = inr (s, Accept)
  end.

(** The state at an instruction: the program counter is already that of the
    next one. *)
Context (s : matcher) (q : Z) (p : nat) (env : gmap loc nat) (k : list backtrack_point).
Context (Hp : (p <= length str)%nat) (Henv : ∀ l x, env !! l = Some x → (x <= length str)%nat) (Hs : rep s (Config (q + 1) p env) k).
Let next : Z := q + 1.

Lemma rep_at x : rep (at_pos x s) (Config next x env) k.
Proof. destruct Hs as [R1 R2 R3 R4]. split; [done|done|by apply (vars_frame s)|by apply (points_frame s)]. Qed.

Lemma rep_here : txt s = starttxt + Z.of_nat p.
Proof. apply (rp_txt _ _ _ Hs). Qed.

Lemma ran_fail : ran env p k Fail (inr (s, Backtrack)).
Proof. exists s. split_and!; [apply Hs|apply Hs|done]. Qed.
Lemma ran_short : ran env p k (Short p) (inr (s, Prefix_match)).
Proof. exists s. split_and!; [apply Hs|apply Hs|apply Hs|done]. Qed.
Lemma ran_guard b : ran env p k (guard next env p b) (inr (s, if b then Continue else Backtrack)).
Proof. destruct b; [|apply ran_fail]. exists s. split; [done|by left]. Qed.

Lemma ran_at o x lab : label_of o lab → pos_of o x → (∀ c, o = Go c → c_pc c = next ∧ c_env c = env) → ran env p k o (inr (at_pos x s, lab)).
Proof.
  intros Hl Hx Hc. pose proof (rep_at x) as Hr. destruct o as [c| | |y|]; cbn in *; try done; subst.
  - destruct (Hc c eq_refl) as [E1 E2]. exists (at_pos (c_pos c) s). split; [|by left]. destruct c. cbn in *. by subst.
  - exists (at_pos x s). split_and!; [apply Hr|apply Hr|done].
  - exists (at_pos y s). split_and!; [apply Hr..|done].
Qed.

Lemma literal_go f l c : literal str next env f l p = Go c → c_pc c = next ∧ c_env c = env.
Proof. unfold literal. intros H. repeat case_decide; by simplify_eq. Qed.

Lemma one_char_eq test b : (∀ c, str !! p = Some c → test (starttxt + Z.of_nat p) s = inr (s, b c)) →
  ran env p k (char_if str next env b p) (one_char str starttxt test s).
Proof.
  intros H. unfold one_char, mbnd, mget. rewrite rep_here, end_test by done. unfold char_if. destruct (str !! p) as [c|] eqn:E; [|apply ran_short].
  rewrite (H c eq_refl). destruct (b c); [|apply ran_fail]. cbn. pose proof (ran_at (Go (Config next (S p) env)) (S p) Continue eq_refl eq_refl) as Hr. unfold at_pos in Hr.
  replace (starttxt + Z.of_nat (S p)) with (txt s + 1) in Hr by (rewrite rep_here; lia). apply Hr. by intros c' [= <-].
Qed.

Lemma assign_eq l : valid l → ran env p k (Go (Config next p (<[l := p]> env))) (assign l s).
Proof.
  intros Hl. pose proof (va_loc _ _ (rp_vars _ _ _ Hs) l Hl) as E. unfold assign. rewrite (mbnd_eq _ _ _ _ _ (get_loc_eq l s _ E)). unfold mbnd, mget. rewrite set_loc_eq by by rewrite E.
  exists (put_loc l (txt s) s). destruct (put_frame l (txt s) s) as (F1 & F2 & F3 & F4 & F5). split.
  - split; cbn; [rewrite F1; apply Hs|rewrite F2; apply Hs| |by apply (points_frame s); try apply Hs].
    rewrite rep_here. apply (vars_put s env l (Some p)); [apply Hs|done].
  - right. exists l. done.
Qed.

Lemma ref_eq g : (1 <= g)%nat ∧ Z.of_nat g < Numgroups re →
  ran env p k (match env !! Group_start g, env !! Group_end g with Some b, Some e => literal str next env (λ c, c) (take (e - b) (drop b str)) p | _, _ => Fail end)
    ((let* b := get_loc (Group_start g) in let* e := get_loc (Group_end g) in if (b =? 0) || (e =? 0) then mreturn Backtrack else match_group str starttxt (Z.to_nat (e - b)) b) s).
Proof.
  intros Hg. pose proof (va_loc _ _ (rp_vars _ _ _ Hs)) as V. unfold mbnd. rewrite (get_loc_eq _ s _ (V (Group_start g) Hg)), (get_loc_eq _ s _ (V (Group_end g) Hg)).
  pose proof (wf_start Hwf). cbn [c_env]. destruct (env !! Group_start g) as [b|] eqn:Eb; cbn [enc]; [|apply ran_fail]. rewrite (proj2 (Z.eqb_neq _ 0)) by lia.
  destruct (env !! Group_end g) as [e|] eqn:Ee; cbn [enc]; [|apply ran_fail]. rewrite (proj2 (Z.eqb_neq _ 0)) by lia. cbn [orb].
  pose proof (Henv _ _ Eb). pose proof (Henv _ _ Ee). replace (Z.to_nat (starttxt + Z.of_nat e - (starttxt + Z.of_nat b))) with (e - b)%nat by lia.
  destruct (match_group_eq next env (e - b) b p s ltac:(lia) Hp rep_here) as (x & lab & -> & Hl & Hx). apply ran_at; [done..|]. intros c. apply literal_go.
Qed.

Lemma chars_eq read f l : (∀ p c s, str !! p = Some c → read (starttxt + Z.of_nat p) s = inr (s, f c)) →
  ran env p k (literal str next env f (c_string l) p) (match_chars str starttxt read l s).
Proof.
  intros Hr. destruct (match_chars_eq read f next env Hr l p s Hp rep_here) as (x & lab & -> & Hl & Hx). apply ran_at; [done..|]. intros c. apply literal_go.
Qed.

Lemma skip_eq set n : length set = 32%nat →
  ran env p k (Go (Config next (p + Nat.min n (run_length (in_set set) (drop p str))) env)) ((skip_class str starttxt n set ;;; mreturn Continue) s).
Proof.
  intros Hset. rewrite (mbnd_eq _ _ _ _ _ (skip_class_eq set Hset n p s Hp rep_here)). apply ran_at; [done..|]. by intros c [= <-].
Qed.

Lemma star_length set : Nat.min (Z.to_nat (endtxt str starttxt - txt s)) (run_length (in_set set) (drop p str)) = run_length (in_set set) (drop p str).
Proof. pose proof (run_length_le (in_set set) (drop p str)) as H. rewrite length_drop in H. rewrite rep_here. unfold endtxt. lia. Qed.

Lemma plus_eq set : length set = 32%nat →
  ran env p k (match str !! p with None => Short p | Some c => if in_set set c then Go (Config next (p + run_length (in_set set) (drop p str)) env) else Fail end)
   ((if txt s =? endtxt str starttxt then mreturn Prefix_match else
     let* c := text str starttxt (txt s) in let* b := In_bitset set c in
     if b then advance ;;; skip_class str starttxt (Z.to_nat (endtxt str starttxt - (txt s + 1))) set ;;; mreturn Continue else mreturn Backtrack) s).
Proof.
  intros Hset. rewrite rep_here, end_test by done. destruct (str !! p) as [c|] eqn:E; [|apply ran_short]. unfold mbnd. rewrite (text_eq p c s E), (In_bitset_eq set c s Hset (text_byte p c E)).
  destruct (in_set set c) eqn:Ec; [|apply ran_fail]. cbn. pose proof (lookup_lt_Some _ _ _ E). rewrite (skip_class_eq set Hset _ (S p)); [|lia|cbn; rewrite rep_here; lia].
  rewrite (drop_S _ _ _ E). cbn [run_length]. rewrite Ec. pose proof (run_length_le (in_set set) (drop (S p) str)) as Hle. rewrite length_drop in Hle.
  rewrite Nat.min_r by (unfold endtxt; lia). replace (S p + run_length (in_set set) (drop (S p) str))%nat with (p + S (run_length (in_set set) (drop (S p) str)))%nat by lia.
  apply (ran_at (Go (Config next _ env)) _ Continue); [done..|]. by intros c' [= <-].
Qed.

Lemma pool_eq i l : Cpool re !! Z.to_nat i = Some l → pool re i s = inr (s, l).
Proof. intros H. unfold pool, of_option. by rewrite H. Qed.

Lemma before_eq : (starttxt <? txt s) = match before str p with Some _ => true | None => false end.
Proof.
  rewrite rep_here. destruct p as [|p'] eqn:E; cbn [before]; [apply Z.ltb_ge; lia|]. destruct (lookup_lt_is_Some_2 str p') as [c ->]; [lia|]. apply Z.ltb_lt. lia.
Qed.

Lemma before_zero : before str p = None → p = O.
Proof. destruct p; [done|]. cbn. intros H%lookup_ge_None_1. lia. Qed.

Lemma text_before c : before str p = Some c → text str starttxt (txt s - 1) s = inr (s, c) ∧ byte c.
Proof.
  intros H. rewrite rep_here. destruct p as [|p'] eqn:E; [done|]. cbn in H. replace (starttxt + Z.of_nat (S p') - 1) with (starttxt + Z.of_nat p') by lia. split; [by apply text_eq|by eapply text_byte].
Qed.

Lemma newline_label c : (if c =? 10 then Continue else Backtrack) = (if newline c then Continue else Backtrack).
Proof. done. Qed.

Lemma bol_eq : ran env p k (guard next env p (match before str p with None => true | Some c => newline c end))
  ((if starttxt <? txt s then let* c := text str starttxt (txt s - 1) in mreturn (if c =? 10 then Continue else Backtrack) else mreturn Continue) s).
Proof.
  rewrite before_eq. destruct (before str p) as [c|] eqn:E; [|apply (ran_guard true)]. destruct (text_before c E) as [Et _]. rewrite (mbnd_eq _ _ _ _ _ Et). apply ran_guard.
Qed.

Lemma eol_eq : ran env p k (guard next env p (match str !! p with None => true | Some c => newline c end))
  ((if txt s <? endtxt str starttxt then let* c := text str starttxt (txt s) in mreturn (if c =? 10 then Continue else Backtrack) else mreturn Continue) s).
Proof.
  rewrite rep_here, end_less by done. destruct (str !! p) as [c|] eqn:E; [|apply (ran_guard true)]. rewrite (mbnd_eq _ _ _ _ _ (text_eq p c s E)). apply ran_guard.
Qed.

Lemma boundary_eq :
  ran env p k (match before str p, str !! p with
               | None, None => Short p
               | None, Some c | Some c, None => guard next env p (letter c)
               | Some c, Some d => guard next env p (xorb (letter c) (letter d)) end)
  ((if txt s =? starttxt then
      if txt s =? endtxt str starttxt then mreturn Prefix_match else
      let* c := text str starttxt (txt s) in let* w := Is_word_letter c in mreturn (if w =? 0 then Backtrack else Continue)
    else if txt s =? endtxt str starttxt then
      let* c := text str starttxt (txt s - 1) in let* w := Is_word_letter c in mreturn (if w =? 0 then Backtrack else Continue)
    else
      let* c := text str starttxt (txt s - 1) in let* w := Is_word_letter c in
      let* c' := text str starttxt (txt s) in let* w' := Is_word_letter c' in mreturn (if w =? w' then Backtrack else Continue)) s).
Proof.
  assert ((txt s =? starttxt) = match before str p with None => true | Some _ => false end) as ->.
  { pose proof before_eq as H. destruct (before str p) eqn:E; [apply Z.eqb_neq; apply Z.ltb_lt in H; lia|]. apply before_zero in E. apply Z.eqb_eq. rewrite rep_here. lia. }
  assert ((txt s =? endtxt str starttxt) = match str !! p with None => true | Some _ => false end) as -> by (rewrite rep_here; by apply end_test).
  destruct (before str p) as [c|] eqn:Eb.
  - destruct (text_before c Eb) as [Et Hc]. destruct (str !! p) as [d|] eqn:Ed; unfold mbnd; rewrite Et, (word_letter_eq c s Hc).
    + rewrite rep_here, (text_eq p d s Ed), (word_letter_eq d s (text_byte p d Ed)). destruct (letter c), (letter d); first [apply (ran_guard true)|apply (ran_guard false)].
    + destruct (letter c); first [apply (ran_guard true)|apply (ran_guard false)].
  - destruct (str !! p) as [d|] eqn:Ed; [|apply ran_short]. unfold mbnd. rewrite rep_here, (text_eq p d s Ed), (word_letter_eq d s (text_byte p d Ed)).
    destruct (letter d); first [apply (ran_guard true)|apply (ran_guard false)].
Qed.

Lemma check_eq r : Z.of_nat r < Numregisters re → ran env p k (guard next env p (negb (bool_decide (env !! Register r = Some p))))
  ((let* v := get_loc (Register r) in mreturn (if v =? txt s then Backtrack else Continue)) s).
Proof.
  intros Hr. pose proof (va_loc _ _ (rp_vars _ _ _ Hs) (Register r) Hr) as V. rewrite (mbnd_eq _ _ _ _ _ (get_loc_eq _ s _ V)). cbn [c_env].
  assert ((enc (env !! Register r) =? txt s) = bool_decide (env !! Register r = Some p)) as ->.
  { rewrite rep_here. pose proof (wf_start Hwf) as Hst. destruct (env !! Register r) as [x|]; cbn [enc]; case_bool_decide as H; [apply Z.eqb_eq; simplify_eq; lia| |done|apply Z.eqb_neq; lia].
    apply Z.eqb_neq. intros E. apply H. f_equal. lia. }
  pose proof (ran_guard (negb (bool_decide (env !! Register r = Some p)))) as Hg. by destruct (bool_decide _).
Qed.

Lemma instr_eq i ins : decode re q i = Some ins → instr_at re q = Some ins → ran env p k (succ re str (Config q p env)) (re_instr re str starttxt i s).
Proof.
  intros Hd Hi. unfold succ. rewrite Hi. clear Hi. fold next. unfold re_instr. cbv zeta. unfold decode in Hd. unfold mbnd at 1, mget at 1.
  destruct (Opcode i =? CHAR).
  { injection Hd as <-. apply one_char_eq. intros c E. by rewrite (mbnd_eq _ _ _ _ _ (text_eq p c s E)). }
  destruct (Opcode i =? CHARNORM).
  { destruct (normalized re) as [[]|] eqn:En; [|done]. injection Hd as <-. apply one_char_eq. intros c E. by rewrite (mbnd_eq _ _ _ _ _ (norm_eq p c s En E)). }
  destruct (Opcode i =? STRING).
  { destruct (Cpool re !! Z.to_nat (Arg i)) as [l|] eqn:El; [|done]. injection Hd as <-. rewrite (mbnd_eq _ _ _ _ _ (pool_eq _ _ El)). apply chars_eq. intros. by apply text_eq. }
  destruct (Opcode i =? STRINGNORM).
  { destruct (normalized re) as [[]|] eqn:En; [|done]. destruct (Cpool re !! Z.to_nat (Arg i)) as [l|] eqn:El; [|done]. injection Hd as <-.
    rewrite (mbnd_eq _ _ _ _ _ (pool_eq _ _ El)). apply chars_eq. intros. by apply norm_eq. }
  destruct (Opcode i =? CHARCLASS).
  { destruct (arg_set re i) as [set|] eqn:Ea; [|done]. injection Hd as <-. destruct (arg_set_eq _ _ Ea) as [Ep Hl]. apply one_char_eq. intros c E.
    rewrite (mbnd_eq _ _ _ _ _ (pool_eq _ _ Ep)), (mbnd_eq _ _ _ _ _ (text_eq p c s E)). apply In_bitset_eq; [done|by eapply text_byte]. }
  destruct (Opcode i =? BOL); [injection Hd as <-; apply bol_eq|].
  destruct (Opcode i =? EOL); [injection Hd as <-; apply eol_eq|].
  destruct (Opcode i =? WORDBOUNDARY); [injection Hd as <-; apply boundary_eq|].
  destruct (Opcode i =? BEGGROUP).
  { destruct (arg_group re i) as [g|] eqn:Eg; [|done]. injection Hd as <-. destruct (arg_group_eq _ _ Eg) as [-> Hg]. by apply assign_eq. }
  destruct (Opcode i =? ENDGROUP).
  { destruct (arg_group re i) as [g|] eqn:Eg; [|done]. injection Hd as <-. destruct (arg_group_eq _ _ Eg) as [-> Hg]. by apply assign_eq. }
  destruct (Opcode i =? REFGROUP).
  { destruct (arg_group re i) as [g|] eqn:Eg; [|done]. injection Hd as <-. destruct (arg_group_eq _ _ Eg) as [-> Hg]. by apply ref_eq. }
  destruct (Opcode i =? ACCEPT).
  { injection Hd as <-. exists s. split_and!; [apply Hs..|done]. }
  destruct (Opcode i =? SIMPLEOPT).
  { destruct (arg_set re i) as [set|] eqn:Ea; [|done]. injection Hd as <-. destruct (arg_set_eq _ _ Ea) as [Ep Hl]. rewrite (mbnd_eq _ _ _ _ _ (pool_eq _ _ Ep)). by apply skip_eq. }
  destruct (Opcode i =? SIMPLESTAR).
  { destruct (arg_set re i) as [set|] eqn:Ea; [|done]. injection Hd as <-. destruct (arg_set_eq _ _ Ea) as [Ep Hl]. rewrite (mbnd_eq _ _ _ _ _ (pool_eq _ _ Ep)). rewrite <- (star_length set) at 1. by apply skip_eq. }
  destruct (Opcode i =? SIMPLEPLUS).
  { destruct (arg_set re i) as [set|] eqn:Ea; [|done]. injection Hd as <-. destruct (arg_set_eq _ _ Ea) as [Ep Hl]. rewrite (mbnd_eq _ _ _ _ _ (pool_eq _ _ Ep)). by apply plus_eq. }
  destruct (Opcode i =? GOTO).
  { injection Hd as <-. eexists. split; [|left; split; [reflexivity|done]]. destruct Hs as [R1 R2 R3 R4]. cbn in *. split; cbn; [lia|done|by apply (vars_frame s)|by apply (points_frame s)]. }
  destruct (Opcode i =? PUSHBACK).
  { injection Hd as <-. exists s. destruct Hs as [R1 R2 R3 R4]. cbn in *. split_and!; [done| |done..]. rewrite R1, R2. done. }
  destruct (Opcode i =? SETMARK).
  { destruct (arg_register re i) as [r|] eqn:Er; [|done]. injection Hd as <-. destruct (arg_register_eq _ _ Er) as [-> Hr]. by apply assign_eq. }
  destruct (Opcode i =? CHECKPROGRESS); [|done].
  destruct (arg_register re i) as [r|] eqn:Er; [|done]. injection Hd as <-. destruct (arg_register_eq _ _ Er) as [-> Hr]. by apply check_eq.
Qed.
End Instructions.

(** ** The matcher *)

Section Loop.
Context (malloc_ok : Z → bool) (re : regexp) (str : list Z) (starttxt : Z) (T B : Z) (partial : bool) (Hwf : wf re str starttxt).

Notation rep := (rep re starttxt T B).
Notation vars := (vars re starttxt T).
Notation chain := (chain B).
Notation undone := (undone re starttxt T B).
Notation config_ok := (config_ok re str).
Notation loop := (re_loop malloc_ok re str starttxt partial).

(** *** Configurations stay in bounds *)

Lemma literal_pos pc env f l p c : literal str pc env f l p = Go c → (p <= length str)%nat → c = Config pc (p + length l) env ∧ (p + length l <= length str)%nat.
Proof.
  unfold literal. intros H Hp. case_decide as Hd; [|by case_decide]. injection H as <-. split; [done|]. apply prefix_length in Hd. rewrite length_fmap, length_drop in Hd. lia.
Qed.

Lemma run_bound test p : (p <= length str)%nat → (p + run_length test (drop p str) <= length str)%nat.
Proof. intros Hp. pose proof (run_length_le test (drop p str)) as H. rewrite length_drop in H. lia. Qed.

Lemma succ_ok c : config_ok c → match succ re str c with Go c' => config_ok c' | Fork c1 c2 => config_ok c1 ∧ config_ok c2 | Short p => (p <= length str)%nat | _ => True end.
Proof.
  destruct c as [q p env]. intros [O1 O2 O3]. cbn in *. destruct (wf_code _ _ _ Hwf q O1) as (i & Ei & Ht). rewrite Ei.
  assert (∀ x, (x <= length str)%nat → in_code re (q + 1) → config_ok (Config (q + 1) x env)) as Hgo by (by intros x Hx Hc).
  assert (∀ b, in_code re (q + 1) → match guard (q + 1) env p b with Go c' => config_ok c' | Fork c1 c2 => config_ok c1 ∧ config_ok c2 | Short p => (p <= length str)%nat | _ => True end) as Hguard by (intros [] ?; [by apply Hgo|done]).
  assert (∀ t, in_code re (q + 1) → match char_if str (q + 1) env t p with Go c' => config_ok c' | Fork c1 c2 => config_ok c1 ∧ config_ok c2 | Short p => (p <= length str)%nat | _ => True end) as Hchar.
  { intros t Hc. unfold char_if. destruct (str !! p) as [c|] eqn:E; [|done]. apply lookup_lt_Some in E. destruct (t c); [apply Hgo; [lia|done]|done]. }
  assert (∀ f l, in_code re (q + 1) → match literal str (q + 1) env f l p with Go c' => config_ok c' | Fork c1 c2 => config_ok c1 ∧ config_ok c2 | Short p => (p <= length str)%nat | _ => True end) as Hlit.
  { intros f l Hc. destruct (literal _ _ _ _ _ _) as [c| | |x|] eqn:E; [| |done| |done].
    - destruct (literal_pos _ _ _ _ _ _ E O2) as [-> Hx]. by apply Hgo.
    - unfold literal in E. by repeat case_decide.
    - unfold literal in E. repeat case_decide; simplify_eq. done. }
  destruct i; try (by apply Hchar); try (by apply Hlit); try (by apply Hguard); try done.
  - destruct (before str p), (str !! p); try (by apply Hguard). done.
  - split; cbn; [done|done|]. intros l' x [[<- <-]|[_ Hx]]%lookup_insert_Some; [done|by eapply O3].
  - destruct (env !! Group_start g), (env !! Group_end g); try done. by apply Hlit.
  - apply Hgo; [|done]. pose proof (run_bound (in_set set) p O2). destruct (run_length (in_set set) (drop p str)); lia.
  - apply Hgo; [|done]. by apply run_bound.
  - destruct (str !! p) as [c|] eqn:E; [|done]. destruct (in_set set c); [|done]. apply Hgo; [by apply run_bound|done].
  - destruct Ht as [H1 H2]. split; [by apply Hgo|done].
Qed.

(** *** One turn of the loop *)

Definition resume (fuel : nat) (s : matcher) : str_stop + matcher * bool := (let* more := backtrack in if more then loop fuel else mreturn false) s.
Definition goes (N : nat) (s : matcher) (f : nat → str_stop + matcher * bool) : Prop := ∃ n, (n <= N)%nat ∧ ∀ fuel, loop (n + fuel) s = f fuel.

Lemma goes_one s N f : (∀ fuel, loop (S fuel) s = f fuel) → (1 <= N)%nat → goes N s f.
Proof. intros H. by exists 1%nat. Qed.

Lemma goes_step N s s' f : (∀ fuel, loop (S fuel) s = loop fuel s') → goes N s' f → goes (S N) s f.
Proof. intros H (n & Hle & Hn). exists (S n). split; [lia|]. intros fuel. cbn [Nat.add]. by rewrite H. Qed.

Lemma goes_on N M s s' s2 f : goes N s (λ fuel, resume fuel s') → (∀ fuel, resume fuel s' = loop fuel s2) → goes M s2 f → goes (N + M) s f.
Proof. intros (n & Hle & Hn) H (m & Hle' & Hm). exists (n + m)%nat. split; [lia|]. intros fuel. rewrite <- Nat.add_assoc, Hn, H. apply Hm. Qed.

Lemma goes_more N M s f : goes N s f → (N <= M)%nat → goes M s f.
Proof. intros (n & Hle & Hn) H. exists n. split; [lia|done]. Qed.

Definition turn (c : config) (s : matcher) (k : list backtrack_point) : Prop :=
  match succ re str c with
  | Go c' => (∀ fuel, loop (S fuel) s = inl Out_of_memory) ∨ ∃ s' k', (∀ fuel, loop (S fuel) s = loop fuel s') ∧ rep s' c' k' ∧
      (k' = k ∧ c_env c' = c_env c ∨ ∃ l, valid re l ∧ k' = Undo l (enc starttxt (c_env c !! l)) :: k ∧ c_env c' = <[l := c_pos c]> (c_env c))
  | Fork c1 c2 => (∀ fuel, loop (S fuel) s = inl Out_of_memory) ∨ ∃ s', (∀ fuel, loop (S fuel) s = loop fuel s') ∧
      rep s' c1 (Pos (c_pc c2) (starttxt + Z.of_nat (c_pos c2)) :: k) ∧ c_env c1 = c_env c ∧ c_env c2 = c_env c
  | Fail => ∃ s', vars s' (c_env c) ∧ chain s' k ∧ ∀ fuel, loop (S fuel) s = resume fuel s'
  | Short p => ∃ s', vars s' (c_env c) ∧ chain s' k ∧ txt s' = starttxt + Z.of_nat p ∧ ∀ fuel, loop (S fuel) s = if partial then re_accept s' else resume fuel s'
  | Done => ∃ s', vars s' (c_env c) ∧ chain s' k ∧ txt s' = starttxt + Z.of_nat (c_pos c) ∧ ∀ fuel, loop (S fuel) s = re_accept s'
  end.

Lemma fetch_eq c s k : config_ok c → rep s c k → ∃ i ins, re_fetch re s = inr (set_pc (c_pc c + 1) s, i) ∧ decode re (c_pc c) i = Some ins ∧ instr_at re (c_pc c) = Some ins.
Proof.
  intros [O1 _ _] [R1 _ _ _]. destruct (wf_code _ _ _ Hwf _ O1) as (ins & Ei & _). unfold instr_at in Ei. unfold in_code in O1. pose proof Ei as Ei'. rewrite (proj2 (Z.leb_le _ _)) in Ei by lia.
  destruct (Prog re !! Z.to_nat (c_pc c)) as [v|] eqn:Ev; [|done]. exists (Long_val v), ins. split_and!; [|exact Ei|unfold instr_at; by rewrite Ev].
  unfold re_fetch, mbnd, mget. rewrite R1, (proj2 (Z.leb_le _ _)) by lia. unfold of_option. by rewrite Ev.
Qed.

Lemma turn_ok c s k : config_ok c → rep s c k → turn c s k.
Proof.
  intros Hc Hr. destruct (fetch_eq c s k Hc Hr) as (i & ins & Ef & Ed & Ei). destruct c as [q p env]. cbn [c_pc c_pos c_env] in *. destruct Hc as [O1 O2 O3]. cbn [c_pc c_pos c_env] in O1, O2, O3.
  set (s1 := set_pc (q + 1) s) in *. assert (rep s1 (Config (q + 1) p env) k) as Hr1.
  { destruct Hr as [R1 R2 R3 R4]. split; [done|done|by apply (vars_frame _ _ _ s)|by apply (points_frame _ s)]. }
  pose proof (instr_eq re str starttxt T B Hwf s1 q p env k O2 O3 Hr1 i ins Ed Ei) as H. unfold turn. cbn [c_env c_pos].
  assert (∀ fuel, loop (S fuel) s = match re_instr re str starttxt i s1 with inl e => inl e | inr (s2, l) =>
    match l with
    | Continue => loop fuel s2 | Push back => (re_push malloc_ok back ;;; loop fuel) s2 | Prefix_match => if partial then re_accept s2 else resume fuel s2
    | Backtrack => resume fuel s2 | Accept => re_accept s2 end end) as Hl.
  { intros fuel. cbn [re_loop]. rewrite (mbnd_eq _ _ _ _ _ Ef). unfold mbnd at 1. destruct (re_instr _ _ _ _ _) as [|[s2 []]]; try reflexivity. unfold resume. by case partial. }
  destruct (succ re str (Config q p env)) as [c'|c1 c2| |x|]; cbn [ran] in H.
  - destruct H as (s2 & Hr2 & [[E Ee]|(l & Hv & E & Ee)]).
    + right. exists s2, k. split_and!; [intros fuel; by rewrite Hl, E|done|by left].
    + destruct (push_eq malloc_ok B s2 k (Undo l (enc starttxt (env !! l))) (rp_chain _ _ _ _ _ _ _ Hr2)) as [Eo|(s3 & E3 & Hc3 & F1 & F2 & F3 & F4)].
      * left. intros fuel. rewrite Hl, E. unfold mbnd. by rewrite Eo.
      * right. exists s3, (Undo l (enc starttxt (env !! l)) :: k). split_and!; [intros fuel; rewrite Hl, E; unfold mbnd; by rewrite E3| |right; by exists l].
        destruct Hr2 as [R1 R2 R3 R4]. split; [by rewrite F3|by rewrite F4|by apply (vars_frame _ _ _ s2)|done].
  - destruct H as (s2 & Hr2 & E & E1 & E2).
    destruct (push_eq malloc_ok B s2 k (Pos (c_pc c2) (starttxt + Z.of_nat (c_pos c2))) (rp_chain _ _ _ _ _ _ _ Hr2)) as [Eo|(s3 & E3 & Hc3 & F1 & F2 & F3 & F4)].
    + left. intros fuel. rewrite Hl, E. unfold mbnd. by rewrite Eo.
    + right. exists s3. split_and!; [intros fuel; rewrite Hl, E; unfold mbnd; by rewrite E3| |done|done].
      destruct Hr2 as [R1 R2 R3 R4]. split; [by rewrite F3|by rewrite F4|by apply (vars_frame _ _ _ s2)|done].
  - destruct H as (s2 & V & C & E). exists s2. split_and!; [done..|]. intros fuel. by rewrite Hl, E.
  - destruct H as (s2 & V & C & Et & E). exists s2. split_and!; [done..|]. intros fuel. by rewrite Hl, E.
  - destruct H as (s2 & V & C & Et & E). exists s2. split_and!; [done..|]. intros fuel. by rewrite Hl, E.
Qed.

(** *** Acceptance *)

(** The variables after a match that ended in the configuration [d]; all the
    blocks of the stack are freed. *)
Definition finished (d : config) (s : matcher) : Prop :=
  vars s (c_env d) ∧ lookup_loc s (Group_end 0) = Some (starttxt + Z.of_nat (c_pos d)) ∧ blocks s = B.

Lemma free_eq bs s : free_backtrack_stack bs s = inr (set_blocks (blocks s - Z.of_nat (length bs)) s, tt).
Proof.
  revert s. induction bs as [|b bs IH]; intros s; cbn [free_backtrack_stack length]; [rewrite Z.sub_0_r; by destruct s|].
  unfold mbnd, stat_free, mmodify. rewrite IH. unfold set_blocks. cbn [blocks re_group re_register pc txt stack previous]. by replace (blocks s - 1 - Z.of_nat (length bs)) with (blocks s - Z.of_nat (S (length bs))) by lia.
Qed.

Lemma accept_eq s k d : vars s (c_env d) → chain s k → txt s = starttxt + Z.of_nat (c_pos d) → ∃ s', re_accept s = inr (s', true) ∧ finished d s'.
Proof.
  intros V C Et. set (s1 := set_blocks (blocks s - Z.of_nat (length (previous s))) s). assert (vars s1 (c_env d)) as V1 by by apply (vars_frame _ _ _ s).
  assert (is_Some (lookup_loc s1 (Group_end 0))) as He.
  { destruct V as [[V _] _ _]. cbn. destruct (lookup_lt_is_Some_2 (re_group s) 0%nat) as [g ->]; [rewrite V; unfold NUM_GROUPS; lia|done]. }
  exists (put_loc (Group_end 0) (txt s) s1). split.
  - unfold re_accept, mbnd, mget. rewrite free_eq. fold s1. by rewrite set_loc_eq.
  - split_and!.
    + destruct V1 as [[L1 L2] V2 V3]. split; [cbn; by rewrite length_alter|by rewrite lookup_put_ne|]. intros l Hl. rewrite lookup_put_ne; [by apply V3|]. intros <-. cbn in Hl. lia.
    + by rewrite lookup_put_eq, Et.
    + cbn. rewrite (ch_blocks _ _ _ C). lia.
Qed.

(** *** The search for the first match *)

Lemma undone_more s env k l p : undone s (<[l := p]> env) (Undo l (enc starttxt (env !! l)) :: k) → valid re l → undone s env k.
Proof.
  intros (us & e & V & C & Hu & Hw) Hl. exists (us ++ [(l, env !! l)]), e. split_and!; [done| | |].
  - unfold undos in *. rewrite fmap_app, <- app_assoc. done.
  - apply Forall_app. by split; [|apply Forall_singleton].
  - assert (∀ us e, unwind (us ++ [(l, env !! l)]) e = unwind [(l, env !! l)] (unwind us e)) as -> by (clear; induction us as [|[l' p'] us IH]; intros e; [done|apply IH]).
    rewrite Hw. cbn. destruct (env !! l) as [x|] eqn:E; [by rewrite insert_insert_eq, insert_id|by rewrite delete_insert_id].
Qed.

(** What the loop does from [s], in at most [N] turns. *)
Definition finds (N : nat) (c : config) (r : option config) (s : matcher) (k : list backtrack_point) : Prop :=
  goes N s (λ _, inl Out_of_memory) ∨
  match r with
  | Some d => ∃ s', goes N s (λ _, inr (s', true)) ∧ finished d s'
  | None => ∃ s', goes N s (λ fuel, resume fuel s') ∧ undone s' (c_env c) k
  end.

Section Step.
Context (c : config) (s : matcher) (k : list backtrack_point) (Hc : config_ok c) (Hr : rep s c k).

Lemma finds_done : succ re str c = Done → finds 1 c (Some c) s k.
Proof.
  intros H. pose proof (turn_ok c s k Hc Hr) as Ht. unfold turn in Ht. rewrite H in Ht. right. destruct Ht as (s1 & V & C & Et & El).
  destruct (accept_eq s1 k c V C Et) as (s' & Ea & Hf). exists s'. split; [|done]. apply goes_one; [|done]. intros fuel. by rewrite El.
Qed.

Lemma finds_fail : succ re str c = Fail → finds 1 c None s k.
Proof.
  intros H. pose proof (turn_ok c s k Hc Hr) as Ht. unfold turn in Ht. rewrite H in Ht. right. destruct Ht as (s1 & V & C & El). exists s1. split; [by apply goes_one|by apply undone_nil].
Qed.

Lemma finds_short p : succ re str c = Short p → finds 1 c (if partial then Some (Config (c_pc c) p (c_env c)) else None) s k.
Proof.
  intros H. pose proof (turn_ok c s k Hc Hr) as Ht. unfold turn in Ht. rewrite H in Ht. right. destruct Ht as (s1 & V & C & Et & El).
  assert (partial = true ∨ partial = false) as [Ep|Ep] by (case partial; auto); rewrite Ep.
  - destruct (accept_eq s1 k (Config (c_pc c) p (c_env c)) V C Et) as (s' & Ea & Hf). exists s'. split; [|done]. apply goes_one; [|done]. intros fuel. by rewrite El, Ep.
  - exists s1. split; [apply goes_one; [|done]; intros fuel; by rewrite El, Ep|by apply undone_nil].
Qed.

Lemma finds_go c' r N : succ re str c = Go c' → (∀ s k, rep s c' k → finds N c' r s k) → finds (S N) c r s k.
Proof.
  intros H IH. pose proof (turn_ok c s k Hc Hr) as Ht. unfold turn in Ht. rewrite H in Ht. destruct Ht as [Eo|(s1 & k' & El & Hr1 & Hk)]; [left; apply goes_one; [done|lia]|].
  destruct (IH s1 k' Hr1) as [Eo|Hres]; [left; by eapply goes_step|right]. destruct r as [d|]; destruct Hres as (s' & Hg & Hu); exists s'; (split; [by eapply goes_step|]); [done|].
  destruct Hk as [[-> <-]|(l & Hl & -> & Ee)]; [done|]. rewrite Ee in Hu. by eapply undone_more.
Qed.

Lemma finds_left c1 c2 d N : succ re str c = Fork c1 c2 → (∀ s k, rep s c1 k → finds N c1 (Some d) s k) → finds (S N) c (Some d) s k.
Proof.
  intros H IH. pose proof (turn_ok c s k Hc Hr) as Ht. unfold turn in Ht. rewrite H in Ht. destruct Ht as [Eo|(s1 & El & Hr1 & _)]; [left; apply goes_one; [done|lia]|].
  destruct (IH s1 _ Hr1) as [Eo|(s' & Hg & Hf)]; [left; by eapply goes_step|right]. exists s'. split; [by eapply goes_step|done].
Qed.

Lemma finds_right c1 c2 r N M : succ re str c = Fork c1 c2 → (∀ s k, rep s c1 k → finds N c1 None s k) → (∀ s k, rep s c2 k → finds M c2 r s k) → finds (S N + M) c r s k.
Proof.
  intros H IH1 IH2. pose proof (turn_ok c s k Hc Hr) as Ht. unfold turn in Ht. rewrite H in Ht. destruct Ht as [Eo|(s1 & El & Hr1 & Ee1 & Ee2)]; [left; apply goes_one; [done|lia]|].
  destruct (IH1 s1 _ Hr1) as [Eo|(s2 & Hg & Hu)]; [left; eapply goes_more; [by eapply goes_step|lia]|].
  destruct (backtrack_resume _ _ _ _ _ _ _ _ _ Hu) as (s3 & Eb & Ep & Et & V & C). assert (rep s3 c2 k) as Hr3 by (split; [done|done|rewrite Ee2, <- Ee1; done|done]).
  assert (∀ f, goes M s3 f → goes (S N + M) s f) as Hgo. { intros f Hf. eapply goes_on; [by eapply goes_step| |done]. intros fuel. unfold resume. by rewrite (mbnd_eq _ _ _ _ _ Eb). }
  destruct (IH2 s3 k Hr3) as [Eo|Hres]; [left; by apply Hgo|right]. destruct r as [d|]; destruct Hres as (s' & Hg' & Hf); exists s'; (split; [by apply Hgo|]); [done|by rewrite <- Ee2].
Qed.
End Step.
End Loop.

Lemma first_match_run malloc_ok re str starttxt partial (Hwf : wf re str starttxt) c r : first_match re str partial c r → config_ok re str c →
  ∃ N, ∀ T B s k, rep re starttxt T B s c k → finds malloc_ok re str starttxt T B partial N c r s k.
Proof.
  induction 1 as [c H|c H|c p H|c c' r H _ IH|c c1 c2 d H _ IH|c c1 c2 r H H1 IH1 _ IH2]; intros Hc; pose proof (succ_ok re str starttxt Hwf c Hc) as Hok; rewrite H in Hok.
  - exists 1%nat. intros. by apply finds_done.
  - exists 1%nat. intros. by apply finds_fail.
  - exists 1%nat. intros. by apply finds_short.
  - destruct (IH Hok) as [N HN]. exists (S N). intros. eapply finds_go; eauto.
  - destruct (IH (proj1 Hok)) as [N HN]. exists (S N). intros. eapply finds_left; eauto.
  - destruct (IH1 (proj1 Hok)) as [N HN]. destruct (IH2 (proj2 Hok)) as [M HM]. exists (S N + M)%nat. intros. eapply finds_right; eauto.
Qed.


(** ** Termination *)

Section Termination.
Context (re : regexp) (str : list Z) (starttxt : Z) (partial : bool) (Hwf : wf re str starttxt).

(** A rank for the instructions: it decreases at each step that does not move
    in the text.  It may depend on the set [P] of the registers that do not
    hold the current position: [CHECKPROGRESS r] passes only when [r] is in it,
    and [SETMARK r] takes [r] out of it. *)
Definition lower (rank : Z → gset nat → nat) (p : Z) (i : instr) : Prop :=
  match i with
  | IChar _ _ | IClass _ | IPlus _ | IAccept => True
  | IString _ l => l ≠ [] ∨ ∀ P, (rank (p + 1)%Z P < rank p P)%nat
  | IAssign (Register r) => ∀ P, (rank (p + 1)%Z (P ∖ {[r]}) < rank p P)%nat
  | ICheck r => ∀ P, r ∈ P → (rank (p + 1)%Z P < rank p P)%nat
  | IGoto t => ∀ P, (rank t P < rank p P)%nat
  | IFork t => ∀ P, (rank (p + 1)%Z P < rank p P)%nat ∧ (rank t P < rank p P)%nat
  | _ => ∀ P, (rank (p + 1)%Z P < rank p P)%nat
  end.

Definition ranked (rank : Z → gset nat → nat) : Prop := ∀ p i, instr_at re p = Some i → lower rank p i.

Definition unmarked (c : config) : gset nat := filter (λ r, c_env c !! Register r ≠ Some (c_pos c)) (set_seq 0 (Z.to_nat (Numregisters re))).

Context (rank : Z → gset nat → nat) (Hrank : ranked rank).

Definition before_in (c' c : config) : Prop :=
  (c_pos c < c_pos c')%nat ∨ c_pos c' = c_pos c ∧ (rank (c_pc c') (unmarked c') < rank (c_pc c) (unmarked c))%nat.

Lemma unmarked_same q q' p env : unmarked (Config q p env) = unmarked (Config q' p env).
Proof. done. Qed.

Lemma unmarked_mark q q' p env r : unmarked (Config q p (<[Register r := p]> env)) = unmarked (Config q' p env) ∖ {[r]}.
Proof.
  apply set_eq. intros x. rewrite elem_of_difference. unfold unmarked. rewrite !elem_of_filter, not_elem_of_singleton. cbn. destruct (decide (x = r)) as [->|Hne].
  - rewrite lookup_insert_eq. naive_solver.
  - rewrite lookup_insert_ne by congruence. naive_solver.
Qed.

Lemma unmarked_group q q' p env l : (∀ r, l ≠ Register r) → unmarked (Config q p (<[l := p]> env)) = unmarked (Config q' p env).
Proof. intros Hl. apply set_eq. intros x. unfold unmarked. rewrite !elem_of_filter. cbn. by rewrite lookup_insert_ne by apply Hl. Qed.

Lemma check_register p r : instr_at re p = Some (ICheck r) → r ∈ (set_seq 0 (Z.to_nat (Numregisters re)) : gset nat).
Proof.
  unfold instr_at. intros H. destruct (if 0 <=? p then Prog re !! Z.to_nat p else None) as [v|]; [|done]. cbn in H. unfold decode in H.
  repeat (destruct (_ =? _); [by simplify_option_eq|]). destruct (Opcode (Long_val v) =? CHECKPROGRESS); [|done].
  destruct (arg_register re (Long_val v)) as [x|] eqn:E; [|done]. injection H as <-. destruct (arg_register_eq re str starttxt Hwf _ _ E) as [_ Hx]. apply elem_of_set_seq. lia.
Qed.

Lemma succ_lower c : config_ok re str c → match succ re str c with Go c' => before_in c' c | Fork c1 c2 => before_in c1 c ∧ before_in c2 c | _ => True end.
Proof.
  destruct c as [q p env]. intros [O1 O2 O3]. cbn in *. destruct (instr_at re q) as [i|] eqn:Ei; [|done]. pose proof (Hrank q i Ei) as Hl.
  assert ((∀ P, (rank (q + 1)%Z P < rank q P)%nat) → ∀ x, (p <= x)%nat → before_in (Config (q + 1) x env) (Config q p env)) as Hgo.
  { intros Hr x Hx. unfold before_in. cbn. destruct (decide (p = x)) as [<-|]; [right; split; [done|apply Hr]|left; lia]. }
  assert (∀ f l, (l ≠ [] ∨ ∀ P, (rank (q + 1)%Z P < rank q P)%nat) → match literal str (q + 1) env f l p with Go c' => before_in c' (Config q p env) | Fork c1 c2 => before_in c1 (Config q p env) ∧ before_in c2 (Config q p env) | _ => True end) as Hlit.
  { intros f l Hnl. destruct (literal _ _ _ _ _ _) as [c|c1 c2| | |] eqn:E; try done.
    - destruct (literal_pos str _ _ _ _ _ _ E O2) as [-> Hx]. destruct Hnl as [Hne|Hr]; [|apply Hgo; [done|lia]]. left. cbn. destruct l; [done|cbn; lia].
    - unfold literal in E. by repeat case_decide. }
  assert (∀ b, (∀ P, (rank (q + 1)%Z P < rank q P)%nat) → match guard (q + 1) env p b with Go c' => before_in c' (Config q p env) | Fork c1 c2 => before_in c1 (Config q p env) ∧ before_in c2 (Config q p env) | _ => True end) as Hguard
    by (intros [] Hr; [by apply Hgo|done]).
  assert (∀ t, match char_if str (q + 1) env t p with Go c' => before_in c' (Config q p env) | Fork c1 c2 => before_in c1 (Config q p env) ∧ before_in c2 (Config q p env) | _ => True end) as Hchar.
  { intros t. unfold char_if. destruct (str !! p); [|done]. destruct (t z); [|done]. left. cbn. lia. }
  destruct i; cbn in Hl; try (by apply Hchar); try (by apply Hlit); try (by apply Hguard); try done.
  - destruct (before str p), (str !! p); try (by apply Hguard). done.
  - right. split; [done|]. cbn [c_pc]. destruct l as [g|g|r]; [rewrite (unmarked_group _ q) by done; apply Hl..|]. rewrite (unmarked_mark _ q). apply Hl.
  - destruct (env !! Group_start g), (env !! Group_end g); try done. apply Hlit. by right.
  - apply Hgo; [done|lia].
  - apply Hgo; [done|lia].
  - destruct (str !! p) as [c|] eqn:E; [|done]. destruct (in_set set c) eqn:Ec; [|done]. left. cbn. rewrite (drop_S _ _ _ E). cbn. rewrite Ec. lia.
  - right. split; [done|]. apply Hl.
  - split; right; (split; [done|]); apply Hl.
  - unfold guard. case_bool_decide as Hb; [done|]. cbn. right. split; [done|]. cbn. apply Hl. unfold unmarked. apply elem_of_filter. split; [done|by eapply check_register].
Qed.

Lemma first_match_total c : config_ok re str c → ∃ r, first_match re str partial c r.
Proof.
  remember (length str - c_pos c)%nat as n eqn:En. revert c En. induction (lt_wf n) as [n _ IHn]. intros c En. remember (rank (c_pc c) (unmarked c)) as m eqn:Em. revert c En Em.
  induction (lt_wf m) as [m _ IHm]. intros c En Em Hc. pose proof (succ_lower c Hc) as Hl. pose proof (succ_ok re str starttxt Hwf c Hc) as Hok.
  assert (∀ c', before_in c' c → config_ok re str c' → ∃ r, first_match re str partial c' r) as IH.
  { intros c' [Hlt|[E Hlt]] Hc'; [|by eapply (IHm (rank (c_pc c') (unmarked c'))); [lia|congruence|..]]. destruct Hc' as [H1 H2 H3]. eapply IHn; [|reflexivity|done]. lia. }
  destruct (succ re str c) as [c'|c1 c2| |x|] eqn:E.
  - destruct (IH c' Hl Hok) as [r Hr]. exists r. by eapply fm_go.
  - destruct Hl as [L1 L2], Hok as [K1 K2]. destruct (IH c1 L1 K1) as [[d|] H1]; [exists (Some d); by eapply fm_left|]. destruct (IH c2 L2 K2) as [r H2]. exists r. by eapply fm_right.
  - exists None. by apply fm_fail.
  - eexists. by apply fm_short.
  - exists (Some c). by apply fm_done.
Qed.
End Termination.

(** ** Matching and searching *)

Section Primitives.
Context (malloc_ok : Z → bool) (re : regexp) (str : list Z) (starttxt : Z) (Hwf : wf re str starttxt).

Definition init (p : nat) : config := Config 0 p ∅.
Definition context_ok (s : matcher) : Prop := length (re_group s) = NUM_GROUPS ∧ length (re_register s) = NUM_REGISTERS.

Lemma init_ok p : (p <= length str)%nat → config_ok re str (init p).
Proof. intros Hp. split; [apply Hwf|done|by intros l x Hx]. Qed.

Lemma clear_groups_lookup n l g : (1 <= g < n)%nat → (g < length l)%nat → clear_groups n l !! g = Some (Group 0 0).
Proof.
  intros Hg Hl. unfold clear_groups. rewrite list_lookup_imap. destruct (lookup_lt_is_Some_2 l g Hl) as [x Hx]. rewrite Hx. cbv [fmap option_fmap option_map].
  by rewrite (proj2 (Nat.leb_le _ _)), (proj2 (Nat.ltb_lt _ _)) by lia.
Qed.

Lemma clear_registers_lookup n l r : (r < n)%nat → (r < length l)%nat → clear_registers n l !! r = Some 0.
Proof.
  intros Hr Hl. unfold clear_registers. rewrite list_lookup_imap. destruct (lookup_lt_is_Some_2 l r Hl) as [x Hx]. rewrite Hx. cbv [fmap option_fmap option_map]. by rewrite (proj2 (Nat.ltb_lt _ _)).
Qed.

Lemma match_start partial p s : context_ok s → ∃ s1, (∀ fuel, re_match_r malloc_ok re str starttxt fuel (starttxt + Z.of_nat p) partial s = re_loop malloc_ok re str starttxt partial fuel s1) ∧
  rep re starttxt (starttxt + Z.of_nat p) (blocks s) s1 (init p) [].
Proof.
  intros [H1 H2]. pose proof (wf_groups _ _ _ Hwf) as Hg. pose proof (wf_registers _ _ _ Hwf) as Hrg. unfold NUM_GROUPS, NUM_REGISTERS in *.
  set (s0 := set_txt (starttxt + Z.of_nat p) (set_pc 0 (set_stack [] [] (set_vars (clear_groups (Z.to_nat (Numgroups re)) (re_group s)) (clear_registers (Z.to_nat (Numregisters re)) (re_register s)) s)))).
  assert (is_Some (lookup_loc s0 (Group_start 0))) as Hz.
  { cbn. unfold clear_groups. rewrite list_lookup_imap. destruct (lookup_lt_is_Some_2 (re_group s) 0%nat) as [g ->]; [lia|]. done. }
  exists (put_loc (Group_start 0) (starttxt + Z.of_nat p) s0). split.
  - intros fuel. unfold re_match_r. unfold NUM_GROUPS, NUM_REGISTERS. rewrite !(proj2 (Z.ltb_ge _ _)) by lia. unfold mbnd, mmodify, mreturn. cbn [orb]. fold s0. by rewrite set_loc_eq.
  - split; [done|done| |].
    + split.
      * cbn. rewrite length_alter. unfold clear_groups, clear_registers. by rewrite !length_imap.
      * by rewrite lookup_put_eq.
      * intros l Hl. rewrite lookup_put_ne by (intros <-; cbn in Hl; lia). change (c_env (init p) !! l) with ((∅ : gmap loc nat) !! l). rewrite lookup_empty. destruct l as [g|g|r]; cbn in *.
        -- by rewrite clear_groups_lookup by lia.
        -- by rewrite clear_groups_lookup by lia.
        -- by rewrite clear_registers_lookup by lia.
    + split; cbn; [done|lia|done|lia].
Qed.

(** The array of positions for a match from [p] that ended in [d]. *)
Definition group_pair (p : nat) (d : config) (i : nat) : list Z :=
  match i with
  | O => [Val_long (Z.of_nat p); Val_long (Z.of_nat (c_pos d))]
  | _ => match c_env d !! Group_start i, c_env d !! Group_end i with
         | Some b, Some e => [Val_long (Z.of_nat b); Val_long (Z.of_nat e)]
         | _, _ => [Val_int (-1); Val_int (-1)]
         end
  end.
Definition group_array (p : nat) (d : config) : list Z := flat_map (group_pair p d) (seq 0 (Z.to_nat (Numgroups re))).

Lemma groups_eq p d B s : finished re starttxt (starttxt + Z.of_nat p) B d s → re_alloc_groups_r re starttxt s = inr (s, group_array p d).
Proof.
  intros ([_ V0 V] & He & _). unfold re_alloc_groups_r, group_array. pose proof (wf_start _ _ _ Hwf) as Hst. assert (∀ x, starttxt + x - starttxt = x) as Hsub by lia.
  assert (∀ n i, (i + n <= Z.to_nat (Numgroups re))%nat → group_fields starttxt n i s = inr (s, flat_map (group_pair p d) (seq i n))) as H; [|by apply H].
  induction n as [|n IH]; intros i Hi; [done|]. cbn [group_fields seq flat_map]. destruct i as [|i].
  - unfold mbnd. rewrite (get_loc_eq _ s _ V0), (get_loc_eq _ s _ He), IH by lia. change (group_pair p d 0) with [Val_long (Z.of_nat p); Val_long (Z.of_nat (c_pos d))]. rewrite !(proj2 (Z.eqb_neq _ 0)) by lia. cbn [orb]. unfold mreturn. cbn [app]. by rewrite !Hsub.
  - unfold mbnd. rewrite (get_loc_eq _ s _ (V (Group_start (S i)) ltac:(cbn; lia))), (get_loc_eq _ s _ (V (Group_end (S i)) ltac:(cbn; lia))), IH by lia. unfold mreturn.
    assert (group_pair p d (S i) = match c_env d !! Group_start (S i), c_env d !! Group_end (S i) with Some b, Some e => [Val_long (Z.of_nat b); Val_long (Z.of_nat e)] | _, _ => [Val_int (-1); Val_int (-1)] end) as -> by done.
    destruct (c_env d !! Group_start (S i)) as [b|]; cbn [enc]; [|done]. rewrite (proj2 (Z.eqb_neq _ 0)) by lia.
    destruct (c_env d !! Group_end (S i)) as [e|]; cbn [enc]; [|done]. rewrite (proj2 (Z.eqb_neq _ 0)) by lia. cbn [orb app]. by rewrite !Hsub.
Qed.

(** What an attempt at position [p] gives, [r] being the first match there. *)
Definition attempt (p : nat) (r : option config) (s : matcher) (other : str_stop + matcher * list Z → Prop) (res : str_stop + matcher * list Z) : Prop :=
  res = inl Out_of_memory ∨
  match r with
  | Some d => ∃ s', res = inr (s', group_array p d) ∧ context_ok s' ∧ blocks s' = blocks s
  | None => other res
  end.

Lemma match_at_spec partial p r : (p <= length str)%nat → first_match re str partial (init p) r → ∃ N, ∀ fuel s otherwise, (N <= fuel)%nat → context_ok s →
  attempt p r s (λ res, ∃ s', res = otherwise s' ∧ context_ok s' ∧ blocks s' = blocks s)
    (match_at malloc_ok re str starttxt fuel (starttxt + Z.of_nat p) partial otherwise s).
Proof.
  intros Hp Hfm. destruct (first_match_run malloc_ok re str starttxt partial Hwf _ _ Hfm (init_ok p Hp)) as [N HN]. exists N. intros fuel s otherwise Hf Hs.
  destruct (match_start partial p s Hs) as (s1 & E & Hr). unfold match_at, mbnd. rewrite E.
  assert (∀ f, goes malloc_ok re str starttxt partial N s1 f → ∃ m, re_loop malloc_ok re str starttxt partial fuel s1 = f m) as Hgo.
  { intros f (n & Hle & Hn). exists (fuel - n)%nat. rewrite <- Hn. f_equal. lia. }
  destruct (HN _ _ _ _ Hr) as [Eo|Hres].
  - left. destruct (Hgo _ Eo) as [m ->]. done.
  - right. destruct r as [d|]; destruct Hres as (s2 & Hg & Hx); destruct (Hgo _ Hg) as [m ->].
    + exists s2. rewrite (groups_eq p d _ s2 Hx). destruct Hx as (Hv & _ & Hb). split_and!; [done|apply Hv|done].
    + destruct (backtrack_fail _ _ _ _ _ _ Hx) as (s3 & Eb & Hv & Hb). unfold resume. rewrite (mbnd_eq _ _ _ _ _ Eb). exists s3. split_and!; [done|apply Hv|done].
Qed.

Lemma loop_mono partial n m s : re_loop malloc_ok re str starttxt partial n s ≠ inl (StrFault OutOfFuel) → (n <= m)%nat →
  re_loop malloc_ok re str starttxt partial m s = re_loop malloc_ok re str starttxt partial n s.
Proof.
  revert m s. induction n as [|n IH]; intros m s Hne Hle; [done|]. destruct m as [|m]; [lia|]. cbn [re_loop] in *. unfold mbnd in *. destruct (re_fetch re s) as [|[s1 i]]; [done|].
  destruct (re_instr re str starttxt i s1) as [|[s2 l]]; [done|]. destruct l as [|b| | |]; [apply IH; [done|lia]| | | |done].
  - destruct (re_push malloc_ok b s2) as [|[s3 []]]; [done|]. apply IH; [done|lia].
  - destruct partial; [done|]. destruct (backtrack s2) as [|[s3 []]]; [done| |done]. apply IH; [done|lia].
  - destruct (backtrack s2) as [|[s3 []]]; [done| |done]. apply IH; [done|lia].
Qed.

Lemma pos_of_val p : (p <= length str)%nat → Long_val (Val_long (Z.of_nat p)) = Z.of_nat p.
Proof. intros Hp. pose proof (wf_length _ _ _ Hwf). rewrite Long_val_Val_long. apply s63_small. unfold Min_long, Max_long. lia. Qed.

Lemma check_pos_eq p msg s : (p <= length str)%nat → check_pos str starttxt (starttxt + Z.of_nat p) msg s = inr (s, tt).
Proof. intros Hp. unfold check_pos, endtxt. by rewrite !(proj2 (Z.ltb_ge _ _)) by lia. Qed.

Definition primitive (partial : bool) : nat → Z → SM (list Z) :=
  if partial then re_partial_match_r malloc_ok re str starttxt else re_string_match_r malloc_ok re str starttxt.

Lemma primitive_eq partial fuel p s : (p <= length str)%nat → primitive partial fuel (Val_long (Z.of_nat p)) s = match_at malloc_ok re str starttxt fuel (starttxt + Z.of_nat p) partial (mreturn []) s.
Proof.
  intros Hp. unfold primitive. destruct partial; [unfold re_partial_match_r|unfold re_string_match_r]; rewrite pos_of_val by done; by rewrite (mbnd_eq _ _ _ _ _ (check_pos_eq p _ s Hp)).
Qed.

(** C17. The matcher finds the first accepting execution in order of priority:
    the array that [Str.string_match] and [Str.string_partial_match] return
    holds the bounds of the groups at the end of that execution, although one
    set of variables is shared by all the alternatives and restored on
    backtracking; the empty array is returned exactly when no execution
    accepts.  The blocks added to the backtracking stack are freed. *)
Theorem re_match_first partial p r s : (p <= length str)%nat → context_ok s → first_match re str partial (init p) r →
  ∃ N, ∀ fuel, (N <= fuel)%nat →
    match primitive partial fuel (Val_long (Z.of_nat p)) s with
    | inl e => e = Out_of_memory
    | inr (s', l) => context_ok s' ∧ blocks s' = blocks s ∧
        match r with
        | Some d => accepts re str partial (init p) d ∧ l = group_array p d
        | None => (∀ d, ¬ accepts re str partial (init p) d) ∧ l = []
        end
    end.
Proof.
  intros Hp Hs Hfm. destruct (match_at_spec partial p r Hp Hfm) as [N HN]. exists N. intros fuel Hf. rewrite primitive_eq by done. pose proof (first_match_sound re str partial _ _ Hfm) as Hsound.
  destruct (HN fuel s (mreturn []) Hf Hs) as [->|H]; [done|]. destruct r as [d|].
  - destruct H as (s' & -> & H1 & H2). done.
  - destruct H as (s' & -> & H1 & H2). done.
Qed.

(** C18. Matching ends on every text: when the code has a rank that decreases
    at each step that reads no character, as the progress checks ensure for
    repeated expressions that match the empty string, the matcher returns. *)
Theorem re_match_ends partial rank p s : ranked re rank → (p <= length str)%nat → context_ok s →
  ∃ N, ∀ fuel, (N <= fuel)%nat → primitive partial fuel (Val_long (Z.of_nat p)) s ≠ inl (StrFault OutOfFuel) ∧
    primitive partial fuel (Val_long (Z.of_nat p)) s = primitive partial N (Val_long (Z.of_nat p)) s.
Proof.
  intros Hrk Hp Hs. destruct (first_match_total re str starttxt partial Hwf rank Hrk (init p) (init_ok p Hp)) as [r Hr]. destruct (match_at_spec partial p r Hp Hr) as [N HN].
  assert (∀ fuel, (N <= fuel)%nat → primitive partial fuel (Val_long (Z.of_nat p)) s ≠ inl (StrFault OutOfFuel)) as Hne.
  { intros fuel Hf. rewrite primitive_eq by done. destruct (HN fuel s (mreturn []) Hf Hs) as [->|H]; [done|]. by destruct r; destruct H as (s' & -> & _). }
  exists N. intros fuel Hf. split; [by apply Hne|]. specialize (Hne N (le_n N)). rewrite !primitive_eq in * by done. unfold match_at in *.
  destruct (match_start partial p s Hs) as (s1 & E & _). unfold mbnd in *. rewrite !E in *. rewrite (loop_mono partial N fuel s1); [done| |done].
  intros Eo. by rewrite Eo in Hne.
Qed.

(** ** Searching *)

Definition has_match (p : nat) : Prop := ∃ d, accepts re str false (init p) d.

(** The table of the characters that can start a match. *)
Definition starts_ok : Prop := Startchars re ≠ -1 → ∃ set, Cpool re !! Z.to_nat (Startchars re) = Some set ∧ length set = 256%nat ∧
  ∀ p, (p <= length str)%nat → has_match p → ∃ c b, str !! p = Some c ∧ set !! Z.to_nat c = Some b ∧ b ≠ 0.

Lemma all_positions (P : nat → nat → Prop) m : (∀ p, (p <= m)%nat → ∃ N, ∀ fuel, (N <= fuel)%nat → P p fuel) → ∃ N, ∀ p fuel, (p <= m)%nat → (N <= fuel)%nat → P p fuel.
Proof.
  induction m as [|m IH]; intros H.
  - destruct (H 0%nat) as [N HN]; [done|]. exists N. intros p fuel Hp Hf. replace p with 0%nat by lia. by apply HN.
  - destruct IH as [N HN]; [intros p Hp; apply H; lia|]. destruct (H (S m)) as [M HM]; [done|]. exists (N + M)%nat. intros p fuel Hp Hf.
    destruct (decide (p = S m)) as [->|]; [apply HM; lia|apply HN; lia].
Qed.

Context (rank : Z → gset nat → nat) (Hrank : ranked re rank).

(** One attempt, with the answer to whether there is a match. *)
Lemma attempts : ∃ N, ∀ p fuel, (p <= length str)%nat → (N <= fuel)%nat → ∀ s otherwise, context_ok s →
  let res := match_at malloc_ok re str starttxt fuel (starttxt + Z.of_nat p) false otherwise s in
  res = inl Out_of_memory ∨
  (∃ s' d, res = inr (s', group_array p d) ∧ first_match re str false (init p) (Some d) ∧ context_ok s' ∧ blocks s' = blocks s) ∨
  (∃ s', res = otherwise s' ∧ ¬ has_match p ∧ context_ok s' ∧ blocks s' = blocks s).
Proof.
  apply all_positions. intros p Hp. destruct (first_match_total re str starttxt false Hwf rank Hrank (init p) (init_ok p Hp)) as [r Hr].
  destruct (match_at_spec false p r Hp Hr) as [N HN]. exists N. intros fuel Hf s otherwise Hs. destruct (HN fuel s otherwise Hf Hs) as [E|H]; [by left|right]. destruct r as [d|].
  - left. destruct H as (s' & E & H1 & H2). by exists s', d.
  - right. destruct H as (s' & E & H1 & H2). exists s'. split_and!; try done. intros [d Hd]. by apply (first_match_sound re str false _ _ Hr d).
Qed.

(** The result of a search from [p]: the nearest position with a match, if
    there is one; [up] and [down] are the positions between. *)
Definition nearest (range : nat → nat → nat → Prop) (all : nat → Prop) (p : nat) (s : matcher) (res : str_stop + matcher * list Z) : Prop :=
  match res with
  | inl e => e = Out_of_memory
  | inr (s', l) => context_ok s' ∧ blocks s' = blocks s ∧
      ((l = [] ∧ ∀ q, all q → ¬ has_match q) ∨
       ∃ q d, all q ∧ (∀ q', range p q q' → ¬ has_match q') ∧ first_match re str false (init q) (Some d) ∧ l = group_array q d)
  end.

Definition up (p p' q : nat) : Prop := (p <= q < p')%nat.
Definition down (p p' q : nat) : Prop := (p' < q <= p)%nat.

Definition skips_up (skip : Z → SM Z) : Prop := ∀ p s, (p <= length str)%nat →
  ∃ p', skip (starttxt + Z.of_nat p) s = inr (s, starttxt + Z.of_nat p') ∧ (p <= p' <= length str)%nat ∧ ∀ q, up p p' q → ¬ has_match q.
Definition skips_down (skip : Z → SM Z) : Prop := ∀ p s, (p <= length str)%nat →
  ∃ p', skip (starttxt + Z.of_nat p) s = inr (s, starttxt + Z.of_nat p') ∧ (p' <= p)%nat ∧ ∀ q, down p p' q → ¬ has_match q.

Lemma search_up_spec skip : skips_up skip → ∃ N, ∀ fuel n p s, (N <= fuel)%nat → (p <= length str)%nat → (length str - p < n)%nat → context_ok s →
  nearest up (λ q, (p <= q <= length str)%nat) p s (search_up malloc_ok re str starttxt n fuel skip (starttxt + Z.of_nat p) s).
Proof.
  intros Hsk. destruct attempts as [N HN]. exists N. intros fuel n. induction n as [|n IH]; intros p s Hf Hp Hn Hs; [lia|]. cbn [search_up].
  destruct (Hsk p s Hp) as (p' & E & Hp' & Hno). rewrite (mbnd_eq _ _ _ _ _ E).
  pose proof (HN p' fuel (proj2 Hp') Hf s (if starttxt + Z.of_nat p' + 1 <=? endtxt str starttxt then search_up malloc_ok re str starttxt n fuel skip (starttxt + Z.of_nat p' + 1) else mreturn []) Hs) as H.
  cbv zeta in H. destruct H as [->|[(s' & d & -> & H1 & H2 & H3)|(s' & -> & H1 & H2 & H3)]]; [done| |].
  - split_and!; [done..|]. right. exists p', d. split_and!; [lia|lia|done..].
  - destruct (Z.leb_spec (starttxt + Z.of_nat p' + 1) (endtxt str starttxt)) as [Hle|Hgt]; unfold endtxt in *.
    + replace (starttxt + Z.of_nat p' + 1) with (starttxt + Z.of_nat (S p')) by lia. pose proof (IH (S p') s' Hf ltac:(lia) ltac:(lia) H2) as Hr. unfold nearest in *.
      destruct (search_up _ _ _ _ _ _ _ _ _) as [|[s2 l]]; [done|]. destruct Hr as (R1 & R2 & [[-> R3]|(q & d & R3 & R4 & R5 & R6)]); (split_and!; [done|congruence|]).
      * left. split; [done|]. intros q Hq. destruct (decide (q = p')) as [->|]; [done|]. destruct (decide (q < p')%nat); [apply Hno; unfold up; lia|apply R3; lia].
      * right. exists q, d. split_and!; [lia|lia| |done..]. intros q' Hq'. unfold up in *. destruct (decide (q' = p')) as [->|]; [done|]. destruct (decide (q' < p')%nat); [apply Hno; lia|apply R4; lia].
    + split_and!; [done..|]. left. split; [done|]. intros q Hq. destruct (decide (q = p')) as [->|]; [done|]. apply Hno. unfold up. lia.
Qed.

Lemma search_down_spec skip : skips_down skip → ∃ N, ∀ fuel n p s, (N <= fuel)%nat → (p <= length str)%nat → (p < n)%nat → context_ok s →
  nearest down (λ q, (q <= p)%nat) p s (search_down malloc_ok re str starttxt n fuel skip (starttxt + Z.of_nat p) s).
Proof.
  intros Hsk. destruct attempts as [N HN]. exists N. intros fuel n. induction n as [|n IH]; intros p s Hf Hp Hn Hs; [lia|]. cbn [search_down].
  destruct (Hsk p s Hp) as (p' & E & Hp' & Hno). rewrite (mbnd_eq _ _ _ _ _ E).
  pose proof (HN p' fuel ltac:(lia) Hf s (if starttxt <=? starttxt + Z.of_nat p' - 1 then search_down malloc_ok re str starttxt n fuel skip (starttxt + Z.of_nat p' - 1) else mreturn []) Hs) as H.
  cbv zeta in H. destruct H as [->|[(s' & d & -> & H1 & H2 & H3)|(s' & -> & H1 & H2 & H3)]]; [done| |].
  - split_and!; [done..|]. right. exists p', d. by split_and!.
  - destruct (Z.leb_spec starttxt (starttxt + Z.of_nat p' - 1)) as [Hle|Hgt].
    + replace (starttxt + Z.of_nat p' - 1) with (starttxt + Z.of_nat (p' - 1)) by lia. pose proof (IH (p' - 1)%nat s' Hf ltac:(lia) ltac:(lia) H2) as Hr. unfold nearest in *.
      destruct (search_down _ _ _ _ _ _ _ _ _) as [|[s2 l]]; [done|]. destruct Hr as (R1 & R2 & [[-> R3]|(q & d & R3 & R4 & R5 & R6)]); (split_and!; [done|congruence|]).
      * left. split; [done|]. intros q Hq. destruct (decide (q = p')) as [->|]; [done|]. destruct (decide (p' < q)%nat); [apply Hno; unfold down; lia|apply R3; lia].
      * right. exists q, d. split_and!; [lia| |done..]. intros q' Hq'. unfold down in *. destruct (decide (q' = p')) as [->|]; [done|]. destruct (decide (p' < q')%nat); [apply Hno; lia|apply R4; lia].
    + split_and!; [done..|]. left. split; [done|]. intros q Hq. destruct (decide (q = p')) as [->|]; [done|]. apply Hno. unfold down. lia.
Qed.

Lemma skips_none : skips_up mreturn ∧ skips_down mreturn.
Proof. split; intros p s Hp; exists p; (split; [done|]); (split; [lia|]); unfold up, down; intros; lia. Qed.

Section Startchars.
Context (set : list Z) (Hset : length set = 256%nat).
Context (Hstart : ∀ p, (p <= length str)%nat → has_match p → ∃ c b, str !! p = Some c ∧ set !! Z.to_nat c = Some b ∧ b ≠ 0).

Lemma start_byte c (s : matcher) : byte c → ∃ b, set !! Z.to_nat c = Some b ∧ of_option (string_byte set c) (BadLoad c) s = inr (s, b).
Proof.
  intros Hc. unfold byte in Hc. destruct (lookup_lt_is_Some_2 set (Z.to_nat c)) as [b Hb]; [lia|]. exists b. split; [done|]. unfold string_byte. rewrite (proj2 (Z.leb_le _ _)), (proj2 (Z.ltb_lt _ _)) by lia.
  cbn. by rewrite Hb.
Qed.

Lemma start_none p c : str !! p = Some c → set !! Z.to_nat c = Some 0 → ¬ has_match p.
Proof.
  intros E Hb Hm. pose proof (lookup_lt_Some _ _ _ E). destruct (Hstart p ltac:(lia) Hm) as (c' & b & E' & Hb' & Hne). rewrite E in E'. injection E' as <-. rewrite Hb in Hb'. by simplify_eq.
Qed.

Lemma skip_forward_eq : skips_up (λ t, skip_forward str starttxt (length str) set t).
Proof.
  intros p s Hp. assert (∀ n p, (p <= length str)%nat → ∃ p', skip_forward str starttxt n set (starttxt + Z.of_nat p) s = inr (s, starttxt + Z.of_nat p') ∧ (p <= p' <= length str)%nat ∧ ∀ q, up p p' q → ¬ has_match q) as H; [|by apply H].
  clear p Hp. induction n as [|n IH]; intros p Hp; cbn [skip_forward]; [exists p; split_and!; [done|lia|done|unfold up; lia]|].
  rewrite end_less by done. destruct (str !! p) as [c|] eqn:E; [|exists p; split_and!; [done|lia|done|unfold up; lia]].
  rewrite (mbnd_eq _ _ _ _ _ (text_eq str starttxt p c s E)). destruct (start_byte c s (text_byte re str starttxt Hwf p c E)) as (b & Hb & Eb). rewrite (mbnd_eq _ _ _ _ _ Eb).
  destruct (Z.eqb_spec b 0) as [->|Hne]; [|exists p; split_and!; [done|lia|done|unfold up; lia]]. pose proof (lookup_lt_Some _ _ _ E).
  replace (starttxt + Z.of_nat p + 1) with (starttxt + Z.of_nat (S p)) by lia. destruct (IH (S p)) as (p' & E' & Hp' & Hno); [lia|]. exists p'. split_and!; [done|lia|lia|].
  intros q Hq. destruct (decide (q = p)) as [->|]; [by eapply start_none|]. apply Hno. unfold up in *. lia.
Qed.

(** At the end of the text the byte after it is read, a 0. *)
Lemma text_any p s : (p <= length str)%nat → ∃ c, byte c ∧ text str starttxt (starttxt + Z.of_nat p) s = inr (s, c) ∧ (str !! p = Some c ∨ str !! p = None).
Proof.
  intros Hp. destruct (str !! p) as [c|] eqn:E; [exists c; split_and!; [by eapply text_byte|by apply text_eq|by left]|]. apply lookup_ge_None_1 in E.
  exists 0. split_and!; [done| |by right]. unfold text, string_byte. replace (starttxt + Z.of_nat p - starttxt) with (Z.of_nat p) by lia.
  rewrite (proj2 (Z.ltb_ge _ _)) by lia. rewrite andb_false_r, (proj2 (Z.eqb_eq _ _)) by lia. done.
Qed.

Lemma end_no_match p : str !! p = None → (p <= length str)%nat → ¬ has_match p.
Proof. intros E Hp Hm. destruct (Hstart p Hp Hm) as (c & b & E' & _). congruence. Qed.

Lemma skip_backward_eq : skips_down (λ t, skip_backward str starttxt (length str) set t).
Proof.
  intros p s Hp. assert (∀ n p, (p <= length str)%nat → ∃ p', skip_backward str starttxt n set (starttxt + Z.of_nat p) s = inr (s, starttxt + Z.of_nat p') ∧ (p' <= p)%nat ∧ ∀ q, down p p' q → ¬ has_match q) as H; [|by apply H].
  clear p Hp. induction n as [|n IH]; intros p Hp; cbn [skip_backward]; [exists p; split_and!; [done|lia|unfold down; lia]|].
  destruct (Z.ltb_spec starttxt (starttxt + Z.of_nat p)) as [Hlt|]; [|exists p; split_and!; [done|lia|unfold down; lia]].
  destruct (text_any p s Hp) as (c & Hc & Et & Hor). rewrite (mbnd_eq _ _ _ _ _ Et). destruct (start_byte c s Hc) as (b & Hb & Eb). rewrite (mbnd_eq _ _ _ _ _ Eb).
  destruct (Z.eqb_spec b 0) as [->|Hne]; [|exists p; split_and!; [done|lia|unfold down; lia]].
  replace (starttxt + Z.of_nat p - 1) with (starttxt + Z.of_nat (p - 1)) by lia. destruct (IH (p - 1)%nat) as (p' & E' & Hp' & Hno); [lia|]. exists p'. split_and!; [done|lia|].
  intros q Hq. destruct (decide (q = p)) as [->|]; [destruct Hor as [E|E]; [by eapply start_none|by apply end_no_match]|]. apply Hno. unfold down in *. lia.
Qed.
End Startchars.

(** C27. [Str.search_forward] finds the first position from [p] on at which the
    expression matches, and returns the groups of the first match there; the
    empty array says that there is no such position.  Skipping the
    characters that cannot start a match does not miss any. *)
Theorem search_forward_nearest p s : starts_ok → (p <= length str)%nat → context_ok s → ∃ N, ∀ fuel, (N <= fuel)%nat →
  nearest up (λ q, (p <= q <= length str)%nat) p s (re_search_forward_r malloc_ok re str starttxt fuel (Val_long (Z.of_nat p)) s).
Proof.
  intros Hst Hp Hs. unfold re_search_forward_r. rewrite pos_of_val by done. destruct (Z.eqb_spec (Startchars re) (-1)) as [E|E].
  - destruct (search_up_spec mreturn (proj1 skips_none)) as [N HN]. exists N. intros fuel Hf. rewrite (mbnd_eq _ _ _ _ _ (check_pos_eq p _ s Hp)). apply HN; [done|done|lia|done].
  - destruct (Hst E) as (set & Ep & Hl & Hset). destruct (search_up_spec _ (skip_forward_eq set Hl Hset)) as [N HN]. exists N. intros fuel Hf.
    rewrite (mbnd_eq _ _ _ _ _ (check_pos_eq p _ s Hp)), (mbnd_eq _ _ _ _ _ (pool_eq re s _ _ Ep)). apply HN; [done|done|lia|done].
Qed.

(** [Str.search_backward] finds the last position up to [p] at which the
    expression matches.  At the end of the text the test on the current
    character reads the byte after it, which changes nothing. *)
Theorem search_backward_nearest p s : starts_ok → (p <= length str)%nat → context_ok s → ∃ N, ∀ fuel, (N <= fuel)%nat →
  nearest down (λ q, (q <= p)%nat) p s (re_search_backward_r malloc_ok re str starttxt fuel (Val_long (Z.of_nat p)) s).
Proof.
  intros Hst Hp Hs. unfold re_search_backward_r. rewrite pos_of_val by done. destruct (Z.eqb_spec (Startchars re) (-1)) as [E|E].
  - destruct (search_down_spec mreturn (proj2 skips_none)) as [N HN]. exists N. intros fuel Hf. rewrite (mbnd_eq _ _ _ _ _ (check_pos_eq p _ s Hp)). apply HN; [done|done|lia|done].
  - destruct (Hst E) as (set & Ep & Hl & Hset). destruct (search_down_spec _ (skip_backward_eq set Hl Hset)) as [N HN]. exists N. intros fuel Hf.
    rewrite (mbnd_eq _ _ _ _ _ (check_pos_eq p _ s Hp)), (mbnd_eq _ _ _ _ _ (pool_eq re s _ _ Ep)). apply HN; [done|done|lia|done].
Qed.
End Primitives.

(** ** Replacement *)

Section Replacement.
Context (groups : list (option (nat * nat))) (orig : list Z).

(** A template: characters, and references to groups. *)
Inductive tok : Type := Lit (c : Z) | Ref (n : nat).

Fixpoint tokens (p : list Z) : option (list tok) :=
  match p with
  | [] => Some []
  | 92 :: p =>
      match p with
      | [] => None
      | c :: p => if c =? 92 then cons (Lit 92) <$> tokens p else if is_digit c then cons (Ref (Z.to_nat (c - 48))) <$> tokens p else cons (Lit 92) ∘ cons (Lit c) <$> tokens p
      end
  | c :: p => cons (Lit c) <$> tokens p
  end.

Definition meaning (t : tok) : option (list Z) :=
  match t with
  | Lit c => Some [c]
  | Ref n => match groups !! n with Some (Some (b, e)) => Some (take (e - b) (drop b orig)) | _ => None end
  end.

(** The text of a template. *)
Definition expansion (p : list Z) : option (list Z) := ts ← tokens p; ls ← mapM meaning ts; Some (concat ls).

(** The array of positions that a search returns. *)
Definition pair_fields (g : option (nat * nat)) : list Z :=
  match g with Some (b, e) => [Val_long (Z.of_nat b); Val_long (Z.of_nat e)] | None => [Val_int (-1); Val_int (-1)] end.
Definition group_values : list Z := flat_map pair_fields groups.

Definition groups_ok : Prop := Z.of_nat (length orig) < 4611686018427387904 ∧ ∀ n b e, groups !! n = Some (Some (b, e)) → (b <= e <= length orig)%nat.
Context (Hok : groups_ok).

Lemma template_ind (P : list Z → Prop) : P [] → (∀ c p, c ≠ 92 → P p → P (c :: p)) → P [92] → (∀ c p, P p → P (92 :: c :: p)) → ∀ p, P p.
Proof.
  intros H0 H1 H2 H3 p. remember (length p) as n eqn:En. revert p En. induction (lt_wf n) as [n _ IH]. intros p En. destruct p as [|c p]; [done|]. cbn in En. destruct (decide (c = 92)) as [->|Hne].
  - destruct p as [|d p]; [done|]. cbn in En. apply H3. eapply IH; [|done]. lia.
  - apply H1; [done|]. eapply IH; [|done]. lia.
Qed.

(** What follows a backslash stands for. *)
Definition escape (c : Z) : option (list Z) := if c =? 92 then Some [92] else if is_digit c then meaning (Ref (Z.to_nat (c - 48))) else Some [92; c].

Lemma tokens_char c p : c ≠ 92 → tokens (c :: p) = cons (Lit c) <$> tokens p.
Proof. intros H. cbn. by repeat (case_match; try done). Qed.

Lemma expansion_char c p : c ≠ 92 → expansion (c :: p) = cons c <$> expansion p.
Proof. intros H. unfold expansion. rewrite tokens_char by done. destruct (tokens p) as [ts|]; [|done]. cbn. by destruct (mapM meaning ts). Qed.

Lemma expansion_escape c p : expansion (92 :: c :: p) = (l ← escape c; k ← expansion p; Some (l ++ k)).
Proof.
  unfold expansion, escape. cbn [tokens]. destruct (c =? 92); [destruct (tokens p) as [ts|]; [cbn; by destruct (mapM meaning ts)|done]|].
  destruct (is_digit c).
  - destruct (tokens p) as [ts|]; cbn -[meaning]; destruct (meaning (Ref _)); try done. cbn. by destruct (mapM meaning ts).
  - destruct (tokens p) as [ts|]; [|done]. cbn. by destruct (mapM meaning ts).
Qed.

(** The fields of a group. *)
Lemma values_lookup n g : groups !! n = Some g → group_values !! (2 * n)%nat = pair_fields g !! 0%nat ∧ group_values !! (2 * n + 1)%nat = pair_fields g !! 1%nat.
Proof.
  unfold group_values. clear Hok. revert n. induction groups as [|x gs IH]; intros [|n] H; try done.
  - injection H as ->. destruct g as [[b e]|]; done.
  - cbn [flat_map]. destruct (IH n H) as [E1 E2]. replace (2 * S n)%nat with (2 + 2 * n)%nat by lia. destruct x as [[b e]|]; cbn; by rewrite ?E1, ?E2.
Qed.

Lemma values_length : length group_values = (2 * length groups)%nat.
Proof. unfold group_values. clear Hok. induction groups as [|[[b e]|] gs IH]; cbn; lia. Qed.

Lemma val_nat n : Z.of_nat n < 4611686018427387904 → u64 (Long_val (Val_long (Z.of_nat n))) = Z.of_nat n.
Proof. intros H. rewrite Long_val_Val_long, s63_small by (unfold Min_long, Max_long; lia). apply u64_small. unfold word, W. lia. Qed.

Lemma repl_group_eq {S} n g (s : S) : groups !! n = Some g →
  repl_group group_values (Z.of_nat n) s = inr (s, match g with Some (b, e) => (Z.of_nat b, Z.of_nat e) | None => (u64 (-1), u64 (-1)) end).
Proof.
  intros Hg. destruct (values_lookup n g Hg) as [E1 E2]. unfold repl_group. replace (Z.to_nat (Z.of_nat n * 2)) with (2 * n)%nat by lia. replace (Z.to_nat (Z.of_nat n * 2 + 1)) with (2 * n + 1)%nat by lia.
  rewrite E1, E2. destruct g as [[b e]|]; [|done]. destruct Hok as [H1 H2]. specialize (H2 _ _ _ Hg). cbn. unfold mreturn. by rewrite !val_nat by lia.
Qed.

Lemma digit_group c : is_digit c = true → ∃ n, c - 48 = Z.of_nat n ∧ Z.to_nat (c - 48) = n.
Proof. unfold is_digit. intros [H1 H2]%andb_true_iff. apply Z.leb_le in H1, H2. exists (Z.to_nat (c - 48)). lia. Qed.

Lemma slice_length b e : (b <= e <= length orig)%nat → length (take (e - b) (drop b orig)) = (e - b)%nat.
Proof. intros H. rewrite length_take, length_drop. lia. Qed.

Lemma repl_length_eq {S} p : ∀ len (s : S), 0 <= len →
  match expansion p with
  | Some l => len + Z.of_nat (length l) < W → repl_length group_values p len s = inr (s, len + Z.of_nat (length l))
  | None => ∃ msg, repl_length group_values p len s = inl (Failure msg)
  end.
Proof.
  induction p as [|c p Hc IH| |c p IH] using template_ind; intros len s Hlen.
  - cbn. intros _. by rewrite Z.add_0_r.
  - rewrite expansion_char by done. cbn [repl_length]. rewrite (proj2 (Z.eqb_neq _ _) Hc). cbn [negb]. pose proof (IH (u64 (len + 1)) s ltac:(unfold u64; by apply Z.mod_pos_bound)) as H.
    destruct (expansion p) as [l|]; [|done]. cbn. intros Hl. rewrite u64_small in * by (unfold word; lia). rewrite H by lia. do 2 f_equal. lia.
  - eexists. reflexivity.
  - rewrite expansion_escape. cbn [repl_length]. cbn [negb Z.eqb Pos.eqb]. unfold escape. destruct (c =? 92) eqn:E92; [|destruct (is_digit c) eqn:Ed].
    + pose proof (IH (u64 (len + 1)) s ltac:(unfold u64; by apply Z.mod_pos_bound)) as H. destruct (expansion p) as [l|]; [|done]. cbn. intros Hl.
      rewrite u64_small in * by (unfold word; lia). rewrite H by lia. do 2 f_equal. lia.
    + destruct (digit_group c Ed) as (n & En & En'). rewrite En'. cbn [meaning]. destruct (Z.leb_spec (Z.of_nat (length group_values)) ((c - 48) * 2)) as [Hge|Hlt].
      * rewrite values_length in Hge. rewrite (lookup_ge_None_2 groups n) by lia. cbn. eexists. reflexivity.
      * rewrite values_length in Hlt. destruct (lookup_lt_is_Some_2 groups n) as [g Hg]; [lia|]. rewrite Hg, En. rewrite (mbnd_eq _ _ _ _ _ (repl_group_eq n g s Hg)). destruct g as [[b e]|]; [|by eexists].
        destruct Hok as [Ho1 Ho2]. specialize (Ho2 _ _ _ Hg). rewrite (proj2 (Z.eqb_neq _ _)) by (change (u64 (-1)) with (W - 1); unfold W; lia).
        rewrite (u64_small (Z.of_nat e - Z.of_nat b)) by (unfold word, W; lia). pose proof (IH (u64 (len + (Z.of_nat e - Z.of_nat b))) s ltac:(unfold u64; by apply Z.mod_pos_bound)) as H.
        cbn. destruct (expansion p) as [l|]; [|done]. cbn. rewrite length_app, slice_length by done. intros Hl. rewrite u64_small in * by (unfold word; lia). rewrite H by lia. do 2 f_equal. lia.
    + pose proof (IH (u64 (len + 2)) s ltac:(unfold u64; by apply Z.mod_pos_bound)) as H. destruct (expansion p) as [l|]; [|done]. cbn. intros Hl.
      rewrite u64_small in * by (unfold word; lia). rewrite H by lia. do 2 f_equal. lia.
Qed.

(** A result whose first [q] characters are [k]. *)
Lemma put_eq (k rest : list Z) x c : put (Z.of_nat (length k)) c (k ++ x :: rest) = inr (k ++ c :: rest, tt).
Proof.
  unfold put, mbnd, mget. rewrite length_app. cbn [length]. rewrite (proj2 (Z.leb_le _ _)), (proj2 (Z.ltb_lt _ _)) by lia. cbn. unfold mmodify. rewrite Nat2Z.id. by rewrite insert_app_r_alt, Nat.sub_diag by lia.
Qed.

Lemma repl_fill_eq p : ∀ k rest l, expansion p = Some l → length rest = length l → repl_fill group_values orig p (Z.of_nat (length k)) (k ++ rest) = inr (k ++ l, tt).
Proof.
  assert (∀ (k : list Z) c l, k ++ c :: l = (k ++ [c]) ++ l) as Hsnoc by (intros; by rewrite <- app_assoc).
  assert (∀ (k : list Z) c, Z.of_nat (length k) + 1 = Z.of_nat (length (k ++ [c]))) as Hlen by (intros; rewrite length_app; cbn; lia).
  induction p as [|c p Hc IH| |c p IH] using template_ind; intros k rest l He Hl.
  - injection He as <-. apply nil_length_inv in Hl as ->. done.
  - rewrite expansion_char in He by done. destruct (expansion p) as [l'|]; [|done]. injection He as <-. destruct rest as [|x rest]; [done|]. cbn [repl_fill]. rewrite (proj2 (Z.eqb_neq _ _) Hc). cbn [negb].
    rewrite (mbnd_eq _ _ _ _ _ (put_eq k rest x c)), (Hsnoc k c rest), (Hlen k c), (Hsnoc k c l'). apply IH; [done|]. cbn in Hl. lia.
  - done.
  - rewrite expansion_escape in He. cbn [repl_fill]. cbn [negb Z.eqb Pos.eqb]. unfold escape in He. destruct (c =? 92) eqn:E92; [|destruct (is_digit c) eqn:Ed].
    + destruct (expansion p) as [l'|]; [|done]. injection He as <-. destruct rest as [|x rest]; [done|].
      rewrite (mbnd_eq _ _ _ _ _ (put_eq k rest x 92)), (Hsnoc k 92 rest), (Hlen k 92), (Hsnoc k 92 l'). apply IH; [done|]. cbn in Hl. lia.
    + destruct (digit_group c Ed) as (n & En & En'). rewrite En' in He. cbn in He. destruct (groups !! n) as [g|] eqn:Hg; [|done]. rewrite En, (mbnd_eq _ _ _ _ _ (repl_group_eq n g _ Hg)).
      destruct g as [[b e]|]; [|done]. destruct Hok as [Ho1 Ho2]. specialize (Ho2 _ _ _ Hg). cbn in He. destruct (expansion p) as [l'|]; [|done]. injection He as <-. rewrite length_app, slice_length in Hl by done.
      cbv beta iota zeta. rewrite u64_small by (unfold word, W; lia). set (piece := take (e - b) (drop b orig)). assert (length piece = (e - b)%nat) as Hpl by by apply slice_length.
      assert (repl_move orig (Z.of_nat (length k)) (Z.of_nat b) (Z.of_nat e - Z.of_nat b) (k ++ rest) = inr ((k ++ piece) ++ drop (e - b) rest, tt)) as Hm.
      { unfold repl_move, mbnd, mget. rewrite length_app. rewrite !(proj2 (Z.leb_le _ _)) by lia. cbn. unfold mmodify, overwrite. rewrite !Nat2Z.id. replace (Z.to_nat (Z.of_nat e - Z.of_nat b)) with (e - b)%nat by lia. fold piece.
        rewrite take_app_length, <- app_assoc, Hpl. rewrite drop_app_ge by lia. by replace (length k + (e - b) - length k)%nat with (e - b)%nat by lia. }
      rewrite (mbnd_eq _ _ _ _ _ Hm). replace (Z.of_nat (length k) + (Z.of_nat e - Z.of_nat b)) with (Z.of_nat (length (k ++ piece))) by (rewrite length_app; lia).
      rewrite (app_assoc k piece l'). apply IH; [done|]. rewrite length_drop. lia.
    + destruct (expansion p) as [l'|]; [|done]. injection He as <-. destruct rest as [|x [|y rest]]; [done|done|].
      rewrite (mbnd_eq _ _ _ _ _ (put_eq k (y :: rest) x 92)), (Hsnoc k 92 (y :: rest)), (Hlen k 92). rewrite (mbnd_eq _ _ _ _ _ (put_eq (k ++ [92]) rest y c)).
      rewrite (Hsnoc (k ++ [92]) c rest). replace (Z.of_nat (length k) + 2) with (Z.of_nat (length ((k ++ [92]) ++ [c]))) by (rewrite !length_app; cbn; lia).
      cbn [app]. rewrite (Hsnoc k 92 (c :: l')), (Hsnoc (k ++ [92]) c l'). apply IH; [done|]. cbn in Hl. lia.
Qed.

(** C28. Replacement text: the first pass computes the exact length of the
    result and the second fills exactly the string of that length, whatever
    its initial contents, with the template in which references to groups are
    replaced by their text; it fails exactly on a template that ends with a
    backslash or refers to a group that did not match. *)
Theorem replacement_correct alloc repl : (∀ n, Z.of_nat (length (alloc n)) = n ∨ n < 0) →
  match expansion repl with
  | Some l => Z.of_nat (length l) < W → re_replacement_text_r alloc repl group_values orig = inr l
  | None => ∃ msg, re_replacement_text_r alloc repl group_values orig = inl (Failure msg)
  end.
Proof.
  intros Ha. unfold re_replacement_text_r. pose proof (repl_length_eq repl 0 tt ltac:(lia)) as H. destruct (expansion repl) as [l|] eqn:E.
  - intros Hl. rewrite H by lia. pose proof (repl_fill_eq repl [] (alloc (0 + Z.of_nat (length l))) l E) as Hf. change (Z.of_nat (@length Z [])) with 0 in Hf. cbn [app] in Hf. rewrite Hf; [done|].
    destruct (Ha (0 + Z.of_nat (length l))); lia.
  - destruct H as [msg ->]. by exists msg.
Qed.
End Replacement.

(** ** An example

    The code of [\(a*\)*b], as Str compiles it: the outer repetition has a
    body that matches the empty string, and register 0 checks its progress. *)

(** The first match, computed. *)
Fixpoint eval_match (re : regexp) (str : list Z) (n : nat) (c : config) : option (option config) :=
  match n with
  | O => None
  | S n =>
      match succ re str c with
      | Done => Some (Some c)
      | Fail | Short _ => Some None
      | Go c' => eval_match re str n c'
      | Fork c1 c2 => match eval_match re str n c1 with Some None => eval_match re str n c2 | r => r end
      end
  end.

Lemma eval_match_sound re str n : ∀ c r, eval_match re str n c = Some r → first_match re str false c r.
Proof.
  induction n as [|n IH]; intros c r H; [done|]. cbn in H. destruct (succ re str c) as [c'|c1 c2| |p|] eqn:E; simplify_eq.
  - eapply fm_go; [done|by apply IH].
  - destruct (eval_match re str n c1) as [[d|]|] eqn:E1; simplify_eq; [eapply fm_left; [done|by apply IH]|]. eapply fm_right; [done|by apply IH|by apply IH].
  - by apply fm_fail.
  - by apply (fm_short re str false c p).
  - by apply fm_done.
Qed.

Definition code (op arg : Z) : Z := Val_long (Z.lor op (Z.shiftl arg 8)).

Definition ex_re : regexp := Regexp
  [code PUSHBACK 8; code SETMARK 0; code BEGGROUP 1; code PUSHBACK 2; code CHAR 97; code GOTO (-3); code ENDGROUP 1; code CHECKPROGRESS 0; code GOTO (-9); code CHAR 98; code ACCEPT 0]
  [replicate 97 0 ++ [1; 1] ++ replicate 157 0] [] 2 1 0.
Definition ex_str : list Z := [120; 97; 97; 98].
Definition ex_matcher : matcher := Matcher (replicate 32 (Group 0 0)) (replicate 64 0) 0 0 [] [] 0.

Definition ex_rank (p : Z) (P : gset nat) : nat :=
  nth (Z.to_nat p) (if decide (0%nat ∈ P) then [21; 20; 26; 25; 0; 26; 24; 23; 22; 0; 0] else [11; 10; 9; 8; 0; 9; 7; 6; 12; 0; 0])%nat 0%nat.

Lemma ex_cases p : in_code ex_re p → p = 0 ∨ p = 1 ∨ p = 2 ∨ p = 3 ∨ p = 4 ∨ p = 5 ∨ p = 6 ∨ p = 7 ∨ p = 8 ∨ p = 9 ∨ p = 10.
Proof. unfold in_code. change (Z.of_nat (length (Prog ex_re))) with 11. lia. Qed.

Lemma ex_re_wf : wf ex_re ex_str 5000.
Proof.
  split; try (cbn; lia); try done.
  - repeat constructor; done.
  - intros p Hp. apply ex_cases in Hp. destruct_or!; subst p; (eexists; split; [vm_compute; reflexivity|]); unfold in_code; cbn; lia.
Qed.

Lemma ex_ranked : ranked ex_re ex_rank.
Proof.
  intros p i Hi. assert (in_code ex_re p) as Hp.
  { unfold instr_at in Hi. unfold in_code. destruct (Z.leb_spec 0 p); [|done]. destruct (Prog ex_re !! Z.to_nat p) eqn:E; [|done]. apply lookup_lt_Some in E. lia. }
  apply ex_cases in Hp. destruct_or!; subst p; vm_compute in Hi; injection Hi as <-; unfold lower, ex_rank; try done; intros P; try intros HP; repeat case_decide; first [vm_compute; lia|exfalso; set_solver].
Qed.

Definition ex_final : config := Config 10 4 (<[Group_start 1 := 1%nat]> (<[Group_end 1 := 3%nat]> (<[Register 0 := 1%nat]> ∅))).

Lemma re_match_first_witness : first_match ex_re ex_str false (init 1) (Some ex_final) ∧
  ∃ N, ∀ fuel, (N <= fuel)%nat →
    match primitive (λ _, true) ex_re ex_str 5000 false fuel (Val_long 1) ex_matcher with
    | inl e => e = Out_of_memory
    | inr (s', l) => context_ok s' ∧ blocks s' = 0 ∧ accepts ex_re ex_str false (init 1) ex_final ∧
        l = group_array ex_re 1 ex_final
    end.
Proof.
  assert (first_match ex_re ex_str false (init 1) (Some ex_final)) as H
    by (apply (eval_match_sound ex_re ex_str 40); vm_compute; reflexivity).
  split; [exact H|]. apply (re_match_first (λ _, true) ex_re ex_str 5000 ex_re_wf false 1 (Some ex_final) ex_matcher); [cbn; lia|done|exact H].
Defined.

Lemma re_match_ends_witness : ∃ N, ∀ fuel, (N <= fuel)%nat →
  primitive (λ _, true) ex_re ex_str 5000 true fuel (Val_long (Z.of_nat 0)) ex_matcher ≠ inl (StrFault OutOfFuel) ∧
  primitive (λ _, true) ex_re ex_str 5000 true fuel (Val_long (Z.of_nat 0)) ex_matcher = primitive (λ _, true) ex_re ex_str 5000 true N (Val_long (Z.of_nat 0)) ex_matcher.
Proof. apply (re_match_ends (λ _, true) ex_re ex_str 5000 ex_re_wf true ex_rank 0 ex_matcher); [apply ex_ranked|cbn; lia|done]. Defined.

Lemma ex_no_match p : p ∈ [0; 4]%nat → ¬ has_match ex_re ex_str p.
Proof.
  intros Hp [d Hd]. assert (first_match ex_re ex_str false (init p) None) as H.
  { apply (eval_match_sound ex_re ex_str 40). rewrite !elem_of_cons, elem_of_nil in Hp. destruct_or!; subst; try done; vm_compute; reflexivity. }
  by apply (first_match_sound ex_re ex_str false _ _ H d).
Qed.

Lemma ex_starts : starts_ok ex_re ex_str.
Proof.
  intros _. eexists. split_and!; [reflexivity|done|]. intros p Hp Hm. destruct p as [|[|[|[|[|p]]]]]; [by destruct (ex_no_match 0 ltac:(set_solver))| | | |by destruct (ex_no_match 4 ltac:(set_solver))|cbn in Hp; lia];
    (eexists _, _; split_and!; [reflexivity|vm_compute; reflexivity|done]).
Qed.

Lemma search_forward_witness : ∃ N, ∀ fuel, (N <= fuel)%nat →
  nearest ex_re ex_str up (λ q, (0 <= q <= 4)%nat) 0 ex_matcher (re_search_forward_r (λ _, true) ex_re ex_str 5000 fuel (Val_long (Z.of_nat 0)) ex_matcher).
Proof. apply (search_forward_nearest (λ _, true) ex_re ex_str 5000 ex_re_wf ex_rank ex_ranked 0 ex_matcher); [apply ex_starts|cbn; lia|done]. Defined.

Lemma search_backward_witness : ∃ N, ∀ fuel, (N <= fuel)%nat →
  nearest ex_re ex_str down (λ q, (q <= 4)%nat) 4 ex_matcher (re_search_backward_r (λ _, true) ex_re ex_str 5000 fuel (Val_long (Z.of_nat 4)) ex_matcher).
Proof. apply (search_backward_nearest (λ _, true) ex_re ex_str 5000 ex_re_wf ex_rank ex_ranked 4 ex_matcher); [apply ex_starts|cbn; lia|done]. Defined.

(** The searches, run. *)
Example ex_search :
  match re_search_forward_r (λ _, true) ex_re ex_str 5000 60 (Val_long 0) ex_matcher, re_search_backward_r (λ _, true) ex_re ex_str 5000 60 (Val_long 4) ex_matcher with
  | inr (_, l), inr (_, k) => Some (Long_val <$> l, Long_val <$> k) | _, _ => None end = Some ([1; 4; 1; 3], [3; 4; -1; -1]).
Proof. vm_compute. reflexivity. Qed.

Lemma replacement_witness : re_replacement_text_r (λ n, replicate (Z.to_nat n) 0) [60; 92; 49; 92; 92; 62] (group_values [Some (1, 4); Some (1, 3)]%nat) ex_str = inr [60; 97; 97; 92; 62].
Proof.
  refine (replacement_correct [Some (1, 4); Some (1, 3)]%nat ex_str _ (λ n, replicate (Z.to_nat n) 0) [60; 92; 49; 92; 92; 62] _ _).
  - split; [done|]. intros [|[|n]] b e Hn; [injection Hn as <- <-; cbn; lia..|done].
  - intros n. rewrite length_replicate. lia.
  - done.
Defined.
End StrMatch.
