(* ===== verification/Warshall.v ===== *)
(** Transitive closure of bit matrices (yacc/warshall.c, macros of
    yacc/defs.h).

    A matrix of [n] rows is an array of 32-bit words, [WORDSIZE n] for each row;
    pointers into it are indices.  [transitive_closure_correct]: the matrix that
    Warshall's algorithm leaves in place is the transitive closure of the
    relation it held; the words that [SETBIT] and the loops touch are inside
    the array. *)

From stdpp Require Import relations.
From S2P Require Import Prelude.

Module Warshall.

Definition BITS_PER_WORD : Z := 32.
Definition WORDSIZE (n : Z) : Z := (n + (BITS_PER_WORD - 1)) / BITS_PER_WORD.

(** ** Arrays of words *)

Abbreviation AM := (M (list Z) fault).

Definition rd (i : Z) : AM Z := λ l, match (if 0 <=? i then l !! Z.to_nat i else None) with Some v => inr (l, v) | None => inl (BadLoad i) end.
Definition wr (i v : Z) : AM unit := λ l, match (if 0 <=? i then l !! Z.to_nat i else None) with Some _ => inr (<[Z.to_nat i := v]> l, tt) | None => inl (BadStore i) end.

Definition SETBIT (r n : Z) : AM unit :=
  let* w := rd (r + n / BITS_PER_WORD) in wr (r + n / BITS_PER_WORD) (Z.lor w (u32 (Z.shiftl 1 (n mod BITS_PER_WORD)))).

(** [while (rowj < rend) *rowj++ |= *rp++] *)
Fixpoint or_row (n : nat) (rowj rp : Z) : AM unit :=
  match n with
  | O => mreturn tt
  | S n => let* x := rd rowj in let* y := rd rp in wr rowj (Z.lor x y) ;;; or_row n (rowj + 1) (rp + 1)
  end.

(** ** The algorithm *)

(** [while (rowj < relend)] *)
Fixpoint tc_rows (fuel : nat) (rowsize relend mask rowi ccol rowj : Z) : AM unit :=
  match fuel with
  | O => mfail OutOfFuel
  | S fuel =>
      if rowj <? relend then
        let* c := rd ccol in
        (if Z.land c mask =? 0 then mreturn tt else or_row (Z.to_nat rowsize) rowj rowi) ;;;
        tc_rows fuel rowsize relend mask rowi (ccol + rowsize) (rowj + rowsize)
      else mreturn tt
  end.

(** [while (rowi < relend)] *)
Fixpoint tc_pivots (fuel m : nat) (rowsize relend cword mask rowi : Z) : AM unit :=
  match fuel with
  | O => mfail OutOfFuel
  | S fuel =>
      if rowi <? relend then
        tc_rows m rowsize relend mask rowi cword 0 ;;;
        let mask := u32 (Z.shiftl mask 1) in
        if mask =? 0 then tc_pivots fuel m rowsize relend (cword + 1) 1 (rowi + rowsize)
        else tc_pivots fuel m rowsize relend cword mask (rowi + rowsize)
      else mreturn tt
  end.

Definition transitive_closure (n : Z) : AM unit :=
  let rowsize := WORDSIZE n in
  let relend := n * rowsize in
  let fuel := S (Z.to_nat n) in
  tc_pivots fuel fuel rowsize relend 0 1 0.

(** The loop of the next function. *)
Fixpoint set_diagonal (fuel : nat) (rowsize relend mask rp : Z) : AM unit :=
  match fuel with
  | O => mfail OutOfFuel
  | S fuel =>
      if rp <? relend then
        let* w := rd rp in
        wr rp (Z.lor w mask) ;;;
        let mask := u32 (Z.shiftl mask 1) in
        if mask =? 0 then set_diagonal fuel rowsize relend 1 (rp + 1 + rowsize)
        else set_diagonal fuel rowsize relend mask (rp + rowsize)
      else mreturn tt
  end.

Definition reflexive_transitive_closure (n : Z) : AM unit :=
  transitive_closure n ;;;
  let rowsize := WORDSIZE n in
  set_diagonal (S (Z.to_nat n)) rowsize (n * rowsize) 1 0.

(** ** Bits *)

(** The bit [k] of the row that starts at [r]. *)
Definition bit (l : list Z) (r k : Z) : bool := Z.testbit (default 0 (l !! Z.to_nat (r + k / BITS_PER_WORD))) (k mod BITS_PER_WORD).

Definition u32_word (x : Z) : Prop := 0 <= x < H32.

Lemma rd_eq l i v : 0 <= i → l !! Z.to_nat i = Some v → rd i l = inr (l, v).
Proof. intros H E. unfold rd. rewrite (proj2 (Z.leb_le _ _) H). by rewrite E. Qed.

Lemma wr_eq l i v : 0 <= i < Z.of_nat (length l) → wr i v l = inr (<[Z.to_nat i := v]> l, tt).
Proof. intros H. unfold wr. rewrite (proj2 (Z.leb_le _ _)) by lia. destruct (lookup_lt_is_Some_2 l (Z.to_nat i)) as [x Hx]; [lia|]. by rewrite Hx. Qed.

Lemma rd_lookup l i : 0 <= i < Z.of_nat (length l) → rd i l = inr (l, default 0 (l !! Z.to_nat i)).
Proof. intros H. destruct (lookup_lt_is_Some_2 l (Z.to_nat i)) as [x Hx]; [lia|]. rewrite Hx. apply rd_eq; [lia|done]. Qed.

(** [or_row] on whole words. *)
Lemma or_row_eq n : ∀ rowj rp l, 0 <= rowj → 0 <= rp → rowj + Z.of_nat n <= Z.of_nat (length l) → rp + Z.of_nat n <= Z.of_nat (length l) → (rp = rowj ∨ rowj + Z.of_nat n <= rp ∨ rp + Z.of_nat n <= rowj) →
  ∃ l', or_row n rowj rp l = inr (l', tt) ∧ length l' = length l ∧
    ∀ i, 0 <= i → default 0 (l' !! Z.to_nat i) = if (rowj <=? i) && (i <? rowj + Z.of_nat n) then Z.lor (default 0 (l !! Z.to_nat i)) (default 0 (l !! Z.to_nat (rp + (i - rowj)))) else default 0 (l !! Z.to_nat i).
Proof.
  induction n as [|n IH]; intros rowj rp l H1 H2 H3 H4 H5; cbn [or_row].
  - exists l. split_and!; [done..|]. intros i Hi. destruct (Z.leb_spec rowj i), (Z.ltb_spec i (rowj + Z.of_nat 0)); try done. lia.
  - unfold mbnd. rewrite !rd_lookup by lia. rewrite wr_eq by lia. set (x := Z.lor _ _). set (l1 := <[Z.to_nat rowj := x]> l).
    assert (length l1 = length l) as El by apply length_insert. destruct (IH (rowj + 1) (rp + 1) l1) as (l' & E & Hl & Hb); [lia|lia|lia|lia|lia|]. exists l'. split_and!; [done|congruence|].
    intros i Hi. rewrite Hb by done. assert (∀ k, 0 <= k → k ≠ rowj → l1 !! Z.to_nat k = l !! Z.to_nat k) as Hne by (intros k Hk Hd; apply list_lookup_insert_ne; lia).
    destruct (Z.leb_spec rowj i), (Z.leb_spec (rowj + 1) i), (Z.ltb_spec i (rowj + Z.of_nat (S n))), (Z.ltb_spec i (rowj + 1 + Z.of_nat n)); cbn [andb]; try lia; try (rewrite Hne by lia; done).
    + rewrite (Hne i) by lia. f_equal. replace (rp + 1 + (i - (rowj + 1))) with (rp + (i - rowj)) by lia. by rewrite Hne by lia.
    + replace i with rowj by lia. unfold l1. rewrite list_lookup_insert_eq by lia. cbn. unfold x. replace (rp + (rowj - rowj)) with rp by lia. done.
Qed.

Lemma set_bit_lookup l p v x : 0 <= p < Z.of_nat (length l) → 0 <= x → default 0 (<[Z.to_nat p := v]> l !! Z.to_nat x) = if x =? p then v else default 0 (l !! Z.to_nat x).
Proof.
  intros Hp Hx. destruct (Z.eqb_spec x p) as [->|Hne]; [by rewrite list_lookup_insert_eq by lia|by rewrite list_lookup_insert_ne by lia].
Qed.

(** The next mask. *)
Lemma next_mask i : 0 <= i → let mask := u32 (Z.shiftl (2 ^ (i mod BITS_PER_WORD)) 1) in
  if mask =? 0 then (i + 1) mod BITS_PER_WORD = 0 ∧ (i + 1) / BITS_PER_WORD = i / BITS_PER_WORD + 1
  else mask = 2 ^ ((i + 1) mod BITS_PER_WORD) ∧ (i + 1) / BITS_PER_WORD = i / BITS_PER_WORD.
Proof.
  intros Hi. cbv zeta. unfold BITS_PER_WORD. set (k := i mod 32). assert (0 <= k < 32) as Hk by (apply Z.mod_pos_bound; lia). assert (i = 32 * (i / 32) + k) as Ei by (unfold k; apply Z.div_mod; lia).
  assert (u32 (Z.shiftl (2 ^ k) 1) = if k =? 31 then 0 else 2 ^ (k + 1)) as ->.
  { unfold u32. rewrite Z.shiftl_mul_pow2 by lia. rewrite <- Z.pow_add_r by lia. destruct (Z.eqb_spec k 31) as [->|Hne]; [done|]. apply Z.mod_small. split; [apply Z.pow_nonneg; lia|].
    change H32 with (2 ^ 32). apply Z.pow_lt_mono_r; lia. }
  destruct (Z.eqb_spec k 31) as [E|Hne].
  - cbn [Z.eqb]. rewrite E in Ei. split.
    + symmetry. apply (Z.mod_unique_pos _ _ (i / 32 + 1)); lia.
    + symmetry. apply (Z.div_unique_pos _ _ _ 0); lia.
  - rewrite (proj2 (Z.eqb_neq _ _)) by (apply Z.pow_nonzero; lia). split.
    + f_equal. apply (Z.mod_unique_pos _ _ (i / 32)); lia.
    + symmetry. apply (Z.div_unique_pos _ _ _ (k + 1)); lia.
Qed.

(** ** Matrices *)

Section Matrix.
Context (n : Z) (Hn : 0 <= n).
Let rs : Z := WORDSIZE n.

Definition ok (l : list Z) : Prop := Z.of_nat (length l) = n * WORDSIZE n.
Definition mbit (l : list Z) (a b : Z) : bool := bit l (a * WORDSIZE n) b.

Lemma word_index b : 0 <= b < n → 0 <= b / BITS_PER_WORD < rs ∧ 0 <= b mod BITS_PER_WORD < 32.
Proof.
  intros H. unfold rs, WORDSIZE, BITS_PER_WORD. split; [|apply Z.mod_pos_bound; lia]. split; [apply Z.div_pos; lia|]. apply Z.div_lt_upper_bound; [lia|].
  pose proof (Z.div_mod (n + (32 - 1)) 32 ltac:(lia)). pose proof (Z.mod_pos_bound (n + (32 - 1)) 32 ltac:(lia)). lia.
Qed.

Lemma rs_nonneg : 0 <= rs.
Proof. unfold rs, WORDSIZE, BITS_PER_WORD. apply Z.div_pos; lia. Qed.

Lemma row_index a b : 0 <= a < n → 0 <= b < n → 0 <= a * rs + b / BITS_PER_WORD < n * rs ∧ a * rs <= a * rs + b / BITS_PER_WORD < (a + 1) * rs.
Proof. intros Ha Hb. destruct (word_index b Hb). pose proof rs_nonneg. nia. Qed.

(** One row into another. *)
Lemma or_row_bits a i l : ok l → 0 <= a < n → 0 <= i < n → ∃ l', or_row (Z.to_nat rs) (a * rs) (i * rs) l = inr (l', tt) ∧ ok l' ∧
  ∀ a' b, 0 <= a' < n → 0 <= b < n → mbit l' a' b = if a' =? a then mbit l a b || mbit l i b else mbit l a' b.
Proof.
  intros Hok Ha Hi. unfold ok in *. fold rs in Hok. pose proof rs_nonneg as Hrs. assert (Z.of_nat (Z.to_nat rs) = rs) as Ers by lia.
  destruct (or_row_eq (Z.to_nat rs) (a * rs) (i * rs) l) as (l' & E & Hl & Hb); rewrite ?Ers in *; [nia..| |].
  { destruct (decide (i = a)) as [->|]; [by left|right]. assert (a + 1 <= i ∨ i + 1 <= a) as [H|H] by lia; [left|right]; nia. }
  exists l'. split_and!; [done|by rewrite Hl|]. intros a' b Ha' Hb'. unfold mbit, bit. fold rs. destruct (row_index a' b Ha' Hb') as [R1 R2]. rewrite Hb by lia.
  destruct (Z.eqb_spec a' a) as [->|Hne].
  - rewrite (proj2 (Z.leb_le _ _)), (proj2 (Z.ltb_lt _ _)) by lia. cbn [andb]. rewrite Z.lor_spec. do 3 f_equal. f_equal. lia.
  - destruct (Z.leb_spec (a * rs) (a' * rs + b / BITS_PER_WORD)), (Z.ltb_spec (a' * rs + b / BITS_PER_WORD) (a * rs + rs)); try done. exfalso. nia.
Qed.

Lemma mask_test l a i : ok l → 0 <= a < n → 0 <= i < n → rd (i / BITS_PER_WORD + a * rs) l = inr (l, default 0 (l !! Z.to_nat (a * rs + i / BITS_PER_WORD))) ∧
  (Z.land (default 0 (l !! Z.to_nat (a * rs + i / BITS_PER_WORD))) (2 ^ (i mod BITS_PER_WORD)) =? 0) = negb (mbit l a i).
Proof.
  intros Hok Ha Hi. destruct (row_index a i Ha Hi) as [R1 R2]. unfold ok in Hok. fold rs in Hok. replace (i / BITS_PER_WORD + a * rs) with (a * rs + i / BITS_PER_WORD) by lia. split; [apply rd_lookup; lia|].
  unfold mbit, bit. fold rs. destruct (word_index i Hi) as [_ Hk]. set (w := default 0 _). set (k := i mod BITS_PER_WORD) in *. destruct (Z.testbit w k) eqn:E.
  - apply Z.eqb_neq. intros H. apply (f_equal (λ x, Z.testbit x k)) in H. rewrite Z.land_spec, Z.bits_0, E, Z.pow2_bits_true in H by lia. done.
  - apply Z.eqb_eq. apply Z.bits_inj'. intros j Hj. rewrite Z.land_spec, Z.bits_0. destruct (decide (j = k)) as [->|]; [by rewrite E|]. rewrite Z.pow2_bits_false by lia. apply andb_false_r.
Qed.

(** The rows from [j] on, for the pivot [i]. *)
Lemma tc_rows_bits i : 0 <= i < n → ∀ fuel j l, ok l → 0 <= j <= n → (Z.to_nat (n - j) < fuel)%nat →
  ∃ l', tc_rows fuel rs (n * rs) (2 ^ (i mod BITS_PER_WORD)) (i * rs) (i / BITS_PER_WORD + j * rs) (j * rs) l = inr (l', tt) ∧ ok l' ∧
    ∀ a b, 0 <= a < n → 0 <= b < n → mbit l' a b = mbit l a b || (j <=? a) && mbit l a i && mbit l i b.
Proof.
  intros Hi fuel. induction fuel as [|fuel IH]; intros j l Hok Hj Hf; [lia|]. cbn [tc_rows]. destruct (word_index i Hi) as [Hw _]. destruct (Z.ltb_spec (j * rs) (n * rs)) as [Hlt|Hge].
  - assert (j < n) as Hjn by nia. destruct (mask_test l j i Hok ltac:(lia) Hi) as [E1 E2]. rewrite (mbnd_eq _ _ _ _ _ E1), E2.
    assert (∃ l1, (if negb (mbit l j i) then mreturn tt else or_row (Z.to_nat rs) (j * rs) (i * rs)) l = inr (l1, tt) ∧ ok l1 ∧
      ∀ a b, 0 <= a < n → 0 <= b < n → mbit l1 a b = mbit l a b || (a =? j) && mbit l j i && mbit l i b) as (l1 & E & Hok1 & Hb1).
    { destruct (mbit l j i) eqn:Eji; cbn [negb].
      - destruct (or_row_bits j i l Hok ltac:(lia) Hi) as (l1 & E & Hok1 & Hb1). exists l1. split_and!; [done..|]. intros a b Ha Hb. rewrite (Hb1 a b Ha Hb).
        destruct (Z.eqb_spec a j) as [->|]; [by rewrite andb_true_l|by rewrite orb_false_r].
      - exists l. split_and!; [done..|]. intros a b _ _. by rewrite andb_false_r, orb_false_r. }
    rewrite (mbnd_eq _ _ _ _ _ E). replace (i / BITS_PER_WORD + j * rs + rs) with (i / BITS_PER_WORD + (j + 1) * rs) by lia. replace (j * rs + rs) with ((j + 1) * rs) by lia.
    destruct (IH (j + 1) l1 Hok1 ltac:(lia) ltac:(lia)) as (l' & E' & Hok' & Hb'). exists l'. split_and!; [done..|]. intros a b Ha Hb. rewrite Hb', !Hb1 by done.
    destruct (Z.eqb_spec a j) as [->|Hne], (Z.eqb_spec i j) as [->|Hij]; destruct (Z.leb_spec (j + 1) a) as [L1|L1] || destruct (Z.leb_spec (j + 1) j) as [L1|L1];
      destruct (Z.leb_spec j a) as [L2|L2] || destruct (Z.leb_spec j j) as [L2|L2]; try lia; cbn [andb orb]; rewrite ?orb_false_r, ?andb_false_r; try done; try by (repeat match goal with |- context[mbit l ?x ?y] => destruct (mbit l x y) end).
  - exists l. split_and!; [done..|]. assert (j = n) as -> by nia. intros a b Ha Hb. rewrite (proj2 (Z.leb_gt _ _)) by lia. by rewrite orb_false_r.
Qed.

(** *** Paths *)

(** [b] can be reached from [a] through vertices below [k]. *)
Fixpoint via (E : Z → Z → Prop) (k : nat) (a b : Z) : Prop :=
  match k with O => E a b | S k => via E k a b ∨ via E k a (Z.of_nat k) ∧ via E k (Z.of_nat k) b end.

Lemma via_trans E k : ∀ a b c, 0 <= b < Z.of_nat k → via E k a b → via E k b c → via E k a c.
Proof.
  induction k as [|k IH]; intros a b c Hb H1 H2; [lia|]. cbn in *. destruct (decide (b = Z.of_nat k)) as [->|Hne]; [tauto|]. assert (0 <= b < Z.of_nat k) as Hb' by lia.
  destruct H1 as [H1|[H1 H1']], H2 as [H2|[H2 H2']].
  - left. by eapply IH.
  - right. split; [by eapply IH|done].
  - right. split; [done|by eapply IH].
  - by right.
Qed.

Lemma via_edge E k a b : E a b → via E k a b.
Proof. intros H. induction k; cbn; auto. Qed.

Definition edge (l : list Z) (a b : Z) : Prop := 0 <= a < n ∧ 0 <= b < n ∧ mbit l a b = true.

Lemma via_tc E k a b : via E k a b → tc E a b.
Proof.
  revert a b. induction k as [|k IH]; intros a b; cbn; [apply tc_once|]. intros [H|[H1 H2]]; [by apply IH|]. etrans; by apply IH.
Qed.

Lemma tc_via l a b : tc (edge l) a b ↔ via (edge l) (Z.to_nat n) a b.
Proof.
  split; [|apply via_tc]. induction 1 as [a b H|a b c H _ IH]; [by apply via_edge|]. eapply via_trans; [|by apply via_edge|done]. destruct H as (_ & H & _). lia.
Qed.

Lemma via_range l k a b : via (edge l) k a b → 0 <= a < n ∧ 0 <= b < n.
Proof. revert a b. induction k as [|k IH]; intros a b; cbn; [unfold edge; tauto|]. intros [H|[H1 H2]]; [by apply IH|]. split; [by apply (IH a (Z.of_nat k))|by apply (IH (Z.of_nat k) b)]. Qed.

Lemma tc_pivots_bits l0 : ∀ fuel i l, ok l → 0 <= i <= n → (Z.to_nat (n - i) < fuel)%nat → (∀ a b, edge l a b ↔ via (edge l0) (Z.to_nat i) a b) →
  ∃ l', tc_pivots fuel (S (Z.to_nat n)) rs (n * rs) (i / BITS_PER_WORD) (2 ^ (i mod BITS_PER_WORD)) (i * rs) l = inr (l', tt) ∧ ok l' ∧ ∀ a b, edge l' a b ↔ via (edge l0) (Z.to_nat n) a b.
Proof.
  intros fuel. induction fuel as [|fuel IH]; intros i l Hok Hi Hf Hvia; [lia|]. cbn [tc_pivots]. destruct (Z.ltb_spec (i * rs) (n * rs)) as [Hlt|Hge].
  - pose proof rs_nonneg. assert (i < n) as Hin by nia. destruct (tc_rows_bits i ltac:(lia) (S (Z.to_nat n)) 0 l Hok ltac:(lia) ltac:(lia)) as (l1 & E & Hok1 & Hb).
    rewrite Z.mul_0_l, Z.add_0_r in E. rewrite (mbnd_eq _ _ _ _ _ E). pose proof (next_mask i ltac:(lia)) as Hm. cbv zeta in Hm |- *. replace (i * rs + rs) with ((i + 1) * rs) by lia.
    assert (∀ a b, edge l1 a b ↔ via (edge l0) (Z.to_nat (i + 1)) a b) as Hvia1.
    { intros a b. replace (Z.to_nat (i + 1)) with (S (Z.to_nat i)) by lia. cbn [via]. replace (Z.of_nat (Z.to_nat i)) with i by lia. rewrite <- !Hvia. unfold edge. split.
      - intros (Ha & Hb' & Hm'). rewrite Hb in Hm' by done. rewrite (proj2 (Z.leb_le _ _)), andb_true_l in Hm' by lia. apply orb_true_iff in Hm' as [?|[? ?]%andb_true_iff]; [by left|right; split_and!; done || lia].
      - intros [(Ha & Hb' & Hm')|[(Ha & _ & Hm1) (_ & Hb' & Hm2)]]; split_and!; try lia; rewrite Hb by done; rewrite ?Hm', ?Hm1, ?Hm2, ?(proj2 (Z.leb_le 0 a)) by lia; [done|apply orb_true_r]. }
    destruct (u32 _ =? 0) eqn:E0.
    + destruct Hm as [M1 M2]. pose proof (IH (i + 1) l1 Hok1 ltac:(lia) ltac:(lia) Hvia1) as Hr. rewrite M1, M2 in Hr. exact Hr.
    + destruct Hm as [-> <-]. apply IH; [done|lia|lia|done].
  - exists l. split_and!; [done..|]. assert (i = n ∨ n = 0) as [->| ->]; [|done|].
    { destruct (decide (n = 0)) as [|Hn0]; [by right|left]. assert (0 < rs) as Hrs by (destruct (word_index 0 ltac:(lia)); lia). nia. }
    by replace i with 0 in Hvia by lia.
Qed.

Lemma transitive_closure_run l : ok l → ∃ l', transitive_closure n l = inr (l', tt) ∧ ok l' ∧ ∀ a b, edge l' a b ↔ tc (edge l) a b.
Proof.
  intros Hok. destruct (tc_pivots_bits l (S (Z.to_nat n)) 0 l Hok ltac:(lia) ltac:(lia)) as (l' & E & Hok' & H); [done|]. exists l'. split_and!; [|done|].
  - unfold transitive_closure. fold rs. exact E.
  - intros a b. by rewrite H, tc_via.
Qed.

(** [transitive_closure] replaces the relation that a bit matrix holds by
    its transitive closure, for any number of rows, and touches no word
    outside the matrix. *)
Theorem transitive_closure_correct l : ok l → ∃ l', transitive_closure n l = inr (l', tt) ∧ ok l' ∧ ∀ a b, edge l' a b ↔ tc (edge l) a b.
Proof. apply transitive_closure_run. Qed.

Lemma same_cell a i b : 0 <= a < n → 0 <= i < n → 0 <= b < n → (a * rs + b / BITS_PER_WORD =? i * rs + i / BITS_PER_WORD) = (a =? i) && (b / BITS_PER_WORD =? i / BITS_PER_WORD).
Proof.
  intros Ha Hi Hb. destruct (word_index b Hb) as [B _], (word_index i Hi) as [I _]. destruct (Z.eqb_spec a i) as [->|Hne]; cbn [andb].
  - destruct (Z.eqb_spec (b / BITS_PER_WORD) (i / BITS_PER_WORD)) as [->|]; [by apply Z.eqb_eq|apply Z.eqb_neq; lia].
  - apply Z.eqb_neq. intros E. assert (a + 1 <= i ∨ i + 1 <= a) as [H|H] by lia; nia.
Qed.

(** The bit of the diagonal in each row. *)
Lemma set_diagonal_bits : ∀ fuel i l, ok l → 0 <= i <= n → (Z.to_nat (n - i) < fuel)%nat →
  ∃ l', set_diagonal fuel rs (n * rs) (2 ^ (i mod BITS_PER_WORD)) (i * rs + i / BITS_PER_WORD) l = inr (l', tt) ∧ ok l' ∧
    ∀ a b, 0 <= a < n → 0 <= b < n → mbit l' a b = mbit l a b || (i <=? a) && (a =? b).
Proof.
  intros fuel. induction fuel as [|fuel IH]; intros i l Hok Hi Hf; [lia|]. cbn [set_diagonal]. destruct (decide (i = n)) as [->|Hin].
  - rewrite (proj2 (Z.ltb_ge _ _)) by (assert (0 <= n / BITS_PER_WORD) by (apply Z.div_pos; unfold BITS_PER_WORD; lia); lia). exists l. split_and!; [done..|]. intros a b Ha Hb. rewrite (proj2 (Z.leb_gt _ _)) by lia. by rewrite orb_false_r.
  - destruct (row_index i i ltac:(lia) ltac:(lia)) as [R1 R2]. rewrite (proj2 (Z.ltb_lt _ _)) by lia. pose proof Hok as Hok'. unfold ok in Hok'. fold rs in Hok'.
    set (p := i * rs + i / BITS_PER_WORD) in *. rewrite (mbnd_eq _ _ _ _ _ (rd_lookup l p ltac:(lia))). rewrite (mbnd_eq _ _ _ _ _ (wr_eq l p _ ltac:(lia))).
    set (l1 := <[Z.to_nat p := _]> l). assert (ok l1) as Hok1 by (unfold ok, l1; rewrite length_insert; done).
    assert (∀ a b, 0 <= a < n → 0 <= b < n → mbit l1 a b = mbit l a b || (a =? i) && (a =? b)) as Hb1.
    { intros a b Ha Hb. unfold mbit, bit. fold rs. destruct (row_index a b Ha Hb) as [Q1 Q2]. unfold l1. rewrite set_bit_lookup by lia. unfold p. rewrite same_cell by lia.
      destruct (Z.eqb_spec a i) as [->|]; cbn [andb]; [|by rewrite orb_false_r]. destruct (Z.eqb_spec (b / BITS_PER_WORD) (i / BITS_PER_WORD)) as [E|E].
      - rewrite Z.lor_spec, E. f_equal. destruct (word_index i ltac:(lia)) as [_ Ik], (word_index b Hb) as [_ Bk]. destruct (Z.eqb_spec i b) as [->|Hne]; [by rewrite Z.pow2_bits_true by lia|].
        apply Z.pow2_bits_false. intros E2. apply Hne. rewrite (Z.div_mod i BITS_PER_WORD), (Z.div_mod b BITS_PER_WORD) by (unfold BITS_PER_WORD; lia). congruence.
      - rewrite (proj2 (Z.eqb_neq i b)) by congruence. by rewrite orb_false_r. }
    pose proof (next_mask i ltac:(lia)) as Hm. cbv zeta in Hm |- *.
    assert (∃ l', (if u32 (Z.shiftl (2 ^ (i mod BITS_PER_WORD)) 1) =? 0 then set_diagonal fuel rs (n * rs) 1 (p + 1 + rs) else set_diagonal fuel rs (n * rs) (u32 (Z.shiftl (2 ^ (i mod BITS_PER_WORD)) 1)) (p + rs)) l1 = inr (l', tt) ∧ ok l' ∧
      ∀ a b, 0 <= a < n → 0 <= b < n → mbit l' a b = mbit l1 a b || (i + 1 <=? a) && (a =? b)) as (l' & E & Hok2 & Hb2).
    { destruct (u32 _ =? 0) eqn:E0; destruct Hm as [M1 M2].
      - replace (p + 1 + rs) with ((i + 1) * rs + (i + 1) / BITS_PER_WORD) by (rewrite M2; unfold p; lia). pose proof (IH (i + 1) l1 Hok1 ltac:(lia) ltac:(lia)) as Hr. rewrite M1 in Hr. exact Hr.
      - replace (p + rs) with ((i + 1) * rs + (i + 1) / BITS_PER_WORD) by (rewrite M2; unfold p; lia). rewrite M1. apply IH; [done|lia|lia]. }
    exists l'. split_and!; [|done|].
    + rewrite <- E. by destruct (u32 _ =? 0).
    + intros a b Ha Hb. rewrite Hb2, Hb1 by done. destruct (Z.eqb_spec a i) as [->|]; [rewrite (proj2 (Z.leb_gt (i + 1) i)), (proj2 (Z.leb_le i i)) by lia; cbn; by rewrite orb_false_r|]. cbn [andb]. rewrite orb_false_r.
      f_equal. f_equal. destruct (Z.leb_spec (i + 1) a), (Z.leb_spec i a); lia || done.
Qed.

Lemma reflexive_transitive_closure_run l : ok l → ∃ l', reflexive_transitive_closure n l = inr (l', tt) ∧ ok l' ∧
  ∀ a b, edge l' a b ↔ 0 <= a < n ∧ 0 <= b < n ∧ rtc (edge l) a b.
Proof.
  intros Hok. unfold reflexive_transitive_closure. destruct (transitive_closure_run l Hok) as (l1 & E & Hok1 & H1). rewrite (mbnd_eq _ _ _ _ _ E). fold rs.
  destruct (set_diagonal_bits (S (Z.to_nat n)) 0 l1 Hok1 ltac:(lia) ltac:(lia)) as (l' & E' & Hok' & H). exists l'. split_and!; [done..|]. intros a b. split.
  - intros (Ha & Hb & Hm). split_and!; try lia. rewrite H in Hm by done. apply orb_true_iff in Hm as [Hm|Hm]; [apply tc_rtc, H1; done|]. rewrite (proj2 (Z.leb_le 0 a)) in Hm by lia. apply Z.eqb_eq in Hm as ->. done.
  - intros (Ha & Hb & Hr). unfold edge. split_and!; try lia. rewrite H by done. apply orb_true_iff. destruct (decide (a = b)) as [->|Hne]; [right; rewrite (proj2 (Z.leb_le 0 b)) by lia; apply Z.eqb_refl|left].
    apply rtc_tc in Hr as [->|Hr]; [done|]. by apply H1 in Hr as (_ & _ & ?).
Qed.
End Matrix.

(** The cycle 0, 1, 2 and the vertex 3, which reaches it. *)
Lemma transitive_closure_witness : ∃ l', transitive_closure 4 [2; 4; 1; 1] = inr (l', tt) ∧ ok 4 l' ∧ ∀ a b, edge 4 l' a b ↔ tc (edge 4 [2; 4; 1; 1]) a b.
Proof. apply (transitive_closure_correct 4 ltac:(lia) [2; 4; 1; 1]). reflexivity. Defined.

Example ex_transitive_closure : transitive_closure 4 [2; 4; 1; 1] = inr ([7; 7; 7; 7], tt).
Proof. vm_compute. reflexivity. Qed.
End Warshall.
