(* ===== verification/YaccClosure.v ===== *)
(** Closures of sets of LR(0) items (yacc/closure.c).

    [set_EFF] relates each variable to those that can begin it without
    derivation of the empty word ("epsilon free firsts"), [set_first_derives]
    gives each variable the rules it can begin with, and [closure] merges a
    sorted nucleus with the initial items of these rules.
    [closure_correct]: the result is the closure of the nucleus in the sense of
    LR(0) automata, sorted and without repetition, and fits in the array
    allocated for it.

    An item is the index in [ritem] of the symbol after its dot. *)

From stdpp Require Import relations sorting.
From S2P Require Import Prelude Warshall.
Import Warshall.

Module YaccClosure.

(** The grammar, packed in arrays; [derives] holds, for each variable, its
    rules and then a negative number. *)
Record grammar : Type := Grammar {
  ntokens : Z; nsyms : Z; nrules : Z; nitems : Z;
  ritem : list Z; rrhs : list Z; derives : list (list Z)
}.

Section Closure.
Context (g : grammar).

Definition nvars : Z := nsyms g - ntokens g.
Definition start_symbol : Z := ntokens g.
Definition ISVAR (s : Z) : bool := start_symbol <=? s.

Definition get {S} (l : list Z) (i : Z) : M S fault Z :=
  match (if 0 <=? i then l !! Z.to_nat i else None) with Some v => mreturn v | None => mfail (BadLoad i) end.
Definition get_derives {S} (i : Z) : M S fault (list Z) :=
  match (if 0 <=? i then derives g !! Z.to_nat i else None) with Some v => mreturn v | None => mfail (BadLoad i) end.

(** [for (rule = *sp; rule > 0; rule = *++sp)] *)
Fixpoint eff_rules (sp : list Z) (row : Z) : AM unit :=
  match sp with
  | [] => mfail (BadLoad row)
  | rule :: sp =>
      if 0 <? rule then
        let* i := get (rrhs g) rule in
        let* symbol := get (ritem g) i in
        (if ISVAR symbol then SETBIT row (symbol - start_symbol) else mreturn tt) ;;;
        eff_rules sp row
      else mreturn tt
  end.

(** The state is [EFF], allocated and cleared. *)
Definition set_EFF : AM unit :=
  let rowsize := WORDSIZE nvars in
  for_up (Z.to_nat (nsyms g - start_symbol)) start_symbol (λ i,
    let* sp := get_derives i in
    eff_rules sp ((i - start_symbol) * rowsize)) ;;;
  reflexive_transitive_closure nvars.

(** [while ((rule = *rp++) >= 0) SETBIT(rrow, rule)] *)
Fixpoint fd_rules (rp : list Z) (rrow : Z) : AM unit :=
  match rp with
  | [] => mfail (BadLoad rrow)
  | rule :: rp => if 0 <=? rule then SETBIT rrow rule ;;; fd_rules rp rrow else mreturn tt
  end.

Section First.
(** [EFF], and the word that follows it in memory: when the number of variables
    is a multiple of 32 the loop reads it, after the last variable of the last
    row. *)
Context (EFF : list Z) (beyond : Z).

Definition eff_word (i : Z) : AM Z :=
  if i =? Z.of_nat (length EFF) then mreturn beyond else get EFF i.

(** [for (j = start_symbol; j < nsyms; j++)] *)
Fixpoint fd_vars (n : nat) (j cword mask vrow rrow : Z) : AM unit :=
  match n with
  | O => mreturn tt
  | S n =>
      (if Z.land cword mask =? 0 then mreturn tt else let* rp := get_derives j in fd_rules rp rrow) ;;;
      let mask := u32 (Z.shiftl mask 1) in
      if mask =? 0 then let* cword := eff_word vrow in fd_vars n (j + 1) cword 1 (vrow + 1) rrow
      else fd_vars n (j + 1) cword mask vrow rrow
  end.

(** The state is [first_derives], from the row of the first variable on. *)
Definition first_derives_loop : AM unit :=
  let rulesetsize := WORDSIZE (nrules g) in
  let varsetsize := WORDSIZE nvars in
  for_up (Z.to_nat (nsyms g - start_symbol)) start_symbol (λ i,
    let vrow := (i - ntokens g) * varsetsize in
    let* cword := eff_word vrow in
    fd_vars (Z.to_nat (nsyms g - start_symbol)) start_symbol cword 1 (vrow + 1) ((i - start_symbol) * rulesetsize)).
End First.

Definition zeros (n : Z) : list Z := replicate (Z.to_nat n) 0.

Definition set_first_derives (beyond : Z) : fault + list Z :=
  match set_EFF (zeros (nvars * WORDSIZE nvars)) with
  | inl e => inl e
  | inr (EFF, _) =>
      match first_derives_loop EFF beyond (zeros (nvars * WORDSIZE (nrules g))) with
      | inl e => inl e
      | inr (first_derives, _) => inr first_derives
      end
  end.

(** ** [closure] *)

Section Items.
Context (first_derives : list Z).

(** [while (rsp < rsend) *rsp++ |= *dsp++] *)
Fixpoint or_rules (n : nat) (rsp dsp : Z) : AM unit :=
  match n with
  | O => mreturn tt
  | S n => let* x := rd rsp in let* y := get first_derives dsp in wr rsp (Z.lor x y) ;;; or_rules n (rsp + 1) (dsp + 1)
  end.

(** The first loop on the nucleus: the state is [ruleset]. *)
Fixpoint closure_rules (nucleus : list Z) : AM unit :=
  match nucleus with
  | [] => mreturn tt
  | item :: nucleus =>
      let* symbol := get (ritem g) item in
      (if ISVAR symbol then or_rules (Z.to_nat (WORDSIZE (nrules g))) 0 ((symbol - ntokens g) * WORDSIZE (nrules g)) else mreturn tt) ;;;
      closure_rules nucleus
  end.

(** The rest of the nucleus and [itemset] up to [itemsetend], an array of
    [nitems] elements. *)
Record merge : Type := Merge { csp : list Z; itemset : list Z }.
Abbreviation CM := (M merge fault).

Definition emit (x : Z) : CM unit :=
  let* s := mget in
  if Z.of_nat (length (itemset s)) <? nitems g then mmodify (λ s, Merge (csp s) (itemset s ++ [x])) else mfail (BadStore (Z.of_nat (length (itemset s)))).

(** [while (csp < csend && *csp < itemno) *itemsetend++ = *csp++]; [l] is the
    rest of the nucleus. *)
Fixpoint copy_below (l : list Z) (itemno : Z) : CM unit :=
  match l with
  | [] => mreturn tt
  | x :: l => if x <? itemno then emit x ;;; mmodify (λ s, Merge l (itemset s)) ;;; copy_below l itemno else mreturn tt
  end.

(** [while (csp < csend && *csp == itemno) ++csp] *)
Fixpoint skip_equal (l : list Z) (itemno : Z) : CM unit :=
  match l with
  | [] => mreturn tt
  | x :: l => if x =? itemno then mmodify (λ s, Merge l (itemset s)) ;;; skip_equal l itemno else mreturn tt
  end.

(** [while (mask)]: the mask is 0 after 32 shifts. *)
Fixpoint merge_word (fuel : nat) (word mask ruleno : Z) : CM Z :=
  match fuel with
  | O => mfail OutOfFuel
  | S fuel =>
      if mask =? 0 then mreturn ruleno else
      (if Z.land word mask =? 0 then mreturn tt else
         let* itemno := get (rrhs g) ruleno in
         let* s := mget in
         copy_below (csp s) itemno ;;;
         emit itemno ;;;
         let* s := mget in
         skip_equal (csp s) itemno) ;;;
      merge_word fuel word (u32 (Z.shiftl mask 1)) (ruleno + 1)
  end.

(** [for (rsp = ruleset; rsp < rsend; ++rsp)] *)
Fixpoint merge_words (ruleset : list Z) (ruleno : Z) : CM unit :=
  match ruleset with
  | [] => mreturn tt
  | word :: ruleset =>
      if word =? 0 then merge_words ruleset (ruleno + BITS_PER_WORD)
      else let* ruleno := merge_word 33 word 1 ruleno in merge_words ruleset ruleno
  end.

(** [while (csp < csend) *itemsetend++ = *csp++] *)
Fixpoint copy_rest (l : list Z) : CM unit :=
  match l with
  | [] => mreturn tt
  | x :: l => emit x ;;; mmodify (λ s, Merge l (itemset s)) ;;; copy_rest l
  end.

Definition closure (nucleus : list Z) : fault + list Z :=
  match closure_rules nucleus (zeros (WORDSIZE (nrules g))) with
  | inl e => inl e
  | inr (ruleset, _) =>
      match (merge_words ruleset 0 ;;; let* s := mget in copy_rest (csp s)) (Merge nucleus []) with
      | inl e => inl e
      | inr (s, _) => inr (itemset s)
      end
  end.
End Items.
End Closure.

(** ** Rectangular bit arrays *)

Section Bits.
Context (rows rw : Z).

Definition shape (l : list Z) : Prop := Z.of_nat (length l) = rows * rw.

Lemma bit_index k : 0 <= k < 32 * rw → 0 <= k / BITS_PER_WORD < rw ∧ 0 <= k mod BITS_PER_WORD < 32.
Proof. intros H. unfold BITS_PER_WORD. split; [|apply Z.mod_pos_bound; lia]. split; [apply Z.div_pos; lia|apply Z.div_lt_upper_bound; lia]. Qed.

Lemma bit_mask k : u32 (Z.shiftl 1 (k mod BITS_PER_WORD)) = 2 ^ (k mod BITS_PER_WORD).
Proof.
  assert (0 <= k mod BITS_PER_WORD < 32) by (unfold BITS_PER_WORD; apply Z.mod_pos_bound; lia). rewrite Z.shiftl_mul_pow2, Z.mul_1_l by lia. unfold u32. apply Z.mod_small.
  split; [apply Z.pow_nonneg; lia|]. change H32 with (2 ^ 32). apply Z.pow_lt_mono_r; lia.
Qed.

Lemma SETBIT_eq l a k : shape l → 0 <= a < rows → 0 <= k < 32 * rw → wp (SETBIT (a * rw) k) (λ _ l', shape l' ∧
  ∀ a' k', 0 <= a' < rows → 0 <= k' < 32 * rw → bit l' (a' * rw) k' = bit l (a' * rw) k' || (a' =? a) && (k' =? k)) l.
Proof.
  intros Hl Ha Hk. destruct (bit_index k Hk) as [K1 K2]. unfold shape in *. assert (0 <= a * rw + k / BITS_PER_WORD < Z.of_nat (length l)) as Hin by nia. unfold SETBIT.
  apply wp_bind. eapply wp_intro; [by apply rd_lookup|]. eapply wp_intro; [by apply wr_eq|]. split; [by rewrite length_insert|]. intros a' k' Ha' Hk'. destruct (bit_index k' Hk') as [K1' K2'].
  unfold bit. rewrite set_bit_lookup by nia. destruct (Z.eqb_spec (a' * rw + k' / BITS_PER_WORD) (a * rw + k / BITS_PER_WORD)) as [E|E].
  - assert (a' = a) as -> by (assert (a' + 1 <= a ∨ a + 1 <= a' ∨ a' = a) as [?|[?|?]] by lia; [nia|nia|done]). rewrite Z.eqb_refl. cbn [andb]. assert (k' / BITS_PER_WORD = k / BITS_PER_WORD) as E' by lia.
    rewrite bit_mask, Z.lor_spec, E'. f_equal. destruct (Z.eqb_spec k' k) as [->|Hne]; [by rewrite Z.pow2_bits_true by lia|]. apply Z.pow2_bits_false. intros Em. apply Hne.
    rewrite (Z.div_mod k' BITS_PER_WORD), (Z.div_mod k BITS_PER_WORD) by (unfold BITS_PER_WORD; lia). congruence.
  - destruct (Z.eqb_spec a' a) as [->|]; [|by rewrite orb_false_r]. destruct (Z.eqb_spec k' k) as [->|]; [done|]. by rewrite orb_false_r.
Qed.

Lemma zeros_shape : 0 <= rows → 0 <= rw → shape (zeros (rows * rw)).
Proof. intros H H1. unfold shape, zeros. rewrite length_replicate. nia. Qed.
End Bits.

Lemma bit_zeros n r k : bit (zeros n) r k = false.
Proof. unfold bit, zeros. destruct (replicate _ _ !! _) as [x|] eqn:E; [|apply Z.bits_0]. apply lookup_replicate in E as [-> _]. apply Z.bits_0. Qed.

(** ** The grammar *)

Section Grammar.
Context (g : grammar).

Record wf : Prop := {
  wf_syms : 0 < ntokens g < nsyms g;
  wf_rules : 0 < nrules g;
  wf_derives A : 0 <= A < nvars g → ∃ rs, derives g !! Z.to_nat (ntokens g + A) = Some (rs ++ [-1]) ∧ Forall (λ r, 0 < r < nrules g) rs;
  wf_rrhs r : 0 < r < nrules g → ∃ i, rrhs g !! Z.to_nat r = Some i ∧ 0 <= i < nitems g;
  wf_order r r' i i' : 0 < r → r < r' → rrhs g !! Z.to_nat r = Some i → rrhs g !! Z.to_nat r' = Some i' → i < i';
  wf_items : Z.of_nat (length (ritem g)) = nitems g;
  wf_symbols i s : ritem g !! i = Some s → s < nsyms g
}.
Context (Hwf : wf).

(** [r] is a rule of the variable [A]; variables are counted from 0. *)
Definition rule_of (A r : Z) : Prop := ∃ l, derives g !! Z.to_nat (ntokens g + A) = Some l ∧ r ∈ l ∧ 0 < r.

(** [s] is the symbol after the dot of the item [i]. *)
Definition after_dot (i s : Z) : Prop := 0 <= i ∧ ritem g !! Z.to_nat i = Some s.

(** The variable [B] begins a rule of [A]. *)
Definition starts (A B : Z) : Prop := ∃ r i, rule_of A r ∧ rrhs g !! Z.to_nat r = Some i ∧ 0 <= B ∧ after_dot i (ntokens g + B).

(** The closure of a set of items: with an item whose dot is before a variable,
    the initial items of the rules of this variable. *)
Inductive lr0 (nucleus : list Z) : Z → Prop :=
  | lr0_nucleus i : i ∈ nucleus → lr0 nucleus i
  | lr0_rule i A r j : lr0 nucleus i → 0 <= A → after_dot i (ntokens g + A) → rule_of A r → rrhs g !! Z.to_nat r = Some j → lr0 nucleus j.

Lemma nvars_pos : 0 < nvars g.
Proof. pose proof (wf_syms Hwf). unfold nvars. lia. Qed.

Lemma get_eq {S} l i v (s : S) : 0 <= i → l !! Z.to_nat i = Some v → get l i s = inr (s, v).
Proof. intros Hi E. unfold get. rewrite (proj2 (Z.leb_le _ _) Hi), E. done. Qed.

Lemma get_derives_eq {S} i v (s : S) : 0 <= i → derives g !! Z.to_nat i = Some v → get_derives g i s = inr (s, v).
Proof. intros Hi E. unfold get_derives. rewrite (proj2 (Z.leb_le _ _) Hi), E. done. Qed.

Lemma rule_item r : 0 < r < nrules g → ∃ i s, rrhs g !! Z.to_nat r = Some i ∧ 0 <= i < nitems g ∧ after_dot i s ∧ s < nsyms g.
Proof.
  intros Hr. destruct (wf_rrhs Hwf r Hr) as (i & Ei & Hi). pose proof (wf_items Hwf) as Hl. destruct (lookup_lt_is_Some_2 (ritem g) (Z.to_nat i)) as [s Es]; [lia|].
  exists i, s. split_and!; [done|lia|lia|split; [lia|done]|by eapply (wf_symbols Hwf)].
Qed.

Lemma rule_bounds A r : 0 <= A < nvars g → rule_of A r → 0 < r < nrules g.
Proof.
  intros HA (l & El & Hin & Hr). destruct (wf_derives Hwf A HA) as (rs & E & Hrs). rewrite El in E. injection E as ->. apply elem_of_app in Hin as [Hin|Hin].
  - rewrite Forall_forall in Hrs. by apply Hrs.
  - apply list_elem_of_singleton in Hin. lia.
Qed.

Lemma starts_bounds A B : 0 <= A < nvars g → starts A B → 0 <= B < nvars g.
Proof. intros HA (r & i & Hr & Ei & HB & Hi & Es). pose proof (wf_symbols Hwf _ _ Es). unfold nvars. lia. Qed.

(** ** Epsilon free firsts *)

Let rs : Z := WORDSIZE (nvars g).

Lemma rs_words : nvars g <= 32 * rs.
Proof.
  unfold rs, WORDSIZE, BITS_PER_WORD. pose proof (Z.div_mod (nvars g + (32 - 1)) 32 ltac:(lia)). pose proof (Z.mod_pos_bound (nvars g + (32 - 1)) 32 ltac:(lia)). lia.
Qed.

Definition vbit (l : list Z) (A B : Z) : bool := bit l (A * rs) B.

(** The relation that the rules of [sp] add to the row of [A]. *)
Definition begins (sp : list Z) (B : Z) : Prop := ∃ r i, r ∈ sp ∧ 0 < r ∧ rrhs g !! Z.to_nat r = Some i ∧ 0 <= B ∧ after_dot i (ntokens g + B).

Lemma eff_rules_spec A : 0 <= A < nvars g → ∀ sp, Forall (λ r, 0 < r < nrules g) sp → ∀ l1, shape (nvars g) rs l1 →
  wp (eff_rules g (sp ++ [-1]) (A * rs)) (λ _ l', shape (nvars g) rs l' ∧
    ∀ A' B, 0 <= A' < nvars g → 0 <= B < nvars g → vbit l' A' B = true ↔ vbit l1 A' B = true ∨ A' = A ∧ begins sp B) l1.
Proof.
  intros HA sp Hsp. induction Hsp as [|r sp Hr _ IH]; intros l1 Hl.
  - cbn [eff_rules app]. change (0 <? -1) with false. cbv iota. apply wp_ret. split; [done|]. intros A' B _ _. split; [by left|]. intros [?|(_ & x & i & Hx & _)]; [done|]. by apply elem_of_nil in Hx.
  - cbn [eff_rules app]. rewrite (proj2 (Z.ltb_lt _ _)) by lia. destruct (rule_item r Hr) as (i & s & Ei & Hi & [_ Es] & Hs). apply wp_bind. eapply wp_intro; [apply get_eq; [lia|done]|].
    apply wp_bind. eapply wp_intro; [apply get_eq; [lia|done]|]. apply wp_bind. pose proof (wf_syms Hwf). pose proof rs_words. pose proof nvars_pos. assert (0 <= rs) as Hrs0 by lia. unfold ISVAR, start_symbol.
    assert (∀ B, begins (r :: sp) B ↔ begins sp B ∨ 0 <= B ∧ s = ntokens g + B) as Hbeg.
    { intros B. split.
      - intros (r' & i' & Hin & Hr' & Ei' & HB & Hi' & Es'). apply elem_of_cons in Hin as [->|Hin]; [|left; by exists r', i']. rewrite Ei in Ei'. injection Ei' as <-. right. rewrite Es in Es'. by injection Es' as ->.
      - intros [(r' & i' & Hin & Hrest)|[HB ->]]; [exists r', i'; split; [by right|done]|]. exists r, i. split_and!; [by left|lia|done|done|split; [lia|done]]. }
    destruct (Z.leb_spec (ntokens g) s) as [Hvar|Htok].
    + eapply wp_conseq; [apply (SETBIT_eq (nvars g) rs l1 A (s - ntokens g) Hl HA); unfold nvars in *; lia|]. intros [] l2 [Hl2 Hb2].
      eapply wp_conseq; [by apply IH|]. intros [] l' [Hl' Hb']. split; [done|]. intros A' B HA' HB. rewrite Hb' by done. unfold vbit in *. rewrite Hb2 by lia. rewrite Hbeg, orb_true_iff, andb_true_iff, !Z.eqb_eq.
      split; [intros [[?|[-> ->]]|[-> ?]]; [by left|right; split; [done|right; lia]|right; split; [done|by left]]|]. intros [?|[-> [?|[_ ->]]]]; [by left; left|by right|left; right; split; [done|lia]].
    + apply wp_ret. eapply wp_conseq; [by apply IH|]. intros [] l' [Hl' Hb']. split; [done|]. intros A' B HA' HB. rewrite Hb', Hbeg by done. intuition lia.
Qed.

Lemma begins_starts A rs' B : derives g !! Z.to_nat (ntokens g + A) = Some (rs' ++ [-1]) → begins rs' B ↔ starts A B.
Proof.
  intros E. split.
  - intros (r & i & Hin & Hr & Hrest). exists r, i. split; [|done]. exists (rs' ++ [-1]). split_and!; [done| |done]. apply elem_of_app. by left.
  - intros (r & i & (l & El & Hin & Hr) & Hrest). rewrite E in El. injection El as <-. exists r, i. split_and!; try apply Hrest; [|done]. apply elem_of_app in Hin as [?|Hin]; [done|]. apply list_elem_of_singleton in Hin. lia.
Qed.

Lemma set_EFF_spec : wp (set_EFF g) (λ _ l, shape (nvars g) rs l ∧ ∀ A B, 0 <= A < nvars g → 0 <= B < nvars g → vbit l A B = true ↔ rtc starts A B) (zeros (nvars g * rs)).
Proof.
  pose proof nvars_pos as Hnv. pose proof rs_words as Hrs. pose proof (wf_syms Hwf) as Hsy. unfold set_EFF. fold rs. apply wp_bind.
  set (I := λ j l, shape (nvars g) rs l ∧ ∀ A B, 0 <= A < nvars g → 0 <= B < nvars g → vbit l A B = true ↔ ntokens g + A < j ∧ starts A B).
  eapply wp_conseq; [apply (wp_for_up I)|].
  - split; [apply zeros_shape; lia|]. intros A B HA HB. unfold vbit. rewrite bit_zeros. unfold start_symbol. split; [done|lia].
  - intros j l Hj [Hl Hb]. unfold start_symbol in *. unfold nvars in *. destruct (wf_derives Hwf (j - ntokens g)) as (rs' & Ed & Hrs'); [unfold nvars; lia|]. replace (ntokens g + (j - ntokens g)) with j in Ed by lia.
    apply wp_bind. eapply wp_intro; [apply get_derives_eq; [lia|done]|]. eapply wp_conseq; [apply (eff_rules_spec (j - ntokens g) ltac:(unfold nvars; lia) rs' Hrs' l Hl)|]. intros [] l' [Hl' Hb']. split; [done|].
    intros A B HA HB. rewrite Hb' by (unfold nvars; done). rewrite Hb by done. rewrite (begins_starts (j - ntokens g) rs' B) by (by replace (ntokens g + (j - ntokens g)) with j by lia).
    split; [intros [[? ?]|[-> ?]]; split; try lia; done|]. intros [Hlt Hs]. destruct (decide (A = j - ntokens g)) as [->|]; [by right|left; split; [lia|done]].
  - intros [] l [Hl Hb]. unfold start_symbol in Hb. destruct (reflexive_transitive_closure_run (nvars g) ltac:(lia) l Hl) as (l' & E & Hl' & Hbits). eapply wp_intro; [exact E|]. split; [exact Hl'|]. intros A B HA HB.
    assert (∀ A B, edge (nvars g) l A B ↔ 0 <= A < nvars g ∧ starts A B) as Hedge.
    { intros X Y'. unfold edge, mbit. split; [intros (HX & HY & Hm); split; [done|]; apply (Hb X Y' HX HY) in Hm; tauto|]. intros [HX Hs]. pose proof (starts_bounds X Y' HX Hs). split_and!; try lia. apply Hb; [done|done|]. unfold nvars in *. split; [lia|done]. }
    transitivity (edge (nvars g) l' A B); [unfold edge, mbit, vbit; tauto|]. rewrite Hbits. split.
    + intros (_ & _ & Hr). clear -Hr Hedge. induction Hr as [|x y z H _ IH]; [done|]. eapply rtc_l; [|done]. by apply Hedge in H as [_ ?].
    + intros Hr. split_and!; try lia. clear -Hr Hedge HA Hwf. induction Hr as [|x y z H _ IH]; [done|]. eapply rtc_l; [by apply Hedge|]. apply IH. by eapply starts_bounds.
Qed.

(** ** The rules that a variable can begin with *)

Let rr : Z := WORDSIZE (nrules g).

Lemma rr_words : nrules g <= 32 * rr.
Proof.
  unfold rr, WORDSIZE, BITS_PER_WORD. pose proof (Z.div_mod (nrules g + (32 - 1)) 32 ltac:(lia)). pose proof (Z.mod_pos_bound (nrules g + (32 - 1)) 32 ltac:(lia)). lia.
Qed.

Definition rbit (l : list Z) (A r : Z) : bool := bit l (A * rr) r.

Lemma fd_rules_spec A : 0 <= A < nvars g → ∀ sp, Forall (λ r, 0 < r < nrules g) sp → ∀ l, shape (nvars g) rr l →
  wp (fd_rules (sp ++ [-1]) (A * rr)) (λ _ l', shape (nvars g) rr l' ∧
    ∀ A' r, 0 <= A' < nvars g → 0 <= r < 32 * rr → rbit l' A' r = true ↔ rbit l A' r = true ∨ A' = A ∧ r ∈ sp) l.
Proof.
  intros HA sp Hsp. induction Hsp as [|x sp Hx _ IH]; intros l Hl.
  - cbn [fd_rules app]. change (0 <=? -1) with false. cbv iota. apply wp_ret. split; [done|]. intros A' r _ _. rewrite elem_of_nil. tauto.
  - cbn [fd_rules app]. rewrite (proj2 (Z.leb_le _ _)) by lia. apply wp_bind. pose proof rr_words. eapply wp_conseq; [apply (SETBIT_eq (nvars g) rr l A x Hl HA); lia|]. intros [] l1 [Hl1 Hb1].
    eapply wp_conseq; [by apply IH|]. intros [] l' [Hl' Hb']. split; [done|]. intros A' r HA' Hr. rewrite Hb' by done. unfold rbit in *. rewrite Hb1 by done.
    rewrite orb_true_iff, andb_true_iff, !Z.eqb_eq, elem_of_cons. intuition.
Qed.

Section First.
Context (EFF : list Z) (beyond : Z) (Heff : shape (nvars g) rs EFF).

(** The rules of the row of [A] after the variables below [J], and the rows
    before it. *)
Definition derived (A J : Z) (l : list Z) : Prop := shape (nvars g) rr l ∧
  ∀ A' r, 0 <= A' < nvars g → 0 <= r < 32 * rr →
    rbit l A' r = true ↔ ∃ B, 0 <= B < nvars g ∧ vbit EFF A' B = true ∧ rule_of B r ∧ (A' < A ∨ A' = A ∧ B < J).

Lemma eff_word_eq i (l : list Z) : 0 <= i <= Z.of_nat (length EFF) → ∃ w, eff_word EFF beyond i l = inr (l, w) ∧ (i < Z.of_nat (length EFF) → w = default 0 (EFF !! Z.to_nat i)).
Proof.
  intros Hi. unfold eff_word. destruct (Z.eqb_spec i (Z.of_nat (length EFF))) as [->|Hne]; [exists beyond; split; [done|lia]|].
  destruct (lookup_lt_is_Some_2 EFF (Z.to_nat i)) as [w Hw]; [lia|]. exists w. rewrite (get_eq EFF i w l ltac:(lia) Hw), Hw. done.
Qed.

Lemma word_test w k : 0 <= k → (Z.land w (2 ^ k) =? 0) = negb (Z.testbit w k).
Proof.
  intros Hk. destruct (Z.testbit w k) eqn:E.
  - apply Z.eqb_neq. intros H. apply (f_equal (λ x, Z.testbit x k)) in H. rewrite Z.land_spec, Z.bits_0, E, Z.pow2_bits_true in H by lia. done.
  - apply Z.eqb_eq. apply Z.bits_inj'. intros j Hj. rewrite Z.land_spec, Z.bits_0. destruct (decide (j = k)) as [->|]; [by rewrite E|]. rewrite Z.pow2_bits_false by lia. apply andb_false_r.
Qed.

Lemma derived_step A J l l1 : 0 <= A < nvars g → 0 <= J < nvars g → derived A J l → shape (nvars g) rr l1 →
  (∀ A' r, 0 <= A' < nvars g → 0 <= r < 32 * rr → rbit l1 A' r = true ↔ rbit l A' r = true ∨ A' = A ∧ vbit EFF A J = true ∧ rule_of J r) → derived A (J + 1) l1.
Proof.
  intros HA HJ [Hl Hb] Hl1 Hb1. split; [done|]. intros A' r HA' Hr. rewrite Hb1, Hb by done. split.
  - intros [(B & HB & Hv & Hr' & Hor)|(-> & Hv & Hr')]; [exists B; split_and!; try done; lia|exists J; split_and!; try done; lia].
  - intros (B & HB & Hv & Hr' & Hor). destruct (decide (A' = A ∧ B = J)) as [[-> ->]|Hne]; [by right|left; exists B; split_and!; try done; lia].
Qed.

Lemma rule_list J rs' r : derives g !! Z.to_nat (ntokens g + J) = Some (rs' ++ [-1]) → Forall (λ r, 0 < r < nrules g) rs' → rule_of J r ↔ r ∈ rs'.
Proof.
  intros E Hf. rewrite Forall_forall in Hf. split.
  - intros (l & El & Hin & Hr). rewrite E in El. injection El as <-. apply elem_of_app in Hin as [?|Hin]; [done|]. apply list_elem_of_singleton in Hin. lia.
  - intros Hin. exists (rs' ++ [-1]). split_and!; [done|apply elem_of_app; by left|]. specialize (Hf r Hin). lia.
Qed.

Lemma fd_vars_spec A : 0 <= A < nvars g → ∀ n J cword l, J + Z.of_nat n = nvars g → 0 <= J → (J < nvars g → cword = default 0 (EFF !! Z.to_nat (A * rs + J / BITS_PER_WORD))) → derived A J l →
  wp (fd_vars g EFF beyond n (ntokens g + J) cword (2 ^ (J mod BITS_PER_WORD)) (A * rs + J / BITS_PER_WORD + 1) (A * rr)) (λ _, derived A (nvars g)) l.
Proof.
  intros HA n. pose proof (wf_syms Hwf) as Hsy. unfold shape in Heff. induction n as [|n IH]; intros J cword l HJ HJ0 Hc Hd; cbn [fd_vars].
  - apply wp_ret. by replace (nvars g) with J by lia.
  - specialize (Hc ltac:(lia)). pose proof rs_words as Hrs. destruct (bit_index rs J ltac:(lia)) as [W1 W2]. rewrite word_test by lia. apply wp_bind.
    assert (Z.testbit cword (J mod BITS_PER_WORD) = vbit EFF A J) as -> by by rewrite Hc.
    assert (wp (if negb (vbit EFF A J) then mreturn tt else let* rp := get_derives g (ntokens g + J) in fd_rules rp (A * rr)) (λ _, derived A (J + 1)) l) as Hstep.
    { destruct (vbit EFF A J) eqn:Ev; cbn [negb].
      - destruct (wf_derives Hwf J ltac:(lia)) as (rs' & Ed & Hf). apply wp_bind. eapply wp_intro; [apply get_derives_eq; [lia|done]|]. eapply wp_conseq; [apply (fd_rules_spec A HA rs' Hf l), Hd|].
        intros [] l1 [Hl1 Hb1]. apply (derived_step A J l l1 HA ltac:(lia) Hd Hl1). intros A' r HA' Hr. rewrite Hb1 by done. rewrite <- (rule_list J rs' r Ed Hf). intuition.
      - apply wp_ret. apply (derived_step A J l l HA ltac:(lia) Hd (proj1 Hd)). intros. rewrite Ev. intuition congruence. }
    eapply wp_conseq; [exact Hstep|]. intros [] l1 Hd1. pose proof (next_mask J HJ0) as Hm. cbv zeta in Hm |- *. replace (ntokens g + J + 1) with (ntokens g + (J + 1)) by lia.
    assert (∀ B, 0 <= B < nvars g → 0 <= A * rs + B / BITS_PER_WORD < Z.of_nat (length EFF)) as Hin by (intros B HB; destruct (bit_index rs B ltac:(lia)); nia).
    destruct (u32 _ =? 0) eqn:E0; destruct Hm as [M1 M2].
    + assert (0 <= A * rs + J / BITS_PER_WORD + 1 <= Z.of_nat (length EFF)) as Hv by (specialize (Hin J ltac:(lia)); lia). destruct (eff_word_eq _ l1 Hv) as (w & Ew & Hw). apply wp_bind. eapply wp_intro; [exact Ew|].
      replace (A * rs + J / BITS_PER_WORD + 1 + 1) with (A * rs + (J + 1) / BITS_PER_WORD + 1) by lia. pose proof (IH (J + 1) w l1 ltac:(lia) ltac:(lia)) as Hr. rewrite M1 in Hr. apply Hr; [|done].
      intros HJ1. replace (A * rs + (J + 1) / BITS_PER_WORD) with (A * rs + J / BITS_PER_WORD + 1) by lia. apply Hw. specialize (Hin (J + 1) ltac:(lia)). lia.
    + rewrite M1. replace (A * rs + J / BITS_PER_WORD + 1) with (A * rs + (J + 1) / BITS_PER_WORD + 1) by lia. apply IH; [lia|lia| |done]. intros _. by rewrite M2.
Qed.

Lemma first_derives_spec : wp (first_derives_loop g EFF beyond) (λ _ l, shape (nvars g) rr l ∧
  ∀ A r, 0 <= A < nvars g → 0 <= r < 32 * rr → rbit l A r = true ↔ ∃ B, 0 <= B < nvars g ∧ vbit EFF A B = true ∧ rule_of B r) (zeros (nvars g * rr)).
Proof.
  pose proof nvars_pos as Hnv. pose proof rs_words as Hrs. pose proof (wf_syms Hwf) as Hsy. pose proof rr_words as Hrr. pose proof (wf_rules Hwf) as Hnr. unfold first_derives_loop. fold rs rr. unfold start_symbol.
  eapply wp_conseq; [apply (wp_for_up (λ j, derived (j - ntokens g) 0))|].
  - split; [apply zeros_shape; lia|]. intros A r HA Hr. unfold rbit. rewrite bit_zeros. split; [done|]. intros (B & HB & _ & _ & ?). lia.
  - intros j l Hj Hd. set (A := j - ntokens g) in *. assert (0 <= A < nvars g) as HA by (unfold A, nvars in *; lia). destruct (bit_index rs 0 ltac:(lia)) as [W1 W2]. unfold shape in Heff.
    destruct (eff_word_eq (A * rs) l ltac:(nia)) as (w & Ew & Hw). apply wp_bind. eapply wp_intro; [exact Ew|]. pose proof (fd_vars_spec A HA (Z.to_nat (nvars g)) 0 w l ltac:(lia) ltac:(lia)) as H.
    change (0 / BITS_PER_WORD) with 0 in H. change (2 ^ (0 mod BITS_PER_WORD)) with 1 in H. rewrite !Z.add_0_r in H. unfold nvars at 1 in H. eapply wp_conseq; [apply H; [|done]|].
    + intros _. apply Hw. nia.
    + intros [] l' [Hl' Hb']. replace (j + 1 - ntokens g) with (A + 1) by (unfold A; lia). split; [done|]. intros A' r HA' Hr. rewrite Hb' by done. split; intros (B & HB & Hv & Hru & Hor); exists B; split_and!; try done; lia.
  - intros [] l [Hl Hb]. split; [done|]. intros A r HA Hr. rewrite Hb by done. unfold nvars in *. split; intros (B & HB & Hv & Hru); [exists B; tauto|]. exists B. split_and!; try tauto; lia.
Qed.
End First.

Lemma set_first_derives_spec beyond : ∃ l, set_first_derives g beyond = inr l ∧ shape (nvars g) rr l ∧
  ∀ A r, 0 <= A < nvars g → 0 <= r < 32 * rr → rbit l A r = true ↔ ∃ B, rtc starts A B ∧ rule_of B r.
Proof.
  unfold set_first_derives. fold rs rr. destruct (wp_elim _ _ _ set_EFF_spec) as (EFF & [] & -> & Heff & Hb). destruct (wp_elim _ _ _ (first_derives_spec EFF beyond Heff)) as (l & [] & -> & Hl & Hb'). exists l. split_and!; [done..|].
  intros A r HA Hr. rewrite Hb' by done. split.
  - intros (B & HB & Hv & Hru). exists B. split; [by apply Hb|done].
  - intros (B & Hrt & Hru). assert (0 <= B < nvars g) as HB. { clear -Hrt HA Hwf. induction Hrt as [|x y z H _ IH]; [done|]. apply IH. by eapply starts_bounds. } exists B. split_and!; try lia; [by apply Hb|done].
Qed.

(** ** The closure of a nucleus *)

Section Items.
Context (fd : list Z) (Hfd : shape (nvars g) rr fd).

Definition in_rules (l : list Z) (r : Z) : bool := bit l 0 r.

Lemma or_rules_eq n : ∀ rsp dsp l, 0 <= rsp → 0 <= dsp → rsp + Z.of_nat n <= Z.of_nat (length l) → dsp + Z.of_nat n <= Z.of_nat (length fd) →
  wp (or_rules fd n rsp dsp) (λ _ l', length l' = length l ∧ ∀ i, 0 <= i → default 0 (l' !! Z.to_nat i) =
    if (rsp <=? i) && (i <? rsp + Z.of_nat n) then Z.lor (default 0 (l !! Z.to_nat i)) (default 0 (fd !! Z.to_nat (dsp + (i - rsp)))) else default 0 (l !! Z.to_nat i)) l.
Proof.
  induction n as [|n IH]; intros rsp dsp l H1 H2 H3 H4; cbn [or_rules].
  - apply wp_ret. split; [done|]. intros i Hi. destruct (Z.leb_spec rsp i), (Z.ltb_spec i (rsp + Z.of_nat 0)); try done. lia.
  - apply wp_bind. eapply wp_intro; [apply rd_lookup; lia|]. destruct (lookup_lt_is_Some_2 fd (Z.to_nat dsp)) as [y Hy]; [lia|]. apply wp_bind. eapply wp_intro; [apply get_eq; [lia|done]|].
    apply wp_bind. eapply wp_intro; [apply wr_eq; lia|]. eapply wp_conseq; [apply IH; rewrite ?length_insert; lia|]. intros [] l' [Hl Hb]. rewrite length_insert in Hl. split; [done|]. intros i Hi. rewrite Hb, set_bit_lookup by lia.
    destruct (Z.leb_spec rsp i), (Z.leb_spec (rsp + 1) i), (Z.ltb_spec i (rsp + Z.of_nat (S n))), (Z.ltb_spec i (rsp + 1 + Z.of_nat n)), (Z.eqb_spec i rsp); cbn [andb]; try lia; try done.
    + f_equal. f_equal. f_equal. lia.
    + subst i. replace (dsp + (rsp - rsp)) with dsp by lia. by rewrite Hy.
Qed.

Definition item_ok (i : Z) : Prop := 0 <= i < nitems g.

(** The rules of the closure. *)
Definition wanted (nucleus : list Z) (r : Z) : Prop := ∃ i A, i ∈ nucleus ∧ 0 <= A < nvars g ∧ after_dot i (ntokens g + A) ∧ rbit fd A r = true.

Lemma closure_rules_spec nucleus : Forall item_ok nucleus → ∀ l, Z.of_nat (length l) = rr →
  wp (closure_rules g fd nucleus) (λ _ l', Z.of_nat (length l') = rr ∧ ∀ r, 0 <= r < 32 * rr → in_rules l' r = true ↔ in_rules l r = true ∨ wanted nucleus r) l.
Proof.
  pose proof rr_words as Hrr. pose proof (wf_rules Hwf) as Hnr. pose proof (wf_syms Hwf) as Hsy. induction 1 as [|i nucleus Hi _ IH]; intros l Hl; cbn [closure_rules].
  - apply wp_ret. split; [done|]. intros r Hr. split; [by left|]. intros [?|(i & A & Hin & _)]; [done|]. by apply elem_of_nil in Hin.
  - unfold item_ok in Hi. destruct (lookup_lt_is_Some_2 (ritem g) (Z.to_nat i)) as [s Es]; [pose proof (wf_items Hwf); lia|]. apply wp_bind. eapply wp_intro; [apply get_eq; [lia|done]|]. apply wp_bind.
    assert (∀ r, wanted (i :: nucleus) r ↔ wanted nucleus r ∨ ∃ A, 0 <= A < nvars g ∧ s = ntokens g + A ∧ rbit fd A r = true) as Hw.
    { intros r. split.
      - intros (i' & A & Hin & HA & [Hi' Es'] & Hb). apply elem_of_cons in Hin as [->|Hin]; [|left; by exists i', A]. right. exists A. split_and!; try lia; [|done]. rewrite Es in Es'. by injection Es'.
      - intros [(i' & A & Hin & Hrest)|(A & HA & -> & Hb)]; [exists i', A; split; [by right|done]|]. exists i, A. split_and!; [by left|lia|lia|split; [lia|done]|done]. }
    pose proof (wf_symbols Hwf _ _ Es) as Hs. fold rr. unfold ISVAR, start_symbol. destruct (Z.leb_spec (ntokens g) s) as [Hvar|Htok].
    + assert (0 <= s - ntokens g < nvars g) as HA by (unfold nvars; lia). unfold shape in Hfd. eapply wp_conseq; [apply or_rules_eq; nia|]. intros [] l1 [Hl1 Hb1]. eapply wp_conseq; [apply IH; congruence|].
      intros [] l' [Hl' Hb']. split; [done|]. intros r Hr. rewrite Hb', Hw by done. unfold in_rules, bit. destruct (bit_index rr r Hr) as [K1 K2]. rewrite Hb1 by lia. rewrite Z2Nat.id by lia.
      rewrite (proj2 (Z.leb_le _ _)), (proj2 (Z.ltb_lt _ _)) by lia. cbn [andb]. rewrite Z.lor_spec, orb_true_iff. replace (0 + r / BITS_PER_WORD - 0) with (r / BITS_PER_WORD) by lia.
      assert (rbit fd (s - ntokens g) r = true ↔ ∃ A, 0 <= A < nvars g ∧ s = ntokens g + A ∧ rbit fd A r = true) as <-.
      { split; [intros H; exists (s - ntokens g); split_and!; [lia|lia|lia|done]|]. intros (A & _ & -> & Hb). by replace (ntokens g + A - ntokens g) with A by lia. }
      unfold rbit, bit. tauto.
    + apply wp_ret. eapply wp_conseq; [by apply IH|]. intros [] l' [Hl' Hb']. split; [done|]. intros r Hr. rewrite Hb', Hw by done. split; [tauto|]. intros [?|[?|(A & HA & -> & _)]]; [tauto|tauto|lia].
Qed.

(** *** Merging *)

Lemma sorted_length (l : list Z) x : StronglySorted Z.lt l → Forall (λ y, 0 <= y < x) l → 0 <= x → Z.of_nat (length l) <= x.
Proof.
  intros Hs. revert x. induction l as [|y l IH] using rev_ind; intros x Hf Hx; [cbn; lia|]. apply Forall_app in Hf as [Hf Hy]. rewrite Forall_singleton in Hy. rewrite length_app. cbn [length].
  apply StronglySorted_app in Hs as (Hlt & Hs' & _).
  assert (Z.of_nat (length l) <= y) as H; [|lia]. apply IH; [done| |lia]. rewrite Forall_forall in *. intros z Hz. specialize (Hf z Hz). specialize (Hlt z y Hz ltac:(left)). lia.
Qed.

Lemma sorted_snoc (l : list Z) x : StronglySorted Z.lt l → Forall (λ y, y < x) l → StronglySorted Z.lt (l ++ [x]).
Proof.
  intros Hs Hf. rewrite Forall_forall in Hf. apply StronglySorted_app. split_and!; [|done|by repeat constructor]. intros y z Hy Hz. apply list_elem_of_singleton in Hz as ->. by apply Hf.
Qed.

Definition sorted_below (l : list Z) (x : Z) : Prop := StronglySorted Z.lt l ∧ Forall (λ y, 0 <= y < x) l.

Lemma emit_eq s x : sorted_below (itemset s) x → 0 <= x < nitems g → emit g x s = inr (Merge (csp s) (itemset s ++ [x]), tt) ∧ sorted_below (itemset s ++ [x]) (x + 1).
Proof.
  intros [Hs Hf] Hx. split.
  - unfold emit, mbnd, mget. rewrite (proj2 (Z.ltb_lt _ _)) by (pose proof (sorted_length _ _ Hs Hf ltac:(lia)); lia). done.
  - split; [apply sorted_snoc; [done|]|apply Forall_app; split; [|apply Forall_singleton; lia]]; eapply Forall_impl; try exact Hf; cbn; lia.
Qed.

Lemma sorted_below_weaken l x y : sorted_below l x → x <= y → sorted_below l y.
Proof. intros [H1 H2] Hxy. split; [done|]. eapply Forall_impl; [exact H2|]. cbn. lia. Qed.

(** A sorted rest of the nucleus, above [m]. *)
Definition sorted_above (l : list Z) (m : Z) : Prop := StronglySorted Z.lt l ∧ Forall (λ y, m <= y < nitems g) l.

Lemma sorted_above_tail x l m : sorted_above (x :: l) m → m <= x < nitems g ∧ sorted_above l (x + 1).
Proof.
  intros [Hs Hf]. inversion Hs as [|? ? H1 H2]; subst. apply Forall_cons in Hf as [Hx Hf]. split; [done|]. split; [done|]. rewrite Forall_forall in *. intros y Hy. specialize (H2 y Hy). specialize (Hf y Hy). lia.
Qed.

Lemma copy_below_spec x l : ∀ s m, csp s = l → 0 <= m <= x → sorted_below (itemset s) m → sorted_above l m →
  wp (copy_below g l x) (λ _ s', sorted_below (itemset s') x ∧ sorted_above (csp s') x ∧ ∀ z, z ∈ itemset s' ∨ z ∈ csp s' ↔ z ∈ itemset s ∨ z ∈ l) s.
Proof.
  induction l as [|y l IH]; intros s m Hc Hm Hb Ha; cbn [copy_below].
  - apply wp_ret. split_and!; [by apply (sorted_below_weaken _ m); [|lia]|rewrite Hc; split; [apply Ha|constructor]|]. by rewrite Hc.
  - destruct (sorted_above_tail _ _ _ Ha) as [Hy Hl]. destruct (Z.ltb_spec y x) as [Hlt|Hge].
    + destruct (emit_eq s y) as [E Hb']; [by apply (sorted_below_weaken _ m); [|lia]|lia|]. apply wp_bind. eapply wp_intro; [exact E|]. apply wp_bind. eapply wp_intro; [reflexivity|]. cbn.
      eapply wp_conseq; [apply (IH (Merge l (itemset s ++ [y])) (y + 1)); [done|lia|done|done]|]. intros [] s' (H1 & H2 & H3). split_and!; [done..|]. intros z. rewrite H3. cbn. rewrite elem_of_app, list_elem_of_singleton, elem_of_cons. tauto.
    + apply wp_ret. rewrite Hc. split_and!; [by apply (sorted_below_weaken _ m); [|lia]| |done]. destruct Ha as [Hs Hf]. split; [done|]. inversion Hs as [|? ? H1 H2]; subst. constructor; [lia|].
      apply Forall_cons in Hf as [_ Hf]. rewrite Forall_forall in *. intros z Hz. specialize (H2 z Hz). specialize (Hf z Hz). lia.
Qed.

Lemma skip_equal_spec x l : ∀ s, csp s = l → sorted_above l x → wp (skip_equal l x) (λ _ s', itemset s' = itemset s ∧ sorted_above (csp s') (x + 1) ∧ ∀ z, z ∈ csp s' ∨ z = x ↔ z ∈ l ∨ z = x) s.
Proof.
  induction l as [|y l IH]; intros s Hc Ha; cbn [skip_equal].
  - apply wp_ret. rewrite Hc. split_and!; [done|split; [apply Ha|constructor]|done].
  - destruct (sorted_above_tail _ _ _ Ha) as [Hy Hl]. destruct (Z.eqb_spec y x) as [->|Hne].
    + apply wp_bind. eapply wp_intro; [reflexivity|]. eapply wp_conseq; [apply IH; [done|]|].
      * destruct Hl as [H1 H2]. split; [done|]. eapply Forall_impl; [exact H2|]. cbn. lia.
      * intros [] s' (H1 & H2 & H3). split_and!; [done..|]. intros z. rewrite H3, elem_of_cons. tauto.
    + apply wp_ret. rewrite Hc. split_and!; [done| |done]. destruct Ha as [Hs Hf]. split; [done|]. inversion Hs as [|? ? H1 H2]; subst. apply Forall_cons in Hf as [Hf0 Hf]. constructor; [lia|].
      rewrite Forall_forall in *. intros z Hz. specialize (H2 z Hz). specialize (Hf z Hz). lia.
Qed.

Lemma copy_rest_spec l : ∀ s m, csp s = l → 0 <= m → sorted_below (itemset s) m → sorted_above l m →
  wp (copy_rest g l) (λ _ s', StronglySorted Z.lt (itemset s') ∧ ∀ z, z ∈ itemset s' ↔ z ∈ itemset s ∨ z ∈ l) s.
Proof.
  induction l as [|y l IH]; intros s m Hc Hm Hb Ha; cbn [copy_rest].
  - apply wp_ret. split_and!; [apply Hb|intros z; rewrite elem_of_nil; tauto].
  - destruct (sorted_above_tail _ _ _ Ha) as [Hy Hl]. destruct (emit_eq s y) as [E Hb']; [by apply (sorted_below_weaken _ m); [|lia]|lia|]. apply wp_bind. eapply wp_intro; [exact E|]. apply wp_bind. eapply wp_intro; [reflexivity|]. cbn.
    eapply wp_conseq; [apply (IH (Merge l (itemset s ++ [y])) (y + 1)); [done|lia|done|done]|]. intros [] s' (H1 & H3). split_and!; [done..|]. intros z. rewrite H3. cbn. rewrite elem_of_app, list_elem_of_singleton, elem_of_cons. tauto.
Qed.

Section Merge.
Context (nucleus ruleset : list Z) (Hlen : Z.of_nat (length ruleset) = rr).
Context (Hbits : ∀ r, 0 <= r < 32 * rr → in_rules ruleset r = true → 0 < r < nrules g).

(** The rules below [ruleno] are merged: what is written is below [m], what is
    left of the nucleus and the items of the other rules are not. *)
Definition merged (ruleno : Z) (s : merge) : Prop := ∃ m, 0 <= m ∧ sorted_below (itemset s) m ∧ sorted_above (csp s) m ∧
  (∀ r i, ruleno <= r < 32 * rr → in_rules ruleset r = true → rrhs g !! Z.to_nat r = Some i → m <= i) ∧
  ∀ z, z ∈ itemset s ∨ z ∈ csp s ↔ z ∈ nucleus ∨ ∃ r, 0 <= r < ruleno ∧ in_rules ruleset r = true ∧ rrhs g !! Z.to_nat r = Some z.

Lemma merge_rule r s : 0 <= r < 32 * rr → merged r s →
  wp (if negb (in_rules ruleset r) then mreturn tt else
      let* itemno := get (rrhs g) r in let* s := mget in copy_below g (csp s) itemno ;;; emit g itemno ;;; let* s := mget in skip_equal (csp s) itemno) (λ _, merged (r + 1)) s.
Proof.
  intros Hr (m & Hm & Hb & Ha & Hnext & Hel). destruct (in_rules ruleset r) eqn:Er; cbn [negb].
  - pose proof (Hbits r Hr Er) as Hr'. destruct (wf_rrhs Hwf r Hr') as (x & Ex & Hx). pose proof (Hnext r x ltac:(lia) Er Ex) as Hmx. apply wp_bind. eapply wp_intro; [apply get_eq; [lia|done]|].
    apply wp_bind. eapply wp_intro; [reflexivity|]. apply wp_bind. eapply wp_conseq; [apply (copy_below_spec x (csp s) s m); [done|lia|done|done]|]. intros [] s1 (Hb1 & Ha1 & Hel1).
    destruct (emit_eq s1 x Hb1 Hx) as [E Hb2]. apply wp_bind. eapply wp_intro; [exact E|]. apply wp_bind. eapply wp_intro; [reflexivity|]. cbn [csp].
    eapply wp_conseq; [apply (skip_equal_spec x (csp s1) (Merge (csp s1) (itemset s1 ++ [x]))); done|]. intros [] s2 (E2 & Ha2 & Hel2). cbn in E2. exists (x + 1). rewrite E2. split_and!; [lia|done|done| |].
    + intros r2 i2 Hr2 Er2 Ei2. pose proof (wf_order Hwf r r2 x i2 ltac:(lia) ltac:(lia) Ex Ei2). lia.
    + intros z. rewrite elem_of_app, list_elem_of_singleton. transitivity ((z ∈ itemset s1 ∨ z ∈ csp s1) ∨ z = x); [specialize (Hel2 z); tauto|]. rewrite Hel1, Hel. split.
      * intros [[?|(r2 & Hr2 & H2)]| ->]; [by left|right; exists r2; split; [lia|done]|right; exists r; split_and!; [lia|lia|done|done]].
      * intros [?|(r2 & Hr2 & E3 & E4)]; [by left; left|]. destruct (decide (r2 = r)) as [->|]; [right; congruence|left; right; exists r2; split_and!; [lia|lia|done|done]].
  - apply wp_ret. exists m. split_and!; [done|done|done|intros r2 i2 Hr2; apply Hnext; lia|]. intros z. rewrite Hel. split; (intros [?|(r2 & Hr2 & E3 & E4)]; [by left|right]).
    + exists r2. split_and!; [lia|lia|done|done].
    + exists r2. split_and!; [lia| |done|done]. destruct (decide (r2 = r)) as [->|]; [congruence|lia].
Qed.

Definition mask_at (t : Z) : Z := if t =? 32 then 0 else 2 ^ t.

Lemma mask_next t : 0 <= t < 32 → u32 (Z.shiftl (mask_at t) 1) = mask_at (t + 1).
Proof.
  intros Ht. unfold mask_at. rewrite (proj2 (Z.eqb_neq t 32)) by lia. unfold u32. rewrite Z.shiftl_mul_pow2, <- Z.pow_add_r by lia. destruct (Z.eqb_spec (t + 1) 32) as [->|]; [done|].
  apply Z.mod_small. split; [apply Z.pow_nonneg; lia|]. change H32 with (2 ^ 32). apply Z.pow_lt_mono_r; lia.
Qed.

Lemma rules_word k w t : 0 <= k → ruleset !! Z.to_nat k = Some w → 0 <= t < 32 → in_rules ruleset (32 * k + t) = Z.testbit w t.
Proof.
  intros Hk Hw Ht. unfold in_rules, bit, BITS_PER_WORD. assert ((32 * k + t) / 32 = k) as -> by (symmetry; apply (Z.div_unique_pos _ _ _ t); lia).
  assert ((32 * k + t) mod 32 = t) as -> by (symmetry; apply (Z.mod_unique_pos _ _ k); lia). by rewrite Z.add_0_l, Hw.
Qed.

Lemma merge_word_spec k w : 0 <= k → ruleset !! Z.to_nat k = Some w → ∀ fuel t s, 0 <= t <= 32 → 32 - t < Z.of_nat fuel → merged (32 * k + t) s →
  wp (merge_word g fuel w (mask_at t) (32 * k + t)) (λ ruleno s', ruleno = 32 * (k + 1) ∧ merged (32 * (k + 1)) s') s.
Proof.
  intros Hk Hw fuel. pose proof (lookup_lt_Some _ _ _ Hw) as Hlt. induction fuel as [|fuel IH]; intros t s Ht Hf Hm; [lia|]. cbn [merge_word]. destruct (decide (t = 32)) as [->|Hne].
  - change (mask_at 32) with 0. cbn [Z.eqb]. apply wp_ret. replace (32 * (k + 1)) with (32 * k + 32) by lia. done.
  - assert (mask_at t =? 0 = false) as -> by (unfold mask_at; rewrite (proj2 (Z.eqb_neq t 32)) by lia; apply Z.eqb_neq, Z.pow_nonzero; lia). apply wp_bind.
    assert (Z.land w (mask_at t) =? 0 = negb (in_rules ruleset (32 * k + t))) as ->.
    { unfold mask_at. rewrite (proj2 (Z.eqb_neq t 32)) by lia. rewrite word_test by lia. by rewrite (rules_word k w t) by (done || lia). }
    eapply wp_conseq; [apply merge_rule; [lia|done]|]. intros [] s1 Hm1. rewrite mask_next by lia. replace (32 * k + t + 1) with (32 * k + (t + 1)) in * by lia. apply IH; [lia|lia|done].
Qed.

Lemma merge_words_spec : ∀ rest k s, 0 <= k → rest = drop (Z.to_nat k) ruleset → k <= rr → merged (32 * k) s → wp (merge_words g rest (32 * k)) (λ _ s', merged (32 * rr) s') s.
Proof.
  induction rest as [|w rest IH]; intros k s Hk Hd Hle Hm; cbn [merge_words].
  - apply wp_ret. symmetry in Hd. apply (f_equal length) in Hd. rewrite length_drop in Hd. cbn in Hd. by replace rr with k by lia.
  - assert (ruleset !! Z.to_nat k = Some w) as Hw by (rewrite <- (Nat.add_0_r (Z.to_nat k)), <- lookup_drop, <- Hd; done). pose proof (lookup_lt_Some _ _ _ Hw) as Hlt.
    assert (rest = drop (Z.to_nat (k + 1)) ruleset) as Hd'. { replace (Z.to_nat (k + 1)) with (S (Z.to_nat k)) by lia. rewrite (drop_S _ _ _ Hw) in Hd. by injection Hd. }
    destruct (Z.eqb_spec w 0) as [->|Hne].
    + replace (32 * k + BITS_PER_WORD) with (32 * (k + 1)) by (unfold BITS_PER_WORD; lia). apply IH; [lia|done|lia|]. destruct Hm as (m & H1 & H2 & H3 & H4 & H5). exists m. split_and!; [done|done|done|intros r i Hr; apply H4; lia|].
      assert (∀ r, 32 * k <= r < 32 * (k + 1) → in_rules ruleset r = false) as Hz by (intros r Hr; replace r with (32 * k + (r - 32 * k)) by lia; rewrite (rules_word k 0) by (done || lia); apply Z.bits_0).
      intros z. rewrite H5. split; (intros [?|(r & Hr & E1 & E2)]; [by left|right]); exists r; (split_and!; [lia| |done|done]); [lia|]. destruct (decide (32 * k <= r)); [|lia]. rewrite Hz in E1 by lia. done.
    + apply wp_bind. pose proof (merge_word_spec k w Hk Hw 33 0 s ltac:(lia) ltac:(lia)) as Hmw. rewrite Z.add_0_r in Hmw. change (mask_at 0) with 1 in Hmw.
      eapply wp_conseq; [exact (Hmw Hm)|]. intros ruleno s1 [-> Hm1]. apply IH; [lia|done|lia|done].
Qed.
End Merge.
End Items.

(** What the rules that a variable can begin with mean. *)
Lemma lr0_first nucleus A B r z : rtc starts A B → ∀ i, lr0 nucleus i → 0 <= A → after_dot i (ntokens g + A) → rule_of B r → rrhs g !! Z.to_nat r = Some z → lr0 nucleus z.
Proof.
  induction 1 as [A|A C B (r' & i' & Hr' & Ei' & HC & Hd') _ IH]; intros i Hi HA Hd Hr Hz; [by eapply lr0_rule|]. apply (IH i'); try done. by eapply lr0_rule.
Qed.

Lemma rtc_bounds A B : 0 <= A < nvars g → rtc starts A B → 0 <= B < nvars g.
Proof. intros HA. induction 1 as [|x y z H _ IH]; [done|]. apply IH. by eapply starts_bounds. Qed.

Lemma dot_bounds i A : 0 <= A → after_dot i (ntokens g + A) → 0 <= A < nvars g.
Proof. intros HA [_ E]. pose proof (wf_symbols Hwf _ _ E). unfold nvars. lia. Qed.

(** The rules that [first_derives] gives. *)
Definition opened (nucleus : list Z) (r : Z) : Prop := ∃ i A B, i ∈ nucleus ∧ 0 <= A ∧ after_dot i (ntokens g + A) ∧ rtc starts A B ∧ rule_of B r.

Lemma lr0_opened nucleus z : lr0 nucleus z ↔ z ∈ nucleus ∨ ∃ r, opened nucleus r ∧ rrhs g !! Z.to_nat r = Some z.
Proof.
  split.
  - induction 1 as [i Hi|i A r j _ IH HA Hd Hr Ej]; [by left|right]. exists r. split; [|done]. destruct IH as [Hi|(r0 & (i0 & A0 & B0 & Hi0 & HA0 & Hd0 & Hrt & Hr0) & Ei)]; [by exists i, A, A|].
    exists i0, A0, A. split_and!; try done. eapply rtc_r; [exact Hrt|]. by exists r0, i.
  - intros [Hz|(r & (i & A & B & Hi & HA & Hd & Hrt & Hr) & Ez)]; [by apply lr0_nucleus|]. eapply lr0_first; try done. by apply lr0_nucleus.
Qed.

Lemma opened_bounds nucleus r : opened nucleus r → 0 < r < nrules g.
Proof. intros (i & A & B & _ & HA & Hd & Hrt & Hr). apply (rule_bounds B); [|done]. eapply rtc_bounds; [|done]. by eapply dot_bounds. Qed.

(** C30. The closure of a sorted set of items, computed with bit sets from the
    tables of [set_EFF] and [set_first_derives], is the closure of the LR(0)
    automaton: it holds the items of the nucleus and, for each item of it whose
    dot is before a variable, the initial items of the rules of this variable,
    and no others; it is strictly sorted and fits in the array of [nitems]
    elements.  This holds whatever follows the table of [set_EFF] in memory. *)
Theorem closure_correct beyond nucleus : StronglySorted Z.lt nucleus → Forall item_ok nucleus →
  ∃ first_derives items, set_first_derives g beyond = inr first_derives ∧ closure g first_derives nucleus = inr items ∧
    StronglySorted Z.lt items ∧ ∀ i, i ∈ items ↔ lr0 nucleus i.
Proof.
  intros Hs Hf. pose proof rr_words as Hrr. pose proof (wf_rules Hwf) as Hnr. destruct (set_first_derives_spec beyond) as (fd & Efd & Hsh & Hfd).
  destruct (wp_elim _ _ _ (closure_rules_spec fd Hsh nucleus Hf (zeros rr) ltac:(unfold zeros; rewrite length_replicate; lia))) as (ruleset & [] & Er & Hlen & Hbits).
  assert (∀ r, 0 <= r < 32 * rr → in_rules ruleset r = true ↔ opened nucleus r) as Hopen.
  { intros r Hr. rewrite Hbits by done. unfold in_rules at 1. rewrite bit_zeros. split.
    - intros [|(i & A & Hi & HA & Hd & Hb)]; [done|]. apply Hfd in Hb as (B & Hrt & Hru); [|done|done]. exists i, A, B. by split_and!; try lia.
    - intros (i & A & B & Hi & HA & Hd & Hrt & Hru). right. pose proof (dot_bounds i A HA Hd) as HA'. exists i, A. split_and!; try done; try lia. apply Hfd; [done|done|]. by exists B. }
  assert (∀ r, 0 <= r < 32 * rr → in_rules ruleset r = true → 0 < r < nrules g) as Hrange by (intros r Hr Hin; by eapply opened_bounds, Hopen).
  assert (merged nucleus ruleset 0 (Merge nucleus [])) as Hm0.
  { exists 0. split_and!; [done|split; constructor|split; [done|exact Hf]| |].
    - intros r i Hr Hin Ei. destruct (wf_rrhs Hwf r (Hrange r Hr Hin)) as (i' & Ei' & Hi'). rewrite Ei in Ei'. injection Ei' as <-. lia.
    - intros z. cbn. rewrite elem_of_nil. split; [intros [?|?]; [done|by left]|]. intros [?|(r & Hr & _)]; [by right|lia]. }
  destruct (wp_elim _ _ _ (merge_words_spec nucleus ruleset Hlen Hrange ruleset 0 (Merge nucleus []) ltac:(lia) eq_refl ltac:(lia) Hm0)) as (s1 & [] & Em & m & Hm & Hb & Ha & _ & Hel).
  destruct (wp_elim _ _ _ (copy_rest_spec (csp s1) s1 m eq_refl Hm Hb Ha)) as (s2 & [] & Ec & Hsorted & Hel2).
  exists fd, (itemset s2). split_and!; [done| |done|].
  - unfold closure. fold rr. rewrite Er. rewrite (mbnd_eq _ _ _ _ _ Em). unfold mbnd, mget. by rewrite Ec.
  - intros i. rewrite Hel2, Hel, lr0_opened. split; (intros [?|(r & Hr)]; [by left|right; exists r]).
    + destruct Hr as (Hr & Hin & Ei). split; [by apply Hopen|done].
    + destruct Hr as [Hop Ei]. pose proof (opened_bounds nucleus r Hop). split_and!; try lia; [|done]. apply Hopen; [lia|done].
Qed.
End Grammar.

(** ** An example

    The grammar [S: E], [E: E + T], [E: T], [T: id], with the tokens 2 for [+]
    and 3 for [id] and the variables 4, 5 and 6. *)

Definition ex_grammar : grammar := Grammar 4 7 5 11 [-1; 5; -1; 5; 2; 6; -2; 6; -3; 3; -4] [0; 1; 3; 7; 9] [[]; []; []; []; [1; -1]; [2; 3; -1]; [4; -1]].

Lemma ex_grammar_wf : wf ex_grammar.
Proof.
  assert (∀ r, 0 < r < 5 → r = 1 ∨ r = 2 ∨ r = 3 ∨ r = 4) as Hcase by lia. split.
  - done.
  - done.
  - intros A HA. change (nvars ex_grammar) with 3 in HA. assert (A = 0 ∨ A = 1 ∨ A = 2) as H by lia. destruct_or!; subst; [exists [1]|exists [2; 3]|exists [4]]; (split; [done|]); repeat constructor; done.
  - intros r Hr. apply Hcase in Hr. destruct_or!; subst; eexists; (split; [reflexivity|]); cbn; lia.
  - intros r r' i i' H0 Hlt Ei Ei'. apply lookup_lt_Some in Ei' as Hl. cbn in Hl. pose proof (Hcase r ltac:(lia)). pose proof (Hcase r' ltac:(lia)). destruct_or!; subst; try lia; vm_compute in Ei, Ei'; simplify_eq; done.
  - done.
  - intros i s Hs. apply list_elem_of_lookup_2 in Hs. cbn in Hs. rewrite !elem_of_cons, elem_of_nil in Hs. cbn. destruct_or!; subst; try done.
Qed.

Lemma closure_witness : ∃ first_derives items, set_first_derives ex_grammar 77 = inr first_derives ∧ closure ex_grammar first_derives [1] = inr items ∧
  StronglySorted Z.lt items ∧ ∀ i, i ∈ items ↔ lr0 ex_grammar [1] i.
Proof. apply (closure_correct ex_grammar ex_grammar_wf 77 [1]); repeat constructor; done. Defined.

Example ex_closure : match set_first_derives ex_grammar 77 with inr fd => closure ex_grammar fd [1] | inl e => inl e end = inr [1; 3; 7; 9].
Proof. vm_compute. reflexivity. Qed.
End YaccClosure.
