(* ===== verification/Digraph.v ===== *)
(** Propagation of token sets along a relation (yacc/lalr.c: [digraph],
    [traverse]).

    The sets of tokens of the LALR(1) construction are computed by the
    algorithm of DeRemer and Pennello: one traversal of the relation in depth,
    which gives the same set to the vertices of a strongly connected component.
    [digraph_correct]: at the end the row of each vertex is the union of the
    initial rows of the vertices that it reaches. *)

From stdpp Require Import relations.
From S2P Require Import Prelude Warshall.
Import Warshall.

Module Digraph.

(** A [short]. *)
Definition short (x : Z) : Z := (x + 32768) mod 65536 - 32768.

(** The static variables of lalr.c that the traversal uses; [INDEX] and
    [VERTICES] are arrays of [ngotos + 1] elements. *)
Record dig : Type := Dig { F : list Z; INDEX : list Z; VERTICES : list Z; top : Z }.

Abbreviation DM := (M dig fault).

Definition on_F {A} (c : AM A) : DM A := λ s, match c (F s) with inl e => inl e | inr (l, x) => inr (Dig l (INDEX s) (VERTICES s) (top s), x) end.
Definition on_INDEX {A} (c : AM A) : DM A := λ s, match c (INDEX s) with inl e => inl e | inr (l, x) => inr (Dig (F s) l (VERTICES s) (top s), x) end.
Definition on_VERTICES {A} (c : AM A) : DM A := λ s, match c (VERTICES s) with inl e => inl e | inr (l, x) => inr (Dig (F s) (INDEX s) l (top s), x) end.
Definition set_top (x : Z) : DM unit := mmodify (λ s, Dig (F s) (INDEX s) (VERTICES s) x).

Section Digraph.
(** The number of vertices, the size of a row, and the relation: a list of
    vertices and then a negative number, or [NULL]. *)
Context (ngotos tokensetsize : Z) (R : list (option (list Z))).

Definition infinity : Z := ngotos + 2.

(** [while (fp1 < fp3) *fp2++ = *fp1++] *)
Fixpoint copy_row (n : nat) (fp2 fp1 : Z) : AM unit :=
  match n with
  | O => mreturn tt
  | S n => let* x := rd fp1 in wr fp2 x ;;; copy_row n (fp2 + 1) (fp1 + 1)
  end.

(** [while ((j = *rp++) >= 0)] *)
Fixpoint edges (traverse : Z → DM unit) (i : Z) (rp : list Z) : DM unit :=
  match rp with
  | [] => mfail (BadLoad i)
  | j :: rp =>
      if 0 <=? j then
        let* x := on_INDEX (rd j) in
        (if x =? 0 then traverse j else mreturn tt) ;;;
        let* a := on_INDEX (rd i) in
        let* b := on_INDEX (rd j) in
        (if b <? a then on_INDEX (wr i b) else mreturn tt) ;;;
        on_F (or_row (Z.to_nat tokensetsize) (i * tokensetsize) (j * tokensetsize)) ;;;
        edges traverse i rp
      else mreturn tt
  end.

(** [for (;;)]: the vertices of the component are popped. *)
Fixpoint pop (fuel : nat) (i : Z) : DM unit :=
  match fuel with
  | O => mfail OutOfFuel
  | S fuel =>
      let* s := mget in
      let* j := on_VERTICES (rd (top s)) in
      set_top (top s - 1) ;;;
      on_INDEX (wr j (short infinity)) ;;;
      if i =? j then mreturn tt
      else on_F (copy_row (Z.to_nat tokensetsize) (j * tokensetsize) (i * tokensetsize)) ;;; pop fuel i
  end.

Fixpoint traverse (fuel : nat) (i : Z) : DM unit :=
  match fuel with
  | O => mfail OutOfFuel
  | S fuel =>
      let* s := mget in
      set_top (top s + 1) ;;;
      on_VERTICES (wr (top s + 1) (short i)) ;;;
      let height := top s + 1 in
      on_INDEX (wr i (short height)) ;;;
      match R !! Z.to_nat i with
      | None => mfail (BadLoad i)
      | Some None => mreturn tt
      | Some (Some rp) => edges (traverse fuel) i rp
      end ;;;
      let* x := on_INDEX (rd i) in
      if x =? height then pop (S (Z.to_nat ngotos)) i else mreturn tt
  end.

(** The body of [for (i = 0; i < ngotos; i++)] of [digraph]. *)
Definition visit (i : Z) : DM unit :=
  let* x := on_INDEX (rd i) in
  match R !! Z.to_nat i with
  | None => mfail (BadLoad i)
  | Some None => mreturn tt
  | Some (Some _) => if x =? 0 then traverse (S (Z.to_nat ngotos)) i else mreturn tt
  end.

(** The arrays are allocated and cleared. *)
Definition digraph (F0 : list Z) : fault + list Z :=
  let cleared := replicate (Z.to_nat (ngotos + 1)) 0 in
  match for_up (Z.to_nat ngotos) 0 visit (Dig F0 cleared cleared 0) with
  | inl e => inl e
  | inr (s, _) => inr (F s)
  end.
End Digraph.

(** ** Rows of tokens *)

Section Rows.
Context (n ts : Z) (Hts : 0 <= ts).

Definition rows (l : list Z) : Prop := Z.of_nat (length l) = n * ts.
Definition fb (l : list Z) (v k : Z) : bool := bit l (v * ts) k.

Lemma cell_row k : 0 <= k < 32 * ts → 0 <= k / BITS_PER_WORD < ts.
Proof. intros Hk. unfold BITS_PER_WORD. split; [apply Z.div_pos; lia|apply Z.div_lt_upper_bound; lia]. Qed.

Lemma rows_apart i j : i ≠ j → j * ts + ts <= i * ts ∨ i * ts + ts <= j * ts.
Proof. intros H. assert (j + 1 <= i ∨ i + 1 <= j) as [?|?] by lia; [left|right]; nia. Qed.

Lemma in_row v i k : 0 <= k < 32 * ts → (i * ts <=? v * ts + k / BITS_PER_WORD) && (v * ts + k / BITS_PER_WORD <? i * ts + ts) = (v =? i).
Proof.
  intros Hk. destruct (cell_row k Hk). destruct (Z.eqb_spec v i) as [->|Hne].
  - rewrite (proj2 (Z.leb_le _ _)), (proj2 (Z.ltb_lt _ _)) by lia. done.
  - destruct (rows_apart v i Hne); [rewrite (proj2 (Z.ltb_ge _ _)) by lia; apply andb_false_r|by rewrite (proj2 (Z.leb_gt _ _)) by lia].
Qed.

Lemma or_rows l i j : rows l → 0 <= i < n → 0 <= j < n → ∃ l', or_row (Z.to_nat ts) (i * ts) (j * ts) l = inr (l', tt) ∧ rows l' ∧
  ∀ v k, 0 <= v < n → 0 <= k < 32 * ts → fb l' v k = fb l v k || (v =? i) && fb l j k.
Proof.
  intros Hl Hi Hj. unfold rows in *. destruct (or_row_eq (Z.to_nat ts) (i * ts) (j * ts) l) as (l' & E & Hlen & Hb); rewrite ?Z2Nat.id in * by lia; [nia..| |].
  { destruct (decide (j = i)) as [->|Hne]; [by left|right]. destruct (rows_apart j i Hne); lia. }
  exists l'. split_and!; [done|congruence|]. intros v k Hv Hk. unfold fb, bit. destruct (cell_row k Hk). rewrite Hb by nia. rewrite in_row by done. destruct (Z.eqb_spec v i) as [->|]; [|by rewrite orb_false_r].
  rewrite Z.lor_spec. cbn [andb]. by replace (j * ts + (i * ts + k / BITS_PER_WORD - i * ts)) with (j * ts + k / BITS_PER_WORD) by lia.
Qed.

Lemma copy_row_eq m : ∀ fp2 fp1 l, 0 <= fp1 → 0 <= fp2 → fp1 + Z.of_nat m <= Z.of_nat (length l) → fp2 + Z.of_nat m <= Z.of_nat (length l) → fp1 + Z.of_nat m <= fp2 ∨ fp2 + Z.of_nat m <= fp1 →
  ∃ l', copy_row m fp2 fp1 l = inr (l', tt) ∧ length l' = length l ∧
    ∀ i, 0 <= i → default 0 (l' !! Z.to_nat i) = if (fp2 <=? i) && (i <? fp2 + Z.of_nat m) then default 0 (l !! Z.to_nat (fp1 + (i - fp2))) else default 0 (l !! Z.to_nat i).
Proof.
  induction m as [|m IH]; intros fp2 fp1 l H1 H2 H3 H4 H5; cbn [copy_row].
  - exists l. split_and!; [done..|]. intros i Hi. destruct (Z.leb_spec fp2 i), (Z.ltb_spec i (fp2 + Z.of_nat 0)); try done. lia.
  - unfold mbnd. rewrite rd_lookup by lia. rewrite wr_eq by lia. destruct (IH (fp2 + 1) (fp1 + 1) (<[Z.to_nat fp2 := default 0 (l !! Z.to_nat fp1)]> l)) as (l' & E & Hl & Hb); rewrite ?length_insert; [lia..|].
    rewrite length_insert in Hl. exists l'. split_and!; [done..|]. intros i Hi. rewrite Hb by lia.
    destruct (Z.leb_spec fp2 i), (Z.leb_spec (fp2 + 1) i), (Z.ltb_spec i (fp2 + Z.of_nat (S m))), (Z.ltb_spec i (fp2 + 1 + Z.of_nat m)); cbn [andb]; try lia; rewrite set_bit_lookup by lia.
    + rewrite (proj2 (Z.eqb_neq _ _)) by lia. by replace (fp1 + 1 + (i - (fp2 + 1))) with (fp1 + (i - fp2)) by lia.
    + by rewrite (proj2 (Z.eqb_neq _ _)) by lia.
    + rewrite (proj2 (Z.eqb_eq _ _)) by lia. by replace (fp1 + (i - fp2)) with fp1 by lia.
    + by rewrite (proj2 (Z.eqb_neq _ _)) by lia.
Qed.

Lemma copy_rows l i j : rows l → 0 <= i < n → 0 <= j < n → i ≠ j → ∃ l', copy_row (Z.to_nat ts) (j * ts) (i * ts) l = inr (l', tt) ∧ rows l' ∧
  ∀ v k, 0 <= v < n → 0 <= k < 32 * ts → fb l' v k = if v =? j then fb l i k else fb l v k.
Proof.
  intros Hl Hi Hj Hne. unfold rows in *. destruct (copy_row_eq (Z.to_nat ts) (j * ts) (i * ts) l) as (l' & E & Hlen & Hb); rewrite ?Z2Nat.id in * by lia; [nia..| |].
  { destruct (rows_apart i j Hne); lia. }
  exists l'. split_and!; [done|congruence|]. intros v k Hv Hk. unfold fb, bit. destruct (cell_row k Hk). rewrite Hb by nia. rewrite in_row by done. destruct (Z.eqb_spec v j) as [->|]; [|done]. by replace (i * ts + (j * ts + k / BITS_PER_WORD - j * ts)) with (i * ts + k / BITS_PER_WORD) by lia.
Qed.
End Rows.

(** ** The traversal *)

Section Traversal.
Context (n ts : Z) (R : list (option (list Z))) (F0 : list Z).

Record wf : Prop := {
  wf_count : 0 <= n <= 32765;
  wf_size : 0 <= ts;
  wf_rows : rows n ts F0;
  wf_relation v : 0 <= v < n → R !! Z.to_nat v = Some None ∨ ∃ l, R !! Z.to_nat v = Some (Some (l ++ [-1])) ∧ Forall (λ j, 0 <= j < n) l
}.
Context (Hwf : wf).

(** The vertices that follow [v]. *)
Definition outs (v : Z) : list Z := match R !! Z.to_nat v with Some (Some rp) => rp | _ => [] end.
Definition E (v w : Z) : Prop := 0 <= v < n ∧ w ∈ outs v ∧ 0 <= w.

Lemma E_range v w : E v w → 0 <= v < n ∧ 0 <= w < n.
Proof.
  intros (Hv & Hw & H0). split; [done|]. unfold outs in Hw. destruct (wf_relation Hwf v Hv) as [E1|(l & E1 & Hl)]; rewrite E1 in Hw; [by apply elem_of_nil in Hw|].
  rewrite Forall_forall in Hl. apply elem_of_app in Hw as [Hw|Hw]; [by apply Hl|]. apply list_elem_of_singleton in Hw. lia.
Qed.

Lemma rtc_range v w : rtc E v w → 0 <= v < n → 0 <= w < n.
Proof. induction 1 as [|x y z Hxy _ IH]; [done|]. intros _. apply IH. by apply (E_range x y). Qed.

Definition tok (k : Z) : Prop := 0 <= k < 32 * ts.
Notation fbit := (fb ts).

(** The union of the initial rows that [v] reaches. *)
Definition star (v k : Z) : Prop := ∃ w, rtc E v w ∧ fbit F0 w k = true.

Lemma star_step v w k : rtc E v w → star w k → star v k.
Proof. intros H (x & Hx & Hb). exists x. split; [by etrans|done]. Qed.

(** [INDEX[v]] *)
Definition idx (s : dig) (v : Z) : Z := default 0 (INDEX s !! Z.to_nat v).
Definition inf : Z := infinity n.

(** The state, with the stack [l]: [l !! p] is [VERTICES[p + 1]]. *)
Record inv (s : dig) (l : list Z) : Prop := {
  i_rows : rows n ts (F s);
  i_lengths : Z.of_nat (length (INDEX s)) = n + 1 ∧ Z.of_nat (length (VERTICES s)) = n + 1;
  i_top : top s = Z.of_nat (length l);
  i_stack p v : l !! p = Some v → VERTICES s !! S p = Some v;
  i_nodup : NoDup l;
  i_range v : v ∈ l → 0 <= v < n;
  i_low p v : l !! p = Some v → 1 <= idx s v <= Z.of_nat p + 1;
  i_other v : 0 <= v < n → v ∉ l → idx s v = 0 ∨ idx s v = inf;
  i_done v : 0 <= v < n → idx s v = inf → (∀ w, E v w → idx s w = inf) ∧ ∀ k, tok k → fbit (F s) v k = true ↔ star v k;
  i_white v k : 0 <= v < n → idx s v = 0 → tok k → fbit (F s) v k = fbit F0 v k;
  i_open v k : v ∈ l → tok k → (fbit F0 v k = true → fbit (F s) v k = true) ∧ (fbit (F s) v k = true → star v k);
  i_path v : v ∈ l → ∃ w, l !! Z.to_nat (idx s v - 1) = Some w ∧ rtc E v w
}.

(** What a part of the traversal keeps of a state with the stack [l]. *)
Record keeps (l : list Z) (s s' : dig) : Prop := {
  k_idx v : v ∈ l → idx s' v = idx s v;
  k_row v k : v ∈ l → tok k → fbit (F s') v k = fbit (F s) v k;
  k_done v : 0 <= v < n → idx s v = inf → idx s' v = inf;
  k_seen v : 0 <= v < n → idx s v ≠ 0 → idx s' v ≠ 0
}.

Lemma keeps_refl l s : keeps l s s.
Proof. by split. Qed.

Lemma keeps_trans l s1 s2 s3 : keeps l s1 s2 → keeps l s2 s3 → keeps l s1 s3.
Proof.
  intros [A1 A2 A3 A4] [B1 B2 B3 B4]. split; intros v.
  - intros Hv. by rewrite B1, A1.
  - intros k Hv Hk. by rewrite B2, A2.
  - intros Hr Hd. by apply B3, A3.
  - intros Hr Hd. by apply B4, A4.
Qed.

Lemma keeps_sub l l' s s' : (∀ v, v ∈ l → v ∈ l') → keeps l' s s' → keeps l s s'.
Proof. intros Hl [A1 A2 A3 A4]. split; auto. Qed.

Definition row_in (s : dig) (v w : Z) : Prop := ∀ k, tok k → fbit (F s) v k = true → fbit (F s) w k = true.

(** A vertex [x] above [i] on the stack, [l] being what is below [i]. *)
Record above (l : list Z) (i : Z) (s : dig) (x : Z) : Prop := {
  a_path : rtc E i x;
  a_low : idx s i <= idx s x;
  a_seen y : E x y → idx s y ≠ 0;
  a_back y : E x y → y ∈ l → idx s i <= idx s y;
  a_row : row_in s x i;
  a_done y : E x y → idx s y = inf → row_in s y i
}.

(** The vertices [new] are above [i]; those of [pr] are the successors of [i]
    already seen. *)
Record part (l : list Z) (i : Z) (new pr : list Z) (s : dig) : Prop := {
  p_above x : x ∈ new → above l i s x;
  p_strict p x : (l ++ i :: new) !! p = Some x → x ≠ i → (length l <= p)%nat → idx s x < Z.of_nat p + 1;
  p_edge y : y ∈ pr → E i y;
  p_seen y : y ∈ pr → idx s y ≠ 0;
  p_back y : y ∈ pr → y ∈ l → idx s i <= idx s y;
  p_done y : y ∈ pr → idx s y = inf → row_in s y i
}.

(** After the traversal from [i]: either its component is done, or [i] and the
    vertices above it wait for a vertex below. *)
Definition traversed (l : list Z) (i : Z) (s s' : dig) : Prop := ∃ new, inv s' (l ++ new) ∧ keeps l s s' ∧ idx s' i ≠ 0 ∧
  (new = [] ∧ idx s' i = inf ∨
   ∃ more, new = i :: more ∧ idx s' i < Z.of_nat (length l) + 1 ∧ (∀ x, x ∈ new → above l i s' x) ∧
     ∀ p x, (l ++ new) !! p = Some x → (length l <= p)%nat → idx s' x < Z.of_nat p + 1).

(** *** Operations *)

Lemma rd_idx s v l : inv s l → 0 <= v < n → on_INDEX (rd v) s = inr (s, idx s v).
Proof. intros HI Hv. destruct (i_lengths _ _ HI) as [H _]. unfold on_INDEX. rewrite rd_lookup by lia. by destruct s. Qed.

Definition set_idx (v x : Z) (s : dig) : dig := Dig (F s) (<[Z.to_nat v := x]> (INDEX s)) (VERTICES s) (top s).

Lemma wr_idx s v x : Z.of_nat (length (INDEX s)) = n + 1 → 0 <= v < n → on_INDEX (wr v x) s = inr (set_idx v x s, tt).
Proof. intros H Hv. unfold on_INDEX. by rewrite wr_eq by lia. Qed.

Lemma idx_set s v x w : Z.of_nat (length (INDEX s)) = n + 1 → 0 <= v < n → 0 <= w < n → idx (set_idx v x s) w = if w =? v then x else idx s w.
Proof. intros H Hv Hw. unfold idx, set_idx. cbn. apply set_bit_lookup; lia. Qed.

Lemma short_small x : 0 <= x <= 32767 → short x = x.
Proof. intros H. unfold short. rewrite Z.mod_small by lia. lia. Qed.

Lemma nodup_bound l : NoDup l → (∀ v, v ∈ l → 0 <= v < n) → Z.of_nat (length l) <= n.
Proof.
  intros Hd Hr. pose proof (wf_count Hwf). assert (l ⊆+ seqZ 0 n) as Hs by (apply NoDup_submseteq; [done|]; intros v Hv; apply elem_of_seqZ; specialize (Hr v Hv); lia).
  apply submseteq_length in Hs. rewrite length_seqZ in Hs. lia.
Qed.

Lemma idx_cases s l v : inv s l → 0 <= v < n → v ∈ l ∧ 1 <= idx s v <= Z.of_nat (length l) ∨ v ∉ l ∧ idx s v = 0 ∨ v ∉ l ∧ idx s v = inf.
Proof.
  intros HI Hv. destruct (decide (v ∈ l)) as [Hin|Hin]; [left|right; destruct (i_other _ _ HI v Hv Hin); tauto]. split; [done|].
  apply list_elem_of_lookup_1 in Hin as [p Hp]. pose proof (i_low _ _ HI p v Hp). apply lookup_lt_Some in Hp. lia.
Qed.

Lemma inf_large s l v : inv s l → v ∈ l → idx s v < inf.
Proof.
  intros HI Hv. pose proof (i_range _ _ HI v Hv) as Hr. destruct (idx_cases s l v HI Hr) as [[_ H]|[[? _]|[? _]]]; [|done|done].
  pose proof (nodup_bound l (i_nodup _ _ HI) (i_range _ _ HI)). unfold inf, infinity. lia.
Qed.

Lemma inf_pos : 1 <= inf.
Proof. pose proof (wf_count Hwf). unfold inf, infinity. lia. Qed.

Lemma idx_pos s l v : inv s l → 0 <= v < n → idx s v ≠ 0 → 1 <= idx s v.
Proof. intros HI Hv Hne. pose proof inf_pos. destruct (idx_cases s l v HI Hv) as [[_ ?]|[[_ ?]|[_ ->]]]; lia. Qed.

(** The row of a vertex already seen is part of what it reaches. *)
Lemma row_star s l v k : inv s l → 0 <= v < n → idx s v ≠ 0 → tok k → fbit (F s) v k = true → star v k.
Proof.
  intros HI Hv Hne Hk Hb. destruct (idx_cases s l v HI Hv) as [[Hin _]|[[_ ?]|[_ Hd]]]; [|lia|].
  - by apply (i_open _ _ HI v k Hin Hk).
  - by apply (i_done _ _ HI v Hv Hd).
Qed.

(** *** A new vertex *)

Lemma push_inv s l i : inv s l → 0 <= i < n → idx s i = 0 →
  let s1 := Dig (F s) (<[Z.to_nat i := top s + 1]> (INDEX s)) (<[Z.to_nat (top s + 1) := i]> (VERTICES s)) (top s + 1) in
  inv s1 (l ++ [i]) ∧ keeps l s s1 ∧ part l i [] [] s1 ∧ idx s1 i = Z.of_nat (length l) + 1.
Proof.
  intros HI Hi Hw s1. destruct (i_lengths _ _ HI) as [L1 L2]. pose proof (i_top _ _ HI) as Ht. pose proof inf_pos as Hinf.
  assert (i ∉ l) as Hni. { intros Hin. destruct (idx_cases s l i HI Hi) as [[_ ?]|[[? _]|[? _]]]; [lia|done|done]. }
  assert (Z.of_nat (length (l ++ [i])) <= n) as Hlen.
  { apply nodup_bound; [apply NoDup_app; split_and!; [apply HI|by intros x Hx ->%list_elem_of_singleton|apply NoDup_singleton]|]. intros v [Hv| ->%list_elem_of_singleton]%elem_of_app; [by apply HI|done]. }
  rewrite length_app in Hlen. cbn in Hlen. assert (∀ v, 0 <= v < n → idx s1 v = if v =? i then top s + 1 else idx s v) as Hidx by (intros v Hv; apply (idx_set s i (top s + 1) v); done).
  assert (∀ v, v ∈ l → v ≠ i) as Hne by (intros v Hv ->; done).
  assert (∀ v, v ∈ l → idx s1 v = idx s v) as Hold by (intros v Hv; rewrite Hidx by (by apply HI); by rewrite (proj2 (Z.eqb_neq _ _)) by by apply Hne).
  assert (idx s1 i = Z.of_nat (length l) + 1) as Hii by (rewrite Hidx, Z.eqb_refl by done; lia). unfold inf, infinity in *.
  split_and!; [split|split|split|done].
  - apply HI.
  - cbn. rewrite !length_insert. done.
  - cbn. rewrite length_app. cbn. lia.
  - intros p v Hp. cbn. apply lookup_app_Some in Hp as [Hp|[Hge Hp]].
    + pose proof (lookup_lt_Some _ _ _ Hp). rewrite list_lookup_insert_ne by lia. by apply HI.
    + destruct (p - length l)%nat as [|q] eqn:Eq; [|done]. injection Hp as <-. replace (S p) with (Z.to_nat (top s + 1)) by lia. apply list_lookup_insert_eq. lia.
  - apply NoDup_app. split_and!; [apply HI|by intros x Hx ->%list_elem_of_singleton|apply NoDup_singleton].
  - intros v [Hv| ->%list_elem_of_singleton]%elem_of_app; [by apply HI|done].
  - intros p v Hp. apply lookup_app_Some in Hp as [Hp|[Hge Hp]].
    + rewrite Hold by by eapply list_elem_of_lookup_2. by apply HI.
    + destruct (p - length l)%nat as [|q] eqn:Eq; [|done]. injection Hp as <-. rewrite Hii. lia.
  - intros v Hv Hn. apply not_elem_of_app in Hn as [Hn1 Hn2]. rewrite Hidx by done. rewrite (proj2 (Z.eqb_neq _ _)) by set_solver. by apply HI.
  - intros v Hv. rewrite Hidx by done. destruct (Z.eqb_spec v i) as [->|Hvi]; [unfold inf, infinity; lia|]. intros Hd. destruct (i_done _ _ HI v Hv Hd) as [H1 H2]. split; [|done]. intros w Hw'. rewrite Hidx by (by apply (E_range v w)).
    rewrite (H1 w Hw'). destruct (Z.eqb_spec w i) as [->|]; [|done]. specialize (H1 i Hw'). rewrite Hw in H1. unfold inf, infinity in H1. lia.
  - intros v k Hv. rewrite Hidx by done. destruct (Z.eqb_spec v i); [lia|]. by apply HI.
  - intros v k [Hv| ->%list_elem_of_singleton]%elem_of_app Hk; [by apply HI|]. cbn. rewrite (i_white _ _ HI i k Hi Hw Hk). split; [done|]. intros Hb. exists i. done.
  - intros v [Hv| ->%list_elem_of_singleton]%elem_of_app.
    + rewrite Hold by done. destruct (i_path _ _ HI v Hv) as (w & Ew & Hp). exists w. split; [by apply lookup_app_l_Some|done].
    + exists i. rewrite Hii. split; [|done]. apply lookup_app_Some. right. replace (Z.to_nat (Z.of_nat (length l) + 1 - 1)) with (length l) by lia. rewrite Nat.sub_diag. done.
  - done.
  - done.
  - intros v Hv Hd. rewrite Hidx by done. destruct (Z.eqb_spec v i) as [->|]; [unfold inf, infinity in *; lia|done].
  - intros v Hv Hd. rewrite Hidx by done. destruct (Z.eqb_spec v i) as [->|]; [lia|done].
  - intros x Hx. by apply elem_of_nil in Hx.
  - intros p x Hp Hxi Hge. apply lookup_app_Some in Hp as [Hp|[_ Hp]]; [apply lookup_lt_Some in Hp; lia|]. destruct (p - length l)%nat; [by injection Hp|done].
  - intros y Hy. by apply elem_of_nil in Hy.
  - intros y Hy. by apply elem_of_nil in Hy.
  - intros y Hy. by apply elem_of_nil in Hy.
  - intros y Hy. by apply elem_of_nil in Hy.
Qed.

(** *** An edge *)

(** [s2] is [s1] after the two assignments for the edge from [i] to [j]. *)
Record merged (i j : Z) (s1 s2 : dig) : Prop := {
  m_rows : rows n ts (F s2);
  m_len : Z.of_nat (length (INDEX s2)) = n + 1;
  m_vertices : VERTICES s2 = VERTICES s1 ∧ top s2 = top s1;
  m_idx v : 0 <= v < n → idx s2 v = if v =? i then Z.min (idx s1 i) (idx s1 j) else idx s1 v;
  m_bit v k : 0 <= v < n → tok k → fbit (F s2) v k = fbit (F s1) v k || (v =? i) && fbit (F s1) j k
}.

Lemma merged_run s1 l i j : inv s1 l → 0 <= i < n → 0 <= j < n →
  wp (let* a := on_INDEX (rd i) in let* b := on_INDEX (rd j) in
      (if b <? a then on_INDEX (wr i b) else mreturn tt) ;;;
      on_F (or_row (Z.to_nat ts) (i * ts) (j * ts))) (λ _, merged i j s1) s1.
Proof.
  intros HI Hi Hj. destruct (i_lengths _ _ HI) as [L1 L2]. apply wp_bind. eapply wp_intro; [by eapply rd_idx|]. apply wp_bind. eapply wp_intro; [by eapply rd_idx|]. apply wp_bind.
  set (s' := if idx s1 j <? idx s1 i then set_idx i (idx s1 j) s1 else s1).
  assert ((if idx s1 j <? idx s1 i then on_INDEX (wr i (idx s1 j)) else mreturn tt) s1 = inr (s', tt)) as Ew by (unfold s'; destruct (_ <? _); [by apply wr_idx|done]).
  eapply wp_intro; [exact Ew|]. assert (F s' = F s1 ∧ VERTICES s' = VERTICES s1 ∧ top s' = top s1 ∧ length (INDEX s') = length (INDEX s1)) as (E1 & E2 & E3 & E4) by (unfold s'; destruct (_ <? _); cbn; rewrite ?length_insert; done).
  destruct (or_rows n ts (wf_size Hwf) (F s1) i j (i_rows _ _ HI) Hi Hj) as (l' & Eo & Hr & Hb). eapply wp_intro; [unfold on_F; rewrite E1, Eo; reflexivity|]. split; cbn; try done; [by rewrite E4|].
  intros v Hv. change (idx s' v = if v =? i then Z.min (idx s1 i) (idx s1 j) else idx s1 v). unfold s'. destruct (Z.ltb_spec (idx s1 j) (idx s1 i)).
  - rewrite idx_set by done. destruct (v =? i); [lia|done].
  - destruct (Z.eqb_spec v i) as [->|]; [lia|done].
Qed.

Lemma merged_inv s1 s2 l i j : inv s1 l → i ∈ l → E i j → idx s1 j ≠ 0 → merged i j s1 s2 → inv s2 l.
Proof.
  intros HI Hil Hij Hj [M1 M2 [M3 M4] M5 M6]. destruct (E_range i j Hij) as [Hi Hjr]. pose proof (idx_pos s1 l j HI Hjr Hj) as Hjp.
  pose proof (inf_large s1 l i HI Hil) as Hilt. destruct (i_lengths _ _ HI) as [L1 L2]. split; try done; try apply HI.
  - by rewrite M3.
  - rewrite M4. apply HI.
  - intros p v Hp. rewrite M3. by apply HI.
  - intros p v Hp. pose proof (i_low _ _ HI p v Hp). rewrite M5 by (apply HI; by eapply list_elem_of_lookup_2). destruct (Z.eqb_spec v i) as [->|]; lia.
  - intros v Hv Hn. rewrite M5 by done. rewrite (proj2 (Z.eqb_neq _ _)) by congruence. by apply HI.
  - intros v Hv Hd. rewrite M5 in Hd by done. destruct (Z.eqb_spec v i) as [->|Hne]; [lia|]. destruct (i_done _ _ HI v Hv Hd) as [H1 H2]. split.
    + intros w Hw. rewrite M5 by (by apply (E_range v w)). specialize (H1 w Hw). destruct (Z.eqb_spec w i) as [->|]; [lia|done].
    + intros k Hk. rewrite M6 by done. rewrite (proj2 (Z.eqb_neq _ _)), orb_false_r by done. by apply H2.
  - intros v k Hv H0 Hk. rewrite M5 in H0 by done. destruct (Z.eqb_spec v i) as [->|Hne].
    + apply list_elem_of_lookup_1 in Hil as [p Hp]. pose proof (i_low _ _ HI p i Hp). lia.
    + rewrite M6 by done. rewrite (proj2 (Z.eqb_neq _ _)), orb_false_r by done. by apply HI.
  - intros v k Hv Hk. destruct (i_open _ _ HI v k Hv Hk) as [O1 O2]. rewrite M6 by (done || by apply HI). split.
    + intros Hb. by rewrite O1.
    + intros [Hb|[->%Z.eqb_eq Hb]%andb_true_iff]%orb_true_iff; [by apply O2|]. eapply star_step; [by apply rtc_once|]. by eapply row_star.
  - intros v Hv. rewrite M5 by by apply HI. destruct (Z.eqb_spec v i) as [->|]; [|by apply HI]. destruct (decide (idx s1 i <= idx s1 j)); [rewrite Z.min_l by lia; by apply HI|]. rewrite Z.min_r by lia.
    destruct (idx_cases s1 l j HI Hjr) as [[Hjl _]|[[_ ?]|[_ ?]]]; [|lia|lia]. destruct (i_path _ _ HI j Hjl) as (w & Ew & Hp). exists w. split; [done|]. by eapply rtc_l.
Qed.

(** [j] has been entered from the state [s] with the stack [l]; the vertices
    [new] are added to the stack. *)
Record entered (l : list Z) (j : Z) (new : list Z) (s s1 : dig) : Prop := {
  e_inv : inv s1 (l ++ new);
  e_keeps : keeps l s s1;
  e_seen : idx s1 j ≠ 0;
  e_above x : x ∈ new → above l j s1 x;
  e_strict p x : (l ++ new) !! p = Some x → (length l <= p)%nat → idx s1 x < Z.of_nat p + 1
}.

Lemma entered_seen l j s : inv s l → idx s j ≠ 0 → entered l j [] s s.
Proof.
  intros HI Hj. split; rewrite ?app_nil_r; try done.
  - intros x Hx. by apply elem_of_nil in Hx.
  - intros p x Hp Hge. apply lookup_lt_Some in Hp. lia.
Qed.

Lemma traversed_entered l j s s1 : traversed l j s s1 → ∃ new, entered l j new s s1.
Proof.
  intros (new & HI & Hk & Hj & Hor). exists new. split; try done.
  - intros x Hx. destruct Hor as [[-> _]|(more & _ & _ & Ha & _)]; [by apply elem_of_nil in Hx|by apply Ha].
  - intros p x Hp Hge. destruct Hor as [[-> _]|(more & _ & _ & _ & Hs)]; [|by apply Hs]. rewrite app_nil_r in Hp. apply lookup_lt_Some in Hp. lia.
Qed.

Lemma stays_done L L1 s s1 y : inv s L → inv s1 L1 → keeps L s s1 → 0 <= y < n → idx s y ≠ 0 → idx s1 y = inf → idx s y = inf ∧ ∀ k, tok k → fbit (F s1) y k = fbit (F s) y k.
Proof.
  intros HI HI1 Hk Hy Hne Hd. assert (idx s y = inf) as Hd0.
  { destruct (idx_cases s L y HI Hy) as [[Hin _]|[[_ ?]|[_ ?]]]; [|done|done]. pose proof (inf_large s L y HI Hin). rewrite (k_idx _ _ _ Hk y Hin) in Hd. lia. }
  split; [done|]. intros k Htk. apply eq_true_iff_eq. rewrite (proj2 (i_done _ _ HI1 y Hy Hd) k Htk), (proj2 (i_done _ _ HI y Hy Hd0) k Htk). done.
Qed.

Section Edge.
Context (l : list Z) (i : Z) (new pr : list Z) (j : Z) (newj : list Z) (s s1 s2 : dig).
Let L := l ++ i :: new.
Context (HI : inv s L) (Hp : part l i new pr s) (Hij : E i j) (He : entered L j newj s s1) (Hm : merged i j s1 s2).

Lemma edge_i : i ∈ L ∧ 0 <= i < n ∧ 0 <= j < n.
Proof. unfold L. split; [set_solver|]. by apply E_range. Qed.

Lemma edge_nodup : (∀ v, v ∈ l → v ≠ i) ∧ (∀ v, v ∈ new → v ≠ i) ∧ (∀ v, v ∈ newj → v ∉ L).
Proof.
  pose proof (i_nodup _ _ (e_inv _ _ _ _ _ He)) as Hd. apply NoDup_app in Hd as (Hd & Hx & _). unfold L in Hd. apply NoDup_app in Hd as (_ & Hd1 & Hd2). apply NoDup_cons in Hd2 as [Hd2 _]. split_and!.
  - intros v Hv ->. apply (Hd1 i Hv). left.
  - by intros v Hv ->.
  - intros v Hv HvL. by apply (Hx v HvL).
Qed.

Lemma edge_idx v : v ∈ L → v ≠ i → idx s2 v = idx s v.
Proof. intros Hv Hne. rewrite (m_idx _ _ _ _ Hm) by by apply (i_range _ _ HI). rewrite (proj2 (Z.eqb_neq _ _)) by done. by apply (k_idx _ _ _ (e_keeps _ _ _ _ _ He)). Qed.

Lemma edge_low : idx s2 i = Z.min (idx s i) (idx s1 j).
Proof. destruct edge_i as (Hi & Hr & _). rewrite (m_idx _ _ _ _ Hm), Z.eqb_refl by done. by rewrite (k_idx _ _ _ (e_keeps _ _ _ _ _ He) i Hi). Qed.

Lemma edge_row v k : v ∈ L → v ≠ i → tok k → fbit (F s2) v k = fbit (F s) v k.
Proof.
  intros Hv Hne Hk. rewrite (m_bit _ _ _ _ Hm) by (done || by apply (i_range _ _ HI)). rewrite (proj2 (Z.eqb_neq _ _)), orb_false_r by done. by apply (k_row _ _ _ (e_keeps _ _ _ _ _ He)).
Qed.

Lemma edge_grows k : tok k → fbit (F s) i k = true ∨ fbit (F s1) j k = true → fbit (F s2) i k = true.
Proof.
  intros Hk Hb. destruct edge_i as (Hi & Hr & _). rewrite (m_bit _ _ _ _ Hm), Z.eqb_refl by done. rewrite (k_row _ _ _ (e_keeps _ _ _ _ _ He) i k Hi Hk). apply orb_true_iff. cbn. tauto.
Qed.

Lemma edge_seen y : 0 <= y < n → idx s1 y ≠ 0 → idx s2 y ≠ 0.
Proof.
  intros Hy Hne. pose proof (e_inv _ _ _ _ _ He) as HI1. destruct edge_i as (Hi & Hr & Hj). rewrite (m_idx _ _ _ _ Hm) by done. destruct (Z.eqb_spec y i) as [->|]; [|done].
  pose proof (idx_pos _ _ i HI1 Hr Hne). pose proof (idx_pos _ _ j HI1 Hj (e_seen _ _ _ _ _ He)). lia.
Qed.

(** A vertex done in [s2] was done in [s1], with the same row. *)
Lemma edge_done1 y : 0 <= y < n → idx s2 y = inf → idx s1 y = inf ∧ ∀ k, tok k → fbit (F s2) y k = fbit (F s1) y k.
Proof.
  intros Hy Hd. pose proof (e_inv _ _ _ _ _ He) as HI1. destruct edge_i as (Hi & Hr & Hj). rewrite (m_idx _ _ _ _ Hm) in Hd by done. assert (i ∈ L ++ newj) as Hi1 by set_solver. pose proof (inf_large _ _ i HI1 Hi1).
  destruct (Z.eqb_spec y i) as [->|Hne]; [lia|]. split; [done|]. intros k Hk. rewrite (m_bit _ _ _ _ Hm) by done. by rewrite (proj2 (Z.eqb_neq _ _)), orb_false_r.
Qed.

(** It was already done in [s] if it was seen there. *)
Lemma edge_done y : 0 <= y < n → idx s y ≠ 0 → idx s2 y = inf → idx s y = inf ∧ ∀ k, tok k → fbit (F s2) y k = fbit (F s) y k.
Proof.
  intros Hy Hne Hd. destruct (edge_done1 y Hy Hd) as [H1 H2]. destruct (stays_done L (L ++ newj) s s1 y HI (e_inv _ _ _ _ _ He) (e_keeps _ _ _ _ _ He) Hy Hne H1) as [H3 H4]. split; [done|]. intros k Hk. by rewrite H2, H4.
Qed.

Lemma edge_above_old x : x ∈ new → above l i s2 x.
Proof.
  intros Hx. destruct (p_above _ _ _ _ _ Hp x Hx) as [A1 A2 A3 A4 A5 A6]. destruct edge_nodup as (N1 & N2 & N3). assert (x ∈ L) as HxL by (unfold L; set_solver). assert (∀ v, v ∈ l → v ∈ L) as HlL by (unfold L; set_solver).
  pose proof edge_low as Elow. split; [done| | | | |].
  - rewrite (edge_idx x HxL (N2 x Hx)). lia.
  - intros y Hy. destruct (E_range x y Hy) as [_ Hyr]. apply edge_seen; [done|]. apply (k_seen _ _ _ (e_keeps _ _ _ _ _ He)); [done|by apply A3].
  - intros y Hy Hyl. rewrite (edge_idx y (HlL y Hyl) (N1 y Hyl)). specialize (A4 y Hy Hyl). lia.
  - intros k Hk. rewrite (edge_row x k HxL (N2 x Hx) Hk). intros Hb. apply edge_grows; [done|]. left. by apply A5.
  - intros y Hy Hd k Hk. destruct (E_range x y Hy) as [_ Hyr]. destruct (edge_done y Hyr (A3 y Hy) Hd) as [H1 H2]. rewrite H2 by done. intros Hb. apply edge_grows; [done|]. left. by apply (A6 y).
Qed.

Lemma edge_above_new x : x ∈ newj → above l i s2 x.
Proof.
  intros Hx. destruct (e_above _ _ _ _ _ He x Hx) as [A1 A2 A3 A4 A5 A6]. destruct edge_nodup as (N1 & N2 & N3). destruct edge_i as (Hi & Hr & Hj). assert (x ≠ i) as Hxi by (intros ->; by apply (N3 i Hx)). assert (∀ v, v ∈ l → v ∈ L) as HlL by (unfold L; set_solver).
  assert (0 <= x < n) as Hxr by (apply (i_range _ _ (e_inv _ _ _ _ _ He)); set_solver). pose proof edge_low as Elow. split.
  - by eapply rtc_l.
  - rewrite (m_idx _ _ _ _ Hm x) by done. rewrite (proj2 (Z.eqb_neq _ _)) by done. lia.
  - intros y Hy. apply edge_seen; [by apply (E_range x y)|by apply A3].
  - intros y Hy Hyl. specialize (A4 y Hy (HlL y Hyl)). rewrite (m_idx _ _ _ _ Hm y) by by apply (E_range x y). rewrite (proj2 (Z.eqb_neq _ _)) by by apply N1. lia.
  - intros k Hk. rewrite (m_bit _ _ _ _ Hm) by done. rewrite (proj2 (Z.eqb_neq _ _)), orb_false_r by done. intros Hb. apply edge_grows; [done|]. right. by apply A5.
  - intros y Hy Hd k Hk. destruct (edge_done1 y (proj2 (E_range x y Hy)) Hd) as [H1 H2]. rewrite H2 by done. intros Hb. apply edge_grows; [done|]. right. by apply (A6 y).
Qed.

Lemma edge_part : part l i (new ++ newj) (j :: pr) s2.
Proof.
  destruct edge_nodup as (N1 & N2 & N3). destruct edge_i as (Hi & Hr & Hj). assert (∀ v, v ∈ l → v ∈ L) as HlL by (unfold L; set_solver). pose proof edge_low as Elow. split.
  - intros x [Hx|Hx]%elem_of_app; [by apply edge_above_old|by apply edge_above_new].
  - intros p x Hx Hxi Hge. replace (l ++ i :: new ++ newj) with (L ++ newj) in Hx by (unfold L; by rewrite <- app_assoc). destruct (decide (p < length L)%nat) as [Hlt|Hnl].
    + rewrite lookup_app_l in Hx by done. rewrite edge_idx; [by apply (p_strict _ _ _ _ _ Hp)|by eapply list_elem_of_lookup_2|done].
    + rewrite (m_idx _ _ _ _ Hm) by (apply (i_range _ _ (e_inv _ _ _ _ _ He)); by eapply list_elem_of_lookup_2). rewrite (proj2 (Z.eqb_neq _ _)) by done. apply (e_strict _ _ _ _ _ He); [done|lia].
  - intros y [->|Hy]%elem_of_cons; [done|]. by apply (p_edge _ _ _ _ _ Hp).
  - intros y [->|Hy]%elem_of_cons; [apply edge_seen; [done|apply (e_seen _ _ _ _ _ He)]|]. pose proof (E_range _ _ (p_edge _ _ _ _ _ Hp y Hy)) as [_ Hyr]. apply edge_seen; [done|]. apply (k_seen _ _ _ (e_keeps _ _ _ _ _ He)); [done|]. by apply (p_seen _ _ _ _ _ Hp).
  - intros y Hy Hyl. rewrite (edge_idx y (HlL y Hyl) (N1 y Hyl)). apply elem_of_cons in Hy as [->|Hy]; [pose proof (k_idx _ _ _ (e_keeps _ _ _ _ _ He) j (HlL j Hyl)); lia|]. pose proof (p_back _ _ _ _ _ Hp y Hy Hyl). lia.
  - intros y Hy Hd k Hk. apply elem_of_cons in Hy as [->|Hy].
    + destruct (edge_done1 j Hj Hd) as [H1 H2]. rewrite H2 by done. intros Hb. apply edge_grows; [done|by right].
    + destruct (E_range _ _ (p_edge _ _ _ _ _ Hp y Hy)) as [_ Hyr]. destruct (edge_done y Hyr (p_seen _ _ _ _ _ Hp y Hy) Hd) as [H1 H2]. rewrite H2 by done. intros Hb. apply edge_grows; [done|]. left. by apply (p_done _ _ _ _ _ Hp y).
Qed.

Lemma edge_inv : inv s2 (l ++ i :: new ++ newj).
Proof.
  replace (l ++ i :: new ++ newj) with (L ++ newj) by (unfold L; by rewrite <- app_assoc). destruct edge_i as (Hi & _). apply (merged_inv s1 s2 _ i j (e_inv _ _ _ _ _ He)); [set_solver|done|apply (e_seen _ _ _ _ _ He)|done].
Qed.

Lemma edge_keeps : keeps l s s2.
Proof.
  destruct edge_nodup as (N1 & N2 & N3). assert (∀ v, v ∈ l → v ∈ L) as HlL by (unfold L; set_solver). pose proof (e_keeps _ _ _ _ _ He) as Hk. split.
  - intros v Hv. by apply edge_idx; [apply HlL|apply N1].
  - intros v k Hv Htk. by apply edge_row; [apply HlL|apply N1|].
  - intros v Hv Hd. pose proof (k_done _ _ _ Hk v Hv Hd) as H1. rewrite (m_idx _ _ _ _ Hm) by done. destruct (Z.eqb_spec v i) as [->|]; [|done]. pose proof (inf_large s L i HI (proj1 edge_i)). lia.
  - intros v Hv Hne. apply edge_seen; [done|]. by apply (k_seen _ _ _ Hk).
Qed.
End Edge.

(** *** The component of a root is popped *)

Record popped (i : Z) (new : list Z) (l : list Z) (s s' : dig) : Prop := {
  q_rows : rows n ts (F s');
  q_lengths : length (INDEX s') = length (INDEX s) ∧ VERTICES s' = VERTICES s;
  q_top : top s' = Z.of_nat (length l);
  q_idx v : 0 <= v < n → idx s' v = if bool_decide (v ∈ i :: new) then inf else idx s v;
  q_row v k : 0 <= v < n → tok k → fbit (F s') v k = if bool_decide (v ∈ new) then fbit (F s) i k else fbit (F s) v k
}.

Lemma pop_run l i new : ∀ fuel s, (length new < fuel)%nat → i ∉ new → (∀ v, v ∈ i :: new → 0 <= v < n) →
  rows n ts (F s) → Z.of_nat (length (INDEX s)) = n + 1 → top s = Z.of_nat (length (l ++ i :: new)) → (∀ p v, (l ++ i :: new) !! p = Some v → VERTICES s !! S p = Some v) →
  wp (pop n ts fuel i) (λ _ s', popped i new l s s') s.
Proof.
  pose proof (wf_count Hwf). assert (short inf = inf) as Einf by (apply short_small; unfold inf, infinity; lia).
  induction new as [|j new IH] using rev_ind; intros [|fuel] s Hf Hni Hr Hrows HL Ht Hst; rewrite ?length_app in *; cbn in Hf; try lia; cbn [pop]; apply wp_bind; (eapply wp_intro; [reflexivity|]); apply wp_bind.
  - cbn in Ht. specialize (Hst (length l) i). rewrite lookup_app_r, Nat.sub_diag in Hst by lia. specialize (Hst eq_refl). assert (on_VERTICES (rd (top s)) s = inr (s, i)) as E1.
    { unfold on_VERTICES, rd. rewrite (proj2 (Z.leb_le _ _)) by lia. replace (Z.to_nat (top s)) with (S (length l)) by lia. rewrite Hst. by destruct s. }
    eapply wp_intro; [exact E1|]. apply wp_bind. eapply wp_intro; [reflexivity|]. apply wp_bind. assert (0 <= i < n) as Hi by (apply Hr; left). eapply wp_intro; [apply wr_idx; done|]. rewrite Z.eqb_refl. apply wp_ret. fold inf. rewrite Einf. split; cbn; try done.
    + by rewrite length_insert.
    + lia.
    + intros v Hv. change (idx (set_idx i inf s) v = if bool_decide (v ∈ [i]) then inf else idx s v). rewrite idx_set by done. destruct (Z.eqb_spec v i); [rewrite bool_decide_true by set_solver|rewrite bool_decide_false by set_solver]; done.
  - cbn in Ht. rewrite length_app in Ht. cbn in Ht. pose proof (Hst (length l + S (length new))%nat j) as Hj. rewrite lookup_app_r in Hj by lia. replace (length l + S (length new) - length l)%nat with (S (length new)) in Hj by lia.
    change ((i :: new ++ [j]) !! S (length new)) with ((new ++ [j]) !! length new) in Hj. rewrite lookup_app_r, Nat.sub_diag in Hj by lia. specialize (Hj eq_refl). assert (on_VERTICES (rd (top s)) s = inr (s, j)) as E1.
    { unfold on_VERTICES, rd. rewrite (proj2 (Z.leb_le _ _)) by lia. replace (Z.to_nat (top s)) with (S (length l + S (length new))) by lia. rewrite Hj. by destruct s. }
    assert (0 <= i < n) as Hi by (apply Hr; left). assert (0 <= j < n) as Hjr by (apply Hr; set_solver). assert (i ≠ j) as Hne by (intros ->; set_solver).
    eapply wp_intro; [exact E1|]. apply wp_bind. eapply wp_intro; [reflexivity|]. apply wp_bind. eapply wp_intro; [apply wr_idx; done|]. fold inf. rewrite Einf, (proj2 (Z.eqb_neq _ _)) by done. apply wp_bind.
    destruct (copy_rows n ts (wf_size Hwf) (F s) i j Hrows Hi Hjr Hne) as (l' & Ec & Hr' & Hb). eapply wp_intro; [unfold on_F; cbn; rewrite Ec; reflexivity|]. cbn.
    eapply wp_conseq; [apply IH; cbn; try done; [lia|set_solver|intros v Hv; apply Hr; set_solver|by rewrite length_insert|lia|]|].
    { intros p v Hp. apply Hst. rewrite app_comm_cons, app_assoc. by apply lookup_app_l_Some. }
    intros _ s' [Q1 Q2 Q3 Q4 Q5]. split; try done; cbn in *.
    + by rewrite length_insert in Q2.
    + intros v Hv. rewrite Q4 by done. change (idx (Dig _ _ _ _) v) with (idx (set_idx j inf s) v). rewrite idx_set by done. destruct (Z.eqb_spec v j) as [->|Hvj].
      * rewrite (bool_decide_true (j ∈ i :: new ++ [j])) by set_solver. by destruct (bool_decide _).
      * rewrite (bool_decide_ext (v ∈ i :: new ++ [j]) (v ∈ i :: new)) by set_solver. done.
    + intros v k Hv Hk. rewrite Q5, !Hb, (proj2 (Z.eqb_neq i j)) by done. destruct (Z.eqb_spec v j) as [->|Hvj].
      * rewrite (bool_decide_true (j ∈ new ++ [j])) by set_solver. by destruct (bool_decide _).
      * rewrite (bool_decide_ext (v ∈ new ++ [j]) (v ∈ new)) by set_solver. done.
Qed.

Section Root.
Context (l : list Z) (i : Z) (new pr : list Z) (s : dig).
Let L := l ++ i :: new.
Context (HI : inv s L) (Hp : part l i new pr s) (Hpr : ∀ y, E i y → y ∈ pr) (Hroot : idx s i = Z.of_nat (length l) + 1).

Lemma root_range v : v ∈ i :: new → 0 <= v < n.
Proof. intros Hv. apply (i_range _ _ HI). unfold L. set_solver. Qed.

Lemma root_below v : v ∈ l → idx s v < idx s i.
Proof. intros Hv. apply list_elem_of_lookup_1 in Hv as [p Hv]. pose proof (lookup_lt_Some _ _ _ Hv). pose proof (i_low _ _ HI p v). unfold L in *. rewrite lookup_app_l in * by lia. specialize (H0 Hv). lia. Qed.

(** The edges of the component stay in it or lead to a vertex that is done. *)
Lemma root_closed x y : x ∈ i :: new → E x y → y ∈ i :: new ∨ idx s y = inf.
Proof.
  intros Hx Hxy. destruct (E_range x y Hxy) as [_ Hy]. assert (idx s y ≠ 0 ∧ (y ∈ l → idx s i <= idx s y)) as [Hne Hb].
  { apply elem_of_cons in Hx as [->|Hx]; [|pose proof (p_above _ _ _ _ _ Hp x Hx) as [_ _ A3 A4 _ _]; auto]. specialize (Hpr y Hxy). split; [by apply (p_seen _ _ _ _ _ Hp)|by apply (p_back _ _ _ _ _ Hp)]. }
  destruct (idx_cases s L y HI Hy) as [[Hin _]|[[_ ?]|[_ ?]]]; [|done|by right]. unfold L in Hin. apply elem_of_app in Hin as [Hin|Hin]; [|by left]. pose proof (root_below y Hin). specialize (Hb Hin). lia.
Qed.

Lemma root_rows x : x ∈ i :: new → row_in s x i.
Proof. intros [->|Hx]%elem_of_cons; [by intros k _|]. apply (a_row _ _ _ _ (p_above _ _ _ _ _ Hp x Hx)). Qed.

Lemma root_done x y : x ∈ i :: new → E x y → idx s y = inf → row_in s y i.
Proof. intros [->|Hx]%elem_of_cons Hxy Hd; [by apply (p_done _ _ _ _ _ Hp); [apply Hpr|]|]. by apply (a_done _ _ _ _ (p_above _ _ _ _ _ Hp x Hx)). Qed.

Lemma root_complete k x w : tok k → rtc E x w → x ∈ i :: new → fbit F0 w k = true → fbit (F s) i k = true.
Proof.
  intros Hk Hxw. induction Hxw as [x|x y z Hxy Hyz IH]; intros Hx Hb.
  - apply (root_rows x Hx); [done|]. apply (i_open _ _ HI x k); [unfold L; set_solver|done..].
  - destruct (root_closed x y Hx Hxy) as [Hy|Hd]; [by apply IH|]. apply (root_done x y Hx Hxy Hd); [done|]. apply (i_done _ _ HI y); [by apply (E_range x y)|done..|]. by exists z.
Qed.

Lemma root_reached p : ∀ x, (length l <= p)%nat → L !! p = Some x → rtc E x i.
Proof.
  induction (lt_wf p) as [p _ IH]. intros x Hge Hx. assert (x ∈ i :: new) as HxC by (unfold L in Hx; rewrite lookup_app_r in Hx by done; by eapply list_elem_of_lookup_2).
  destruct (decide (x = i)) as [->|Hne]; [done|]. assert (x ∈ new) as Hxn by set_solver. pose proof (p_strict _ _ _ _ _ Hp p x Hx Hne Hge) as Hlt. pose proof (a_low _ _ _ _ (p_above _ _ _ _ _ Hp x Hxn)) as Hlow.
  destruct (i_path _ _ HI x) as (w & Ew & Hxw); [by eapply list_elem_of_lookup_2|]. etrans; [exact Hxw|]. apply (IH (Z.to_nat (idx s x - 1))); [lia|lia|done].
Qed.

Lemma root_star v k : v ∈ i :: new → tok k → fbit (F s) i k = true ↔ star v k.
Proof.
  intros Hv Hk. split.
  - intros Hb. apply list_elem_of_lookup_1 in Hv as [p Hv]. eapply star_step; [apply (root_reached (length l + p)); [lia|unfold L; rewrite lookup_app_r by lia; by replace (length l + p - length l)%nat with p by lia]|]. apply (i_open _ _ HI i k); [unfold L; set_solver|done..].
  - intros (w & Hw & Hb). by eapply root_complete.
Qed.

Lemma root_popped s' : popped i new l s s' → traversed l i s s'.
Proof.
  intros [Q1 [Q2 Q2'] Q3 Q4 Q5]. pose proof (i_nodup _ _ HI) as Hd. unfold L in Hd. apply NoDup_app in Hd as (Hd1 & Hd2 & Hd3). destruct (i_lengths _ _ HI) as [L1 L2].
  assert (∀ v, 0 <= v < n → v ∉ i :: new → idx s' v = idx s v ∧ ∀ k, tok k → fbit (F s') v k = fbit (F s) v k) as Hsame.
  { intros v Hv Hn. split; [by rewrite Q4, bool_decide_false|]. intros k Hk. by rewrite Q5, bool_decide_false by set_solver. }
  assert (∀ v, v ∈ i :: new → idx s' v = inf ∧ ∀ k, tok k → fbit (F s') v k = fbit (F s) i k) as Hnew.
  { intros v Hv. pose proof (root_range v Hv). split; [by rewrite Q4, bool_decide_true|]. intros k Hk. rewrite Q5 by done. case_bool_decide; [done|]. by apply elem_of_cons in Hv as [->|]. }
  assert (∀ v, v ∈ l → 0 <= v < n ∧ v ∉ i :: new) as Hl by (intros v Hv; split; [apply (i_range _ _ HI); unfold L; set_solver|by apply Hd2]).
  assert (∀ v, 0 <= v < n → idx s v = inf → idx s' v = inf) as Hdone by (intros v Hv E1; destruct (decide (v ∈ i :: new)) as [Hin|Hin]; [by apply Hnew|by rewrite (proj1 (Hsame v Hv Hin))]).
  exists []. rewrite app_nil_r. split_and!; [split|split|destruct (Hnew i) as [-> _]; [left|pose proof inf_pos; lia]|left; split; [done|apply Hnew; left]]; try done.
  - rewrite Q2, Q2'. done.
  - intros p v Hpv. rewrite Q2'. apply (i_stack _ _ HI). by apply lookup_app_l_Some.
  - intros v Hv. by apply Hl.
  - intros p v Hpv. assert (v ∈ l) as Hv by by eapply list_elem_of_lookup_2. destruct (Hl v Hv) as [Hr Hn]. rewrite (proj1 (Hsame v Hr Hn)). apply (i_low _ _ HI). by apply lookup_app_l_Some.
  - intros v Hv Hn. destruct (decide (v ∈ i :: new)) as [Hin|Hin]; [right; by apply Hnew|]. rewrite (proj1 (Hsame v Hv Hin)). apply (i_other _ _ HI); [done|]. unfold L. set_solver.
  - intros v Hv E1. destruct (decide (v ∈ i :: new)) as [Hin|Hin].
    + split; [|intros k Hk; rewrite (proj2 (Hnew v Hin) k Hk); by apply root_star]. intros w Hw. destruct (root_closed v w Hin Hw) as [Hc|Hc]; [by apply Hnew|]. by apply Hdone; [apply (E_range v w)|].
    + destruct (Hsame v Hv Hin) as [E2 E3]. rewrite E2 in E1. destruct (i_done _ _ HI v Hv E1) as [H1 H2]. split; [intros w Hw; apply Hdone; [by apply (E_range v w)|by apply H1]|]. intros k Hk. rewrite E3 by done. by apply H2.
  - intros v k Hv E1 Hk. destruct (decide (v ∈ i :: new)) as [Hin|Hin]; [rewrite (proj1 (Hnew v Hin)) in E1; pose proof inf_pos; lia|]. destruct (Hsame v Hv Hin) as [E2 E3]. rewrite E3 by done. apply (i_white _ _ HI); [done|congruence|done].
  - intros v k Hv Hk. destruct (Hl v Hv) as [Hr Hn]. rewrite (proj2 (Hsame v Hr Hn) k Hk). apply (i_open _ _ HI); [unfold L; set_solver|done].
  - intros v Hv. destruct (Hl v Hv) as [Hr Hn]. rewrite (proj1 (Hsame v Hr Hn)). destruct (i_path _ _ HI v) as (w & Ew & Hw); [unfold L; set_solver|]. exists w. split; [|done]. apply lookup_app_Some in Ew as [Ew|[Hge _]]; [done|].
    pose proof (root_below v Hv). assert (1 <= idx s v) by (apply (idx_pos s L); [done..|]; destruct (idx_cases s L v HI Hr) as [[_ ?]|[[Hx _]|[Hx _]]]; [lia|exfalso; apply Hx; unfold L; set_solver..]). lia.
  - intros v Hv. destruct (Hl v Hv) as [Hr Hn]. by apply Hsame.
  - intros v k Hv Hk. destruct (Hl v Hv) as [Hr Hn]. by apply Hsame.
  - intros v Hv E1. destruct (decide (v ∈ i :: new)) as [Hin|Hin]; [rewrite (proj1 (Hnew v Hin)); pose proof inf_pos; lia|by rewrite (proj1 (Hsame v Hv Hin))].
Qed.
End Root.

(** A vertex that reaches below itself waits with the vertices above it. *)
Lemma waits l i new pr s0 s : inv s (l ++ i :: new) → part l i new pr s → (∀ y, E i y → y ∈ pr) → keeps l s0 s → idx s i ≠ Z.of_nat (length l) + 1 → traversed l i s0 s.
Proof.
  intros HI Hp Hpr Hk Hne. assert ((l ++ i :: new) !! length l = Some i) as Hi by (rewrite lookup_app_r by done; by rewrite Nat.sub_diag). pose proof (i_low _ _ HI _ _ Hi) as Hlow.
  exists (i :: new). split_and!; [done|done|lia|right]. exists new. split_and!; [done|lia| |].
  - intros x [->|Hx]%elem_of_cons; [|by apply (p_above _ _ _ _ _ Hp)]. split; [done|lia| | |by intros k _|].
    + intros y Hy. by apply (p_seen _ _ _ _ _ Hp), Hpr.
    + intros y Hy. by apply (p_back _ _ _ _ _ Hp), Hpr.
    + intros y Hy. by apply (p_done _ _ _ _ _ Hp), Hpr.
  - intros p x Hx Hge. destruct (decide (x = i)) as [->|Hxi]; [lia|]. by apply (p_strict _ _ _ _ _ Hp).
Qed.

Lemma edges_run (tr : Z → DM unit) l i rp :
  (∀ l' j s, inv s l' → 0 <= j < n → idx s j = 0 → (length l < length l')%nat → wp (tr j) (λ _, traversed l' j s) s) →
  (∀ j, j ∈ rp → E i j) → ∀ new pr s, inv s (l ++ i :: new) → part l i new pr s →
  wp (edges ts tr i (rp ++ [-1])) (λ _ s', ∃ new' pr', inv s' (l ++ i :: new') ∧ part l i new' pr' s' ∧ keeps l s s' ∧ ∀ y, y ∈ pr ∨ y ∈ rp → y ∈ pr') s.
Proof.
  intros Htr. induction rp as [|j rp IH]; intros HE new pr s HI Hp; cbn [edges app].
  { apply wp_ret. exists new, pr. split_and!; [done|done|apply keeps_refl|]. intros y [?|Hy]; [done|by apply elem_of_nil in Hy]. }
  assert (E i j) as Hij by (apply HE; left). destruct (E_range i j Hij) as [Hi Hj]. rewrite (proj2 (Z.leb_le _ _)) by lia. apply wp_bind. eapply wp_intro; [by eapply rd_idx|]. apply wp_bind.
  eapply wp_conseq with (P := λ _ s1, ∃ newj, entered (l ++ i :: new) j newj s s1).
  { destruct (Z.eqb_spec (idx s j) 0) as [Hw|Hw]; [|apply wp_ret; exists []; by apply entered_seen]. eapply wp_conseq; [apply Htr; [done..|rewrite length_app; cbn; lia]|]. intros [] s1 Ht. by apply traversed_entered. }
  intros _ s1 [newj He]. assert (i ∈ (l ++ i :: new) ++ newj) as Hin by set_solver.
  pose proof (merged_run s1 _ i j (e_inv _ _ _ _ _ He) Hi Hj) as Hm. eapply wp_elim in Hm as (s2 & [] & Hrun & Hm).
  assert (∀ k : DM unit, (let* a := on_INDEX (rd i) in let* b := on_INDEX (rd j) in (if b <? a then on_INDEX (wr i b) else mreturn tt) ;;; on_F (or_row (Z.to_nat ts) (i * ts) (j * ts)) ;;; k) s1 = k s2) as Hk.
  { intros k. revert Hrun. unfold mbnd. destruct (on_INDEX (rd i) s1) as [|[sa a]]; [done|]. destruct (on_INDEX (rd j) sa) as [|[sb b]]; [done|]. destruct ((if b <? a then on_INDEX (wr i b) else mreturn tt) sb) as [|[sc []]]; [done|]. by intros ->. }
  unfold wp. rewrite Hk. change (wp (edges ts tr i (rp ++ [-1])) (λ _ s', ∃ new' pr', inv s' (l ++ i :: new') ∧ part l i new' pr' s' ∧ keeps l s s' ∧ ∀ y, y ∈ pr ∨ y ∈ j :: rp → y ∈ pr') s2).
  eapply wp_conseq; [apply (IH ltac:(intros y Hy; apply HE; by right) (new ++ newj) (j :: pr)); [by eapply edge_inv|by eapply edge_part]|].
  intros _ s' (new' & pr' & H1 & H2 & H3 & H4). exists new', pr'. split_and!; [done|done| |].
  - eapply keeps_trans; [by eapply edge_keeps|done].
  - intros y Hy. apply H4. set_solver.
Qed.

Lemma traverse_run fuel : ∀ l i s, n < Z.of_nat fuel + Z.of_nat (length l) → inv s l → 0 <= i < n → idx s i = 0 → wp (traverse n ts R fuel i) (λ _, traversed l i s) s.
Proof.
  induction fuel as [|fuel IH]; intros l i s Hf HI Hi Hw; pose proof (nodup_bound l (i_nodup _ _ HI) (i_range _ _ HI)) as Hl; [lia|].
  pose proof (wf_count Hwf) as Hn. destruct (push_inv s l i HI Hi Hw) as (HI1 & Hk1 & Hp1 & Hh). set (s1 := Dig _ _ _ _) in HI1, Hk1, Hp1, Hh. destruct (i_lengths _ _ HI) as [L1 L2]. pose proof (i_top _ _ HI) as Ht.
  cbn [traverse]. apply wp_bind. eapply wp_intro; [reflexivity|]. apply wp_bind. eapply wp_intro; [reflexivity|].
  assert (top s + 1 < n + 1) as Htop. { pose proof (nodup_bound _ (i_nodup _ _ HI1) (i_range _ _ HI1)) as Hb. rewrite length_app in Hb. cbn in Hb. lia. }
  apply wp_bind. rewrite !short_small by lia. eapply wp_intro; [unfold on_VERTICES; cbn [VERTICES F INDEX top]; rewrite wr_eq by lia; reflexivity|]. apply wp_bind. eapply wp_intro; [unfold on_INDEX; cbn [VERTICES F INDEX top]; rewrite wr_eq by lia; reflexivity|].
  fold s1. apply wp_bind. eapply wp_conseq with (P := λ _ s', ∃ new' pr', inv s' (l ++ i :: new') ∧ part l i new' pr' s' ∧ keeps l s1 s' ∧ ∀ y, E i y → y ∈ pr').
  { destruct (wf_relation Hwf i Hi) as [E1|(rp & E1 & Hrp)]; rewrite E1.
    - apply wp_ret. exists [], []. split_and!; [done|done|apply keeps_refl|]. intros y (_ & Hy & _). unfold outs in Hy. rewrite E1 in Hy. done.
    - rewrite Forall_forall in Hrp. assert (outs i = rp ++ [-1]) as Eo by (unfold outs; by rewrite E1). eapply wp_conseq; [apply (edges_run _ l i rp) with (new := []) (pr := []); [| |done|done]|].
      + intros l' j s' HI' Hj Hw' Hlt. apply IH; [lia|done..].
      + intros j Hj. split_and!; [lia..|rewrite Eo; set_solver|]. by apply Hrp.
      + intros _ s' (new' & pr' & H1 & H2 & H3 & H4). exists new', pr'. split_and!; [done..|]. intros y (_ & Hy & H0). apply H4. right. rewrite Eo in Hy. apply elem_of_app in Hy as [Hy|Hy]; [done|]. apply list_elem_of_singleton in Hy. lia. }
  intros _ s2 (new & pr & HI2 & Hp2 & Hk2 & Hpr). pose proof (keeps_trans _ _ _ _ Hk1 Hk2) as Hk. apply wp_bind. eapply wp_intro; [by eapply rd_idx|]. rewrite Ht. destruct (Z.eqb_spec (idx s2 i) (Z.of_nat (length l) + 1)) as [Hr|Hr].
  - destruct (i_lengths _ _ HI2) as [L3 L4]. pose proof (nodup_bound _ (i_nodup _ _ HI2) (i_range _ _ HI2)) as Hb. rewrite length_app in Hb. cbn in Hb. pose proof (i_nodup _ _ HI2) as Hd. apply NoDup_app in Hd as (_ & _ & Hd). apply NoDup_cons in Hd as [Hd _].
    eapply wp_conseq; [apply (pop_run l i new); try done; [lia|intros v Hv; apply (i_range _ _ HI2); set_solver|apply HI2..]|]. intros [] s3 Hq. destruct (root_popped l i new pr s2 HI2 Hp2 Hpr Hr s3 Hq) as (new3 & T1 & T2 & T3 & T4).
    exists new3. split_and!; [done|by eapply keeps_trans|done..].
  - apply wp_ret. by eapply waits.
Qed.

(** *** The loop of [digraph] *)

(** Between two traversals the stack is empty, and the vertices seen are those
    below [i] that have successors, and others. *)
Definition between (i : Z) (s : dig) : Prop := inv s [] ∧ ∀ v, 0 <= v < i → R !! Z.to_nat v ≠ Some None → idx s v = inf.

Lemma start_inv : let cleared := replicate (Z.to_nat (n + 1)) 0 in between 0 (Dig F0 cleared cleared 0).
Proof.
  intros cleared. pose proof (wf_count Hwf). assert (∀ v, idx (Dig F0 cleared cleared 0) v = 0) as H0.
  { intros v. unfold idx, cleared. cbn. destruct (replicate _ _ !! Z.to_nat v) eqn:E1; [|done]. by apply lookup_replicate in E1 as [-> _]. }
  split; [|intros v Hv; lia]. split; cbn; try done.
  - apply Hwf.
  - unfold cleared. rewrite length_replicate. lia.
  - constructor.
  - intros v Hv. by apply elem_of_nil in Hv.
  - intros v Hv _. by left.
  - intros v Hv E1. rewrite H0 in E1. pose proof inf_pos. lia.
  - intros v k Hv. by apply elem_of_nil in Hv.
  - intros v Hv. by apply elem_of_nil in Hv.
Qed.

Lemma visit_run i s : 0 <= i < n → between i s → wp (visit n ts R i) (λ _, between (i + 1)) s.
Proof.
  intros Hi [HI Hd]. unfold visit. apply wp_bind. eapply wp_intro; [by eapply rd_idx|]. assert (R !! Z.to_nat i = Some None ∨ idx s i = inf → ∀ v, 0 <= v < i + 1 → R !! Z.to_nat v ≠ Some None → idx s v = inf) as Hdone.
  { intros Hor v Hv Hr. destruct (decide (v = i)) as [->|]; [by destruct Hor|]. apply Hd; [lia|done]. }
  destruct (wf_relation Hwf i Hi) as [E1|(rp & E1 & _)]; rewrite E1; [apply wp_ret; split; [done|apply Hdone; by left]|]. destruct (Z.eqb_spec (idx s i) 0) as [Hw|Hw].
  - eapply wp_conseq; [apply (traverse_run _ []); [cbn; lia|done..]|]. intros _ s' (new & HI' & Hk & _ & Hor). destruct Hor as [[-> Hinf]|(more & -> & Hlt & _)].
    + split; [done|]. intros v Hv Hr. destruct (decide (v = i)) as [->|]; [done|]. apply (k_done _ _ _ Hk); [lia|]. apply Hd; [lia|done].
    + pose proof (i_low _ _ HI' 0%nat i eq_refl). cbn in Hlt. lia.
  - apply wp_ret. split; [done|]. apply Hdone. right. destruct (i_other _ _ HI i Hi); [by intros ?%elem_of_nil|done|done].
Qed.
End Traversal.

(** C29. With at most 32765 gotos ([wf_count]: beyond, [infinity] does not fit
    the [short] it is stored in), the propagation of token sets (yacc/lalr.c:
    [digraph]) gives to each vertex the union of the initial sets of the vertices that it reaches by the
    relation, whatever its cycles: the traversal ends, every access is in the
    arrays, and bit [k] of the row of [v] is set at the end exactly when it was
    set in the row of a vertex reached from [v]. *)
Theorem digraph_correct n ts R F0 : wf n ts R F0 → ∃ F1, digraph n ts R F0 = inr F1 ∧ rows n ts F1 ∧
  ∀ v k, 0 <= v < n → 0 <= k < 32 * ts → fb ts F1 v k = true ↔ ∃ w, rtc (E n R) v w ∧ fb ts F0 w k = true.
Proof.
  intros Hwf. pose proof (wf_count _ _ _ _ Hwf) as Hn. set (cleared := replicate (Z.to_nat (n + 1)) 0).
  destruct (wp_elim (for_up (Z.to_nat n) 0 (visit n ts R)) (λ _, between n ts R F0 n) (Dig F0 cleared cleared 0)) as (s' & [] & Er & HI & Hd).
  { eapply wp_conseq; [apply (wp_for_up (between n ts R F0)); [by apply start_inv|]; intros j t Hj; apply visit_run; [done|lia]|]. cbn. intros _ t. by replace (Z.of_nat (Z.to_nat n)) with n by lia. }
  unfold digraph. fold cleared. rewrite Er. exists (F s'). split_and!; [done|apply HI|]. intros v k Hv Hk. destruct (idx_cases n ts R F0 s' [] v HI Hv) as [[Hin _]|[[_ Hw]|[_ Hi]]]; [by apply elem_of_nil in Hin| |].
  - rewrite (i_white _ _ _ _ _ _ HI v k Hv Hw Hk). split; [intros Hb; by exists v|]. intros (w & Hvw & Hb). destruct Hvw as [v|v y w (_ & Hy & _) _]; [done|]. unfold outs in Hy.
    destruct (R !! Z.to_nat v) as [[rp|]|] eqn:E1; [|by apply elem_of_nil in Hy..]. rewrite (Hd v Hv) in Hw by congruence. pose proof (inf_pos _ _ _ _ Hwf). lia.
  - apply (i_done _ _ _ _ _ _ HI v Hv Hi). done.
Qed.

(** A relation with a cycle of three vertices, one that it reaches, and one
    that reaches it. *)
Definition example_relation : list (option (list Z)) := [Some [1; -1]; Some [2; 3; -1]; Some [0; -1]; None; Some [4; 1; -1]].
Definition example_rows : list Z := [1; 2; 4; 8; 16].

Example example_propagated : digraph 5 1 example_relation example_rows = inr [15; 15; 15; 8; 31].
Proof. vm_compute. reflexivity. Qed.

Lemma example_wf : wf 5 1 example_relation example_rows.
Proof.
  split; [lia|lia|done|]. intros v Hv. assert (v = 0 ∨ v = 1 ∨ v = 2 ∨ v = 3 ∨ v = 4) as [->|[->|[->|[->| ->]]]] by lia; cbn.
  - right. exists [1]. split; [done|]. repeat constructor; lia.
  - right. exists [2; 3]. split; [done|]. repeat constructor; lia.
  - right. exists [0]. split; [done|]. repeat constructor; lia.
  - by left.
  - right. exists [4; 1]. split; [done|]. repeat constructor; lia.
Qed.

Lemma digraph_witness : wf 5 1 example_relation example_rows ∧ ∃ F1, digraph 5 1 example_relation example_rows = inr F1 ∧ rows 5 1 F1 ∧
  ∀ v k, 0 <= v < 5 → 0 <= k < 32 * 1 → fb 1 F1 v k = true ↔ ∃ w, rtc (E 5 example_relation) v w ∧ fb 1 example_rows w k = true.
Proof. split; [exact example_wf|]. apply (digraph_correct 5 1 example_relation example_rows). exact example_wf. Defined.

End Digraph.
