(* ===== verification/Machine.v ===== *)
(** The bytecode machine (byterun/interp.c, [caml_interprete_r]): its registers,
    the monad its instructions are written in, and the macros they share.

    The registers are the local variables of [caml_interprete_r]; [NULL] is 0.
    An instruction starts with [pc] pointing after its opcode, and an operand
    is the 32-bit signed integer at [pc].  The model is that of the portable
    interpreter loop (no threaded code), compiled without [DEBUG]. *)

From S2P Require Import Prelude Mlvalues Context.
Export Mlvalues Context.

Module Machine.

Record machine : Type := Mach {
  pc : Z;
  sp : Z;
  accu : Z;
  env : Z;
  extra_args : Z;
  saved_pc : Z;
  initial_local_roots : Z;
  initial_sp_offset : Z;
  initial_external_raise : Z;
  raise_buf : Z;
  ctx : context
}.

Definition set_pc (x : Z) (m : machine) : machine :=
  Mach x (sp m) (accu m) (env m) (extra_args m) (saved_pc m) (initial_local_roots m)
    (initial_sp_offset m) (initial_external_raise m) (raise_buf m) (ctx m).
Definition set_sp (x : Z) (m : machine) : machine :=
  Mach (pc m) x (accu m) (env m) (extra_args m) (saved_pc m) (initial_local_roots m)
    (initial_sp_offset m) (initial_external_raise m) (raise_buf m) (ctx m).
Definition set_accu (x : Z) (m : machine) : machine :=
  Mach (pc m) (sp m) x (env m) (extra_args m) (saved_pc m) (initial_local_roots m)
    (initial_sp_offset m) (initial_external_raise m) (raise_buf m) (ctx m).
Definition set_env (x : Z) (m : machine) : machine :=
  Mach (pc m) (sp m) (accu m) x (extra_args m) (saved_pc m) (initial_local_roots m)
    (initial_sp_offset m) (initial_external_raise m) (raise_buf m) (ctx m).
Definition set_extra_args (x : Z) (m : machine) : machine :=
  Mach (pc m) (sp m) (accu m) (env m) x (saved_pc m) (initial_local_roots m)
    (initial_sp_offset m) (initial_external_raise m) (raise_buf m) (ctx m).
Definition set_saved_pc (x : Z) (m : machine) : machine :=
  Mach (pc m) (sp m) (accu m) (env m) (extra_args m) x (initial_local_roots m)
    (initial_sp_offset m) (initial_external_raise m) (raise_buf m) (ctx m).
Definition set_ctx (x : context) (m : machine) : machine :=
  Mach (pc m) (sp m) (accu m) (env m) (extra_args m) (saved_pc m) (initial_local_roots m)
    (initial_sp_offset m) (initial_external_raise m) (raise_buf m) x.

(** How the interpreter stops: a wild access, a jump to a handler installed by
    C, a value returned to its caller (with the context), or a fatal error. *)
Inductive istop : Type :=
  | IFault (f : fault)
  | ILongjmp (buf : Z) (m : machine)
  | IReturn (v : Z) (c : context)
  | IFatal (e : fatal).

Abbreviation IM := (M machine istop).

(** A runtime function called by the interpreter. *)
Definition lift {A} (f : CM A) : IM A :=
  λ m, match f (ctx m) with
       | inr (c, x) => inr (set_ctx c m, x)
       | inl (CFault e) => inl (IFault e)
       | inl (CLongjmp buf c) => inl (ILongjmp buf (set_ctx c m))
       | inl (CFatal e) => inl (IFatal e)
       end.

Definition modify_ctx (f : context → context) : IM unit := mmodify (λ m, set_ctx (f (ctx m)) m).

Definition ldi (a : Z) : IM Z := lift (ld a).
Definition sti (a v : Z) : IM unit := lift (st a v).

(** The opcode or operand at a code address. *)
Definition code_at (a : Z) : IM Z :=
  λ m, match code (ctx m) !! a with
       | Some v => inr (m, v) | None => inl (IFault (BadLoad a)) end.

(** [pc[i]], [*pc] and [*pc++]. *)
Definition pc_ld (i : Z) : IM Z := let* m := mget in code_at (pc m + 4 * i).
Definition opnd : IM Z := pc_ld 0.
Definition opnd_inc : IM Z :=
  let* x := opnd in
  mmodify (λ m, set_pc (pc m + 4) m) ;;; mreturn x.

Definition pc_inc : IM unit := mmodify (λ m, set_pc (pc m + 4) m).

(** [pc += *pc] *)
Definition branch : IM unit :=
  let* d := opnd in mmodify (λ m, set_pc (pc m + 4 * d) m).

(** [sp[i]], [sp[i] = v], [sp += n], [*--sp = v], [*sp++] *)
Definition sp_ld (i : Z) : IM Z := let* m := mget in ldi (sp m + 8 * i).
Definition sp_st (i v : Z) : IM unit := let* m := mget in sti (sp m + 8 * i) v.
Definition sp_add (n : Z) : IM unit := mmodify (λ m, set_sp (sp m + 8 * n) m).
Definition push (v : Z) : IM unit := sp_add (-1) ;;; sp_st 0 v.
Definition pop : IM Z := let* v := sp_ld 0 in sp_add 1 ;;; mreturn v.

Definition put_accu (v : Z) : IM unit := mmodify (set_accu v).
Definition put_env (v : Z) : IM unit := mmodify (set_env v).
Definition put_extra_args (n : Z) : IM unit := mmodify (set_extra_args (s64 n)).
Definition push_accu : IM unit := let* m := mget in push (accu m).

(** ** GC, C call and event frames *)

Definition Setup_for_gc : IM unit :=
  sp_add (-2) ;;;
  let* m := mget in
  sp_st 0 (accu m) ;;; sp_st 1 (env m) ;;;
  modify_ctx (set_caml_extern_sp (sp m)).

Definition Restore_after_gc : IM unit :=
  let* a := sp_ld 0 in put_accu a ;;;
  let* e := sp_ld 1 in put_env e ;;;
  sp_add 2.

Definition Setup_for_c_call : IM unit :=
  let* m := mget in
  mmodify (set_saved_pc (pc m)) ;;;
  push (env m) ;;;
  let* m := mget in modify_ctx (set_caml_extern_sp (sp m)).

Definition Restore_after_c_call : IM unit :=
  let* m := mget in
  mmodify (set_sp (caml_extern_sp (ctx m))) ;;;
  let* e := pop in put_env e ;;;
  mmodify (set_saved_pc 0).

Definition Setup_for_event : IM unit :=
  sp_add (-6) ;;;
  let* m := mget in
  sp_st 0 (accu m) ;;;
  sp_st 1 Val_unit ;;;
  sp_st 2 Val_unit ;;;
  sp_st 3 (pc m) ;;;
  sp_st 4 (env m) ;;;
  sp_st 5 (Val_long (extra_args m)) ;;;
  modify_ctx (set_caml_extern_sp (sp m)).

Definition Restore_after_event : IM unit :=
  let* m := mget in
  mmodify (set_sp (caml_extern_sp (ctx m))) ;;;
  let* a := sp_ld 0 in put_accu a ;;;
  let* p := sp_ld 3 in mmodify (set_pc p) ;;;
  let* e := sp_ld 4 in put_env e ;;;
  let* x := sp_ld 5 in put_extra_args (Long_val x) ;;;
  sp_add 6.

Definition Setup_for_debugger : IM unit :=
  sp_add (-4) ;;;
  let* m := mget in
  sp_st 0 (accu m) ;;; sp_st 1 (pc m - 4) ;;;
  sp_st 2 (env m) ;;; sp_st 3 (Val_long (extra_args m)) ;;;
  modify_ctx (set_caml_extern_sp (sp m)).

Definition Restore_after_debugger : IM unit := sp_add 4.

(** [Code_val(v)], a field 0 *)
Definition Code_val (v : Z) : Z := Field v 0.

Definition Make_exception_result (v : Z) : Z := Z.lor v 2.

Section Operations.
Context `{Runtime}.

(** [Alloc_small] as expanded in the interpreter: the accumulator and the
    environment are saved on the stack around a minor collection. *)
Definition Alloc_small (wosize tag : Z) : IM Z :=
  modify_ctx (λ c, set_caml_young_ptr (caml_young_ptr c - Bhsize_wosize wosize) c) ;;;
  let* m := mget in
  (if caml_young_ptr (ctx m) <? caml_young_start (ctx m) then
     modify_ctx (λ c, set_caml_young_ptr (caml_young_ptr c + Bhsize_wosize wosize) c) ;;;
     Setup_for_gc ;;;
     (let* _ := lift (caml_minor_collection_r []) in mreturn tt) ;;;
     Restore_after_gc ;;;
     modify_ctx (λ c, set_caml_young_ptr (caml_young_ptr c - Bhsize_wosize wosize) c)
   else mreturn tt) ;;;
  let* m := mget in
  sti (caml_young_ptr (ctx m)) (Make_header wosize tag Caml_black) ;;;
  mreturn (Val_hp (caml_young_ptr (ctx m))).
End Operations.

(** ** Running a sequence of operations

    One equation per operation, for rewriting a handler applied to a machine
    state whose relevant memory is known. *)

Section Equations.
Context {A B : Type}.
Implicit Types k : A → IM B.

Lemma bind_ret (x : A) k m : mbnd (mreturn x) k m = k x m.
Proof. done. Qed.
Lemma bind_assoc {X} (f : IM X) (g : X → IM A) k m :
  mbnd (mbnd f g) k m = mbnd f (λ x, mbnd (g x) k) m.
Proof. unfold mbnd. by destruct (f m) as [|[m' x]]. Qed.
Lemma bind_get (k : machine → IM B) m : mbnd mget k m = k m m.
Proof. done. Qed.
Lemma bind_modify f (k : unit → IM B) m : mbnd (mmodify f) k m = k tt (f m).
Proof. done. Qed.
Lemma bind_modify_ctx f (k : unit → IM B) m :
  mbnd (modify_ctx f) k m = k tt (set_ctx (f (ctx m)) m).
Proof. done. Qed.
Lemma bind_ldi a v (k : Z → IM B) m :
  words (ctx m) !! a = Some v → mbnd (ldi a) k m = k v m.
Proof.
  intros Hl. unfold mbnd, ldi, lift, ld. rewrite Hl. by destruct m.
Qed.
Lemma bind_sti a v (k : unit → IM B) m :
  is_Some (words (ctx m) !! a) →
  mbnd (sti a v) k m = k tt (set_ctx (set_words (<[a := v]> (words (ctx m))) (ctx m)) m).
Proof. intros [w Hw]. unfold mbnd, sti, lift, st. by rewrite Hw. Qed.
Lemma bind_code a v (k : Z → IM B) m :
  code (ctx m) !! a = Some v → mbnd (code_at a) k m = k v m.
Proof. intros Hl. unfold mbnd, code_at. by rewrite Hl. Qed.
Lemma bind_if (b : bool) (f g : IM A) k m :
  mbnd (if b then f else g) k m = if b then mbnd f k m else mbnd g k m.
Proof. by destruct b. Qed.
End Equations.

(** The tail of a sequence is a sequence. *)
Lemma bind_tail {A} (f : IM A) m : f m = mbnd f mreturn m.
Proof. unfold mbnd, mreturn. by destruct (f m) as [|[]]. Qed.

Lemma run_eq {A} (f : IM A) r m : mbnd f mreturn m = r → f m = r.
Proof. by rewrite <- bind_tail. Qed.

(** Lookups in a store after some updates, with addresses equal up to linear
    arithmetic. *)
Ltac addr := unfold padd, Field, Val_hp, Hp_val, Hd_val in *; lia.
Ltac look :=
  repeat first
    [ rewrite lookup_insert_ne by addr
    | lazymatch goal with |- <[?b := _]> _ !! ?a = _ =>
        replace a with b by addr; rewrite lookup_insert_eq; reflexivity end ];
  match goal with
  | |- ?m !! ?a = Some _ =>
      match goal with Hl : m !! ?b = Some _ |- _ =>
        replace a with b by addr; exact Hl end
  end.
Ltac look_some :=
  repeat first [ rewrite lookup_insert_is_Some'; right | apply stores_is_Some ];
  first [ assumption
        | eexists; look
        | match goal with Hl : is_Some (?m !! ?b) |- is_Some (?m !! ?a) =>
            replace a with b by addr; exact Hl end ].

Definition with_words (w : gmap Z Z) (m : machine) : machine :=
  set_ctx (set_words w (ctx m)) m.

(** Reduce the registers of a machine in constructor form. *)
Ltac mred :=
  cbv [pc sp accu env extra_args saved_pc initial_local_roots initial_sp_offset
       initial_external_raise raise_buf ctx
       set_pc set_sp set_accu set_env set_extra_args set_saved_pc set_ctx
       words code caml_young_ptr caml_young_start caml_young_end caml_ref_table_ptr
       caml_ref_table_limit caml_gc_phase caml_stack_low caml_stack_high
       caml_stack_threshold caml_extern_sp caml_trapsp caml_trap_barrier
       caml_max_stack_size caml_global_data caml_atom_table caml_external_raise
       caml_exn_bucket caml_local_roots caml_callback_depth caml_something_to_do
       caml_backtrace_active caml_event_count caml_saved_code caml_start_code
       set_words set_code set_caml_young_ptr set_caml_ref_table_ptr set_caml_stack_low
       set_caml_stack_high set_caml_stack_threshold set_caml_extern_sp set_caml_trapsp
       set_caml_trap_barrier set_caml_max_stack_size set_caml_external_raise
       set_caml_exn_bucket set_caml_local_roots set_caml_callback_depth
       set_caml_something_to_do set_caml_event_count with_words].
Ltac mred_in H :=
  cbv [pc sp accu env extra_args saved_pc initial_local_roots initial_sp_offset
       initial_external_raise raise_buf ctx
       set_pc set_sp set_accu set_env set_extra_args set_saved_pc set_ctx
       words code caml_young_ptr caml_young_start caml_young_end caml_ref_table_ptr
       caml_ref_table_limit caml_gc_phase caml_stack_low caml_stack_high
       caml_stack_threshold caml_extern_sp caml_trapsp caml_trap_barrier
       caml_max_stack_size caml_global_data caml_atom_table caml_external_raise
       caml_exn_bucket caml_local_roots caml_callback_depth caml_something_to_do
       caml_backtrace_active caml_event_count caml_saved_code caml_start_code
       set_words set_code set_caml_young_ptr set_caml_ref_table_ptr set_caml_stack_low
       set_caml_stack_high set_caml_stack_threshold set_caml_extern_sp set_caml_trapsp
       set_caml_trap_barrier set_caml_max_stack_size set_caml_external_raise
       set_caml_exn_bucket set_caml_local_roots set_caml_callback_depth
       set_caml_something_to_do set_caml_event_count with_words] in H.
Ltac mred_all :=
  repeat match goal with
  | H : context [Mach] |- _ => progress mred_in H
  | H : context [Ctx] |- _ => progress mred_in H
  end; mred.
Ltac mdestruct m :=
  destruct m as [? ? ? ? ? ? ? ? ? ?
    [? ? ? ? ? ? ? ? ? ? ? ? ? ? ? ? ? ? ? ? ? ? ? ? ? ?]]; mred_all.

(** Equality of machine states, field by field, addresses by arithmetic. *)
Ltac feq := first [reflexivity | addr | progress f_equal; feq].
Ltac mstate := unfold mreturn; mred; cbn [stores app]; feq.

(** The operations of the instructions, as equations. *)
Section Operations_eq.
Context {B : Type}.

Lemma bind_eq {A} (f : IM A) (k : A → IM B) m m' x :
  f m = inr (m', x) → mbnd f k m = k x m'.
Proof. intros E. unfold mbnd. by rewrite E. Qed.

Lemma bind_sp_ld i v (k : Z → IM B) m :
  words (ctx m) !! (sp m + 8 * i) = Some v → mbnd (sp_ld i) k m = k v m.
Proof. intros Hl. unfold sp_ld. rewrite bind_assoc, bind_get. by apply bind_ldi. Qed.
Lemma bind_sp_st i v (k : unit → IM B) m :
  is_Some (words (ctx m) !! (sp m + 8 * i)) →
  mbnd (sp_st i v) k m = k tt (with_words (<[sp m + 8 * i := v]> (words (ctx m))) m).
Proof. intros Hl. unfold sp_st. rewrite bind_assoc, bind_get. by apply bind_sti. Qed.
Lemma bind_sp_add n (k : unit → IM B) m :
  mbnd (sp_add n) k m = k tt (set_sp (sp m + 8 * n) m).
Proof. done. Qed.
Lemma bind_push v (k : unit → IM B) m :
  is_Some (words (ctx m) !! (sp m - 8)) →
  mbnd (push v) k m =
  k tt (set_sp (sp m - 8) (with_words (<[sp m - 8 := v]> (words (ctx m))) m)).
Proof.
  mdestruct m. intros Hl. unfold push. rewrite bind_assoc, bind_sp_add.
  rewrite bind_sp_st by (mred; look_some). f_equal; mstate.
Qed.
Lemma bind_pop v (k : Z → IM B) m :
  words (ctx m) !! sp m = Some v → mbnd pop k m = k v (set_sp (sp m + 8) m).
Proof.
  intros Hl. unfold pop. rewrite bind_assoc, (bind_sp_ld _ v) by (by replace (sp m + 8 * 0) with (sp m) by lia).
  done.
Qed.
Lemma bind_put_accu v (k : unit → IM B) m : mbnd (put_accu v) k m = k tt (set_accu v m).
Proof. done. Qed.
Lemma bind_put_env v (k : unit → IM B) m : mbnd (put_env v) k m = k tt (set_env v m).
Proof. done. Qed.
Lemma bind_put_extra_args v (k : unit → IM B) m :
  mbnd (put_extra_args v) k m = k tt (set_extra_args (s64 v) m).
Proof. done. Qed.
Lemma bind_pc_inc (k : unit → IM B) m : mbnd pc_inc k m = k tt (set_pc (pc m + 4) m).
Proof. done. Qed.
Lemma bind_pc_ld i v (k : Z → IM B) m :
  code (ctx m) !! (pc m + 4 * i) = Some v → mbnd (pc_ld i) k m = k v m.
Proof. intros Hl. unfold pc_ld. rewrite bind_assoc, bind_get. by apply bind_code. Qed.
Lemma bind_opnd v (k : Z → IM B) m :
  code (ctx m) !! pc m = Some v → mbnd opnd k m = k v m.
Proof. intros Hl. apply bind_pc_ld. by replace (pc m + 4 * 0) with (pc m) by lia. Qed.
Lemma bind_opnd_inc v (k : Z → IM B) m :
  code (ctx m) !! pc m = Some v → mbnd opnd_inc k m = k v (set_pc (pc m + 4) m).
Proof. intros Hl. unfold opnd_inc. by rewrite bind_assoc, (bind_opnd v). Qed.
Lemma bind_branch d (k : unit → IM B) m :
  code (ctx m) !! pc m = Some d → mbnd branch k m = k tt (set_pc (pc m + 4 * d) m).
Proof. intros Hl. unfold branch. by rewrite bind_assoc, (bind_opnd d). Qed.
Lemma bind_push_accu (k : unit → IM B) m :
  is_Some (words (ctx m) !! (sp m - 8)) →
  mbnd push_accu k m =
  k tt (set_sp (sp m - 8) (with_words (<[sp m - 8 := accu m]> (words (ctx m))) m)).
Proof. intros Hl. unfold push_accu. rewrite bind_assoc, bind_get. by apply bind_push. Qed.
End Operations_eq.

(** One operation at a time. *)
Ltac istep :=
  first
    [ rewrite bind_assoc
    | rewrite bind_ret
    | rewrite bind_get
    | rewrite bind_modify
    | rewrite bind_modify_ctx
    | rewrite bind_sp_add
    | rewrite bind_put_accu
    | rewrite bind_put_env
    | rewrite bind_put_extra_args
    | rewrite bind_pc_inc
    | erewrite bind_sp_ld by (mred; look)
    | rewrite bind_sp_st by (mred; look_some)
    | rewrite bind_push by (mred; look_some)
    | rewrite bind_push_accu by (mred; look_some)
    | erewrite bind_pop by (mred; look)
    | erewrite bind_ldi by (mred; look)
    | rewrite bind_sti by (mred; look_some)
    | erewrite bind_opnd_inc by (mred; look)
    | erewrite bind_opnd by (mred; look)
    | erewrite bind_branch by (mred; look)
    | erewrite bind_pc_ld by (mred; look)
    | erewrite bind_code by (mred; look) ].
Ltac irun := repeat (istep; mred; cbv beta).

(** ** Copying loops *)

Lemma with_words_self m : with_words (words (ctx m)) m = m.
Proof. by destruct m as [? ? ? ? ? ? ? ? ? ? []]. Qed.

(** A loop whose [j]-th round stores the [j]-th word of [vs] at [dst + 8j]. *)
Lemma for_up_stores_from vs i (B : Z → IM unit) m w dst :
  (∀ (j : nat) v w', vs !! j = Some v →
     (∀ a, a < dst ∨ padd dst (length vs) <= a → w' !! a = w !! a) →
     (∀ a, is_Some (w !! a) → is_Some (w' !! a)) →
     B (i + Z.of_nat j) (with_words w' m) = inr (with_words (<[padd dst j := v]> w') m, tt)) →
  for_up (length vs) i B (with_words w m) = inr (with_words (stores w dst vs) m, tt).
Proof.
  revert i w dst. induction vs as [|v vs IH]; intros i w dst HB; [done|].
  cbn [length for_up stores]. unfold mbnd at 1.
  specialize (HB O v w eq_refl ltac:(done) ltac:(done)) as H0.
  rewrite Z.add_0_r, padd_0 in H0. rewrite H0. apply IH. intros j u w' Hj Ha Hs.
  replace (i + 1 + Z.of_nat j) with (i + Z.of_nat (S j)) by lia.
  replace (padd (dst + 8) j) with (padd dst (S j)) by apply padd_S.
  apply HB; [done| |].
  - intros a Hout. rewrite Ha, lookup_insert_ne; [done|..]; cbn [length] in Hout; unfold padd in *; lia.
  - intros a Hsome. apply Hs. rewrite lookup_insert_is_Some'. by right.
Qed.

Lemma for_up_stores vs i (B : Z → IM unit) m dst :
  (∀ (j : nat) v w', vs !! j = Some v →
     (∀ a, a < dst ∨ padd dst (length vs) <= a → w' !! a = words (ctx m) !! a) →
     (∀ a, is_Some (words (ctx m) !! a) → is_Some (w' !! a)) →
     B (i + Z.of_nat j) (with_words w' m) = inr (with_words (<[padd dst j := v]> w') m, tt)) →
  for_up (length vs) i B m = inr (with_words (stores (words (ctx m)) dst vs) m, tt).
Proof.
  intros HB. rewrite <- (with_words_self m) at 1. by apply for_up_stores_from.
Qed.

(** Copying [vs] from [src] to a disjoint mapped area [dst]. *)
Lemma for_up_copy vs (B : Z → IM unit) m src dst :
  seg (words (ctx m)) src vs → mapped (words (ctx m)) dst (length vs) →
  (padd src (length vs) <= dst ∨ padd dst (length vs) <= src) →
  (∀ (j : nat) v w', w' !! padd src j = Some v → is_Some (w' !! padd dst j) →
     B (Z.of_nat j) (with_words w' m) = inr (with_words (<[padd dst j := v]> w') m, tt)) →
  for_up (length vs) 0 B m = inr (with_words (stores (words (ctx m)) dst vs) m, tt).
Proof.
  intros Hs Hm Hd HB. apply for_up_stores. intros j v w' Hj Hout Hsome.
  assert (j < length vs)%nat as Hlt by by eapply lookup_lt_Some.
  apply HB.
  - rewrite Hout by (unfold padd in *; lia). by eapply seg_lookup.
  - by apply Hsome, Hm.
Qed.

(** ** The fast path of an allocation *)

(** The minor heap has room, at mapped addresses, for a block of [n] words;
    its first field is at [blk]. *)
Definition young_room (m : machine) (n blk : Z) : Prop :=
  caml_young_ptr (ctx m) - Bhsize_wosize n = blk - 8 ∧
  caml_young_start (ctx m) <= blk - 8 ∧
  mapped (words (ctx m)) (blk - 8) (Z.to_nat (n + 1)).

(** A block of [n] words at [blk] and the [k] words at [s] do not overlap. *)
Definition off_stack (blk n s : Z) (k : nat) : Prop :=
  blk + 8 * n <= s ∨ padd s k <= blk - 8.

Lemma bind_alloc `{Runtime} {B} n tag blk (k : Z → IM B) m :
  0 <= n → young_room m n blk →
  mbnd (Alloc_small n tag) k m =
  k blk (with_words (<[blk - 8 := Make_header n tag Caml_black]> (words (ctx m)))
          (set_ctx (set_caml_young_ptr (blk - 8) (ctx m)) m)).
Proof.
  intros Hn (Hp & Hlo & Hmap). specialize (Hmap O ltac:(lia)). rewrite padd_0 in Hmap.
  mdestruct m. unfold Alloc_small. irun. rewrite bind_if, Hp.
  rewrite (proj2 (Z.ltb_ge _ _)) by lia. irun. unfold Val_hp. f_equal. lia.
Qed.

(** ** Concrete machines for the examples *)

Definition ex_machine (pc sp accu env extra_args : Z) (w c : gmap Z Z) : machine :=
  Mach pc sp accu env extra_args 0 0 0 0 77 (ex_context w c).

(** [n] mapped words from [a] on, holding [v]. *)
Definition ex_area (a : Z) (n : nat) (v : Z) (w : gmap Z Z) : gmap Z Z :=
  stores w a (replicate n v).

(** Side conditions on concrete machines. *)
Ltac ex_mapped :=
  let i := fresh in let Hi := fresh in intros i Hi;
  repeat (destruct i as [|i]; [vm_compute; eexists; reflexivity|]); exfalso; cbn in Hi; lia.
Ltac ex_side :=
  lazymatch goal with
  | |- mapped _ _ _ => ex_mapped
  | |- young_room _ _ _ => split; [|split]; [ex_side|ex_side|ex_mapped]
  | _ => first
    [ vm_compute; reflexivity
    | vm_compute; congruence
    | vm_compute; repeat split; (reflexivity || congruence)
    | vm_compute; eexists; reflexivity
    | vm_compute; left; (reflexivity || congruence)
    | vm_compute; right; (reflexivity || congruence)
    | simpl; lia ]
  end.

End Machine.
