(* ===== verification/InterpData.v ===== *)
(** Instructions of the bytecode machine that move data (byterun/interp.c):
    stack and environment access, globals, constants, blocks and their fields,
    arrays, strings, branches. *)

From S2P Require Import Prelude Mlvalues Context Machine.
Export Machine.

Module InterpData.

(** ** Basic stack operations *)

Definition acc (n : Z) : IM unit := let* v := sp_ld n in put_accu v.
Definition ACC0 : IM unit := acc 0.
Definition ACC1 : IM unit := acc 1.
Definition ACC2 : IM unit := acc 2.
Definition ACC3 : IM unit := acc 3.
Definition ACC4 : IM unit := acc 4.
Definition ACC5 : IM unit := acc 5.
Definition ACC6 : IM unit := acc 6.
Definition ACC7 : IM unit := acc 7.

Definition PUSH : IM unit := push_accu.
Definition PUSHACC0 : IM unit := push_accu.
Definition PUSHACC1 : IM unit := push_accu ;;; acc 1.
Definition PUSHACC2 : IM unit := push_accu ;;; acc 2.
Definition PUSHACC3 : IM unit := push_accu ;;; acc 3.
Definition PUSHACC4 : IM unit := push_accu ;;; acc 4.
Definition PUSHACC5 : IM unit := push_accu ;;; acc 5.
Definition PUSHACC6 : IM unit := push_accu ;;; acc 6.
Definition PUSHACC7 : IM unit := push_accu ;;; acc 7.

Definition ACC : IM unit := let* n := opnd_inc in acc n.
Definition PUSHACC : IM unit := push_accu ;;; ACC.
Definition POP : IM unit := let* n := opnd_inc in sp_add n.
Definition ASSIGN : IM unit :=
  let* n := opnd_inc in
  let* m := mget in
  sp_st n (accu m) ;;; put_accu Val_unit.

(** ** Access in heap-allocated environment *)

Definition envacc (n : Z) : IM unit :=
  let* m := mget in let* v := ldi (Field (env m) n) in put_accu v.
Definition ENVACC1 : IM unit := envacc 1.
Definition ENVACC2 : IM unit := envacc 2.
Definition ENVACC3 : IM unit := envacc 3.
Definition ENVACC4 : IM unit := envacc 4.
Definition PUSHENVACC1 : IM unit := push_accu ;;; envacc 1.
Definition PUSHENVACC2 : IM unit := push_accu ;;; envacc 2.
Definition PUSHENVACC3 : IM unit := push_accu ;;; envacc 3.
Definition PUSHENVACC4 : IM unit := push_accu ;;; envacc 4.
Definition ENVACC : IM unit := let* n := opnd_inc in envacc n.
Definition PUSHENVACC : IM unit := push_accu ;;; ENVACC.

(** ** Closures of the current recursive definition: [env] displaced *)

Definition offsetclosure (d : Z) : IM unit :=
  let* m := mget in put_accu (u64 (env m + d)).
Definition OFFSETCLOSURE : IM unit := let* n := opnd_inc in offsetclosure (n * 8).
Definition PUSHOFFSETCLOSURE : IM unit := push_accu ;;; OFFSETCLOSURE.
Definition OFFSETCLOSUREM2 : IM unit := offsetclosure (- 2 * 8).
Definition PUSHOFFSETCLOSUREM2 : IM unit := push_accu ;;; OFFSETCLOSUREM2.
Definition OFFSETCLOSURE0 : IM unit := let* m := mget in put_accu (env m).
Definition PUSHOFFSETCLOSURE0 : IM unit := push_accu ;;; OFFSETCLOSURE0.
Definition OFFSETCLOSURE2 : IM unit := offsetclosure (2 * 8).
Definition PUSHOFFSETCLOSURE2 : IM unit := push_accu ;;; OFFSETCLOSURE2.

(** ** Integer constants *)

Definition const (n : Z) : IM unit := put_accu (Val_int n).
Definition CONST0 : IM unit := const 0.
Definition CONST1 : IM unit := const 1.
Definition CONST2 : IM unit := const 2.
Definition CONST3 : IM unit := const 3.
Definition PUSHCONST0 : IM unit := push_accu ;;; const 0.
Definition PUSHCONST1 : IM unit := push_accu ;;; const 1.
Definition PUSHCONST2 : IM unit := push_accu ;;; const 2.
Definition PUSHCONST3 : IM unit := push_accu ;;; const 3.
Definition CONSTINT : IM unit := let* n := opnd in const n ;;; pc_inc.
Definition PUSHCONSTINT : IM unit := push_accu ;;; CONSTINT.

(** ** Access to global variables *)

Definition GETGLOBAL : IM unit :=
  let* n := opnd in
  let* m := mget in
  let* v := ldi (Field (caml_global_data (ctx m)) n) in
  put_accu v ;;; pc_inc.
Definition PUSHGETGLOBAL : IM unit := push_accu ;;; GETGLOBAL.
Definition GETGLOBALFIELD : IM unit :=
  let* n := opnd in
  let* m := mget in
  let* v := ldi (Field (caml_global_data (ctx m)) n) in
  put_accu v ;;; pc_inc ;;;
  let* i := opnd in
  let* w := ldi (Field v i) in
  put_accu w ;;; pc_inc.
Definition PUSHGETGLOBALFIELD : IM unit := push_accu ;;; GETGLOBALFIELD.

(** ** Atoms *)

Definition atom (tag : Z) : IM unit := let* m := mget in put_accu (Atom (ctx m) tag).
Definition ATOM0 : IM unit := atom 0.
Definition PUSHATOM0 : IM unit := push_accu ;;; ATOM0.
Definition ATOM : IM unit := let* t := opnd_inc in atom t.
Definition PUSHATOM : IM unit := push_accu ;;; ATOM.

(** ** Access to components of blocks *)

Definition getfield (i : Z) : IM unit :=
  let* m := mget in let* v := ldi (Field (accu m) i) in put_accu v.
Definition GETFIELD0 : IM unit := getfield 0.
Definition GETFIELD1 : IM unit := getfield 1.
Definition GETFIELD2 : IM unit := getfield 2.
Definition GETFIELD3 : IM unit := getfield 3.
Definition GETFIELD : IM unit := let* i := opnd in getfield i ;;; pc_inc.

(** [size = Wosize_val(accu)], halved for a float array only where a double
    takes two words *)
Definition VECTLENGTH : IM unit :=
  let* m := mget in
  let* hd := ldi (Hd_val (accu m)) in
  let size := Wosize_hd hd in
  let size := if Tag_hd hd =? Double_array_tag then size / Double_wosize else size in
  put_accu (Val_long size).
Definition GETVECTITEM : IM unit :=
  let* i := sp_ld 0 in
  getfield (Long_val i) ;;;
  sp_add 1.

(** ** String operations: the byte at offset [i] of a block is byte [i mod 8]
    of the word that holds it (little endian). *)

Definition word_of (a : Z) : Z := a - a mod 8.
Definition get_byte (w i : Z) : Z := Z.land (Z.shiftr w (8 * i)) 255.
Definition set_byte (w i b : Z) : Z :=
  Z.lor (Z.land w (Z.lnot (Z.shiftl 255 (8 * i)))) (Z.shiftl (Z.land b 255) (8 * i)).

Definition GETSTRINGCHAR : IM unit :=
  let* i := sp_ld 0 in
  let* m := mget in
  let a := accu m + Long_val i in
  let* w := ldi (word_of a) in
  put_accu (Val_int (get_byte w (a mod 8))) ;;;
  sp_add 1.
Definition SETSTRINGCHAR : IM unit :=
  let* i := sp_ld 0 in
  let* c := sp_ld 1 in
  let* m := mget in
  let a := accu m + Long_val i in
  let* w := ldi (word_of a) in
  sti (word_of a) (set_byte w (a mod 8) (Int_val c)) ;;;
  sp_add 2 ;;;
  put_accu Val_unit.

(** ** Branches *)

Definition BRANCH : IM unit := branch.
Definition BRANCHIF : IM unit :=
  let* m := mget in if accu m =? Val_false then pc_inc else branch.
Definition BRANCHIFNOT : IM unit :=
  let* m := mget in if accu m =? Val_false then branch else pc_inc.
Definition SWITCH : IM unit :=
  let* n := opnd_inc in
  let sizes := u32 n in
  let* m := mget in
  if Is_block (accu m) then
    let* hd := ldi (Hd_val (accu m)) in
    let index := Tag_hd hd in
    let* d := pc_ld (Z.land sizes 65535 + index) in
    mmodify (λ m, set_pc (pc m + 4 * d) m)
  else
    let index := Long_val (accu m) in
    let* d := pc_ld index in
    mmodify (λ m, set_pc (pc m + 4 * d) m).
Definition BOOLNOT : IM unit := let* m := mget in put_accu (Val_not (accu m)).
Definition ISINT : IM unit := let* m := mget in put_accu (Val_long (Z.land (accu m) 1)).

(** ** Allocation and assignment *)

Section Alloc.
Context `{Runtime}.

Definition SETGLOBAL : IM unit :=
  let* n := opnd in
  let* m := mget in
  lift (caml_modify_r (Field (caml_global_data (ctx m)) n) (accu m)) ;;;
  put_accu Val_unit ;;; pc_inc.

Definition MAKEBLOCK : IM unit :=
  let* n := opnd_inc in
  let* tag := opnd_inc in
  let wosize := u64 n in
  let* block :=
    (if wosize <=? Max_young_wosize then
       let* block := Alloc_small wosize tag in
       let* m := mget in
       sti (Field block 0) (accu m) ;;;
       for_up (Z.to_nat (wosize - 1)) 1 (λ i, let* v := pop in sti (Field block i) v) ;;;
       mreturn block
     else
       let* block := lift (caml_alloc_shr_r wosize tag) in
       let* m := mget in
       lift (caml_initialize_r (Field block 0) (accu m)) ;;;
       for_up (Z.to_nat (wosize - 1)) 1
         (λ i, let* v := pop in lift (caml_initialize_r (Field block i) v)) ;;;
       mreturn block) in
  put_accu block.
Definition MAKEBLOCK1 : IM unit :=
  let* tag := opnd_inc in
  let* block := Alloc_small 1 tag in
  let* m := mget in
  sti (Field block 0) (accu m) ;;;
  put_accu block.
Definition MAKEBLOCK2 : IM unit :=
  let* tag := opnd_inc in
  let* block := Alloc_small 2 tag in
  let* m := mget in
  sti (Field block 0) (accu m) ;;;
  let* v := sp_ld 0 in sti (Field block 1) v ;;;
  sp_add 1 ;;;
  put_accu block.
Definition MAKEBLOCK3 : IM unit :=
  let* tag := opnd_inc in
  let* block := Alloc_small 3 tag in
  let* m := mget in
  sti (Field block 0) (accu m) ;;;
  let* v := sp_ld 0 in sti (Field block 1) v ;;;
  let* v := sp_ld 1 in sti (Field block 2) v ;;;
  sp_add 2 ;;;
  put_accu block.

(** A double is the word that holds it. *)
Definition MAKEFLOATBLOCK : IM unit :=
  let* n := opnd_inc in
  let size := u64 n in
  let* block :=
    (if size <=? Max_young_wosize / Double_wosize
     then Alloc_small (size * Double_wosize) Double_array_tag
     else lift (caml_alloc_shr_r (size * Double_wosize) Double_array_tag)) in
  let* m := mget in
  let* d := ldi (accu m) in
  sti (Field block 0) d ;;;
  for_up (Z.to_nat (size - 1)) 1
    (λ i, let* v := sp_ld 0 in
          let* d := ldi v in
          sti (Field block i) d ;;;
          sp_add 1) ;;;
  put_accu block.
Definition GETFLOATFIELD : IM unit :=
  let* i := opnd in
  let* m := mget in
  let* d := ldi (Field (accu m) i) in
  let* block := Alloc_small Double_wosize Double_tag in
  put_accu block ;;;
  sti block d ;;;
  pc_inc.

(** label [modify] *)
Definition modify (dest newval : Z) : IM unit :=
  lift (Modify dest newval) ;;; put_accu Val_unit.
Definition setfield (i : Z) : IM unit :=
  let* m := mget in
  let* v := pop in
  modify (Field (accu m) i) v.
Definition SETFIELD0 : IM unit := setfield 0.
Definition SETFIELD1 : IM unit := setfield 1.
Definition SETFIELD2 : IM unit := setfield 2.
Definition SETFIELD3 : IM unit := setfield 3.
Definition SETFIELD : IM unit :=
  let* m := mget in
  let* i := opnd in
  pc_inc ;;;
  let* v := pop in
  modify (Field (accu m) i) v.
Definition SETFLOATFIELD : IM unit :=
  let* i := opnd in
  let* v := sp_ld 0 in
  let* d := ldi v in
  let* m := mget in
  sti (Field (accu m) i) d ;;;
  put_accu Val_unit ;;;
  sp_add 1 ;;;
  pc_inc.
Definition SETVECTITEM : IM unit :=
  let* m := mget in
  let* i := sp_ld 0 in
  let* v := sp_ld 1 in
  sp_add 2 ;;;
  modify (Field (accu m) (Long_val i)) v.
End Alloc.

(** ** Building and reading blocks *)

(** The initialization loop of a small block consumes the stack in order. *)
Lemma pop_into_block vs i blk m :
  seg (words (ctx m)) (sp m) vs → mapped (words (ctx m)) (Field blk i) (length vs) →
  (padd (sp m) (length vs) <= Field blk i ∨ padd (Field blk i) (length vs) <= sp m) →
  for_up (length vs) i (λ i, let* v := pop in sti (Field blk i) v) m =
  inr (set_sp (padd (sp m) (length vs))
        (with_words (stores (words (ctx m)) (Field blk i) vs) m), tt).
Proof.
  revert i m. induction vs as [|v vs IH]; intros i m Hs Hm Hd.
  { cbn. mdestruct m. mstate. }
  destruct Hs as [Hv Hs]. cbn [length for_up] in *. rewrite bind_assoc, (bind_pop v) by done.
  rewrite bind_sti by (cbn; specialize (Hm O ltac:(lia)); by rewrite padd_0 in Hm).
  rewrite IH; clear IH.
  - unfold with_words. replace (Field blk (i + 1)) with (Field blk i + 8) by addr.
    cbn -[stores padd]. cbn [stores]. clear. mdestruct m. rewrite padd_S. mstate.
  - cbn. apply seg_insert; [|done]. unfold padd in *; lia.
  - cbn. apply mapped_insert. intros j Hj. specialize (Hm (S j) ltac:(lia)).
    by replace (padd (Field blk (i + 1)) j) with (padd (Field blk i) (S j)) by addr.
  - cbn. addr.
Qed.

(** [MAKEBLOCK] of a small block, in one step of the allocation pointer,
    builds a block with the given tag and size whose fields are the
    accumulator and the popped stack words, leaves it in the accumulator and
    changes no word outside the block; reading field [i] of it then yields the
    [i]-th word. *)
Theorem makeblock_getfield `{Runtime} vs tag blk m :
  let n := Z.of_nat (length vs) + 1 in
  code (ctx m) !! pc m = Some n → code (ctx m) !! (pc m + 4) = Some tag →
  n <= Max_young_wosize → 0 <= tag < 256 →
  seg (words (ctx m)) (sp m) vs → young_room m n blk → off_stack blk n (sp m) (length vs) →
  ∃ m', MAKEBLOCK m = inr (m', tt) ∧
    accu m' = blk ∧ sp m' = padd (sp m) (length vs) ∧ pc m' = pc m + 8 ∧ env m' = env m ∧
    extra_args m' = extra_args m ∧
    seg (words (ctx m')) (blk - 8) (Make_header n tag Caml_black :: accu m :: vs) ∧
    (∀ a, a < blk - 8 ∨ blk + 8 * n <= a → words (ctx m') !! a = words (ctx m) !! a) ∧
    ∀ (i : nat) v, (accu m :: vs) !! i = Some v →
      getfield (Z.of_nat i) m' = inr (set_accu v m', tt).
Proof.
  intros n Hn Ht Hmax Htag Hs Hroom Hoff. unfold Max_young_wosize in Hmax.
  set (w1 := <[blk := accu m]> (<[blk - 8 := Make_header n tag Caml_black]> (words (ctx m)))).
  set (w2 := stores w1 (Field blk 1) vs).
  assert (seg w2 (blk - 8) (Make_header n tag Caml_black :: accu m :: vs)) as Hseg.
  { unfold w2, w1. cbn [seg]. replace (blk - 8 + 8) with blk by lia. split_and!.
    - rewrite lookup_stores_ne, lookup_insert_ne, lookup_insert_eq by addr. done.
    - rewrite lookup_stores_ne, lookup_insert_eq by addr. done.
    - replace (blk + 8) with (Field blk 1) by addr. apply seg_stores. }
  exists (set_accu blk (set_sp (padd (sp m) (length vs)) (set_pc (pc m + 8)
           (with_words w2 (set_ctx (set_caml_young_ptr (blk - 8) (ctx m)) m))))).
  split; [|cbn -[padd seg stores getfield]; split_and!; try done].
  - pose proof Hroom as (_ & _ & Hmap). unfold off_stack in Hoff.
    assert (is_Some (words (ctx m) !! Field blk 0)) by
      (eapply mapped_is_Some; [done|addr|exists 1; addr]).
    apply run_eq. unfold MAKEBLOCK.
    rewrite bind_assoc, (bind_opnd_inc n), bind_assoc, (bind_opnd_inc tag) by done.
    rewrite (u64_small n) by (unfold n; lia_w). cbv zeta.
    rewrite bind_assoc, bind_if, (proj2 (Z.leb_le _ _)) by (unfold Max_young_wosize; lia).
    rewrite bind_assoc, (bind_alloc _ _ blk) by (try exact Hroom; unfold n; lia).
    rewrite bind_assoc, bind_get, bind_assoc, bind_sti
      by (cbn; rewrite lookup_insert_is_Some'; by right).
    replace (Z.to_nat (n - 1)) with (length vs) by (unfold n; lia).
    rewrite bind_assoc. erewrite bind_eq; [|apply pop_into_block].
    + subst w2 w1. clear. mdestruct m. irun. mstate.
    + cbn. do 2 (apply seg_insert; [addr|]). done.
    + cbn. do 2 apply mapped_insert. eapply mapped_sub; [done|addr|exists 2; addr|addr].
    + cbn. addr.
  - intros a Ha. unfold w2, w1. unfold n in Ha.
    rewrite lookup_stores_ne, !lookup_insert_ne by addr. done.
  - intros i v Hi. unfold getfield. rewrite bind_get.
    rewrite (bind_ldi _ v); [done|]. cbn.
    destruct Hseg as [_ Hseg]. replace (blk - 8 + 8) with blk in Hseg by lia.
    apply (seg_lookup _ _ _ _ _ Hseg) in Hi. by replace (Field blk (Z.of_nat i)) with (padd blk i) by addr.
Qed.

(** A pair built from the accumulator and the top of the stack. *)
Definition ex_data : machine :=
  ex_machine 100 2000 (Val_long 1) 0 0
    (ex_area 7968 4 0 (stores ∅ 2000 [Val_long 2])) (<[100 := 2]> (<[104 := 0]> ∅)).

Lemma makeblock_witness :
  ∃ m', @MAKEBLOCK ex_runtime ex_data = inr (m', tt) ∧
    getfield 1 m' = inr (set_accu (Val_long 2) m', tt).
Proof.
  destruct (@makeblock_getfield ex_runtime [Val_long 2] 0 7984 ex_data)
    as (m' & E & _ & _ & _ & _ & _ & _ & _ & Hf); [ex_side..|].
  exists m'. split; [exact E|]. apply (Hf 1%nat). reflexivity.
Defined.

End InterpData.
