(* ===== verification/InterpArith.v ===== *)
(** Integer instructions of the bytecode machine (byterun/interp.c): tagged
    arithmetic, comparisons, conditional branches on integers. *)

From S2P Require Import Prelude Mlvalues Context Machine.
Import Machine.

Module InterpArith.

(** ** Arithmetic

    [(intnat) accu] is the signed reading of the word; every result is wrapped
    to 64 bits by its conversion to [value].  A shift count outside [0, 63] is
    undefined in C (and unspecified in OCaml); the theorems exclude it. *)

Definition unop (f : Z → Z) : IM unit :=
  let* m := mget in put_accu (u64 (f (accu m))).

(** [accu = f(accu, *sp++)] *)
Definition binop (f : Z → Z → Z) : IM unit :=
  let* m := mget in
  let* v := pop in
  put_accu (u64 (f (accu m) v)).

Definition NEGINT : IM unit := unop (λ a, 2 - s64 a).
Definition ADDINT : IM unit := binop (λ a b, s64 a + s64 b - 1).
Definition SUBINT : IM unit := binop (λ a b, s64 a - s64 b + 1).
Definition MULINT : IM unit := binop (λ a b, Val_long (Long_val a * Long_val b)).
Definition ANDINT : IM unit := binop (λ a b, Z.land (s64 a) (s64 b)).
Definition ORINT : IM unit := binop (λ a b, Z.lor (s64 a) (s64 b)).
Definition XORINT : IM unit := binop (λ a b, Z.lor (Z.lxor (s64 a) (s64 b)) 1).
Definition LSLINT : IM unit := binop (λ a b, Z.shiftl (s64 a - 1) (Long_val b) + 1).
Definition LSRINT : IM unit := binop (λ a b, Z.lor (Z.shiftr (u64 (a - 1)) (Long_val b)) 1).
Definition ASRINT : IM unit := binop (λ a b, Z.lor (Z.shiftr (s64 a - 1) (Long_val b)) 1).

(** C's division truncates towards zero. *)
Section Division.
Context `{Runtime}.

Definition zero_divide : IM unit :=
  Setup_for_c_call ;;; lift caml_raise_zero_divide_r.

Definition DIVINT : IM unit :=
  let* v := pop in
  let divisor := Long_val v in
  (if divisor =? 0 then zero_divide else mreturn tt) ;;;
  let* m := mget in
  put_accu (Val_long (Z.quot (Long_val (accu m)) divisor)).
Definition MODINT : IM unit :=
  let* v := pop in
  let divisor := Long_val v in
  (if divisor =? 0 then zero_divide else mreturn tt) ;;;
  let* m := mget in
  put_accu (Val_long (Z.rem (Long_val (accu m)) divisor)).
End Division.

(** ** Comparisons *)

(** [Integer_comparison(typ, opname, tst)]; [conv] is the conversion to [typ] *)
Definition Integer_comparison (conv : Z → Z) (tst : Z → Z → bool) : IM unit :=
  let* m := mget in
  let* v := pop in
  put_accu (Val_int (b2z (tst (conv (accu m)) (conv v)))).

Definition neqb (a b : Z) : bool := negb (a =? b).

Definition EQ : IM unit := Integer_comparison s64 Z.eqb.
Definition NEQ : IM unit := Integer_comparison s64 neqb.
Definition LTINT : IM unit := Integer_comparison s64 Z.ltb.
Definition LEINT : IM unit := Integer_comparison s64 Z.leb.
Definition GTINT : IM unit := Integer_comparison s64 Z.gtb.
Definition GEINT : IM unit := Integer_comparison s64 Z.geb.
Definition ULTINT : IM unit := Integer_comparison u64 Z.ltb.
Definition UGEINT : IM unit := Integer_comparison u64 Z.geb.

(** [Integer_branch_comparison]: the constant [*pc++] (an [int], converted to
    [typ] by the comparison) is on the left. *)
Definition Integer_branch_comparison (conv : Z → Z) (tst : Z → Z → bool) : IM unit :=
  let* n := opnd_inc in
  let* m := mget in
  if tst (conv n) (conv (Long_val (accu m))) then branch else pc_inc.

Definition BEQ : IM unit := Integer_branch_comparison s64 Z.eqb.
Definition BNEQ : IM unit := Integer_branch_comparison s64 neqb.
Definition BLTINT : IM unit := Integer_branch_comparison s64 Z.ltb.
Definition BLEINT : IM unit := Integer_branch_comparison s64 Z.leb.
Definition BGTINT : IM unit := Integer_branch_comparison s64 Z.gtb.
Definition BGEINT : IM unit := Integer_branch_comparison s64 Z.geb.
Definition BULTINT : IM unit := Integer_branch_comparison u64 Z.ltb.
Definition BUGEINT : IM unit := Integer_branch_comparison u64 Z.geb.

(** [*pc << 1] is computed as an [int], then added as an [intnat]. *)
Definition OFFSETINT : IM unit :=
  let* n := opnd in
  let* m := mget in
  put_accu (u64 (accu m + s32 (Z.shiftl n 1))) ;;;
  pc_inc.
Definition OFFSETREF : IM unit :=
  let* n := opnd in
  let* m := mget in
  let* v := ldi (Field (accu m) 0) in
  sti (Field (accu m) 0) (u64 (v + s32 (Z.shiftl n 1))) ;;;
  put_accu Val_unit ;;;
  pc_inc.

(** ** Tagged arithmetic computes on 63-bit integers *)

Lemma land_tagged x y : Z.land (2 * x + 1) (2 * y + 1) = 2 * Z.land x y + 1.
Proof.
  apply tagged_ext. intros i Hi. rewrite Z.land_spec, !tagged_bits, Z.land_spec by done.
  by destruct (i =? 0).
Qed.

Lemma lor_tagged x y : Z.lor (2 * x + 1) (2 * y + 1) = 2 * Z.lor x y + 1.
Proof.
  apply tagged_ext. intros i Hi. rewrite Z.lor_spec, !tagged_bits, Z.lor_spec by done.
  by destruct (i =? 0).
Qed.

Lemma bit_one i : 0 <= i → Z.testbit 1 i = (i =? 0).
Proof.
  intros. destruct (Z.eqb_spec i 0) as [->|]; [done|]. change 1 with (2 ^ 0).
  by apply Z.pow2_bits_false.
Qed.

Lemma lxor_tagged x y : Z.lor (Z.lxor (2 * x + 1) (2 * y + 1)) 1 = 2 * Z.lxor x y + 1.
Proof.
  apply tagged_ext. intros i Hi.
  rewrite Z.lor_spec, Z.lxor_spec, !tagged_bits, Z.lxor_spec, bit_one by done.
  destruct (Z.eqb_spec i 0) as [->|]; simpl; [by rewrite ?orb_true_r|]. by rewrite ?orb_false_r.
Qed.

Lemma shiftl_tagged x n : 0 <= n → Z.shiftl (2 * x + 1 - 1) n + 1 = 2 * Z.shiftl x n + 1.
Proof. intros. rewrite !Z.shiftl_mul_pow2 by done. lia. Qed.

Lemma shiftr_tagged x n : 0 <= n → Z.lor (Z.shiftr (2 * x + 1 - 1) n) 1 = 2 * Z.shiftr x n + 1.
Proof.
  intros Hn. replace (2 * x + 1 - 1) with (Z.shiftl x 1) by (rewrite Z.shiftl_mul_pow2 by lia; lia).
  apply tagged_ext. intros i Hi. rewrite Z.lor_spec, bit_one, Z.shiftr_spec by done.
  destruct (Z.eqb_spec i 0) as [->|]; simpl; [by rewrite ?orb_true_r|]. rewrite orb_false_r.
  rewrite Z.shiftl_spec, Z.shiftr_spec by lia. f_equal. lia.
Qed.

(** The three shapes of instruction, on any machine. *)
Lemma binop_eq f m v :
  words (ctx m) !! sp m = Some v →
  binop f m = inr (set_sp (sp m + 8) (set_accu (u64 (f (accu m) v)) m), tt).
Proof. mdestruct m. intros Hv. apply run_eq. unfold binop. irun. mstate. Qed.

Lemma comparison_eq conv tst m v :
  words (ctx m) !! sp m = Some v →
  Integer_comparison conv tst m =
  inr (set_sp (sp m + 8) (set_accu (Val_bool (tst (conv (accu m)) (conv v))) m), tt).
Proof. mdestruct m. intros Hv. apply run_eq. unfold Integer_comparison. irun. mstate. Qed.

Lemma branch_eq conv tst m n d :
  code (ctx m) !! pc m = Some n → code (ctx m) !! (pc m + 4) = Some d →
  Integer_branch_comparison conv tst m =
  inr (set_pc (pc m + 4 + 4 * (if tst (conv n) (conv (Long_val (accu m))) then d else 1)) m, tt).
Proof.
  mdestruct m. intros Hn Hd. apply run_eq. unfold Integer_branch_comparison. irun.
  destruct (tst _ _); irun; mstate.
Qed.

(** The binary integer instructions and the operations of OCaml's [int] they
    implement, before reduction to 63 bits. *)
Inductive int_op : Type := Add | Sub | Mul | And | Or | Xor | Lsl | Lsr | Asr.

Definition int_instr (o : int_op) : IM unit :=
  match o with
  | Add => ADDINT | Sub => SUBINT | Mul => MULINT
  | And => ANDINT | Or => ORINT | Xor => XORINT
  | Lsl => LSLINT | Lsr => LSRINT | Asr => ASRINT
  end.

Definition int_sem (o : int_op) (x y : Z) : Z :=
  match o with
  | Add => x + y | Sub => x - y | Mul => x * y
  | And => Z.land x y | Or => Z.lor x y | Xor => Z.lxor x y
  | Lsl => x * 2 ^ y
  | Lsr => (x mod 2 ^ 63) / 2 ^ y
  | Asr => x / 2 ^ y
  end.

Definition is_shift (o : int_op) : bool :=
  match o with Lsl | Lsr | Asr => true | _ => false end.

(** Each binary integer instruction, on two tagged integers (and a shift
    count below 64), replaces the accumulator by the tagged result of the
    operation reduced to 63 bits, pops its second argument, and changes
    nothing else. *)
Theorem int_op_correct o m v :
  word (accu m) → Is_long (accu m) = true →
  words (ctx m) !! sp m = Some v → word v → Is_long v = true →
  (is_shift o = true → 0 <= Long_val v < 64) →
  int_instr o m = inr (set_sp (sp m + 8)
    (set_accu (Val_long (int_sem o (Long_val (accu m)) (Long_val v))) m), tt).
Proof.
  intros Ha Hta Hv Hwv Htv Hs. pose proof (λ f, binop_eq f m v Hv) as Hb.
  pose proof (s64_tagged _ Hta) as Ea. pose proof (s64_tagged _ Htv) as Ev.
  pose proof (tagged_word _ Ha Hta) as Ua.
  set (x := Long_val (accu m)) in *. set (y := Long_val v) in *.
  destruct o; cbn [int_instr int_sem is_shift] in *;
    unfold ADDINT, SUBINT, MULINT, ANDINT, ORINT, XORINT, LSLINT, LSRINT, ASRINT;
    rewrite Hb; do 4 f_equal; rewrite ?Ea, ?Ev, ?Val_long_eq.
  - f_equal; lia.
  - f_equal; lia.
  - by autorewrite with words.
  - by rewrite land_tagged.
  - by rewrite lor_tagged.
  - by rewrite lxor_tagged.
  - fold y. rewrite shiftl_tagged, Z.shiftl_mul_pow2 by lia. done.
  - fold y. rewrite (u64_small (accu m - 1)) by (unfold word in *; lia).
    rewrite Ua, shiftr_tagged, Z.shiftr_div_pow2 by lia. done.
  - fold y. rewrite shiftr_tagged, Z.shiftr_div_pow2 by lia. done.
Qed.

(** ** Comparisons *)

Inductive int_cmp : Type := Ceq | Cneq | Clt | Cle | Cgt | Cge | Cult | Cuge.

Definition cmp_instr (o : int_cmp) : IM unit :=
  match o with
  | Ceq => EQ | Cneq => NEQ | Clt => LTINT | Cle => LEINT | Cgt => GTINT | Cge => GEINT
  | Cult => ULTINT | Cuge => UGEINT
  end.

Definition branch_instr (o : int_cmp) : IM unit :=
  match o with
  | Ceq => BEQ | Cneq => BNEQ | Clt => BLTINT | Cle => BLEINT | Cgt => BGTINT | Cge => BGEINT
  | Cult => BULTINT | Cuge => BUGEINT
  end.

(** The relation tested; the unsigned ones compare residues modulo [w]. *)
Definition cmp_sem (w : Z) (o : int_cmp) (x y : Z) : Prop :=
  match o with
  | Ceq => x = y | Cneq => x ≠ y | Clt => x < y | Cle => x <= y | Cgt => x > y | Cge => x >= y
  | Cult => x mod w < y mod w
  | Cuge => x mod w >= y mod w
  end.

#[global] Instance cmp_sem_dec w o x y : Decision (cmp_sem w o x y).
Proof. destruct o; simpl; apply _ || (unfold Z.gt, Z.ge; apply _). Defined.

Lemma bool_decide_b2z (b : bool) P `{Decision P} : (b = true ↔ P) → b = bool_decide P.
Proof.
  intros E. destruct b; symmetry.
  - apply bool_decide_eq_true. by apply E.
  - apply bool_decide_eq_false. intros HP. by apply E in HP.
Qed.

Lemma neqb_true a b : neqb a b = true ↔ a ≠ b.
Proof. unfold neqb. rewrite negb_true_iff, Z.eqb_neq. done. Qed.

Lemma geb_true a b : (a >=? b) = true ↔ a >= b.
Proof. rewrite Z.geb_leb, Z.leb_le. lia. Qed.
Lemma gtb_true a b : (a >? b) = true ↔ a > b.
Proof. rewrite Z.gtb_ltb, Z.ltb_lt. lia. Qed.

(** Each comparison instruction, on two tagged integers, pops its second
    argument and leaves the OCaml boolean of the comparison of the two
    integers (of their 63-bit residues for the unsigned ones). *)
Theorem int_cmp_correct o m v :
  word (accu m) → Is_long (accu m) = true →
  words (ctx m) !! sp m = Some v → word v → Is_long v = true →
  cmp_instr o m = inr (set_sp (sp m + 8) (set_accu (Val_bool
    (bool_decide (cmp_sem (2 ^ 63) o (Long_val (accu m)) (Long_val v)))) m), tt).
Proof.
  intros Ha Hta Hv Hwv Htv. pose proof (λ conv tst, comparison_eq conv tst m v Hv) as Hb.
  pose proof (s64_tagged _ Hta) as Ea. pose proof (s64_tagged _ Htv) as Ev.
  pose proof (tagged_word _ Ha Hta) as Ua. pose proof (tagged_word _ Hwv Htv) as Uv.
  set (x := Long_val (accu m)) in *. set (y := Long_val v) in *.
  destruct o; cbn [cmp_instr];
    unfold EQ, NEQ, LTINT, LEINT, GTINT, GEINT, ULTINT, UGEINT;
    rewrite Hb; do 5 f_equal; rewrite ?Ea, ?Ev, ?(u64_small _ Ha), ?(u64_small _ Hwv);
    apply bool_decide_b2z; cbn [cmp_sem];
    rewrite ?neqb_true, ?Z.eqb_eq, ?Z.ltb_lt, ?Z.leb_le, ?gtb_true, ?geb_true; lia.
Qed.

(** Each compare-and-branch instruction compares its constant with the
    integer in the accumulator (as 64-bit words for the unsigned ones), and
    either jumps by the offset that follows or skips it. *)
Theorem int_branch_correct o m n d :
  code (ctx m) !! pc m = Some n → code (ctx m) !! (pc m + 4) = Some d →
  - 2 ^ 31 <= n < 2 ^ 31 →
  branch_instr o m = inr (set_pc (pc m + 4 +
    4 * (if bool_decide (cmp_sem W o n (Long_val (accu m))) then d else 1)) m, tt).
Proof.
  intros Hn Hd Hr. pose proof (Long_val_range (accu m)) as Hx. unfold Min_long, Max_long in Hx.
  pose proof (λ conv tst, branch_eq conv tst m n d Hn Hd) as Hb.
  destruct o; cbn [branch_instr];
    unfold BEQ, BNEQ, BLTINT, BLEINT, BGTINT, BGEINT, BULTINT, BUGEINT;
    rewrite Hb; rewrite ?(s64_small n), ?(s64_small (Long_val _)) by lia_w;
    do 6 f_equal; (match goal with |- (if ?a then _ else _) = (if ?b then _ else _) =>
      replace b with a; [reflexivity|] end);
    apply bool_decide_b2z; cbn [cmp_sem];
    rewrite ?neqb_true, ?Z.eqb_eq, ?Z.ltb_lt, ?Z.leb_le, ?gtb_true, ?geb_true; done.
Qed.

(** ** Division *)

Lemma quot_range x y :
  Min_long <= x <= Max_long → y ≠ 0 → ¬ (x = Min_long ∧ y = -1) →
  Min_long <= Z.quot x y <= Max_long.
Proof.
  unfold Min_long, Max_long. change (2 ^ 62) with 4611686018427387904. intros Hx Hy Hn.
  destruct (Z.eq_dec y 1) as [->|]; [rewrite Z.quot_1_r; lia|].
  destruct (Z.eq_dec y (-1)) as [->|].
  { change (-1) with (- (1)). rewrite Z.quot_opp_r, Z.quot_1_r; lia. }
  destruct (Z.eq_dec x 0) as [->|]; [rewrite Z.quot_0_l by done; lia|].
  pose proof (Z.quot_lt (Z.abs x) (Z.abs y) ltac:(lia) ltac:(lia)) as Hlt.
  rewrite Z.quot_abs in Hlt by done. lia.
Qed.

(** [DIVINT] and [MODINT] with a non-zero divisor compute the quotient
    truncated towards zero and the remainder with the sign of the dividend;
    only [min_int / -1] wraps. *)
Theorem div_mod_correct `{Runtime} m v :
  words (ctx m) !! sp m = Some v → Long_val v ≠ 0 →
  let x := Long_val (accu m) in let y := Long_val v in
  DIVINT m = inr (set_sp (sp m + 8) (set_accu (Val_long (Z.quot x y)) m), tt) ∧
  MODINT m = inr (set_sp (sp m + 8) (set_accu (Val_long (Z.rem x y)) m), tt) ∧
  x = y * Z.quot x y + Z.rem x y ∧ Z.abs (Z.rem x y) < Z.abs y ∧
  (Long_val (Val_long (Z.quot x y)) = Z.quot x y ↔ ¬ (x = Min_long ∧ y = -1)).
Proof.
  intros Hv Hy x y. split_and!.
  - subst x y. mdestruct m. apply run_eq. unfold DIVINT. irun. rewrite bind_if.
    destruct (Z.eqb_spec (Long_val v) 0); [done|]. irun. mstate.
  - subst x y. mdestruct m. apply run_eq. unfold MODINT. irun. rewrite bind_if.
    destruct (Z.eqb_spec (Long_val v) 0); [done|]. irun. mstate.
  - apply Z.quot_rem'.
  - by apply Z.rem_bound_abs.
  - rewrite Long_val_Val_long. pose proof (Long_val_range (accu m)) as Hx.
    pose proof (Long_val_range v) as Hyr. fold x in Hx. fold y in Hyr, Hy.
    split.
    + intros E [E1 E2]. rewrite E1, E2 in E. by vm_compute in E.
    + intros Hn. apply s63_small. by apply quot_range.
Qed.

(** ** Concrete runs *)

(** -7 and 3 *)
Definition ex_ints : machine :=
  ex_machine 100 2000 (Val_long (-7)) 0 0 (<[2000 := Val_long 3]> ∅)
    (<[100 := 5]> (<[104 := 20]> ∅)).

Ltac ex_ints_side := first [reflexivity | vm_compute; split; congruence | vm_compute; done].

Lemma int_op_witness :
  int_instr Asr ex_ints = inr (set_sp 2008 (set_accu (Val_long (-1)) ex_ints), tt).
Proof. apply (int_op_correct Asr ex_ints (Val_long 3)); try ex_ints_side; vm_compute; intros; split; congruence. Defined.

Lemma int_cmp_witness :
  cmp_instr Cult ex_ints = inr (set_sp 2008 (set_accu Val_false ex_ints), tt).
Proof. apply (int_cmp_correct Cult ex_ints (Val_long 3)); ex_ints_side. Defined.

Lemma int_branch_witness :
  branch_instr Cgt ex_ints = inr (set_pc (100 + 4 + 4 * 20) ex_ints, tt).
Proof. apply (int_branch_correct Cgt ex_ints 5 20); try ex_ints_side; vm_compute; split; congruence. Defined.

Lemma div_mod_witness :
  @DIVINT ex_runtime ex_ints = inr (set_sp 2008 (set_accu (Val_long (-2)) ex_ints), tt) ∧
  @MODINT ex_runtime ex_ints = inr (set_sp 2008 (set_accu (Val_long (-1)) ex_ints), tt).
Proof.
  destruct (@div_mod_correct ex_runtime ex_ints (Val_long 3)) as (H1 & H2 & _); [ex_ints_side|vm_compute; congruence|].
  split; [exact H1|exact H2].
Defined.

End InterpArith.
