(* ===== verification/InterpCall.v ===== *)
(** Control instructions of the bytecode machine (byterun/interp.c): function
    application, currying, closures, exception handlers, signals, C calls. *)

From S2P Require Import Prelude Mlvalues Context Stacks Machine.
Import Machine.

Module InterpCall.

(** arguments of [caml_debugger_r] *)
Definition EVENT_COUNT : Z := 0.
Definition BREAKPOINT : Z := 1.
Definition TRAP_BARRIER : Z := 4.

Section Instructions.
Context `{Runtime}.

(** ** Stack checks and signals *)

Definition process_signal : IM unit :=
  modify_ctx (set_caml_something_to_do 0) ;;;
  Setup_for_event ;;;
  lift caml_process_event_r ;;;
  Restore_after_event.

Definition CHECK_SIGNALS : IM unit :=
  let* m := mget in
  if caml_something_to_do (ctx m) =? 0 then mreturn tt else process_signal.

Definition check_stacks : IM unit :=
  let* m := mget in
  (if sp m <? caml_stack_threshold (ctx m) then
     modify_ctx (set_caml_extern_sp (sp m)) ;;;
     lift (Stacks.caml_realloc_stack_r (Stacks.Stack_threshold / 8)) ;;;
     let* m := mget in mmodify (set_sp (caml_extern_sp (ctx m)))
   else mreturn tt) ;;;
  CHECK_SIGNALS.

(** ** Function application *)

Definition PUSH_RETADDR : IM unit :=
  let* m := mget in
  sp_add (-3) ;;;
  let* d := opnd in
  sp_st 0 (pc m + 4 * d) ;;;
  sp_st 1 (env m) ;;;
  sp_st 2 (Val_long (extra_args m)) ;;;
  pc_inc.

(** [pc = Code_val(accu); env = accu;] *)
Definition enter : IM unit :=
  let* m := mget in
  let* c := ldi (Code_val (accu m)) in
  mmodify (set_pc c) ;;;
  put_env (accu m).

Definition APPLY : IM unit :=
  let* n := opnd in
  put_extra_args (n - 1) ;;;
  enter ;;;
  check_stacks.
Definition APPLY1 : IM unit :=
  let* arg1 := sp_ld 0 in
  sp_add (-3) ;;;
  let* m := mget in
  sp_st 0 arg1 ;;;
  sp_st 1 (pc m) ;;;
  sp_st 2 (env m) ;;;
  sp_st 3 (Val_long (extra_args m)) ;;;
  enter ;;;
  put_extra_args 0 ;;;
  check_stacks.
Definition APPLY2 : IM unit :=
  let* arg1 := sp_ld 0 in
  let* arg2 := sp_ld 1 in
  sp_add (-3) ;;;
  let* m := mget in
  sp_st 0 arg1 ;;;
  sp_st 1 arg2 ;;;
  sp_st 2 (pc m) ;;;
  sp_st 3 (env m) ;;;
  sp_st 4 (Val_long (extra_args m)) ;;;
  enter ;;;
  put_extra_args 1 ;;;
  check_stacks.
Definition APPLY3 : IM unit :=
  let* arg1 := sp_ld 0 in
  let* arg2 := sp_ld 1 in
  let* arg3 := sp_ld 2 in
  sp_add (-3) ;;;
  let* m := mget in
  sp_st 0 arg1 ;;;
  sp_st 1 arg2 ;;;
  sp_st 2 arg3 ;;;
  sp_st 3 (pc m) ;;;
  sp_st 4 (env m) ;;;
  sp_st 5 (Val_long (extra_args m)) ;;;
  enter ;;;
  put_extra_args 2 ;;;
  check_stacks.

Definition add_extra_args (n : Z) : IM unit :=
  let* m := mget in put_extra_args (extra_args m + n).

Definition APPTERM : IM unit :=
  let* nargs := opnd_inc in
  let* slotsize := opnd in
  let* m := mget in
  let newsp := sp m + 8 * (slotsize - nargs) in
  for_down (Z.to_nat nargs) (λ i, let* v := sp_ld i in sti (newsp + 8 * i) v) ;;;
  mmodify (set_sp newsp) ;;;
  enter ;;;
  add_extra_args (nargs - 1) ;;;
  check_stacks.
Definition APPTERM1 : IM unit :=
  let* arg1 := sp_ld 0 in
  let* n := opnd in
  sp_add (n - 1) ;;;
  sp_st 0 arg1 ;;;
  enter ;;;
  check_stacks.
Definition APPTERM2 : IM unit :=
  let* arg1 := sp_ld 0 in
  let* arg2 := sp_ld 1 in
  let* n := opnd in
  sp_add (n - 2) ;;;
  sp_st 0 arg1 ;;;
  sp_st 1 arg2 ;;;
  enter ;;;
  add_extra_args 1 ;;;
  check_stacks.
Definition APPTERM3 : IM unit :=
  let* arg1 := sp_ld 0 in
  let* arg2 := sp_ld 1 in
  let* arg3 := sp_ld 2 in
  let* n := opnd in
  sp_add (n - 3) ;;;
  sp_st 0 arg1 ;;;
  sp_st 1 arg2 ;;;
  sp_st 2 arg3 ;;;
  enter ;;;
  add_extra_args 2 ;;;
  check_stacks.

(** [pc = (code_t)(sp[0]); env = sp[1]; extra_args = Long_val(sp[2]); sp += 3;] *)
Definition pop_return_frame : IM unit :=
  let* p := sp_ld 0 in mmodify (set_pc p) ;;;
  let* e := sp_ld 1 in put_env e ;;;
  let* x := sp_ld 2 in put_extra_args (Long_val x) ;;;
  sp_add 3.

Definition RETURN : IM unit :=
  let* n := opnd_inc in
  sp_add n ;;;
  let* m := mget in
  if 0 <? extra_args m then
    put_extra_args (extra_args m - 1) ;;; enter
  else pop_return_frame.

Definition RESTART : IM unit :=
  let* m := mget in
  let* hd := ldi (Hd_val (env m)) in
  let num_args := s32 (Wosize_hd hd - 2) in
  sp_add (- num_args) ;;;
  for_up (Z.to_nat num_args) 0
    (λ i, let* v := ldi (Field (env m) (i + 2)) in sp_st i v) ;;;
  let* e := ldi (Field (env m) 1) in
  put_env e ;;;
  add_extra_args num_args.

Definition GRAB : IM unit :=
  let* required := opnd_inc in
  let* m := mget in
  if required <=? extra_args m then
    put_extra_args (extra_args m - required)
  else
    let num_args := u64 (1 + extra_args m) in
    let* block := Alloc_small (num_args + 2) Closure_tag in
    put_accu block ;;;
    let* m := mget in
    sti (Field block 1) (env m) ;;;
    for_up (Z.to_nat num_args) 0
      (λ i, let* v := sp_ld i in sti (Field block (i + 2)) v) ;;;
    sti (Code_val block) (pc m - 12) ;;;
    sp_add num_args ;;;
    pop_return_frame.

(** ** Closures *)

Definition CLOSURE : IM unit :=
  let* nvars := opnd_inc in
  (if 0 <? nvars then push_accu else mreturn tt) ;;;
  let* block := Alloc_small (1 + nvars) Closure_tag in
  put_accu block ;;;
  let* d := opnd in
  let* m := mget in
  sti (Code_val block) (pc m + 4 * d) ;;;
  pc_inc ;;;
  for_up (Z.to_nat nvars) 0
    (λ i, let* v := sp_ld i in sti (Field block (i + 1)) v) ;;;
  sp_add nvars.

(** [p] after the [i]-th function's code pointer is [&Field(accu, 2i - 1)]. *)
Definition CLOSUREREC : IM unit :=
  let* nfuncs := opnd_inc in
  let* nvars := opnd_inc in
  (if 0 <? nvars then push_accu else mreturn tt) ;;;
  let* block := Alloc_small (nfuncs * 2 - 1 + nvars) Closure_tag in
  put_accu block ;;;
  for_up (Z.to_nat nvars) 0
    (λ i, let* v := sp_ld i in sti (Field block (nfuncs * 2 - 1) + 8 * i) v) ;;;
  sp_add nvars ;;;
  let* m := mget in
  let* d := pc_ld 0 in
  sti (Field block 0) (pc m + 4 * d) ;;;
  push block ;;;
  for_up (Z.to_nat (nfuncs - 1)) 1
    (λ i, sti (Field block (2 * i - 1)) (Make_header (i * 2) Infix_tag Caml_white) ;;;
          let* d := pc_ld i in
          sti (Field block (2 * i)) (pc m + 4 * d) ;;;
          push (Field block (2 * i))) ;;;
  mmodify (λ m, set_pc (pc m + 4 * nfuncs) m).

(** ** Exceptions *)

Definition PUSHTRAP : IM unit :=
  let* m := mget in
  sp_add (-4) ;;;
  let* d := opnd in
  let* s := mget in
  sti (Stacks.Trap_pc (sp s)) (pc m + 4 * d) ;;;
  sti (Stacks.Trap_link (sp s)) (caml_trapsp (ctx m)) ;;;
  sp_st 2 (env m) ;;;
  sp_st 3 (Val_long (extra_args m)) ;;;
  modify_ctx (set_caml_trapsp (sp s)) ;;;
  pc_inc.

Definition POPTRAP : IM unit :=
  let* m := mget in
  if negb (caml_something_to_do (ctx m) =? 0) then
    mmodify (set_pc (pc m - 4)) ;;; process_signal
  else
    let* l := ldi (Stacks.Trap_link (sp m)) in
    modify_ctx (set_caml_trapsp l) ;;;
    sp_add 4.

(** label [raise_exception] *)
Definition raise_exception : IM unit :=
  let* m := mget in
  (if caml_trap_barrier (ctx m) <=? caml_trapsp (ctx m)
   then modify_ctx (caml_debugger_r TRAP_BARRIER) else mreturn tt) ;;;
  let* m := mget in
  (if negb (caml_backtrace_active (ctx m) =? 0)
   then modify_ctx (caml_stash_backtrace_r (accu m) (pc m) (sp m)) else mreturn tt) ;;;
  let* m := mget in
  if caml_stack_high (ctx m) - initial_sp_offset m <=? caml_trapsp (ctx m) then
    modify_ctx (set_caml_external_raise (initial_external_raise m)) ;;;
    modify_ctx (λ c, set_caml_extern_sp (caml_stack_high c - initial_sp_offset m) c) ;;;
    modify_ctx (λ c, set_caml_callback_depth (caml_callback_depth c - 1) c) ;;;
    let* m := mget in
    mfail (IReturn (Make_exception_result (accu m)) (ctx m))
  else
    let tp := caml_trapsp (ctx m) in
    mmodify (set_sp tp) ;;;
    let* p := ldi (Stacks.Trap_pc tp) in mmodify (set_pc p) ;;;
    let* l := ldi (Stacks.Trap_link tp) in modify_ctx (set_caml_trapsp l) ;;;
    let* e := sp_ld 2 in put_env e ;;;
    let* x := sp_ld 3 in put_extra_args (Long_val x) ;;;
    sp_add 4.

Definition RAISE : IM unit := raise_exception.

(** ** Calling C functions

    The operand [*pc++] tells whether the primitive takes the context as first
    argument; the next one is the primitive's index. *)

Definition c_call (args : IM (list Z)) : IM unit :=
  Setup_for_c_call ;;;
  let* with_ctx := opnd_inc in
  let* prim := opnd in
  let* l := args in
  let* r := lift (Primitive prim (negb (with_ctx =? 0)) l) in
  put_accu r ;;;
  Restore_after_c_call.

(** the accumulator and [n] words of the stack above the saved environment *)
Fixpoint stack_args (n : nat) (i : Z) : IM (list Z) :=
  match n with
  | O => mreturn []
  | S n => let* v := sp_ld i in let* l := stack_args n (i + 1) in mreturn (v :: l)
  end.
Definition accu_and_stack (n : nat) : IM (list Z) :=
  let* m := mget in let* l := stack_args n 1 in mreturn (accu m :: l).

Definition C_CALL1 : IM unit := c_call (accu_and_stack 0) ;;; pc_inc.
Definition C_CALL2 : IM unit := c_call (accu_and_stack 1) ;;; sp_add 1 ;;; pc_inc.
Definition C_CALL3 : IM unit := c_call (accu_and_stack 2) ;;; sp_add 2 ;;; pc_inc.
Definition C_CALL4 : IM unit := c_call (accu_and_stack 3) ;;; sp_add 3 ;;; pc_inc.
Definition C_CALL5 : IM unit := c_call (accu_and_stack 4) ;;; sp_add 4 ;;; pc_inc.
Definition C_CALLN : IM unit :=
  let* nargs := opnd_inc in
  push_accu ;;;
  c_call (let* m := mget in mreturn [sp m + 8; nargs]) ;;;
  sp_add nargs ;;;
  pc_inc.
End Instructions.

(** ** Calls and returns *)

(** At stack pointer [s] the stack need not grow, and no signal is pending. *)
Definition quiet (m : machine) (s : Z) : Prop :=
  caml_stack_threshold (ctx m) <= s ∧ caml_something_to_do (ctx m) = 0.

(** The words a call saves: return address, environment, extra arguments. *)
Definition ret_frame (r e x : Z) : list Z := [r; e; Val_long x].

Lemma bind_check_stacks `{Runtime} {B} (k : unit → IM B) m :
  quiet m (sp m) → mbnd check_stacks k m = k tt m.
Proof.
  intros [Hs Hq]. mdestruct m. unfold check_stacks, CHECK_SIGNALS. irun. rewrite bind_if.
  rewrite (proj2 (Z.ltb_ge _ _)) by lia. irun. rewrite Hq. reflexivity.
Qed.

Lemma Long_val_small x : Min_long <= x <= Max_long → s64 (Long_val (Val_long x)) = x.
Proof.
  intros Hx. rewrite Long_val_Val_long, s63_small by done. apply s64_small.
  unfold Min_long, Max_long, HW in *. lia.
Qed.

Lemma bind_pop_return_frame {B} r e x (k : unit → IM B) m :
  seg (words (ctx m)) (sp m) (ret_frame r e x) → Min_long <= x <= Max_long →
  mbnd pop_return_frame k m =
  k tt (set_pc r (set_env e (set_extra_args x (set_sp (sp m + 24) m)))).
Proof.
  intros (H1 & H2 & H3 & _) Hx. mdestruct m. unfold pop_return_frame. irun.
  rewrite Long_val_small by done. f_equal; mstate.
Qed.

Lemma return_eq `{Runtime} n m r e x :
  code (ctx m) !! pc m = Some n → extra_args m = 0 →
  seg (words (ctx m)) (sp m + 8 * n) (ret_frame r e x) → Min_long <= x <= Max_long →
  RETURN m = inr (set_pc r (set_env e (set_extra_args x (set_sp (sp m + 8 * n + 24) m))), tt).
Proof.
  intros Hn He Hf Hx. apply run_eq. mdestruct m. unfold RETURN. irun. rewrite He, bind_if. simpl.
  by rewrite (bind_pop_return_frame r e x) by done.
Qed.

Definition apply_instr `{Runtime} (n : nat) : IM unit :=
  match n with 1%nat => APPLY1 | 2%nat => APPLY2 | _ => APPLY3 end.

(** The short calls push a frame below their arguments and enter the closure. *)
Lemma apply_instr_eq `{Runtime} args c m :
  (1 <= length args <= 3)%nat →
  seg (words (ctx m)) (sp m) args →
  words (ctx m) !! accu m = Some c →
  (accu m < sp m - 24 ∨ sp m + 8 * Z.of_nat (length args) <= accu m) →
  mapped (words (ctx m)) (sp m - 24) 3 → quiet m (sp m - 24) →
  apply_instr (length args) m =
  inr (set_pc c (set_env (accu m) (set_extra_args (Z.of_nat (length args) - 1) (set_sp (sp m - 24)
        (with_words (stores (words (ctx m)) (sp m - 24)
          (args ++ ret_frame (pc m) (env m) (extra_args m))) m)))), tt).
Proof.
  intros Hn Hargs Hc Hfar Hroom Hq. apply run_eq.
  pose proof (Hroom 0%nat ltac:(lia)). pose proof (Hroom 1%nat ltac:(lia)).
  pose proof (Hroom 2%nat ltac:(lia)). clear Hroom. mdestruct m.
  destruct args as [|a1 [|a2 [|a3 [|]]]]; cbn [length] in *; try lia; cbn [apply_instr seg] in *;
    decompose [and] Hargs; unfold APPLY1, APPLY2, APPLY3, enter, Code_val; irun;
    rewrite bind_check_stacks by (unfold quiet in *; mred_all; lia); unfold ret_frame; mstate.
Qed.

(** C8.  A call and its return.  [APPLYn] enters the closure in the
    accumulator with its [n] arguments on top of a frame that saves the
    caller's return address, environment and extra arguments, and changes no
    other word; and from any later state where that frame is intact, a
    [RETURN] that drops the callee's slots resumes the caller there: after the
    call, with its environment, its extra arguments, the arguments popped and
    the result in the accumulator. *)
Theorem call_return `{Runtime} args c m :
  (1 <= length args <= 3)%nat →
  seg (words (ctx m)) (sp m) args →
  words (ctx m) !! accu m = Some c →
  (accu m < sp m - 24 ∨ sp m + 8 * Z.of_nat (length args) <= accu m) →
  mapped (words (ctx m)) (sp m - 24) 3 → quiet m (sp m - 24) →
  Min_long <= extra_args m <= Max_long →
  let frame := ret_frame (pc m) (env m) (extra_args m) in
  ∃ m1, apply_instr (length args) m = inr (m1, tt) ∧
    pc m1 = c ∧ env m1 = accu m ∧ extra_args m1 = Z.of_nat (length args) - 1 ∧
    seg (words (ctx m1)) (sp m1) (args ++ frame) ∧
    (∀ a, a < sp m1 ∨ padd (sp m) (length args) <= a →
       words (ctx m1) !! a = words (ctx m) !! a) ∧
    ∀ m2 k,
      code (ctx m2) !! pc m2 = Some k → extra_args m2 = 0 →
      sp m2 + 8 * k = padd (sp m1) (length args) →
      seg (words (ctx m2)) (padd (sp m1) (length args)) frame →
      RETURN m2 = inr (set_pc (pc m) (set_env (env m) (set_extra_args (extra_args m)
                        (set_sp (padd (sp m) (length args)) m2))), tt).
Proof.
  intros Hn Hargs Hc Hfar Hroom Hq Hx frame.
  eexists. split; [by apply apply_instr_eq|]. cbn -[stores RETURN padd]. split_and!; try done.
  - apply seg_stores.
  - intros a Ha. apply lookup_stores_ne. rewrite length_app. simpl. unfold padd in *. lia.
  - intros m2 k Hk He Hsp Hf. rewrite <- Hsp in Hf. rewrite (return_eq k m2 _ _ _ Hk He Hf Hx), Hsp.
    replace (padd (sp m - 24) (length args) + 24) with (padd (sp m) (length args)) by addr.
    reflexivity.
Qed.

(** ** Currying

    The code of a function of [n + 1] parameters starts with [GRAB n], preceded
    by a [RESTART] instruction.  Applied to too few arguments, [GRAB] saves
    them in a closure of [RESTART]. *)

(** The words, header first, of a closure of the code at [restart] holding an
    environment and arguments. *)
Definition partial_closure (restart e : Z) (args : list Z) : list Z :=
  Make_header (Z.of_nat (length args) + 2) Closure_tag Caml_black :: restart :: e :: args.

Definition grab_words (w : gmap Z Z) (blk restart e : Z) (args : list Z) : gmap Z Z :=
  <[blk := restart]> (stores (<[blk + 8 := e]>
    (<[blk - 8 := Make_header (Z.of_nat (length args) + 2) Closure_tag Caml_black]> w))
    (blk + 16) args).

Lemma grab_words_seg w blk restart e args :
  seg (grab_words w blk restart e args) (blk - 8) (partial_closure restart e args).
Proof.
  unfold grab_words, partial_closure. cbn [seg].
  replace (blk - 8 + 8) with blk by lia. split_and!.
  - rewrite lookup_insert_ne, lookup_stores_ne, lookup_insert_ne, lookup_insert_eq by lia. done.
  - apply lookup_insert_eq.
  - rewrite lookup_insert_ne, lookup_stores_ne, lookup_insert_eq by lia. done.
  - replace (blk + 8 + 8) with (blk + 16) by lia.
    apply seg_insert; [lia|apply seg_stores].
Qed.

Lemma grab_words_ne w blk restart e args a :
  a < blk - 8 ∨ padd (blk + 16) (length args) <= a →
  grab_words w blk restart e args !! a = w !! a.
Proof.
  intros Ha. unfold grab_words, padd in *.
  rewrite lookup_insert_ne, lookup_stores_ne, !lookup_insert_ne; unfold padd; (done || lia).
Qed.

Lemma grab_partial_eq `{Runtime} n args r e x blk m :
  code (ctx m) !! pc m = Some n →
  extra_args m = Z.of_nat (length args) - 1 → extra_args m < n →
  (1 <= length args <= 254)%nat →
  seg (words (ctx m)) (sp m) (args ++ ret_frame r e x) → Min_long <= x <= Max_long →
  young_room m (Z.of_nat (length args) + 2) blk →
  off_stack blk (Z.of_nat (length args) + 2) (sp m) (length args + 3) →
  GRAB m = inr (set_pc r (set_env e (set_extra_args x
    (set_sp (padd (sp m) (length args + 3)) (set_accu blk
      (with_words (grab_words (words (ctx m)) blk (pc m - 8) (env m) args)
        (set_ctx (set_caml_young_ptr (blk - 8) (ctx m)) m)))))), tt).
Proof.
  intros Hn He Hlt Hk Hs Hx Hroom Hoff. apply run_eq. unfold GRAB.
  apply seg_app in Hs as [Hargs Hfr].
  pose proof Hroom as (_ & _ & Hmap). unfold off_stack in Hoff.
  assert (is_Some (words (ctx m) !! blk)) by (eapply mapped_is_Some; [done|addr|by exists 1; lia]).
  assert (is_Some (words (ctx m) !! (blk + 8))) by (eapply mapped_is_Some; [done|addr|by exists 2; lia]).
  assert (mapped (words (ctx m)) (blk + 16) (length args)) as Hmap'
    by (eapply mapped_sub; [done|lia|by exists 3; lia|addr]). clear Hmap.
  mdestruct m. rewrite He in Hlt |- *. irun. rewrite bind_if.
  rewrite (proj2 (Z.leb_gt _ _)) by lia.
  rewrite (u64_small (1 + (Z.of_nat (length args) - 1))) by lia_w.
  replace (1 + (Z.of_nat (length args) - 1)) with (Z.of_nat (length args)) by lia.
  rewrite bind_assoc, (bind_alloc _ _ blk) by (try exact Hroom; lia). mred. irun.
  rewrite Nat2Z.id. erewrite bind_eq; [|eapply for_up_copy with (src := sp0) (dst := blk + 16)].
  2-4: mred; first [addr | by do 2 apply mapped_insert | do 2 (apply seg_insert; [addr|]); done].
  2: { intros j v w' Hv Hd. apply run_eq. mred. irun. mstate. }
  mred. irun. unfold Code_val. irun.
  rewrite (bind_pop_return_frame r e x); [|mred|done].
  - unfold grab_words. mstate.
  - apply seg_insert; [simpl; addr|]. apply seg_stores_ne; [simpl; addr|].
    do 2 (apply seg_insert; [simpl; addr|]). done.
Qed.


Lemma grab_enough_eq `{Runtime} n m :
  code (ctx m) !! pc m = Some n → 0 <= n → n <= extra_args m <= Max_long →
  GRAB m = inr (set_pc (pc m + 4) (set_extra_args (extra_args m - n) m), tt).
Proof.
  intros Hn Hpos He. apply run_eq. mdestruct m. unfold GRAB. irun. rewrite bind_if.
  rewrite (proj2 (Z.leb_le _ _)) by lia. irun.
  rewrite s64_small by (unfold Max_long, HW in *; lia). mstate.
Qed.

Lemma restart_eq `{Runtime} restart e args m :
  (length args <= 254)%nat →
  seg (words (ctx m)) (env m - 8) (partial_closure restart e args) →
  let s := sp m - 8 * Z.of_nat (length args) in
  mapped (words (ctx m)) s (length args) →
  off_stack (env m) (Z.of_nat (length args) + 2) s (length args) →
  0 <= extra_args m <= Max_long →
  RESTART m = inr (set_env e (set_extra_args (extra_args m + Z.of_nat (length args))
    (set_sp s (with_words (stores (words (ctx m)) s args) m))), tt).
Proof.
  intros Hk Hclo s Hmap Hoff Hx. apply run_eq. subst s. unfold partial_closure, off_stack in *.
  destruct Hclo as (Hhd & Hcode & Henv & Hargs).
  destruct (header_fields (Z.of_nat (length args) + 2) Closure_tag Caml_black)
    as (_ & Hwo & _); [unfold Max_wosize; lia|unfold Closure_tag; lia|unfold wf_color; tauto|].
  mdestruct m. unfold RESTART, add_extra_args. irun. rewrite Hwo.
  replace (Z.of_nat (length args) + 2 - 2) with (Z.of_nat (length args)) by lia.
  assert (s32 (Z.of_nat (length args)) = Z.of_nat (length args)) as Hs
    by (unfold s32, H32; rewrite Z.mod_small; lia).
  rewrite !Hs, Nat2Z.id.
  erewrite bind_eq; [|eapply for_up_copy with
    (src := env0 + 16) (dst := sp0 - 8 * Z.of_nat (length args))].
  2-4: mred; first [addr | done
    | by replace (env0 + 16) with (env0 - 8 + 8 + 8 + 8) by lia].
  2: { intros j v w' Hv Hd. apply run_eq. mred. irun. mstate. }
  mred. assert (stores words0 (sp0 - 8 * Z.of_nat (length args)) args !! Field env0 1 = Some e) as Hl.
  { rewrite lookup_stores_ne by addr. replace (Field env0 1) with (env0 - 8 + 8 + 8) by addr. done. }
  irun. rewrite s64_small by (unfold Max_long, HW in *; lia). mstate.
Qed.

(** ** Tail calls *)

(** Copying upwards from the last word on moves overlapping words intact. *)
Lemma for_down_slide args m w dst (B : Z → IM unit) :
  (∀ (j : nat) v w', w' !! padd (sp m) j = Some v → is_Some (w' !! padd dst j) →
     B (Z.of_nat j) (with_words w' m) = inr (with_words (<[padd dst j := v]> w') m, tt)) →
  sp m <= dst → seg w (sp m) args → mapped w dst (length args) →
  ∃ w', for_down (length args) B (with_words w m) = inr (with_words w' m, tt) ∧
    seg w' dst args ∧ ∀ a, a < dst ∨ padd dst (length args) <= a → w' !! a = w !! a.
Proof.
  intros HB Hd. revert w. induction args as [|v l IH] using rev_ind; intros w Hs Hm.
  { exists w. done. }
  rewrite length_app in *. cbn [length] in *. rewrite Nat.add_1_r in *.
  apply seg_app in Hs as [Hl [Hv _]].
  destruct (IH (<[padd dst (length l) := v]> w)) as (w' & E & Hs' & Hf).
  - apply seg_insert; [addr|done].
  - apply mapped_insert. intros j Hj. apply Hm. lia.
  - exists w'. cbn [for_down]. unfold mbnd at 1. rewrite (HB _ v) by (done || apply Hm; lia).
    split; [done|]. split.
    + apply seg_app. split; [done|]. cbn [seg]. split; [|done].
      rewrite Hf by lia. apply lookup_insert_eq.
    + intros a Ha. rewrite Hf by addr. apply lookup_insert_ne. addr.
Qed.

(** The general form takes the number of arguments and the size of the frame,
    the short forms only the latter. *)
Definition appterm_instr `{Runtime} (short : bool) (n : nat) : IM unit :=
  if short then match n with 1%nat => APPTERM1 | 2%nat => APPTERM2 | _ => APPTERM3 end
  else APPTERM.

Definition appterm_code (short : bool) (n : nat) (slot : Z) (m : machine) : Prop :=
  if short then (1 <= n <= 3)%nat ∧ code (ctx m) !! pc m = Some slot
  else code (ctx m) !! pc m = Some (Z.of_nat n) ∧ code (ctx m) !! (pc m + 4) = Some slot.

Lemma appterm_short_eq `{Runtime} args slot c m :
  (1 <= length args <= 3)%nat → code (ctx m) !! pc m = Some slot →
  let n := Z.of_nat (length args) in
  let newsp := sp m + 8 * (slot - n) in
  seg (words (ctx m)) (sp m) args → mapped (words (ctx m)) newsp (length args) →
  words (ctx m) !! accu m = Some c → (accu m < newsp ∨ newsp + 8 * n <= accu m) →
  quiet m newsp → Min_long <= extra_args m <= Max_long - n →
  appterm_instr true (length args) m =
  inr (set_pc c (set_env (accu m) (set_extra_args (extra_args m + (n - 1))
    (set_sp newsp (with_words (stores (words (ctx m)) newsp args) m)))), tt).
Proof.
  intros Hk Hcode n newsp Hs Hm Hc Hfar Hq Hx. apply run_eq. unfold quiet in Hq.
  unfold Min_long, Max_long in Hx.
  subst n newsp. destruct args as [|a1 [|a2 [|a3 [|]]]]; cbn [length] in *; try lia;
    cbn [appterm_instr seg] in *; decompose [and] Hs;
    pose proof (Hm 0%nat ltac:(lia)) as Hm0; try pose proof (Hm 1%nat ltac:(lia)) as Hm1;
    try pose proof (Hm 2%nat ltac:(lia)) as Hm2; clear Hm Hs; mdestruct m;
    unfold APPTERM1, APPTERM2, APPTERM3, enter, Code_val, add_extra_args; irun;
    (rewrite bind_check_stacks by (unfold quiet; mred; lia));
    rewrite ?s64_small by lia_w; mstate.
Qed.

(** C23.  A tail call: [APPTERM] (with any number of arguments) and its short
    forms move the arguments, overlapping or not, to the top of the discarded
    frame, enter the closure in the accumulator with the arguments added to
    the caller's extra arguments, and change no word outside their new
    place. *)
Theorem tail_call `{Runtime} short args slot c m :
  appterm_code short (length args) slot m →
  let n := Z.of_nat (length args) in
  let newsp := sp m + 8 * (slot - n) in
  n <= slot → seg (words (ctx m)) (sp m) args → mapped (words (ctx m)) newsp (length args) →
  words (ctx m) !! accu m = Some c → (accu m < newsp ∨ newsp + 8 * n <= accu m) →
  quiet m newsp → Min_long < extra_args m <= Max_long - n →
  ∃ w', appterm_instr short (length args) m =
      inr (set_pc c (set_env (accu m) (set_extra_args (extra_args m + (n - 1))
        (set_sp newsp (with_words w' m)))), tt) ∧
    seg w' newsp args ∧
    ∀ a, a < newsp ∨ padd newsp (length args) <= a → w' !! a = words (ctx m) !! a.
Proof.
  intros Hcode n newsp Hslot Hs Hm Hc Hfar Hq Hx. destruct short.
  { destruct Hcode as [Hk Hcode]. exists (stores (words (ctx m)) newsp args). split_and!.
    - apply (appterm_short_eq args slot c m Hk Hcode); try done. fold n. lia.
    - apply seg_stores.
    - intros a Ha. by apply lookup_stores_ne. }
  destruct Hcode as [Hn Hslotc]. unfold quiet, Min_long, Max_long in *.
  edestruct (for_down_slide args (set_pc (pc m + 4) m) (words (ctx m)) newsp
    (λ i, let* v := sp_ld i in sti (newsp + 8 * i) v)) as (w' & E & Hs' & Hf).
  { intros j v w' Hv Hd. apply run_eq. clear -Hv Hd. mdestruct m. irun. mstate. }
  { unfold newsp. cbn. lia. }
  { exact Hs. }
  { exact Hm. }
  exists w'. split; [|done]. subst newsp n. rewrite <- Hf in Hc by addr.
  clear Hs Hm Hf Hs'. apply run_eq. mdestruct m. unfold appterm_instr, APPTERM, enter, Code_val, add_extra_args.
  irun. rewrite Nat2Z.id. erewrite bind_eq; [|exact E]. mred. irun.
  rewrite bind_check_stacks by (unfold quiet; mred; lia).
  rewrite s64_small by lia_w. mstate.
Qed.

(** ** Exception handlers *)

(** The words of a trap frame: handler, next frame, environment, extra
    arguments. *)
Definition trap_frame (h link e x : Z) : list Z := [h; link; e; Val_long x].

Definition with_trapsp (tp : Z) (m : machine) : machine :=
  set_ctx (set_caml_trapsp tp (ctx m)) m.

Lemma pushtrap_eq d m :
  code (ctx m) !! pc m = Some d → mapped (words (ctx m)) (sp m - 32) 4 →
  PUSHTRAP m = inr (with_trapsp (sp m - 32) (set_pc (pc m + 4) (set_sp (sp m - 32)
    (with_words (stores (words (ctx m)) (sp m - 32)
      (trap_frame (pc m + 4 * d) (caml_trapsp (ctx m)) (env m) (extra_args m))) m))), tt).
Proof.
  intros Hd Hm. pose proof (Hm 0%nat ltac:(lia)). pose proof (Hm 1%nat ltac:(lia)).
  pose proof (Hm 2%nat ltac:(lia)). pose proof (Hm 3%nat ltac:(lia)). clear Hm.
  unfold with_trapsp. apply run_eq. mdestruct m. unfold PUSHTRAP, Stacks.Trap_pc, Stacks.Trap_link.
  irun. unfold trap_frame. mstate.
Qed.

Lemma poptrap_eq `{Runtime} link m :
  caml_something_to_do (ctx m) = 0 → words (ctx m) !! (sp m + 8) = Some link →
  POPTRAP m = inr (with_trapsp link (set_sp (sp m + 32) m), tt).
Proof.
  intros Hs Hl. unfold with_trapsp. apply run_eq. mdestruct m. unfold POPTRAP, Stacks.Trap_link.
  irun. rewrite bind_if, Hs. simpl. irun. mstate.
Qed.

(** The handler installed by this activation is below the stack pointer it
    was entered with, and no debugger barrier or backtrace is in the way. *)
Definition handled (m : machine) : Prop :=
  caml_trapsp (ctx m) < caml_stack_high (ctx m) - initial_sp_offset m ∧
  caml_trapsp (ctx m) < caml_trap_barrier (ctx m) ∧
  caml_backtrace_active (ctx m) = 0.

Lemma raise_eq `{Runtime} h link e x m :
  handled m → seg (words (ctx m)) (caml_trapsp (ctx m)) (trap_frame h link e x) →
  Min_long <= x <= Max_long →
  raise_exception m = inr (with_trapsp link (set_pc h (set_env e (set_extra_args x
    (set_sp (caml_trapsp (ctx m) + 32) m)))), tt).
Proof.
  intros (H1 & H2 & H3) (F1 & F2 & F3 & F4 & _) Hx. unfold with_trapsp. apply run_eq. mdestruct m.
  unfold raise_exception, Stacks.Trap_pc, Stacks.Trap_link. irun.
  rewrite bind_if, (proj2 (Z.leb_gt _ _)) by lia. irun. rewrite bind_if, H3. simpl. irun.
  rewrite bind_if, (proj2 (Z.leb_gt _ _)) by lia. irun. rewrite Long_val_small by done. mstate.
Qed.

(** C9.  An exception handler.  [PUSHTRAP] installs a handler; from any later
    state of the activation where it is the current one and its frame is
    intact, raising an exception resumes at the handler with the exception in
    the accumulator and the stack pointer, environment, extra arguments and
    enclosing handler of the [PUSHTRAP]; and [POPTRAP] on top of the frame
    removes it, restoring stack pointer and enclosing handler. *)
Theorem trap_scope `{Runtime} d m :
  code (ctx m) !! pc m = Some d → mapped (words (ctx m)) (sp m - 32) 4 →
  Min_long <= extra_args m <= Max_long →
  let frame := trap_frame (pc m + 4 * d) (caml_trapsp (ctx m)) (env m) (extra_args m) in
  ∃ m1, PUSHTRAP m = inr (m1, tt) ∧
    pc m1 = pc m + 4 ∧ sp m1 = sp m - 32 ∧ caml_trapsp (ctx m1) = sp m1 ∧
    seg (words (ctx m1)) (sp m1) frame ∧
    (∀ a, a < sp m1 ∨ sp m <= a → words (ctx m1) !! a = words (ctx m) !! a) ∧
    ∀ m2, seg (words (ctx m2)) (sp m1) frame →
      (caml_trapsp (ctx m2) = sp m1 → handled m2 →
       RAISE m2 = inr (with_trapsp (caml_trapsp (ctx m)) (set_pc (pc m + 4 * d)
         (set_env (env m) (set_extra_args (extra_args m) (set_sp (sp m) m2)))), tt)) ∧
      (sp m2 = sp m1 → caml_something_to_do (ctx m2) = 0 →
       POPTRAP m2 = inr (with_trapsp (caml_trapsp (ctx m)) (set_sp (sp m) m2), tt)).
Proof.
  intros Hd Hm Hx frame. eexists. split; [by apply pushtrap_eq|].
  cbn -[stores RAISE POPTRAP seg]. split_and!; try done.
  - apply seg_stores.
  - intros a Ha. apply lookup_stores_ne. subst frame. cbn. addr.
  - intros m2 Hf. split.
    + intros Ht Hh. rewrite <- Ht in Hf. unfold RAISE.
      rewrite (raise_eq _ _ _ _ m2 Hh Hf Hx), Ht.
      by replace (sp m - 32 + 32) with (sp m) by lia.
    + intros Hsp Hq. rewrite <- Hsp in Hf. destruct Hf as (_ & Hl & _).
      rewrite (poptrap_eq _ m2 Hq Hl), Hsp. by replace (sp m - 32 + 32) with (sp m) by lia.
Qed.

(** ** C calls *)

Definition ccall_instr `{Runtime} (n : nat) : IM unit :=
  match n with
  | 1%nat => C_CALL1 | 2%nat => C_CALL2 | 3%nat => C_CALL3 | 4%nat => C_CALL4 | _ => C_CALL5
  end.

(** The machine while a primitive runs: the environment is saved on top of the
    stack and the stack pointer published. *)
Definition in_c_call (m : machine) : machine :=
  let m1 := with_words (<[sp m - 8 := env m]> (words (ctx m)))
    (set_saved_pc (pc m) (set_sp (sp m - 8) m)) in
  set_pc (pc m + 4) (set_ctx (set_caml_extern_sp (sp m - 8) (ctx m1)) m1).

Lemma bind_setup_c_call {B} (k : unit → IM B) m :
  is_Some (words (ctx m) !! (sp m - 8)) →
  mbnd Setup_for_c_call k m = k tt (set_pc (pc m) (in_c_call m)).
Proof.
  intros Hs. unfold in_c_call. mdestruct m. unfold Setup_for_c_call. irun. f_equal.
Qed.

Lemma bind_stack_args {B} vs i (k : list Z → IM B) m :
  seg (words (ctx m)) (sp m + 8 * i) vs → mbnd (stack_args (length vs) i) k m = k vs m.
Proof.
  revert i k. induction vs as [|v vs IH]; intros i k Hs; [done|]. destruct Hs as [Hv Hs].
  cbn [length stack_args]. rewrite bind_assoc, (bind_sp_ld _ v) by done. rewrite bind_assoc, IH; [done|].
  by replace (sp m + 8 * (i + 1)) with (sp m + 8 * i + 8) by lia.
Qed.

Lemma bind_lift {A B} (f : CM A) (k : A → IM B) m c x :
  f (ctx m) = inr (c, x) → mbnd (lift f) k m = k x (set_ctx c m).
Proof. intros E. unfold mbnd, lift. by rewrite E. Qed.

Lemma bind_lift_jump {A B} (f : CM A) (k : A → IM B) m buf c :
  f (ctx m) = inl (CLongjmp buf c) → mbnd (lift f) k m = inl (ILongjmp buf (set_ctx c m)).
Proof. intros E. unfold mbnd, lift. by rewrite E. Qed.

(** Until the primitive is called. *)
Lemma bind_c_call `{Runtime} {B} args flag prim (k : unit → IM B) m :
  seg (words (ctx m)) (sp m) args → is_Some (words (ctx m) !! (sp m - 8)) →
  code (ctx m) !! pc m = Some flag → code (ctx m) !! (pc m + 4) = Some prim →
  mbnd (c_call (accu_and_stack (length args))) k m =
  mbnd (lift (Primitive prim (negb (flag =? 0)) (accu m :: args)))
    (λ r, mbnd (put_accu r ;;; Restore_after_c_call) k) (in_c_call m).
Proof.
  intros Hs Hroom Hf Hp. unfold c_call. rewrite bind_assoc, bind_setup_c_call by done.
  rewrite bind_assoc, (bind_opnd_inc flag) by exact Hf.
  rewrite bind_assoc, (bind_opnd prim) by exact Hp.
  rewrite bind_assoc. unfold accu_and_stack. rewrite bind_assoc, bind_get, bind_assoc.
  rewrite (bind_stack_args args 1).
  2:{ clear -Hs. unfold in_c_call. mdestruct m. replace (sp0 - 8 + 8 * 1) with sp0 by lia.
      apply seg_insert; [lia|done]. }
  rewrite bind_ret, bind_assoc. reflexivity.
Qed.

(** What the interpreter does with the context a primitive returns. *)
Lemma ccall_returns `{Runtime} args flag prim c r e m :
  (length args <= 4)%nat →
  seg (words (ctx m)) (sp m) args → is_Some (words (ctx m) !! (sp m - 8)) →
  code (ctx m) !! pc m = Some flag → code (ctx m) !! (pc m + 4) = Some prim →
  Primitive prim (negb (flag =? 0)) (accu m :: args) (ctx (in_c_call m)) = inr (c, r) →
  words c !! caml_extern_sp c = Some e →
  ccall_instr (S (length args)) m =
  inr (set_pc (pc m + 8) (set_accu r (set_env e (set_saved_pc 0
    (set_sp (padd (caml_extern_sp c + 8) (length args)) (set_ctx c m))))), tt).
Proof.
  intros Hk Hs Hroom Hf Hp Hprim He. apply run_eq. unfold ccall_instr.
  destruct args as [|a1 [|a2 [|a3 [|a4 [|]]]]]; cbn [length] in *; try lia;
    unfold C_CALL1, C_CALL2, C_CALL3, C_CALL4, C_CALL5; rewrite bind_assoc;
    [ rewrite (bind_c_call [] flag prim) by done
    | rewrite (bind_c_call [a1] flag prim) by done
    | rewrite (bind_c_call [a1; a2] flag prim) by done
    | rewrite (bind_c_call [a1; a2; a3] flag prim) by done
    | rewrite (bind_c_call [a1; a2; a3; a4] flag prim) by done ];
    (erewrite bind_lift by exact Hprim); unfold Restore_after_c_call, in_c_call;
    clear -He; mdestruct m; destruct c; mred_all; irun; mstate.
Qed.

Lemma ccall_jumps `{Runtime} args flag prim buf c m :
  (length args <= 4)%nat →
  seg (words (ctx m)) (sp m) args → is_Some (words (ctx m) !! (sp m - 8)) →
  code (ctx m) !! pc m = Some flag → code (ctx m) !! (pc m + 4) = Some prim →
  Primitive prim (negb (flag =? 0)) (accu m :: args) (ctx (in_c_call m)) = inl (CLongjmp buf c) →
  ccall_instr (S (length args)) m = inl (ILongjmp buf (set_ctx c (in_c_call m))).
Proof.
  intros Hk Hs Hroom Hf Hp Hprim. apply run_eq. unfold ccall_instr.
  destruct args as [|a1 [|a2 [|a3 [|a4 [|]]]]]; cbn [length] in *; try lia;
    unfold C_CALL1, C_CALL2, C_CALL3, C_CALL4, C_CALL5; rewrite bind_assoc;
    [ rewrite (bind_c_call [] flag prim) by done
    | rewrite (bind_c_call [a1] flag prim) by done
    | rewrite (bind_c_call [a1; a2] flag prim) by done
    | rewrite (bind_c_call [a1; a2; a3] flag prim) by done
    | rewrite (bind_c_call [a1; a2; a3; a4] flag prim) by done ];
    by apply bind_lift_jump.
Qed.

(** ** Concrete runs *)

(** A closure of the code at 500, in the accumulator, and two arguments on the
    stack, in a function called with one more argument than it takes. *)
Definition ex_call : machine :=
  ex_machine 100 2000 7000 7100 1
    (<[7000 := 500]> (ex_area 1960 5 0 (stores ∅ 2000 [Val_long 5; Val_long 6; Val_long 7; Val_long 8])))
    (<[100 := 2]> (<[104 := 4]> ∅)).

Lemma call_return_witness :
  ∃ m1, @apply_instr ex_runtime 2 ex_call = inr (m1, tt) ∧ pc m1 = 500 ∧ extra_args m1 = 1.
Proof.
  destruct (@call_return ex_runtime [Val_long 5; Val_long 6] 500 ex_call)
    as (m1 & E & H1 & _ & H2 & _); [ex_side..|].
  exists m1. split; [exact E|]. split; [exact H1|exact H2].
Defined.

Lemma tail_call_witness :
  ∃ w', @appterm_instr ex_runtime false 2 ex_call =
    inr (set_pc 500 (set_env 7000 (set_extra_args 2 (set_sp 2016 (with_words w' ex_call)))), tt).
Proof.
  destruct (@tail_call ex_runtime false [Val_long 5; Val_long 6] 4 500 ex_call) as (w' & E & _);
    [ex_side..|].
  exists w'. exact E.
Defined.

Lemma trap_scope_witness :
  ∃ m1, PUSHTRAP ex_call = inr (m1, tt) ∧ caml_trapsp (ctx m1) = 1968.
Proof.
  destruct (@trap_scope ex_runtime 2 ex_call) as (m1 & E & _ & H1 & H2 & _); [ex_side..|].
  exists m1. split; [exact E|]. rewrite H2, H1. reflexivity.
Defined.

End InterpCall.
