(* ===== verification/InterpObj.v ===== *)
(** Method lookup in the bytecode machine (byterun/interp.c): the dispatch
    instructions on objects.

    A method table [meths] holds in field 0 the index of its last entry, in
    field 1 the mask of the inline caches, and from field 2 on pairs of a
    method and its tag, sorted by tag. *)

From S2P Require Import Prelude Mlvalues Context Machine.
Import Machine.

Module InterpObj.

(** [Lookup(obj, lab)] *)
Definition Lookup (obj lab : Z) : IM Z :=
  let* t := ldi (Field obj 0) in ldi (Field t (Int_val lab)).

Definition GETMETHOD : IM unit :=
  let* m := mget in
  let* obj := sp_ld 0 in
  let* v := Lookup obj (accu m) in
  put_accu v.

(** [while (li < hi) { mi = ((li+hi) >> 1) | 1;
       if (accu < Field(meths,mi)) hi = mi-2; else li = mi; }]
    The two indices are [int]s, so fewer than 2^32 rounds are made. *)
Definition method_fuel : positive := 4294967296.

Definition method_search (meths tag : Z) (li hi : Z) : IM (Z * Z) :=
  while_m (λ '(li, hi), mreturn (li <? hi))
    (λ '(li, hi),
       let mi := Z.lor (Z.shiftr (s32 (li + hi)) 1) 1 in
       let* v := ldi (Field meths mi) in
       mreturn (if s64 tag <? s64 v then (li, mi - 2) else (mi, hi)))
    method_fuel (IFault OutOfFuel) (li, hi).

(** a store in the code area (the inline cache) *)
Definition code_st (a v : Z) : IM unit :=
  λ m, match code (ctx m) !! a with
       | Some _ => inr (set_ctx (set_code (<[a := s32 v]> (code (ctx m))) (ctx m)) m, tt)
       | None => inl (IFault (BadStore a)) end.

Definition GETPUBMET : IM unit :=
  let* m := mget in
  let* meths := ldi (Field (accu m) 0) in
  push_accu ;;;
  let* t := opnd_inc in
  let tag := Val_int t in
  put_accu tag ;;;
  let* cache := opnd in
  let* mask := ldi (Field meths 1) in
  let ofs := Z.land cache (s64 mask) in
  let* ctag := ldi (Field meths 3 + ofs) in
  (if ctag =? tag then
     let* v := ldi (Field meths 2 + ofs) in put_accu v
   else
     let* hi := ldi (Field meths 0) in
     let* (li, _) := method_search meths tag 3 (s32 hi) in
     let* m := mget in
     code_st (pc m) ((li - 3) * 8) ;;;
     let* v := ldi (Field meths (li - 1)) in put_accu v) ;;;
  pc_inc.

Definition GETDYNMET : IM unit :=
  let* m := mget in
  let* obj := sp_ld 0 in
  let* meths := ldi (Field obj 0) in
  let* hi := ldi (Field meths 0) in
  let* (li, _) := method_search meths (accu m) 3 (s32 hi) in
  let* v := ldi (Field meths (li - 1)) in
  put_accu v.

(** ** Correctness of the lookup *)

(** The memory holds a method table: its size field, a cache mask, and [ms],
    the pairs of a tag and a method, by strictly increasing (signed) tag. *)
Record method_table (w : gmap Z Z) (meths mask : Z) (ms : list (Z * Z)) : Prop := {
  mt_size : w !! Field meths 0 = Some (2 * Z.of_nat (length ms) + 1);
  mt_mask : w !! Field meths 1 = Some mask;
  mt_method : ∀ k t f, ms !! k = Some (t, f) → w !! Field meths (2 + 2 * Z.of_nat k) = Some f;
  mt_tag : ∀ k t f, ms !! k = Some (t, f) → w !! Field meths (3 + 2 * Z.of_nat k) = Some t;
  mt_sorted : ∀ j k t f t' f', ms !! j = Some (t, f) → ms !! k = Some (t', f') →
    (j < k)%nat → s64 t < s64 t';
  mt_small : Z.of_nat (length ms) < 2 ^ 27
}.

(** The midpoint is an odd index above the lower bound. *)
Lemma midpoint a b :
  0 <= a < b → b < 2 ^ 27 →
  Z.lor (Z.shiftr (s32 (3 + 2 * a + (3 + 2 * b))) 1) 1 = 3 + 2 * ((a + b + 1) / 2).
Proof.
  intros Ha Hb. assert (s32 (3 + 2 * a + (3 + 2 * b)) = 2 * (3 + a + b)) as ->.
  { unfold s32, H32. rewrite Z.mod_small; lia. }
  rewrite Z.shiftr_div_pow2 by lia. change (2 ^ 1) with 2. rewrite Z.mul_comm, Z.div_mul by lia.
  assert (∀ x, Z.lor x 1 = 2 * (x / 2) + 1) as ->.
  { intros x. rewrite <- Z.div2_div. apply Z.bits_inj'. intros n Hn. rewrite Z.lor_spec, tagged_bits by done.
    change 1 with (2 ^ 0) at 1. destruct (Z.eqb_spec n 0) as [->|].
    - rewrite Z.pow2_bits_true by lia. by rewrite orb_true_r.
    - rewrite Z.pow2_bits_false by lia. rewrite orb_false_r, Z.div2_spec, Z.shiftr_spec by lia.
      simpl. f_equal. lia. }
  replace (3 + a + b) with (1 * 2 + (a + b + 1)) by lia.
  rewrite Z.div_add_l by lia. lia.
Qed.

Lemma method_search_spec w meths mask ms k t f m :
  method_table w meths mask ms → ms !! k = Some (t, f) → words (ctx m) = w →
  method_search meths t 3 (2 * Z.of_nat (length ms) + 1) m =
  inr (m, (3 + 2 * Z.of_nat k, 3 + 2 * Z.of_nat k)).
Proof.
  intros Hmt Hk Hw. apply wp_exact. pose proof (lookup_lt_Some _ _ _ Hk) as Hlt.
  pose proof (mt_small _ _ _ _ Hmt) as Hsm.
  apply (while_m_total _ _ (λ '(li, hi) s, s = m ∧ ∃ a b : nat, li = 3 + 2 * Z.of_nat a ∧
      hi = 3 + 2 * Z.of_nat b ∧ (a <= k <= b)%nat ∧ (b < length ms)%nat)
    (λ '(li, hi) _, hi - li)).
  - split; [done|]. exists O, (length ms - 1)%nat. lia.
  - unfold method_fuel. lia.
  - intros [li hi] s (-> & a & b & -> & -> & Hab & Hb) _.
    apply wp_ret. destruct (Z.ltb_spec (3 + 2 * Z.of_nat a) (3 + 2 * Z.of_nat b)).
    + cbv zeta. rewrite midpoint by lia.
      set (c := (Z.of_nat a + Z.of_nat b + 1) / 2).
      assert (Z.of_nat a < c <= Z.of_nat b) as Hc.
      { unfold c. split; [apply Z.lt_le_trans with (Z.of_nat a + 1); [lia|];
          apply Z.div_le_lower_bound; lia|apply Z.lt_succ_r, Z.div_lt_upper_bound; lia]. }
      destruct (lookup_lt_is_Some_2 ms (Z.to_nat c)) as [[t' f'] Hc']; [lia|].
      assert (words (ctx m) !! Field meths (3 + 2 * c) = Some t') as Hl.
      { rewrite Hw. replace c with (Z.of_nat (Z.to_nat c)) at 1 by lia. by eapply mt_tag. }
      apply wp_bind. eapply wp_intro; [apply run_eq; rewrite (bind_ldi _ t') by done; done|].
      apply wp_ret. pose proof (mt_sorted _ _ _ _ Hmt) as Hsort.
      destruct (Z.ltb_spec (s64 t) (s64 t')) as [Hcmp|Hcmp]; (split; [split; [done|]|lia]).
      * exists a, (Z.to_nat (c - 1)). destruct (decide (Z.to_nat c <= k)%nat) as [Hle|]; [|lia].
        destruct (decide (Z.to_nat c = k)) as [Heq|];
          [rewrite Heq, Hk in Hc'; simplify_eq; lia|].
        specialize (Hsort (Z.to_nat c) k _ _ _ _ Hc' Hk ltac:(lia)). lia.
      * exists (Z.to_nat c), b. destruct (decide (k < Z.to_nat c)%nat) as [Hle|]; [|lia].
        specialize (Hsort k (Z.to_nat c) _ _ _ _ Hk Hc' Hle). lia.
    + split; [|done]. f_equal; lia.
Qed.

Lemma hi_small w meths mask ms :
  method_table w meths mask ms →
  s32 (2 * Z.of_nat (length ms) + 1) = 2 * Z.of_nat (length ms) + 1.
Proof.
  intros Hmt. pose proof (mt_small _ _ _ _ Hmt). unfold s32, H32. rewrite Z.mod_small; lia.
Qed.

(** [GETDYNMET]: the binary search in the sorted method table of the
    object on top of the stack terminates and finds the method of the tag in
    the accumulator. *)
Theorem getdynmet_correct m obj meths mask ms k t f :
  words (ctx m) !! sp m = Some obj → words (ctx m) !! Field obj 0 = Some meths →
  method_table (words (ctx m)) meths mask ms → ms !! k = Some (t, f) → accu m = t →
  GETDYNMET m = inr (set_accu f m, tt).
Proof.
  intros Ho Hm Hmt Hk Ht. apply run_eq. unfold GETDYNMET.
  rewrite bind_assoc, bind_get, bind_assoc, (bind_sp_ld _ obj)
    by (by replace (sp m + 8 * 0) with (sp m) by lia).
  rewrite bind_assoc, (bind_ldi _ meths) by done.
  rewrite bind_assoc, (bind_ldi _ _ _ _ (mt_size _ _ _ _ Hmt)).
  rewrite (hi_small _ _ _ _ Hmt), bind_assoc, Ht.
  erewrite bind_eq by (by eapply method_search_spec).
  cbv beta iota. rewrite bind_assoc, (bind_ldi _ f); [done|].
  replace (3 + 2 * Z.of_nat k - 1) with (2 + 2 * Z.of_nat k) by lia. by eapply mt_method.
Qed.

(** A tag has one entry. *)
Lemma method_unique w meths mask ms j k t f f' : method_table w meths mask ms → ms !! j = Some (t, f') → ms !! k = Some (t, f) → j = k.
Proof.
  intros Hmt Hj Hk. pose proof (mt_sorted _ _ _ _ Hmt) as Hsort.
  destruct (decide (j < k)%nat) as [H1|]; [specialize (Hsort _ _ _ _ _ _ Hj Hk H1); lia|].
  destruct (decide (k < j)%nat) as [H1|]; [specialize (Hsort _ _ _ _ _ _ Hk Hj H1); lia|]. lia.
Qed.

(** [GETPUBMET] up to the test of the cache. *)
Lemma getpubmet_start m meths mask ms j tag cache t' f' (K : unit → IM unit) :
  let t := Val_int tag in
  let w := <[sp m - 8 := accu m]> (words (ctx m)) in
  words (ctx m) !! Field (accu m) 0 = Some meths →
  code (ctx m) !! pc m = Some tag → code (ctx m) !! (pc m + 4) = Some cache →
  is_Some (words (ctx m) !! (sp m - 8)) → method_table w meths mask ms →
  ms !! j = Some (t', f') → Z.land cache (s64 mask) = 16 * Z.of_nat j →
  mbnd GETPUBMET K m = mbnd
    (if t' =? t then let* v := ldi (Field meths 2 + 16 * Z.of_nat j) in put_accu v
     else let* hi := ldi (Field meths 0) in
          let* (li, _) := method_search meths t 3 (s32 hi) in
          let* m := mget in
          code_st (pc m) ((li - 3) * 8) ;;;
          let* v := ldi (Field meths (li - 1)) in put_accu v)
    (λ _, mbnd pc_inc K) (set_accu t (set_pc (pc m + 4) (set_sp (sp m - 8) (with_words w m)))).
Proof.
  intros t w Hmeths Htag Hcache Hroom Hmt Hj Hofs. pose proof (mt_tag _ _ _ _ Hmt _ _ _ Hj) as Hjt. pose proof (mt_mask _ _ _ _ Hmt) as Hmask.
  unfold GETPUBMET. rewrite bind_assoc, bind_get, bind_assoc, (bind_ldi _ meths) by done.
  rewrite bind_assoc, bind_push_accu by done. rewrite bind_assoc, (bind_opnd_inc tag) by done.
  rewrite bind_assoc, bind_put_accu. fold t.
  rewrite bind_assoc, (bind_opnd cache) by done.
  rewrite bind_assoc, (bind_ldi _ mask) by done. rewrite Hofs.
  rewrite bind_assoc, (bind_ldi _ t').
  - rewrite bind_assoc. reflexivity.
  - cbn. fold w. replace (Field meths 3 + 16 * Z.of_nat j) with (Field meths (3 + 2 * Z.of_nat j)) by addr. done.
Qed.

(** [GETPUBMET]: whatever entry of the table the inline cache designates,
    the object is pushed and the method of the tag in the instruction ends in
    the accumulator; the cache is left pointing to that method's entry, so
    that the next lookup of the tag in this table is a hit. *)
Theorem getpubmet_correct m meths mask ms k j tag f cache t' f' :
  let t := Val_int tag in
  words (ctx m) !! Field (accu m) 0 = Some meths →
  code (ctx m) !! pc m = Some tag → code (ctx m) !! (pc m + 4) = Some cache →
  is_Some (words (ctx m) !! (sp m - 8)) →
  method_table (<[sp m - 8 := accu m]> (words (ctx m))) meths mask ms →
  ms !! k = Some (t, f) →
  ms !! j = Some (t', f') → Z.land cache (s64 mask) = 16 * Z.of_nat j →
  Z.land (16 * Z.of_nat k) (s64 mask) = 16 * Z.of_nat k →
  ∃ cache', GETPUBMET m = inr (set_pc (pc m + 8) (set_accu f (set_sp (sp m - 8)
      (with_words (<[sp m - 8 := accu m]> (words (ctx m)))
        (set_ctx (set_code (<[pc m + 4 := cache']> (code (ctx m))) (ctx m)) m)))), tt) ∧
    Z.land cache' (s64 mask) = 16 * Z.of_nat k.
Proof.
  intros t Hmeths Htag Hcache Hroom Hmt Hk Hj Hofs Hcov.
  pose proof (lookup_lt_Some _ _ _ Hk) as Hlt. pose proof (mt_small _ _ _ _ Hmt) as Hsm.
  pose proof (mt_method _ _ _ _ Hmt _ _ _ Hj) as Hjf. pose proof (mt_size _ _ _ _ Hmt) as Hsize.
  pose proof (mt_method _ _ _ _ Hmt _ _ _ Hk) as Hkf.
  set (w := <[sp m - 8 := accu m]> (words (ctx m))) in *.
  set (m1 := set_accu t (set_pc (pc m + 4) (set_sp (sp m - 8) (with_words w m)))).
  pose proof (λ K, getpubmet_start m meths mask ms j tag cache t' f' K Hmeths Htag Hcache Hroom Hmt Hj Hofs) as Hstart. cbv zeta in Hstart. fold t w m1 in Hstart.
  destruct (Z.eqb_spec t' t) as [E|E].
  - subst t'. assert (j = k) as -> by (by eapply method_unique).
    rewrite Hj in Hk. simplify_eq. exists cache. split; [|done].
    apply run_eq. rewrite Hstart. rewrite bind_assoc, (bind_ldi _ f).
    + rewrite insert_id by done. subst m1. clear. mdestruct m. irun. mstate.
    + cbn. replace (Field meths 2 + 16 * Z.of_nat k) with (Field meths (2 + 2 * Z.of_nat k)) by addr. done.
  - exists (16 * Z.of_nat k). split; [|done]. apply run_eq. rewrite Hstart.
    rewrite bind_assoc, (bind_ldi _ _ _ m1 Hsize), (hi_small _ _ _ _ Hmt), bind_assoc.
    erewrite bind_eq by (eapply (method_search_spec w); [exact Hmt|exact Hk|done]).
    cbv beta iota. rewrite bind_assoc, bind_get, bind_assoc.
    replace ((3 + 2 * Z.of_nat k - 3) * 8) with (16 * Z.of_nat k) by lia.
    replace (3 + 2 * Z.of_nat k - 1) with (2 + 2 * Z.of_nat k) by lia.
    assert (code_st (pc m1) (16 * Z.of_nat k) m1 =
      inr (set_ctx (set_code (<[pc m + 4 := 16 * Z.of_nat k]> (code (ctx m1))) (ctx m1)) m1, tt)) as Hst.
    { unfold code_st. cbn. rewrite Hcache.
      replace (s32 (16 * Z.of_nat k)) with (16 * Z.of_nat k); [done|].
      unfold s32, H32. rewrite Z.mod_small; lia. }
    erewrite bind_eq by exact Hst. rewrite bind_assoc, (bind_ldi _ f) by done.
    subst m1. clear. mdestruct m. irun. mstate.
Qed.

(** An object at 7000 whose method table, at 7100, has the tags 3, 5 and 9. *)
Definition ex_methods : list (Z * Z) :=
  [(Val_int 3, 31); (Val_int 5, 51); (Val_int 9, 91)].

Definition ex_obj : machine :=
  ex_machine 100 2000 7000 0 0
    (<[7000 := 7100]> (<[1992 := 0]> (<[2000 := 7000]>
      (stores ∅ 7100 [7; 31; 31; Val_int 3; 51; Val_int 5; 91; Val_int 9]))))
    (<[100 := 5]> (<[104 := 0]> ∅)).

Lemma ex_method_table w :
  seg w 7100 [7; 31; 31; Val_int 3; 51; Val_int 5; 91; Val_int 9] →
  method_table w 7100 31 ex_methods.
Proof.
  intros (H0 & H1 & H2 & H3 & H4 & H5 & H6 & H7 & _). split; try done.
  - intros k t f Hk. do 3 (destruct k as [|k]; [simpl in Hk; by simplify_eq|]). done.
  - intros k t f Hk. do 3 (destruct k as [|k]; [simpl in Hk; by simplify_eq|]). done.
  - intros j k t f t' f' Hj Hk Hlt.
    do 3 (destruct j as [|j]; [do 3 (destruct k as [|k];
      [simpl in Hj, Hk; simplify_eq; first [lia|vm_compute; reflexivity]|]); done|]). done.
Qed.

Lemma getdynmet_witness :
  GETDYNMET (set_accu (Val_int 9) ex_obj) = inr (set_accu 91 ex_obj, tt).
Proof.
  apply (getdynmet_correct (set_accu (Val_int 9) ex_obj) 7000 7100 31 ex_methods 2 (Val_int 9) 91);
    try ex_side. apply ex_method_table. repeat split; vm_compute; reflexivity.
Defined.

Lemma getpubmet_witness : ∃ m', GETPUBMET ex_obj = inr (m', tt) ∧ accu m' = 51.
Proof.
  destruct (getpubmet_correct ex_obj 7100 31 ex_methods 1 0 5 51 0 (Val_int 3) 31)
    as (c & E & _);
    [lazymatch goal with
     | |- method_table _ _ _ _ => apply ex_method_table; repeat split; vm_compute; reflexivity
     | _ => ex_side end..|].
  eexists. split; [exact E|]. reflexivity.
Defined.

End InterpObj.
