(* ===== verification/Interp.v ===== *)
(** The interpreter loop (byterun/interp.c, [caml_interprete_r]): opcodes,
    dispatch, entry, exception return from C and termination. *)

From S2P Require Import Prelude Mlvalues Context Machine InterpData InterpArith InterpCall InterpObj.
Import Machine InterpData InterpArith InterpCall InterpObj.

Module Interp.

Section Loop.
Context `{Runtime}.

Definition STOP : IM unit :=
  let* m := mget in
  modify_ctx (set_caml_external_raise (initial_external_raise m)) ;;;
  modify_ctx (set_caml_extern_sp (sp m)) ;;;
  modify_ctx (λ c, set_caml_callback_depth (caml_callback_depth c - 1) c) ;;;
  let* m := mget in
  mfail (IReturn (accu m) (ctx m)).

(** [enum instructions] (instruct.h): the handlers in the order of their
    opcodes, up to the last two, [EVENT] and [BREAK]. *)
Definition instructions : list (IM unit) :=
  [ACC0; ACC1; ACC2; ACC3; ACC4; ACC5; ACC6; ACC7; ACC; PUSH; PUSHACC0; PUSHACC1;
   PUSHACC2; PUSHACC3; PUSHACC4; PUSHACC5; PUSHACC6; PUSHACC7; PUSHACC; POP; ASSIGN;
   ENVACC1; ENVACC2; ENVACC3; ENVACC4; ENVACC; PUSHENVACC1; PUSHENVACC2; PUSHENVACC3;
   PUSHENVACC4; PUSHENVACC; PUSH_RETADDR; APPLY; APPLY1; APPLY2; APPLY3; APPTERM;
   APPTERM1; APPTERM2; APPTERM3; RETURN; RESTART; GRAB; CLOSURE; CLOSUREREC;
   OFFSETCLOSUREM2; OFFSETCLOSURE0; OFFSETCLOSURE2; OFFSETCLOSURE; PUSHOFFSETCLOSUREM2;
   PUSHOFFSETCLOSURE0; PUSHOFFSETCLOSURE2; PUSHOFFSETCLOSURE; GETGLOBAL; PUSHGETGLOBAL;
   GETGLOBALFIELD; PUSHGETGLOBALFIELD; SETGLOBAL; ATOM0; ATOM; PUSHATOM0; PUSHATOM;
   MAKEBLOCK; MAKEBLOCK1; MAKEBLOCK2; MAKEBLOCK3; MAKEFLOATBLOCK; GETFIELD0; GETFIELD1;
   GETFIELD2; GETFIELD3; GETFIELD; GETFLOATFIELD; SETFIELD0; SETFIELD1; SETFIELD2;
   SETFIELD3; SETFIELD; SETFLOATFIELD; VECTLENGTH; GETVECTITEM; SETVECTITEM;
   GETSTRINGCHAR; SETSTRINGCHAR; BRANCH; BRANCHIF; BRANCHIFNOT; SWITCH; BOOLNOT; PUSHTRAP;
   POPTRAP; RAISE; CHECK_SIGNALS; C_CALL1; C_CALL2; C_CALL3; C_CALL4; C_CALL5; C_CALLN;
   CONST0; CONST1; CONST2; CONST3; CONSTINT; PUSHCONST0; PUSHCONST1; PUSHCONST2;
   PUSHCONST3; PUSHCONSTINT; NEGINT; ADDINT; SUBINT; MULINT; DIVINT; MODINT; ANDINT;
   ORINT; XORINT; LSLINT; LSRINT; ASRINT; EQ; NEQ; LTINT; LEINT; GTINT; GEINT; OFFSETINT;
   OFFSETREF; ISINT; GETMETHOD; BEQ; BNEQ; BLTINT; BLEINT; BGTINT; BGEINT; ULTINT; UGEINT;
   BULTINT; BUGEINT; GETPUBMET; GETDYNMET; STOP].

Definition op_EVENT : Z := 144.
Definition op_BREAK : Z := 145.

Definition bad_opcode : IM unit :=
  let* m := mget in
  let* op := code_at (pc m - 4) in
  mfail (IFatal (FatalBadOpcode op)).

Definition handler (op : Z) : option (IM unit) :=
  if op <? 0 then None else instructions !! Z.to_nat op.

(** [Restart_curr_instr]: execute the instruction the debugger replaced.
    Were it [EVENT] or [BREAK] again, the machine would spin on it; the
    debugger saves only original instructions. *)
Definition restart_curr_instr : IM unit :=
  let* m := mget in
  match caml_saved_code (ctx m) !! ((pc m - 4 - caml_start_code (ctx m)) / 4) with
  | None => mfail (IFault (BadLoad (pc m)))
  | Some op =>
      match handler op with
      | Some h => h
      | None => if (op =? op_EVENT) || (op =? op_BREAK)
                then mfail (IFault OutOfFuel) else bad_opcode
      end
  end.

Definition EVENT : IM unit :=
  modify_ctx (λ c, set_caml_event_count (u64 (caml_event_count c - 1)) c) ;;;
  let* m := mget in
  (if caml_event_count (ctx m) =? 0 then
     Setup_for_debugger ;;;
     modify_ctx (caml_debugger_r EVENT_COUNT) ;;;
     Restore_after_debugger
   else mreturn tt) ;;;
  restart_curr_instr.

Definition BREAK : IM unit :=
  Setup_for_debugger ;;;
  modify_ctx (caml_debugger_r BREAKPOINT) ;;;
  Restore_after_debugger ;;;
  restart_curr_instr.

(** [switch(curr_instr)] *)
Definition dispatch (op : Z) : IM unit :=
  if op =? op_EVENT then EVENT
  else if op =? op_BREAK then BREAK
  else match handler op with Some h => h | None => bad_opcode end.

(** One turn of the loop: [curr_instr = *pc++; switch ...]. *)
Definition next : IM unit := let* op := opnd_inc in dispatch op.

(** The second return of [sigsetjmp]: an exception raised by C code reaches
    [raise_exception]. *)
Definition on_longjmp (m : machine) : machine :=
  let m := set_ctx (set_caml_local_roots (initial_local_roots m) (ctx m)) m in
  let m := set_sp (caml_extern_sp (ctx m)) m in
  let m := set_accu (caml_exn_bucket (ctx m)) m in
  let m := set_pc (saved_pc m) m in
  let m := set_saved_pc 0 m in
  if pc m =? 0 then m else set_pc (pc m + 8) m.

(** A step of the machine: an instruction, and the transfer of control when
    it ends in a jump to this activation's handler. *)
Definition catch (f : IM unit) : IM unit :=
  λ m, match f m with
       | inl (ILongjmp buf m') =>
           if buf =? raise_buf m' then raise_exception (on_longjmp m')
           else inl (ILongjmp buf m')
       | r => r
       end.

Definition step : IM unit := catch next.

(** [n] steps. *)
Fixpoint steps (n : nat) : IM unit :=
  match n with O => mreturn tt | S n => step ;;; steps n end.

(** The registers at the start of [caml_interprete_r] for a program at
    [prog]; [buf] is the address of the activation's [raise_buf]. *)
Definition enter_interprete (c : context) (prog buf : Z) : machine :=
  let c1 := set_caml_callback_depth (caml_callback_depth c + 1) c in
  let c1 := set_caml_external_raise buf c1 in
  Mach prog (caml_extern_sp c) (Val_int 0) (Atom c 0) 0 0
       (caml_local_roots c) (s32 (caml_stack_high c - caml_extern_sp c))
       (caml_external_raise c) buf c1.

(** [caml_interprete_r], stopped after at most [fuel] instructions: the
    program may run forever. *)
Definition caml_interprete_r (fuel : nat) (prog buf : Z) (c : context) : istop + machine :=
  if prog =? 0 then inl (IReturn Val_unit c)
  else match steps fuel (enter_interprete c prog buf) with
       | inl e => inl e
       | inr (m, _) => inr m
       end.
End Loop.

(** ** One step *)

Definition op_RESTART : Z := 41.
Definition op_GRAB : Z := 42.

Lemma step_eq `{Runtime} op h m m' :
  code (ctx m) !! pc m = Some op → op ≠ op_EVENT → op ≠ op_BREAK →
  handler op = Some h → h (set_pc (pc m + 4) m) = inr (m', tt) →
  step m = inr (m', tt).
Proof.
  intros Hop He Hb Hh Hr. unfold step, catch, next.
  rewrite (bind_opnd_inc op) by done. unfold dispatch.
  rewrite (proj2 (Z.eqb_neq _ _) He), (proj2 (Z.eqb_neq _ _) Hb), Hh. by rewrite Hr.
Qed.

Lemma steps_S `{Runtime} n m m' r : step m = inr (m', tt) → steps n m' = r → steps (S n) m = r.
Proof. intros E1 E2. cbn [steps]. unfold mbnd. by rewrite E1. Qed.

(** ** Partial application *)

(** C22.  A function whose code starts with [RESTART; GRAB n] (the entry point
    is [GRAB]), applied to [k <= n] arguments: one step returns to the caller
    with a new closure holding the arguments.  Whenever that closure is later
    entered with enough further arguments, two steps bring the machine to the
    function's body with all the arguments on the stack in order, the
    function's own environment, and the count of arguments left over: the
    state an application to all of them at once reaches. *)
Theorem partial_application `{Runtime} n args r e x blk m :
  code (ctx m) !! (pc m - 4) = Some op_RESTART →
  code (ctx m) !! pc m = Some op_GRAB →
  code (ctx m) !! (pc m + 4) = Some n →
  extra_args m = Z.of_nat (length args) - 1 → extra_args m < n →
  (1 <= length args <= 254)%nat →
  seg (words (ctx m)) (sp m) (args ++ ret_frame r e x) → Min_long <= x <= Max_long →
  young_room m (Z.of_nat (length args) + 2) blk →
  off_stack blk (Z.of_nat (length args) + 2) (sp m) (length args + 3) →
  let clo := partial_closure (pc m - 4) (env m) args in
  ∃ m1, step m = inr (m1, tt) ∧
    pc m1 = r ∧ env m1 = e ∧ extra_args m1 = x ∧ sp m1 = padd (sp m) (length args + 3) ∧
    accu m1 = blk ∧ seg (words (ctx m1)) (blk - 8) clo ∧
    (∀ a, a < blk - 8 ∨ padd (blk - 8) (length clo) <= a →
       words (ctx m1) !! a = words (ctx m) !! a) ∧
    ∀ m2 args2,
      code (ctx m2) = code (ctx m) → pc m2 = pc m - 4 → env m2 = blk →
      seg (words (ctx m2)) (blk - 8) clo →
      seg (words (ctx m2)) (sp m2) args2 → extra_args m2 = Z.of_nat (length args2) - 1 →
      (1 <= length args2)%nat → Z.of_nat (length args2 + length args) <= Max_long →
      n <= Z.of_nat (length args + length args2) - 1 →
      let s := sp m2 - 8 * Z.of_nat (length args) in
      mapped (words (ctx m2)) s (length args) →
      off_stack blk (Z.of_nat (length args) + 2) s (length args) →
      ∃ m3, steps 2 m2 = inr (m3, tt) ∧
        pc m3 = pc m + 8 ∧ env m3 = env m ∧ accu m3 = accu m2 ∧
        extra_args m3 = Z.of_nat (length args + length args2) - 1 - n ∧
        sp m3 = s ∧ seg (words (ctx m3)) s (args ++ args2) ∧
        (∀ a, a < s ∨ sp m2 <= a → words (ctx m3) !! a = words (ctx m2) !! a).
Proof.
  intros Hre Hgr Hn He Hlt Hk Hs Hx Hroom Hoff clo.
  eexists. split.
  { eapply (step_eq op_GRAB); [done|done|done|reflexivity|].
    eapply (grab_partial_eq n args r e x blk); done. }
  cbn -[grab_words partial_closure steps padd seg mapped]. split_and!; try done.
  - replace (pc m + 4 - 8) with (pc m - 4) by lia. apply grab_words_seg.
  - intros a Ha. apply grab_words_ne. subst clo. unfold partial_closure, padd in *.
    cbn [length] in Ha. lia.
  - intros m2 args2 Hc Hp Henv Hclo Ha2 He2 Hl2 Hmax Hen Hmap Hoff2.
    set (s := sp m2 - 8 * Z.of_nat (length args)) in *. eexists. split.
    { eapply steps_S.
      - eapply (step_eq op_RESTART); [by rewrite Hc, Hp|done|done|reflexivity|].
        eapply (restart_eq (pc m - 4) (env m) args); cbn -[partial_closure mapped seg Z.of_nat];
          rewrite ?Henv; try done; try lia.
      - eapply (steps_S 0); [|reflexivity]. eapply (step_eq op_GRAB); [|done|done|reflexivity|].
        + cbn. rewrite Hc, Hp. by replace (pc m - 4 + 4) with (pc m) by lia.
        + eapply (grab_enough_eq n); cbn -[Z.of_nat]; [|lia|lia].
          rewrite Hc, Hp. by replace (pc m - 4 + 4 + 4) with (pc m + 4) by lia. }
    cbn -[stores padd seg Z.of_nat]. rewrite Hp. split_and!; try done; try lia.
    + apply seg_app. split; [apply seg_stores|].
      replace (padd s (length args)) with (sp m2) by (subst s; addr).
      apply seg_stores_ne; [right; addr|done].
    + intros a Ha. apply lookup_stores_ne. subst s. addr.
Qed.

(** ** C primitives *)

Definition op_C_CALL1 : Z := 93.

Lemma handler_c_call `{Runtime} (k : nat) :
  (k <= 4)%nat → handler (op_C_CALL1 + Z.of_nat k) = Some (ccall_instr (S k)).
Proof. intros Hk. do 5 (destruct k as [|k]; [reflexivity|]). lia. Qed.

Lemma step_jump `{Runtime} op h buf m m' :
  code (ctx m) !! pc m = Some op → op ≠ op_EVENT → op ≠ op_BREAK →
  handler op = Some h → h (set_pc (pc m + 4) m) = inl (ILongjmp buf m') →
  buf = raise_buf m' → step m = raise_exception (on_longjmp m').
Proof.
  intros Hop He Hb Hh Hr Hbuf. unfold step, catch, next.
  rewrite (bind_opnd_inc op) by done. unfold dispatch.
  rewrite (proj2 (Z.eqb_neq _ _) He), (proj2 (Z.eqb_neq _ _) Hb), Hh, Hr.
  by rewrite (proj2 (Z.eqb_eq _ _) Hbuf).
Qed.

(** The state in which an exception raised by C reaches the handler on top of
    the trap stack. *)
Lemma on_longjmp_raise `{Runtime} h link e x m :
  let c := ctx m in
  caml_trapsp c < caml_stack_high c - initial_sp_offset m →
  caml_trapsp c < caml_trap_barrier c → caml_backtrace_active c = 0 →
  seg (words c) (caml_trapsp c) (trap_frame h link e x) → Min_long <= x <= Max_long →
  ∃ m', raise_exception (on_longjmp m) = inr (m', tt) ∧
    pc m' = h ∧ env m' = e ∧ extra_args m' = x ∧ sp m' = caml_trapsp c + 32 ∧
    accu m' = caml_exn_bucket c ∧ caml_trapsp (ctx m') = link ∧ words (ctx m') = words c ∧
    caml_local_roots (ctx m') = initial_local_roots m.
Proof.
  intros c H1 H2 H3 Hf Hx.
  assert (∀ m0, ctx m0 = set_caml_local_roots (initial_local_roots m) c →
    initial_sp_offset m0 = initial_sp_offset m → accu m0 = caml_exn_bucket c →
    ∃ m', raise_exception m0 = inr (m', tt) ∧
    pc m' = h ∧ env m' = e ∧ extra_args m' = x ∧ sp m' = caml_trapsp c + 32 ∧
    accu m' = caml_exn_bucket c ∧ caml_trapsp (ctx m') = link ∧ words (ctx m') = words c ∧
    caml_local_roots (ctx m') = initial_local_roots m) as Hgen.
  { intros m0 Ec Ei Ea. eexists. split.
    - apply (raise_eq h link e x); [|by rewrite Ec|done]. unfold handled. by rewrite Ec, Ei.
    - unfold with_trapsp. cbn. by rewrite Ec, Ea. }
  apply Hgen; unfold on_longjmp; cbn; by destruct (saved_pc m =? 0).
Qed.

(** C24.  A step that executes [C_CALL1] to [C_CALL5].  The primitive is called
    with the accumulator and the top stack words, with the environment saved
    on the published stack.  If it returns, the result is in the accumulator,
    the arguments are popped from the stack it left (it may have moved it)
    and the environment is the one saved there.  If it raises, control is at
    the current handler, with the exception in the accumulator, the handler's
    environment, stack and enclosing handler, and the local roots of this
    activation. *)
Theorem c_call_step `{Runtime} args flag prim m :
  (length args <= 4)%nat →
  code (ctx m) !! pc m = Some (op_C_CALL1 + Z.of_nat (length args)) →
  code (ctx m) !! (pc m + 4) = Some flag → code (ctx m) !! (pc m + 8) = Some prim →
  seg (words (ctx m)) (sp m) args → is_Some (words (ctx m) !! (sp m - 8)) →
  let called := in_c_call (set_pc (pc m + 4) m) in
  let result := Primitive prim (negb (flag =? 0)) (accu m :: args) (ctx called) in
  words (ctx called) !! caml_extern_sp (ctx called) = Some (env m) ∧
  (∀ c r e, result = inr (c, r) → words c !! caml_extern_sp c = Some e →
     step m = inr (set_pc (pc m + 12) (set_accu r (set_env e (set_saved_pc 0
       (set_sp (padd (caml_extern_sp c + 8) (length args)) (set_ctx c m))))), tt)) ∧
  (∀ c h link e x, result = inl (CLongjmp (raise_buf m) c) →
     caml_trapsp c < caml_stack_high c - initial_sp_offset m →
     caml_trapsp c < caml_trap_barrier c → caml_backtrace_active c = 0 →
     seg (words c) (caml_trapsp c) (trap_frame h link e x) → Min_long <= x <= Max_long →
     ∃ m', step m = inr (m', tt) ∧
       pc m' = h ∧ env m' = e ∧ extra_args m' = x ∧ sp m' = caml_trapsp c + 32 ∧
       accu m' = caml_exn_bucket c ∧ caml_trapsp (ctx m') = link ∧ words (ctx m') = words c ∧
       caml_local_roots (ctx m') = initial_local_roots m).
Proof.
  intros Hk Hop Hf Hp Hs Hroom called result.
  assert (op_C_CALL1 + Z.of_nat (length args) ≠ op_EVENT ∧
          op_C_CALL1 + Z.of_nat (length args) ≠ op_BREAK) as [He Hb].
  { unfold op_C_CALL1, op_EVENT, op_BREAK. lia. }
  pose proof (handler_c_call (length args) Hk) as Hh.
  replace (pc m + 8) with (pc m + 4 + 4) in Hp by lia.
  split_and!.
  - cbn. by rewrite lookup_insert_eq.
  - intros c r e Hr Hc. eapply step_eq; [exact Hop|done|done|exact Hh|].
    rewrite (ccall_returns args flag prim c r e) by done. cbn.
    by replace (pc m + 4 + 8) with (pc m + 12) by lia.
  - intros c h link e x Hr H1 H2 H3 Hfr Hx.
    erewrite step_jump; [|exact Hop|done|done|exact Hh|by apply (ccall_jumps args flag prim)|done].
    by apply (on_longjmp_raise h link e x (set_ctx c called)).
Qed.

(** ** Division by zero *)

Definition op_DIVINT : Z := 113.
Definition op_MODINT : Z := 114.

(** The machine that raises: the divisor's slot holds the saved environment. *)
Lemma zero_divide_jumps `{Runtime} tag blk v m :
  words (ctx m) !! sp m = Some v → Long_val v = 0 →
  words (ctx m) !! Field (caml_global_data (ctx m)) ZERO_DIVIDE_EXN = Some tag →
  Field (caml_global_data (ctx m)) ZERO_DIVIDE_EXN ≠ sp m →
  caml_young_ptr (ctx m) - 16 = blk - 8 → caml_young_start (ctx m) <= blk - 8 →
  mapped (words (ctx m)) (blk - 8) 2 → caml_external_raise (ctx m) ≠ 0 →
  let m1 := set_pc (pc m) (in_c_call (set_sp (sp m + 8) m)) in
  let r := inl (ILongjmp (caml_external_raise (ctx m)) (set_ctx (raised (ctx m1) blk tag) m1)) in
  DIVINT m = r ∧ MODINT m = r.
Proof.
  intros Hv H0 Htag Hg Hp Hlo Hm Hne m1 r.
  assert (caml_raise_zero_divide_r (A := unit) (ctx m1) =
          inl (CLongjmp (caml_external_raise (ctx m)) (raised (ctx m1) blk tag))) as Hr.
  { assert (words (ctx m1) = <[sp m := env m]> (words (ctx m))) as Hw
      by (cbn; by replace (sp m + 8 - 8) with (sp m) by lia).
    unfold caml_raise_zero_divide_r. unfold mbnd at 1, mget. unfold mbnd, ld.
    change (caml_global_data (ctx m1)) with (caml_global_data (ctx m)).
    rewrite Hw, lookup_insert_ne, Htag by done.
    change (caml_external_raise (ctx m)) with (caml_external_raise (ctx m1)).
    apply caml_raise_constant_eq; try done. rewrite Hw. by apply mapped_insert. }
  assert (∀ k : unit → IM unit, mbnd zero_divide k (set_sp (sp m + 8) m) = r) as Hz.
  { intros k. unfold zero_divide. rewrite bind_assoc, bind_setup_c_call.
    - apply bind_lift_jump. exact Hr.
    - cbn. replace (sp m + 8 - 8) with (sp m) by lia. by eexists. }
  split; unfold DIVINT, MODINT; rewrite (bind_pop v) by done; rewrite H0; exact (Hz _).
Qed.

(** C25.  Division or modulus by zero: one step allocates an exception bucket
    holding [Division_by_zero] and transfers control to the current handler,
    with the bucket in the accumulator and the handler's stack pointer,
    environment and enclosing handler. *)
Theorem division_by_zero `{Runtime} op tag blk v h link e x m :
  code (ctx m) !! pc m = Some op → op = op_DIVINT ∨ op = op_MODINT →
  words (ctx m) !! sp m = Some v → Long_val v = 0 →
  words (ctx m) !! Field (caml_global_data (ctx m)) ZERO_DIVIDE_EXN = Some tag →
  Field (caml_global_data (ctx m)) ZERO_DIVIDE_EXN ≠ sp m →
  caml_young_ptr (ctx m) - 16 = blk - 8 → caml_young_start (ctx m) <= blk - 8 →
  mapped (words (ctx m)) (blk - 8) 2 → off_stack blk 1 (sp m) 1 →
  caml_external_raise (ctx m) = raise_buf m → raise_buf m ≠ 0 → handled m →
  let tp := caml_trapsp (ctx m) in
  sp m < tp → off_stack blk 1 tp 4 →
  seg (words (ctx m)) tp (trap_frame h link e x) → Min_long <= x <= Max_long →
  ∃ m', step m = inr (m', tt) ∧
    pc m' = h ∧ env m' = e ∧ extra_args m' = x ∧ sp m' = tp + 32 ∧
    caml_trapsp (ctx m') = link ∧
    accu m' = blk ∧ seg (words (ctx m')) (blk - 8) [Make_header 1 0 Caml_black; tag].
Proof.
  intros Hop Hcase Hv H0 Htag Hg Hp Hlo Hm Hoff Hext Hne (Hh1 & Hh2 & Hh3) tp Htp Hoff2 Hfr Hx.
  set (m0 := set_pc (pc m + 4) m).
  destruct (zero_divide_jumps tag blk v m0) as [Hd1 Hd2]; try done.
  { cbn. by rewrite Hext. }
  set (m1 := set_pc (pc m0) (in_c_call (set_sp (sp m0 + 8) m0))) in *.
  assert (step m = raise_exception (on_longjmp (set_ctx (raised (ctx m1) blk tag) m1))) as ->.
  { destruct Hcase as [->| ->].
    - eapply step_jump; [exact Hop|done|done|reflexivity|exact Hd1|done].
    - eapply step_jump; [exact Hop|done|done|reflexivity|exact Hd2|done]. }
  destruct (on_longjmp_raise h link e x (set_ctx (raised (ctx m1) blk tag) m1))
    as (m' & E & E1 & E2 & E3 & E4 & E5 & E6 & E7 & _); try done.
  - cbn -[seg]. unfold off_stack, padd in *. fold tp.
    replace (sp m + 8 - 8) with (sp m) by lia.
    do 3 (apply seg_insert; [unfold trap_frame; cbn [length]; addr|]). done.
  - exists m'. split_and!; try done. rewrite E7. cbn.
    replace (blk - 8 + 8) with blk by lia.
    rewrite lookup_insert_ne, !lookup_insert_eq by lia. done.
Qed.

(** ** An activation's constants

    Compositional reasoning over the whole instruction set: whatever an
    instruction does, the local variables that record how the interpreter was
    entered keep their values, and it returns only after restoring the
    caller's handler. *)

Definition same_activation (m m' : machine) : Prop :=
  initial_local_roots m' = initial_local_roots m ∧
  initial_sp_offset m' = initial_sp_offset m ∧
  initial_external_raise m' = initial_external_raise m ∧
  raise_buf m' = raise_buf m.

Definition keeps {A} (f : IM A) : Prop :=
  ∀ m, match f m with
       | inr (m', _) => same_activation m m'
       | inl (ILongjmp _ m') => same_activation m m'
       | inl (IReturn _ c) => caml_external_raise c = initial_external_raise m
       | inl _ => True
       end.

Section Keeps.
Context `{Runtime}.

#[local] Instance same_activation_preorder : PreOrder same_activation.
Proof.
  split; [done|]. intros m1 m2 m3 (?&?&?&?) (?&?&?&?). unfold same_activation. split_and!; congruence.
Qed.

Lemma keeps_ret {A} (x : A) : keeps (mreturn x).
Proof. done. Qed.
Lemma keeps_get : keeps mget.
Proof. done. Qed.
Lemma keeps_bind {A B} (f : IM A) (k : A → IM B) :
  keeps f → (∀ x, keeps (k x)) → keeps (mbnd f k).
Proof.
  intros Hf Hk m. specialize (Hf m). unfold mbnd. destruct (f m) as [[]|[m' x]]; try done.
  specialize (Hk x m'). destruct (k x m') as [[]|[m'' y]]; try done.
  - by transitivity m'.
  - destruct Hf as (_ & _ & Hf & _). congruence.
  - by transitivity m'.
Qed.
Lemma keeps_modify f : (∀ m, same_activation m (f m)) → keeps (mmodify f).
Proof. intros Hf m. apply Hf. Qed.
Lemma keeps_modify_ctx f : keeps (modify_ctx f).
Proof. intros m. done. Qed.
Lemma keeps_lift {A} (f : CM A) : keeps (lift f).
Proof. intros m. unfold lift. by destruct (f (ctx m)) as [[]|[]]. Qed.
Lemma keeps_code_at a : keeps (code_at a).
Proof. intros m. unfold code_at. by destruct (code (ctx m) !! a). Qed.
Lemma keeps_code_st a v : keeps (code_st a v).
Proof. intros m. unfold code_st. by destruct (code (ctx m) !! a). Qed.
Lemma keeps_fault {A} f : keeps (mfail (A := A) (IFault f)).
Proof. done. Qed.
Lemma keeps_fatal {A} e : keeps (mfail (A := A) (IFatal e)).
Proof. done. Qed.
Lemma keeps_for_up n i (B : Z → IM unit) : (∀ j, keeps (B j)) → keeps (for_up n i B).
Proof.
  intros HB. revert i. induction n as [|n IH]; intros i; [apply keeps_ret|].
  cbn [for_up]. apply keeps_bind; [apply HB|intros; apply IH].
Qed.
Lemma keeps_for_down n (B : Z → IM unit) : (∀ j, keeps (B j)) → keeps (for_down n B).
Proof.
  intros HB. induction n as [|n IH]; [apply keeps_ret|].
  cbn [for_down]. apply keeps_bind; [apply HB|intros; apply IH].
Qed.
Lemma keeps_stack_args n i : keeps (stack_args n i).
Proof.
  revert i. induction n as [|n IH]; intros i; [apply keeps_ret|]. cbn [stack_args].
  unfold sp_ld. repeat (apply keeps_bind; [first [apply keeps_get | apply keeps_lift | apply IH
    | apply keeps_bind; intros; first [apply keeps_get|apply keeps_lift]]|intros]).
  apply keeps_ret.
Qed.
Lemma keeps_while {A} (cond : A → IM bool) body p x :
  (∀ x, keeps (cond x)) → (∀ x, keeps (body x)) → keeps (while_m cond body p (IFault OutOfFuel) x).
Proof.
  intros Hc Hb.
  assert (∀ n (k : A → IM A) x, (∀ y, keeps (k y)) → keeps (loop_nat cond body n k x)) as Hn.
  { induction n as [|n IH]; intros k y Hk; [apply Hk|]. cbn [loop_nat]. unfold loop_once.
    apply keeps_bind; [apply Hc|]. intros []; [|apply keeps_ret].
    apply keeps_bind; [apply Hb|]. intros z. by apply IH. }
  intros m. unfold while_m. rewrite loop_upto_nat. apply Hn. intros. apply keeps_fault.
Qed.

(** Walk through the body of an instruction. *)
Ltac keeps_one :=
  lazymatch goal with
  | |- keeps (mreturn _) => apply keeps_ret
  | |- keeps mget => apply keeps_get
  | |- keeps (modify_ctx _) => apply keeps_modify_ctx
  | |- keeps (lift _) => apply keeps_lift
  | |- keeps (code_at _) => apply keeps_code_at
  | |- keeps (code_st _ _) => apply keeps_code_st
  | |- keeps (mfail (IFault _)) => apply keeps_fault
  | |- keeps (mfail (IFatal _)) => apply keeps_fatal
  | |- keeps (stack_args _ _) => apply keeps_stack_args
  | |- keeps (mmodify _) => apply keeps_modify; intros; done
  | |- keeps (mbnd _ _) => apply keeps_bind; [|intros]
  | |- keeps (for_up _ _ _) => apply keeps_for_up; intros
  | |- keeps (for_down _ _) => apply keeps_for_down; intros
  | |- keeps (while_m _ _ _ _ _) => apply keeps_while; intros
  | |- keeps (if ?b then _ else _) => destruct b
  | |- keeps (let '(_, _) := ?x in _) => destruct x
  | |- keeps (?h _ _ _ _) => unfold h
  | |- keeps (?h _ _ _) => unfold h
  | |- keeps (?h _ _) => unfold h
  | |- keeps (?h _) => unfold h
  | |- keeps ?h => unfold h
  end.
Ltac keeps_tac := repeat (keeps_one; cbv beta zeta).

Ltac keeps_seq :=
  lazymatch goal with |- keeps (mbnd _ _) => apply keeps_bind; [keeps_tac|intros] end.

Lemma keeps_return (F : Z → Z) f g m0 :
  (∀ c, caml_external_raise (f c) = caml_external_raise c) →
  (∀ c, caml_external_raise (g c) = caml_external_raise c) →
  ∀ m, initial_external_raise m0 = initial_external_raise m →
  match (modify_ctx (set_caml_external_raise (initial_external_raise m0)) ;;;
         modify_ctx f ;;; modify_ctx g ;;;
         let* m := mget in
         mfail (A := unit) (IReturn (F (accu m)) (ctx m))) m with
  | inl (IReturn _ c) => caml_external_raise c = initial_external_raise m
  | _ => False
  end.
Proof.
  intros Hf Hg m Hm. unfold mbnd, modify_ctx, mmodify, mget, mfail. cbn.
  rewrite Hg, Hf. done.
Qed.

(** A guarded part that reads the current state. *)
Lemma keeps_get_bind {A} (k : machine → IM A) :
  (∀ m, match k m m with
        | inr (m', _) => same_activation m m'
        | inl (ILongjmp _ m') => same_activation m m'
        | inl (IReturn _ c) => caml_external_raise c = initial_external_raise m
        | inl _ => True
        end) → keeps (mbnd mget k).
Proof. intros Hk m. apply Hk. Qed.

Lemma keeps_STOP : keeps STOP.
Proof.
  unfold STOP. apply keeps_get_bind. intros m.
  pose proof (keeps_return id (set_caml_extern_sp (sp m))
    (λ c, set_caml_callback_depth (caml_callback_depth c - 1) c) m
    ltac:(done) ltac:(done) m eq_refl) as Hr.
  unfold id in Hr. by destruct (mbnd _ _ m) as [[]|[]].
Qed.

Lemma keeps_raise : keeps raise_exception.
Proof.
  unfold raise_exception. apply keeps_bind; [apply keeps_get|intros m1].
  apply keeps_bind; [keeps_tac|intros _].
  apply keeps_bind; [apply keeps_get|intros m2].
  apply keeps_bind; [keeps_tac|intros _].
  apply keeps_get_bind. intros m. destruct (_ <=? _).
  - pose proof (keeps_return Make_exception_result
      (λ c, set_caml_extern_sp (caml_stack_high c - initial_sp_offset m) c)
      (λ c, set_caml_callback_depth (caml_callback_depth c - 1) c) m
      ltac:(done) ltac:(done) m eq_refl) as Hr.
    by destruct (mbnd _ _ m) as [[]|[]].
  - match goal with |- match ?f m with _ => _ end => assert (keeps f) as Hk by keeps_tac; apply Hk end.
Qed.

(** Every entry of the instruction table. *)
Lemma keeps_instructions : Forall keeps instructions.
Proof.
  unfold instructions.
  repeat (apply Forall_cons; split; [lazymatch goal with
    | |- keeps STOP => apply keeps_STOP
    | |- keeps RAISE => apply keeps_raise
    | _ => keeps_tac end|]).
  by apply Forall_nil.
Qed.

Lemma keeps_handler op h : handler op = Some h → keeps h.
Proof.
  unfold handler. destruct (op <? 0); [done|]. intros Hh.
  pose proof keeps_instructions as Hk. rewrite Forall_forall in Hk.
  apply Hk. by eapply list_elem_of_lookup_2.
Qed.

Lemma keeps_bad_opcode : keeps bad_opcode.
Proof. keeps_tac. Qed.

Lemma keeps_restart : keeps restart_curr_instr.
Proof.
  unfold restart_curr_instr. apply keeps_bind; [apply keeps_get|intros m].
  destruct (_ !! _) as [op|]; [|apply keeps_fault]. destruct (handler op) as [h|] eqn:E.
  - by eapply keeps_handler.
  - destruct (_ || _); [apply keeps_fault|apply keeps_bad_opcode].
Qed.

Lemma keeps_next : keeps next.
Proof.
  unfold next. apply keeps_bind; [keeps_tac|]. intros op. unfold dispatch.
  destruct (op =? op_EVENT); [|destruct (op =? op_BREAK)].
  - unfold EVENT. repeat keeps_seq. apply keeps_restart.
  - unfold BREAK. repeat keeps_seq. apply keeps_restart.
  - destruct (handler op) as [h|] eqn:E; [by eapply keeps_handler|apply keeps_bad_opcode].
Qed.

Lemma on_longjmp_same m : same_activation m (on_longjmp m).
Proof. unfold on_longjmp. cbn. by destruct (saved_pc m =? 0). Qed.

Lemma keeps_step : keeps step.
Proof.
  intros m. pose proof (keeps_next m) as Hn. unfold step, catch.
  destruct (next m) as [[]|[m' x]]; try done. destruct (buf =? raise_buf m0); [|done].
  pose proof (keeps_raise (on_longjmp m0)) as Hr. pose proof (on_longjmp_same m0) as Hj.
  assert (same_activation m (on_longjmp m0)) as Hs by (by transitivity m0).
  destruct (raise_exception _) as [[]|[m' x]]; try done.
  - by transitivity (on_longjmp m0).
  - destruct Hs as (_ & _ & Hs & _). congruence.
  - by transitivity (on_longjmp m0).
Qed.

Lemma keeps_steps n : keeps (steps n).
Proof. induction n as [|n IH]; [done|]. cbn [steps]. apply keeps_bind; [apply keeps_step|done]. Qed.
End Keeps.

(** C7.  However many instructions are executed and whatever they call, an
    activation of the interpreter that returns, normally or with an exception,
    has restored the handler its caller had installed; and one that is still
    running keeps the constants it recorded at its entry: local roots, stack
    depth, caller's handler. *)
Theorem interprete_restores `{Runtime} fuel prog buf c :
  prog ≠ 0 →
  match caml_interprete_r fuel prog buf c with
  | inl (IReturn v c') => caml_external_raise c' = caml_external_raise c
  | inr m =>
      initial_external_raise m = caml_external_raise c ∧ raise_buf m = buf ∧
      initial_local_roots m = caml_local_roots c ∧
      initial_sp_offset m = s32 (caml_stack_high c - caml_extern_sp c)
  | _ => True
  end.
Proof.
  intros Hp. unfold caml_interprete_r. rewrite (proj2 (Z.eqb_neq _ _) Hp).
  pose proof (keeps_steps fuel (enter_interprete c prog buf)) as Hk.
  destruct (steps fuel _) as [[]|[m x]]; try done.
  destruct Hk as (H1 & H2 & H3 & H4). done.
Qed.

(** ** Concrete runs *)

(** A function of three parameters at 200 applied to one argument, from a
    caller at 100. *)
Definition ex_partial : machine :=
  ex_machine 200 2000 0 7000 0
    (ex_area 7968 4 0 (stores ∅ 2000 [Val_long 5; 100; 7100; Val_long 0]))
    (<[196 := op_RESTART]> (<[200 := op_GRAB]> (<[204 := 2]> ∅))).

Lemma partial_application_witness :
  ∃ m1, @step ex_runtime ex_partial = inr (m1, tt) ∧ pc m1 = 100 ∧ accu m1 = 7976.
Proof.
  destruct (@partial_application ex_runtime 2 [Val_long 5] 100 7100 0 7976 ex_partial)
    as (m1 & E & H1 & _ & _ & _ & H2 & _); [ex_side..|].
  exists m1. split; [exact E|]. split; [exact H1|exact H2].
Defined.

(** A call of primitive 12 with two arguments. *)
Definition ex_prim : machine :=
  ex_machine 100 2000 (Val_long 1) 7000 0
    (<[1992 := 0]> (stores ∅ 2000 [Val_long 2]))
    (<[100 := 94]> (<[104 := 1]> (<[108 := 12]> ∅))).

Lemma c_call_step_witness :
  ∃ c, @step ex_runtime ex_prim = inr (set_pc 112 (set_accu (Val_long 1 + (Val_long 2 + 0))
    (set_env 7000 (set_saved_pc 0 (set_sp 2008 (set_ctx c ex_prim))))), tt).
Proof.
  destruct (@c_call_step ex_runtime [Val_long 2] 1 12 ex_prim) as (_ & Hret & _); [ex_side..|].
  eexists. refine (Hret _ _ 7000 eq_refl _). vm_compute. reflexivity.
Defined.

(** 7 / 0 under a handler at 500; [Division_by_zero] is at 6000. *)
Definition ex_zero : machine :=
  set_ctx (set_caml_trapsp 2100 (ctx (ex_machine 100 2000 (Val_long 7) 7000 0
    (<[5040 := 6000]> (ex_area 7984 2 0 (<[2000 := Val_long 0]>
      (stores ∅ 2100 [500; 3000; 7100; Val_long 0]))))
    (<[100 := op_DIVINT]> ∅))))
    (ex_machine 100 2000 (Val_long 7) 7000 0 ∅ ∅).

Lemma division_by_zero_witness :
  ∃ m', @step ex_runtime ex_zero = inr (m', tt) ∧ pc m' = 500 ∧ accu m' = 7992.
Proof.
  destruct (@division_by_zero ex_runtime op_DIVINT 6000 7992 (Val_long 0) 500 3000 7100 0 ex_zero)
    as (m' & E & H1 & _ & _ & _ & _ & H2 & _); [ex_side..|].
  exists m'. split; [exact E|]. split; [exact H1|exact H2].
Defined.

(** Two programs: at 100, CONST1 and STOP; at 200, CONST2 and RAISE, with no
    handler of its own.  The handler of the caller is 77. *)
Definition ex_program : context := ex_context ∅ (<[100 := 100]> (<[104 := 143]> (<[200 := 101]> (<[204 := 91]> ∅)))).

Definition ex_result (r : istop + machine) : option Z := match r with inl (IReturn v _) => Some v | _ => None end.
Definition ex_live (r : istop + machine) : option Z := match r with inr m => Some (pc m) | _ => None end.

Lemma ex_result_eq r v : ex_result r = Some v → ∃ c, r = inl (IReturn v c).
Proof. destruct r as [[]|m]; try done. intros [= ->]. by eexists. Qed.
Lemma ex_live_eq r p : ex_live r = Some p → ∃ m, r = inr m ∧ pc m = p.
Proof. destruct r as [[]|m]; try done. intros [= <-]. by exists m. Qed.

(** The first program returns 1, the second the exception with argument 2; after
    one instruction the first one is still running, under its own handler. *)
Lemma interprete_restores_witness :
  (∃ c, @caml_interprete_r ex_runtime 5 100 88 ex_program = inl (IReturn (Val_long 1) c) ∧ caml_external_raise c = 77) ∧
  (∃ c, @caml_interprete_r ex_runtime 5 200 88 ex_program = inl (IReturn (Z.lor (Val_long 2) 2) c) ∧ caml_external_raise c = 77) ∧
  (∃ m, @caml_interprete_r ex_runtime 1 100 88 ex_program = inr m ∧ pc m = 104 ∧ initial_external_raise m = 77 ∧ raise_buf m = 88).
Proof.
  split; [|split].
  - pose proof (@interprete_restores ex_runtime 5 100 88 ex_program ltac:(discriminate)) as Hr. destruct (ex_result_eq (@caml_interprete_r ex_runtime 5 100 88 ex_program) (Val_long 1) ltac:(vm_compute; reflexivity)) as [c E].
    rewrite E in Hr. exists c. exact (conj E Hr).
  - pose proof (@interprete_restores ex_runtime 5 200 88 ex_program ltac:(discriminate)) as Hr. destruct (ex_result_eq (@caml_interprete_r ex_runtime 5 200 88 ex_program) (Z.lor (Val_long 2) 2) ltac:(vm_compute; reflexivity)) as [c E].
    rewrite E in Hr. exists c. exact (conj E Hr).
  - pose proof (@interprete_restores ex_runtime 1 100 88 ex_program ltac:(discriminate)) as Hr. destruct (ex_live_eq (@caml_interprete_r ex_runtime 1 100 88 ex_program) 104 ltac:(vm_compute; reflexivity)) as (m & E & Hp).
    rewrite E in Hr. destruct Hr as (H1 & H2 & _). exists m. exact (conj E (conj Hp (conj H1 H2))).
Defined.

End Interp.
